(* ===== verification/_CoqProject ===== *)
-Q . S2P
Prelude.v
Ids.v
JobGraph.v
Topology.v
TopologyFacts.v
JobState.v
JobScheduler.v
AttemptsFacts.v
RegionFacts.v
RefreshFacts.v
SchedulerSystem.v
SchedulerTheorems.v
TaskAssigner.v
TaskAssignerFacts.v
AssignerTheorems.v
Streams.v
StreamTheorems.v
Actor.v
TaskCodec.v
Wiring.v
StreamManager.v
StreamManagerTheorems.v
Worker.v
WorkerTheorems.v
Rpc.v
WorkerPool.v
WorkerPoolTheorems.v
DriverInterfaces.v
JobOutput.v
Driver.v
DriverFacts.v
DriverTheorems.v
Cluster.v
Collections.v
CatalogNames.v
CatalogTypes.v
CatalogProvider.v
CatalogTypesTheorems.v
CatalogCache.v
CatalogCacheTheorems.v
CatalogTheorems.v
CatalogManager.v
CatalogCommand.v
CatalogManagerTheorems.v
DeltaSpec.v
DeltaProperties.v
DeltaLog.v
DeltaSegment.v
DeltaSnapshot.v
DeltaCheckpoint.v
DeltaTransaction.v
DeltaLogFacts.v
DeltaCheckpointFacts.v
DeltaStoreSystem.v
DeltaTheorems.v
DeltaCommitTheorems.v
DeltaCompactionTheorems.v
FlowEvents.v
EpochCoordinator.v
FlowAlign.v
KeyGroups.v
FlowExchange.v
FlowMerge.v
FlowMergeTheorems.v
FlowState.v
FlowOps.v
StreamJoin.v
WindowSpill.v
JoinGraph.v
JoinSets.v
JoinEnumerator.v
JoinPlans.v
Samples.v
SchedulerWitnesses.v
StreamWitnesses.v
DriverWitnesses.v
WorkerWitnesses.v
CatalogWitnesses.v
DeltaWitnesses.v
FlowWitnesses.v
