(* ===== verification/Prelude.v ===== *)
(** * Zelox: a verification library

    Zelox runs Spark plans on a cluster.  A driver process cuts a physical plan into
    a graph of stages, schedules the tasks of the stages on workers, moves the data
    between tasks through streams, retries what fails and merges the final streams
    into the output of the job.  A session keeps its catalogs, databases, tables,
    views and functions in a catalog manager.  This library models the control plane
    of driver and workers, the crate [zelox-execution] under [src/crates/], and the
    catalog of a session, the crates [zelox-catalog] and [zelox-catalog-memory],
    the transaction log of Delta Lake tables, the crate [zelox-delta-lake], and the
    events, exchanges and checkpoints of streaming queries, in
    [zelox-common-datafusion] and [zelox-physical-plan], and the order of joins that
    the physical optimizer chooses, in [zelox-physical-optimizer], and proves what makes
    them correct.

    ** The program and its model

    The driver is an actor ([driver/actor/]): one thread takes events
    ([driver/event.rs]) from a queue and runs one handler per event to completion.
    It owns five components, which never call each other; the handlers move what one
    decides to the next.

    - The job scheduler ([driver/job_scheduler/]) keeps, per job, the graph, its
      topology and the attempts of every task.  [refresh_job] looks at the attempts
      and answers with job actions: schedule a region, cancel a task, add a stream
      to the output, fail the output, clean up.  [Topology.v] is
      [JobTopology::try_new]; [JobState.v] the descriptors of [state.rs];
      [JobScheduler.v] the operations of [core.rs], pass by pass.
    - The task assigner ([driver/task_assigner/]) keeps the queue of regions, the
      slots of the workers and of the driver, where each task was placed, and which
      streams each side owns: [TaskAssigner.v].
    - The worker pool ([driver/worker_pool/]) keeps the life cycle of the workers,
      their probes and clients: [WorkerPool.v].
    - The stream manager ([stream_manager/]) keeps the local streams of the driver
      by key, with the readers that wait for a stream not yet created:
      [StreamManager.v], on the streams of [stream_manager/local.rs] and the bounded
      channels they use, [Streams.v].
    - The task runner ([task_runner/core.rs]) keeps the stop signals of the tasks
      that run on the driver itself; it is a field of the driver in [Driver.v].

    [Driver.v] has one definition per handler of [driver/actor/handler.rs], the
    dispatch [receive], [driver_start] and [driver_stop].  [JobOutput.v] is the
    stream of [driver/output.rs] that merges the task streams of a job.  [Ids.v] has
    the keys of [id.rs] and the errors; [JobGraph.v] the data of [job_graph/mod.rs]
    and [task/]; [Actor.v] the events, and the effects a handler leaves in the actor
    context.

    A worker ([worker/]) is an actor as well: [Worker.v] has its handlers, its table of
    peers ([worker/peer_tracker/]), and the reports of the monitor that watches a task
    ([task_runner/monitor.rs]); it uses the same stream manager, which is generic in the
    context it sends to.  [TaskCodec.v] has the conversions of task definitions to the
    messages of [proto/] and back ([task/definition.rs]) and the locations a task reads
    and writes; [Rpc.v] the requests of the clients and what the servers make of them
    ([driver/client.rs], [driver/server.rs], [worker/client.rs], [worker/server.rs], the
    tickets of [stream_service/]).  [Wiring.v] puts scheduler and locations together;
    [Cluster.v] puts the driver's pool and the workers together as one system.

    The catalog is a stack.  [CatalogNames.v] has namespaces, quoting, patterns and
    errors ([error.rs], [utils.rs], [provider/namespace.rs]); [CatalogTypes.v] the
    statuses and options ([zelox-common-datafusion/src/catalog/],
    [provider/options.rs]); [CatalogProvider.v] the trait [CatalogProvider] as a class
    and the in-memory provider as an instance; [CatalogCache.v] the provider that
    caches the listings of another one ([provider/cache.rs]), again an instance;
    [CatalogManager.v] the manager of a session with its temporary views and functions
    ([manager/], [temp_view.rs]); [CatalogCommand.v] the execution of the catalog
    statements ([command.rs]).

    A Delta table is a directory of files and a log: version [v] of the table is what
    the actions of the commit files [0..v] make of an empty table.  [DeltaSpec.v] has
    the actions, operations and errors ([spec/]); [DeltaProperties.v] the table
    properties and how they are parsed; [DeltaLog.v] the directory as a record of files
    by kind and version, and the replay of commits into a [ReconciledCheckpointState]
    ([storage/mod.rs], [kernel/checkpoints.rs], [delta_log/timestamps.rs]);
    [DeltaSegment.v] the choice of files for a version and the loading of the whole
    state ([delta_log/segment.rs], [listing.rs], [replay.rs]); [DeltaSnapshot.v] the
    loading of protocol, metadata and transactions alone, from checksums where
    possible, what this engine can read and write
    ([kernel/transaction/protocol.rs]) and snapshots ([kernel/snapshot/mod.rs]);
    [DeltaCheckpoint.v] checkpoints of both versions, with the statistics that they
    keep as JSON, as a struct or not at all ([kernel/checkpoint_augment.rs]), log
    compaction and clean-up ([kernel/checkpoints.rs], [delta_log/cleanup.rs]);
    [DeltaTransaction.v] the check
    for conflicts, the loop of attempts and what follows a commit
    ([kernel/transaction/]).  Other writers may change the directory between any two
    steps of a commit.

    A streaming query is a graph of operators that exchange flow events: batches of rows
    and markers (watermarks, checkpoints, idleness, the end), encoded as record batches.
    A checkpoint marker cuts every stream; an operator that has it on all of its inputs
    writes its state for the epoch, and the coordinator declares the epoch complete when
    all tasks have acknowledged it.  [FlowEvents.v] has the events and their encoding
    ([streaming/event/]) and the classification of batches; [EpochCoordinator.v] the
    coordinator ([streaming/coordinator.rs]); [FlowAlign.v] the merge that blocks inputs
    at their checkpoints ([streaming/barrier_align.rs]); [KeyGroups.v] the groups of keys
    and their owners; [FlowExchange.v] and [FlowMerge.v] the two ends of an exchange and
    the coalescer ([streaming/exchange.rs]); [FlowState.v] the checkpoint store, the
    blobs, chunks and manifests in it and the restore after a change of the parallelism
    ([streaming/checkpoint.rs], [streaming/state_io.rs]); [WindowSpill.v] the spilled
    state of the window operator ([streaming/window_accum.rs]); [FlowOps.v] the limit,
    the collector that makes a table of a changelog, deduplication, the operator that
    generates watermarks and the adapter of sources ([streaming/limit.rs],
    [collector.rs], [dedup.rs], [watermark.rs], [source_adapter.rs]); [StreamJoin.v] the
    join of two streams, with its spilled buffers and its snapshot
    ([streaming/stream_join.rs]).  The streams are
    finite sequences of items; each iteration of a loop that waits for several inputs is
    a step, given the input that is ready, so that a run is any interleaving.

    Before a physical plan is cut into stages, the optimizer reorders its inner joins
    ([join_reorder/]).  [JoinGraph.v] has sets of relations as 64-bit words
    ([join_set.rs]), plans and their cost ([dp_plan.rs], [cost_model.rs]) and the graph
    of relations and conditions, with its trie of neighbours ([graph.rs]);
    [JoinEnumerator.v] the estimate of cardinalities ([cardinality_estimator.rs]), the
    enumeration of pairs of connected sets and the greedy fallback ([enumerator.rs]),
    and the choice between the two ([mod.rs]).  The enumerator is a state and error
    monad over its table of plans.  Numbers of rows and costs are doubles, computed as
    IEEE 754 prescribes with [SpecFloat].

    [Collections.v] has what the components use of hash maps and of stable sorting.

    A record of the code is a [Record], an enum an [Inductive], with the fields and
    constructors of the source.  A method that takes [&mut self] returns the new
    state; what a handler asks of the runtime (a message to itself, possibly after a
    delay, a spawned task, a reply) is appended to [ctx_effects] in order.  Rust
    code that can panic (indexing, division, a channel of capacity zero) returns a
    [Run]: [m ⇓ Q] says that [m] returns, without a panic and without running out of
    fuel, a value that satisfies [Q].  [IndexMap] and [IndexSet] are lists in
    insertion order; a [HashMap] is a [gmap], and where the code iterates over hash
    containers the order is the parameter [hash_order], an arbitrary permutation.
    [usize] counts that are compared or saturated are [N] with the bound written out
    ([u64_max]); indices and sizes of vectors are [nat].

    ** Parameters

    What is not in the repository is a parameter, an instance of a class:
    [DataFusion] (plans, schemas, their encoding), [ForeignCauses] (the cause
    extracted from a foreign error), [HashOrder], [Planner] ([JobGraph::try_new],
    with the law [PlannerLaws] that the stages it returns are topologically
    ordered), [Clock] (with [ClockLaws]: [Instant] is monotonic), [DiskIo] and
    [PlanExecutor] (starting a decoded plan), [Target] (the width of [usize], at most
    64 bits by [TargetLaws]), [WireFormat] (the bytes of messages and the text of error
    causes, with their round trips as [WireFormatLaws]), [RegexEngine],
    [CatalogEngine] (the opaque parts of data types, plans and functions) and
    [TableFormats] (the formats that keep metadata in storage) and [DeltaEngine] (the
    text of Delta schemas, their conversion to Arrow and the version of the package; for
    checkpoints the schema of the statistics of given columns, Arrow's reader and writer
    of a line of JSON, and whether [serde_arrow], the parser of partition values and the
    Parquet writer accept a batch).
    For streams they are [FlowEngine] and [BatchCheck] (Arrow's arrays and batches,
    times, Protobuf, with [FlowEngineLaws] and [BatchCheckLaws]), [KeyHasher],
    [Coalescer] (with [CoalescerLaws]) and [StateCodec] (Arrow's IPC format, filter and
    hashes, with [StateCodecLaws]) and [FlowColumns] (the columns, scalars and row
    encoding that the operators read) and [JoinLibrary] (the hash join, the filter and
    the size of a batch, with [JoinLaws] over the rows of [JoinRows]); the instants that an operator reads from the clock
    are part of its input.  [JoinEngine] has the statistics, columns and filters of
    relations.  [StoreIo] says which accesses to the checkpoint
    store fail.  [FlowWitnesses.v] has concrete instances.
    What other writers do to a Delta table and what the clock shows during a commit is
    the argument [Surroundings], the names and sizes of the files a checkpoint writes the
    argument [CheckpointEnv].  [Samples.v] instantiates all of them
    with concrete functions, and the witnesses run the model on these.  The placement
    policy, which the process reads from its environment, is an argument.

    ** What is proved

    - [TopologyFacts.v], [RegionFacts.v]: regions partition the tasks
      of a job and depend on exactly the regions they read from; consistent graphs
      are never rejected; the sets of a region hold every task once.
    - [AttemptsFacts.v], [RefreshFacts.v], [SchedulerSystem.v] and
      [SchedulerTheorems.v]: the scheduler as a transition system; its invariant
      (well-formed jobs, bounded attempts), the exact effect of every pass of a
      refresh, that attempts never regress, that a stream enters an output at most
      once, that a running job always has a live task, and the inputs a task is given.
    - [TaskAssignerFacts.v], [AssignerTheorems.v]: every task in at most one slot and
      recorded there; regions placed as a whole and in order; the number of workers
      requested; even spreading.
    - [StreamTheorems.v]: a memory stream as a concurrent system of a
      writer and readers; every reader gets a prefix of what was written, nothing is
      lost while it reads, and closing delivers everything.
    - [StreamManagerTheorems.v]: readers that come before the
      stream exists are served or told that it failed.
    - [WorkerPoolTheorems.v]: the life cycle of workers, the
      probes that are always outstanding, dispatching.
    - [DriverInterfaces.v] has the interfaces between components
      that the driver relies on: the scheduler hands over exactly the attempts it has
      just created, the assigner only forgets, a worker runs until it is stopped.
    - [DriverFacts.v], [DriverTheorems.v]: over any sequence of events, in any order
      and with any contents, the driver never panics, its components agree, assigned
      tasks are launched on running workers, stale reports are ignored, and lost and
      idle workers are dealt with.
    - [JobOutput.v]: at most one attempt per channel is merged at a time.
    - [TaskCodec.v], [Rpc.v]: task definitions and requests survive the wire, by round
      trips composed from those of their parts; [Wiring.v]: what a task reads is what
      the tasks of its input stage write, channel by channel.
    - [WorkerTheorems.v]: the worker never panics and keeps its invariant; its reports
      are numbered without gaps.  [Cluster.v]: with messages lost, repeated and
      reordered, a late report changes nothing and a worker can reach the peers of
      every task it starts.
    - [CatalogNames.v], [CatalogTypesTheorems.v]: quoted names can be read back;
      changing the type of a nested column is a lens; which alterations are applied in
      part, by a specification of columns, properties and nested types of their own
      ([spec_alter]).  [CatalogTheorems.v]: the in-memory catalog is well typed, in the
      reply to every call, and refines a flat catalog, which lists the databases
      directly in a prefix or at the top.  [CatalogCacheTheorems.v]: caching is
      transparent for sequential calls none of which fails after it has changed a
      listing, for any provider that keeps the laws [ListingLaws] (the in-memory one
      does), and not for concurrent ones; [failed_drop_listed] of [CatalogWitnesses.v]
      shows a stale listing after a call that failed half-way.  [CatalogManagerTheorems.v]: the invariant
      of a session, and how [ALTER TABLE] treats the storage and the catalog.
    - [DeltaLogFacts.v], [DeltaCheckpointFacts.v] and [DeltaStoreSystem.v]: the abstract table is the list of its
      commits; [log_reachable] relates it to the directories that commits,
      checkpoints, checksums and clean-ups lead to, with the history of the checkpoints
      written and when, and a checkpoint read back is the state it was written from, but
      for what had outlived the retention of the table at that time and for statistics,
      where the table has turned them off as JSON ([losses]).  [DeltaTheorems.v]: what is
      loaded is the state of the log but for the losses of the checkpoints up to that
      version, and its files are exact where statistics are kept; every version from the last checkpoint on loads,
      and earlier ones may not although their files are there.
      [DeltaCommitTheorems.v]: with other writers at work a commit
      is an atomic append, on the table that its transaction has read; append-only
      tables keep their data; time stamps inside commits grow; what was committed can
      be loaded.  [DeltaCompactionTheorems.v]: when a
      compaction can stand for its commits and when not, and that the merge of commits
      and compactions ends and visits every version once.
    - [FlowEvents.v]: events survive their encoding, and a batch decodes to what
      is between its markers.  [EpochCoordinator.v]: a completed checkpoint holds one
      acknowledgement of each task for an epoch that was triggered, epochs complete in
      order, and the last acknowledgement completes an epoch.  [FlowAlign.v]:
      the alignment is a consistent cut in every interleaving, ends, and loses nothing.
      [KeyGroups.v], [FlowExchange.v]: each key group has one owner, rows go to
      the owner of their group between the same checkpoints, the coalescer reorders
      nothing.  [FlowMergeTheorems.v]: merged watermarks are safe and barriers complete,
      the merge ends and delivers everything, but its barriers are no consistent cut.
      [FlowState.v]: a staged checkpoint restores to what was staged whatever
      else happens to the store, and after a change of the parallelism the instances
      partition the state.  [WindowSpill.v]: the retained epochs of the window
      operator can be restored within a run; the first spill after a restart writes over
      chunk 0 of the committed epoch, and one that lags may lose its chunks.  [FlowOps.v]: a limit yields the rows it should, a
      collection is the table that its changelog describes, a key comes through
      deduplication once until a watermark releases it, and generated watermarks increase
      and hold.  [StreamJoin.v]: the output of a join is every matching pair once, though
      buffers are spilled, read back and pruned by watermarks, and also across a restart
      from a snapshot.
    - [JoinSets.v]: words as sets, and the trie as the list of its entries.
      [JoinPlans.v]: the trie answers as the conditions do; the plan that is chosen is a
      tree with every relation once and no condition twice, found without panic and
      within the fuel; connected relations are joined without cross joins by as many
      conditions as there are; the classes of join columns are those of the equalities.
    - [SchedulerWitnesses.v], [StreamWitnesses.v],
      [DriverWitnesses.v], [WorkerWitnesses.v], [CatalogWitnesses.v],
      [DeltaWitnesses.v] and [FlowWitnesses.v] apply the
      theorems to concrete runs; [DriverWitnesses.v] also has two runs that show what
      the code does not ensure, [output_duplicates] and
      [probe_pending_worker_strands_queue].

    ** Loops and fuel

    Loops over collections are folds.  Two [while] loops need fuel.  The breadth-first
    search of [Topology.v] has the number of stages, each of which enters the queue at
    most once, and [topology_correct] proves that it never runs out.  The merge of
    commits and compactions in [DeltaLog.v] has the number of versions, and
    [replay_sequence_covers] proves that more changes nothing.  The loop of commit
    attempts is bounded by the code itself.  The asynchronous loops of a memory stream are modelled one iteration at
    a time ([credit_iteration], [close_iteration]), since the loop waits for readers
    between iterations; so are the merges of flow events, for which
    [alignment_terminates] and [merge_delivers] bound the number of steps.  The two
    recursions of the join enumeration have fuel 65 and the greedy loop 64: the set of
    forbidden relations grows at each call, the set of those that remain shrinks at each
    round, and a word has 64 relations; [best_plan_orders_relations] proves that none
    runs out.

    ** What is not modelled

    An operation of the scheduler reads the wall clock once where the code reads it
    for each time stamp; times are only stored.  Logging and tracing are left out, and
    so are the read-only event [ObserveState] and the filtered observers, the content
    of what is spawned (remote calls, the pump of the job output) and the files of disk
    streams.  A lock of the catalog is never poisoned, and a catalog call is one step
    except where [CatalogCache.v] splits a listing in two.  Of Delta tables, the bytes of
    the files (JSON, Parquet), failures of the storage other than files that cannot be
    decoded, the values of parsed partition columns in checkpoints, temporary commit files, the metrics of
    operations and everything that reads or writes data files are left out; an attempt
    to commit reads the directory at one moment, and a checkpoint or a clean-up is one
    step.  Of streaming, the filter (DataFusion's, applied to each
    batch), the aggregation and emission of windows, the sources and sinks, the record of the
    committed epoch and the listings of the checkpoint store are left out.  Of join
    reordering, the search for regions in a physical plan ([builder.rs]) and the plan that
    is built for an order ([reconstructor.rs], the projections of [mod.rs]) are left out;
    the theorems assume at most 63 relations, the builder ends a region at 12.  Doubles
    have a single NaN.  The planner, the worker
    managers, the codec of physical plans, the catalogs of other systems and all other
    crates (plan resolution, functions, data sources, other table formats, other optimizer rules, the SQL
    parser) are outside this library. *)

From stdpp Require Export base tactics list option strings numbers gmap pretty.
From Stdlib Require Export Lia.

#[global] Set Default Goal Selector "!".

(** ** Computations that may panic

    A Rust function that indexes a vector, divides, or unwraps may panic.
    [Run A] is the outcome of such a function; [OutOfFuel] is the outcome of
    a [while] loop whose model ran out of the iterations it was given. *)
Inductive Run (A : Type) : Type :=
| Returns (a : A)
| Panics
| OutOfFuel.
Arguments Returns {A} a.
Arguments Panics {A}.
Arguments OutOfFuel {A}.

#[global] Instance Run_ret : MRet Run := λ A a, Returns a.
#[global] Instance Run_bind : MBind Run := λ A B k m,
  match m with
  | Returns a => k a
  | Panics => Panics
  | OutOfFuel => OutOfFuel
  end.
#[global] Instance Run_fmap : FMap Run := λ A B f m,
  match m with
  | Returns a => Returns (f a)
  | Panics => Panics
  | OutOfFuel => OutOfFuel
  end.

(** [total m Q]: [m] returns (it neither panics nor runs out of fuel) and its
    value satisfies [Q]. *)
Definition total {A} (m : Run A) (Q : A → Prop) : Prop :=
  match m with
  | Returns a => Q a
  | _ => False
  end.

(** Partial correctness: if [m] returns, its value satisfies [Q]. *)
Definition partial {A} (m : Run A) (Q : A → Prop) : Prop :=
  match m with
  | Returns a => Q a
  | _ => True
  end.

Declare Scope run_scope.
Delimit Scope run_scope with run.
Notation "m ⇓ Q" := (total m Q) (at level 70, Q at next level) : run_scope.
Open Scope run_scope.

Section run_lemmas.
Context {A B : Type}.

Lemma total_inv (m : Run A) Q : m ⇓ Q → ∃ a, m = Returns a ∧ Q a.
Proof. destruct m; simpl; [eauto|done|done]. Qed.

Lemma total_intro (m : Run A) a (Q : A → Prop) : m = Returns a → Q a → m ⇓ Q.
Proof. by intros ->. Qed.

Lemma total_ret (a : A) (Q : A → Prop) : Q a → Returns a ⇓ Q.
Proof. done. Qed.

Lemma bind_returns (m : Run A) (f : A → Run B) b :
  m ≫= f = Returns b → ∃ a, m = Returns a ∧ f a = Returns b.
Proof. destruct m; [eauto|done|done]. Qed.

Lemma total_bind (m : Run A) (k : A → Run B) Q :
  m ⇓ (λ a, k a ⇓ Q) → (m ≫= k) ⇓ Q.
Proof. by destruct m. Qed.

Lemma total_fmap (f : A → B) (m : Run A) (Q : B → Prop) :
  m ⇓ (λ a, Q (f a)) → (f <$> m) ⇓ Q.
Proof. by destruct m. Qed.

Lemma total_mono (m : Run A) (P Q : A → Prop) :
  m ⇓ P → (∀ a, P a → Q a) → m ⇓ Q.
Proof. destruct m; simpl; auto. Qed.

Lemma total_partial (m : Run A) (P Q : A → Prop) :
  m ⇓ P → partial m Q → m ⇓ (λ a, P a ∧ Q a).
Proof. destruct m; simpl; auto. Qed.
End run_lemmas.

(** ** Vectors

    [v[i]] panics out of range, [v.get(i)] is stdpp's lookup; an assignment
    through [v[i]] panics out of range too. *)
Section vec.
Context {A : Type}.

Definition vec_index (l : list A) (i : nat) : Run A :=
  match l !! i with
  | Some x => Returns x
  | None => Panics
  end.

Definition vec_update (l : list A) (i : nat) (f : A → A) : Run (list A) :=
  match l !! i with
  | Some x => Returns (<[i := f x]> l)
  | None => Panics
  end.

Lemma total_vec_index (l : list A) i x (Q : A → Prop) :
  l !! i = Some x → Q x → vec_index l i ⇓ Q.
Proof. unfold vec_index. by intros ->. Qed.

Lemma total_vec_update (l : list A) i f x (Q : list A → Prop) :
  l !! i = Some x → Q (<[i := f x]> l) → vec_update l i f ⇓ Q.
Proof. unfold vec_update. by intros ->. Qed.

Lemma vec_index_returns (l : list A) i x :
  vec_index l i = Returns x ↔ l !! i = Some x.
Proof. unfold vec_index. destruct (l !! i); naive_solver. Qed.
End vec.

(** ** Loops and iterator adaptors whose closure may panic *)
Section loops.
Context {A S : Type}.

(** [for x in l { body }] on a loop state. *)
Fixpoint for_each (f : S → A → Run S) (s : S) (l : list A) : Run S :=
  match l with
  | [] => Returns s
  | x :: l => s' ← f s x; for_each f s' l
  end.

(** [iter.any(p)]: stops at the first [true]. *)
Fixpoint run_any (p : A → Run bool) (l : list A) : Run bool :=
  match l with
  | [] => Returns false
  | x :: l => b ← p x; if (b : bool) then Returns true else run_any p l
  end.

(** [iter.all(p)]: stops at the first [false]. *)
Fixpoint run_all (p : A → Run bool) (l : list A) : Run bool :=
  match l with
  | [] => Returns true
  | x :: l => b ← p x; if (b : bool) then run_all p l else Returns false
  end.

Lemma for_each_app f s (l1 l2 : list A) :
  for_each f s (l1 ++ l2) = (s' ← for_each f s l1; for_each f s' l2).
Proof.
  revert s. induction l1 as [|x l1 IH]; intros s; [done|].
  simpl. destruct (f s x); simpl; auto.
Qed.

(** The loop rule: an invariant indexed by the elements already visited. *)
Lemma total_for_each f (I : list A → S → Prop) (l : list A) s :
  I [] s →
  (∀ pre x post s, l = pre ++ x :: post → I pre s →
     f s x ⇓ I (pre ++ [x])) →
  for_each f s l ⇓ I l.
Proof.
  intros HI Hstep.
  assert (∀ post pre s, l = pre ++ post → I pre s →
            for_each f s post ⇓ I l) as Hgen; [|by eapply (Hgen l [])].
  clear s HI. induction post as [|x post IH]; intros pre s -> HI.
  { by rewrite app_nil_r. }
  simpl. apply total_bind. eapply total_mono; [by eapply Hstep|].
  intros s' HI'. apply (IH (pre ++ [x])); [|done].
  by rewrite <-(assoc_L _).
Qed.

(** The same rule for an invariant that does not mention the progress. *)
Lemma total_for_each_inv f (I : S → Prop) (l : list A) s :
  I s → (∀ x s, x ∈ l → I s → f s x ⇓ I) → for_each f s l ⇓ I.
Proof.
  intros HI Hstep. apply (total_for_each f (λ _, I)); [done|].
  intros pre x post s' -> HI'. apply Hstep; [set_solver|done].
Qed.

Lemma run_any_pure (p : A → Run bool) (q : A → bool) (l : list A) :
  (∀ x, x ∈ l → p x = Returns (q x)) →
  run_any p l = Returns (existsb q l).
Proof.
  induction l as [|x l IH]; intros Hp; simpl; [done|].
  rewrite Hp by set_solver. simpl. destruct (q x); simpl; [done|].
  apply IH. set_solver.
Qed.

Lemma run_all_pure (p : A → Run bool) (q : A → bool) (l : list A) :
  (∀ x, x ∈ l → p x = Returns (q x)) →
  run_all p l = Returns (forallb q l).
Proof.
  induction l as [|x l IH]; intros Hp; simpl; [done|].
  rewrite Hp by set_solver. simpl. destruct (q x); simpl; [|done].
  apply IH. set_solver.
Qed.
End loops.

(** Nested loops are one loop over the flattened sequence. *)
Lemma for_each_nested {S A B} (f : S → A → B → Run S) (h : A → list B) (s : S) (l : list A) :
  for_each (λ s x, for_each (λ s y, f s x y) s (h x)) s l =
  for_each (λ s '(x, y), f s x y) s (x ← l; pair x <$> h x).
Proof.
  revert s. induction l as [|x l IH]; intros s; [done|].
  simpl. rewrite for_each_app.
  assert (∀ s, for_each (λ s y, f s x y) s (h x) =
               for_each (λ s '(x, y), f s x y) s (pair x <$> h x)) as ->.
  { clear. induction (h x) as [|y l IH]; intros s; [done|]. simpl.
    destruct (f s x y); simpl; auto. }
  destruct (for_each _ _ _); simpl; auto.
Qed.

Lemma for_each_ext {S A} (f f' : S → A → Run S) (s : S) (l : list A) :
  (∀ s x, x ∈ l → f s x = f' s x) → for_each f s l = for_each f' s l.
Proof.
  revert s. induction l as [|x l IH]; intros s Hf; [done|].
  simpl. rewrite Hf by set_solver. destruct (f' s x); simpl; [|done..].
  apply IH. set_solver.
Qed.

(** [iter.map(f).collect()] with a closure that may panic. *)
Fixpoint run_map {A B} (f : A → Run B) (l : list A) : Run (list B) :=
  match l with
  | [] => Returns []
  | x :: l => y ← f x; ys ← run_map f l; Returns (y :: ys)
  end.

Lemma run_map_pure {A B} (f : A → Run B) (h : A → B) (l : list A) :
  (∀ x, x ∈ l → f x = Returns (h x)) → run_map f l = Returns (h <$> l).
Proof.
  induction l as [|x l IH]; intros Hf; [done|]. simpl.
  rewrite Hf by set_solver. simpl. rewrite IH by set_solver. done.
Qed.

Lemma total_run_map {A B} (f : A → Run B) (Q : A → B → Prop) (l : list A) :
  (∀ x, x ∈ l → f x ⇓ Q x) → run_map f l ⇓ Forall2 Q l.
Proof.
  induction l as [|x l IH]; intros Hf; [constructor|]. simpl.
  apply total_bind. eapply total_mono; [apply Hf; set_solver|].
  intros y Hy. apply total_bind. eapply total_mono; [apply IH; set_solver|].
  intros ys Hys. by constructor.
Qed.

(** ** Results *)
Inductive Result (E A : Type) : Type :=
| Ok (a : A)
| Err (e : E).
Arguments Ok {E A} a.
Arguments Err {E A} e.

Definition is_ok {E A} (r : Result E A) : bool :=
  match r with Ok _ => true | Err _ => false end.

(** [r?] followed by the rest of the function. *)
#[global] Instance Result_bind {E} : MBind (Result E) := λ A B k m,
  match m with
  | Ok a => k a
  | Err e => Err e
  end.
#[global] Instance Result_ret {E} : MRet (Result E) := λ A a, Ok a.

(** [iter.collect::<Result<Vec<_>, _>>()]: the first error wins. *)
Fixpoint collect_results {E A} (l : list (Result E A)) : Result E (list A) :=
  match l with
  | [] => Ok []
  | r :: l => a ← r; al ← collect_results l; Ok (a :: al)
  end.

Lemma collect_results_Ok {E A} (l : list (Result E A)) (al : list A) :
  collect_results l = Ok al ↔ l = Ok <$> al.
Proof.
  revert al. induction l as [|r l IH]; intros al; simpl.
  - by destruct al.
  - destruct r as [a|e]; simpl; [|by destruct al].
    destruct (collect_results l) as [al'|e] eqn:E'; simpl.
    + destruct (IH al') as [H _]. rewrite (H eq_refl).
      split; [by intros [= <-]|].
      destruct al as [|a0 al]; simpl; intros [= -> H2].
      f_equal. f_equal.
      revert al H2. clear. induction al' as [|b al' IH]; intros [|c al] H2;
        simplify_eq/=; [done|]. f_equal. by apply IH.
    + split; [done|]. destruct al as [|a0 al]; simpl; intros [= -> H2].
      by apply IH in H2.
Qed.

(** ** Insertion-ordered maps and sets (the [indexmap] crate) *)

(** [IndexMap<K, V>]: entries in insertion order. *)
Section index_map.
Context {K V : Type} `{EqDecision K}.

Fixpoint im_get (k : K) (m : list (K * V)) : option V :=
  match m with
  | [] => None
  | (k', v) :: m => if decide (k = k') then Some v else im_get k m
  end.

(** [insert] replaces in place, or appends a new entry at the end. *)
Fixpoint im_insert (k : K) (v : V) (m : list (K * V)) : list (K * V) :=
  match m with
  | [] => [(k, v)]
  | (k', v') :: m =>
      if decide (k = k') then (k', v) :: m else (k', v') :: im_insert k v m
  end.

Definition im_keys (m : list (K * V)) : list K := m.*1.
Definition im_values (m : list (K * V)) : list V := m.*2.
Definition im_wf (m : list (K * V)) : Prop := NoDup (im_keys m).

Lemma im_get_insert_eq k v m : im_get k (im_insert k v m) = Some v.
Proof.
  induction m as [|[k' v'] m IH]; simpl; [by rewrite decide_True|].
  destruct (decide (k = k')); simpl; [by rewrite decide_True|].
  by rewrite decide_False.
Qed.

Lemma im_get_insert_ne k k' v m :
  k ≠ k' → im_get k' (im_insert k v m) = im_get k' m.
Proof.
  intros Hne. induction m as [|[k2 v2] m IH]; simpl.
  { by rewrite decide_False by congruence. }
  destruct (decide (k = k2)) as [->|]; simpl.
  - by rewrite !decide_False by congruence.
  - by rewrite IH.
Qed.

Lemma im_get_insert k k' v m :
  im_get k' (im_insert k v m) = if decide (k = k') then Some v else im_get k' m.
Proof.
  destruct (decide (k = k')) as [->|].
  - apply im_get_insert_eq.
  - by apply im_get_insert_ne.
Qed.

Lemma im_get_elem_of k v m : im_get k m = Some v → (k, v) ∈ m.
Proof.
  induction m as [|[k' v'] m IH]; simpl; [done|].
  destruct (decide (k = k')) as [->|]; intros H; simplify_eq; set_solver.
Qed.

Lemma im_get_None k m : im_get k m = None ↔ k ∉ im_keys m.
Proof.
  induction m as [|[k' v'] m IH]; simpl; [set_solver|].
  destruct (decide (k = k')) as [->|]; [set_solver|].
  rewrite IH. set_solver.
Qed.

Lemma im_elem_of_get k v m : im_wf m → (k, v) ∈ m → im_get k m = Some v.
Proof.
  unfold im_wf, im_keys.
  induction m as [|[k' v'] m IH]; simpl; [set_solver|].
  intros [Hk Hm]%NoDup_cons [Heq|Hin]%elem_of_cons.
  - simplify_eq. by rewrite decide_True.
  - rewrite decide_False; [auto|]. intros ->. apply Hk.
    apply list_elem_of_fmap. by exists (k', v).
Qed.

Lemma im_keys_insert k v m :
  im_keys (im_insert k v m) =
    if decide (k ∈ im_keys m) then im_keys m else im_keys m ++ [k].
Proof.
  unfold im_keys. induction m as [|[k' v'] m IH].
  { rewrite decide_False; [done|set_solver]. }
  simpl. destruct (decide (k = k')) as [->|Hne].
  - rewrite decide_True; [done|set_solver].
  - rewrite fmap_cons, IH. simpl.
    destruct (decide (k ∈ m.*1)) as [Hi|Hi].
    + rewrite decide_True; [done|set_solver].
    + rewrite decide_False; [done|set_solver].
Qed.

Lemma im_wf_insert k v m : im_wf m → im_wf (im_insert k v m).
Proof.
  unfold im_wf. rewrite im_keys_insert. case_decide; [done|].
  intros. apply NoDup_app. split_and!; [done|set_solver|apply NoDup_singleton].
Qed.

(** Inserting under a key that is present changes that entry only. *)
Lemma im_insert_present k v m v0 :
  im_get k m = Some v0 →
  ∃ m1 m2, m = m1 ++ (k, v0) :: m2 ∧ k ∉ im_keys m1 ∧
    im_insert k v m = m1 ++ (k, v) :: m2.
Proof.
  induction m as [|[k' v'] m IH]; simpl; [done|].
  destruct (decide (k = k')) as [->|Hne]; intros Hg.
  - simplify_eq. exists [], m. split_and!; [done| |done]. set_solver.
  - destruct (IH Hg) as (m1 & m2 & -> & Hk & Hi).
    exists ((k', v') :: m1), m2. unfold im_keys in *. simpl.
    rewrite Hi. split_and!; [done|set_solver|done].
Qed.

Lemma im_insert_same k v m : im_get k m = Some v → im_insert k v m = m.
Proof.
  intros (m1 & m2 & Hm & _ & Hi)%(im_insert_present k v). by rewrite Hi, Hm.
Qed.
End index_map.

(** [IndexSet<K>]: elements in insertion order. *)
Section index_set.
Context {K : Type} `{EqDecision K}.

Definition is_insert (s : list K) (k : K) : list K :=
  if decide (k ∈ s) then s else s ++ [k].

Definition is_extend (s : list K) (ks : list K) : list K :=
  foldl is_insert s ks.

(** [swap_remove]: the last element takes the place of the removed one;
    the boolean says whether the element was present. *)
Definition is_swap_remove (s : list K) (k : K) : bool * list K :=
  match list_find (eq k) s with
  | None => (false, s)
  | Some (i, _) =>
      let n := pred (length s) in
      match s !! n with
      | Some z => (true, if decide (i = n) then take n s
                         else <[i := z]> (take n s))
      | None => (true, s)
      end
  end.

Lemma elem_of_is_insert s k x : x ∈ is_insert s k ↔ x ∈ s ∨ x = k.
Proof. unfold is_insert. case_decide; set_solver. Qed.

Lemma elem_of_is_extend s ks x : x ∈ is_extend s ks ↔ x ∈ s ∨ x ∈ ks.
Proof.
  unfold is_extend. revert s. induction ks as [|k ks IH]; intros s; simpl.
  - set_solver.
  - rewrite IH, elem_of_is_insert. set_solver.
Qed.

Lemma NoDup_is_insert s k : NoDup s → NoDup (is_insert s k).
Proof.
  unfold is_insert. case_decide; [done|]. intros.
  apply NoDup_app. split_and!; [done|set_solver|apply NoDup_singleton].
Qed.

Lemma NoDup_is_extend s ks : NoDup s → NoDup (is_extend s ks).
Proof.
  unfold is_extend. revert s. induction ks as [|k ks IH]; intros s; simpl;
    [done|]. intros. by apply IH, NoDup_is_insert.
Qed.

(** On a duplicate-free set, [swap_remove] removes exactly the element. *)
Lemma is_swap_remove_perm s k :
  k ∈ s → ∃ s', is_swap_remove s k = (true, s') ∧ s ≡ₚ k :: s'.
Proof.
  intros Hin. unfold is_swap_remove.
  destruct (list_find (eq k) s) as [[i x]|] eqn:Hf.
  2:{ apply list_find_None in Hf. rewrite Forall_forall in Hf.
      by destruct (Hf k). }
  apply list_find_Some in Hf as (Hi & <- & _).
  assert (s ≠ []) as Hne by (by destruct s).
  destruct (exists_last Hne) as (t & z & ->). clear Hne.
  rewrite length_app, Nat.add_1_r. simpl.
  rewrite list_lookup_middle by done.
  rewrite take_app_length.
  destruct (decide (i = length t)) as [->|Hlt].
  - rewrite list_lookup_middle in Hi by done. simplify_eq.
    exists t. split; [done|]. apply Permutation_app_comm.
  - apply lookup_lt_Some in Hi as Hi'. rewrite length_app in Hi'. simpl in Hi'.
    rewrite lookup_app_l in Hi by lia.
    exists (<[i:=z]> t). split; [done|].
    destruct (list_elem_of_split_length t i k Hi) as (t1 & t2 & -> & ->).
    rewrite insert_app_r_alt, Nat.sub_diag by lia. simpl.
    rewrite <-(assoc_L (++)). simpl. rewrite <-!Permutation_middle.
    by rewrite ?app_nil_r.
Qed.

Lemma is_swap_remove_absent s k :
  k ∉ s → is_swap_remove s k = (false, s).
Proof.
  intros Hin. unfold is_swap_remove.
  destruct (list_find (eq k) s) as [[i x]|] eqn:Hf; [|done].
  apply list_find_Some in Hf as (Hi & <- & _).
  exfalso. apply Hin. by eapply list_elem_of_lookup_2.
Qed.

Lemma elem_of_is_swap_remove s k x :
  NoDup s → x ∈ (is_swap_remove s k).2 ↔ x ∈ s ∧ x ≠ k.
Proof.
  intros Hnd. destruct (decide (k ∈ s)) as [Hin|Hin].
  - destruct (is_swap_remove_perm s k Hin) as (s' & -> & Hp). simpl.
    rewrite Hp in Hnd |- *. apply NoDup_cons in Hnd. set_solver.
  - rewrite is_swap_remove_absent by done. set_solver.
Qed.

Lemma NoDup_is_swap_remove s k : NoDup s → NoDup (is_swap_remove s k).2.
Proof.
  intros Hnd. destruct (decide (k ∈ s)) as [Hin|Hin].
  - destruct (is_swap_remove_perm s k Hin) as (s' & -> & Hp). simpl.
    rewrite Hp in Hnd. by apply NoDup_cons in Hnd as [_ ?].
  - by rewrite is_swap_remove_absent.
Qed.
End index_set.

(** ** Machine integers *)

(** [usize::MAX] and [u64::MAX] on the 64-bit targets. *)
Definition u64_max : N := 18446744073709551615.

Definition checked_add_u64 (a b : N) : option N :=
  if decide (a + b ≤ u64_max)%N then Some (a + b)%N else None.

Definition saturating_add_usize (a b : N) : N := N.min (a + b) u64_max.

(** [usize::saturating_sub] is truncated subtraction, as on [N]. *)
Definition saturating_sub_usize (a b : N) : N := (a - b)%N.

(** [a.div_ceil(b)] panics on a zero divisor. *)
Definition div_ceil (a b : N) : Run N :=
  if decide (b = 0)%N then Panics else Returns ((a + b - 1) / b)%N.

Lemma total_div_ceil a b :
  (0 < b)%N →
  div_ceil a b ⇓ (λ q, (a ≤ q * b)%N ∧ (q * b < a + b)%N).
Proof.
  intros Hb. unfold div_ceil. rewrite decide_False by lia. simpl.
  pose proof (N.div_mod (a + b - 1) b ltac:(lia)).
  pose proof (N.mod_lt (a + b - 1) b ltac:(lia)).
  rewrite (N.mul_comm _ b). 
  generalize dependent ((a + b - 1) `mod` b)%N.
  generalize dependent (b * ((a + b - 1) / b))%N. intros; lia.
Qed.

(** ** Hash containers

    The iteration order of [HashMap] and [HashSet] is unspecified: it is a
    parameter, some permutation of the entries. *)
Class HashOrder := {
  hash_order : ∀ {A : Type}, list A → list A;
  hash_order_perm : ∀ {A : Type} (l : list A), hash_order l ≡ₚ l
}.

Lemma elem_of_hash_order `{HashOrder} {A} (l : list A) x :
  x ∈ hash_order l ↔ x ∈ l.
Proof. by rewrite hash_order_perm. Qed.

(** ** List facts shared by the components *)
Lemma elem_of_seq0 n i : i ∈ seq 0 n ↔ i < n.
Proof. rewrite elem_of_seq. lia. Qed.

Lemma existsb_Exists {A} (p : A → bool) (l : list A) :
  existsb p l = true ↔ ∃ x, x ∈ l ∧ p x = true.
Proof.
  rewrite existsb_exists. by setoid_rewrite <-list_elem_of_In.
Qed.

Lemma forallb_Forall {A} (p : A → bool) (l : list A) :
  forallb p l = true ↔ ∀ x, x ∈ l → p x = true.
Proof.
  rewrite forallb_forall. by setoid_rewrite <-list_elem_of_In.
Qed.

Lemma existsb_false {A} (p : A → bool) (l : list A) :
  existsb p l = false ↔ ∀ x, x ∈ l → p x = false.
Proof.
  rewrite <-not_true_iff_false, existsb_Exists. split.
  - intros H x Hx. destruct (p x) eqn:E; [|done]. exfalso; eauto.
  - intros H (x & Hx & E). by rewrite H in E.
Qed.

Lemma Forall2_impl_elem {A B} (P Q : A → B → Prop) (l : list A) (k : list B) :
  Forall2 P l k → (∀ x y, x ∈ l → P x y → Q x y) → Forall2 Q l k.
Proof.
  induction 1 as [|x y l k Hxy _ IH]; intros Himp; constructor.
  - apply Himp; [set_solver|done].
  - apply IH. intros x' y' Hx'. apply Himp. set_solver.
Qed.

Lemma filter_none {A} (P : A → Prop) `{∀ x, Decision (P x)} (l : list A) :
  (∀ x, x ∈ l → ¬ P x) → filter P l = [].
Proof.
  induction l as [|x l IH]; intros Hn; [done|].
  rewrite filter_cons, decide_False by (apply Hn; set_solver). apply IH. set_solver.
Qed.

Lemma filter_all {A} (P : A → Prop) `{∀ x, Decision (P x)} (l : list A) :
  (∀ x, x ∈ l → P x) → filter P l = l.
Proof.
  induction l as [|x l IH]; intros Hn; [done|].
  rewrite filter_cons, decide_True by (apply Hn; set_solver). f_equal. apply IH. set_solver.
Qed.

Lemma list_alter_insert_lookup {A} (f : A → A) (l : list A) i x :
  l !! i = Some x → alter f i l = <[i := f x]> l.
Proof.
  intros Hx. rewrite list_insert_alter. apply list_alter_ext; [|done].
  intros y Hy. congruence.
Qed.

(** Sorting a list into the classes of a partition permutes it. *)
Lemma bind_filter_perm {A B} (P : B → A → Prop) `{∀ b x, Decision (P b x)}
    (cls : list B) (l : list A) :
  NoDup cls →
  (∀ x b b', x ∈ l → b ∈ cls → b' ∈ cls → P b x → P b' x → b = b') →
  (∀ x, x ∈ l → ∃ b, b ∈ cls ∧ P b x) →
  (b ← cls; filter (P b) l) ≡ₚ l.
Proof.
  intros Hnd. induction l as [|x l IH]; intros Huniq Hex.
  { clear. by induction cls. }
  destruct (Hex x) as (b & Hb & HPx); [set_solver|].
  transitivity (x :: (b ← cls; filter (P b) l)).
  2:{ f_equiv. apply IH; [|set_solver]. intros y b1 b2 Hy. apply Huniq. set_solver. }
  apply list_elem_of_split in Hb as (c1 & c2 & ->).
  assert (∀ c, (∀ b', b' ∈ c → ¬ P b' x) →
            (b ← c; filter (P b) (x :: l)) = (b ← c; filter (P b) l)) as Hc.
  { induction c as [|b' c IHc]; intros Hn; [done|]. rewrite !bind_cons, IHc by set_solver.
    f_equal. rewrite filter_cons, decide_False; [done|]. apply Hn. set_solver. }
  apply NoDup_app in Hnd as (_ & Hd & [Hb2 _]%NoDup_cons).
  rewrite !bind_app, !bind_cons, (Hc c1), (Hc c2).
  - rewrite filter_cons, decide_True by done. simpl. by rewrite <-Permutation_middle.
  - intros b' Hb' HP. apply Hb2.
    rewrite (Huniq x b b'); [done|set_solver|set_solver|set_solver|done|done].
  - intros b' Hb' HP. apply (Hd b' Hb').
    rewrite (Huniq x b' b); [set_solver|set_solver|set_solver|set_solver|done|done].
Qed.

(** Visiting a vector with [enumerate()]. *)
Lemma imap_pair_split {A} (l : list A) pre n x post :
  imap pair l = pre ++ (n, x) :: post → n = length pre ∧ l !! n = Some x.
Proof.
  intros Heq.
  assert (imap pair l !! length pre = Some (n, x)) as Hl
    by (rewrite Heq; by apply list_lookup_middle).
  rewrite list_lookup_imap in Hl. destruct (l !! length pre) eqn:Hx; naive_solver.
Qed.

Lemma imap_pair_bind {A B} (f : A → list B) (l : list A) :
  ('(_, x) ← imap pair l; f x) = l ≫= f.
Proof.
  assert (∀ F : nat → A → nat * A, (∀ i x, (F i x).2 = x) →
            ('(_, x) ← imap F l; f x) = l ≫= f) as Hgen; [|by apply Hgen].
  induction l as [|x l IH]; intros F HF; [done|]. rewrite imap_cons, !bind_cons.
  f_equal; [|by apply IH; intros; apply HF].
  specialize (HF 0 x). destruct (F 0 x). simpl in *. by subst.
Qed.

Lemma elem_of_imap_pair {A} (l : list A) n x : (n, x) ∈ imap pair l ↔ l !! n = Some x.
Proof.
  rewrite elem_of_lookup_imap. split; [intros (? & ? & [= -> ->] & ?); done|eauto].
Qed.

Lemma list_bind_ext_elem {A B} (f h : A → list B) (l : list A) :
  (∀ x, x ∈ l → f x = h x) → l ≫= f = l ≫= h.
Proof.
  induction l as [|x l IH]; intros Hf; [done|]. rewrite !bind_cons.
  f_equal; [apply Hf; set_solver|apply IH; set_solver].
Qed.

Lemma list_fmap_ext_elem {A B} (f h : A → B) (l : list A) :
  (∀ x, x ∈ l → f x = h x) → f <$> l = h <$> l.
Proof.
  induction l as [|x l IH]; intros Hf; [done|]. rewrite !fmap_cons.
  f_equal; [apply Hf; set_solver|apply IH; set_solver].
Qed.

Lemma existsb_ext_elem {A} (p q : A → bool) (l : list A) :
  (∀ x, x ∈ l → p x = q x) → existsb p l = existsb q l.
Proof.
  induction l as [|x l IH]; intros Hpq; [done|]. simpl.
  rewrite Hpq by set_solver. by rewrite IH by set_solver.
Qed.

Lemma forallb_ext_elem {A} (p q : A → bool) (l : list A) :
  (∀ x, x ∈ l → p x = q x) → forallb p l = forallb q l.
Proof.
  induction l as [|x l IH]; intros Hpq; [done|]. simpl.
  rewrite Hpq by set_solver. by rewrite IH by set_solver.
Qed.

Lemma list_bind_fmap_join {A B} (f : A → list B) (l : list A) : mjoin (f <$> l) = l ≫= f.
Proof. induction l as [|x l IH]; [done|]. rewrite bind_cons, <-IH. done. Qed.

Lemma collect_results_fmap {E A B} (h : A → Result E B) (f : A → B) (l : list A) :
  (∀ x, x ∈ l → h x = Ok (f x)) → collect_results (h <$> l) = Ok (f <$> l).
Proof.
  intros Hf. apply collect_results_Ok. rewrite <-list_fmap_compose.
  apply list_fmap_ext_elem. intros x Hx. by apply Hf.
Qed.

(** Exchanging the loops of a double loop permutes its output. *)
Lemma bind_exchange {A B C} (f : A → B → C) (l : list A) (k : list B) :
  (x ← l; f x <$> k) ≡ₚ (y ← k; (λ x, f x y) <$> l).
Proof.
  induction l as [|x l IH]; simpl.
  - by induction k.
  - rewrite IH. clear IH. induction k as [|y k IH]; simpl; [done|].
    f_equiv. etrans; [apply Permutation_app_swap_app|]. by f_equiv.
Qed.

Lemma NoDup_omap_inj {A B} (f : A → option B) (l : list A) :
  NoDup l → (∀ x y z, x ∈ l → y ∈ l → f x = Some z → f y = Some z → x = y) → NoDup (omap f l).
Proof.
  induction 1 as [|x l Hx Hnd IH]; intros Hinj; [constructor|]. simpl.
  assert (NoDup (omap f l)) as Hl by (apply IH; intros ?????; apply Hinj; set_solver).
  destruct (f x) as [z|] eqn:Hz; [|done]. constructor; [|done].
  intros (y & Hy & Hfy)%list_elem_of_omap. apply Hx.
  rewrite (Hinj x y z); [done|set_solver|set_solver|done|done].
Qed.

Lemma NoDup_imap_pair {A} (l : list A) : NoDup (imap pair l).
Proof.
  apply NoDup_alt. intros i j x Hi Hj. rewrite !list_lookup_imap in Hi, Hj.
  destruct (l !! i), (l !! j); simplify_eq/=; congruence.
Qed.

(** ** Automation

    [total]: well-formedness of the ordered containers, which every operation on
    them keeps, and computations that obviously return. *)
Create HintDb total.
#[export] Hint Resolve total_ret total_fmap im_wf_insert NoDup_is_insert NoDup_is_extend
  NoDup_is_swap_remove NoDup_singleton NoDup_seq : total.

(** The next call of a computation: [tac] proves its specification, which is what
    the rest of the computation may rely on. *)
Tactic Notation "run_call" tactic3(tac) :=
  apply total_bind; eapply total_mono; [solve [tac]|].
