(* ===== verification/Ids.v ===== *)
(** * Identifiers and errors

    [crates/zelox-execution/src/id.rs], [error.rs] and the error cause of
    [crates/zelox-common-datafusion/src/error.rs].  [JobId] and [WorkerId] are
    newtypes over [u64]; both are [N] here, with the overflow of the generator
    written out. *)

From S2P Require Import Prelude.

(** ** Errors *)

(** Errors of code outside the repository, known by their rendering only. *)
Record ForeignError := MkForeignError { foreign_display : string }.

Inductive ExecutionError : Type :=
| DataFusionError (e : ForeignError)
| InvalidArgument (message : string)
| JsonError (e : ForeignError)
| IoError (e : ForeignError)
| TonicTransportError (e : ForeignError)
| TonicStatusError (e : ForeignError)
| KubernetesError (e : ForeignError)
| InternalError (message : string).

Notation ExecutionResult := (Result ExecutionError).

(** The [Display] of the [thiserror] derive. *)
Definition execution_error_display (e : ExecutionError) : string :=
  match e with
  | DataFusionError e => "error in DataFusion: " +:+ foreign_display e
  | InvalidArgument m => "invalid argument: " +:+ m
  | JsonError e => "error in JSON serde: " +:+ foreign_display e
  | IoError e => "IO error: " +:+ foreign_display e
  | TonicTransportError e => "error in Tonic transport: " +:+ foreign_display e
  | TonicStatusError e => "error in Tonic status: " +:+ foreign_display e
  | KubernetesError e => "error in Kubernetes: " +:+ foreign_display e
  | InternalError m => "internal error: " +:+ m
  end.

Record PythonErrorCause := MkPythonErrorCause {
  py_summary : string;
  py_traceback : option (list string)
}.

Inductive CommonErrorCause : Type :=
| CauseUnknown (m : string)
| CauseInternal (m : string)
| CauseNotImplemented (m : string)
| CauseInvalidArgument (m : string)
| CauseIo (m : string)
| CausePython (c : PythonErrorCause)
| CauseArrowCast (m : string)
| CauseArrowMemory (m : string)
| CauseArrowParse (m : string)
| CauseArrowCompute (m : string)
| CauseArrowIpc (m : string)
| CauseArrowCDataInterface (m : string)
| CauseArrowDivideByZero (m : string)
| CauseArrowArithmeticOverflow (m : string)
| CauseArrowDictionaryKeyOverflow (m : string)
| CauseArrowRunEndIndexOverflow (m : string)
| CauseArrowOffsetOverflow (m : string)
| CauseFormatCsv (m : string)
| CauseFormatJson (m : string)
| CauseFormatParquet (m : string)
| CauseFormatAvro (m : string)
| CausePlan (m : string)
| CauseSchema (m : string)
| CauseConfiguration (m : string)
| CauseExecution (m : string)
| CauseDeltaTable (m : string).

(** [CommonErrorCause::new] walks the [source] chain of an error.  The errors
    the driver makes itself have no source, so the walk stops at once and
    renders them; the walk through a foreign error is [foreign_cause]. *)
Class ForeignCauses := foreign_cause : ForeignError → CommonErrorCause.

Definition cause_of_error `{ForeignCauses} (e : ExecutionError) : CommonErrorCause :=
  match e with
  | DataFusionError e | JsonError e | IoError e
  | TonicTransportError e | TonicStatusError e | KubernetesError e =>
      foreign_cause e
  | InvalidArgument _ | InternalError _ =>
      CauseUnknown (execution_error_display e)
  end.

(** ** Generated identifiers *)

(** [IdValueType for u64]. *)
Definition id_first : N := 1.

Definition id_next (v : N) : ExecutionResult N :=
  match checked_add_u64 v 1 with
  | Some v' => Ok v'
  | None => Err (InternalError "ID overflow")
  end.

Record IdGenerator := MkIdGenerator { next_value : N }.

Definition id_generator_new : IdGenerator := MkIdGenerator id_first.

(** [IdGenerator::next]: on overflow the generator is left as it was. *)
Definition id_generator_next (g : IdGenerator) : ExecutionResult N * IdGenerator :=
  let value := next_value g in
  match id_next value with
  | Ok v => (Ok value, MkIdGenerator v)
  | Err e => (Err e, g)
  end.

(** ** Task keys *)

Record TaskKey := MkTaskKey {
  tk_job_id : N;
  tk_stage : nat;
  tk_partition : nat;
  tk_attempt : nat
}.

Record TaskStreamKey := MkTaskStreamKey {
  ts_job_id : N;
  ts_stage : nat;
  ts_partition : nat;
  ts_attempt : nat;
  ts_channel : nat
}.

#[global] Instance TaskKey_eq_dec : EqDecision TaskKey.
Proof. solve_decision. Defined.
#[global] Instance TaskStreamKey_eq_dec : EqDecision TaskStreamKey.
Proof. solve_decision. Defined.

#[global] Instance TaskKey_countable : Countable TaskKey.
Proof.
  apply (inj_countable'
    (λ k, (tk_job_id k, tk_stage k, tk_partition k, tk_attempt k))
    (λ '(j, s, p, a), MkTaskKey j s p a)).
  by intros [].
Defined.
#[global] Instance TaskStreamKey_countable : Countable TaskStreamKey.
Proof.
  apply (inj_countable'
    (λ k, (ts_job_id k, ts_stage k, ts_partition k, ts_attempt k, ts_channel k))
    (λ '(j, s, p, a, c), MkTaskStreamKey j s p a c)).
  by intros [].
Defined.

(** [impl From<TaskStreamKey> for TaskKey]. *)
Definition task_key_of_stream (k : TaskStreamKey) : TaskKey :=
  MkTaskKey (ts_job_id k) (ts_stage k) (ts_partition k) (ts_attempt k).

(** [TaskKeyDisplay] and [TaskStreamKeyDisplay]. *)
Definition task_key_display (k : TaskKey) : string :=
  "job " +:+ pretty (tk_job_id k) +:+ " stage " +:+ pretty (tk_stage k)
  +:+ " partition " +:+ pretty (tk_partition k)
  +:+ " attempt " +:+ pretty (tk_attempt k).

Definition task_stream_key_display (k : TaskStreamKey) : string :=
  "job " +:+ pretty (ts_job_id k) +:+ " stage " +:+ pretty (ts_stage k)
  +:+ " partition " +:+ pretty (ts_partition k)
  +:+ " attempt " +:+ pretty (ts_attempt k)
  +:+ " channel " +:+ pretty (ts_channel k).

(** ** Properties of the generator *)

(** The identifiers of [n] successive successful calls. *)
Fixpoint id_generator_take (n : nat) (g : IdGenerator) : list N :=
  match n with
  | 0 => []
  | S n =>
      match id_generator_next g with
      | (Ok v, g') => v :: id_generator_take n g'
      | (Err _, g') => id_generator_take n g'
      end
  end.

Lemma id_generator_next_Ok g v g' :
  id_generator_next g = (Ok v, g') →
  v = next_value g ∧ next_value g' = (next_value g + 1)%N ∧
  (next_value g' ≤ u64_max)%N.
Proof.
  unfold id_generator_next, id_next, checked_add_u64.
  case_decide; intros; simplify_eq/=. done.
Qed.

Lemma id_generator_next_Err g e g' :
  id_generator_next g = (Err e, g') →
  g' = g ∧ e = InternalError "ID overflow" ∧ (u64_max ≤ next_value g)%N.
Proof.
  unfold id_generator_next, id_next, checked_add_u64.
  case_decide; intros; simplify_eq/=. split_and!; [done|done|lia].
Qed.

Lemma id_generator_take_ge n g v :
  v ∈ id_generator_take n g → (next_value g ≤ v < u64_max)%N.
Proof.
  revert g. induction n as [|n IH]; intros g; simpl; [set_solver|].
  destruct (id_generator_next g) as [[v0|e] g'] eqn:Hn.
  - apply id_generator_next_Ok in Hn as (-> & Hg & Hm).
    intros [->|Hv]%elem_of_cons; [lia|]. apply IH in Hv. lia.
  - apply id_generator_next_Err in Hn as (-> & _ & _). apply IH.
Qed.

Lemma id_generator_take_NoDup n g : NoDup (id_generator_take n g).
Proof.
  revert g. induction n as [|n IH]; intros g; simpl; [constructor|].
  destruct (id_generator_next g) as [[v0|e] g'] eqn:Hn; [|apply IH].
  apply id_generator_next_Ok in Hn as (-> & Hg & Hm).
  apply NoDup_cons. split; [|apply IH].
  intros Hv%id_generator_take_ge. lia.
Qed.
