(* ===== verification/JobGraph.v ===== *)
(** * Job graphs and scheduling data

    [crates/zelox-execution/src/job_graph/mod.rs], [task/scheduling.rs] and the
    data types of [task/definition.rs]. *)

From S2P Require Import Prelude Ids.

(** ** The execution engine

    What the driver uses of DataFusion and of the plan codec: a plan with its
    schema and partition count, and the serialization of plans and physical
    expressions.  These are parameters of the whole development. *)
Class DataFusion := {
  Plan : Type;
  Schema : Type;
  PhysicalExpr : Type;
  TaskContext : Type;
  schema_eq_dec :: EqDecision Schema;
  (** [ExecutionPlan::schema]. *)
  plan_schema : Plan → Schema;
  (** [output_partitioning().partition_count()]. *)
  partition_count : Plan → nat;
  (** [PhysicalPlanNode::try_from_physical_plan(..)?.encode_to_vec()]. *)
  encode_plan : Plan → Result ForeignError (list Byte.byte);
  (** [serialize_physical_expr(..)?.encode_to_vec()]. *)
  encode_expr : PhysicalExpr → Result ForeignError (list Byte.byte);
  (** The [Display] of a physical expression. *)
  expr_display : PhysicalExpr → string;
  (** A record batch, with its number of rows. *)
  RecordBatch : Type;
  num_rows : RecordBatch → nat
}.

(** ** Stages *)

Inductive TaskPlacement := PlaceDriver | PlaceWorker.
#[global] Instance TaskPlacement_eq_dec : EqDecision TaskPlacement.
Proof. solve_decision. Defined.

Inductive InputMode := Forward | Merge | Shuffle | Broadcast.
#[global] Instance InputMode_eq_dec : EqDecision InputMode.
Proof. solve_decision. Defined.

Inductive OutputMode := Pipelined | Blocking.
#[global] Instance OutputMode_eq_dec : EqDecision OutputMode.
Proof. solve_decision. Defined.

Record StageInput := MkStageInput {
  si_stage : nat;
  si_mode : InputMode
}.

Definition placement_display (p : TaskPlacement) : string :=
  match p with PlaceDriver => "Driver" | PlaceWorker => "Worker" end.
Definition input_mode_display (m : InputMode) : string :=
  match m with
  | Forward => "Forward" | Merge => "Merge" | Shuffle => "Shuffle" | Broadcast => "Broadcast"
  end.
Definition output_mode_display (m : OutputMode) : string :=
  match m with Pipelined => "Pipelined" | Blocking => "Blocking" end.

Section job_graph.
Context `{DataFusion}.

Inductive OutputDistribution :=
| DistHash (keys : list PhysicalExpr) (channels : nat)
| DistRoundRobin (channels : nat).

Definition dist_channels (d : OutputDistribution) : nat :=
  match d with
  | DistHash _ channels => channels
  | DistRoundRobin channels => channels
  end.

Record Stage := MkStage {
  st_inputs : list StageInput;
  st_plan : Plan;
  st_group : string;
  st_mode : OutputMode;
  st_distribution : OutputDistribution;
  st_placement : TaskPlacement
}.

Definition stage_partitions (s : Stage) : nat := partition_count (st_plan s).

Record JobGraph := MkJobGraph {
  jg_stages : list Stage;
  jg_schema : Schema
}.

(** [JobGraph::replicas]: the output replicas a stage needs, at least one. *)
Definition input_replicas (x : Stage) (input : StageInput) : nat :=
  match si_mode input with
  | Forward | Shuffle => 1
  | Merge | Broadcast => stage_partitions x
  end.

Definition replicas (g : JobGraph) (stage : nat) : nat :=
  let l := x ← jg_stages g;
           input_replicas x <$>
             filter (λ input, si_stage input = stage) (st_inputs x) in
  sum_list l `max` 1.

(** [impl fmt::Display for OutputDistribution]. *)
Definition dist_display (d : OutputDistribution) : string :=
  match d with
  | DistHash keys channels =>
      "Hash(keys=[" +:+ String.concat ", " (expr_display <$> keys)
      +:+ "], channels=" +:+ pretty channels +:+ ")"
  | DistRoundRobin channels => "RoundRobin(channels=" +:+ pretty channels +:+ ")"
  end.

(** The invariant the graph's documentation states: the stages are sorted in
    topological order. *)
Definition wf_graph (g : JobGraph) : Prop :=
  ∀ s stage input, jg_stages g !! s = Some stage →
    input ∈ st_inputs stage → si_stage input < s.

#[global] Instance wf_graph_dec g : Decision (wf_graph g).
Proof.
  refine (cast_if (decide (Forall (λ '(s, stage),
    Forall (λ input, si_stage input < s) (st_inputs stage))
    (imap pair (jg_stages g))))).
  - intros s stage input Hs Hin. rewrite Forall_forall in f.
    assert ((s, stage) ∈ imap pair (jg_stages g)) as Hel.
    { apply elem_of_lookup_imap. eauto. }
    specialize (f _ Hel). simpl in f. rewrite Forall_forall in f. auto.
  - intros Hw. apply n. apply Forall_forall. intros [s stage] Hel.
    apply elem_of_lookup_imap in Hel as (i & y & [= -> ->] & Hy).
    apply Forall_forall. intros input Hin. by eapply Hw.
Defined.
End job_graph.

(** ** Task regions *)

Inductive TaskOutputKind := OutputLocal | OutputRemote.
#[global] Instance TaskOutputKind_eq_dec : EqDecision TaskOutputKind.
Proof. solve_decision. Defined.

Record TaskSetEntry := MkTaskSetEntry {
  te_key : TaskKey;
  te_output : TaskOutputKind
}.
#[global] Instance TaskSetEntry_eq_dec : EqDecision TaskSetEntry.
Proof. solve_decision. Defined.

Record TaskSet := MkTaskSet { set_entries : list TaskSetEntry }.
#[global] Instance TaskSet_eq_dec : EqDecision TaskSet.
Proof. solve_decision. Defined.

Record TaskRegion := MkTaskRegion { region_tasks : list (TaskPlacement * TaskSet) }.
#[global] Instance TaskRegion_eq_dec : EqDecision TaskRegion.
Proof. solve_decision. Defined.

Definition set_contains (set : TaskSet) (key : TaskKey) : bool :=
  existsb (λ entry, bool_decide (te_key entry = key)) (set_entries set).

Definition region_contains (r : TaskRegion) (key : TaskKey) : bool :=
  existsb (λ '(_, set), set_contains set key) (region_tasks r).

Definition set_tasks (set : TaskSet) : list TaskKey := te_key <$> set_entries set.

Definition set_local_streams (set : TaskSet) : list TaskKey :=
  te_key <$> filter (λ e, te_output e = OutputLocal) (set_entries set).

Definition set_remote_streams (set : TaskSet) : list TaskKey :=
  te_key <$> filter (λ e, te_output e = OutputRemote) (set_entries set).

Inductive TaskAssignment :=
| AssignDriver
| AssignWorker (worker_id : N) (slot : nat).
#[global] Instance TaskAssignment_eq_dec : EqDecision TaskAssignment.
Proof. solve_decision. Defined.

Record TaskSetAssignment := MkTaskSetAssignment {
  tsa_set : TaskSet;
  tsa_assignment : TaskAssignment
}.

Inductive TaskStreamAssignment :=
| StreamDriver
| StreamWorker (worker_id : N).
#[global] Instance TaskStreamAssignment_eq_dec : EqDecision TaskStreamAssignment.
Proof. solve_decision. Defined.

Lemma region_contains_spec r key :
  region_contains r key = true ↔
  ∃ pl set, (pl, set) ∈ region_tasks r ∧ key ∈ set_tasks set.
Proof.
  unfold region_contains, set_contains, set_tasks.
  rewrite existsb_Exists. split.
  - intros ([pl set] & Hin & He). apply existsb_Exists in He as (e & He & Hk).
    apply bool_decide_eq_true in Hk. exists pl, set. split; [done|].
    apply list_elem_of_fmap. eauto.
  - intros (pl & set & Hin & Hk). exists (pl, set). split; [done|].
    apply list_elem_of_fmap in Hk as (e & -> & He).
    apply existsb_Exists. exists e. split; [done|]. by apply bool_decide_eq_true.
Qed.

(** Streams are local or remote, never both. *)
Lemma set_streams_partition set :
  set_tasks set ≡ₚ set_local_streams set ++ set_remote_streams set.
Proof.
  unfold set_tasks, set_local_streams, set_remote_streams.
  rewrite <-fmap_app. f_equiv.
  induction (set_entries set) as [|e l IH]; [done|].
  rewrite !filter_cons. destruct (te_output e) eqn:He.
  - rewrite decide_True by done. rewrite decide_False by done.
    simpl. by rewrite <-IH.
  - rewrite decide_False by done. rewrite decide_True by done.
    by rewrite <-Permutation_middle, <-IH.
Qed.

(** ** Task definitions *)

Record TaskInputKey := MkTaskInputKey {
  tik_partition : nat;
  tik_attempt : nat;
  tik_channel : nat
}.
#[global] Instance TaskInputKey_eq_dec : EqDecision TaskInputKey.
Proof. solve_decision. Defined.

Inductive TaskInputLocator :=
| LocDriver (stage : nat) (keys : list (list TaskInputKey))
| LocWorker (stage : nat) (keys : list (list (N * TaskInputKey)))
| LocRemote (uri : string) (stage : nat) (keys : list (list TaskInputKey)).

Record TaskInput := MkTaskInput { ti_locator : TaskInputLocator }.

Inductive TaskOutputDistribution :=
| OutHash (keys : list (list Byte.byte)) (channels : nat)
| OutRoundRobin (channels : nat).

Inductive TaskOutputLocator :=
| OutLocal (replicas : nat)
| OutRemote (uri : string).

Record TaskOutput := MkTaskOutput {
  to_distribution : TaskOutputDistribution;
  to_locator : TaskOutputLocator
}.

Record TaskDefinition := MkTaskDefinition {
  td_plan : list Byte.byte;
  td_inputs : list TaskInput;
  td_output : TaskOutput
}.
