(* ===== verification/Topology.v ===== *)
(** * Task regions of a job

    [crates/zelox-execution/src/driver/job_scheduler/topology.rs]: the stages
    of a job graph are grouped into components connected by pipelined edges,
    components are cut into task regions, and regions depend on the regions
    that produce their inputs. *)

From S2P Require Import Prelude Ids JobGraph.

Record TaskTopology := MkTaskTopology {
  tt_stage : nat;
  tt_partition : nat
}.
#[global] Instance TaskTopology_eq_dec : EqDecision TaskTopology.
Proof. solve_decision. Defined.
#[global] Instance TaskTopology_countable : Countable TaskTopology.
Proof.
  apply (inj_countable' (λ t, (tt_stage t, tt_partition t))
           (λ '(s, p), MkTaskTopology s p)).
  by intros [].
Defined.

Record TaskRegionTopology := MkTaskRegionTopology {
  rt_tasks : list TaskTopology;
  (** An [IndexSet] of indices of regions. *)
  rt_dependencies : list nat
}.

Record StageTopology := MkStageTopology { stt_consumers : list nat }.

Record JobTopology := MkJobTopology {
  jt_regions : list TaskRegionTopology;
  jt_stages : list StageTopology
}.

Section topology.
Context `{DF : DataFusion}.

(** The loop state of the first pass: consumers and pipelined adjacency. *)
Definition Links : Type := list StageTopology * list (list nat).

Definition push_consumer (s : nat) (t : StageTopology) : StageTopology :=
  MkStageTopology (stt_consumers t ++ [s]).

Definition is_pipelined (st : Stage) : bool :=
  match st_mode st with Pipelined => true | Blocking => false end.

Definition is_forward (m : InputMode) : bool :=
  match m with Forward => true | _ => false end.

(** The body of [for input in &stage.inputs]. *)
Definition link_input (g : JobGraph) (s : nat) (links : Links) (input : StageInput)
    : Run Links :=
  let '(stages, adj) := links in
  stages ← vec_update stages (si_stage input) (push_consumer s);
  producer ← vec_index (jg_stages g) (si_stage input);
  if is_pipelined producer then
    adj ← vec_update adj s (λ l, l ++ [si_stage input]);
    adj ← vec_update adj (si_stage input) (λ l, l ++ [s]);
    Returns (stages, adj)
  else Returns (stages, adj).

Definition link_stages (g : JobGraph) : Run Links :=
  let n := length (jg_stages g) in
  for_each
    (λ links '(s, stage), for_each (link_input g s) links (st_inputs stage))
    (replicate n (MkStageTopology []), replicate n [])
    (imap pair (jg_stages g)).

(** Every stage nobody consumes has the schema of the job. *)
Definition final_stages_match (g : JobGraph) (stages : list StageTopology) : Run bool :=
  run_all
    (λ '(s, stage),
       match stt_consumers stage with
       | [] =>
           st ← vec_index (jg_stages g) s;
           Returns (bool_decide (plan_schema (st_plan st) = jg_schema g))
       | _ => Returns true
       end)
    (imap pair stages).

(** [for &v in neighbors]: mark and enqueue the neighbours not yet visited. *)
Definition visit_neighbor (st : list bool * list nat) (v : nat)
    : Run (list bool * list nat) :=
  let '(visited, queue) := st in
  b ← vec_index visited v;
  if (b : bool) then Returns (visited, queue)
  else
    visited ← vec_update visited v (λ _, true);
    Returns (visited, queue ++ [v]).

(** [while let Some(u) = queue.pop_front()]. *)
Fixpoint bfs (fuel : nat) (adj : list (list nat)) (visited : list bool)
    (queue component : list nat) : Run (list bool * list nat) :=
  match queue with
  | [] => Returns (visited, component)
  | u :: queue =>
      match fuel with
      | 0 => OutOfFuel
      | S fuel =>
          '(visited, queue) ←
            match adj !! u with
            | Some neighbors => for_each visit_neighbor (visited, queue) neighbors
            | None => Returns (visited, queue)
            end;
          bfs fuel adj visited queue (component ++ [u])
      end
  end.

(** The body of the loop over the stages that collects the components. *)
Definition component_step (n : nat) (adj : list (list nat))
    (st : list bool * list (list nat)) (s : nat)
    : Run (list bool * list (list nat)) :=
  let '(visited, components) := st in
  b ← vec_index visited s;
  if (b : bool) then Returns (visited, components)
  else
    visited ← vec_update visited s (λ _, true);
    '(visited, component) ← bfs n adj visited [s] [];
    Returns (visited, components ++ [component]).

Definition find_components (n : nat) (adj : list (list nat)) : Run (list (list nat)) :=
  '(_, components) ←
    for_each (component_step n adj) (replicate n false, []) (seq 0 n);
  Returns components.

Definition component_all_forward (g : JobGraph) (component : list nat) : Run bool :=
  run_all
    (λ u,
       st ← vec_index (jg_stages g) u;
       Returns (forallb
         (λ input, negb (bool_decide (si_stage input ∈ component)
                         && negb (is_forward (si_mode input))))
         (st_inputs st)))
    component.

Definition stage_partition_count (g : JobGraph) (s : nat) : Run nat :=
  st ← vec_index (jg_stages g) s; Returns (stage_partitions st).

Definition sliced_regions (component : list nat) (partitions : nat)
    : list TaskRegionTopology :=
  (λ p, MkTaskRegionTopology ((λ s, MkTaskTopology s p) <$> component) [])
    <$> seq 0 partitions.

Definition stage_tasks (s partitions : nat) : list TaskTopology :=
  MkTaskTopology s <$> seq 0 partitions.

Definition whole_region (g : JobGraph) (component : list nat) : Run TaskRegionTopology :=
  tasks ← run_map (λ s, p ← stage_partition_count g s; Returns (stage_tasks s p))
            component;
  Returns (MkTaskRegionTopology (mjoin tasks) []).

(** The regions of one component. *)
Definition component_regions (g : JobGraph) (component : list nat)
    : Run (ExecutionResult (list TaskRegionTopology)) :=
  all_forward ← component_all_forward g component;
  if (all_forward : bool) then
    counts ← run_map (stage_partition_count g) component;
    match remove_dups counts with
    | [p] => Returns (Ok (sliced_regions component p))
    | _ => Returns (Err (InternalError
             "task region with all forward inputs must have the same partition count"))
    end
  else
    r ← whole_region g component;
    Returns (Ok [r]).

Fixpoint build_regions (g : JobGraph) (components : list (list nat))
    : Run (ExecutionResult (list TaskRegionTopology)) :=
  match components with
  | [] => Returns (Ok [])
  | c :: components =>
      r ← component_regions g c;
      match r with
      | Err e => Returns (Err e)
      | Ok regions =>
          rest ← build_regions g components;
          match rest with
          | Err e => Returns (Err e)
          | Ok rest => Returns (Ok (regions ++ rest))
          end
      end
  end.

(** The [HashMap] from tasks to the index of their region. *)
Definition task_to_region (regions : list TaskRegionTopology)
    : gmap TaskTopology nat :=
  foldl (λ m '(r, region),
           foldl (λ m t, <[t := r]> m) m (rt_tasks region))
    ∅ (imap pair regions).

(** [if let Some(&d) = .. { if d != r { dependencies.insert(d); } }]. *)
Definition add_dependency (m : gmap TaskTopology nat) (r : nat)
    (deps : list nat) (t : TaskTopology) : list nat :=
  match m !! t with
  | Some d => if decide (d = r) then deps else is_insert deps d
  | None => deps
  end.

Definition input_dependencies (g : JobGraph) (m : gmap TaskTopology nat)
    (r : nat) (task : TaskTopology) (deps : list nat) (input : StageInput)
    : Run (list nat) :=
  if is_forward (si_mode input) then
    Returns (add_dependency m r deps
               (MkTaskTopology (si_stage input) (tt_partition task)))
  else
    partitions ← stage_partition_count g (si_stage input);
    Returns (foldl (add_dependency m r) deps
               (stage_tasks (si_stage input) partitions)).

Definition region_dependencies (g : JobGraph) (m : gmap TaskTopology nat)
    (r : nat) (region : TaskRegionTopology) : Run TaskRegionTopology :=
  deps ← for_each
    (λ deps task,
       st ← vec_index (jg_stages g) (tt_stage task);
       for_each (input_dependencies g m r task) deps (st_inputs st))
    (rt_dependencies region) (rt_tasks region);
  Returns (MkTaskRegionTopology (rt_tasks region) deps).

(** [JobTopology::try_new]. *)
Definition job_topology_try_new (g : JobGraph) : Run (ExecutionResult JobTopology) :=
  '(stages, adj) ← link_stages g;
  final ← final_stages_match g stages;
  if (final : bool) then
    components ← find_components (length stages) adj;
    regions ← build_regions g components;
    match regions with
    | Err e => Returns (Err e)
    | Ok regions =>
        let m := task_to_region regions in
        regions ← run_map (λ '(r, region), region_dependencies g m r region)
                    (imap pair regions);
        Returns (Ok (MkJobTopology regions stages))
    end
  else
    Returns (Err (InternalError
      "the job graph must have final stages with the same schema")).
End topology.
