(* ===== verification/TopologyFacts.v ===== *)
(** * Correctness of the job topology

    The specification [wf_topology] of a job's regions, and the proof that
    [job_topology_try_new] meets it on every topologically sorted graph. *)

From S2P Require Import Prelude Ids JobGraph Topology.
(** ** Breadth-first search *)
Section bfs.
Context (n : nat) (adj : list (list nat)).

Definition neighbor (u v : nat) : Prop := ∃ l, adj !! u = Some l ∧ v ∈ l.
Definition marked (visited : list bool) (v : nat) : Prop := visited !! v = Some true.

Hypothesis adj_range : ∀ u v, neighbor u v → v < n.
Hypothesis adj_sym : ∀ u v, neighbor u v → neighbor v u.

Lemma marked_insert visited v w :
  v < length visited →
  marked (<[v := true]> visited) w ↔ marked visited w ∨ w = v.
Proof.
  intros Hv. unfold marked. destruct (decide (v = w)) as [->|Hne].
  - rewrite list_lookup_insert_eq by done. naive_solver.
  - rewrite list_lookup_insert_ne by done. naive_solver.
Qed.

Lemma total_visit_neighbors visited0 queue0 nbrs :
  length visited0 = n → Forall (λ v, v < n) nbrs →
  for_each visit_neighbor (visited0, queue0) nbrs ⇓ λ '(visited, queue),
    length visited = n ∧ ∃ new, queue = queue0 ++ new ∧ NoDup new ∧
      (∀ v, v ∈ new → v < n ∧ ¬ marked visited0 v) ∧
      (∀ v, marked visited v ↔ marked visited0 v ∨ v ∈ new) ∧
      (∀ v, v ∈ nbrs → marked visited v).
Proof.
  intros Hlen Hrange.
  apply (total_for_each visit_neighbor (λ pre '(visited, queue),
    length visited = n ∧ ∃ new, queue = queue0 ++ new ∧ NoDup new ∧
      (∀ v, v ∈ new → v < n ∧ ¬ marked visited0 v) ∧
      (∀ v, marked visited v ↔ marked visited0 v ∨ v ∈ new) ∧
      (∀ v, v ∈ pre → marked visited v))).
  { split; [done|]. exists []. rewrite app_nil_r. split_and!; [done|constructor|..];
      set_solver. }
  intros pre v post [visited queue] -> (Hl & new & -> & Hnd & Hnew & Hm & Hpre).
  rewrite Forall_app, Forall_cons in Hrange. destruct Hrange as (_ & Hv & _).
  unfold visit_neighbor. destruct (lookup_lt_is_Some_2 visited v) as [b Hb]; [lia|].
  apply total_bind. eapply total_vec_index; [done|]. destruct b; simpl.
  { split; [done|]. exists new. split_and!; [done..|].
    intros w [Hw| ->%list_elem_of_singleton]%elem_of_app; [auto|done]. }
  apply total_bind. eapply total_vec_update; [done|]. simpl.
  rewrite length_insert. split; [done|]. exists (new ++ [v]).
  assert (¬ marked visited v) as Hnv by (unfold marked; congruence).
  rewrite Hm in Hnv. split_and!.
  - by rewrite (assoc_L (++)).
  - apply NoDup_app. split_and!; [done|set_solver|apply NoDup_singleton].
  - intros w [?| ->%list_elem_of_singleton]%elem_of_app; [auto|].
    split; [done|naive_solver].
  - intros w. rewrite marked_insert, Hm by lia. set_solver.
  - intros w Hw. rewrite marked_insert by lia.
    apply elem_of_app in Hw as [Hw| ->%list_elem_of_singleton]; [left; auto|by right].
Qed.

Lemma NoDup_range_length (l : list nat) :
  NoDup l → (∀ v, v ∈ l → v < n) → length l ≤ n.
Proof.
  intros Hnd Hr. rewrite <-(length_seq n 0).
  apply submseteq_length, NoDup_submseteq; [done|].
  intros v Hv. apply elem_of_seq0. auto.
Qed.

(** The search from a queue: [B] is what earlier searches marked.  With one
    unit of fuel per stage it returns, and the component it returns is
    closed under the adjacency. *)
Definition bfs_state (B : nat → Prop) (visited : list bool) (queue component : list nat) : Prop :=
  length visited = n ∧ NoDup (component ++ queue) ∧
  (∀ v, v ∈ component ++ queue → v < n ∧ ¬ B v) ∧
  (∀ v, marked visited v ↔ B v ∨ v ∈ component ++ queue) ∧
  (∀ u v, u ∈ component → neighbor u v → marked visited v).

Lemma bfs_state_step B visited u queue component visited' new :
  bfs_state B visited (u :: queue) component →
  length visited' = n → NoDup new →
  (∀ v, v ∈ new → v < n ∧ ¬ marked visited v) →
  (∀ v, marked visited' v ↔ marked visited v ∨ v ∈ new) →
  (∀ v, neighbor u v → marked visited' v) →
  bfs_state B visited' (queue ++ new) (component ++ [u]).
Proof.
  intros (Hl & Hnd & Hr & Hm & Hc) Hl' Hnew Hnr Hm' Hu.
  assert ((component ++ [u]) ++ queue ++ new = (component ++ u :: queue) ++ new)
    as Heq by (by rewrite <-!(assoc_L (++))).
  unfold bfs_state. rewrite Heq. split_and!; [done|..].
  - apply NoDup_app. split_and!; [done| |done].
    intros v Hv Hv'. apply (Hnr v Hv'). rewrite Hm. by right.
  - intros v [Hv|Hv]%elem_of_app; [auto|]. destruct (Hnr v Hv) as [? Hn].
    split; [done|]. intros HB. apply Hn. rewrite Hm. by left.
  - intros v. rewrite Hm', Hm. set_solver.
  - intros w v [Hw| ->%list_elem_of_singleton]%elem_of_app Hwv; [|auto].
    rewrite Hm'. left. eauto.
Qed.

Lemma total_bfs fuel B visited queue component :
  bfs_state B visited queue component →
  n ≤ length component + fuel →
  bfs fuel adj visited queue component ⇓ λ '(visited', component'),
    bfs_state B visited' [] component' ∧ component ++ queue ⊆ component'.
Proof.
  revert visited queue component.
  induction fuel as [|fuel IH]; intros visited [|u queue] component Hst Hf; simpl.
  1,3: split; [done|set_solver].
  - destruct Hst as (_ & Hnd & Hr & _).
    pose proof (NoDup_range_length _ Hnd (λ v Hv, proj1 (Hr v Hv))) as Hlen.
    rewrite length_app in Hlen. simpl in Hlen. lia.
  - apply total_bind.
    assert (∃ nbrs, (∀ v, v ∈ nbrs ↔ neighbor u v) ∧
      match adj !! u with
      | Some nbrs => for_each visit_neighbor (visited, queue) nbrs
      | None => Returns (visited, queue)
      end = for_each visit_neighbor (visited, queue) nbrs) as (nbrs & Hn & ->).
    { unfold neighbor. destruct (adj !! u) as [l|]; [exists l|exists []]; split;
        naive_solver set_solver. }
    eapply total_mono; [apply total_visit_neighbors|].
    { apply Hst. }
    { apply Forall_forall. intros v Hv%Hn. eauto. }
    intros [visited' queue'] (Hl' & new & -> & Hnd' & Hnr & Hm' & Hu).
    eapply total_mono; [apply IH|].
    + eapply bfs_state_step; eauto. intros v Hv. by apply Hu, Hn.
    + rewrite length_app. simpl. lia.
    + intros [v2 c2] [? Hsub]. split; [done|]. set_solver.
Qed.

(** ** Components *)

(** The components partition the stages and are closed under adjacency. *)
Definition components_ok (marks : nat → Prop) (components : list (list nat)) : Prop :=
  NoDup (mjoin components) ∧
  (∀ v, v ∈ mjoin components ↔ marks v) ∧
  (∀ c u v, c ∈ components → u ∈ c → neighbor u v → v ∈ c).

Lemma components_closed marks components u v :
  components_ok marks components → marks u → neighbor u v → marks v.
Proof.
  intros (_ & Hm & Hc) Hu Huv. apply Hm in Hu. apply Hm.
  apply list_elem_of_join in Hu as (c & Huc & Hcc).
  apply list_elem_of_join. eauto.
Qed.

Lemma total_component_step visited components s :
  s < n → length visited = n →
  (∀ v, marked visited v → v < n) →
  components_ok (marked visited) components →
  component_step n adj (visited, components) s ⇓ λ '(visited', components'),
    length visited' = n ∧ (∀ v, marked visited' v → v < n) ∧
    (∀ v, marked visited v → marked visited' v) ∧ marked visited' s ∧
    components_ok (marked visited') components'.
Proof.
  intros Hs Hl Hr Hok. unfold component_step.
  destruct (lookup_lt_is_Some_2 visited s) as [b Hb]; [lia|].
  apply total_bind. eapply total_vec_index; [done|]. destruct b; simpl; [done|].
  apply total_bind. eapply total_vec_update; [done|].
  apply total_bind.
  assert (¬ marked visited s) as Hns by (unfold marked; congruence).
  eapply total_mono; [apply (total_bfs n (marked visited))|].
  - split_and!; [by rewrite length_insert|apply NoDup_singleton|..]; simpl.
    + intros v ->%list_elem_of_singleton. done.
    + intros v. rewrite marked_insert by lia. set_solver.
    + set_solver.
  - simpl. lia.
  - intros [visited' c] [(Hl' & Hnd & Hcr & Hm & Hc) Hsub]. simpl.
    rewrite app_nil_r in Hnd, Hcr, Hm.
    destruct Hok as (Hnd0 & Hm0 & Hc0). split_and!; [done|..].
    + intros v [?|?]%Hm; [auto|]. by apply Hcr.
    + intros v Hv. apply Hm. by left.
    + apply Hm. right. set_solver.
    + split_and!.
      * rewrite join_app. simpl. rewrite app_nil_r.
        apply NoDup_app. split_and!; [done| |done].
        intros v Hv%Hm0 Hv'. by apply (Hcr v Hv').
      * intros v. rewrite join_app, elem_of_app, Hm, Hm0. simpl.
        by rewrite app_nil_r.
      * intros c' u v [Hc'| ->%list_elem_of_singleton]%elem_of_app Hu Huv; [eauto|].
        destruct (proj1 (Hm v) (Hc u v Hu Huv)) as [Hv|Hv]; [|done].
        destruct (Hcr u Hu) as [_ []].
        eapply (components_closed (marked visited) components v u); [done..|eauto].
Qed.

Lemma total_find_components :
  find_components n adj ⇓ λ components,
    mjoin components ≡ₚ seq 0 n ∧
    (∀ c u v, c ∈ components → u ∈ c → neighbor u v → v ∈ c).
Proof.
  unfold find_components. apply total_bind.
  eapply total_mono; [apply (total_for_each (component_step n adj)
    (λ pre '(visited, components),
       length visited = n ∧ (∀ v, marked visited v → v < n) ∧
       (∀ v, v ∈ pre → marked visited v) ∧
       components_ok (marked visited) components))|].
  - unfold marked. split_and!; [by rewrite length_replicate|..].
    + intros v [? _]%lookup_replicate. done.
    + set_solver.
    + split_and!; [constructor| |set_solver].
      intros v. rewrite lookup_replicate. set_solver.
  - intros pre s post [visited components] Hseq (Hl & Hr & Hpre & Hok).
    eapply total_mono; [apply total_component_step; [|done..]|].
    { apply elem_of_seq0. rewrite Hseq. set_solver. }
    intros [visited' components'] (Hl' & Hr' & Hmono & Hs & Hok').
    split_and!; [done|done| |done].
    intros v [Hv| ->%list_elem_of_singleton]%elem_of_app; auto.
  - intros [visited components] (_ & Hr & Hall & Hnd & Hm & Hc). simpl.
    split; [|done]. apply NoDup_Permutation; [done|apply NoDup_seq|].
    intros v. rewrite Hm, elem_of_seq0. split; [auto|].
    intros. apply Hall. by apply elem_of_seq0.
Qed.
End bfs.

(** ** Linking stages *)
Section linking.
Context `{DF : DataFusion}.
Implicit Types (g : JobGraph).

(** The inputs of the graph, each with its consumer, in loop order. *)
Definition job_edges g : list (nat * StageInput) :=
  '(s, stage) ← imap pair (jg_stages g); pair s <$> st_inputs stage.

Lemma elem_of_job_edges g s input :
  (s, input) ∈ job_edges g ↔
  ∃ stage, jg_stages g !! s = Some stage ∧ input ∈ st_inputs stage.
Proof.
  unfold job_edges. rewrite list_elem_of_bind. split.
  - intros ([s' stage] & Hin & Hel).
    apply list_elem_of_fmap in Hin as (input' & [= -> ->] & Hin).
    apply elem_of_lookup_imap in Hel as (i & y & [= -> ->] & Hy). eauto.
  - intros (stage & Hs & Hin). exists (s, stage). split.
    + by apply list_elem_of_fmap_2.
    + apply elem_of_lookup_imap. eauto.
Qed.

(** The stage that produces an input is pipelined. *)
Definition pipelined_input g (input : StageInput) : Prop :=
  ∃ st, jg_stages g !! si_stage input = Some st ∧ is_pipelined st = true.

Definition linked g (edges : list (nat * StageInput)) (links : Links) : Prop :=
  let '(stages, adj) := links in
  let n := length (jg_stages g) in
  length stages = n ∧ length adj = n ∧
  (∀ i t, stages !! i = Some t →
     stt_consumers t = (filter (λ e, si_stage e.2 = i) edges).*1) ∧
  (∀ u v, neighbor adj u v ↔ ∃ e, e ∈ edges ∧ pipelined_input g e.2 ∧
     ((u = e.1 ∧ v = si_stage e.2) ∨ (u = si_stage e.2 ∧ v = e.1))).

Lemma neighbor_push adj i l w u v :
  adj !! i = Some l →
  neighbor (<[i := l ++ [w]]> adj) u v ↔ neighbor adj u v ∨ (u = i ∧ v = w).
Proof.
  intros Hl. unfold neighbor. destruct (decide (i = u)) as [->|Hne].
  - rewrite list_lookup_insert_eq by (by eapply lookup_lt_Some). split.
    + intros (l2 & ? & Hv). simplify_eq. set_solver.
    + intros [(l2 & ? & Hv)|[_ ->]]; simplify_eq; eexists; split; [done| |done|];
        set_solver.
  - rewrite list_lookup_insert_ne by done. naive_solver.
Qed.

Lemma consumers_push (edges : list (nat * StageInput)) (stages : list StageTopology) i s t j t' :
  (∀ i t, stages !! i = Some t →
     stt_consumers t = (filter (λ e : nat * StageInput, si_stage e.2 = i) edges).*1) →
  stages !! si_stage i = Some t →
  <[si_stage i := push_consumer s t]> stages !! j = Some t' →
  stt_consumers t' =
    (filter (λ e : nat * StageInput, si_stage e.2 = j) (edges ++ [(s, i)])).*1.
Proof.
  intros Hc Ht Hj. rewrite filter_app, fmap_app, filter_cons, filter_nil. simpl.
  destruct (decide (si_stage i = j)) as [<-|Hne].
  - rewrite list_lookup_insert_eq in Hj by (by eapply lookup_lt_Some).
    simplify_eq. simpl. by rewrite (Hc _ _ Ht).
  - rewrite list_lookup_insert_ne in Hj by done. simpl.
    rewrite app_nil_r. auto.
Qed.

Lemma total_link_input g edges links s input :
  linked g edges links →
  s < length (jg_stages g) → si_stage input < length (jg_stages g) →
  link_input g s links input ⇓ linked g (edges ++ [(s, input)]).
Proof.
  destruct links as [stages adj]. intros (Hls & Hla & Hc & Hn) Hs Hi.
  destruct (lookup_lt_is_Some_2 stages (si_stage input)) as [t Ht]; [lia|].
  destruct (lookup_lt_is_Some_2 (jg_stages g) (si_stage input)) as [p Hp]; [lia|].
  unfold link_input. apply total_bind. eapply total_vec_update; [done|].
  apply total_bind. eapply total_vec_index; [done|].
  destruct (is_pipelined p) eqn:Hpi.
  - destruct (lookup_lt_is_Some_2 adj s) as [l Hl]; [lia|].
    apply total_bind. eapply total_vec_update; [done|].
    destruct (lookup_lt_is_Some_2 (<[s:=l ++ [si_stage input]]> adj) (si_stage input))
      as [l' Hl']; [rewrite length_insert; lia|].
    apply total_bind. eapply total_vec_update; [done|]. simpl.
    rewrite !length_insert. split_and!; [done|done| |].
    + intros j t' Hj. by eapply consumers_push.
    + assert (pipelined_input g input) by (exists p; done).
      intros u v. rewrite !neighbor_push, Hn by done.
      setoid_rewrite elem_of_app. setoid_rewrite list_elem_of_singleton. split.
      * intros [[(e & ? & ? & ?)|?]|?]; [eauto|..]; exists (s, input); naive_solver.
      * intros (e & [?| ->] & ? & ?); [left; left; eauto|simpl in *; tauto].
  - simpl. rewrite length_insert. split_and!; [done|done| |].
    + intros j t' Hj. by eapply consumers_push.
    + intros u v. rewrite Hn. setoid_rewrite elem_of_app.
      setoid_rewrite list_elem_of_singleton.
      assert (¬ pipelined_input g input).
      { intros (p' & ? & ?). simplify_eq. congruence. }
      split; [intros (e & ? & ? & ?); eauto|].
      intros (e & [?| ->] & ? & ?); [eauto|done].
Qed.

Lemma total_link_stages g :
  (∀ s input, (s, input) ∈ job_edges g → si_stage input < length (jg_stages g)) →
  link_stages g ⇓ linked g (job_edges g).
Proof.
  intros Hwf. unfold link_stages.
  assert (∀ s0, for_each (λ links '(s, stage), for_each (link_input g s) links (st_inputs stage))
    s0 (imap pair (jg_stages g)) =
    for_each (λ links e, link_input g e.1 links e.2) s0 (job_edges g)) as ->.
  { intros s0.
    rewrite (for_each_ext _ (λ links x, for_each (λ links y, link_input g x.1 links y)
                                links (st_inputs x.2))) by (by intros ? []).
    rewrite (for_each_nested (λ links x y, link_input g x.1 links y)).
    unfold job_edges. generalize (imap pair (jg_stages g)) s0. clear.
    induction l as [|[s st] l IH]; intros s0; [done|].
    simpl. rewrite !for_each_app.
    assert (∀ s0 (L : list StageInput),
      for_each (λ s2 '(x, y), link_input g x.1 s2 y) s0 (pair (s, st) <$> L) =
      for_each (λ s2 e, link_input g e.1 s2 e.2) s0 (pair s <$> L)) as ->.
    { clear. intros s0 L. revert s0. induction L as [|y L IH]; intros s0; [done|].
      simpl. destruct (link_input g s s0 y); simpl; auto. }
    destruct (for_each _ _ _); simpl; auto. }
  apply (total_for_each (λ links e, link_input g e.1 links e.2) (linked g)).
  - split_and!; [by rewrite length_replicate..| |].
    + intros i t [-> _]%lookup_replicate. done.
    + intros u v. split; [|set_solver].
      intros (l & [-> _]%lookup_replicate & Hv). set_solver.
  - intros pre [s input] post links Hl Hlk.
    assert ((s, input) ∈ job_edges g) as Hin by (rewrite Hl; set_solver).
    apply total_link_input; [done| |by eapply Hwf].
    apply elem_of_job_edges in Hin as (? & ? & _). by eapply lookup_lt_Some.
Qed.
End linking.

(** ** The specification of a topology *)
Section spec.
Context `{DF : DataFusion}.
Implicit Types (g : JobGraph) (t : TaskTopology) (regions : list TaskRegionTopology).

Definition parts g (s : nat) : nat :=
  from_option stage_partitions 0 (jg_stages g !! s).

(** All the tasks of a job. *)
Definition component_tasks g (c : list nat) : list TaskTopology :=
  s ← c; stage_tasks s (parts g s).
Definition all_tasks g : list TaskTopology :=
  component_tasks g (seq 0 (length (jg_stages g))).

Definition region_task_list regions : list TaskTopology :=
  mjoin (rt_tasks <$> regions).

Definition in_region regions t (r : nat) : Prop :=
  ∃ region, regions !! r = Some region ∧ t ∈ rt_tasks region.

(** Task [t] reads from task [t'] through an input of its stage. *)
Definition reads g t (input : StageInput) t' : Prop :=
  tt_stage t' = si_stage input ∧
  if is_forward (si_mode input) then tt_partition t' = tt_partition t
  else tt_partition t' < parts g (si_stage input).

Record wf_topology g (tp : JobTopology) : Prop := {
  wt_stages : length (jt_stages tp) = length (jg_stages g);
  (** consumers, with the multiplicity of the inputs, in stage order *)
  wt_consumers : ∀ s st, jt_stages tp !! s = Some st →
    stt_consumers st = (filter (λ e, si_stage e.2 = s) (job_edges g)).*1;
  (** the stages nobody consumes have the job's schema *)
  wt_final : ∀ s st stage, jt_stages tp !! s = Some st → stt_consumers st = [] →
    jg_stages g !! s = Some stage → plan_schema (st_plan stage) = jg_schema g;
  (** the regions partition the tasks of the job *)
  wt_tasks : region_task_list (jt_regions tp) ≡ₚ all_tasks g;
  (** a region depends on exactly the other regions its tasks read from *)
  wt_deps : ∀ r region d, jt_regions tp !! r = Some region →
    d ∈ rt_dependencies region ↔
    d ≠ r ∧ ∃ t stage input t', t ∈ rt_tasks region ∧
      jg_stages g !! tt_stage t = Some stage ∧ input ∈ st_inputs stage ∧
      reads g t input t' ∧ in_region (jt_regions tp) t' d;
  wt_deps_nodup : ∀ r region, jt_regions tp !! r = Some region →
    NoDup (rt_dependencies region)
}.

Lemma elem_of_stage_tasks s n t :
  t ∈ stage_tasks s n ↔ tt_stage t = s ∧ tt_partition t < n.
Proof.
  unfold stage_tasks. rewrite list_elem_of_fmap. split.
  - intros (p & -> & Hp%elem_of_seq0). done.
  - destruct t as [s' p]. simpl. intros [-> Hp]. exists p. by rewrite elem_of_seq0.
Qed.

Lemma elem_of_component_tasks g c t :
  t ∈ component_tasks g c ↔ tt_stage t ∈ c ∧ tt_partition t < parts g (tt_stage t).
Proof.
  unfold component_tasks. rewrite list_elem_of_bind.
  setoid_rewrite elem_of_stage_tasks. naive_solver.
Qed.

Lemma elem_of_all_tasks g t :
  t ∈ all_tasks g ↔ tt_partition t < parts g (tt_stage t).
Proof.
  unfold all_tasks. rewrite elem_of_component_tasks, elem_of_seq0. split; [by intros []|].
  intros Hp. split; [|done]. unfold parts in Hp.
  destruct (jg_stages g !! tt_stage t) eqn:E; simpl in Hp; [|lia].
  by eapply lookup_lt_Some.
Qed.

Lemma NoDup_all_tasks g : NoDup (all_tasks g).
Proof.
  unfold all_tasks, component_tasks. generalize (NoDup_seq 0 (length (jg_stages g))).
  generalize (seq 0 (length (jg_stages g))).
  induction l as [|s l IH]; [constructor|]. intros [Hs Hl]%NoDup_cons. simpl.
  apply NoDup_app. split_and!; [|..|auto].
  - unfold stage_tasks. apply NoDup_fmap; [|apply NoDup_seq]. by intros ?? [=].
  - intros t [Ht _]%elem_of_stage_tasks Ht'.
    apply list_elem_of_bind in Ht' as (s' & [? _]%elem_of_stage_tasks & ?). congruence.
Qed.

Lemma in_region_elem regions t r :
  in_region regions t r → t ∈ region_task_list regions.
Proof.
  intros (region & Hr & Ht). apply list_elem_of_join.
  exists (rt_tasks region). split; [done|].
  apply list_elem_of_fmap_2. by eapply list_elem_of_lookup_2.
Qed.

Lemma elem_in_region regions t :
  t ∈ region_task_list regions → ∃ r, in_region regions t r.
Proof.
  intros (ts & Ht & Hts)%list_elem_of_join.
  apply list_elem_of_fmap in Hts as (region & -> & Hreg).
  apply list_elem_of_lookup in Hreg as [r Hr]. by exists r, region.
Qed.

(** A task of a topology lies in one region only. *)
Lemma in_region_unique regions t r1 r2 :
  NoDup (region_task_list regions) →
  in_region regions t r1 → in_region regions t r2 → r1 = r2.
Proof.
  revert r1 r2. unfold region_task_list.
  induction regions as [|region regions IH]; intros r1 r2 Hnd H1 H2.
  { destruct H1 as (? & ? & _). done. }
  simpl in Hnd. apply NoDup_app in Hnd as (_ & Hdisj & Hnd).
  assert (∀ r, in_region (region :: regions) t (S r) → t ∈ region_task_list regions) as Hel.
  { intros r (reg & ? & ?). apply (in_region_elem _ _ r). by exists reg. }
  destruct r1 as [|r1], r2 as [|r2]; [done|..|].
  - destruct H1 as (reg & ? & ?). simplify_eq/=. destruct (Hdisj t); eauto.
  - destruct H2 as (reg & ? & ?). simplify_eq/=. destruct (Hdisj t); eauto.
  - f_equal. apply IH; [done|..].
    + destruct H1 as (reg & ? & ?). by exists reg.
    + destruct H2 as (reg & ? & ?). by exists reg.
Qed.

Lemma lookup_foldl_insert (m : gmap TaskTopology nat) (ts : list TaskTopology) r t :
  foldl (λ m t, <[t := r]> m) m ts !! t = if decide (t ∈ ts) then Some r else m !! t.
Proof.
  revert m. induction ts as [|t' ts IH]; intros m; cbn [foldl].
  { rewrite decide_False; [done|set_solver]. }
  rewrite IH. destruct (decide (t ∈ ts)); [rewrite decide_True; [done|set_solver]|].
  destruct (decide (t' = t)) as [->|].
  - rewrite lookup_insert_eq, decide_True; [done|set_solver].
  - rewrite lookup_insert_ne by done. rewrite decide_False; [done|set_solver].
Qed.

Lemma task_to_region_spec regions t r :
  NoDup (region_task_list regions) →
  task_to_region regions !! t = Some r ↔ in_region regions t r.
Proof.
  induction regions as [|region regions IH] using rev_ind.
  { intros _. unfold task_to_region. simpl. rewrite lookup_empty.
    split; [done|]. by intros (? & ? & _). }
  unfold region_task_list in *. rewrite fmap_app, join_app. simpl. rewrite app_nil_r.
  intros (Hnd & Hdisj & _)%NoDup_app. specialize (IH Hnd).
  unfold task_to_region in *. rewrite imap_app, foldl_app. simpl.
  rewrite lookup_foldl_insert, Nat.add_0_r. unfold in_region.
  destruct (decide (t ∈ rt_tasks region)) as [Ht|Ht].
  - split.
    + intros [= <-]. exists region. by rewrite list_lookup_middle.
    + intros (reg & Hreg & Htr). f_equal.
      apply lookup_snoc_Some in Hreg as [[? Hreg]|[-> _]]; [|done].
      destruct (Hdisj t); [|done]. by apply (in_region_elem _ _ r); exists reg.
  - rewrite IH. unfold in_region. setoid_rewrite lookup_snoc_Some. split.
    + intros (reg & Hreg & ?). exists reg. split; [|done]. left.
      split; [by eapply lookup_lt_Some|done].
    + intros (reg & [[_ ?]|[_ <-]] & ?); [eauto|done].
Qed.
End spec.

(** ** Cutting components into regions *)
Section cutting.
Context `{DF : DataFusion}.
Implicit Types (g : JobGraph) (c : list nat).

Lemma stage_partition_count_pure g s :
  s < length (jg_stages g) → stage_partition_count g s = Returns (parts g s).
Proof.
  intros Hs. destruct (lookup_lt_is_Some_2 _ _ Hs) as [st Hst].
  unfold stage_partition_count, vec_index, parts. by rewrite Hst.
Qed.

(** All the inputs of the component's stages that come from within the
    component are forward inputs. *)
Definition all_forward g c : Prop :=
  ∀ u st input, u ∈ c → jg_stages g !! u = Some st → input ∈ st_inputs st →
    si_stage input ∈ c → is_forward (si_mode input) = true.

Lemma total_component_all_forward g c :
  (∀ s, s ∈ c → s < length (jg_stages g)) →
  component_all_forward g c ⇓ λ b, b = true → all_forward g c.
Proof.
  intros Hr. unfold component_all_forward.
  set (q := λ u, forallb (λ input, negb (bool_decide (si_stage input ∈ c)
                         && negb (is_forward (si_mode input))))
                   (from_option st_inputs [] (jg_stages g !! u))).
  erewrite (run_all_pure _ q).
  - simpl. intros Hq u st input Hu Hst Hin Hc.
    rewrite forallb_Forall in Hq. specialize (Hq u Hu). unfold q in Hq.
    rewrite Hst in Hq. simpl in Hq. rewrite forallb_Forall in Hq.
    specialize (Hq input Hin). rewrite bool_decide_true in Hq by done.
    by destruct (is_forward (si_mode input)).
  - intros u Hu. destruct (lookup_lt_is_Some_2 (jg_stages g) u) as [st Hst]; [auto|].
    unfold vec_index, q. by rewrite Hst.
Qed.

(** The two shapes of the regions of a component. *)
Inductive component_shape g c : list TaskRegionTopology → Prop :=
| shape_sliced p :
    all_forward g c → (∀ s, s ∈ c → parts g s = p) →
    component_shape g c (sliced_regions c p)
| shape_whole :
    component_shape g c [MkTaskRegionTopology (component_tasks g c) []].

Lemma sliced_tasks_perm g c p :
  (∀ s, s ∈ c → parts g s = p) →
  region_task_list (sliced_regions c p) ≡ₚ component_tasks g c.
Proof.
  intros Hp. unfold region_task_list, sliced_regions, component_tasks.
  rewrite <-list_fmap_compose. unfold compose. simpl.
  induction c as [|s c IH]; simpl.
  { clear. induction (seq 0 p); simpl; auto. }
  rewrite Hp by set_solver. rewrite <-IH by set_solver. clear.
  unfold stage_tasks. induction (seq 0 p) as [|q l IH]; simpl; [done|].
  rewrite IH, !(assoc_L (++)). constructor.
  apply Permutation_app_tail, Permutation_app_comm.
Qed.

Lemma component_shape_tasks g c rs :
  component_shape g c rs → region_task_list rs ≡ₚ component_tasks g c.
Proof.
  destruct 1 as [p _ Hp|].
  - by apply sliced_tasks_perm.
  - unfold region_task_list. simpl. by rewrite app_nil_r.
Qed.

Lemma component_shape_deps g c rs region :
  component_shape g c rs → region ∈ rs → rt_dependencies region = [].
Proof.
  destruct 1 as [p _ Hp|].
  - by intros (q & -> & _)%list_elem_of_fmap.
  - by intros ->%list_elem_of_singleton.
Qed.

Lemma remove_dups_singleton (l : list nat) p x :
  remove_dups l = [p] → x ∈ l → x = p.
Proof.
  intros Hp Hx. apply elem_of_remove_dups in Hx. rewrite Hp in Hx. set_solver.
Qed.

Lemma total_component_regions g c :
  (∀ s, s ∈ c → s < length (jg_stages g)) →
  component_regions g c ⇓ λ r,
    match r with Ok rs => component_shape g c rs | Err _ => True end.
Proof.
  intros Hr. unfold component_regions. run_call (by apply total_component_all_forward). intros [] Hf.
  - apply total_bind. erewrite (run_map_pure _ (parts g)).
    2:{ intros. apply stage_partition_count_pure. auto. }
    simpl. destruct (remove_dups (parts g <$> c)) as [|p [|]] eqn:Hd; simpl; [done| |done].
    constructor; [auto|]. intros s Hs. eapply remove_dups_singleton; [done|].
    by apply list_elem_of_fmap_2.
  - apply total_bind. unfold whole_region. apply total_bind.
    erewrite (run_map_pure _ (λ s, stage_tasks s (parts g s))).
    2:{ intros. rewrite stage_partition_count_pure by auto. done. }
    simpl. unfold component_tasks.
    assert (mjoin ((λ s, stage_tasks s (parts g s)) <$> c) = component_tasks g c) as ->.
    { unfold component_tasks. clear. induction c; simpl; [done|]. by f_equal. }
    constructor.
Qed.

(** The regions of all the components, component by component. *)
Definition regions_shape g (components : list (list nat))
    (regions : list TaskRegionTopology) : Prop :=
  ∃ rss, regions = mjoin rss ∧ Forall2 (component_shape g) components rss.

Lemma total_build_regions g components :
  (∀ s, s ∈ mjoin components → s < length (jg_stages g)) →
  build_regions g components ⇓ λ r,
    match r with Ok rs => regions_shape g components rs | Err _ => True end.
Proof.
  induction components as [|c components IH]; intros Hr; simpl.
  { exists []. split; [done|constructor]. }
  apply total_bind. eapply total_mono; [apply total_component_regions; set_solver|].
  intros [rs|e] Hrs; [|done].
  apply total_bind. eapply total_mono; [apply IH; set_solver|].
  intros [rest|e]; [|done]. simpl. intros (rss & -> & Hall).
  exists (rs :: rss). split; [done|]. by constructor.
Qed.

Lemma regions_shape_tasks g components regions :
  regions_shape g components regions →
  region_task_list regions ≡ₚ component_tasks g (mjoin components).
Proof.
  intros (rss & -> & Hall). unfold region_task_list.
  induction Hall as [|c rs components rss Hc Hall IH]; simpl; [done|].
  rewrite fmap_app, join_app. unfold component_tasks. rewrite bind_app. f_equiv.
  - by apply component_shape_tasks.
  - done.
Qed.

(** The component a region was cut from. *)
Lemma regions_shape_lookup g components regions r region :
  regions_shape g components regions → regions !! r = Some region →
  ∃ c rs, c ∈ components ∧ component_shape g c rs ∧ region ∈ rs ∧
    rt_dependencies region = [].
Proof.
  intros (rss & -> & Hall) Hr. apply list_elem_of_lookup_2 in Hr.
  apply list_elem_of_join in Hr as (rs & Hin & Hrs).
  apply list_elem_of_lookup in Hrs as [i Hi].
  destruct (Forall2_lookup_r _ _ _ _ _ Hall Hi) as (c & Hc & Hsh).
  exists c, rs. split_and!; [by eapply list_elem_of_lookup_2|done|done|].
  by eapply component_shape_deps.
Qed.
End cutting.

(** ** Dependencies of a region *)
Section dependencies.
Context `{DF : DataFusion} (g : JobGraph) (m : gmap TaskTopology nat) (r : nat).

Lemma elem_of_add_dependency deps t d :
  d ∈ add_dependency m r deps t ↔ d ∈ deps ∨ (d ≠ r ∧ m !! t = Some d).
Proof.
  unfold add_dependency. destruct (m !! t) as [d'|] eqn:Hm; [|naive_solver].
  case_decide; [|rewrite elem_of_is_insert]; naive_solver.
Qed.

Lemma NoDup_add_dependency deps t : NoDup deps → NoDup (add_dependency m r deps t).
Proof.
  unfold add_dependency. destruct (m !! t); [|done].
  case_decide; auto using NoDup_is_insert.
Qed.

Lemma foldl_add_dependency deps ts d :
  d ∈ foldl (add_dependency m r) deps ts ↔
  d ∈ deps ∨ (d ≠ r ∧ ∃ t, t ∈ ts ∧ m !! t = Some d).
Proof.
  revert deps. induction ts as [|t ts IH]; intros deps; simpl; [set_solver|].
  rewrite IH, elem_of_add_dependency. set_solver.
Qed.

Lemma NoDup_foldl_add_dependency deps ts :
  NoDup deps → NoDup (foldl (add_dependency m r) deps ts).
Proof.
  revert deps. induction ts as [|t ts IH]; intros deps; simpl; [done|].
  auto using NoDup_add_dependency.
Qed.

(** The tasks an input makes a task read from, as the loop enumerates them. *)
Definition input_tasks (t : TaskTopology) (input : StageInput) : list TaskTopology :=
  if is_forward (si_mode input) then [MkTaskTopology (si_stage input) (tt_partition t)]
  else stage_tasks (si_stage input) (parts g (si_stage input)).

Lemma elem_of_input_tasks t input t' : t' ∈ input_tasks t input ↔ reads g t input t'.
Proof.
  unfold input_tasks, reads. destruct (is_forward (si_mode input)).
  - rewrite list_elem_of_singleton. destruct t'. naive_solver.
  - apply elem_of_stage_tasks.
Qed.

Lemma input_dependencies_pure t deps input :
  si_stage input < length (jg_stages g) →
  input_dependencies g m r t deps input =
    Returns (foldl (add_dependency m r) deps (input_tasks t input)).
Proof.
  intros Hi. unfold input_dependencies, input_tasks.
  destruct (is_forward (si_mode input)); [done|].
  by rewrite stage_partition_count_pure.
Qed.

Hypothesis Hwf : wf_graph g.

Lemma total_region_dependencies region :
  (∀ t, t ∈ rt_tasks region → tt_stage t < length (jg_stages g)) →
  rt_dependencies region = [] →
  region_dependencies g m r region ⇓ λ region',
    rt_tasks region' = rt_tasks region ∧ NoDup (rt_dependencies region') ∧
    ∀ d, d ∈ rt_dependencies region' ↔
      d ≠ r ∧ ∃ t stage input t', t ∈ rt_tasks region ∧
        jg_stages g !! tt_stage t = Some stage ∧ input ∈ st_inputs stage ∧
        reads g t input t' ∧ m !! t' = Some d.
Proof.
  intros Hr Hd. unfold region_dependencies. apply total_bind.
  set (Q (pre : list TaskTopology) := λ deps : list nat, NoDup deps ∧ ∀ d, d ∈ deps ↔ d ≠ r ∧
    ∃ t stage input t', t ∈ pre ∧ jg_stages g !! tt_stage t = Some stage ∧
      input ∈ st_inputs stage ∧ reads g t input t' ∧ m !! t' = Some d).
  eapply total_mono; [apply (total_for_each _ Q)|].
  - rewrite Hd. split; [constructor|]. set_solver.
  - intros pre t post deps Ht (Hnd & Hdeps).
    destruct (lookup_lt_is_Some_2 (jg_stages g) (tt_stage t)) as [st Hst].
    { apply Hr. rewrite Ht. set_solver. }
    apply total_bind. eapply total_vec_index; [done|].
    eapply total_mono; [apply (total_for_each _ (λ ipre deps', NoDup deps' ∧
      ∀ d, d ∈ deps' ↔ d ∈ deps ∨ (d ≠ r ∧ ∃ input t', input ∈ ipre ∧
        reads g t input t' ∧ m !! t' = Some d)))|].
    + split; [done|]. set_solver.
    + intros ipre input ipost deps' Hin (Hnd' & Hdeps').
      assert (input ∈ st_inputs st) as Hi by (rewrite Hin; set_solver).
      rewrite input_dependencies_pure.
      2:{ pose proof (Hwf _ _ _ Hst Hi). apply lookup_lt_Some in Hst. lia. }
      split; [by apply NoDup_foldl_add_dependency|].
      intros d. rewrite foldl_add_dependency, Hdeps'.
      setoid_rewrite elem_of_input_tasks. set_solver.
    + intros deps' (Hnd' & Hdeps'). split; [done|]. intros d.
      rewrite Hdeps', Hdeps. setoid_rewrite elem_of_app.
      setoid_rewrite list_elem_of_singleton. split.
      * intros [(? & t0 & st0 & i0 & t1 & ?)|(? & i0 & t1 & ?)]; (split; [done|]).
        -- exists t0, st0, i0, t1. tauto.
        -- exists t, st, i0, t1. tauto.
      * intros (? & t0 & st0 & i0 & t1 & [Ht0| ->] & ? & ?).
        -- left. split; [done|]. exists t0, st0, i0, t1. tauto.
        -- simplify_eq. right. split; [done|]. exists i0, t1. tauto.
  - intros deps (Hnd & Hdeps). done.
Qed.
End dependencies.

(** ** The topology meets its specification *)
Section correctness.
Context `{DF : DataFusion} (g : JobGraph).
Hypothesis Hwf : wf_graph g.

Lemma job_edges_range s input :
  (s, input) ∈ job_edges g → si_stage input < length (jg_stages g).
Proof.
  intros (st & Hst & Hin)%elem_of_job_edges.
  pose proof (Hwf _ _ _ Hst Hin). apply lookup_lt_Some in Hst. lia.
Qed.

Lemma linked_adj_range links :
  linked g (job_edges g) links →
  (∀ u v, neighbor links.2 u v → v < length (jg_stages g)) ∧
  (∀ u v, neighbor links.2 u v → neighbor links.2 v u).
Proof.
  destruct links as [stages adj]. intros (_ & _ & _ & Hn). simpl. split.
  - intros u v ([s input] & He & _ & Huv)%Hn. simpl in Huv.
    pose proof (job_edges_range _ _ He).
    apply elem_of_job_edges in He as (st & Hst%lookup_lt_Some & _). naive_solver.
  - intros u v (e & He & Hp & Huv)%Hn. apply Hn. exists e. tauto.
Qed.

Lemma total_final_stages_match stages :
  length stages = length (jg_stages g) →
  final_stages_match g stages ⇓ λ b, b = true →
    ∀ s t st, stages !! s = Some t → stt_consumers t = [] →
      jg_stages g !! s = Some st → plan_schema (st_plan st) = jg_schema g.
Proof.
  intros Hl. unfold final_stages_match.
  set (q := λ '(s, stage), match stt_consumers stage, jg_stages g !! s with
            | [], Some st => bool_decide (plan_schema (st_plan st) = jg_schema g)
            | _, _ => true end).
  erewrite (run_all_pure _ q).
  - simpl. intros Hq s t st Ht Hc Hst. rewrite forallb_Forall in Hq.
    assert ((s, t) ∈ imap pair stages) as Hel by (apply elem_of_lookup_imap; eauto).
    specialize (Hq _ Hel). simpl in Hq. rewrite Hc, Hst in Hq.
    by apply bool_decide_eq_true in Hq.
  - intros [s t] (i & y & [= -> ->] & Hy)%elem_of_lookup_imap. simpl.
    destruct (stt_consumers y); [|done].
    destruct (lookup_lt_is_Some_2 (jg_stages g) i) as [st Hst].
    { apply lookup_lt_Some in Hy. lia. }
    unfold vec_index. by rewrite Hst.
Qed.

(** What the regions look like before their dependencies are filled in. *)
Definition regions_of_components (adj : list (list nat))
    (regions : list TaskRegionTopology) : Prop :=
  ∃ components, regions_shape g components regions ∧
    (∀ c u v, c ∈ components → u ∈ c → neighbor adj u v → v ∈ c) ∧
    region_task_list regions ≡ₚ all_tasks g.

Lemma total_regions links :
  linked g (job_edges g) links →
  (components ← find_components (length (jg_stages g)) links.2;
   build_regions g components) ⇓ λ r,
    match r with Ok rs => regions_of_components links.2 rs | Err _ => True end.
Proof.
  intros Hlk. destruct (linked_adj_range _ Hlk) as [Hr Hs].
  run_call (by apply total_find_components).
  intros components [Hperm Hc]. eapply total_mono; [apply total_build_regions|].
  { intros s. rewrite Hperm. by rewrite elem_of_seq0. }
  intros [rs|]; [|done]. intros Hsh. exists components. split_and!; [done..|].
  rewrite regions_shape_tasks by done. unfold all_tasks, component_tasks.
  by rewrite Hperm.
Qed.

Lemma total_region_loop adj regions :
  regions_of_components adj regions →
  run_map (λ '(r, region), region_dependencies g (task_to_region regions) r region)
    (imap pair regions) ⇓ λ regions',
    length regions' = length regions ∧
    ∀ r region, regions !! r = Some region → ∃ region', regions' !! r = Some region' ∧
      rt_tasks region' = rt_tasks region ∧ NoDup (rt_dependencies region') ∧
      ∀ d, d ∈ rt_dependencies region' ↔
        d ≠ r ∧ ∃ t stage input t', t ∈ rt_tasks region ∧
          jg_stages g !! tt_stage t = Some stage ∧ input ∈ st_inputs stage ∧
          reads g t input t' ∧ in_region regions t' d.
Proof.
  intros (components & Hsh & _ & Hperm).
  assert (NoDup (region_task_list regions)) as Hnd.
  { rewrite Hperm. apply NoDup_all_tasks. }
  eapply total_mono; [apply (total_run_map _ (λ '(r, region) region',
      rt_tasks region' = rt_tasks region ∧ NoDup (rt_dependencies region') ∧
      ∀ d, d ∈ rt_dependencies region' ↔
        d ≠ r ∧ ∃ t stage input t', t ∈ rt_tasks region ∧
          jg_stages g !! tt_stage t = Some stage ∧ input ∈ st_inputs stage ∧
          reads g t input t' ∧ in_region regions t' d))|].
  - intros [r region] (i & y & [= -> ->] & Hy)%elem_of_lookup_imap. simpl.
    eapply total_mono; [apply total_region_dependencies; [done|..]|].
    + intros t Ht. assert (t ∈ all_tasks g) as Hall.
      { rewrite <-Hperm. apply (in_region_elem _ _ i). by exists y. }
      apply elem_of_component_tasks in Hall as [?%elem_of_seq0 _]. done.
    + by edestruct regions_shape_lookup as (? & ? & ? & ? & ? & ?).
    + intros region' (Ht & Hndd & Hd). split_and!; [done|done|].
      intros d. rewrite Hd. by setoid_rewrite task_to_region_spec.
  - intros regions' Hall. pose proof (Forall2_length _ _ _ Hall) as Hl.
    rewrite length_imap in Hl. split; [done|]. intros r region Hr.
    destruct (Forall2_lookup_l _ _ _ r (r, region) Hall) as (region' & Hr' & H').
    { rewrite list_lookup_imap, Hr. done. }
    exists region'. split; [done|]. exact H'.
Qed.

Lemma same_tasks_in_region regions regions' t r :
  length regions' = length regions →
  (∀ r region, regions !! r = Some region → ∃ region',
     regions' !! r = Some region' ∧ rt_tasks region' = rt_tasks region) →
  in_region regions' t r ↔ in_region regions t r.
Proof.
  intros Hl Hs. unfold in_region. split.
  - intros (region' & Hr & Ht).
    destruct (lookup_lt_is_Some_2 regions r) as [region Hreg].
    { apply lookup_lt_Some in Hr. lia. }
    destruct (Hs _ _ Hreg) as (? & ? & Heq). simplify_eq. exists region.
    by rewrite <-Heq.
  - intros (region & Hr & Ht). destruct (Hs _ _ Hr) as (region' & ? & Heq).
    exists region'. by rewrite Heq.
Qed.

Lemma same_tasks_list regions regions' :
  length regions' = length regions →
  (∀ r region, regions !! r = Some region → ∃ region',
     regions' !! r = Some region' ∧ rt_tasks region' = rt_tasks region) →
  region_task_list regions' = region_task_list regions.
Proof.
  intros Hl Hs. unfold region_task_list. f_equal. apply list_eq. intros r.
  rewrite !list_lookup_fmap. destruct (regions !! r) as [region|] eqn:Hr.
  - destruct (Hs _ _ Hr) as (region' & -> & Heq). simpl. by rewrite Heq.
  - apply lookup_ge_None in Hr. rewrite <-Hl in Hr.
    apply lookup_ge_None in Hr. by rewrite Hr.
Qed.

(** The topology as a relation to the components, for the clients that need
    the shape of the regions. *)
Definition topology_of (tp : JobTopology) : Prop :=
  wf_topology g tp ∧
  ∃ adj regions, linked g (job_edges g) (jt_stages tp, adj) ∧
    regions_of_components adj regions ∧
    length (jt_regions tp) = length regions ∧
    ∀ r region, regions !! r = Some region → ∃ region',
      jt_regions tp !! r = Some region' ∧ rt_tasks region' = rt_tasks region.

Lemma total_job_topology :
  job_topology_try_new g ⇓ λ r,
    match r with Ok tp => topology_of tp | Err _ => True end.
Proof.
  unfold job_topology_try_new. apply total_bind.
  eapply total_mono; [apply total_link_stages, job_edges_range|].
  intros [stages adj] Hlk. pose proof Hlk as (Hls & Hla & Hc & _).
  run_call (by apply total_final_stages_match).
  intros [] Hfin; [|done]. rewrite Hls.
  pose proof (total_regions _ Hlk) as Hreg. simpl in Hreg.
  destruct (find_components (length (jg_stages g)) adj) as [components| |]; simpl in *; [|done..].
  destruct (build_regions g components) as [[regions|e]| |]; simpl in *; [|done..].
  run_call (by eapply (total_region_loop adj)).
  intros regions' (Hl & Hloop). simpl.
  assert (∀ r region, regions !! r = Some region → ∃ region',
     regions' !! r = Some region' ∧ rt_tasks region' = rt_tasks region) as Hsame.
  { intros r region Hr. destruct (Hloop r region Hr) as (region' & ? & ? & _). eauto. }
  split; [|exists adj, regions; split_and!; done].
  split; simpl; [done|exact Hc|by apply Hfin| |..].
  - rewrite (same_tasks_list regions) by done. by destruct Hreg as (? & ? & ? & ?).
  - intros r region' d Hr'.
    destruct (lookup_lt_is_Some_2 regions r) as [region Hr].
    { apply lookup_lt_Some in Hr'. lia. }
    destruct (Hloop r region Hr) as (? & ? & Ht & _ & Hd). simplify_eq.
    rewrite Hd, Ht. by setoid_rewrite (same_tasks_in_region regions regions' _ _ Hl Hsame).
  - intros r region' Hr'. destruct (lookup_lt_is_Some_2 regions r) as [region Hr].
    { apply lookup_lt_Some in Hr'. lia. }
    destruct (Hloop r region Hr) as (? & ? & _ & ? & _). by simplify_eq.
Qed.

(** When every stage is pipelined, no region depends on another. *)
Lemma pipelined_no_dependencies tp r region :
  (∀ s stage, jg_stages g !! s = Some stage → is_pipelined stage = true) →
  topology_of tp → jt_regions tp !! r = Some region → rt_dependencies region = [].
Proof.
  intros Hpipe (Hw & adj & regions & Hlk & Hreg & Hl & Hsame) Hr.
  destruct (rt_dependencies region) as [|d ds] eqn:Hdeps; [done|exfalso].
  assert (d ∈ rt_dependencies region) as Hd by (rewrite Hdeps; set_solver).
  apply (wt_deps _ _ Hw _ _ _ Hr) in Hd as (Hne & t & stage & input & t' & Ht & Hst & Hin & Hrd & Hrg).
  rewrite (same_tasks_in_region regions) in Hrg by done.
  destruct (lookup_lt_is_Some_2 regions r) as [region0 Hr0].
  { apply lookup_lt_Some in Hr. lia. }
  destruct (Hsame _ _ Hr0) as (? & ? & Hts). simplify_eq.
  destruct Hreg as (components & Hsh & Hclosed & Hperm).
  destruct (regions_shape_lookup _ _ _ _ _ Hsh Hr0) as (c & rs & Hc & Hshape & Hin0 & _).
  rewrite Hts in Ht. apply Hne. symmetry.
  eapply (in_region_unique regions t'); [rewrite Hperm; apply NoDup_all_tasks| |done].
  exists region0. split; [done|].
  assert (si_stage input < length (jg_stages g)) as Hsi.
  { apply (job_edges_range (tt_stage t)). apply elem_of_job_edges. eauto. }
  destruct (lookup_lt_is_Some_2 _ _ Hsi) as [prod Hprod].
  assert (neighbor adj (tt_stage t) (si_stage input)) as Hnb.
  { destruct Hlk as (_ & _ & _ & Hn). apply Hn. exists (tt_stage t, input).
    split_and!; [apply elem_of_job_edges; eauto|exists prod; eauto|left; done]. }
  destruct Hrd as [Hs Hp].
  assert (t' ∈ all_tasks g) as Ht'.
  { rewrite <-Hperm. by eapply in_region_elem. }
  apply elem_of_all_tasks in Ht'.
  destruct Hshape as [p Hfwd Hparts|].
  - apply list_elem_of_fmap in Hin0 as (q & -> & Hq). simpl in *.
    apply list_elem_of_fmap in Ht as (s & -> & Hs'). simpl in *.
    assert (si_stage input ∈ c) as Hsic by eauto.
    rewrite (Hfwd _ _ _ Hs' Hst Hin Hsic) in Hp. destruct t' as [s' p']. simpl in *.
    subst. apply list_elem_of_fmap. eauto.
  - apply list_elem_of_singleton in Hin0 as ->. simpl in *.
    apply elem_of_component_tasks in Ht as [Ht _].
    apply elem_of_component_tasks. split; [|done]. rewrite Hs. eauto.
Qed.
End correctness.

(** ** Job graphs whose topology is built

    [JobTopology::try_new] rejects a graph whose final stages disagree with the
    schema of the job, and a component of forward stages with different partition
    counts.  The components are connected, so a graph whose forward inputs agree
    with their producer on the partition count is never rejected. *)

(** ** Components are connected *)
Section connected.
Context (n : nat) (adj : list (list nat)).

Lemma partial_bind {A B} (m : Run A) (k : A → Run B) Q :
  partial m (λ a, partial (k a) Q) → partial (m ≫= k) Q.
Proof. by destruct m. Qed.

Lemma partial_for_each {S A} (f : S → A → Run S) (I : S → Prop) (l : list A) s :
  I s → (∀ x s, x ∈ l → I s → partial (f s x) I) → partial (for_each f s l) I.
Proof.
  revert s. induction l as [|x l IH]; intros s Hs Hstep; simpl; [done|].
  pose proof (Hstep x s ltac:(set_solver) Hs) as Hx.
  destruct (f s x) as [s'| |]; simpl in *; [|done..].
  apply IH; [done|]. intros y s'' Hy. apply Hstep. set_solver.
Qed.

Lemma visit_neighbors_from (P : nat → Prop) visited queue nbrs :
  (∀ v, v ∈ queue → P v) → (∀ v, v ∈ nbrs → P v) →
  partial (for_each visit_neighbor (visited, queue) nbrs) (λ r, ∀ v, v ∈ r.2 → P v).
Proof.
  intros Hq Hn. apply (partial_for_each _ (λ r, ∀ v, v ∈ r.2 → P v)); [done|].
  intros v [vis q] Hv HP. unfold visit_neighbor.
  apply partial_bind. destruct (vec_index vis v) as [[]| |]; simpl; [done| |done..].
  apply partial_bind. destruct (vec_update _ _ _); simpl; [|done..].
  intros w [Hw| ->%list_elem_of_singleton]%elem_of_app; auto.
Qed.

Lemma bfs_connected (P : nat → Prop) fuel visited queue component :
  (∀ u v, P u → neighbor adj u v → P v) → (∀ v, v ∈ queue ++ component → P v) →
  partial (bfs fuel adj visited queue component) (λ r,
    (∀ v, v ∈ r.2 → P v) ∧ queue ++ component ⊆ r.2).
Proof.
  intros Hcl. revert visited queue component.
  induction fuel as [|fuel IH]; intros visited [|u queue] component HP; simpl; try done.
  apply partial_bind.
  assert (∀ v, v ∈ queue → P v) as Hq by set_solver.
  assert (partial match adj !! u with
    | Some neighbors => for_each visit_neighbor (visited, queue) neighbors
    | None => Returns (visited, queue) end
    (λ r, (∀ v, v ∈ r.2 → P v) ∧ queue ⊆ r.2)) as Hv.
  { destruct (adj !! u) as [l|] eqn:Hu; [|done].
    pose proof (visit_neighbors_from P visited queue l Hq) as H1.
    pose proof (partial_for_each visit_neighbor (λ r, queue ⊆ r.2) l (visited, queue)) as H2.
    destruct (for_each _ _ _) as [r| |]; simpl in *; [|done..]. split.
    - apply H1. intros v Hvl. apply (Hcl u); [set_solver|]. by exists l.
    - apply H2; [done|]. intros v [vis q] Hvl Hsub. unfold visit_neighbor. apply partial_bind.
      destruct (vec_index vis v) as [[]| |]; simpl; [done| |done..].
      apply partial_bind. destruct (vec_update _ _ _); simpl; [set_solver|done..]. }
  destruct (match adj !! u return Run (list bool * list nat) with Some _ => _ | None => _ end)
    as [[vis q]| |]; simpl in *; [|done..].
  destruct Hv as [Hv Hsub]. specialize (IH vis q (component ++ [u])).
  destruct (bfs _ _ _ _ _) as [r| |]; simpl in *; [|done..].
  destruct IH as [H1 H2]; [set_solver|]. split; [done|set_solver].
Qed.

Definition connected (c : list nat) : Prop :=
  ∃ s, s ∈ c ∧ ∀ v, v ∈ c → rtc (neighbor adj) s v.

Lemma find_components_connected :
  partial (find_components n adj) (λ components, ∀ c, c ∈ components → connected c).
Proof.
  unfold find_components. apply partial_bind.
  pose proof (partial_for_each (component_step n adj)
    (λ st, ∀ c, c ∈ st.2 → connected c) (seq 0 n) (replicate n false, [])) as H.
  destruct (for_each _ _ _) as [[vis cs]| |]; simpl in *; [|done..].
  apply H; [set_solver|]. intros s [v components] _ Hc. unfold component_step.
  apply partial_bind. destruct (vec_index v s) as [[]| |]; simpl; [done| |done..].
  apply partial_bind. destruct (vec_update _ _ _) as [v'| |]; simpl; [|done..].
  apply partial_bind.
  pose proof (bfs_connected (rtc (neighbor adj) s) n v' [s] []) as Hb.
  destruct (bfs _ _ _ _ _) as [[v2 c]| |]; simpl in *; [|done..].
  destruct Hb as [Hb Hs].
  - intros u w Hu Hw. by eapply rtc_r.
  - intros w ->%list_elem_of_singleton. done.
  - intros c' [Hc'| ->%list_elem_of_singleton]%elem_of_app; [auto|].
    exists s. split; [set_solver|done].
Qed.
End connected.

(** ** Consistent graphs *)
Section consistent.
Context `{DF : DataFusion} (g : JobGraph).

(** Nobody consumes stage [s]. *)
Definition final_stage (s : nat) : Prop := ∀ e, e ∈ job_edges g → si_stage e.2 ≠ s.

(** What [JobTopology::try_new] asks of the graph. *)
Record consistent_graph : Prop := {
  cg_schema : ∀ s stage, jg_stages g !! s = Some stage → final_stage s →
    plan_schema (st_plan stage) = jg_schema g;
  cg_forward : ∀ s input, (s, input) ∈ job_edges g → is_forward (si_mode input) = true →
    pipelined_input g input → parts g s = parts g (si_stage input)
}.

Hypothesis Hwf : wf_graph g.
Hypothesis Hc : consistent_graph.

Lemma final_stages_match_ok stages :
  length stages = length (jg_stages g) →
  (∀ i t, stages !! i = Some t →
     stt_consumers t = (filter (λ e, si_stage e.2 = i) (job_edges g)).*1) →
  final_stages_match g stages = Returns true.
Proof.
  intros Hl Hcons. unfold final_stages_match. erewrite (run_all_pure _ (λ _, true)).
  { f_equal. by apply forallb_Forall. }
  intros [s t] Hst%elem_of_imap_pair. simpl.
  destruct (stt_consumers t) as [|] eqn:Ht; [|done].
  destruct (lookup_lt_is_Some_2 (jg_stages g) s) as [stage Hs].
  { apply lookup_lt_Some in Hst. lia. }
  rewrite (proj2 (vec_index_returns _ _ _) Hs). simpl. rewrite bool_decide_true; [done|].
  apply (cg_schema Hc s); [done|]. intros e He Hes.
  rewrite (Hcons s t Hst) in Ht. apply fmap_nil_inv in Ht.
  assert (e ∈ filter (λ e, si_stage e.2 = s) (job_edges g)) as Hin by by apply list_elem_of_filter.
  rewrite Ht in Hin. set_solver.
Qed.

(** The stages of a connected component of forward inputs have one partition
    count. *)
Lemma forward_component_parts adj c s v :
  (∀ u v, neighbor adj u v ↔ ∃ e, e ∈ job_edges g ∧ pipelined_input g e.2 ∧
     ((u = e.1 ∧ v = si_stage e.2) ∨ (u = si_stage e.2 ∧ v = e.1))) →
  (∀ u v, u ∈ c → neighbor adj u v → v ∈ c) →
  all_forward g c → s ∈ c → rtc (neighbor adj) s v → v ∈ c ∧ parts g v = parts g s.
Proof.
  intros Hn Hcl Hf Hs. induction 1 as [s|s u v Hsu _ IH]; [done|].
  assert (u ∈ c) as Hu by eauto.
  destruct (IH Hu) as [Hv <-%symmetry]. split; [done|].
  apply Hn in Hsu as ([w input] & He & Hp & Huw). simpl in *.
  pose proof He as (st & Hst & Hin)%elem_of_job_edges.
  assert (parts g w = parts g (si_stage input)) as Hw.
  { apply (cg_forward Hc); [done| |done].
    apply (Hf w st); [|done|done|]; destruct Huw as [[-> ->]|[-> ->]]; done. }
  by destruct Huw as [[-> ->]|[-> ->]].
Qed.

Lemma component_regions_ok adj c :
  (∀ s, s ∈ c → s < length (jg_stages g)) → connected adj c →
  (∀ u v, neighbor adj u v ↔ ∃ e, e ∈ job_edges g ∧ pipelined_input g e.2 ∧
     ((u = e.1 ∧ v = si_stage e.2) ∨ (u = si_stage e.2 ∧ v = e.1))) →
  (∀ u v, u ∈ c → neighbor adj u v → v ∈ c) →
  component_regions g c ⇓ λ r, is_ok r = true.
Proof.
  intros Hr (s & Hs & Hcon) Hn Hcl. unfold component_regions. run_call (by apply total_component_all_forward). intros [] Hf.
  - apply total_bind. erewrite (run_map_pure _ (parts g)).
    2:{ intros. apply stage_partition_count_pure. auto. }
    simpl. assert (remove_dups (parts g <$> c) = [parts g s]) as ->; [|done].
    assert (remove_dups (parts g <$> c) ≡ₚ [parts g s]) as Hp.
    { apply NoDup_Permutation; [apply NoDup_remove_dups|apply NoDup_singleton|].
      intros p. rewrite elem_of_remove_dups, list_elem_of_singleton, list_elem_of_fmap.
      split; [intros (v & -> & Hv)|intros ->; by exists s].
      by apply (forward_component_parts adj c s v Hn Hcl (Hf eq_refl) Hs (Hcon v Hv)). }
    by apply Permutation_singleton_r in Hp.
  - apply total_bind. unfold whole_region. apply total_bind.
    erewrite (run_map_pure _ (λ s, stage_tasks s (parts g s))); [done|].
    intros. by rewrite stage_partition_count_pure by auto.
Qed.

Lemma build_regions_ok components :
  (∀ c, c ∈ components → component_regions g c ⇓ λ r, is_ok r = true) →
  build_regions g components ⇓ λ r, is_ok r = true.
Proof.
  induction components as [|c components IH]; intros Hall; simpl; [done|].
  apply total_bind. eapply total_mono; [apply Hall; set_solver|]. intros [rs|e] Hrs; [|done].
  apply total_bind. eapply total_mono; [apply IH; set_solver|]. by intros [].
Qed.

(** A consistent graph is never rejected. *)
Lemma consistent_topology_ok : job_topology_try_new g ⇓ λ r, is_ok r = true.
Proof.
  unfold job_topology_try_new. apply total_bind.
  eapply total_mono; [apply total_link_stages, job_edges_range, Hwf|].
  intros [stages adj] Hlk. pose proof Hlk as (Hls & Hla & Hcons & Hn).
  rewrite final_stages_match_ok by done. simpl. rewrite Hls.
  destruct (linked_adj_range g Hwf _ Hlk) as [Hr Hsym]. simpl in *.
  pose proof (total_partial _ _ _ (total_find_components _ adj Hr Hsym)
    (find_components_connected _ adj)) as Hfind.
  pose proof (total_regions g Hwf (stages, adj) Hlk) as Hreg. simpl in Hreg.
  destruct (find_components _ adj) as [components| |]; simpl in *; [|done..].
  destruct Hfind as [[Hperm Hcl] Hcon].
  assert (build_regions g components ⇓ λ r, is_ok r = true) as Hb.
  { apply build_regions_ok. intros c Hcc. apply (component_regions_ok adj); [|eauto..].
    intros s Hs. apply elem_of_seq0. rewrite <-Hperm. apply list_elem_of_join. eauto. }
  destruct (build_regions g components) as [[regions|e]| |]; simpl in *; [|done..].
  run_call (by eapply (total_region_loop g Hwf adj)). done.
Qed.
End consistent.
