(* ===== verification/JobState.v ===== *)
(** * The state the scheduler keeps per job

    [crates/zelox-execution/src/driver/job_scheduler/state.rs].  [DateTime<Utc>]
    is a [Z]; an operation that reads the wall clock takes the reading as an
    argument. *)

From S2P Require Import Prelude Ids JobGraph Topology.

(** ** Task attempts *)

Inductive TaskState :=
| TaskCreated | TaskScheduled | TaskRunning
| TaskSucceeded | TaskFailed | TaskCanceled.
#[global] Instance TaskState_eq_dec : EqDecision TaskState.
Proof. solve_decision. Defined.

Definition task_status (s : TaskState) : string :=
  match s with
  | TaskCreated => "CREATED"
  | TaskScheduled => "SCHEDULED"
  | TaskRunning => "RUNNING"
  | TaskSucceeded => "SUCCEEDED"
  | TaskFailed => "FAILED"
  | TaskCanceled => "CANCELED"
  end.

(** [TaskState::consolidate]: an update may arrive late or twice. *)
Definition consolidate (s next : TaskState) : TaskState :=
  match s, next with
  | TaskCreated, x => x
  | TaskScheduled, TaskCreated => s
  | TaskScheduled, x => x
  | TaskRunning, (TaskCreated | TaskScheduled) => s
  | TaskRunning, x => x
  | (TaskSucceeded | TaskFailed | TaskCanceled), _ => s
  end.

Definition is_terminal (s : TaskState) : bool :=
  match s with
  | TaskSucceeded | TaskFailed | TaskCanceled => true
  | TaskCreated | TaskScheduled | TaskRunning => false
  end.

Record TaskAttemptDescriptor := MkTaskAttempt {
  ta_state : TaskState;
  ta_messages : list string;
  ta_cause : option CommonErrorCause;
  (** the task streams were fetched for the job output *)
  ta_job_output_fetched : bool;
  ta_created_at : Z;
  ta_stopped_at : option Z
}.

Definition attempt_new (now : Z) : TaskAttemptDescriptor :=
  MkTaskAttempt TaskCreated [] None false now None.

Definition attempt_cancel (now : Z) (a : TaskAttemptDescriptor) : TaskAttemptDescriptor :=
  MkTaskAttempt TaskCanceled (ta_messages a) (ta_cause a)
    (ta_job_output_fetched a) (ta_created_at a) (Some now).

Definition attempt_mark_fetched (a : TaskAttemptDescriptor) : TaskAttemptDescriptor :=
  MkTaskAttempt (ta_state a) (ta_messages a) (ta_cause a) true
    (ta_created_at a) (ta_stopped_at a).

(** The body of [JobScheduler::update_task] on the attempt it finds. *)
Definition attempt_update (now : Z) (state : TaskState) (message : option string)
    (cause : option CommonErrorCause) (a : TaskAttemptDescriptor)
    : TaskAttemptDescriptor :=
  let state := consolidate (ta_state a) state in
  MkTaskAttempt state
    (ta_messages a ++ option_list message)
    (match cause with Some c => Some c | None => ta_cause a end)
    (ta_job_output_fetched a) (ta_created_at a)
    (match ta_stopped_at a with
     | Some t => Some t
     | None => if is_terminal state then Some now else None
     end).

(** ** Stages, regions and jobs *)

(** [TaskDescriptor] has the single field [attempts]. *)
Record TaskDescriptor := MkTaskDescriptor { td_attempts : list TaskAttemptDescriptor }.

Inductive StageState := StageActive | StageInactive.
#[global] Instance StageState_eq_dec : EqDecision StageState.
Proof. solve_decision. Defined.

Definition stage_status (s : StageState) : string :=
  match s with StageActive => "ACTIVE" | StageInactive => "INACTIVE" end.

Record StageDescriptor := MkStageDescriptor {
  sd_tasks : list TaskDescriptor;
  sd_state : StageState;
  sd_created_at : Z;
  sd_stopped_at : option Z
}.

Inductive TaskRegionState := RegionRunning | RegionFailed | RegionSucceeded.
#[global] Instance TaskRegionState_eq_dec : EqDecision TaskRegionState.
Proof. solve_decision. Defined.

(** The sending half of a job's output channel, identified by the job; there
    is one channel per job ([build_job_output]). *)
Record JobOutputManager := MkJobOutputManager { output_job : N }.

Section job_state.
Context `{DF : DataFusion}.

Inductive JobState :=
| JobRunning (output : JobOutputManager) (context : TaskContext)
| JobDraining
| JobSucceeded
| JobFailed
| JobCanceled.

Definition job_status (s : JobState) : string :=
  match s with
  | JobRunning _ _ => "RUNNING"
  | JobDraining => "DRAINING"
  | JobSucceeded => "SUCCEEDED"
  | JobFailed => "FAILED"
  | JobCanceled => "CANCELED"
  end.

(** [regions] holds one [TaskRegionDescriptor], that is a state, per region. *)
Record JobDescriptor := MkJobDescriptor {
  jd_graph : JobGraph;
  jd_topology : JobTopology;
  jd_stages : list StageDescriptor;
  jd_regions : list TaskRegionState;
  jd_state : JobState;
  jd_created_at : Z;
  jd_stopped_at : option Z
}.

Definition jd_with_stages (job : JobDescriptor) (stages : list StageDescriptor)
    : JobDescriptor :=
  MkJobDescriptor (jd_graph job) (jd_topology job) stages (jd_regions job)
    (jd_state job) (jd_created_at job) (jd_stopped_at job).

Definition jd_with_regions (job : JobDescriptor) (regions : list TaskRegionState)
    : JobDescriptor :=
  MkJobDescriptor (jd_graph job) (jd_topology job) (jd_stages job) regions
    (jd_state job) (jd_created_at job) (jd_stopped_at job).

Definition jd_with_state (job : JobDescriptor) (state : JobState) : JobDescriptor :=
  MkJobDescriptor (jd_graph job) (jd_topology job) (jd_stages job) (jd_regions job)
    state (jd_created_at job) (jd_stopped_at job).

Definition jd_stop (job : JobDescriptor) (state : JobState) (now : Z) : JobDescriptor :=
  MkJobDescriptor (jd_graph job) (jd_topology job) (jd_stages job) (jd_regions job)
    state (jd_created_at job) (Some now).

Definition stage_descriptor_new (now : Z) (stage : Stage) : StageDescriptor :=
  MkStageDescriptor (replicate (stage_partitions stage) (MkTaskDescriptor []))
    StageActive now None.

(** [JobDescriptor::try_new]. *)
Definition job_descriptor_try_new (now : Z) (graph : JobGraph) (state : JobState)
    : Run (ExecutionResult JobDescriptor) :=
  let stages := stage_descriptor_new now <$> jg_stages graph in
  topology ← job_topology_try_new graph;
  match topology with
  | Err e => Returns (Err e)
  | Ok topology =>
      let regions := replicate (length (jt_regions topology)) RegionRunning in
      Returns (Ok (MkJobDescriptor graph topology stages regions state now None))
  end.

(** ** Snapshots for the observers *)

Record JobSnapshot := MkJobSnapshot {
  js_job_id : N; js_status : string; js_created_at : Z; js_stopped_at : option Z
}.

Record StageSnapshot := MkStageSnapshot {
  ss_job_id : N; ss_stage : nat; ss_partitions : nat;
  ss_inputs : list (nat * string);
  ss_group : string; ss_mode : string; ss_distribution : string;
  ss_placement : string; ss_status : string;
  ss_created_at : Z; ss_stopped_at : option Z
}.

Record TaskSnapshot := MkTaskSnapshot {
  tsn_job_id : N; tsn_stage : nat; tsn_partition : nat; tsn_attempt : nat;
  tsn_status : string; tsn_created_at : Z; tsn_stopped_at : option Z
}.

Definition job_snapshot (job : JobDescriptor) (job_id : N) : JobSnapshot :=
  MkJobSnapshot job_id (job_status (jd_state job)) (jd_created_at job) (jd_stopped_at job).

Definition stage_snapshots (job : JobDescriptor) (job_id : N) : list StageSnapshot :=
  imap (λ s '(stage, d),
          MkStageSnapshot job_id s (stage_partitions stage)
            ((λ x, (si_stage x, input_mode_display (si_mode x))) <$> st_inputs stage)
            (st_group stage) (output_mode_display (st_mode stage))
            (dist_display (st_distribution stage))
            (placement_display (st_placement stage))
            (stage_status (sd_state d)) (sd_created_at d) (sd_stopped_at d))
    (zip (jg_stages (jd_graph job)) (jd_stages job)).

Definition task_snapshots (job : JobDescriptor) (job_id : N) : list TaskSnapshot :=
  mjoin (imap (λ s stage,
    mjoin (imap (λ p task,
      imap (λ a attempt,
              MkTaskSnapshot job_id s p a (task_status (ta_state attempt))
                (ta_created_at attempt) (ta_stopped_at attempt))
        (td_attempts task)) (sd_tasks stage))) (jd_stages job)).
End job_state.

(** ** Consolidation *)

(** The position of a state in the life of an attempt. *)
Definition task_rank (s : TaskState) : nat :=
  match s with
  | TaskCreated => 0
  | TaskScheduled => 1
  | TaskRunning => 2
  | TaskSucceeded | TaskFailed | TaskCanceled => 3
  end.

Lemma consolidate_terminal s next : is_terminal s = true → consolidate s next = s.
Proof. by destruct s. Qed.

Lemma consolidate_rank s next :
  task_rank (consolidate s next) = task_rank s `max` task_rank next.
Proof. by destruct s, next. Qed.

Lemma consolidate_live s next :
  is_terminal s = false → task_rank s ≤ task_rank next → consolidate s next = next.
Proof. destruct s, next; simpl; (done || lia). Qed.

Lemma consolidate_stale s next :
  task_rank next ≤ task_rank s → consolidate s next = s ∨ consolidate s next = next.
Proof. destruct s, next; simpl; (auto || lia). Qed.

Lemma is_terminal_rank s : is_terminal s = true ↔ task_rank s = 3.
Proof. by destruct s. Qed.

(** A late duplicate of an update changes nothing. *)
Lemma consolidate_absorb s u v :
  task_rank u ≤ task_rank v → consolidate (consolidate s v) u = consolidate s v.
Proof. destruct s, u, v; simpl; (done || lia). Qed.
