(* ===== verification/JobScheduler.v ===== *)
(** * The job scheduler

    [crates/zelox-execution/src/driver/job_scheduler/core.rs] and [mod.rs].
    The operations take the wall-clock reading [now] as an argument; products of
    vector sizes ([usize]) are taken exact. *)

From S2P Require Import Prelude Ids JobGraph Topology JobState.

Record JobSchedulerOptions := MkJobSchedulerOptions {
  task_launch_timeout : N;
  task_max_attempts : nat
}.

Inductive JobAction `{DF : DataFusion} :=
| ActScheduleTaskRegion (region : TaskRegion)
| ActCancelTask (key : TaskKey)
| ActExtendJobOutput (handle : JobOutputManager) (key : TaskStreamKey) (schema : Schema)
| ActFailJobOutput (handle : JobOutputManager) (cause : CommonErrorCause)
| ActCleanUpJob (job_id : N) (stage : option nat).

(** [JobGraph::try_new], the planner of [job_graph/planner.rs]. *)
Class Planner `{DF : DataFusion} := job_graph_try_new : Plan → ExecutionResult JobGraph.

(** ** Tasks of a job by index *)

(** [stages[s].tasks[p]]. *)
Definition stages_task (stages : list StageDescriptor) (s p : nat) : Run TaskDescriptor :=
  sd ← vec_index stages s; vec_index (sd_tasks sd) p.

(** A mutation of [stages[s].tasks[p].attempts]. *)
Definition stages_update (stages : list StageDescriptor) (s p : nat)
    (f : list TaskAttemptDescriptor → list TaskAttemptDescriptor)
    : Run (list StageDescriptor) :=
  sd ← vec_index stages s;
  tasks ← vec_update (sd_tasks sd) p (λ td, MkTaskDescriptor (f (td_attempts td)));
  vec_update stages s (λ sd,
    MkStageDescriptor tasks (sd_state sd) (sd_created_at sd) (sd_stopped_at sd)).

(** [stages[s].tasks[p].attempts.last().is_some_and(|x| ..)]. *)
Definition last_attempt_is (P : TaskState → bool) (stages : list StageDescriptor) (s p : nat)
    : Run bool :=
  task ← stages_task stages s p;
  Returns (from_option (λ a, P (ta_state a)) false (last (td_attempts task))).

Definition is_succeeded (s : TaskState) : bool :=
  match s with TaskSucceeded => true | _ => false end.
Definition is_failed (s : TaskState) : bool :=
  match s with TaskFailed => true | _ => false end.
Definition is_failed_or_canceled (s : TaskState) : bool :=
  match s with TaskFailed | TaskCanceled => true | _ => false end.
Definition is_running_or_succeeded (s : TaskState) : bool :=
  match s with TaskRunning | TaskSucceeded => true | _ => false end.
Definition region_succeeded (s : TaskRegionState) : bool :=
  match s with RegionSucceeded => true | _ => false end.
Definition region_failed (s : TaskRegionState) : bool :=
  match s with RegionFailed => true | _ => false end.

Section scheduler.
Context `{DF : DataFusion} `{HO : HashOrder} `{FC : ForeignCauses} `{PL : !Planner}.

Record JobScheduler := MkJobScheduler {
  js_options : JobSchedulerOptions;
  js_jobs : list (N * JobDescriptor);
  js_job_id_generator : IdGenerator
}.

Definition job_scheduler_new (options : JobSchedulerOptions) : JobScheduler :=
  MkJobScheduler options [] id_generator_new.

Definition js_with_jobs (self : JobScheduler) (jobs : list (N * JobDescriptor))
    : JobScheduler :=
  MkJobScheduler (js_options self) jobs (js_job_id_generator self).

(** ** Accepting a job *)

(** The third component lists the jobs whose output pump was spawned: the
    pump starts before the descriptor is built, which may still fail. *)
Definition accept_job (self : JobScheduler) (now : Z) (plan : Plan) (context : TaskContext)
    : Run (ExecutionResult N * JobScheduler * list N) :=
  let '(job_id, generator) := id_generator_next (js_job_id_generator self) in
  let self := MkJobScheduler (js_options self) (js_jobs self) generator in
  match job_id with
  | Err e => Returns (Err e, self, [])
  | Ok job_id =>
      match job_graph_try_new plan with
      | Err e => Returns (Err e, self, [])
      | Ok graph =>
          descriptor ← job_descriptor_try_new now graph
            (JobRunning (MkJobOutputManager job_id) context);
          match descriptor with
          | Err e => Returns (Err e, self, [job_id])
          | Ok descriptor =>
              Returns (Ok job_id,
                       js_with_jobs self (im_insert job_id descriptor (js_jobs self)),
                       [job_id])
          end
      end
  end.

(** ** Task state updates *)

(** [jobs.get(..).and_then(|job| job.stages.get(..))...]. *)
Definition find_attempt (self : JobScheduler) (key : TaskKey)
    : option TaskAttemptDescriptor :=
  job ← im_get (tk_job_id key) (js_jobs self);
  stage ← jd_stages job !! tk_stage key;
  task ← sd_tasks stage !! tk_partition key;
  td_attempts task !! tk_attempt key.

Definition sd_with_tasks (sd : StageDescriptor) (tasks : list TaskDescriptor)
    : StageDescriptor :=
  MkStageDescriptor tasks (sd_state sd) (sd_created_at sd) (sd_stopped_at sd).

(** An update of the attempt at a key, which is known to be present. *)
Definition alter_attempt (f : TaskAttemptDescriptor → TaskAttemptDescriptor)
    (stages : list StageDescriptor) (key : TaskKey) : list StageDescriptor :=
  alter (λ sd, sd_with_tasks sd
           (alter (λ td, MkTaskDescriptor (alter f (tk_attempt key) (td_attempts td)))
              (tk_partition key) (sd_tasks sd)))
    (tk_stage key) stages.

Definition update_task (self : JobScheduler) (now : Z) (key : TaskKey) (state : TaskState)
    (message : option string) (cause : option CommonErrorCause) : JobScheduler :=
  match find_attempt self key, im_get (tk_job_id key) (js_jobs self) with
  | Some _, Some job =>
      js_with_jobs self
        (im_insert (tk_job_id key)
           (jd_with_stages job
              (alter_attempt (attempt_update now state message cause)
                 (jd_stages job) key))
           (js_jobs self))
  | _, _ => self
  end.

Definition get_task_state (self : JobScheduler) (key : TaskKey) : option TaskState :=
  ta_state <$> find_attempt self key.

(** ** Refreshing a job *)

(** The state of region [r] from the last attempts of its tasks. *)
Definition update_region (max_attempts : nat) (stages : list StageDescriptor)
    (regions : list TaskRegionState) (r : nat) (region : TaskRegionTopology)
    : Run (list TaskRegionState) :=
  failed ← run_any
    (λ t, task ← stages_task stages (tt_stage t) (tt_partition t);
          Returns match last (td_attempts task) with
                  | Some attempt =>
                      is_failed_or_canceled (ta_state attempt)
                      && bool_decide (max_attempts ≤ length (td_attempts task))
                  | None => false
                  end)
    (rt_tasks region);
  if (failed : bool) then vec_update regions r (λ _, RegionFailed)
  else
    succeeded ← run_all
      (λ t, last_attempt_is is_succeeded stages (tt_stage t) (tt_partition t))
      (rt_tasks region);
    vec_update regions r
      (λ _, if (succeeded : bool) then RegionSucceeded else RegionRunning).

Definition update_task_regions (options : JobSchedulerOptions) (job : JobDescriptor)
    : Run JobDescriptor :=
  regions ← for_each
    (λ regions '(r, region),
       update_region (task_max_attempts options) (jd_stages job) regions r region)
    (jd_regions job) (imap pair (jt_regions (jd_topology job)));
  Returns (jd_with_regions job regions).

(** Cancel the attempts of one task that are not terminal. *)
Definition cancel_attempts (now : Z)
    : list TaskAttemptDescriptor → list TaskAttemptDescriptor :=
  fmap (λ a, if is_terminal (ta_state a) then a else attempt_cancel now a).

Definition cancel_actions (job_id : N) (s p : nat) (attempts : list TaskAttemptDescriptor)
    : list JobAction :=
  mjoin (imap (λ a attempt,
    if is_terminal (ta_state attempt) then []
    else [ActCancelTask (MkTaskKey job_id s p a)]) attempts).

Definition cancel_task (now : Z) (job_id : N)
    (st : list StageDescriptor * list JobAction) (t : TaskTopology)
    : Run (list StageDescriptor * list JobAction) :=
  let '(stages, actions) := st in
  task ← stages_task stages (tt_stage t) (tt_partition t);
  stages ← stages_update stages (tt_stage t) (tt_partition t) (cancel_attempts now);
  Returns (stages,
    actions ++ cancel_actions job_id (tt_stage t) (tt_partition t) (td_attempts task)).

Definition cascade_region (now : Z) (job_id : N)
    (st : list StageDescriptor * list JobAction) (region : TaskRegionTopology)
    : Run (list StageDescriptor * list JobAction) :=
  failed ← for_each
    (λ failed t,
       b ← last_attempt_is is_failed st.1 (tt_stage t) (tt_partition t);
       Returns (failed || b))
    false (rt_tasks region);
  if (failed : bool) then for_each (cancel_task now job_id) st (rt_tasks region)
  else Returns st.

Definition cascade_cancel_task_attempts (now : Z) (job_id : N) (job : JobDescriptor)
    : Run (JobDescriptor * list JobAction) :=
  '(stages, actions) ← for_each (cascade_region now job_id) (jd_stages job, [])
    (jt_regions (jd_topology job));
  Returns (jd_with_stages job stages, actions).

(** Release a stage once all its consumers have succeeded. *)
Definition sd_deactivate (now : Z) (sd : StageDescriptor) : StageDescriptor :=
  MkStageDescriptor (sd_tasks sd) StageInactive (sd_created_at sd) (Some now).

Definition clean_up_stage (now : Z) (job_id : N) (graph : JobGraph)
    (st : list StageDescriptor * list JobAction) (s : nat) (stage : StageTopology)
    : Run (list StageDescriptor * list JobAction) :=
  let '(stages, actions) := st in
  sd ← vec_index stages s;
  match sd_state sd with
  | StageInactive => Returns st
  | StageActive =>
      all_consumers_succeeded ← run_all
        (λ c,
           partitions ← stage_partition_count graph c;
           run_all (λ p, last_attempt_is is_succeeded stages c p) (seq 0 partitions))
        (stt_consumers stage);
      if (all_consumers_succeeded : bool) && negb (bool_decide (stt_consumers stage = []))
      then
        stages ← vec_update stages s (sd_deactivate now);
        Returns (stages, actions ++ [ActCleanUpJob job_id (Some s)])
      else Returns st
  end.

Definition clean_up_job_by_stage (now : Z) (job_id : N) (job : JobDescriptor)
    : Run (JobDescriptor * list JobAction) :=
  '(stages, actions) ← for_each
    (λ st '(s, stage), clean_up_stage now job_id (jd_graph job) st s stage)
    (jd_stages job, []) (imap pair (jt_stages (jd_topology job)));
  Returns (jd_with_stages job stages, actions).

(** ** Building the region to schedule *)

Definition get_latest_task_attempt (stages : list StageDescriptor) (stage partition : nat)
    : option nat :=
  sd ← stages !! stage;
  task ← sd_tasks sd !! partition;
  match td_attempts task with
  | [] => None
  | _ => Some (pred (length (td_attempts task)))
  end.

(** [StageGroupKey] and [StageGroup]; the set of stages of a group is only
    ever written. *)
Definition StageGroupKey : Type := TaskPlacement * string.
Record StageGroup := MkStageGroup {
  sg_stages : list nat;
  sg_buckets : list (list TaskSetEntry)
}.

Definition stage_group_key (stage : Stage) : StageGroupKey :=
  (st_placement stage, st_group stage).

(** [buckets.resize(p, Vec::new())] when [p] is larger. *)
Definition resize_buckets (buckets : list (list TaskSetEntry)) (p : nat)
    : list (list TaskSetEntry) :=
  buckets ++ replicate (p - length buckets) [].

Definition add_stage_to_group (graph : JobGraph)
    (groups : list (StageGroupKey * StageGroup)) (s : nat)
    : Run (list (StageGroupKey * StageGroup)) :=
  stage ← vec_index (jg_stages graph) s;
  let key := stage_group_key stage in
  let group := default (MkStageGroup [] []) (im_get key groups) in
  Returns (im_insert key
    (MkStageGroup (is_insert (sg_stages group) s)
       (resize_buckets (sg_buckets group) (stage_partitions stage))) groups).

Definition output_kind (mode : OutputMode) : TaskOutputKind :=
  match mode with Pipelined => OutputLocal | Blocking => OutputRemote end.

Definition add_task_to_group (job_id : N) (graph : JobGraph) (stages : list StageDescriptor)
    (groups : list (StageGroupKey * StageGroup)) (t : TaskTopology)
    : Run (list (StageGroupKey * StageGroup)) :=
  match get_latest_task_attempt stages (tt_stage t) (tt_partition t) with
  | None => Returns groups
  | Some attempt =>
      stage ← vec_index (jg_stages graph) (tt_stage t);
      let key := stage_group_key stage in
      match im_get key groups with
      | None => Returns groups
      | Some group =>
          let partitions := stage_partitions stage in
          if decide (partitions = 0) then Panics
          else
            let b := tt_partition t * length (sg_buckets group) / partitions in
            buckets ← vec_update (sg_buckets group) b
              (λ entries, entries ++
                 [MkTaskSetEntry
                    (MkTaskKey job_id (tt_stage t) (tt_partition t) attempt)
                    (output_kind (st_mode stage))]);
            Returns (im_insert key (MkStageGroup (sg_stages group) buckets) groups)
      end
  end.

Definition group_task_sets (groups : list (StageGroupKey * StageGroup))
    : list (TaskPlacement * TaskSet) :=
  '(key, group) ← groups; (λ entries, (key.1, MkTaskSet entries)) <$> sg_buckets group.

Definition build_task_region (job_id : N) (graph : JobGraph) (stages : list StageDescriptor)
    (region : TaskRegionTopology) : Run TaskRegion :=
  groups ← for_each (add_stage_to_group graph) []
    (is_extend [] (tt_stage <$> rt_tasks region));
  groups ← for_each (add_task_to_group job_id graph stages) groups (rt_tasks region);
  Returns (MkTaskRegion (group_task_sets groups)).

(** ** Scheduling regions *)

Definition push_attempt (now : Z) (stages : list StageDescriptor) (t : TaskTopology)
    : Run (list StageDescriptor) :=
  stages_update stages (tt_stage t) (tt_partition t) (λ l, l ++ [attempt_new now]).

Definition schedule_region (now : Z) (job_id : N) (graph : JobGraph)
    (regions : list TaskRegionState) (st : list StageDescriptor * list JobAction)
    (r : nat) (region : TaskRegionTopology)
    : Run (list StageDescriptor * list JobAction) :=
  let '(stages, actions) := st in
  state ← vec_index regions r;
  if region_succeeded state then Returns st
  else
    ready ← run_all (λ d, s ← vec_index regions d; Returns (region_succeeded s))
      (rt_dependencies region);
    if negb (ready : bool) then Returns st
    else
      active ← run_any
        (λ t, last_attempt_is (λ s, negb (is_terminal s)) stages
                (tt_stage t) (tt_partition t))
        (rt_tasks region);
      if (active : bool) then Returns st
      else
        stages ← for_each (push_attempt now) stages (rt_tasks region);
        task_region ← build_task_region job_id graph stages region;
        Returns (stages, actions ++ [ActScheduleTaskRegion task_region]).

Definition schedule_task_regions (now : Z) (job_id : N) (job : JobDescriptor)
    : Run (JobDescriptor * list JobAction) :=
  '(stages, actions) ← for_each
    (λ st '(r, region),
       schedule_region now job_id (jd_graph job) (jd_regions job) st r region)
    (jd_stages job, []) (imap pair (jt_regions (jd_topology job)));
  Returns (jd_with_stages job stages, actions).

(** ** Job output *)

(** The body of [for p in 0..partitions] for a final stage. *)
Definition extend_output_partition (job_id : N) (output : JobOutputManager)
    (schema : Schema) (channels s : nat)
    (st : list StageDescriptor * list JobAction) (p : nat)
    : Run (list StageDescriptor * list JobAction) :=
  let '(stages, actions) := st in
  task ← stages_task stages s p;
  match last (td_attempts task) with
  | None => Returns st
  | Some attempt =>
      if negb (is_running_or_succeeded (ta_state attempt))
         || ta_job_output_fetched attempt
      then Returns st
      else
        let a := pred (length (td_attempts task)) in
        stages ← stages_update stages s p (alter attempt_mark_fetched a);
        Returns (stages, actions ++
          ((λ c, ActExtendJobOutput output (MkTaskStreamKey job_id s p a c) schema)
             <$> seq 0 channels))
  end.

Definition extend_output_stage (job_id : N) (output : JobOutputManager)
    (job : JobDescriptor) (st : list StageDescriptor * list JobAction)
    (s : nat) (stage : Stage) : Run (list StageDescriptor * list JobAction) :=
  topology ← vec_index (jt_stages (jd_topology job)) s;
  match stt_consumers topology with
  | [] =>
      for_each
        (extend_output_partition job_id output (jg_schema (jd_graph job))
           (dist_channels (st_distribution stage)) s)
        st (seq 0 (stage_partitions stage))
  | _ => Returns st
  end.

Definition extend_job_output (job_id : N) (job : JobDescriptor)
    : Run (JobDescriptor * list JobAction) :=
  match jd_state job with
  | JobRunning output _ =>
      '(stages, actions) ← for_each
        (λ st '(s, stage), extend_output_stage job_id output job st s stage)
        (jd_stages job, []) (imap pair (jg_stages (jd_graph job)));
      Returns (jd_with_stages job stages, actions)
  | _ => Returns (job, [])
  end.

(** ** The cause of a failed job *)

Definition failed_causes (task : TaskDescriptor) : list CommonErrorCause :=
  attempt ← td_attempts task;
  if is_failed (ta_state attempt) then option_list (ta_cause attempt) else [].

(** The entries of the [HashMap] from tasks to the causes of their failures. *)
Definition job_causes (stages : list StageDescriptor)
    : list ((nat * nat) * list CommonErrorCause) :=
  filter (λ e, e.2 ≠ [])
    (mjoin (imap (λ s stage, imap (λ t task, ((s, t), failed_causes task))
                               (sd_tasks stage)) stages)).

(** The comparison [v2.len().cmp(&v1.len()).then(s1.cmp(s2)).then(p1.cmp(p2))]. *)
Definition compare_causes (e1 e2 : (nat * nat) * list CommonErrorCause) : comparison :=
  match length e2.2 ?= length e1.2 with
  | Eq => match e1.1.1 ?= e2.1.1 with
          | Eq => e1.1.2 ?= e2.1.2
          | c => c
          end
  | c => c
  end.

(** [Iterator::min_by]: the first of the minimal elements. *)
Definition min_by {A} (cmp : A → A → comparison) (l : list A) : option A :=
  match l with
  | [] => None
  | x :: l => Some (foldl (λ best y, match cmp best y with Gt => y | _ => best end) x l)
  end.

Definition infer_job_failure_cause (stages : list StageDescriptor) : CommonErrorCause :=
  match min_by compare_causes (hash_order (job_causes stages)) with
  | Some (_, causes) =>
      match last causes with
      | Some cause => cause
      | None => cause_of_error (InternalError "job failed for unknown reason")
      end
  | None => cause_of_error (InternalError "job failed for unknown reason")
  end.

(** [JobScheduler::refresh_job] on the job it finds. *)
Definition refresh_job_descriptor (options : JobSchedulerOptions) (now : Z) (job_id : N)
    (job : JobDescriptor) : Run (JobDescriptor * list JobAction) :=
  match jd_state job with
  | JobRunning output _ =>
      '(job, a1) ← cascade_cancel_task_attempts now job_id job;
      '(job, a2) ← extend_job_output job_id job;
      '(job, a3) ← clean_up_job_by_stage now job_id job;
      job ← update_task_regions options job;
      if existsb region_failed (jd_regions job) then
        let cause := infer_job_failure_cause (jd_stages job) in
        Returns (jd_stop job JobFailed now,
                 a1 ++ a2 ++ a3 ++ [ActFailJobOutput output cause])
      else if forallb region_succeeded (jd_regions job) then
        Returns (jd_with_state job JobDraining, a1 ++ a2 ++ a3)
      else
        '(job, a4) ← schedule_task_regions now job_id job;
        Returns (job, a1 ++ a2 ++ a3 ++ a4)
  | _ => Returns (job, [])
  end.

Definition refresh_job (self : JobScheduler) (now : Z) (job_id : N)
    : Run (JobScheduler * list JobAction) :=
  match im_get job_id (js_jobs self) with
  | None => Returns (self, [])
  | Some job =>
      '(job, actions) ← refresh_job_descriptor (js_options self) now job_id job;
      Returns (js_with_jobs self (im_insert job_id job (js_jobs self)), actions)
  end.

(** ** Cleaning up and stopping *)

Definition live_attempt_actions (job_id : N) (stages : list StageDescriptor)
    : list JobAction :=
  mjoin (imap (λ s stage,
    mjoin (imap (λ p task, cancel_actions job_id s p (td_attempts task))
             (sd_tasks stage))) stages).

Definition sd_release (now : Z) (sd : StageDescriptor) : StageDescriptor :=
  MkStageDescriptor (sd_tasks sd) StageInactive (sd_created_at sd)
    (Some (default now (sd_stopped_at sd))).

Definition clean_up_job_descriptor (now : Z) (job_id : N) (job : JobDescriptor)
    : JobDescriptor * list JobAction :=
  (jd_stop (jd_with_stages job (sd_release now <$> jd_stages job))
     (match jd_state job with JobDraining => JobSucceeded | _ => JobCanceled end) now,
   live_attempt_actions job_id (jd_stages job) ++ [ActCleanUpJob job_id None]).

Definition clean_up_job (self : JobScheduler) (now : Z) (job_id : N)
    : JobScheduler * list JobAction :=
  match im_get job_id (js_jobs self) with
  | None => (self, [])
  | Some job =>
      let '(job, actions) := clean_up_job_descriptor now job_id job in
      (js_with_jobs self (im_insert job_id job (js_jobs self)), actions)
  end.

Definition sd_stop (now : Z) (sd : StageDescriptor) : StageDescriptor :=
  let tasks := (λ td, MkTaskDescriptor (cancel_attempts now (td_attempts td)))
                 <$> sd_tasks sd in
  match sd_state sd with
  | StageActive => MkStageDescriptor tasks StageInactive (sd_created_at sd) (Some now)
  | StageInactive => MkStageDescriptor tasks StageInactive (sd_created_at sd) (sd_stopped_at sd)
  end.

Definition stop_job_descriptor (now : Z) (job : JobDescriptor) : JobDescriptor :=
  let job :=
    match jd_state job with
    | JobRunning _ _ | JobDraining => jd_stop job JobCanceled now
    | _ => job
    end in
  jd_with_stages job (sd_stop now <$> jd_stages job).

Definition job_scheduler_stop (self : JobScheduler) (now : Z) : JobScheduler :=
  js_with_jobs self (prod_map id (stop_job_descriptor now) <$> js_jobs self).

(** ** Task definitions *)

Definition latest_attempt (key : TaskKey) (stages : list StageDescriptor)
    (stage partition : nat) : ExecutionResult nat :=
  match get_latest_task_attempt stages stage partition with
  | Some a => Ok a
  | None => Err (InvalidArgument
      ("no latest task attempt found for job " +:+ pretty (tk_job_id key)
       +:+ " stage " +:+ pretty stage +:+ " partition " +:+ pretty partition))
  end.

Definition input_key (key : TaskKey) (stages : list StageDescriptor)
    (stage partition channel : nat) : ExecutionResult TaskInputKey :=
  attempt ← latest_attempt key stages stage partition;
  Ok (MkTaskInputKey partition attempt channel).

(** The keys a task reads, grouped the way the input mode prescribes. *)
Definition input_keys (key : TaskKey) (stages : list StageDescriptor)
    (input : StageInput) (partitions channels : nat)
    : ExecutionResult (list (list TaskInputKey)) :=
  match si_mode input with
  | Forward | Merge =>
      collect_results
        ((λ partition,
            collect_results
              (input_key key stages (si_stage input) partition <$> seq 0 channels))
           <$> seq 0 partitions)
  | Shuffle =>
      collect_results
        ((λ channel,
            collect_results
              ((λ partition, input_key key stages (si_stage input) partition channel)
                 <$> seq 0 partitions))
           <$> seq 0 channels)
  | Broadcast =>
      keys ← collect_results
        (partition ← seq 0 partitions;
         input_key key stages (si_stage input) partition <$> seq 0 channels);
      Ok [keys]
  end.

Definition input_task_key (key : TaskKey) (input : StageInput) (k : TaskInputKey) : TaskKey :=
  MkTaskKey (tk_job_id key) (si_stage input) (tik_partition k) (tik_attempt k).

Definition input_key_display (key : TaskKey) (input : StageInput) (k : TaskInputKey)
    : string :=
  "job " +:+ pretty (tk_job_id key) +:+ " input stage " +:+ pretty (si_stage input)
  +:+ " partition " +:+ pretty (tik_partition k)
  +:+ " attempt " +:+ pretty (tik_attempt k).

Definition check_driver_key (get : TaskKey → option TaskAssignment) (key : TaskKey)
    (input : StageInput) (k : TaskInputKey) : ExecutionResult unit :=
  match get (input_task_key key input k) with
  | Some AssignDriver => Ok tt
  | _ => Err (InternalError (input_key_display key input k +:+ " is not assigned to driver"))
  end.

Definition locate_worker_key (get : TaskKey → option TaskAssignment) (key : TaskKey)
    (input : StageInput) (k : TaskInputKey) : ExecutionResult (N * TaskInputKey) :=
  match get (input_task_key key input k) with
  | Some (AssignWorker worker_id _) => Ok (worker_id, k)
  | _ => Err (InternalError (input_key_display key input k +:+ " is not assigned to worker"))
  end.

(** [get] is the [TaskAssignmentGetter] of the task assigner. *)
Definition get_task_input (get : TaskKey → option TaskAssignment) (job : JobDescriptor)
    (key : TaskKey) (input : StageInput) : ExecutionResult TaskInput :=
  match jg_stages (jd_graph job) !! si_stage input with
  | None => Err (InvalidArgument
      ("job " +:+ pretty (tk_job_id key) +:+ " input stage "
       +:+ pretty (si_stage input) +:+ " not found"))
  | Some producer =>
      keys ← input_keys key (jd_stages job) input (stage_partitions producer)
               (dist_channels (st_distribution producer));
      match st_mode producer with
      | Pipelined =>
          match st_placement producer with
          | PlaceDriver =>
              _ ← collect_results (check_driver_key get key input <$> mjoin keys);
              Ok (MkTaskInput (LocDriver (si_stage input) keys))
          | PlaceWorker =>
              keys ← collect_results
                ((λ keys, collect_results (locate_worker_key get key input <$> keys))
                   <$> keys);
              Ok (MkTaskInput (LocWorker (si_stage input) keys))
          end
      | Blocking => Err (InternalError "not implemented")
      end
  end.

Definition lift_foreign {A} (r : Result ForeignError A) : ExecutionResult A :=
  match r with Ok a => Ok a | Err e => Err (DataFusionError e) end.

Definition get_task_output (job : JobDescriptor) (key : TaskKey) (stage : Stage)
    : ExecutionResult TaskOutput :=
  let reps := replicas (jd_graph job) (tk_stage key) in
  distribution ←
    match st_distribution stage with
    | DistHash keys channels =>
        keys ← collect_results ((λ expr, lift_foreign (encode_expr expr)) <$> keys);
        Ok (OutHash keys channels)
    | DistRoundRobin channels => Ok (OutRoundRobin channels)
    end;
  locator ←
    match st_mode stage with
    | Pipelined => Ok (OutLocal reps)
    | Blocking => Err (InternalError "not implemented")
    end;
  Ok (MkTaskOutput distribution locator).

Definition get_task_definition (get : TaskKey → option TaskAssignment) (self : JobScheduler)
    (key : TaskKey) : ExecutionResult (TaskDefinition * TaskContext) :=
  match im_get (tk_job_id key) (js_jobs self) with
  | None => Err (InvalidArgument ("job " +:+ pretty (tk_job_id key) +:+ " not found"))
  | Some job =>
      match jd_state job with
      | JobRunning _ context =>
          match jg_stages (jd_graph job) !! tk_stage key with
          | None => Err (InvalidArgument
              ("stage " +:+ pretty (tk_stage key) +:+ " not found in job "
               +:+ pretty (tk_job_id key)))
          | Some stage =>
              plan ← lift_foreign (encode_plan (st_plan stage));
              inputs ← collect_results (get_task_input get job key <$> st_inputs stage);
              output ← get_task_output job key stage;
              Ok (MkTaskDefinition plan inputs output, context)
          end
      | _ => Err (InvalidArgument
              ("job " +:+ pretty (tk_job_id key) +:+ " is not running"))
      end
  end.

(** ** Observers *)
Definition observe_job_snapshots (self : JobScheduler) : list JobSnapshot :=
  (λ '(j, job), job_snapshot job j) <$> js_jobs self.
Definition observe_stage_snapshots (self : JobScheduler) : list StageSnapshot :=
  '(j, job) ← js_jobs self; stage_snapshots job j.
Definition observe_task_snapshots (self : JobScheduler) : list TaskSnapshot :=
  '(j, job) ← js_jobs self; task_snapshots job j.
End scheduler.
