(* ===== verification/AttemptsFacts.v ===== *)
(** * The attempts of a job as a map

    The scheduler reaches attempts through [stages[s].tasks[p].attempts]; the
    proofs see them through [attempts_of], a partial map from tasks to lists of
    attempts.  This file relates the two, and states how attempts may evolve. *)

From S2P Require Import Prelude Ids JobGraph Topology TopologyFacts JobState JobScheduler.

Definition attempts_of (stages : list StageDescriptor) (s p : nat)
    : option (list TaskAttemptDescriptor) :=
  sd ← stages !! s; td_attempts <$> sd_tasks sd !! p.

(** The part of a stage descriptor that is not its tasks. *)
Definition stage_meta (sd : StageDescriptor) : StageState * Z * option Z :=
  (sd_state sd, sd_created_at sd, sd_stopped_at sd).

Definition same_meta (stages stages' : list StageDescriptor) : Prop :=
  stage_meta <$> stages' = stage_meta <$> stages.

#[global] Instance same_meta_preorder : PreOrder same_meta.
Proof. split; [by intros ?|]. unfold same_meta. intros x y z Hxy Hyz. congruence. Qed.

Lemma same_meta_length stages stages' :
  same_meta stages stages' → length stages' = length stages.
Proof. intros Hm. by rewrite <-(length_fmap stage_meta stages'), Hm, length_fmap. Qed.

(** ** Reading and writing one task *)

Lemma stages_task_returns stages s p l :
  attempts_of stages s p = Some l →
  stages_task stages s p = Returns (MkTaskDescriptor l).
Proof.
  unfold attempts_of, stages_task, vec_index.
  destruct (stages !! s) as [sd|]; simpl; [|done].
  destruct (sd_tasks sd !! p) as [[l']|]; simpl; congruence.
Qed.

Lemma last_attempt_is_returns P stages s p l :
  attempts_of stages s p = Some l →
  last_attempt_is P stages s p =
    Returns (from_option (λ a, P (ta_state a)) false (last l)).
Proof. intros Hl. unfold last_attempt_is. by rewrite (stages_task_returns _ _ _ _ Hl). Qed.

(** [stages'] is [stages] with the attempts of [(s, p)] replaced by [l]. *)
Definition updates_task (stages : list StageDescriptor) (s p : nat)
    (l : list TaskAttemptDescriptor) (stages' : list StageDescriptor) : Prop :=
  same_meta stages stages' ∧
  ∀ s' p', attempts_of stages' s' p' =
    if decide ((s', p') = (s, p)) then Some l else attempts_of stages s' p'.

Lemma total_stages_update stages s p f l :
  attempts_of stages s p = Some l →
  stages_update stages s p f ⇓ updates_task stages s p (f l).
Proof.
  unfold attempts_of, stages_update.
  destruct (stages !! s) as [sd|] eqn:Hs; simpl; [|done].
  destruct (sd_tasks sd !! p) as [td|] eqn:Hp; simpl; [|done]. intros [= <-].
  apply total_bind. eapply total_vec_index; [done|].
  apply total_bind. eapply total_vec_update; [done|].
  eapply total_vec_update; [done|]. split.
  - unfold same_meta. rewrite list_fmap_insert. unfold stage_meta at 1. simpl.
    apply list_insert_id. by rewrite list_lookup_fmap, Hs.
  - intros s' p'. unfold attempts_of. apply lookup_lt_Some in Hs as Hlt.
    apply lookup_lt_Some in Hp as Hpt.
    destruct (decide (s = s')) as [->|Hne].
    + rewrite list_lookup_insert_eq by done. simpl.
      destruct (decide (p = p')) as [->|Hnp].
      * rewrite list_lookup_insert_eq by done. by rewrite decide_True.
      * rewrite list_lookup_insert_ne by done. rewrite decide_False by congruence.
        by rewrite Hs.
    + rewrite list_lookup_insert_ne by done. by rewrite decide_False by congruence.
Qed.

Lemma updates_task_ne stages s p l stages' s' p' :
  updates_task stages s p l stages' → (s', p') ≠ (s, p) →
  attempts_of stages' s' p' = attempts_of stages s' p'.
Proof. intros [_ ->] Hne. by rewrite decide_False. Qed.

Lemma updates_task_eq stages s p l stages' :
  updates_task stages s p l stages' → attempts_of stages' s p = Some l.
Proof. intros [_ ->]. by rewrite decide_True. Qed.

(** ** A loop that rewrites each task of a duplicate-free list once *)
Section task_loop.
Context {X : Type} (body : list StageDescriptor * list X → TaskTopology →
                           Run (list StageDescriptor * list X)).
Context (f : list TaskAttemptDescriptor → list TaskAttemptDescriptor).
Context (out : TaskTopology → list TaskAttemptDescriptor → list X).
Hypothesis Hbody : ∀ stages actions t l,
  attempts_of stages (tt_stage t) (tt_partition t) = Some l →
  body (stages, actions) t ⇓ λ '(stages', actions'),
    updates_task stages (tt_stage t) (tt_partition t) (f l) stages' ∧
    actions' = actions ++ out t l.

Definition tasks_rewritten (stages : list StageDescriptor) (ts : list TaskTopology)
    (stages' : list StageDescriptor) : Prop :=
  same_meta stages stages' ∧
  ∀ s p, attempts_of stages' s p =
    if decide (MkTaskTopology s p ∈ ts) then f <$> attempts_of stages s p
    else attempts_of stages s p.

Definition tasks_output (stages : list StageDescriptor) (ts : list TaskTopology) : list X :=
  t ← ts; from_option (out t) [] (attempts_of stages (tt_stage t) (tt_partition t)).

Lemma total_task_loop stages actions ts :
  NoDup ts →
  (∀ t, t ∈ ts → is_Some (attempts_of stages (tt_stage t) (tt_partition t))) →
  for_each body (stages, actions) ts ⇓ λ '(stages', actions'),
    tasks_rewritten stages ts stages' ∧ actions' = actions ++ tasks_output stages ts.
Proof.
  intros Hnd Hr.
  apply (total_for_each body (λ pre '(stages', actions'),
    tasks_rewritten stages pre stages' ∧ actions' = actions ++ tasks_output stages pre)).
  { split; [|by rewrite app_nil_r]. split; [done|]. intros s p.
    rewrite decide_False; [done|set_solver]. }
  intros pre t post [stages1 actions1] -> [[Hm Ha] ->].
  destruct (Hr t) as [l Hl]; [set_solver|].
  assert (t ∉ pre) as Hnt by (apply NoDup_app in Hnd; set_solver).
  assert (attempts_of stages1 (tt_stage t) (tt_partition t) = Some l) as Hl1.
  { rewrite Ha, decide_False; [done|]. by destruct t. }
  eapply total_mono; [by apply Hbody|].
  intros [stages2 actions2] [[Hm2 Ha2] ->]. split; [split; [by etrans|]|].
  - intros s p. rewrite Ha2, Ha. destruct t as [ts tp]. simpl in *.
    destruct (decide ((s, p) = (ts, tp))) as [[= -> ->]|Hne].
    + rewrite decide_True by set_solver. by rewrite Hl.
    + destruct (decide (MkTaskTopology s p ∈ pre)).
      * rewrite decide_True; [done|set_solver].
      * rewrite decide_False; [done|]. set_solver.
  - unfold tasks_output. rewrite bind_app. simpl. rewrite Hl, app_nil_r. simpl.
    by rewrite (assoc_L (++)).
Qed.
End task_loop.

(** ** Evolution of attempts *)

(** An attempt keeps its terminal state and its creation time; its messages
    and its output flag only grow. *)
Record attempt_evolves (a a' : TaskAttemptDescriptor) : Prop := {
  ae_rank : task_rank (ta_state a) ≤ task_rank (ta_state a');
  ae_terminal : is_terminal (ta_state a) = true → ta_state a' = ta_state a;
  ae_created : ta_created_at a' = ta_created_at a;
  ae_messages : ta_messages a `prefix_of` ta_messages a';
  ae_fetched : ta_job_output_fetched a = true → ta_job_output_fetched a' = true
}.

#[global] Instance attempt_evolves_preorder : PreOrder attempt_evolves.
Proof.
  split.
  - intros a. by split.
  - intros a b c [r1 t1 c1 m1 f1] [r2 t2 c2 m2 f2]. split.
    + lia.
    + intros Ht. rewrite t2; [auto|]. by rewrite t1.
    + congruence.
    + by etrans.
    + auto.
Qed.

(** A list of attempts evolves: every attempt does, and attempts are added at
    the end. *)
Definition attempts_evolve (l l' : list TaskAttemptDescriptor) : Prop :=
  ∃ l1 l2, l' = l1 ++ l2 ∧ Forall2 attempt_evolves l l1.

Lemma attempts_evolve_Forall2 l l' : Forall2 attempt_evolves l l' → attempts_evolve l l'.
Proof. intros H. exists l', []. by rewrite app_nil_r. Qed.

#[global] Instance attempts_evolve_preorder : PreOrder attempts_evolve.
Proof.
  split.
  - intros l. by apply attempts_evolve_Forall2, reflexivity.
  - intros l l' l'' (l1 & l2 & -> & H1) (l3 & l4 & -> & H2).
    apply Forall2_app_inv_l in H2 as (k1 & k2 & H2 & _ & ->).
    exists k1, (k2 ++ l4). split; [by rewrite (assoc_L (++))|]. by etrans.
Qed.

Lemma attempts_evolve_push l now : attempts_evolve l (l ++ [attempt_new now]).
Proof. exists l, [attempt_new now]. split; [done|]. by apply reflexivity. Qed.

Lemma attempts_evolve_lookup l l' i a :
  attempts_evolve l l' → l !! i = Some a → ∃ a', l' !! i = Some a' ∧ attempt_evolves a a'.
Proof.
  intros (l1 & l2 & -> & H) Ha. destruct (Forall2_lookup_l _ _ _ _ _ H Ha) as (a' & Ha' & He).
  exists a'. split; [|done]. by apply lookup_app_l_Some.
Qed.

(** The attempts of every task evolve. *)
Definition tasks_evolve (stages stages' : list StageDescriptor) : Prop :=
  ∀ s p l, attempts_of stages s p = Some l →
    ∃ l', attempts_of stages' s p = Some l' ∧ attempts_evolve l l'.

#[global] Instance tasks_evolve_preorder : PreOrder tasks_evolve.
Proof.
  split.
  - intros st s p l Hl. exists l. by split; [|apply reflexivity].
  - intros a b c H1 H2 s p l (l1 & Hl1 & He1)%H1. apply H2 in Hl1 as (l2 & Hl2 & He2).
    exists l2. split; [done|]. by etrans.
Qed.

(** The evolution that adds no attempt. *)
Definition stages_evolve (stages stages' : list StageDescriptor) : Prop :=
  length stages' = length stages ∧
  ∀ s p, match attempts_of stages s p, attempts_of stages' s p with
         | Some l, Some l' => Forall2 attempt_evolves l l'
         | None, None => True
         | _, _ => False
         end.

#[global] Instance stages_evolve_preorder : PreOrder stages_evolve.
Proof.
  split.
  - intros st. split; [done|]. intros s p. destruct (attempts_of st s p); [|done].
    by apply reflexivity.
  - intros a b c [Hl1 H1] [Hl2 H2]. split; [congruence|]. intros s p.
    specialize (H1 s p). specialize (H2 s p).
    destruct (attempts_of a s p), (attempts_of b s p), (attempts_of c s p); try done.
    by etrans.
Qed.

Lemma stages_evolve_Some stages stages' s p l :
  stages_evolve stages stages' → attempts_of stages s p = Some l →
  ∃ l', attempts_of stages' s p = Some l' ∧ Forall2 attempt_evolves l l'.
Proof.
  intros [_ H] Hl. specialize (H s p). rewrite Hl in H.
  destruct (attempts_of stages' s p); [eauto|done].
Qed.

Lemma stages_evolve_length stages stages' s p :
  stages_evolve stages stages' →
  length <$> attempts_of stages' s p = length <$> attempts_of stages s p.
Proof.
  intros [_ H]. specialize (H s p).
  destruct (attempts_of stages s p), (attempts_of stages' s p); try done.
  simpl. f_equal. symmetry. by eapply Forall2_length.
Qed.

Lemma tasks_rewritten_evolve f stages ts stages' :
  (∀ l, Forall2 attempt_evolves l (f l)) →
  tasks_rewritten f stages ts stages' → stages_evolve stages stages'.
Proof.
  intros Hf [Hm Ha]. split; [by apply same_meta_length|]. intros s p.
  rewrite Ha. case_decide; destruct (attempts_of stages s p); simpl; done.
Qed.

Lemma stages_evolve_tasks stages stages' : stages_evolve stages stages' → tasks_evolve stages stages'.
Proof.
  intros Hev s p l Hl. destruct (stages_evolve_Some _ _ _ _ _ Hev Hl) as (l' & ? & ?).
  exists l'. split; [done|]. by apply attempts_evolve_Forall2.
Qed.

Lemma tasks_rewritten_tasks_evolve f stages ts stages' :
  (∀ l, attempts_evolve l (f l)) → tasks_rewritten f stages ts stages' →
  tasks_evolve stages stages'.
Proof.
  intros Hf [_ Ha] s p l Hl. rewrite Ha, Hl. case_decide; simpl; eexists; (split; [done|]); [done|].
  by apply reflexivity.
Qed.

Lemma updates_task_evolve stages s p l l' stages' :
  attempts_of stages s p = Some l → Forall2 attempt_evolves l l' →
  updates_task stages s p l' stages' → stages_evolve stages stages'.
Proof.
  intros Hl Hll [Hm Ha]. split; [by apply same_meta_length|]. intros s' p'.
  rewrite Ha. case_decide as Heq.
  - simplify_eq. by rewrite Hl.
  - destruct (attempts_of stages s' p'); [by apply reflexivity|done].
Qed.

Lemma attempt_cancel_evolves now a :
  attempt_evolves a (if is_terminal (ta_state a) then a else attempt_cancel now a).
Proof.
  destruct (is_terminal (ta_state a)) eqn:Ht; [done|].
  split; simpl; [|congruence|done|done|done]. destruct (ta_state a); simpl; lia.
Qed.

Lemma cancel_attempts_evolve now l : Forall2 attempt_evolves l (cancel_attempts now l).
Proof.
  induction l as [|a l IH]; simpl; constructor; [|done]. apply attempt_cancel_evolves.
Qed.

Lemma cancel_attempts_terminal now l a :
  a ∈ cancel_attempts now l → is_terminal (ta_state a) = true.
Proof.
  intros (a0 & -> & _)%list_elem_of_fmap.
  by destruct (is_terminal (ta_state a0)) eqn:?.
Qed.

Lemma attempt_mark_fetched_evolves a : attempt_evolves a (attempt_mark_fetched a).
Proof. by split. Qed.

Lemma attempt_update_evolves now state message cause a :
  attempt_evolves a (attempt_update now state message cause a).
Proof.
  split; simpl.
  - rewrite consolidate_rank. lia.
  - intros. by apply consolidate_terminal.
  - done.
  - by apply prefix_app_r.
  - done.
Qed.

Lemma Forall2_alter_evolves (f : TaskAttemptDescriptor → TaskAttemptDescriptor) i l :
  (∀ a, attempt_evolves a (f a)) → Forall2 attempt_evolves l (alter f i l).
Proof.
  intros Hf. apply Forall2_same_length_lookup_2; [by rewrite length_alter|].
  intros j x y Hx Hy. destruct (decide (i = j)) as [->|Hne].
  - rewrite list_lookup_alter_eq, Hx in Hy. simplify_eq/=. done.
  - rewrite list_lookup_alter_ne in Hy by done. by simplify_eq.
Qed.

(** ** A loop over groups of tasks

    Both the cascade of cancellations and the scheduling of regions visit the
    regions in turn, decide from the attempts of a region whether to act on it,
    and rewrite all its tasks when they do. *)

Definition agree_on (ts : list TaskTopology) (stages stages' : list StageDescriptor) : Prop :=
  ∀ t, t ∈ ts → attempts_of stages' (tt_stage t) (tt_partition t) =
                attempts_of stages (tt_stage t) (tt_partition t).

Definition tasks_present (ts : list TaskTopology) (stages : list StageDescriptor) : Prop :=
  ∀ t, t ∈ ts → is_Some (attempts_of stages (tt_stage t) (tt_partition t)).

Lemma tasks_rewritten_other f stages ts stages' us :
  tasks_rewritten f stages ts stages' → us ## ts → agree_on us stages stages'.
Proof.
  intros [_ Ha] Hd t Ht. rewrite Ha, decide_False; [done|]. destruct t. set_solver.
Qed.

Lemma tasks_rewritten_present f stages ts stages' us :
  tasks_rewritten f stages ts stages' → tasks_present us stages → tasks_present us stages'.
Proof.
  intros [_ Ha] Hp t Ht. rewrite Ha. destruct (Hp t Ht) as [l ->]. case_decide; by eexists.
Qed.

Lemma tasks_rewritten_app f stages ts1 stages1 ts2 stages2 :
  ts1 ## ts2 →
  tasks_rewritten f stages ts1 stages1 → tasks_rewritten f stages1 ts2 stages2 →
  tasks_rewritten f stages (ts1 ++ ts2) stages2.
Proof.
  intros Hd [Hm1 Ha1] [Hm2 Ha2]. split; [by etrans|]. intros s p.
  rewrite Ha2, Ha1. destruct (decide (MkTaskTopology s p ∈ ts1)) as [H1|H1].
  - rewrite (decide_True (P := _ ∈ ts1 ++ ts2)) by set_solver.
    rewrite decide_False; [done|]. intros H2. by eapply Hd.
  - destruct (decide (MkTaskTopology s p ∈ ts2)) as [H2|H2].
    + by rewrite decide_True by set_solver.
    + rewrite decide_False; [done|]. by intros [?|?]%elem_of_app.
Qed.

Lemma tasks_rewritten_nil f stages : tasks_rewritten f stages [] stages.
Proof. split; [done|]. intros s p. rewrite decide_False; [done|set_solver]. Qed.

Section group_loop.
Context {X Y : Type} (tasks : X → list TaskTopology).
Context (f : list TaskAttemptDescriptor → list TaskAttemptDescriptor).
Context (sel : list StageDescriptor → X → bool).
Context (out : list StageDescriptor → list StageDescriptor → X → list Y → Prop).
Context (body : list StageDescriptor * list Y → X → Run (list StageDescriptor * list Y)).
Context (L : list X).
Hypothesis sel_ext : ∀ stages stages' x,
  agree_on (tasks x) stages stages' → sel stages' x = sel stages x.
Hypothesis out_ext : ∀ stages1 stages2 stages1' stages2' x o,
  agree_on (tasks x) stages1 stages1' → agree_on (tasks x) stages2 stages2' →
  out stages1 stages2 x o → out stages1' stages2' x o.
Hypothesis Hbody : ∀ stages actions x,
  x ∈ L → NoDup (tasks x) → tasks_present (tasks x) stages →
  body (stages, actions) x ⇓ λ '(stages', actions'),
    if sel stages x then
      tasks_rewritten f stages (tasks x) stages' ∧
      ∃ o, actions' = actions ++ o ∧ out stages stages' x o
    else stages' = stages ∧ actions' = actions.

Definition selected (stages : list StageDescriptor) (l : list X) : list X :=
  filter (λ x, sel stages x = true) l.

Lemma agree_on_symm ts stages stages' : agree_on ts stages stages' → agree_on ts stages' stages.
Proof. intros H t Ht. by rewrite H. Qed.

Lemma selected_tasks stages l t :
  t ∈ selected stages l ≫= tasks → t ∈ l ≫= tasks.
Proof.
  rewrite !list_elem_of_bind. intros (x & Ht & Hx).
  apply list_elem_of_filter in Hx as [_ Hx]. eauto.
Qed.

Lemma total_group_loop stages actions :
  NoDup (L ≫= tasks) → tasks_present (L ≫= tasks) stages →
  for_each body (stages, actions) L ⇓ λ '(stages', actions'),
    tasks_rewritten f stages (selected stages L ≫= tasks) stages' ∧
    ∃ outs, actions' = actions ++ mjoin outs ∧
      Forall2 (out stages stages') (selected stages L) outs.
Proof.
  intros Hnd Hpr.
  apply (total_for_each body (λ pre '(stages', actions'),
    tasks_rewritten f stages (selected stages pre ≫= tasks) stages' ∧
    ∃ outs, actions' = actions ++ mjoin outs ∧
      Forall2 (out stages stages') (selected stages pre) outs)).
  { split; [apply tasks_rewritten_nil|]. exists []. rewrite app_nil_r. by split. }
  intros pre x post [stages1 actions1] HL [Hrw (outs & -> & Houts)].
  rewrite HL, bind_app, bind_cons in Hnd.
  apply NoDup_app in Hnd as (_ & Hdis & (Hndx & _ & _)%NoDup_app).
  assert ((selected stages pre ≫= tasks) ## tasks x) as Hdx.
  { intros t Ht%selected_tasks Hx. apply (Hdis t Ht). set_solver. }
  assert (tasks_present (L ≫= tasks) stages1) as Hpr1
    by (by eapply tasks_rewritten_present).
  assert (agree_on (tasks x) stages stages1) as Hagx.
  { eapply tasks_rewritten_other; [done|]. set_solver. }
  eapply total_mono; [apply Hbody; [rewrite HL; set_solver|done|]|].
  { intros t Ht. apply Hpr1. rewrite HL, bind_app, bind_cons. set_solver. }
  intros [stages2 actions2]. rewrite (sel_ext _ _ _ Hagx).
  unfold selected in *. rewrite filter_app, filter_cons, filter_nil.
  destruct (sel stages x) eqn:Hs.
  - rewrite (decide_True (P := true = true)) by done. intros (Hrw2 & o & -> & Ho).
    rewrite bind_app. simpl. rewrite app_nil_r. split.
    { by eapply tasks_rewritten_app. }
    exists (outs ++ [o]). rewrite join_app. simpl. rewrite app_nil_r.
    split; [by rewrite <-app_assoc|]. apply Forall2_app; [|constructor; [|done]].
    + eapply Forall2_impl_elem; [done|]. intros y o' Hy. apply out_ext; [done|].
      eapply tasks_rewritten_other; [done|]. intros t Ht Hx.
      apply (Hdx t); [|done]. apply list_elem_of_bind. eauto.
    + eapply out_ext; [by apply agree_on_symm|done|done].
  - rewrite decide_False by done. intros [-> ->]. rewrite app_nil_r. eauto.
Qed.
End group_loop.
