(* ===== verification/RegionFacts.v ===== *)
(** * The task region built for a region of the topology

    [build_task_region] distributes the tasks of a region over task sets: the
    stages of a slot-sharing group share sets, a group has as many sets as the
    widest of its stages has partitions, and partition [p] of a stage goes to
    the set that covers its share. *)

From S2P Require Import Prelude Ids JobGraph Topology TopologyFacts JobState JobScheduler AttemptsFacts.

Section region.
Context `{DF : DataFusion}.
Context (job_id : N) (g : JobGraph) (stages : list StageDescriptor).
Implicit Types (t : TaskTopology) (ts : list TaskTopology) (k : StageGroupKey).

Definition group_key_of (s : nat) : option StageGroupKey :=
  stage_group_key <$> jg_stages g !! s.

(** The number of sets of a group, over the stages [ss]. *)
Definition group_width (ss : list nat) k : nat :=
  max_list (parts g <$> filter (λ s, group_key_of s = Some k) ss).

Definition attempt_no t : nat :=
  pred (length (default [] (attempts_of stages (tt_stage t) (tt_partition t)))).

Definition task_key_of t : TaskKey :=
  MkTaskKey job_id (tt_stage t) (tt_partition t) (attempt_no t).

Definition entry_of t : TaskSetEntry :=
  MkTaskSetEntry (task_key_of t)
    (from_option (output_kind ∘ st_mode) OutputLocal (jg_stages g !! tt_stage t)).

Definition bucket_of (width : nat) t : nat :=
  tt_partition t * width / parts g (tt_stage t).

(** The sets of group [k], holding the tasks [ts]. *)
Definition buckets_of k (width : nat) ts : list (list TaskSetEntry) :=
  (λ b, entry_of <$> filter (λ t, group_key_of (tt_stage t) = Some k ∧ bucket_of width t = b) ts)
    <$> seq 0 width.

Lemma group_width_app ss s k :
  group_width (ss ++ [s]) k =
    if decide (group_key_of s = Some k) then group_width ss k `max` parts g s
    else group_width ss k.
Proof.
  unfold group_width. rewrite filter_app, filter_cons, filter_nil, fmap_app.
  assert (∀ l1 l2, max_list (l1 ++ l2) = max_list l1 `max` max_list l2) as Happ.
  { induction l1 as [|x l1 IH]; intros l2; simpl; [done|]. rewrite IH. lia. }
  case_decide; simpl; rewrite Happ; simpl; lia.
Qed.

Lemma group_width_ge ss s k :
  s ∈ ss → group_key_of s = Some k → parts g s ≤ group_width ss k.
Proof.
  intros Hs Hk. unfold group_width. apply max_list_elem_of_le.
  apply list_elem_of_fmap. exists s. split; [done|]. by apply list_elem_of_filter.
Qed.

Lemma resize_replicate n p :
  resize_buckets (replicate n []) p = replicate (n `max` p) [].
Proof.
  unfold resize_buckets. rewrite length_replicate, <-replicate_add. f_equal. lia.
Qed.

(** *** The groups and their empty sets *)
Definition has_group (ss : list nat) k : Prop := Some k ∈ (group_key_of <$> ss).

#[local] Instance has_group_dec ss k : Decision (has_group ss k).
Proof. unfold has_group. apply _. Defined.

Lemma has_group_spec ss k : has_group ss k ↔ ∃ s, s ∈ ss ∧ group_key_of s = Some k.
Proof. unfold has_group. rewrite list_elem_of_fmap. naive_solver. Qed.

Lemma has_group_snoc ss s k :
  has_group (ss ++ [s]) k ↔ has_group ss k ∨ group_key_of s = Some k.
Proof. unfold has_group. rewrite fmap_app. simpl. set_solver. Qed.

Lemma group_width_none ss k : ¬ has_group ss k → group_width ss k = 0.
Proof.
  intros Hn. unfold group_width.
  assert (filter (λ s, group_key_of s = Some k) ss = []) as ->; [|done].
  apply filter_none. intros s Hs Hk. apply Hn, has_group_spec. eauto.
Qed.

Definition groups_are (ss : list nat) (B : StageGroupKey → list (list TaskSetEntry))
    (groups : list (StageGroupKey * StageGroup)) : Prop :=
  im_wf groups ∧
  ∀ k, sg_buckets <$> im_get k groups = if decide (has_group ss k) then Some (B k) else None.

Lemma total_group_stages ss :
  (∀ s, s ∈ ss → s < length (jg_stages g)) →
  for_each (add_stage_to_group g) [] ss ⇓
    groups_are ss (λ k, replicate (group_width ss k) []).
Proof.
  intros Hss.
  apply (total_for_each _ (λ pre, groups_are pre (λ k, replicate (group_width pre k) []))).
  { split; [by apply NoDup_nil_2|]. intros k. rewrite decide_False; [done|].
    rewrite has_group_spec. set_solver. }
  intros pre s post groups -> [Hwf Hg]. unfold add_stage_to_group.
  destruct (lookup_lt_is_Some_2 (jg_stages g) s) as [stage Hs]; [apply Hss; set_solver|].
  apply total_bind. eapply total_vec_index; [done|]. simpl.
  assert (group_key_of s = Some (stage_group_key stage)) as Hk
    by (unfold group_key_of; by rewrite Hs).
  assert (parts g s = stage_partitions stage) as Hp by (unfold parts; by rewrite Hs).
  split; [auto with total|]. intros k. rewrite im_get_insert, group_width_app.
  destruct (decide (stage_group_key stage = k)) as [<-|Hne].
  - rewrite (decide_True (P := has_group _ _)) by (apply has_group_snoc; auto).
    rewrite decide_True by done. simpl. f_equal. rewrite Hp, <-resize_replicate. f_equal.
    specialize (Hg (stage_group_key stage)).
    destruct (im_get _ groups) as [group|]; simpl in *.
    + case_decide; congruence.
    + case_decide as Hh; [done|]. by rewrite group_width_none.
  - rewrite (decide_False (P := group_key_of s = Some k)) by congruence.
    rewrite Hg. apply decide_ext. rewrite has_group_snoc. naive_solver.
Qed.

(** *** The tasks in their sets *)
Lemma bucket_of_lt width t :
  tt_partition t < parts g (tt_stage t) → parts g (tt_stage t) ≤ width →
  bucket_of width t < width.
Proof.
  intros Hp Hw. unfold bucket_of. apply Nat.Div0.div_lt_upper_bound. nia.
Qed.

(** Two partitions of a stage never share a set. *)
Lemma bucket_of_inj width t t' :
  tt_stage t = tt_stage t' → tt_partition t < parts g (tt_stage t) →
  parts g (tt_stage t) ≤ width →
  bucket_of width t = bucket_of width t' → tt_partition t = tt_partition t'.
Proof.
  unfold bucket_of. intros <- Hp Hw.
  generalize dependent (parts g (tt_stage t)). intros n Hn Hw.
  assert (∀ a b, a < b → a * width / n < b * width / n) as Hmono.
  { intros a b Hab. apply Nat.lt_le_trans with (S (a * width / n)); [lia|].
    apply Nat.div_le_lower_bound; [lia|].
    pose proof (Nat.Div0.mul_div_le (a * width) n). nia. }
  intros Heq. destruct (Nat.lt_trichotomy (tt_partition t) (tt_partition t')) as [H|[H|H]];
    [|done|]; apply Hmono in H; lia.
Qed.

Lemma buckets_of_snoc k width ts t :
  buckets_of k width (ts ++ [t]) =
    if decide (group_key_of (tt_stage t) = Some k)
    then alter (λ entries, entries ++ [entry_of t]) (bucket_of width t) (buckets_of k width ts)
    else buckets_of k width ts.
Proof.
  unfold buckets_of. apply list_eq. intros b.
  assert (∀ (F : nat → list TaskSetEntry) i, (F <$> seq 0 width) !! i =
            if decide (i < width) then Some (F i) else None) as Hseq.
  { intros F i. rewrite list_lookup_fmap. case_decide.
    - by rewrite lookup_seq_lt.
    - rewrite lookup_seq_ge by lia. done. }
  rewrite Hseq, filter_app, filter_cons, filter_nil, fmap_app.
  case_decide as Hb.
  - destruct (decide (group_key_of (tt_stage t) = Some k)) as [Hk|Hk].
    + destruct (decide (bucket_of width t = b)) as [<-|Hne].
      * by rewrite list_lookup_alter_eq, Hseq, !decide_True by done.
      * rewrite list_lookup_alter_ne, Hseq by done. rewrite (decide_True (P := b < width)) by done.
        rewrite decide_False by naive_solver. by rewrite app_nil_r.
    + rewrite decide_False by naive_solver. by rewrite Hseq, decide_True, app_nil_r.
  - case_decide; rewrite ?list_lookup_alter, !Hseq, ?(decide_False (P := b < width)) by done;
      [|done]. case_decide as Heq; [subst b; by rewrite decide_False|done].
Qed.

Lemma get_latest_present s p l :
  attempts_of stages s p = Some l → l ≠ [] →
  get_latest_task_attempt stages s p = Some (pred (length l)).
Proof.
  unfold attempts_of, get_latest_task_attempt.
  destruct (stages !! s) as [sd|]; simpl; [|done].
  destruct (sd_tasks sd !! p) as [td|]; simpl; [|done]. intros [= <-] Hne.
  by destruct (td_attempts td).
Qed.

Definition attempted t : Prop :=
  ∃ l, attempts_of stages (tt_stage t) (tt_partition t) = Some l ∧ l ≠ [].

Lemma total_group_tasks ss groups ts :
  (∀ t, t ∈ ts → tt_stage t ∈ ss ∧ tt_partition t < parts g (tt_stage t) ∧ attempted t) →
  groups_are ss (λ k, buckets_of k (group_width ss k) []) groups →
  for_each (add_task_to_group job_id g stages) groups ts ⇓
    groups_are ss (λ k, buckets_of k (group_width ss k) ts).
Proof.
  intros Hts H0.
  apply (total_for_each _ (λ pre, groups_are ss (λ k, buckets_of k (group_width ss k) pre)));
    [done|].
  intros pre t post groups1 -> [Hwf Hg]. unfold add_task_to_group.
  destruct (Hts t) as (Hs & Hp & l & Hl & Hne); [set_solver|].
  rewrite (get_latest_present _ _ _ Hl Hne).
  unfold parts in Hp. destruct (jg_stages g !! tt_stage t) as [stage|] eqn:Hst; simpl in Hp; [|lia].
  apply total_bind. eapply total_vec_index; [done|].
  assert (group_key_of (tt_stage t) = Some (stage_group_key stage)) as Hk
    by (unfold group_key_of; by rewrite Hst).
  assert (parts g (tt_stage t) = stage_partitions stage) as Hpt
    by (unfold parts; by rewrite Hst).
  pose proof (Hg (stage_group_key stage)) as Hgk.
  rewrite decide_True in Hgk by (apply has_group_spec; eauto).
  destruct (im_get (stage_group_key stage) groups1) as [group|] eqn:Hgrp; simpl in Hgk; [|done].
  injection Hgk as Hb.
  rewrite decide_False by lia. apply total_bind.
  assert (length (sg_buckets group) = group_width ss (stage_group_key stage)) as Hlen
    by (rewrite Hb; unfold buckets_of; by rewrite length_fmap, length_seq).
  assert (tt_partition t * length (sg_buckets group) / stage_partitions stage =
          bucket_of (group_width ss (stage_group_key stage)) t) as Hbk
    by (unfold bucket_of; by rewrite Hlen, Hpt).
  rewrite Hbk.
  pose proof (group_width_ge ss _ _ Hs Hk) as Hge.
  destruct (lookup_lt_is_Some_2 (sg_buckets group)
    (bucket_of (group_width ss (stage_group_key stage)) t)) as [entries He].
  { rewrite Hlen. apply bucket_of_lt; lia. }
  eapply total_vec_update; [done|]. split; [auto with total|].
  intros k. rewrite im_get_insert, buckets_of_snoc.
  destruct (decide (stage_group_key stage = k)) as [<-|Hnek].
  - rewrite decide_True by (apply has_group_spec; eauto). rewrite decide_True by done.
    simpl. f_equal. rewrite <-Hb. rewrite (list_alter_insert_lookup _ _ _ _ He).
    unfold entry_of, task_key_of, attempt_no. by rewrite Hl, Hst.
  - rewrite Hg. by rewrite (decide_False (P := group_key_of _ = Some k)) by congruence.
Qed.

(** *** The region *)

(** What [build_task_region] returns, as a function of the tasks. *)
Definition region_spec ts (tr : TaskRegion) : Prop :=
  ∃ keys : list StageGroupKey, NoDup keys ∧
    (∀ k, k ∈ keys ↔ has_group (tt_stage <$> ts) k) ∧
    region_tasks tr = k ← keys;
      (λ entries, (k.1, MkTaskSet entries)) <$>
        buckets_of k (group_width (is_extend [] (tt_stage <$> ts)) k) ts.

Lemma total_build_task_region region :
  (∀ t, t ∈ rt_tasks region →
     tt_partition t < parts g (tt_stage t) ∧ attempted t) →
  build_task_region job_id g stages region ⇓ region_spec (rt_tasks region).
Proof.
  intros Hts. unfold build_task_region.
  set (ss := is_extend [] (tt_stage <$> rt_tasks region)).
  assert (∀ s, s ∈ ss ↔ s ∈ tt_stage <$> rt_tasks region) as Hss.
  { intros s. unfold ss. rewrite elem_of_is_extend. set_solver. }
  apply total_bind. eapply total_mono; [apply total_group_stages|].
  { intros s (t & -> & Ht)%Hss%list_elem_of_fmap. destruct (Hts t Ht) as [Hp _].
    unfold parts in Hp. destruct (jg_stages g !! tt_stage t) eqn:Hs; simpl in Hp; [|lia].
    by eapply lookup_lt_Some. }
  intros groups Hg. apply total_bind. eapply total_mono; [apply (total_group_tasks ss)|].
  - intros t Ht. split; [|by apply Hts]. apply Hss, list_elem_of_fmap. eauto.
  - destruct Hg as [Hwf Hg]. split; [done|]. intros k. rewrite Hg.
    case_decide; [|done]. f_equal. unfold buckets_of.
    apply list_eq_same_length with (group_width ss k);
      [by rewrite length_fmap, length_seq|by rewrite length_replicate|].
    intros b x y Hb. rewrite lookup_replicate_2 by done. rewrite list_lookup_fmap, lookup_seq_lt by done.
    simpl. congruence.
  - intros groups' [Hwf Hb]. simpl. exists (im_keys groups').
    assert (∀ k, k ∈ im_keys groups' ↔ has_group ss k) as Hkeys.
    { intros k. specialize (Hb k). destruct (im_get k groups') as [G|] eqn:HG; simpl in Hb.
      - apply im_get_elem_of in HG. split; [|intros _; apply list_elem_of_fmap; by exists (k, G)].
        by case_decide.
      - apply im_get_None in HG. split; [done|]. by case_decide. }
    split_and!; [done| |].
    { intros k. rewrite Hkeys. rewrite !has_group_spec. by setoid_rewrite Hss. }
    unfold group_task_sets. simpl.
    assert (∀ k G, (k, G) ∈ groups' → sg_buckets G =
              buckets_of k (group_width ss k) (rt_tasks region)) as HB.
    { intros k G Hin%im_elem_of_get; [|done]. specialize (Hb k). rewrite Hin in Hb. simpl in Hb.
      case_decide; congruence. }
    clear -HB. unfold im_keys. induction groups' as [|[k G] l IH]; [done|]. simpl.
    rewrite (HB k G) by set_solver. f_equal. apply IH. intros. apply HB. set_solver.
Qed.

(** Every task of the region is in exactly one set, once. *)
Lemma region_spec_tasks ts tr :
  (∀ t, t ∈ ts → tt_partition t < parts g (tt_stage t)) →
  region_spec ts tr →
  ('(_, set) ← region_tasks tr; set_tasks set) ≡ₚ task_key_of <$> ts.
Proof.
  intros Hts (keys & Hnd & Hkeys & ->).
  set (W := group_width (is_extend [] (tt_stage <$> ts))).
  set (cls := k ← keys; pair k <$> seq 0 (W k)).
  set (P := λ (kb : StageGroupKey * nat) t,
    group_key_of (tt_stage t) = Some kb.1 ∧ bucket_of (W kb.1) t = kb.2).
  assert (∀ k b, (k, b) ∈ cls ↔ k ∈ keys ∧ b < W k) as Hcls.
  { intros k b. unfold cls. rewrite list_elem_of_bind. split.
    - intros (k' & (b' & [= -> ->] & Hb)%list_elem_of_fmap & Hk).
      by apply elem_of_seq0 in Hb.
    - intros [Hk Hb]. exists k. split; [|done]. apply list_elem_of_fmap. exists b.
      by rewrite elem_of_seq0. }
  transitivity (task_key_of <$> (kb ← cls; filter (P kb) ts)).
  { apply reflexive_eq. unfold cls. clear. induction keys as [|k keys IH]; [done|].
    rewrite !bind_cons, bind_app, IH, bind_app, fmap_app. f_equal. unfold buckets_of.
    induction (seq 0 (W k)) as [|b l IHl]; [done|]. rewrite !fmap_cons, !bind_cons, fmap_app, IHl.
    f_equal. unfold set_tasks. simpl. by rewrite <-list_fmap_compose. }
  f_equiv. apply bind_filter_perm.
  - unfold cls. clear -Hnd. induction Hnd as [|k keys Hk _ IH]; [constructor|].
    rewrite bind_cons. apply NoDup_app. split_and!; [|..|done].
    + apply NoDup_fmap_2; [by intros ?? [= ->]|apply NoDup_seq].
    + intros [k' b] (b' & [= -> ->] & _)%list_elem_of_fmap.
      intros (k' & (? & [= -> ->] & _)%list_elem_of_fmap & ?)%list_elem_of_bind. done.
  - intros t [k b] [k' b'] _ _ _ [Hk Hb] [Hk' Hb']. simpl in *. congruence.
  - intros t Ht. specialize (Hts t Ht) as Hp. pose proof Hp as Hp'. unfold parts in Hp'.
    destruct (jg_stages g !! tt_stage t) as [stage|] eqn:Hst; simpl in Hp'; [|lia].
    assert (group_key_of (tt_stage t) = Some (stage_group_key stage)) as Hk
      by (unfold group_key_of; by rewrite Hst).
    exists (stage_group_key stage, bucket_of (W (stage_group_key stage)) t). split; [|done].
    apply Hcls. split.
    + apply Hkeys, has_group_spec. exists (tt_stage t). split; [|done].
      apply list_elem_of_fmap. eauto.
    + apply bucket_of_lt; [done|]. apply group_width_ge; [|done].
      apply elem_of_is_extend. right. apply list_elem_of_fmap. eauto.
Qed.

(** A set holds tasks of one placement and at most one task of a stage. *)
Lemma region_spec_set ts tr pl set :
  NoDup ts → (∀ t, t ∈ ts → tt_partition t < parts g (tt_stage t)) →
  region_spec ts tr → (pl, set) ∈ region_tasks tr →
  ∃ us, us `sublist_of` ts ∧ set_entries set = entry_of <$> us ∧
    NoDup (tt_stage <$> us) ∧
    ∀ t, t ∈ us → st_placement <$> jg_stages g !! tt_stage t = Some pl.
Proof.
  intros Hnd Hts (keys & _ & Hkeys & ->).
  intros (k & Hset & Hk)%list_elem_of_bind.
  set (W := group_width (is_extend [] (tt_stage <$> ts))) in *.
  apply list_elem_of_fmap in Hset as (entries & [= -> ->] & Hb).
  apply list_elem_of_fmap in Hb as (b & -> & _). simpl.
  eexists. split_and!; [|done| |]; [apply sublist_filter|..].
  - apply NoDup_fmap_2_strong; [|by apply NoDup_filter].
    intros t t' [[Hk1 Hb1] Ht]%list_elem_of_filter [[Hk2 Hb2] Ht']%list_elem_of_filter Hs.
    assert (tt_partition t = tt_partition t').
    { eapply bucket_of_inj; [done|by apply Hts| |by etrans].
      apply group_width_ge; [|done].
      apply elem_of_is_extend. right. apply list_elem_of_fmap. eauto. }
    destruct t, t'; simpl in *; congruence.
  - intros t [[Hkt _] Ht]%list_elem_of_filter. unfold group_key_of in Hkt.
    destruct (jg_stages g !! tt_stage t); simpl in *; [|done].
    injection Hkt as <-. done.
Qed.
End region.

Lemma region_spec_ext `{DF : DataFusion} job_id g stages stages' ts tr :
  agree_on ts stages stages' →
  region_spec job_id g stages ts tr → region_spec job_id g stages' ts tr.
Proof.
  intros Hag (keys & Hnd & Hkeys & Htr). exists keys. split_and!; [done..|]. rewrite Htr.
  apply list_bind_ext_elem. intros k _. f_equal. unfold buckets_of.
  apply list_fmap_ext_elem. intros b _. apply list_fmap_ext_elem.
  intros t [_ Ht]%list_elem_of_filter. unfold entry_of, task_key_of, attempt_no.
  by rewrite Hag.
Qed.
