(* ===== verification/RefreshFacts.v ===== *)
(** * Refreshing a job, step by step

    The functional behaviour of each step of [JobScheduler::refresh_job] on a
    well-formed job: cascading cancellations, extending the job output,
    releasing stages, deriving the region states and scheduling regions. *)

From S2P Require Import Prelude Ids JobGraph Topology TopologyFacts JobState JobScheduler AttemptsFacts RegionFacts.

(** The attempts of a task in a topology position. *)
Definition task_attempts (stages : list StageDescriptor) (t : TaskTopology)
    : option (list TaskAttemptDescriptor) :=
  attempts_of stages (tt_stage t) (tt_partition t).

(** The state of the last attempt, if there is one, satisfies [P]. *)
Definition last_is (P : TaskState → bool) (l : list TaskAttemptDescriptor) : bool :=
  from_option (λ a, P (ta_state a)) false (last l).

Definition task_last (P : TaskState → bool) (stages : list StageDescriptor) (t : TaskTopology)
    : bool :=
  from_option (last_is P) false (task_attempts stages t).

Definition is_live (s : TaskState) : bool := negb (is_terminal s).

Lemma task_last_agree P ts stages stages' t :
  agree_on ts stages stages' → t ∈ ts → task_last P stages' t = task_last P stages t.
Proof. intros Hag Ht. unfold task_last, task_attempts. by rewrite Hag. Qed.

Lemma last_attempt_is_task P stages t :
  is_Some (task_attempts stages t) →
  last_attempt_is P stages (tt_stage t) (tt_partition t) = Returns (task_last P stages t).
Proof.
  intros [l Hl]. rewrite (last_attempt_is_returns _ _ _ _ l Hl).
  unfold task_last. by rewrite Hl.
Qed.

(** ** The invariant of a job *)
Section wf.
Context `{DF : DataFusion}.

(** Every task of the graph, and nothing else, has a descriptor. *)
Definition stages_cover (g : JobGraph) (stages : list StageDescriptor) : Prop :=
  length stages = length (jg_stages g) ∧
  ∀ s p, is_Some (attempts_of stages s p) ↔ p < parts g s.

(** The tasks of a region are attempted together. *)
Definition regions_uniform (regions : list TaskRegionTopology) (stages : list StageDescriptor)
    : Prop :=
  ∀ region t t', region ∈ regions → t ∈ rt_tasks region → t' ∈ rt_tasks region →
    length <$> task_attempts stages t = length <$> task_attempts stages t'.

(** Only the last attempt of a task may be live. *)
Definition superseded_terminal (stages : list StageDescriptor) : Prop :=
  ∀ s p l i a, attempts_of stages s p = Some l → l !! i = Some a → S i < length l →
    is_terminal (ta_state a) = true.

Record wf_job (job : JobDescriptor) : Prop := {
  wj_graph : wf_graph (jd_graph job);
  wj_topology : topology_of (jd_graph job) (jd_topology job);
  wj_cover : stages_cover (jd_graph job) (jd_stages job);
  wj_regions : length (jd_regions job) = length (jt_regions (jd_topology job));
  wj_uniform : regions_uniform (jt_regions (jd_topology job)) (jd_stages job);
  wj_superseded : superseded_terminal (jd_stages job)
}.

Lemma wj_wf_topology job : wf_job job → wf_topology (jd_graph job) (jd_topology job).
Proof. intros Hw. by destruct (wj_topology _ Hw). Qed.

Lemma stages_cover_present g stages ts :
  stages_cover g stages → (∀ t, t ∈ ts → t ∈ all_tasks g) → tasks_present ts stages.
Proof. intros [_ Hc] Hts t Ht. apply Hc. by apply elem_of_all_tasks, Hts. Qed.

Lemma wj_region_tasks job : wf_job job →
  NoDup (jt_regions (jd_topology job) ≫= rt_tasks) ∧
  ∀ t, t ∈ jt_regions (jd_topology job) ≫= rt_tasks ↔ t ∈ all_tasks (jd_graph job).
Proof.
  intros Hw. pose proof (wt_tasks _ _ (wj_wf_topology _ Hw)) as Hp.
  unfold region_task_list in Hp.
  rewrite list_bind_fmap_join in Hp. split.
  - rewrite Hp. apply NoDup_all_tasks.
  - intros t. by rewrite Hp.
Qed.

Lemma wj_region_task job region t : wf_job job →
  region ∈ jt_regions (jd_topology job) → t ∈ rt_tasks region → t ∈ all_tasks (jd_graph job).
Proof.
  intros Hw Hr Ht. apply (wj_region_tasks _ Hw), list_elem_of_bind. eauto.
Qed.

Lemma wj_region_NoDup job region : wf_job job →
  region ∈ jt_regions (jd_topology job) → NoDup (rt_tasks region).
Proof.
  intros Hw Hr. destruct (wj_region_tasks _ Hw) as [Hnd _].
  apply list_elem_of_split in Hr as (l1 & l2 & Heq). rewrite Heq, bind_app, bind_cons in Hnd.
  apply NoDup_app in Hnd as (_ & _ & Hnd). by apply NoDup_app in Hnd as (? & _).
Qed.

Lemma wj_task_region job t : wf_job job → t ∈ all_tasks (jd_graph job) →
  ∃ region, region ∈ jt_regions (jd_topology job) ∧ t ∈ rt_tasks region.
Proof.
  intros Hw Ht. apply (wj_region_tasks _ Hw) in Ht.
  apply list_elem_of_bind in Ht. naive_solver.
Qed.

Lemma wj_present job ts : wf_job job →
  (∀ t, t ∈ ts → t ∈ all_tasks (jd_graph job)) → tasks_present ts (jd_stages job).
Proof. intros Hw. apply stages_cover_present, Hw. Qed.

Lemma tasks_rewritten_cover g f stages ts stages' :
  tasks_rewritten f stages ts stages' → stages_cover g stages → stages_cover g stages'.
Proof.
  intros [Hm Ha] [Hl Hc]. split; [by rewrite (same_meta_length _ _ Hm)|].
  intros s p. rewrite <-Hc, Ha. by case_decide; destruct (attempts_of stages s p).
Qed.
End wf.

Lemma tasks_output_bind {X Y} (out : TaskTopology → list TaskAttemptDescriptor → list Y)
    stages (tasks : X → list TaskTopology) (l : list X) :
  tasks_output out stages (l ≫= tasks) = x ← l; tasks_output out stages (tasks x).
Proof.
  unfold tasks_output. induction l as [|x l IH]; [done|].
  by rewrite !bind_cons, bind_app, IH.
Qed.

Lemma Forall2_fmap_eq {A B} (f : A → B) (l : list A) (k : list B) :
  Forall2 (λ x y, y = f x) l k → k = f <$> l.
Proof. induction 1 as [|x y l k -> _ ->]; done. Qed.

Lemma tasks_output_agree {Y} (out : TaskTopology → list TaskAttemptDescriptor → list Y)
    stages stages' ts :
  agree_on ts stages stages' → tasks_output out stages' ts = tasks_output out stages ts.
Proof. intros Hag. apply list_bind_ext_elem. intros t Ht. by rewrite Hag. Qed.

(** ** Cascading cancellations *)
Section cascade.
Context `{DF : DataFusion} (now : Z) (job_id : N).

Definition cancel_output (t : TaskTopology) (l : list TaskAttemptDescriptor) : list JobAction :=
  cancel_actions job_id (tt_stage t) (tt_partition t) l.

Lemma total_cancel_task stages actions t l :
  attempts_of stages (tt_stage t) (tt_partition t) = Some l →
  cancel_task now job_id (stages, actions) t ⇓ λ '(stages', actions'),
    updates_task stages (tt_stage t) (tt_partition t) (cancel_attempts now l) stages' ∧
    actions' = actions ++ cancel_output t l.
Proof.
  intros Hl. unfold cancel_task. rewrite (stages_task_returns _ _ _ _ Hl). simpl.
  run_call (by apply total_stages_update). done.
Qed.

Definition region_has (P : TaskState → bool) (stages : list StageDescriptor)
    (region : TaskRegionTopology) : bool :=
  existsb (task_last P stages) (rt_tasks region).

Lemma region_has_agree P stages stages' region :
  agree_on (rt_tasks region) stages stages' →
  region_has P stages' region = region_has P stages region.
Proof.
  intros Hag. unfold region_has. apply existsb_ext_elem. intros t Ht.
  by eapply task_last_agree.
Qed.

Lemma cascade_failed_test stages ts :
  tasks_present ts stages →
  for_each (λ failed t,
      b ← last_attempt_is is_failed stages (tt_stage t) (tt_partition t);
      Returns (failed || b)) false ts =
    Returns (existsb (task_last is_failed stages) ts).
Proof.
  intros Hpr.
  assert (∀ b, for_each (λ failed t,
      b ← last_attempt_is is_failed stages (tt_stage t) (tt_partition t);
      Returns (failed || b)) b ts =
    Returns (b || existsb (task_last is_failed stages) ts)) as Hgen; [|by apply Hgen].
  induction ts as [|t ts IH]; intros b; simpl; [by rewrite orb_false_r|].
  rewrite last_attempt_is_task by (apply Hpr; set_solver). simpl.
  rewrite IH by (intros t' Ht'; apply Hpr; set_solver). by rewrite orb_assoc.
Qed.

Definition failing_regions (job : JobDescriptor) : list TaskRegionTopology :=
  selected (region_has is_failed) (jd_stages job) (jt_regions (jd_topology job)).

Definition cascade_tasks (job : JobDescriptor) : list TaskTopology :=
  failing_regions job ≫= rt_tasks.

Lemma total_cascade job :
  wf_job job →
  cascade_cancel_task_attempts now job_id job ⇓ λ '(job', actions),
    ∃ stages', job' = jd_with_stages job stages' ∧
      tasks_rewritten (cancel_attempts now) (jd_stages job) (cascade_tasks job) stages' ∧
      actions = tasks_output cancel_output (jd_stages job) (cascade_tasks job).
Proof.
  intros Hw. unfold cascade_cancel_task_attempts. apply total_bind.
  destruct (wj_region_tasks _ Hw) as [Hnd Hall].
  eapply total_mono; [apply (total_group_loop rt_tasks (cancel_attempts now)
    (region_has is_failed)
    (λ pre post region o, o = tasks_output cancel_output pre (rt_tasks region)))|].
  - intros. by apply region_has_agree.
  - intros. subst. symmetry. by apply tasks_output_agree.
  - intros stages actions region _ Hndr Hpr. unfold cascade_region. simpl.
    rewrite cascade_failed_test by done. simpl. fold (region_has is_failed stages region).
    destruct (region_has is_failed stages region); [|done].
    eapply total_mono; [by apply (total_task_loop _ (cancel_attempts now) cancel_output);
      [apply total_cancel_task|..]|].
    intros [stages' actions'] [? ->]. eauto.
  - done.
  - apply wj_present; [done|]. intros t. by rewrite Hall.
  - intros [stages' actions] [Hrw (outs & -> & Houts)]. simpl. exists stages'.
    split_and!; [done..|]. apply Forall2_fmap_eq in Houts as ->.
    unfold cascade_tasks. rewrite tasks_output_bind. by rewrite list_bind_fmap_join.
Qed.
End cascade.

(** ** Extending the job output *)
Section extend.
Context `{DF : DataFusion} (job_id : N) (output : JobOutputManager).

(** The last attempt runs or has succeeded and was not fetched before. *)
Definition fetchable (l : list TaskAttemptDescriptor) : bool :=
  match last l with
  | Some a => is_running_or_succeeded (ta_state a) && negb (ta_job_output_fetched a)
  | None => false
  end.

Definition fetch_last (l : list TaskAttemptDescriptor) : list TaskAttemptDescriptor :=
  if fetchable l then alter attempt_mark_fetched (pred (length l)) l else l.

Definition is_final (tp : JobTopology) (s : nat) : bool :=
  from_option (λ st, bool_decide (stt_consumers st = [])) false (jt_stages tp !! s).

Definition channels_of (g : JobGraph) (s : nat) : nat :=
  from_option (λ stage, dist_channels (st_distribution stage)) 0 (jg_stages g !! s).

Definition fetch_output (g : JobGraph) (t : TaskTopology) (l : list TaskAttemptDescriptor)
    : list JobAction :=
  if fetchable l then
    (λ c, ActExtendJobOutput output
            (MkTaskStreamKey job_id (tt_stage t) (tt_partition t) (pred (length l)) c)
            (jg_schema g)) <$> seq 0 (channels_of g (tt_stage t))
  else [].

Definition stage_final_tasks (tp : JobTopology) (x : nat * Stage) : list TaskTopology :=
  if is_final tp x.1 then stage_tasks x.1 (stage_partitions x.2) else [].

Definition final_tasks (job : JobDescriptor) : list TaskTopology :=
  imap pair (jg_stages (jd_graph job)) ≫= stage_final_tasks (jd_topology job).

Lemma total_extend_output_partition g s stages actions p l :
  attempts_of stages s p = Some l →
  extend_output_partition job_id output (jg_schema g) (channels_of g s) s (stages, actions) p
    ⇓ λ '(stages', actions'),
      updates_task stages s p (fetch_last l) stages' ∧
      actions' = actions ++ fetch_output g (MkTaskTopology s p) l.
Proof.
  intros Hl. unfold extend_output_partition.
  rewrite (stages_task_returns _ _ _ _ Hl). simpl.
  assert (updates_task stages s p l stages) as Hid.
  { split; [done|]. intros s' p'. case_decide; simplify_eq; done. }
  unfold fetch_last, fetch_output, fetchable. simpl.
  destruct (last l) as [a|]; [|by rewrite app_nil_r].
  destruct (is_running_or_succeeded (ta_state a)) eqn:?,
    (ta_job_output_fetched a) eqn:?; simpl; try (split; [done|by rewrite app_nil_r]).
  run_call (by apply total_stages_update). done.
Qed.

Lemma for_each_fmap {S A B} (h : A → B) (f : S → B → Run S) s l :
  for_each f s (h <$> l) = for_each (λ s x, f s (h x)) s l.
Proof.
  revert s. induction l as [|x l IH]; intros s; [done|]. simpl.
  destruct (f s (h x)); simpl; auto.
Qed.

Lemma total_extend_output_stage job stages actions s stage :
  wf_job job → jg_stages (jd_graph job) !! s = Some stage →
  tasks_present (stage_final_tasks (jd_topology job) (s, stage)) stages →
  extend_output_stage job_id output job (stages, actions) s stage ⇓ λ '(stages', actions'),
    tasks_rewritten fetch_last stages (stage_final_tasks (jd_topology job) (s, stage)) stages' ∧
    actions' = actions ++ tasks_output (fetch_output (jd_graph job)) stages
                            (stage_final_tasks (jd_topology job) (s, stage)).
Proof.
  intros Hw Hs. unfold extend_output_stage, stage_final_tasks, is_final. simpl.
  destruct (lookup_lt_is_Some_2 (jt_stages (jd_topology job)) s) as [st Hst].
  { rewrite (wt_stages _ _ (wj_wf_topology _ Hw)). by eapply lookup_lt_Some. }
  intros Hpr. apply total_bind. eapply total_vec_index; [done|].
  rewrite Hst in *. simpl in *.
  destruct (stt_consumers st) as [|c cs].
  - rewrite bool_decide_true in Hpr |- * by done.
    unfold stage_tasks in *.
    assert (dist_channels (st_distribution stage) = channels_of (jd_graph job) s) as ->.
    { unfold channels_of. by rewrite Hs. }
    pose proof (total_task_loop
      (λ st t, extend_output_partition job_id output (jg_schema (jd_graph job))
                 (channels_of (jd_graph job) (tt_stage t)) (tt_stage t) st (tt_partition t))
      fetch_last (fetch_output (jd_graph job))) as Hloop.
    ospecialize (Hloop _ stages actions (MkTaskTopology s <$> seq 0 (stage_partitions stage)) _ _).
    + intros. destruct t. by apply total_extend_output_partition.
    + apply NoDup_fmap_2; [by intros ?? [= ->]|apply NoDup_seq].
    + done.
    + by rewrite for_each_fmap in Hloop.
  - rewrite bool_decide_false by done. split; [apply tasks_rewritten_nil|].
    by rewrite app_nil_r.
Qed.

Lemma final_tasks_spec job t : wf_job job →
  t ∈ final_tasks job ↔ t ∈ all_tasks (jd_graph job) ∧ is_final (jd_topology job) (tt_stage t) = true.
Proof.
  intros Hw. unfold final_tasks. rewrite list_elem_of_bind, elem_of_all_tasks.
  unfold stage_final_tasks, parts. split.
  - intros ([s stage] & Ht & Hs%elem_of_imap_pair). simpl in *.
    destruct (is_final _ s) eqn:Hf; [|set_solver].
    apply elem_of_stage_tasks in Ht as [-> Hp]. by rewrite Hs.
  - intros [Hp Hf]. destruct (jg_stages (jd_graph job) !! tt_stage t) as [stage|] eqn:Hs;
      simpl in Hp; [|lia].
    exists (tt_stage t, stage). rewrite elem_of_imap_pair. simpl. rewrite Hf.
    split; [|done]. by apply elem_of_stage_tasks.
Qed.

Lemma final_tasks_NoDup job : NoDup (final_tasks job).
Proof.
  unfold final_tasks. apply NoDup_bind.
  - intros [s st] [s' st'] t Hx Hy Ht Ht'. apply elem_of_imap_pair in Hx, Hy.
    unfold stage_final_tasks in *. simpl in *.
    destruct (is_final _ s); [|set_solver]. destruct (is_final _ s'); [|set_solver].
    apply elem_of_stage_tasks in Ht as [<- _], Ht' as [<- _]. congruence.
  - intros [s st] _. unfold stage_final_tasks. simpl. destruct (is_final _ _); [|constructor].
    apply NoDup_fmap_2; [by intros ?? [= ->]|apply NoDup_seq].
  - apply NoDup_imap_pair.
Qed.

Lemma total_extend job context :
  wf_job job → jd_state job = JobRunning output context →
  extend_job_output job_id job ⇓ λ '(job', actions),
    ∃ stages', job' = jd_with_stages job stages' ∧
      tasks_rewritten fetch_last (jd_stages job) (final_tasks job) stages' ∧
      actions = tasks_output (fetch_output (jd_graph job)) (jd_stages job) (final_tasks job).
Proof.
  intros Hw Hrun. unfold extend_job_output. rewrite Hrun. apply total_bind.
  eapply total_mono; [apply (total_group_loop (stage_final_tasks (jd_topology job)) fetch_last
    (λ _ _, true)
    (λ pre post x o, o = tasks_output (fetch_output (jd_graph job)) pre
                           (stage_final_tasks (jd_topology job) x)))|].
  - done.
  - intros. subst. symmetry. by apply tasks_output_agree.
  - intros stages actions [s stage] Hs%elem_of_imap_pair _ Hpr.
    eapply total_mono; [by apply total_extend_output_stage|].
    intros [stages' actions'] [? ->]. eauto.
  - apply final_tasks_NoDup.
  - apply wj_present; [done|]. intros t Ht. by apply final_tasks_spec.
  - intros [stages' actions] [Hrw (outs & -> & Houts)]. simpl. exists stages'.
    apply Forall2_fmap_eq in Houts as ->.
    unfold selected in *. rewrite filter_all in * by done.
    split_and!; [done..|]. rewrite list_bind_fmap_join. unfold final_tasks.
    by rewrite tasks_output_bind.
Qed.
End extend.

(** ** Releasing stages *)
Section release.
Context `{DF : DataFusion} (now : Z) (job_id : N).

(** Every task of stage [c] has succeeded in its last attempt. *)
Definition stage_succeeded (g : JobGraph) (stages : list StageDescriptor) (c : nat) : bool :=
  forallb (task_last is_succeeded stages) (stage_tasks c (parts g c)).

Definition releasable (g : JobGraph) (tp : JobTopology) (stages : list StageDescriptor)
    (s : nat) : bool :=
  match stages !! s, jt_stages tp !! s with
  | Some sd, Some st =>
      bool_decide (sd_state sd = StageActive) && negb (bool_decide (stt_consumers st = []))
      && forallb (stage_succeeded g stages) (stt_consumers st)
  | _, _ => false
  end.

Definition release_below (g : JobGraph) (tp : JobTopology) (stages : list StageDescriptor)
    (n : nat) : list StageDescriptor :=
  imap (λ s sd, if bool_decide (s < n) && releasable g tp stages s
                then sd_deactivate now sd else sd) stages.

Lemma release_below_attempts g tp stages n s p :
  attempts_of (release_below g tp stages n) s p = attempts_of stages s p.
Proof.
  unfold attempts_of, release_below. rewrite list_lookup_imap.
  destruct (stages !! s) as [sd|]; simpl; [|done]. by destruct (_ && _).
Qed.

Lemma release_below_S g tp stages n sd :
  stages !! n = Some sd →
  release_below g tp stages (S n) =
    if releasable g tp stages n
    then <[n := sd_deactivate now sd]> (release_below g tp stages n)
    else release_below g tp stages n.
Proof.
  intros Hn. unfold release_below. apply list_eq. intros i.
  assert (n < length stages) as Hlt by by eapply lookup_lt_Some.
  destruct (decide (i = n)) as [->|Hne].
  - rewrite list_lookup_imap, Hn. simpl. rewrite bool_decide_true by lia. simpl.
    destruct (releasable g tp stages n).
    + rewrite list_lookup_insert_eq; [done|]. by rewrite length_imap.
    + rewrite list_lookup_imap, Hn. simpl. by rewrite bool_decide_false by lia.
  - assert (∀ sd', (if releasable g tp stages n then
        <[n:=sd']> (imap (λ s sd, if bool_decide (s < n) && releasable g tp stages s
                then sd_deactivate now sd else sd) stages)
        else imap (λ s sd, if bool_decide (s < n) && releasable g tp stages s
                then sd_deactivate now sd else sd) stages) !! i =
        imap (λ s sd, if bool_decide (s < n) && releasable g tp stages s
                then sd_deactivate now sd else sd) stages !! i) as ->.
    { intros sd'. destruct (releasable _ _ _ _); [|done].
      by rewrite list_lookup_insert_ne. }
    rewrite !list_lookup_imap. destruct (stages !! i) as [sd'|]; simpl; [|done].
    by rewrite (bool_decide_ext (i < S n) (i < n)) by lia.
Qed.

Lemma consumers_succeeded_pure g stages1 stages cs :
  (∀ s p, attempts_of stages1 s p = attempts_of stages s p) →
  stages_cover g stages → (∀ c, c ∈ cs → c < length (jg_stages g)) →
  run_all (λ c, partitions ← stage_partition_count g c;
                run_all (λ p, last_attempt_is is_succeeded stages1 c p) (seq 0 partitions)) cs =
    Returns (forallb (stage_succeeded g stages) cs).
Proof.
  intros Heq [_ Hc] Hcs. apply run_all_pure. intros c Hin.
  destruct (lookup_lt_is_Some_2 (jg_stages g) c (Hcs c Hin)) as [stage Hst].
  unfold stage_partition_count, vec_index. rewrite Hst. simpl.
  assert (stage_partitions stage = parts g c) as -> by (unfold parts; by rewrite Hst).
  rewrite (run_all_pure _ (λ p, task_last is_succeeded stages (MkTaskTopology c p))).
  - f_equal. unfold stage_succeeded, stage_tasks.
    induction (seq 0 (parts g c)) as [|p l IH]; [done|]. simpl. by rewrite IH.
  - intros p Hp%elem_of_seq0.
    destruct (proj2 (Hc c p) Hp) as [l Hl].
    pose proof (last_attempt_is_task is_succeeded stages1 (MkTaskTopology c p)) as Ht.
    unfold task_last, task_attempts in *. simpl in *. rewrite Heq in Ht. apply Ht. eauto.
Qed.

Lemma total_release job :
  wf_job job →
  clean_up_job_by_stage now job_id job ⇓ λ '(job', actions),
    job' = jd_with_stages job (release_below (jd_graph job) (jd_topology job) (jd_stages job)
                                 (length (jd_stages job))) ∧
    actions = (λ s, ActCleanUpJob job_id (Some s)) <$>
      filter (λ s, releasable (jd_graph job) (jd_topology job) (jd_stages job) s = true)
        (seq 0 (length (jd_stages job))).
Proof.
  intros Hw. unfold clean_up_job_by_stage. apply total_bind.
  set (g := jd_graph job). set (tp := jd_topology job). set (stages := jd_stages job).
  pose proof (wj_wf_topology _ Hw) as Hwt. pose proof (wj_cover _ Hw) as Hcov.
  assert (length (jt_stages tp) = length stages) as Hlen.
  { transitivity (length (jg_stages g)); [apply Hwt|symmetry; apply Hcov]. }
  eapply total_mono; [apply (total_for_each _ (λ pre '(stages1, actions),
    stages1 = release_below g tp stages (length pre) ∧
    actions = (λ s, ActCleanUpJob job_id (Some s)) <$>
      filter (λ s, releasable g tp stages s = true) (seq 0 (length pre))))|].
  - split; [|done]. unfold release_below. symmetry.
    rewrite <-(list_fmap_id stages) at 2. rewrite <-imap_const. by apply imap_ext.
  - intros pre [s st] post [stages1 actions] Heq [-> ->].
    apply imap_pair_split in Heq as [-> Hst].
    rewrite length_app, Nat.add_1_r, seq_S, filter_app, fmap_app, Nat.add_0_l.
    destruct (lookup_lt_is_Some_2 stages (length pre)) as [sd Hsd].
    { apply lookup_lt_Some in Hst. lia. }
    rewrite (release_below_S _ _ _ _ _ Hsd). unfold clean_up_stage.
    assert (release_below g tp stages (length pre) !! length pre = Some sd) as Hsd1.
    { unfold release_below. rewrite list_lookup_imap, Hsd. simpl.
      by rewrite bool_decide_false by lia. }
    apply total_bind. eapply total_vec_index; [done|].
    assert (∀ c, c ∈ stt_consumers st → c < length (jg_stages g)) as Hcs.
    { intros c Hc. rewrite (wt_consumers _ _ Hwt _ _ Hst) in Hc.
      apply list_elem_of_fmap in Hc as ([c' input] & -> & Hf). simpl.
      apply list_elem_of_filter in Hf as [_ Hf].
      apply elem_of_job_edges in Hf as (stage & Hs & _). by eapply lookup_lt_Some. }
    assert (releasable g tp stages (length pre) =
      bool_decide (sd_state sd = StageActive) && negb (bool_decide (stt_consumers st = []))
      && forallb (stage_succeeded g stages) (stt_consumers st)) as Hrel.
    { unfold releasable. by rewrite Hsd, Hst. }
    rewrite filter_cons, filter_nil, Hrel.
    destruct (sd_state sd); simpl; [|by rewrite app_nil_r].
    rewrite (consumers_succeeded_pure g _ stages)
      by (done || intros; apply release_below_attempts). simpl.
    rewrite andb_comm.
    destruct (negb _ && forallb _ _); simpl; [|by rewrite app_nil_r].
    apply total_bind. eapply total_vec_update; [done|]. done.
  - intros [stages1 actions] [-> ->]. simpl. by rewrite length_imap, Hlen.
Qed.
End release.

(** ** The states of the regions *)
Section region_states.
Context `{DF : DataFusion} (max_attempts : nat).

(** The last attempt failed or was canceled and no attempt is left. *)
Definition exhausted (stages : list StageDescriptor) (t : TaskTopology) : bool :=
  from_option (λ l, last_is is_failed_or_canceled l && bool_decide (max_attempts ≤ length l))
    false (task_attempts stages t).

Definition region_state (stages : list StageDescriptor) (region : TaskRegionTopology)
    : TaskRegionState :=
  if existsb (exhausted stages) (rt_tasks region) then RegionFailed
  else if forallb (task_last is_succeeded stages) (rt_tasks region) then RegionSucceeded
  else RegionRunning.

Lemma update_region_pure stages regions r region st :
  tasks_present (rt_tasks region) stages → regions !! r = Some st →
  update_region max_attempts stages regions r region =
    Returns (<[r := region_state stages region]> regions).
Proof.
  intros Hpr Hr. unfold update_region, region_state.
  rewrite (run_any_pure _ (exhausted stages)).
  2:{ intros t Ht. destruct (Hpr t Ht) as [l Hl].
      rewrite (stages_task_returns _ _ _ _ Hl). simpl. unfold exhausted, task_attempts.
      rewrite Hl. simpl. unfold last_is. by destruct (last l). }
  simpl. unfold vec_update. rewrite Hr. destruct (existsb _ _); [done|].
  rewrite (run_all_pure _ (task_last is_succeeded stages)); [done|].
  intros t Ht. by apply last_attempt_is_task, Hpr.
Qed.

Lemma total_update_regions options job :
  task_max_attempts options = max_attempts → wf_job job →
  update_task_regions options job =
    Returns (jd_with_regions job (region_state (jd_stages job) <$> jt_regions (jd_topology job))).
Proof.
  intros Hmax Hw. unfold update_task_regions. rewrite Hmax.
  set (R := jt_regions (jd_topology job)). set (stages := jd_stages job).
  assert (length (jd_regions job) = length R) as Hlen by apply Hw.
  assert (for_each (λ regions '(r, region),
            update_region max_attempts stages regions r region) (jd_regions job)
            (imap pair R) ⇓ λ regions, regions = region_state stages <$> R) as Hloop.
  { eapply total_mono; [apply (total_for_each _ (λ pre regions,
      regions = (region_state stages <$> take (length pre) R) ++
                drop (length pre) (jd_regions job)))|].
    - done.
    - intros pre [r region] post regions Heq ->. apply imap_pair_split in Heq as [-> Hr].
      assert (length pre < length R) as Hlt by by eapply lookup_lt_Some.
      destruct (lookup_lt_is_Some_2 (jd_regions job) (length pre)) as [st Hst]; [lia|].
      assert (length (region_state stages <$> take (length pre) R) = length pre) as Hlt'.
      { rewrite length_fmap, length_take. lia. }
      rewrite (drop_S _ _ _ Hst).
      erewrite update_region_pure.
      + simpl. rewrite length_app, Nat.add_1_r.
        rewrite (take_S_r _ _ _ Hr), fmap_app, <-app_assoc. simpl.
        by rewrite insert_app_r_alt, Hlt', Nat.sub_diag by lia.
      + apply wj_present; [done|]. intros t Ht. eapply wj_region_task; [done| |done].
        by eapply list_elem_of_lookup_2.
      + rewrite <-Hlt' at 1. by apply list_lookup_middle.
    - intros regions ->. rewrite length_imap, take_ge, drop_ge, app_nil_r by lia. done. }
  apply total_inv in Hloop as (regions & -> & ->). done.
Qed.
End region_states.

(** ** Scheduling regions *)
Section schedule.
Context `{DF : DataFusion} (now : Z) (job_id : N).

Definition region_done (states : list TaskRegionState) (r : nat) : bool :=
  from_option region_succeeded false (states !! r).

(** The region is not done, its dependencies are, and no task of it is live. *)
Definition schedulable (states : list TaskRegionState) (stages : list StageDescriptor)
    (x : nat * TaskRegionTopology) : bool :=
  negb (region_done states x.1) && forallb (region_done states) (rt_dependencies x.2)
  && negb (region_has is_live stages x.2).

Definition push_new (l : list TaskAttemptDescriptor) : list TaskAttemptDescriptor :=
  l ++ [attempt_new now].

Definition scheduled_regions (job : JobDescriptor) : list (nat * TaskRegionTopology) :=
  selected (schedulable (jd_regions job)) (jd_stages job)
    (imap pair (jt_regions (jd_topology job))).

Definition scheduled_tasks (job : JobDescriptor) : list TaskTopology :=
  scheduled_regions job ≫= rt_tasks ∘ snd.

Lemma total_push_attempts stages ts :
  NoDup ts → tasks_present ts stages →
  for_each (push_attempt now) stages ts ⇓ tasks_rewritten push_new stages ts.
Proof.
  intros Hnd Hpr.
  pose proof (total_task_loop (X := unit)
    (λ '(stages, actions) t, stages' ← push_attempt now stages t; Returns (stages', actions))
    push_new (λ _ _, [])) as Hloop.
  ospecialize (Hloop _ stages [] ts Hnd Hpr).
  { intros st actions t l Hl. run_call (by apply total_stages_update). intros st' Hu.
    split; [exact Hu|by rewrite app_nil_r]. }
  revert Hloop. generalize (@nil unit). intros actions Hloop.
  assert (∀ l stages actions Q,
    for_each (λ '(stages, actions) t, stages' ← push_attempt now stages t;
                Returns (stages', actions)) (stages, actions : list unit) l ⇓ Q →
    for_each (push_attempt now) stages l ⇓ λ st, Q (st, actions)) as Hfst.
  { clear. induction l as [|t l IH]; intros st ac Q; [done|]. simpl.
    destruct (push_attempt now st t); simpl; [|done..]. apply IH. }
  apply Hfst in Hloop. eapply total_mono; [done|]. naive_solver.
Qed.

Lemma total_schedule_region job stages actions r region :
  wf_job job → tasks_present (rt_tasks region) stages →
  jt_regions (jd_topology job) !! r = Some region →
  schedule_region now job_id (jd_graph job) (jd_regions job) (stages, actions) r region
    ⇓ λ '(stages', actions'),
      if schedulable (jd_regions job) stages (r, region) then
        tasks_rewritten push_new stages (rt_tasks region) stages' ∧
        ∃ tr, actions' = actions ++ [ActScheduleTaskRegion tr] ∧
          region_spec job_id (jd_graph job) stages' (rt_tasks region) tr
      else stages' = stages ∧ actions' = actions.
Proof.
  intros Hw Hpr Hr. unfold schedule_region, schedulable. simpl.
  assert (region ∈ jt_regions (jd_topology job)) as Hin by by eapply list_elem_of_lookup_2.
  assert (∀ d, d < length (jt_regions (jd_topology job)) →
     vec_index (jd_regions job) d ≫= (λ s, Returns (region_succeeded s)) =
     Returns (region_done (jd_regions job) d)) as Hdone.
  { intros d Hd. rewrite <-(wj_regions _ Hw) in Hd. apply lookup_lt_is_Some_2 in Hd as [x Hx].
    unfold vec_index, region_done. by rewrite Hx. }
  pose proof (Hdone r (lookup_lt_Some _ _ _ Hr)) as Hrd.
  destruct (vec_index (jd_regions job) r) as [st| |]; simpl in *; [|done..].
  injection Hrd as <-. destruct (region_succeeded st); simpl; [done|].
  rewrite (run_all_pure _ (region_done (jd_regions job))).
  2:{ intros d Hd. apply Hdone. 
      apply (wt_deps _ _ (wj_wf_topology _ Hw) _ _ _ Hr) in Hd
        as (_ & t & _ & _ & t' & _ & _ & _ & _ & (rg & Hd & _)).
      by eapply lookup_lt_Some. }
  simpl. destruct (forallb _ _); simpl; [|done].
  rewrite (run_any_pure _ (task_last is_live stages)).
  2:{ intros t Ht. by apply last_attempt_is_task, Hpr. }
  fold (region_has is_live stages region). simpl.
  destruct (region_has is_live stages region); simpl; [done|].
  apply total_bind. eapply total_mono;
    [apply total_push_attempts; [by eapply wj_region_NoDup|done]|].
  intros stages' Hrw. apply total_bind. eapply total_mono; [apply total_build_task_region|].
  - intros t Ht. split.
    + by eapply elem_of_all_tasks, wj_region_task.
    + destruct Hrw as [_ Ha]. unfold attempted. rewrite Ha.
      destruct (Hpr t Ht) as [l ->]. rewrite decide_True by by destruct t.
      eexists. split; [done|]. unfold push_new. by destruct l.
  - intros tr Htr. simpl. eauto.
Qed.

Lemma total_schedule job :
  wf_job job →
  schedule_task_regions now job_id job ⇓ λ '(job', actions),
    ∃ stages' trs, job' = jd_with_stages job stages' ∧
      tasks_rewritten push_new (jd_stages job) (scheduled_tasks job) stages' ∧
      actions = ActScheduleTaskRegion <$> trs ∧
      Forall2 (λ x tr, region_spec job_id (jd_graph job) stages' (rt_tasks x.2) tr)
        (scheduled_regions job) trs.
Proof.
  intros Hw. unfold schedule_task_regions. apply total_bind.
  destruct (wj_region_tasks _ Hw) as [Hnd Hall].
  rewrite <-(imap_pair_bind rt_tasks) in Hnd, Hall.
  assert (∀ l, ('(_, x) ← l; rt_tasks x) = l ≫= (rt_tasks ∘ @snd nat _)) as Heq.
  { intros l. apply list_bind_ext_elem. by intros []. }
  rewrite Heq in Hnd, Hall.
  eapply total_mono; [apply (total_group_loop (rt_tasks ∘ snd) push_new
    (schedulable (jd_regions job))
    (λ pre post x o, ∃ tr, o = [ActScheduleTaskRegion tr] ∧
       region_spec job_id (jd_graph job) post (rt_tasks x.2) tr))|].
  - intros stages stages' x Hag. unfold schedulable. by rewrite (region_has_agree _ stages).
  - intros s1 s2 s1' s2' x o _ Hag (tr & -> & Htr). exists tr. split; [done|].
    by eapply region_spec_ext.
  - intros stages actions [r region] Hr%elem_of_imap_pair _ Hpr.
    eapply total_mono; [by apply total_schedule_region|]. intros [stages' actions'].
    destruct (schedulable _ _ _); [|done]. intros (? & tr & -> & ?). eauto 10.
  - done.
  - apply wj_present; [done|]. intros t. by rewrite Hall.
  - intros [stages' actions'] (Hrw & outs & -> & Houts). simpl. exists stages'.
    assert (∃ trs, mjoin outs = ActScheduleTaskRegion <$> trs ∧
      Forall2 (λ x tr, region_spec job_id (jd_graph job) stages' (rt_tasks x.2) tr)
        (scheduled_regions job) trs) as (trs & -> & ?); [|eauto 10].
    fold (scheduled_regions job) in Houts. clear -Houts.
    induction Houts as [|x o l outs (tr & -> & Htr) _ (trs & IH & Hf)].
    + by exists [].
    + exists (tr :: trs). rewrite fmap_cons, <-IH. split; [done|by constructor].
Qed.
End schedule.
