(* ===== verification/SchedulerSystem.v ===== *)
(** * The job scheduler: invariant and behaviour of [refresh_job] *)

From S2P Require Import Prelude Ids JobGraph Topology TopologyFacts JobState JobScheduler AttemptsFacts RegionFacts RefreshFacts.
Section invariants.
Context `{DF : DataFusion}.

(** ** The invariant under the steps *)

Lemma wf_job_evolve job stages' :
  wf_job job → stages_evolve (jd_stages job) stages' → wf_job (jd_with_stages job stages').
Proof.
  intros [Hg Ht Hc Hr Hu Hs] Hev. pose proof Hev as [Hlen Hevo].
  split; [done|done| |done|..]; simpl.
  - destruct Hc as [Hl Hc]. split; [congruence|]. intros s p. rewrite <-Hc.
    specialize (Hevo s p). by destruct (attempts_of (jd_stages job) s p), (attempts_of stages' s p).
  - intros region t t' Hreg H1 H2. unfold task_attempts.
    rewrite !(stages_evolve_length _ _ _ _ Hev). by apply (Hu region).
  - intros s p l' i a' Hl' Hi Hlt. specialize (Hevo s p). rewrite Hl' in Hevo.
    destruct (attempts_of (jd_stages job) s p) as [l|] eqn:Hl; [|done].
    destruct (Forall2_lookup_r _ _ _ _ _ Hevo Hi) as (a & Ha & Hae).
    apply Forall2_length in Hevo. rewrite (ae_terminal _ _ Hae); [|].
    + eapply (Hs s p l i); [done|done|lia].
    + eapply (Hs s p l i); [done|done|lia].
Qed.

Lemma same_attempts_evolve stages stages' :
  length stages' = length stages →
  (∀ s p, attempts_of stages' s p = attempts_of stages s p) → stages_evolve stages stages'.
Proof.
  intros Hl Ha. split; [done|]. intros s p. rewrite Ha.
  destruct (attempts_of stages s p); [by apply reflexivity|done].
Qed.

Lemma wf_job_same job job' :
  jd_graph job' = jd_graph job → jd_topology job' = jd_topology job →
  jd_stages job' = jd_stages job → length (jd_regions job') = length (jd_regions job) →
  wf_job job → wf_job job'.
Proof. intros H1 H2 H3 H4 []. split; rewrite ?H1, ?H2, ?H3, ?H4; done. Qed.

Lemma fetch_last_evolve l : Forall2 attempt_evolves l (fetch_last l).
Proof.
  unfold fetch_last. destruct (fetchable l); [|by apply reflexivity].
  apply Forall2_alter_evolves, attempt_mark_fetched_evolves.
Qed.

Lemma release_evolve now g tp stages n :
  stages_evolve stages (release_below now g tp stages n).
Proof.
  apply same_attempts_evolve; [apply length_imap|]. intros. apply release_below_attempts.
Qed.

Lemma scheduled_tasks_region job region t t' :
  wf_job job → region ∈ jt_regions (jd_topology job) →
  t ∈ rt_tasks region → t' ∈ rt_tasks region →
  t ∈ scheduled_tasks job → t' ∈ scheduled_tasks job.
Proof.
  intros Hw Hreg Ht Ht' Hs. unfold scheduled_tasks in *.
  apply list_elem_of_bind in Hs as ([r region'] & Hin & Hsel). simpl in *.
  apply list_elem_of_bind. exists (r, region'). split; [|done]. simpl.
  unfold scheduled_regions, selected in Hsel.
  apply list_elem_of_filter in Hsel as [_ Hr%elem_of_imap_pair].
  apply list_elem_of_lookup in Hreg as [r0 Hr0].
  assert (r = r0) as ->; [|by simplify_eq].
  eapply (in_region_unique (jt_regions (jd_topology job)) t).
  - rewrite (wt_tasks _ _ (wj_wf_topology _ Hw)). apply NoDup_all_tasks.
  - by exists region'.
  - by exists region.
Qed.

Lemma scheduled_task_idle job s p l a :
  MkTaskTopology s p ∈ scheduled_tasks job → attempts_of (jd_stages job) s p = Some l →
  last l = Some a → is_terminal (ta_state a) = true.
Proof.
  intros Hs Hl Ha. apply list_elem_of_bind in Hs as ([r region] & Hin & Hsel).
  apply list_elem_of_filter in Hsel as [Hsel _]. unfold schedulable in Hsel. simpl in *.
  apply andb_true_iff in Hsel as [_ Hsel]. apply negb_true_iff in Hsel.
  unfold region_has in Hsel. rewrite existsb_false in Hsel. specialize (Hsel _ Hin).
  unfold task_last, task_attempts, last_is, is_live in Hsel. simpl in Hsel.
  rewrite Hl in Hsel. simpl in Hsel. rewrite Ha in Hsel. simpl in Hsel.
  by apply negb_false_iff.
Qed.

Lemma wf_job_push now job stages' :
  wf_job job → tasks_rewritten (push_new now) (jd_stages job) (scheduled_tasks job) stages' →
  wf_job (jd_with_stages job stages').
Proof.
  intros Hw Hrw. pose proof Hrw as [Hm Ha].
  split; simpl; [apply Hw..| |apply Hw| |].
  - by eapply tasks_rewritten_cover, Hw.
  - intros region t t' Hreg Ht Ht'. unfold task_attempts. rewrite !Ha.
    pose proof (wj_uniform _ Hw region t t' Hreg Ht Ht') as Hu. unfold task_attempts in Hu.
    destruct t as [s p], t' as [s' p']. simpl in *.
    rewrite (decide_ext _ (MkTaskTopology s' p' ∈ scheduled_tasks job)).
    2:{ split; apply (scheduled_tasks_region job region); done. }
    case_decide; [|done]. unfold push_new.
    destruct (attempts_of _ s p), (attempts_of _ s' p'); simplify_eq/=; [|done].
    rewrite !length_app. congruence.
  - intros s p l' i a' Hl' Hi Hlt. rewrite Ha in Hl'.
    destruct (attempts_of (jd_stages job) s p) as [l|] eqn:Hl; [|by case_decide].
    case_decide as Hd; simplify_eq/=; [|by eapply (wj_superseded _ Hw)].
    unfold push_new in *. rewrite length_app in Hlt. simpl in Hlt.
    rewrite lookup_app_l in Hi by lia.
    destruct (decide (S i < length l)) as [Hi'|Hi']; [by eapply (wj_superseded _ Hw)|].
    eapply scheduled_task_idle; [done|done|]. rewrite last_lookup.
    by replace (pred (length l)) with i by lia.
Qed.
End invariants.

Section refresh.
Context `{DF : DataFusion} `{HO : HashOrder} `{FC : ForeignCauses}.

(** ** What refreshing a running job does *)

(** The job once the stages are released and the region states derived. *)
Definition settled (options : JobSchedulerOptions) (now : Z) (job : JobDescriptor)
    (stages : list StageDescriptor) : JobDescriptor :=
  let stages := release_below now (jd_graph job) (jd_topology job) stages
                  (length stages) in
  jd_with_regions (jd_with_stages job stages)
    (region_state (task_max_attempts options) stages <$> jt_regions (jd_topology job)).

Definition release_actions (job_id : N) (job : JobDescriptor) (stages : list StageDescriptor)
    : list JobAction :=
  (λ s, ActCleanUpJob job_id (Some s)) <$>
    filter (λ s, releasable (jd_graph job) (jd_topology job) stages s = true)
      (seq 0 (length stages)).

(** [stages1] and [stages2] are the stages after the cascade and after the
    output was extended. *)
Record refreshed (options : JobSchedulerOptions) (now : Z) (job_id : N)
    (output : JobOutputManager) (job job' : JobDescriptor) (actions : list JobAction)
    (stages1 stages2 : list StageDescriptor) (actions4 : list JobAction) : Prop := {
  rf_cascade :
    tasks_rewritten (cancel_attempts now) (jd_stages job) (cascade_tasks job) stages1;
  rf_extend : tasks_rewritten fetch_last stages1 (final_tasks job) stages2;
  rf_actions : actions =
    tasks_output (cancel_output job_id) (jd_stages job) (cascade_tasks job) ++
    tasks_output (fetch_output job_id output (jd_graph job)) stages1 (final_tasks job) ++
    release_actions job_id job stages2 ++ actions4;
  rf_wf : wf_job (settled options now job stages2);
  rf_outcome :
    let job3 := settled options now job stages2 in
    if existsb region_failed (jd_regions job3) then
      job' = jd_stop job3 JobFailed now ∧
      actions4 = [ActFailJobOutput output (infer_job_failure_cause (jd_stages job3))]
    else if forallb region_succeeded (jd_regions job3) then
      job' = jd_with_state job3 JobDraining ∧ actions4 = []
    else ∃ stages4 trs,
      job' = jd_with_stages job3 stages4 ∧
      tasks_rewritten (push_new now) (jd_stages job3) (scheduled_tasks job3) stages4 ∧
      actions4 = ActScheduleTaskRegion <$> trs ∧
      Forall2 (λ x tr, region_spec job_id (jd_graph job) stages4 (rt_tasks x.2) tr)
        (scheduled_regions job3) trs
}.

Lemma final_tasks_stages job stages : final_tasks (jd_with_stages job stages) = final_tasks job.
Proof. done. Qed.

Lemma total_refresh options now job_id job output context :
  wf_job job → jd_state job = JobRunning output context →
  refresh_job_descriptor options now job_id job ⇓ λ '(job', actions),
    ∃ stages1 stages2 actions4,
      refreshed options now job_id output job job' actions stages1 stages2 actions4.
Proof.
  intros Hw Hrun. unfold refresh_job_descriptor. rewrite Hrun.
  run_call (by apply total_cascade).
  intros [job1 a1] (stages1 & -> & Hrw1 & ->).
  assert (wf_job (jd_with_stages job stages1)) as Hw1.
  { apply wf_job_evolve; [done|]. eapply tasks_rewritten_evolve; [|done].
    intros. apply cancel_attempts_evolve. }
  run_call (by eapply (total_extend job_id output)).
  intros [job2 a2] (stages2 & -> & Hrw2 & ->). simpl in Hrw2.
  assert (wf_job (jd_with_stages job stages2)) as Hw2.
  { apply (wf_job_evolve (jd_with_stages job stages1)); [done|].
    eapply tasks_rewritten_evolve; [|done]. intros. apply fetch_last_evolve. }
  run_call (by apply total_release).
  intros [job3 a3] [-> ->].
  set (stages3 := release_below now _ _ _ _).
  assert (wf_job (jd_with_stages job stages3)) as Hw3.
  { apply (wf_job_evolve _ stages3 Hw2), release_evolve. }
  assert (wf_job (settled options now job stages2)) as Hw4.
  { eapply wf_job_same; [..|exact Hw3]; try done.
    simpl. rewrite length_fmap. symmetry. apply Hw. }
  apply total_bind. eapply total_intro; [by apply total_update_regions|].
  change (jd_with_regions _ _) with (settled options now job stages2).
  destruct (existsb _ _) eqn:Hf; [|destruct (forallb _ _) eqn:Hs].
  - eexists stages1, stages2, _. split; [done|done|done|done|]. cbv zeta. by rewrite Hf.
  - exists stages1, stages2, []. split; [done|done|by rewrite !app_nil_r|done|].
    cbv zeta. by rewrite Hf, Hs.
  - run_call (by apply total_schedule).
    intros [job5 a4] (stages4 & trs & -> & Hrw4 & -> & Htrs).
    eexists stages1, stages2, _. split; [done|done|done|done|]. cbv zeta. rewrite Hf, Hs.
    eauto 10.
Qed.

Lemma refreshed_wf options now job_id output job job' actions stages1 stages2 actions4 :
  refreshed options now job_id output job job' actions stages1 stages2 actions4 → wf_job job'.
Proof.
  intros [_ _ _ Hw Hout]. cbv zeta in Hout.
  destruct (existsb _ _); [|destruct (forallb _ _)].
  - destruct Hout as [-> _]. by eapply wf_job_same; [..|exact Hw].
  - destruct Hout as [-> _]. by eapply wf_job_same; [..|exact Hw].
  - destruct Hout as (stages4 & trs & -> & Hrw & _). by eapply wf_job_push.
Qed.

(** ** Consequences *)

Definition attempts_bounded (max_attempts : nat) (stages : list StageDescriptor) : Prop :=
  ∀ s p l, attempts_of stages s p = Some l → length l ≤ 1 `max` max_attempts.

Lemma attempts_bounded_evolve n stages stages' :
  stages_evolve stages stages' → attempts_bounded n stages → attempts_bounded n stages'.
Proof.
  intros Hev Hb s p l' Hl'. pose proof (stages_evolve_length _ _ s p Hev) as Hlen.
  rewrite Hl' in Hlen. destruct (attempts_of stages s p) as [l|] eqn:Hl; simpl in Hlen; [|done].
  injection Hlen as ->. by eapply Hb.
Qed.

(** A task is scheduled again only while it has attempts left. *)
Lemma scheduled_task_bound n job t l :
  wf_job job → jd_regions job = region_state n (jd_stages job) <$> jt_regions (jd_topology job) →
  existsb region_failed (jd_regions job) = false →
  t ∈ scheduled_tasks job → task_attempts (jd_stages job) t = Some l →
  length l = 0 ∨ length l < n.
Proof.
  intros Hw Hreg Hnf Ht Hl. apply list_elem_of_bind in Ht as ([r region] & Hin & Hsel).
  apply list_elem_of_filter in Hsel as [Hsel Hr%elem_of_imap_pair].
  unfold schedulable in Hsel. simpl in *.
  apply andb_true_iff in Hsel as [[Hd _]%andb_true_iff Hlive].
  apply negb_true_iff in Hd, Hlive. unfold region_done in Hd. rewrite existsb_false in Hnf.
  assert (jd_regions job !! r = Some (region_state n (jd_stages job) region)) as Hst
    by (rewrite Hreg, list_lookup_fmap, Hr; done).
  rewrite Hst in Hd. specialize (Hnf _ (list_elem_of_lookup_2 _ _ _ Hst)).
  unfold region_state in Hd, Hnf. simpl in Hd.
  destruct (existsb _ _) eqn:Hex; [done|]. rewrite existsb_false in Hex.
  destruct (forallb _ _) eqn:Hall; [done|]. apply not_true_iff_false in Hall.
  destruct (decide (Forall (λ t, task_last is_succeeded (jd_stages job) t = true)
    (rt_tasks region))) as [Hfa|Hfa].
  { exfalso. apply Hall, forallb_Forall. by apply Forall_forall. }
  apply not_Forall_Exists in Hfa; [|apply _].
  apply Exists_exists in Hfa as (t' & Ht' & Hns%not_true_is_false).
  assert (region ∈ jt_regions (jd_topology job)) as Hrin by by eapply list_elem_of_lookup_2.
  pose proof (wj_uniform _ Hw region t t' Hrin Hin Ht') as Hlen. rewrite Hl in Hlen.
  specialize (Hex t' Ht'). unfold region_has in Hlive. rewrite existsb_false in Hlive.
  specialize (Hlive t' Ht'). unfold exhausted, task_last, last_is, is_live in *.
  destruct (task_attempts (jd_stages job) t') as [l'|] eqn:Hl'; [|done]. simpl in *.
  injection Hlen as ->.
  destruct (last l') as [a|] eqn:Ha; simpl in *; [|apply last_None in Ha as ->; by left].
  right. destruct (ta_state a); simpl in *; try done;
    apply bool_decide_eq_false in Hex; lia.
Qed.

Lemma refreshed_stages_evolve options now job_id output job job' actions stages1 stages2 actions4 :
  refreshed options now job_id output job job' actions stages1 stages2 actions4 →
  stages_evolve (jd_stages job) (jd_stages (settled options now job stages2)).
Proof.
  intros [H1 H2 _ _ _]. transitivity stages1; [|transitivity stages2].
  - eapply tasks_rewritten_evolve; [|done]. intros. apply cancel_attempts_evolve.
  - eapply tasks_rewritten_evolve; [|done]. intros. apply fetch_last_evolve.
  - apply release_evolve.
Qed.

(** The outcome, without the actions: the stages are those of the settled job
    or have fresh attempts for the scheduled tasks. *)
Lemma refreshed_stages options now job_id output job job' actions stages1 stages2 actions4 :
  refreshed options now job_id output job job' actions stages1 stages2 actions4 →
  let job3 := settled options now job stages2 in
  jd_graph job' = jd_graph job ∧ jd_topology job' = jd_topology job ∧
  jd_created_at job' = jd_created_at job ∧ jd_regions job' = jd_regions job3 ∧
  (jd_stages job' = jd_stages job3 ∨
   existsb region_failed (jd_regions job3) = false ∧ jd_state job' = jd_state job ∧
   tasks_rewritten (push_new now) (jd_stages job3) (scheduled_tasks job3) (jd_stages job')).
Proof.
  intros [_ _ _ _ Hout]. cbv zeta in *.
  destruct (existsb _ _) eqn:Hf; [|destruct (forallb _ _)].
  - destruct Hout as [-> _]. split_and!; auto.
  - destruct Hout as [-> _]. split_and!; auto.
  - destruct Hout as (stages4 & trs & -> & Hrw & _). split_and!; auto.
Qed.

Lemma refreshed_state options now job_id output job job' actions stages1 stages2 actions4 :
  refreshed options now job_id output job job' actions stages1 stages2 actions4 →
  jd_state job' = JobFailed ∨ jd_state job' = JobDraining ∨ jd_state job' = jd_state job.
Proof.
  intros [_ _ _ _ Hout]. cbv zeta in *.
  destruct (existsb _ _) eqn:Hf; [|destruct (forallb _ _)].
  - destruct Hout as [-> _]. auto.
  - destruct Hout as [-> _]. auto.
  - destruct Hout as (stages4 & trs & -> & Hrw & _). auto.
Qed.

Lemma refreshed_bounded options now job_id output job job' actions stages1 stages2 actions4 :
  refreshed options now job_id output job job' actions stages1 stages2 actions4 →
  attempts_bounded (task_max_attempts options) (jd_stages job) →
  attempts_bounded (task_max_attempts options) (jd_stages job').
Proof.
  intros Hrf Hb. pose proof (refreshed_stages_evolve _ _ _ _ _ _ _ _ _ _ Hrf) as Hev.
  apply (attempts_bounded_evolve _ _ _ Hev) in Hb.
  destruct (refreshed_stages _ _ _ _ _ _ _ _ _ _ Hrf) as (_ & _ & _ & _ & [->|(Hnf & _ & Hrw)]);
    [done|].
  intros s p l' Hl'. destruct Hrw as [_ Ha]. rewrite Ha in Hl'.
  destruct (attempts_of (jd_stages (settled _ _ _ _)) s p) as [l|] eqn:Hl; [|by case_decide].
  case_decide as Hd; simplify_eq/=; [|by eapply Hb].
  pose proof (scheduled_task_bound (task_max_attempts options) _ (MkTaskTopology s p) l
    (rf_wf _ _ _ _ _ _ _ _ _ _ Hrf) eq_refl Hnf Hd Hl) as Hbd.
  unfold push_new. rewrite length_app. simpl. lia.
Qed.

Lemma refreshed_evolve options now job_id output job job' actions stages1 stages2 actions4 :
  refreshed options now job_id output job job' actions stages1 stages2 actions4 →
  tasks_evolve (jd_stages job) (jd_stages job').
Proof.
  intros Hrf. pose proof (refreshed_stages_evolve _ _ _ _ _ _ _ _ _ _ Hrf) as Hev.
  apply stages_evolve_tasks in Hev. etrans; [exact Hev|].
  destruct (refreshed_stages _ _ _ _ _ _ _ _ _ _ Hrf) as (_ & _ & _ & _ & [->|(_ & _ & Hrw)]);
    [done|].
  eapply tasks_rewritten_tasks_evolve; [|done]. intros. apply attempts_evolve_push.
Qed.
End refresh.

(** ** The job scheduler as a system

    The operations the driver calls, as steps of a transition system, with the
    invariant of every reachable scheduler. *)

(** What the scheduler relies on in the planner: stages are emitted in
    topological order. *)
Class PlannerLaws `{DF : DataFusion} (PL : Planner) :=
  planner_wf : ∀ plan g, job_graph_try_new plan = Ok g → wf_graph g.

(** ** Operations on one job *)
Section jobs.
Context `{DF : DataFusion} `{HO : HashOrder} `{FC : ForeignCauses}.

Lemma alter_attempt_attempts f stages key s p :
  attempts_of (alter_attempt f stages key) s p =
    if decide ((s, p) = (tk_stage key, tk_partition key))
    then alter f (tk_attempt key) <$> attempts_of stages s p
    else attempts_of stages s p.
Proof.
  unfold attempts_of, alter_attempt. rewrite list_lookup_alter.
  destruct (decide (tk_stage key = s)) as [<-|Hne].
  - destruct (stages !! tk_stage key) as [sd|]; simpl; [|by case_decide].
    rewrite list_lookup_alter.
    destruct (decide (tk_partition key = p)) as [<-|Hnp].
    + rewrite (decide_True (P := (_, _) = _)) by done. by destruct (sd_tasks sd !! _).
    + by rewrite decide_False by congruence.
  - by rewrite decide_False by congruence.
Qed.

Lemma alter_attempt_evolve f stages key :
  (∀ a, attempt_evolves a (f a)) → stages_evolve stages (alter_attempt f stages key).
Proof.
  intros Hf. split; [apply length_alter|]. intros s p. rewrite alter_attempt_attempts.
  case_decide; destruct (attempts_of stages s p); simpl; try done.
  by apply Forall2_alter_evolves.
Qed.

Lemma sd_release_evolve now stages : stages_evolve stages (sd_release now <$> stages).
Proof.
  apply same_attempts_evolve; [apply length_fmap|]. intros s p. unfold attempts_of.
  rewrite list_lookup_fmap. by destruct (stages !! s).
Qed.

Lemma sd_stop_attempts now stages s p :
  attempts_of (sd_stop now <$> stages) s p = cancel_attempts now <$> attempts_of stages s p.
Proof.
  unfold attempts_of. rewrite list_lookup_fmap. destruct (stages !! s) as [sd|]; [|done].
  simpl. unfold sd_stop. destruct (sd_state sd); simpl; rewrite list_lookup_fmap;
    by destruct (sd_tasks sd !! p).
Qed.

Lemma sd_stop_evolve now stages : stages_evolve stages (sd_stop now <$> stages).
Proof.
  split; [apply length_fmap|]. intros s p. rewrite sd_stop_attempts.
  destruct (attempts_of stages s p); [|done]. apply cancel_attempts_evolve.
Qed.

Lemma new_stages_attempts now g s p :
  attempts_of (stage_descriptor_new now <$> jg_stages g) s p =
    if decide (p < parts g s) then Some [] else None.
Proof.
  unfold attempts_of, parts. rewrite list_lookup_fmap.
  destruct (jg_stages g !! s) as [stage|]; simpl; [|done].
  case_decide; [by rewrite lookup_replicate_2|].
  rewrite lookup_ge_None_2; [done|]. rewrite length_replicate. lia.
Qed.

Lemma total_job_descriptor now g state :
  wf_graph g →
  job_descriptor_try_new now g state ⇓ λ r,
    match r with
    | Ok job => wf_job job ∧ jd_state job = state ∧ jd_graph job = g ∧
                ∀ s p l, attempts_of (jd_stages job) s p = Some l → l = []
    | Err _ => True
    end.
Proof.
  intros Hg. unfold job_descriptor_try_new. run_call (by apply total_job_topology). intros [tp|e] Htp; simpl; [|done].
  assert (∀ s p l, attempts_of (stage_descriptor_new now <$> jg_stages g) s p = Some l → l = [])
    as Hnil.
  { intros s p l. rewrite new_stages_attempts. case_decide; congruence. }
  split_and!; [|done|done|done]. split; simpl; [done|done| |by rewrite length_replicate|..].
  - split; [apply length_fmap|]. intros s p. rewrite new_stages_attempts.
    case_decide as Hp; split; intros Hs; [done|by eexists|by destruct Hs|done].
  - intros region t t' Hreg Ht Ht'. unfold task_attempts. rewrite !new_stages_attempts.
    assert (∀ t, t ∈ rt_tasks region → tt_partition t < parts g (tt_stage t)) as Hin.
    { intros u Hu. apply elem_of_all_tasks. destruct Htp as [Htp _].
      rewrite <-(wt_tasks _ _ Htp). unfold region_task_list.
      rewrite list_bind_fmap_join. apply list_elem_of_bind. eauto. }
    by rewrite !decide_True by auto.
  - intros s p l i a Hl. by rewrite (Hnil _ _ _ Hl).
Qed.
End jobs.

(** ** The system *)
Section system.
Context `{DF : DataFusion} `{HO : HashOrder} `{FC : ForeignCauses} `{PL : !Planner}.

Inductive sched_step : JobScheduler → list JobAction → JobScheduler → Prop :=
| StepAccept self now plan context r self' spawned :
    accept_job self now plan context = Returns (r, self', spawned) →
    sched_step self [] self'
| StepUpdate self now key state message cause :
    sched_step self [] (update_task self now key state message cause)
| StepRefresh self now job_id self' actions :
    refresh_job self now job_id = Returns (self', actions) →
    sched_step self actions self'
| StepCleanUp self now job_id self' actions :
    clean_up_job self now job_id = (self', actions) →
    sched_step self actions self'
| StepStop self now : sched_step self [] (job_scheduler_stop self now).

(** The schedulers reachable from a fresh one, with the actions emitted. *)
Inductive sched_trace (options : JobSchedulerOptions) : list JobAction → JobScheduler → Prop :=
| TraceNew : sched_trace options [] (job_scheduler_new options)
| TraceStep tr self actions self' :
    sched_trace options tr self → sched_step self actions self' →
    sched_trace options (tr ++ actions) self'.

(** ** The invariant *)
Record job_ok (options : JobSchedulerOptions) (j : N) (job : JobDescriptor) : Prop := {
  jo_wf : wf_job job;
  jo_bounded : attempts_bounded (task_max_attempts options) (jd_stages job);
  jo_output : ∀ output context,
    jd_state job = JobRunning output context → output = MkJobOutputManager j
}.

Record sched_inv (self : JobScheduler) : Prop := {
  si_wf : im_wf (js_jobs self);
  si_fresh : ∀ j job, im_get j (js_jobs self) = Some job →
    (j < next_value (js_job_id_generator self))%N;
  si_jobs : ∀ j job, im_get j (js_jobs self) = Some job → job_ok (js_options self) j job
}.

(** How a job may change. *)
Record job_evolves (job job' : JobDescriptor) : Prop := {
  je_graph : jd_graph job' = jd_graph job;
  je_created : jd_created_at job' = jd_created_at job;
  je_tasks : tasks_evolve (jd_stages job) (jd_stages job');
  je_running : ∀ output context,
    jd_state job' = JobRunning output context → jd_state job = JobRunning output context
}.

#[global] Instance job_evolves_preorder : PreOrder job_evolves.
Proof.
  split; [by split|]. intros a b c [g1 c1 t1 r1] [g2 c2 t2 r2].
  split; [congruence..|by etrans|eauto].
Qed.

Definition sched_evolves (self self' : JobScheduler) : Prop :=
  js_options self' = js_options self ∧
  ∀ j job, im_get j (js_jobs self) = Some job →
    ∃ job', im_get j (js_jobs self') = Some job' ∧ job_evolves job job'.

Lemma sched_evolves_refl self : sched_evolves self self.
Proof. split; [done|]. intros j job Hj. exists job. split; [done|by apply reflexivity]. Qed.

(** Replacing one job by a good one. *)
Lemma sched_inv_replace self j job job' :
  sched_inv self → im_get j (js_jobs self) = Some job →
  job_ok (js_options self) j job' → job_evolves job job' →
  let self' := js_with_jobs self (im_insert j job' (js_jobs self)) in
  sched_inv self' ∧ sched_evolves self self'.
Proof.
  intros [Hwf Hf Hj] Hg Hok Hev. simpl. split; [split; simpl|].
  - auto with total.
  - intros j' job0. rewrite im_get_insert. case_decide; [subst; intros _; by eapply Hf|eauto].
  - intros j' job0. rewrite im_get_insert. case_decide; [subst; by intros [= <-]|eauto].
  - split; [done|]. simpl. intros j' job0 Hj0. rewrite im_get_insert. case_decide; simplify_eq.
    + eauto.
    + exists job0. split; [done|by apply reflexivity].
Qed.

Lemma job_ok_evolve options j job stages' state regions created stopped :
  job_ok options j job → stages_evolve (jd_stages job) stages' →
  length regions = length (jd_regions job) →
  (∀ o c, state = JobRunning o c → jd_state job = JobRunning o c) →
  job_ok options j (MkJobDescriptor (jd_graph job) (jd_topology job) stages' regions
                      state created stopped).
Proof.
  intros [Hw Hb Ho] Hev Hl Hst. split; simpl.
  - by eapply wf_job_same; [..|exact (wf_job_evolve _ _ Hw Hev)].
  - by eapply attempts_bounded_evolve.
  - intros o c ->. by eapply Ho, Hst.
Qed.

(** ** The steps preserve the invariant *)

Lemma total_refresh_job self now job_id :
  sched_inv self →
  refresh_job self now job_id ⇓ λ '(self', actions),
    sched_inv self' ∧ sched_evolves self self' ∧
    (self' = self ∧ actions = [] ∨
     ∃ job job' context stages1 stages2 actions4,
       im_get job_id (js_jobs self) = Some job ∧
       im_get job_id (js_jobs self') = Some job' ∧
       jd_state job = JobRunning (MkJobOutputManager job_id) context ∧ wf_job job ∧
       refreshed (js_options self) now job_id (MkJobOutputManager job_id) job job' actions
         stages1 stages2 actions4).
Proof.
  intros Hinv. unfold refresh_job.
  destruct (im_get job_id (js_jobs self)) as [job|] eqn:Hj.
  2:{ simpl. split_and!; [done|apply sched_evolves_refl|auto]. }
  pose proof (si_jobs _ Hinv _ _ Hj) as Hok. apply total_bind.
  destruct (jd_state job) as [output context| | | |] eqn:Hst.
  2-5: unfold refresh_job_descriptor; rewrite Hst; simpl;
    assert (js_with_jobs self (im_insert job_id job (js_jobs self)) = self) as ->;
    [destruct self; unfold js_with_jobs; simpl in *; f_equal; by apply im_insert_same|];
    (split_and!; [done|apply sched_evolves_refl|auto]).
  pose proof (jo_output _ _ _ Hok _ _ Hst) as ->.
  eapply total_mono; [eapply total_refresh; [apply Hok|done]|].
  intros [job' actions] (stages1 & stages2 & actions4 & Hrf). simpl.
  destruct (refreshed_stages _ _ _ _ _ _ _ _ _ _ Hrf) as (Hg & Ht & Hc & _).
  assert (∀ o c, jd_state job' = JobRunning o c → jd_state job = JobRunning o c) as Hrun.
  { intros o c Hs. destruct (refreshed_state _ _ _ _ _ _ _ _ _ _ Hrf) as [H|[H|H]]; congruence. }
  destruct (sched_inv_replace self job_id job job') as [Hinv' Hev'].
  - done.
  - done.
  - split; [by eapply refreshed_wf|eapply refreshed_bounded, Hok; done|].
    intros o c Ho%Hrun. eapply Hok, Ho.
  - split; [done|done|by eapply refreshed_evolve|done].
  - split_and!; [done|done|]. right. exists job, job', context, stages1, stages2, actions4.
    split_and!; [done| |done|apply Hok|done]. simpl. apply im_get_insert_eq.
Qed.

Lemma update_task_step self now key state message cause :
  sched_inv self →
  let self' := update_task self now key state message cause in
  sched_inv self' ∧ sched_evolves self self'.
Proof.
  intros Hinv. unfold update_task.
  destruct (find_attempt self key) as [a|]; [|split; [done|apply sched_evolves_refl]].
  destruct (im_get (tk_job_id key) (js_jobs self)) as [job|] eqn:Hj;
    [|split; [done|apply sched_evolves_refl]].
  assert (stages_evolve (jd_stages job)
    (alter_attempt (attempt_update now state message cause) (jd_stages job) key)) as Hev
    by (apply alter_attempt_evolve; intros; apply attempt_update_evolves).
  apply (sched_inv_replace _ _ job); [done|done| |].
  - by apply job_ok_evolve; [by eapply si_jobs|..].
  - split; [done|done|by apply stages_evolve_tasks|done].
Qed.

Lemma clean_up_job_step self now job_id :
  sched_inv self →
  let self' := (clean_up_job self now job_id).1 in
  sched_inv self' ∧ sched_evolves self self'.
Proof.
  intros Hinv. unfold clean_up_job.
  destruct (im_get job_id (js_jobs self)) as [job|] eqn:Hj;
    [|split; [done|apply sched_evolves_refl]].
  apply (sched_inv_replace _ _ job); [done|done| |].
  - apply (job_ok_evolve _ _ job); [by apply (si_jobs _ Hinv)|apply sd_release_evolve|done|].
    intros o c. by destruct (jd_state job).
  - split; [done|done|apply stages_evolve_tasks, sd_release_evolve|].
    intros o c. simpl. by destruct (jd_state job).
Qed.

Lemma im_get_fmap_snd {V W} (f : V → W) (k : N) (m : list (N * V)) :
  im_get k (prod_map id f <$> m) = f <$> im_get k m.
Proof. induction m as [|[k' v] m IH]; [done|]. simpl. by case_decide. Qed.

Lemma stop_job_state now job o c :
  jd_state (stop_job_descriptor now job) ≠ JobRunning o c.
Proof. unfold stop_job_descriptor. by destruct (jd_state job) eqn:Hs; simpl; rewrite ?Hs. Qed.

Lemma stop_step self now :
  sched_inv self →
  let self' := job_scheduler_stop self now in
  sched_inv self' ∧ sched_evolves self self'.
Proof.
  intros Hinv. unfold job_scheduler_stop.
  assert (∀ j job, job_ok (js_options self) j job →
    job_ok (js_options self) j (stop_job_descriptor now job) ∧
    job_evolves job (stop_job_descriptor now job)) as Hstop.
  { intros j job Hok. split.
    - assert (∃ st, stop_job_descriptor now job =
        MkJobDescriptor (jd_graph job) (jd_topology job) (sd_stop now <$> jd_stages job)
          (jd_regions job) (jd_state (stop_job_descriptor now job)) (jd_created_at job) st)
        as [st ->].
      { unfold stop_job_descriptor. destruct (jd_state job) eqn:Hs; eexists; simpl;
          unfold jd_with_stages; simpl; rewrite ?Hs; done. }
      apply job_ok_evolve; [done|apply sd_stop_evolve|done|].
      intros o c Hs. by apply stop_job_state in Hs.
    - split.
      + unfold stop_job_descriptor. by destruct (jd_state job).
      + unfold stop_job_descriptor. by destruct (jd_state job).
      + unfold stop_job_descriptor. 
        destruct (jd_state job); apply stages_evolve_tasks, sd_stop_evolve.
      + intros o c Hs. by apply stop_job_state in Hs. }
  split; [split; simpl|].
  - unfold im_wf, im_keys. rewrite <-list_fmap_compose. apply Hinv.
  - intros j job'. rewrite im_get_fmap_snd.
    destruct (im_get j (js_jobs self)) as [job|] eqn:Hj; [|done].
    intros _. by eapply si_fresh.
  - intros j job'. rewrite im_get_fmap_snd.
    destruct (im_get j (js_jobs self)) as [job|] eqn:Hj; [|done].
    intros [= <-]. by apply Hstop, (si_jobs _ Hinv).
  - split; [done|]. simpl. intros j job Hj. rewrite im_get_fmap_snd, Hj. eexists.
    split; [done|]. eapply Hstop, (si_jobs _ Hinv), Hj.
Qed.

Lemma total_accept_job `{!PlannerLaws PL} self now plan context :
  sched_inv self →
  accept_job self now plan context ⇓ λ '(r, self', spawned),
    sched_inv self' ∧ sched_evolves self self' ∧
    match r with
    | Ok job_id => im_get job_id (js_jobs self) = None ∧ spawned = [job_id] ∧
        ∃ job, im_get job_id (js_jobs self') = Some job ∧
          jd_state job = JobRunning (MkJobOutputManager job_id) context
    | Err _ => js_jobs self' = js_jobs self
    end.
Proof.
  intros Hinv. unfold accept_job, id_generator_next, id_next, checked_add_u64.
  case_decide as Hmax.
  2:{ simpl. split_and!; [by destruct self, Hinv|by destruct self; apply sched_evolves_refl|done]. }
  set (id := next_value (js_job_id_generator self)).
  set (self1 := MkJobScheduler _ _ _).
  assert (sched_inv self1) as Hinv1.
  { destruct Hinv as [Hwf Hf Hj]. split; simpl; [done| |done]. intros j job Hjob.
    specialize (Hf j job Hjob). lia. }
  assert (sched_evolves self self1) as Hev1.
  { split; [done|]. apply (sched_evolves_refl self). }
  destruct (job_graph_try_new plan) as [graph|e] eqn:Hplan; [|done].
  apply total_bind. eapply total_mono; [apply total_job_descriptor; by eapply planner_wf|].
  intros [job|e]; [|done]. intros (Hw & Hst & Hgr & Hnil). simpl.
  assert (im_get id (js_jobs self) = None) as Hfresh.
  { destruct (im_get id (js_jobs self)) eqn:Hid; [|done].
    apply (si_fresh _ Hinv) in Hid. unfold id in Hid. lia. }
  split_and!; [..|done|done|eexists; split; [apply im_get_insert_eq|done]].
  - destruct Hinv as [Hwf Hf Hj]. split; simpl.
    + auto with total.
    + intros j job'. rewrite im_get_insert. case_decide as Hj'; [subst; unfold id; lia|].
      intros Hjob. specialize (Hf _ _ Hjob). lia.
    + intros j job'. rewrite im_get_insert. case_decide as Hj'; [subst j|eauto].
      intros [= <-]. split; [done| |].
      * intros s p l Hl. rewrite (Hnil _ _ _ Hl). simpl. lia.
      * intros o c. rewrite Hst. congruence.
  - split; [done|]. simpl. intros j job' Hj'. rewrite im_get_insert_ne by congruence.
    exists job'. split; [done|by apply reflexivity].
Qed.

Lemma sched_step_inv `{!PlannerLaws PL} self actions self' :
  sched_inv self → sched_step self actions self' → sched_inv self' ∧ sched_evolves self self'.
Proof.
  intros Hinv Hstep.
  destruct Hstep as [self now plan context r self' sp Hr|self now key st msg cause
    |self now j self' acts Hr|self now j self' acts Hr|self now].
  - pose proof (total_accept_job self now plan context Hinv) as Ht. rewrite Hr in Ht.
    by destruct Ht as (? & ? & _).
  - by apply update_task_step.
  - pose proof (total_refresh_job self now j Hinv) as Ht. rewrite Hr in Ht.
    by destruct Ht as (? & ? & _).
  - pose proof (clean_up_job_step self now j Hinv) as Ht. by rewrite Hr in Ht.
  - by apply stop_step.
Qed.

Lemma sched_inv_new options : sched_inv (job_scheduler_new options).
Proof. split; simpl; [by apply NoDup_nil_2|done|done]. Qed.

Lemma sched_trace_inv `{!PlannerLaws PL} options tr self :
  sched_trace options tr self → sched_inv self ∧ js_options self = options.
Proof.
  induction 1 as [|tr self acts self' _ [Hinv Ho] Hstep].
  - split; [apply sched_inv_new|done].
  - destruct (sched_step_inv _ _ _ Hinv Hstep) as [Hinv' [Ho' _]]. split; [done|congruence].
Qed.

(** ** The streams handed to the job output *)

Definition extend_key (a : JobAction) : option TaskStreamKey :=
  match a with ActExtendJobOutput _ key _ => Some key | _ => None end.

Definition extend_keys (actions : list JobAction) : list TaskStreamKey :=
  omap extend_key actions.

Lemma extend_keys_app a b : extend_keys (a ++ b) = extend_keys a ++ extend_keys b.
Proof. apply omap_app. Qed.

Lemma extend_keys_none actions :
  (∀ a, a ∈ actions → extend_key a = None) → extend_keys actions = [].
Proof.
  unfold extend_keys. induction actions as [|a l IH]; intros Hn; [done|]. simpl.
  rewrite Hn by set_solver. apply IH. set_solver.
Qed.

Definition stream_keys (job_id : N) (g : JobGraph) (t : TaskTopology)
    (l : list TaskAttemptDescriptor) : list TaskStreamKey :=
  if fetchable l then
    MkTaskStreamKey job_id (tt_stage t) (tt_partition t) (pred (length l))
      <$> seq 0 (channels_of g (tt_stage t))
  else [].

Lemma extend_keys_fetch job_id output g stages ts :
  extend_keys (tasks_output (fetch_output job_id output g) stages ts) =
    tasks_output (stream_keys job_id g) stages ts.
Proof.
  unfold tasks_output. induction ts as [|t ts IH]; [done|].
  rewrite !bind_cons, extend_keys_app, IH. f_equal.
  destruct (attempts_of _ _ _) as [l|]; [|done]. simpl. unfold fetch_output, stream_keys.
  destruct (fetchable l); [|done]. unfold extend_keys.
  induction (seq 0 _) as [|c cs IHc]; [done|]. simpl. by f_equal.
Qed.

Lemma cancel_actions_no_extend job_id s p l a :
  a ∈ cancel_actions job_id s p l → extend_key a = None.
Proof.
  unfold cancel_actions.
  intros (l0 & Ha & (i & x & -> & _)%elem_of_lookup_imap)%list_elem_of_join.
  destruct (is_terminal _); [set_solver|]. by apply list_elem_of_singleton in Ha as ->.
Qed.

Lemma extend_keys_refreshed options now job_id output job job' actions stages1 stages2 actions4 :
  refreshed options now job_id output job job' actions stages1 stages2 actions4 →
  extend_keys actions = tasks_output (stream_keys job_id (jd_graph job)) stages1 (final_tasks job).
Proof.
  intros [_ _ -> _ Hout]. cbv zeta in Hout. rewrite !extend_keys_app, extend_keys_fetch.
  rewrite (extend_keys_none (tasks_output (cancel_output job_id) _ _)).
  2:{ intros a. unfold tasks_output. intros (t & Ha & _)%list_elem_of_bind.
      destruct (attempts_of _ _ _) as [l|]; [|set_solver].
      by eapply cancel_actions_no_extend. }
  rewrite (extend_keys_none (release_actions _ _ _)).
  2:{ intros a (s & -> & _)%list_elem_of_fmap. done. }
  rewrite (extend_keys_none actions4); [by rewrite !app_nil_r|].
  destruct (existsb _ _); [|destruct (forallb _ _)].
  - destruct Hout as [_ ->]. intros a ->%list_elem_of_singleton. done.
  - destruct Hout as [_ ->]. set_solver.
  - destruct Hout as (? & trs & _ & _ & -> & _). intros a (tr & -> & _)%list_elem_of_fmap. done.
Qed.

Lemma elem_of_stream_keys job_id g stages ts k :
  k ∈ tasks_output (stream_keys job_id g) stages ts ↔
  ∃ l, MkTaskTopology (ts_stage k) (ts_partition k) ∈ ts ∧
    attempts_of stages (ts_stage k) (ts_partition k) = Some l ∧ fetchable l = true ∧
    ts_job_id k = job_id ∧ ts_attempt k = pred (length l) ∧
    ts_channel k < channels_of g (ts_stage k).
Proof.
  unfold tasks_output. rewrite list_elem_of_bind. split.
  - intros ([s p] & Hk & Ht). simpl in *.
    destruct (attempts_of stages s p) as [l|] eqn:Hl; simpl in Hk; [|set_solver].
    unfold stream_keys in Hk. destruct (fetchable l) eqn:Hf; [|set_solver].
    apply list_elem_of_fmap in Hk as (c & -> & Hc%elem_of_seq0). simpl. eauto 10.
  - intros (l & Ht & Hl & Hf & Hj & Ha & Hc).
    exists (MkTaskTopology (ts_stage k) (ts_partition k)). split; [|done]. simpl.
    rewrite Hl. simpl. unfold stream_keys. rewrite Hf. apply list_elem_of_fmap.
    exists (ts_channel k). rewrite elem_of_seq0. split; [|done].
    destruct k; simpl in *. congruence.
Qed.

Lemma NoDup_stream_keys job_id g stages ts :
  NoDup ts → NoDup (tasks_output (stream_keys job_id g) stages ts).
Proof.
  intros Hnd. unfold tasks_output. apply NoDup_bind; [| |done].
  - intros [s p] [s' p'] k _ _. simpl.
    destruct (attempts_of stages s p) as [l|]; simpl; [|set_solver].
    destruct (attempts_of stages s' p') as [l'|]; simpl; [|set_solver].
    unfold stream_keys. destruct (fetchable l); [|set_solver].
    destruct (fetchable l'); [|set_solver].
    intros (c & -> & _)%list_elem_of_fmap (c' & Heq & _)%list_elem_of_fmap.
    simpl in Heq. congruence.
  - intros [s p] _. simpl. destruct (attempts_of stages s p) as [l|]; [|constructor].
    simpl. unfold stream_keys. destruct (fetchable l); [|constructor].
    apply NoDup_fmap_2; [by intros ?? [= ->]|apply NoDup_seq].
Qed.

Lemma find_attempt_attempts self key :
  find_attempt self key =
    job ← im_get (tk_job_id key) (js_jobs self);
    l ← attempts_of (jd_stages job) (tk_stage key) (tk_partition key);
    l !! tk_attempt key.
Proof.
  unfold find_attempt, attempts_of. destruct (im_get _ _) as [job|]; simpl; [|done].
  destruct (jd_stages job !! _) as [sd|]; simpl; [|done].
  by destruct (sd_tasks sd !! _).
Qed.

Lemma find_attempt_evolves self self' key a :
  sched_evolves self self' → find_attempt self key = Some a →
  ∃ a', find_attempt self' key = Some a' ∧ attempt_evolves a a'.
Proof.
  intros [_ Hev]. rewrite !find_attempt_attempts.
  destruct (im_get _ (js_jobs self)) as [job|] eqn:Hj; simpl; [|done].
  destruct (Hev _ _ Hj) as (job' & -> & Hje). simpl.
  destruct (attempts_of (jd_stages job) _ _) as [l|] eqn:Hl; simpl; [|done].
  destruct (je_tasks _ _ Hje _ _ _ Hl) as (l' & -> & Hle). simpl.
  by apply attempts_evolve_lookup.
Qed.

(** A task update changes the one attempt it names. *)
Lemma find_attempt_update (self : JobScheduler) now key state message cause key' :
  find_attempt (update_task self now key state message cause) key' =
    if decide (key' = key)
    then attempt_update now state message cause <$> find_attempt self key
    else find_attempt self key'.
Proof.
  unfold update_task. destruct (find_attempt self key) as [a|] eqn:Ha; simpl.
  2:{ case_decide; [by subst|done]. }
  rewrite find_attempt_attempts in Ha.
  destruct (im_get (tk_job_id key) (js_jobs self)) as [job|] eqn:Hj; simpl in Ha; [|done].
  rewrite (find_attempt_attempts _ key'), (find_attempt_attempts self key'). simpl.
  rewrite im_get_insert.
  destruct (decide (tk_job_id key = tk_job_id key')) as [Hjj|Hjj].
  2:{ by rewrite decide_False by congruence. }
  rewrite <-Hjj, Hj. simpl. rewrite alter_attempt_attempts.
  destruct (decide ((tk_stage key', tk_partition key') = (tk_stage key, tk_partition key)))
    as [[= Hs Hp]|Hne].
  2:{ by rewrite decide_False by congruence. }
  rewrite Hs, Hp. destruct (attempts_of _ _ _) as [l|]; simpl in *; [|done].
  rewrite list_lookup_alter.
  destruct (decide (tk_attempt key = tk_attempt key')) as [Hat|Hat].
  - rewrite decide_True by (destruct key, key'; simpl in *; congruence). by rewrite Ha.
  - rewrite decide_False by congruence. done.
Qed.

Definition fetched_in (self : JobScheduler) (key : TaskStreamKey) (b : bool) : Prop :=
  ∃ a, find_attempt self (task_key_of_stream key) = Some a ∧ ta_job_output_fetched a = b.

Lemma fetch_last_lookup l :
  fetchable l = true → ∃ a, fetch_last l !! pred (length l) = Some a ∧
    ta_job_output_fetched a = true.
Proof.
  intros Hf. unfold fetch_last. rewrite Hf. unfold fetchable in Hf.
  rewrite list_lookup_alter_eq, <-last_lookup. destruct (last l); [|done].
  eexists. split; [done|]. done.
Qed.

Lemma refreshed_stage2_evolve options now job_id output job job' actions stages1 stages2 actions4 :
  refreshed options now job_id output job job' actions stages1 stages2 actions4 →
  tasks_evolve stages2 (jd_stages job').
Proof.
  intros Hrf. transitivity (jd_stages (settled options now job stages2)).
  { apply stages_evolve_tasks, release_evolve. }
  destruct (refreshed_stages _ _ _ _ _ _ _ _ _ _ Hrf) as (_ & _ & _ & _ & [->|(_ & _ & Hrw)]);
    [done|].
  eapply tasks_rewritten_tasks_evolve; [|done]. intros. apply attempts_evolve_push.
Qed.

(** A stream handed to the output was not handed before, and is recorded. *)
Lemma refreshed_stream options now job_id output job job' actions stages1 stages2 actions4 k :
  refreshed options now job_id output job job' actions stages1 stages2 actions4 →
  k ∈ tasks_output (stream_keys job_id (jd_graph job)) stages1 (final_tasks job) →
  ts_job_id k = job_id ∧
  (∃ l a, attempts_of (jd_stages job) (ts_stage k) (ts_partition k) = Some l ∧
     l !! ts_attempt k = Some a ∧ ta_job_output_fetched a = false) ∧
  (∃ l a, attempts_of (jd_stages job') (ts_stage k) (ts_partition k) = Some l ∧
     l !! ts_attempt k = Some a ∧ ta_job_output_fetched a = true).
Proof.
  intros Hrf (l1 & Ht & Hl1 & Hfe & Hjid & Hat & _)%elem_of_stream_keys.
  pose proof (rf_cascade _ _ _ _ _ _ _ _ _ _ Hrf) as [_ Ha1].
  pose proof (rf_extend _ _ _ _ _ _ _ _ _ _ Hrf) as [_ Ha2].
  split_and!; [done| |].
  - rewrite Ha1 in Hl1.
    destruct (attempts_of (jd_stages job) _ _) as [l|]; [|by case_decide].
    assert (Forall2 attempt_evolves l l1) as Hev.
    { case_decide; simplify_eq/=; [|by apply reflexivity]. apply cancel_attempts_evolve. }
    unfold fetchable in Hfe. rewrite last_lookup, <-Hat in Hfe.
    destruct (l1 !! ts_attempt k) as [a1|] eqn:Hk; [|done].
    destruct (Forall2_lookup_r _ _ _ _ _ Hev Hk) as (a & Ha & Hae).
    exists l, a. split_and!; [done..|]. apply andb_true_iff in Hfe as [_ Hnf].
    apply negb_true_iff in Hnf. destruct (ta_job_output_fetched a) eqn:Hfa; [|done].
    pose proof (ae_fetched _ _ Hae Hfa). congruence.
  - destruct (fetch_last_lookup _ Hfe) as (a2 & Hk2 & Hf2). rewrite <-Hat in Hk2.
    assert (attempts_of stages2 (ts_stage k) (ts_partition k) = Some (fetch_last l1)) as Hl2
      by (by rewrite Ha2, decide_True, Hl1).
    destruct (refreshed_stage2_evolve _ _ _ _ _ _ _ _ _ _ Hrf _ _ _ Hl2) as (l' & -> & Hle).
    destruct (attempts_evolve_lookup _ _ _ _ Hle Hk2) as (a' & Ha' & Hae).
    exists l', a'. split_and!; [done..|]. by apply (ae_fetched _ _ Hae).
Qed.

(** A step hands every stream at most once to the output, only streams not
    handed before, and records them. *)
Lemma sched_step_extend self actions self' :
  sched_inv self → sched_step self actions self' →
  NoDup (extend_keys actions) ∧
  ∀ k, k ∈ extend_keys actions → fetched_in self k false ∧ fetched_in self' k true.
Proof.
  intros Hinv Hstep.
  destruct Hstep as [self now plan context r self' sp Hr|self now key st msg cause
    |self now j self' acts Hr|self now j self' acts Hr|self now];
    try (split; [constructor|set_solver]).
  - pose proof (total_refresh_job self now j Hinv) as Ht. rewrite Hr in Ht.
    destruct Ht as (_ & _ & [[_ ->]|(job & job' & ctx & st1 & st2 & a4 & Hj & Hj' & _ & Hw & Hrf)]).
    { split; [constructor|set_solver]. }
    rewrite (extend_keys_refreshed _ _ _ _ _ _ _ _ _ _ Hrf).
    split; [apply NoDup_stream_keys, final_tasks_NoDup|]. intros k Hk.
    destruct (refreshed_stream _ _ _ _ _ _ _ _ _ _ _ Hrf Hk)
      as (Hjid & (l & a & Hl & Ha & Hfa) & (l' & a' & Hl' & Ha' & Hfa')).
    split; [exists a|exists a']; (split; [|done]); rewrite find_attempt_attempts; simpl;
      rewrite Hjid; [rewrite Hj|rewrite Hj']; simpl; [by rewrite Hl|by rewrite Hl'].
  - unfold clean_up_job, clean_up_job_descriptor in Hr.
    destruct (im_get j (js_jobs self)); injection Hr as <- <-;
      [|split; [constructor|set_solver]].
    rewrite extend_keys_none; [split; [constructor|set_solver]|].
    intros a [Ha|Ha]%elem_of_app; [|by apply list_elem_of_singleton in Ha as ->].
    unfold live_attempt_actions in Ha.
    apply list_elem_of_join in Ha as (l0 & Ha & (i & sd & -> & _)%elem_of_lookup_imap).
    apply list_elem_of_join in Ha as (l1 & Ha & (p & td & -> & _)%elem_of_lookup_imap).
    by eapply cancel_actions_no_extend.
Qed.

Lemma sched_trace_extend `{!PlannerLaws PL} options tr self :
  sched_trace options tr self →
  NoDup (extend_keys tr) ∧ ∀ k, k ∈ extend_keys tr → fetched_in self k true.
Proof.
  induction 1 as [|tr self acts self' Htr [Hnd Hin] Hstep]; [split; [constructor|set_solver]|].
  destruct (sched_trace_inv _ _ _ Htr) as [Hinv _].
  destruct (sched_step_extend _ _ _ Hinv Hstep) as [Hnd' Hin'].
  destruct (sched_step_inv _ _ _ Hinv Hstep) as [_ Hev].
  rewrite extend_keys_app. split.
  - apply NoDup_app. split_and!; [done| |done]. intros k (a & Ha & Hf)%Hin Hk.
    destruct (Hin' k Hk) as [(a' & Ha' & Hf') _]. congruence.
  - intros k [Hk|Hk]%elem_of_app; [|by apply Hin'].
    destruct (Hin k Hk) as (a & Ha & Hf).
    destruct (find_attempt_evolves _ _ _ _ Hev Ha) as (a' & Ha' & Hae).
    exists a'. split; [done|]. by apply (ae_fetched _ _ Hae).
Qed.
End system.
