(* ===== verification/SchedulerTheorems.v ===== *)
(** * The job scheduler: its properties

    The claims about job graphs, topologies, regions and the scheduler. *)

From S2P Require Import Prelude Ids JobGraph Topology TopologyFacts JobState JobScheduler AttemptsFacts RegionFacts RefreshFacts SchedulerSystem.

(** ** Reachable schedulers *)
Section reachable.
Context `{DF : DataFusion} `{HO : HashOrder} `{FC : ForeignCauses}
  `{PL : !Planner} `{PLL : !PlannerLaws PL}.

(** C9. In every reachable scheduler every job is well formed (its stages,
    regions and tasks match its graph and topology, the tasks of a region are
    attempted together, only the last attempt of a task may be live) and no
    task has more than [task_max_attempts] attempts (and one when that is 0). *)
Theorem scheduler_invariant options tr self j job :
  sched_trace options tr self → im_get j (js_jobs self) = Some job →
  wf_job job ∧
  ∀ s p l, attempts_of (jd_stages job) s p = Some l →
    length l ≤ 1 `max` task_max_attempts options.
Proof.
  intros Htr Hj. destruct (sched_trace_inv _ _ _ Htr) as [Hinv <-].
  by destruct (si_jobs _ Hinv _ _ Hj).
Qed.

(** No operation of a reachable scheduler panics or diverges: accepting
    a job and refreshing any job return; an accepted job gets an identifier
    that was not in use and starts running with its own output channel. *)
Theorem scheduler_total options tr self now job_id plan context :
  sched_trace options tr self →
  refresh_job self now job_id ⇓ (λ _, True) ∧
  accept_job self now plan context ⇓ λ '(r, self', spawned),
    match r with
    | Ok id => im_get id (js_jobs self) = None ∧ spawned = [id] ∧
        ∃ job, im_get id (js_jobs self') = Some job ∧
          jd_state job = JobRunning (MkJobOutputManager id) context
    | Err _ => js_jobs self' = js_jobs self
    end.
Proof.
  intros Htr. destruct (sched_trace_inv _ _ _ Htr) as [Hinv _]. split.
  - by eapply total_mono; [apply total_refresh_job|].
  - eapply total_mono; [by apply total_accept_job|]. by intros [[r self'] sp] (_ & _ & ?).
Qed.

(** Over any run of the scheduler, no task stream is handed to a job
    output twice, however updates, refreshes, retries and clean-ups
    interleave. *)
Theorem output_streams_once options tr self :
  sched_trace options tr self → NoDup (extend_keys tr).
Proof. intros Htr. by apply (sched_trace_extend _ _ _ Htr). Qed.

(** A task attempt never leaves a terminal state, is never forgotten, and
    keeps its creation time, its messages and its output flag, whatever the
    scheduler does next. *)
Theorem attempts_never_regress options tr self actions self' key a :
  sched_trace options tr self → sched_step self actions self' →
  find_attempt self key = Some a →
  ∃ a', find_attempt self' key = Some a' ∧
    task_rank (ta_state a) ≤ task_rank (ta_state a') ∧
    (is_terminal (ta_state a) = true → ta_state a' = ta_state a) ∧
    ta_created_at a' = ta_created_at a ∧ ta_messages a `prefix_of` ta_messages a' ∧
    (ta_job_output_fetched a = true → ta_job_output_fetched a' = true).
Proof.
  intros Htr Hstep Ha. destruct (sched_trace_inv _ _ _ Htr) as [Hinv _].
  destruct (sched_step_inv _ _ _ Hinv Hstep) as [_ Hev].
  destruct (find_attempt_evolves _ _ _ _ Hev Ha) as (a' & Ha' & []). eauto 10.
Qed.
End reachable.

(** ** Refreshing a job *)
Section refresh_theorems.
Context `{DF : DataFusion} `{HO : HashOrder} `{FC : ForeignCauses}.
Implicit Types (job : JobDescriptor) (options : JobSchedulerOptions).

Lemma region_state_failed n stages region :
  region_state n stages region = RegionFailed ↔
  ∃ t, t ∈ rt_tasks region ∧ exhausted n stages t = true.
Proof.
  unfold region_state. rewrite <-existsb_Exists.
  destruct (existsb _ _); [done|]. by destruct (forallb _ _).
Qed.

Lemma exhausted_not_succeeded n stages t :
  exhausted n stages t = true → task_last is_succeeded stages t = false.
Proof.
  unfold exhausted, task_last, last_is. destruct (task_attempts stages t) as [l|]; [|done].
  simpl. destruct (last l) as [a|]; [|done]. simpl. by destruct (ta_state a).
Qed.

Lemma region_state_succeeded n stages region :
  region_state n stages region = RegionSucceeded ↔
  ∀ t, t ∈ rt_tasks region → task_last is_succeeded stages t = true.
Proof.
  unfold region_state. rewrite <-forallb_Forall.
  destruct (existsb _ _) eqn:Hex; [|by destruct (forallb _ _)].
  split; [done|]. rewrite forallb_Forall. intros Hall.
  apply existsb_Exists in Hex as (t & Ht & Hx%exhausted_not_succeeded).
  rewrite Hall in Hx; done.
Qed.

(** The regions of a well-formed job, in terms of its tasks. *)
Lemma some_region_failed n job :
  wf_job job → jd_regions job = region_state n (jd_stages job) <$> jt_regions (jd_topology job) →
  existsb region_failed (jd_regions job) = true ↔
  ∃ t, t ∈ all_tasks (jd_graph job) ∧ exhausted n (jd_stages job) t = true.
Proof.
  intros Hw ->. rewrite existsb_Exists. split.
  - intros (st & (region & -> & Hr)%list_elem_of_fmap & Hf).
    destruct (region_state _ _ _) eqn:Hs; try done.
    apply region_state_failed in Hs as (t & Ht & Hx). exists t.
    split; [by eapply wj_region_task|done].
  - intros (t & Ht & Hx). destruct (wj_task_region _ _ Hw Ht) as (region & Hr & Hin).
    exists RegionFailed. split; [|done]. apply list_elem_of_fmap. exists region.
    split; [|done]. symmetry. apply region_state_failed. eauto.
Qed.

Lemma all_regions_succeeded n job :
  wf_job job → jd_regions job = region_state n (jd_stages job) <$> jt_regions (jd_topology job) →
  forallb region_succeeded (jd_regions job) = true ↔
  ∀ t, t ∈ all_tasks (jd_graph job) → task_last is_succeeded (jd_stages job) t = true.
Proof.
  intros Hw ->. rewrite forallb_Forall. split.
  - intros Hall t Ht. destruct (wj_task_region _ _ Hw Ht) as (region & Hr & Hin).
    assert (region_succeeded (region_state n (jd_stages job) region) = true) as Hs.
    { apply Hall, list_elem_of_fmap. eauto. }
    destruct (region_state _ _ _) eqn:Hst; [done|done|]. by eapply region_state_succeeded.
  - intros Hall st (region & -> & Hr)%list_elem_of_fmap.
    rewrite (proj2 (region_state_succeeded _ _ _)); [done|].
    intros t Ht. by eapply Hall, wj_region_task.
Qed.

(** Fresh attempts neither succeed nor exhaust a task. *)
Lemma push_last P now stages ts stages' t :
  tasks_rewritten (push_new now) stages ts stages' → P TaskCreated = false →
  task_last P stages' t = true → task_last P stages t = true.
Proof.
  intros [_ Ha] HP. unfold task_last, task_attempts. rewrite Ha.
  destruct (attempts_of stages _ _) as [l|]; [|by case_decide].
  case_decide; [|done]. simpl. unfold last_is, push_new. rewrite last_snoc. simpl. by rewrite HP.
Qed.

Lemma push_exhausted n now stages ts stages' t :
  tasks_rewritten (push_new now) stages ts stages' →
  exhausted n stages' t = true → exhausted n stages t = true.
Proof.
  intros [_ Ha]. unfold exhausted, task_attempts. rewrite Ha.
  destruct (attempts_of stages _ _) as [l|]; [|by case_decide].
  case_decide; [|done]. simpl. unfold last_is, push_new. by rewrite last_snoc.
Qed.

(** C17. The outcome of refreshing a running job: it fails exactly when the
    last attempt of some task failed or was canceled and the task has no
    attempt left, and then the output is failed; it drains exactly when the
    last attempts of all tasks have succeeded; otherwise it keeps running. *)
Theorem refresh_outcome options now job_id job output context :
  wf_job job → jd_state job = JobRunning output context →
  refresh_job_descriptor options now job_id job ⇓ λ '(job', actions),
    wf_job job' ∧
    (jd_state job' = JobFailed ↔ ∃ t, t ∈ all_tasks (jd_graph job) ∧
       exhausted (task_max_attempts options) (jd_stages job') t = true) ∧
    (jd_state job' = JobFailed → ∃ cause, last actions = Some (ActFailJobOutput output cause)) ∧
    (jd_state job' = JobDraining ↔ ∀ t, t ∈ all_tasks (jd_graph job) →
       task_last is_succeeded (jd_stages job') t = true) ∧
    (jd_state job' ≠ JobFailed → jd_state job' ≠ JobDraining → jd_state job' = jd_state job).
Proof.
  intros Hw Hrun. eapply total_mono; [by eapply total_refresh|].
  intros [job' actions] (stages1 & stages2 & actions4 & Hrf).
  split; [by eapply refreshed_wf|].
  destruct Hrf as [_ _ -> Hw3 Hout]. cbv zeta in Hout.
  pose proof (some_region_failed _ _ Hw3 eq_refl) as Hfail.
  pose proof (all_regions_succeeded _ _ Hw3 eq_refl) as Hsucc.
  change (jd_graph (settled _ _ _ _)) with (jd_graph job) in Hfail, Hsucc.
  destruct (existsb region_failed _); [|destruct (forallb region_succeeded _)].
  - destruct Hout as [-> ->]. simpl. apply proj1 in Hfail. specialize (Hfail eq_refl).
    split_and!; [done| |split; [done|]|done].
    + intros _. eexists. by rewrite !last_app.
    + intros Hall. destruct Hfail as (t & Ht & Hx%exhausted_not_succeeded).
      rewrite Hall in Hx; done.
  - destruct Hout as [-> ->]. simpl. split_and!; [|done|tauto|done].
    split; [done|]. intros Hx. by apply Hfail in Hx.
  - destruct Hout as (stages4 & trs & -> & Hrw & -> & _). simpl. rewrite Hrun.
    split_and!; [| |split; [done|]|done].
    + split; [done|]. intros (t & Ht & Hx%(push_exhausted _ _ _ _ _ _ Hrw)).
      assert (false = true); [|done]. apply Hfail. eauto.
    + done.
    + intros Hall. assert (false = true); [|done]. apply Hsucc. intros t Ht.
      eapply push_last; [done|done|by apply Hall].
Qed.

(** What the four groups of actions of a refresh hold. *)
Lemma cancel_output_kind job_id stages ts a :
  a ∈ tasks_output (cancel_output job_id) stages ts → ∃ key, a = ActCancelTask key.
Proof.
  intros (t & H & _)%list_elem_of_bind. destruct (attempts_of _ _ _); [|set_solver].
  unfold cancel_output, cancel_actions in H. simpl in H.
  apply list_elem_of_join in H as (l0 & H & (i & x & -> & _)%elem_of_lookup_imap).
  destruct (is_terminal _); [set_solver|]. apply list_elem_of_singleton in H. eauto.
Qed.

Lemma fetch_output_kind job_id output g stages ts a :
  a ∈ tasks_output (fetch_output job_id output g) stages ts →
  ∃ key, a = ActExtendJobOutput output key (jg_schema g).
Proof.
  intros (t & H & _)%list_elem_of_bind. destruct (attempts_of _ _ _); [|set_solver].
  simpl in H. unfold fetch_output in H. destruct (fetchable _); [|set_solver].
  apply list_elem_of_fmap in H as (c & -> & _). eauto.
Qed.

Lemma release_actions_kind job_id job stages a :
  a ∈ release_actions job_id job stages → ∃ s, a = ActCleanUpJob job_id (Some s).
Proof. intros (s & -> & _)%list_elem_of_fmap. eauto. Qed.

Lemma actions4_kind options now job_id output job job' actions stages1 stages2 actions4 a :
  refreshed options now job_id output job job' actions stages1 stages2 actions4 →
  a ∈ actions4 → (∃ tr, a = ActScheduleTaskRegion tr) ∨ (∃ c, a = ActFailJobOutput output c).
Proof.
  intros [_ _ _ _ Hout] Ha. cbv zeta in Hout. destruct (existsb _ _); [|destruct (forallb _ _)].
  - destruct Hout as [_ ->]. apply list_elem_of_singleton in Ha. eauto.
  - destruct Hout as [_ ->]. set_solver.
  - destruct Hout as (? & ? & _ & _ & -> & _). apply list_elem_of_fmap in Ha as (? & -> & _). eauto.
Qed.

(** Each action of a refresh comes from the group of its kind. *)
Lemma refresh_action options now job_id output job job' actions stages1 stages2 actions4 a :
  refreshed options now job_id output job job' actions stages1 stages2 actions4 →
  a ∈ actions ↔
  match a with
  | ActCancelTask _ =>
      a ∈ tasks_output (cancel_output job_id) (jd_stages job) (cascade_tasks job)
  | ActExtendJobOutput _ _ _ =>
      a ∈ tasks_output (fetch_output job_id output (jd_graph job)) stages1 (final_tasks job)
  | ActCleanUpJob _ _ => a ∈ release_actions job_id job stages2
  | ActScheduleTaskRegion _ | ActFailJobOutput _ _ => a ∈ actions4
  end.
Proof.
  intros Hrf. rewrite (rf_actions _ _ _ _ _ _ _ _ _ _ Hrf), !elem_of_app. split.
  - intros [H|[H|[H|H]]].
    + by destruct (cancel_output_kind _ _ _ _ H) as [? ->].
    + by destruct (fetch_output_kind _ _ _ _ _ _ H) as [? ->].
    + by destruct (release_actions_kind _ _ _ _ H) as [? ->].
    + by destruct (actions4_kind _ _ _ _ _ _ _ _ _ _ _ Hrf H) as [[? ->]|[? ->]].
  - destruct a; auto.
Qed.

Lemma region_done_tasks n job r t :
  wf_job job → jd_regions job = region_state n (jd_stages job) <$> jt_regions (jd_topology job) →
  region_done (jd_regions job) r = true → in_region (jt_regions (jd_topology job)) t r →
  task_last is_succeeded (jd_stages job) t = true ∧ t ∉ scheduled_tasks job.
Proof.
  intros Hw Hreg Hd (region & Hr & Ht). pose proof Hd as Hd'.
  unfold region_done in Hd. rewrite Hreg, list_lookup_fmap, Hr in Hd. simpl in Hd.
  split.
  - destruct (region_state _ _ _) eqn:Hs; [done|done|]. by eapply region_state_succeeded.
  - intros ([r' region'] & Hin & Hsel)%list_elem_of_bind.
    apply list_elem_of_filter in Hsel as [Hsel Hr'%elem_of_imap_pair].
    assert (r' = r) as ->.
    { eapply (in_region_unique (jt_regions (jd_topology job)) t);
        [|by exists region'|by exists region].
      rewrite (wt_tasks _ _ (wj_wf_topology _ Hw)). apply NoDup_all_tasks. }
    unfold schedulable in Hsel. simpl in Hsel. by rewrite Hd' in Hsel.
Qed.

Lemma refreshed_schedule options now job_id output job job' actions stages1 stages2 actions4 tr :
  refreshed options now job_id output job job' actions stages1 stages2 actions4 →
  ActScheduleTaskRegion tr ∈ actions →
  let job3 := settled options now job stages2 in
  tasks_rewritten (push_new now) (jd_stages job3) (scheduled_tasks job3) (jd_stages job') ∧
  ∃ r region, (r, region) ∈ scheduled_regions job3 ∧
    region_spec job_id (jd_graph job) (jd_stages job') (rt_tasks region) tr.
Proof.
  intros Hrf Htr%(refresh_action _ _ _ _ _ _ _ _ _ _ _ Hrf). cbv zeta.
  destruct Hrf as [_ _ _ Hw3 Hout]. cbv zeta in Hout.
  destruct (existsb region_failed _); [|destruct (forallb region_succeeded _)].
  { destruct Hout as [_ ->]. by apply list_elem_of_singleton in Htr. }
  { destruct Hout as [_ ->]. set_solver. }
  destruct Hout as (stages4 & trs & -> & Hrw & -> & Htrs). split; [done|].
  apply list_elem_of_fmap in Htr as (tr' & [= <-] & Htr).
  apply list_elem_of_lookup in Htr as [i Hi].
  destruct (Forall2_lookup_r _ _ _ _ _ Htrs Hi) as ([r region] & Hsel & Hspec).
  exists r, region. split; [|done]. by eapply list_elem_of_lookup_2.
Qed.

(** The attempts before a fresh one are terminal. *)
Lemma pushed_terminal now job stages t l :
  wf_job (jd_with_stages job stages) → task_attempts stages t = Some (l ++ [attempt_new now]) →
  Forall (λ a, is_terminal (ta_state a) = true) l.
Proof.
  intros Hw Hl. apply Forall_lookup_2. intros k a Hk.
  eapply (wj_superseded _ Hw (tt_stage t) (tt_partition t) _ k a Hl).
  - by apply lookup_app_l_Some.
  - apply lookup_lt_Some in Hk. rewrite length_app. simpl. lia.
Qed.

(** A region is scheduled only when every task of the regions it depends
    on has succeeded and none of its own tasks is live; all its tasks then get
    a fresh attempt, and the emitted region holds exactly these attempts, each
    once. *)
Theorem scheduled_region_ready options now job_id job output context :
  wf_job job → jd_state job = JobRunning output context →
  refresh_job_descriptor options now job_id job ⇓ λ '(job', actions),
    ∀ tr, ActScheduleTaskRegion tr ∈ actions →
    ∃ r region, jt_regions (jd_topology job) !! r = Some region ∧
      (∀ d t, d ∈ rt_dependencies region → in_region (jt_regions (jd_topology job)) t d →
         task_last is_succeeded (jd_stages job') t = true) ∧
      (∀ t, t ∈ rt_tasks region → ∃ l,
         task_attempts (jd_stages job') t = Some (l ++ [attempt_new now]) ∧
         Forall (λ a, is_terminal (ta_state a) = true) l) ∧
      ('(_, set) ← region_tasks tr; set_tasks set) ≡ₚ
        task_key_of job_id (jd_stages job') <$> rt_tasks region.
Proof.
  intros Hw Hrun. eapply total_mono; [by eapply total_refresh|].
  intros [job' actions] (stages1 & stages2 & actions4 & Hrf) tr Htr.
  destruct (refreshed_schedule _ _ _ _ _ _ _ _ _ _ _ Hrf Htr)
    as (Hrw & r & region & Hsel & Hspec). pose proof Hrw as [_ Ha].
  pose proof (rf_wf _ _ _ _ _ _ _ _ _ _ Hrf) as Hw3.
  set (job3 := settled options now job stages2) in *.
  pose proof Hsel as [Hsch Hr%elem_of_imap_pair]%list_elem_of_filter.
  change (jd_topology job3) with (jd_topology job) in Hr.
  exists r, region.
  assert (region ∈ jt_regions (jd_topology job)) as Hreg by by eapply list_elem_of_lookup_2.
  split_and!; [done|..].
  - intros d t Hd Ht. apply andb_true_iff in Hsch as [[_ Hdone]%andb_true_iff _].
    rewrite forallb_Forall in Hdone. specialize (Hdone _ Hd).
    destruct (region_done_tasks _ job3 d t Hw3 eq_refl Hdone Ht) as [Hs Hn].
    unfold task_last, task_attempts. rewrite Ha, decide_False; [done|by destruct t].
  - intros t Ht.
    assert (t ∈ scheduled_tasks job3) as Hts by (apply list_elem_of_bind; by exists (r, region)).
    destruct (wj_present job3 (rt_tasks region) Hw3) with t as [l Hl];
      [intros; by eapply (wj_region_task job3 region)|done|].
    assert (task_attempts (jd_stages job') t = Some (l ++ [attempt_new now])) as Hl'.
    { unfold task_attempts. by rewrite Ha, decide_True, Hl by by destruct t. }
    exists l. split; [done|]. eapply (pushed_terminal now job'); [|done].
    eapply wf_job_same; [..|by eapply refreshed_wf]; done.
  - apply (region_spec_tasks job_id (jd_graph job)); [|done].
    intros t Ht. by eapply elem_of_all_tasks, (wj_region_task job region).
Qed.

Lemma push_live now stages ts stages' t :
  tasks_rewritten (push_new now) stages ts stages' → is_Some (task_attempts stages t) →
  (t ∈ ts ∨ task_last is_live stages t = true) → task_last is_live stages' t = true.
Proof.
  intros [_ Ha] [l Hl] Ht. unfold task_last, task_attempts in *. rewrite Ha, Hl in *.
  case_decide as Hd; simpl; [unfold last_is, push_new; by rewrite last_snoc|].
  destruct Ht as [Ht|Ht]; [|done]. by destruct t.
Qed.

Lemma schedulable_independent states stages r region st :
  states !! r = Some st → region_succeeded st = false → rt_dependencies region = [] →
  region_has is_live stages region = false → schedulable states stages (r, region) = true.
Proof.
  intros Hr Hst Hd Hl. unfold schedulable, region_done. simpl. by rewrite Hr, Hd, Hl; simpl; rewrite Hst.
Qed.

(** Progress: when every stage of the graph is pipelined, a job that a
    refresh leaves running has a live task attempt, so the job never waits on
    itself. *)
Theorem refresh_progress options now job_id job output context :
  wf_job job → jd_state job = JobRunning output context →
  (∀ s stage, jg_stages (jd_graph job) !! s = Some stage → is_pipelined stage = true) →
  refresh_job_descriptor options now job_id job ⇓ λ '(job', _),
    jd_state job' = JobRunning output context →
    ∃ t, t ∈ all_tasks (jd_graph job) ∧ task_last is_live (jd_stages job') t = true.
Proof.
  intros Hw Hrun Hpipe. eapply total_mono; [by eapply total_refresh|].
  intros [job' actions] (stages1 & stages2 & actions4 & Hrf) Hst.
  destruct Hrf as [_ _ _ Hw3 Hout]. cbv zeta in Hout.
  set (job3 := settled options now job stages2) in *.
  pose proof (all_regions_succeeded _ job3 Hw3 eq_refl) as Hsucc.
  destruct (existsb region_failed _); [by destruct Hout as [-> _]|].
  destruct (forallb region_succeeded (jd_regions job3)) eqn:Hall; [by destruct Hout as [-> _]|].
  destruct Hout as (stages4 & trs & -> & Hrw & _ & _). simpl.
  apply not_true_iff_false in Hall. rewrite forallb_Forall in Hall.
  destruct (decide (Forall (λ st, region_succeeded st = true) (jd_regions job3))) as [Hf|Hf].
  { exfalso. apply Hall. by apply Forall_forall. }
  apply not_Forall_Exists in Hf; [|apply _]. apply Exists_exists in Hf as (st & Hin & Hns).
  apply list_elem_of_lookup in Hin as [r Hr]. pose proof Hr as Hr'.
  change (jd_regions job3) with
    (region_state (task_max_attempts options) (jd_stages job3) <$> jt_regions (jd_topology job))
    in Hr'. apply list_lookup_fmap_Some in Hr' as (region & Hst' & Hreg).
  assert (region ∈ jt_regions (jd_topology job)) as Hrin by by eapply list_elem_of_lookup_2.
  assert (∃ t, t ∈ rt_tasks region ∧
    (t ∈ scheduled_tasks job3 ∨ task_last is_live (jd_stages job3) t = true)) as (t & Ht & Hl).
  { destruct (region_has is_live (jd_stages job3) region) eqn:Hlive.
    { apply existsb_Exists in Hlive as (t & ? & ?). eauto. }
    destruct (rt_tasks region) as [|t ts] eqn:Hts.
    { exfalso. apply Hns. rewrite Hst'. unfold region_state. by rewrite Hts. }
    exists t. split; [set_solver|]. left. apply list_elem_of_bind. exists (r, region).
    split; [simpl; rewrite Hts; set_solver|]. apply list_elem_of_filter. split.
    - eapply schedulable_independent; [exact Hr|by apply not_true_is_false| |exact Hlive].
      by apply (pipelined_no_dependencies (jd_graph job) (wj_graph _ Hw) (jd_topology job) r);
        [|apply Hw|].
    - by apply elem_of_imap_pair. }
  assert (t ∈ all_tasks (jd_graph job)) as Hta by by eapply (wj_region_task job region).
  exists t. split; [done|]. eapply push_live; [done| |done].
  apply (wj_present job3 [t] Hw3); [|set_solver]. by intros ? ->%list_elem_of_singleton.
Qed.

Lemma elem_of_cancel_actions job_id s p l key :
  ActCancelTask key ∈ cancel_actions job_id s p l ↔
  ∃ a, key = MkTaskKey job_id s p (tk_attempt key) ∧ l !! tk_attempt key = Some a ∧
    is_terminal (ta_state a) = false.
Proof.
  unfold cancel_actions. rewrite list_elem_of_join. split.
  - intros (l0 & Hin & (i & a & -> & Ha)%elem_of_lookup_imap).
    destruct (is_terminal (ta_state a)) eqn:Ht; [set_solver|].
    apply list_elem_of_singleton in Hin as [= ->]. simpl. eauto.
  - intros (a & Hk & Ha & Ht). eexists. split; [|apply elem_of_lookup_imap; eauto].
    rewrite Ht. rewrite <-Hk. set_solver.
Qed.

Lemma elem_of_cancel_output job_id stages ts key :
  ActCancelTask key ∈ tasks_output (cancel_output job_id) stages ts ↔
  ∃ l a, MkTaskTopology (tk_stage key) (tk_partition key) ∈ ts ∧ tk_job_id key = job_id ∧
    attempts_of stages (tk_stage key) (tk_partition key) = Some l ∧
    l !! tk_attempt key = Some a ∧ is_terminal (ta_state a) = false.
Proof.
  unfold tasks_output, cancel_output. rewrite list_elem_of_bind. split.
  - intros ([s p] & Hin & Ht). simpl in *.
    destruct (attempts_of stages s p) as [l|] eqn:Hl; [|set_solver]. simpl in Hin.
    apply elem_of_cancel_actions in Hin as (a & Hk & Ha & Htm). rewrite Hk. simpl. eauto 10.
  - intros (l & a & Ht & Hj & Hl & Ha & Htm). eexists. split; [|exact Ht]. simpl. rewrite Hl.
    apply elem_of_cancel_actions. exists a. split; [|done]. by destruct key; simpl in *; subst.
Qed.

Lemma elem_of_cascade_tasks job t :
  t ∈ cascade_tasks job ↔ ∃ region t', region ∈ jt_regions (jd_topology job) ∧
    t ∈ rt_tasks region ∧ t' ∈ rt_tasks region ∧ task_last is_failed (jd_stages job) t' = true.
Proof.
  unfold cascade_tasks, failing_regions. rewrite list_elem_of_bind. split.
  - intros (region & Ht & [Hf Hr]%list_elem_of_filter).
    apply existsb_Exists in Hf as (t' & ? & ?). eauto 10.
  - intros (region & t' & Hr & Ht & Ht' & Hf). exists region. split; [done|].
    apply list_elem_of_filter. split; [|done]. apply existsb_Exists. eauto.
Qed.

(** Cascading cancellation: a refresh cancels exactly the live attempts
    of the regions in which the last attempt of some task has failed, sends
    one cancellation for each of them, and records them as canceled. *)
Theorem cascade_cancels options now job_id job output context key :
  wf_job job → jd_state job = JobRunning output context →
  refresh_job_descriptor options now job_id job ⇓ λ '(job', actions),
    (ActCancelTask key ∈ actions ↔
     tk_job_id key = job_id ∧ ∃ region t' l a, region ∈ jt_regions (jd_topology job) ∧
       MkTaskTopology (tk_stage key) (tk_partition key) ∈ rt_tasks region ∧
       t' ∈ rt_tasks region ∧ task_last is_failed (jd_stages job) t' = true ∧
       attempts_of (jd_stages job) (tk_stage key) (tk_partition key) = Some l ∧
       l !! tk_attempt key = Some a ∧ is_terminal (ta_state a) = false) ∧
    (ActCancelTask key ∈ actions → ∃ l a,
       attempts_of (jd_stages job') (tk_stage key) (tk_partition key) = Some l ∧
       l !! tk_attempt key = Some a ∧ ta_state a = TaskCanceled).
Proof.
  intros Hw Hrun. eapply total_mono; [by eapply total_refresh|].
  intros [job' actions] (stages1 & stages2 & actions4 & Hrf).
  rewrite (refresh_action _ _ _ _ _ _ _ _ _ _ _ Hrf), elem_of_cancel_output. split.
  - split.
    + intros (l & a & (region & t' & ? & ? & ? & ?)%elem_of_cascade_tasks & ? & ? & ? & ?).
      split; [done|]. by exists region, t', l, a.
    + intros (Hj & region & t' & l & a & ? & ? & ? & ? & ? & ? & ?). exists l, a.
      split; [|done]. apply elem_of_cascade_tasks. by exists region, t'.
  - intros (l & a & Ht & _ & Hl & Ha & Htm).
    pose proof (rf_cascade _ _ _ _ _ _ _ _ _ _ Hrf) as [_ Ha1].
    pose proof (rf_extend _ _ _ _ _ _ _ _ _ _ Hrf) as Hrw2.
    assert (attempts_of stages1 (tk_stage key) (tk_partition key) =
      Some (cancel_attempts now l)) as Hl1 by (by rewrite Ha1, decide_True, Hl).
    assert (cancel_attempts now l !! tk_attempt key = Some (attempt_cancel now a)) as Hc.
    { unfold cancel_attempts. rewrite list_lookup_fmap, Ha. simpl. by rewrite Htm. }
    assert (tasks_evolve stages1 (jd_stages job')) as Hev.
    { transitivity stages2; [|by eapply refreshed_stage2_evolve].
      apply stages_evolve_tasks. eapply tasks_rewritten_evolve; [|done].
      intros. apply fetch_last_evolve. }
    destruct (Hev _ _ _ Hl1) as (l' & Hl' & Hle).
    destruct (attempts_evolve_lookup _ _ _ _ Hle Hc) as (a' & Ha' & Hae).
    exists l', a'. split_and!; [done..|]. by apply (ae_terminal _ _ Hae).
Qed.


Lemma rewritten_task_last P f stages ts stages' t :
  (∀ l, last_is P (f l) = last_is P l) → tasks_rewritten f stages ts stages' →
  task_last P stages' t = task_last P stages t.
Proof.
  intros Hf [_ Ha]. unfold task_last, task_attempts. rewrite Ha.
  destruct (attempts_of stages _ _); [|by case_decide]. case_decide; [apply Hf|done].
Qed.

Lemma cancel_last_succeeded now l :
  last_is is_succeeded (cancel_attempts now l) = last_is is_succeeded l.
Proof.
  unfold last_is, cancel_attempts. rewrite fmap_last. destruct (last l) as [a|]; [|done]. simpl.
  by destruct (ta_state a) eqn:Ha; simpl; rewrite ?Ha.
Qed.

Lemma fetch_last_state P l : last_is P (fetch_last l) = last_is P l.
Proof.
  unfold fetch_last. destruct (fetchable l); [|done]. unfold last_is.
  rewrite !last_lookup, length_alter, list_lookup_alter_eq. by destruct (l !! _).
Qed.

Lemma refreshed_succeeded options now job_id output job job' actions stages1 stages2 actions4 t :
  refreshed options now job_id output job job' actions stages1 stages2 actions4 →
  task_last is_succeeded stages2 t = task_last is_succeeded (jd_stages job) t.
Proof.
  intros [H1 H2 _ _ _].
  rewrite (rewritten_task_last _ _ _ _ _ _ (fetch_last_state is_succeeded) H2).
  by apply (rewritten_task_last _ _ _ _ _ _ (cancel_last_succeeded now) H1).
Qed.

Lemma refreshed_meta options now job_id output job job' actions stages1 stages2 actions4 :
  refreshed options now job_id output job job' actions stages1 stages2 actions4 →
  same_meta (jd_stages job) stages2 ∧
  same_meta (jd_stages (settled options now job stages2)) (jd_stages job').
Proof.
  intros Hrf. pose proof (rf_cascade _ _ _ _ _ _ _ _ _ _ Hrf) as [H1 _].
  pose proof (rf_extend _ _ _ _ _ _ _ _ _ _ Hrf) as [H2 _]. split; [by etrans|].
  by destruct (refreshed_stages _ _ _ _ _ _ _ _ _ _ Hrf)
    as (_ & _ & _ & _ & [->|(_ & _ & [? _])]).
Qed.

Lemma same_meta_state stages stages' s :
  same_meta stages stages' → sd_state <$> stages' !! s = sd_state <$> stages !! s.
Proof.
  intros Hm. pose proof (f_equal (λ l, l !! s) Hm) as Hs. rewrite !list_lookup_fmap in Hs.
  destruct (stages !! s), (stages' !! s); simplify_eq/=; [|done]. congruence.
Qed.

(** The stages that read the output of stage [s]. *)
Definition consumers_of job (s : nat) : list nat :=
  from_option stt_consumers [] (jt_stages (jd_topology job) !! s).

(** Stage clean-up: a refresh releases the streams of a stage exactly when
    the stage is active, it has consumers, and every task of every consumer
    has succeeded; the stage is inactive from then on, so it is released at
    most once. *)
Theorem stage_released_after_consumers options now job_id job output context s :
  wf_job job → jd_state job = JobRunning output context →
  refresh_job_descriptor options now job_id job ⇓ λ '(job', actions),
    (ActCleanUpJob job_id (Some s) ∈ actions ↔
      sd_state <$> jd_stages job !! s = Some StageActive ∧ consumers_of job s ≠ [] ∧
      ∀ c p, c ∈ consumers_of job s → p < parts (jd_graph job) c →
        task_last is_succeeded (jd_stages job) (MkTaskTopology c p) = true) ∧
    (ActCleanUpJob job_id (Some s) ∈ actions →
      sd_state <$> jd_stages job' !! s = Some StageInactive).
Proof.
  intros Hw Hrun. eapply total_mono; [by eapply total_refresh|].
  intros [job' actions] (stages1 & stages2 & actions4 & Hrf).
  rewrite (refresh_action _ _ _ _ _ _ _ _ _ _ _ Hrf).
  destruct (refreshed_meta _ _ _ _ _ _ _ _ _ _ Hrf) as [Hm Hm'].
  rewrite (same_meta_state _ _ s Hm'), <-(same_meta_state _ _ s Hm).
  pose proof (λ t, refreshed_succeeded _ _ _ _ _ _ _ _ _ _ t Hrf) as Hsucc.
  assert (ActCleanUpJob job_id (Some s) ∈ release_actions job_id job stages2 ↔
    releasable (jd_graph job) (jd_topology job) stages2 s = true) as ->.
  { unfold release_actions. rewrite list_elem_of_fmap. split.
    - by intros (s' & [= ->] & [? _]%list_elem_of_filter).
    - intros Hr. exists s. split; [done|]. apply list_elem_of_filter. split; [done|].
      apply elem_of_seq0. unfold releasable in Hr.
      destruct (stages2 !! s) eqn:Hs; [by eapply lookup_lt_Some|done]. }
  split.
  - unfold releasable, consumers_of.
    destruct (stages2 !! s) as [sd|]; simpl; [|by split; [|intros [? _]]].
    destruct (jt_stages (jd_topology job) !! s) as [st|]; simpl; [|by split; [|intros (_ & ? & _)]].
    rewrite !andb_true_iff, bool_decide_eq_true, negb_true_iff, bool_decide_eq_false, forallb_Forall.
    unfold stage_succeeded. setoid_rewrite forallb_Forall. setoid_rewrite elem_of_stage_tasks.
    setoid_rewrite Hsucc. split.
    + intros [[-> Hc] Hall]. split_and!; [done..|]. intros c p Hin Hp. by apply (Hall c).
    + intros ([= ->] & Hc & Hall). split_and!; [done..|]. intros c Hin [c' p] [<- Hp].
      by apply Hall.
  - intros Hr. simpl. unfold release_below. rewrite list_lookup_imap, Hr, andb_true_r.
    unfold releasable in Hr. destruct (stages2 !! s) eqn:Hs; [|done]. simpl.
    by rewrite bool_decide_true by by eapply lookup_lt_Some.
Qed.
End refresh_theorems.

(** ** The cause of a failure *)
Section causes.
Context `{FC : ForeignCauses}.

Definition cause_entry : Type := (nat * nat) * list CommonErrorCause.

(** Entry [e1] is preferred to [e2]: more failures, then the smaller stage,
    then the smaller partition. *)
Definition cause_le (e1 e2 : cause_entry) : Prop :=
  length e2.2 < length e1.2 ∨
  length e1.2 = length e2.2 ∧ (e1.1.1 < e2.1.1 ∨ e1.1.1 = e2.1.1 ∧ e1.1.2 ≤ e2.1.2).

Lemma compare_causes_le e1 e2 : compare_causes e1 e2 ≠ Gt ↔ cause_le e1 e2.
Proof.
  unfold compare_causes, cause_le.
  destruct (Nat.compare_spec (length e2.2) (length e1.2)); [|split; [lia|done]|split; [done|lia]].
  destruct (Nat.compare_spec e1.1.1 e2.1.1); [|split; [lia|done]|split; [done|lia]].
  destruct (Nat.compare_spec e1.1.2 e2.1.2); split; (done || lia).
Qed.

Lemma min_by_causes (l : list cause_entry) x :
  min_by compare_causes l = Some x → x ∈ l ∧ ∀ y, y ∈ l → cause_le x y.
Proof.
  destruct l as [|z l]; [done|]. simpl. intros [= <-].
  revert z. induction l as [|y l IH]; intros z; simpl.
  { split; [set_solver|]. intros y ->%list_elem_of_singleton. unfold cause_le. lia. }
  pose proof (compare_causes_le z y) as Hzy.
  destruct (compare_causes z y) eqn:Hc.
  1,2: destruct (IH z) as [Hin Hle]; split; [set_solver|]; intros y' Hy';
    (apply elem_of_cons in Hy' as [->|[->|Hy']%elem_of_cons]; [apply Hle; set_solver| |apply Hle; set_solver]);
    assert (cause_le z y) as H1 by (apply Hzy; done);
    assert (cause_le (foldl (λ best y, match compare_causes best y with Gt => y | _ => best end) z l) z)
      as H2 by (apply Hle; set_solver); unfold cause_le in *; lia.
  destruct (IH y) as [Hin Hle]. split; [set_solver|]. intros y' Hy'.
  apply elem_of_cons in Hy' as [->|Hy']; [|by apply Hle].
  assert (¬ cause_le z y) as H1 by tauto.
  assert (cause_le (foldl (λ best y, match compare_causes best y with Gt => y | _ => best end) y l) y)
    as H2 by (apply Hle; set_solver). unfold cause_le in *. lia.
Qed.

Lemma elem_of_job_causes stages s p causes :
  ((s, p), causes) ∈ job_causes stages ↔
  causes ≠ [] ∧ ∃ l, attempts_of stages s p = Some l ∧ causes = failed_causes (MkTaskDescriptor l).
Proof.
  unfold job_causes. rewrite list_elem_of_filter, list_elem_of_join. simpl. split.
  - intros [Hne (l0 & Hin & (s' & sd & -> & Hs)%elem_of_lookup_imap)]. split; [done|].
    apply elem_of_lookup_imap in Hin as (p' & [l] & [= -> -> ->] & Hp).
    exists l. split; [|done]. unfold attempts_of. by rewrite Hs; simpl; rewrite Hp.
  - intros (Hne & l & Hl & ->). split; [done|]. unfold attempts_of in Hl.
    destruct (stages !! s) as [sd|] eqn:Hs; simpl in Hl; [|done].
    destruct (sd_tasks sd !! p) as [[l']|] eqn:Hp; simpl in Hl; [|done].
    injection Hl as ->. eexists. split; [|apply elem_of_lookup_imap; eauto].
    apply elem_of_lookup_imap. eauto.
Qed.

(** The cause reported for a failed job does not depend on the iteration
    order of the hash map it is chosen from: it is the cause of the last failed
    attempt of the task with the most failed attempts, the one with the
    smallest stage and partition among several. *)
Theorem failure_cause_deterministic (HO : HashOrder) stages s p causes cause :
  ((s, p), causes) ∈ job_causes stages →
  (∀ s' p' causes', ((s', p'), causes') ∈ job_causes stages →
     length causes' < length causes ∨
     length causes' = length causes ∧ (s < s' ∨ s = s' ∧ p ≤ p')) →
  last causes = Some cause →
  infer_job_failure_cause (HO := HO) stages = cause.
Proof.
  intros Hin Hmin Hlast. unfold infer_job_failure_cause.
  destruct (min_by compare_causes (hash_order (job_causes stages))) as [[[s' p'] causes']|] eqn:Hm.
  - apply min_by_causes in Hm as [Hin' Hle]. rewrite elem_of_hash_order in Hin'.
    specialize (Hle ((s, p), causes)). rewrite elem_of_hash_order in Hle. specialize (Hle Hin).
    specialize (Hmin _ _ _ Hin'). unfold cause_le in Hle. simpl in Hle.
    assert (s' = s ∧ p' = p) as [-> ->] by lia.
    apply elem_of_job_causes in Hin as (_ & l & Hl & ->), Hin' as (_ & l' & Hl' & ->).
    rewrite Hl in Hl'. injection Hl' as <-. by rewrite Hlast.
  - destruct (hash_order (job_causes stages)) as [|e es] eqn:Hh; [|done].
    rewrite <-(elem_of_hash_order (job_causes stages)), Hh in Hin. set_solver.
Qed.
End causes.

(** ** Topologies and regions *)
Section topology_theorems.
Context `{DF : DataFusion}.

(** Cutting a topologically ordered job graph into regions never panics,
    and its breadth-first searches terminate; it succeeds on every graph whose
    final stages have the schema of the job and whose forward inputs have the
    partition count of their producer, and when it succeeds, the regions
    partition the tasks of the job, a region depends on exactly the other
    regions its tasks read from, consumers are recorded with multiplicity, and
    every stage without consumers has the schema of the job. *)
Theorem topology_correct (g : JobGraph) :
  wf_graph g →
  job_topology_try_new g ⇓ λ r,
    (consistent_graph g → is_ok r = true) ∧
    ∀ tp, r = Ok tp →
    NoDup (region_task_list (jt_regions tp)) ∧
    (∀ t, t ∈ region_task_list (jt_regions tp) ↔
       tt_partition t < from_option stage_partitions 0 (jg_stages g !! tt_stage t)) ∧
    (∀ r region d, jt_regions tp !! r = Some region →
       d ∈ rt_dependencies region ↔
       d ≠ r ∧ ∃ t stage input t', t ∈ rt_tasks region ∧
         jg_stages g !! tt_stage t = Some stage ∧ input ∈ st_inputs stage ∧
         reads g t input t' ∧ in_region (jt_regions tp) t' d) ∧
    (∀ s st, jt_stages tp !! s = Some st →
       stt_consumers st = (filter (λ e, si_stage e.2 = s) (job_edges g)).*1) ∧
    (∀ s st stage, jt_stages tp !! s = Some st → stt_consumers st = [] →
       jg_stages g !! s = Some stage → plan_schema (st_plan stage) = jg_schema g).
Proof.
  intros Hg. destruct (total_inv _ _ (total_job_topology g Hg)) as (r & Hrun & Hr).
  apply (total_intro _ r _ Hrun). split.
  { intros Hc. pose proof (consistent_topology_ok g Hg Hc) as Hok. by rewrite Hrun in Hok. }
  intros tp ->. destruct Hr as [[H1 H2 H3 H4 H5 H6] _]. split_and!; [| |done..].
  - rewrite H4. apply NoDup_all_tasks.
  - intros t. rewrite H4. apply elem_of_all_tasks.
Qed.

(** Building the task region to launch never panics: every task of the
    region is in exactly one task set with its latest attempt, a set holds
    tasks of one placement only, and two partitions of one stage never share
    a set (a worker slot). *)
Theorem build_task_region_correct job_id (g : JobGraph) stages region :
  NoDup (rt_tasks region) →
  (∀ t, t ∈ rt_tasks region → t ∈ all_tasks g ∧ attempted stages t) →
  build_task_region job_id g stages region ⇓ λ tr,
    ('(_, set) ← region_tasks tr; set_tasks set) ≡ₚ
      task_key_of job_id stages <$> rt_tasks region ∧
    ∀ pl set, (pl, set) ∈ region_tasks tr →
      NoDup (tk_stage <$> set_tasks set) ∧
      ∀ e, e ∈ set_entries set → ∃ stage,
        jg_stages g !! tk_stage (te_key e) = Some stage ∧ st_placement stage = pl ∧
        te_output e = output_kind (st_mode stage).
Proof.
  intros Hnd Hts.
  assert (∀ t, t ∈ rt_tasks region → tt_partition t < parts g (tt_stage t)) as Hp.
  { intros t Ht. by apply elem_of_all_tasks, Hts. }
  eapply total_mono; [apply total_build_task_region|].
  { intros t Ht. split; [by apply Hp|]. by apply Hts. }
  intros tr Htr. split; [by eapply region_spec_tasks|]. intros pl set Hset.
  destruct (region_spec_set _ _ _ _ _ pl set Hnd Hp Htr Hset) as (us & Hsub & He & Hnd' & Hpl).
  unfold set_tasks. rewrite He, <-!list_fmap_compose. split; [done|].
  intros e (t & -> & Ht)%list_elem_of_fmap. specialize (Hpl t Ht). simpl.
  destruct (jg_stages g !! tt_stage t) as [stage|]; simpl in *; [|done].
  exists stage. split_and!; [done|congruence|done].
Qed.
End topology_theorems.

(** ** Updates, clean-up and identifiers *)
Section operations.
Context `{DF : DataFusion} `{HO : HashOrder} `{FC : ForeignCauses}.

(** A task update changes the one attempt it names and nothing else, and
    is ignored when there is no such attempt; a late update of a lower rank
    leaves the state as the later one set it. *)
Theorem update_task_frame (self : JobScheduler) now key state message cause key' :
  find_attempt (update_task self now key state message cause) key' =
    if decide (key' = key)
    then attempt_update now state message cause <$> find_attempt self key
    else find_attempt self key'.
Proof. apply find_attempt_update. Qed.

(** Cleaning up a job cancels exactly its live attempts, releases all its
    stages and its streams, and ends it: a draining job has succeeded and any
    other job is recorded as canceled, also one that had failed. *)
Theorem clean_up_job_effect (self : JobScheduler) now job_id job :
  im_get job_id (js_jobs self) = Some job →
  let '(self', actions) := clean_up_job self now job_id in
  (∃ job', im_get job_id (js_jobs self') = Some job' ∧
     jd_state job' = match jd_state job with
                     | JobDraining => JobSucceeded
                     | _ => JobCanceled
                     end ∧
     jd_stopped_at job' = Some now ∧
     Forall (λ sd, sd_state sd = StageInactive) (jd_stages job')) ∧
  last actions = Some (ActCleanUpJob job_id None) ∧
  ∀ key, ActCancelTask key ∈ actions ↔ tk_job_id key = job_id ∧
    ∃ a, find_attempt self key = Some a ∧ is_terminal (ta_state a) = false.
Proof.
  intros Hj. unfold clean_up_job. rewrite Hj. unfold clean_up_job_descriptor. split_and!.
  - eexists. split; [apply im_get_insert_eq|]. split_and!; [by destruct (jd_state job)|done|].
    simpl. apply Forall_forall. intros sd (sd' & -> & _)%list_elem_of_fmap. done.
  - by rewrite last_snoc.
  - intros key. rewrite elem_of_app. unfold live_attempt_actions. rewrite list_elem_of_join.
    rewrite find_attempt_attempts. split.
    + intros [(l0 & Hin & (s & sd & -> & Hs)%elem_of_lookup_imap)|Hx].
      2:{ by apply list_elem_of_singleton in Hx. }
      apply list_elem_of_join in Hin as (l1 & Hin & (p & td & -> & Hp)%elem_of_lookup_imap).
      apply elem_of_cancel_actions in Hin as (a & Hk & Ha & Ht). rewrite Hk. simpl.
      split; [done|]. rewrite Hj. simpl. unfold attempts_of. rewrite Hs. simpl. rewrite Hp.
      simpl. eauto.
    + intros (Hid & a & Ha & Ht). left. rewrite Hid, Hj in Ha. simpl in Ha.
      unfold attempts_of in Ha.
      destruct (jd_stages job !! tk_stage key) as [sd|] eqn:Hs; simpl in Ha; [|done].
      destruct (sd_tasks sd !! tk_partition key) as [td|] eqn:Hp; simpl in Ha; [|done].
      eexists. split; [|apply elem_of_lookup_imap; eauto].
      apply list_elem_of_join. eexists. split; [|apply elem_of_lookup_imap; eauto].
      apply elem_of_cancel_actions. exists a. split; [|done]. destruct key; simpl in *. by subst.
Qed.
End operations.

(** ** Task inputs *)
Section inputs.
Context `{DF : DataFusion}.
Context (key : TaskKey) (job : JobDescriptor) (input : StageInput) (producer : Stage).
Context (get : TaskKey → option TaskAssignment) (att : nat → nat) (worker : nat → N).
Hypothesis Hproducer : jg_stages (jd_graph job) !! si_stage input = Some producer.
Hypothesis Hatt : ∀ p, p < stage_partitions producer →
  get_latest_task_attempt (jd_stages job) (si_stage input) p = Some (att p).

Let P := stage_partitions producer.
Let C := dist_channels (st_distribution producer).

(** The keys of the streams a task reads, by the input mode. *)
Definition input_rows : list (list TaskInputKey) :=
  match si_mode input with
  | Forward | Merge => (λ p, MkTaskInputKey p (att p) <$> seq 0 C) <$> seq 0 P
  | Shuffle => (λ c, (λ p, MkTaskInputKey p (att p) c) <$> seq 0 P) <$> seq 0 C
  | Broadcast => [p ← seq 0 P; MkTaskInputKey p (att p) <$> seq 0 C]
  end.

Lemma input_key_ok p c : p < P →
  input_key key (jd_stages job) (si_stage input) p c = Ok (MkTaskInputKey p (att p) c).
Proof. intros Hp. unfold input_key, latest_attempt. by rewrite Hatt. Qed.

Lemma input_keys_ok : input_keys key (jd_stages job) input P C = Ok input_rows.
Proof.
  unfold input_keys, input_rows. destruct (si_mode input).
  1,2: apply collect_results_fmap; intros p Hp%elem_of_seq0; apply collect_results_fmap;
    intros c _; by apply input_key_ok.
  - apply collect_results_fmap. intros c _. apply collect_results_fmap.
    intros p Hp%elem_of_seq0. by apply input_key_ok.
  - assert ((partition ← seq 0 P; input_key key (jd_stages job) (si_stage input) partition <$> seq 0 C)
      = Ok <$> (p ← seq 0 P; MkTaskInputKey p (att p) <$> seq 0 C)) as ->.
    { assert (∀ p, p ∈ seq 0 P → p < P) as Hl by (intros p; apply elem_of_seq0).
      revert Hl. generalize (seq 0 P). induction l as [|p l IH]; intros Hl; [done|].
      rewrite !bind_cons, fmap_app, IH by set_solver. f_equal.
      rewrite <-list_fmap_compose. apply list_fmap_ext_elem. intros c _.
      apply input_key_ok, Hl. set_solver. }
    by rewrite (proj2 (collect_results_Ok _ _) eq_refl).
Qed.

Lemma input_rows_perm :
  mjoin input_rows ≡ₚ p ← seq 0 P; MkTaskInputKey p (att p) <$> seq 0 C.
Proof.
  unfold input_rows. destruct (si_mode input); rewrite ?list_bind_fmap_join; [done|done| |].
  - symmetry. apply (bind_exchange (λ p c, MkTaskInputKey p (att p) c)).
  - simpl. by rewrite app_nil_r.
Qed.

Lemma input_rows_elem k : k ∈ mjoin input_rows →
  tik_partition k < P ∧ tik_attempt k = att (tik_partition k).
Proof.
  rewrite input_rows_perm. intros (p & Hk & Hp%elem_of_seq0)%list_elem_of_bind.
  by apply list_elem_of_fmap in Hk as (c & -> & _).
Qed.

(** A task on a worker reads every channel of every partition of the
    latest attempts of its input stage exactly once, each from the worker the
    producing attempt is assigned to; a forward or merge input has one group
    per producer partition, a shuffle input one group per channel, a broadcast
    input a single group. *)
Lemma worker_input_rows :
  st_mode producer = Pipelined → st_placement producer = PlaceWorker →
  (∀ p, p < stage_partitions producer → ∃ slot,
     get (MkTaskKey (tk_job_id key) (si_stage input) p (att p)) =
       Some (AssignWorker (worker p) slot)) →
  ∃ rows, get_task_input get job key input = Ok (MkTaskInput (LocWorker (si_stage input) rows)) ∧
    mjoin rows ≡ₚ (p ← seq 0 (stage_partitions producer);
      (λ c, (worker p, MkTaskInputKey p (att p) c))
        <$> seq 0 (dist_channels (st_distribution producer))) ∧
    length rows = match si_mode input with
                  | Forward | Merge => stage_partitions producer
                  | Shuffle => dist_channels (st_distribution producer)
                  | Broadcast => 1
                  end ∧
    ∀ i row w k, rows !! i = Some row → (w, k) ∈ row →
      match si_mode input with
      | Forward | Merge => tik_partition k = i
      | Shuffle => tik_channel k = i
      | Broadcast => True
      end.
Proof.
  intros Hmode Hplace Hget.
  set (loc := λ k, (worker (tik_partition k), k)).
  assert (∀ row k, row ∈ input_rows → k ∈ row →
    locate_worker_key get key input k = Ok (loc k)) as Hloc.
  { intros row k Hrow Hk. destruct (input_rows_elem k) as [Hp Ha].
    { apply list_elem_of_join. eauto. }
    unfold locate_worker_key, input_task_key. rewrite Ha.
    by destruct (Hget _ Hp) as [slot ->]. }
  exists ((λ row : list TaskInputKey, loc <$> row) <$> input_rows). split_and!.
  - unfold get_task_input. rewrite Hproducer.
    change (input_keys _ _ _ _ _) with (input_keys key (jd_stages job) input P C).
    rewrite input_keys_ok. simpl. rewrite Hmode, Hplace.
    rewrite (collect_results_fmap _ (λ row : list TaskInputKey, loc <$> row)); [done|].
    intros row Hrow. apply collect_results_fmap. intros k Hk. by eapply Hloc.
  - transitivity (loc <$> mjoin input_rows).
    { apply reflexive_eq. clear. induction input_rows as [|r rs IH]; [done|]. simpl.
      by rewrite fmap_app, <-IH. }
    rewrite input_rows_perm. apply reflexive_eq. fold P C. generalize (seq 0 P).
    induction l as [|p l IH]; [done|]. rewrite !bind_cons, fmap_app, IH. f_equal.
    by rewrite <-list_fmap_compose.
  - rewrite length_fmap. unfold input_rows.
    destruct (si_mode input); simpl; by rewrite ?length_fmap, ?length_seq.
  - intros i row w k Hi Hk. apply list_lookup_fmap_Some in Hi as (row0 & -> & Hi).
    apply list_elem_of_fmap in Hk as (k0 & [= -> ->] & Hk).
    unfold input_rows in Hi. destruct (si_mode input); [..|done].
    all: apply list_lookup_fmap_Some in Hi as (n & -> & Hn); apply lookup_seq in Hn as [-> _];
      apply list_elem_of_fmap in Hk as (m & -> & _); done.
Qed.
End inputs.
