(* ===== verification/TaskAssigner.v ===== *)
(** * The task assigner

    [crates/zelox-execution/src/driver/task_assigner/{core,state,mod,options}.rs]:
    the queue of task regions, the task slots of the driver and the workers,
    and the placement of task sets on slots.  [IndexSet]s are lists in insertion
    order; counts that the code compares with [usize::MAX] are [N]. *)

From S2P Require Import Prelude Ids JobGraph.

(** ** Task slots and resources ([state.rs]) *)

Record TaskSlot := MkTaskSlot { slot_tasks : list TaskKey }.

Definition task_slot_default : TaskSlot := MkTaskSlot [].

Definition slot_is_vacant (slot : TaskSlot) : bool :=
  match slot_tasks slot with [] => true | _ => false end.

Definition slot_add_tasks (tasks : list TaskKey) (slot : TaskSlot) : TaskSlot :=
  MkTaskSlot (is_extend (slot_tasks slot) tasks).

Definition slot_remove_task (key : TaskKey) (slot : TaskSlot) : bool * TaskSlot :=
  let '(removed, tasks) := is_swap_remove (slot_tasks slot) key in
  (removed, MkTaskSlot tasks).

Record DriverResource := MkDriverResource {
  dr_task_slots : list TaskSlot;
  dr_local_streams : list TaskKey;
  dr_remote_streams : list TaskKey
}.

Definition driver_resource_default : DriverResource := MkDriverResource [] [] [].

(** The first vacant slot, or a new slot at the end. *)
Fixpoint add_to_first_vacant (tasks : list TaskKey) (slots : list TaskSlot) : list TaskSlot :=
  match slots with
  | [] => [slot_add_tasks tasks task_slot_default]
  | slot :: slots =>
      if slot_is_vacant slot then slot_add_tasks tasks slot :: slots
      else slot :: add_to_first_vacant tasks slots
  end.

Definition driver_add_task_set (set : TaskSet) (d : DriverResource) : DriverResource :=
  MkDriverResource (add_to_first_vacant (set_tasks set) (dr_task_slots d))
    (dr_local_streams d) (dr_remote_streams d).

(** Remove from the first slot that holds the task. *)
Fixpoint remove_from_slots (key : TaskKey) (slots : list TaskSlot) : bool * list TaskSlot :=
  match slots with
  | [] => (false, [])
  | slot :: slots =>
      let '(removed, slot) := slot_remove_task key slot in
      if (removed : bool) then (true, slot :: slots)
      else let '(removed, slots) := remove_from_slots key slots in (removed, slot :: slots)
  end.

Definition driver_remove_task (key : TaskKey) (d : DriverResource) : DriverResource :=
  MkDriverResource (remove_from_slots key (dr_task_slots d)).2
    (dr_local_streams d) (dr_remote_streams d).

Definition driver_track_local_streams (set : TaskSet) (d : DriverResource) : DriverResource :=
  MkDriverResource (dr_task_slots d) (is_extend (dr_local_streams d) (set_local_streams set))
    (dr_remote_streams d).

Definition driver_track_remote_streams (set : TaskSet) (d : DriverResource) : DriverResource :=
  MkDriverResource (dr_task_slots d) (dr_local_streams d)
    (is_extend (dr_remote_streams d) (set_remote_streams set)).

(** The streams of a job, or of one stage of it. *)
Definition stream_matches (job_id : N) (stage : option nat) (key : TaskKey) : Prop :=
  tk_job_id key = job_id ∧ match stage with Some s => tk_stage key = s | None => True end.
#[global] Instance stream_matches_dec job_id stage key : Decision (stream_matches job_id stage key).
Proof. unfold stream_matches. destruct stage; apply _. Defined.

Definition untrack_streams (job_id : N) (stage : option nat) (streams : list TaskKey)
    : bool * list TaskKey :=
  let retained := filter (λ key, ¬ stream_matches job_id stage key) streams in
  (bool_decide (length streams ≠ length retained), retained).

Definition driver_untrack_local_streams (job_id : N) (stage : option nat) (d : DriverResource)
    : bool * DriverResource :=
  let '(b, streams) := untrack_streams job_id stage (dr_local_streams d) in
  (b, MkDriverResource (dr_task_slots d) streams (dr_remote_streams d)).

Definition driver_untrack_remote_streams (job_id : N) (stage : option nat) (d : DriverResource)
    : bool * DriverResource :=
  let '(b, streams) := untrack_streams job_id stage (dr_remote_streams d) in
  (b, MkDriverResource (dr_task_slots d) (dr_local_streams d) streams).

Inductive WorkerResource :=
| WrActive (task_slots : list TaskSlot) (local_streams : list TaskKey)
| WrInactive.

Definition worker_add_task_set (slot : nat) (set : TaskSet) (w : WorkerResource) : WorkerResource :=
  match w with
  | WrActive task_slots streams =>
      WrActive (alter (slot_add_tasks (set_tasks set)) slot task_slots) streams
  | WrInactive => w
  end.

Definition worker_remove_task (key : TaskKey) (slot : nat) (w : WorkerResource) : WorkerResource :=
  match w with
  | WrActive task_slots streams =>
      WrActive (alter (λ s, (slot_remove_task key s).2) slot task_slots) streams
  | WrInactive => w
  end.

Definition worker_track_local_streams (set : TaskSet) (w : WorkerResource) : WorkerResource :=
  match w with
  | WrActive task_slots streams => WrActive task_slots (is_extend streams (set_local_streams set))
  | WrInactive => w
  end.

Definition worker_untrack_local_streams (job_id : N) (stage : option nat) (w : WorkerResource)
    : bool * WorkerResource :=
  match w with
  | WrActive task_slots streams =>
      let '(b, streams) := untrack_streams job_id stage streams in (b, WrActive task_slots streams)
  | WrInactive => (false, w)
  end.

Definition is_active (w : WorkerResource) : bool :=
  match w with WrActive _ _ => true | WrInactive => false end.

(** ** The slot assigner ([TaskSlotAssigner]) *)

(** The policy is read from the environment of the process. *)
Inductive PlacementPolicy := FillFirst | EvenSpread.

(** Vacant slots by worker; a slot is taken from the end of its vector. *)
Definition Slots : Type := list (N * list nat).

Definition pop {A} (l : list A) : option (A * list A) :=
  match last l with
  | Some x => Some (x, take (pred (length l)) l)
  | None => None
  end.

(** [find_map] over the workers: the first worker with a slot left. *)
Fixpoint next_fill_first (slots : Slots) : option (N * nat) * Slots :=
  match slots with
  | [] => (None, [])
  | (worker_id, free) :: rest =>
      match pop free with
      | Some (slot, free) => (Some (worker_id, slot), (worker_id, free) :: rest)
      | None => let '(r, rest) := next_fill_first rest in (r, (worker_id, free) :: rest)
      end
  end.

(** The index of the first worker with the most free slots, if any is free. *)
Definition best_worker (slots : Slots) : option nat :=
  (foldl (λ '(best, best_len) '(i, (_, free)),
            if decide (best_len < length free) then (Some i, length free) else (best, best_len))
     (None, 0) (imap pair slots)).1.

Definition next_even_spread (slots : Slots) : Run (option (N * nat) * Slots) :=
  match best_worker slots with
  | None => Returns (None, slots)
  | Some i =>
      '(worker_id, free) ← vec_index slots i;
      match pop free with
      | Some (slot, free) => Returns (Some (worker_id, slot), <[i := (worker_id, free)]> slots)
      | None => Returns (None, slots)
      end
  end.

Definition next_slot (policy : PlacementPolicy) (slots : Slots)
    : Run (option (N * nat) * Slots) :=
  match policy with
  | FillFirst => Returns (next_fill_first slots)
  | EvenSpread => next_even_spread slots
  end.

(** The loop of [try_assign_task_region]; [None] says that the region is
    handed back. *)
Fixpoint assign_sets (policy : PlacementPolicy) (slots : Slots)
    (assignments : list TaskSetAssignment) (tasks : list (TaskPlacement * TaskSet))
    : Run (option (list TaskSetAssignment) * Slots) :=
  match tasks with
  | [] => Returns (Some assignments, slots)
  | (PlaceDriver, set) :: tasks =>
      assign_sets policy slots (assignments ++ [MkTaskSetAssignment set AssignDriver]) tasks
  | (PlaceWorker, set) :: tasks =>
      '(next, slots) ← next_slot policy slots;
      match next with
      | Some (worker_id, slot) =>
          assign_sets policy slots
            (assignments ++ [MkTaskSetAssignment set (AssignWorker worker_id slot)]) tasks
      | None => Returns (None, slots)
      end
  end.

Definition try_assign_task_region (policy : PlacementPolicy) (slots : Slots) (region : TaskRegion)
    : Run (Result TaskRegion (list TaskSetAssignment) * Slots) :=
  '(r, slots) ← assign_sets policy slots [] (region_tasks region);
  Returns (match r with Some assignments => Ok assignments | None => Err region end, slots).

(** The [while let Some(region) = queue.pop_front()] loop of [assign_tasks]. *)
Fixpoint assign_queue (policy : PlacementPolicy) (slots : Slots)
    (assignments : list TaskSetAssignment) (queue : list TaskRegion)
    : Run (list TaskSetAssignment * list TaskRegion) :=
  match queue with
  | [] => Returns (assignments, [])
  | region :: queue =>
      '(r, slots) ← try_assign_task_region policy slots region;
      match r with
      | Ok x => assign_queue policy slots (assignments ++ x) queue
      | Err region => Returns (assignments, region :: queue)
      end
  end.

(** ** The assigner *)

Record TaskAssignerOptions := MkTaskAssignerOptions {
  worker_task_slots : N;
  worker_max_count : N
}.

Record TaskAssigner := MkTaskAssigner {
  as_options : TaskAssignerOptions;
  as_driver : DriverResource;
  as_workers : list (N * WorkerResource);
  as_requested_worker_count : N;
  as_task_assignments : list (TaskKey * TaskAssignment);
  as_task_queue : list TaskRegion
}.

Definition task_assigner_new (options : TaskAssignerOptions) : TaskAssigner :=
  MkTaskAssigner options driver_resource_default [] 0 [] [].

Definition as_with_requested (self : TaskAssigner) (n : N) : TaskAssigner :=
  MkTaskAssigner (as_options self) (as_driver self) (as_workers self) n
    (as_task_assignments self) (as_task_queue self).
Definition as_with_driver (self : TaskAssigner) (d : DriverResource) : TaskAssigner :=
  MkTaskAssigner (as_options self) d (as_workers self) (as_requested_worker_count self)
    (as_task_assignments self) (as_task_queue self).
Definition as_with_workers (self : TaskAssigner) (ws : list (N * WorkerResource)) : TaskAssigner :=
  MkTaskAssigner (as_options self) (as_driver self) ws (as_requested_worker_count self)
    (as_task_assignments self) (as_task_queue self).
Definition as_with_assignments (self : TaskAssigner) (m : list (TaskKey * TaskAssignment))
    : TaskAssigner :=
  MkTaskAssigner (as_options self) (as_driver self) (as_workers self)
    (as_requested_worker_count self) m (as_task_queue self).
Definition as_with_queue (self : TaskAssigner) (q : list TaskRegion) : TaskAssigner :=
  MkTaskAssigner (as_options self) (as_driver self) (as_workers self)
    (as_requested_worker_count self) (as_task_assignments self) q.

Definition is_worker_set (x : TaskPlacement * TaskSet) : bool :=
  match x.1 with PlaceWorker => true | PlaceDriver => false end.

Definition worker_sets (region : TaskRegion) : nat :=
  length (filter (λ x, is_worker_set x = true) (region_tasks region)).

Definition vacant_slot_count (w : WorkerResource) : nat :=
  match w with
  | WrActive task_slots _ => length (filter (λ s, slot_is_vacant s = true) task_slots)
  | WrInactive => 0
  end.

Definition enqueued_slots (self : TaskAssigner) : N :=
  N.of_nat (sum_list (worker_sets <$> as_task_queue self)).
Definition vacant_slots (self : TaskAssigner) : N :=
  N.of_nat (sum_list (vacant_slot_count <$> im_values (as_workers self))).
Definition active_workers (self : TaskAssigner) : N :=
  N.of_nat (length (filter (λ w, is_active w = true) (im_values (as_workers self)))).

Definition request_workers (self : TaskAssigner) : Run (N * TaskAssigner) :=
  let required_slots := saturating_sub_usize (enqueued_slots self) (vacant_slots self) in
  let allowed_workers :=
    if decide (worker_max_count (as_options self) = 0)%N then u64_max
    else saturating_sub_usize
           (saturating_sub_usize (worker_max_count (as_options self))
              (as_requested_worker_count self))
           (active_workers self) in
  quotient ← div_ceil required_slots (worker_task_slots (as_options self));
  let required_workers := N.min quotient allowed_workers in
  Returns (required_workers,
           as_with_requested self
             (saturating_add_usize (as_requested_worker_count self) required_workers)).

Definition track_worker_failed_to_start (self : TaskAssigner) : TaskAssigner :=
  as_with_requested self (saturating_sub_usize (as_requested_worker_count self) 1).

Definition activate_worker (self : TaskAssigner) (worker_id : N) : TaskAssigner :=
  let self := as_with_requested self (saturating_sub_usize (as_requested_worker_count self) 1) in
  match im_get worker_id (as_workers self) with
  | Some _ => self
  | None =>
      as_with_workers self
        (im_insert worker_id
           (WrActive (replicate (N.to_nat (worker_task_slots (as_options self))) task_slot_default) [])
           (as_workers self))
  end.

Definition deactivate_worker (self : TaskAssigner) (worker_id : N) : TaskAssigner :=
  match im_get worker_id (as_workers self) with
  | Some (WrActive _ _) => as_with_workers self (im_insert worker_id WrInactive (as_workers self))
  | _ => self
  end.

Definition enqueue_tasks (self : TaskAssigner) (region : TaskRegion) : TaskAssigner :=
  as_with_queue self (as_task_queue self ++ [region]).

Definition exclude_task (self : TaskAssigner) (key : TaskKey) : TaskAssigner :=
  as_with_queue self (filter (λ r, region_contains r key = false) (as_task_queue self)).

Definition free_slots (w : WorkerResource) : list nat :=
  match w with
  | WrInactive => []
  | WrActive task_slots _ =>
      omap (λ '(i, s), if slot_is_vacant s then Some i else None) (imap pair task_slots)
  end.

Definition build_worker_task_slot_assigner (self : TaskAssigner) : Slots :=
  omap (λ '(id, w), match free_slots w with [] => None | slots => Some (id, slots) end)
    (as_workers self).

Definition record_assignments (keys : list TaskKey) (a : TaskAssignment)
    (m : list (TaskKey * TaskAssignment)) : list (TaskKey * TaskAssignment) :=
  foldl (λ m key, im_insert key a m) m keys.

(** The loop that updates the driver and the workers. *)
Definition apply_assignment (self : TaskAssigner) (x : TaskSetAssignment) : TaskAssigner :=
  match tsa_assignment x with
  | AssignDriver =>
      as_with_assignments (as_with_driver self (driver_add_task_set (tsa_set x) (as_driver self)))
        (record_assignments (set_tasks (tsa_set x)) AssignDriver (as_task_assignments self))
  | AssignWorker worker_id slot =>
      match im_get worker_id (as_workers self) with
      | Some worker =>
          as_with_assignments
            (as_with_workers self
               (im_insert worker_id (worker_add_task_set slot (tsa_set x) worker) (as_workers self)))
            (record_assignments (set_tasks (tsa_set x)) (AssignWorker worker_id slot)
               (as_task_assignments self))
      | None => self
      end
  end.

Definition assign_tasks (policy : PlacementPolicy) (self : TaskAssigner)
    : Run (list TaskSetAssignment * TaskAssigner) :=
  if decide (0 < as_requested_worker_count self)%N then Returns ([], self)
  else
    '(assignments, queue) ← assign_queue policy (build_worker_task_slot_assigner self) []
                              (as_task_queue self);
    Returns (assignments, foldl apply_assignment (as_with_queue self queue) assignments).

Definition unassign_task (self : TaskAssigner) (key : TaskKey)
    : option TaskAssignment * TaskAssigner :=
  match im_get key (as_task_assignments self) with
  | None => (None, self)
  | Some AssignDriver =>
      (Some AssignDriver, as_with_driver self (driver_remove_task key (as_driver self)))
  | Some (AssignWorker worker_id slot) =>
      match im_get worker_id (as_workers self) with
      | None => (None, self)
      | Some worker =>
          (Some (AssignWorker worker_id slot),
           as_with_workers self
             (im_insert worker_id (worker_remove_task key slot worker) (as_workers self)))
      end
  end.

Definition track_assignment_streams (self : TaskAssigner) (x : TaskSetAssignment) : TaskAssigner :=
  let self := as_with_driver self (driver_track_remote_streams (tsa_set x) (as_driver self)) in
  match tsa_assignment x with
  | AssignDriver =>
      as_with_driver self (driver_track_local_streams (tsa_set x) (as_driver self))
  | AssignWorker worker_id _ =>
      match im_get worker_id (as_workers self) with
      | Some worker =>
          as_with_workers self
            (im_insert worker_id (worker_track_local_streams (tsa_set x) worker) (as_workers self))
      | None => self
      end
  end.

Definition track_streams (self : TaskAssigner) (assignments : list TaskSetAssignment)
    : TaskAssigner :=
  foldl track_assignment_streams self assignments.

(** One pass over the workers: those that owned a stream, and the workers
    after the removal. *)
Definition untrack_workers (job_id : N) (stage : option nat) (workers : list (N * WorkerResource))
    : list N * list (N * WorkerResource) :=
  let rs := (λ '(id, w), (id, worker_untrack_local_streams job_id stage w)) <$> workers in
  (omap (λ '(id, (owned, _)), if (owned : bool) then Some id else None) rs,
   (λ '(id, (_, w)), (id, w)) <$> rs).

(** The elements of the [HashSet] returned; its order is not specified. *)
Definition untrack_local_streams (self : TaskAssigner) (job_id : N) (stage : option nat)
    : list TaskStreamAssignment * TaskAssigner :=
  let '(owned, d) := driver_untrack_local_streams job_id stage (as_driver self) in
  let '(owners, ws) := untrack_workers job_id stage (as_workers self) in
  ((if (owned : bool) then [StreamDriver] else []) ++ (StreamWorker <$> owners),
   as_with_workers (as_with_driver self d) ws).

Definition untrack_remote_streams (self : TaskAssigner) (job_id : N) (stage : option nat)
    : bool * TaskAssigner :=
  let '(owned, d) := driver_untrack_remote_streams job_id stage (as_driver self) in
  (owned, as_with_driver self d).

Definition is_worker_idle (self : TaskAssigner) (worker_id : N) : bool :=
  match im_get worker_id (as_workers self) with
  | Some (WrActive slots streams) =>
      forallb slot_is_vacant slots && bool_decide (streams = [])
  | _ => false
  end.

Definition find_worker_tasks (self : TaskAssigner) (worker_id : N) : list TaskKey :=
  match im_get worker_id (as_workers self) with
  | Some (WrActive slots _) => slots ≫= slot_tasks
  | _ => []
  end.

(** [impl TaskAssignmentGetter for TaskAssigner]. *)
Definition get_assignment (self : TaskAssigner) (key : TaskKey) : option TaskAssignment :=
  im_get key (as_task_assignments self).
