(* ===== verification/TaskAssignerFacts.v ===== *)
(** * The task assigner: placement, invariant and resource bounds *)

From S2P Require Import Prelude Ids JobGraph TaskAssigner.

(** ** Taking slots *)

Definition slot_pairs (slots : Slots) : list (N * nat) :=
  '(w, free) ← slots; pair w <$> free.

Lemma pop_spec {A} (l : list A) :
  match pop l with
  | Some (x, l') => l = l' ++ [x]
  | None => l = []
  end.
Proof.
  unfold pop. destruct (last l) as [x|] eqn:Hl; [|by apply last_None].
  apply last_Some in Hl as [l' ->]. rewrite length_app, Nat.add_1_r. simpl.
  by rewrite take_app_length.
Qed.

Lemma next_fill_first_spec slots :
  match next_fill_first slots with
  | (Some x, slots') => slot_pairs slots ≡ₚ x :: slot_pairs slots'
  | (None, slots') => slot_pairs slots = [] ∧ slots' = slots
  end.
Proof.
  induction slots as [|[w free] slots IH]; [done|]. simpl.
  pose proof (pop_spec free) as Hp. destruct (pop free) as [[s free']|]; subst free.
  - unfold slot_pairs. rewrite !bind_cons, fmap_app. simpl.
    rewrite <-(assoc_L (++)). simpl. by rewrite <-Permutation_middle.
  - destruct (next_fill_first slots) as [[x|] slots']; [|naive_solver].
    unfold slot_pairs in *. rewrite !bind_cons. done.
Qed.

(** The worker the even-spread policy picks: the most free slots, and the first
    such worker. *)
Definition picks (slots : Slots) (i : nat) : Prop :=
  ∃ w free, slots !! i = Some (w, free) ∧ free ≠ [] ∧
    (∀ j w' free', slots !! j = Some (w', free') → length free' ≤ length free) ∧
    (∀ j w' free', slots !! j = Some (w', free') → j < i → length free' < length free).

Lemma best_worker_fold (slots : list (N * list nat)) :
  match foldl (λ '(best, best_len) '(i, (_, free)),
            if decide (best_len < length free) then (Some i, length free) else (best, best_len))
     (None, 0) (imap pair slots : list (nat * (N * list nat))) with
  | (Some i, n) => ∃ w free, slots !! i = Some (w, free) ∧ n = length free ∧ free ≠ [] ∧
      (∀ j w' free', slots !! j = Some (w', free') → length free' ≤ length free) ∧
      (∀ j w' free', slots !! j = Some (w', free') → j < i → length free' < length free)
  | (None, n) => n = 0 ∧ ∀ j w' free', slots !! j = Some (w', free') → free' = []
  end.
Proof.
  induction slots as [|[w0 free0] slots IH] using rev_ind; [done|].
  rewrite imap_app. simpl. rewrite foldl_app. simpl. rewrite Nat.add_0_r.
  destruct (foldl _ _ _) as [[i|] n].
  - destruct IH as (w & free & Hi & -> & Hne & Hmax & Hfst). case_decide as Hd.
    + exists w0, free0. rewrite list_lookup_middle by done. split_and!; [done|done| |..].
      * intros ->. simpl in Hd. lia.
      * intros j w' f' [Hj|[_ Hj]]%lookup_app_Some; [specialize (Hmax _ _ _ Hj); lia|].
        apply list_lookup_singleton_Some in Hj as [_ [= <- <-]]. done.
      * intros j w' f' [Hj|[Hge _]]%lookup_app_Some Hlt; [specialize (Hmax _ _ _ Hj); lia|lia].
    + exists w, free. split_and!; [by apply lookup_app_l_Some|done|done|..].
      * intros j w' f' [Hj|[_ Hj]]%lookup_app_Some; [by eapply Hmax|].
        apply list_lookup_singleton_Some in Hj as [_ [= <- <-]]. lia.
      * intros j w' f' [Hj|[Hge _]]%lookup_app_Some Hlt; [by eapply Hfst|].
        apply lookup_lt_Some in Hi. lia.
  - destruct IH as [-> Hnil]. case_decide as Hd.
    + exists w0, free0. rewrite list_lookup_middle by done. split_and!; [done|done| |..].
      * intros ->. simpl in Hd. lia.
      * intros j w' f' [Hj|[_ Hj]]%lookup_app_Some; [rewrite (Hnil _ _ _ Hj); simpl; lia|].
        apply list_lookup_singleton_Some in Hj as [_ [= <- <-]]. done.
      * intros j w' f' [Hj|[Hge _]]%lookup_app_Some Hlt; [rewrite (Hnil _ _ _ Hj); simpl; lia|lia].
    + split; [done|]. intros j w' f' [Hj|[_ Hj]]%lookup_app_Some; [by eapply Hnil|].
      apply list_lookup_singleton_Some in Hj as [_ [= <- <-]]. destruct free0; simpl in Hd; [done|lia].
Qed.

Lemma best_worker_spec slots :
  match best_worker slots with
  | Some i => picks slots i
  | None => ∀ j w' free', slots !! j = Some (w', free') → free' = []
  end.
Proof.
  unfold best_worker. pose proof (best_worker_fold slots) as Hf.
  destruct (foldl _ _ _) as [[i|] n]; simpl; [|by destruct Hf].
  destruct Hf as (w & free & ? & _ & ? & ? & ?). by exists w, free.
Qed.

Lemma slot_pairs_insert (slots : list (N * list nat)) i w free s :
  slots !! i = Some (w, free ++ [s]) →
  slot_pairs slots ≡ₚ (w, s) :: slot_pairs (<[i := (w, free)]> slots).
Proof.
  intros (l1 & l2 & -> & ->)%list_elem_of_split_length.
  rewrite insert_app_r_alt, Nat.sub_diag by lia. simpl. unfold slot_pairs.
  rewrite !bind_app, !bind_cons, fmap_app. simpl.
  rewrite <-(assoc_L (++) (pair w <$> free)). simpl. by rewrite <-!Permutation_middle.
Qed.

Lemma slot_pairs_nil (slots : list (N * list nat)) :
  (∀ j w' free', slots !! j = Some (w', free') → free' = []) → slot_pairs slots = [].
Proof.
  unfold slot_pairs. induction slots as [|[w free] slots IH]; intros Hn; [done|].
  rewrite bind_cons. rewrite (Hn 0 w free eq_refl). simpl. apply IH. intros j. apply (Hn (S j)).
Qed.

(** Taking a slot removes exactly it from the vacant ones, under both policies. *)
Lemma total_next_slot policy slots :
  next_slot policy slots ⇓ λ '(r, slots'),
    match r with
    | Some x => slot_pairs slots ≡ₚ x :: slot_pairs slots'
    | None => slot_pairs slots = [] ∧ slots' = slots
    end.
Proof.
  destruct policy; simpl.
  - pose proof (next_fill_first_spec slots) as Hn. by destruct (next_fill_first slots) as [[x|] ?].
  - unfold next_even_spread. pose proof (best_worker_spec slots) as Hb.
    destruct (best_worker slots) as [i|]; simpl; [|split; [by apply slot_pairs_nil|done]].
    destruct Hb as (w & free & Hi & Hne & _ & _). apply total_bind.
    eapply total_vec_index; [done|]. cbv beta iota. pose proof (pop_spec free) as Hp.
    destruct (pop free) as [[s free']|]; simpl; [|done]. subst free. by apply slot_pairs_insert.
Qed.

(** ** Assigning sets, regions and the queue *)

Definition assigned_slot (a : TaskSetAssignment) : option (N * nat) :=
  match tsa_assignment a with AssignDriver => None | AssignWorker w s => Some (w, s) end.

Definition assigned_slots (l : list TaskSetAssignment) : list (N * nat) := omap assigned_slot l.

(** The assignment places the set where its placement says. *)
Definition places (x : TaskPlacement * TaskSet) (a : TaskSetAssignment) : Prop :=
  tsa_set a = x.2 ∧ (x.1 = PlaceDriver ↔ tsa_assignment a = AssignDriver).

Definition worker_set_count (tasks : list (TaskPlacement * TaskSet)) : nat :=
  length (filter (λ x, is_worker_set x = true) tasks).

Lemma total_assign_sets policy slots assignments tasks :
  assign_sets policy slots assignments tasks ⇓ λ '(r, slots'),
    match r with
    | Some all => ∃ l, all = assignments ++ l ∧ Forall2 places tasks l ∧
        slot_pairs slots ≡ₚ assigned_slots l ++ slot_pairs slots'
    | None => length (slot_pairs slots) < worker_set_count tasks
    end.
Proof.
  revert slots assignments. induction tasks as [|[pl set] tasks IH]; intros slots assignments.
  { exists []. by rewrite app_nil_r. }
  destruct pl; simpl.
  - eapply total_mono; [apply IH|]. intros [[all|] slots'] Hr; [|done].
    destruct Hr as (l & -> & Hf & Hp). exists (MkTaskSetAssignment set AssignDriver :: l).
    split_and!; [by rewrite <-(assoc_L (++))|by constructor|done].
  - apply total_bind. eapply total_mono; [apply total_next_slot|].
    intros [[[w s]|] slots1] Hn; simpl.
    + eapply total_mono; [apply IH|]. intros [[all|] slots'] Hr.
      * destruct Hr as (l & -> & Hf & Hp). exists (MkTaskSetAssignment set (AssignWorker w s) :: l).
        split_and!; [by rewrite <-(assoc_L (++))| |].
        { constructor; [|done]. split; [done|]. by split. }
        simpl. by rewrite Hn, Hp.
      * rewrite Hn. unfold worker_set_count in *. rewrite filter_cons, decide_True by done.
        simpl. lia.
    + destruct Hn as [-> ->]. unfold worker_set_count. rewrite filter_cons, decide_True by done.
      simpl. lia.
Qed.

Lemma total_assign_queue policy slots assignments queue :
  assign_queue policy slots assignments queue ⇓ λ '(all, queue'),
    ∃ done l slots', queue = done ++ queue' ∧ all = assignments ++ l ∧
      Forall2 places (done ≫= region_tasks) l ∧
      slot_pairs slots ≡ₚ assigned_slots l ++ slot_pairs slots' ∧
      match queue' with
      | [] => True
      | region :: _ => length (slot_pairs slots') < worker_sets region
      end.
Proof.
  revert slots assignments. induction queue as [|region queue IH]; intros slots assignments.
  { exists [], [], slots. split_and!; [done|by rewrite app_nil_r|constructor|done|done]. }
  simpl. unfold try_assign_task_region. apply total_bind. apply total_bind.
  eapply total_mono; [apply total_assign_sets|]. intros [[all|] slots1] Hr; simpl.
  - destruct Hr as (l & -> & Hf & Hp). eapply total_mono; [apply IH|].
    intros [all' queue'] (dn & l' & slots' & -> & -> & Hf' & Hp' & Hq).
    exists (region :: dn), (l ++ l'), slots'. split_and!; [done|simpl; by rewrite app_assoc| | |done].
    + rewrite bind_cons. by apply Forall2_app.
    + unfold assigned_slots in *. rewrite omap_app, Hp, Hp'. by rewrite (assoc_L (++)).
  - exists [], [], slots. split_and!; [done|by rewrite app_nil_r|constructor|done|done].
Qed.

(** ** The vacant slots of the assigner *)

(** Slot [i] of worker [w]. *)
Definition worker_slot (workers : list (N * WorkerResource)) (w : N) (i : nat) : option TaskSlot :=
  match im_get w workers with
  | Some (WrActive slots _) => slots !! i
  | _ => None
  end.

Lemma elem_of_free_slots w i :
  i ∈ free_slots w ↔ ∃ slots streams s, w = WrActive slots streams ∧ slots !! i = Some s ∧
    slot_is_vacant s = true.
Proof.
  destruct w as [slots streams|]; simpl; [|set_solver]. rewrite list_elem_of_omap. split.
  - intros ([j s] & Hj%elem_of_imap_pair & Hs).
    destruct (slot_is_vacant s) eqn:Hv; simplify_eq. eauto 10.
  - intros (slots' & streams' & s & [= <- <-] & Hi & Hv). exists (i, s).
    rewrite elem_of_imap_pair, Hv. done.
Qed.

Lemma NoDup_free_slots w : NoDup (free_slots w).
Proof.
  destruct w as [slots streams|]; simpl; [|constructor].
  apply NoDup_omap_inj; [apply NoDup_imap_pair|].
  intros [i s] [j s'] x Hi%elem_of_imap_pair Hj%elem_of_imap_pair.
  destruct (slot_is_vacant s), (slot_is_vacant s'); intros; simplify_eq; done.
Qed.

Lemma slot_pairs_build self :
  slot_pairs (build_worker_task_slot_assigner self) =
    '(w, r) ← as_workers self; pair w <$> free_slots r.
Proof.
  unfold slot_pairs, build_worker_task_slot_assigner.
  induction (as_workers self) as [|[w r] l IH]; [done|]. rewrite bind_cons, <-IH. simpl.
  by destruct (free_slots r) as [|i free].
Qed.

Lemma elem_of_build self w i :
  im_wf (as_workers self) →
  (w, i) ∈ slot_pairs (build_worker_task_slot_assigner self) ↔
  ∃ s, worker_slot (as_workers self) w i = Some s ∧ slot_is_vacant s = true.
Proof.
  intros Hwf. rewrite slot_pairs_build, list_elem_of_bind. unfold worker_slot. split.
  - intros ([w' r] & Hin & Hr). apply list_elem_of_fmap in Hin as (j & [= -> ->] & Hj).
    apply elem_of_free_slots in Hj as (slots & streams & s & -> & Hs & Hv).
    rewrite (im_elem_of_get _ _ _ Hwf Hr). eauto.
  - intros (s & Hs & Hv). destruct (im_get w (as_workers self)) as [r|] eqn:Hw; [|done].
    destruct r as [slots streams|]; [|done]. exists (w, WrActive slots streams).
    split; [|by apply im_get_elem_of]. apply list_elem_of_fmap. exists i. split; [done|].
    apply elem_of_free_slots. eauto 10.
Qed.

Lemma NoDup_build self :
  im_wf (as_workers self) → NoDup (slot_pairs (build_worker_task_slot_assigner self)).
Proof.
  intros Hwf. rewrite slot_pairs_build. apply NoDup_bind.
  - intros [w r] [w' r'] [x i] H1 H2.
    intros (j & [= -> ->] & _)%list_elem_of_fmap (j' & [= -> ->] & _)%list_elem_of_fmap.
    f_equal. apply (im_elem_of_get _ _ _ Hwf) in H1, H2. congruence.
  - intros [w r] _. apply NoDup_fmap_2; [by intros ?? [= ->]|apply NoDup_free_slots].
  - by eapply NoDup_fmap_1.
Qed.

Lemma vacant_slots_build self :
  vacant_slots self = N.of_nat (length (slot_pairs (build_worker_task_slot_assigner self))).
Proof.
  unfold vacant_slots, im_values. rewrite slot_pairs_build. f_equal.
  induction (as_workers self) as [|[w r] l IH]; [done|].
  rewrite bind_cons, length_app, <-IH. simpl. f_equal. rewrite length_fmap.
  destruct r as [slots streams|]; simpl; [|done]. clear.
  assert (∀ (F : nat → TaskSlot → nat * TaskSlot), (∀ i s, (F i s).2 = s) →
    length (filter (λ s, slot_is_vacant s = true) slots) =
    length (omap (λ '(i, s), if slot_is_vacant s then Some i else None) (imap F slots))) as Hgen;
    [|by apply Hgen].
  induction slots as [|s slots IH]; intros F HF; [done|]. rewrite imap_cons, filter_cons. simpl.
  specialize (IH (F ∘ S) (λ i s, HF (S i) s)).
  pose proof (HF 0 s) as H0. destruct (F 0 s) as [i s']. simpl in H0. subst s'.
  destruct (slot_is_vacant s); simpl; by rewrite IH.
Qed.

(** ** The invariant *)

Definition queue_keys (queue : list TaskRegion) : list TaskKey :=
  '(_, set) ← queue ≫= region_tasks; set_tasks set.

Definition assignment_keys (l : list TaskSetAssignment) : list TaskKey :=
  a ← l; set_tasks (tsa_set a).

(** Slots hold tasks without duplicates, and the lookup table says where each
    of them is. *)
Record slots_wf (self : TaskAssigner) : Prop := {
  sw_workers : im_wf (as_workers self);
  sw_worker_slot : ∀ w i s, worker_slot (as_workers self) w i = Some s →
    NoDup (slot_tasks s) ∧
    ∀ key, key ∈ slot_tasks s → get_assignment self key = Some (AssignWorker w i);
  sw_driver_nodup : NoDup (dr_task_slots (as_driver self) ≫= slot_tasks);
  sw_driver : ∀ key, key ∈ dr_task_slots (as_driver self) ≫= slot_tasks →
    get_assignment self key = Some AssignDriver
}.

(** The tasks waiting in the queue are distinct and were not assigned before. *)
Definition fresh_keys (self : TaskAssigner) (keys : list TaskKey) : Prop :=
  NoDup keys ∧ ∀ key, key ∈ keys → get_assignment self key = None.

Record assigner_wf (self : TaskAssigner) : Prop := {
  aw_slots : slots_wf self;
  aw_queue : fresh_keys self (queue_keys (as_task_queue self))
}.

Lemma im_get_record key keys a m :
  im_get key (record_assignments keys a m) = if decide (key ∈ keys) then Some a else im_get key m.
Proof.
  unfold record_assignments. revert m. induction keys as [|k keys IH]; intros m; cbn [foldl].
  { rewrite decide_False; [done|set_solver]. }
  rewrite IH, im_get_insert. destruct (decide (key ∈ keys)) as [Hk|Hk].
  - rewrite decide_True; [done|set_solver].
  - case_decide; subst.
    + rewrite decide_True; [done|set_solver].
    + rewrite decide_False; [done|set_solver].
Qed.

Lemma add_to_first_vacant_perm tasks slots :
  NoDup tasks →
  add_to_first_vacant tasks slots ≫= slot_tasks ≡ₚ (slots ≫= slot_tasks) ++ tasks.
Proof.
  intros Hnd.
  assert (is_extend [] tasks = tasks) as Hext.
  { assert (∀ l, NoDup (l ++ tasks) → is_extend l tasks = l ++ tasks) as Hg; [|by apply (Hg [])].
    clear Hnd. unfold is_extend. induction tasks as [|t tasks IH]; intros l Hl; simpl.
    - by rewrite app_nil_r.
    - assert (t ∉ l) as Ht by (apply NoDup_app in Hl as (_ & Hd & _); intros Hin; apply (Hd t Hin); set_solver).
      rewrite IH; unfold is_insert; rewrite decide_False by done; rewrite <-(assoc_L (++)); done. }
  induction slots as [|s slots IH]; simpl.
  { by rewrite Hext, app_nil_r. }
  destruct (slot_is_vacant s) eqn:Hv; simpl.
  - unfold slot_is_vacant in Hv. destruct (slot_tasks s); [|done]. rewrite Hext. simpl.
    apply Permutation_app_comm.
  - rewrite IH. by rewrite (assoc_L (++)).
Qed.

(** Recording where fresh tasks go forgets nothing. *)
Lemma recorded_assignments self self' keys a rest :
  fresh_keys self (keys ++ rest) →
  as_task_assignments self' = record_assignments keys a (as_task_assignments self) →
  (∀ key, key ∈ keys → get_assignment self' key = Some a) ∧
  (∀ key b, get_assignment self key = Some b → key ∉ keys ∧ get_assignment self' key = Some b) ∧
  fresh_keys self' rest.
Proof.
  intros [Hnd Hfr] Hrec. apply NoDup_app in Hnd as (Hndt & Hdis & Hndr).
  unfold fresh_keys, get_assignment in *. rewrite Hrec. split_and!; [| |done|].
  - intros key Hk. by rewrite im_get_record, decide_True.
  - intros key b Hb. assert (key ∉ keys) as Hk.
    { intros Hk. rewrite Hfr in Hb; [done|set_solver]. }
    by rewrite im_get_record, decide_False.
  - intros key Hk. rewrite im_get_record, decide_False; [apply Hfr; set_solver|].
    intros Ht. by apply (Hdis key).
Qed.

Lemma apply_driver_wf self set rest :
  slots_wf self → fresh_keys self (set_tasks set ++ rest) →
  let self' := as_with_assignments (as_with_driver self (driver_add_task_set set (as_driver self)))
    (record_assignments (set_tasks set) AssignDriver (as_task_assignments self)) in
  slots_wf self' ∧ fresh_keys self' rest.
Proof.
  intros [Hwf Hws Hdn Hd] Hf self'.
  destruct (recorded_assignments self self' _ _ _ Hf eq_refl) as (Hnew & Hold & Hrest).
  destruct Hf as [[Hnd _]%NoDup_app _].
  split; [|done]. split; [done| |..].
  - intros w i s Hs. destruct (Hws w i s Hs) as [Hn Hk]. split; [done|].
    intros key Hkey. by apply Hold, Hk.
  - simpl. rewrite add_to_first_vacant_perm by done. apply NoDup_app. split_and!; [done| |done].
    intros key Hk. by eapply Hold, Hd.
  - intros key. simpl. rewrite add_to_first_vacant_perm by done.
    intros [Hk|Hk]%elem_of_app; [by apply Hold, Hd|by apply Hnew].
Qed.

Lemma apply_worker_wf self w i r set rest :
  slots_wf self → fresh_keys self (set_tasks set ++ rest) → im_get w (as_workers self) = Some r →
  let self' := as_with_assignments
    (as_with_workers self (im_insert w (worker_add_task_set i set r) (as_workers self)))
    (record_assignments (set_tasks set) (AssignWorker w i) (as_task_assignments self)) in
  slots_wf self' ∧ fresh_keys self' rest.
Proof.
  intros [Hwf Hws Hdn Hd] Hf Hw self'.
  destruct (recorded_assignments self self' _ _ _ Hf eq_refl) as (Hnew & Hold & Hrest).
  assert (∀ w' j s, worker_slot (as_workers self) w' j = Some s → NoDup (slot_tasks s) ∧
    ∀ key, key ∈ slot_tasks s → get_assignment self' key = Some (AssignWorker w' j)) as Hkeep.
  { intros w' j s Hs. destruct (Hws w' j s Hs) as [Hn Hk]. split; [done|].
    intros key Hkey. by apply Hold, Hk. }
  split; [|done]. split; [simpl; auto with total| |done|].
  - intros w' j s. unfold worker_slot in Hkeep |- *. simpl. rewrite im_get_insert.
    destruct (decide (w = w')) as [<-|Hne]; [|apply Hkeep].
    destruct r as [slots streams|]; simpl; [|done]. rewrite list_lookup_alter.
    case_decide as Hij; [subst j|specialize (Hkeep w j s); rewrite Hw in Hkeep; apply Hkeep].
    destruct (slots !! i) as [s0|] eqn:Hs0; simpl; [|done]. intros [= <-].
    destruct (Hkeep w i s0) as [Hn Hk]; [by rewrite Hw|].
    split; [by apply NoDup_is_extend|]. intros key [Hkey|Hkey]%elem_of_is_extend; auto.
  - intros key Hk. by apply Hold, Hd.
Qed.

(** Placing a set of fresh tasks keeps the slots in order. *)
Lemma apply_assignment_wf self x rest :
  slots_wf self → fresh_keys self (set_tasks (tsa_set x) ++ rest) →
  slots_wf (apply_assignment self x) ∧ fresh_keys (apply_assignment self x) rest ∧
  as_task_queue (apply_assignment self x) = as_task_queue self.
Proof.
  intros Hw Hf. unfold apply_assignment. destruct (tsa_assignment x) as [|w i].
  - destruct (apply_driver_wf self (tsa_set x) rest Hw Hf). done.
  - destruct (im_get w (as_workers self)) as [r|] eqn:Hr.
    + destruct (apply_worker_wf self w i r (tsa_set x) rest Hw Hf Hr). done.
    + destruct Hf as [Hnd Hfr]. apply NoDup_app in Hnd as (_ & _ & Hndr).
      split_and!; [done|split; [done|]|done]. intros key Hk. apply Hfr. set_solver.
Qed.

(** ** The operations preserve the invariant *)

Lemma foldl_apply_wf l self :
  slots_wf self → fresh_keys self (assignment_keys l) →
  slots_wf (foldl apply_assignment self l) ∧
  as_task_queue (foldl apply_assignment self l) = as_task_queue self.
Proof.
  revert self. induction l as [|x l IH]; intros self Hw Hf; [done|]. simpl.
  destruct (apply_assignment_wf self x (assignment_keys l)) as (Hw' & Hf' & Hq); [done..|].
  rewrite <-Hq. by apply IH.
Qed.


(** The workers keep their identity. *)
Lemma apply_assignment_workers self x w :
  is_Some (im_get w (as_workers (apply_assignment self x))) ↔ is_Some (im_get w (as_workers self)).
Proof.
  unfold apply_assignment. destruct (tsa_assignment x) as [|w' i]; [done|].
  destruct (im_get w' (as_workers self)) as [r|] eqn:Hw; [|done]. simpl.
  rewrite im_get_insert. case_decide; [subst; rewrite Hw; split; by eexists|done].
Qed.

(** The assignment can be carried out: its worker slot exists. *)
Definition slot_exists (self : TaskAssigner) (x : TaskSetAssignment) : Prop :=
  match assigned_slot x with
  | None => True
  | Some (w, i) => is_Some (worker_slot (as_workers self) w i)
  end.

Lemma apply_assignment_get self x key :
  slot_exists self x →
  get_assignment (apply_assignment self x) key =
    if decide (key ∈ set_tasks (tsa_set x)) then Some (tsa_assignment x)
    else get_assignment self key.
Proof.
  unfold slot_exists, assigned_slot, apply_assignment, get_assignment, worker_slot.
  destruct (tsa_assignment x) as [|w i]; simpl; [intros _; apply im_get_record|].
  destruct (im_get w (as_workers self)); simpl; [intros _; apply im_get_record|by intros [??]].
Qed.

Lemma apply_assignment_slot self x w i s :
  worker_slot (as_workers self) w i = Some s →
  worker_slot (as_workers (apply_assignment self x)) w i =
    Some (if decide (assigned_slot x = Some (w, i)) then slot_add_tasks (set_tasks (tsa_set x)) s
          else s).
Proof.
  unfold apply_assignment, assigned_slot, worker_slot. intros Hs.
  destruct (tsa_assignment x) as [|w' i'] eqn:Ha; simpl; [done|].
  destruct (im_get w' (as_workers self)) as [r|] eqn:Hw; simpl.
  - rewrite im_get_insert. destruct (decide (w' = w)) as [->|Hne].
    + rewrite Hw in Hs. destruct r as [slots streams|]; simpl; [|done].
      rewrite list_lookup_alter. case_decide as Hi.
      * subst i'. by rewrite Hs, decide_True.
      * rewrite Hs, decide_False; [done|congruence].
    + rewrite decide_False by congruence. done.
  - rewrite decide_False; [done|]. intros [= -> ->]. by rewrite Hw in Hs.
Qed.

Lemma slot_exists_apply self x y : slot_exists self y → slot_exists (apply_assignment self x) y.
Proof.
  unfold slot_exists. destruct (assigned_slot y) as [[w i]|]; [|done].
  intros [s Hs]. rewrite (apply_assignment_slot _ _ _ _ _ Hs). by eexists.
Qed.

Lemma foldl_apply_get l self :
  NoDup (assignment_keys l) → Forall (slot_exists self) l →
  (∀ a key, a ∈ l → key ∈ set_tasks (tsa_set a) →
     get_assignment (foldl apply_assignment self l) key = Some (tsa_assignment a)) ∧
  (∀ key, key ∉ assignment_keys l →
     get_assignment (foldl apply_assignment self l) key = get_assignment self key).
Proof.
  revert self. induction l as [|x l IH]; intros self Hnd Hex; [split; [set_solver|done]|].
  unfold assignment_keys in Hnd. rewrite bind_cons in Hnd.
  apply NoDup_app in Hnd as (_ & Hdis & Hnd). apply Forall_cons in Hex as [Hx Hex].
  destruct (IH (apply_assignment self x)) as [H1 H2]; [done| |].
  { eapply Forall_impl; [done|]. intros y. apply slot_exists_apply. }
  simpl. split.
  - intros a key [->|Ha]%elem_of_cons Hk; [|by apply H1].
    rewrite H2 by by apply Hdis. by rewrite apply_assignment_get, decide_True.
  - intros key Hk.
    change (assignment_keys (x :: l)) with (set_tasks (tsa_set x) ++ assignment_keys l) in Hk.
    rewrite elem_of_app in Hk.
    rewrite H2 by tauto. rewrite apply_assignment_get, decide_False by tauto. done.
Qed.

Lemma foldl_apply_slot l self w i s :
  worker_slot (as_workers self) w i = Some s →
  ∃ s', worker_slot (as_workers (foldl apply_assignment self l)) w i = Some s' ∧
    ∀ key, key ∈ slot_tasks s' ↔ key ∈ slot_tasks s ∨
      ∃ a, a ∈ l ∧ assigned_slot a = Some (w, i) ∧ key ∈ set_tasks (tsa_set a).
Proof.
  revert self s. induction l as [|x l IH]; intros self s Hs; simpl.
  { exists s. split; [done|]. set_solver. }
  destruct (IH (apply_assignment self x) _ (apply_assignment_slot _ x _ _ _ Hs)) as (s' & Hs' & Hk).
  exists s'. split; [done|]. intros key. rewrite Hk. case_decide as Hx.
  - simpl. rewrite elem_of_is_extend. setoid_rewrite elem_of_cons. naive_solver.
  - setoid_rewrite elem_of_cons. naive_solver.
Qed.

Lemma places_keys tasks l :
  Forall2 places tasks l → ('(_, set) ← tasks; set_tasks set) = assignment_keys l.
Proof.
  induction 1 as [|[pl set] a tasks l [Hs _] _ IH]; [done|]. simpl in Hs.
  unfold assignment_keys in *. by rewrite !bind_cons, IH, Hs.
Qed.

Lemma queue_keys_app q1 q2 : queue_keys (q1 ++ q2) = queue_keys q1 ++ queue_keys q2.
Proof. unfold queue_keys. by rewrite !bind_app. Qed.

(** What an assignment round does. *)
Record assigned (policy : PlacementPolicy) (self : TaskAssigner) (l : list TaskSetAssignment)
    (self' : TaskAssigner) : Prop := {
  (** whole regions, from the front of the queue, in order *)
  ag_prefix : ∃ done, as_task_queue self = done ++ as_task_queue self' ∧
    Forall2 places (done ≫= region_tasks) l;
  (** every worker set goes to its own slot, which was vacant *)
  ag_slots : NoDup (assigned_slots l);
  ag_vacant : ∀ w i, (w, i) ∈ assigned_slots l → ∃ s,
    worker_slot (as_workers self) w i = Some s ∧ slot_is_vacant s = true;
  (** the first region left does not fit in the slots left *)
  ag_blocked : match as_task_queue self' with
    | [] => True
    | region :: _ => N.to_nat (vacant_slots self) < length (assigned_slots l) + worker_sets region
    end;
  ag_table : ∀ a key, a ∈ l → key ∈ set_tasks (tsa_set a) →
    get_assignment self' key = Some (tsa_assignment a);
  ag_slot_tasks : ∀ w i s, worker_slot (as_workers self) w i = Some s → ∃ s',
    worker_slot (as_workers self') w i = Some s' ∧
    ∀ key, key ∈ slot_tasks s' ↔ key ∈ slot_tasks s ∨
      ∃ a, a ∈ l ∧ assigned_slot a = Some (w, i) ∧ key ∈ set_tasks (tsa_set a)
}.

Lemma total_assign_tasks policy self :
  assigner_wf self → as_requested_worker_count self = 0%N →
  assign_tasks policy self ⇓ λ '(l, self'), assigner_wf self' ∧ assigned policy self l self'.
Proof.
  intros [Hw [Hnd Hfr]] Hreq. unfold assign_tasks. rewrite decide_False by lia.
  apply total_bind. eapply total_mono; [apply total_assign_queue|].
  intros [all queue'] (dn & l & slots' & Hq & -> & Hf & Hp & Hb). simpl.
  rewrite Hq, queue_keys_app in Hnd, Hfr. apply NoDup_app in Hnd as (Hnd1 & Hdis & Hnd2).
  assert (queue_keys dn = assignment_keys l) as Hkeys by by apply places_keys.
  set (self1 := as_with_queue self queue').
  assert (Forall (slot_exists self1) l) as Hex.
  { apply Forall_forall. intros a Ha. unfold slot_exists.
    destruct (assigned_slot a) as [[w i]|] eqn:Has; [|done].
    assert ((w, i) ∈ slot_pairs (build_worker_task_slot_assigner self)) as Hin.
    { rewrite Hp. apply elem_of_app. left. apply list_elem_of_omap. eauto. }
    apply (elem_of_build _ _ _ (sw_workers _ Hw)) in Hin as (s & Hs & _). by exists s. }
  assert (slots_wf self1) as Hw1 by by destruct Hw.
  assert (fresh_keys self1 (assignment_keys l)) as Hf1.
  { rewrite <-Hkeys. split; [done|]. intros key Hk. apply Hfr. set_solver. }
  destruct (foldl_apply_wf l self1 Hw1 Hf1) as [Hw' Hq'].
  destruct (foldl_apply_get l self1) as [Hg1 Hg2]; [by apply Hf1|done|].
  pose proof (NoDup_build self (sw_workers _ Hw)) as Hndb. rewrite Hp in Hndb.
  split; [split; [done|]|split].
  - rewrite Hq'. split; [done|]. intros key Hk. rewrite Hg2.
    + apply Hfr. simpl in Hk. set_solver.
    + rewrite <-Hkeys. intros Hk'. by apply (Hdis key).
  - exists dn. by rewrite Hq', Hq.
  - by apply NoDup_app in Hndb as (? & _).
  - intros w i Hin. apply (elem_of_build _ _ _ (sw_workers _ Hw)). rewrite Hp. set_solver.
  - rewrite Hq'. simpl. destruct queue' as [|region queue']; [done|].
    rewrite vacant_slots_build, Nat2N.id, Hp, length_app. lia.
  - done.
  - intros w i s Hs. by apply foldl_apply_slot.
Qed.

(** [self'] has the lookup table of [self], and its slots hold no more tasks. *)
Record shrinks (self self' : TaskAssigner) : Prop := {
  sh_wf : im_wf (as_workers self) → im_wf (as_workers self');
  sh_table : as_task_assignments self' = as_task_assignments self;
  sh_worker : ∀ w i s', worker_slot (as_workers self') w i = Some s' →
    slot_tasks s' = [] ∨ ∃ s, worker_slot (as_workers self) w i = Some s ∧
      (NoDup (slot_tasks s) → NoDup (slot_tasks s') ∧ slot_tasks s' ⊆ slot_tasks s);
  sh_driver : NoDup (dr_task_slots (as_driver self) ≫= slot_tasks) →
    NoDup (dr_task_slots (as_driver self') ≫= slot_tasks) ∧
    (dr_task_slots (as_driver self') ≫= slot_tasks) ⊆ (dr_task_slots (as_driver self) ≫= slot_tasks)
}.

Lemma shrinks_same self self' :
  (∀ w i, worker_slot (as_workers self') w i = worker_slot (as_workers self) w i) →
  (im_wf (as_workers self) → im_wf (as_workers self')) →
  as_task_assignments self' = as_task_assignments self →
  dr_task_slots (as_driver self') = dr_task_slots (as_driver self) → shrinks self self'.
Proof.
  intros Hw Hwf Ht Hd. split; [done|done| |by rewrite Hd].
  intros w i s'. rewrite Hw. intros Hs. right. eauto.
Qed.

Lemma slots_wf_shrink self self' : shrinks self self' → slots_wf self → slots_wf self'.
Proof.
  intros [Hwf Ht Hwk Hd] [H1 H2 H3 H4]. unfold get_assignment in *. split.
  - auto.
  - intros w i s' Hs'. destruct (Hwk w i s' Hs') as [->|(s & Hs & Hsub)].
    { split; [constructor|set_solver]. }
    destruct (H2 w i s Hs) as [Hn Hk]. destruct (Hsub Hn) as [Hn' Hin].
    split; [done|]. intros key Hkey. unfold get_assignment. rewrite Ht. auto.
  - by apply Hd.
  - intros key Hkey. unfold get_assignment. rewrite Ht. apply H4. by apply Hd in Hkey.
Qed.

Lemma assigner_wf_shrink self self' :
  shrinks self self' → as_task_queue self' `sublist_of` as_task_queue self →
  assigner_wf self → assigner_wf self'.
Proof.
  intros Hsh Hq [Hw [Hnd Hfr]]. split; [by eapply slots_wf_shrink|].
  assert (queue_keys (as_task_queue self') `sublist_of` queue_keys (as_task_queue self)) as Hsub.
  { clear Hnd Hfr. induction Hq as [|r q1 q2 _ IH|r q1 q2 _ IH]; [done|..].
    - change (r :: q1) with ([r] ++ q1). change (r :: q2) with ([r] ++ q2).
      rewrite !queue_keys_app.
      by apply sublist_app; [apply reflexivity|].
    - change (r :: q2) with ([r] ++ q2). rewrite queue_keys_app.
      etrans; [exact IH|]. by apply sublist_inserts_l. }
  split; [by eapply sublist_NoDup|]. intros key Hk. unfold get_assignment.
  rewrite (sh_table _ _ Hsh). apply Hfr. by eapply elem_of_sublist.
Qed.

Lemma worker_slot_insert_other workers w r w' i :
  w ≠ w' → worker_slot (im_insert w r workers) w' i = worker_slot workers w' i.
Proof. intros Hne. unfold worker_slot. by rewrite im_get_insert_ne. Qed.

Lemma remove_task_shrink key s :
  NoDup (slot_tasks s) →
  NoDup (slot_tasks (slot_remove_task key s).2) ∧
  ∀ k, k ∈ slot_tasks (slot_remove_task key s).2 ↔ k ∈ slot_tasks s ∧ k ≠ key.
Proof.
  intros Hn. unfold slot_remove_task.
  pose proof (NoDup_is_swap_remove (slot_tasks s) key Hn) as H1.
  pose proof (λ k, elem_of_is_swap_remove (slot_tasks s) key k Hn) as H2.
  by destruct (is_swap_remove (slot_tasks s) key) as [b l].
Qed.

Lemma remove_from_slots_perm key slots :
  NoDup (slots ≫= slot_tasks) →
  NoDup ((remove_from_slots key slots).2 ≫= slot_tasks) ∧
  ∀ k, k ∈ (remove_from_slots key slots).2 ≫= slot_tasks ↔ k ∈ slots ≫= slot_tasks ∧ k ≠ key.
Proof.
  assert (∀ slots, NoDup (slots ≫= slot_tasks) →
    if decide (key ∈ slots ≫= slot_tasks)
    then slots ≫= slot_tasks ≡ₚ key :: ((remove_from_slots key slots).2 ≫= slot_tasks)
    else remove_from_slots key slots = (false, slots)) as Hperm.
  { clear slots. induction slots as [|s slots IH]; intros Hnd.
    { rewrite decide_False; [done|]. simpl. set_solver. }
    rewrite bind_cons in Hnd |- *. apply NoDup_app in Hnd as (Hn1 & Hd & Hn2).
    specialize (IH Hn2). cbn [remove_from_slots]. unfold slot_remove_task.
    destruct (decide (key ∈ slot_tasks s)) as [Hin|Hin].
    - destruct (is_swap_remove_perm _ _ Hin) as (l' & -> & Hp). simpl.
      rewrite decide_True by set_solver. by rewrite Hp.
    - rewrite (is_swap_remove_absent _ _ Hin). simpl.
      destruct (remove_from_slots key slots) as [b slots'] eqn:Hr. simpl.
      destruct (decide (key ∈ slots ≫= slot_tasks)) as [Hin'|Hin'].
      + rewrite decide_True by set_solver. rewrite IH. simpl. by rewrite <-Permutation_middle.
      + rewrite decide_False by set_solver. injection IH as -> ->. by destruct s. }
  intros Hnd. specialize (Hperm slots Hnd). case_decide as Hin.
  - rewrite Hperm in Hnd. apply NoDup_cons in Hnd as [Hk Hnd']. split; [done|].
    intros k. rewrite Hperm. set_solver.
  - rewrite Hperm. simpl. split; [done|]. set_solver.
Qed.

Lemma unassign_shrinks self key : shrinks self (unassign_task self key).2.
Proof.
  unfold unassign_task. destruct (im_get key _) as [[|w i]|]; simpl.
  - split; [done|done|intros; right; eauto|]. simpl. intros Hnd.
    destruct (remove_from_slots_perm key _ Hnd) as [H1 H2]. split; [done|].
    intros k Hk. by apply H2 in Hk as [? _].
  - destruct (im_get w (as_workers self)) as [r|] eqn:Hw; [|by apply shrinks_same].
    split; simpl; [apply im_wf_insert|done| |done].
    intros w' j s'. destruct (decide (w = w')) as [<-|Hne].
    2:{ rewrite worker_slot_insert_other by done. intros Hs. right. eauto. }
    unfold worker_slot. rewrite im_get_insert_eq, Hw.
    destruct r as [slots streams|]; simpl; [|done]. rewrite list_lookup_alter. intros Hs'.
    right. case_decide as Hij; [subst j|eauto].
    destruct (slots !! i) as [s|] eqn:Hs; simplify_eq/=. exists s. split; [done|].
    intros Hn. destruct (remove_task_shrink key s Hn) as [H1 H2]. split; [done|].
    intros k Hk. by apply H2 in Hk as [? _].
  - by apply shrinks_same.
Qed.

Lemma worker_slot_fmap (f : N → WorkerResource → WorkerResource) workers w i :
  (∀ w r, match r, f w r with
          | WrActive slots _, WrActive slots' _ => slots' = slots
          | WrInactive, WrInactive => True
          | _, _ => False
          end) →
  worker_slot ((λ '(w, r), (w, f w r)) <$> workers) w i = worker_slot workers w i.
Proof.
  intros Hf. unfold worker_slot. induction workers as [|[w' r] workers IH]; [done|]. simpl.
  case_decide; [|done]. specialize (Hf w' r). by destruct r, (f w' _); subst.
Qed.

Lemma untrack_workers_fmap job_id stage workers :
  (untrack_workers job_id stage workers).2 =
    (λ '(w, r), (w, (worker_untrack_local_streams job_id stage r).2)) <$> workers.
Proof.
  unfold untrack_workers. simpl. rewrite <-list_fmap_compose. apply list_fmap_ext_elem.
  intros [w r] _. simpl. by destruct (worker_untrack_local_streams _ _ _).
Qed.

Lemma track_assignment_streams_shrinks self x :
  shrinks self (track_assignment_streams self x) ∧
  as_task_queue (track_assignment_streams self x) = as_task_queue self.
Proof.
  unfold track_assignment_streams. destruct (tsa_assignment x) as [|w i]; simpl.
  { split; [by apply shrinks_same|done]. }
  destruct (im_get w (as_workers self)) as [r|] eqn:Hw; simpl.
  2:{ split; [by apply shrinks_same|done]. }
  split; [|done]. apply shrinks_same; simpl; [|apply im_wf_insert|done|done].
  intros w' j. destruct (decide (w = w')) as [<-|Hne].
  - unfold worker_slot. rewrite im_get_insert_eq, Hw. by destruct r.
  - by apply worker_slot_insert_other.
Qed.
