(* ===== verification/AssignerTheorems.v ===== *)
(** * The task assigner: its properties *)

From S2P Require Import Prelude Ids JobGraph TaskAssigner TaskAssignerFacts.

(** ** The assigner as a system

    The regions the driver enqueues hold new task attempts: that is the one
    obligation of its client. *)
Inductive assigner_step (policy : PlacementPolicy) : TaskAssigner → TaskAssigner → Prop :=
| AsRequest self n self' :
    request_workers self = Returns (n, self') → assigner_step policy self self'
| AsFailedToStart self : assigner_step policy self (track_worker_failed_to_start self)
| AsActivate self w : assigner_step policy self (activate_worker self w)
| AsDeactivate self w : assigner_step policy self (deactivate_worker self w)
| AsEnqueue self region :
    fresh_keys self (queue_keys (as_task_queue self ++ [region])) →
    assigner_step policy self (enqueue_tasks self region)
| AsExclude self key : assigner_step policy self (exclude_task self key)
| AsAssign self l self' :
    assign_tasks policy self = Returns (l, self') →
    assigner_step policy self (track_streams self' l)
| AsUnassign self key : assigner_step policy self (unassign_task self key).2
| AsUntrackLocal self job_id stage :
    assigner_step policy self (untrack_local_streams self job_id stage).2
| AsUntrackRemote self job_id stage :
    assigner_step policy self (untrack_remote_streams self job_id stage).2.

Inductive assigner_reachable (policy : PlacementPolicy) (options : TaskAssignerOptions)
    : TaskAssigner → Prop :=
| ReachNew : assigner_reachable policy options (task_assigner_new options)
| ReachStep self self' :
    assigner_reachable policy options self → assigner_step policy self self' →
    assigner_reachable policy options self'.

Lemma assigner_wf_new options : assigner_wf (task_assigner_new options).
Proof.
  split; [split|split]; simpl; try done; try (constructor || set_solver).
Qed.

Lemma activate_shrinks self w : shrinks self (activate_worker self w).
Proof.
  unfold activate_worker. simpl.
  destruct (im_get w (as_workers self)) eqn:Hw; [by apply shrinks_same|].
  split; simpl; [apply im_wf_insert|done| |done]. intros w' i s'.
  destruct (decide (w = w')) as [<-|Hne].
  - unfold worker_slot. rewrite im_get_insert_eq. intros Hs.
    apply lookup_replicate in Hs as [-> _]. by left.
  - rewrite worker_slot_insert_other by done. intros Hs. right. eauto.
Qed.

Lemma deactivate_shrinks self w : shrinks self (deactivate_worker self w).
Proof.
  unfold deactivate_worker.
  destruct (im_get w (as_workers self)) as [[slots streams|]|] eqn:Hw; try by apply shrinks_same.
  split; simpl; [apply im_wf_insert|done| |done]. intros w' i s'.
  destruct (decide (w = w')) as [<-|Hne].
  - unfold worker_slot. by rewrite im_get_insert_eq.
  - rewrite worker_slot_insert_other by done. intros Hs. right. eauto.
Qed.

Lemma untrack_local_shrinks self job_id stage :
  shrinks self (untrack_local_streams self job_id stage).2.
Proof.
  unfold untrack_local_streams.
  destruct (driver_untrack_local_streams job_id stage (as_driver self)) as [b d] eqn:Hd.
  pose proof (untrack_workers_fmap job_id stage (as_workers self)) as Hf.
  destruct (untrack_workers job_id stage (as_workers self)) as [owners ws]. simpl in *. subst ws.
  apply shrinks_same; simpl; [| |done|].
  - intros w i. apply (worker_slot_fmap (λ _ r, (worker_untrack_local_streams job_id stage r).2)).
    intros _ r. by destruct r.
  - unfold im_wf, im_keys. rewrite <-list_fmap_compose.
    assert ((fst ∘ (λ '(w, r), (w, (worker_untrack_local_streams job_id stage r).2)))
      <$> as_workers self = (as_workers self).*1) as ->; [|done].
    apply list_fmap_ext_elem. by intros [].
  - unfold driver_untrack_local_streams in Hd. simpl in Hd. by simplify_eq.
Qed.

Lemma track_streams_wf l self : assigner_wf self → assigner_wf (track_streams self l).
Proof.
  unfold track_streams. revert self. induction l as [|x l IH]; intros self Hw; [done|]. simpl.
  destruct (track_assignment_streams_shrinks self x) as [Hs Hq]. apply IH.
  eapply assigner_wf_shrink; [done|by rewrite Hq|done].
Qed.

Lemma assign_tasks_wf policy self :
  assigner_wf self → assign_tasks policy self ⇓ λ '(l, self'), assigner_wf self'.
Proof.
  intros Hw. destruct (decide (0 < as_requested_worker_count self)%N) as [Hr|Hr].
  - unfold assign_tasks. by rewrite decide_True.
  - eapply total_mono; [apply total_assign_tasks; [done|lia]|]. by intros [l self'] [? _].
Qed.

Lemma assigner_step_wf policy self self' :
  assigner_wf self → assigner_step policy self self' → assigner_wf self'.
Proof.
  intros Hw Hstep. destruct Hstep as [self n self' Hr|self|self w|self w|self region Hf|self key
    |self l self' Hr|self key|self job stage|self job stage].
  - unfold request_workers in Hr. destruct (div_ceil _ _); simplify_eq/=.
    by apply (assigner_wf_shrink self); [apply shrinks_same| |exact Hw].
  - by apply (assigner_wf_shrink self); [apply shrinks_same| |exact Hw].
  - apply (assigner_wf_shrink self); [apply activate_shrinks| |exact Hw].
    unfold activate_worker. simpl. by destruct (im_get _ _).
  - apply (assigner_wf_shrink self); [apply deactivate_shrinks| |exact Hw].
    unfold deactivate_worker. by destruct (im_get _ _) as [[]|].
  - split; [|exact Hf]. by apply (slots_wf_shrink self); [apply shrinks_same|apply Hw].
  - apply (assigner_wf_shrink self); [by apply shrinks_same| |exact Hw]. apply sublist_filter.
  - apply track_streams_wf. pose proof (assign_tasks_wf policy self Hw) as Ht. by rewrite Hr in Ht.
  - apply (assigner_wf_shrink self); [apply unassign_shrinks| |exact Hw].
    unfold unassign_task. destruct (im_get key _) as [[|w i]|]; [done| |done].
    by destruct (im_get w _).
  - apply (assigner_wf_shrink self); [apply untrack_local_shrinks| |exact Hw].
    unfold untrack_local_streams. destruct (driver_untrack_local_streams _ _ _).
    by destruct (untrack_workers _ _ _).
  - by apply (assigner_wf_shrink self); [apply shrinks_same| |exact Hw].
Qed.

Lemma assigner_reachable_wf policy options self :
  assigner_reachable policy options self → assigner_wf self.
Proof.
  induction 1 as [|self self' _ Hw Hstep]; [apply assigner_wf_new|by eapply assigner_step_wf].
Qed.

(** ** Placement *)

(** In every reachable assigner, under both placement policies, each task
    attempt is in at most one slot of one worker or of the driver, the slot the
    lookup table names; and the queued attempts were never assigned. *)
Theorem assigner_invariant policy options self :
  assigner_reachable policy options self →
  (∀ w i s key, worker_slot (as_workers self) w i = Some s → key ∈ slot_tasks s →
     get_assignment self key = Some (AssignWorker w i)) ∧
  (∀ w i s, worker_slot (as_workers self) w i = Some s → NoDup (slot_tasks s)) ∧
  NoDup (dr_task_slots (as_driver self) ≫= slot_tasks) ∧
  (∀ key, key ∈ dr_task_slots (as_driver self) ≫= slot_tasks →
     get_assignment self key = Some AssignDriver) ∧
  NoDup (queue_keys (as_task_queue self)) ∧
  (∀ key, key ∈ queue_keys (as_task_queue self) → get_assignment self key = None).
Proof.
  intros [[H1 H2 H3 H4] [H5 H6]]%assigner_reachable_wf. split_and!; try done.
  - intros w i s key Hs. by apply H2.
  - intros w i s Hs. by apply (H2 w i).
Qed.

(** C32. An assignment round of a reachable assigner terminates without panic.
    While workers that were requested have not registered it places nothing and
    changes nothing.  Otherwise it places whole regions, a prefix of the queue in
    order: driver sets on the driver, each worker set on a slot of its own that
    was vacant; the first region left behind does not fit in the slots left;
    slots and lookup table record exactly the sets placed. *)
Theorem assign_tasks_correct policy options self :
  assigner_reachable policy options self →
  assign_tasks policy self ⇓ λ '(l, self'),
    ((0 < as_requested_worker_count self)%N → l = [] ∧ self' = self) ∧
    (as_requested_worker_count self = 0%N →
    (∃ done, as_task_queue self = done ++ as_task_queue self' ∧
       Forall2 places (done ≫= region_tasks) l) ∧
    NoDup (assigned_slots l) ∧
    (∀ w i, (w, i) ∈ assigned_slots l → ∃ s,
       worker_slot (as_workers self) w i = Some s ∧ slot_is_vacant s = true) ∧
    match as_task_queue self' with
    | [] => True
    | region :: _ => N.to_nat (vacant_slots self) < length (assigned_slots l) + worker_sets region
    end ∧
    (∀ a key, a ∈ l → key ∈ set_tasks (tsa_set a) →
       get_assignment self' key = Some (tsa_assignment a)) ∧
    (∀ w i s, worker_slot (as_workers self) w i = Some s → ∃ s',
       worker_slot (as_workers self') w i = Some s' ∧
       ∀ key, key ∈ slot_tasks s' ↔ key ∈ slot_tasks s ∨
         ∃ a, a ∈ l ∧ assigned_slot a = Some (w, i) ∧ key ∈ set_tasks (tsa_set a))).
Proof.
  intros Hw%assigner_reachable_wf.
  destruct (decide (0 < as_requested_worker_count self)%N) as [Hreq|Hreq].
  - unfold assign_tasks. rewrite decide_True by done. split; [done|lia].
  - eapply total_mono; [apply total_assign_tasks; [done|lia]|].
    intros [l self'] [_ []]. split; [lia|done].
Qed.

(** ** Requesting workers *)

(** The number of workers requested never takes the active and requested
    workers past [worker_max_count]; unless that limit cuts it, it provides a
    slot for every queued worker set that finds no vacant slot, with less than
    one worker to spare; and a configuration with zero slots per worker makes
    the driver panic. *)
Theorem request_workers_bounded self :
  let slots := worker_task_slots (as_options self) in
  let max := worker_max_count (as_options self) in
  let requested := as_requested_worker_count self in
  (slots = 0%N → request_workers self = Panics) ∧
  ((0 < slots)%N → (enqueued_slots self ≤ u64_max)%N →
   request_workers self ⇓ λ '(n, self'),
     (max = 0 ∨ n = 0 ∨ requested + active_workers self + n ≤ max)%N ∧
     (max = 0 ∨ requested + active_workers self + n < max →
        enqueued_slots self ≤ vacant_slots self + n * slots)%N ∧
     (n * slots < (enqueued_slots self - vacant_slots self) + slots)%N ∧
     as_requested_worker_count self' = N.min (requested + n) u64_max).
Proof.
  cbv zeta. unfold request_workers, saturating_sub_usize, saturating_add_usize. split.
  { intros ->. done. }
  intros Hs Hle. run_call (by apply total_div_ceil). intros q [Hq1 Hq2]. simpl.
  set (allowed := if decide _ then _ else _).
  assert (worker_max_count (as_options self) = 0%N ∧ allowed = u64_max ∨
    worker_max_count (as_options self) ≠ 0%N ∧ allowed =
      (worker_max_count (as_options self) - as_requested_worker_count self - active_workers self)%N)
    as Hal.
  { unfold allowed. case_decide; auto. }
  assert (q ≤ u64_max)%N as Hqm.
  { destruct (decide (q = 0)%N); [lia|]. assert (q ≤ q * worker_task_slots (as_options self))%N by nia.
    assert (q - 1 ≤ (q - 1) * worker_task_slots (as_options self))%N by nia. nia. }
  split_and!.
  - destruct Hal as [[? ->]|[? ->]]; [auto|]. lia.
  - intros Hn. assert (q ≤ allowed)%N as Hqa by (destruct Hal as [[? ->]|[? ->]]; lia).
    rewrite N.min_l by done. lia.
  - assert (N.min q allowed * worker_task_slots (as_options self) ≤
      q * worker_task_slots (as_options self))%N by (apply N.mul_le_mono_r; lia). lia.
  - done.
Qed.

(** ** Releasing tasks and streams *)

(** Unassigning a task of a reachable assigner removes it from wherever it
    runs and touches no other task; it reports where the task was assigned. *)
Theorem unassign_task_exact policy options self key :
  assigner_reachable policy options self →
  let '(r, self') := unassign_task self key in
  (∀ w i s', worker_slot (as_workers self') w i = Some s' →
     key ∉ slot_tasks s' ∧
     ∃ s, worker_slot (as_workers self) w i = Some s ∧
       ∀ k, k ≠ key → k ∈ slot_tasks s' ↔ k ∈ slot_tasks s) ∧
  (∀ k, k ∈ dr_task_slots (as_driver self') ≫= slot_tasks ↔
        k ∈ dr_task_slots (as_driver self) ≫= slot_tasks ∧ k ≠ key) ∧
  (∀ a, r = Some a → get_assignment self key = Some a).
Proof.
  intros [[Hwf Hws Hdn Hd] _]%assigner_reachable_wf. unfold unassign_task.
  change (im_get key (as_task_assignments self)) with (get_assignment self key).
  assert (∀ w i s, worker_slot (as_workers self) w i = Some s →
    get_assignment self key ≠ Some (AssignWorker w i) → key ∉ slot_tasks s) as Hnw.
  { intros w i s Hs Hne Hk. by destruct Hne; apply (Hws w i s). }
  assert (get_assignment self key ≠ Some AssignDriver →
    key ∉ dr_task_slots (as_driver self) ≫= slot_tasks) as Hnd by auto.
  assert (∀ l : list TaskKey, key ∉ l → ∀ k, k ∈ l ↔ k ∈ l ∧ k ≠ key) as Hsame.
  { intros l Hl k. split; [intros Hk; split; [done|by intros ->]|by intros [? _]]. }
  destruct (get_assignment self key) as [[|w i]|] eqn:Hg.
  - destruct (remove_from_slots_perm key _ Hdn) as [H1 H2]. split_and!; [|exact H2|congruence].
    intros w i s Hs. split; [by eapply Hnw|eauto].
  - assert (key ∉ dr_task_slots (as_driver self) ≫= slot_tasks) as Hkd by by apply Hnd.
    destruct (im_get w (as_workers self)) as [r|] eqn:Hw; (split_and!; [|by apply Hsame|done]); simpl.
    + intros w' j s'. destruct (decide (w = w')) as [<-|Hne].
      2:{ rewrite worker_slot_insert_other by done. intros Hs.
          split; [eapply Hnw; [done|congruence]|eauto]. }
      unfold worker_slot. rewrite im_get_insert_eq, Hw.
      destruct r as [slots streams|]; simpl; [|done]. rewrite list_lookup_alter.
      assert (∀ j s, slots !! j = Some s → worker_slot (as_workers self) w j = Some s) as Hslot
        by (intros; unfold worker_slot; by rewrite Hw).
      case_decide as Hij; [subst j|].
      * destruct (slots !! i) as [s|] eqn:Hs; simpl; [|done]. intros [= <-].
        destruct (remove_task_shrink key s) as [H1 H2]; [by apply (Hws w i), Hslot|].
        split; [rewrite H2; naive_solver|]. exists s. split; [done|].
        intros k Hk. rewrite H2. naive_solver.
      * intros Hs. split; [eapply Hnw; [by apply Hslot|congruence]|eauto].
    + intros w' j s' Hs. split; [|eauto]. eapply Hnw; [done|]. intros [= <- <-].
      unfold worker_slot in Hs. by rewrite Hw in Hs.
  - split_and!; [|by apply Hsame, Hnd|done]. intros w i s Hs. split; [by eapply Hnw|eauto].
Qed.

Lemma untrack_streams_spec job_id stage streams :
  let '(b, retained) := untrack_streams job_id stage streams in
  (b = true ↔ ∃ k, k ∈ streams ∧ stream_matches job_id stage k) ∧
  retained = filter (λ k, ¬ stream_matches job_id stage k) streams.
Proof.
  unfold untrack_streams. split; [|done]. rewrite bool_decide_eq_true. split.
  - intros Hne. destruct (decide (Forall (λ k, ¬ stream_matches job_id stage k) streams)) as [Hf|Hf].
    + destruct Hne. f_equal. symmetry. apply filter_all. by apply Forall_forall.
    + apply not_Forall_Exists in Hf; [|apply _]. apply Exists_exists in Hf as (k & Hk & Hm).
      exists k. split; [done|]. by apply dec_stable.
  - intros (k & Hk & Hm) Heq.
    pose proof (length_filter_lt (λ k, ¬ stream_matches job_id stage k) streams k Hk) as Hlt.
    specialize (Hlt ltac:(tauto)). lia.
Qed.

(** The local streams a worker owns. *)
Definition resource_streams (r : WorkerResource) : list TaskKey :=
  match r with WrActive _ streams => streams | WrInactive => [] end.

Definition worker_streams (self : TaskAssigner) (w : N) : list TaskKey :=
  from_option resource_streams [] (im_get w (as_workers self)).

Lemma im_get_map_value (f : WorkerResource → WorkerResource) (w : N) m :
  im_get w ((λ '(w, r), (w, f r)) <$> m) = f <$> im_get w m.
Proof. induction m as [|[w' r] m IH]; [done|]. simpl. by case_decide. Qed.

Lemma worker_untrack_spec job_id stage r :
  let '(b, r') := worker_untrack_local_streams job_id stage r in
  (b = true ↔ ∃ k, k ∈ resource_streams r ∧ stream_matches job_id stage k) ∧
  resource_streams r' = filter (λ k, ¬ stream_matches job_id stage k) (resource_streams r).
Proof.
  destruct r as [slots streams|].
  2:{ simpl. split; [|done]. split; [done|]. intros (k & Hk & _). set_solver. }
  pose proof (untrack_streams_spec job_id stage streams) as Hs.
  unfold worker_untrack_local_streams. by destruct (untrack_streams job_id stage streams).
Qed.

Lemma untrack_workers_owners job_id stage self w :
  im_wf (as_workers self) →
  w ∈ (untrack_workers job_id stage (as_workers self)).1 ↔
  ∃ k, k ∈ worker_streams self w ∧ stream_matches job_id stage k.
Proof.
  intros Hwf. unfold untrack_workers, worker_streams. simpl. rewrite list_elem_of_omap. split.
  - intros ([w' [b r']] & Hin & Hb). destruct b; simplify_eq.
    apply list_elem_of_fmap in Hin as ([w0 r0] & [= -> Hu] & Hin).
    rewrite (im_elem_of_get _ _ _ Hwf Hin). simpl.
    pose proof (worker_untrack_spec job_id stage r0) as Hs. rewrite <-Hu in Hs. by apply Hs.
  - intros Hk. destruct (im_get w (as_workers self)) as [r|] eqn:Hw; simpl in Hk.
    2:{ destruct Hk as (k & Hk & _). set_solver. }
    exists (w, worker_untrack_local_streams job_id stage r). split.
    + apply list_elem_of_fmap. exists (w, r). split; [done|]. by apply im_get_elem_of.
    + pose proof (worker_untrack_spec job_id stage r) as Hs.
      destruct (worker_untrack_local_streams job_id stage r) as [b r'].
      apply Hs in Hk as ->. done.
Qed.

(** Dropping the local streams of a job, or of one stage of it, reports
    exactly the driver and the workers that owned one, and removes exactly these
    streams. *)
Theorem untrack_local_streams_exact policy options self job_id stage :
  assigner_reachable policy options self →
  let '(owners, self') := untrack_local_streams self job_id stage in
  (StreamDriver ∈ owners ↔ ∃ k, k ∈ dr_local_streams (as_driver self) ∧
     stream_matches job_id stage k) ∧
  (∀ w, StreamWorker w ∈ owners ↔ ∃ k, k ∈ worker_streams self w ∧
     stream_matches job_id stage k) ∧
  (∀ k, k ∈ dr_local_streams (as_driver self') ↔
        k ∈ dr_local_streams (as_driver self) ∧ ¬ stream_matches job_id stage k) ∧
  (∀ w k, k ∈ worker_streams self' w ↔
          k ∈ worker_streams self w ∧ ¬ stream_matches job_id stage k).
Proof.
  intros [[Hwf _ _ _] _]%assigner_reachable_wf.
  unfold untrack_local_streams, driver_untrack_local_streams.
  pose proof (untrack_streams_spec job_id stage (dr_local_streams (as_driver self))) as Hd.
  destruct (untrack_streams _ _ _) as [b ret]. destruct Hd as [Hb ->].
  pose proof (untrack_workers_fmap job_id stage (as_workers self)) as Hf.
  pose proof (λ w, untrack_workers_owners job_id stage self w Hwf) as Hown.
  destruct (untrack_workers job_id stage (as_workers self)) as [owners ws]. simpl in *. subst ws.
  split_and!.
  - rewrite elem_of_app, <-Hb. split.
    + intros [Hin|(w & ? & _)%list_elem_of_fmap]; [|done]. destruct b; [done|set_solver].
    + intros ->. left. by apply list_elem_of_singleton.
  - intros w. rewrite <-Hown, elem_of_app, list_elem_of_fmap. split.
    + intros [Hin|(w' & [= ->] & ?)]; [|done]. destruct b; [|set_solver].
      by apply list_elem_of_singleton in Hin.
    + intros Hw. right. eauto.
  - intros k. rewrite list_elem_of_filter. tauto.
  - intros w k. unfold worker_streams. simpl. rewrite im_get_map_value.
    destruct (im_get w (as_workers self)) as [r|]; simpl; [|set_solver].
    pose proof (worker_untrack_spec job_id stage r) as Hs.
    destruct (worker_untrack_local_streams job_id stage r) as [b' r']. destruct Hs as [_ Hr].
    simpl. rewrite Hr, list_elem_of_filter. tauto.
Qed.

(** ** Even spread *)

(** The numbers of free slots of any two workers differ by at most one. *)
Definition balanced (slots : list (N * list nat)) : Prop :=
  ∀ x y, x ∈ slots → y ∈ slots → length x.2 ≤ length y.2 + 1.

Lemma next_even_spread_balanced (slots : list (N * list nat)) :
  balanced slots →
  next_slot EvenSpread slots ⇓ λ '(_, slots'), balanced slots' ∧ slots'.*1 = slots.*1.
Proof.
  intros Hbal. simpl. unfold next_even_spread. pose proof (best_worker_spec slots) as Hb.
  destruct (best_worker slots) as [i|]; simpl; [|done].
  destruct Hb as (w & free & Hi & Hne & Hmax & _). apply total_bind.
  eapply total_vec_index; [done|]. cbv beta iota. pose proof (pop_spec free) as Hp.
  destruct (pop free) as [[s free']|]; simpl; [|done]. subst free. split.
  - intros x y Hx Hy.
    assert (∀ z, z ∈ <[i:=(w, free')]> slots → z = (w, free') ∨ z ∈ slots) as Hin.
    { intros z [j Hj]%list_elem_of_lookup.
      destruct (decide (i = j)) as [<-|Hij].
      - rewrite list_lookup_insert_eq in Hj by by eapply lookup_lt_Some. simplify_eq. auto.
      - rewrite list_lookup_insert_ne in Hj by done. right. by eapply list_elem_of_lookup_2. }
    assert (∀ z, z ∈ slots → length z.2 ≤ length free' + 1) as Hle.
    { intros [w' f'] [j Hj]%list_elem_of_lookup. specialize (Hmax _ _ _ Hj).
      rewrite length_app in Hmax. simpl in *. lia. }
    assert ((w, free' ++ [s]) ∈ slots) as Hw by by eapply list_elem_of_lookup_2.
    destruct (Hin x Hx) as [->|Hx'], (Hin y Hy) as [->|Hy']; simpl; [lia| | |by apply Hbal].
    + specialize (Hbal _ _ Hw Hy'). simpl in Hbal. rewrite length_app in Hbal. simpl in Hbal. lia.
    + by apply Hle.
  - change (fst <$> <[i := (w, free')]> (slots : list (N * list nat)) = slots.*1).
    rewrite list_fmap_insert. apply list_insert_id.
    apply list_lookup_fmap_Some. by exists (w, free' ++ [s]).
Qed.

Lemma assign_sets_balanced (slots : list (N * list nat)) assignments tasks :
  balanced slots →
  assign_sets EvenSpread slots assignments tasks ⇓ λ '(_, slots'),
    balanced slots' ∧ slots'.*1 = slots.*1.
Proof.
  revert slots assignments. induction tasks as [|[pl set] tasks IH]; intros slots assignments Hb.
  { by split. }
  destruct pl; [by apply IH|]. simpl. run_call (by apply next_even_spread_balanced).
  intros [[[w s]|] slots1] [Hb1 Hk1]; [|done].
  eapply total_mono; [by apply IH|]. intros [r slots'] [? ?]. split; [done|congruence].
Qed.

(** The number of sets an assignment round puts on a worker. *)
Definition load (l : list TaskSetAssignment) (w : N) : nat :=
  length (filter (λ x, x.1 = w) (assigned_slots l)).

Lemma slot_pairs_worker (slots : list (N * list nat)) w free :
  NoDup slots.*1 → (w, free) ∈ slots →
  length (filter (λ x, x.1 = w) (slot_pairs slots)) = length free.
Proof.
  unfold slot_pairs. intros Hnd Hin.
  assert (∀ (l : list (N * list nat)), w ∉ l.*1 →
    filter (λ x, x.1 = w) ('(w, free) ← l; pair w <$> free) = []) as Hnone.
  { intros l Hl. apply filter_none. intros [w' i] ([w0 f0] & Hx & Hl')%list_elem_of_bind.
    apply list_elem_of_fmap in Hx as (j & [= -> ->] & _). simpl. intros ->. apply Hl.
    apply list_elem_of_fmap. by exists (w, f0). }
  apply list_elem_of_split in Hin as (l1 & l2 & ->). rewrite fmap_app, fmap_cons in Hnd.
  apply NoDup_app in Hnd as (_ & Hd & [Hn _]%NoDup_cons). simpl in *.
  rewrite bind_app, bind_cons, !filter_app, Hnone, Hnone, filter_all.
  - simpl. by rewrite app_nil_r, length_fmap.
  - by intros [w' i] (j & [= -> _] & _)%list_elem_of_fmap.
  - done.
  - intros Hw. apply (Hd w Hw). set_solver.
Qed.

(** Even spread spreads evenly: when the workers have the same number of
    free slots, a region is placed so that the loads of any two workers differ
    by at most one. *)
Theorem even_spread_loads (slots : list (N * list nat)) c tasks :
  NoDup slots.*1 → (∀ x, x ∈ slots → length x.2 = c) →
  assign_sets EvenSpread slots [] tasks ⇓ λ '(r, _),
    ∀ l w w', r = Some l → w ∈ slots.*1 → w' ∈ slots.*1 → load l w ≤ load l w' + 1.
Proof.
  intros Hnd Heq.
  pose proof (total_assign_sets EvenSpread slots [] tasks) as Hperm.
  pose proof (assign_sets_balanced slots [] tasks) as Hbal.
  ospecialize (Hbal _). { intros x y Hx Hy. rewrite !Heq by done. lia. }
  destruct (assign_sets EvenSpread slots [] tasks) as [[r slots']| |]; simpl in *; [|done..].
  destruct Hbal as [Hbal Hkeys]. intros l w w' -> Hw Hw'.
  destruct Hperm as (l' & -> & _ & Hp). simpl.
  assert (∀ w, w ∈ slots.*1 → ∃ free', (w, free') ∈ slots' ∧ load l' w + length free' = c) as Hload.
  { intros v Hv. pose proof Hv as Hv'. rewrite <-Hkeys in Hv'.
    apply list_elem_of_fmap in Hv as ([v0 free] & -> & Hin).
    apply list_elem_of_fmap in Hv' as ([v1 free'] & Heqv & Hin'). simpl in *. subst v1.
    exists free'. split; [done|].
    pose proof (slot_pairs_worker slots v0 free Hnd Hin) as H1.
    pose proof (slot_pairs_worker slots' v0 free' ltac:(by rewrite Hkeys) Hin') as H2.
    rewrite Hp, filter_app, length_app, H2 in H1. rewrite (Heq _ Hin : length free = c) in H1.
    done. }
  destruct (Hload w Hw) as (f & Hf & Hlf), (Hload w' Hw') as (f' & Hf' & Hlf').
  specialize (Hbal _ _ Hf' Hf). simpl in Hbal. lia.
Qed.
