(* ===== verification/Streams.v ===== *)
(** * Task streams

    [crates/zelox-execution/src/stream/error.rs], the storage of
    [stream/writer.rs] and the local streams of [stream_manager/local.rs]: a
    memory stream with its replicas and overflow buffers, and a disk stream.
    The bounded [tokio::sync::mpsc] channels are a shared store: a sender or a
    receiver is the number of its channel. *)

From S2P Require Import Prelude Ids JobGraph.

(** ** Errors and sources *)

Inductive LocalStreamStorage := StorageMemory (replicas : nat) | StorageDisk.

(** [TaskStreamError]: a message, or an external error known by its cause. *)
Inductive TaskStreamError :=
| StreamUnknown (m : string)
| StreamPython (c : PythonErrorCause)
| StreamExternal (e : ExecutionError).

(** [From<CommonErrorCause> for TaskStreamError]. *)
Definition stream_error_of_cause (c : CommonErrorCause) : TaskStreamError :=
  match c with
  | CauseUnknown x | CauseInternal x | CauseNotImplemented x | CauseInvalidArgument x
  | CauseIo x | CauseArrowCast x | CauseArrowMemory x | CauseArrowParse x
  | CauseArrowCompute x | CauseArrowIpc x | CauseArrowCDataInterface x
  | CauseArrowDivideByZero x | CauseArrowArithmeticOverflow x
  | CauseArrowDictionaryKeyOverflow x | CauseArrowRunEndIndexOverflow x
  | CauseArrowOffsetOverflow x | CauseFormatCsv x | CauseFormatJson x
  | CauseFormatParquet x | CauseFormatAvro x | CausePlan x | CauseSchema x
  | CauseConfiguration x | CauseExecution x | CauseDeltaTable x => StreamUnknown x
  | CausePython c => StreamPython c
  end.

(** [From<TaskStreamError> for CommonErrorCause]. *)
Definition cause_of_stream_error `{ForeignCauses} (e : TaskStreamError) : CommonErrorCause :=
  match e with
  | StreamUnknown x => CauseUnknown x
  | StreamPython c => CausePython c
  | StreamExternal e => cause_of_error e
  end.

(** The [Display] of [TaskStreamError]; a remote Python error displays its
    summary. *)
Definition stream_error_display (e : TaskStreamError) : string :=
  match e with
  | StreamUnknown x => x
  | StreamPython c => py_summary c
  | StreamExternal e => execution_error_display e
  end.

(** Where a reader gets a task stream from: the receiver of a local channel,
    or a lazy fetch through the Flight client of a worker. *)
Inductive TaskStreamSource :=
| SourceChannel (channel : nat)
| SourceWorker (worker_id : N) (key : TaskStreamKey)
| SourceError (e : TaskStreamError).

(** What an iteration of a loop that awaits a channel does: it waits until
    the receiver makes room, goes on, or leaves the loop. *)
Inductive Await (A : Type) := Waits | Goes (a : A) | Leaves (a : A).
Arguments Waits {A}.
Arguments Goes {A} a.
Arguments Leaves {A} a.

Section streams.
Context `{DF : DataFusion}.

(** [TaskStreamResult<RecordBatch>]. *)
Definition Item : Type := Result TaskStreamError RecordBatch.

(** ** Channels *)

Record Channel := MkChannel {
  ch_capacity : nat;
  ch_buffer : list Item;
  (** what the receiver has taken so far *)
  ch_received : list Item;
  (** the receiver has not been dropped *)
  ch_open : bool
}.

(** [mpsc::channel(buffer)] panics when the capacity is zero. *)
Definition mpsc_channel (chs : list Channel) (buffer : nat) : Run (nat * list Channel) :=
  if decide (buffer = 0) then Panics
  else Returns (length chs, chs ++ [MkChannel buffer [] [] true]).

Inductive TrySend := SendOk (chs : list Channel) | SendFull | SendClosed.

Definition try_send (chs : list Channel) (tx : nat) (x : Item) : TrySend :=
  match chs !! tx with
  | None => SendClosed
  | Some ch =>
      if negb (ch_open ch) then SendClosed
      else if decide (length (ch_buffer ch) < ch_capacity ch) then
        SendOk (<[tx := MkChannel (ch_capacity ch) (ch_buffer ch ++ [x]) (ch_received ch) true]> chs)
      else SendFull
  end.

(** The receiver takes an item, or is dropped with what it has not taken. *)
Definition channel_recv (chs : list Channel) (rx : nat) : option (Item * list Channel) :=
  match chs !! rx with
  | Some (MkChannel capacity (x :: buffer) received true) =>
      Some (x, <[rx := MkChannel capacity buffer (received ++ [x]) true]> chs)
  | _ => None
  end.

Definition channel_drop (chs : list Channel) (rx : nat) : list Channel :=
  alter (λ ch, MkChannel (ch_capacity ch) [] (ch_received ch) false) rx chs.

(** ** Memory streams *)

Record MemoryStreamReplicaSender := MkReplicaSender {
  rs_senders : list (option nat);
  rs_overflow : list (list Item)
}.

Record MemoryStream := MkMemoryStream {
  ms_sender : option MemoryStreamReplicaSender;
  ms_receivers : list nat
}.

(** The loop of [MemoryStream::new] that makes the missing replicas. *)
Fixpoint make_replicas (n : nat) (buffer : nat) (chs : list Channel)
    (senders : list (option nat)) (receivers : list nat)
    : Run (list Channel * list (option nat) * list nat) :=
  match n with
  | 0 => Returns (chs, senders, receivers)
  | S n =>
      '(c, chs) ← mpsc_channel chs buffer;
      make_replicas n buffer chs (senders ++ [Some c]) (receivers ++ [c])
  end.

Definition memory_stream_new (chs : list Channel) (buffer replicas : nat) (senders : list nat)
    : Run (MemoryStream * list Channel) :=
  let replicas := replicas `max` length senders in
  let diff := replicas - length senders in
  '(chs, senders, receivers) ← make_replicas diff buffer chs (Some <$> senders) [];
  let overflow := replicate (length senders) [] in
  Returns (MkMemoryStream (Some (MkReplicaSender senders overflow)) receivers, chs).

Definition memory_publish (m : MemoryStream)
    : ExecutionResult (MemoryStreamReplicaSender * MemoryStream) :=
  match ms_sender m with
  | Some sender => Ok (sender, MkMemoryStream None (ms_receivers m))
  | None => Err (InternalError "memory stream can only be written once")
  end.

(** [receivers.pop()]: the replicas are handed out from the last. *)
Definition memory_subscribe (m : MemoryStream) : ExecutionResult nat * MemoryStream :=
  match last (ms_receivers m) with
  | Some rx =>
      (Ok rx, MkMemoryStream (ms_sender m) (take (pred (length (ms_receivers m))) (ms_receivers m)))
  | None => (Err (InternalError "memory stream has exhausted all replica(s)"), m)
  end.

(** ** Writing to the replicas *)

Inductive TaskStreamSinkState := SinkOk | SinkError (e : TaskStreamError) | SinkClosed.

(** [while let Some(item) = overflow.pop_front() { .. }]; the boolean says
    that the receiver is gone. *)
Fixpoint flush_overflow (chs : list Channel) (tx : nat) (overflow : list Item)
    : list Channel * list Item * bool :=
  match overflow with
  | [] => (chs, [], false)
  | item :: rest =>
      match try_send chs tx item with
      | SendOk chs => flush_overflow chs tx rest
      | SendFull => (chs, item :: rest, false)
      | SendClosed => (chs, rest, true)
      end
  end.

(** The part of the body that sends the new batch. *)
Definition send_or_buffer (chs : list Channel) (tx : nat) (overflow : list Item) (batch : Item)
    : list Channel * list Item * bool :=
  match overflow with
  | [] =>
      match try_send chs tx batch with
      | SendOk chs => (chs, [], false)
      | SendFull => (chs, [batch], false)
      | SendClosed => (chs, [], true)
      end
  | _ => (chs, overflow ++ [batch], false)
  end.

(** The body of the first loop of [write] for replica [i]; the last component
    is [active]. *)
Definition write_replica (batch : Item)
    (st : list Channel * MemoryStreamReplicaSender * bool) (i : nat)
    : Run (list Channel * MemoryStreamReplicaSender * bool) :=
  let '(chs, s, active) := st in
  sender ← vec_index (rs_senders s) i;
  match sender with
  | None => Returns st
  | Some tx =>
      overflow ← vec_index (rs_overflow s) i;
      let '(chs, overflow, dropped) := flush_overflow chs tx overflow in
      let '(chs, overflow, dropped) :=
        if (dropped : bool) then (chs, overflow, true)
        else send_or_buffer chs tx overflow batch in
      if (dropped : bool) then
        Returns (chs, MkReplicaSender (<[i := None]> (rs_senders s))
                        (<[i := []]> (rs_overflow s)), active)
      else
        Returns (chs, MkReplicaSender (rs_senders s) (<[i := overflow]> (rs_overflow s)), true)
  end.

Definition write_all (chs : list Channel) (s : MemoryStreamReplicaSender) (batch : Item)
    : Run (list Channel * MemoryStreamReplicaSender * bool) :=
  for_each (write_replica batch) (chs, s, false) (seq 0 (length (rs_senders s))).

Definition sink_state (active : bool) : TaskStreamSinkState :=
  if active then SinkOk else SinkClosed.

(** [while overflow[i].len() > cap { .. reserve().await .. }] of [write] with
    a credit [cap > 0]. *)
Definition credit_iteration (cap : nat) (chs : list Channel) (s : MemoryStreamReplicaSender) (i : nat)
    : Run (Await (list Channel * MemoryStreamReplicaSender)) :=
  overflow ← vec_index (rs_overflow s) i;
  if decide (length overflow ≤ cap) then Returns (Leaves (chs, s))
  else
    sender ← vec_index (rs_senders s) i;
    match sender, overflow with
    | Some tx, item :: rest =>
        match try_send chs tx item with
        | SendOk chs =>
            Returns (Goes (chs, MkReplicaSender (rs_senders s) (<[i := rest]> (rs_overflow s))))
        | SendFull => Returns Waits
        | SendClosed =>
            Returns (Leaves (chs, MkReplicaSender (<[i := None]> (rs_senders s))
                                    (<[i := []]> (rs_overflow s))))
        end
    | _, _ => Returns (Leaves (chs, s))
    end.

(** [while let Some(item) = overflow.pop_front() { .. send(item).await .. }]
    of [close]. *)
Definition close_iteration (chs : list Channel) (s : MemoryStreamReplicaSender) (i : nat)
    : Run (Await (list Channel * MemoryStreamReplicaSender)) :=
  sender ← vec_index (rs_senders s) i;
  match sender with
  | None => Returns (Leaves (chs, s))
  | Some tx =>
      overflow ← vec_index (rs_overflow s) i;
      match overflow with
      | [] => Returns (Leaves (chs, s))
      | item :: rest =>
          match try_send chs tx item with
          | SendOk chs =>
              Returns (Goes (chs, MkReplicaSender (rs_senders s) (<[i := rest]> (rs_overflow s))))
          | SendFull => Returns Waits
          | SendClosed =>
              Returns (Leaves (chs, MkReplicaSender (<[i := None]> (rs_senders s))
                                      (<[i := []]> (rs_overflow s))))
          end
      end
  end.

(** ** Disk streams *)

(** The file operations and the Arrow IPC writer. *)
Class DiskIo := {
  create_dir_all : string → Result ForeignError unit;
  file_create : string → Result ForeignError unit;
  ipc_writer_try_new : string → Schema → Result ForeignError unit;
  (** [Path::join] and the [Debug] of a path *)
  path_join : string → string → string;
  path_debug : string → string
}.

Record DiskStream := MkDiskStream {
  ds_path : string;
  ds_schema : Schema;
  ds_senders : list nat;
  ds_buffer : nat
}.

Record DiskStreamSink := MkDiskStreamSink {
  dss_path : string;
  dss_pending_senders : list nat
}.

Definition disk_publish `{DiskIo} (d : DiskStream)
    : ExecutionResult (DiskStreamSink * DiskStream) :=
  match file_create (ds_path d) with
  | Err e => Err (InternalError
      ("disk stream: failed to create file " +:+ path_debug (ds_path d) +:+ ": "
       +:+ foreign_display e))
  | Ok _ =>
      match ipc_writer_try_new (ds_path d) (ds_schema d) with
      | Err e => Err (InternalError ("disk stream: IPC writer init: " +:+ foreign_display e))
      | Ok _ => Ok (MkDiskStreamSink (ds_path d) (ds_senders d),
                    MkDiskStream (ds_path d) (ds_schema d) [] (ds_buffer d))
      end
  end.

Definition disk_subscribe (chs : list Channel) (d : DiskStream) : Run (nat * DiskStream * list Channel) :=
  '(c, chs) ← mpsc_channel chs (ds_buffer d);
  Returns (c, MkDiskStream (ds_path d) (ds_schema d) (ds_senders d ++ [c]) (ds_buffer d), chs).

(** ** The [LocalStream] trait and its sinks *)

Inductive LocalStream := LsMemory (m : MemoryStream) | LsDisk (d : DiskStream).
Inductive TaskStreamSink := SkMemory (s : MemoryStreamReplicaSender) | SkDisk (s : DiskStreamSink).

Definition publish `{DiskIo} (s : LocalStream) : ExecutionResult (TaskStreamSink * LocalStream) :=
  match s with
  | LsMemory m => '(sink, m) ← memory_publish m; Ok (SkMemory sink, LsMemory m)
  | LsDisk d => '(sink, d) ← disk_publish d; Ok (SkDisk sink, LsDisk d)
  end.

Definition subscribe (chs : list Channel) (s : LocalStream)
    : Run (ExecutionResult TaskStreamSource * LocalStream * list Channel) :=
  match s with
  | LsMemory m =>
      let '(r, m) := memory_subscribe m in
      Returns (match r with Ok c => Ok (SourceChannel c) | Err e => Err e end, LsMemory m, chs)
  | LsDisk d =>
      '(c, d, chs) ← disk_subscribe chs d;
      Returns (Ok (SourceChannel c), LsDisk d, chs)
  end.
End streams.
