(* ===== verification/StreamTheorems.v ===== *)
(** * Delivery through memory streams

    A replica's receiver sees, in order and without loss, what was written, no
    matter how the channel and the overflow buffer share the backlog. *)

From S2P Require Import Prelude Ids JobGraph Streams.
Section facts.
Context `{DF : DataFusion}.

(** What replica [c] holds after [written] was written to the stream: [sd] is
    its sender, [ov] its overflow buffer. *)
Definition replica_ok (chs : list Channel) (written : list Item) (c : nat) (sd : option nat)
    (ov : list Item) : Prop :=
  ∃ ch, chs !! c = Some ch ∧ length (ch_buffer ch) ≤ ch_capacity ch ∧
    (sd = Some c ∨ sd = None ∧ ch_open ch = false ∧ ov = []) ∧
    if ch_open ch then ch_received ch ++ ch_buffer ch ++ ov = written
    else ch_received ch `prefix_of` written.

(** [ids] are the channels of the replicas; [w i] is what was written to
    replica [i]. *)
Record sender_ok (chs : list Channel) (ids : list nat) (w : nat → list Item)
    (s : MemoryStreamReplicaSender) : Prop := {
  so_ids : NoDup ids;
  so_senders : length (rs_senders s) = length ids;
  so_overflow : length (rs_overflow s) = length ids;
  so_replicas : ∀ i c sd ov, ids !! i = Some c → rs_senders s !! i = Some sd →
    rs_overflow s !! i = Some ov → replica_ok chs (w i) c sd ov
}.

Definition is_open (chs : list Channel) (c : nat) : bool := from_option ch_open false (chs !! c).

Lemma sender_ok_lookup chs ids w s i c :
  sender_ok chs ids w s → ids !! i = Some c →
  ∃ sd ov, rs_senders s !! i = Some sd ∧ rs_overflow s !! i = Some ov ∧
    replica_ok chs (w i) c sd ov.
Proof.
  intros [Hids Hs Ho Hr] Hc. pose proof (lookup_lt_Some _ _ _ Hc).
  destruct (lookup_lt_is_Some_2 (rs_senders s) i) as [sd Hsd]; [lia|].
  destruct (lookup_lt_is_Some_2 (rs_overflow s) i) as [ov Hov]; [lia|].
  exists sd, ov. split_and!; [done|done|by apply Hr].
Qed.

(** Replacing the channel, the sender and the overflow buffer of a replica. *)
Lemma sender_ok_set chs ids w s i c ch sd ov wr :
  sender_ok chs ids w s → ids !! i = Some c →
  replica_ok (<[c := ch]> chs) wr c sd ov →
  sender_ok (<[c := ch]> chs) ids (λ j, if decide (j = i) then wr else w j)
    (MkReplicaSender (<[i := sd]> (rs_senders s)) (<[i := ov]> (rs_overflow s))).
Proof.
  intros [Hids Hs Ho Hr] Hc Hnew. split; simpl; [done|by rewrite length_insert..|].
  intros j c' sd' ov' Hc' Hsd' Hov'. pose proof (lookup_lt_Some _ _ _ Hc).
  destruct (decide (j = i)) as [->|Hne].
  - rewrite list_lookup_insert_eq in Hsd' by lia. rewrite list_lookup_insert_eq in Hov' by lia. by simplify_eq.
  - rewrite list_lookup_insert_ne in Hsd' by done. rewrite list_lookup_insert_ne in Hov' by done.
    destruct (Hr j c' sd' ov' Hc' Hsd' Hov') as (ch' & Hch' & Hrest).
    exists ch'. split; [|done]. rewrite list_lookup_insert_ne; [done|].
    intros ->. apply Hne. by eapply NoDup_lookup.
Qed.

Lemma insert_same_channel (chs : list Channel) c ch : chs !! c = Some ch → <[c := ch]> chs = chs.
Proof. intros. by apply list_insert_id. Qed.

(** ** One replica *)

Definition ch_with_buffer (ch : Channel) (b : list Item) : Channel :=
  MkChannel (ch_capacity ch) b (ch_received ch) (ch_open ch).

Lemma ch_with_buffer_id ch : ch_with_buffer ch (ch_buffer ch) = ch.
Proof. by destruct ch. Qed.

(** [try_send] on a known channel. *)
Lemma try_send_spec chs tx ch x :
  chs !! tx = Some ch →
  try_send chs tx x =
    if negb (ch_open ch) then SendClosed
    else if decide (length (ch_buffer ch) < ch_capacity ch)
    then SendOk (<[tx := ch_with_buffer ch (ch_buffer ch ++ [x])]> chs) else SendFull.
Proof.
  intros Hch. unfold try_send. rewrite Hch. destruct (ch_open ch) eqn:Ho; [|done]. simpl.
  case_decide; [|done]. unfold ch_with_buffer. by rewrite Ho.
Qed.

Lemma flush_overflow_spec chs tx ch ov :
  chs !! tx = Some ch → length (ch_buffer ch) ≤ ch_capacity ch →
  ∃ b ov' dropped, flush_overflow chs tx ov = (<[tx := ch_with_buffer ch b]> chs, ov', dropped) ∧
    length b ≤ ch_capacity ch ∧
    if ch_open ch then dropped = false ∧ b ++ ov' = ch_buffer ch ++ ov ∧
                       (ov' = [] ∨ length b = ch_capacity ch)
    else b = ch_buffer ch ∧ (dropped = true ∨ ov' = []).
Proof.
  revert chs ch. induction ov as [|x ov IH]; intros chs ch Hch Hcap; simpl.
  { exists (ch_buffer ch), [], false. rewrite ch_with_buffer_id, insert_same_channel by done.
    split_and!; [done|done|]. destruct (ch_open ch); auto. }
  rewrite (try_send_spec _ _ ch) by done. destruct (ch_open ch) eqn:Ho; simpl.
  2:{ exists (ch_buffer ch), ov, true. rewrite ch_with_buffer_id, insert_same_channel by done.
      auto. }
  case_decide as Hlt.
  2:{ exists (ch_buffer ch), (x :: ov), false.
      rewrite ch_with_buffer_id, insert_same_channel by done.
      split_and!; [done|done|done|done|]. right. lia. }
  pose proof (lookup_lt_Some _ _ _ Hch).
  edestruct (IH (<[tx := ch_with_buffer ch (ch_buffer ch ++ [x])]> chs))
    as (b & ov' & dropped & Hf & Hb & Hrest).
  { by apply list_lookup_insert_eq. }
  { simpl. rewrite length_app. simpl. lia. }
  simpl in Hrest. rewrite Ho in Hrest. destruct Hrest as (-> & Heq & Hfull).
  exists b, ov', false. rewrite Hf, list_insert_insert_eq. split_and!; try done.
  by rewrite Heq, <-(assoc_L (++)).
Qed.

Lemma send_or_buffer_spec chs tx ch ov x :
  chs !! tx = Some ch → length (ch_buffer ch) ≤ ch_capacity ch →
  (ch_open ch = false → ov = []) →
  ∃ b ov', send_or_buffer chs tx ov x =
             (<[tx := ch_with_buffer ch b]> chs, ov', negb (ch_open ch)) ∧
    length b ≤ ch_capacity ch ∧
    if ch_open ch then b ++ ov' = ch_buffer ch ++ ov ++ [x] else b = ch_buffer ch.
Proof.
  intros Hch Hcap Hcl. unfold send_or_buffer. destruct ov as [|y ov].
  - rewrite (try_send_spec _ _ ch) by done. destruct (ch_open ch) eqn:Ho; simpl.
    + case_decide as Hlt.
      * exists (ch_buffer ch ++ [x]), []. rewrite length_app, app_nil_r. simpl.
        split_and!; [done|lia|done].
      * exists (ch_buffer ch), [x]. rewrite ch_with_buffer_id, insert_same_channel by done.
        auto.
    + exists (ch_buffer ch), []. rewrite ch_with_buffer_id, insert_same_channel by done. auto.
  - destruct (ch_open ch); [|by specialize (Hcl eq_refl)].
    exists (ch_buffer ch), ((y :: ov) ++ [x]).
    rewrite ch_with_buffer_id, insert_same_channel by done. auto.
Qed.

(** A channel update that leaves the other channels, and every receiver, as
    they were. *)
Definition only_buffer (ids : list nat) (chs chs' : list Channel) : Prop :=
  length chs' = length chs ∧
  (∀ c, c ∉ ids → chs' !! c = chs !! c) ∧
  (∀ c ch, chs !! c = Some ch → ∃ b, chs' !! c = Some (ch_with_buffer ch b)).

#[global] Instance only_buffer_preorder ids : PreOrder (only_buffer ids).
Proof.
  split.
  - intros chs. split_and!; [done|done|]. intros c ch Hch. exists (ch_buffer ch).
    by rewrite ch_with_buffer_id.
  - intros c1 c2 c3 (L1 & O1 & B1) (L2 & O2 & B2). split_and!; [congruence| |].
    + intros c Hc. by rewrite O2, O1.
    + intros c ch (b1 & Hb1)%B1. destruct (B2 _ _ Hb1) as (b2 & Hb2). by exists b2.
Qed.

Lemma only_buffer_insert chs ids c ch b :
  chs !! c = Some ch → c ∈ ids → only_buffer ids chs (<[c := ch_with_buffer ch b]> chs).
Proof.
  intros Hch Hc. pose proof (lookup_lt_Some _ _ _ Hch). split_and!.
  - by rewrite length_insert.
  - intros c' Hc'. apply list_lookup_insert_ne. set_solver.
  - intros c' ch' Hch'. destruct (decide (c' = c)) as [->|].
    + simplify_eq. exists b. by apply list_lookup_insert_eq.
    + exists (ch_buffer ch'). rewrite list_lookup_insert_ne by done. by rewrite ch_with_buffer_id.
Qed.

Lemma only_buffer_open chs chs' ids c : only_buffer ids chs chs' → is_open chs' c = is_open chs c.
Proof.
  intros (Hl & _ & Hb). unfold is_open. destruct (chs !! c) as [ch|] eqn:Hch.
  - by destruct (Hb _ _ Hch) as (b & ->).
  - by rewrite (lookup_ge_None_2 chs') by (rewrite Hl; by apply lookup_ge_None).
Qed.

(** Flushing and then sending or buffering the new item. *)
Lemma replica_step_spec chs tx ch ov x :
  chs !! tx = Some ch → length (ch_buffer ch) ≤ ch_capacity ch →
  ∃ b ov', (let '(chs1, ov1, dropped) := flush_overflow chs tx ov in
            if (dropped : bool) then (chs1, ov1, true) else send_or_buffer chs1 tx ov1 x) =
             (<[tx := ch_with_buffer ch b]> chs, ov', negb (ch_open ch)) ∧
    length b ≤ ch_capacity ch ∧
    if ch_open ch then b ++ ov' = ch_buffer ch ++ ov ++ [x] else b = ch_buffer ch.
Proof.
  intros Hch Hcap.
  destruct (flush_overflow_spec chs tx ch ov Hch Hcap) as (b & ov1 & dr & -> & Hb & Hfl).
  assert (dr = true → ch_open ch = false ∧ b = ch_buffer ch) as Hdr.
  { destruct (ch_open ch); intros ->; naive_solver. }
  destruct dr.
  { destruct Hdr as [Ho ->]; [done|]. rewrite Ho in *. exists (ch_buffer ch), ov1. done. }
  destruct (send_or_buffer_spec (<[tx := ch_with_buffer ch b]> chs) tx (ch_with_buffer ch b) ov1 x)
    as (b2 & ov2 & -> & Hb2 & Hrest); simpl in *.
  { apply list_lookup_insert_eq. by eapply lookup_lt_Some. }
  { done. }
  { intros Ho. rewrite Ho in Hfl. naive_solver. }
  exists b2, ov2. rewrite list_insert_insert_eq. split_and!; [done|done|].
  destruct (ch_open ch); [|naive_solver]. destruct Hfl as (_ & Heq & _).
  by rewrite Hrest, (assoc_L (++) b), Heq, <-(assoc_L (++)).
Qed.

(** The body of [write] for one replica. *)
Lemma total_write_replica batch chs ids w s active i c :
  sender_ok chs ids w s → ids !! i = Some c →
  write_replica batch (chs, s, active) i ⇓ (λ '(chs', s', active'),
    sender_ok chs' ids (λ j, if decide (j = i) then w i ++ [batch] else w j) s' ∧
    only_buffer ids chs chs' ∧ active' = active || is_open chs c).
Proof.
  intros Hok Hc. destruct (sender_ok_lookup _ _ _ _ _ _ Hok Hc) as (sd & ov & Hsd & Hov & Hr).
  unfold write_replica. apply total_bind. eapply total_vec_index; [done|].
  destruct Hr as (ch & Hch & Hcap & Hs & Hw). unfold is_open. rewrite Hch. simpl.
  destruct sd as [tx|].
  { destruct Hs as [[= ->]|[? _]]; [|done]. apply total_bind. eapply total_vec_index; [done|].
    destruct (replica_step_spec chs c ch ov batch Hch Hcap) as (b & ov' & Hstep & Hb & Hrest).
    destruct (flush_overflow chs c ov) as [[chs1 ov1] dr]. rewrite Hstep.
    pose proof (list_lookup_insert_eq chs c (ch_with_buffer ch b)
                  (lookup_lt_Some _ _ _ Hch)) as Hch'.
    pose proof (list_elem_of_lookup_2 _ _ _ Hc) as Hin.
    destruct (ch_open ch) eqn:Ho; simpl.
    - split_and!; [|by apply only_buffer_insert|by rewrite orb_true_r].
      rewrite <-(list_insert_id (rs_senders s) i (Some c)) by done.
      apply sender_ok_set; [done|done|].
      exists (ch_with_buffer ch b). simpl. rewrite Ho. split_and!; auto.
      by rewrite Hrest, <-Hw, !(assoc_L (++)).
    - split_and!; [|by apply only_buffer_insert|by rewrite orb_false_r].
      apply sender_ok_set; [done|done|]. exists (ch_with_buffer ch b). simpl. rewrite Ho.
      split_and!; auto. by apply prefix_app_r. }
  destruct Hs as [?|(_ & Hopen & ->)]; [done|]. rewrite Hopen, orb_false_r in *.
  split_and!; [|reflexivity|done].
  pose proof (sender_ok_set chs ids w s i c ch None [] (w i ++ [batch]) Hok Hc) as Hset.
  rewrite insert_same_channel, !list_insert_id in Hset by done.
  destruct s. apply Hset. exists ch. rewrite Hopen. split_and!; auto. by apply prefix_app_r.
Qed.

Lemma sender_ok_ext chs ids w w' s :
  (∀ i, i < length ids → w i = w' i) → sender_ok chs ids w s → sender_ok chs ids w' s.
Proof.
  intros Hw []. split; try done. intros i c sd ov Hc Hsd Hov.
  rewrite <-Hw by (by eapply lookup_lt_Some). eauto.
Qed.

(** [write] reaches every replica and says whether one is left. *)
Lemma total_write_all batch chs ids written s :
  sender_ok chs ids (λ _, written) s →
  write_all chs s batch ⇓ (λ '(chs', s', active),
    sender_ok chs' ids (λ _, written ++ [batch]) s' ∧
    only_buffer ids chs chs' ∧ active = existsb (is_open chs) ids).
Proof.
  intros Hok. unfold write_all. rewrite (so_senders _ _ _ _ Hok).
  eapply total_mono.
  - apply (total_for_each (write_replica batch) (λ pre '(chs', s', active),
      sender_ok chs' ids (λ i, if decide (i < length pre) then written ++ [batch] else written) s' ∧
      only_buffer ids chs chs' ∧ active = existsb (is_open chs) (take (length pre) ids))).
    { split_and!; [|reflexivity|done]. eapply sender_ok_ext; [|done]. by intros. }
    intros pre i post [[chs1 s1] active] Hseq (Hok1 & Hb1 & ->).
    assert (i = length pre ∧ i < length ids) as [-> Hlt].
    { assert (seq 0 (length ids) !! length pre = Some i) as Hl.
      { rewrite Hseq. by apply list_lookup_middle. }
      apply lookup_seq in Hl as [-> ?]. done. }
    destruct (lookup_lt_is_Some_2 ids (length pre) Hlt) as [c Hc].
    eapply total_mono; [by eapply total_write_replica|].
    intros [[chs2 s2] active2] (Hok2 & Hb2 & ->). rewrite length_app. simpl. split_and!.
    + eapply sender_ok_ext; [|done]. intros i Hi. simpl.
      repeat case_decide; (done || lia).
    + by etrans.
    + rewrite (only_buffer_open _ _ _ _ Hb1), Nat.add_1_r, (take_S_r _ _ c) by done.
      rewrite existsb_app. simpl. by rewrite orb_false_r.
  - intros [[chs' s'] active] (Hok' & Hb & ->). rewrite length_seq in *.
    rewrite take_ge by done. split_and!; [|done|done].
    eapply sender_ok_ext; [|done]. intros i Hi. simpl. by rewrite decide_True.
Qed.
End facts.

(** ** Memory streams under concurrency

    The writer of a memory stream and the receivers of its replicas run
    concurrently.  The steps below interleave them at the points where the
    code can be interrupted: a [write] up to its credit loop does not await,
    and each iteration of the credit loop and of [close] is a step. *)

Section system.
Context `{DF : DataFusion}.

(** Channels, the sender, and what was written so far. *)
Definition StreamSystem : Type := list Channel * MemoryStreamReplicaSender * list Item.

Definition await_result {A} (r : Await A) : option A :=
  match r with Waits => None | Goes a | Leaves a => Some a end.

Inductive stream_step (cap : nat) (ids : list nat) : StreamSystem → StreamSystem → Prop :=
| StWrite chs s written batch chs' s' active :
    write_all chs s batch = Returns (chs', s', active) →
    stream_step cap ids (chs, s, written) (chs', s', written ++ [batch])
| StCredit chs s written i r chs' s' :
    credit_iteration cap chs s i = Returns r → await_result r = Some (chs', s') →
    stream_step cap ids (chs, s, written) (chs', s', written)
| StClose chs s written i r chs' s' :
    close_iteration chs s i = Returns r → await_result r = Some (chs', s') →
    stream_step cap ids (chs, s, written) (chs', s', written)
| StRecv chs s written c x chs' :
    channel_recv chs c = Some (x, chs') →
    stream_step cap ids (chs, s, written) (chs', s, written)
| StDrop chs s written c :
    stream_step cap ids (chs, s, written) (channel_drop chs c, s, written)
| StOther chs s written chs' :
    (∀ c, c ∈ ids → chs' !! c = chs !! c) →
    stream_step cap ids (chs, s, written) (chs', s, written).

Inductive stream_reachable (cap : nat) (ids : list nat) (st0 : StreamSystem)
    : StreamSystem → Prop :=
| StreamStart : stream_reachable cap ids st0 st0
| StreamNext st st' : stream_reachable cap ids st0 st → stream_step cap ids st st' →
    stream_reachable cap ids st0 st'.

Definition stream_inv (ids : list nat) (st : StreamSystem) : Prop :=
  let '(chs, s, written) := st in sender_ok chs ids (λ _, written) s.

(** ** Creation *)

Definition fresh_channel (chs : list Channel) (c : nat) : Prop :=
  ∃ ch, chs !! c = Some ch ∧ ch_buffer ch = [] ∧ ch_received ch = [].

Lemma total_make_replicas n buffer chs senders receivers :
  0 < buffer →
  make_replicas n buffer chs senders receivers ⇓ (λ '(chs', senders', receivers'),
    let new := seq (length chs) n in
    senders' = senders ++ (Some <$> new) ∧ receivers' = receivers ++ new ∧
    chs' = chs ++ replicate n (MkChannel buffer [] [] true)).
Proof.
  intros Hb. revert chs senders receivers.
  induction n as [|n IH]; intros chs senders receivers; simpl.
  { by rewrite !app_nil_r. }
  unfold mpsc_channel. rewrite decide_False by lia. simpl.
  eapply total_mono; [apply IH|]. intros [[chs' senders'] receivers'] (-> & -> & ->).
  rewrite length_app, Nat.add_1_r, <-!(assoc_L (++)). done.
Qed.

Lemma total_memory_stream_new chs buffer replicas senders :
  0 < buffer → NoDup senders → (∀ c, c ∈ senders → fresh_channel chs c) →
  memory_stream_new chs buffer replicas senders ⇓ (λ '(m, chs'), ∃ s,
    ms_sender m = Some s ∧ chs `prefix_of` chs' ∧
    length (senders ++ ms_receivers m) = replicas `max` length senders ∧
    (∀ c, c ∈ ms_receivers m → length chs ≤ c) ∧
    stream_inv (senders ++ ms_receivers m) (chs', s, [])).
Proof.
  intros Hb Hnd Hfr. unfold memory_stream_new. run_call (by apply total_make_replicas).
  intros [[chs' senders'] receivers'] (-> & -> & ->). simpl.
  set (n := replicas `max` length senders - length senders).
  eexists. split_and!; [done|by apply prefix_app_r| | |].
  - rewrite length_app, length_seq. unfold n. lia.
  - intros c Hc%elem_of_seq. lia.
  - split; simpl.
    + apply NoDup_app. split_and!; [done| |apply NoDup_seq].
      intros c (ch & Hch & _)%Hfr Hc%elem_of_seq. apply lookup_lt_Some in Hch. lia.
    + by rewrite <-fmap_app, length_fmap.
    + by rewrite length_replicate, <-fmap_app, length_fmap.
    + intros i c sd ov Hc. rewrite <-fmap_app, list_lookup_fmap, Hc. intros [= <-].
      intros [-> _]%lookup_replicate.
      apply list_elem_of_lookup_2, elem_of_app in Hc as [Hc|Hc].
      * destruct (Hfr c Hc) as (ch & Hch & Hb0 & Hr0). exists ch.
        rewrite Hb0, Hr0, (lookup_app_l_Some _ _ _ _ Hch). simpl.
        split_and!; [done|lia|by left|]. by destruct (ch_open ch).
      * apply elem_of_seq in Hc. exists (MkChannel buffer [] [] true).
        rewrite lookup_app_r, lookup_replicate_2 by lia. simpl. split_and!; (done || lia || auto).
Qed.

(** ** Steps *)

(** Moving the front of an overflow buffer into the channel. *)
Lemma try_send_front chs ids w s i c x rest :
  sender_ok chs ids w s → ids !! i = Some c → rs_senders s !! i = Some (Some c) →
  rs_overflow s !! i = Some (x :: rest) →
  match try_send chs c x with
  | SendOk chs' =>
      sender_ok chs' ids w (MkReplicaSender (rs_senders s) (<[i := rest]> (rs_overflow s)))
  | SendFull => ∃ ch, chs !! c = Some ch ∧ ch_open ch = true ∧
      length (ch_buffer ch) = ch_capacity ch
  | SendClosed =>
      sender_ok chs ids w (MkReplicaSender (<[i := None]> (rs_senders s))
                             (<[i := []]> (rs_overflow s)))
  end.
Proof.
  intros Hok Hc Hsd Hov. destruct (so_replicas _ _ _ _ Hok i c _ _ Hc Hsd Hov)
    as (ch & Hch & Hcap & _ & Hw).
  rewrite (try_send_spec _ _ ch) by done. destruct (ch_open ch) eqn:Ho; simpl.
  - case_decide; [|exists ch; split_and!; [done|done|lia]].
    eapply (sender_ok_ext _ _ (λ j, if decide (j = i) then w i else w j)).
    { intros j _. simpl. case_decide; by subst. }
    rewrite <-(list_insert_id (rs_senders s) i (Some c)) by done.
    apply sender_ok_set; [done|done|]. eexists. split.
    { apply list_lookup_insert_eq. by eapply lookup_lt_Some. }
    simpl. rewrite Ho, length_app, <-Hw, <-!(assoc_L (++)). simpl.
    split_and!; [lia|by left|done].
  - eapply (sender_ok_ext _ _ (λ j, if decide (j = i) then w i else w j)).
    { intros j _. simpl. case_decide; by subst. }
    rewrite <-(list_insert_id chs c ch) by done. apply sender_ok_set; [done|done|].
    exists ch. rewrite list_insert_id, Ho by done. split_and!; auto.
Qed.

(** What an iteration that awaits leaves behind: the invariant, and either
    progress on the backlog of the replica or a reason to stop. *)
Definition iteration_ok (ids : list nat) (w : nat → list Item) (chs : list Channel)
    (s : MemoryStreamReplicaSender) (i c : nat) (done : list Item → Prop)
    (r : Await (list Channel * MemoryStreamReplicaSender)) : Prop :=
  match r with
  | Waits => ∃ ch, chs !! c = Some ch ∧ ch_open ch = true ∧
      length (ch_buffer ch) = ch_capacity ch
  | Goes (chs', s') => sender_ok chs' ids w s' ∧
      ∃ x rest, rs_overflow s !! i = Some (x :: rest) ∧ rs_overflow s' !! i = Some rest
  | Leaves (chs', s') => sender_ok chs' ids w s' ∧
      ∃ ov, rs_overflow s' !! i = Some ov ∧ done ov
  end.

Lemma total_credit_iteration cap chs ids w s i c :
  sender_ok chs ids w s → ids !! i = Some c →
  credit_iteration cap chs s i ⇓
    iteration_ok ids w chs s i c (λ ov, length ov ≤ cap).
Proof.
  intros Hok Hc. destruct (sender_ok_lookup _ _ _ _ _ _ Hok Hc) as (sd & ov & Hsd & Hov & Hr).
  unfold credit_iteration. apply total_bind. eapply total_vec_index; [done|].
  case_decide as Hlen; [simpl; eauto|].
  apply total_bind. eapply total_vec_index; [done|].
  destruct Hr as (ch & Hch & Hcap & [->|(-> & _ & ->)] & _); [|simpl in Hlen; lia].
  destruct ov as [|x rest]; [simpl in Hlen; lia|].
  pose proof (try_send_front _ _ _ _ _ _ _ _ Hok Hc Hsd Hov) as Hfr.
  pose proof (lookup_lt_Some _ _ _ Hov).
  destruct (try_send chs c x); simpl; [|done|].
  - split; [done|]. exists x, rest. split; [done|]. by apply list_lookup_insert_eq.
  - split; [done|]. exists []. split; [by apply list_lookup_insert_eq|simpl; lia].
Qed.

Lemma total_close_iteration chs ids w s i c :
  sender_ok chs ids w s → ids !! i = Some c →
  close_iteration chs s i ⇓ iteration_ok ids w chs s i c (λ ov, ov = []).
Proof.
  intros Hok Hc. destruct (sender_ok_lookup _ _ _ _ _ _ Hok Hc) as (sd & ov & Hsd & Hov & Hr).
  unfold close_iteration. apply total_bind. eapply total_vec_index; [done|].
  destruct Hr as (ch & Hch & Hcap & [->|(-> & _ & ->)] & _); [|simpl; eauto].
  apply total_bind. eapply total_vec_index; [done|].
  destruct ov as [|x rest]; [simpl; eauto|].
  pose proof (try_send_front _ _ _ _ _ _ _ _ Hok Hc Hsd Hov) as Hfr.
  pose proof (lookup_lt_Some _ _ _ Hov).
  destruct (try_send chs c x); simpl; [|done|].
  - split; [done|]. exists x, rest. split; [done|]. by apply list_lookup_insert_eq.
  - split; [done|]. exists []. split; [by apply list_lookup_insert_eq|done].
Qed.

(** Changes by a receiver to its own channel. *)
Lemma sender_ok_receiver chs chs' ids w s :
  (∀ c ch, c ∈ ids → chs !! c = Some ch → ∃ ch', chs' !! c = Some ch' ∧
     length (ch_buffer ch') ≤ length (ch_buffer ch) ∧ ch_capacity ch' = ch_capacity ch ∧
     if ch_open ch' then ch_open ch = true ∧
       ch_received ch' ++ ch_buffer ch' = ch_received ch ++ ch_buffer ch
     else ch_received ch' = ch_received ch) →
  sender_ok chs ids w s → sender_ok chs' ids w s.
Proof.
  intros Hch [Hids Hs Ho Hr]. split; try done. intros i c sd ov Hc Hsd Hov.
  destruct (Hr i c sd ov Hc Hsd Hov) as (ch & Hl & Hcap & Hsender & Hw).
  destruct (Hch c ch (list_elem_of_lookup_2 _ _ _ Hc) Hl) as (ch' & Hl' & Hlen & Hcap' & Hop).
  exists ch'. split_and!; [done|lia| |].
  - destruct Hsender as [|(-> & Hop1 & ->)]; [by left|]. right. split_and!; [done| |done].
    destruct (ch_open ch'); [|done]. destruct Hop. congruence.
  - destruct (ch_open ch').
    + destruct Hop as [Hop Heq]. rewrite Hop in Hw. by rewrite (assoc_L (++)), Heq, <-(assoc_L (++)).
    + rewrite Hop. destruct (ch_open ch); [|done]. rewrite <-Hw. by apply prefix_app_r.
Qed.

Lemma iteration_ok_inv ids w chs s i c dn r chs' s' :
  iteration_ok ids w chs s i c dn r → await_result r = Some (chs', s') →
  sender_ok chs' ids w s'.
Proof. destruct r as [|[]|[]]; simpl; naive_solver. Qed.

Lemma returns_total {A} (m : Run A) a (Q : A → Prop) : m = Returns a → m ⇓ Q → Q a.
Proof. by intros ->. Qed.

Lemma channel_recv_spec chs c x chs' :
  channel_recv chs c = Some (x, chs') →
  ∃ cap b r, chs !! c = Some (MkChannel cap (x :: b) r true) ∧
    chs' = <[c := MkChannel cap b (r ++ [x]) true]> chs.
Proof.
  unfold channel_recv. destruct (chs !! c) as [[cap [|y b] r []]|]; naive_solver.
Qed.

Lemma stream_step_inv cap ids st st' :
  stream_step cap ids st st' → stream_inv ids st → stream_inv ids st'.
Proof.
  destruct 1 as [chs s written batch chs' s' active Hw|chs s written i r chs' s' Hr Hres|
    chs s written i r chs' s' Hr Hres|chs s written c x chs' Hrecv|chs s written c|
    chs s written chs' Heq]; simpl; intros Hok.
  - pose proof (returns_total _ _ _ Hw (total_write_all batch _ _ _ _ Hok)) as (Hok' & _). done.
  - destruct (ids !! i) as [c|] eqn:Hc.
    + eapply iteration_ok_inv; [|done].
      exact (returns_total _ _ _ Hr (total_credit_iteration cap _ _ _ _ _ _ Hok Hc)).
    + unfold credit_iteration, vec_index in Hr.
      rewrite (lookup_ge_None_2 (rs_overflow s)) in Hr; [done|].
      rewrite (so_overflow _ _ _ _ Hok). by apply lookup_ge_None.
  - destruct (ids !! i) as [c|] eqn:Hc.
    + eapply iteration_ok_inv; [|done].
      exact (returns_total _ _ _ Hr (total_close_iteration _ _ _ _ _ _ Hok Hc)).
    + unfold close_iteration, vec_index in Hr.
      rewrite (lookup_ge_None_2 (rs_senders s)) in Hr; [done|].
      rewrite (so_senders _ _ _ _ Hok). by apply lookup_ge_None.
  - apply channel_recv_spec in Hrecv as (cap0 & b & r & Hl & ->).
    eapply sender_ok_receiver; [|done]. intros c' ch _ Hch.
    destruct (decide (c' = c)) as [->|].
    + simplify_eq. eexists. split; [apply list_lookup_insert_eq; by eapply lookup_lt_Some|].
      simpl. split_and!; [lia|done|done|by rewrite <-(assoc_L (++))].
    + exists ch. rewrite list_lookup_insert_ne by done. split_and!; [done|lia|done|].
      by destruct (ch_open ch).
  - eapply sender_ok_receiver; [|done]. intros c' ch _ Hch. unfold channel_drop.
    destruct (decide (c' = c)) as [->|].
    + rewrite list_lookup_alter_eq, Hch. eexists. split; [done|]. simpl. split_and!; (done || lia).
    + rewrite list_lookup_alter_ne by done. exists ch. split_and!; [done|lia|done|].
      by destruct (ch_open ch).
  - eapply sender_ok_receiver; [|done]. intros c ch Hc Hch. exists ch.
    rewrite Heq by done. split_and!; [done|lia|done|]. by destruct (ch_open ch).
Qed.

Lemma stream_reachable_inv cap ids st0 st :
  stream_reachable cap ids st0 st → stream_inv ids st0 → stream_inv ids st.
Proof. induction 1; eauto using stream_step_inv. Qed.

(** ** Claims *)

(** The streams a memory stream starts from, with the channels of the
    subscribers that were waiting for it. *)
Definition stream_starts (chs : list Channel) (buffer replicas : nat) (senders : list nat)
    (ids : list nat) (st : StreamSystem) : Prop :=
  ∃ m chs' s, memory_stream_new chs buffer replicas senders = Returns (m, chs') ∧
    memory_publish m = Ok (s, MkMemoryStream None (ms_receivers m)) ∧
    ids = senders ++ ms_receivers m ∧ st = (chs', s, []).

Lemma stream_starts_inv chs buffer replicas senders ids st :
  0 < buffer → NoDup senders → (∀ c, c ∈ senders → fresh_channel chs c) →
  stream_starts chs buffer replicas senders ids st → stream_inv ids st.
Proof.
  intros Hb Hnd Hfr (m & chs' & s & Hnew & Hpub & -> & ->).
  destruct (returns_total _ _ _ Hnew (total_memory_stream_new chs buffer replicas senders Hb Hnd Hfr))
    as (s' & Hs' & _ & _ & _ & Hinv).
  unfold memory_publish in Hpub. rewrite Hs' in Hpub. by simplify_eq.
Qed.

(** C39. However the writer of a memory stream and its readers interleave, what
    a replica has received is a prefix of what was written, in order; and as
    long as its receiver is alive, nothing is lost: what it received, the
    channel and the overflow buffer together are what was written. *)
Theorem memory_stream_delivery chs buffer replicas senders ids st0 cap chs' s written i c :
  0 < buffer → NoDup senders → (∀ c, c ∈ senders → fresh_channel chs c) →
  stream_starts chs buffer replicas senders ids st0 →
  stream_reachable cap ids st0 (chs', s, written) →
  ids !! i = Some c →
  ∃ ch, chs' !! c = Some ch ∧ ch_received ch `prefix_of` written ∧
    length (ch_buffer ch) ≤ ch_capacity ch ∧
    (ch_open ch = true → ∃ ov, rs_overflow s !! i = Some ov ∧
       ch_received ch ++ ch_buffer ch ++ ov = written).
Proof.
  intros Hb Hnd Hfr Hst Hreach Hc.
  pose proof (stream_reachable_inv _ _ _ _ Hreach
                (stream_starts_inv _ _ _ _ _ _ Hb Hnd Hfr Hst)) as Hok. simpl in Hok.
  destruct (sender_ok_lookup _ _ _ _ _ _ Hok Hc) as (sd & ov & Hsd & Hov & ch & Hch & Hcap & _ & Hw).
  exists ch. destruct (ch_open ch).
  - split_and!; [done|rewrite <-Hw; by apply prefix_app_r|done|eauto].
  - split_and!; [done|done|done|done].
Qed.

(** [write] always returns, it reports [Closed] exactly when no receiver is
    left, and the batch is appended to every live replica. *)
Theorem memory_write_total chs buffer replicas senders ids st0 cap chs' s written batch :
  0 < buffer → NoDup senders → (∀ c, c ∈ senders → fresh_channel chs c) →
  stream_starts chs buffer replicas senders ids st0 →
  stream_reachable cap ids st0 (chs', s, written) →
  write_all chs' s batch ⇓ (λ '(chs2, s2, active),
    sink_state active = (if existsb (is_open chs') ids then SinkOk else SinkClosed) ∧
    (∀ c, is_open chs2 c = is_open chs' c) ∧
    ∀ i c ch, ids !! i = Some c → chs2 !! c = Some ch → ch_open ch = true →
      ∃ ov, rs_overflow s2 !! i = Some ov ∧
        ch_received ch ++ ch_buffer ch ++ ov = written ++ [batch]).
Proof.
  intros Hb Hnd Hfr Hst Hreach.
  pose proof (stream_reachable_inv _ _ _ _ Hreach
                (stream_starts_inv _ _ _ _ _ _ Hb Hnd Hfr Hst)) as Hok. simpl in Hok.
  eapply total_mono; [by apply total_write_all|].
  intros [[chs2 s2] active] (Hok2 & Hbuf & ->). split_and!; [done| |].
  - intros c. by eapply only_buffer_open.
  - intros i c ch Hc Hch Hop.
    destruct (sender_ok_lookup _ _ _ _ _ _ Hok2 Hc) as (sd & ov & Hsd & Hov & ch' & Hch' & _ & _ & Hw).
    simplify_eq. rewrite Hop in Hw. eauto.
Qed.

(** The loops of [write] and [close] that await a slow receiver: an iteration
    waits only on a full channel whose receiver is alive, otherwise it shortens
    the backlog by one or leaves; when the credit loop leaves, the backlog is
    within the credit, and when [close] leaves a replica whose receiver is
    alive, everything written has been handed to its channel. *)
Theorem memory_backlog_drains chs buffer replicas senders ids st0 cap chs' s written i c :
  0 < buffer → NoDup senders → (∀ c, c ∈ senders → fresh_channel chs c) →
  stream_starts chs buffer replicas senders ids st0 →
  stream_reachable cap ids st0 (chs', s, written) →
  ids !! i = Some c →
  credit_iteration cap chs' s i ⇓
    iteration_ok ids (λ _, written) chs' s i c (λ ov, length ov ≤ cap) ∧
  close_iteration chs' s i ⇓ (λ r,
    iteration_ok ids (λ _, written) chs' s i c (λ ov, ov = []) r ∧
    ∀ chs2 s2 ch, r = Leaves (chs2, s2) → chs2 !! c = Some ch → ch_open ch = true →
      ch_received ch ++ ch_buffer ch = written).
Proof.
  intros Hb Hnd Hfr Hst Hreach Hc.
  pose proof (stream_reachable_inv _ _ _ _ Hreach
                (stream_starts_inv _ _ _ _ _ _ Hb Hnd Hfr Hst)) as Hok. simpl in Hok.
  split; [by apply total_credit_iteration|].
  eapply total_mono; [by apply total_close_iteration|]. intros r Hr. split; [done|].
  intros chs2 s2 ch -> Hch Hop. destruct Hr as (Hok2 & ov & Hov & ->).
  destruct (sender_ok_lookup _ _ _ _ _ _ Hok2 Hc) as (sd & ov & Hsd & Hov' & ch' & Hch' & _ & _ & Hw).
  simplify_eq. rewrite Hop, app_nil_r in Hw. done.
Qed.
End system.
