(* ===== verification/Actor.v ===== *)
(** * The driver actor's messages and effects

    [crates/zelox-execution/src/driver/event.rs], the actor context of
    [crates/zelox-server/src/actor.rs], and the values the driver exchanges with
    the rest of the system.  A handler runs to completion on the actor's thread;
    what it asks the runtime to do later (messages to itself, spawned tasks,
    replies) is recorded in the context, in order. *)

From S2P Require Import Prelude Ids JobGraph JobState Streams.

(** ** Clocks

    Successive readings of [Instant::now()] and [Utc::now()] during a run. *)
Class Clock := {
  instant_at : nat → Z;
  utc_at : nat → Z
}.

(** [Instant] is monotonic. *)
Class ClockLaws (C : Clock) :=
  instant_mono : ∀ i j, i ≤ j → (instant_at i ≤ instant_at j)%Z.

(** ** Task status *)

Inductive TaskStatus := StatusRunning | StatusSucceeded | StatusFailed | StatusCanceled.

Record WorkerLocation := MkWorkerLocation {
  wl_worker_id : N; wl_host : string; wl_port : N
}.

(** [RetryStrategy] of [crates/zelox-server/src/retry.rs]. *)
Inductive RetryStrategy :=
| RetryFixed (max_count : nat) (delay : N)
| RetryExponentialBackoff (max_count : nat) (initial_delay max_delay factor : N).

Record WorkerLaunchOptions := MkWorkerLaunchOptions {
  lo_enable_tls : bool;
  lo_driver_external_host : string;
  lo_driver_external_port : N;
  lo_worker_heartbeat_interval : N;
  lo_task_stream_buffer : nat;
  lo_task_stream_creation_timeout : N;
  lo_shuffle_spill_dir : string;
  lo_rpc_retry_strategy : RetryStrategy
}.

Record WorkerSnapshot := MkWorkerSnapshot {
  ws_worker_id : N; ws_host : option string; ws_port : option N; ws_status : string;
  ws_created_at : Z; ws_stopped_at : option Z
}.

(** [JobRunnerHistory] of [crates/zelox-common-datafusion/src/session/job.rs]. *)
Record JobRunnerHistory := MkJobRunnerHistory {
  hi_jobs : list JobSnapshot;
  hi_stages : list StageSnapshot;
  hi_tasks : list TaskSnapshot;
  hi_workers : list WorkerSnapshot
}.

Inductive JobOutputItem :=
| OutputStream (key : TaskStreamKey) (stream : TaskStreamSource)
| OutputError (cause : CommonErrorCause).

(** ** Events and effects *)
Section events.
Context `{DF : DataFusion}.

(** A [oneshot::Sender] is identified by a number. *)
Inductive DriverEvent :=
| EvServerReady (port : N) (signal : N)
| EvRegisterWorker (worker_id : N) (host : string) (port : N) (result : N)
| EvWorkerHeartbeat (worker_id : N)
| EvWorkerKnownPeers (worker_id : N) (peer_worker_ids : list N)
| EvProbePendingWorker (worker_id : N)
| EvProbeIdleWorker (worker_id : N) (instant : Z)
| EvProbeLostWorker (worker_id : N) (instant : Z)
| EvExecuteJob (plan : Plan) (context : TaskContext) (result : N)
| EvCleanUpJob (job_id : N)
| EvUpdateTask (key : TaskKey) (status : TaskStatus) (message : option string)
    (cause : option CommonErrorCause) (sequence : option N)
| EvProbePendingTask (key : TaskKey)
| EvProbePendingLocalStream (key : TaskStreamKey)
| EvCreateLocalStream (key : TaskStreamKey) (storage : LocalStreamStorage) (schema : Schema)
    (result : N)
| EvCreateRemoteStream (uri : string) (key : TaskStreamKey) (schema : Schema) (result : N)
| EvFetchDriverStream (key : TaskStreamKey) (result : N)
| EvFetchWorkerStream (worker_id : N) (key : TaskStreamKey) (schema : Schema) (result : N)
| EvFetchRemoteStream (uri : string) (key : TaskStreamKey) (schema : Schema) (result : N)
| EvShutdown (history : option N).

(** The tasks the driver spawns. *)
Inductive Spawned :=
| SpLaunchWorker (worker_id : N) (options : WorkerLaunchOptions)
| SpStopWorker (worker_id : N)
| SpRunTask (worker_id : N) (key : TaskKey) (definition : TaskDefinition)
    (peers : list WorkerLocation)
| SpStopTask (worker_id : N) (key : TaskKey)
| SpCleanUpJob (worker_id : N) (job_id : N) (stage : option nat)
| SpTaskMonitor (key : TaskKey)
| SpJobOutput (job_id : N)
| SpSendOutput (handle : JobOutputManager) (item : JobOutputItem).

(** Values sent on the reply channels. *)
Inductive Reply :=
| ReplyUnit (r : ExecutionResult unit)
| ReplyJob (r : ExecutionResult N)
| ReplySource (r : ExecutionResult TaskStreamSource)
| ReplySink (r : ExecutionResult TaskStreamSink)
| ReplyHistory (h : JobRunnerHistory).

Inductive Effect :=
| EffSend (event : DriverEvent)
| EffSendWithDelay (event : DriverEvent) (delay : N)
| EffSpawn (task : Spawned)
| EffSignal (key : TaskKey)
| EffReply (channel : N) (reply : Reply).

(** The context: how often the clocks were read, and the effects so far. *)
Record ActorContext := MkActorContext {
  ctx_reads : nat;
  ctx_effects : list Effect
}.

Definition ctx_emit (ctx : ActorContext) (e : Effect) : ActorContext :=
  MkActorContext (ctx_reads ctx) (ctx_effects ctx ++ [e]).
Definition ctx_send (ctx : ActorContext) (event : DriverEvent) : ActorContext :=
  ctx_emit ctx (EffSend event).
Definition ctx_send_with_delay (ctx : ActorContext) (event : DriverEvent) (delay : N)
    : ActorContext :=
  ctx_emit ctx (EffSendWithDelay event delay).
Definition ctx_spawn (ctx : ActorContext) (task : Spawned) : ActorContext :=
  ctx_emit ctx (EffSpawn task).
Definition ctx_reply (ctx : ActorContext) (channel : N) (reply : Reply) : ActorContext :=
  ctx_emit ctx (EffReply channel reply).

Context `{CL : Clock}.

Definition instant_now (ctx : ActorContext) : Z * ActorContext :=
  (instant_at (ctx_reads ctx), MkActorContext (S (ctx_reads ctx)) (ctx_effects ctx)).
Definition utc_now (ctx : ActorContext) : Z * ActorContext :=
  (utc_at (ctx_reads ctx), MkActorContext (S (ctx_reads ctx)) (ctx_effects ctx)).
End events.

(** Whether an actor goes on after a message. *)
Inductive ActorAction := ActorContinue | ActorStop.

(** ** RPC clients and servers

    [crates/zelox-execution/src/rpc.rs]. *)

(** A [WorkerClientSet] or [DriverClientSet] is determined by its options. *)
Record ClientOptions := MkClientOptions {
  co_enable_tls : bool; co_host : string; co_port : N
}.

(** The join handle of the server task is not represented; [signal] is the
    shutdown channel. *)
Inductive ServerMonitor := ServerStopped | ServerPending | ServerRunning (signal : N).

Definition server_ready (s : ServerMonitor) (signal : N) : ExecutionResult ServerMonitor :=
  match s with
  | ServerPending => Ok (ServerRunning signal)
  | _ => Err (InternalError "the server must be in pending state before it can be ready")
  end.

(** [start] stops the server it replaces first. *)
Definition server_start (s : ServerMonitor) : ServerMonitor := ServerPending.
