(* ===== verification/TaskCodec.v ===== *)
(** * The wire format of task definitions

    The conversions between the definitions of
    [crates/zelox-execution/src/task/definition.rs] and the messages generated
    from [proto/zelox/task/task.proto], and the read and write locations of a
    definition.  A [usize] is a [nat] and a [u64] an [N]; the casts between them
    are written out, for a target whose pointers have [usize_bits] bits. *)

From S2P Require Import Prelude Ids JobGraph Streams.

(** ** Casts *)

Class Target := usize_bits : N.
Class TargetLaws (T : Target) := usize_bits_le : (usize_bits ≤ 64)%N.

Section casts.
Context `{T : Target}.

(** [x as u64] and [x as usize] keep the low bits. *)
Definition usize_as_u64 (n : nat) : N := (N.of_nat n mod 2 ^ 64)%N.
Definition u64_as_usize (n : N) : nat := N.to_nat (n mod 2 ^ usize_bits).

(** The values of the two types. *)
Definition is_usize (n : nat) : Prop := (N.of_nat n < 2 ^ usize_bits)%N.
Definition is_u64 (n : N) : Prop := (n < 2 ^ 64)%N.
#[global] Instance is_usize_dec n : Decision (is_usize n).
Proof. unfold is_usize. apply _. Defined.

Context `{TL : !TargetLaws T}.

Lemma usize_lt_u64 n : is_usize n → (N.of_nat n < 2 ^ 64)%N.
Proof.
  unfold is_usize. intros H. eapply N.lt_le_trans; [exact H|].
  apply N.pow_le_mono_r; [done|apply usize_bits_le].
Qed.

Lemma usize_cast_back n : is_usize n → u64_as_usize (usize_as_u64 n) = n.
Proof.
  intros H. unfold u64_as_usize, usize_as_u64.
  rewrite (N.mod_small _ (2 ^ 64)) by (by apply usize_lt_u64).
  rewrite N.mod_small by done. apply Nat2N.id.
Qed.

Lemma u64_cast_back n : usize_bits = 64%N → is_u64 n → usize_as_u64 (u64_as_usize n) = n.
Proof.
  unfold is_u64, u64_as_usize, usize_as_u64. intros -> H.
  by rewrite N2Nat.id, N.Div0.mod_mod, N.mod_small.
Qed.
End casts.

(** ** Conversions with their laws

    [impl From<A> for G] and [impl TryFrom<G> for A]: [fits] are the values of
    [A] whose integers are in range, [complete] the messages whose required
    parts are present, [in_range] the messages whose integers are in range. *)
Class WireCodec (A G : Type) := {
  to_gen : A → G;
  try_from : G → ExecutionResult A;
  fits : A → Prop;
  complete : G → Prop;
  in_range : G → Prop
}.
#[global] Hint Mode WireCodec - - : typeclass_instances.

Class WireCodecLaws `{T : Target} {A G : Type} (W : WireCodec A G) := {
  try_from_to_gen a : fits a → try_from (to_gen a) = Ok a;
  to_gen_complete a : complete (to_gen a);
  to_gen_try_from a g : usize_bits = 64%N → in_range g → try_from g = Ok a → to_gen a = g;
  try_from_ok g : is_ok (try_from g) = true ↔ complete g
}.

(** ** The generated messages *)

Module gen.
Record TaskInputDriverKey := MkTaskInputDriverKey {
  dk_partition : N; dk_attempt : N; dk_channel : N
}.
Record TaskInputDriverKeyList := MkTaskInputDriverKeyList { dkl_keys : list TaskInputDriverKey }.
Record TaskInputDriverLocator := MkTaskInputDriverLocator {
  dl_stage : N; dl_keys : list TaskInputDriverKeyList
}.
Record TaskInputWorkerKey := MkTaskInputWorkerKey {
  wk_worker_id : N; wk_partition : N; wk_attempt : N; wk_channel : N
}.
Record TaskInputWorkerKeyList := MkTaskInputWorkerKeyList { wkl_keys : list TaskInputWorkerKey }.
Record TaskInputWorkerLocator := MkTaskInputWorkerLocator {
  wlo_stage : N; wlo_keys : list TaskInputWorkerKeyList
}.
Record TaskInputRemoteKey := MkTaskInputRemoteKey {
  rk_partition : N; rk_attempt : N; rk_channel : N
}.
Record TaskInputRemoteKeyList := MkTaskInputRemoteKeyList { rkl_keys : list TaskInputRemoteKey }.
Record TaskInputRemoteLocator := MkTaskInputRemoteLocator {
  rl_uri : string; rl_stage : N; rl_keys : list TaskInputRemoteKeyList
}.
Inductive task_input_locator_Kind :=
| KindDriver (x : TaskInputDriverLocator)
| KindWorker (x : TaskInputWorkerLocator)
| KindRemote (x : TaskInputRemoteLocator).
Record TaskInputLocator := MkTaskInputLocator { il_kind : option task_input_locator_Kind }.
Record TaskInput := MkTaskInput { in_locator : option TaskInputLocator }.

Record TaskOutputHashDistribution := MkTaskOutputHashDistribution {
  hd_keys : list (list Byte.byte); hd_channels : N
}.
Record TaskOutputRoundRobinDistribution := MkTaskOutputRoundRobinDistribution {
  rr_channels : N
}.
Inductive task_output_distribution_Kind :=
| KindHash (x : TaskOutputHashDistribution)
| KindRoundRobin (x : TaskOutputRoundRobinDistribution).
Record TaskOutputDistribution := MkTaskOutputDistribution {
  od_kind : option task_output_distribution_Kind
}.
Record TaskOutputLocalLocator := MkTaskOutputLocalLocator { ll_replicas : N }.
Record TaskOutputRemoteLocator := MkTaskOutputRemoteLocator { orl_uri : string }.
Inductive task_output_locator_Kind :=
| KindLocal (x : TaskOutputLocalLocator)
| KindOutRemote (x : TaskOutputRemoteLocator).
Record TaskOutputLocator := MkTaskOutputLocator { ol_kind : option task_output_locator_Kind }.
Record TaskOutput := MkTaskOutput {
  out_distribution : option TaskOutputDistribution;
  out_locator : option TaskOutputLocator
}.
Record TaskDefinition := MkTaskDefinition {
  def_plan : list Byte.byte;
  def_inputs : list TaskInput;
  def_output : option TaskOutput
}.
End gen.

(** The error of a missing part. *)
Definition cannot_decode (what : string) : ExecutionError :=
  InvalidArgument ("cannot decode empty " +:+ what).

(** ** The conversions *)

Section conversions.
Context `{T : Target}.

Definition key_fits (k : TaskInputKey) : Prop :=
  is_usize (tik_partition k) ∧ is_usize (tik_attempt k) ∧ is_usize (tik_channel k).

Definition driver_key_to_gen (k : TaskInputKey) : gen.TaskInputDriverKey :=
  gen.MkTaskInputDriverKey (usize_as_u64 (tik_partition k)) (usize_as_u64 (tik_attempt k))
    (usize_as_u64 (tik_channel k)).
Definition driver_key_try_from (g : gen.TaskInputDriverKey) : ExecutionResult TaskInputKey :=
  Ok (MkTaskInputKey (u64_as_usize (gen.dk_partition g)) (u64_as_usize (gen.dk_attempt g))
        (u64_as_usize (gen.dk_channel g))).
#[global] Instance driver_key_codec : WireCodec TaskInputKey gen.TaskInputDriverKey := {|
  to_gen := driver_key_to_gen;
  try_from := driver_key_try_from;
  fits := key_fits;
  complete := λ _, True;
  in_range := λ g, is_u64 (gen.dk_partition g) ∧ is_u64 (gen.dk_attempt g) ∧
                   is_u64 (gen.dk_channel g)
|}.

Definition worker_key_to_gen (x : N * TaskInputKey) : gen.TaskInputWorkerKey :=
  let '(worker_id, k) := x in
  gen.MkTaskInputWorkerKey worker_id (usize_as_u64 (tik_partition k))
    (usize_as_u64 (tik_attempt k)) (usize_as_u64 (tik_channel k)).
Definition worker_key_try_from (g : gen.TaskInputWorkerKey)
    : ExecutionResult (N * TaskInputKey) :=
  Ok (gen.wk_worker_id g,
      MkTaskInputKey (u64_as_usize (gen.wk_partition g)) (u64_as_usize (gen.wk_attempt g))
        (u64_as_usize (gen.wk_channel g))).
#[global] Instance worker_key_codec : WireCodec (N * TaskInputKey) gen.TaskInputWorkerKey := {|
  to_gen := worker_key_to_gen;
  try_from := worker_key_try_from;
  fits := λ x, key_fits x.2;
  complete := λ _, True;
  in_range := λ g, is_u64 (gen.wk_partition g) ∧ is_u64 (gen.wk_attempt g) ∧
                   is_u64 (gen.wk_channel g)
|}.

Definition remote_key_to_gen (k : TaskInputKey) : gen.TaskInputRemoteKey :=
  gen.MkTaskInputRemoteKey (usize_as_u64 (tik_partition k)) (usize_as_u64 (tik_attempt k))
    (usize_as_u64 (tik_channel k)).
Definition remote_key_try_from (g : gen.TaskInputRemoteKey) : ExecutionResult TaskInputKey :=
  Ok (MkTaskInputKey (u64_as_usize (gen.rk_partition g)) (u64_as_usize (gen.rk_attempt g))
        (u64_as_usize (gen.rk_channel g))).
#[global] Instance remote_key_codec : WireCodec TaskInputKey gen.TaskInputRemoteKey := {|
  to_gen := remote_key_to_gen;
  try_from := remote_key_try_from;
  fits := key_fits;
  complete := λ _, True;
  in_range := λ g, is_u64 (gen.rk_partition g) ∧ is_u64 (gen.rk_attempt g) ∧
                   is_u64 (gen.rk_channel g)
|}.

(** [into_iter().map(|x| x.into()).collect()] and
    [into_iter().map(|x| x.try_into()).collect::<ExecutionResult<Vec<_>>>()]. *)
#[global] Instance list_codec `{W : WireCodec A G} : WireCodec (list A) (list G) := {|
  to_gen := λ l, to_gen <$> l;
  try_from := λ l, collect_results (try_from <$> l);
  fits := Forall fits;
  complete := Forall complete;
  in_range := Forall in_range
|}.

Definition driver_key_list_to_gen (l : list TaskInputKey) : gen.TaskInputDriverKeyList :=
  gen.MkTaskInputDriverKeyList (to_gen l).
Definition driver_key_list_try_from (g : gen.TaskInputDriverKeyList)
    : ExecutionResult (list TaskInputKey) := try_from (gen.dkl_keys g).
#[global] Instance driver_key_list_codec
    : WireCodec (list TaskInputKey) gen.TaskInputDriverKeyList := {|
  to_gen := driver_key_list_to_gen;
  try_from := driver_key_list_try_from;
  fits := Forall key_fits;
  complete := λ g, complete (A:=list TaskInputKey) (gen.dkl_keys g);
  in_range := λ g, in_range (A:=list TaskInputKey) (gen.dkl_keys g)
|}.

Definition worker_key_list_to_gen (l : list (N * TaskInputKey)) : gen.TaskInputWorkerKeyList :=
  gen.MkTaskInputWorkerKeyList (to_gen l).
Definition worker_key_list_try_from (g : gen.TaskInputWorkerKeyList)
    : ExecutionResult (list (N * TaskInputKey)) := try_from (gen.wkl_keys g).
#[global] Instance worker_key_list_codec
    : WireCodec (list (N * TaskInputKey)) gen.TaskInputWorkerKeyList := {|
  to_gen := worker_key_list_to_gen;
  try_from := worker_key_list_try_from;
  fits := Forall (λ x, key_fits x.2);
  complete := λ g, complete (A:=list (N * TaskInputKey)) (gen.wkl_keys g);
  in_range := λ g, in_range (A:=list (N * TaskInputKey)) (gen.wkl_keys g)
|}.

Definition remote_key_list_to_gen (l : list TaskInputKey) : gen.TaskInputRemoteKeyList :=
  gen.MkTaskInputRemoteKeyList (to_gen l).
Definition remote_key_list_try_from (g : gen.TaskInputRemoteKeyList)
    : ExecutionResult (list TaskInputKey) := try_from (gen.rkl_keys g).
#[global] Instance remote_key_list_codec
    : WireCodec (list TaskInputKey) gen.TaskInputRemoteKeyList := {|
  to_gen := remote_key_list_to_gen;
  try_from := remote_key_list_try_from;
  fits := Forall key_fits;
  complete := λ g, complete (A:=list TaskInputKey) (gen.rkl_keys g);
  in_range := λ g, in_range (A:=list TaskInputKey) (gen.rkl_keys g)
|}.

Definition input_locator_to_gen (l : TaskInputLocator) : gen.TaskInputLocator :=
  gen.MkTaskInputLocator (Some
    match l with
    | LocDriver stage keys =>
        gen.KindDriver (gen.MkTaskInputDriverLocator (usize_as_u64 stage) (to_gen keys))
    | LocWorker stage keys =>
        gen.KindWorker (gen.MkTaskInputWorkerLocator (usize_as_u64 stage) (to_gen keys))
    | LocRemote uri stage keys =>
        gen.KindRemote (gen.MkTaskInputRemoteLocator uri (usize_as_u64 stage) (to_gen keys))
    end).
Definition input_locator_try_from (g : gen.TaskInputLocator)
    : ExecutionResult TaskInputLocator :=
  match gen.il_kind g with
  | Some (gen.KindDriver (gen.MkTaskInputDriverLocator stage keys)) =>
      keys ← try_from keys; Ok (LocDriver (u64_as_usize stage) keys)
  | Some (gen.KindWorker (gen.MkTaskInputWorkerLocator stage keys)) =>
      keys ← try_from keys; Ok (LocWorker (u64_as_usize stage) keys)
  | Some (gen.KindRemote (gen.MkTaskInputRemoteLocator uri stage keys)) =>
      keys ← try_from keys; Ok (LocRemote uri (u64_as_usize stage) keys)
  | None => Err (cannot_decode "task input locator")
  end.
#[global] Instance input_locator_codec : WireCodec TaskInputLocator gen.TaskInputLocator := {|
  to_gen := input_locator_to_gen;
  try_from := input_locator_try_from;
  fits := λ l, match l with
               | LocDriver stage keys | LocRemote _ stage keys =>
                   is_usize stage ∧ Forall (Forall key_fits) keys
               | LocWorker stage keys => is_usize stage ∧ Forall (Forall (λ x, key_fits x.2)) keys
               end;
  complete := λ g, is_Some (gen.il_kind g);
  in_range := λ g, match gen.il_kind g with
    | Some (gen.KindDriver (gen.MkTaskInputDriverLocator stage keys)) =>
        is_u64 stage ∧ in_range (A:=list (list TaskInputKey)) keys
    | Some (gen.KindWorker (gen.MkTaskInputWorkerLocator stage keys)) =>
        is_u64 stage ∧ in_range (A:=list (list (N * TaskInputKey))) keys
    | Some (gen.KindRemote (gen.MkTaskInputRemoteLocator _ stage keys)) =>
        is_u64 stage ∧ in_range (A:=list (list TaskInputKey)) keys
    | None => True
    end
|}.

Definition input_to_gen (x : TaskInput) : gen.TaskInput :=
  gen.MkTaskInput (Some (to_gen (ti_locator x))).
Definition input_try_from (g : gen.TaskInput) : ExecutionResult TaskInput :=
  match gen.in_locator g with
  | Some x => locator ← try_from x; Ok (MkTaskInput locator)
  | None => Err (cannot_decode "task input locator")
  end.
#[global] Instance input_codec : WireCodec TaskInput gen.TaskInput := {|
  to_gen := input_to_gen;
  try_from := input_try_from;
  fits := λ x, fits (G:=gen.TaskInputLocator) (ti_locator x);
  complete := λ g, match gen.in_locator g with
                   | Some x => complete (A:=TaskInputLocator) x
                   | None => False
                   end;
  in_range := λ g, match gen.in_locator g with
                   | Some x => in_range (A:=TaskInputLocator) x
                   | None => True
                   end
|}.

Definition output_distribution_to_gen (d : TaskOutputDistribution)
    : gen.TaskOutputDistribution :=
  gen.MkTaskOutputDistribution (Some
    match d with
    | OutHash keys channels =>
        gen.KindHash (gen.MkTaskOutputHashDistribution keys (usize_as_u64 channels))
    | OutRoundRobin channels =>
        gen.KindRoundRobin (gen.MkTaskOutputRoundRobinDistribution (usize_as_u64 channels))
    end).
Definition output_distribution_try_from (g : gen.TaskOutputDistribution)
    : ExecutionResult TaskOutputDistribution :=
  match gen.od_kind g with
  | Some (gen.KindHash (gen.MkTaskOutputHashDistribution keys channels)) =>
      Ok (OutHash keys (u64_as_usize channels))
  | Some (gen.KindRoundRobin (gen.MkTaskOutputRoundRobinDistribution channels)) =>
      Ok (OutRoundRobin (u64_as_usize channels))
  | None => Err (cannot_decode "task output distribution")
  end.
#[global] Instance output_distribution_codec
    : WireCodec TaskOutputDistribution gen.TaskOutputDistribution := {|
  to_gen := output_distribution_to_gen;
  try_from := output_distribution_try_from;
  fits := λ d, match d with OutHash _ channels | OutRoundRobin channels => is_usize channels end;
  complete := λ g, is_Some (gen.od_kind g);
  in_range := λ g, match gen.od_kind g with
    | Some (gen.KindHash x) => is_u64 (gen.hd_channels x)
    | Some (gen.KindRoundRobin x) => is_u64 (gen.rr_channels x)
    | None => True
    end
|}.

Definition output_locator_to_gen (l : TaskOutputLocator) : gen.TaskOutputLocator :=
  gen.MkTaskOutputLocator (Some
    match l with
    | OutLocal replicas => gen.KindLocal (gen.MkTaskOutputLocalLocator (usize_as_u64 replicas))
    | OutRemote uri => gen.KindOutRemote (gen.MkTaskOutputRemoteLocator uri)
    end).
Definition output_locator_try_from (g : gen.TaskOutputLocator)
    : ExecutionResult TaskOutputLocator :=
  match gen.ol_kind g with
  | Some (gen.KindLocal (gen.MkTaskOutputLocalLocator replicas)) =>
      Ok (OutLocal (u64_as_usize replicas))
  | Some (gen.KindOutRemote (gen.MkTaskOutputRemoteLocator uri)) => Ok (OutRemote uri)
  | None => Err (cannot_decode "task output locator")
  end.
#[global] Instance output_locator_codec : WireCodec TaskOutputLocator gen.TaskOutputLocator := {|
  to_gen := output_locator_to_gen;
  try_from := output_locator_try_from;
  fits := λ l, match l with OutLocal replicas => is_usize replicas | OutRemote _ => True end;
  complete := λ g, is_Some (gen.ol_kind g);
  in_range := λ g, match gen.ol_kind g with
    | Some (gen.KindLocal x) => is_u64 (gen.ll_replicas x)
    | _ => True
    end
|}.

Definition output_to_gen (x : TaskOutput) : gen.TaskOutput :=
  gen.MkTaskOutput (Some (to_gen (to_distribution x))) (Some (to_gen (to_locator x))).
Definition output_try_from (g : gen.TaskOutput) : ExecutionResult TaskOutput :=
  distribution ←
    match gen.out_distribution g with
    | Some x => try_from x
    | None => Err (cannot_decode "task output distribution")
    end;
  locator ←
    match gen.out_locator g with
    | Some x => try_from x
    | None => Err (cannot_decode "task output locator")
    end;
  Ok (MkTaskOutput distribution locator).
#[global] Instance output_codec : WireCodec TaskOutput gen.TaskOutput := {|
  to_gen := output_to_gen;
  try_from := output_try_from;
  fits := λ x, fits (G:=gen.TaskOutputDistribution) (to_distribution x) ∧
               fits (G:=gen.TaskOutputLocator) (to_locator x);
  complete := λ g, match gen.out_distribution g, gen.out_locator g with
    | Some d, Some l => complete (A:=TaskOutputDistribution) d ∧ complete (A:=TaskOutputLocator) l
    | _, _ => False
    end;
  in_range := λ g, match gen.out_distribution g, gen.out_locator g with
    | Some d, Some l => in_range (A:=TaskOutputDistribution) d ∧ in_range (A:=TaskOutputLocator) l
    | _, _ => True
    end
|}.

Definition definition_to_gen (d : TaskDefinition) : gen.TaskDefinition :=
  gen.MkTaskDefinition (td_plan d) (to_gen (td_inputs d)) (Some (to_gen (td_output d))).
Definition definition_try_from (g : gen.TaskDefinition) : ExecutionResult TaskDefinition :=
  inputs ← try_from (gen.def_inputs g);
  output ←
    match gen.def_output g with
    | Some x => try_from x
    | None => Err (cannot_decode "task output")
    end;
  Ok (MkTaskDefinition (gen.def_plan g) inputs output).
#[global] Instance definition_codec : WireCodec TaskDefinition gen.TaskDefinition := {|
  to_gen := definition_to_gen;
  try_from := definition_try_from;
  fits := λ d, fits (G:=list gen.TaskInput) (td_inputs d) ∧
               fits (G:=gen.TaskOutput) (td_output d);
  complete := λ g, complete (A:=list TaskInput) (gen.def_inputs g) ∧
    match gen.def_output g with Some x => complete (A:=TaskOutput) x | None => False end;
  in_range := λ g, in_range (A:=list TaskInput) (gen.def_inputs g) ∧
    match gen.def_output g with Some x => in_range (A:=TaskOutput) x | None => True end
|}.
End conversions.

(** ** The laws *)

Section laws.
Context `{T : Target} `{TL : !TargetLaws T}.

#[global] Instance driver_key_laws : WireCodecLaws driver_key_codec.
Proof.
  split; [|done| |by intros g].
  - intros [p a c] (? & ? & ?). simpl. unfold driver_key_try_from. simpl in *.
    by rewrite !usize_cast_back.
  - intros a [p t c] HT (? & ? & ?) [= <-]. simpl in *. unfold driver_key_to_gen. simpl.
    by rewrite !u64_cast_back.
Qed.

#[global] Instance worker_key_laws : WireCodecLaws worker_key_codec.
Proof.
  split; [|done| |by intros g].
  - intros [w [p a c]] (? & ? & ?). simpl. unfold worker_key_try_from. simpl in *.
    by rewrite !usize_cast_back.
  - intros a [w p t c] HT (? & ? & ?) [= <-]. simpl in *. by rewrite !u64_cast_back.
Qed.

#[global] Instance remote_key_laws : WireCodecLaws remote_key_codec.
Proof.
  split; [|done| |by intros g].
  - intros [p a c] (? & ? & ?). simpl. unfold remote_key_try_from. simpl in *.
    by rewrite !usize_cast_back.
  - intros a [p t c] HT (? & ? & ?) [= <-]. simpl in *. unfold remote_key_to_gen. simpl.
    by rewrite !u64_cast_back.
Qed.

Lemma bind_ok {A B} (r : ExecutionResult A) (f : A → ExecutionResult B) b :
  r ≫= f = Ok b ↔ ∃ a, r = Ok a ∧ f a = Ok b.
Proof. destruct r as [a|e]; simpl; split; [eauto|by intros (? & [= ->] & ?)|done|by intros (? & ? & ?)]. Qed.

#[global] Instance list_laws `{W : WireCodec A G} `{WL : !WireCodecLaws W} :
  WireCodecLaws (list_codec (W:=W)).
Proof.
  split; simpl.
  - intros l Hl. rewrite <-list_fmap_compose.
    rewrite (collect_results_fmap _ id), list_fmap_id; [done|].
    intros x Hx. simpl. apply try_from_to_gen. by eapply Forall_forall in Hl.
  - intros l. apply Forall_fmap, Forall_true. intros x. simpl. apply to_gen_complete.
  - intros l gs HT Hr Hl%collect_results_Ok. revert l Hr Hl.
    induction gs as [|g gs IH]; intros [|a l] Hr Hl; try discriminate; [done|].
    apply Forall_cons in Hr as [Hg Hr]. injection Hl as Ha Hl. simpl. f_equal; [|by apply IH].
    by apply to_gen_try_from.
  - intros gs. induction gs as [|g gs IH]; [by split|]. simpl.
    rewrite Forall_cons, <-IH, <-try_from_ok.
    destruct (try_from g); simpl; [|by split; [|intros []]].
    destruct (collect_results _); simpl; by split; [|intros []].
Qed.

(** A message with one field is as its field. *)
Lemma newtype_laws {A G G'} (W : WireCodec A G) `{WL : !WireCodecLaws W} (mk : G → G')
    (un : G' → G) :
  (∀ g, un (mk g) = g) → (∀ g, mk (un g) = g) →
  WireCodecLaws {| to_gen := λ a, mk (to_gen a); try_from := λ g, try_from (un g);
    fits := fits; complete := λ g, complete (un g); in_range := λ g, in_range (un g) |}.
Proof.
  intros Hum Hmu. split; simpl.
  - intros a Ha. rewrite Hum. by apply try_from_to_gen.
  - intros a. rewrite Hum. apply to_gen_complete.
  - intros a g HT Hr Ha. rewrite <-(Hmu g). f_equal. by apply to_gen_try_from.
  - intros g. apply try_from_ok.
Qed.

#[global] Instance driver_key_list_laws : WireCodecLaws driver_key_list_codec.
Proof.
  refine (newtype_laws (list_codec (W:=driver_key_codec)) gen.MkTaskInputDriverKeyList gen.dkl_keys _ _);
    [done|by intros []].
Qed.
#[global] Instance worker_key_list_laws : WireCodecLaws worker_key_list_codec.
Proof.
  refine (newtype_laws (list_codec (W:=worker_key_codec)) gen.MkTaskInputWorkerKeyList gen.wkl_keys _ _);
    [done|by intros []].
Qed.
#[global] Instance remote_key_list_laws : WireCodecLaws remote_key_list_codec.
Proof.
  refine (newtype_laws (list_codec (W:=remote_key_codec)) gen.MkTaskInputRemoteKeyList gen.rkl_keys _ _);
    [done|by intros []].
Qed.

(** Every key list decodes: only the outer messages have required parts. *)
Lemma key_lists_ok `{W : WireCodec A G} `{WL : !WireCodecLaws W} (keys : list G) :
  (∀ g, complete g) → is_ok (try_from keys) = true.
Proof. intros Hc. apply try_from_ok. by apply Forall_true. Qed.

Lemma is_ok_bind {A B} (r : ExecutionResult A) (f : A → ExecutionResult B) :
  (∀ a, is_ok (f a) = true) → is_ok (r ≫= f) = is_ok r.
Proof. intros Hf. destruct r; [apply Hf|done]. Qed.

#[global] Instance input_locator_laws : WireCodecLaws input_locator_codec.
Proof.
  split.
  - intros [stage keys|stage keys|uri stage keys] [Hs Hk].
    + change ((l ← try_from (G:=list gen.TaskInputDriverKeyList) (to_gen keys);
        Ok (LocDriver (u64_as_usize (usize_as_u64 stage)) l)) = Ok (LocDriver stage keys)).
      by rewrite usize_cast_back, try_from_to_gen.
    + change ((l ← try_from (G:=list gen.TaskInputWorkerKeyList) (to_gen keys);
        Ok (LocWorker (u64_as_usize (usize_as_u64 stage)) l)) = Ok (LocWorker stage keys)).
      by rewrite usize_cast_back, try_from_to_gen.
    + change ((l ← try_from (G:=list gen.TaskInputRemoteKeyList) (to_gen keys);
        Ok (LocRemote uri (u64_as_usize (usize_as_u64 stage)) l)) = Ok (LocRemote uri stage keys)).
      by rewrite usize_cast_back, try_from_to_gen.
  - intros l. by eexists.
  - intros a [[[[stage keys]|[stage keys]|[uri stage keys]]|]] HT Hr Ha; [..|done];
      destruct Hr as [Hs Hr]; apply bind_ok in Ha as (l & Hl & [= <-]); simpl;
      unfold input_locator_to_gen; do 3 f_equal; rewrite u64_cast_back by done;
      f_equal; by apply to_gen_try_from.
  - intros [[[[stage keys]|[stage keys]|[uri stage keys]]|]]; simpl; unfold input_locator_try_from;
      simpl; [..|split; [done|by intros [? ?]]];
      rewrite is_ok_bind by done; (split; [by eexists|intros _]);
      first [apply (key_lists_ok (W:=driver_key_list_codec))
            |apply (key_lists_ok (W:=worker_key_list_codec))
            |apply (key_lists_ok (W:=remote_key_list_codec))];
      intros [g]; by apply Forall_true.
Qed.

#[global] Instance input_laws : WireCodecLaws input_codec.
Proof.
  split.
  - intros [l] Hl. change ((l' ← try_from (G:=gen.TaskInputLocator) (to_gen l);
      Ok (MkTaskInput l')) = Ok (MkTaskInput l)).
    by rewrite try_from_to_gen.
  - intros [l]. simpl. by eexists.
  - intros a [[l|]] HT Hr Ha; [|done]. apply bind_ok in Ha as (x & Hx & [= <-]). simpl.
    unfold input_to_gen. do 2 f_equal. by apply to_gen_try_from.
  - intros [[l|]]; simpl; unfold input_try_from; simpl; [|by split].
    rewrite is_ok_bind by done. exact (try_from_ok (W:=input_locator_codec) l).
Qed.

#[global] Instance output_distribution_laws : WireCodecLaws output_distribution_codec.
Proof.
  split.
  - intros [keys n|n] Hn; simpl; unfold output_distribution_try_from; simpl in *;
      by rewrite usize_cast_back.
  - intros d. by eexists.
  - intros a [[[[keys n]|[n]]|]] HT Hr Ha; [..|done]; injection Ha as <-; simpl in *;
      unfold output_distribution_to_gen; by rewrite u64_cast_back.
  - intros [[[[keys n]|[n]]|]]; simpl; split; try done; by intros [].
Qed.

#[global] Instance output_locator_laws : WireCodecLaws output_locator_codec.
Proof.
  split.
  - intros [n|uri] Hn; simpl; unfold output_locator_try_from; simpl in *;
      by rewrite ?usize_cast_back.
  - intros d. by eexists.
  - intros a [[[[n]|[uri]]|]] HT Hr Ha; [..|done]; injection Ha as <-; simpl in *;
      unfold output_locator_to_gen; by rewrite ?u64_cast_back.
  - intros [[[[n]|[uri]]|]]; simpl; split; try done; by intros [].
Qed.

#[global] Instance output_laws : WireCodecLaws output_codec.
Proof.
  split.
  - intros [d l] [Hd Hl]. change ((d' ← try_from (G:=gen.TaskOutputDistribution) (to_gen d);
      l' ← try_from (G:=gen.TaskOutputLocator) (to_gen l);
      Ok (MkTaskOutput d' l')) = Ok (MkTaskOutput d l)).
    by rewrite (try_from_to_gen d), (try_from_to_gen l).
  - intros [d l]. split; by eexists.
  - intros a [[d|] [l|]] HT Hr Ha; try done.
    + destruct Hr as [Hd Hl]. apply bind_ok in Ha as (d' & Hd' & Ha).
      apply bind_ok in Ha as (l' & Hl' & [= <-]). simpl. unfold output_to_gen.
      do 2 f_equal; by apply to_gen_try_from.
    + by apply bind_ok in Ha as (d' & Hd' & Ha).
  - intros [[d|] [l|]]; simpl; unfold output_try_from; simpl; try by split.
    + pose proof (try_from_ok (W:=output_distribution_codec) d) as Hd.
      pose proof (try_from_ok (W:=output_locator_codec) l) as Hl. simpl in Hd, Hl.
      rewrite <-Hd, <-Hl. destruct (output_distribution_try_from d); simpl; [|by split; [|intros []]].
      destruct (output_locator_try_from l); simpl; by split; [|intros []].
    + by destruct (output_distribution_try_from d).
Qed.

#[global] Instance definition_laws : WireCodecLaws definition_codec.
Proof.
  split.
  - intros [plan i o] [Hi Ho]. change ((i' ← try_from (G:=list gen.TaskInput) (to_gen i);
      o' ← try_from (G:=gen.TaskOutput) (to_gen o);
      Ok (MkTaskDefinition plan i' o')) = Ok (MkTaskDefinition plan i o)).
    by rewrite (try_from_to_gen i), (try_from_to_gen o).
  - intros [plan i o]. split; [apply (to_gen_complete (A:=list TaskInput))|].
    apply (to_gen_complete (A:=TaskOutput)).
  - intros a [plan i [o|]] HT [Hi Ho] Ha; apply bind_ok in Ha as (i' & Hi' & Ha); [|done].
    apply bind_ok in Ha as (o' & Ho' & [= <-]).
    change (gen.MkTaskDefinition plan (to_gen i') (Some (to_gen o')) =
            gen.MkTaskDefinition plan i (Some o)).
    f_equal; [|f_equal]; by apply to_gen_try_from.
  - intros [plan i o]. simpl. unfold definition_try_from. simpl.
    pose proof (try_from_ok (W:=list_codec (W:=input_codec)) i) as Hi. simpl in Hi. rewrite <-Hi.
    destruct (collect_results _); simpl; [|by split; [|intros []]].
    destruct o as [o|]; simpl; [|by split; [|intros []]].
    rewrite is_ok_bind by done. pose proof (try_from_ok (W:=output_codec) o) as Ho. simpl in Ho.
    rewrite Ho. tauto.
Qed.
(** C35. A task definition survives the wire: whatever the width of [usize] (at
    most 64 bits), decoding the encoded message gives back the definition, every
    encoded message is complete, a message decodes exactly when its required
    parts are present, and on a 64-bit target decoding loses nothing: a decoded
    message encodes to itself. *)
Theorem task_definition_roundtrip (d : TaskDefinition) (g : gen.TaskDefinition) :
  fits (G:=gen.TaskDefinition) d →
  definition_try_from (definition_to_gen d) = Ok d ∧
  complete (A:=TaskDefinition) (definition_to_gen d) ∧
  (is_ok (definition_try_from g) = true ↔ complete (A:=TaskDefinition) g) ∧
  (usize_bits = 64%N → in_range (A:=TaskDefinition) g →
     ∀ d', definition_try_from g = Ok d' → definition_to_gen d' = g).
Proof.
  intros Hd. split_and!.
  - by apply (try_from_to_gen (W:=definition_codec)).
  - apply (to_gen_complete (W:=definition_codec)).
  - apply (try_from_ok (W:=definition_codec)).
  - intros HT Hr d'. by apply (to_gen_try_from (W:=definition_codec)).
Qed.
End laws.

(** ** Read and write locations *)

(** [TaskReadLocation] of [stream/reader.rs] and [TaskWriteLocation] of
    [stream/writer.rs]. *)
Inductive TaskReadLocation :=
| ReadDriver (key : TaskStreamKey)
| ReadWorker (worker_id : N) (key : TaskStreamKey)
| ReadRemote (uri : string) (key : TaskStreamKey).

Inductive TaskWriteLocation :=
| WriteLocal (storage : LocalStreamStorage) (key : TaskStreamKey)
| WriteRemote (uri : string) (key : TaskStreamKey).

Definition input_stream_key (job_id : N) (stage : nat) (k : TaskInputKey) : TaskStreamKey :=
  MkTaskStreamKey job_id stage (tik_partition k) (tik_attempt k) (tik_channel k).

(** [TaskInput::locations]. *)
Definition input_locations (x : TaskInput) (job_id : N) : list (list TaskReadLocation) :=
  match ti_locator x with
  | LocDriver stage keys =>
      (λ keys : list TaskInputKey,
         (λ k, ReadDriver (input_stream_key job_id stage k)) <$> keys) <$> keys
  | LocWorker stage keys =>
      (λ keys : list (N * TaskInputKey),
         (λ '(worker_id, k), ReadWorker worker_id (input_stream_key job_id stage k)) <$> keys)
        <$> keys
  | LocRemote uri stage keys =>
      (λ keys : list TaskInputKey,
         (λ k, ReadRemote uri (input_stream_key job_id stage k)) <$> keys) <$> keys
  end.

(** [TaskOutput::channels]. *)
Definition output_channels (x : TaskOutput) : nat :=
  match to_distribution x with
  | OutHash _ channels => channels
  | OutRoundRobin channels => channels
  end.

Definition output_stream_key (key : TaskKey) (channel : nat) : TaskStreamKey :=
  MkTaskStreamKey (tk_job_id key) (tk_stage key) (tk_partition key) (tk_attempt key) channel.

(** [TaskOutput::locations]. *)
Definition output_locations (x : TaskOutput) (key : TaskKey) : list TaskWriteLocation :=
  match to_locator x with
  | OutLocal replicas =>
      (λ channel, WriteLocal (StorageMemory replicas) (output_stream_key key channel))
        <$> seq 0 (output_channels x)
  | OutRemote uri =>
      (λ channel, WriteRemote uri (output_stream_key key channel))
        <$> seq 0 (output_channels x)
  end.

Section partitioning.
Context `{DF : DataFusion}.

(** [parse_physical_expr(&PhysicalExprNode::decode(k)?, ..)], in a context, for
    a schema. *)
Context (parse_expr : TaskContext → Schema → list Byte.byte → ExecutionResult PhysicalExpr).

Inductive Partitioning :=
| PartHash (keys : list PhysicalExpr) (channels : nat)
| PartRoundRobinBatch (channels : nat).

(** [TaskOutput::partitioning]. *)
Definition output_partitioning (x : TaskOutput) (ctx : TaskContext) (schema : Schema)
    : ExecutionResult Partitioning :=
  match to_distribution x with
  | OutHash keys channels =>
      keys ← collect_results (parse_expr ctx schema <$> keys); Ok (PartHash keys channels)
  | OutRoundRobin channels => Ok (PartRoundRobinBatch channels)
  end.
End partitioning.
