(* ===== verification/Wiring.v ===== *)
(** * Wiring of stages

    The streams a task reads, as its definition names them, against the streams
    the tasks of its input stage write. *)

From S2P Require Import Prelude Ids JobGraph JobState JobScheduler SchedulerTheorems Streams TaskCodec.

(** The stream a write location opens. *)
Definition write_location_key (w : TaskWriteLocation) : TaskStreamKey :=
  match w with WriteLocal _ key | WriteRemote _ key => key end.

Section wiring.
Context `{DF : DataFusion}.

(** Locations of an input that comes from workers. *)
Lemma worker_locations stage rows job_id :
  mjoin (input_locations (MkTaskInput (LocWorker stage rows)) job_id) =
  (λ '(w, k), ReadWorker w (input_stream_key job_id stage k)) <$> mjoin rows.
Proof.
  unfold input_locations. simpl. induction rows as [|r rows IH]; [done|]. simpl.
  by rewrite fmap_app, <-IH.
Qed.

(** The output of a pipelined stage has the channels of its distribution, on
    local storage with one replica per reader. *)
Lemma pipelined_output job key producer out :
  st_mode producer = Pipelined → get_task_output job key producer = Ok out →
  output_channels out = dist_channels (st_distribution producer) ∧
  to_locator out = OutLocal (replicas (jd_graph job) (tk_stage key)).
Proof.
  intros Hm Ho. unfold get_task_output in Ho. rewrite Hm in Ho.
  apply bind_ok in Ho as (d & Hd & [= <-]). split; [|done].
  unfold output_channels. simpl. destruct (st_distribution producer) as [keys n|n]; simpl in *.
  - by apply bind_ok in Hd as (keys' & _ & [= <-]).
  - by injection Hd as <-.
Qed.

Context (key : TaskKey) (job : JobDescriptor) (input : StageInput) (producer : Stage).
Context (get : TaskKey → option TaskAssignment) (att : nat → nat) (worker : nat → N).

(** The task that produces a partition of the input. *)
Definition producer_key (p : nat) : TaskKey :=
  MkTaskKey (tk_job_id key) (si_stage input) p (att p).

(** C18. A task on a worker reads exactly the streams that the latest attempts of
    the tasks of its input stage write, each stream once and at the worker the
    attempt is assigned to; the write side has the replicas the graph asks for.
    A forward or merge input has one group of streams per producer partition,
    a shuffle input one group per channel, a broadcast input a single group. *)
Theorem shuffle_wiring out :
  jg_stages (jd_graph job) !! si_stage input = Some producer →
  st_mode producer = Pipelined → st_placement producer = PlaceWorker →
  (∀ p, p < stage_partitions producer →
     get_latest_task_attempt (jd_stages job) (si_stage input) p = Some (att p) ∧
     (∃ slot, get (producer_key p) = Some (AssignWorker (worker p) slot)) ∧
     get_task_output job (producer_key p) producer = Ok (out p)) →
  ∃ x, get_task_input get job key input = Ok x ∧
    mjoin (input_locations x (tk_job_id key)) ≡ₚ
      (p ← seq 0 (stage_partitions producer);
       (λ w, ReadWorker (worker p) (write_location_key w))
         <$> output_locations (out p) (producer_key p)) ∧
    (∀ p w, p < stage_partitions producer → w ∈ output_locations (out p) (producer_key p) →
       ∃ k, w = WriteLocal (StorageMemory (replicas (jd_graph job) (si_stage input))) k) ∧
    length (input_locations x (tk_job_id key)) =
      match si_mode input with
      | Forward | Merge => stage_partitions producer
      | Shuffle => dist_channels (st_distribution producer)
      | Broadcast => 1
      end ∧
    ∀ i row w k, input_locations x (tk_job_id key) !! i = Some row → ReadWorker w k ∈ row →
      match si_mode input with
      | Forward | Merge => ts_partition k = i
      | Shuffle => ts_channel k = i
      | Broadcast => True
      end.
Proof.
  intros Hprod Hm Hpl Hall.
  destruct (worker_input_rows key job input producer get att worker Hprod) as
    (rows & Hin & Hperm & Hlen & Hrow); [by intros p Hp; apply Hall|done|done|
    by intros p Hp; apply (Hall p Hp)|].
  assert (∀ p, p < stage_partitions producer →
    output_locations (out p) (producer_key p) =
      (λ c, WriteLocal (StorageMemory (replicas (jd_graph job) (si_stage input)))
              (output_stream_key (producer_key p) c))
        <$> seq 0 (dist_channels (st_distribution producer))) as Hout.
  { intros p Hp. destruct (Hall p Hp) as (_ & _ & Ho).
    destruct (pipelined_output _ _ _ _ Hm Ho) as [Hc Hl]. unfold output_locations.
    by rewrite Hl, Hc. }
  exists (MkTaskInput (LocWorker (si_stage input) rows)). split_and!.
  - done.
  - rewrite worker_locations, Hperm. apply reflexive_eq.
    assert (∀ p, p ∈ seq 0 (stage_partitions producer) → p < stage_partitions producer) as Hl
      by (intros p; apply elem_of_seq0).
    revert Hl. generalize (seq 0 (stage_partitions producer)).
    induction l as [|p l IH]; intros Hl; [done|].
    rewrite !bind_cons, fmap_app, IH by set_solver. f_equal.
    rewrite Hout by (apply Hl; set_solver). by rewrite <-!list_fmap_compose.
  - intros p w Hp. rewrite Hout by done. intros (c & -> & _)%list_elem_of_fmap. eauto.
  - rewrite <-Hlen. unfold input_locations. simpl. apply length_fmap.
  - intros i row w k Hi Hk. simpl in Hi.
    apply list_lookup_fmap_Some in Hi as (row0 & -> & Hi).
    apply list_elem_of_fmap in Hk as ([w0 k0] & [= -> ->] & Hk). simpl.
    exact (Hrow i row0 _ k0 Hi Hk).
Qed.
End wiring.
