(* ===== verification/StreamManager.v ===== *)
(** * The stream manager

    [crates/zelox-execution/src/stream_manager/{core,mod,options}.rs]: the local
    streams a driver or a worker owns, by stream key.  A reader may ask for a
    stream before the task that writes it has created it. *)

From S2P Require Import Prelude Ids JobGraph JobState Streams Actor.

(** [ActorContext<T>] with [T::Message: StreamManagerMessage]: the context of the
    actor that owns the streams can send that actor, after a delay, its message
    [probe_pending_local_stream].  The driver and the worker are such actors. *)
Class StreamManagerContext (C : Type) :=
  send_probe_pending_local_stream : C → TaskStreamKey → N → C.

#[global] Instance driver_stream_context `{DF : DataFusion} : StreamManagerContext ActorContext :=
  λ ctx key delay, ctx_send_with_delay ctx (EvProbePendingLocalStream key) delay.

Record StreamManagerOptions := MkStreamManagerOptions {
  smo_task_stream_buffer : nat;
  smo_task_stream_creation_timeout : N;
  smo_shuffle_spill_dir : string
}.

Section manager.
Context `{DF : DataFusion} `{FC : ForeignCauses} `{DI : !DiskIo}.

Inductive LocalStreamState :=
| LssPending (senders : list nat)
| LssCreated (stream : LocalStream)
| LssFailed (cause : CommonErrorCause).

(** [local_streams] is a [HashMap]; [sm_channels] are the channels made so
    far. *)
Record StreamManager := MkStreamManager {
  sm_options : StreamManagerOptions;
  sm_local_streams : gmap TaskStreamKey LocalStreamState;
  sm_channels : list Channel
}.

Definition stream_manager_new (options : StreamManagerOptions) : StreamManager :=
  MkStreamManager options ∅ [].

Definition sm_set (self : StreamManager) (key : TaskStreamKey) (state : LocalStreamState)
    (chs : list Channel) : StreamManager :=
  MkStreamManager (sm_options self) (<[key := state]> (sm_local_streams self)) chs.

Definition disk_filename (key : TaskStreamKey) : string :=
  "shuffle_" +:+ pretty (ts_job_id key) +:+ "_" +:+ pretty (ts_stage key) +:+ "_"
  +:+ pretty (ts_partition key) +:+ "_" +:+ pretty (ts_attempt key) +:+ ".ipc".

Definition create_local_stream_with_senders (storage : LocalStreamStorage) (senders : list nat)
    (options : StreamManagerOptions) (key : TaskStreamKey) (schema : Schema)
    (chs : list Channel) : Run (ExecutionResult LocalStream * list Channel) :=
  match storage with
  | StorageMemory replicas =>
      '(m, chs) ← memory_stream_new chs (smo_task_stream_buffer options) replicas senders;
      Returns (Ok (LsMemory m), chs)
  | StorageDisk =>
      match create_dir_all (smo_shuffle_spill_dir options) with
      | Err e =>
          Returns (Err (InternalError
            ("disk stream: failed to create spill dir "
             +:+ path_debug (smo_shuffle_spill_dir options) +:+ ": " +:+ foreign_display e)), chs)
      | Ok _ =>
          Returns (Ok (LsDisk (MkDiskStream
            (path_join (smo_shuffle_spill_dir options) (disk_filename key)) schema senders
            (smo_task_stream_buffer options))), chs)
      end
  end.

(** The closure [create] of [create_local_stream]. *)
Definition create (self : StreamManager) (key : TaskStreamKey) (storage : LocalStreamStorage)
    (schema : Schema) (senders : list nat)
    : Run (ExecutionResult (LocalStream * TaskStreamSink) * list Channel) :=
  '(stream, chs) ← create_local_stream_with_senders storage senders (sm_options self) key schema
                     (sm_channels self);
  Returns (stream ← stream; '(sink, stream) ← publish stream; Ok (stream, sink), chs).

(** The error of [try_send] is ignored. *)
Definition fail_sender (cause : CommonErrorCause) (chs : list Channel) (tx : nat)
    : list Channel :=
  match try_send chs tx (Err (stream_error_of_cause cause)) with
  | SendOk chs => chs
  | SendFull | SendClosed => chs
  end.

Definition fail_senders (chs : list Channel) (senders : list nat) (cause : CommonErrorCause)
    : list Channel :=
  foldl (fail_sender cause) chs senders.

Definition create_local_stream (self : StreamManager) (key : TaskStreamKey)
    (storage : LocalStreamStorage) (schema : Schema)
    : Run (ExecutionResult TaskStreamSink * StreamManager) :=
  match sm_local_streams self !! key with
  | Some (LssCreated _) =>
      Returns (Err (InternalError
        ("local stream " +:+ task_stream_key_display key +:+ " is already created")), self)
  | Some (LssFailed cause) =>
      Returns (Err (InternalError
        ("local stream creation has failed for " +:+ task_stream_key_display key +:+ ": "
         +:+ stream_error_display (stream_error_of_cause cause))), self)
  | Some (LssPending senders) =>
      '(r, chs) ← create self key storage schema senders;
      match r with
      | Ok (stream, sink) => Returns (Ok sink, sm_set self key (LssCreated stream) chs)
      | Err e =>
          let cause := cause_of_error e in
          Returns (Err e, sm_set self key (LssFailed cause) (fail_senders chs senders cause))
      end
  | None =>
      '(r, chs) ← create self key storage schema [];
      match r with
      | Ok (stream, sink) => Returns (Ok sink, sm_set self key (LssCreated stream) chs)
      | Err e => Returns (Err e, sm_set self key (LssFailed (cause_of_error e)) chs)
      end
  end.

Definition create_remote_stream (self : StreamManager) (uri : string) (key : TaskStreamKey)
    (schema : Schema) : ExecutionResult TaskStreamSink :=
  Err (InternalError "not implemented: remote stream").

Definition fetch_local_stream `{!StreamManagerContext C} (self : StreamManager) (ctx : C)
    (key : TaskStreamKey) : Run (ExecutionResult TaskStreamSource * StreamManager * C) :=
  match sm_local_streams self !! key with
  | Some (LssCreated stream) =>
      '(r, stream, chs) ← subscribe (sm_channels self) stream;
      Returns (r, sm_set self key (LssCreated stream) chs, ctx)
  | Some (LssPending senders) =>
      '(c, chs) ← mpsc_channel (sm_channels self) (smo_task_stream_buffer (sm_options self));
      Returns (Ok (SourceChannel c), sm_set self key (LssPending (senders ++ [c])) chs, ctx)
  | Some (LssFailed cause) =>
      Returns (Err (InternalError
        ("local stream creation has failed for " +:+ task_stream_key_display key +:+ ": "
         +:+ stream_error_display (stream_error_of_cause cause))), self, ctx)
  | None =>
      '(c, chs) ← mpsc_channel (sm_channels self) (smo_task_stream_buffer (sm_options self));
      Returns (Ok (SourceChannel c), sm_set self key (LssPending [c]) chs,
               send_probe_pending_local_stream ctx key
                 (smo_task_stream_creation_timeout (sm_options self)))
  end.

Definition fetch_remote_stream {C} (self : StreamManager) (ctx : C) (uri : string)
    (key : TaskStreamKey) (schema : Schema) : ExecutionResult TaskStreamSource :=
  Err (InternalError "not implemented: fetch remote stream").

Definition stream_key_matches (job_id : N) (stage : option nat) (key : TaskStreamKey) : Prop :=
  ts_job_id key = job_id ∧ match stage with Some s => ts_stage key = s | None => True end.
#[global] Instance stream_key_matches_dec job_id stage key :
  Decision (stream_key_matches job_id stage key).
Proof. unfold stream_key_matches. destruct stage; apply _. Defined.

(** [retain]: [key.job_id != job_id || key.stage != stage] is the negation of
    [stream_key_matches]. *)
Definition remove_local_streams (self : StreamManager) (job_id : N) (stage : option nat)
    : StreamManager :=
  MkStreamManager (sm_options self)
    (filter (λ kv, ¬ stream_key_matches job_id stage kv.1) (sm_local_streams self))
    (sm_channels self).

(** It only logs that it is not implemented. *)
Definition remove_remote_streams {C} (self : StreamManager) (ctx : C) (job_id : N)
    (stage : option nat) : StreamManager * C := (self, ctx).

Definition fail_local_stream_if_pending (self : StreamManager) (key : TaskStreamKey)
    : StreamManager :=
  match sm_local_streams self !! key with
  | Some (LssPending senders) =>
      let cause := CauseExecution "local stream is not created within the expected time" in
      sm_set self key (LssFailed cause) (fail_senders (sm_channels self) senders cause)
  | _ => self
  end.
End manager.
