(* ===== verification/StreamManagerTheorems.v ===== *)
(** * Subscribers that wait for a stream

    A reader that asks for a stream before it exists waits on a channel of its
    own until the stream is created or given up; it is never forgotten. *)

From S2P Require Import Prelude Ids JobGraph JobState Streams StreamTheorems Actor StreamManager.
Section facts.
Context `{DF : DataFusion} `{FC : ForeignCauses} `{DI : !DiskIo}.

(** A channel on which nothing was sent. *)
Definition waiting_channel (buffer : nat) (chs : list Channel) (c : nat) : Prop :=
  ∃ ch, chs !! c = Some ch ∧ ch_capacity ch = buffer ∧ ch_buffer ch = [] ∧ ch_received ch = [].

Definition waits_for (self : StreamManager) (key : TaskStreamKey) (c : nat) : Prop :=
  ∃ senders, sm_local_streams self !! key = Some (LssPending senders) ∧ c ∈ senders.

Record manager_wf (self : StreamManager) : Prop := {
  mw_distinct : ∀ key senders, sm_local_streams self !! key = Some (LssPending senders) →
    NoDup senders;
  mw_waiting : ∀ key c, waits_for self key c →
    waiting_channel (smo_task_stream_buffer (sm_options self)) (sm_channels self) c;
  mw_disjoint : ∀ k1 k2 c, waits_for self k1 c → waits_for self k2 c → k1 = k2;
  mw_disk : ∀ key d, sm_local_streams self !! key = Some (LssCreated (LsDisk d)) →
    ds_buffer d = smo_task_stream_buffer (sm_options self)
}.

Lemma waiting_channel_mono buffer chs chs' c :
  chs `prefix_of` chs' → waiting_channel buffer chs c → waiting_channel buffer chs' c.
Proof.
  intros [l ->] (ch & Hch & Hrest). exists ch. by rewrite (lookup_app_l_Some _ _ _ _ Hch).
Qed.

Lemma waiting_channel_lt buffer chs c : waiting_channel buffer chs c → c < length chs.
Proof. intros (ch & Hch & _). by eapply lookup_lt_Some. Qed.

Lemma waits_for_set self key st chs k c :
  waits_for (sm_set self key st chs) k c ↔
  (k = key ∧ ∃ senders, st = LssPending senders ∧ c ∈ senders) ∨ (k ≠ key ∧ waits_for self k c).
Proof.
  unfold waits_for. simpl. destruct (decide (k = key)) as [->|Hne].
  - rewrite lookup_insert_eq. naive_solver.
  - rewrite lookup_insert_ne by done. naive_solver.
Qed.

(** Replacing the state of a key; the waiting channels of other keys stay. *)
Lemma manager_wf_set self key st chs :
  manager_wf self →
  (∀ k c, k ≠ key → waits_for self k c →
     waiting_channel (smo_task_stream_buffer (sm_options self)) chs c) →
  (∀ senders, st = LssPending senders → NoDup senders ∧
     ∀ c, c ∈ senders → waiting_channel (smo_task_stream_buffer (sm_options self)) chs c ∧
       ∀ k, waits_for self k c → k = key) →
  (∀ d, st = LssCreated (LsDisk d) → ds_buffer d = smo_task_stream_buffer (sm_options self)) →
  manager_wf (sm_set self key st chs).
Proof.
  intros [Hd Hw Hj Hdisk] Hother Hnew Hst. split.
  - intros k senders. simpl. destruct (decide (k = key)) as [->|Hne].
    + rewrite lookup_insert_eq. intros [= ->]. by apply Hnew.
    + rewrite lookup_insert_ne by done. apply Hd.
  - intros k c. rewrite waits_for_set. intros [[-> (senders & -> & Hc)]|[Hne Hk]].
    + by apply (Hnew senders).
    + by eapply Hother.
  - intros k1 k2 c. rewrite !waits_for_set.
    intros [[-> (s1 & -> & Hc1)]|[Hne1 H1]] [[-> (s2 & ? & Hc2)]|[Hne2 H2]]; simplify_eq.
    + done.
    + destruct (Hnew s1 eq_refl) as [_ Hn]. symmetry. by apply (Hn c Hc1).
    + destruct (Hnew s2 eq_refl) as [_ Hn]. by apply (Hn c Hc2).
    + by eapply Hj.
  - intros k d. simpl. destruct (decide (k = key)) as [->|Hne].
    + rewrite lookup_insert_eq. intros [= ->]. by apply Hst.
    + rewrite lookup_insert_ne by done. apply Hdisk.
Qed.

(** ** Failing the waiting subscribers *)

(** The channel of a subscriber that was told the error. *)
Definition told (cause : CommonErrorCause) (ch : Channel) : Channel :=
  if ch_open ch
  then ch_with_buffer ch [Err (stream_error_of_cause cause)] else ch.

Lemma fail_sender_spec buffer cause chs c ch :
  0 < buffer → waiting_channel buffer chs c → chs !! c = Some ch →
  fail_sender cause chs c = <[c := told cause ch]> chs.
Proof.
  intros Hb (ch' & Hch & Hcap & Hbuf & _) Hch'.
  assert (ch' = ch) as -> by congruence. unfold fail_sender, told.
  rewrite (try_send_spec _ _ ch) by done. destruct (ch_open ch); simpl.
  - rewrite Hbuf. simpl. by rewrite decide_True by lia.
  - by rewrite list_insert_id.
Qed.

Lemma fail_senders_spec buffer chs senders cause :
  0 < buffer → NoDup senders → (∀ c, c ∈ senders → waiting_channel buffer chs c) →
  length (fail_senders chs senders cause) = length chs ∧
  ∀ c, fail_senders chs senders cause !! c =
       if decide (c ∈ senders) then told cause <$> chs !! c else chs !! c.
Proof.
  intros Hb. unfold fail_senders. revert chs.
  induction senders as [|c0 senders IH]; intros chs Hnd Hw; simpl; [done|].
  apply NoDup_cons in Hnd as [Hc0 Hnd].
  destruct (Hw c0) as (ch0 & Hch0 & Hrest0); [set_solver|].
  rewrite (fail_sender_spec buffer _ _ _ ch0) by (done || apply Hw; set_solver).
  destruct (IH (<[c0 := told cause ch0]> chs)) as [Hl Hlk]; [done| |].
  { intros c Hc. destruct (Hw c) as (ch & Hch & Hrest); [set_solver|].
    exists ch. rewrite list_lookup_insert_ne by set_solver. done. }
  rewrite Hl, length_insert. split; [done|]. intros c. rewrite Hlk.
  destruct (decide (c = c0)) as [->|Hne].
  - rewrite decide_False, decide_True by set_solver.
    rewrite list_lookup_insert_eq by (by eapply lookup_lt_Some). by rewrite Hch0.
  - rewrite list_lookup_insert_ne by done.
    destruct (decide (c ∈ senders)); [rewrite decide_True by set_solver; done|].
    rewrite decide_False by set_solver. done.
Qed.

Lemma waiting_after_fail buffer chs senders cause c :
  0 < buffer → NoDup senders → (∀ c, c ∈ senders → waiting_channel buffer chs c) →
  c ∉ senders → waiting_channel buffer chs c →
  waiting_channel buffer (fail_senders chs senders cause) c.
Proof.
  intros Hb Hnd Hw Hc (ch & Hch & Hrest). exists ch. split; [|done].
  destruct (fail_senders_spec buffer chs senders cause Hb Hnd Hw) as [_ ->].
  by rewrite decide_False.
Qed.

(** ** Creating and fetching *)

Lemma waiting_fresh buffer chs c : waiting_channel buffer chs c → fresh_channel chs c.
Proof. intros (ch & Hch & _ & Hb & Hr). by exists ch. Qed.

(** What a successful creation hands out: for a memory stream, the waiting
    channels become replicas, and further replicas are kept for later. *)
Definition created_ok (buffer : nat) (storage : LocalStreamStorage) (senders : list nat) (chs : list Channel)
    (stream : LocalStream) (sink : TaskStreamSink) : Prop :=
  match storage with
  | StorageMemory replicas => ∃ receivers s,
      stream = LsMemory (MkMemoryStream None receivers) ∧ sink = SkMemory s ∧
      length (senders ++ receivers) = replicas `max` length senders ∧
      stream_inv (senders ++ receivers) (chs, s, [])
  | StorageDisk => ∃ d k, stream = LsDisk d ∧ sink = SkDisk k ∧
      dss_pending_senders k = senders ∧ ds_senders d = [] ∧ ds_buffer d = buffer
  end.

Lemma total_create self key storage schema senders :
  let buffer := smo_task_stream_buffer (sm_options self) in
  0 < buffer → NoDup senders →
  (∀ c, c ∈ senders → waiting_channel buffer (sm_channels self) c) →
  create self key storage schema senders ⇓ (λ '(r, chs),
    sm_channels self `prefix_of` chs ∧
    match r with
    | Ok (stream, sink) => created_ok buffer storage senders chs stream sink
    | Err _ => storage = StorageDisk
    end).
Proof.
  intros buffer Hb Hnd Hw. unfold create, create_local_stream_with_senders.
  apply total_bind. destruct storage as [replicas|].
  - apply total_bind. eapply total_mono.
    { apply total_memory_stream_new; eauto using waiting_fresh. }
    intros [m chs] (s & Hs & Hpre & Hlen & _ & Hinv). simpl. unfold memory_publish.
    rewrite Hs. simpl. split; [done|]. exists (ms_receivers m), s. done.
  - destruct (create_dir_all _); simpl; [|done]. unfold disk_publish.
    destruct (file_create _); simpl; [|done].
    destruct (ipc_writer_try_new _ _); simpl; [|done]. split; [done|]. do 2 eexists. done.
Qed.

Lemma created_ok_disk buffer storage senders chs stream sink d :
  created_ok buffer storage senders chs stream sink → LssCreated stream = LssCreated (LsDisk d) →
  ds_buffer d = buffer.
Proof. destruct storage; simpl; naive_solver. Qed.

Lemma manager_wf_waiting self key senders :
  manager_wf self → sm_local_streams self !! key = Some (LssPending senders) →
  NoDup senders ∧ ∀ c, c ∈ senders →
    waiting_channel (smo_task_stream_buffer (sm_options self)) (sm_channels self) c.
Proof.
  intros Hw Hk. split; [by eapply mw_distinct|]. intros c Hc.
  eapply (mw_waiting _ Hw key). by exists senders.
Qed.

(** A key that leaves the pending state, when the channels only grow. *)
Lemma manager_wf_settle self key st chs :
  manager_wf self → sm_channels self `prefix_of` chs → (∀ senders, st ≠ LssPending senders) →
  (∀ d, st = LssCreated (LsDisk d) → ds_buffer d = smo_task_stream_buffer (sm_options self)) →
  manager_wf (sm_set self key st chs).
Proof.
  intros Hw Hpre Hst Hdisk. apply manager_wf_set; [done| | |done].
  - intros k c _ Hk. eapply waiting_channel_mono; [done|]. by eapply mw_waiting.
  - intros senders ->. by destruct (Hst senders).
Qed.

Lemma manager_wf_fail self key senders chs cause :
  let buffer := smo_task_stream_buffer (sm_options self) in
  0 < buffer → manager_wf self → sm_local_streams self !! key = Some (LssPending senders) →
  sm_channels self `prefix_of` chs →
  manager_wf (sm_set self key (LssFailed cause) (fail_senders chs senders cause)).
Proof.
  intros buffer Hb Hw Hk Hpre. destruct (manager_wf_waiting _ _ _ Hw Hk) as [Hnd Hwait].
  apply manager_wf_set; [done| |done|done]. intros k c Hne Hc. apply waiting_after_fail; [done|done| | |].
  - intros c' Hc'. eapply waiting_channel_mono; [done|]. by apply Hwait.
  - intros Hin. apply Hne, (mw_disjoint _ Hw k key c); [done|]. by exists senders.
  - eapply waiting_channel_mono; [done|]. by eapply mw_waiting.
Qed.

Lemma total_create_local_stream self key storage schema :
  0 < smo_task_stream_buffer (sm_options self) → manager_wf self →
  create_local_stream self key storage schema ⇓ (λ '(r, self'),
    manager_wf self' ∧ sm_options self' = sm_options self ∧
    ∀ senders, sm_local_streams self !! key = Some (LssPending senders) →
      match r with
      | Ok sink => ∃ stream,
          sm_local_streams self' = <[key := LssCreated stream]> (sm_local_streams self) ∧
          created_ok (smo_task_stream_buffer (sm_options self)) storage senders
            (sm_channels self') stream sink
      | Err e => ∃ chs, storage = StorageDisk ∧ sm_channels self `prefix_of` chs ∧
          self' = sm_set self key (LssFailed (cause_of_error e))
                    (fail_senders chs senders (cause_of_error e))
      end).
Proof.
  intros Hb Hw. unfold create_local_stream.
  destruct (sm_local_streams self !! key) as [[senders|stream|cause]|] eqn:Hk; [|done..|].
  - destruct (manager_wf_waiting _ _ _ Hw Hk) as [Hnd Hwait]. run_call (by apply total_create).
    intros [[[stream sink]|e] chs] [Hpre Hr]; simpl; (split_and!; [|done|]).
    + (apply manager_wf_settle; [done|done|done|]);
      intros d Hd; (done || by eapply created_ok_disk).
    + intros ? [= <-]. eauto.
    + by apply manager_wf_fail.
    + intros ? [= <-]. eauto.
  - apply total_bind. eapply total_mono; [apply total_create; [done|constructor|set_solver]|].
    intros [[[stream sink]|e] chs] [Hpre Hr]; simpl; (split_and!; [|done|done]);
      (apply manager_wf_settle; [done|done|done|]);
      intros d Hd; (done || by eapply created_ok_disk).
Qed.

Lemma total_mpsc_channel chs buffer (Q : nat * list Channel → Prop) :
  0 < buffer → Q (length chs, chs ++ [MkChannel buffer [] [] true]) →
  mpsc_channel chs buffer ⇓ Q.
Proof. intros Hb HQ. unfold mpsc_channel. by rewrite decide_False by lia. Qed.

(** A reader that arrives before the stream waits on a new channel. *)
Lemma manager_wf_wait self key senders :
  0 < smo_task_stream_buffer (sm_options self) → manager_wf self →
  (sm_local_streams self !! key = Some (LssPending senders) ∨
   sm_local_streams self !! key = None ∧ senders = []) →
  manager_wf (sm_set self key (LssPending (senders ++ [length (sm_channels self)]))
    (sm_channels self ++ [MkChannel (smo_task_stream_buffer (sm_options self)) [] [] true])).
Proof.
  intros Hb Hw Hk.
  assert (∀ c, c ∈ senders → waits_for self key c) as Hold.
  { intros c Hc. destruct Hk as [Hk|[_ ->]]; [by exists senders|set_solver]. }
  assert (∀ k, ¬ waits_for self k (length (sm_channels self))) as Hnew.
  { intros k Hc%(mw_waiting _ Hw)%waiting_channel_lt. lia. }
  apply manager_wf_set; [done| | |done].
  - intros k c _ Hc. eapply waiting_channel_mono; [by apply prefix_app_r|]. by eapply mw_waiting.
  - intros ? [= <-]. split.
    + apply NoDup_app. split_and!; [|set_solver|apply NoDup_singleton].
      destruct Hk as [Hk|[_ ->]]; [by eapply mw_distinct|constructor].
    + intros c [Hc| ->%list_elem_of_singleton]%elem_of_app.
      * split; [|by intros k Hc'; eapply (mw_disjoint _ Hw); [|apply Hold]].
        eapply waiting_channel_mono; [by apply prefix_app_r|]. eapply mw_waiting; eauto.
      * split; [|by intros k Hc'; destruct (Hnew k)].
        eexists. split; [by apply list_lookup_middle|done].
Qed.

(** The outcome of a fetch. *)
Definition fetched_ok `{!StreamManagerContext C} (self self' : StreamManager) (ctx ctx' : C)
    (key : TaskStreamKey) (r : ExecutionResult TaskStreamSource) : Prop :=
  match sm_local_streams self !! key with
  | Some (LssPending _) | None =>
      ∃ c, r = Ok (SourceChannel c) ∧ waits_for self' key c ∧ is_open (sm_channels self') c = true ∧
        (∀ k, ¬ waits_for self k c) ∧
        ctx' = match sm_local_streams self !! key with
               | None => send_probe_pending_local_stream ctx key
                           (smo_task_stream_creation_timeout (sm_options self))
               | Some _ => ctx
               end
  | Some (LssCreated (LsMemory m)) => ctx' = ctx ∧
      match last (ms_receivers m) with
      | Some c => r = Ok (SourceChannel c)
      | None => r = Err (InternalError "memory stream has exhausted all replica(s)")
      end
  | Some (LssCreated (LsDisk _)) => ctx' = ctx ∧ is_ok r = true
  | Some (LssFailed _) => ctx' = ctx ∧ is_ok r = false ∧ self' = self
  end.

Lemma total_fetch_local_stream `{!StreamManagerContext C} self (ctx : C) key :
  0 < smo_task_stream_buffer (sm_options self) → manager_wf self →
  fetch_local_stream self ctx key ⇓ (λ '(r, self', ctx'),
    manager_wf self' ∧ sm_options self' = sm_options self ∧
    fetched_ok self self' ctx ctx' key r).
Proof.
  intros Hb Hw. unfold fetch_local_stream, fetched_ok.
  assert (∀ k, ¬ waits_for self k (length (sm_channels self))) as Hnew.
  { intros k Hc%(mw_waiting _ Hw)%waiting_channel_lt. lia. }
  assert (∀ senders, waits_for (sm_set self key (LssPending (senders ++ [length (sm_channels self)]))
      (sm_channels self ++ [MkChannel (smo_task_stream_buffer (sm_options self)) [] [] true])) key
      (length (sm_channels self))) as Hwait.
  { intros senders. apply waits_for_set. left. split; [done|]. eexists. split; [done|set_solver]. }
  assert (is_open (sm_channels self ++ [MkChannel (smo_task_stream_buffer (sm_options self)) [] [] true])
            (length (sm_channels self)) = true) as Hopen.
  { unfold is_open. by rewrite list_lookup_middle. }
  destruct (sm_local_streams self !! key) as [[senders|[m|d]|cause]|] eqn:Hk.
  - apply total_bind, total_mpsc_channel; [done|]. split_and!; [|done|].
    + apply manager_wf_wait; auto.
    + exists (length (sm_channels self)). split_and!; auto.
  - simpl. unfold memory_subscribe. destruct (last (ms_receivers m)); simpl;
      (split_and!; [by apply manager_wf_settle|done|done|done]).
  - pose proof (mw_disk _ Hw key d Hk) as Hd.
    simpl. do 3 apply total_bind. rewrite Hd. apply total_mpsc_channel; [done|].
    split_and!; [|done|done|done].
    apply manager_wf_settle; [done|by apply prefix_app_r|done|]. intros ? [= <-]. done.
  - done.
  - apply total_bind, total_mpsc_channel; [done|]. split_and!; [|done|].
    + apply (manager_wf_wait self key []); auto.
    + exists (length (sm_channels self)). split_and!; auto. apply (Hwait []).
Qed.
End facts.

(** ** Guarantees of the stream manager

    Over every history of the manager's operations interleaved with the readers
    and writers of its channels. *)

Section theorems.
Context `{DF : DataFusion} `{FC : ForeignCauses} `{DI : !DiskIo} `{SC : !StreamManagerContext C}.

(** Between two operations, readers take items or go away and writers send,
    but nobody writes to a channel that waits for its stream. *)
Definition channels_move (self : StreamManager) (chs : list Channel) : Prop :=
  ∀ key c ch, waits_for self key c → sm_channels self !! c = Some ch →
    chs !! c = Some ch ∨ chs !! c = Some (MkChannel (ch_capacity ch) [] (ch_received ch) false).

Inductive manager_step : StreamManager → StreamManager → Prop :=
| MgCreate self key storage schema r self' :
    create_local_stream self key storage schema = Returns (r, self') → manager_step self self'
| MgFetch self (ctx : C) key r self' ctx' :
    fetch_local_stream self ctx key = Returns (r, self', ctx') → manager_step self self'
| MgRemove self job_id stage : manager_step self (remove_local_streams self job_id stage)
| MgProbe self key : manager_step self (fail_local_stream_if_pending self key)
| MgChannels self chs : channels_move self chs →
    manager_step self (MkStreamManager (sm_options self) (sm_local_streams self) chs).

Inductive manager_reachable (options : StreamManagerOptions) : StreamManager → Prop :=
| ManagerStart : manager_reachable options (stream_manager_new options)
| ManagerNext self self' : manager_reachable options self → manager_step self self' →
    manager_reachable options self'.

Lemma remove_lookup self job_id stage key st :
  sm_local_streams (remove_local_streams self job_id stage) !! key = Some st ↔
  sm_local_streams self !! key = Some st ∧ ¬ stream_key_matches job_id stage key.
Proof. unfold remove_local_streams. simpl. rewrite map_lookup_filter_Some. done. Qed.

Lemma manager_wf_shrink self self' :
  sm_options self' = sm_options self → sm_channels self' = sm_channels self →
  (∀ key st, sm_local_streams self' !! key = Some st → sm_local_streams self !! key = Some st) →
  manager_wf self → manager_wf self'.
Proof.
  intros Ho Hc Hs [Hd Hw Hj Hk].
  assert (∀ key c, waits_for self' key c → waits_for self key c) as Hwf.
  { intros key c (senders & Hl & Hin). exists senders. eauto. }
  split.
  - intros key senders Hl. eauto.
  - intros key c Hc'. rewrite Ho, Hc. eauto.
  - intros k1 k2 c H1 H2. eauto.
  - intros key d Hl. rewrite Ho. eauto.
Qed.

Lemma manager_wf_channels self chs :
  channels_move self chs → manager_wf self →
  manager_wf (MkStreamManager (sm_options self) (sm_local_streams self) chs).
Proof.
  intros Hm [Hd Hw Hj Hk]. split; try done.
  intros key c Hc. destruct (Hw key c Hc) as (ch & Hch & Hcap & Hb & Hr).
  destruct (Hm key c ch Hc Hch) as [Hch'|Hch']; eexists; (split; [exact Hch'|done]).
Qed.

Lemma fail_local_stream_wf self key :
  0 < smo_task_stream_buffer (sm_options self) → manager_wf self →
  manager_wf (fail_local_stream_if_pending self key).
Proof.
  intros Hb Hw. unfold fail_local_stream_if_pending.
  destruct (sm_local_streams self !! key) as [[senders| |]|] eqn:Hk; [|done..].
  by apply manager_wf_fail.
Qed.

Lemma manager_step_wf self self' :
  0 < smo_task_stream_buffer (sm_options self) → manager_step self self' → manager_wf self →
  manager_wf self' ∧ sm_options self' = sm_options self.
Proof.
  intros Hb Hstep Hw. destruct Hstep as [self key storage schema r self' Hc|
    self ctx key r self' ctx' Hf|self job_id stage|self key|self chs Hm].
  - destruct (returns_total _ _ _ Hc (total_create_local_stream self key storage schema Hb Hw))
      as (? & ? & _). done.
  - destruct (returns_total _ _ _ Hf (total_fetch_local_stream self ctx key Hb Hw))
      as (? & ? & _). done.
  - split; [|done]. apply (manager_wf_shrink self); try done.
    intros key st Hl%remove_lookup. apply Hl.
  - split; [by apply fail_local_stream_wf|]. unfold fail_local_stream_if_pending.
    by destruct (sm_local_streams self !! key) as [[]|].
  - split; [|done]. by apply manager_wf_channels.
Qed.

Lemma manager_wf_new options : manager_wf (stream_manager_new options).
Proof.
  split.
  - intros key senders. simpl. by rewrite lookup_empty.
  - intros key c (senders & Hl & _). simpl in Hl. by rewrite lookup_empty in Hl.
  - intros k1 k2 c (senders & Hl & _). simpl in Hl. by rewrite lookup_empty in Hl.
  - intros key d. simpl. by rewrite lookup_empty.
Qed.

Lemma manager_reachable_wf options self :
  0 < smo_task_stream_buffer options → manager_reachable options self →
  manager_wf self ∧ sm_options self = options.
Proof.
  intros Hb. induction 1 as [|self self' _ [Hw Ho] Hstep].
  - split; [apply manager_wf_new|done].
  - rewrite <-Ho in Hb. destruct (manager_step_wf _ _ Hb Hstep Hw) as [? ->]. by split.
Qed.

(** With a positive channel buffer no operation of the stream manager
    panics, and a fetch does what the state of the stream calls for: a reader
    that comes before the stream waits on an open channel of its own, shared
    with no other waiting reader, and the first of them schedules the creation
    probe; a created memory stream hands out its next replica or says that
    none is left; a failed stream is reported and nothing changes. *)
Theorem fetch_local_stream_outcome options self (ctx : C) key :
  0 < smo_task_stream_buffer options → manager_reachable options self →
  fetch_local_stream self ctx key ⇓ (λ '(r, self', ctx'),
    fetched_ok self self' ctx ctx' key r ∧
    ∀ k1 k2 c, waits_for self' k1 c → waits_for self' k2 c → k1 = k2).
Proof.
  intros Hb Hr. destruct (manager_reachable_wf _ _ Hb Hr) as [Hw Ho]. rewrite <-Ho in Hb.
  eapply total_mono; [by apply total_fetch_local_stream|].
  intros [[r self'] ctx'] (Hw' & _ & Hf). split; [done|apply Hw'].
Qed.

(** When a stream is not created in time, every reader that waits for it and
    is still there is told exactly one error, the others are untouched, and
    from then on both fetching and creating the stream fail without changing
    anything. *)
Theorem pending_stream_failed options self key senders :
  0 < smo_task_stream_buffer options → manager_reachable options self →
  sm_local_streams self !! key = Some (LssPending senders) →
  let cause := CauseExecution "local stream is not created within the expected time" in
  let self' := fail_local_stream_if_pending self key in
  sm_local_streams self' = <[key := LssFailed cause]> (sm_local_streams self) ∧
  (∀ c, sm_channels self' !! c =
     if decide (c ∈ senders) then told cause <$> sm_channels self !! c
     else sm_channels self !! c) ∧
  (∀ c, c ∈ senders → is_open (sm_channels self) c = true →
     ∃ ch, sm_channels self' !! c = Some ch ∧ ch_received ch = [] ∧
       ch_buffer ch = [Err (stream_error_of_cause cause)]) ∧
  (∀ ctx : C, ∃ e, fetch_local_stream self' ctx key = Returns (Err e, self', ctx)) ∧
  (∀ storage schema, ∃ e,
     create_local_stream self' key storage schema = Returns (Err e, self')).
Proof.
  intros Hb Hr Hk cause self'. destruct (manager_reachable_wf _ _ Hb Hr) as [Hw Ho].
  rewrite <-Ho in Hb. destruct (manager_wf_waiting _ _ _ Hw Hk) as [Hnd Hwait].
  destruct (fail_senders_spec _ _ _ cause Hb Hnd Hwait) as [Hlen Hlk].
  assert (self' = sm_set self key (LssFailed cause)
            (fail_senders (sm_channels self) senders cause)) as ->
    by (unfold self', fail_local_stream_if_pending; by rewrite Hk).
  split_and!; [done|apply Hlk| | |].
  - intros c Hc Hopen. simpl. rewrite Hlk, decide_True by done.
    destruct (Hwait c Hc) as (ch & Hch & _ & _ & Hrc). unfold is_open in Hopen.
    rewrite Hch in Hopen |- *. simpl in *. unfold told. rewrite Hopen. eexists. split; [done|done].
  - intros ctx. unfold fetch_local_stream. simpl. rewrite lookup_insert_eq. eauto.
  - intros storage schema. unfold create_local_stream. simpl. rewrite lookup_insert_eq. eauto.
Qed.

(** Creating a memory stream that readers wait for makes each waiting channel
    a replica of it, keeps as many further replicas as the stage asked for, and
    starts with nothing written, so that the delivery guarantee of memory
    streams holds for the readers that came early and late alike. *)
Theorem waiting_readers_served options self key senders replicas schema :
  0 < smo_task_stream_buffer options → manager_reachable options self →
  sm_local_streams self !! key = Some (LssPending senders) →
  create_local_stream self key (StorageMemory replicas) schema ⇓ (λ '(r, self'),
    ∃ s receivers, r = Ok (SkMemory s) ∧
      sm_local_streams self' =
        <[key := LssCreated (LsMemory (MkMemoryStream None receivers))]> (sm_local_streams self) ∧
      length receivers = replicas - length senders ∧
      stream_inv (senders ++ receivers) (sm_channels self', s, [])).
Proof.
  intros Hb Hr Hk. destruct (manager_reachable_wf _ _ Hb Hr) as [Hw Ho]. rewrite <-Ho in Hb.
  eapply total_mono; [by apply total_create_local_stream|].
  intros [[sink|e] self'] (_ & _ & Hres); specialize (Hres senders Hk).
  - destruct Hres as (stream & Hs & receivers & s & -> & -> & Hlen & Hinv).
    exists s, receivers. split_and!; [done|done| |done]. rewrite length_app in Hlen. lia.
  - destruct Hres as (chs & Hbad & _). done.
Qed.

(** Cleaning up a job, or one stage of it, forgets exactly the streams of that
    job or stage. *)
Lemma remove_local_streams_exact self job_id stage key :
  sm_local_streams (remove_local_streams self job_id stage) !! key =
    if decide (stream_key_matches job_id stage key) then None
    else sm_local_streams self !! key.
Proof.
  apply option_eq. intros st. rewrite remove_lookup. case_decide; naive_solver.
Qed.
End theorems.
