(* ===== verification/Worker.v ===== *)
(** * The worker actor

    [crates/zelox-execution/src/worker/actor/{core,handler}.rs],
    [worker/event.rs], [worker/options.rs], [worker/peer_tracker/*.rs], and the
    task runner and task monitor of [task_runner/*.rs] as the worker uses them.
    As for the driver, what a handler asks the runtime to do later is recorded
    in its context, in order. *)

From S2P Require Import Prelude Ids JobGraph JobState Streams Actor StreamManager.

(** ** Options *)

(** [worker_listen_host], [worker_listen_port], the runtime and the session are
    used to bind the server and to run plans. *)
Record WorkerOptions := MkWorkerOptions {
  wo_worker_id : N;
  wo_enable_tls : bool;
  wo_driver_host : string;
  wo_driver_port : N;
  wo_worker_external_host : string;
  wo_worker_external_port : N;
  wo_worker_heartbeat_interval : N;
  wo_task_stream_buffer : nat;
  wo_task_stream_creation_timeout : N;
  wo_shuffle_spill_dir : string;
  wo_rpc_retry_strategy : RetryStrategy
}.

(** [WorkerOptions::local]. *)
Definition worker_options_local (id : N) (options : WorkerLaunchOptions) : WorkerOptions :=
  MkWorkerOptions id (lo_enable_tls options) (lo_driver_external_host options)
    (lo_driver_external_port options) "127.0.0.1" 0 (lo_worker_heartbeat_interval options)
    (lo_task_stream_buffer options) (lo_task_stream_creation_timeout options)
    (lo_shuffle_spill_dir options) (lo_rpc_retry_strategy options).

Definition worker_stream_options (o : WorkerOptions) : StreamManagerOptions :=
  MkStreamManagerOptions (wo_task_stream_buffer o) (wo_task_stream_creation_timeout o)
    (wo_shuffle_spill_dir o).

(** ** Peers *)

Record PeerTrackerOptions := MkPeerTrackerOptions {
  pto_worker_id : N; pto_enable_tls : bool
}.

Definition peer_tracker_options (o : WorkerOptions) : PeerTrackerOptions :=
  MkPeerTrackerOptions (wo_worker_id o) (wo_enable_tls o).

Record Peer := MkPeer {
  peer_host : string; peer_port : N; peer_client_set : option ClientOptions
}.

Definition peer_new (host : string) (port : N) : Peer := MkPeer host port None.

(** [peers] is a [HashMap]. *)
Record PeerTracker := MkPeerTracker {
  pt_options : PeerTrackerOptions;
  pt_peers : gmap N Peer
}.

Definition peer_tracker_new (options : PeerTrackerOptions) : PeerTracker :=
  MkPeerTracker options ∅.

(** [entry(..).or_insert_with(..)]: a known peer keeps its address. *)
Definition track_peer (peers : gmap N Peer) (peer : WorkerLocation) : gmap N Peer :=
  match peers !! wl_worker_id peer with
  | Some _ => peers
  | None => <[wl_worker_id peer := peer_new (wl_host peer) (wl_port peer)]> peers
  end.

(** [Peer::client_set.get_or_insert_with]. *)
Definition peer_client (options : PeerTrackerOptions) (peer : Peer) : ClientOptions :=
  match peer_client_set peer with
  | Some client => client
  | None => MkClientOptions (pto_enable_tls options) (peer_host peer) (peer_port peer)
  end.

Definition peer_get_client_set (self : PeerTracker) (worker_id : N)
    : ExecutionResult ClientOptions * PeerTracker :=
  if decide (worker_id = pto_worker_id (pt_options self)) then
    (Err (InvalidArgument "getting client for the worker itself is not allowed"), self)
  else
    match pt_peers self !! worker_id with
    | None => (Err (InvalidArgument ("unknown peer worker: " +:+ pretty worker_id)), self)
    | Some peer =>
        let client := peer_client (pt_options self) peer in
        (Ok client,
         MkPeerTracker (pt_options self)
           (<[worker_id := MkPeer (peer_host peer) (peer_port peer) (Some client)]>
              (pt_peers self)))
    end.

(** ** Events and effects *)
Section worker.
Context `{DF : DataFusion} `{FC : ForeignCauses} `{DI : !DiskIo}.

Inductive WorkerStreamOwner :=
| OwnerThis
| OwnerWorker (worker_id : N) (schema : Schema).

Inductive WorkerEvent :=
| WvServerReady (port : N) (signal : N)
| WvStartHeartbeat
| WvReportKnownPeers (peer_worker_ids : list N)
| WvRunTask (key : TaskKey) (definition : TaskDefinition) (peers : list WorkerLocation)
| WvStopTask (key : TaskKey)
| WvReportTaskStatus (key : TaskKey) (status : TaskStatus) (message : option string)
    (cause : option CommonErrorCause)
| WvProbePendingLocalStream (key : TaskStreamKey)
| WvCreateLocalStream (key : TaskStreamKey) (storage : LocalStreamStorage) (schema : Schema)
    (result : N)
| WvCreateRemoteStream (uri : string) (key : TaskStreamKey) (schema : Schema) (result : N)
| WvFetchDriverStream (key : TaskStreamKey) (schema : Schema) (result : N)
| WvFetchWorkerStream (owner : WorkerStreamOwner) (key : TaskStreamKey) (result : N)
| WvFetchRemoteStream (uri : string) (key : TaskStreamKey) (schema : Schema) (result : N)
| WvCleanUpJob (job_id : N) (stage : option nat)
| WvShutdown.

(** The tasks the worker spawns. *)
Inductive WorkerSpawned :=
| WsRegister (worker_id : N) (host : string) (port : N)
| WsHeartbeat (worker_id : N) (interval : N)
| WsReportKnownPeers (worker_id : N) (peer_worker_ids : list N)
| WsReportTaskStatus (key : TaskKey) (status : TaskStatus) (message : option string)
    (cause : option CommonErrorCause) (sequence : N)
| WsFetchDriverStream (key : TaskStreamKey) (result : N)
| WsFetchPeerStream (client : ClientOptions) (key : TaskStreamKey) (result : N)
| WsTaskMonitor (key : TaskKey).

Inductive WorkerEffect :=
| WeSend (event : WorkerEvent)
| WeSendWithDelay (event : WorkerEvent) (delay : N)
| WeSpawn (task : WorkerSpawned)
| WeSignal (key : TaskKey)
| WeReply (channel : N) (reply : Reply).

(** The context: the effects so far. *)
Notation WorkerContext := (list WorkerEffect).

(** [StreamManagerMessage for WorkerEvent]. *)
#[global] Instance worker_stream_context : StreamManagerContext WorkerContext :=
  λ ctx key delay, ctx ++ [WeSendWithDelay (WvProbePendingLocalStream key) delay].

(** ** The worker's state *)

(** [wa_signals] is the state of the task runner. *)
Record WorkerActor := MkWorkerActor {
  wa_options : WorkerOptions;
  wa_server : ServerMonitor;
  wa_peer_tracker : PeerTracker;
  wa_signals : gset TaskKey;
  wa_stream_manager : StreamManager;
  wa_sequence : N
}.

Definition worker_new (options : WorkerOptions) : WorkerActor :=
  MkWorkerActor options ServerStopped (peer_tracker_new (peer_tracker_options options)) ∅
    (stream_manager_new (worker_stream_options options)) 42.

Definition worker_start (w : WorkerActor) : WorkerActor :=
  MkWorkerActor (wa_options w) (server_start (wa_server w)) (wa_peer_tracker w) (wa_signals w)
    (wa_stream_manager w) (wa_sequence w).

Definition wa_with_server (w : WorkerActor) (x : ServerMonitor) : WorkerActor :=
  MkWorkerActor (wa_options w) x (wa_peer_tracker w) (wa_signals w) (wa_stream_manager w)
    (wa_sequence w).
Definition wa_with_peers (w : WorkerActor) (x : PeerTracker) : WorkerActor :=
  MkWorkerActor (wa_options w) (wa_server w) x (wa_signals w) (wa_stream_manager w)
    (wa_sequence w).
Definition wa_with_signals (w : WorkerActor) (x : gset TaskKey) : WorkerActor :=
  MkWorkerActor (wa_options w) (wa_server w) (wa_peer_tracker w) x (wa_stream_manager w)
    (wa_sequence w).
Definition wa_with_streams (w : WorkerActor) (x : StreamManager) : WorkerActor :=
  MkWorkerActor (wa_options w) (wa_server w) (wa_peer_tracker w) (wa_signals w) x
    (wa_sequence w).
Definition wa_with_sequence (w : WorkerActor) (x : N) : WorkerActor :=
  MkWorkerActor (wa_options w) (wa_server w) (wa_peer_tracker w) (wa_signals w)
    (wa_stream_manager w) x.

Notation WorkerOutcome := (ActorAction * WorkerActor * WorkerContext)%type.

Definition continue_worker (w : WorkerActor) (ctx : WorkerContext) : WorkerOutcome :=
  (ActorContinue, w, ctx).

(** [PeerTracker::track]. *)
Definition track (self : PeerTracker) (ctx : WorkerContext) (peers : list WorkerLocation)
    : PeerTracker * WorkerContext :=
  match peers with
  | [] => (self, ctx)
  | _ =>
      (MkPeerTracker (pt_options self) (foldl track_peer (pt_peers self) peers),
       ctx ++ [WeSend (WvReportKnownPeers (wl_worker_id <$> peers))])
  end.

(** [TaskRunner::execute_plan] in the session of the worker: decoding, rewriting
    and starting a physical plan. *)
Class WorkerExecutor :=
  worker_execute_plan : TaskKey → TaskDefinition → ExecutionResult unit.
Context `{WE : WorkerExecutor}.

(** [TaskRunner::run_task] and [stop_task] with [T = WorkerActor]. *)
Definition worker_runner_run_task (w : WorkerActor) (ctx : WorkerContext) (key : TaskKey)
    (definition : TaskDefinition) : WorkerActor * WorkerContext :=
  match worker_execute_plan key definition with
  | Err e =>
      (w, ctx ++ [WeSend (WvReportTaskStatus key StatusFailed
             (Some ("failed to execute plan: " +:+ execution_error_display e))
             (Some (cause_of_error e)))])
  | Ok _ =>
      (wa_with_signals w ({[key]} ∪ wa_signals w), ctx ++ [WeSpawn (WsTaskMonitor key)])
  end.

Definition worker_runner_stop_task (w : WorkerActor) (ctx : WorkerContext) (key : TaskKey)
    : WorkerActor * WorkerContext :=
  if decide (key ∈ wa_signals w) then
    (wa_with_signals w (wa_signals w ∖ {[key]}), ctx ++ [WeSignal key])
  else (w, ctx).

(** ** Handlers *)

Definition worker_handle_server_ready (w : WorkerActor) (ctx : WorkerContext) (port signal : N)
    : WorkerOutcome :=
  match server_ready (wa_server w) signal with
  | Err _ => (ActorStop, wa_with_server w ServerStopped, ctx)
  | Ok server =>
      let w := wa_with_server w server in
      let port := if decide (0 < wo_worker_external_port (wa_options w))%N
                  then wo_worker_external_port (wa_options w) else port in
      continue_worker w (ctx ++ [WeSpawn (WsRegister (wo_worker_id (wa_options w))
                                     (wo_worker_external_host (wa_options w)) port)])
  end.

Definition worker_handle_start_heartbeat (w : WorkerActor) (ctx : WorkerContext)
    : WorkerOutcome :=
  continue_worker w (ctx ++ [WeSpawn (WsHeartbeat (wo_worker_id (wa_options w))
                                 (wo_worker_heartbeat_interval (wa_options w)))]).

Definition worker_handle_report_known_peers (w : WorkerActor) (ctx : WorkerContext)
    (peer_worker_ids : list N) : WorkerOutcome :=
  continue_worker w (ctx ++ [WeSpawn (WsReportKnownPeers (wo_worker_id (wa_options w))
                                 peer_worker_ids)]).

Definition worker_handle_run_task (w : WorkerActor) (ctx : WorkerContext) (key : TaskKey)
    (definition : TaskDefinition) (peers : list WorkerLocation) : WorkerOutcome :=
  let '(tracker, ctx) := track (wa_peer_tracker w) ctx peers in
  let '(w, ctx) := worker_runner_run_task (wa_with_peers w tracker) ctx key definition in
  continue_worker w ctx.

Definition worker_handle_stop_task (w : WorkerActor) (ctx : WorkerContext) (key : TaskKey)
    : WorkerOutcome :=
  let '(w, ctx) := worker_runner_stop_task w ctx key in continue_worker w ctx.

(** The report is spawned with retries; [self.sequence] wraps nowhere. *)
Definition worker_handle_report_task_status (w : WorkerActor) (ctx : WorkerContext)
    (key : TaskKey) (status : TaskStatus) (message : option string)
    (cause : option CommonErrorCause) : WorkerOutcome :=
  let sequence := wa_sequence w in
  match checked_add_u64 (wa_sequence w) 1 with
  | None => (ActorStop, w, ctx)
  | Some next =>
      continue_worker (wa_with_sequence w next)
        (ctx ++ [WeSpawn (WsReportTaskStatus key status message cause sequence)])
  end.

Definition worker_handle_probe_pending_local_stream (w : WorkerActor) (ctx : WorkerContext)
    (key : TaskStreamKey) : WorkerOutcome :=
  continue_worker
    (wa_with_streams w (fail_local_stream_if_pending (wa_stream_manager w) key)) ctx.

Definition worker_handle_create_local_stream (w : WorkerActor) (ctx : WorkerContext)
    (key : TaskStreamKey) (storage : LocalStreamStorage) (schema : Schema) (result : N)
    : Run WorkerOutcome :=
  '(r, streams) ← create_local_stream (wa_stream_manager w) key storage schema;
  Returns (continue_worker (wa_with_streams w streams)
             (ctx ++ [WeReply result (ReplySink r)])).

Definition worker_handle_create_remote_stream (w : WorkerActor) (ctx : WorkerContext)
    (uri : string) (key : TaskStreamKey) (schema : Schema) (result : N) : WorkerOutcome :=
  continue_worker w (ctx ++ [WeReply result
    (ReplySink (create_remote_stream (wa_stream_manager w) uri key schema))]).

Definition worker_handle_fetch_driver_stream (w : WorkerActor) (ctx : WorkerContext)
    (key : TaskStreamKey) (schema : Schema) (result : N) : WorkerOutcome :=
  continue_worker w (ctx ++ [WeSpawn (WsFetchDriverStream key result)]).

(** [result.send(self.stream_manager.fetch_local_stream(ctx, &key))]. *)
Definition worker_fetch_local (w : WorkerActor) (ctx : WorkerContext) (key : TaskStreamKey)
    (result : N) : Run WorkerOutcome :=
  '(r, streams, ctx) ← fetch_local_stream (wa_stream_manager w) ctx key;
  Returns (continue_worker (wa_with_streams w streams)
             (ctx ++ [WeReply result (ReplySource r)])).

Definition worker_handle_fetch_worker_stream (w : WorkerActor) (ctx : WorkerContext)
    (owner : WorkerStreamOwner) (key : TaskStreamKey) (result : N) : Run WorkerOutcome :=
  match owner with
  | OwnerThis => worker_fetch_local w ctx key result
  | OwnerWorker worker_id schema =>
      if decide (worker_id = wo_worker_id (wa_options w)) then
        worker_fetch_local w ctx key result
      else
        match peer_get_client_set (wa_peer_tracker w) worker_id with
        | (Err e, tracker) =>
            Returns (continue_worker (wa_with_peers w tracker)
                       (ctx ++ [WeReply result (ReplySource (Err e))]))
        | (Ok client, tracker) =>
            Returns (continue_worker (wa_with_peers w tracker)
                       (ctx ++ [WeSpawn (WsFetchPeerStream client key result)]))
        end
  end.

Definition worker_handle_fetch_remote_stream (w : WorkerActor) (ctx : WorkerContext)
    (uri : string) (key : TaskStreamKey) (schema : Schema) (result : N) : WorkerOutcome :=
  continue_worker w (ctx ++ [WeReply result
    (ReplySource (fetch_remote_stream (wa_stream_manager w) ctx uri key schema))]).

Definition worker_handle_clean_up_job (w : WorkerActor) (ctx : WorkerContext) (job_id : N)
    (stage : option nat) : WorkerOutcome :=
  continue_worker
    (wa_with_streams w (remove_local_streams (wa_stream_manager w) job_id stage)) ctx.

(** [Actor::receive]. *)
Definition worker_receive (w : WorkerActor) (ctx : WorkerContext) (message : WorkerEvent)
    : Run WorkerOutcome :=
  match message with
  | WvServerReady port signal => Returns (worker_handle_server_ready w ctx port signal)
  | WvStartHeartbeat => Returns (worker_handle_start_heartbeat w ctx)
  | WvReportKnownPeers ids => Returns (worker_handle_report_known_peers w ctx ids)
  | WvRunTask key definition peers =>
      Returns (worker_handle_run_task w ctx key definition peers)
  | WvStopTask key => Returns (worker_handle_stop_task w ctx key)
  | WvReportTaskStatus key status message cause =>
      Returns (worker_handle_report_task_status w ctx key status message cause)
  | WvProbePendingLocalStream key =>
      Returns (worker_handle_probe_pending_local_stream w ctx key)
  | WvCreateLocalStream key storage schema result =>
      worker_handle_create_local_stream w ctx key storage schema result
  | WvCreateRemoteStream uri key schema result =>
      Returns (worker_handle_create_remote_stream w ctx uri key schema result)
  | WvFetchDriverStream key schema result =>
      Returns (worker_handle_fetch_driver_stream w ctx key schema result)
  | WvFetchWorkerStream owner key result =>
      worker_handle_fetch_worker_stream w ctx owner key result
  | WvFetchRemoteStream uri key schema result =>
      Returns (worker_handle_fetch_remote_stream w ctx uri key schema result)
  | WvCleanUpJob job_id stage => Returns (worker_handle_clean_up_job w ctx job_id stage)
  | WvShutdown => Returns (ActorStop, w, ctx)
  end.

(** [Actor::stop] stops the server. *)
Definition worker_stop (w : WorkerActor) : WorkerActor := wa_with_server w ServerStopped.

(** ** Spawned tasks

    What the worker receives from a spawned task when it ends. *)

(** After the retries of the registration; the mailbox accepts the messages as
    long as the actor runs. *)
Definition register_events (outcome : ExecutionResult unit) : list WorkerEvent :=
  match outcome with
  | Ok _ => [WvStartHeartbeat]
  | Err _ => [WvShutdown; WvStartHeartbeat]
  end.

(** After the retries of a status report. *)
Definition report_events (outcome : ExecutionResult unit) : list WorkerEvent :=
  match outcome with
  | Ok _ => []
  | Err _ => [WvShutdown]
  end.

(** [TaskMonitor::execute] on the items polled so far: [None] while it waits. *)
Fixpoint monitor_execute (key : TaskKey) (items : list (Result ForeignError RecordBatch))
    (ended : bool) : option WorkerEvent :=
  match items with
  | [] => if ended then Some (WvReportTaskStatus key StatusSucceeded None None) else None
  | Ok _ :: items => monitor_execute key items ended
  | Err e :: _ =>
      Some (WvReportTaskStatus key StatusFailed (Some ("task error: " +:+ foreign_display e))
              (Some (foreign_cause e)))
  end.

(** [TaskMonitor::cancel]. *)
Definition monitor_cancel (key : TaskKey) : WorkerEvent :=
  WvReportTaskStatus key StatusCanceled (Some (task_key_display key +:+ " canceled")) None.

(** [TaskMonitor::run]: the running report comes first; [select!] then takes
    either branch that is ready. *)
Inductive monitor_run (key : TaskKey) (items : list (Result ForeignError RecordBatch))
    (ended signalled : bool) : list WorkerEvent → Prop :=
| MonitorExecuted event : monitor_execute key items ended = Some event →
    monitor_run key items ended signalled
      [WvReportTaskStatus key StatusRunning None None; event]
| MonitorCanceled : signalled = true →
    monitor_run key items ended signalled
      [WvReportTaskStatus key StatusRunning None None; monitor_cancel key].
End worker.
Notation WorkerContext := (list WorkerEffect).
Notation WorkerOutcome := (ActorAction * WorkerActor * WorkerContext)%type.
