(* ===== verification/WorkerTheorems.v ===== *)
(** * Guarantees of the worker

    Over every history of the messages the worker receives, interleaved with
    the readers and writers of its streams. *)

From S2P Require Import Prelude Ids JobGraph JobState Streams StreamTheorems Actor StreamManager StreamManagerTheorems Worker.

Section theorems.
Context `{DF : DataFusion} `{FC : ForeignCauses} `{DI : !DiskIo} `{WE : !WorkerExecutor}.

(** ** Reachable workers *)

(** The worker, its context, and the messages it has handled. *)
Inductive worker_reachable (options : WorkerOptions)
    : WorkerActor → WorkerContext → list WorkerEvent → Prop :=
| WorkerInitial : worker_reachable options (worker_start (worker_new options)) [] []
| WorkerReceive w ctx hist m w' ctx' :
    worker_reachable options w ctx hist →
    worker_receive w ctx m = Returns (ActorContinue, w', ctx') →
    worker_reachable options w' ctx' (hist ++ [m])
| WorkerChannels w ctx hist chs :
    worker_reachable options w ctx hist → channels_move (wa_stream_manager w) chs →
    worker_reachable options
      (wa_with_streams w (MkStreamManager (sm_options (wa_stream_manager w))
         (sm_local_streams (wa_stream_manager w)) chs)) ctx hist.

Record worker_inv (options : WorkerOptions) (w : WorkerActor) : Prop := {
  wi_options : wa_options w = options;
  wi_tracker : pt_options (wa_peer_tracker w) = peer_tracker_options options;
  wi_stream_options : sm_options (wa_stream_manager w) = worker_stream_options options;
  wi_streams : manager_wf (wa_stream_manager w)
}.

(** A handler that leaves the streams, the tracker and the sequence alone, or
    changes them one at a time. *)
Lemma worker_inv_server options w s : worker_inv options w → worker_inv options (wa_with_server w s).
Proof. by intros [? ? ? ?]; split. Qed.
Lemma worker_inv_signals options w s : worker_inv options w → worker_inv options (wa_with_signals w s).
Proof. by intros [? ? ? ?]; split. Qed.
Lemma worker_inv_sequence options w n : worker_inv options w → worker_inv options (wa_with_sequence w n).
Proof. by intros [? ? ? ?]; split. Qed.
Lemma worker_inv_peers options w t :
  pt_options t = pt_options (wa_peer_tracker w) → worker_inv options w →
  worker_inv options (wa_with_peers w t).
Proof. intros Ht [? ? ? ?]. split; try done. simpl. by rewrite Ht. Qed.
Lemma worker_inv_streams options w s :
  manager_wf s → sm_options s = sm_options (wa_stream_manager w) → worker_inv options w →
  worker_inv options (wa_with_streams w s).
Proof. intros Hw Hs [? ? ? ?]. split; try done. simpl. by rewrite Hs. Qed.
Create HintDb worker.
#[local] Hint Resolve worker_inv_server worker_inv_signals worker_inv_sequence worker_inv_peers
  worker_inv_streams : worker.

Lemma track_options self ctx peers : pt_options (track self ctx peers).1 = pt_options self.
Proof. by destruct peers. Qed.

Lemma get_client_set_options self id :
  pt_options (peer_get_client_set self id).2 = pt_options self.
Proof. unfold peer_get_client_set. by repeat case_match. Qed.

Lemma total_worker_fetch_local options w ctx key result :
  0 < wo_task_stream_buffer options → worker_inv options w →
  worker_fetch_local w ctx key result ⇓ (λ o, worker_inv options o.1.2 ∧ o.1.1 = ActorContinue).
Proof.
  intros Hb Hi. apply total_bind.
  eapply total_mono; [apply total_fetch_local_stream;
    [by rewrite (wi_stream_options _ _ Hi)|apply Hi]|].
  intros [[r s] ctx'] (Hw & Ho & _). simpl. split; [|done]. by apply worker_inv_streams.
Qed.

(** When a message stops the worker. *)
Definition stops (w : WorkerActor) (m : WorkerEvent) : Prop :=
  match m with
  | WvShutdown => True
  | WvServerReady _ _ => wa_server w ≠ ServerPending
  | WvReportTaskStatus _ _ _ _ => checked_add_u64 (wa_sequence w) 1 = None
  | _ => False
  end.

Lemma worker_receive_inv options w ctx m :
  0 < wo_task_stream_buffer options → worker_inv options w →
  worker_receive w ctx m ⇓ (λ '(action, w', _),
    worker_inv options w' ∧ (action = ActorStop ↔ stops w m)).
Proof.
  intros Hb Hi.
  assert (0 < smo_task_stream_buffer (sm_options (wa_stream_manager w))) as Hb'
    by (by rewrite (wi_stream_options _ _ Hi)).
  pose proof (wi_streams _ _ Hi) as Hw.
  destruct m as [port signal| |ids|key definition peers|key|key status message cause|key|
    key storage schema result|uri key schema result|key schema result|owner key result|
    uri key schema result|job_id stage|]; cbn [worker_receive]; try (by split; [|split]).
  - simpl. unfold worker_handle_server_ready, server_ready.
    destruct (wa_server w); simpl; split; auto with worker; naive_solver.
  - simpl. unfold worker_handle_run_task, worker_runner_run_task.
    pose proof (track_options (wa_peer_tracker w) ctx peers) as Ht.
    destruct (track _ _ _) as [t ctx']. simpl in *.
    destruct (worker_execute_plan _ _); simpl; split; auto with worker; by split.
  - simpl. unfold worker_handle_stop_task, worker_runner_stop_task.
    case_decide; simpl; split; auto with worker; by split.
  - simpl. unfold worker_handle_report_task_status.
    destruct (checked_add_u64 _ _); simpl; split; auto with worker; by split.
  - simpl. split; [|by split]. apply worker_inv_streams; [by apply fail_local_stream_wf| |done].
    unfold fail_local_stream_if_pending. by destruct (sm_local_streams _ !! key) as [[]|].
  - apply total_bind. eapply total_mono; [by apply total_create_local_stream|].
    intros [r s] (? & ? & _). simpl. split; [by apply worker_inv_streams|by split].
  - unfold worker_handle_fetch_worker_stream.
    assert (worker_fetch_local w ctx key result ⇓ (λ '(action, w', _),
      worker_inv options w' ∧ (action = ActorStop ↔ False))) as Hf.
    { eapply total_mono; [by apply total_worker_fetch_local|].
      intros [[a w'] ctx'] [? Ha]. simpl in *. subst a. split; [done|by split]. }
    destruct owner as [|id schema]; [done|]. case_decide; [done|].
    pose proof (get_client_set_options (wa_peer_tracker w) id) as Hg.
    destruct (peer_get_client_set _ _) as [[client|e] t]; simpl in *; split; auto with worker;
      by split.
  - simpl. split; [|by split]. apply worker_inv_streams; [|done|done].
    apply (manager_wf_shrink (wa_stream_manager w)); try done.
    intros key st Hl%remove_lookup. apply Hl.
Qed.

Lemma worker_reachable_inv options w ctx hist :
  0 < wo_task_stream_buffer options → worker_reachable options w ctx hist → worker_inv options w.
Proof.
  intros Hb. induction 1 as [|w ctx hist m w' ctx' _ IH Hm|w ctx hist chs _ IH Hc].
  - split; try done. apply manager_wf_new.
  - by destruct (returns_total _ _ _ Hm (worker_receive_inv _ _ _ m Hb IH)).
  - apply worker_inv_streams; [|done|done]. by apply manager_wf_channels, IH.
Qed.

(** C36. With a positive channel buffer the worker never panics and every handler
    returns, in every reachable state and for every message; its options and
    its streams stay consistent, and it goes on unless it is shut down, its
    server becomes ready out of turn, or its sequence numbers are used up. *)
Theorem worker_total options w ctx hist m :
  0 < wo_task_stream_buffer options → worker_reachable options w ctx hist →
  worker_receive w ctx m ⇓ (λ '(action, w', _),
    worker_inv options w' ∧ (action = ActorStop ↔ stops w m)).
Proof. intros Hb Hr. apply worker_receive_inv; [done|]. by eapply worker_reachable_inv. Qed.

(** ** Status reports *)

Definition StatusReport : Type :=
  TaskKey * TaskStatus * option string * option CommonErrorCause.

(** The reports among the messages the worker has handled. *)
Definition handled_reports (hist : list WorkerEvent) : list StatusReport :=
  omap (λ m, match m with
             | WvReportTaskStatus key status message cause => Some (key, status, message, cause)
             | _ => None
             end) hist.

(** The reports the worker sends to the driver, with their sequence numbers. *)
Definition sent_reports (ctx : WorkerContext) : list (StatusReport * N) :=
  omap (λ e, match e with
             | WeSpawn (WsReportTaskStatus key status message cause sequence) =>
                 Some ((key, status, message, cause), sequence)
             | _ => None
             end) ctx.

(** What one message adds to the context and to the tracker. *)
Definition received (w : WorkerActor) (m : WorkerEvent) (w' : WorkerActor)
    (es : list WorkerEffect) : Prop :=
  wa_options w' = wa_options w ∧
  sent_reports es = imap (λ i r, (r, wa_sequence w + N.of_nat i)%N) (handled_reports [m]) ∧
  wa_sequence w' = (wa_sequence w + N.of_nat (length (handled_reports [m])))%N ∧
  (∀ ids, WeSend (WvReportKnownPeers ids) ∈ es →
     ∃ key definition peers, m = WvRunTask key definition peers ∧ ids = wl_worker_id <$> peers) ∧
  (∀ id ids, WeSpawn (WsReportKnownPeers id ids) ∈ es →
     id = wo_worker_id (wa_options w) ∧ m = WvReportKnownPeers ids) ∧
  match m with
  | WvRunTask _ _ peers =>
      wa_peer_tracker w' = MkPeerTracker (pt_options (wa_peer_tracker w))
        (foldl track_peer (pt_peers (wa_peer_tracker w)) peers)
  | WvFetchWorkerStream (OwnerWorker id _) _ _ =>
      wa_peer_tracker w' = wa_peer_tracker w ∨
      wa_peer_tracker w' = (peer_get_client_set (wa_peer_tracker w) id).2
  | _ => wa_peer_tracker w' = wa_peer_tracker w
  end.

Lemma fetch_context_extends s ctx key r s' ctx' :
  fetch_local_stream s ctx key = Returns (r, s', ctx') →
  ctx' = ctx ∨ ∃ delay, ctx' = ctx ++ [WeSendWithDelay (WvProbePendingLocalStream key) delay].
Proof.
  unfold fetch_local_stream.
  destruct (sm_local_streams s !! key) as [[senders|stream|cause]|]; intros Hf.
  - apply bind_returns in Hf as ([c chs] & _ & Hf). simplify_eq. auto.
  - apply bind_returns in Hf as ([[r0 s0] chs] & _ & Hf). simplify_eq. auto.
  - simplify_eq. auto.
  - apply bind_returns in Hf as ([c chs] & _ & Hf). simplify_eq. right. by eexists.
Qed.

Lemma worker_fetch_received w ctx key result w' ctx' :
  worker_fetch_local w ctx key result = Returns (ActorContinue, w', ctx') →
  ∃ es, ctx' = ctx ++ es ∧ wa_options w' = wa_options w ∧ wa_sequence w' = wa_sequence w ∧
    wa_peer_tracker w' = wa_peer_tracker w ∧ sent_reports es = [] ∧
    (∀ ids, WeSend (WvReportKnownPeers ids) ∉ es) ∧
    (∀ id ids, WeSpawn (WsReportKnownPeers id ids) ∉ es).
Proof.
  intros Hf. apply bind_returns in Hf as ([[r s] ctx1] & Hf & [= <- <-]).
  apply fetch_context_extends in Hf as [->|[delay ->]]; simpl.
  - eexists. split_and!; [done..| |]; intros; set_solver.
  - rewrite <-app_assoc. eexists. split_and!; [done..| |]; intros; set_solver.
Qed.

(** A handler that reports nothing and leaves the tracker alone. *)
Lemma received_plain w m w' es :
  handled_reports [m] = [] → sent_reports es = [] →
  wa_options w' = wa_options w → wa_sequence w' = wa_sequence w →
  wa_peer_tracker w' = wa_peer_tracker w →
  (∀ ids, WeSend (WvReportKnownPeers ids) ∉ es) →
  (∀ id ids, WeSpawn (WsReportKnownPeers id ids) ∉ es) →
  match m with WvRunTask _ _ _ => False | _ => True end →
  received w m w' es.
Proof.
  intros Hh Hs Ho Hq Ht H1 H2 Hm. unfold received. rewrite Hh, Hs, Hq. simpl.
  split_and!; [done|done|lia|naive_solver|naive_solver|].
  destruct m as [| | | | | | | | | |[]| | |]; try done. by left.
Qed.

#[local] Ltac plain es :=
  exists es; split; [by rewrite ?app_nil_r|apply received_plain; (done || set_solver)].

Lemma track_spec self ctx peers :
  ∃ es, (track self ctx peers).2 = ctx ++ es ∧ sent_reports es = [] ∧
    (track self ctx peers).1 =
      MkPeerTracker (pt_options self) (foldl track_peer (pt_peers self) peers) ∧
    (∀ ids, WeSend (WvReportKnownPeers ids) ∈ es → ids = wl_worker_id <$> peers) ∧
    (∀ id ids, WeSpawn (WsReportKnownPeers id ids) ∉ es).
Proof.
  destruct peers as [|x peers].
  - exists []. rewrite app_nil_r. split_and!; [done|done|by destruct self|set_solver|set_solver].
  - eexists. split_and!; [done|done|done| |set_solver].
    by intros ids [= ->]%list_elem_of_singleton.
Qed.

Lemma run_task_received w ctx key definition peers w' ctx' :
  worker_handle_run_task w ctx key definition peers = (ActorContinue, w', ctx') →
  ∃ es, ctx' = ctx ++ es ∧ received w (WvRunTask key definition peers) w' es.
Proof.
  unfold worker_handle_run_task, worker_runner_run_task, received. intros Hr.
  destruct (track_spec (wa_peer_tracker w) ctx peers) as (es & H1 & H2 & H3 & H4 & H5).
  destruct (track _ _ _) as [t ctx1]. simpl in *. subst.
  destruct (worker_execute_plan key definition) as [|e]; injection Hr as <- <-;
    rewrite <-app_assoc; (eexists; split; [done|]); simpl;
    unfold sent_reports in *; rewrite omap_app, H2;
    (split_and!; [done|done|lia| |set_solver|done]);
    (intros ids [Hin|Hin]%elem_of_app; [eauto 6|]); by apply list_elem_of_singleton in Hin.
Qed.

Lemma worker_receive_received w ctx m w' ctx' :
  worker_receive w ctx m = Returns (ActorContinue, w', ctx') →
  ∃ es, ctx' = ctx ++ es ∧ received w m w' es.
Proof.
  destruct m as [port signal| |ids|key definition peers|key|key status message cause|key|
    key storage schema result|uri key schema result|key schema result|owner key result|
    uri key schema result|job_id stage|]; cbn [worker_receive]; intros Hr.
  - unfold worker_handle_server_ready in Hr. destruct (server_ready _ _); simplify_eq.
    eexists. split; [done|]. apply received_plain; (done || set_solver).
  - simplify_eq. eexists. split; [done|]. apply received_plain; (done || set_solver).
  - simplify_eq. eexists. split; [done|]. unfold received. simpl.
    split_and!; [done|done|lia|set_solver| |done].
    intros id ids' [= -> ->]%list_elem_of_singleton. done.
  - injection Hr as Hr. by eapply run_task_received.
  - unfold worker_handle_stop_task, worker_runner_stop_task in Hr.
    case_decide; simplify_eq; [|plain (@nil WorkerEffect)].
    eexists. split; [done|]. apply received_plain; (done || set_solver).
  - unfold worker_handle_report_task_status in Hr.
    destruct (checked_add_u64 _ _) eqn:Hq; simplify_eq. eexists. split; [done|].
    unfold received. simpl. rewrite N.add_0_r.
    split_and!; [done|done| |set_solver|set_solver|done].
    unfold checked_add_u64 in Hq. case_decide; by simplify_eq.
  - simplify_eq. plain (@nil WorkerEffect).
  - apply bind_returns in Hr as ([r s] & _ & [= <- <-]). eexists. split; [done|].
    apply received_plain; (done || set_solver).
  - simplify_eq. eexists. split; [done|]. apply received_plain; (done || set_solver).
  - simplify_eq. eexists. split; [done|]. apply received_plain; (done || set_solver).
  - unfold worker_handle_fetch_worker_stream in Hr.
    assert (worker_fetch_local w ctx key result = Returns (ActorContinue, w', ctx') →
      ∃ es, ctx' = ctx ++ es ∧ received w (WvFetchWorkerStream owner key result) w' es) as Hf.
    { intros (es & -> & ? & ? & ? & ? & ? & ?)%worker_fetch_received. exists es.
      split; [done|]. by apply received_plain. }
    destruct owner as [|id schema]; [auto|]. case_decide; [auto|].
    destruct (peer_get_client_set _ _) as [[client|e] t] eqn:Hg; simplify_eq;
      (eexists; split; [done|]); unfold received; simpl; rewrite Hg;
      (split_and!; [done|done|lia|set_solver|set_solver|by right]).
  - simplify_eq. eexists. split; [done|]. apply received_plain; (done || set_solver).
  - simplify_eq. plain (@nil WorkerEffect).
  - done.
Qed.

Lemma worker_reports options w ctx hist :
  worker_reachable options w ctx hist →
  sent_reports ctx = imap (λ i r, (r, 42 + N.of_nat i)%N) (handled_reports hist) ∧
  wa_sequence w = (42 + N.of_nat (length (handled_reports hist)))%N.
Proof.
  induction 1 as [|w ctx hist m w' ctx' _ [IHs IHq] Hm|w ctx hist chs _ IH Hc]; [done| |done].
  apply worker_receive_received in Hm as (es & -> & _ & Hs & Hq & _).
  unfold sent_reports, handled_reports in *. rewrite !omap_app, imap_app, length_app, IHs.
  split; [|rewrite Hq, IHq, Nat2N.inj_add, N.add_assoc; done]. f_equal. rewrite Hs. apply imap_ext. intros i r _.
  simpl. f_equal. rewrite IHq. lia.
Qed.

(** Reports leave in the order in which they were handled, and their sequence
    numbers grow. *)
Lemma worker_reports_sorted options w ctx hist i j ri rj qi qj :
  worker_reachable options w ctx hist →
  sent_reports ctx !! i = Some (ri, qi) → sent_reports ctx !! j = Some (rj, qj) →
  i < j ↔ (qi < qj)%N.
Proof.
  intros [Hs _]%worker_reports Hi Hj. rewrite Hs in Hi, Hj.
  apply list_lookup_imap_Some in Hi as (? & _ & [= -> ->]).
  apply list_lookup_imap_Some in Hj as (? & _ & [= -> ->]). lia.
Qed.
End theorems.
