(* ===== verification/Rpc.v ===== *)
(** * Requests between the driver and the workers

    The gRPC clients and servers of [crates/zelox-execution/src/worker/client.rs],
    [worker/server.rs], [driver/client.rs] and [driver/server.rs], the conversions
    of [worker/event.rs] and [driver/event.rs] they use, and the tickets of
    [stream_service/{client,server}.rs].  A client method builds a request; a
    server method turns the request it receives into an event for its actor, or
    refuses it.  The transport is outside the model. *)

From S2P Require Import Prelude Ids JobGraph JobState Streams Actor TaskCodec Worker.

(** ** The wire *)

(** [TaskStreamTicket] of [proto/zelox/stream/stream.proto]. *)
Record TaskStreamTicket := MkTaskStreamTicket {
  tt_job_id : N; tt_stage : N; tt_partition : N; tt_attempt : N; tt_channel : N
}.

(** The prost encoding of messages and the serde encoding of error causes. *)
Class WireFormat := {
  encode_definition : gen.TaskDefinition → list Byte.byte;
  decode_definition : list Byte.byte → Result ForeignError gen.TaskDefinition;
  encode_ticket : TaskStreamTicket → list Byte.byte;
  decode_ticket : list Byte.byte → Result ForeignError TaskStreamTicket;
  cause_to_json : CommonErrorCause → Result ForeignError string;
  cause_from_json : string → Result ForeignError CommonErrorCause
}.

(** What is encoded can be decoded. *)
Class WireFormatLaws (W : WireFormat) := {
  decode_encode_definition g : decode_definition (encode_definition g) = Ok g;
  decode_encode_ticket t : decode_ticket (encode_ticket t) = Ok t;
  json_cause c s : cause_to_json c = Ok s → cause_from_json s = Ok c
}.

(** [tonic::Status]. *)
Inductive RpcStatus :=
| RpcInvalidArgument (message : string)
| RpcInternal (message : string)
| RpcForeign (e : ForeignError).

(** [From<ExecutionError> for tonic::Status]. *)
Definition status_of_error (e : ExecutionError) : RpcStatus :=
  match e with
  | TonicStatusError e => RpcForeign e
  | x => RpcInternal (execution_error_display x)
  end.

(** The [?] of a server method on an [ExecutionResult]. *)
Definition serve {A} (r : ExecutionResult A) : Result RpcStatus A :=
  match r with Ok a => Ok a | Err e => Err (status_of_error e) end.

(** ** Messages *)

Record GenWorkerLocation := MkGenWorkerLocation {
  gl_worker_id : N; gl_host : string; gl_port : N
}.
Record RunTaskRequest := MkRunTaskRequest {
  rt_job_id : N; rt_stage : N; rt_partition : N; rt_attempt : N;
  rt_definition : list Byte.byte; rt_peers : list GenWorkerLocation
}.
Record StopTaskRequest := MkStopTaskRequest {
  st_job_id : N; st_stage : N; st_partition : N; st_attempt : N
}.
Record CleanUpJobRequest := MkCleanUpJobRequest { cj_job_id : N; cj_stage : option N }.
Record RegisterWorkerRequest := MkRegisterWorkerRequest {
  rw_worker_id : N; rw_host : string; rw_port : N
}.
Record ReportWorkerKnownPeersRequest := MkReportWorkerKnownPeersRequest {
  kp_worker_id : N; kp_peer_worker_ids : list N
}.
Record ReportTaskStatusRequest := MkReportTaskStatusRequest {
  ts_req_job_id : N; ts_req_stage : N; ts_req_partition : N; ts_req_attempt : N;
  ts_req_status : Z; ts_req_message : option string; ts_req_cause : option string;
  ts_req_sequence : N
}.

(** [u16::try_from] on a [u32]. *)
Definition u16_try_from (n : N) : option N :=
  if decide (n < 65536)%N then Some n else None.

Section rpc.
Context `{DF : DataFusion} `{T : Target} `{W : WireFormat}.

(** [From<WorkerLocation>] and [TryFrom<gen::WorkerLocation>]. *)
Definition location_to_gen (l : WorkerLocation) : GenWorkerLocation :=
  MkGenWorkerLocation (wl_worker_id l) (wl_host l) (wl_port l).
Definition location_try_from (g : GenWorkerLocation) : ExecutionResult WorkerLocation :=
  match u16_try_from (gl_port g) with
  | Some port => Ok (MkWorkerLocation (gl_worker_id g) (gl_host g) port)
  | None => Err (InvalidArgument ("invalid port: " +:+ pretty (gl_port g)))
  end.

(** [From<TaskStatus> for gen::TaskStatus], as an [i32], and back. *)
Definition status_to_gen (s : TaskStatus) : Z :=
  match s with
  | StatusRunning => 0 | StatusSucceeded => 1 | StatusFailed => 2 | StatusCanceled => 3
  end%Z.
Definition status_try_from (z : Z) : ExecutionResult TaskStatus :=
  match z with
  | 0 => Ok StatusRunning
  | 1 => Ok StatusSucceeded
  | 2 => Ok StatusFailed
  | 3 => Ok StatusCanceled
  | _ => Err (InvalidArgument ("unknown enumeration value " +:+ pretty z))
  end%Z.

(** The key in a request. *)
Definition request_key (job_id stage partition attempt : N) : TaskKey :=
  MkTaskKey job_id (u64_as_usize stage) (u64_as_usize partition) (u64_as_usize attempt).

(** ** The worker's client and server *)

Definition client_run_task (key : TaskKey) (definition : TaskDefinition)
    (peers : list WorkerLocation) : RunTaskRequest :=
  MkRunTaskRequest (tk_job_id key) (usize_as_u64 (tk_stage key))
    (usize_as_u64 (tk_partition key)) (usize_as_u64 (tk_attempt key))
    (encode_definition (to_gen definition)) (location_to_gen <$> peers).

Definition server_run_task (r : RunTaskRequest) : Result RpcStatus WorkerEvent :=
  peers ← serve (collect_results (location_try_from <$> rt_peers r));
  match decode_definition (rt_definition r) with
  | Err e => Err (RpcInvalidArgument ("invalid task definition: " +:+ foreign_display e))
  | Ok g =>
      definition ← serve (try_from (A:=TaskDefinition) g);
      Ok (WvRunTask (request_key (rt_job_id r) (rt_stage r) (rt_partition r) (rt_attempt r))
            definition peers)
  end.

Definition client_stop_task (key : TaskKey) : StopTaskRequest :=
  MkStopTaskRequest (tk_job_id key) (usize_as_u64 (tk_stage key))
    (usize_as_u64 (tk_partition key)) (usize_as_u64 (tk_attempt key)).

Definition server_stop_task (r : StopTaskRequest) : Result RpcStatus WorkerEvent :=
  Ok (WvStopTask (request_key (st_job_id r) (st_stage r) (st_partition r) (st_attempt r))).

Definition client_clean_up_job (job_id : N) (stage : option nat) : CleanUpJobRequest :=
  MkCleanUpJobRequest job_id (usize_as_u64 <$> stage).

Definition server_clean_up_job (r : CleanUpJobRequest) : Result RpcStatus WorkerEvent :=
  Ok (WvCleanUpJob (cj_job_id r) (u64_as_usize <$> cj_stage r)).

Definition server_stop_worker : Result RpcStatus WorkerEvent := Ok WvShutdown.

(** ** The driver's client and server *)

Definition client_register_worker (worker_id : N) (host : string) (port : N)
    : RegisterWorkerRequest := MkRegisterWorkerRequest worker_id host port.

(** [result] is the reply channel the server makes. *)
Definition server_register_worker (r : RegisterWorkerRequest) (result : N)
    : Result RpcStatus DriverEvent :=
  match u16_try_from (rw_port r) with
  | Some port => Ok (EvRegisterWorker (rw_worker_id r) (rw_host r) port result)
  | None => Err (RpcInvalidArgument "port must be a valid 16-bit unsigned integer")
  end.

Definition server_report_worker_heartbeat (worker_id : N) : Result RpcStatus DriverEvent :=
  Ok (EvWorkerHeartbeat worker_id).

Definition client_report_worker_known_peers (worker_id : N) (peer_worker_ids : list N)
    : ReportWorkerKnownPeersRequest := MkReportWorkerKnownPeersRequest worker_id peer_worker_ids.

Definition server_report_worker_known_peers (r : ReportWorkerKnownPeersRequest)
    : Result RpcStatus DriverEvent :=
  Ok (EvWorkerKnownPeers (kp_worker_id r) (kp_peer_worker_ids r)).

Definition client_report_task_status (key : TaskKey) (status : TaskStatus)
    (message : option string) (cause : option CommonErrorCause) (sequence : N)
    : ExecutionResult ReportTaskStatusRequest :=
  cause ← match cause with
          | None => Ok None
          | Some x =>
              match cause_to_json x with
              | Ok s => Ok (Some s)
              | Err e => Err (InternalError
                           ("failed to serialize cause: " +:+ foreign_display e))
              end
          end;
  Ok (MkReportTaskStatusRequest (tk_job_id key) (usize_as_u64 (tk_stage key))
        (usize_as_u64 (tk_partition key)) (usize_as_u64 (tk_attempt key))
        (status_to_gen status) message cause sequence).

Definition server_report_task_status (r : ReportTaskStatusRequest)
    : Result RpcStatus DriverEvent :=
  status ← serve (status_try_from (ts_req_status r));
  cause ← match ts_req_cause r with
          | None => Ok None
          | Some s =>
              match cause_from_json s with
              | Ok c => Ok (Some c)
              | Err e => Err (status_of_error (JsonError e))
              end
          end;
  Ok (EvUpdateTask (request_key (ts_req_job_id r) (ts_req_stage r) (ts_req_partition r)
                      (ts_req_attempt r))
        status (ts_req_message r) cause (Some (ts_req_sequence r))).

(** ** Stream tickets *)

Definition ticket_of_key (key : TaskStreamKey) : list Byte.byte :=
  encode_ticket (MkTaskStreamTicket (ts_job_id key) (usize_as_u64 (ts_stage key))
    (usize_as_u64 (ts_partition key)) (usize_as_u64 (ts_attempt key))
    (usize_as_u64 (ts_channel key))).

(** The key [do_get] asks its actor for. *)
Definition key_of_ticket (ticket : list Byte.byte) : Result RpcStatus TaskStreamKey :=
  match decode_ticket ticket with
  | Err e => Err (RpcInvalidArgument (foreign_display e))
  | Ok t =>
      Ok (MkTaskStreamKey (tt_job_id t) (u64_as_usize (tt_stage t))
            (u64_as_usize (tt_partition t)) (u64_as_usize (tt_attempt t))
            (u64_as_usize (tt_channel t)))
  end.

(** ** Guarantees *)

Definition task_key_fits (key : TaskKey) : Prop :=
  is_usize (tk_stage key) ∧ is_usize (tk_partition key) ∧ is_usize (tk_attempt key).
Definition stream_key_fits (key : TaskStreamKey) : Prop :=
  is_usize (ts_stage key) ∧ is_usize (ts_partition key) ∧ is_usize (ts_attempt key) ∧
  is_usize (ts_channel key).
Definition location_fits (l : WorkerLocation) : Prop := (wl_port l < 65536)%N.

Context `{TL : !TargetLaws T} `{WL : !WireFormatLaws W}.

Lemma request_key_back key : task_key_fits key →
  request_key (tk_job_id key) (usize_as_u64 (tk_stage key)) (usize_as_u64 (tk_partition key))
    (usize_as_u64 (tk_attempt key)) = key.
Proof.
  intros (H1 & H2 & H3). unfold request_key. rewrite !usize_cast_back by done. by destruct key.
Qed.

Lemma locations_back peers : Forall location_fits peers →
  collect_results (location_try_from <$> (location_to_gen <$> peers)) = Ok peers.
Proof.
  intros Hp. rewrite <-list_fmap_compose, (collect_results_fmap _ id), list_fmap_id; [done|].
  intros l Hl. rewrite Forall_forall in Hp. specialize (Hp l Hl). unfold location_fits in Hp.
  simpl. unfold location_try_from, u16_try_from. simpl. rewrite decide_True by done.
  by destruct l.
Qed.

(** What the driver asks of a worker arrives unchanged: the worker's server
    hands its actor the task with the same key, the same definition and the
    same peers that the driver's client was given, and likewise the task to
    stop, the job and stage to clean up, and the stream to read; with indices
    and ports in the range of their types nothing is refused and nothing is
    truncated. *)
Theorem worker_requests_arrive key definition peers job_id stage stream_key :
  task_key_fits key → fits (G:=gen.TaskDefinition) definition → Forall location_fits peers →
  from_option is_usize True stage → stream_key_fits stream_key →
  server_run_task (client_run_task key definition peers) =
    Ok (WvRunTask key definition peers) ∧
  server_stop_task (client_stop_task key) = Ok (WvStopTask key) ∧
  server_clean_up_job (client_clean_up_job job_id stage) = Ok (WvCleanUpJob job_id stage) ∧
  key_of_ticket (ticket_of_key stream_key) = Ok stream_key.
Proof.
  intros Hk Hd Hp Hs Hsk. split_and!.
  - unfold server_run_task, client_run_task. simpl. rewrite locations_back by done. simpl.
    pose proof (try_from_to_gen (W:=definition_codec) definition Hd) as Hdef. simpl in Hdef.
    rewrite decode_encode_definition, Hdef. simpl. by rewrite request_key_back.
  - unfold server_stop_task, client_stop_task. simpl. by rewrite request_key_back.
  - unfold server_clean_up_job, client_clean_up_job. simpl. do 2 f_equal.
    destruct stage as [s|]; [|done]. simpl in *. by rewrite usize_cast_back.
  - unfold key_of_ticket, ticket_of_key. rewrite decode_encode_ticket. simpl.
    destruct Hsk as (? & ? & ? & ?). rewrite !usize_cast_back by done. by destruct stream_key.
Qed.

(** What a worker reports to the driver arrives unchanged: its registration,
    its known peers, and its status reports with their causes and sequence
    numbers; a request from elsewhere is refused exactly when its port is not
    a 16-bit number, its status is not one of the four, or its cause is not
    the encoding of one. *)
Theorem driver_requests_arrive :
  (∀ worker_id host port result, (port < 65536)%N →
     server_register_worker (client_register_worker worker_id host port) result =
       Ok (EvRegisterWorker worker_id host port result)) ∧
  (∀ worker_id ids, server_report_worker_known_peers
       (client_report_worker_known_peers worker_id ids) = Ok (EvWorkerKnownPeers worker_id ids)) ∧
  (∀ key status message cause sequence r, task_key_fits key →
     client_report_task_status key status message cause sequence = Ok r →
     server_report_task_status r =
       Ok (EvUpdateTask key status message cause (Some sequence))) ∧
  (∀ r result, is_ok (server_register_worker r result) = true ↔ (rw_port r < 65536)%N) ∧
  (∀ r, is_ok (server_report_task_status r) = true ↔
     (0 ≤ ts_req_status r ≤ 3)%Z ∧
     from_option (λ s, is_ok (cause_from_json s) = true) True (ts_req_cause r)).
Proof.
  split_and!.
  - intros id host port result Hp. unfold server_register_worker, u16_try_from. simpl.
    by rewrite decide_True.
  - done.
  - intros key status message cause sequence r Hk Hr. unfold client_report_task_status in Hr.
    destruct cause as [c|]; simpl in Hr.
    + destruct (cause_to_json c) as [s|e] eqn:Hj; simpl in Hr; [|done]. injection Hr as <-.
      unfold server_report_task_status. simpl. rewrite (json_cause _ _ Hj).
      rewrite request_key_back by done. by destruct status.
    + injection Hr as <-. unfold server_report_task_status. simpl.
      rewrite request_key_back by done. by destruct status.
  - intros r result. unfold server_register_worker, u16_try_from. case_decide; by split.
  - intros r. unfold server_report_task_status.
    assert (is_ok (status_try_from (ts_req_status r)) = true ↔ (0 ≤ ts_req_status r ≤ 3)%Z) as Hs.
    { destruct (ts_req_status r) as [|[[|[]|]|[|[]|]|]|]; simpl; split; (done || lia). }
    rewrite <-Hs. destruct (status_try_from _); simpl; [|naive_solver].
    destruct (ts_req_cause r) as [s|]; simpl; [|naive_solver].
    destruct (cause_from_json s); simpl; naive_solver.
Qed.
End rpc.
