(* ===== verification/WorkerPool.v ===== *)
(** * The worker pool

    [crates/zelox-execution/src/driver/worker_pool/{core,state,mod,options,observer}.rs]:
    the workers the driver has asked for, their life cycle, and the calls to
    them.  The calls themselves are remote; an operation records the task it
    spawns for the call in the actor context. *)

From S2P Require Import Prelude Ids JobGraph JobState Streams Actor.

(** ** Options and state *)

Record WorkerPoolOptions := MkWorkerPoolOptions {
  wpo_enable_tls : bool;
  wpo_driver_external_host : string;
  wpo_driver_external_port : N;
  wpo_worker_max_idle_time : N;
  wpo_worker_heartbeat_interval : N;
  wpo_worker_heartbeat_timeout : N;
  wpo_worker_launch_timeout : N;
  wpo_task_stream_buffer : nat;
  wpo_task_stream_creation_timeout : N;
  wpo_shuffle_spill_dir : string;
  wpo_rpc_retry_strategy : RetryStrategy
}.

Inductive WorkerState :=
| WorkerPending
| WorkerRunning (host : string) (port : N) (updated_at heartbeat_at : Z)
    (client : option ClientOptions)
| WorkerCompleted
| WorkerFailed.

Definition worker_status (s : WorkerState) : string :=
  match s with
  | WorkerPending => "PENDING"
  | WorkerRunning _ _ _ _ _ => "RUNNING"
  | WorkerCompleted => "COMPLETED"
  | WorkerFailed => "FAILED"
  end.

Record WorkerDescriptor := MkWorkerDescriptor {
  wd_state : WorkerState;
  wd_messages : list string;
  wd_peers : gset N;
  wd_created_at : Z;
  wd_stopped_at : option Z
}.

Definition wd_with_state (w : WorkerDescriptor) (s : WorkerState) : WorkerDescriptor :=
  MkWorkerDescriptor s (wd_messages w) (wd_peers w) (wd_created_at w) (wd_stopped_at w).

(** A worker that stops: the state, the time and the reason, if any. *)
Definition wd_stop (w : WorkerDescriptor) (s : WorkerState) (now : Z) (reason : option string)
    : WorkerDescriptor :=
  MkWorkerDescriptor s (wd_messages w ++ option_list reason) (wd_peers w) (wd_created_at w)
    (Some now).

Definition worker_snapshot (w : WorkerDescriptor) (worker_id : N) : WorkerSnapshot :=
  let '(host, port) :=
    match wd_state w with
    | WorkerRunning host port _ _ _ => (Some host, Some port)
    | _ => (None, None)
    end in
  MkWorkerSnapshot worker_id host port (worker_status (wd_state w)) (wd_created_at w)
    (wd_stopped_at w).

Record WorkerPool := MkWorkerPool {
  wp_options : WorkerPoolOptions;
  wp_driver_server_port : option N;
  wp_workers : list (N * WorkerDescriptor);
  wp_worker_id_generator : IdGenerator
}.

Definition worker_pool_new (options : WorkerPoolOptions) : WorkerPool :=
  MkWorkerPool options None [] id_generator_new.

Definition wp_with_workers (self : WorkerPool) (workers : list (N * WorkerDescriptor))
    : WorkerPool :=
  MkWorkerPool (wp_options self) (wp_driver_server_port self) workers
    (wp_worker_id_generator self).

(** A mutation through [workers.get_mut(&worker_id)]. *)
Definition wp_set (self : WorkerPool) (worker_id : N) (w : WorkerDescriptor) : WorkerPool :=
  wp_with_workers self (im_insert worker_id w (wp_workers self)).

Definition set_driver_server_port (self : WorkerPool) (port : N) : WorkerPool :=
  MkWorkerPool (wp_options self) (Some port) (wp_workers self) (wp_worker_id_generator self).

Section pool.
Context `{DF : DataFusion} `{FC : ForeignCauses} `{CL : Clock}.

(** ** Clients and probes *)

Definition get_client_set (worker_id : N) (worker : WorkerDescriptor)
    (options : WorkerPoolOptions) : ExecutionResult ClientOptions * WorkerDescriptor :=
  match wd_state worker with
  | WorkerRunning host port u h client =>
      let client := default (MkClientOptions (wpo_enable_tls options) host port) client in
      (Ok client, wd_with_state worker (WorkerRunning host port u h (Some client)))
  | _ =>
      (Err (InternalError ("cannot get client for inactive worker: " +:+ pretty worker_id)),
       worker)
  end.

Definition schedule_idle_worker_probe (ctx : ActorContext) (worker_id : N)
    (worker : WorkerDescriptor) (options : WorkerPoolOptions) : ActorContext :=
  match wd_state worker with
  | WorkerRunning _ _ updated_at _ _ =>
      ctx_send_with_delay ctx (EvProbeIdleWorker worker_id updated_at)
        (wpo_worker_max_idle_time options)
  | _ => ctx
  end.

Definition schedule_lost_worker_probe (ctx : ActorContext) (worker_id : N)
    (worker : WorkerDescriptor) (options : WorkerPoolOptions) : ActorContext :=
  match wd_state worker with
  | WorkerRunning _ _ _ heartbeat_at _ =>
      ctx_send_with_delay ctx (EvProbeLostWorker worker_id heartbeat_at)
        (wpo_worker_heartbeat_timeout options)
  | _ => ctx
  end.

Definition track_worker_activity (ctx : ActorContext) (worker_id : N)
    (worker : WorkerDescriptor) (options : WorkerPoolOptions)
    : WorkerDescriptor * ActorContext :=
  match wd_state worker with
  | WorkerRunning host port _ h client =>
      let '(now, ctx) := instant_now ctx in
      let worker := wd_with_state worker (WorkerRunning host port now h client) in
      (worker, schedule_idle_worker_probe ctx worker_id worker options)
  | _ => (worker, ctx)
  end.

(** ** Starting, registering and stopping *)

Definition launch_options (options : WorkerPoolOptions) (port : N) : WorkerLaunchOptions :=
  MkWorkerLaunchOptions (wpo_enable_tls options) (wpo_driver_external_host options)
    (if decide (0 < wpo_driver_external_port options)%N
     then wpo_driver_external_port options else port)
    (wpo_worker_heartbeat_interval options) (wpo_task_stream_buffer options)
    (wpo_task_stream_creation_timeout options) (wpo_shuffle_spill_dir options)
    (wpo_rpc_retry_strategy options).

Definition start_worker (self : WorkerPool) (ctx : ActorContext) : WorkerPool * ActorContext :=
  let '(worker_id, generator) := id_generator_next (wp_worker_id_generator self) in
  let self := MkWorkerPool (wp_options self) (wp_driver_server_port self) (wp_workers self)
                generator in
  match worker_id with
  | Err _ => (self, ctx_send ctx (EvShutdown None))
  | Ok worker_id =>
      let '(now, ctx) := utc_now ctx in
      let self := wp_set self worker_id (MkWorkerDescriptor WorkerPending [] ∅ now None) in
      let ctx := ctx_send_with_delay ctx (EvProbePendingWorker worker_id)
                   (wpo_worker_launch_timeout (wp_options self)) in
      match wp_driver_server_port self with
      | None => (self, ctx)
      | Some port =>
          (self, ctx_spawn ctx (SpLaunchWorker worker_id (launch_options (wp_options self) port)))
      end
  end.

Definition register_worker (self : WorkerPool) (ctx : ActorContext) (worker_id : N)
    (host : string) (port : N) : ExecutionResult unit * WorkerPool * ActorContext :=
  match im_get worker_id (wp_workers self) with
  | None => (Err (InvalidArgument ("worker " +:+ pretty worker_id +:+ " not found")), self, ctx)
  | Some worker =>
      match wd_state worker with
      | WorkerPending =>
          let '(updated_at, ctx) := instant_now ctx in
          let '(heartbeat_at, ctx) := instant_now ctx in
          let worker :=
            wd_with_state worker (WorkerRunning host port updated_at heartbeat_at None) in
          let ctx := schedule_lost_worker_probe ctx worker_id worker (wp_options self) in
          let ctx := schedule_idle_worker_probe ctx worker_id worker (wp_options self) in
          (Ok tt, wp_set self worker_id worker, ctx)
      | WorkerRunning _ _ _ _ _ =>
          (Err (InternalError ("worker " +:+ pretty worker_id +:+ " is already running")),
           self, ctx)
      | WorkerCompleted =>
          (Err (InternalError ("worker " +:+ pretty worker_id +:+ " has completed")), self, ctx)
      | WorkerFailed =>
          (Err (InternalError ("worker " +:+ pretty worker_id +:+ " has failed")), self, ctx)
      end
  end.

Definition stop_worker (self : WorkerPool) (ctx : ActorContext) (worker_id : N)
    (reason : option string) : WorkerPool * ActorContext :=
  match im_get worker_id (wp_workers self) with
  | None => (self, ctx)
  | Some worker =>
      match wd_state worker with
      | WorkerPending =>
          let '(now, ctx) := utc_now ctx in
          (wp_set self worker_id (wd_stop worker WorkerCompleted now reason), ctx)
      | WorkerRunning _ _ _ _ _ =>
          match get_client_set worker_id worker (wp_options self) with
          | (Err _, worker) =>
              let '(now, ctx) := utc_now ctx in
              (wp_set self worker_id (wd_stop worker WorkerFailed now None), ctx)
          | (Ok _, worker) =>
              let ctx := ctx_spawn ctx (SpStopWorker worker_id) in
              let '(now, ctx) := utc_now ctx in
              (wp_set self worker_id (wd_stop worker WorkerCompleted now reason), ctx)
          end
      | WorkerCompleted | WorkerFailed => (self, ctx)
      end
  end.

Definition running_location (x : N * WorkerDescriptor) : option WorkerLocation :=
  match wd_state x.2 with
  | WorkerRunning host port _ _ _ => Some (MkWorkerLocation x.1 host port)
  | _ => None
  end.

Definition list_running_workers (self : WorkerPool) : list WorkerLocation :=
  omap running_location (wp_workers self).

(** ** Liveness information from the workers *)

Definition update_worker_heartbeat (self : WorkerPool) (ctx : ActorContext) (worker_id : N)
    : WorkerPool * ActorContext :=
  match im_get worker_id (wp_workers self) with
  | None => (self, ctx)
  | Some worker =>
      match wd_state worker with
      | WorkerRunning host port u _ client =>
          let '(now, ctx) := instant_now ctx in
          let worker := wd_with_state worker (WorkerRunning host port u now client) in
          (wp_set self worker_id worker,
           schedule_lost_worker_probe ctx worker_id worker (wp_options self))
      | _ => (self, ctx)
      end
  end.

Definition update_worker_known_peers (self : WorkerPool) (worker_id : N)
    (peer_worker_ids : list N) : WorkerPool :=
  match im_get worker_id (wp_workers self) with
  | None => self
  | Some worker =>
      wp_set self worker_id
        (MkWorkerDescriptor (wd_state worker) (wd_messages worker)
           (wd_peers worker ∪ list_to_set peer_worker_ids) (wd_created_at worker)
           (wd_stopped_at worker))
  end.

Definition fail_worker_if_pending (self : WorkerPool) (worker_id : N) : bool * WorkerPool :=
  match im_get worker_id (wp_workers self) with
  | None => (false, self)
  | Some worker =>
      match wd_state worker with
      | WorkerPending =>
          (true, wp_set self worker_id
             (MkWorkerDescriptor WorkerFailed
                (wd_messages worker ++ ["worker registration timeout"]) (wd_peers worker)
                (wd_created_at worker) (wd_stopped_at worker)))
      | _ => (false, self)
      end
  end.

Definition get_worker_last_update (self : WorkerPool) (worker_id : N) : option Z :=
  match im_get worker_id (wp_workers self) with
  | Some worker =>
      match wd_state worker with
      | WorkerRunning _ _ updated_at _ _ => Some updated_at
      | _ => None
      end
  | None => None
  end.

Definition get_worker_last_heartbeat (self : WorkerPool) (worker_id : N) : option Z :=
  match im_get worker_id (wp_workers self) with
  | Some worker =>
      match wd_state worker with
      | WorkerRunning _ _ _ heartbeat_at _ => Some heartbeat_at
      | _ => None
      end
  | None => None
  end.

(** ** Calls to the workers *)

Definition update_failed (key : TaskKey) (message : string) (cause : CommonErrorCause)
    : DriverEvent :=
  EvUpdateTask key StatusFailed (Some message) (Some cause) None.

Definition run_task (self : WorkerPool) (ctx : ActorContext) (worker_id : N) (key : TaskKey)
    (definition : TaskDefinition) : WorkerPool * ActorContext :=
  let running_workers := list_running_workers self in
  match im_get worker_id (wp_workers self) with
  | None =>
      let message := "worker " +:+ pretty worker_id +:+ " not found" in
      (self, ctx_send ctx (update_failed key message (CauseInternal message)))
  | Some worker =>
      let '(worker, ctx) := track_worker_activity ctx worker_id worker (wp_options self) in
      match get_client_set worker_id worker (wp_options self) with
      | (Err e, worker) =>
          let message := "failed to get worker " +:+ pretty worker_id +:+ " client: "
                         +:+ execution_error_display e in
          (wp_set self worker_id worker,
           ctx_send ctx (update_failed key message (cause_of_error e)))
      | (Ok _, worker) =>
          match wd_state worker with
          | WorkerRunning _ _ _ _ _ =>
              let peers := filter (λ x, wl_worker_id x ∉ wd_peers worker) running_workers in
              (wp_set self worker_id worker,
               ctx_spawn ctx (SpRunTask worker_id key definition peers))
          | _ =>
              let message := "cannot assign " +:+ task_key_display key +:+ " to worker "
                             +:+ pretty worker_id +:+ " that is not running" in
              (wp_set self worker_id worker,
               ctx_send ctx (update_failed key message (CauseInternal message)))
          end
      end
  end.

Definition stop_task (self : WorkerPool) (ctx : ActorContext) (worker_id : N) (key : TaskKey)
    : WorkerPool * ActorContext :=
  match im_get worker_id (wp_workers self) with
  | None => (self, ctx)
  | Some worker =>
      let '(worker, ctx) := track_worker_activity ctx worker_id worker (wp_options self) in
      match get_client_set worker_id worker (wp_options self) with
      | (Err _, worker) => (wp_set self worker_id worker, ctx)
      | (Ok _, worker) =>
          (wp_set self worker_id worker, ctx_spawn ctx (SpStopTask worker_id key))
      end
  end.

(** The schema is passed on to the Flight client. *)
Definition fetch_task_stream (self : WorkerPool) (ctx : ActorContext) (worker_id : N)
    (key : TaskStreamKey) (schema : Schema)
    : ExecutionResult TaskStreamSource * WorkerPool * ActorContext :=
  match im_get worker_id (wp_workers self) with
  | None => (Err (InvalidArgument ("worker " +:+ pretty worker_id +:+ " not found")), self, ctx)
  | Some worker =>
      let '(worker, ctx) := track_worker_activity ctx worker_id worker (wp_options self) in
      match get_client_set worker_id worker (wp_options self) with
      | (Err e, worker) =>
          (Err (InternalError ("failed to get client for worker " +:+ pretty worker_id +:+ ": "
                               +:+ execution_error_display e)),
           wp_set self worker_id worker, ctx)
      | (Ok _, worker) =>
          (Ok (SourceWorker worker_id key), wp_set self worker_id worker, ctx)
      end
  end.

Definition clean_up_job_for_worker (ctx : ActorContext) (job_id : N) (stage : option nat)
    (worker_id : N) (worker : WorkerDescriptor) (options : WorkerPoolOptions)
    : WorkerDescriptor * ActorContext :=
  match get_client_set worker_id worker options with
  | (Err _, worker) => (worker, ctx)
  | (Ok _, worker) => (worker, ctx_spawn ctx (SpCleanUpJob worker_id job_id stage))
  end.

Definition clean_up_job (self : WorkerPool) (ctx : ActorContext) (worker_id : N) (job_id : N)
    (stage : option nat) : WorkerPool * ActorContext :=
  match im_get worker_id (wp_workers self) with
  | None => (self, ctx)
  | Some worker =>
      let '(worker, ctx) := track_worker_activity ctx worker_id worker (wp_options self) in
      let '(worker, ctx) :=
        clean_up_job_for_worker ctx job_id stage worker_id worker (wp_options self) in
      (wp_set self worker_id worker, ctx)
  end.

(** [manager_stop] is the outcome of [worker_manager.stop()]. *)
Definition close (self : WorkerPool) (ctx : ActorContext) (manager_stop : ExecutionResult unit)
    : ExecutionResult unit * WorkerPool * ActorContext :=
  let '(self, ctx) :=
    foldl (λ '(self, ctx) worker_id,
             stop_worker self ctx worker_id (Some "closing worker pool"))
      (self, ctx) (im_keys (wp_workers self)) in
  (manager_stop, self, ctx).

(** ** Observers *)
Definition observe_worker_snapshots (self : WorkerPool) : list WorkerSnapshot :=
  (λ '(w, worker), worker_snapshot worker w) <$> wp_workers self.
End pool.
