(* ===== verification/WorkerPoolTheorems.v ===== *)
(** * The life cycle of workers

    Every operation of the pool either leaves a worker alone or moves it along
    [Pending → Running → Completed | Failed]; the probes that a worker's state
    calls for are always outstanding. *)

From S2P Require Import Prelude Ids JobGraph JobState Streams Actor WorkerPool.
Section facts.
Context `{DF : DataFusion} `{FC : ForeignCauses} `{CL : Clock} `{!ClockLaws CL}.

(** ** Contexts *)

Definition is_stop_request (w : N) (e : Effect) : bool :=
  match e with EffSpawn (SpStopWorker w') => bool_decide (w = w') | _ => false end.

(** How often a worker was asked to stop. *)
Definition stop_requests (w : N) (es : list Effect) : nat :=
  length (filter (λ e, is_stop_request w e = true) es).

Definition ctx_extends (ctx ctx' : ActorContext) : Prop :=
  ctx_reads ctx ≤ ctx_reads ctx' ∧ ctx_effects ctx `prefix_of` ctx_effects ctx'.

#[global] Instance ctx_extends_preorder : PreOrder ctx_extends.
Proof.
  split.
  - intros ctx. by split.
  - intros c1 c2 c3 [H1 H2] [H3 H4]. split; [lia|by etrans].
Qed.

Lemma stop_requests_app w es es' :
  stop_requests w (es ++ es') = stop_requests w es + stop_requests w es'.
Proof. unfold stop_requests. by rewrite filter_app, length_app. Qed.

(** A reading of the monotonic clock made so far. *)
Definition read_before (ctx : ActorContext) (t : Z) : Prop :=
  ∃ i, i < ctx_reads ctx ∧ t = instant_at i.

Lemma read_before_le ctx t :
  read_before ctx t → (t ≤ instant_at (ctx_reads ctx))%Z.
Proof. intros (i & Hi & ->). apply instant_mono. lia. Qed.

Lemma read_before_extends ctx ctx' t :
  ctx_extends ctx ctx' → read_before ctx t → read_before ctx' t.
Proof. intros [Hr _] (i & Hi & ->). exists i. split; [lia|done]. Qed.

(** ** Workers *)

Definition state_evolves (s s' : WorkerState) : Prop :=
  match s, s' with
  | WorkerPending, _ => True
  | WorkerRunning h p u b c, WorkerRunning h' p' u' b' c' =>
      h = h' ∧ p = p' ∧ (u ≤ u')%Z ∧ (b ≤ b')%Z ∧ (is_Some c → c' = c)
  | WorkerRunning _ _ _ _ _, (WorkerCompleted | WorkerFailed) => True
  | WorkerCompleted, WorkerCompleted => True
  | WorkerFailed, WorkerFailed => True
  | _, _ => False
  end.

Record worker_evolves (d d' : WorkerDescriptor) : Prop := {
  we_state : state_evolves (wd_state d) (wd_state d');
  we_messages : wd_messages d `prefix_of` wd_messages d';
  we_peers : wd_peers d ⊆ wd_peers d';
  we_created : wd_created_at d' = wd_created_at d;
  we_stopped : is_Some (wd_stopped_at d) → wd_stopped_at d' = wd_stopped_at d
}.

#[global] Instance state_evolves_preorder : PreOrder state_evolves.
Proof.
  split.
  - intros []; simpl; [done| |done|done]. split_and!; (done || lia).
  - intros [] [] []; simpl; try done.
    intros (-> & -> & ? & ? & Hc) (-> & -> & ? & ? & Hc'). split_and!; try lia; try done.
    intros Hs. specialize (Hc Hs) as ->. by apply Hc'.
Qed.

#[global] Instance worker_evolves_preorder : PreOrder worker_evolves.
Proof.
  split.
  - intros d. split; try done; reflexivity.
  - intros d1 d2 d3 [S1 M1 P1 C1 T1] [S2 M2 P2 C2 T2]. split.
    + by etrans.
    + by etrans.
    + by etrans.
    + congruence.
    + intros Hs. rewrite T2; [auto|]. by rewrite T1.
Qed.

(** What holds of a worker after the effects so far. *)
Definition worker_ok (options : WorkerPoolOptions) (ctx : ActorContext) (w : N)
    (d : WorkerDescriptor) : Prop :=
  match wd_state d with
  | WorkerPending =>
      wd_stopped_at d = None ∧ stop_requests w (ctx_effects ctx) = 0 ∧
      EffSendWithDelay (EvProbePendingWorker w) (wpo_worker_launch_timeout options)
        ∈ ctx_effects ctx
  | WorkerRunning host port u b client =>
      wd_stopped_at d = None ∧ stop_requests w (ctx_effects ctx) = 0 ∧
      EffSendWithDelay (EvProbeIdleWorker w u) (wpo_worker_max_idle_time options)
        ∈ ctx_effects ctx ∧
      EffSendWithDelay (EvProbeLostWorker w b) (wpo_worker_heartbeat_timeout options)
        ∈ ctx_effects ctx ∧
      read_before ctx u ∧ read_before ctx b ∧
      (∀ c, client = Some c → c = MkClientOptions (wpo_enable_tls options) host port)
  | WorkerCompleted => is_Some (wd_stopped_at d) ∧ stop_requests w (ctx_effects ctx) ≤ 1
  | WorkerFailed => stop_requests w (ctx_effects ctx) = 0
  end.

Record pool_inv (p : WorkerPool) (ctx : ActorContext) : Prop := {
  pi_keys : im_wf (wp_workers p);
  pi_ids : ∀ w, w ∈ im_keys (wp_workers p) → (w < next_value (wp_worker_id_generator p))%N;
  pi_workers : ∀ w d, im_get w (wp_workers p) = Some d → worker_ok (wp_options p) ctx w d;
  pi_unknown : ∀ w, im_get w (wp_workers p) = None → stop_requests w (ctx_effects ctx) = 0
}.

Record pool_evolves (p : WorkerPool) (ctx : ActorContext) (p' : WorkerPool)
    (ctx' : ActorContext) : Prop := {
  pe_options : wp_options p' = wp_options p;
  pe_ctx : ctx_extends ctx ctx';
  pe_next : (next_value (wp_worker_id_generator p)
             ≤ next_value (wp_worker_id_generator p'))%N;
  pe_workers : ∀ w d, im_get w (wp_workers p) = Some d →
    ∃ d', im_get w (wp_workers p') = Some d' ∧ worker_evolves d d';
  pe_new : ∀ w d', im_get w (wp_workers p) = None → im_get w (wp_workers p') = Some d' →
    (next_value (wp_worker_id_generator p) ≤ w)%N
}.

(** One operation preserves the invariant and moves the pool forward. *)
Definition pool_moves (p : WorkerPool) (ctx : ActorContext) (r : WorkerPool * ActorContext)
    : Prop :=
  pool_inv p ctx → pool_inv r.1 r.2 ∧ pool_evolves p ctx r.1 r.2.

Lemma pool_evolves_same p ctx ctx' : ctx_extends ctx ctx' → pool_evolves p ctx p ctx'.
Proof.
  intros Hc. split; try done.
  - intros w d Hd. exists d. split; [done|reflexivity].
  - intros w d' Hn Hs. congruence.
Qed.

Lemma elem_of_extends ctx ctx' e :
  ctx_extends ctx ctx' → e ∈ ctx_effects ctx → e ∈ ctx_effects ctx'.
Proof. intros [_ [es ->]] He. set_solver. Qed.

Lemma worker_ok_mono options ctx ctx' w d :
  ctx_extends ctx ctx' →
  stop_requests w (ctx_effects ctx') = stop_requests w (ctx_effects ctx) →
  worker_ok options ctx w d → worker_ok options ctx' w d.
Proof.
  intros Hc Hs. unfold worker_ok. rewrite Hs.
  destruct (wd_state d); naive_solver eauto using elem_of_extends, read_before_extends.
Qed.

(** Effects that ask no worker to stop keep the invariant. *)
Lemma pool_inv_ctx p ctx ctx' :
  ctx_extends ctx ctx' →
  (∀ w, stop_requests w (ctx_effects ctx') = stop_requests w (ctx_effects ctx)) →
  pool_inv p ctx → pool_inv p ctx'.
Proof.
  intros Hc Hs []. split; try done.
  - intros w d Hd. by apply (worker_ok_mono _ ctx); auto.
  - intros w Hw. rewrite Hs. auto.
Qed.

Lemma pool_moves_ctx p ctx ctx' :
  ctx_extends ctx ctx' →
  (∀ w, stop_requests w (ctx_effects ctx') = stop_requests w (ctx_effects ctx)) →
  pool_moves p ctx (p, ctx').
Proof. intros Hc Hs Hp. split; [by eapply pool_inv_ctx|by apply pool_evolves_same]. Qed.

(** Replacing the descriptor of a known worker. *)
Lemma pool_moves_set p ctx ctx' w d d' :
  im_get w (wp_workers p) = Some d →
  (pool_inv p ctx → worker_evolves d d' ∧ worker_ok (wp_options p) ctx' w d') →
  ctx_extends ctx ctx' →
  (∀ w', w' ≠ w → stop_requests w' (ctx_effects ctx') = stop_requests w' (ctx_effects ctx)) →
  pool_moves p ctx (wp_set p w d', ctx').
Proof.
  intros Hd Hok Hc Hs Hp. destruct (Hok Hp) as [He Hw]. destruct Hp. split; split; simpl.
  - auto with total.
  - intros w'. rewrite im_keys_insert, decide_True; [auto|].
    apply im_get_elem_of in Hd. apply list_elem_of_fmap. by exists (w, d).
  - intros w' d0. rewrite im_get_insert. case_decide as Hw'; [intros [= <-]; by subst|].
    intros Hd0. eapply worker_ok_mono; eauto.
  - intros w'. rewrite im_get_insert. case_decide; [done|]. intros Hn. rewrite Hs; auto.
  - done.
  - done.
  - done.
  - intros w' d0. rewrite im_get_insert. case_decide as Hw'.
    + subst. rewrite Hd. intros [= <-]. eauto.
    + intros Hd0. exists d0. split; [done|reflexivity].
  - intros w' d0 Hn. rewrite im_get_insert. case_decide; congruence.
Qed.

Lemma pool_moves_trans p ctx r1 r2 :
  pool_moves p ctx r1 → pool_moves r1.1 r1.2 r2 → pool_moves p ctx r2.
Proof.
  intros H1 H2 Hp. destruct (H1 Hp) as [Hp1 E1], (H2 Hp1) as [Hp2 E2]. split; [done|].
  split.
  - rewrite (pe_options _ _ _ _ E2). apply E1.
  - etrans; [apply E1|apply E2].
  - etrans; [apply E1|apply E2].
  - intros w d Hd. destruct (pe_workers _ _ _ _ E1 w d Hd) as (d1 & Hd1 & He1).
    destruct (pe_workers _ _ _ _ E2 w d1 Hd1) as (d2 & Hd2 & He2).
    exists d2. split; [done|by etrans].
  - intros w d2 Hn Hd2. destruct (im_get w (wp_workers r1.1)) as [d1|] eqn:Hd1.
    + by apply (pe_new _ _ _ _ E1 w d1).
    + etrans; [apply E1|by apply (pe_new _ _ _ _ E2 w d2)].
Qed.

(** ** The operations *)

(** Only effects that ask no worker to stop. *)
Definition ctx_quiet (ctx ctx' : ActorContext) : Prop :=
  ctx_extends ctx ctx' ∧
  ∀ w, stop_requests w (ctx_effects ctx') = stop_requests w (ctx_effects ctx).

#[global] Instance ctx_quiet_preorder : PreOrder ctx_quiet.
Proof.
  split.
  - intros ctx. by split.
  - intros c1 c2 c3 [H1 S1] [H2 S2]. split; [by etrans|]. intros w. by rewrite S2, S1.
Qed.

Lemma ctx_emit_quiet ctx e : (∀ w, is_stop_request w e = false) → ctx_quiet ctx (ctx_emit ctx e).
Proof.
  intros He. split.
  - split; [done|]. by exists [e].
  - intros w. simpl. rewrite stop_requests_app. unfold stop_requests at 2.
    rewrite filter_cons, (He w). simpl. lia.
Qed.

Lemma ctx_send_quiet ctx event : ctx_quiet ctx (ctx_send ctx event).
Proof. by apply ctx_emit_quiet. Qed.
Lemma ctx_send_with_delay_quiet ctx event delay :
  ctx_quiet ctx (ctx_send_with_delay ctx event delay).
Proof. by apply ctx_emit_quiet. Qed.
Lemma ctx_reply_quiet ctx channel reply : ctx_quiet ctx (ctx_reply ctx channel reply).
Proof. by apply ctx_emit_quiet. Qed.
Lemma ctx_spawn_quiet ctx task :
  (∀ w, task ≠ SpStopWorker w) → ctx_quiet ctx (ctx_spawn ctx task).
Proof. intros Ht. apply ctx_emit_quiet. intros w. by destruct task; [|destruct (Ht worker_id)|..]. Qed.
Lemma instant_now_quiet ctx : ctx_quiet ctx (instant_now ctx).2.
Proof. split; [split; [simpl; lia|done]|done]. Qed.
Lemma utc_now_quiet ctx : ctx_quiet ctx (utc_now ctx).2.
Proof. split; [split; [simpl; lia|done]|done]. Qed.

Lemma read_before_now ctx : read_before (instant_now ctx).2 (instant_now ctx).1.
Proof. exists (ctx_reads ctx). simpl. split; [lia|done]. Qed.

Lemma elem_of_emit ctx e : e ∈ ctx_effects (ctx_emit ctx e).
Proof. simpl. set_solver. Qed.

Lemma track_worker_activity_ok options ctx w d :
  worker_ok options ctx w d →
  let '(d', ctx') := track_worker_activity ctx w d options in
  worker_ok options ctx' w d' ∧ worker_evolves d d' ∧ ctx_quiet ctx ctx'.
Proof.
  unfold track_worker_activity. intros Hok.
  destruct (wd_state d) as [|host port u b c| |] eqn:Hst;
    [split_and!; (done || reflexivity)| |split_and!; (done || reflexivity)..].
  unfold worker_ok in Hok. rewrite Hst in Hok.
  destruct Hok as (Hs & Hn & Hi & Hl & Hu & Hb & Hc).
  set (ctx1 := (instant_now ctx).2).
  set (ctx2 := ctx_send_with_delay ctx1 (EvProbeIdleWorker w (instant_now ctx).1)
                 (wpo_worker_max_idle_time options)).
  assert (ctx_quiet ctx ctx2) as [He Hq]
    by (etrans; [apply instant_now_quiet|apply ctx_send_with_delay_quiet]).
  change (worker_ok options ctx2 w
            (wd_with_state d (WorkerRunning host port (instant_now ctx).1 b c)) ∧
          worker_evolves d (wd_with_state d (WorkerRunning host port (instant_now ctx).1 b c)) ∧
          ctx_quiet ctx ctx2).
  split_and!; [| |done].
  - unfold worker_ok. cbn [wd_state wd_with_state wd_stopped_at]. rewrite Hq.
    split_and!; eauto using elem_of_extends, read_before_extends.
    + apply elem_of_emit.
    + eapply read_before_extends; [|apply read_before_now]. apply ctx_send_with_delay_quiet.
  - split; try done. rewrite Hst. simpl. split_and!; try (done || lia).
    by apply read_before_le.
Qed.

Lemma get_client_set_ok options ctx w d :
  worker_ok options ctx w d →
  worker_ok options ctx w (get_client_set w d options).2 ∧
  worker_evolves d (get_client_set w d options).2 ∧
  (is_ok (get_client_set w d options).1 = true ↔
   ∃ h p u b c, wd_state d = WorkerRunning h p u b c).
Proof.
  unfold get_client_set. intros Hok.
  destruct (wd_state d) as [|host port u b c| |] eqn:Hst; simpl;
    [split_and!; [done|reflexivity|naive_solver]|
    |split_and!; [done|reflexivity|naive_solver]..].
  unfold worker_ok in Hok. rewrite Hst in Hok.
  destruct Hok as (Hs & Hn & Hi & Hl & Hu & Hb & Hc). split_and!.
  - unfold worker_ok. simpl. split_and!; try done. intros c0 [= <-].
    destruct c as [c1|]; simpl; auto.
  - split; try done. rewrite Hst. simpl. split_and!; try (done || lia).
    intros [c1 ->]. done.
  - split; [eauto 6|done].
Qed.

(** The calls to a worker: note the activity, get the client, act. *)
Lemma pool_moves_call p ctx w d d1 ctx1 ctx2 :
  im_get w (wp_workers p) = Some d →
  track_worker_activity ctx w d (wp_options p) = (d1, ctx1) →
  ctx_quiet ctx1 ctx2 →
  pool_moves p ctx (wp_set p w (get_client_set w d1 (wp_options p)).2, ctx2).
Proof.
  intros Hd Ht Hq Hp.
  pose proof (track_worker_activity_ok (wp_options p) ctx w d (pi_workers _ _ Hp w d Hd)) as Hok.
  rewrite Ht in Hok. destruct Hok as (Hok & He & Hq1).
  destruct (get_client_set_ok _ _ _ _ Hok) as (Hok2 & He2 & _).
  assert (ctx_quiet ctx ctx2) as [Hx Hs] by by etrans.
  apply (pool_moves_set p ctx ctx2 w d); try done; auto.
  intros _. split; [by etrans|]. eapply worker_ok_mono; [apply Hq|apply Hq|done].
Qed.

Ltac call_moves Hd :=
  let Ht := fresh "Ht" in
  destruct (track_worker_activity _ _ _ _) eqn:Ht;
  match type of Ht with
  | track_worker_activity ?ctx ?w ?d ?o = (?d1, ?ctx1) =>
      pose proof (λ ctx2, pool_moves_call _ ctx w d d1 ctx1 ctx2 Hd Ht)
  end.

Lemma run_task_moves p ctx w key def : pool_moves p ctx (run_task p ctx w key def).
Proof.
  unfold run_task. destruct (im_get w (wp_workers p)) as [d|] eqn:Hd.
  2:{ apply pool_moves_ctx; apply ctx_send_quiet. }
  call_moves Hd. destruct (get_client_set _ _ _) as [[c|e] d2]; simpl in *.
  - destruct (wd_state d2); apply H; (apply ctx_send_quiet || by apply ctx_spawn_quiet).
  - apply H, ctx_send_quiet.
Qed.

Lemma stop_task_moves p ctx w key : pool_moves p ctx (stop_task p ctx w key).
Proof.
  unfold stop_task. destruct (im_get w (wp_workers p)) as [d|] eqn:Hd;
    [|by apply pool_moves_ctx].
  call_moves Hd. destruct (get_client_set _ _ _) as [[c|e] d2]; simpl in *; apply H;
    [by apply ctx_spawn_quiet|reflexivity].
Qed.

Lemma fetch_task_stream_moves p ctx w key schema :
  let r := fetch_task_stream p ctx w key schema in pool_moves p ctx (r.1.2, r.2).
Proof.
  unfold fetch_task_stream. destruct (im_get w (wp_workers p)) as [d|] eqn:Hd;
    [|by apply pool_moves_ctx].
  call_moves Hd. destruct (get_client_set _ _ _) as [[c|e] d2]; simpl in *; by apply H.
Qed.

Lemma clean_up_job_moves p ctx w job_id stage :
  pool_moves p ctx (clean_up_job p ctx w job_id stage).
Proof.
  unfold clean_up_job, clean_up_job_for_worker.
  destruct (im_get w (wp_workers p)) as [d|] eqn:Hd; [|by apply pool_moves_ctx].
  call_moves Hd. destruct (get_client_set _ _ _) as [[c|e] d2]; simpl in *; apply H;
    [by apply ctx_spawn_quiet|reflexivity].
Qed.

Lemma update_worker_known_peers_moves p ctx w peers :
  pool_moves p ctx (update_worker_known_peers p w peers, ctx).
Proof.
  unfold update_worker_known_peers. destruct (im_get w (wp_workers p)) as [d|] eqn:Hd;
    [|by apply pool_moves_ctx].
  apply (pool_moves_set p ctx ctx w d); try done. intros Hp. split.
  - split; simpl; try done. set_solver.
  - exact (pi_workers _ _ Hp w d Hd).
Qed.

Lemma fail_worker_if_pending_moves p ctx w :
  pool_moves p ctx ((fail_worker_if_pending p w).2, ctx).
Proof.
  unfold fail_worker_if_pending. destruct (im_get w (wp_workers p)) as [d|] eqn:Hd;
    [|by apply pool_moves_ctx].
  destruct (wd_state d) eqn:Hst; [|by apply pool_moves_ctx..].
  apply (pool_moves_set p ctx ctx w d); try done. intros Hp.
  pose proof (pi_workers _ _ Hp w d Hd) as Hok. unfold worker_ok in *. rewrite Hst in Hok.
  split; [|naive_solver]. split; simpl; try done; [by rewrite Hst|by apply prefix_app_r].
Qed.

Lemma update_worker_heartbeat_moves p ctx w :
  pool_moves p ctx (update_worker_heartbeat p ctx w).
Proof.
  unfold update_worker_heartbeat. destruct (im_get w (wp_workers p)) as [d|] eqn:Hd;
    [|by apply pool_moves_ctx].
  destruct (wd_state d) as [|host port u b c| |] eqn:Hst; [by apply pool_moves_ctx| |
    by apply pool_moves_ctx..].
  assert (ctx_quiet ctx (ctx_send_with_delay (instant_now ctx).2
            (EvProbeLostWorker w (instant_now ctx).1)
            (wpo_worker_heartbeat_timeout (wp_options p)))) as [He Hq]
    by (etrans; [apply instant_now_quiet|apply ctx_send_with_delay_quiet]).
  apply (pool_moves_set p ctx _ w d); try done.
  intros Hp. pose proof (pi_workers _ _ Hp w d Hd) as Hok. unfold worker_ok in Hok |- *.
  rewrite Hst in Hok. destruct Hok as (Hs & Hn & Hi & Hl & Hu & Hb & Hc). split.
  - split; try done. rewrite Hst. simpl. split_and!; try (done || lia). by apply read_before_le.
  - cbn [wd_state wd_with_state wd_stopped_at]. rewrite Hq.
    split_and!; eauto using elem_of_extends, read_before_extends; [apply elem_of_emit|].
    eapply read_before_extends; [|apply read_before_now]. apply ctx_send_with_delay_quiet.
Qed.

Lemma register_worker_moves p ctx w host port :
  let r := register_worker p ctx w host port in pool_moves p ctx (r.1.2, r.2).
Proof.
  unfold register_worker. destruct (im_get w (wp_workers p)) as [d|] eqn:Hd;
    [|by apply pool_moves_ctx].
  destruct (wd_state d) eqn:Hst; [|by apply pool_moves_ctx..].
  set (now1 := instant_now ctx). set (now2 := instant_now now1.2).
  set (ctx1 := ctx_send_with_delay now2.2 (EvProbeLostWorker w now2.1)
                 (wpo_worker_heartbeat_timeout (wp_options p))).
  set (ctx2 := ctx_send_with_delay ctx1 (EvProbeIdleWorker w now1.1)
                 (wpo_worker_max_idle_time (wp_options p))).
  assert (ctx_quiet now1.2 ctx2) as Hq1.
  { etrans; [apply instant_now_quiet|]. etrans; apply ctx_send_with_delay_quiet. }
  assert (ctx_quiet now2.2 ctx2) as Hq2 by (etrans; apply ctx_send_with_delay_quiet).
  assert (ctx_quiet ctx ctx2) as [He Hq] by (etrans; [apply instant_now_quiet|apply Hq1]).
  apply (pool_moves_set p ctx ctx2 w d); try done.
  intros Hp. pose proof (pi_workers _ _ Hp w d Hd) as Hok. unfold worker_ok in Hok |- *.
  rewrite Hst in Hok. destruct Hok as (Hs & Hn & _). split.
  - split; try done. by rewrite Hst.
  - cbn [wd_state wd_with_state wd_stopped_at]. rewrite Hq. split_and!; try done.
    + apply elem_of_emit.
    + eapply elem_of_extends; [apply (ctx_send_with_delay_quiet ctx1)|apply elem_of_emit].
    + eapply read_before_extends; [apply Hq1|apply read_before_now].
    + eapply read_before_extends; [apply Hq2|apply read_before_now].
Qed.

(** Adding a worker under the next identifier. *)
Lemma pool_moves_new p ctx ctx' g port now :
  next_value g = (next_value (wp_worker_id_generator p) + 1)%N →
  ctx_quiet ctx ctx' →
  EffSendWithDelay (EvProbePendingWorker (next_value (wp_worker_id_generator p)))
    (wpo_worker_launch_timeout (wp_options p)) ∈ ctx_effects ctx' →
  pool_moves p ctx
    (wp_set (MkWorkerPool (wp_options p) port (wp_workers p) g)
       (next_value (wp_worker_id_generator p)) (MkWorkerDescriptor WorkerPending [] ∅ now None),
     ctx').
Proof.
  set (w := next_value (wp_worker_id_generator p)). intros Hg [He Hq] Hprobe Hp.
  assert (im_get w (wp_workers p) = None) as Hw.
  { apply im_get_None. intros Hw%(pi_ids _ _ Hp). unfold w in Hw. lia. }
  split; split; simpl; try done.
  - apply im_wf_insert, Hp.
  - intros w'. rewrite im_keys_insert, decide_False by (by apply im_get_None).
    rewrite elem_of_app, list_elem_of_singleton, Hg.
    intros [Hi%(pi_ids _ _ Hp)| ->]; unfold w; lia.
  - intros w' d'. rewrite im_get_insert. case_decide as Hw'.
    + subst w'. intros [= <-]. unfold worker_ok. simpl. rewrite Hq.
      split_and!; [done|by apply (pi_unknown _ _ Hp)|done].
    + intros Hd'. eapply worker_ok_mono; [done|apply Hq|by apply (pi_workers _ _ Hp)].
  - intros w'. rewrite im_get_insert. case_decide; [done|]. intros Hn.
    rewrite Hq. by apply (pi_unknown _ _ Hp).
  - lia.
  - intros w' d'. rewrite im_get_insert. case_decide; [congruence|]. intros Hd'.
    exists d'. split; [done|reflexivity].
  - intros w' d' Hn. rewrite im_get_insert. case_decide as Hw'; [|congruence].
    intros _. unfold w in Hw'. lia.
Qed.

Lemma start_worker_moves p ctx : pool_moves p ctx (start_worker p ctx).
Proof.
  unfold start_worker. destruct (id_generator_next _) as [[w|e] g] eqn:Hg.
  2:{ apply id_generator_next_Err in Hg as (-> & _ & _).
      destruct p. apply pool_moves_ctx; apply ctx_send_quiet. }
  apply id_generator_next_Ok in Hg as (-> & Hg & _). cbv zeta.
  rewrite (surjective_pairing (utc_now ctx)).
  set (ctx1 := ctx_send_with_delay _ _ _).
  assert (ctx_quiet ctx ctx1) as Hq
    by (etrans; [apply utc_now_quiet|apply ctx_send_with_delay_quiet]).
  cbn [wp_driver_server_port wp_set wp_with_workers].
  destruct (wp_driver_server_port p) as [port|]; apply pool_moves_new; try done.
  - etrans; [apply Hq|by apply ctx_spawn_quiet].
  - eapply elem_of_extends; [by apply ctx_spawn_quiet|apply elem_of_emit].
  - apply elem_of_emit.
Qed.

Lemma stop_worker_moves p ctx w reason : pool_moves p ctx (stop_worker p ctx w reason).
Proof.
  unfold stop_worker. destruct (im_get w (wp_workers p)) as [d|] eqn:Hd;
    [|by apply pool_moves_ctx].
  destruct (wd_state d) as [|host port u b c| |] eqn:Hst;
    [| |by apply pool_moves_ctx|by apply pool_moves_ctx].
  - rewrite (surjective_pairing (utc_now ctx)).
    apply (pool_moves_set p ctx _ w d); try done; [|apply utc_now_quiet].
    intros Hp. pose proof (pi_workers _ _ Hp w d Hd) as Hok. unfold worker_ok in Hok |- *.
    rewrite Hst in Hok. destruct Hok as (Hs & Hn & _). split.
    + split; simpl; try done; [by rewrite Hst|by apply prefix_app_r|].
      rewrite Hs. by intros [].
    + simpl. rewrite Hn. split; [done|lia].
  - unfold get_client_set. rewrite Hst.
    rewrite (surjective_pairing (utc_now (ctx_spawn ctx (SpStopWorker w)))).
    apply (pool_moves_set p ctx _ w d); try done.
    + intros Hp. pose proof (pi_workers _ _ Hp w d Hd) as Hok. unfold worker_ok in Hok |- *.
      rewrite Hst in Hok. destruct Hok as (Hs & Hn & _). split.
      * split; simpl; try done; [by rewrite Hst|by apply prefix_app_r|].
        rewrite Hs. by intros [].
      * simpl. rewrite stop_requests_app, Hn. unfold stop_requests. rewrite filter_cons. simpl.
        rewrite bool_decide_true by done. simpl. split; [done|lia].
    + split; [simpl; lia|]. by exists [EffSpawn (SpStopWorker w)].
    + intros w' Hne. simpl. rewrite stop_requests_app. unfold stop_requests at 2.
      rewrite filter_cons. simpl. rewrite bool_decide_false by done. simpl. lia.
Qed.

Lemma set_driver_server_port_moves p ctx port :
  pool_moves p ctx (set_driver_server_port p port, ctx).
Proof.
  intros []. split; [by split|]. split; try done.
  - intros w d Hd. exists d. split; [done|reflexivity].
  - intros w d' Hn Hs. simpl in Hs. congruence.
Qed.

Lemma pool_moves_fold {A} (f : WorkerPool → ActorContext → A → WorkerPool * ActorContext)
    (l : list A) p ctx :
  (∀ p ctx x, pool_moves p ctx (f p ctx x)) →
  pool_moves p ctx (foldl (λ '(p, ctx) x, f p ctx x) (p, ctx) l).
Proof.
  intros Hf. revert p ctx. induction l as [|x l IH]; intros p ctx.
  { by apply pool_moves_ctx. }
  simpl. eapply pool_moves_trans; [apply (Hf p ctx x)|].
  destruct (f p ctx x) as [p' ctx']. apply IH.
Qed.

Lemma close_moves p ctx r : let c := close p ctx r in pool_moves p ctx (c.1.2, c.2).
Proof.
  unfold close. pose proof (pool_moves_fold
    (λ p ctx w, stop_worker p ctx w (Some "closing worker pool"))
    (im_keys (wp_workers p)) p ctx (λ p ctx w, stop_worker_moves p ctx w _)) as Hm.
  by destruct (foldl _ _ _).
Qed.
End facts.

(** ** Guarantees of the worker pool

    Over every history of the pool's operations, with the other components of
    the driver using the actor context in between. *)

Section theorems.
Context `{DF : DataFusion} `{FC : ForeignCauses} `{CL : Clock} `{!ClockLaws CL}.

Inductive pool_step : WorkerPool * ActorContext → WorkerPool * ActorContext → Prop :=
| PoolPort p ctx port : pool_step (p, ctx) (set_driver_server_port p port, ctx)
| PoolStart p ctx : pool_step (p, ctx) (start_worker p ctx)
| PoolRegister p ctx w host port :
    pool_step (p, ctx) ((register_worker p ctx w host port).1.2, (register_worker p ctx w host port).2)
| PoolStop p ctx w reason : pool_step (p, ctx) (stop_worker p ctx w reason)
| PoolHeartbeat p ctx w : pool_step (p, ctx) (update_worker_heartbeat p ctx w)
| PoolPeers p ctx w peers : pool_step (p, ctx) (update_worker_known_peers p w peers, ctx)
| PoolTimeout p ctx w : pool_step (p, ctx) ((fail_worker_if_pending p w).2, ctx)
| PoolRun p ctx w key definition : pool_step (p, ctx) (run_task p ctx w key definition)
| PoolStopTask p ctx w key : pool_step (p, ctx) (stop_task p ctx w key)
| PoolFetch p ctx w key schema :
    pool_step (p, ctx) ((fetch_task_stream p ctx w key schema).1.2,
                        (fetch_task_stream p ctx w key schema).2)
| PoolCleanUp p ctx w job_id stage : pool_step (p, ctx) (clean_up_job p ctx w job_id stage)
| PoolClose p ctx r : pool_step (p, ctx) ((close p ctx r).1.2, (close p ctx r).2)
| PoolOther p ctx ctx' : ctx_quiet ctx ctx' → pool_step (p, ctx) (p, ctx').

Lemma pool_step_moves st st' : pool_step st st' → pool_moves st.1 st.2 st'.
Proof.
  destruct 1; simpl.
  - apply set_driver_server_port_moves.
  - apply start_worker_moves.
  - apply register_worker_moves.
  - apply stop_worker_moves.
  - apply update_worker_heartbeat_moves.
  - apply update_worker_known_peers_moves.
  - apply fail_worker_if_pending_moves.
  - apply run_task_moves.
  - apply stop_task_moves.
  - apply fetch_task_stream_moves.
  - apply clean_up_job_moves.
  - apply close_moves.
  - apply pool_moves_ctx; by destruct H.
Qed.

Lemma pool_steps_moves st st' : rtc pool_step st st' → pool_moves st.1 st.2 st'.
Proof.
  induction 1 as [st|st st1 st2 Hstep _ IH].
  - destruct st. by apply pool_moves_ctx.
  - eapply pool_moves_trans; [by apply pool_step_moves|apply IH].
Qed.

Lemma pool_inv_new options : pool_inv (worker_pool_new options) (MkActorContext 0 []).
Proof.
  split; simpl; [apply NoDup_nil_2|set_solver|done|done].
Qed.

(** The pool of a driver that has just started. *)
Definition pool_start (options : WorkerPoolOptions) : WorkerPool * ActorContext :=
  (worker_pool_new options, MkActorContext 0 []).

Lemma pool_reachable_inv options p ctx :
  rtc pool_step (pool_start options) (p, ctx) → pool_inv p ctx ∧ wp_options p = options.
Proof.
  intros Hr%pool_steps_moves. destruct (Hr (pool_inv_new options)) as [Hi He].
  split; [done|apply He].
Qed.

(** In every reachable pool the worker identifiers are distinct, every worker
    that is not finished has the timeout it calls for outstanding (a pending
    worker its launch probe, a running worker an idle probe and a lost-worker
    probe that carry its current instants), and each worker is asked to stop at
    most once and only on completion. *)
Theorem worker_pool_invariant options p ctx :
  rtc pool_step (pool_start options) (p, ctx) →
  NoDup (im_keys (wp_workers p)) ∧
  (∀ w d, im_get w (wp_workers p) = Some d →
     match wd_state d with
     | WorkerPending =>
         EffSendWithDelay (EvProbePendingWorker w) (wpo_worker_launch_timeout options)
           ∈ ctx_effects ctx ∧ stop_requests w (ctx_effects ctx) = 0
     | WorkerRunning _ _ updated_at heartbeat_at _ =>
         EffSendWithDelay (EvProbeIdleWorker w updated_at) (wpo_worker_max_idle_time options)
           ∈ ctx_effects ctx ∧
         EffSendWithDelay (EvProbeLostWorker w heartbeat_at)
           (wpo_worker_heartbeat_timeout options) ∈ ctx_effects ctx ∧
         stop_requests w (ctx_effects ctx) = 0
     | WorkerCompleted =>
         is_Some (wd_stopped_at d) ∧ stop_requests w (ctx_effects ctx) ≤ 1
     | WorkerFailed => stop_requests w (ctx_effects ctx) = 0
     end).
Proof.
  intros [Hi <-]%pool_reachable_inv. split; [apply Hi|].
  intros w d Hd. pose proof (pi_workers _ _ Hi w d Hd) as Hok. unfold worker_ok in Hok.
  destruct (wd_state d); naive_solver.
Qed.

(** Workers only move along [Pending → Running → Completed or Failed]: over any
    further history of a reachable pool a worker is never forgotten, a finished
    worker keeps its state, a running worker keeps its address and client and
    its instants never go back, messages and peers only grow, the stopping time
    is written once, and a new worker gets an identifier never used before. *)
Theorem worker_lifecycle options p ctx p' ctx' :
  rtc pool_step (pool_start options) (p, ctx) → rtc pool_step (p, ctx) (p', ctx') →
  (∀ w d, im_get w (wp_workers p) = Some d →
     ∃ d', im_get w (wp_workers p') = Some d' ∧ worker_evolves d d') ∧
  (∀ w d', im_get w (wp_workers p) = None → im_get w (wp_workers p') = Some d' →
     ∀ w0, w0 ∈ im_keys (wp_workers p) → (w0 < w)%N).
Proof.
  intros [Hi _]%pool_reachable_inv Hs%pool_steps_moves. destruct (Hs Hi) as [_ He]. split.
  - apply He.
  - intros w d' Hn Hd' w0 Hw0%(pi_ids _ _ Hi).
    pose proof (pe_new _ _ _ _ He w d' Hn Hd'). simpl in *. lia.
Qed.

(** Running a task on a worker of a reachable pool: a running worker gets
    exactly one request, with the addresses of the running workers it does not
    know yet, and its activity and idle probe are renewed; otherwise nothing is
    sent out and the task is reported as failed, with the reason. *)
Theorem run_task_dispatch options p ctx w key definition :
  rtc pool_step (pool_start options) (p, ctx) →
  let '(p', ctx') := run_task p ctx w key definition in
  match im_get w (wp_workers p) with
  | None => p' = p ∧
      ctx_effects ctx' = ctx_effects ctx ++
        [EffSend (update_failed key ("worker " +:+ pretty w +:+ " not found")
           (CauseInternal ("worker " +:+ pretty w +:+ " not found")))]
  | Some d =>
      match wd_state d with
      | WorkerRunning host port _ heartbeat_at _ =>
          let now := instant_at (ctx_reads ctx) in
          ctx_effects ctx' = ctx_effects ctx ++
            [EffSendWithDelay (EvProbeIdleWorker w now) (wpo_worker_max_idle_time options);
             EffSpawn (SpRunTask w key definition
               (filter (λ x, wl_worker_id x ∉ wd_peers d) (list_running_workers p)))] ∧
          im_get w (wp_workers p') = Some (wd_with_state d
            (WorkerRunning host port now heartbeat_at
               (Some (MkClientOptions (wpo_enable_tls options) host port))))
      | _ => p' = p ∧ ∃ message cause, ctx_effects ctx' = ctx_effects ctx ++
          [EffSend (update_failed key message cause)]
      end
  end.
Proof.
  intros [Hi <-]%pool_reachable_inv. unfold run_task.
  destruct (im_get w (wp_workers p)) as [d|] eqn:Hd; [|done].
  assert (wp_set p w d = p) as Hsame
    by (unfold wp_set, wp_with_workers; rewrite im_insert_same by done; by destruct p).
  pose proof (pi_workers _ _ Hi w d Hd) as Hok.
  unfold worker_ok in Hok. unfold track_worker_activity, get_client_set.
  destruct (wd_state d) as [|host port u b c| |] eqn:Hst; simpl; rewrite ?Hst, ?Hsame;
    [eauto| |eauto..].
  split; [by rewrite <-(assoc_L (++))|]. rewrite im_get_insert_eq.
  destruct Hok as (_ & _ & _ & _ & _ & _ & Hc). unfold wd_with_state. simpl.
  do 3 f_equal. destruct c as [c|]; simpl; [|done]. by rewrite (Hc c).
Qed.
End theorems.
