(* ===== verification/DriverInterfaces.v ===== *)
(** * The interfaces that the driver relies on

    Between the job scheduler and the task assigner: the regions the scheduler
    hands over hold exactly the attempts it has just created. *)

From S2P Require Import Prelude Ids JobGraph Topology TopologyFacts JobState JobScheduler AttemptsFacts RegionFacts RefreshFacts SchedulerSystem TaskAssigner TaskAssignerFacts AssignerTheorems Streams Actor WorkerPool WorkerPoolTheorems.
Section keys.
Context `{DF : DataFusion} `{HO : HashOrder} `{FC : ForeignCauses} `{PL : !Planner}.

Definition scheduled_region (a : JobAction) : option TaskRegion :=
  match a with ActScheduleTaskRegion region => Some region | _ => None end.

(** The task attempts of the regions that the actions schedule. *)
Definition scheduled_keys (actions : list JobAction) : list TaskKey :=
  queue_keys (omap scheduled_region actions).

Lemma scheduled_keys_app a b : scheduled_keys (a ++ b) = scheduled_keys a ++ scheduled_keys b.
Proof. unfold scheduled_keys. by rewrite omap_app, queue_keys_app. Qed.

Lemma scheduled_keys_none actions :
  (∀ a, a ∈ actions → scheduled_region a = None) → scheduled_keys actions = [].
Proof.
  unfold scheduled_keys. induction actions as [|a l IH]; intros Hn; [done|]. simpl.
  rewrite Hn by set_solver. apply IH. set_solver.
Qed.

Lemma cancel_actions_no_schedule job_id s p l a :
  a ∈ cancel_actions job_id s p l → scheduled_region a = None.
Proof.
  unfold cancel_actions.
  intros (l0 & Ha & (i & x & -> & _)%elem_of_lookup_imap)%list_elem_of_join.
  destruct (is_terminal _); [set_solver|]. by apply list_elem_of_singleton in Ha as ->.
Qed.

Lemma scheduled_keys_refreshed options now job_id output job job' actions stages1 stages2 actions4 :
  refreshed options now job_id output job job' actions stages1 stages2 actions4 →
  scheduled_keys actions = scheduled_keys actions4.
Proof.
  intros [_ _ -> _ _]. rewrite !scheduled_keys_app.
  rewrite (scheduled_keys_none (tasks_output (cancel_output job_id) _ _)).
  2:{ intros a. unfold tasks_output. intros (t & Ha & _)%list_elem_of_bind.
      destruct (attempts_of _ _ _) as [l|]; [|set_solver].
      by eapply cancel_actions_no_schedule. }
  rewrite (scheduled_keys_none (tasks_output (fetch_output _ _ _) _ _)).
  2:{ intros a. unfold tasks_output. intros (t & Ha & _)%list_elem_of_bind.
      destruct (attempts_of _ _ _) as [l|]; [|set_solver]. simpl in Ha. unfold fetch_output in Ha.
      destruct (fetchable l); [|set_solver]. by apply list_elem_of_fmap in Ha as (c & -> & _). }
  rewrite (scheduled_keys_none (release_actions _ _ _)); [done|].
  intros a (s & -> & _)%list_elem_of_fmap. done.
Qed.

Lemma scheduled_tasks_NoDup job : wf_job job → NoDup (scheduled_tasks job).
Proof.
  intros Hw. destruct (wj_region_tasks _ Hw) as [Hnd _].
  unfold scheduled_tasks, scheduled_regions, selected.
  rewrite <-(imap_pair_bind rt_tasks) in Hnd.
  assert (∀ l : list (nat * TaskRegionTopology), ('(_, x) ← l; rt_tasks x) = l ≫= (rt_tasks ∘ snd))
    as Heq by (intros l; apply list_bind_ext_elem; by intros []).
  rewrite Heq in Hnd. eapply sublist_NoDup; [exact Hnd|].
  induction (imap pair _) as [|x l IH]; [done|]. rewrite filter_cons, bind_cons.
  rewrite bind_cons in Hnd. apply NoDup_app in Hnd as (_ & _ & Hnd).
  case_decide.
  - rewrite bind_cons. apply sublist_app; [done|]. by apply IH.
  - apply sublist_inserts_l. by apply IH.
Qed.

Lemma scheduled_keys_regions job_id g stages regions trs :
  (∀ x t, x ∈ regions → t ∈ rt_tasks x.2 → tt_partition t < parts g (tt_stage t)) →
  Forall2 (λ (x : nat * TaskRegionTopology) tr,
    region_spec job_id g stages (rt_tasks x.2) tr) regions trs →
  scheduled_keys (ActScheduleTaskRegion <$> trs) ≡ₚ
    task_key_of job_id stages <$> (regions ≫= rt_tasks ∘ snd).
Proof.
  intros Hp Hf. unfold scheduled_keys.
  induction Hf as [|x tr regions trs Hspec _ IH]; [done|].
  rewrite fmap_cons, bind_cons, fmap_app. cbn [omap list_omap scheduled_region].
  change (tr :: omap scheduled_region (ActScheduleTaskRegion <$> trs))
    with ([tr] ++ omap scheduled_region (ActScheduleTaskRegion <$> trs)).
  rewrite queue_keys_app, IH by (intros; eapply Hp; [|done]; set_solver).
  f_equiv. unfold queue_keys. simpl. rewrite app_nil_r.
  apply (region_spec_tasks job_id g); [|done]. intros t Ht. eapply Hp; [|done]. set_solver.
Qed.

(** ** New attempts *)

(** An outcome either schedules nothing and keeps the number of attempts of
    every task, or adds one attempt to each scheduled task. *)
Lemma refreshed_keys options now job_id output job job' actions stages1 stages2 actions4 :
  refreshed options now job_id output job job' actions stages1 stages2 actions4 →
  ∃ ts, NoDup ts ∧
    (∀ t, t ∈ ts → is_Some (task_attempts (jd_stages job) t)) ∧
    scheduled_keys actions ≡ₚ task_key_of job_id (jd_stages job') <$> ts ∧
    ∀ s p, length <$> attempts_of (jd_stages job') s p =
      if decide (MkTaskTopology s p ∈ ts) then S ∘ length <$> attempts_of (jd_stages job) s p
      else length <$> attempts_of (jd_stages job) s p.
Proof.
  intros Hrf. pose proof (refreshed_stages_evolve _ _ _ _ _ _ _ _ _ _ Hrf) as Hev.
  rewrite (scheduled_keys_refreshed _ _ _ _ _ _ _ _ _ _ Hrf).
  destruct Hrf as [_ _ _ Hw3 Hout]. cbv zeta in Hout.
  set (job3 := settled options now job stages2) in *.
  assert (∀ s p, length <$> attempts_of (jd_stages job3) s p =
                 length <$> attempts_of (jd_stages job) s p) as Hlen
    by (intros; by apply stages_evolve_length).
  destruct (existsb region_failed _); [|destruct (forallb region_succeeded _)].
  - destruct Hout as [-> ->]. exists []. split_and!; [constructor|set_solver|done|].
    intros s p. rewrite decide_False by set_solver. apply Hlen.
  - destruct Hout as [-> ->]. exists []. split_and!; [constructor|set_solver|done|].
    intros s p. rewrite decide_False by set_solver. apply Hlen.
  - destruct Hout as (stages4 & trs & -> & [_ Ha] & -> & Htrs).
    assert (∀ x t, x ∈ scheduled_regions job3 → t ∈ rt_tasks x.2 → t ∈ all_tasks (jd_graph job))
      as Hin.
    { intros [r region] t [_ Hr%elem_of_imap_pair]%list_elem_of_filter Ht.
      eapply (wj_region_task job3 region); [done|by eapply list_elem_of_lookup_2|done]. }
    exists (scheduled_tasks job3). split_and!.
    + by apply scheduled_tasks_NoDup.
    + intros t (x & Ht & Hx)%list_elem_of_bind.
      destruct (wj_present job3 [t] Hw3) with t as [l Hl];
        [intros ? ->%list_elem_of_singleton; by eapply Hin|set_solver|].
      unfold task_attempts in *. pose proof (Hlen (tt_stage t) (tt_partition t)) as Hl'.
      rewrite Hl in Hl'. destruct (attempts_of (jd_stages job) _ _); [by eexists|done].
    + apply (scheduled_keys_regions job_id (jd_graph job)); [|done].
      intros x t Hx Ht. by eapply elem_of_all_tasks, Hin.
    + intros s p. simpl. rewrite Ha. case_decide; [|apply Hlen].
      specialize (Hlen s p). destruct (attempts_of (jd_stages job3) s p),
        (attempts_of (jd_stages job) s p); simplify_eq/=; [|done].
      unfold push_new. rewrite length_app. simpl. f_equal. lia.
Qed.

Lemma refresh_job_frame self now j self' actions :
  refresh_job self now j = Returns (self', actions) →
  ∀ j', j' ≠ j → im_get j' (js_jobs self') = im_get j' (js_jobs self).
Proof.
  unfold refresh_job. destruct (im_get j (js_jobs self)) as [job|]; intros Hr j' Hne.
  - destruct (refresh_job_descriptor _ _ _ _) as [[job' a]| |]; simplify_eq/=.
    by apply im_get_insert_ne.
  - by simplify_eq/=.
Qed.

Definition known (self : JobScheduler) (key : TaskKey) : Prop := is_Some (find_attempt self key).

Lemma known_attempts self key :
  known self key ↔ ∃ job l, im_get (tk_job_id key) (js_jobs self) = Some job ∧
    attempts_of (jd_stages job) (tk_stage key) (tk_partition key) = Some l ∧
    tk_attempt key < length l.
Proof.
  unfold known. rewrite find_attempt_attempts. split.
  - destruct (im_get _ _) as [job|]; simpl; [|by intros []].
    destruct (attempts_of _ _ _) as [l|] eqn:Hl; simpl; [|by intros []].
    intros Hk%lookup_lt_is_Some. eauto.
  - intros (job & l & -> & Hl & Hk). simpl. rewrite Hl. by apply lookup_lt_is_Some.
Qed.

Lemma known_evolves self self' key : sched_evolves self self' → known self key → known self' key.
Proof.
  intros He [a Ha]. destruct (find_attempt_evolves _ _ _ _ He Ha) as (a' & Ha' & _). by exists a'.
Qed.

(** Refreshing a job creates exactly the attempts it schedules. *)
Lemma total_refresh_keys self now j :
  sched_inv self →
  refresh_job self now j ⇓ λ '(self', actions),
    sched_inv self' ∧ sched_evolves self self' ∧ NoDup (scheduled_keys actions) ∧
    ∀ key, known self' key ∧ ¬ known self key ↔ key ∈ scheduled_keys actions.
Proof.
  intros Hinv. pose proof (total_refresh_job self now j Hinv) as Ht.
  destruct (refresh_job self now j) as [[self' actions]| |] eqn:Hr; [|done..]. simpl in *.
  destruct Ht as (Hi & He & [[-> ->]|(job & job' & ctx & st1 & st2 & a4 & Hj & Hj' & _ & Hw & Hrf)]).
  { split_and!; [done|done|constructor|]. intros key. split; [tauto|set_solver]. }
  destruct (refreshed_keys _ _ _ _ _ _ _ _ _ _ Hrf) as (ts & Hnd & Hpr & Hkeys & Hlen).
  split_and!; [done|done| |].
  { rewrite Hkeys. apply NoDup_fmap_2_strong; [|done].
    intros [s1 p1] [s2 p2] _ _ Heq. unfold task_key_of in Heq. simpl in Heq. congruence. }
  intros key. rewrite Hkeys, list_elem_of_fmap, !known_attempts. split.
  - intros [(job0 & l & Hjob0 & Hl & Hlt) Hno].
    destruct (decide (tk_job_id key = j)) as [Hk|Hne].
    2:{ destruct Hno. rewrite (refresh_job_frame _ _ _ _ _ Hr _ Hne) in Hjob0. eauto. }
    rewrite Hk in *. assert (job0 = job') as -> by congruence.
    specialize (Hlen (tk_stage key) (tk_partition key)). rewrite Hl in Hlen.
    destruct (attempts_of (jd_stages job) (tk_stage key) (tk_partition key)) as [l0|] eqn:Hl0;
      [|by case_decide].
    case_decide as Hin; simplify_eq/=.
    + exists (MkTaskTopology (tk_stage key) (tk_partition key)). split; [|done].
      unfold task_key_of, attempt_no. simpl. rewrite Hl. simpl.
      destruct (decide (tk_attempt key < length l0)); [destruct Hno; eauto|].
      destruct key; simpl in *. f_equal. lia.
    + destruct Hno. eauto with lia.
  - intros ([s p] & -> & Hin). unfold task_key_of, attempt_no. simpl.
    destruct (Hpr _ Hin) as [l0 Hl0]. unfold task_attempts in Hl0. simpl in Hl0.
    specialize (Hlen s p). rewrite decide_True, Hl0 in Hlen by done. simpl in Hlen.
    destruct (attempts_of (jd_stages job') s p) as [l|] eqn:Hl; simplify_eq/=. split.
    + exists job', l. split_and!; [done|done|lia].
    + intros (job0 & l1 & Hj0 & Hl1 & Hlt). simplify_eq. lia.
Qed.

(** ** Operations that create no attempt *)

(** A job is replaced by one with as many attempts of every task. *)
Lemma known_replace self j job job' key :
  im_get j (js_jobs self) = Some job →
  (∀ s p, length <$> attempts_of (jd_stages job') s p =
          length <$> attempts_of (jd_stages job) s p) →
  known (js_with_jobs self (im_insert j job' (js_jobs self))) key ↔ known self key.
Proof.
  intros Hj Hlen. rewrite !known_attempts. simpl.
  destruct (decide (j = tk_job_id key)) as [->|Hne].
  2:{ by rewrite im_get_insert_ne by done. }
  rewrite im_get_insert_eq, Hj. specialize (Hlen (tk_stage key) (tk_partition key)).
  split; intros (job0 & l & [= <-] & Hl & Hlt); rewrite Hl in Hlen.
  - destruct (attempts_of (jd_stages job) _ _) as [l0|] eqn:Hl0; simplify_eq/=.
    exists job, l0. split_and!; [done|done|lia].
  - destruct (attempts_of (jd_stages job') _ _) as [l0|] eqn:Hl0; simplify_eq/=.
    exists job', l0. split_and!; [done|done|lia].
Qed.

Lemma known_update_task self now key state message cause k :
  known (update_task self now key state message cause) k ↔ known self k.
Proof.
  unfold update_task. destruct (find_attempt self key); [|done].
  destruct (im_get (tk_job_id key) (js_jobs self)) as [job|] eqn:Hj; [|done].
  apply (known_replace _ _ job); [done|]. intros s p. simpl. apply stages_evolve_length.
  apply alter_attempt_evolve. intros. apply attempt_update_evolves.
Qed.

Lemma known_clean_up_job self now job_id k :
  known (JobScheduler.clean_up_job self now job_id).1 k ↔ known self k.
Proof.
  unfold JobScheduler.clean_up_job. destruct (im_get job_id (js_jobs self)) as [job|] eqn:Hj; [|done].
  apply (known_replace _ _ job); [done|]. intros s p. simpl. apply stages_evolve_length.
  apply sd_release_evolve.
Qed.

Lemma scheduled_keys_clean_up self now job_id :
  scheduled_keys (JobScheduler.clean_up_job self now job_id).2 = [].
Proof.
  unfold JobScheduler.clean_up_job, clean_up_job_descriptor.
  destruct (im_get job_id (js_jobs self)); [|done]. simpl.
  apply scheduled_keys_none. intros a [Ha|Ha]%elem_of_app.
  - unfold live_attempt_actions in Ha.
    apply list_elem_of_join in Ha as (l0 & Ha & (i & sd & -> & _)%elem_of_lookup_imap).
    apply list_elem_of_join in Ha as (l1 & Ha & (q & td & -> & _)%elem_of_lookup_imap).
    by eapply cancel_actions_no_schedule.
  - by apply list_elem_of_singleton in Ha as ->.
Qed.

Lemma known_accept_job `{!PlannerLaws PL} self now plan context r self' spawned k :
  sched_inv self → accept_job self now plan context = Returns (r, self', spawned) →
  known self' k ↔ known self k.
Proof.
  intros Hinv Hr. split.
  2:{ apply known_evolves. pose proof (total_accept_job self now plan context Hinv) as Ht.
      rewrite Hr in Ht. by destruct Ht as (_ & ? & _). }
  unfold accept_job in Hr. destruct (id_generator_next _) as [[job_id|e] g]; simplify_eq/=; [|done].
  destruct (job_graph_try_new plan) as [graph|e] eqn:Hp; simplify_eq/=; [|done].
  pose proof (total_job_descriptor now graph (JobRunning (MkJobOutputManager job_id) context)
                (planner_wf _ _ Hp)) as Hd.
  destruct (job_descriptor_try_new _ _ _) as [[job|e]| |]; simplify_eq/=; [|done].
  destruct Hd as (_ & _ & _ & Hnil). rewrite !known_attempts. simpl.
  intros (job0 & l & Hj & Hl & Hlt). rewrite im_get_insert in Hj. case_decide; simplify_eq.
  - rewrite (Hnil _ _ _ Hl) in Hlt. simpl in Hlt. lia.
  - eauto.
Qed.
End keys.

(** ** What the driver relies on in the task assigner and the worker pool

    The attempts an assigner tracks and the workers it considers active only
    ever grow through [enqueue_tasks] and [activate_worker]; a running worker
    of the pool keeps running until it is stopped. *)

(** ** The assigner *)

(** The attempt is queued or was assigned. *)
Definition tracked (a : TaskAssigner) (key : TaskKey) : Prop :=
  key ∈ queue_keys (as_task_queue a) ∨ is_Some (get_assignment a key).

Definition active (a : TaskAssigner) (w : N) : Prop :=
  ∃ slots streams, im_get w (as_workers a) = Some (WrActive slots streams).

Record narrows (a a' : TaskAssigner) : Prop := {
  na_options : as_options a' = as_options a;
  na_tracked : ∀ key, tracked a' key → tracked a key;
  na_active : ∀ w, active a' w → active a w
}.

#[global] Instance narrows_preorder : PreOrder narrows.
Proof.
  split; [by split|]. intros a b c [] []. split; [congruence|eauto|eauto].
Qed.

Lemma narrows_same a a' :
  as_options a' = as_options a → as_task_assignments a' = as_task_assignments a →
  queue_keys (as_task_queue a') ⊆ queue_keys (as_task_queue a) →
  (∀ w, active a' w → active a w) → narrows a a'.
Proof.
  intros Ho Ht Hq Hw. split; [done| |done]. unfold tracked, get_assignment. rewrite Ht. set_solver.
Qed.

(** Replacing a worker by one that is not more active. *)
Lemma active_replace a w r r' w' :
  im_get w (as_workers a) = Some r → (is_active r' = true → is_active r = true) →
  active (as_with_workers a (im_insert w r' (as_workers a))) w' → active a w'.
Proof.
  intros Hr Ha (slots & streams & Hw). simpl in Hw. rewrite im_get_insert in Hw.
  case_decide; [|by do 2 eexists]. simplify_eq. destruct r; [by do 2 eexists|].
  by specialize (Ha eq_refl).
Qed.

Lemma request_workers_narrows a n a' : request_workers a = Returns (n, a') → narrows a a'.
Proof.
  unfold request_workers. destruct (div_ceil _ _); intros; simplify_eq/=. by apply narrows_same.
Qed.

Lemma track_worker_failed_narrows a : narrows a (track_worker_failed_to_start a).
Proof. by apply narrows_same. Qed.

Lemma deactivate_narrows a w : narrows a (deactivate_worker a w).
Proof.
  unfold deactivate_worker. destruct (im_get w (as_workers a)) as [[slots streams|]|] eqn:Hw;
    [|reflexivity..].
  apply narrows_same; [done..|]. intros w'. by apply (active_replace _ _ _ _ _ Hw).
Qed.

Lemma deactivate_not_active a w : ¬ active (deactivate_worker a w) w.
Proof.
  unfold deactivate_worker, active.
  destruct (im_get w (as_workers a)) as [[slots streams|]|] eqn:Hw; intros (x & y & Hxy).
  - simpl in Hxy. by rewrite im_get_insert_eq in Hxy.
  - congruence.
  - congruence.
Qed.

Lemma activate_active a w w' : active (activate_worker a w) w' → w' = w ∨ active a w'.
Proof.
  unfold activate_worker, active. simpl. destruct (im_get w (as_workers a)) as [r|] eqn:Hw; [by right|].
  intros (slots & streams & Hg). simpl in Hg. rewrite im_get_insert in Hg.
  case_decide; [by left|right; eauto].
Qed.

Lemma activate_tracked a w key : tracked (activate_worker a w) key → tracked a key.
Proof. unfold activate_worker, tracked. simpl. by destruct (im_get w (as_workers a)). Qed.

Lemma activate_options a w : as_options (activate_worker a w) = as_options a.
Proof. unfold activate_worker. simpl. by destruct (im_get w (as_workers a)). Qed.

Lemma exclude_narrows a key : narrows a (exclude_task a key).
Proof.
  apply narrows_same; [done|done| |done]. unfold queue_keys. simpl. intros k.
  rewrite !list_elem_of_bind. intros (x & Hk & Hx). exists x. split; [done|].
  apply list_elem_of_bind in Hx as (r & Hr & Hin). apply list_elem_of_bind. exists r.
  split; [done|]. by apply list_elem_of_filter in Hin as [_ ?].
Qed.

Lemma unassign_narrows a key : narrows a (unassign_task a key).2.
Proof.
  unfold unassign_task. destruct (im_get key (as_task_assignments a)) as [[|w i]|]; simpl.
  - by apply narrows_same.
  - destruct (im_get w (as_workers a)) as [r|] eqn:Hw; [|reflexivity].
    apply narrows_same; [done..|]. intros w'. apply (active_replace _ _ _ _ _ Hw). by destruct r.
  - reflexivity.
Qed.

Lemma untrack_remote_narrows a job_id stage : narrows a (untrack_remote_streams a job_id stage).2.
Proof. by apply narrows_same. Qed.

Lemma untrack_local_narrows a job_id stage : narrows a (untrack_local_streams a job_id stage).2.
Proof.
  unfold untrack_local_streams. destruct (driver_untrack_local_streams _ _ _) as [b d].
  pose proof (untrack_workers_fmap job_id stage (as_workers a)) as Hf.
  destruct (untrack_workers job_id stage (as_workers a)) as [owners ws]. simpl in *. subst ws.
  apply narrows_same; [done..|]. intros w (slots & streams & Hw). simpl in Hw.
  unfold active. revert Hw. induction (as_workers a) as [|[w' r] l IH]; [done|]. simpl.
  case_decide; [|done]. destruct r as [sl st|]; simpl; [|done]. eauto.
Qed.

Lemma track_streams_narrows l a : narrows a (track_streams a l).
Proof.
  unfold track_streams. revert a. induction l as [|x l IH]; intros a; [reflexivity|]. simpl.
  etrans; [|apply IH]. unfold track_assignment_streams.
  destruct (tsa_assignment x) as [|w i]; simpl; [by apply narrows_same|].
  destruct (im_get w (as_workers a)) as [r|] eqn:Hw; [|by apply narrows_same].
  apply narrows_same; [done..|]. intros w' Hw'. apply (active_replace a w r) in Hw'; [done|done|].
  by destruct r.
Qed.

Lemma apply_assignment_active a x w : active (apply_assignment a x) w → active a w.
Proof.
  unfold apply_assignment. destruct (tsa_assignment x) as [|w' i]; [done|].
  destruct (im_get w' (as_workers a)) as [r|] eqn:Hw; [|done].
  intros (slots & streams & Hg). eapply (active_replace a w' r (worker_add_task_set i (tsa_set x) r));
    [done|by destruct r|]. by exists slots, streams.
Qed.

Lemma apply_assignment_table a x key :
  is_Some (get_assignment (apply_assignment a x) key) →
  key ∈ set_tasks (tsa_set x) ∨ is_Some (get_assignment a key).
Proof.
  unfold apply_assignment, get_assignment. destruct (tsa_assignment x) as [|w' i]; simpl.
  - rewrite im_get_record. case_decide; auto.
  - destruct (im_get w' (as_workers a)); simpl; [|by right]. rewrite im_get_record.
    case_decide; auto.
Qed.

Lemma foldl_apply_view l a :
  (∀ w, active (foldl apply_assignment a l) w → active a w) ∧
  (∀ key, is_Some (get_assignment (foldl apply_assignment a l) key) →
     key ∈ assignment_keys l ∨ is_Some (get_assignment a key)) ∧
  as_task_queue (foldl apply_assignment a l) = as_task_queue a ∧
  as_options (foldl apply_assignment a l) = as_options a.
Proof.
  revert a. induction l as [|x l IH]; intros a; [split_and!; auto|]. simpl.
  destruct (IH (apply_assignment a x)) as (H1 & H2 & H3 & H4). split_and!.
  - intros w Hw. by eapply apply_assignment_active, H1.
  - intros key Hk.
    change (assignment_keys (x :: l)) with (set_tasks (tsa_set x) ++ assignment_keys l).
    rewrite elem_of_app. destruct (H2 key Hk) as [?|Hk']; [auto|].
    destruct (apply_assignment_table _ _ _ Hk'); auto.
  - rewrite H3. unfold apply_assignment. destruct (tsa_assignment x); [done|].
    by destruct (im_get _ _).
  - rewrite H4. unfold apply_assignment. destruct (tsa_assignment x); [done|].
    by destruct (im_get _ _).
Qed.

(** An assignment round moves attempts from the queue to the table, and
    assigns only to active workers. *)
Lemma assign_tasks_view policy a :
  assigner_wf a →
  assign_tasks policy a ⇓ λ '(l, a'), assigner_wf a' ∧ narrows a a' ∧
    (∀ x key, x ∈ l → key ∈ set_tasks (tsa_set x) →
       tracked a key ∧ get_assignment a' key = Some (tsa_assignment x)) ∧
    ∀ x w i, x ∈ l → tsa_assignment x = AssignWorker w i → active a w.
Proof.
  intros Hw. destruct (decide (0 < as_requested_worker_count a)%N) as [Hr|Hr].
  { unfold assign_tasks. rewrite decide_True by done. simpl.
    split_and!; [done|reflexivity|set_solver|set_solver]. }
  pose proof (total_assign_tasks policy a Hw ltac:(lia)) as Ht.
  destruct (assign_tasks policy a) as [[l a']| |] eqn:Ha; [|done..]. simpl in *.
  destruct Ht as [Hw' [Hpre _ Hvac _ Htab _]]. destruct Hpre as (dn & Hq & Hf).
  apply places_keys in Hf.
  assert (∀ x key, x ∈ l → key ∈ set_tasks (tsa_set x) → tracked a key) as Htr.
  { intros x key Hx Hk. left. rewrite Hq, queue_keys_app, elem_of_app. left.
    unfold queue_keys. rewrite Hf. unfold assignment_keys. apply list_elem_of_bind. eauto. }
  split_and!; [done| | |].
  - unfold assign_tasks in Ha. rewrite decide_False in Ha by done.
    destruct (assign_queue _ _ _ _) as [[l0 queue']| |]; simplify_eq/=.
    destruct (foldl_apply_view l (as_with_queue a queue')) as (H1 & H2 & H3 & H4).
    split; [done| |done]. intros key [Hk|Hk].
    + left. rewrite Hq, queue_keys_app. set_solver.
    + destruct (H2 key Hk) as [Hin|?]; [|by right].
      apply list_elem_of_bind in Hin as (x & Hk' & Hx). by eapply Htr.
  - intros x key Hx Hk. split; [by eapply Htr|by apply Htab].
  - intros x w i Hx Has. destruct (Hvac w i) as (s & Hs & _).
    + apply list_elem_of_omap. exists x. split; [done|]. unfold assigned_slot. by rewrite Has.
    + unfold worker_slot in Hs. destruct (im_get w (as_workers a)) as [[slots streams|]|] eqn:Hg;
        [|done..]. by exists slots, streams.
Qed.

(** ** The pool *)

Definition is_running (d : WorkerDescriptor) : bool :=
  match wd_state d with WorkerRunning _ _ _ _ _ => true | _ => false end.

Definition running (p : WorkerPool) (w : N) : Prop :=
  ∃ d, im_get w (wp_workers p) = Some d ∧ is_running d = true.

Definition keeps_running (p p' : WorkerPool) : Prop := ∀ w, running p w → running p' w.

#[global] Instance keeps_running_preorder : PreOrder keeps_running.
Proof. split; [by intros p w|]. intros p1 p2 p3 H1 H2 w Hw. by apply H2, H1. Qed.

Lemma keeps_running_set p w d d' :
  im_get w (wp_workers p) = Some d → (is_running d = true → is_running d' = true) →
  keeps_running p (wp_set p w d').
Proof.
  intros Hd Hr w' (d0 & Hd0 & Hr0). unfold running. simpl. rewrite im_get_insert.
  case_decide; simplify_eq; eauto.
Qed.

Section pool.
Context `{DF : DataFusion} `{FC : ForeignCauses} `{CL : Clock}.

Lemma track_worker_activity_running ctx w d options :
  is_running (track_worker_activity ctx w d options).1 = is_running d.
Proof.
  unfold track_worker_activity, is_running. destruct (wd_state d) eqn:Hd; simpl; by rewrite ?Hd.
Qed.

Lemma get_client_set_running w d options :
  is_running (get_client_set w d options).2 = is_running d.
Proof. unfold get_client_set, is_running. destruct (wd_state d) eqn:Hd; simpl; by rewrite ?Hd. Qed.

Lemma keeps_running_call p ctx w d d1 ctx1 :
  im_get w (wp_workers p) = Some d →
  track_worker_activity ctx w d (wp_options p) = (d1, ctx1) →
  keeps_running p (wp_set p w (get_client_set w d1 (wp_options p)).2).
Proof.
  intros Hd Ht. apply (keeps_running_set _ _ d); [done|]. rewrite get_client_set_running.
  pose proof (track_worker_activity_running ctx w d (wp_options p)) as Hr. rewrite Ht in Hr.
  simpl in Hr. congruence.
Qed.

Ltac keeps_call Hd :=
  let Ht := fresh "Ht" in
  destruct (track_worker_activity _ _ _ _) eqn:Ht;
  pose proof (keeps_running_call _ _ _ _ _ _ Hd Ht);
  destruct (get_client_set _ _ _) as [[]]; simpl in *.

Lemma run_task_keeps p ctx w key def : keeps_running p (run_task p ctx w key def).1.
Proof.
  unfold run_task. destruct (im_get w (wp_workers p)) as [d|] eqn:Hd; [|reflexivity].
  keeps_call Hd; [|done]. by destruct (wd_state w1).
Qed.

Lemma stop_task_keeps p ctx w key : keeps_running p (stop_task p ctx w key).1.
Proof.
  unfold stop_task. destruct (im_get w (wp_workers p)) as [d|] eqn:Hd; [|reflexivity].
  keeps_call Hd; done.
Qed.

Lemma fetch_task_stream_keeps p ctx w key schema :
  keeps_running p (fetch_task_stream p ctx w key schema).1.2.
Proof.
  unfold fetch_task_stream. destruct (im_get w (wp_workers p)) as [d|] eqn:Hd; [|reflexivity].
  keeps_call Hd; done.
Qed.

Lemma clean_up_job_keeps p ctx w job_id stage :
  keeps_running p (clean_up_job p ctx w job_id stage).1.
Proof.
  unfold clean_up_job, clean_up_job_for_worker.
  destruct (im_get w (wp_workers p)) as [d|] eqn:Hd; [|reflexivity]. keeps_call Hd; done.
Qed.

Lemma start_worker_keeps p ctx : pool_inv p ctx → keeps_running p (start_worker p ctx).1.
Proof.
  intros Hp. unfold start_worker. destruct (id_generator_next _) as [[w|e] g] eqn:Hg; [|by intros w].
  apply id_generator_next_Ok in Hg as (-> & _ & _).
  assert (im_get (next_value (wp_worker_id_generator p)) (wp_workers p) = None) as Hn.
  { apply im_get_None. intros Hw%(pi_ids _ _ Hp). lia. }
  intros w' (d & Hd & Hr). cbv zeta. rewrite (surjective_pairing (utc_now ctx)).
  assert (next_value (wp_worker_id_generator p) ≠ w') as Hne by (intros <-; congruence).
  destruct (wp_driver_server_port _); exists d; (split; [|done]); simpl;
    by rewrite im_get_insert_ne.
Qed.

Lemma register_worker_keeps p ctx w host port :
  let r := register_worker p ctx w host port in
  keeps_running p r.1.2 ∧ (is_ok r.1.1 = true → running r.1.2 w).
Proof.
  unfold register_worker. destruct (im_get w (wp_workers p)) as [d|] eqn:Hd;
    [|split; [reflexivity|done]].
  destruct (wd_state d) eqn:Hst; simpl; [|split; [reflexivity|done]..]. split.
  - apply (keeps_running_set _ _ d); [done|]. done.
  - intros _. eexists. simpl. rewrite im_get_insert_eq. done.
Qed.

Lemma update_worker_heartbeat_keeps p ctx w : keeps_running p (update_worker_heartbeat p ctx w).1.
Proof.
  unfold update_worker_heartbeat. destruct (im_get w (wp_workers p)) as [d|] eqn:Hd; [|reflexivity].
  destruct (wd_state d) eqn:Hst; [reflexivity| |reflexivity..]. simpl.
  by apply (keeps_running_set _ _ d).
Qed.

Lemma update_worker_known_peers_keeps p w peers :
  keeps_running p (update_worker_known_peers p w peers).
Proof.
  unfold update_worker_known_peers. destruct (im_get w (wp_workers p)) as [d|] eqn:Hd;
    [|reflexivity].
  by apply (keeps_running_set _ _ d).
Qed.

Lemma fail_worker_if_pending_keeps p w : keeps_running p (fail_worker_if_pending p w).2.
Proof.
  unfold fail_worker_if_pending. destruct (im_get w (wp_workers p)) as [d|] eqn:Hd; [|reflexivity].
  destruct (wd_state d) eqn:Hst; [|reflexivity..]. apply (keeps_running_set _ _ d); [done|].
  unfold is_running. by rewrite Hst.
Qed.

(** Stopping a worker stops that worker only. *)
Lemma stop_worker_others p ctx w reason w' :
  w' ≠ w → running p w' → running (stop_worker p ctx w reason).1 w'.
Proof.
  intros Hne (d0 & Hd0 & Hr0). unfold stop_worker.
  destruct (im_get w (wp_workers p)) as [d|] eqn:Hd; [|by exists d0].
  assert (∀ d', running (wp_set p w d') w') as Hs.
  { intros d'. exists d0. simpl. by rewrite im_get_insert_ne. }
  destruct (wd_state d); [apply Hs| |by exists d0..].
  destruct (get_client_set _ _ _) as [[]]; apply Hs.
Qed.
End pool.
