(* ===== verification/JobOutput.v ===== *)
(** * The output of a job

    [crates/zelox-execution/src/driver/output.rs]: the stream that merges the task
    streams of the final stages into the result of the job.  What the channel and
    the task streams deliver is up to their writers: a poll takes the item the
    receiver has, and the merged stream ([SelectAll] of the [futures] crate) yields
    an item of any stream that has one, and drops the streams that have ended. *)

From S2P Require Import Prelude Ids JobGraph JobState Streams Actor.

Inductive Poll (A : Type) := PollPending | PollReady (a : A).
Arguments PollPending {A}.
Arguments PollReady {A} a.

Record TaskStreamWrapper := MkTaskStreamWrapper {
  tw_key : TaskStreamKey;
  tw_inner : option TaskStreamSource;
  tw_count : nat
}.

Definition task_stream_wrapper_new (key : TaskStreamKey) (inner : TaskStreamSource)
    : TaskStreamWrapper := MkTaskStreamWrapper key (Some inner) 0.

(** The four comparisons of [conflicts_with] and [mute_if_needed]: the same
    channel of the same task, of whatever attempt. *)
Definition same_channel (a b : TaskStreamKey) : bool :=
  bool_decide (ts_job_id a = ts_job_id b) && bool_decide (ts_stage a = ts_stage b)
  && bool_decide (ts_partition a = ts_partition b) && bool_decide (ts_channel a = ts_channel b).

Definition conflicts_with (w : TaskStreamWrapper) (key : TaskStreamKey) : bool :=
  same_channel (tw_key w) key && bool_decide (0 < tw_count w).

Definition mute_if_needed (key : TaskStreamKey) (w : TaskStreamWrapper) : TaskStreamWrapper :=
  if same_channel (tw_key w) key then MkTaskStreamWrapper (tw_key w) None (tw_count w) else w.

Inductive JobOutputState :=
| OutActive (inner : list TaskStreamWrapper)
| OutDraining (inner : list TaskStreamWrapper)
| OutModifying
| OutCompleted
| OutFailed.

(** [JobOutputStream::new]. *)
Definition job_output_stream_new : JobOutputState := OutActive [].

Section output.
Context `{DF : DataFusion}.

(** [TaskStreamWrapper::poll_next] when the source has [x]: the rows are
    counted. *)
Definition wrapper_took (w : TaskStreamWrapper) (x : Item) : TaskStreamWrapper :=
  match x with
  | Ok batch => MkTaskStreamWrapper (tw_key w) (tw_inner w) (tw_count w + num_rows batch)
  | Err _ => w
  end.

(** [SelectAll::poll_next], with the stream the item comes from.  A muted
    stream has ended. *)
Inductive select_poll : list TaskStreamWrapper →
    Poll (option (TaskStreamKey * Item)) → list TaskStreamWrapper → Prop :=
| SelectEnded l1 w l2 out l' :
    select_poll (l1 ++ l2) out l' → select_poll (l1 ++ w :: l2) out l'
| SelectItem l1 w l2 source x :
    tw_inner w = Some source →
    select_poll (l1 ++ w :: l2) (PollReady (Some (tw_key w, x))) (l1 ++ wrapper_took w x :: l2)
| SelectPending w l : is_Some (tw_inner w) → w ∈ l → select_poll l PollPending l
| SelectEmpty : select_poll [] (PollReady None) [].

(** The first [match] of [poll_next], on what the receiver has; an item on the
    right is returned at once. *)
Definition poll_receiver (state : JobOutputState) (recv : Poll (option JobOutputItem))
    : JobOutputState * option TaskStreamError :=
  match state with
  | OutActive inner =>
      match recv with
      | PollPending => (OutActive inner, None)
      | PollReady (Some (OutputError cause)) => (OutFailed, Some (stream_error_of_cause cause))
      | PollReady (Some (OutputStream key stream)) =>
          if existsb (λ s, conflicts_with s key) inner then
            (OutFailed, Some (StreamUnknown
               ("cannot add stream for " +:+ task_stream_key_display key
                +:+ ": a different attempt has already produced job output")))
          else
            (OutActive ((mute_if_needed key <$> inner) ++ [task_stream_wrapper_new key stream]),
             None)
      | PollReady None => (OutDraining inner, None)
      end
  | _ => (state, None)
  end.

(** What a poll yields: nothing yet, an item with the stream it comes from (an
    error of the output itself comes from none), or the end. *)
Notation Yield := (Poll (option (option TaskStreamKey * Item))).

Definition yield_item (x : TaskStreamKey * Item) : Yield := PollReady (Some (Some x.1, x.2)).

(** [JobOutputStream::poll_next]. *)
Inductive output_poll : JobOutputState → Poll (option JobOutputItem) → Yield →
    JobOutputState → Prop :=
| PollFails state recv e :
    poll_receiver state recv = (OutFailed, Some e) →
    output_poll state recv (PollReady (Some (None, Err e))) OutFailed
| PollActiveItem state recv inner x inner' :
    poll_receiver state recv = (OutActive inner, None) →
    select_poll inner (PollReady (Some x)) inner' →
    output_poll state recv (yield_item x) (OutActive inner')
| PollActiveWait state recv inner out inner' :
    poll_receiver state recv = (OutActive inner, None) →
    select_poll inner out inner' → out = PollPending ∨ out = PollReady None →
    output_poll state recv PollPending (OutActive inner')
| PollDrainingItem state recv inner x inner' :
    poll_receiver state recv = (OutDraining inner, None) →
    select_poll inner (PollReady (Some x)) inner' →
    output_poll state recv (yield_item x) (OutDraining inner')
| PollDrainingWait state recv inner inner' :
    poll_receiver state recv = (OutDraining inner, None) →
    select_poll inner PollPending inner' →
    output_poll state recv PollPending (OutDraining inner')
| PollDrained state recv inner inner' :
    poll_receiver state recv = (OutDraining inner, None) →
    select_poll inner (PollReady None) inner' →
    output_poll state recv (PollReady None) OutCompleted
| PollModifying state recv :
    poll_receiver state recv = (OutModifying, None) →
    output_poll state recv PollPending OutModifying
| PollEnded state recv state' :
    poll_receiver state recv = (state', None) → state' = OutCompleted ∨ state' = OutFailed →
    output_poll state recv (PollReady None) state'.

(** The output so far, with the streams the items come from. *)
Inductive output_trace : list (option TaskStreamKey * Item) → JobOutputState → Prop :=
| OutputStart : output_trace [] job_output_stream_new
| OutputNext tr state recv out state' :
    output_trace tr state → output_poll state recv out state' →
    output_trace (tr ++ match out with PollReady (Some x) => [x] | _ => [] end) state'.

Definition selected_streams (state : JobOutputState) : list TaskStreamWrapper :=
  match state with OutActive inner | OutDraining inner => inner | _ => [] end.

(** ** Which attempts produce output *)

Definition live (w : TaskStreamWrapper) : Prop := is_Some (tw_inner w).

#[global] Instance same_channel_symm : Symmetric (λ a b, same_channel a b = true).
Proof.
  intros a b. unfold same_channel. rewrite !andb_true_iff, !bool_decide_eq_true. naive_solver.
Qed.

(** At most one live stream per channel of a task, and a muted stream has
    produced no row. *)
Record streams_ok (l : list TaskStreamWrapper) : Prop := {
  sk_distinct : ∀ i j w w', l !! i = Some w → l !! j = Some w' → live w → live w' →
    same_channel (tw_key w) (tw_key w') = true → i = j;
  sk_muted : ∀ w, w ∈ l → tw_inner w = None → tw_count w = 0
}.

Lemma streams_ok_remove l1 w l2 : streams_ok (l1 ++ w :: l2) → streams_ok (l1 ++ l2).
Proof.
  intros [Hd Hm]. split.
  - assert (∀ i x, (l1 ++ l2) !! i = Some x →
      (l1 ++ w :: l2) !! (if decide (i < length l1) then i else S i) = Some x) as Hlk.
    { intros i x. case_decide as Hi.
      - by rewrite !lookup_app_l by lia.
      - rewrite lookup_app_r by lia. intros Hx. rewrite lookup_app_r by lia.
        by replace (S i - length l1) with (S (i - length l1)) by lia. }
    intros i j x y Hx Hy Hlx Hly Hs.
    pose proof (Hd _ _ x y (Hlk _ _ Hx) (Hlk _ _ Hy) Hlx Hly Hs). repeat case_decide; lia.
  - intros x Hx. apply Hm. set_solver.
Qed.

Lemma streams_ok_took l1 w l2 source x :
  tw_inner w = Some source → streams_ok (l1 ++ w :: l2) →
  streams_ok (l1 ++ wrapper_took w x :: l2).
Proof.
  intros Hw [Hd Hm].
  assert (tw_key (wrapper_took w x) = tw_key w ∧ tw_inner (wrapper_took w x) = tw_inner w)
    as [Hk Hi] by by destruct x.
  assert (∀ i y, (l1 ++ wrapper_took w x :: l2) !! i = Some y → ∃ z,
    (l1 ++ w :: l2) !! i = Some z ∧ tw_key z = tw_key y ∧ (live y → live z)) as Hlk.
  { intros i y. destruct (decide (i = length l1)) as [->|Hne].
    - rewrite !list_lookup_middle by done. intros [= <-]. exists w. unfold live. by rewrite Hk, Hi.
    - intros Hy. exists y. split; [|done]. destruct (decide (i < length l1)).
      + by rewrite lookup_app_l in Hy |- * by lia.
      + rewrite lookup_app_r in Hy |- * by lia.
        by replace (i - length l1) with (S (i - length l1 - 1)) in Hy |- * by lia. }
  split.
  - intros i j y y' Hy Hy' Hl Hl' Hs.
    destruct (Hlk _ _ Hy) as (z & Hz & Kz & Lz), (Hlk _ _ Hy') as (z' & Hz' & Kz' & Lz').
    apply (Hd i j z z'); auto. by rewrite Kz, Kz'.
  - intros y Hy. apply elem_of_app in Hy as [Hy|[->|Hy]%elem_of_cons].
    + apply Hm. set_solver.
    + rewrite Hi, Hw. done.
    + apply Hm. set_solver.
Qed.

Lemma select_poll_ok l out l' : select_poll l out l' → streams_ok l → streams_ok l'.
Proof.
  induction 1 as [l1 w l2 out l' _ IH|l1 w l2 source x Hw| |]; intros Hok; auto.
  - by eapply IH, streams_ok_remove.
  - by eapply streams_ok_took.
Qed.

(** Adding the stream of a new attempt mutes the streams it supersedes. *)
Lemma streams_ok_add l key stream :
  existsb (λ s, conflicts_with s key) l = false → streams_ok l →
  streams_ok ((mute_if_needed key <$> l) ++ [task_stream_wrapper_new key stream]).
Proof.
  intros Hc [Hd Hm]. rewrite existsb_false in Hc.
  assert (∀ w, live (mute_if_needed key w) → mute_if_needed key w = w ∧
    same_channel (tw_key w) key = false) as Hlive.
  { intros w. unfold mute_if_needed. destruct (same_channel _ _) eqn:Hs; [by intros []|done]. }
  assert (∀ i y, ((mute_if_needed key <$> l) ++ [task_stream_wrapper_new key stream]) !! i = Some y →
    live y → l !! i = Some y ∧ same_channel (tw_key y) key = false ∨
    i = length l ∧ y = task_stream_wrapper_new key stream) as Hlk.
  { intros i y [Hy|[Hge Hy]]%lookup_app_Some Hl.
    - rewrite list_lookup_fmap in Hy. destruct (l !! i) as [w|] eqn:Hw; simplify_eq/=.
      destruct (Hlive w Hl) as [He Hs]. left. rewrite He. done.
    - right. rewrite length_fmap in *. apply list_lookup_singleton_Some in Hy as [Hi ->].
      split; [lia|done]. }
  split.
  - intros i j y y' Hy Hy' Hl Hl' Hs.
    destruct (Hlk _ _ Hy Hl) as [[H1 S1]|[-> ->]], (Hlk _ _ Hy' Hl') as [[H2 S2]|[-> ->]].
    + by eapply Hd.
    + simpl in Hs. congruence.
    + apply same_channel_symm in Hs. simpl in Hs. congruence.
    + done.
  - intros w [(w0 & -> & Hw0)%list_elem_of_fmap|Hw]%elem_of_app Hn.
    2:{ by apply list_elem_of_singleton in Hw as ->. }
    specialize (Hc w0 Hw0). unfold conflicts_with in Hc. unfold mute_if_needed in Hn |- *.
    destruct (same_channel (tw_key w0) key); [|by apply Hm].
    simpl in *. case_bool_decide; [done|lia].
Qed.

Lemma streams_ok_nil : streams_ok [].
Proof. split; [intros i j w w' Hw; by rewrite lookup_nil in Hw|set_solver]. Qed.

Lemma poll_receiver_ok state recv state' e :
  poll_receiver state recv = (state', e) → streams_ok (selected_streams state) →
  streams_ok (selected_streams state').
Proof.
  unfold poll_receiver. intros Hp Hok. pose proof streams_ok_nil.
  destruct state as [inner|inner| | |]; simplify_eq/=; try done.
  destruct recv as [|[[key stream|cause]|]]; simplify_eq/=; try done.
  destruct (existsb _ _) eqn:Hc; simplify_eq/=; [done|by apply streams_ok_add].
Qed.

Lemma output_poll_ok state recv out state' :
  output_poll state recv out state' → streams_ok (selected_streams state) →
  streams_ok (selected_streams state').
Proof.
  intros Hp Hok.
  pose proof streams_ok_nil.
  destruct Hp as [state recv e Hr|state recv inner x inner' Hr Hs|state recv inner o inner' Hr Hs _|
    state recv inner x inner' Hr Hs|state recv inner inner' Hr Hs|state recv inner inner' Hr Hs|
    state recv Hr|state recv state' Hr Hst]; pose proof (poll_receiver_ok _ _ _ _ Hr Hok);
    simpl in *; try done; try (by eapply select_poll_ok). all: by destruct Hst as [->| ->].
Qed.

Lemma output_trace_ok tr state : output_trace tr state → streams_ok (selected_streams state).
Proof.
  induction 1 as [|tr state recv out state' _ IH Hp]; [|by eapply output_poll_ok].
  apply streams_ok_nil.
Qed.

(** While the streams of a job are merged, at most one attempt of each task
    channel can still produce output, and a stream that was superseded by another
    attempt has not produced a single row; a stream whose predecessor has produced
    rows and is still merged makes the whole output fail with an error, after
    which nothing but the end follows. *)
Theorem output_single_attempt tr state key stream out state' :
  output_trace tr state →
  streams_ok (selected_streams state) ∧
  (output_poll state (PollReady (Some (OutputStream key stream))) out state' →
   ∀ inner w, state = OutActive inner → w ∈ inner → same_channel (tw_key w) key = true →
     0 < tw_count w →
     (∃ e, out = PollReady (Some (None, Err e))) ∧ state' = OutFailed ∧
     ∀ recv out' state'', output_poll state' recv out' state'' →
       out' = PollReady None ∧ state'' = OutFailed).
Proof.
  intros Htr. split; [by eapply output_trace_ok|].
  intros Hp inner w -> Hw Hs Hc.
  assert (∃ e, poll_receiver (OutActive inner) (PollReady (Some (OutputStream key stream))) =
    (OutFailed, Some e)) as (e & He).
  { simpl. assert (existsb (λ s, conflicts_with s key) inner = true) as ->; [|by eexists].
    apply existsb_Exists. exists w. split; [done|]. unfold conflicts_with.
    by rewrite Hs, bool_decide_true. }
  assert (∀ recv out' state'', output_poll OutFailed recv out' state'' →
    out' = PollReady None ∧ state'' = OutFailed) as Hend.
  { intros recv out' state'' Hq. inversion Hq; subst; simplify_eq/=; try done. }
  inversion Hp; subst; rewrite He in *; simplify_eq; try done; naive_solver eauto.
Qed.
End output.
