(* ===== verification/Driver.v ===== *)
(** * The driver actor

    [crates/zelox-execution/src/driver/actor/{core,handler,mod}.rs] with
    [driver/options.rs], the [ServerMonitor] of [rpc.rs] and the task runner of
    [task_runner/{core,mod}.rs]: the event loop that ties the job scheduler, the
    task assigner, the worker pool and the stream manager together. *)

From S2P Require Import Prelude Ids JobGraph Topology JobState JobScheduler TaskAssigner Streams Actor StreamManager WorkerPool.

(** ** Options *)

Record DriverOptions := MkDriverOptions {
  do_enable_tls : bool;
  do_driver_listen_host : string;
  do_driver_listen_port : N;
  do_driver_external_host : string;
  do_driver_external_port : N;
  do_worker_initial_count : nat;
  do_worker_max_count : N;
  do_worker_task_slots : N;
  do_worker_max_idle_time : N;
  do_worker_heartbeat_interval : N;
  do_worker_heartbeat_timeout : N;
  do_worker_launch_timeout : N;
  do_task_launch_timeout : N;
  do_task_stream_buffer : nat;
  do_task_stream_creation_timeout : N;
  do_shuffle_spill_dir : string;
  do_task_max_attempts : nat;
  do_rpc_retry_strategy : RetryStrategy
}.

Definition worker_pool_options (o : DriverOptions) : WorkerPoolOptions :=
  MkWorkerPoolOptions (do_enable_tls o) (do_driver_external_host o) (do_driver_external_port o)
    (do_worker_max_idle_time o) (do_worker_heartbeat_interval o) (do_worker_heartbeat_timeout o)
    (do_worker_launch_timeout o) (do_task_stream_buffer o) (do_task_stream_creation_timeout o)
    (do_shuffle_spill_dir o) (do_rpc_retry_strategy o).
Definition job_scheduler_options (o : DriverOptions) : JobSchedulerOptions :=
  MkJobSchedulerOptions (do_task_launch_timeout o) (do_task_max_attempts o).
Definition task_assigner_options (o : DriverOptions) : TaskAssignerOptions :=
  MkTaskAssignerOptions (do_worker_task_slots o) (do_worker_max_count o).
Definition stream_manager_options (o : DriverOptions) : StreamManagerOptions :=
  MkStreamManagerOptions (do_task_stream_buffer o) (do_task_stream_creation_timeout o)
    (do_shuffle_spill_dir o).

(** ** The driver's state *)

Section driver.
Context `{DF : DataFusion} `{HO : HashOrder} `{FC : ForeignCauses} `{PL : !Planner}
  `{DI : !DiskIo} `{CL : Clock}.

(** [TaskRunner::execute_plan]: decoding, rewriting and starting a physical
    plan. *)
Class PlanExecutor :=
  execute_plan : TaskKey → TaskDefinition → TaskContext → ExecutionResult unit.
Context `{PE : PlanExecutor}.

(** The placement policy the environment of the process selects. *)
Context (policy : PlacementPolicy).

(** [da_signals] is the state of the task runner; the sequence numbers and the
    signals are [HashMap]s. *)
Record DriverActor := MkDriverActor {
  da_options : DriverOptions;
  da_server : ServerMonitor;
  da_worker_pool : WorkerPool;
  da_job_scheduler : JobScheduler;
  da_task_assigner : TaskAssigner;
  da_signals : gset TaskKey;
  da_stream_manager : StreamManager;
  da_task_sequences : gmap TaskKey N;
  da_history : option N
}.

Definition driver_new (options : DriverOptions) : DriverActor :=
  MkDriverActor options ServerStopped (worker_pool_new (worker_pool_options options))
    (job_scheduler_new (job_scheduler_options options))
    (task_assigner_new (task_assigner_options options)) ∅
    (stream_manager_new (stream_manager_options options)) ∅ None.

Definition da_with_server (d : DriverActor) (x : ServerMonitor) : DriverActor :=
  MkDriverActor (da_options d) x (da_worker_pool d) (da_job_scheduler d) (da_task_assigner d)
    (da_signals d) (da_stream_manager d) (da_task_sequences d) (da_history d).
Definition da_with_pool (d : DriverActor) (x : WorkerPool) : DriverActor :=
  MkDriverActor (da_options d) (da_server d) x (da_job_scheduler d) (da_task_assigner d)
    (da_signals d) (da_stream_manager d) (da_task_sequences d) (da_history d).
Definition da_with_scheduler (d : DriverActor) (x : JobScheduler) : DriverActor :=
  MkDriverActor (da_options d) (da_server d) (da_worker_pool d) x (da_task_assigner d)
    (da_signals d) (da_stream_manager d) (da_task_sequences d) (da_history d).
Definition da_with_assigner (d : DriverActor) (x : TaskAssigner) : DriverActor :=
  MkDriverActor (da_options d) (da_server d) (da_worker_pool d) (da_job_scheduler d) x
    (da_signals d) (da_stream_manager d) (da_task_sequences d) (da_history d).
Definition da_with_signals (d : DriverActor) (x : gset TaskKey) : DriverActor :=
  MkDriverActor (da_options d) (da_server d) (da_worker_pool d) (da_job_scheduler d)
    (da_task_assigner d) x (da_stream_manager d) (da_task_sequences d) (da_history d).
Definition da_with_streams (d : DriverActor) (x : StreamManager) : DriverActor :=
  MkDriverActor (da_options d) (da_server d) (da_worker_pool d) (da_job_scheduler d)
    (da_task_assigner d) (da_signals d) x (da_task_sequences d) (da_history d).
Definition da_with_sequences (d : DriverActor) (x : gmap TaskKey N) : DriverActor :=
  MkDriverActor (da_options d) (da_server d) (da_worker_pool d) (da_job_scheduler d)
    (da_task_assigner d) (da_signals d) (da_stream_manager d) x (da_history d).
Definition da_with_history (d : DriverActor) (x : option N) : DriverActor :=
  MkDriverActor (da_options d) (da_server d) (da_worker_pool d) (da_job_scheduler d)
    (da_task_assigner d) (da_signals d) (da_stream_manager d) (da_task_sequences d) x.

(** The driver with its context: what an operation reads and returns. *)
Notation State := (DriverActor * ActorContext)%type.

(** A pool operation on the driver. *)
Definition on_pool (f : WorkerPool → ActorContext → WorkerPool * ActorContext) (st : State)
    : State :=
  let '(self, ctx) := st in
  let '(pool, ctx) := f (da_worker_pool self) ctx in (da_with_pool self pool, ctx).

(** ** The task runner *)

Definition runner_run_task (st : State) (key : TaskKey) (definition : TaskDefinition)
    (context : TaskContext) : State :=
  let '(self, ctx) := st in
  match execute_plan key definition context with
  | Err e =>
      (self, ctx_send ctx (update_failed key
               ("failed to execute plan: " +:+ execution_error_display e) (cause_of_error e)))
  | Ok _ =>
      (da_with_signals self ({[key]} ∪ da_signals self), ctx_spawn ctx (SpTaskMonitor key))
  end.

Definition runner_stop_task (st : State) (key : TaskKey) : State :=
  let '(self, ctx) := st in
  if decide (key ∈ da_signals self) then
    (da_with_signals self (da_signals self ∖ {[key]}), ctx_emit ctx (EffSignal key))
  else st.

(** ** Scheduler calls that read the clock *)

Definition scheduler_update (st : State) (key : TaskKey) (state : TaskState)
    (message : option string) (cause : option CommonErrorCause) : State :=
  let '(self, ctx) := st in
  let '(now, ctx) := utc_now ctx in
  (da_with_scheduler self
     (update_task (da_job_scheduler self) now key state message cause), ctx).

(** ** Job actions *)

Definition probe_region (self : DriverActor) (region : TaskRegion) (ctx : ActorContext)
    : ActorContext :=
  foldl (λ ctx key, ctx_send_with_delay ctx (EvProbePendingTask key)
                      (do_task_launch_timeout (da_options self)))
    ctx ('(_, set) ← region_tasks region; te_key <$> set_entries set).

(** The stream for the job output, an error being delivered in the stream. *)
Definition output_source (r : ExecutionResult TaskStreamSource) : TaskStreamSource :=
  match r with
  | Ok source => source
  | Err e => SourceError (StreamExternal e)
  end.

Definition clean_up_stream (job_id : N) (stage : option nat) (st : State)
    (x : TaskStreamAssignment) : State :=
  match x with
  | StreamDriver =>
      let '(self, ctx) := st in
      (da_with_streams self (remove_local_streams (da_stream_manager self) job_id stage), ctx)
  | StreamWorker worker_id =>
      on_pool (λ pool ctx, WorkerPool.clean_up_job pool ctx worker_id job_id stage) st
  end.

Definition run_job_action (st : State) (action : JobAction) : Run State :=
  let '(self, ctx) := st in
  match action with
  | ActScheduleTaskRegion region =>
      let ctx := probe_region self region ctx in
      Returns (da_with_assigner self (enqueue_tasks (da_task_assigner self) region), ctx)
  | ActCancelTask key =>
      let assigner := exclude_task (da_task_assigner self) key in
      let '(assignment, assigner) := unassign_task assigner key in
      let st := (da_with_assigner self assigner, ctx) in
      match assignment with
      | None => Returns st
      | Some AssignDriver => Returns (runner_stop_task st key)
      | Some (AssignWorker worker_id _) =>
          Returns (on_pool (λ pool ctx, stop_task pool ctx worker_id key) st)
      end
  | ActExtendJobOutput handle key schema =>
      match get_assignment (da_task_assigner self) (task_key_of_stream key) with
      | None => Returns st
      | Some AssignDriver =>
          '(r, streams, ctx) ← fetch_local_stream (da_stream_manager self) ctx key;
          Returns (da_with_streams self streams,
                   ctx_spawn ctx (SpSendOutput handle (OutputStream key (output_source r))))
      | Some (AssignWorker worker_id _) =>
          let '(r, pool, ctx) := fetch_task_stream (da_worker_pool self) ctx worker_id key schema in
          Returns (da_with_pool self pool,
                   ctx_spawn ctx (SpSendOutput handle (OutputStream key (output_source r))))
      end
  | ActFailJobOutput handle cause =>
      Returns (self, ctx_spawn ctx (SpSendOutput handle (OutputError cause)))
  | ActCleanUpJob job_id stage =>
      let '(remote, assigner) := untrack_remote_streams (da_task_assigner self) job_id stage in
      let '(streams, ctx) :=
        if (remote : bool) then remove_remote_streams (da_stream_manager self) ctx job_id stage
        else (da_stream_manager self, ctx) in
      let '(owners, assigner) := untrack_local_streams assigner job_id stage in
      Returns (foldl (clean_up_stream job_id stage)
                 (da_with_streams (da_with_assigner self assigner) streams, ctx)
                 (hash_order owners))
  end.

Definition refresh (st : State) (job_id : N) : Run State :=
  let '(self, ctx) := st in
  let '(now, ctx) := utc_now ctx in
  '(scheduler, actions) ← refresh_job (da_job_scheduler self) now job_id;
  for_each run_job_action (da_with_scheduler self scheduler, ctx) actions.

Definition driver_clean_up_job (st : State) (job_id : N) : Run State :=
  let '(self, ctx) := st in
  let '(now, ctx) := utc_now ctx in
  let '(scheduler, actions) := JobScheduler.clean_up_job (da_job_scheduler self) now job_id in
  for_each run_job_action (da_with_scheduler self scheduler, ctx) actions.

(** ** Running tasks *)

Definition dispatch (st : State) (assignment : TaskAssignment) (key : TaskKey)
    (definition : TaskDefinition) (context : TaskContext) : State :=
  match assignment with
  | AssignDriver => runner_run_task st key definition context
  | AssignWorker worker_id _ =>
      on_pool (λ pool ctx, WorkerPool.run_task pool ctx worker_id key definition) st
  end.

Definition run_entry (assignment : TaskAssignment) (st : State) (entry : TaskSetEntry) : State :=
  let '(self, ctx) := st in
  let key := te_key entry in
  match get_task_definition (get_assignment (da_task_assigner self)) (da_job_scheduler self) key with
  | Err e =>
      (self, ctx_send ctx (update_failed key (execution_error_display e) (cause_of_error e)))
  | Ok (definition, context) =>
      let st := scheduler_update st key TaskScheduled None None in
      dispatch st assignment key definition context
  end.

Definition run_tasks (st : State) : Run State :=
  let '(self, ctx) := st in
  '(assignments, assigner) ← assign_tasks policy (da_task_assigner self);
  let self := da_with_assigner self (track_streams assigner assignments) in
  Returns (foldl (λ st a, foldl (run_entry (tsa_assignment a)) st (set_entries (tsa_set a)))
             (self, ctx) assignments).

Definition start_workers (n : nat) (st : State) : State :=
  Nat.iter n (on_pool start_worker) st.

Definition scale_up_workers (st : State) : Run State :=
  let '(self, ctx) := st in
  '(n, assigner) ← request_workers (da_task_assigner self);
  Returns (start_workers (N.to_nat n) (da_with_assigner self assigner, ctx)).

(** [self.refresh_job(..); self.run_tasks(ctx); self.scale_up_workers(ctx);] *)
Definition refresh_and_run (st : State) (job_id : N) : Run State :=
  st ← refresh st job_id; st ← run_tasks st; scale_up_workers st.

(** ** Handlers *)

Definition continue_ (st : State) : ActorAction * DriverActor * ActorContext :=
  (ActorContinue, st.1, st.2).

Definition handle_server_ready (self : DriverActor) (ctx : ActorContext) (port signal : N)
    : ActorAction * DriverActor * ActorContext :=
  match server_ready (da_server self) signal with
  | Err _ => (ActorStop, da_with_server self ServerStopped, ctx)
  | Ok server =>
      let self := da_with_server self server in
      let self := da_with_pool self (set_driver_server_port (da_worker_pool self) port) in
      continue_ (start_workers (do_worker_initial_count (da_options self)) (self, ctx))
  end.

Definition handle_register_worker (self : DriverActor) (ctx : ActorContext) (worker_id : N)
    (host : string) (port result : N) : Run (ActorAction * DriverActor * ActorContext) :=
  let '(out, pool, ctx) := register_worker (da_worker_pool self) ctx worker_id host port in
  let self := da_with_pool self pool in
  '(self, ctx) ←
    (if is_ok out then
       run_tasks (da_with_assigner self (activate_worker (da_task_assigner self) worker_id), ctx)
     else Returns (self, ctx));
  Returns (continue_ (self, ctx_reply ctx result (ReplyUnit out))).

Definition handle_worker_heartbeat (self : DriverActor) (ctx : ActorContext) (worker_id : N)
    : ActorAction * DriverActor * ActorContext :=
  continue_ (on_pool (λ pool ctx, update_worker_heartbeat pool ctx worker_id) (self, ctx)).

Definition handle_worker_known_peers (self : DriverActor) (ctx : ActorContext) (worker_id : N)
    (peers : list N) : ActorAction * DriverActor * ActorContext :=
  continue_ (da_with_pool self
               (update_worker_known_peers (da_worker_pool self) worker_id peers), ctx).

Definition handle_probe_pending_worker (self : DriverActor) (ctx : ActorContext) (worker_id : N)
    : Run (ActorAction * DriverActor * ActorContext) :=
  let '(failed, pool) := fail_worker_if_pending (da_worker_pool self) worker_id in
  let self := da_with_pool self pool in
  if (failed : bool) then
    st ← scale_up_workers
           (da_with_assigner self (track_worker_failed_to_start (da_task_assigner self)), ctx);
    Returns (continue_ st)
  else Returns (continue_ (self, ctx)).

(** [x.is_some_and(|x| x <= instant)]. *)
Definition not_after (x : option Z) (instant : Z) : bool :=
  from_option (λ x, bool_decide (x ≤ instant)%Z) false x.

Definition handle_probe_idle_worker (self : DriverActor) (ctx : ActorContext) (worker_id : N)
    (instant : Z) : ActorAction * DriverActor * ActorContext :=
  if is_worker_idle (da_task_assigner self) worker_id
     && not_after (get_worker_last_update (da_worker_pool self) worker_id) instant then
    let '(self, ctx) :=
      on_pool (λ pool ctx, stop_worker pool ctx worker_id
                 (Some "worker has been idle for too long")) (self, ctx) in
    continue_ (da_with_assigner self (deactivate_worker (da_task_assigner self) worker_id), ctx)
  else continue_ (self, ctx).

Definition handle_probe_lost_worker (self : DriverActor) (ctx : ActorContext) (worker_id : N)
    (instant : Z) : Run (ActorAction * DriverActor * ActorContext) :=
  if not_after (get_worker_last_heartbeat (da_worker_pool self) worker_id) instant then
    let '(self, ctx) :=
      on_pool (λ pool ctx, stop_worker pool ctx worker_id (Some "worker heartbeat timeout"))
        (self, ctx) in
    let message := "task failed for lost worker" in
    let keys := find_worker_tasks (da_task_assigner self) worker_id in
    let self := da_with_assigner self (deactivate_worker (da_task_assigner self) worker_id) in
    let st := foldl (λ st key, scheduler_update st key TaskFailed (Some message)
                                 (Some (CauseExecution message))) (self, ctx) keys in
    let job_ids := hash_order (remove_dups (tk_job_id <$> keys)) in
    st ← for_each refresh_and_run st job_ids;
    Returns (continue_ st)
  else Returns (continue_ (self, ctx)).

Definition handle_execute_job (self : DriverActor) (ctx : ActorContext) (plan : Plan)
    (context : TaskContext) (result : N) : Run (ActorAction * DriverActor * ActorContext) :=
  let '(now, ctx) := utc_now ctx in
  '(out, scheduler, pumps) ← accept_job (da_job_scheduler self) now plan context;
  let ctx := foldl (λ ctx job_id, ctx_spawn ctx (SpJobOutput job_id)) ctx pumps in
  let self := da_with_scheduler self scheduler in
  '(self, ctx) ← match out with
                 | Ok job_id => refresh_and_run (self, ctx) job_id
                 | Err _ => Returns (self, ctx)
                 end;
  Returns (continue_ (self, ctx_reply ctx result (ReplyJob out))).

Definition handle_clean_up_job (self : DriverActor) (ctx : ActorContext) (job_id : N)
    : Run (ActorAction * DriverActor * ActorContext) :=
  st ← driver_clean_up_job (self, ctx) job_id; Returns (continue_ st).

(** The task status update from a worker, unless it is outdated. *)
Definition accept_sequence (self : DriverActor) (key : TaskKey) (sequence : option N)
    : option DriverActor :=
  match sequence with
  | None => Some self
  | Some sequence =>
      if from_option (λ s, bool_decide (sequence ≤ s)%N) false (da_task_sequences self !! key)
      then None
      else Some (da_with_sequences self (<[key := sequence]> (da_task_sequences self)))
  end.

(** The branches for [Succeeded] and [Failed]. *)
Definition finish_task (st : State) (key : TaskKey) (state : TaskState) (message : option string)
    (cause : option CommonErrorCause) : Run State :=
  let '(self, ctx) := scheduler_update st key state message cause in
  let '(_, assigner) := unassign_task (da_task_assigner self) key in
  refresh_and_run (da_with_assigner self assigner, ctx) (tk_job_id key).

Definition handle_update_task (self : DriverActor) (ctx : ActorContext) (key : TaskKey)
    (status : TaskStatus) (message : option string) (cause : option CommonErrorCause)
    (sequence : option N) : Run (ActorAction * DriverActor * ActorContext) :=
  match accept_sequence self key sequence with
  | None => Returns (continue_ (self, ctx))
  | Some self =>
      st ← match status with
           | StatusRunning =>
               refresh (scheduler_update (self, ctx) key TaskRunning message cause)
                 (tk_job_id key)
           | StatusSucceeded => finish_task (self, ctx) key TaskSucceeded message cause
           | StatusFailed => finish_task (self, ctx) key TaskFailed message cause
           | StatusCanceled =>
               Returns (scheduler_update (self, ctx) key TaskCanceled message cause)
           end;
      Returns (continue_ st)
  end.

Definition handle_probe_pending_task (self : DriverActor) (ctx : ActorContext) (key : TaskKey)
    : ActorAction * DriverActor * ActorContext :=
  match get_task_state (da_job_scheduler self) key with
  | Some TaskCreated =>
      let message := "task scheduling timeout" in
      continue_ (self, ctx_send ctx (update_failed key message (CauseExecution message)))
  | _ => continue_ (self, ctx)
  end.

Definition handle_probe_pending_local_stream (self : DriverActor) (ctx : ActorContext)
    (key : TaskStreamKey) : ActorAction * DriverActor * ActorContext :=
  continue_ (da_with_streams self (fail_local_stream_if_pending (da_stream_manager self) key), ctx).

Definition handle_create_local_stream (self : DriverActor) (ctx : ActorContext)
    (key : TaskStreamKey) (storage : LocalStreamStorage) (schema : Schema) (result : N)
    : Run (ActorAction * DriverActor * ActorContext) :=
  '(r, streams) ← create_local_stream (da_stream_manager self) key storage schema;
  Returns (continue_ (da_with_streams self streams, ctx_reply ctx result (ReplySink r))).

Definition handle_create_remote_stream (self : DriverActor) (ctx : ActorContext) (uri : string)
    (key : TaskStreamKey) (schema : Schema) (result : N)
    : ActorAction * DriverActor * ActorContext :=
  continue_ (self, ctx_reply ctx result
               (ReplySink (create_remote_stream (da_stream_manager self) uri key schema))).

Definition handle_fetch_driver_stream (self : DriverActor) (ctx : ActorContext)
    (key : TaskStreamKey) (result : N) : Run (ActorAction * DriverActor * ActorContext) :=
  '(r, streams, ctx) ← fetch_local_stream (da_stream_manager self) ctx key;
  Returns (continue_ (da_with_streams self streams, ctx_reply ctx result (ReplySource r))).

Definition handle_fetch_worker_stream (self : DriverActor) (ctx : ActorContext) (worker_id : N)
    (key : TaskStreamKey) (schema : Schema) (result : N)
    : ActorAction * DriverActor * ActorContext :=
  let '(r, pool, ctx) := fetch_task_stream (da_worker_pool self) ctx worker_id key schema in
  continue_ (da_with_pool self pool, ctx_reply ctx result (ReplySource r)).

Definition handle_fetch_remote_stream (self : DriverActor) (ctx : ActorContext) (uri : string)
    (key : TaskStreamKey) (schema : Schema) (result : N)
    : ActorAction * DriverActor * ActorContext :=
  continue_ (self, ctx_reply ctx result
               (ReplySource (fetch_remote_stream (da_stream_manager self) ctx uri key schema))).

Definition handle_shutdown (self : DriverActor) (ctx : ActorContext) (history : option N)
    : ActorAction * DriverActor * ActorContext :=
  (ActorStop, da_with_history self history, ctx).

Definition build_history (self : DriverActor) : JobRunnerHistory :=
  MkJobRunnerHistory (observe_job_snapshots (da_job_scheduler self))
    (observe_stage_snapshots (da_job_scheduler self))
    (observe_task_snapshots (da_job_scheduler self))
    (observe_worker_snapshots (da_worker_pool self)).

(** ** The actor *)

Definition driver_start (self : DriverActor) : DriverActor :=
  da_with_server self (server_start (da_server self)).

Definition receive (self : DriverActor) (ctx : ActorContext) (message : DriverEvent)
    : Run (ActorAction * DriverActor * ActorContext) :=
  match message with
  | EvServerReady port signal => Returns (handle_server_ready self ctx port signal)
  | EvRegisterWorker worker_id host port result =>
      handle_register_worker self ctx worker_id host port result
  | EvWorkerHeartbeat worker_id => Returns (handle_worker_heartbeat self ctx worker_id)
  | EvWorkerKnownPeers worker_id peers =>
      Returns (handle_worker_known_peers self ctx worker_id peers)
  | EvProbePendingWorker worker_id => handle_probe_pending_worker self ctx worker_id
  | EvProbeIdleWorker worker_id instant =>
      Returns (handle_probe_idle_worker self ctx worker_id instant)
  | EvProbeLostWorker worker_id instant => handle_probe_lost_worker self ctx worker_id instant
  | EvExecuteJob plan context result => handle_execute_job self ctx plan context result
  | EvCleanUpJob job_id => handle_clean_up_job self ctx job_id
  | EvUpdateTask key status message cause sequence =>
      handle_update_task self ctx key status message cause sequence
  | EvProbePendingTask key => Returns (handle_probe_pending_task self ctx key)
  | EvProbePendingLocalStream key => Returns (handle_probe_pending_local_stream self ctx key)
  | EvCreateLocalStream key storage schema result =>
      handle_create_local_stream self ctx key storage schema result
  | EvCreateRemoteStream uri key schema result =>
      Returns (handle_create_remote_stream self ctx uri key schema result)
  | EvFetchDriverStream key result => handle_fetch_driver_stream self ctx key result
  | EvFetchWorkerStream worker_id key schema result =>
      Returns (handle_fetch_worker_stream self ctx worker_id key schema result)
  | EvFetchRemoteStream uri key schema result =>
      Returns (handle_fetch_remote_stream self ctx uri key schema result)
  | EvShutdown history => Returns (handle_shutdown self ctx history)
  end.

(** [stop]; [manager_stop] is the outcome of stopping the worker manager. *)
Definition driver_stop (self : DriverActor) (ctx : ActorContext)
    (manager_stop : ExecutionResult unit) : DriverActor * ActorContext :=
  let '(now, ctx) := utc_now ctx in
  let self := da_with_scheduler self (job_scheduler_stop (da_job_scheduler self) now) in
  let '(_, pool, ctx) := close (da_worker_pool self) ctx manager_stop in
  let self := da_with_pool self pool in
  let ctx := match da_history self with
             | Some channel => ctx_reply ctx channel (ReplyHistory (build_history self))
             | None => ctx
             end in
  (da_with_server (da_with_history self None) ServerStopped, ctx).
End driver.
