(* ===== verification/DriverFacts.v ===== *)
(** * The invariant of the driver

    The components of a reachable driver agree with each other: the attempts the
    assigner tracks are attempts of the scheduler, the workers it uses run in the
    pool, and every attempt has its launch probe. *)

From S2P Require Import Prelude Ids JobGraph Topology TopologyFacts JobState JobScheduler AttemptsFacts RefreshFacts SchedulerSystem TaskAssigner TaskAssignerFacts AssignerTheorems Streams StreamTheorems Actor StreamManager StreamManagerTheorems WorkerPool WorkerPoolTheorems DriverInterfaces Driver.

Section facts.
Context `{DF : DataFusion} `{HO : HashOrder} `{FC : ForeignCauses} `{PL : !Planner}
  `{DI : !DiskIo} `{CL : Clock} `{PE : !PlanExecutor} `{!PlannerLaws PL} `{!ClockLaws CL}.
Context (policy : PlacementPolicy).
Implicit Types (d : DriverActor) (ctx : ActorContext).

Notation State := (DriverActor * ActorContext)%type.

(** The configurations the driver can run with. *)
Definition options_ok (o : DriverOptions) : Prop :=
  (0 < do_worker_task_slots o)%N ∧ 0 < do_task_stream_buffer o.

(** What holds besides the scheduler, for the attempts [K]. *)
Record core_inv (K : TaskKey → Prop) (st : State) : Prop := {
  ci_options : options_ok (da_options st.1);
  ci_assigner : assigner_wf (da_task_assigner st.1);
  ci_assigner_options :
    as_options (da_task_assigner st.1) = task_assigner_options (da_options st.1);
  ci_tracked : ∀ key, tracked (da_task_assigner st.1) key → K key;
  ci_active : ∀ w, active (da_task_assigner st.1) w → running (da_worker_pool st.1) w;
  ci_pool : pool_inv (da_worker_pool st.1) st.2;
  ci_streams : manager_wf (da_stream_manager st.1);
  ci_stream_options :
    sm_options (da_stream_manager st.1) = stream_manager_options (da_options st.1);
  ci_probed : ∀ key, K key →
    EffSendWithDelay (EvProbePendingTask key) (do_task_launch_timeout (da_options st.1))
      ∈ ctx_effects st.2
}.

Record driver_inv (st : State) : Prop := {
  di_scheduler : sched_inv (da_job_scheduler st.1);
  di_core : core_inv (known (da_job_scheduler st.1)) st
}.

(** What an operation on the other components leaves alone. *)
Record frame (st st' : State) : Prop := {
  fr_options : da_options st'.1 = da_options st.1;
  fr_scheduler : da_job_scheduler st'.1 = da_job_scheduler st.1;
  fr_sequences : da_task_sequences st'.1 = da_task_sequences st.1;
  fr_ctx : ctx_extends st.2 st'.2
}.

#[global] Instance frame_preorder : PreOrder frame.
Proof.
  split; [split; try done; reflexivity|]. intros s1 s2 s3 [] [].
  split; [congruence..|by etrans].
Qed.

(** ** Components one at a time *)

Lemma core_inv_iff K K' st : (∀ key, K key ↔ K' key) → core_inv K st → core_inv K' st.
Proof. intros HK []. split; try done; intros key; rewrite <-HK; auto. Qed.

Lemma core_inv_ctx K d ctx ctx' :
  ctx_quiet ctx ctx' → core_inv K (d, ctx) → core_inv K (d, ctx').
Proof.
  intros [He Hq] []. split; try done.
  - simpl. by eapply pool_inv_ctx.
  - intros key Hk. eapply elem_of_extends; [done|]. by apply ci_probed0.
Qed.

Lemma core_inv_assigner K d ctx a :
  assigner_wf a → narrows (da_task_assigner d) a →
  core_inv K (d, ctx) → core_inv K (da_with_assigner d a, ctx).
Proof.
  intros Ha [Ho Ht Hw] []. split; simpl in *; try done; [congruence|eauto|eauto].
Qed.

Lemma core_inv_assigner_step K d ctx a :
  assigner_step policy (da_task_assigner d) a → narrows (da_task_assigner d) a →
  core_inv K (d, ctx) → core_inv K (da_with_assigner d a, ctx).
Proof.
  intros Hs Hn Hc. apply core_inv_assigner; [|done|done].
  eapply assigner_step_wf; [apply (ci_assigner _ _ Hc)|done].
Qed.

Lemma core_inv_pool K d ctx p ctx' :
  pool_moves (da_worker_pool d) ctx (p, ctx') → keeps_running (da_worker_pool d) p →
  core_inv K (d, ctx) → core_inv K (da_with_pool d p, ctx').
Proof.
  intros Hm Hk []. simpl in *. destruct (Hm ci_pool0) as [Hi He]. simpl in *.
  split; simpl; try done; [eauto|].
  intros key HK. eapply elem_of_extends; [apply He|]. by apply ci_probed0.
Qed.

Lemma core_inv_streams K d ctx s :
  manager_wf s → sm_options s = sm_options (da_stream_manager d) →
  core_inv K (d, ctx) → core_inv K (da_with_streams d s, ctx).
Proof. intros Hw Ho []. split; simpl in *; try done. congruence. Qed.

Lemma on_pool_frame f st :
  (pool_inv (da_worker_pool st.1) st.2 → pool_moves (da_worker_pool st.1) st.2
     (f (da_worker_pool st.1) st.2)) →
  pool_inv (da_worker_pool st.1) st.2 → frame st (on_pool f st).
Proof.
  intros Hm Hi. destruct (Hm Hi Hi) as [_ He]. unfold on_pool. destruct st as [d ctx].
  simpl in *. destruct (f (da_worker_pool d) ctx) as [p ctx']. split; [done..|apply He].
Qed.

Lemma on_pool_core K f st :
  (pool_moves (da_worker_pool st.1) st.2 (f (da_worker_pool st.1) st.2)) →
  keeps_running (da_worker_pool st.1) (f (da_worker_pool st.1) st.2).1 →
  core_inv K st → core_inv K (on_pool f st) ∧ frame st (on_pool f st).
Proof.
  intros Hm Hk Hc. split; [|by apply on_pool_frame; [|apply (ci_pool _ _ Hc)]].
  destruct st as [d ctx]. simpl in *. unfold on_pool.
  destruct (f (da_worker_pool d) ctx) as [p ctx']. by eapply core_inv_pool.
Qed.

Lemma stream_buffer_pos K d ctx :
  core_inv K (d, ctx) → 0 < smo_task_stream_buffer (sm_options (da_stream_manager d)).
Proof. intros []. simpl in *. rewrite ci_stream_options0. apply ci_options0. Qed.

Lemma fetch_ctx_quiet self self' ctx ctx' key r :
  fetched_ok self self' ctx ctx' key r → ctx_quiet ctx ctx'.
Proof.
  unfold fetched_ok. destruct (sm_local_streams self !! key) as [[|[]|]|]; intros Hf.
  - destruct Hf as (c & _ & _ & _ & _ & ->). reflexivity.
  - destruct Hf as [-> _]. reflexivity.
  - destruct Hf as [-> _]. reflexivity.
  - destruct Hf as (-> & _). reflexivity.
  - destruct Hf as (c & _ & _ & _ & _ & ->). apply ctx_send_with_delay_quiet.
Qed.

Lemma total_fetch_core K d ctx key :
  core_inv K (d, ctx) →
  fetch_local_stream (da_stream_manager d) ctx key ⇓ (λ '(r, s, ctx'),
    core_inv K (da_with_streams d s, ctx') ∧ ctx_quiet ctx ctx').
Proof.
  intros Hc. eapply total_mono.
  { apply total_fetch_local_stream; [by eapply stream_buffer_pos|apply (ci_streams _ _ Hc)]. }
  intros [[r s] ctx'] (Hw & Ho & Hf%fetch_ctx_quiet). split; [|done].
  eapply core_inv_ctx; [done|]. by apply core_inv_streams.
Qed.

(** ** Job actions *)

Lemma frame_ctx d ctx ctx' : ctx_quiet ctx ctx' → frame (d, ctx) (d, ctx').
Proof. intros [He _]. by split. Qed.

Lemma probe_region_spec d region ctx :
  ctx_quiet ctx (probe_region d region ctx) ∧
  ∀ key, key ∈ queue_keys [region] →
    EffSendWithDelay (EvProbePendingTask key) (do_task_launch_timeout (da_options d))
      ∈ ctx_effects (probe_region d region ctx).
Proof.
  unfold probe_region, queue_keys. cbn [mbind list_bind]. rewrite app_nil_r.
  change (λ '(_, set), te_key <$> set_entries set)
    with (λ x : TaskPlacement * TaskSet, let '(_, set) := x in set_tasks set).
  generalize ('(_, set) ← region_tasks region; set_tasks set). intros l. revert ctx.
  induction l as [|k l IH]; intros ctx; simpl.
  { split; [reflexivity|set_solver]. }
  destruct (IH (ctx_send_with_delay ctx (EvProbePendingTask k)
                  (do_task_launch_timeout (da_options d)))) as [Hq Hin].
  split; [by etrans; [apply ctx_send_with_delay_quiet|]|].
  intros key [->|Hk]%elem_of_cons; [|by apply Hin].
  eapply elem_of_extends; [apply Hq|apply elem_of_emit].
Qed.

Lemma enqueue_tracked a region key :
  tracked (enqueue_tasks a region) key → tracked a key ∨ key ∈ queue_keys [region].
Proof.
  unfold tracked. simpl. rewrite queue_keys_app, elem_of_app. unfold get_assignment. simpl. tauto.
Qed.

Lemma schedule_core K d ctx region :
  core_inv K (d, ctx) → NoDup (queue_keys [region]) →
  (∀ key, key ∈ queue_keys [region] → ¬ K key) →
  let st' := (da_with_assigner d (enqueue_tasks (da_task_assigner d) region),
              probe_region d region ctx) in
  core_inv (λ key, K key ∨ key ∈ queue_keys [region]) st' ∧ frame (d, ctx) st'.
Proof.
  intros Hc Hnd Hfresh. destruct (probe_region_spec d region ctx) as [Hq Hprobe].
  destruct Hq as [He Hs]. split; [|by split].
  destruct Hc as [Ho Ha Hao Ht Hact Hp Hst Hso Hpr]. simpl in *.
  split; simpl; try done.
  - eapply (assigner_step_wf policy); [exact Ha|]. apply AsEnqueue.
    destruct Ha as [_ [Hqnd Hqf]]. rewrite queue_keys_app. split.
    + apply NoDup_app. split_and!; [done| |done]. intros key Hk Hk'.
      apply (Hfresh key Hk'), Ht. by left.
    + intros key [Hk|Hk]%elem_of_app; [by apply Hqf|].
      destruct (get_assignment (da_task_assigner d) key) eqn:Hg; [|done].
      destruct (Hfresh key Hk). apply Ht. right. by eexists.
  - intros key [Hk|Hk]%enqueue_tracked; auto.
  - by eapply pool_inv_ctx.
  - intros key [Hk|Hk]; [|by apply Hprobe]. eapply elem_of_extends; [done|]. by apply Hpr.
Qed.

Lemma runner_stop_task_core K st key :
  core_inv K st → core_inv K (runner_stop_task st key) ∧ frame st (runner_stop_task st key).
Proof.
  intros Hc. destruct st as [d ctx]. simpl. case_decide; [|split; [done|reflexivity]].
  assert (ctx_quiet ctx (ctx_emit ctx (EffSignal key))) as Hq by by apply ctx_emit_quiet.
  split; [|by destruct Hq; split]. by eapply core_inv_ctx; [|destruct Hc; split].
Qed.

Lemma cancel_core K d ctx key :
  core_inv K (d, ctx) →
  run_job_action (d, ctx) (ActCancelTask key) ⇓ (λ st', core_inv K st' ∧ frame (d, ctx) st').
Proof.
  intros Hc. cbn [run_job_action].
  set (a1 := exclude_task (da_task_assigner d) key).
  assert (core_inv K (da_with_assigner d a1, ctx)) as Hc1
    by (apply core_inv_assigner_step; [constructor|apply exclude_narrows|done]).
  assert (core_inv K (da_with_assigner d (unassign_task a1 key).2, ctx)) as Hc2.
  { apply (core_inv_assigner_step K (da_with_assigner d a1)); [constructor|apply unassign_narrows|done]. }
  destruct (unassign_task a1 key) as [assignment a2]. simpl in Hc2.
  set (st2 := (da_with_assigner d a2, ctx)).
  assert (frame (d, ctx) st2) as Hf by by split.
  destruct assignment as [[|w i]|]; simpl.
  - destruct (runner_stop_task_core K st2 key Hc2). split; [done|by etrans].
  - destruct (on_pool_core K (λ pool ctx, stop_task pool ctx w key) st2) as [H1 H2];
      [apply stop_task_moves|apply stop_task_keeps|done|]. split; [exact H1|].
    etrans; [exact Hf|exact H2].
  - done.
Qed.

Lemma output_core K d ctx handle key schema :
  core_inv K (d, ctx) →
  run_job_action (d, ctx) (ActExtendJobOutput handle key schema) ⇓
    (λ st', core_inv K st' ∧ frame (d, ctx) st').
Proof.
  intros Hc. cbn [run_job_action].
  destruct (get_assignment _ _) as [[|w i]|]; [| |split; [done|reflexivity]].
  - run_call (by apply total_fetch_core).
    intros [[r s] ctx'] [Hc' Hq].
    assert (ctx_quiet ctx' (ctx_spawn ctx' (SpSendOutput handle (OutputStream key (output_source r)))))
      as Hq' by by apply ctx_spawn_quiet.
    split; [by eapply core_inv_ctx|]. split; [done..|]. etrans; [apply Hq|apply Hq'].
  - pose proof (fetch_task_stream_moves (da_worker_pool d) ctx w key schema) as Hm.
    pose proof (fetch_task_stream_keeps (da_worker_pool d) ctx w key schema) as Hk.
    destruct (fetch_task_stream (da_worker_pool d) ctx w key schema) as [[r p] ctx']. simpl in *.
    assert (ctx_quiet ctx' (ctx_spawn ctx' (SpSendOutput handle (OutputStream key (output_source r)))))
      as Hq' by by apply ctx_spawn_quiet.
    destruct (Hm (ci_pool _ _ Hc)) as [_ He]. simpl in He.
    split; [eapply core_inv_ctx; [done|]; by eapply core_inv_pool|].
    split; [done..|]. etrans; [apply He|apply Hq'].
Qed.

Lemma clean_up_stream_core K job_id stage st x :
  core_inv K st →
  core_inv K (clean_up_stream job_id stage st x) ∧ frame st (clean_up_stream job_id stage st x).
Proof.
  intros Hc. destruct x as [|w]; simpl.
  - destruct st as [d ctx]. split; [|by split]. apply core_inv_streams; [|done|done].
    eapply (manager_step_wf (da_stream_manager d)); [by eapply stream_buffer_pos|constructor|].
    apply (ci_streams _ _ Hc).
  - apply on_pool_core; [apply clean_up_job_moves|apply clean_up_job_keeps|done].
Qed.

Lemma core_foldl {A} K (f : State → A → State) (l : list A) st :
  (∀ st x, core_inv K st → core_inv K (f st x) ∧ frame st (f st x)) →
  core_inv K st → core_inv K (foldl f st l) ∧ frame st (foldl f st l).
Proof.
  intros Hf. revert st. induction l as [|x l IH]; intros st Hc; simpl; [split; [done|reflexivity]|].
  destruct (Hf st x Hc) as [H1 H2]. destruct (IH _ H1) as [H3 H4]. split; [done|by etrans].
Qed.

Lemma clean_up_core K d ctx job_id stage :
  core_inv K (d, ctx) →
  run_job_action (d, ctx) (ActCleanUpJob job_id stage) ⇓ (λ st', core_inv K st' ∧ frame (d, ctx) st').
Proof.
  intros Hc. cbn [run_job_action].
  pose proof (core_inv_assigner_step K d ctx (untrack_remote_streams (da_task_assigner d) job_id stage).2
    ltac:(constructor) (untrack_remote_narrows _ _ _) Hc) as Hc1.
  destruct (untrack_remote_streams (da_task_assigner d) job_id stage) as [remote a1]. simpl in Hc1.
  pose proof (core_inv_assigner_step K (da_with_assigner d a1) ctx
    (untrack_local_streams a1 job_id stage).2
    ltac:(constructor) (untrack_local_narrows _ _ _) Hc1) as Hc2.
  destruct (untrack_local_streams a1 job_id stage) as [owners a2]. simpl in Hc2.
  assert ((if remote then remove_remote_streams (da_stream_manager d) ctx job_id stage
           else (da_stream_manager d, ctx)) = (da_stream_manager d, ctx)) as -> by by destruct remote.
  destruct (core_foldl K (clean_up_stream job_id stage) (hash_order owners)
    (da_with_streams (da_with_assigner d a2) (da_stream_manager d), ctx)) as [H1 H2].
  - intros. by apply clean_up_stream_core.
  - by destruct Hc2; split.
  - split; [exact H1|]. etrans; [|exact H2]. by split.
Qed.

Lemma run_job_action_core K st action :
  core_inv K st → NoDup (scheduled_keys [action]) →
  (∀ key, key ∈ scheduled_keys [action] → ¬ K key) →
  run_job_action st action ⇓ (λ st',
    core_inv (λ key, K key ∨ key ∈ scheduled_keys [action]) st' ∧ frame st st').
Proof.
  intros Hc Hnd Hfr. destruct st as [d ctx].
  assert (∀ m, scheduled_keys [action] = [] → m ⇓ (λ st', core_inv K st' ∧ frame (d, ctx) st') →
    m ⇓ (λ st', core_inv (λ key, K key ∨ key ∈ scheduled_keys [action]) st' ∧ frame (d, ctx) st'))
    as Hsame.
  { intros m -> Hm. eapply total_mono; [done|]. intros st' [H1 H2]. split; [|done].
    eapply core_inv_iff; [|done]. set_solver. }
  destruct action as [region|key|handle key schema|handle cause|job_id stage].
  - by apply schedule_core.
  - by apply Hsame, cancel_core.
  - by apply Hsame, output_core.
  - apply Hsame; [done|]. simpl.
    assert (ctx_quiet ctx (ctx_spawn ctx (SpSendOutput handle (OutputError cause)))) as Hq
      by by apply ctx_spawn_quiet.
    split; [by eapply core_inv_ctx|by apply frame_ctx].
  - by apply Hsame, clean_up_core.
Qed.

Lemma run_actions_core K st actions :
  core_inv K st → NoDup (scheduled_keys actions) →
  (∀ key, key ∈ scheduled_keys actions → ¬ K key) →
  for_each run_job_action st actions ⇓ (λ st',
    core_inv (λ key, K key ∨ key ∈ scheduled_keys actions) st' ∧ frame st st').
Proof.
  intros Hc Hnd Hfr.
  apply (total_for_each run_job_action (λ pre st',
    core_inv (λ key, K key ∨ key ∈ scheduled_keys pre) st' ∧ frame st st')).
  { split; [|reflexivity]. eapply core_inv_iff; [|done]. set_solver. }
  intros pre a post st1 -> [Hc1 Hf1].
  change (a :: post) with ([a] ++ post) in *. rewrite !scheduled_keys_app in *.
  apply NoDup_app in Hnd as (_ & Hdis & [Hnd _]%NoDup_app).
  eapply total_mono; [apply (run_job_action_core _ _ _ Hc1 Hnd)|].
  - intros key Hk [HK|Hpre]; [by apply (Hfr key); [set_solver|]|].
    apply (Hdis key Hpre). set_solver.
  - intros st2 [Hc2 Hf2]. split; [|by etrans]. eapply core_inv_iff; [|done].
    intros key. rewrite elem_of_app. tauto.
Qed.

(** ** Operations on the whole driver *)

#[global] Instance sched_evolves_preorder : PreOrder sched_evolves.
Proof.
  split; [intros self; apply sched_evolves_refl|].
  intros s1 s2 s3 [O1 E1] [O2 E2]. split; [congruence|]. intros j job Hj.
  destruct (E1 j job Hj) as (job' & Hj' & He1). destruct (E2 j job' Hj') as (job2 & Hj2 & He2).
  exists job2. split; [done|by etrans].
Qed.

Record moves (st st' : State) : Prop := {
  mv_options : da_options st'.1 = da_options st.1;
  mv_scheduler : sched_evolves (da_job_scheduler st.1) (da_job_scheduler st'.1);
  mv_sequences : da_task_sequences st'.1 = da_task_sequences st.1;
  mv_ctx : ctx_extends st.2 st'.2
}.

#[global] Instance moves_preorder : PreOrder moves.
Proof.
  split; [split; try done; reflexivity|]. intros s1 s2 s3 [] [].
  split; [congruence|by etrans|congruence|by etrans].
Qed.

Lemma frame_moves st st' : frame st st' → moves st st'.
Proof. intros []. split; [done| |done|done]. rewrite fr_scheduler0. reflexivity. Qed.

(** An operation that keeps the scheduler. *)
Lemma driver_inv_core st st' :
  frame st st' → core_inv (known (da_job_scheduler st.1)) st' →
  driver_inv st → driver_inv st' ∧ moves st st'.
Proof.
  intros Hf Hc [Hs _]. split; [|by apply frame_moves].
  split; rewrite (fr_scheduler _ _ Hf); done.
Qed.

Lemma driver_inv_ctx d ctx ctx' :
  ctx_quiet ctx ctx' → driver_inv (d, ctx) → driver_inv (d, ctx') ∧ moves (d, ctx) (d, ctx').
Proof.
  intros Hq Hd. apply driver_inv_core; [by apply frame_ctx| |done].
  eapply core_inv_ctx; [done|]. apply Hd.
Qed.

Lemma core_inv_scheduler K d ctx s :
  core_inv K (d, ctx) → core_inv K (da_with_scheduler d s, ctx).
Proof. intros []. by split. Qed.

(** An operation on the scheduler that creates no attempt. *)
Lemma driver_inv_scheduler d ctx s :
  sched_inv s → sched_evolves (da_job_scheduler d) s →
  (∀ key, known s key ↔ known (da_job_scheduler d) key) →
  driver_inv (d, ctx) →
  driver_inv (da_with_scheduler d s, ctx) ∧ moves (d, ctx) (da_with_scheduler d s, ctx).
Proof.
  intros Hs He Hk [_ Hc]. split; [|split; try done; reflexivity].
  split; [done|]. simpl. eapply core_inv_iff; [|by apply core_inv_scheduler].
  intros key. symmetry. apply Hk.
Qed.

Lemma scheduler_update_inv st key state message cause :
  driver_inv st → driver_inv (scheduler_update st key state message cause) ∧
    moves st (scheduler_update st key state message cause).
Proof.
  intros Hd. destruct st as [d ctx]. unfold scheduler_update.
  rewrite (surjective_pairing (utc_now ctx)).
  destruct (driver_inv_ctx d ctx _ (utc_now_quiet ctx) Hd) as [Hd1 Hm1].
  destruct (update_task_step (da_job_scheduler d) (utc_now ctx).1 key state message cause)
    as [Hs He]; [apply Hd|].
  destruct (driver_inv_scheduler d (utc_now ctx).2 _ Hs He) as [Hd2 Hm2]; [|done|].
  - intros k. apply known_update_task.
  - split; [done|by etrans].
Qed.

(** Running the actions of a scheduler step. *)
Lemma run_actions_inv d ctx s actions :
  driver_inv (d, ctx) → sched_inv s → sched_evolves (da_job_scheduler d) s →
  NoDup (scheduled_keys actions) →
  (∀ key, known s key ∧ ¬ known (da_job_scheduler d) key ↔ key ∈ scheduled_keys actions) →
  for_each run_job_action (da_with_scheduler d s, ctx) actions ⇓ (λ st',
    driver_inv st' ∧ moves (d, ctx) st').
Proof.
  intros [_ Hc] Hs He Hnd Hk. eapply total_mono.
  { apply (run_actions_core (known (da_job_scheduler d))); [by apply core_inv_scheduler|done|].
    intros key Hin. by apply Hk in Hin as [_ ?]. }
  intros st' [Hc' Hf]. split.
  - split; rewrite (fr_scheduler _ _ Hf); simpl; [done|]. eapply core_inv_iff; [|done].
    intros key. simpl. rewrite <-Hk. split.
    + intros [Ho|[? _]]; [by eapply known_evolves|done].
    + intros Hn. destruct (decide (is_Some (find_attempt (da_job_scheduler d) key))); auto.
  - etrans; [|apply frame_moves; exact Hf]. by split.
Qed.

Lemma refresh_inv st job_id :
  driver_inv st → refresh st job_id ⇓ (λ st', driver_inv st' ∧ moves st st').
Proof.
  intros Hd. destruct st as [d ctx]. unfold refresh. rewrite (surjective_pairing (utc_now ctx)).
  destruct (driver_inv_ctx d ctx _ (utc_now_quiet ctx) Hd) as [Hd1 Hm1].
  apply total_bind. eapply total_mono; [apply total_refresh_keys, Hd|].
  intros [s actions] (Hs & He & Hnd & Hk).
  eapply total_mono; [by apply run_actions_inv|]. intros st' [Hd' Hm']. split; [done|by etrans].
Qed.

Lemma driver_clean_up_inv st job_id :
  driver_inv st → driver_clean_up_job st job_id ⇓ (λ st', driver_inv st' ∧ moves st st').
Proof.
  intros Hd. destruct st as [d ctx]. unfold driver_clean_up_job.
  rewrite (surjective_pairing (utc_now ctx)).
  destruct (driver_inv_ctx d ctx _ (utc_now_quiet ctx) Hd) as [Hd1 Hm1].
  destruct (clean_up_job_step (da_job_scheduler d) (utc_now ctx).1 job_id) as [Hs He];
    [apply Hd|].
  pose proof (scheduled_keys_clean_up (da_job_scheduler d) (utc_now ctx).1 job_id) as Hk.
  pose proof (known_clean_up_job (da_job_scheduler d) (utc_now ctx).1 job_id) as Hn.
  destruct (JobScheduler.clean_up_job _ _ _) as [s actions]. simpl in *.
  eapply total_mono; [apply (run_actions_inv d _ s actions); try done|].
  - rewrite Hk. constructor.
  - intros key. rewrite Hk, Hn. split; [tauto|set_solver].
  - intros st' [Hd' Hm']. split; [done|by etrans].
Qed.

(** ** Running tasks *)

(** The attempt that an effect launches, or reports as failed. *)
Definition launched (e : Effect) : option TaskKey :=
  match e with
  | EffSpawn (SpRunTask _ key _ _) => Some key
  | EffSpawn (SpTaskMonitor key) => Some key
  | EffSend (EvUpdateTask key StatusFailed _ _ None) => Some key
  | _ => None
  end.

(** The effects an operation adds launch exactly [keys], in order. *)
Definition launches (keys : list TaskKey) (ctx ctx' : ActorContext) : Prop :=
  ∃ es, ctx_effects ctx' = ctx_effects ctx ++ es ∧ omap launched es = keys.

Lemma launches_trans k1 k2 ctx1 ctx2 ctx3 :
  launches k1 ctx1 ctx2 → launches k2 ctx2 ctx3 → launches (k1 ++ k2) ctx1 ctx3.
Proof.
  intros (e1 & H1 & <-) (e2 & H2 & <-). exists (e1 ++ e2).
  by rewrite H2, H1, <-(assoc_L (++)), omap_app.
Qed.

Lemma launches_refl ctx : launches [] ctx ctx.
Proof. exists []. by rewrite app_nil_r. Qed.

Lemma pool_run_task_launches p ctx w key definition :
  launches [key] ctx (WorkerPool.run_task p ctx w key definition).2.
Proof.
  unfold WorkerPool.run_task. destruct (im_get w (wp_workers p)) as [d|].
  2:{ by eexists [_]. }
  unfold track_worker_activity, get_client_set.
  destruct (wd_state d) eqn:Hd; simpl; rewrite ?Hd; simpl;
    [by eexists [_]| |by eexists [_]|by eexists [_]].
  eexists [_; _]. split; [simpl; by rewrite <-(assoc_L (++))|done].
Qed.

Lemma dispatch_launches st a key definition context :
  launches [key] st.2 (dispatch st a key definition context).2.
Proof.
  destruct st as [d ctx]. destruct a as [|w i]; simpl.
  - destruct (execute_plan key definition context); simpl; eexists; done.
  - pose proof (pool_run_task_launches (da_worker_pool d) ctx w key definition) as Hl.
    by destruct (WorkerPool.run_task _ _ _ _ _).
Qed.

Lemma run_entry_launches a st entry :
  launches [te_key entry] st.2 (run_entry a st entry).2.
Proof.
  destruct st as [d ctx]. unfold run_entry.
  destruct (get_task_definition _ _ _) as [[definition context]|e]; [|by eexists].
  unfold scheduler_update. rewrite (surjective_pairing (utc_now ctx)).
  apply (dispatch_launches (_, (utc_now ctx).2)).
Qed.

Lemma runner_run_task_core K st key definition context :
  core_inv K st → core_inv K (runner_run_task st key definition context) ∧
    frame st (runner_run_task st key definition context).
Proof.
  intros Hc. destruct st as [d ctx]. simpl. destruct (execute_plan _ _ _).
  - assert (ctx_quiet ctx (ctx_spawn ctx (SpTaskMonitor key))) as Hq by by apply ctx_spawn_quiet.
    split; [|by destruct Hq; split]. eapply core_inv_ctx; [done|]. by destruct Hc; split.
  - split; [eapply core_inv_ctx; [apply ctx_send_quiet|done]|apply frame_ctx, ctx_send_quiet].
Qed.

Lemma dispatch_core K st a key definition context :
  core_inv K st → core_inv K (dispatch st a key definition context) ∧
    frame st (dispatch st a key definition context).
Proof.
  intros Hc. destruct a as [|w i]; simpl; [by apply runner_run_task_core|].
  apply on_pool_core; [apply run_task_moves|apply run_task_keeps|done].
Qed.

Lemma run_entry_inv a st entry :
  driver_inv st → driver_inv (run_entry a st entry) ∧ moves st (run_entry a st entry).
Proof.
  intros Hd. destruct st as [d ctx]. unfold run_entry.
  destruct (get_task_definition _ _ _) as [[definition context]|e].
  2:{ apply driver_inv_ctx; [apply ctx_send_quiet|done]. }
  destruct (scheduler_update_inv (d, ctx) (te_key entry) TaskScheduled None None Hd) as [Hd1 Hm1].
  destruct (dispatch_core _ (scheduler_update (d, ctx) (te_key entry) TaskScheduled None None) a
    (te_key entry) definition context (di_core _ Hd1)) as [Hc2 Hf2].
  destruct (driver_inv_core _ _ Hf2 Hc2 Hd1) as [Hd2 Hm2]. split; [done|by etrans].
Qed.

Lemma driver_foldl {A} (f : State → A → State) (g : A → list TaskKey) (l : list A) st :
  (∀ st x, driver_inv st → driver_inv (f st x) ∧ moves st (f st x)) →
  (∀ st x, launches (g x) st.2 (f st x).2) →
  driver_inv st →
  (driver_inv (foldl f st l) ∧ moves st (foldl f st l)) ∧ launches (l ≫= g) st.2 (foldl f st l).2.
Proof.
  intros Hf Hg. revert st. induction l as [|x l IH]; intros st Hd; simpl.
  { split; [split; [done|reflexivity]|apply launches_refl]. }
  destruct (Hf st x Hd) as [Hd1 Hm1]. destruct (IH _ Hd1) as [[Hd2 Hm2] Hl]. split; [split|].
  - done.
  - by etrans.
  - eapply launches_trans; [apply Hg|done].
Qed.

Lemma run_entries_launches a st entries :
  launches (te_key <$> entries) st.2 (foldl (run_entry a) st entries).2.
Proof.
  revert st. induction entries as [|e l IH]; intros st; simpl; [apply launches_refl|].
  eapply (launches_trans [te_key e]); [apply run_entry_launches|apply IH].
Qed.

Lemma run_entries_inv a st entries :
  driver_inv st →
  driver_inv (foldl (run_entry a) st entries) ∧ moves st (foldl (run_entry a) st entries).
Proof.
  intros Hd. apply (driver_foldl (run_entry a) (λ e, [te_key e])); [| |done].
  - intros. by apply run_entry_inv.
  - intros. apply run_entry_launches.
Qed.

(** A round of assignments: the attempts that leave the queue are launched,
    in order, each once, and only on workers that run. *)
Lemma run_tasks_inv st :
  driver_inv st →
  run_tasks policy st ⇓ (λ st', (driver_inv st' ∧ moves st st') ∧
    ∃ l a, assign_tasks policy (da_task_assigner st.1) = Returns (l, a) ∧
      launches (assignment_keys l) st.2 st'.2 ∧
      ∀ x w i, x ∈ l → tsa_assignment x = AssignWorker w i → running (da_worker_pool st.1) w).
Proof.
  intros Hd. destruct st as [d ctx]. unfold run_tasks. simpl.
  pose proof (assign_tasks_view policy (da_task_assigner d) (ci_assigner _ _ (di_core _ Hd))) as Hv.
  destruct (assign_tasks policy (da_task_assigner d)) as [[l a]| |] eqn:Ha; [|done..].
  simpl in *. destruct Hv as (Hw & Hn & Htr & Hact).
  set (d1 := da_with_assigner d (track_streams a l)).
  assert (driver_inv (d1, ctx) ∧ moves (d, ctx) (d1, ctx)) as [Hd1 Hm1].
  { apply driver_inv_core; [by split| |done].
    apply core_inv_assigner; [by apply track_streams_wf| |apply Hd].
    etrans; [exact Hn|apply track_streams_narrows]. }
  destruct (driver_foldl
    (λ st x, foldl (run_entry (tsa_assignment x)) st (set_entries (tsa_set x)))
    (λ x, set_tasks (tsa_set x)) l (d1, ctx)) as [[H1 H2] H3].
  - intros. by apply run_entries_inv.
  - intros. apply run_entries_launches.
  - done.
  - split; [split; [done|by etrans]|]. exists l, a. split_and!; [done|exact H3|].
    intros x w i Hx Has. apply (ci_active _ _ (di_core _ Hd)). by eapply Hact.
Qed.

(** ** Scaling up *)

Lemma start_worker_inv st :
  driver_inv st → driver_inv (on_pool start_worker st) ∧ moves st (on_pool start_worker st).
Proof.
  intros Hd. pose proof (ci_pool _ _ (di_core _ Hd)) as Hp.
  destruct (on_pool_core _ start_worker st (start_worker_moves _ _)
    (start_worker_keeps _ _ Hp) (di_core _ Hd)) as [Hc Hf]. by apply driver_inv_core.
Qed.

Lemma start_workers_inv n st :
  driver_inv st → driver_inv (start_workers n st) ∧ moves st (start_workers n st).
Proof.
  intros Hd. unfold start_workers. induction n as [|n [Hn Hm]]; simpl; [split; [done|reflexivity]|].
  destruct (start_worker_inv _ Hn). split; [done|by etrans].
Qed.

Lemma scale_up_workers_inv st :
  driver_inv st → scale_up_workers st ⇓ (λ st', driver_inv st' ∧ moves st st').
Proof.
  intros Hd. destruct st as [d ctx]. unfold scale_up_workers. simpl.
  pose proof (di_core _ Hd) as Hc.
  destruct (request_workers (da_task_assigner d)) as [[n a]| |] eqn:Hr; simpl.
  - assert (driver_inv (da_with_assigner d a, ctx) ∧ moves (d, ctx) (da_with_assigner d a, ctx))
      as [Hd1 Hm1].
    { apply driver_inv_core; [by split| |done]. apply core_inv_assigner_step; [|
        by eapply request_workers_narrows|done]. by eapply AsRequest. }
    destruct (start_workers_inv (N.to_nat n) _ Hd1). split; [done|by etrans].
  - unfold request_workers, div_ceil in Hr.
    destruct (ci_options _ _ Hc) as [Hs _]. simpl in Hs.
    pose proof (ci_assigner_options _ _ Hc) as Ho. simpl in Ho. rewrite Ho in Hr. simpl in Hr.
    repeat case_decide; (done || lia).
  - unfold request_workers, div_ceil in Hr. repeat case_decide; done.
Qed.

Lemma refresh_and_run_inv st job_id :
  driver_inv st → refresh_and_run policy st job_id ⇓ (λ st', driver_inv st' ∧ moves st st').
Proof.
  intros Hd. unfold refresh_and_run. run_call (by apply refresh_inv). intros st1 [Hd1 Hm1]. run_call (by apply run_tasks_inv). intros st2 [[Hd2 Hm2] _].
  eapply total_mono; [by apply scale_up_workers_inv|]. intros st3 [Hd3 Hm3].
  split; [done|]. by do 2 (etrans; [done|]).
Qed.
End facts.
