(* ===== verification/DriverTheorems.v ===== *)
(** * Guarantees of the driver

    Over every history of events the driver can receive, in any order and with
    any contents, interleaved with the readers and writers of its streams. *)

From S2P Require Import Prelude Ids JobGraph Topology TopologyFacts JobState JobScheduler AttemptsFacts RefreshFacts SchedulerSystem TaskAssigner TaskAssignerFacts AssignerTheorems Streams StreamTheorems Actor StreamManager StreamManagerTheorems WorkerPool WorkerPoolTheorems DriverInterfaces Driver DriverFacts.

Section theorems.
Context `{DF : DataFusion} `{HO : HashOrder} `{FC : ForeignCauses} `{PL : !Planner}
  `{DI : !DiskIo} `{CL : Clock} `{PE : !PlanExecutor} `{!PlannerLaws PL} `{!ClockLaws CL}.
Context (policy : PlacementPolicy).
Implicit Types (d : DriverActor) (ctx : ActorContext).

Notation State := (DriverActor * ActorContext)%type.

(** One step of the actor until it stops, or of its streams' users. *)
Inductive driver_step : State → State → Prop :=
| DriverReceive d ctx event d' ctx' :
    receive policy d ctx event = Returns (ActorContinue, d', ctx') →
    driver_step (d, ctx) (d', ctx')
| DriverChannels d ctx chs :
    channels_move (da_stream_manager d) chs →
    driver_step (d, ctx)
      (da_with_streams d (MkStreamManager (sm_options (da_stream_manager d))
         (sm_local_streams (da_stream_manager d)) chs), ctx).

(** The driver when its event loop starts. *)
Definition driver_initial (options : DriverOptions) : State :=
  (driver_start (driver_new options), MkActorContext 0 []).

Definition driver_reachable (options : DriverOptions) : State → Prop :=
  rtc driver_step (driver_initial options).

(** The state an outcome of [receive] leaves. *)
Definition outcome_state (r : ActorAction * DriverActor * ActorContext) : State := (r.1.2, r.2).

(** Sequence numbers never go back. *)
Definition sequences_grow (d d' : DriverActor) : Prop :=
  ∀ key s, da_task_sequences d !! key = Some s →
    ∃ s', da_task_sequences d' !! key = Some s' ∧ (s ≤ s')%N.

Record evolves (st st' : State) : Prop := {
  ev_options : da_options st'.1 = da_options st.1;
  ev_scheduler : sched_evolves (da_job_scheduler st.1) (da_job_scheduler st'.1);
  ev_sequences : sequences_grow st.1 st'.1;
  ev_ctx : ctx_extends st.2 st'.2
}.

Lemma moves_evolves st st' : moves st st' → evolves st st'.
Proof.
  intros [Ho Hs Hq Hc]. split; [done|done| |done]. intros key s. rewrite Hq. intros Hk.
  exists s. split; [done|lia].
Qed.

Lemma inv_moves_outcome st st' :
  driver_inv st' ∧ moves st st' → driver_inv st' ∧ evolves st st'.
Proof. intros [? ?%moves_evolves]. done. Qed.

(** ** Handlers *)

Lemma driver_inv_server d ctx s :
  driver_inv (d, ctx) →
  driver_inv (da_with_server d s, ctx) ∧ moves (d, ctx) (da_with_server d s, ctx).
Proof. intros Hd. apply driver_inv_core; [by split| |done]. by destruct Hd as [_ []]; split. Qed.

Lemma driver_inv_pool d ctx p ctx' :
  pool_moves (da_worker_pool d) ctx (p, ctx') → keeps_running (da_worker_pool d) p →
  driver_inv (d, ctx) →
  driver_inv (da_with_pool d p, ctx') ∧ moves (d, ctx) (da_with_pool d p, ctx').
Proof.
  intros Hm Hk Hd. destruct (Hm (ci_pool _ _ (di_core _ Hd))) as [_ He].
  apply driver_inv_core; [split; [done..|apply He]| |done].
  eapply core_inv_pool; [exact Hm|done|apply Hd].
Qed.

Lemma server_ready_inv d ctx port signal :
  driver_inv (d, ctx) →
  let r := outcome_state (handle_server_ready d ctx port signal) in
  driver_inv r ∧ moves (d, ctx) r.
Proof.
  intros Hd. unfold handle_server_ready. destruct (server_ready _ _) as [s|e]; simpl.
  - destruct (driver_inv_server d ctx s Hd) as [H1 M1].
    destruct (driver_inv_pool (da_with_server d s) ctx
      (set_driver_server_port (da_worker_pool d) port) ctx) as [H2 M2];
      [apply set_driver_server_port_moves| |done|].
    { intros w (x & Hx & Hr). by exists x. }
    destruct (start_workers_inv (do_worker_initial_count (da_options d)) _ H2) as [H3 M3].
    unfold outcome_state, continue_. simpl.
    rewrite <-surjective_pairing. split; [exact H3|]. etrans; [exact M1|]. etrans; [exact M2|exact M3].
  - by apply driver_inv_server.
Qed.

Lemma register_worker_inv d ctx w host port result :
  driver_inv (d, ctx) →
  handle_register_worker policy d ctx w host port result ⇓
    (λ r, driver_inv (outcome_state r) ∧ moves (d, ctx) (outcome_state r)).
Proof.
  intros Hd. unfold handle_register_worker.
  pose proof (register_worker_moves (da_worker_pool d) ctx w host port) as Hm.
  destruct (register_worker_keeps (da_worker_pool d) ctx w host port) as [Hk Hrun].
  destruct (register_worker (da_worker_pool d) ctx w host port) as [[out p] ctx1].
  simpl in Hm, Hk, Hrun.
  destruct (driver_inv_pool d ctx p ctx1 Hm Hk Hd) as [H1 M1].
  assert (∀ st2, driver_inv st2 ∧ moves (d, ctx) st2 →
    driver_inv (outcome_state (continue_ (st2.1, ctx_reply st2.2 result (ReplyUnit out)))) ∧
    moves (d, ctx) (outcome_state (continue_ (st2.1, ctx_reply st2.2 result (ReplyUnit out)))))
    as Hreply.
  { intros [d2 ctx2] [H2 M2].
    destruct (driver_inv_ctx d2 ctx2 _ (ctx_reply_quiet _ result (ReplyUnit out)) H2).
    split; [done|by etrans]. }
  destruct out as [u|e]; cbn [is_ok]; [|by apply (Hreply (da_with_pool d p, ctx1))].
  specialize (Hrun eq_refl).
  assert (driver_inv (da_with_assigner (da_with_pool d p)
      (activate_worker (da_task_assigner d) w), ctx1) ∧
    moves (da_with_pool d p, ctx1) (da_with_assigner (da_with_pool d p)
      (activate_worker (da_task_assigner d) w), ctx1)) as [H2 M2].
  { apply driver_inv_core; [by split| |done].
    destruct (di_core _ H1) as [Ho Ha Hao Ht Hact Hp Hst Hso Hpr]. split; simpl in *; try done.
    - eapply (assigner_step_wf policy); [exact Ha|constructor].
    - by rewrite activate_options.
    - intros key Hkey%activate_tracked. auto.
    - intros w' [->|Hw']%activate_active; auto. }
  run_call (by apply run_tasks_inv).
  intros [d3 ctx3] [[H3 M3] _]. apply (Hreply (d3, ctx3)). split; [done|].
  by do 2 (etrans; [done|]).
Qed.

(** Stopping a worker and taking it out of the assigner. *)
Lemma stop_and_deactivate_inv d ctx w reason :
  driver_inv (d, ctx) →
  let st := on_pool (λ pool ctx, stop_worker pool ctx w reason) (d, ctx) in
  let st' := (da_with_assigner st.1 (deactivate_worker (da_task_assigner st.1) w), st.2) in
  driver_inv st' ∧ moves (d, ctx) st'.
Proof.
  intros Hd. pose proof (stop_worker_moves (da_worker_pool d) ctx w reason) as Hm.
  pose proof (stop_worker_others (da_worker_pool d) ctx w reason) as Hoth.
  unfold on_pool. destruct (stop_worker (da_worker_pool d) ctx w reason) as [p ctx1]. simpl in *.
  destruct (Hm (ci_pool _ _ (di_core _ Hd))) as [Hp He]. simpl in *.
  apply driver_inv_core; [split; [done..|apply He]| |done].
  destruct (di_core _ Hd) as [Ho Ha Hao Ht Hact _ Hst Hso Hpr]. simpl in *.
  destruct (deactivate_narrows (da_task_assigner d) w) as [No Nt Na].
  split; simpl; try done.
  - eapply (assigner_step_wf policy); [exact Ha|constructor].
  - congruence.
  - auto.
  - intros w' Hw'. apply Hoth; [|by apply Hact, Na].
    intros ->. by apply deactivate_not_active in Hw'.
  - intros key HK. eapply elem_of_extends; [apply He|]. by apply Hpr.
Qed.

Lemma probe_idle_inv d ctx w instant :
  driver_inv (d, ctx) →
  let r := outcome_state (handle_probe_idle_worker d ctx w instant) in
  driver_inv r ∧ moves (d, ctx) r.
Proof.
  intros Hd. unfold handle_probe_idle_worker. destruct (_ && _); [|split; [done|reflexivity]].
  pose proof (stop_and_deactivate_inv d ctx w (Some "worker has been idle for too long") Hd) as Hs.
  destruct (on_pool _ _) as [d1 ctx1]. exact Hs.
Qed.

Lemma for_each_driver {A} (f : State → A → Run State) (l : list A) st :
  (∀ st x, driver_inv st → f st x ⇓ (λ st', driver_inv st' ∧ moves st st')) →
  driver_inv st → for_each f st l ⇓ (λ st', driver_inv st' ∧ moves st st').
Proof.
  intros Hf Hd. apply (total_for_each_inv f (λ st', driver_inv st' ∧ moves st st')).
  - split; [done|reflexivity].
  - intros x st1 _ [H1 M1]. eapply total_mono; [by apply Hf|]. intros st2 [H2 M2].
    split; [done|by etrans].
Qed.

Lemma probe_lost_inv d ctx w instant :
  driver_inv (d, ctx) →
  handle_probe_lost_worker policy d ctx w instant ⇓
    (λ r, driver_inv (outcome_state r) ∧ moves (d, ctx) (outcome_state r)).
Proof.
  intros Hd. unfold handle_probe_lost_worker. destruct (not_after _ _);
    [|split; [done|reflexivity]].
  pose proof (stop_and_deactivate_inv d ctx w (Some "worker heartbeat timeout") Hd) as Hs.
  destruct (on_pool _ _) as [d1 ctx1]. simpl in Hs. destruct Hs as [H1 M1].
  set (keys := find_worker_tasks _ _).
  destruct (driver_foldl (λ st key, scheduler_update st key TaskFailed
      (Some "task failed for lost worker") (Some (CauseExecution "task failed for lost worker")))
    (λ _, []) keys
    (da_with_assigner d1 (deactivate_worker (da_task_assigner d1) w), ctx1))
    as [[H2 M2] _]; [| |exact H1|].
  { intros. by apply scheduler_update_inv. }
  { intros [d0 ctx0] key. unfold scheduler_update. rewrite (surjective_pairing (utc_now ctx0)).
    exists []. simpl. by rewrite app_nil_r. }
  apply total_bind. eapply total_mono.
  { apply for_each_driver; [|exact H2]. intros. by apply refresh_and_run_inv. }
  intros [d3 ctx3] [H3 M3]. split; [done|]. etrans; [exact M1|]. etrans; [exact M2|exact M3].
Qed.

Lemma ctx_spawns_quiet (l : list N) ctx :
  ctx_quiet ctx (foldl (λ ctx job_id, ctx_spawn ctx (SpJobOutput job_id)) ctx l).
Proof.
  revert ctx. induction l as [|j l IH]; intros ctx; simpl; [reflexivity|].
  etrans; [|apply IH]. by apply ctx_spawn_quiet.
Qed.

Lemma execute_job_inv d ctx plan context result :
  driver_inv (d, ctx) →
  handle_execute_job policy d ctx plan context result ⇓
    (λ r, driver_inv (outcome_state r) ∧ moves (d, ctx) (outcome_state r)).
Proof.
  intros Hd. unfold handle_execute_job. rewrite (surjective_pairing (utc_now ctx)).
  destruct (driver_inv_ctx d ctx _ (utc_now_quiet ctx) Hd) as [H1 M1].
  set (ctx1 := (utc_now ctx).2) in *. apply total_bind.
  pose proof (total_accept_job (da_job_scheduler d) (utc_now ctx).1 plan context (di_scheduler _ Hd))
    as Ht.
  destruct (accept_job (da_job_scheduler d) (utc_now ctx).1 plan context) as [[[out s] pumps]| |]
    eqn:Ha; [|done..]. cbn [total] in Ht |- *. destruct Ht as (Hs & He & _).
  set (ctx2 := foldl _ ctx1 pumps).
  destruct (driver_inv_scheduler d ctx1 s Hs He) as [H2 M2]; [|done|].
  { intros key. by eapply known_accept_job; [apply Hd|]. }
  destruct (driver_inv_ctx (da_with_scheduler d s) ctx1 ctx2 (ctx_spawns_quiet _ _) H2) as [H3 M3].
  assert (moves (d, ctx) (da_with_scheduler d s, ctx2)) as M4 by (by do 2 (etrans; [done|])).
  assert (∀ st2, driver_inv st2 ∧ moves (d, ctx) st2 →
    driver_inv (outcome_state (continue_ (st2.1, ctx_reply st2.2 result (ReplyJob out)))) ∧
    moves (d, ctx) (outcome_state (continue_ (st2.1, ctx_reply st2.2 result (ReplyJob out)))))
    as Hreply.
  { intros [d5 ctx5] [H5 M5].
    destruct (driver_inv_ctx d5 ctx5 _ (ctx_reply_quiet _ result (ReplyJob out)) H5).
    split; [done|by etrans]. }
  destruct out as [job_id|e]; [|by apply (Hreply (da_with_scheduler d s, ctx2))].
  run_call (by apply refresh_and_run_inv).
  intros [d5 ctx5] [H5 M5]. apply (Hreply (d5, ctx5)). split; [done|by etrans].
Qed.

Lemma finish_task_inv st key state message cause :
  driver_inv st →
  finish_task policy st key state message cause ⇓ (λ st', driver_inv st' ∧
    moves (scheduler_update st key state message cause) st').
Proof.
  intros Hd. unfold finish_task.
  destruct (scheduler_update_inv st key state message cause Hd) as [H1 M1].
  destruct (scheduler_update st key state message cause) as [d1 ctx1].
  assert (driver_inv (da_with_assigner d1 (unassign_task (da_task_assigner d1) key).2, ctx1) ∧
    moves (d1, ctx1) (da_with_assigner d1 (unassign_task (da_task_assigner d1) key).2, ctx1))
    as [H2 M2].
  { apply driver_inv_core; [by split| |done].
    apply (core_inv_assigner_step policy); [constructor|apply unassign_narrows|apply H1]. }
  destruct (unassign_task (da_task_assigner d1) key) as [x a].
  eapply total_mono; [by apply refresh_and_run_inv|]. intros st3 [H3 M3].
  split; [done|by etrans].
Qed.

Lemma accept_sequence_inv d ctx key sequence d1 :
  accept_sequence d key sequence = Some d1 →
  driver_inv (d, ctx) → driver_inv (d1, ctx) ∧ evolves (d, ctx) (d1, ctx).
Proof.
  unfold accept_sequence. intros Hs Hd. destruct sequence as [q|]; simplify_eq.
  2:{ split; [done|]. apply moves_evolves. reflexivity. }
  assert (∀ m, driver_inv (da_with_sequences d m, ctx)) as Hm.
  { intros m. destruct Hd as [H1 H2]. split; [done|]. by destruct H2; split. }
  destruct (da_task_sequences d !! key) as [q0|] eqn:Hq; simpl in Hs.
  - case_bool_decide; simplify_eq. split; [apply Hm|]. split; [done|reflexivity| |reflexivity].
    intros k s Hk. simpl. destruct (decide (k = key)) as [->|].
    + rewrite lookup_insert_eq. exists q. split; [done|]. simpl in Hk. simplify_eq. lia.
    + rewrite lookup_insert_ne by done. exists s. split; [done|lia].
  - simplify_eq. split; [apply Hm|]. split; [done|reflexivity| |reflexivity].
    intros k s Hk. simpl. destruct (decide (k = key)) as [->|]; [simpl in Hk; congruence|].
    rewrite lookup_insert_ne by done. exists s. split; [done|lia].
Qed.

Lemma evolves_trans st1 st2 st3 : evolves st1 st2 → evolves st2 st3 → evolves st1 st3.
Proof.
  intros [O1 S1 Q1 C1] [O2 S2 Q2 C2]. split.
  - congruence.
  - by etrans.
  - intros key s (s' & Hs' & Hle)%Q1. destruct (Q2 key s' Hs') as (s2 & Hs2 & Hle2).
    exists s2. split; [done|lia].
  - by etrans.
Qed.

(** The state a status update asks for. *)
Definition status_state (status : TaskStatus) : TaskState :=
  match status with
  | StatusRunning => TaskRunning
  | StatusSucceeded => TaskSucceeded
  | StatusFailed => TaskFailed
  | StatusCanceled => TaskCanceled
  end.

(** Processing an update that is not stale. *)
Lemma update_task_processed d ctx key status message cause sequence d1 :
  accept_sequence d key sequence = Some d1 → driver_inv (d, ctx) →
  handle_update_task policy d ctx key status message cause sequence ⇓
    (λ r, driver_inv (outcome_state r) ∧
      moves (scheduler_update (d1, ctx) key (status_state status) message cause)
        (outcome_state r)).
Proof.
  intros Hs Hd. unfold handle_update_task. rewrite Hs.
  destruct (accept_sequence_inv _ ctx _ _ _ Hs Hd) as [H1 E1]. apply total_bind.
  eapply (total_mono _ (λ st', driver_inv st' ∧
    moves (scheduler_update (d1, ctx) key (status_state status) message cause) st')).
  2:{ intros [d2 ctx2] [H2 M2]. done. }
  destruct (scheduler_update_inv (d1, ctx) key (status_state status) message cause H1) as [H2 M2].
  destruct status.
  - eapply total_mono; [by apply refresh_inv|]. done.
  - by apply finish_task_inv.
  - by apply finish_task_inv.
  - split; [done|reflexivity].
Qed.

Lemma update_task_accepted d ctx key status message cause sequence d1 :
  accept_sequence d key sequence = Some d1 → driver_inv (d, ctx) →
  handle_update_task policy d ctx key status message cause sequence ⇓
    (λ r, driver_inv (outcome_state r) ∧ moves (d1, ctx) (outcome_state r)).
Proof.
  intros Hs Hd. eapply total_mono; [by eapply update_task_processed|]. intros r [Hr Hm].
  split; [done|]. etrans; [|exact Hm]. apply scheduler_update_inv.
  by apply (accept_sequence_inv _ ctx _ _ _ Hs Hd).
Qed.

Lemma update_task_inv d ctx key status message cause sequence :
  driver_inv (d, ctx) →
  handle_update_task policy d ctx key status message cause sequence ⇓
    (λ r, driver_inv (outcome_state r) ∧ evolves (d, ctx) (outcome_state r)).
Proof.
  intros Hd. destruct (accept_sequence d key sequence) as [d1|] eqn:Hs.
  - destruct (accept_sequence_inv _ ctx _ _ _ Hs Hd) as [_ E1].
    eapply total_mono; [by eapply update_task_accepted|]. intros r [Hr Hm]. split; [done|].
    eapply evolves_trans; [done|]. by apply moves_evolves.
  - unfold handle_update_task. rewrite Hs. split; [done|]. apply moves_evolves. reflexivity.
Qed.

Lemma probe_pending_worker_inv d ctx w :
  driver_inv (d, ctx) →
  handle_probe_pending_worker d ctx w ⇓
    (λ r, driver_inv (outcome_state r) ∧ moves (d, ctx) (outcome_state r)).
Proof.
  intros Hd. unfold handle_probe_pending_worker.
  pose proof (fail_worker_if_pending_moves (da_worker_pool d) ctx w) as Hm.
  pose proof (fail_worker_if_pending_keeps (da_worker_pool d) w) as Hk.
  destruct (fail_worker_if_pending (da_worker_pool d) w) as [failed p]. simpl in Hm, Hk.
  destruct (driver_inv_pool d ctx p ctx Hm Hk Hd) as [H1 M1]. destruct failed; [|done].
  assert (driver_inv (da_with_assigner (da_with_pool d p)
      (track_worker_failed_to_start (da_task_assigner d)), ctx) ∧
    moves (da_with_pool d p, ctx) (da_with_assigner (da_with_pool d p)
      (track_worker_failed_to_start (da_task_assigner d)), ctx)) as [H2 M2].
  { apply driver_inv_core; [by split| |done]. apply (core_inv_assigner_step policy);
      [constructor|apply track_worker_failed_narrows|apply H1]. }
  run_call (by apply scale_up_workers_inv).
  intros [d3 ctx3] [H3 M3]. split; [done|]. by do 2 (etrans; [done|]).
Qed.

Lemma driver_inv_streams d ctx s :
  manager_step (da_stream_manager d) s → driver_inv (d, ctx) →
  driver_inv (da_with_streams d s, ctx) ∧ moves (d, ctx) (da_with_streams d s, ctx).
Proof.
  intros Hs Hd. apply driver_inv_core; [by split| |done].
  destruct (manager_step_wf _ _ (stream_buffer_pos _ _ _ (di_core _ Hd)) Hs
    (ci_streams _ _ (di_core _ Hd))). apply core_inv_streams; [done|done|apply Hd].
Qed.

Lemma reply_inv st d ctx channel reply :
  driver_inv (d, ctx) ∧ moves st (d, ctx) →
  driver_inv (d, ctx_reply ctx channel reply) ∧ moves st (d, ctx_reply ctx channel reply).
Proof.
  intros [Hd Hm]. destruct (driver_inv_ctx d ctx _ (ctx_reply_quiet ctx channel reply) Hd).
  split; [done|by etrans].
Qed.

Lemma create_stream_inv d ctx key storage schema result :
  driver_inv (d, ctx) →
  handle_create_local_stream d ctx key storage schema result ⇓
    (λ r, driver_inv (outcome_state r) ∧ moves (d, ctx) (outcome_state r)).
Proof.
  intros Hd. unfold handle_create_local_stream. apply total_bind.
  pose proof (total_create_local_stream (da_stream_manager d) key storage schema
    (stream_buffer_pos _ _ _ (di_core _ Hd)) (ci_streams _ _ (di_core _ Hd))) as Ht.
  destruct (create_local_stream _ _ _ _) as [[r s]| |] eqn:Hc; [|done..].
  apply reply_inv, driver_inv_streams; [by eapply MgCreate|done].
Qed.

Lemma fetch_stream_inv d ctx key result :
  driver_inv (d, ctx) →
  handle_fetch_driver_stream d ctx key result ⇓
    (λ r, driver_inv (outcome_state r) ∧ moves (d, ctx) (outcome_state r)).
Proof.
  intros Hd. unfold handle_fetch_driver_stream. apply total_bind.
  eapply total_mono; [apply total_fetch_core, Hd|]. intros [[r s] ctx1] [Hc Hq].
  apply reply_inv, driver_inv_core; [split; [done..|apply Hq]|done|done].
Qed.

Lemma receive_inv d ctx event :
  driver_inv (d, ctx) →
  receive policy d ctx event ⇓
    (λ r, driver_inv (outcome_state r) ∧ evolves (d, ctx) (outcome_state r)).
Proof.
  intros Hd.
  assert (∀ m, m ⇓ (λ r, driver_inv (outcome_state r) ∧ moves (d, ctx) (outcome_state r)) →
    m ⇓ (λ r, driver_inv (outcome_state r) ∧ evolves (d, ctx) (outcome_state r))) as Hm.
  { intros m H. eapply total_mono; [exact H|]. intros r. apply inv_moves_outcome. }
  destruct event; cbn [receive]; try (by apply update_task_inv); apply Hm.
  - by apply server_ready_inv.
  - by apply register_worker_inv.
  - cbn [total]. unfold handle_worker_heartbeat, continue_, outcome_state. simpl.
    rewrite <-surjective_pairing.
    destruct (on_pool_core _ (λ pool ctx, update_worker_heartbeat pool ctx worker_id) (d, ctx)
      (update_worker_heartbeat_moves _ _ _) (update_worker_heartbeat_keeps _ _ _) (di_core _ Hd))
      as [Hc Hf]. by apply driver_inv_core.
  - cbn [total]. apply driver_inv_pool; [apply update_worker_known_peers_moves|
      apply update_worker_known_peers_keeps|done].
  - by apply probe_pending_worker_inv.
  - by apply probe_idle_inv.
  - by apply probe_lost_inv.
  - by apply execute_job_inv.
  - cbn [total]. unfold handle_clean_up_job. run_call (by apply driver_clean_up_inv). intros [d1 ctx1] H1. exact H1.
  - cbn [total]. unfold handle_probe_pending_task.
    destruct (get_task_state _ _) as [[]|]; try (split; [done|reflexivity]).
    apply driver_inv_ctx; [apply ctx_send_quiet|done].
  - cbn [total]. apply driver_inv_streams; [constructor|done].
  - by apply create_stream_inv.
  - cbn [total]. by apply driver_inv_ctx; [apply ctx_reply_quiet|].
  - by apply fetch_stream_inv.
  - cbn [total]. unfold handle_fetch_worker_stream.
    pose proof (fetch_task_stream_moves (da_worker_pool d) ctx worker_id key schema) as Hpm.
    pose proof (fetch_task_stream_keeps (da_worker_pool d) ctx worker_id key schema) as Hpk.
    destruct (fetch_task_stream (da_worker_pool d) ctx worker_id key schema) as [[r p] ctx1].
    apply reply_inv. by apply driver_inv_pool.
  - cbn [total]. by apply driver_inv_ctx; [apply ctx_reply_quiet|].
  - cbn [total]. apply driver_inv_core; [by split| |done].
    by destruct Hd as [_ []]; split.
Qed.

(** ** Reachable drivers *)

Lemma driver_inv_initial options : options_ok options → driver_inv (driver_initial options).
Proof.
  intros Ho. split; simpl; [apply sched_inv_new|]. split; simpl.
  - done.
  - apply assigner_wf_new.
  - done.
  - intros key [Hk|[a Ha]]; [set_solver|done].
  - intros w (slots & streams & Hw). done.
  - apply pool_inv_new.
  - by apply (manager_reachable_wf (stream_manager_options options)); [apply Ho|constructor].
  - done.
  - intros key [a Ha]. done.
Qed.

Lemma evolves_refl st : evolves st st.
Proof. apply moves_evolves. reflexivity. Qed.

Lemma driver_step_inv st st' :
  driver_step st st' → driver_inv st → driver_inv st' ∧ evolves st st'.
Proof.
  destruct 1 as [d ctx event d' ctx' Hr|d ctx chs Hm]; intros Hd.
  - exact (returns_total _ _ _ Hr (receive_inv d ctx event Hd)).
  - apply inv_moves_outcome, driver_inv_streams; [by constructor|done].
Qed.

Lemma driver_steps_inv st st' :
  rtc driver_step st st' → driver_inv st → driver_inv st' ∧ evolves st st'.
Proof.
  induction 1 as [st|st st1 st2 Hstep _ IH]; intros Hd; [split; [done|apply evolves_refl]|].
  destruct (driver_step_inv _ _ Hstep Hd) as [H1 E1]. destruct (IH H1) as [H2 E2].
  split; [done|by eapply evolves_trans].
Qed.

Lemma driver_reachable_inv options st :
  options_ok options → driver_reachable options st →
  driver_inv st ∧ da_options st.1 = options.
Proof.
  intros Ho Hr. destruct (driver_steps_inv _ _ Hr (driver_inv_initial _ Ho)) as [Hd He].
  split; [done|]. apply (ev_options _ _ He).
Qed.

(** ** Claims *)

(** C1. With a positive number of task slots per worker and a positive stream
    buffer, no event makes a reachable driver panic or loop, whatever arrives
    and in whatever order; the jobs, stages and attempts it knows are never
    forgotten, attempts never regress, and sequence numbers never go back. *)
Theorem driver_total options d ctx event :
  options_ok options → driver_reachable options (d, ctx) →
  receive policy d ctx event ⇓ (λ r, evolves (d, ctx) (outcome_state r)).
Proof.
  intros Ho Hr. destruct (driver_reachable_inv _ _ Ho Hr) as [Hd _].
  eapply total_mono; [by apply receive_inv|]. by intros r [_ ?].
Qed.

(** C2. The components of a reachable driver agree: every attempt the assigner has
    queued or assigned is an attempt of the scheduler, every worker the assigner
    considers active is running in the pool, the queued attempts are distinct
    and unassigned, and every attempt ever created has its launch probe
    scheduled. *)
Theorem driver_coherent options d ctx :
  options_ok options → driver_reachable options (d, ctx) →
  (∀ key, tracked (da_task_assigner d) key → is_Some (find_attempt (da_job_scheduler d) key)) ∧
  (∀ w, active (da_task_assigner d) w → running (da_worker_pool d) w) ∧
  fresh_keys (da_task_assigner d) (queue_keys (as_task_queue (da_task_assigner d))) ∧
  (∀ key, is_Some (find_attempt (da_job_scheduler d) key) →
     EffSendWithDelay (EvProbePendingTask key) (do_task_launch_timeout options)
       ∈ ctx_effects ctx).
Proof.
  intros Ho Hr. destruct (driver_reachable_inv _ _ Ho Hr) as [[_ Hc] Hopt]. simpl in Hopt.
  split_and!.
  - apply Hc.
  - apply Hc.
  - apply (ci_assigner _ _ Hc).
  - rewrite <-Hopt. apply Hc.
Qed.

(** A round of [run_tasks] in a reachable driver launches every attempt that
    leaves the queue exactly once, in the order of the assignment (or reports it
    as failed when its definition cannot be built), and uses only workers that
    are running. *)
Theorem run_tasks_launches options d ctx :
  options_ok options → driver_reachable options (d, ctx) →
  run_tasks policy (d, ctx) ⇓ (λ st',
    ∃ l a, assign_tasks policy (da_task_assigner d) = Returns (l, a) ∧
      launches (assignment_keys l) ctx st'.2 ∧
      (∀ x w i, x ∈ l → tsa_assignment x = AssignWorker w i → running (da_worker_pool d) w)).
Proof.
  intros Ho Hr. destruct (driver_reachable_inv _ _ Ho Hr) as [Hd _].
  eapply total_mono; [by apply run_tasks_inv|]. intros st' [_ ?]. done.
Qed.

(** Status updates are processed at most once: after the driver has processed an
    update with a sequence number, an update of the same attempt with the same or
    a smaller number changes nothing, no matter what happened in between. *)
Lemma stale_update_ignored options d ctx key status message cause q d1 ctx1 d2 ctx2
    status' message' cause' q' :
  options_ok options → driver_reachable options (d, ctx) →
  receive policy d ctx (EvUpdateTask key status message cause (Some q)) =
    Returns (ActorContinue, d1, ctx1) →
  rtc driver_step (d1, ctx1) (d2, ctx2) → (q' ≤ q)%N →
  receive policy d2 ctx2 (EvUpdateTask key status' message' cause' (Some q')) =
    Returns (ActorContinue, d2, ctx2).
Proof.
  intros Ho Hr H1 H2 Hq. destruct (driver_reachable_inv _ _ Ho Hr) as [Hd _].
  destruct (driver_step_inv _ _ (DriverReceive _ _ _ _ _ H1) Hd) as [Hd1 E1].
  destruct (driver_steps_inv _ _ H2 Hd1) as [_ E2].
  assert (∃ s, da_task_sequences d1 !! key = Some s ∧ (q ≤ s)%N) as (s & Hs & Hqs).
  { cbn [receive] in H1. destruct (accept_sequence d key (Some q)) as [d0|] eqn:Ha.
    - destruct (returns_total _ _ _ H1 (update_task_accepted _ ctx _ status message cause _ _ Ha Hd))
        as [_ Hm]. exists q. split; [|lia].
      rewrite (mv_sequences _ _ Hm : da_task_sequences d1 = _).
      unfold accept_sequence in Ha. destruct (from_option _ _ _); simplify_eq/=.
      by rewrite lookup_insert_eq.
    - unfold handle_update_task in H1. rewrite Ha in H1. simplify_eq/=.
      unfold accept_sequence in Ha. destruct (da_task_sequences d1 !! key) as [s|]; [|done].
      simpl in Ha. case_bool_decide; [|done]. eauto. }
  destruct (ev_sequences _ _ E2 key s Hs) as (s' & Hs' & Hle). simpl in Hs'.
  cbn [receive]. unfold handle_update_task, accept_sequence. rewrite Hs'. simpl.
  by rewrite bool_decide_true by lia.
Qed.

Lemma scheduler_update_find st key state message cause key' :
  find_attempt (da_job_scheduler (scheduler_update st key state message cause).1) key' =
    if decide (key' = key)
    then attempt_update (utc_at (ctx_reads st.2)) state message cause <$>
           find_attempt (da_job_scheduler st.1) key
    else find_attempt (da_job_scheduler st.1) key'.
Proof.
  destruct st as [d ctx]. unfold scheduler_update. rewrite (surjective_pairing (utc_now ctx)).
  apply find_attempt_update.
Qed.

Lemma accept_sequence_scheduler d key sequence d1 :
  accept_sequence d key sequence = Some d1 → da_job_scheduler d1 = da_job_scheduler d.
Proof.
  unfold accept_sequence. destruct sequence; [|by intros [= ->]].
  destruct (from_option _ _ _); intros; by simplify_eq.
Qed.

(** A status update that is not stale reaches the attempt it names: after the
    handler, with all the scheduling it triggers, the attempt is as the update
    left it or further along; in particular a final status stays, unless the
    attempt was final already. *)
Theorem status_update_recorded options d ctx key status message cause sequence d1 a :
  options_ok options → driver_reachable options (d, ctx) →
  accept_sequence d key sequence = Some d1 →
  find_attempt (da_job_scheduler d) key = Some a →
  receive policy d ctx (EvUpdateTask key status message cause sequence) ⇓ (λ r, ∃ a',
    find_attempt (da_job_scheduler (outcome_state r).1) key = Some a' ∧
    attempt_evolves
      (attempt_update (utc_at (ctx_reads ctx)) (status_state status) message cause a) a' ∧
    (status ≠ StatusRunning → ta_state a' = consolidate (ta_state a) (status_state status))).
Proof.
  intros Ho Hr Hs Ha. destruct (driver_reachable_inv _ _ Ho Hr) as [Hd _].
  eapply total_mono; [by eapply update_task_processed|]. intros r [_ Hm].
  destruct (find_attempt_evolves _ _ key
    (attempt_update (utc_at (ctx_reads ctx)) (status_state status) message cause a)
    (mv_scheduler _ _ Hm)) as (a' & Ha' & He).
  { rewrite scheduler_update_find, decide_True by done. simpl.
    rewrite (accept_sequence_scheduler _ _ _ _ Hs), Ha. done. }
  exists a'. split_and!; [done|done|]. intros Hne. apply (ae_terminal _ _ He). simpl.
  destruct (ta_state a), status; done.
Qed.

(** ** Lost and idle workers *)

Lemma stopped_not_running p ctx w :
  pool_inv p ctx → EffSpawn (SpStopWorker w) ∈ ctx_effects ctx → ¬ running p w.
Proof.
  intros Hp Hin (x & Hx & Hr). pose proof (pi_workers _ _ Hp w x Hx) as Hok.
  unfold worker_ok in Hok. unfold WorkerPoolTheorems.stop_requests in Hok.
  unfold is_running in Hr. destruct (wd_state x); try done. destruct Hok as (_ & Hz & _).
  apply length_zero_iff_nil in Hz.
  assert (EffSpawn (SpStopWorker w) ∈ filter (λ e, is_stop_request w e = true) (ctx_effects ctx))
    as Hf.
  { apply list_elem_of_filter. split; [|done]. simpl. by apply bool_decide_eq_true. }
  rewrite Hz in Hf. set_solver.
Qed.

Lemma stop_running_request p ctx w reason t :
  get_worker_last_heartbeat p w = Some t ∨ get_worker_last_update p w = Some t →
  ctx_effects (stop_worker p ctx w reason).2 = ctx_effects ctx ++ [EffSpawn (SpStopWorker w)].
Proof.
  unfold get_worker_last_heartbeat, get_worker_last_update, stop_worker.
  destruct (im_get w (wp_workers p)) as [x|]; [|naive_solver].
  destruct (wd_state x) eqn:Hx; [naive_solver| |naive_solver..].
  intros _. unfold get_client_set. by rewrite Hx.
Qed.

Lemma fold_failed_terminal message cause keys st :
  (∀ key, key ∈ keys → is_Some (find_attempt (da_job_scheduler st.1) key)) →
  ∀ key, key ∈ keys → ∃ a,
    find_attempt (da_job_scheduler (foldl (λ st key,
      scheduler_update st key TaskFailed message cause) st keys).1) key = Some a ∧
    is_terminal (ta_state a) = true.
Proof.
  set (f := λ st key, scheduler_update st key TaskFailed message cause).
  assert (∀ keys st key a, find_attempt (da_job_scheduler st.1) key = Some a →
    is_terminal (ta_state a) = true → ∃ a',
    find_attempt (da_job_scheduler (foldl f st keys).1) key = Some a' ∧
    is_terminal (ta_state a') = true) as Hstays.
  { clear. induction keys as [|k keys IH]; intros st key a Ha Ht; [eauto|]. simpl.
    assert (∃ a', find_attempt (da_job_scheduler (f st k).1) key = Some a' ∧
      is_terminal (ta_state a') = true) as (a' & Ha' & Ht').
    { unfold f. rewrite scheduler_update_find. case_decide; [subst|eauto]. rewrite Ha.
      eexists. split; [done|]. simpl. by destruct (ta_state a). }
    by eapply IH. }
  revert st. induction keys as [|k keys IH]; intros st Hk key Hin; [set_solver|]. simpl.
  destruct (decide (key = k)) as [->|Hne].
  - destruct (Hk k) as [a Ha]; [set_solver|]. eapply Hstays.
    + unfold f. rewrite scheduler_update_find, decide_True, Ha by done. done.
    + simpl. by destruct (ta_state a).
  - apply IH; [|set_solver]. intros key' Hk'. unfold f. rewrite scheduler_update_find.
    destruct (decide (key' = k)) as [->|]; [|apply Hk; set_solver].
    destruct (Hk k) as [a ->]; [set_solver|]. by eexists.
Qed.

Lemma worker_tasks_known d ctx w key :
  driver_inv (d, ctx) → key ∈ find_worker_tasks (da_task_assigner d) w →
  is_Some (find_attempt (da_job_scheduler d) key).
Proof.
  intros [_ Hc] Hk. apply (ci_tracked _ _ Hc). right. unfold find_worker_tasks in Hk.
  destruct (im_get w (as_workers (da_task_assigner d))) as [[slots streams|]|] eqn:Hw; [|set_solver..].
  apply list_elem_of_bind in Hk as (s & Hk & Hs). apply list_elem_of_lookup in Hs as [i Hi].
  destruct (sw_worker_slot _ (aw_slots _ (ci_assigner _ _ Hc)) w i s) as [_ Hkey].
  { unfold worker_slot. simpl. by rewrite Hw. }
  simpl in *. rewrite (Hkey key Hk). by eexists.
Qed.

(** A lost-worker probe with an instant before the last heartbeat changes nothing.
    Otherwise the worker is asked to stop and is neither running nor active any
    more, and every attempt it was running is final, so that its regions can be
    scheduled again; the driver never waits for a worker that went silent. *)
Theorem lost_worker_cleared options d ctx w instant t :
  options_ok options → driver_reachable options (d, ctx) →
  get_worker_last_heartbeat (da_worker_pool d) w = Some t →
  if bool_decide (t ≤ instant)%Z then
    receive policy d ctx (EvProbeLostWorker w instant) ⇓ (λ r,
      EffSpawn (SpStopWorker w) ∈ ctx_effects (outcome_state r).2 ∧
      ¬ running (da_worker_pool (outcome_state r).1) w ∧
      ¬ active (da_task_assigner (outcome_state r).1) w ∧
      ∀ key, key ∈ find_worker_tasks (da_task_assigner d) w → ∃ a,
        find_attempt (da_job_scheduler (outcome_state r).1) key = Some a ∧
        is_terminal (ta_state a) = true)
  else receive policy d ctx (EvProbeLostWorker w instant) = Returns (ActorContinue, d, ctx).
Proof.
  intros Ho Hr Ht. destruct (driver_reachable_inv _ _ Ho Hr) as [Hd _].
  cbn [receive]. unfold handle_probe_lost_worker, not_after. rewrite Ht. cbn [from_option].
  case_bool_decide as Hle; [|done].
  pose proof (stop_and_deactivate_inv d ctx w (Some "worker heartbeat timeout") Hd) as Hs.
  pose proof (stop_running_request _ ctx w (Some "worker heartbeat timeout") _ (or_introl Ht)) as Hreq.
  unfold on_pool in *.
  destruct (stop_worker (da_worker_pool d) ctx w _) as [p ctx1]. simpl in Hreq.
  cbn [fst snd] in Hs. destruct Hs as [H1 M1]. set (d1 := da_with_assigner _ _) in *.
  change (da_task_assigner (da_with_pool d p)) with (da_task_assigner d).
  set (keys := find_worker_tasks (da_task_assigner d) w).
  destruct (driver_foldl (λ st key, scheduler_update st key TaskFailed
      (Some "task failed for lost worker") (Some (CauseExecution "task failed for lost worker")))
    (λ _, []) keys (d1, ctx1)) as [[H2 M2] _]; [| |exact H1|].
  { intros. by apply scheduler_update_inv. }
  { intros [d0 ctx0] key. unfold scheduler_update. rewrite (surjective_pairing (utc_now ctx0)).
    exists []. simpl. by rewrite app_nil_r. }
  assert (∀ key, key ∈ keys → is_Some (find_attempt (da_job_scheduler d1) key)) as Hk
    by (intros key; by apply (worker_tasks_known d ctx w)).
  pose proof (fold_failed_terminal (Some "task failed for lost worker")
    (Some (CauseExecution "task failed for lost worker")) keys (d1, ctx1) Hk) as Hterm.
  apply total_bind. eapply total_mono.
  { apply for_each_driver; [|exact H2]. intros. by apply refresh_and_run_inv. }
  intros [d3 ctx3] [H3 M3]. cbn [total].
  assert (EffSpawn (SpStopWorker w) ∈ ctx_effects ctx3) as Hin.
  { eapply elem_of_extends; [apply M3|]. eapply elem_of_extends; [apply M2|]. simpl.
    rewrite Hreq. set_solver. }
  pose proof (stopped_not_running _ _ _ (ci_pool _ _ (di_core _ H3)) Hin) as Hnr.
  split_and!; [done|done| |].
  - intros Ha. by apply Hnr, (ci_active _ _ (di_core _ H3)).
  - intros key (a & Ha & Hta)%Hterm.
    destruct (find_attempt_evolves _ _ key a (mv_scheduler _ _ M3) Ha) as (a' & Ha' & He).
    exists a'. split; [done|]. by rewrite (ae_terminal _ _ He).
Qed.

(** An idle probe stops a running worker only when none of its slots holds an
    attempt, it owns no stream, and nothing was asked of it since the probe was
    scheduled; it is then asked to stop once and is not active any more.  In every
    other case the probe changes nothing. *)
Theorem idle_worker_stopped options d ctx w instant t :
  options_ok options → driver_reachable options (d, ctx) →
  get_worker_last_update (da_worker_pool d) w = Some t →
  let r := handle_probe_idle_worker d ctx w instant in
  if bool_decide (t ≤ instant)%Z && is_worker_idle (da_task_assigner d) w then
    find_worker_tasks (da_task_assigner d) w = [] ∧
    ctx_effects r.2 = ctx_effects ctx ++ [EffSpawn (SpStopWorker w)] ∧
    ¬ running (da_worker_pool r.1.2) w ∧ ¬ active (da_task_assigner r.1.2) w
  else r = (ActorContinue, d, ctx).
Proof.
  intros Ho Hr Ht. destruct (driver_reachable_inv _ _ Ho Hr) as [Hd _]. cbv zeta.
  unfold handle_probe_idle_worker, not_after. rewrite Ht. cbn [from_option].
  rewrite andb_comm. destruct (is_worker_idle _ _ && _) eqn:Hb; [|done].
  apply andb_true_iff in Hb as [Hidle _].
  pose proof (stop_and_deactivate_inv d ctx w (Some "worker has been idle for too long") Hd) as Hs.
  pose proof (stop_running_request _ ctx w (Some "worker has been idle for too long") _
    (or_intror Ht)) as Hreq.
  unfold on_pool in *.
  destruct (stop_worker (da_worker_pool d) ctx w _) as [p ctx1]. simpl in Hreq. simpl in Hs |- *.
  destruct Hs as [H1 M1].
  assert (¬ running p w) as Hnr.
  { apply (stopped_not_running p ctx1); [apply (ci_pool _ _ (di_core _ H1))|].
    rewrite Hreq. set_solver. }
  split_and!; [|done|done|].
  - unfold is_worker_idle in Hidle. unfold find_worker_tasks.
    destruct (im_get w (as_workers (da_task_assigner d))) as [[slots streams|]|]; [|done..].
    apply andb_true_iff in Hidle as [Hv _]. rewrite forallb_Forall in Hv.
    clear -Hv. induction slots as [|s slots IH]; [done|]. rewrite bind_cons.
    rewrite IH by (intros; apply Hv; set_solver).
    specialize (Hv s ltac:(set_solver)). unfold slot_is_vacant in Hv. by destruct (slot_tasks s).
  - apply deactivate_not_active.
Qed.
End theorems.
