(* ===== verification/Cluster.v ===== *)
(** * The driver and its workers

    Guarantees that need both sides: status reports on their way from a worker
    to the driver, and the addresses of peers on their way from the driver to a
    worker. *)

From S2P Require Import Prelude Ids JobGraph Topology JobState JobScheduler SchedulerSystem TaskAssigner Streams Actor StreamManager StreamManagerTheorems Worker WorkerTheorems WorkerPool WorkerPoolTheorems Driver DriverFacts DriverTheorems.

(** ** Status reports *)
Section reports.
Context `{DF : DataFusion} `{HO : HashOrder} `{FC : ForeignCauses} `{PL : !Planner}
  `{DI : !DiskIo} `{CL : Clock} `{PE : !PlanExecutor} `{!PlannerLaws PL} `{!ClockLaws CL}
  `{WE : !WorkerExecutor}.
Context (policy : PlacementPolicy).

(** The event the driver receives for a report of a worker. *)
Definition report_event (r : StatusReport) (sequence : N) : DriverEvent :=
  let '(key, status, message, cause) := r in
  EvUpdateTask key status message cause (Some sequence).

(** Reports of a worker take effect in the order in which the worker made
    them, also when they are repeated or overtake each other on the way: once
    the driver has processed a report on an attempt, the same report and every
    report the worker made before it on that attempt change nothing, no matter
    what the driver did in between.  The worker itself numbers its reports
    without gaps, so that the running report of a task monitor never undoes its
    final report. *)
Theorem late_report_ignored options d ctx wo w wctx hist i j ri rj qi qj d1 ctx1 d2 ctx2 :
  options_ok options → driver_reachable policy options (d, ctx) →
  worker_reachable wo w wctx hist →
  sent_reports wctx !! i = Some (ri, qi) → sent_reports wctx !! j = Some (rj, qj) →
  i ≤ j → ri.1.1.1 = rj.1.1.1 →
  receive policy d ctx (report_event rj qj) = Returns (ActorContinue, d1, ctx1) →
  rtc (driver_step policy) (d1, ctx1) (d2, ctx2) →
  receive policy d2 ctx2 (report_event ri qi) = Returns (ActorContinue, d2, ctx2).
Proof.
  intros Ho Hd Hw Hi Hj Hij Hk H1 H2.
  destruct ri as [[[key si] mi] ci], rj as [[[key' sj] mj] cj]. simpl in *. subst key'.
  eapply stale_update_ignored; [done|done|exact H1|done|].
  destruct (decide (i = j)) as [->|Hne]; [by simplify_eq|].
  apply N.lt_le_incl. apply (worker_reports_sorted wo w wctx hist i j _ _ _ _ Hw Hi Hj). lia.
Qed.
End reports.

(** ** Peers *)
Section peers.
Context `{DF : DataFusion} `{FC : ForeignCauses} `{DI : !DiskIo} `{CL : Clock} `{!ClockLaws CL}
  `{WE : !WorkerExecutor}.
Implicit Types (p : WorkerPool) (ctx : ActorContext) (wctx : WorkerContext).

(** The addresses the driver has sent to workers with tasks. *)
Definition effect_locations (e : Effect) : list WorkerLocation :=
  match e with EffSpawn (SpRunTask _ _ _ peers) => peers | _ => [] end.
Definition sent_locations (es : list Effect) : list WorkerLocation :=
  es ≫= effect_locations.

(** An effect other than running a task, and a context extended by such
    effects. *)
Definition runs_task (e : Effect) : bool :=
  match e with EffSpawn (SpRunTask _ _ _ _) => true | _ => false end.
Definition no_runs (ctx ctx' : ActorContext) : Prop :=
  ∃ es, ctx_effects ctx' = ctx_effects ctx ++ es ∧ Forall (λ e, runs_task e = false) es.

(** The driver's pool, what the driver has asked for, and the workers by their
    identifier. *)
Record Cluster := MkCluster {
  cl_pool : WorkerPool;
  cl_ctx : ActorContext;
  cl_workers : gmap N (WorkerActor * WorkerContext)
}.

(** Operations of the pool that neither run tasks nor note registrations and
    peers; the other components of the driver ask for no task to be run. *)
Inductive pool_local : WorkerPool * ActorContext → WorkerPool * ActorContext → Prop :=
| LocalPort p ctx port : pool_local (p, ctx) (set_driver_server_port p port, ctx)
| LocalStart p ctx : pool_local (p, ctx) (start_worker p ctx)
| LocalStop p ctx w reason : pool_local (p, ctx) (stop_worker p ctx w reason)
| LocalHeartbeat p ctx w : pool_local (p, ctx) (update_worker_heartbeat p ctx w)
| LocalTimeout p ctx w : pool_local (p, ctx) ((fail_worker_if_pending p w).2, ctx)
| LocalStopTask p ctx w key : pool_local (p, ctx) (stop_task p ctx w key)
| LocalFetch p ctx w key schema :
    pool_local (p, ctx) ((fetch_task_stream p ctx w key schema).1.2,
                         (fetch_task_stream p ctx w key schema).2)
| LocalCleanUp p ctx w job_id stage : pool_local (p, ctx) (clean_up_job p ctx w job_id stage)
| LocalClose p ctx r : pool_local (p, ctx) ((close p ctx r).1.2, (close p ctx r).2)
| LocalOther p ctx ctx' : ctx_quiet ctx ctx' → no_runs ctx ctx' →
    pool_local (p, ctx) (p, ctx').

(** A message a worker may receive: the driver has asked for the tasks it runs,
    and it reports the peers it has been told of. *)
Definition admissible (c : Cluster) (id : N) (wctx : WorkerContext) (m : WorkerEvent) : Prop :=
  match m with
  | WvRunTask key definition peers =>
      EffSpawn (SpRunTask id key definition peers) ∈ ctx_effects (cl_ctx c)
  | WvReportKnownPeers ids => WeSend (WvReportKnownPeers ids) ∈ wctx
  | _ => True
  end.

(** Requests between the driver and the workers may be lost, repeated and
    reordered. *)
Inductive cluster_step : Cluster → Cluster → Prop :=
| ClPool c p ctx : pool_local (cl_pool c, cl_ctx c) (p, ctx) →
    cluster_step c (MkCluster p ctx (cl_workers c))
| ClRun c id key definition :
    cluster_step c
      (MkCluster (run_task (cl_pool c) (cl_ctx c) id key definition).1
         (run_task (cl_pool c) (cl_ctx c) id key definition).2 (cl_workers c))
| ClRegister c id host port w wctx :
    cl_workers c !! id = Some (w, wctx) → WeSpawn (WsRegister id host port) ∈ wctx →
    cluster_step c
      (MkCluster (register_worker (cl_pool c) (cl_ctx c) id host port).1.2
         (register_worker (cl_pool c) (cl_ctx c) id host port).2 (cl_workers c))
| ClKnownPeers c id ids w wctx :
    cl_workers c !! id = Some (w, wctx) → WeSpawn (WsReportKnownPeers id ids) ∈ wctx →
    cluster_step c
      (MkCluster (update_worker_known_peers (cl_pool c) id ids) (cl_ctx c) (cl_workers c))
| ClWorkerStart c options :
    cl_workers c !! wo_worker_id options = None →
    cluster_step c (MkCluster (cl_pool c) (cl_ctx c)
      (<[wo_worker_id options := (worker_start (worker_new options), [])]> (cl_workers c)))
| ClWorkerReceive c id w wctx m w' wctx' :
    cl_workers c !! id = Some (w, wctx) → admissible c id wctx m →
    worker_receive w wctx m = Returns (ActorContinue, w', wctx') →
    cluster_step c (MkCluster (cl_pool c) (cl_ctx c) (<[id := (w', wctx')]> (cl_workers c))).

Definition cluster_start (options : WorkerPoolOptions) : Cluster :=
  MkCluster (worker_pool_new options) (MkActorContext 0 []) ∅.

(** ** The invariant *)

(** The pool may have sent this address. *)
Definition address_of (p : WorkerPool) (loc : WorkerLocation) : Prop :=
  ∃ d, im_get (wl_worker_id loc) (wp_workers p) = Some d ∧
    match wd_state d with
    | WorkerPending => False
    | WorkerRunning host port _ _ _ => host = wl_host loc ∧ port = wl_port loc
    | _ => True
    end.

(** What a worker knows of a peer was sent to it by the driver. *)
Definition peer_known (tls : bool) (es : list Effect) (id : N) (peer : Peer) : Prop :=
  MkWorkerLocation id (peer_host peer) (peer_port peer) ∈ sent_locations es ∧
  ∀ client, peer_client_set peer = Some client →
    client = MkClientOptions tls (peer_host peer) (peer_port peer).

Record worker_side (es : list Effect) (id : N) (w : WorkerActor) (wctx : WorkerContext)
    : Prop := {
  wsd_id : wo_worker_id (wa_options w) = id;
  wsd_tracker : pt_options (wa_peer_tracker w) = peer_tracker_options (wa_options w);
  wsd_peers : ∀ x peer, pt_peers (wa_peer_tracker w) !! x = Some peer →
    peer_known (wo_enable_tls (wa_options w)) es x peer;
  wsd_sent : ∀ ids x, WeSend (WvReportKnownPeers ids) ∈ wctx → x ∈ ids →
    is_Some (pt_peers (wa_peer_tracker w) !! x);
  wsd_reported : ∀ id' ids x, WeSpawn (WsReportKnownPeers id' ids) ∈ wctx → x ∈ ids →
    is_Some (pt_peers (wa_peer_tracker w) !! x)
}.

Record cluster_inv (c : Cluster) : Prop := {
  cv_pool : pool_inv (cl_pool c) (cl_ctx c);
  cv_address : ∀ loc, loc ∈ sent_locations (ctx_effects (cl_ctx c)) → address_of (cl_pool c) loc;
  cv_unique : ∀ loc loc', loc ∈ sent_locations (ctx_effects (cl_ctx c)) →
    loc' ∈ sent_locations (ctx_effects (cl_ctx c)) →
    wl_worker_id loc = wl_worker_id loc' → loc = loc';
  cv_workers : ∀ id w wctx, cl_workers c !! id = Some (w, wctx) →
    worker_side (ctx_effects (cl_ctx c)) id w wctx;
  cv_known : ∀ id d x, im_get id (wp_workers (cl_pool c)) = Some d → x ∈ wd_peers d →
    ∃ w wctx, cl_workers c !! id = Some (w, wctx) ∧ is_Some (pt_peers (wa_peer_tracker w) !! x);
  cv_running : ∀ id d host port u b k, im_get id (wp_workers (cl_pool c)) = Some d →
    wd_state d = WorkerRunning host port u b k →
    ∃ w wctx, cl_workers c !! id = Some (w, wctx) ∧ WeSpawn (WsRegister id host port) ∈ wctx
}.

(** ** Operations of the pool *)

(** A descriptor keeps the peers and, while it runs, the address. *)
Definition same_worker (d d' : WorkerDescriptor) : Prop :=
  wd_peers d' = wd_peers d ∧
  ∀ host port u b k, wd_state d' = WorkerRunning host port u b k →
    ∃ u0 b0 k0, wd_state d = WorkerRunning host port u0 b0 k0.

#[local] Instance same_worker_preorder : PreOrder same_worker.
Proof.
  split; [by split; eauto|]. intros d1 d2 d3 [P1 S1] [P2 S2]. split; [congruence|].
  intros host port u b k (u0 & b0 & k0 & H)%S2. eauto.
Qed.

(** Every worker is as it was, or new and not running. *)
Definition tame (p p' : WorkerPool) : Prop :=
  ∀ id d', im_get id (wp_workers p') = Some d' →
    (∃ d, im_get id (wp_workers p) = Some d ∧ same_worker d d') ∨
    (wd_peers d' = ∅ ∧ ∀ host port u b k, wd_state d' ≠ WorkerRunning host port u b k).

#[local] Instance tame_preorder : PreOrder tame.
Proof.
  split.
  - intros p id d Hd. left. exists d. split; [done|reflexivity].
  - intros p1 p2 p3 H1 H2 id d3 [(d2 & Hd2 & Hs2)|Hn]%H2; [|by right].
    destruct (H1 id d2 Hd2) as [(d1 & Hd1 & Hs1)|[Hp Hst]].
    + left. exists d1. split; [done|by etrans].
    + right. destruct Hs2 as [Hp2 Hr2]. split; [by rewrite Hp2|].
      intros host port u b k (u0 & b0 & k0 & Hr)%Hr2. by eapply Hst.
Qed.

Lemma tame_set p id d d' :
  im_get id (wp_workers p) = Some d → same_worker d d' → tame p (wp_set p id d').
Proof.
  intros Hd Hs id' d0. simpl. rewrite im_get_insert. case_decide as He.
  - subst. intros [= <-]. left. eauto.
  - intros Hd0. left. exists d0. split; [done|reflexivity].
Qed.

#[local] Instance no_runs_preorder : PreOrder no_runs.
Proof.
  split.
  - intros ctx. exists []. by rewrite app_nil_r.
  - intros c1 c2 c3 (es1 & H1 & F1) (es2 & H2 & F2). exists (es1 ++ es2).
    rewrite H2, H1, app_assoc. split; [done|by apply Forall_app].
Qed.

Lemma no_runs_emit ctx e : runs_task e = false → no_runs ctx (ctx_emit ctx e).
Proof. intros He. exists [e]. split; [done|by constructor]. Qed.

(** Reading a clock, or effects that run no task. *)
Lemma no_runs_same ctx ctx' : ctx_effects ctx' = ctx_effects ctx → no_runs ctx ctx'.
Proof. intros He. exists []. by rewrite app_nil_r. Qed.
#[local] Hint Extern 0 (no_runs _ _) => (apply no_runs_same; reflexivity) : core.

Lemma sent_locations_app es es' :
  sent_locations (es ++ es') = sent_locations es ++ sent_locations es'.
Proof. apply bind_app. Qed.

(** Only running a task sends addresses. *)
Lemma no_runs_locations ctx ctx' :
  no_runs ctx ctx' → sent_locations (ctx_effects ctx') = sent_locations (ctx_effects ctx).
Proof.
  intros (es & -> & Hes). rewrite sent_locations_app.
  assert (sent_locations es = []) as ->; [|apply app_nil_r].
  unfold sent_locations. induction Hes as [|e es He _ IH]; [done|]. rewrite bind_cons, IH.
  by destruct e as [| |[]| |].
Qed.

(** The calls to a worker that send no address. *)
Definition tame_step (p : WorkerPool) (ctx : ActorContext) (r : WorkerPool * ActorContext)
    : Prop := tame p r.1 ∧ no_runs ctx r.2.

Lemma tame_step_id p ctx : tame_step p ctx (p, ctx).
Proof. split; reflexivity. Qed.

Lemma tame_step_trans p ctx r r' :
  tame_step p ctx r → tame_step r.1 r.2 r' → tame_step p ctx r'.
Proof. intros [H1 N1] [H2 N2]. split; by etrans. Qed.

Lemma track_worker_activity_same ctx id d o :
  same_worker d (track_worker_activity ctx id d o).1 ∧
  no_runs ctx (track_worker_activity ctx id d o).2.
Proof.
  unfold track_worker_activity. destruct (wd_state d) as [|host port u b k| |] eqn:Hst;
    [by split| |by split..].
  simpl. split; [|by apply (no_runs_emit (instant_now ctx).2)].
  split; [done|]. simpl. intros. simplify_eq. eauto.
Qed.

Lemma get_client_set_same id d o : same_worker d (get_client_set id d o).2.
Proof.
  unfold get_client_set. destruct (wd_state d) as [|host port u b k| |] eqn:Hst;
    [reflexivity| |reflexivity..].
  split; [done|]. simpl. intros. simplify_eq. eauto.
Qed.

Lemma tame_call p ctx id d d1 ctx1 ctx2 :
  im_get id (wp_workers p) = Some d →
  track_worker_activity ctx id d (wp_options p) = (d1, ctx1) → no_runs ctx1 ctx2 →
  tame_step p ctx (wp_set p id (get_client_set id d1 (wp_options p)).2, ctx2).
Proof.
  intros Hd Ht Hn. pose proof (track_worker_activity_same ctx id d (wp_options p)) as [Hs Hn1].
  rewrite Ht in Hs, Hn1. simpl in *. split.
  - apply (tame_set p id d); [done|]. etrans; [done|apply get_client_set_same].
  - simpl. by etrans.
Qed.

#[local] Ltac tame_call :=
  match goal with
  | Hd : im_get ?id (wp_workers ?p) = Some ?d |- context [track_worker_activity ?ctx ?id ?d ?o] =>
      let Ht := fresh "Ht" in
      destruct (track_worker_activity ctx id d o) as [d1 ctx1] eqn:Ht;
      pose proof (λ ctx2, tame_call p ctx id d d1 ctx1 ctx2 Hd Ht) as Hcall;
      destruct (get_client_set id d1 o) as [[?|?] ?]; simpl in Hcall |- *
  end.

Lemma stop_worker_tame p ctx id reason : tame_step p ctx (stop_worker p ctx id reason).
Proof.
  unfold stop_worker. destruct (im_get id (wp_workers p)) as [d|] eqn:Hd; [|apply tame_step_id].
  destruct (wd_state d) as [|host port u b k| |] eqn:Hst; [| |apply tame_step_id..].
  - split; [by apply (tame_set p id d)|done].
  - unfold get_client_set. rewrite Hst. simpl. split; [by apply (tame_set p id d)|].
    by apply (no_runs_emit ctx).
Qed.

Lemma close_fold_tame ids p ctx :
  tame_step p ctx (foldl (λ '(p, ctx) id, stop_worker p ctx id (Some "closing worker pool"))
                     (p, ctx) ids).
Proof.
  revert p ctx. induction ids as [|id ids IH]; intros p ctx; [apply tame_step_id|]. simpl.
  eapply tame_step_trans; [apply (stop_worker_tame p ctx id (Some "closing worker pool"))|].
  destruct (stop_worker _ _ _ _). apply IH.
Qed.

Lemma start_worker_tame p ctx : tame_step p ctx (start_worker p ctx).
Proof.
  unfold start_worker. destruct (id_generator_next _) as [[id|e] g].
  2:{ split; [|by apply no_runs_emit]. intros id d Hd. left. exists d.
      split; [done|reflexivity]. }
  cbv zeta. rewrite (surjective_pairing (utc_now ctx)).
  cbn [wp_driver_server_port wp_set wp_with_workers].
  assert (tame p (wp_set (MkWorkerPool (wp_options p) (wp_driver_server_port p) (wp_workers p) g)
    id (MkWorkerDescriptor WorkerPending [] ∅ (utc_now ctx).1 None))) as Ht.
  { intros id' d. simpl. rewrite im_get_insert. case_decide; [intros [= <-]; by right|].
    intros Hd. left. exists d. split; [done|reflexivity]. }
  assert (no_runs ctx (ctx_send_with_delay (utc_now ctx).2 (EvProbePendingWorker id)
    (wpo_worker_launch_timeout (wp_options p)))) as Hn
    by (by apply (no_runs_emit (utc_now ctx).2)).
  destruct (wp_driver_server_port p) as [port|]; split; [done| |done|done].
  etrans; [exact Hn|by apply no_runs_emit].
Qed.

Lemma pool_local_tame st st' : pool_local st st' → tame_step st.1 st.2 st'.
Proof.
  destruct 1 as [p ctx port|p ctx|p ctx id reason|p ctx id|p ctx id|p ctx id key|
    p ctx id key schema|p ctx id job_id stage|p ctx r|p ctx ctx' Hq Hn]; simpl.
  - split; [|done]. intros id d Hd. left. exists d. split; [done|reflexivity].
  - apply start_worker_tame.
  - apply stop_worker_tame.
  - unfold update_worker_heartbeat.
    destruct (im_get id (wp_workers p)) as [d|] eqn:Hd; [|apply tame_step_id].
    destruct (wd_state d) as [|host port u b k| |] eqn:Hst; [apply tame_step_id| |
      apply tame_step_id..].
    simpl. split; [|by apply (no_runs_emit (instant_now ctx).2)].
    apply (tame_set p id d); [done|]. split; [done|]. simpl. intros. simplify_eq. eauto.
  - split; [|done]. simpl. unfold fail_worker_if_pending.
    destruct (im_get id (wp_workers p)) as [d|] eqn:Hd; [|reflexivity].
    destruct (wd_state d); [|reflexivity..]. by apply (tame_set p id d).
  - unfold stop_task. destruct (im_get id (wp_workers p)) as [d|] eqn:Hd; [|apply tame_step_id].
    tame_call; apply Hcall; [by apply no_runs_emit|done].
  - unfold fetch_task_stream.
    destruct (im_get id (wp_workers p)) as [d|] eqn:Hd; [|apply tame_step_id].
    tame_call; by apply Hcall.
  - unfold clean_up_job, clean_up_job_for_worker.
    destruct (im_get id (wp_workers p)) as [d|] eqn:Hd; [|apply tame_step_id].
    tame_call; apply Hcall; [by apply no_runs_emit|done].
  - unfold close. pose proof (close_fold_tame (im_keys (wp_workers p)) p ctx) as Hc.
    by destruct (foldl _ _ _).
  - by split.
Qed.

Lemma pool_local_step st st' : pool_local st st' → pool_step st st'.
Proof. destruct 1; by constructor. Qed.

(** Running a task sends a worker only addresses of running workers: those it
    has not reported to know. *)
Lemma run_task_locations p ctx id key definition p' ctx' :
  run_task p ctx id key definition = (p', ctx') →
  tame p p' ∧
  (no_runs ctx ctx' ∨ ∃ d ctx1, im_get id (wp_workers p) = Some d ∧ no_runs ctx ctx1 ∧
     ctx_effects ctx' = ctx_effects ctx1 ++ [EffSpawn (SpRunTask id key definition
       (filter (λ x, wl_worker_id x ∉ wd_peers d) (list_running_workers p)))]).
Proof.
  unfold run_task. destruct (im_get id (wp_workers p)) as [d|] eqn:Hd.
  2:{ intros [= <- <-]. split; [done|]. left. by apply no_runs_emit. }
  pose proof (track_worker_activity_same ctx id d (wp_options p)) as [Hs Hn1].
  destruct (track_worker_activity ctx id d (wp_options p)) as [d1 ctx1] eqn:Ht. simpl in Hs, Hn1.
  pose proof (λ ctx2, tame_call p ctx id d d1 ctx1 ctx2 Hd Ht) as Hcall.
  pose proof (get_client_set_same id d1 (wp_options p)) as Hs2.
  destruct (get_client_set id d1 (wp_options p)) as [[client|e] d2]; simpl in *;
    assert (∀ event, no_runs ctx (ctx_send ctx1 event)) as Hsend
      by (intros event; apply (Hcall (ctx_send ctx1 event)); by apply no_runs_emit);
    destruct (Hcall ctx1) as [Hp _]; try done.
  - destruct (wd_state d2) eqn:Hst; intros [= <- <-].
    1,3,4: split; [done|left; apply Hsend].
    split; [done|]. right.
    exists d, ctx1. split_and!; [done|done|]. simpl.
    destruct Hs as [Hs _], Hs2 as [Hs2 _]. by rewrite Hs2, Hs.
  - intros [= <- <-]. split; [done|left; apply Hsend].
Qed.

(** ** Preservation *)

Lemma elem_of_running p loc :
  im_wf (wp_workers p) → loc ∈ list_running_workers p ↔
  ∃ d u b k, im_get (wl_worker_id loc) (wp_workers p) = Some d ∧
    wd_state d = WorkerRunning (wl_host loc) (wl_port loc) u b k.
Proof.
  intros Hw. unfold list_running_workers. rewrite list_elem_of_omap. split.
  - intros ([id d] & Hin%im_elem_of_get & Hl); [|done]. unfold running_location in Hl.
    simpl in Hl. destruct (wd_state d) as [|host port u b k| |] eqn:Hst; simplify_eq.
    exists d, u, b, k. done.
  - intros (d & u & b & k & Hin%im_get_elem_of & Hst). eexists. split; [exact Hin|].
    unfold running_location. simpl. rewrite Hst. by destruct loc.
Qed.

Lemma address_of_evolves p ctx p' ctx' loc :
  pool_evolves p ctx p' ctx' → address_of p loc → address_of p' loc.
Proof.
  intros He (d & Hd & Ha). destruct (pe_workers _ _ _ _ He _ _ Hd) as (d' & Hd' & Hs).
  exists d'. split; [done|]. pose proof (we_state _ _ Hs) as Hst. unfold state_evolves in Hst.
  destruct (wd_state d), (wd_state d'); try done. destruct Hst as (-> & -> & _). done.
Qed.

(** More addresses sent keep what a worker knows. *)
Lemma worker_side_mono es es' id w wctx :
  (∀ loc, loc ∈ sent_locations es → loc ∈ sent_locations es') →
  worker_side es id w wctx → worker_side es' id w wctx.
Proof.
  intros Hs [? ? Hp ? ?]. split; try done. intros x peer [Hl Hc]%Hp. split; [auto|done].
Qed.

(** What the driver notes of its workers comes from the workers. *)
Definition noted (p : WorkerPool) (workers : gmap N (WorkerActor * WorkerContext)) : Prop :=
  (∀ id d x, im_get id (wp_workers p) = Some d → x ∈ wd_peers d →
     ∃ w wctx, workers !! id = Some (w, wctx) ∧ is_Some (pt_peers (wa_peer_tracker w) !! x)) ∧
  (∀ id d host port u b k, im_get id (wp_workers p) = Some d →
     wd_state d = WorkerRunning host port u b k →
     ∃ w wctx, workers !! id = Some (w, wctx) ∧ WeSpawn (WsRegister id host port) ∈ wctx).

Lemma noted_tame c p : tame (cl_pool c) p → cluster_inv c → noted p (cl_workers c).
Proof.
  intros Ht Hc. split.
  - intros id d x [(d0 & Hd0 & Hs & _)|[Hs _]]%Ht Hx; [|set_solver].
    rewrite Hs in Hx. by eapply (cv_known _ Hc).
  - intros id d host port u b k [(d0 & Hd0 & _ & Hs)|[_ Hs]]%Ht Hst; [|by destruct (Hs _ _ _ _ _ Hst)].
    destruct (Hs _ _ _ _ _ Hst) as (u0 & b0 & k0 & Hst0). by eapply (cv_running _ Hc).
Qed.

(** A step of the pool that keeps the addresses sent consistent. *)
Lemma cluster_inv_pool c p ctx :
  pool_moves (cl_pool c) (cl_ctx c) (p, ctx) → noted p (cl_workers c) →
  (∀ loc, loc ∈ sent_locations (ctx_effects ctx) →
     loc ∈ sent_locations (ctx_effects (cl_ctx c)) ∨ loc ∈ list_running_workers (cl_pool c)) →
  cluster_inv c → cluster_inv (MkCluster p ctx (cl_workers c)).
Proof.
  intros Hm Ht Hl Hc. pose proof (cv_pool _ Hc) as Hpi. destruct (Hm Hpi) as [Hp He].
  assert (∀ loc, loc ∈ list_running_workers (cl_pool c) → address_of (cl_pool c) loc) as Hrun.
  { intros loc (d & u & b & k & Hd & Hst)%elem_of_running; [|apply Hpi].
    exists d. split; [done|]. by rewrite Hst. }
  assert (∀ loc loc', loc ∈ sent_locations (ctx_effects (cl_ctx c)) →
    loc' ∈ list_running_workers (cl_pool c) → wl_worker_id loc = wl_worker_id loc' →
    loc = loc') as Hsr.
  { intros loc loc' (d & Hd & Ha)%(cv_address _ Hc).
    intros (d' & u & b & k & Hd' & Hst)%elem_of_running; [|apply Hpi]. intros Heq.
    rewrite Heq in Hd. simplify_eq. rewrite Hst in Ha. destruct loc, loc'. simpl in *. naive_solver. }
  split; simpl in *.
  - done.
  - intros loc [Hin|Hin]%Hl; (eapply address_of_evolves; [exact He|]).
    + by apply (cv_address _ Hc).
    + by apply Hrun.
  - intros loc loc' [H1|H1]%Hl [H2|H2]%Hl Heq.
    + by apply (cv_unique _ Hc).
    + by apply Hsr.
    + symmetry. by apply Hsr.
    + apply elem_of_running in H1 as (d & u & b & k & Hd & Hst); [|apply Hpi].
      apply elem_of_running in H2 as (d' & u' & b' & k' & Hd' & Hst'); [|apply Hpi].
      rewrite Heq in Hd. simplify_eq. rewrite Hst in Hst'. destruct loc, loc'; naive_solver.
  - intros id w wctx Hw. eapply worker_side_mono; [|by apply (cv_workers _ Hc)].
    intros loc (e & Hin & Hloc)%list_elem_of_bind. apply list_elem_of_bind. exists e.
    split; [done|]. eapply elem_of_extends; [apply He|done].
  - apply Ht.
  - apply Ht.
Qed.

(** ** The tracker *)

Lemma track_peers_spec peers m x :
  (∀ peer, m !! x = Some peer → foldl track_peer m peers !! x = Some peer) ∧
  (x ∈ wl_worker_id <$> peers → is_Some (foldl track_peer m peers !! x)) ∧
  (∀ peer, foldl track_peer m peers !! x = Some peer →
     m !! x = Some peer ∨
     ∃ loc, loc ∈ peers ∧ x = wl_worker_id loc ∧ peer = peer_new (wl_host loc) (wl_port loc)).
Proof.
  revert m. induction peers as [|loc peers IH]; intros m.
  { simpl. split_and!; [done|set_solver|auto]. }
  simpl. destruct (IH (track_peer m loc)) as (H1 & H2 & H3).
  assert (∀ peer, m !! x = Some peer → track_peer m loc !! x = Some peer) as Hk.
  { intros peer Hp. unfold track_peer. destruct (m !! wl_worker_id loc) eqn:He; [done|].
    rewrite lookup_insert_ne; [done|]. intros <-. congruence. }
  split_and!.
  - auto.
  - intros [->|Hx]%elem_of_cons; [|auto].
    assert (is_Some (track_peer m loc !! wl_worker_id loc)) as [peer Hp]; [|by eexists; apply H1].
    unfold track_peer. destruct (m !! wl_worker_id loc) eqn:He; [by rewrite He|].
    by rewrite lookup_insert_eq.
  - intros peer [Hp|(loc' & Hin & Hloc)]%H3; [|right; exists loc'; split; [set_solver|done]].
    unfold track_peer in Hp. destruct (m !! wl_worker_id loc) eqn:He; [by left|].
    destruct (decide (wl_worker_id loc = x)) as [<-|Hne].
    + rewrite lookup_insert_eq in Hp. simplify_eq. right. exists loc. split_and!; [set_solver|done..].
    + rewrite lookup_insert_ne in Hp by done. by left.
Qed.

Lemma get_client_set_spec self id x :
  (∀ peer, pt_peers (peer_get_client_set self id).2 !! x = Some peer →
     ∃ peer0, pt_peers self !! x = Some peer0 ∧ peer_host peer = peer_host peer0 ∧
       peer_port peer = peer_port peer0 ∧
       (peer_client_set peer = peer_client_set peer0 ∨
        peer_client_set peer = Some (peer_client (pt_options self) peer0))) ∧
  (is_Some (pt_peers self !! x) → is_Some (pt_peers (peer_get_client_set self id).2 !! x)).
Proof.
  assert (∀ peer, pt_peers self !! x = Some peer →
    ∃ peer0, pt_peers self !! x = Some peer0 ∧ peer_host peer = peer_host peer0 ∧
       peer_port peer = peer_port peer0 ∧
       (peer_client_set peer = peer_client_set peer0 ∨
        peer_client_set peer = Some (peer_client (pt_options self) peer0))) as Hself.
  { intros peer Hp. exists peer. auto. }
  unfold peer_get_client_set. case_decide; [done|].
  destruct (pt_peers self !! id) as [p0|] eqn:Hid; [|done]. simpl.
  destruct (decide (id = x)) as [<-|Hne].
  - rewrite lookup_insert_eq. split; [|done]. intros peer [= <-]. exists p0. simpl. eauto.
  - by rewrite lookup_insert_ne.
Qed.

(** What a message does to the tracker. *)
Lemma tracker_received c id w wctx m w' es :
  admissible c id wctx m → received w m w' es →
  worker_side (ctx_effects (cl_ctx c)) id w wctx →
  pt_options (wa_peer_tracker w') = pt_options (wa_peer_tracker w) ∧
  (∀ x peer, pt_peers (wa_peer_tracker w') !! x = Some peer →
     peer_known (wo_enable_tls (wa_options w)) (ctx_effects (cl_ctx c)) x peer) ∧
  (∀ x, is_Some (pt_peers (wa_peer_tracker w) !! x) →
     is_Some (pt_peers (wa_peer_tracker w') !! x)) ∧
  (∀ key definition peers x, m = WvRunTask key definition peers → x ∈ wl_worker_id <$> peers →
     is_Some (pt_peers (wa_peer_tracker w') !! x)).
Proof.
  intros Ha (_ & _ & _ & _ & _ & Ht) [Hid Hpt Hp _ _].
  assert ((∀ key definition peers, m ≠ WvRunTask key definition peers) →
    wa_peer_tracker w' = wa_peer_tracker w ∨
    (∃ x, wa_peer_tracker w' = (peer_get_client_set (wa_peer_tracker w) x).2)) as Hother.
  { intros Hm. destruct m as [| | |key definition peers| | | | | | |[]| | |]; auto;
      [by destruct (Hm key definition peers)|]. destruct Ht; eauto. }
  destruct m as [| | |key definition peers| | | | | | | | | |];
    try (destruct Hother as [->|[y ->]]; [done| |];
      [split_and!; [done|done|done|done]|]).
  all: try (split_and!; [apply get_client_set_options| |by intros x; apply get_client_set_spec|done];
    intros x peer (p0 & Hp0 & Hh & Hpo & Hc)%get_client_set_spec; destruct (Hp x p0 Hp0) as [Hl Hcl];
    unfold peer_known; rewrite Hh, Hpo; split; [done|];
    intros client Hclient; destruct Hc as [Hc|Hc]; rewrite Hc in Hclient; [by apply Hcl|];
    injection Hclient as <-; unfold peer_client; destruct (peer_client_set p0) eqn:Hc0;
    [by apply Hcl|by rewrite Hpt]).
  rewrite Ht. simpl. split_and!; [done| | |].
  - intros x peer [Hold|(loc & Hin & -> & ->)]%track_peers_spec; [by apply Hp|].
    split; [|done]. simpl in *. apply list_elem_of_bind. eexists. split; [|exact Ha]. simpl.
    by destruct loc.
  - intros x [peer Hx]. eexists. by apply track_peers_spec.
  - intros key' definition' peers' x [= <- <- <-] Hx. by apply track_peers_spec.
Qed.

Lemma worker_side_receive c id w wctx m w' wctx' :
  admissible c id wctx m → worker_receive w wctx m = Returns (ActorContinue, w', wctx') →
  worker_side (ctx_effects (cl_ctx c)) id w wctx →
  worker_side (ctx_effects (cl_ctx c)) id w' wctx' ∧ wctx `prefix_of` wctx' ∧
  (∀ x, is_Some (pt_peers (wa_peer_tracker w) !! x) → is_Some (pt_peers (wa_peer_tracker w') !! x)).
Proof.
  intros Ha (es & -> & Hrec)%worker_receive_received Hw.
  destruct (tracker_received _ _ _ _ _ _ _ Ha Hrec Hw) as (Hpt' & Hp' & Hg & Hrun).
  destruct Hrec as (Ho & _ & _ & Hsend & Hspawn & _), Hw as [Hid Hpt Hp Hs Hr].
  split_and!; [|by eexists|done]. split.
  - by rewrite Ho.
  - by rewrite Hpt', Ho.
  - rewrite Ho. done.
  - intros ids x [Hin|Hin]%elem_of_app Hx; [by eapply Hg, Hs|].
    apply Hsend in Hin as (key & definition & peers & -> & ->). by eapply Hrun.
  - intros id' ids x [Hin|Hin]%elem_of_app Hx; [by eapply Hg, Hr|].
    apply Hspawn in Hin as [-> ->]. simpl in Ha. by eapply Hg, Hs.
Qed.

(** Workers only learn. *)
Definition workers_grow (ws ws' : gmap N (WorkerActor * WorkerContext)) : Prop :=
  ∀ id w wctx, ws !! id = Some (w, wctx) → ∃ w' wctx', ws' !! id = Some (w', wctx') ∧
    wctx `prefix_of` wctx' ∧ wa_options w' = wa_options w ∧
    ∀ x, is_Some (pt_peers (wa_peer_tracker w) !! x) → is_Some (pt_peers (wa_peer_tracker w') !! x).

#[local] Instance workers_grow_preorder : PreOrder workers_grow.
Proof.
  split.
  - intros ws id w wctx Hw. exists w, wctx. by split_and!.
  - intros ws1 ws2 ws3 H1 H2 id w wctx (w2 & wctx2 & (w3 & wctx3 & ? & ? & ? & ?)%H2 & ? & ? & ?)%H1.
    exists w3, wctx3. split_and!; [done|by etrans|congruence|auto].
Qed.

Lemma noted_grow p ws ws' : workers_grow ws ws' → noted p ws → noted p ws'.
Proof.
  intros Hg [Hk Hr]. split.
  - intros id d x Hd (w & wctx & (w' & wctx' & ? & _ & _ & ?)%Hg & ?)%(Hk id d x Hd). eauto 6.
  - intros id d host port u b k Hd
      (w & wctx & (w' & wctx' & ? & [es ->] & _ & _)%Hg & ?)%(Hr id d host port u b k Hd).
    exists w', (wctx ++ es). set_solver.
Qed.

Lemma cluster_inv_noted c : cluster_inv c → noted (cl_pool c) (cl_workers c).
Proof. intros Hc. split; apply Hc. Qed.

Lemma cluster_inv_workers c ws :
  workers_grow (cl_workers c) ws →
  (∀ id w wctx, ws !! id = Some (w, wctx) → worker_side (ctx_effects (cl_ctx c)) id w wctx) →
  cluster_inv c → cluster_inv (MkCluster (cl_pool c) (cl_ctx c) ws).
Proof.
  intros Hg Hw Hc. destruct (noted_grow _ _ _ Hg (cluster_inv_noted _ Hc)) as [Hk Hr].
  split; simpl; try done; apply Hc.
Qed.

Lemma register_noted c id host port w wctx :
  cl_workers c !! id = Some (w, wctx) → WeSpawn (WsRegister id host port) ∈ wctx →
  cluster_inv c →
  noted (register_worker (cl_pool c) (cl_ctx c) id host port).1.2 (cl_workers c) ∧
  no_runs (cl_ctx c) (register_worker (cl_pool c) (cl_ctx c) id host port).2.
Proof.
  intros Hw Hin Hc. destruct (cluster_inv_noted _ Hc) as [Hk Hr]. unfold register_worker.
  destruct (im_get id (wp_workers (cl_pool c))) as [d|] eqn:Hd; [|done].
  destruct (wd_state d) eqn:Hst; [|done..]. simpl. split.
  - split; intros id' d'; simpl; intros *; rewrite im_get_insert; case_decide as Hid; eauto.
    + subst. intros [= <-]. simpl. by apply Hk.
    + subst. intros [= <-]. simpl. intros [= <- <- _ _ _]. eauto.
  - by do 2 (etrans; [|by apply no_runs_emit]).
Qed.

Lemma known_peers_noted c id ids w wctx :
  cl_workers c !! id = Some (w, wctx) → WeSpawn (WsReportKnownPeers id ids) ∈ wctx →
  cluster_inv c → noted (update_worker_known_peers (cl_pool c) id ids) (cl_workers c).
Proof.
  intros Hw Hin Hc. destruct (cluster_inv_noted _ Hc) as [Hk Hr].
  unfold update_worker_known_peers.
  destruct (im_get id (wp_workers (cl_pool c))) as [d|] eqn:Hd; [|done].
  split; intros id' d'; simpl; intros *; rewrite im_get_insert; case_decide as Hid; eauto.
  - subst. intros [= <-]. simpl. intros [Hx|Hx]%elem_of_union; [by eapply Hk|].
    exists w, wctx. split; [done|]. eapply (wsd_reported _ _ _ _ (cv_workers _ Hc _ _ _ Hw));
      [done|set_solver].
  - subst. intros [= <-]. simpl. by apply Hr.
Qed.

Lemma worker_start_side es options :
  worker_side es (wo_worker_id options) (worker_start (worker_new options)) [].
Proof.
  split; [done|done| |set_solver|set_solver]. intros x peer. simpl. by rewrite lookup_empty.
Qed.

(** The cluster moves forward. *)
Definition cluster_grows (c c' : Cluster) : Prop :=
  workers_grow (cl_workers c) (cl_workers c') ∧ ctx_extends (cl_ctx c) (cl_ctx c').

Lemma cluster_grows_pool c p ctx :
  pool_moves (cl_pool c) (cl_ctx c) (p, ctx) → cluster_inv c →
  cluster_grows c (MkCluster p ctx (cl_workers c)).
Proof. intros Hm Hc. split; [reflexivity|]. destruct (Hm (cv_pool _ Hc)) as [_ He]. apply He. Qed.

Lemma cluster_step_inv c c' :
  cluster_step c c' → cluster_inv c → cluster_inv c' ∧ cluster_grows c c'.
Proof.
  intros Hstep Hc. destruct Hstep as [c p ctx Hl|c id key definition|
    c id host port w wctx Hw Hin|c id ids w wctx Hw Hin|c options Hw|
    c id w wctx m w' wctx' Hw Ha Hm].
  - destruct (pool_local_tame _ _ Hl) as [Ht Hn]. simpl in Ht, Hn.
    pose proof (pool_step_moves _ _ (pool_local_step _ _ Hl)) as Hm. simpl in Hm.
    split; [|by apply cluster_grows_pool]. apply cluster_inv_pool; [done|by apply noted_tame| |done].
    intros loc. rewrite (no_runs_locations _ _ Hn). by left.
  - pose proof (run_task_moves (cl_pool c) (cl_ctx c) id key definition) as Hm.
    destruct (run_task _ _ _ _ _) as [p' ctx'] eqn:He. simpl.
    split; [|by apply cluster_grows_pool].
    destruct (run_task_locations _ _ _ _ _ _ _ He) as [Ht Hloc].
    apply cluster_inv_pool; [done|by apply noted_tame| |done]. intros loc. simpl.
    destruct Hloc as [Hn|(d & ctx1 & Hd & Hn & Hctx)];
      [rewrite (no_runs_locations _ _ Hn); by left|].
    rewrite Hctx, sent_locations_app, (no_runs_locations _ _ Hn). simpl. rewrite app_nil_r.
    intros [?|[_ ?]%list_elem_of_filter]%elem_of_app; auto.
  - pose proof (register_worker_moves (cl_pool c) (cl_ctx c) id host port) as Hm.
    split; [|by apply cluster_grows_pool].
    destruct (register_noted _ _ _ _ _ _ Hw Hin Hc) as [Hn Hl].
    apply cluster_inv_pool; [done|done| |done].
    intros loc. rewrite (no_runs_locations _ _ Hl). by left.
  - pose proof (update_worker_known_peers_moves (cl_pool c) (cl_ctx c) id ids) as Hm.
    split; [|by apply cluster_grows_pool].
    apply cluster_inv_pool; [done|by eapply known_peers_noted|by left|done].
  - assert (workers_grow (cl_workers c) (<[wo_worker_id options :=
      (worker_start (worker_new options), [])]> (cl_workers c))) as Hg.
    { intros id w wctx Hid. exists w, wctx. rewrite lookup_insert_ne by congruence.
      by split_and!. }
    split; [|by split]. apply cluster_inv_workers; [done| |done].
    intros id w wctx. destruct (decide (wo_worker_id options = id)) as [<-|Hne].
    + rewrite lookup_insert_eq. intros [= <- <-]. apply worker_start_side.
    + rewrite lookup_insert_ne by done. apply Hc.
  - destruct (worker_side_receive _ _ _ _ _ _ _ Ha Hm (cv_workers _ Hc _ _ _ Hw))
      as (Hs & Hpre & Hg).
    assert (workers_grow (cl_workers c) (<[id := (w', wctx')]> (cl_workers c))) as Hgrow.
    { intros id' w0 wctx0 Hid. destruct (decide (id = id')) as [<-|Hne].
      - simplify_eq. exists w', wctx'. rewrite lookup_insert_eq. split_and!; try done.
        by apply worker_receive_received in Hm as (es & _ & Ho & _).
      - exists w0, wctx0. rewrite lookup_insert_ne by done. by split_and!. }
    split; [|by split]. apply cluster_inv_workers; [done| |done].
    intros id' w0 wctx0. destruct (decide (id = id')) as [<-|Hne].
    + rewrite lookup_insert_eq. by intros [= <- <-].
    + rewrite lookup_insert_ne by done. apply Hc.
Qed.

Lemma cluster_steps_inv c c' :
  rtc cluster_step c c' → cluster_inv c → cluster_inv c' ∧ cluster_grows c c'.
Proof.
  induction 1 as [c|c c1 c2 Hs _ IH]; intros Hc; [by split|].
  destruct (cluster_step_inv _ _ Hs Hc) as [Hc1 [Hg1 He1]]. destruct (IH Hc1) as [Hc2 [Hg2 He2]].
  split; [done|split; by etrans].
Qed.

Lemma cluster_start_inv options : cluster_inv (cluster_start options).
Proof.
  split; simpl; [apply pool_inv_new|set_solver|set_solver| |done|done].
  intros id w wctx. by rewrite lookup_empty.
Qed.

(** A worker that runs when a task is dispatched is known to the worker of the
    task, or its address goes with the task. *)
Lemma dispatch_known c id key definition p ctx es peers c2 w wctx loc :
  cluster_inv c → run_task (cl_pool c) (cl_ctx c) id key definition = (p, ctx) →
  ctx_effects ctx = ctx_effects (cl_ctx c) ++ es →
  EffSpawn (SpRunTask id key definition peers) ∈ es →
  cluster_inv c2 → cluster_grows (MkCluster p ctx (cl_workers c)) c2 →
  cl_workers c2 !! id = Some (w, wctx) → loc ∈ list_running_workers (cl_pool c) →
  (is_Some (pt_peers (wa_peer_tracker w) !! wl_worker_id loc) ∨ loc ∈ peers) ∧
  loc ∈ sent_locations (ctx_effects (cl_ctx c2)).
Proof.
  intros Hc Hrun Hes Hin Hc2 [Hg He] Hw Hloc.
  assert (∀ loc, loc ∈ sent_locations (ctx_effects ctx) →
    loc ∈ sent_locations (ctx_effects (cl_ctx c2))) as Hmono.
  { intros l (e & Hl & Hx)%list_elem_of_bind. apply list_elem_of_bind. exists e.
    split; [done|]. by eapply elem_of_extends. }
  destruct (run_task_locations _ _ _ _ _ _ _ Hrun) as [_ [(es' & Hes' & Hf)|
    (d & ctx1 & Hd & (es1 & Hes1 & Hf) & Hctx)]].
  { rewrite Hes in Hes'. apply app_inv_head in Hes' as <-.
    rewrite Forall_forall in Hf. by specialize (Hf _ Hin). }
  assert (peers = filter (λ x, wl_worker_id x ∉ wd_peers d) (list_running_workers (cl_pool c))) as ->.
  { rewrite Hes, Hes1, <-app_assoc in Hctx. apply app_inv_head in Hctx as ->.
    apply elem_of_app in Hin as [Hin|Hin];
      [rewrite Forall_forall in Hf; by specialize (Hf _ Hin)|].
    by apply list_elem_of_singleton in Hin as [= ->]. }
  destruct (decide (wl_worker_id loc ∈ wd_peers d)) as [Hk|Hk].
  - destruct (cv_known _ Hc _ _ _ Hd Hk) as (w0 & wctx0 & Hw0 & [peer Hpeer]).
    destruct (Hg _ _ _ Hw0) as (w2 & wctx2 & Hw2 & _ & _ & Hgrow). simplify_eq.
    split; [left; apply Hgrow; by eexists|].
    destruct (wsd_peers _ _ _ _ (cv_workers _ Hc _ _ _ Hw0) _ _ Hpeer) as [Hl _].
    assert (MkWorkerLocation (wl_worker_id loc) (peer_host peer) (peer_port peer) = loc) as <-.
    { destruct (cv_address _ Hc _ Hl) as (d' & Hd' & Ha). simpl in *.
      apply elem_of_running in Hloc as (d0 & u & b & k & Hd0 & Hst); [|apply (cv_pool _ Hc)].
      simplify_eq. rewrite Hst in Ha. destruct Ha as [<- <-]. by destruct loc. }
    apply Hmono. rewrite Hes, sent_locations_app. set_solver.
  - assert (loc ∈ filter (λ x, wl_worker_id x ∉ wd_peers d) (list_running_workers (cl_pool c)))
      as Hp by (by apply list_elem_of_filter).
    split; [by right|]. apply Hmono. rewrite Hctx, sent_locations_app. simpl. set_solver.
Qed.

(** C19. A worker can reach its peers: when it starts a task that the driver has
    sent to it, then for every worker that was running when the driver sent the
    task, it holds a client with the address under which that worker registered
    itself.  The driver only sends the addresses the worker has not
    acknowledged, and requests and acknowledgements may be lost, repeated and
    reordered in any way. *)
Theorem peers_reachable options c id key definition p ctx es peers c2 w wctx w' wctx' loc :
  rtc cluster_step (cluster_start options) c →
  run_task (cl_pool c) (cl_ctx c) id key definition = (p, ctx) →
  ctx_effects ctx = ctx_effects (cl_ctx c) ++ es →
  EffSpawn (SpRunTask id key definition peers) ∈ es →
  rtc cluster_step (MkCluster p ctx (cl_workers c)) c2 →
  cl_workers c2 !! id = Some (w, wctx) →
  worker_receive w wctx (WvRunTask key definition peers) = Returns (ActorContinue, w', wctx') →
  loc ∈ list_running_workers (cl_pool c) → wl_worker_id loc ≠ id →
  (peer_get_client_set (wa_peer_tracker w') (wl_worker_id loc)).1 =
    Ok (MkClientOptions (wo_enable_tls (wa_options w)) (wl_host loc) (wl_port loc)) ∧
  ∃ w0 wctx0, cl_workers c2 !! wl_worker_id loc = Some (w0, wctx0) ∧
    WeSpawn (WsRegister (wl_worker_id loc) (wl_host loc) (wl_port loc)) ∈ wctx0.
Proof.
  intros H0 Hrun Hes Hin H2 Hw Hm Hloc Hne.
  destruct (cluster_steps_inv _ _ H0 (cluster_start_inv options)) as [Hc _].
  pose proof (ClRun c id key definition) as Hstep. rewrite Hrun in Hstep. simpl in Hstep.
  destruct (cluster_step_inv _ _ Hstep Hc) as [Hc1 [Hg1 He1]].
  destruct (cluster_steps_inv _ _ H2 Hc1) as [Hc2 [Hg2 He2]].
  assert (EffSpawn (SpRunTask id key definition peers) ∈ ctx_effects (cl_ctx c2)) as Hsent.
  { eapply elem_of_extends; [exact He2|]. simpl. rewrite Hes. set_solver. }
  destruct (dispatch_known c id key definition p ctx es peers c2 w wctx loc) as [Hknown Hadr];
    try done.
  pose proof (worker_receive_received _ _ _ _ _ Hm) as (es' & _ & Hrec).
  destruct (tracker_received c2 id w wctx (WvRunTask key definition peers) w' es' Hsent Hrec (cv_workers _ Hc2 _ _ _ Hw))
    as (Hpt & Hpeers & Hgrow & Hrun').
  assert (is_Some (pt_peers (wa_peer_tracker w') !! wl_worker_id loc)) as [peer Hpeer].
  { destruct Hknown as [Hk|Hk]; [by apply Hgrow|].
    eapply Hrun'; [done|]. apply list_elem_of_fmap. eauto. }
  destruct (Hpeers _ _ Hpeer) as [Hl Hcl].
  assert (MkWorkerLocation (wl_worker_id loc) (peer_host peer) (peer_port peer) = loc) as Heq
    by (by apply (cv_unique _ Hc2)).
  split.
  - unfold peer_get_client_set. rewrite Hpt, (wsd_tracker _ _ _ _ (cv_workers _ Hc2 _ _ _ Hw)).
    simpl. rewrite (wsd_id _ _ _ _ (cv_workers _ Hc2 _ _ _ Hw)), decide_False, Hpeer by done.
    simpl. f_equal. rewrite <-Heq. simpl. unfold peer_client.
    destruct (peer_client_set peer) as [client|] eqn:Hcs; [by apply Hcl|done].
  - apply elem_of_running in Hloc as (d & u & b & k & Hd & Hst); [|apply (cv_pool _ Hc)].
    destruct (cv_running _ Hc _ _ _ _ _ _ _ Hd Hst) as (w0 & wctx0 & Hw0 & Hin0).
    destruct (Hg2 _ _ _ Hw0) as (w2 & wctx2 & Hw2 & [es2 ->] & _).
    exists w2, (wctx0 ++ es2). set_solver.
Qed.
End peers.
