(* ===== verification/Collections.v ===== *)
(** * Maps and lists of the Rust standard library

    What the components use of [HashMap] and of [slice::sort_by]: the items of
    a hash map in the order of an iteration, and stable sorting. *)

From stdpp Require Import sorting.
From S2P Require Import Prelude.

(** ** Items of hash maps *)
Section items.
Context `{HO : HashOrder} `{Countable K} {V : Type}.
Implicit Types (m : gmap K V).

(** The items of a hash map, in an order that its keys determine. *)
Definition hash_items m : list (K * V) :=
  omap (λ k, pair k <$> m !! k) (hash_order (elements (dom m))).
Definition map_values m : list V := (hash_items m).*2.

Lemma hash_items_elem m k v : (k, v) ∈ hash_items m ↔ m !! k = Some v.
Proof.
  unfold hash_items. rewrite list_elem_of_omap. split.
  - intros (k' & _ & (v' & Hv & [= -> ->])%fmap_Some). done.
  - intros Hv. exists k. rewrite Hv. split; [|done].
    apply elem_of_hash_order, elem_of_elements, elem_of_dom. eauto.
Qed.

Lemma hash_items_perm m : hash_items m ≡ₚ map_to_list m.
Proof.
  apply NoDup_Permutation; [|apply NoDup_map_to_list|].
  - unfold hash_items. apply NoDup_omap_inj.
    + rewrite hash_order_perm. apply NoDup_elements.
    + intros k k' x _ _ (v & _ & ->)%fmap_Some (v' & _ & [= -> _])%fmap_Some. done.
  - intros [k v]. by rewrite hash_items_elem, elem_of_map_to_list.
Qed.

Lemma hash_items_nodup m : NoDup (hash_items m).*1.
Proof. rewrite hash_items_perm. apply NoDup_fst_map_to_list. Qed.

Lemma map_values_elem m v : v ∈ map_values m ↔ ∃ k, m !! k = Some v.
Proof.
  unfold map_values. rewrite list_elem_of_fmap. split.
  - intros ([k v'] & -> & Hk%hash_items_elem). eauto.
  - intros [k Hk]. exists (k, v). by rewrite hash_items_elem.
Qed.
End items.

(** ** Sorting

    [l.sort_by(..)] and [l.sort()] are stable; insertion from the right keeps
    the order of equal elements. *)
Fixpoint insert_by {A} (le : A → A → bool) (x : A) (l : list A) : list A :=
  match l with
  | [] => [x]
  | y :: l => if le x y then x :: y :: l else y :: insert_by le x l
  end.
Definition sort_by {A} (le : A → A → bool) (l : list A) : list A := foldr (insert_by le) [] l.

Section sorting.
Context {A : Type} (le : A → A → bool).

Lemma insert_by_perm x l : insert_by le x l ≡ₚ x :: l.
Proof.
  induction l as [|y l IH]; [done|]. simpl. destruct (le x y); [done|].
  rewrite IH. apply Permutation_swap.
Qed.

Lemma sort_by_perm l : sort_by le l ≡ₚ l.
Proof. induction l as [|x l IH]; [done|]. simpl. by rewrite insert_by_perm, IH. Qed.

Lemma elem_of_sort_by x l : x ∈ sort_by le l ↔ x ∈ l.
Proof. by rewrite sort_by_perm. Qed.

Definition sorted_by (l : list A) : Prop := StronglySorted (λ x y, le x y = true) l.

Context (le_total : ∀ x y, le x y = false → le y x = true).
Context (le_trans : ∀ x y z, le x y = true → le y z = true → le x z = true).

Lemma insert_by_sorted x l : sorted_by l → sorted_by (insert_by le x l).
Proof.
  induction 1 as [|y l Hl IH Hy]; [repeat constructor|]. simpl.
  destruct (le x y) eqn:E.
  - constructor; [by constructor|]. constructor; [done|].
    eapply Forall_impl; [done|]. eauto.
  - constructor; [done|]. rewrite insert_by_perm. constructor; auto.
Qed.

Lemma sort_by_sorted l : sorted_by (sort_by le l).
Proof. induction l; [constructor|]. by apply insert_by_sorted. Qed.
End sorting.

(** Sorting by a key that determines the element. *)
Section keys.
Context {A : Type} (key : A → Z).

Definition sort_by_key (l : list A) : list A := sort_by (λ x y, key x <=? key y)%Z l.

Lemma sort_by_key_sorted l : sorted_by (λ x y, key x <=? key y)%Z (sort_by_key l).
Proof. apply sort_by_sorted; intros; lia. Qed.

Lemma sorted_by_key_unique l l' :
  sorted_by (λ x y, key x <=? key y)%Z l → sorted_by (λ x y, key x <=? key y)%Z l' →
  NoDup (key <$> l) → l ≡ₚ l' → l = l'.
Proof.
  intros Hl. revert l'. induction Hl as [|x l Hl IH Hx]; intros l' Hl' Hnd Hp.
  { by apply Permutation_nil_l in Hp. }
  rewrite fmap_cons in Hnd. apply NoDup_cons in Hnd as [Hnx Hnd].
  destruct Hl' as [|y l' Hl' Hy]; [by apply Permutation_nil_r in Hp|].
  assert (x = y) as <-.
  { assert (y ∈ x :: l) as Hyl by (rewrite Hp; left).
    assert (x ∈ y :: l') as Hxl by (rewrite <-Hp; left).
    apply elem_of_cons in Hyl as [->|Hyl]; [done|].
    apply elem_of_cons in Hxl as [->|Hxl]; [done|].
    rewrite Forall_forall in Hx, Hy. specialize (Hx y Hyl). specialize (Hy x Hxl). simpl in *.
    exfalso. apply Hnx, list_elem_of_fmap. exists y. split; [lia|done]. }
  f_equal. apply IH; [done..|]. by apply Permutation_cons_inv in Hp.
Qed.

(** The result does not depend on the order of the input. *)
Lemma sort_by_key_proper l l' :
  NoDup (key <$> l) → l ≡ₚ l' → sort_by_key l = sort_by_key l'.
Proof.
  intros Hnd Hp. apply sorted_by_key_unique; [apply sort_by_key_sorted..| |].
  - unfold sort_by_key. by rewrite sort_by_perm.
  - unfold sort_by_key. by rewrite !sort_by_perm.
Qed.

Lemma sort_by_key_sorted_id l :
  sorted_by (λ x y, key x <=? key y)%Z l → NoDup (key <$> l) → sort_by_key l = l.
Proof.
  intros Hl Hnd. apply sorted_by_key_unique; [apply sort_by_key_sorted|done| |].
  - unfold sort_by_key. by rewrite sort_by_perm.
  - unfold sort_by_key. apply sort_by_perm.
Qed.
End keys.

Lemma list_filter_all {A} (P : A → Prop) `{!∀ x, Decision (P x)} (l : list A) :
  (∀ x, x ∈ l → P x) → filter P l = l.
Proof.
  induction l as [|x l IH]; intros Hl; [done|].
  rewrite filter_cons_True by (apply Hl; left). f_equal. apply IH. intros y Hy. apply Hl. by right.
Qed.

(** ** Maps from their values

    A map whose values determine their keys is what inserting them one after the
    other gives, in whatever order. *)
Section from_values.
Context `{Countable K} {V : Type} (key : V → K).
Implicit Types (m : gmap K V).

Definition insert_all m (l : list V) : gmap K V := foldl (λ m x, <[key x := x]> m) m l.

Lemma insert_all_values m l :
  map_Forall (λ k x, key x = k) m → l ≡ₚ (map_to_list m).*2 → insert_all ∅ l = m.
Proof.
  intros Hm Hl.
  assert ((λ x, (key x, x)) <$> reverse l ≡ₚ map_to_list m) as Hp.
  { rewrite reverse_Permutation, Hl, <-list_fmap_compose.
    rewrite (Forall_fmap_ext_1 _ id); [by rewrite list_fmap_id|].
    apply Forall_forall. intros [k x] Hx%elem_of_map_to_list. simpl.
    by rewrite (Hm _ _ Hx). }
  rewrite <-(list_to_map_to_list m), (list_to_map_proper _ _ (NoDup_fst_map_to_list m) (symmetry Hp)).
  unfold insert_all. rewrite <-(reverse_involutive l) at 1. clear Hl Hp.
  induction (reverse l) as [|x l' IH]; [done|].
  rewrite reverse_cons, foldl_app, IH. done.
Qed.

Lemma delete_all_fresh {W} (f : W → K) m l :
  (∀ x, x ∈ l → m !! f x = None) → foldl (λ m x, delete (f x) m) m l = m.
Proof.
  revert m. induction l as [|x l IH]; intros m Hm; simpl; [done|].
  rewrite delete_id by (apply Hm; left). apply IH. intros y Hy. apply Hm. by right.
Qed.
End from_values.

(** ** Folds *)
Lemma foldl_inv {A B} (f : A → B → A) (I : A → Prop) l a :
  I a → (∀ a x, x ∈ l → I a → I (f a x)) → I (foldl f a l).
Proof.
  revert a. induction l as [|x l IH]; intros a Ha Hf; [done|]. cbn. apply IH; [|set_solver].
  apply Hf; [set_solver|done].
Qed.

(** ** Ascending lists *)
Lemma sorted_snoc (l : list Z) w :
  StronglySorted Z.lt l → (∀ x, x ∈ l → (x < w)%Z) → StronglySorted Z.lt (l ++ [w]).
Proof.
  induction 1 as [|x l Hs IH Hx]; intros Hw; simpl; [repeat constructor|].
  constructor; [apply IH; set_solver|]. apply Forall_app. split; [done|]. constructor; [|done].
  apply Hw. set_solver.
Qed.
