(* ===== verification/CatalogNames.v ===== *)
(** * Names in catalogs

    Namespaces ([zelox-catalog/src/provider/namespace.rs]), the quoting of names
    and the patterns of [zelox-catalog/src/utils.rs], and the errors of
    [zelox-catalog/src/error.rs].  A string is the sequence of its UTF-8 bytes. *)

From Stdlib Require Import Ascii String.
From S2P Require Import Prelude Collections.
(** ** Errors *)

Inductive CatalogObject :=
| ObjCatalog | ObjDatabase | ObjSchema | ObjNamespace | ObjTable | ObjView | ObjFunction
| ObjTemporaryView | ObjLogicalPlan.

Inductive CatalogError :=
| CeDataFusion (message : string)
| CeInvalidArgument (message : string)
| CeNotFound (object : CatalogObject) (name : string)
| CeAlreadyExists (object : CatalogObject) (name : string)
| CeNotSupported (message : string)
| CeInternal (message : string)
| CeExternal (message : string).

Notation CatalogResult := (Result CatalogError).

#[global] Instance catalog_object_eq_dec : EqDecision CatalogObject.
Proof. solve_decision. Defined.
#[global] Instance catalog_error_eq_dec : EqDecision CatalogError.
Proof. solve_decision. Defined.

Definition catalog_object_display (o : CatalogObject) : string :=
  match o with
  | ObjCatalog => "Catalog"
  | ObjDatabase => "Database"
  | ObjSchema => "Schema"
  | ObjNamespace => "Namespace"
  | ObjTable => "Table"
  | ObjView => "View"
  | ObjFunction => "Function"
  | ObjTemporaryView => "Temporary View"
  | ObjLogicalPlan => "Logical Plan"
  end.

Definition catalog_error_display (e : CatalogError) : string :=
  match e with
  | CeDataFusion m => "error in DataFusion: " +:+ m
  | CeInvalidArgument m => "invalid argument: " +:+ m
  | CeNotFound o n => catalog_object_display o +:+ " not found: " +:+ n
  | CeAlreadyExists o n => catalog_object_display o +:+ " already exists: " +:+ n
  | CeNotSupported m => "not supported: " +:+ m
  | CeInternal m => "internal error: " +:+ m
  | CeExternal m => "external error: " +:+ m
  end.

(** ** Namespaces *)

Record Namespace := MkNamespace { ns_head : string; ns_tail : list string }.

#[global] Instance namespace_eq_dec : EqDecision Namespace.
Proof. solve_decision. Defined.
#[global] Instance namespace_countable : Countable Namespace.
Proof.
  refine (inj_countable' (λ n, (ns_head n, ns_tail n)) (λ '(h, t), MkNamespace h t) _).
  by intros [].
Defined.

(** [From<Namespace> for Vec<_>]. *)
Definition namespace_parts (n : Namespace) : list string := ns_head n :: ns_tail n.

(** [TryFrom<Vec<T>>] and [TryFrom<&[T]>]. *)
Definition namespace_try_from (parts : list string) : CatalogResult Namespace :=
  match parts with
  | [] => Err (CeInvalidArgument "empty namespace")
  | head :: tail => Ok (MkNamespace head tail)
  end.

(** [PartialEq<&[T]>]. *)
Definition namespace_eq_slice (n : Namespace) (other : list string) : bool :=
  match other with
  | [] => false
  | x :: rest => bool_decide (x = ns_head n) && bool_decide (rest = ns_tail n)
  end.

(** [zip(..).all(|(a, b)| a == b)]. *)
Fixpoint zip_all_eq (l k : list string) : bool :=
  match l, k with
  | a :: l, b :: k => bool_decide (a = b) && zip_all_eq l k
  | _, _ => true
  end.

Definition is_child_of (self other : Namespace) : bool :=
  bool_decide (ns_head self = ns_head other) &&
  bool_decide (length (ns_tail self) = length (ns_tail other) + 1) &&
  zip_all_eq (ns_tail self) (ns_tail other).

Definition is_parent_of (self other : Namespace) : bool := is_child_of other self.

Definition namespace_starts_with (self other : Namespace) : bool :=
  bool_decide (ns_head self = ns_head other) &&
  bool_decide (length (ns_tail other) ≤ length (ns_tail self)) &&
  zip_all_eq (ns_tail self) (ns_tail other).

(** ** Characters *)

Definition ascii_between (lo hi c : ascii) : bool :=
  bool_decide (N_of_ascii lo ≤ N_of_ascii c)%N && bool_decide (N_of_ascii c ≤ N_of_ascii hi)%N.

Definition is_ident_start (c : ascii) : bool :=
  ascii_between "a" "z" c || ascii_between "A" "Z" c || Ascii.eqb c "_".
Definition is_ident_char (c : ascii) : bool :=
  is_ident_start c || ascii_between "0" "9" c.

Fixpoint string_forallb (p : ascii → bool) (s : string) : bool :=
  match s with
  | EmptyString => true
  | String c s => p c && string_forallb p s
  end.

(** [VALID_IDENTIFIER_REGEX], [^[a-zA-Z_][a-zA-Z0-9_]*$]. *)
Definition valid_identifier (s : string) : bool :=
  match s with
  | EmptyString => false
  | String c s => is_ident_start c && string_forallb is_ident_char s
  end.

(** [to_ascii_lowercase] and [eq_ignore_ascii_case]. *)
Definition ascii_lower (c : ascii) : ascii :=
  if ascii_between "A" "Z" c then ascii_of_N (N_of_ascii c + 32) else c.
Fixpoint string_map (f : ascii → ascii) (s : string) : string :=
  match s with
  | EmptyString => EmptyString
  | String c s => String (f c) (string_map f s)
  end.
Definition to_ascii_lowercase (s : string) : string := string_map ascii_lower s.
Definition eq_ignore_ascii_case (a b : string) : bool :=
  bool_decide (to_ascii_lowercase a = to_ascii_lowercase b).

(** [s.replace(c, with)] for a one-byte character. *)
Fixpoint replace_char (c : ascii) (with_ : string) (s : string) : string :=
  match s with
  | EmptyString => EmptyString
  | String x s => (if Ascii.eqb x c then with_ else String x EmptyString) +:+ replace_char c with_ s
  end.

(** [s.split(c)]: never empty. *)
Fixpoint split_char (c : ascii) (s : string) : list string :=
  match s with
  | EmptyString => [EmptyString]
  | String x s =>
      if Ascii.eqb x c then EmptyString :: split_char c s
      else match split_char c s with
           | [] => [String x EmptyString]
           | y :: ys => String x y :: ys
           end
  end.

(** [names.join(sep)]. *)
Definition join (sep : string) (names : list string) : string := String.concat sep names.

(** ** Quoting *)

Definition backquote : ascii := "`"%char.

Definition quote_name_if_needed (name : string) : string :=
  if valid_identifier name then name
  else "`" +:+ replace_char backquote "``" name +:+ "`".

Definition quote_names_if_needed (names : list string) : string :=
  join "." (quote_name_if_needed <$> names).

Definition quote_namespace_if_needed (n : Namespace) : string :=
  foldl (λ quoted part, quoted +:+ "." +:+ quote_name_if_needed part)
    (quote_name_if_needed (ns_head n)) (ns_tail n).

(** ** Patterns *)

(** The encodings of the characters [char::is_whitespace] accepts. *)
Definition bytes (l : list N) : string :=
  foldr (λ b s, String (ascii_of_N b) s) EmptyString l.
Definition whitespace_encodings : list string :=
  bytes <$> ([[9]; [10]; [11]; [12]; [13]; [32]; [194; 133]; [194; 160]; [225; 154; 128];
   [226; 128; 128]; [226; 128; 129]; [226; 128; 130]; [226; 128; 131]; [226; 128; 132];
   [226; 128; 133]; [226; 128; 134]; [226; 128; 135]; [226; 128; 136]; [226; 128; 137];
   [226; 128; 138]; [226; 128; 168]; [226; 128; 169]; [226; 128; 175]; [226; 129; 159];
   [227; 128; 128]])%N.

(** One character of white space off the front of a byte list. *)
Fixpoint strip_prefix (p s : list ascii) : option (list ascii) :=
  match p, s with
  | [], _ => Some s
  | a :: p, b :: s => if Ascii.eqb a b then strip_prefix p s else None
  | _ :: _, [] => None
  end.
Fixpoint strip_first (ps : list (list ascii)) (s : list ascii) : option (list ascii) :=
  match ps with
  | [] => None
  | p :: ps => match strip_prefix p s with
               | Some s' => Some s'
               | None => strip_first ps s
               end
  end.
Fixpoint trim_bytes (ps : list (list ascii)) (fuel : nat) (s : list ascii) : list ascii :=
  match fuel with
  | O => s
  | S fuel => match strip_first ps s with
              | Some s' => trim_bytes ps fuel s'
              | None => s
              end
  end.

(** [str::trim]: every step removes a byte, so that the length is fuel enough.
    The end is trimmed on the reversed bytes. *)
Definition trim (s : string) : string :=
  let front := list_ascii_of_string <$> whitespace_encodings in
  let back := reverse <$> front in
  let s := list_ascii_of_string s in
  let s := trim_bytes front (length s) s in
  string_of_list_ascii (reverse (trim_bytes back (length s) (reverse s))).

(** The [regex] crate: [regex_is_match p s] is [None] when [p] is not a regular
    expression. *)
Class RegexEngine := regex_is_match : string → string → option bool.

Section patterns.
Context `{RE : RegexEngine}.

(** The loop over the names for one pattern. *)
Definition filter_sub_pattern (names : list string) (func_names : list string)
    (sub_pattern : string) : list string :=
  let regex_pattern := "(?i)^" +:+ replace_char "*" ".*" sub_pattern +:+ "$" in
  foldl (λ func_names name,
    match regex_is_match regex_pattern name with
    | Some true => if decide (name ∈ func_names) then func_names else func_names ++ [name]
    | _ => func_names
    end) func_names names.

Definition filter_pattern (names : list string) (pattern : option string) : list string :=
  match pattern with
  | None => names
  | Some pattern => foldl (filter_sub_pattern names) [] (split_char "|" (trim pattern))
  end.

Definition match_pattern (name : string) (pattern : option string) : bool :=
  negb (bool_decide (filter_pattern [name] pattern = [])).
End patterns.

(** ** Guarantees of quoted names

    Quoted names can be read back: a reader of dotted names inverts the quoting,
    so that messages and keys made from quoted names are unambiguous. *)

(** ** A reader of dotted names *)

Inductive ReaderState :=
| AtStart
| InIdentifier (name : string)
| InQuotes (name : string)
| AfterQuotes (name : string).

Definition one (c : ascii) : string := String c EmptyString.

Fixpoint read_names (st : ReaderState) (s : string) : option (list string) :=
  match s with
  | EmptyString =>
      match st with
      | AtStart | InQuotes _ => None
      | InIdentifier n | AfterQuotes n => Some [n]
      end
  | String c s =>
      match st with
      | AtStart =>
          if Ascii.eqb c backquote then read_names (InQuotes "") s
          else if is_ident_start c then read_names (InIdentifier (one c)) s
          else None
      | InIdentifier n =>
          if Ascii.eqb c "." then cons n <$> read_names AtStart s
          else if is_ident_char c then read_names (InIdentifier (n +:+ one c)) s
          else None
      | InQuotes n =>
          if Ascii.eqb c backquote then read_names (AfterQuotes n) s
          else read_names (InQuotes (n +:+ one c)) s
      | AfterQuotes n =>
          if Ascii.eqb c backquote then read_names (InQuotes (n +:+ one backquote)) s
          else if Ascii.eqb c "." then cons n <$> read_names AtStart s
          else None
      end
  end.

(** The names in a string; no name is the empty string. *)
Definition unquote_names (s : string) : option (list string) :=
  match s with EmptyString => Some [] | _ => read_names AtStart s end.

(** ** Reading back *)

(** What may follow a name. *)
Definition ends (rest : string) : Prop :=
  match rest with EmptyString => True | String c _ => c = "."%char end.

(** The state at the end of a name. *)
Definition after (name rest : string) : option (list string) :=
  match rest with
  | EmptyString => Some [name]
  | String _ rest => cons name <$> read_names AtStart rest
  end.

Lemma append_cons c a b : String c a +:+ b = String c (a +:+ b).
Proof. done. Qed.
Lemma append_nil b : "" +:+ b = b.
Proof. done. Qed.
#[local] Hint Rewrite append_cons append_nil : append.
Ltac append := autorewrite with append; simpl.

Lemma string_app_assoc (a b c : string) : (a +:+ b) +:+ c = a +:+ (b +:+ c).
Proof. induction a as [|x a IH]; [done|]. append. by rewrite IH. Qed.
Lemma string_app_empty (a : string) : a +:+ "" = a.
Proof. induction a as [|x a IH]; [done|]. append. by rewrite IH. Qed.

Lemma ident_char_not_dot c : is_ident_char c = true → Ascii.eqb c "." = false.
Proof. destruct (Ascii.eqb_spec c "."); [by subst|done]. Qed.
Lemma ident_start_not_quote c : is_ident_start c = true → Ascii.eqb c backquote = false.
Proof. destruct (Ascii.eqb_spec c backquote); [by subst|done]. Qed.

Lemma read_identifier s n rest :
  string_forallb is_ident_char s = true → ends rest →
  read_names (InIdentifier n) (s +:+ rest) = after (n +:+ s) rest.
Proof.
  revert n. induction s as [|c s IH]; intros n Hs Hr; append.
  - rewrite string_app_empty. destruct rest as [|c rest]; [done|]. cbn in Hr. by subst.
  - cbn in Hs. apply andb_true_iff in Hs as [Hc Hs].
    rewrite (ident_char_not_dot _ Hc), Hc, IH by done. by rewrite string_app_assoc.
Qed.

Lemma read_quoted s n rest :
  ends rest →
  read_names (InQuotes n) (replace_char backquote "``" s +:+ String backquote rest) = after (n +:+ s) rest.
Proof.
  intros Hr. revert n. induction s as [|c s IH]; intros n; append.
  - rewrite string_app_empty. destruct rest as [|c rest]; [done|]. cbn in Hr. by subst.
  - destruct (Ascii.eqb_spec c backquote) as [->|Hne]; append.
    + rewrite IH. by rewrite string_app_assoc.
    + destruct (Ascii.eqb_spec c backquote); [done|]. rewrite IH. by rewrite string_app_assoc.
Qed.

Lemma read_name name rest :
  ends rest → read_names AtStart (quote_name_if_needed name +:+ rest) = after name rest.
Proof.
  intros Hr. unfold quote_name_if_needed. destruct (valid_identifier name) eqn:Hv.
  - destruct name as [|c name]; [done|]. cbn in Hv. apply andb_true_iff in Hv as [Hc Hn].
    append. rewrite (ident_start_not_quote _ Hc), Hc. rewrite read_identifier by done. done.
  - rewrite !string_app_assoc. append. by rewrite read_quoted.
Qed.

Lemma read_quoted_names name names :
  read_names AtStart (quote_names_if_needed (name :: names)) = Some (name :: names).
Proof.
  revert name. induction names as [|name' names IH]; intros name.
  - change (quote_names_if_needed [name]) with (quote_name_if_needed name).
    rewrite <-(string_app_empty (quote_name_if_needed name)). by rewrite read_name.
  - change (quote_names_if_needed (name :: name' :: names)) with
      (quote_name_if_needed name +:+ ("." +:+ quote_names_if_needed (name' :: names))).
    rewrite read_name by done. append. by rewrite IH.
Qed.

Lemma unquote_quote names : unquote_names (quote_names_if_needed names) = Some names.
Proof.
  destruct names as [|name names]; [done|]. pose proof (read_quoted_names name names) as H.
  by destruct (quote_names_if_needed (name :: names)).
Qed.

(** The two ways of quoting a namespace. *)
Lemma quote_namespace_parts n :
  quote_namespace_if_needed n = quote_names_if_needed (namespace_parts n).
Proof.
  destruct n as [head tail]. unfold quote_namespace_if_needed, quote_names_if_needed,
    namespace_parts, join. simpl ns_head. simpl ns_tail. rewrite fmap_cons.
  generalize (quote_name_if_needed head). induction tail as [|part tail IH]; intros q; [done|].
  cbn [foldl]. rewrite IH, fmap_cons. destruct (quote_name_if_needed <$> tail) as [|x l].
  - done.
  - append. by rewrite !string_app_assoc.
Qed.

(** Quoted names can be read back: whatever the names contain, dots and
    backquotes included, reading the quoted form gives the names; two
    namespaces with the same quoted form are the same; and a namespace
    survives the trip through its parts. *)
Theorem quoted_names_roundtrip :
  (∀ names, unquote_names (quote_names_if_needed names) = Some names) ∧
  (∀ n n', quote_namespace_if_needed n = quote_namespace_if_needed n' → n = n') ∧
  (∀ n, namespace_try_from (namespace_parts n) = Ok n) ∧
  (∀ parts n, namespace_try_from parts = Ok n → namespace_parts n = parts).
Proof.
  split_and!.
  - apply unquote_quote.
  - intros [h t] [h' t'] H. rewrite !quote_namespace_parts in H.
    apply (f_equal unquote_names) in H. rewrite !unquote_quote in H. by injection H as -> ->.
  - by intros [].
  - by intros [|h t] n [= <-].
Qed.

Lemma quoted_names_roundtrip_witness :
  quote_names_if_needed ["a.b"; "c`d"; "e"] = "`a.b`.`c``d`.e" ∧
  unquote_names "`a.b`.`c``d`.e" = Some ["a.b"; "c`d"; "e"].
Proof.
  split; [reflexivity|]. exact (proj1 quoted_names_roundtrip ["a.b"; "c`d"; "e"]).
Defined.
