(* ===== verification/CatalogTypes.v ===== *)
(** * What a catalog stores

    The statuses and options of [zelox-common-datafusion/src/catalog/*.rs] and
    [zelox-catalog/src/provider/options.rs].  Of Arrow's data types only the
    nested ones are told apart; the rest is [DtOther].  A field's metadata is a
    list of pairs. *)

From Stdlib Require Import Ascii String.
From S2P Require Import Prelude Collections CatalogNames.

(** ** Data types *)

Inductive DataType :=
| DtStruct (fields : list Field)
| DtList (field : Field)
| DtLargeList (field : Field)
| DtMap (field : Field) (sorted : bool)
| DtOther (name : string)
with Field := MkField (f_name : string) (f_data_type : DataType) (f_nullable : bool)
    (f_metadata : list (string * string)).

Definition field_name (f : Field) : string := let 'MkField n _ _ _ := f in n.
Definition field_data_type (f : Field) : DataType := let 'MkField _ t _ _ := f in t.
Definition field_is_nullable (f : Field) : bool := let 'MkField _ _ b _ := f in b.
Definition field_metadata (f : Field) : list (string * string) := let 'MkField _ _ _ m := f in m.

Scheme DataType_mut := Induction for DataType Sort Prop
with Field_mut := Induction for Field Sort Prop.

(** Properties as the code has them: a vector of pairs. *)
Notation Properties := (list (string * string)).

(** ** Statuses *)

Inductive CatalogTableConstraint :=
| ConstraintUnique (name : option string) (columns : list string)
| ConstraintPrimaryKey (name : option string) (columns : list string).

Inductive PartitionTransform :=
| TransformIdentity | TransformYear | TransformMonth | TransformDay | TransformHour
| TransformBucket (n : N) | TransformTruncate (n : N).

Record CatalogPartitionField := MkCatalogPartitionField {
  pf_column : string; pf_transform : option PartitionTransform
}.
Record CatalogTableBucketBy := MkCatalogTableBucketBy {
  bb_columns : list string; bb_num_buckets : nat
}.
Record CatalogTableSort := MkCatalogTableSort { so_column : string; so_ascending : bool }.

Record DatabaseStatus := MkDatabaseStatus {
  ds_catalog : string;
  ds_database : list string;
  ds_comment : option string;
  ds_location : option string;
  ds_properties : Properties
}.

Record TableColumnStatus := MkTableColumnStatus {
  co_name : string;
  co_data_type : DataType;
  co_nullable : bool;
  co_comment : option string;
  co_default : option string;
  co_generated_always_as : option string;
  co_is_partition : bool;
  co_is_bucket : bool;
  co_is_cluster : bool
}.

(** [LogicalPlan] of DataFusion, with the fields of its schema, and
    [ScalarUDF], with its name. *)
Class CatalogEngine := {
  LogicalPlan : Type;
  plan_fields : LogicalPlan → list Field;
  ScalarUDF : Type;
  udf_name : ScalarUDF → string;
  data_type_display : DataType → string;
  plan_error_display : string → string
}.

Section statuses.
Context `{CE : CatalogEngine}.

Record TableInfo := MkTableInfo {
  ti_columns : list TableColumnStatus;
  ti_comment : option string;
  ti_constraints : list CatalogTableConstraint;
  ti_location : option string;
  ti_format : string;
  ti_partition_by : list CatalogPartitionField;
  ti_sort_by : list CatalogTableSort;
  ti_bucket_by : option CatalogTableBucketBy;
  ti_properties : Properties;
  ti_is_external : bool
}.

Inductive TableKind :=
| KindTable (info : TableInfo)
| KindView (definition : string) (columns : list TableColumnStatus) (comment : option string)
    (properties : Properties)
| KindTemporaryView (plan : LogicalPlan) (columns : list TableColumnStatus)
    (comment : option string) (properties : Properties)
| KindGlobalTemporaryView (plan : LogicalPlan) (columns : list TableColumnStatus)
    (comment : option string) (properties : Properties).

Record TableStatus := MkTableStatus {
  tst_catalog : option string;
  tst_database : list string;
  tst_name : string;
  tst_kind : TableKind
}.

Definition kind_columns (k : TableKind) : list TableColumnStatus :=
  match k with
  | KindTable i => ti_columns i
  | KindView _ c _ _ | KindTemporaryView _ c _ _ | KindGlobalTemporaryView _ c _ _ => c
  end.
Definition kind_comment (k : TableKind) : option string :=
  match k with
  | KindTable i => ti_comment i
  | KindView _ _ c _ | KindTemporaryView _ _ c _ | KindGlobalTemporaryView _ _ c _ => c
  end.
Definition kind_type_name (k : TableKind) : string :=
  match k with
  | KindTable i => if ti_is_external i then "EXTERNAL" else "MANAGED"
  | KindView _ _ _ _ => "VIEW"
  | KindTemporaryView _ _ _ _ => "TEMPORARY"
  | KindGlobalTemporaryView _ _ _ _ => "TEMPORARY"
  end.
Definition kind_is_temporary (k : TableKind) : bool :=
  match k with KindTemporaryView _ _ _ _ | KindGlobalTemporaryView _ _ _ _ => true | _ => false end.
Definition kind_properties (k : TableKind) : Properties :=
  match k with
  | KindTable i => ti_properties i
  | KindView _ _ _ p | KindTemporaryView _ _ _ p | KindGlobalTemporaryView _ _ _ p => p
  end.
Definition kind_partition_columns (k : TableKind) : list TableColumnStatus :=
  match k with
  | KindTable i =>
      match ti_partition_by i with
      | [] => []
      | _ => filter (λ c, co_is_partition c = true) (ti_columns i)
      end
  | _ => []
  end.
Definition kind_format (k : TableKind) : option string :=
  match k with KindTable i => Some (ti_format i) | _ => None end.
Definition kind_location (k : TableKind) : option string :=
  match k with KindTable i => ti_location i | _ => None end.
Definition kind_view_definition (k : TableKind) : option string :=
  match k with
  | KindView definition _ _ _ => if decide (definition = "") then None else Some definition
  | _ => None
  end.

(** [TableStatus::describe_extended_metadata]. *)
Definition describe_extended_metadata (t : TableStatus) : list (string * string) :=
  [("Database", join "." (tst_database t)); ("Table", tst_name t);
   ("Type", kind_type_name (tst_kind t))] ++
  from_option (λ f, [("Provider", f)]) [] (kind_format (tst_kind t)) ++
  from_option (λ c, [("Comment", c)]) [] (kind_comment (tst_kind t)) ++
  from_option (λ d, [("View Text", d)]) [] (kind_view_definition (tst_kind t)) ++
  match kind_properties (tst_kind t) with
  | [] => []
  | properties =>
      [("Table Properties",
        "[" +:+ join ", " ((λ '(k, v), k +:+ "=" +:+ v) <$> properties) +:+ "]")]
  end ++
  from_option (λ l, [("Location", l)]) [] (kind_location (tst_kind t)).

(** ** Changing the type of a column *)

(** [plan_err!] is a planning error. *)
Definition plan_err {A} (message : string) : Result string A := Err (plan_error_display message).

(** [Field::new(name, type, nullable).with_metadata(metadata)] keeps the rest of
    the field. *)
Definition field_with_type (f : Field) (t : DataType) : Field :=
  MkField (field_name f) t (field_is_nullable f) (field_metadata f).

(** The fields of a struct, with the ones that have the name changed, and
    whether there was one. *)
Definition alter_fields (change : DataType → Result string DataType) (name : string)
    (fields : list Field) : Result string (list Field) :=
  collect_results
    ((λ f, if decide (field_name f = name)
           then t ← change (field_data_type f); Ok (field_with_type f t)
           else Ok f) <$> fields).

Definition has_field (name : string) (fields : list Field) : bool :=
  existsb (λ f, bool_decide (field_name f = name)) fields.

Fixpoint alter_nested_data_type (path : list string) (current data_type : DataType)
    : Result string DataType :=
  match path with
  | [] => Ok data_type
  | name :: nested_path =>
      let change t := alter_nested_data_type nested_path t data_type in
      let cannot := plan_err ("cannot resolve ALTER COLUMN TYPE path segment '" +:+ name +:+
                      "' through " +:+ data_type_display current) in
      match current with
      | DtStruct fields =>
          fields' ← alter_fields change name fields;
          if has_field name fields then Ok (DtStruct fields')
          else plan_err ("column path segment '" +:+ name +:+ "' does not exist")
      | DtList field =>
          if decide (name = "element") then
            t ← change (field_data_type field); Ok (DtList (field_with_type field t))
          else cannot
      | DtLargeList field =>
          if decide (name = "element") then
            t ← change (field_data_type field); Ok (DtLargeList (field_with_type field t))
          else cannot
      | DtMap field sorted =>
          match field_data_type field with
          | DtStruct entries =>
              fields ← alter_fields change name entries;
              if has_field name entries then
                Ok (DtMap (MkField (field_name field) (DtStruct fields) false
                             (field_metadata field)) sorted)
              else plan_err ("expected 'key' or 'value' for map column path, found '" +:+ name +:+ "'")
          | _ => plan_err "map field must contain key/value entries"
          end
      | DtOther _ => cannot
      end
  end.

Definition co_with_type (c : TableColumnStatus) (t : DataType) : TableColumnStatus :=
  MkTableColumnStatus (co_name c) t (co_nullable c) (co_comment c) (co_default c)
    (co_generated_always_as c) (co_is_partition c) (co_is_bucket c) (co_is_cluster c).
Definition co_with_name (c : TableColumnStatus) (n : string) : TableColumnStatus :=
  MkTableColumnStatus n (co_data_type c) (co_nullable c) (co_comment c) (co_default c)
    (co_generated_always_as c) (co_is_partition c) (co_is_bucket c) (co_is_cluster c).

(** [iter_mut().find(p)] followed by a change of the element found: [None] when
    there is none. *)
Fixpoint update_first {A E} (p : A → bool) (f : A → Result E A) (l : list A)
    : option (Result E (list A)) :=
  match l with
  | [] => None
  | x :: l =>
      if p x then Some (x' ← f x; Ok (x' :: l))
      else (λ r, l' ← r; Ok (x :: l')) <$> update_first p f l
  end.

Definition alter_column_type (columns : list TableColumnStatus) (path : list string)
    (data_type : DataType) : Result string (list TableColumnStatus) :=
  match path with
  | [] => plan_err "ALTER COLUMN TYPE requires a column name"
  | name :: nested_path =>
      match update_first (λ c, bool_decide (co_name c = name))
              (λ c, match nested_path with
                    | [] => Ok (co_with_type c data_type)
                    | _ => t ← alter_nested_data_type nested_path (co_data_type c) data_type;
                           Ok (co_with_type c t)
                    end) columns with
      | None => plan_err ("column '" +:+ join "." path +:+ "' does not exist")
      | Some r => r
      end
  end.

Definition identity_partition_fields (columns : list string) : list CatalogPartitionField :=
  (λ column, MkCatalogPartitionField column None) <$> columns.
End statuses.

(** ** Options *)

Record CreateDatabaseOptions := MkCreateDatabaseOptions {
  cd_comment : option string;
  cd_location : option string;
  cd_if_not_exists : bool;
  cd_properties : Properties
}.
Record DropDatabaseOptions := MkDropDatabaseOptions { dd_if_exists : bool; dd_cascade : bool }.

Record CreateTableColumnOptions := MkCreateTableColumnOptions {
  cc_name : string;
  cc_data_type : DataType;
  cc_nullable : bool;
  cc_comment : option string;
  cc_default : option string;
  cc_generated_always_as : option string
}.
Record CreateTableOptions := MkCreateTableOptions {
  ct_columns : list CreateTableColumnOptions;
  ct_comment : option string;
  ct_constraints : list CatalogTableConstraint;
  ct_location : option string;
  ct_is_external : bool;
  ct_format : string;
  ct_partition_by : list CatalogPartitionField;
  ct_sort_by : list CatalogTableSort;
  ct_bucket_by : option CatalogTableBucketBy;
  ct_if_not_exists : bool;
  ct_replace : bool;
  ct_properties : Properties
}.
Record DropTableOptions := MkDropTableOptions { dt_if_exists : bool; dt_purge : bool }.

Record CreateViewColumnOptions := MkCreateViewColumnOptions {
  cvc_name : string; cvc_data_type : DataType; cvc_nullable : bool; cvc_comment : option string
}.
Record CreateViewOptions := MkCreateViewOptions {
  cv_columns : list CreateViewColumnOptions;
  cv_definition : string;
  cv_if_not_exists : bool;
  cv_replace : bool;
  cv_comment : option string;
  cv_properties : Properties
}.
Record DropViewOptions := MkDropViewOptions { dv_if_exists : bool }.

(** [CreateTemporaryViewOptions<I>]; a column option is its comment. *)
Record CreateTemporaryViewOptions (I : Type) := MkCreateTemporaryViewOptions {
  tv_input : I;
  tv_columns : list (option string);
  tv_if_not_exists : bool;
  tv_replace : bool;
  tv_comment : option string;
  tv_properties : Properties
}.
Arguments MkCreateTemporaryViewOptions {I}.
Arguments tv_input {I}.
Arguments tv_columns {I}.
Arguments tv_if_not_exists {I}.
Arguments tv_replace {I}.
Arguments tv_comment {I}.
Arguments tv_properties {I}.
Record DropTemporaryViewOptions := MkDropTemporaryViewOptions { dtv_if_exists : bool }.

Inductive AlterTableOptions :=
| SetTableProperties (properties : Properties)
| UnsetTableProperties (keys : list string) (if_exists : bool)
| AlterColumnType (name : list string) (data_type : DataType)
| AddColumns (columns : list CreateTableColumnOptions)
| DropColumns (names : list (list string)) (if_exists : bool)
| RenameColumn (old new : list string)
| RenameTable (new_name : list string).
