(* ===== verification/CatalogProvider.v ===== *)
(** * Catalog providers

    The trait [CatalogProvider] of [zelox-catalog/src/provider/mod.rs] as a
    class of operations on a state, and its in-memory implementation,
    [zelox-catalog-memory/src/provider.rs].  The concurrent maps lock the entry
    they change, so that operations are atomic; the order in which hash maps
    are listed is [hash_order]. *)

From Stdlib Require Import Ascii String.
From S2P Require Import Prelude Collections CatalogNames CatalogTypes.

(** A fallible operation on a state. *)
Definition CatalogM (S A : Type) : Type := S → CatalogResult A * S.
#[global] Instance catalog_ret S : MRet (CatalogM S) := λ A x s, (Ok x, s).
#[global] Instance catalog_bind S : MBind (CatalogM S) := λ A B f m s,
  let '(r, s') := m s in match r with Ok x => f x s' | Err e => (Err e, s') end.

(** Operations that read the state, change it, and fail. *)
Definition catalog_read {S A : Type} (f : S → CatalogResult A) : CatalogM S A := λ s, (f s, s).
Definition catalog_modify {S : Type} (f : S → S) : CatalogM S unit := λ s, (Ok tt, f s).
Definition catalog_fail {S A : Type} (e : CatalogError) : CatalogM S A := λ s, (Err e, s).

(** [match op.await { Err(CatalogError::NotFound(o, n)) => .. , r => r }]. *)
Definition on_not_found {S A : Type} (m : CatalogM S A)
    (f : CatalogObject → string → CatalogM S A) : CatalogM S A := λ s,
  let '(r, s') := m s in
  match r with Err (CeNotFound o n) => f o n s' | _ => (r, s') end.

Class CatalogProvider `{CE : CatalogEngine} (S : Type) := {
  get_name : S → string;
  create_database : Namespace → CreateDatabaseOptions → CatalogM S DatabaseStatus;
  get_database : Namespace → CatalogM S DatabaseStatus;
  list_databases : option Namespace → CatalogM S (list DatabaseStatus);
  drop_database : Namespace → DropDatabaseOptions → CatalogM S unit;
  create_table : Namespace → string → CreateTableOptions → CatalogM S TableStatus;
  get_table : Namespace → string → CatalogM S TableStatus;
  list_tables : Namespace → CatalogM S (list TableStatus);
  drop_table : Namespace → string → DropTableOptions → CatalogM S unit;
  alter_table : Namespace → string → AlterTableOptions → CatalogM S unit;
  create_view : Namespace → string → CreateViewOptions → CatalogM S TableStatus;
  get_view : Namespace → string → CatalogM S TableStatus;
  list_views : Namespace → CatalogM S (list TableStatus);
  drop_view : Namespace → string → DropViewOptions → CatalogM S unit
}.

Section memory.
Context `{CE : CatalogEngine} `{HO : HashOrder}.

(** ** State *)

Record MemoryDatabase := MkMemoryDatabase {
  md_status : DatabaseStatus;
  md_tables : gmap string TableStatus;
  md_views : gmap string TableStatus
}.

Record MemoryCatalogProvider := MkMemoryCatalogProvider {
  mc_name : string;
  mc_databases : gmap Namespace MemoryDatabase
}.

Definition memory_new (name : string) (initial_database : Namespace)
    (initial_database_comment : option string) : MemoryCatalogProvider :=
  MkMemoryCatalogProvider name
    {[ initial_database := MkMemoryDatabase
         (MkDatabaseStatus name (namespace_parts initial_database) initial_database_comment None [])
         ∅ ∅ ]}.

Definition mc_set (s : MemoryCatalogProvider) (n : Namespace) (db : MemoryDatabase)
    : MemoryCatalogProvider :=
  MkMemoryCatalogProvider (mc_name s) (<[n := db]> (mc_databases s)).
Definition md_with_tables (db : MemoryDatabase) (t : gmap string TableStatus) : MemoryDatabase :=
  MkMemoryDatabase (md_status db) t (md_views db).
Definition md_with_views (db : MemoryDatabase) (v : gmap string TableStatus) : MemoryDatabase :=
  MkMemoryDatabase (md_status db) (md_tables db) v.

Definition database_not_found (n : Namespace) : CatalogError :=
  CeNotFound ObjDatabase (quote_namespace_if_needed n).

(** ** Databases *)

Definition memory_create_database (database : Namespace) (options : CreateDatabaseOptions)
    : CatalogM MemoryCatalogProvider DatabaseStatus := λ self,
  match mc_databases self !! database with
  | Some entry =>
      if cd_if_not_exists options then (Ok (md_status entry), self)
      else (Err (CeAlreadyExists ObjDatabase (quote_namespace_if_needed database)), self)
  | None =>
      let status := MkDatabaseStatus (mc_name self) (namespace_parts database)
                      (cd_comment options) (cd_location options) (cd_properties options) in
      (Ok status, mc_set self database (MkMemoryDatabase status ∅ ∅))
  end.

Definition memory_get_database (database : Namespace)
    : CatalogM MemoryCatalogProvider DatabaseStatus := λ self,
  match mc_databases self !! database with
  | Some db => (Ok (md_status db), self)
  | None => (Err (database_not_found database), self)
  end.

(** The filter of [list_databases]. *)
Definition database_listed (prefix : option Namespace) (key : Namespace) : bool :=
  match prefix with
  | Some prefix => is_parent_of prefix key
  | None => bool_decide (ns_tail key = [])
  end.

Definition memory_list_databases (prefix : option Namespace)
    : CatalogM MemoryCatalogProvider (list DatabaseStatus) := λ self,
  (Ok ((λ x : Namespace * MemoryDatabase, md_status x.2) <$>
         filter (λ x, database_listed prefix x.1 = true)
           (hash_items (mc_databases self))), self).

Definition memory_drop_database (database : Namespace) (options : DropDatabaseOptions)
    : CatalogM MemoryCatalogProvider unit := λ self,
  match mc_databases self !! database with
  | Some _ => (Ok tt, MkMemoryCatalogProvider (mc_name self) (delete database (mc_databases self)))
  | None =>
      if dd_if_exists options then (Ok tt, self) else (Err (database_not_found database), self)
  end.

(** ** Tables *)

(** The status of a column of a new table. *)
Definition create_column (partition_by : list CatalogPartitionField)
    (bucket_by : option CatalogTableBucketBy) (x : CreateTableColumnOptions)
    : TableColumnStatus :=
  MkTableColumnStatus (cc_name x) (cc_data_type x) (cc_nullable x) (cc_comment x) (cc_default x)
    (cc_generated_always_as x)
    (existsb (λ f, eq_ignore_ascii_case (pf_column f) (cc_name x)) partition_by)
    (match bucket_by with
     | Some b => existsb (λ c, eq_ignore_ascii_case c (cc_name x)) (bb_columns b)
     | None => false
     end) false.

(** The status of a new table. *)
Definition new_table (name : string) (database : Namespace) (table : string)
    (o : CreateTableOptions) : TableStatus :=
  MkTableStatus (Some name) (namespace_parts database) table
    (KindTable (MkTableInfo (create_column (ct_partition_by o) (ct_bucket_by o) <$> ct_columns o)
       (ct_comment o) (ct_constraints o) (ct_location o) (ct_format o) (ct_partition_by o)
       (ct_sort_by o) (ct_bucket_by o) (ct_properties o) (ct_is_external o))).

Definition memory_create_table (database : Namespace) (table : string)
    (options : CreateTableOptions) : CatalogM MemoryCatalogProvider TableStatus := λ self,
  if negb (eq_ignore_ascii_case (ct_format options) "iceberg") &&
     existsb (λ f, bool_decide (is_Some (pf_transform f))) (ct_partition_by options)
  then (Err (CeNotSupported "partition transforms are not supported by memory catalog"), self)
  else
    match mc_databases self !! database with
    | None => (Err (database_not_found database), self)
    | Some db =>
        let created tables :=
          let status := new_table (mc_name self) database table options in
          (Ok status, mc_set self database (md_with_tables db (<[table := status]> tables))) in
        match md_tables db !! table with
        | Some status =>
            if ct_if_not_exists options then (Ok status, self)
            else if ct_replace options then created (delete table (md_tables db))
            else (Err (CeAlreadyExists ObjTable table), self)
        | None => created (md_tables db)
        end
    end.

Definition memory_get_table (database : Namespace) (table : string)
    : CatalogM MemoryCatalogProvider TableStatus := λ self,
  match (db ← mc_databases self !! database; md_tables db !! table) with
  | Some status => (Ok status, self)
  | None => (Err (CeNotFound ObjTable table), self)
  end.

Definition memory_list_tables (database : Namespace)
    : CatalogM MemoryCatalogProvider (list TableStatus) := λ self,
  match mc_databases self !! database with
  | Some db => (Ok (map_values (md_tables db)), self)
  | None => (Err (database_not_found database), self)
  end.

Definition memory_drop_table (database : Namespace) (table : string)
    (options : DropTableOptions) : CatalogM MemoryCatalogProvider unit := λ self,
  match mc_databases self !! database with
  | Some db =>
      let self' := mc_set self database (md_with_tables db (delete table (md_tables db))) in
      if bool_decide (is_Some (md_tables db !! table)) || dt_if_exists options then (Ok tt, self')
      else (Err (CeNotFound ObjTable table), self')
  | None =>
      if dt_if_exists options then (Ok tt, self) else (Err (database_not_found database), self)
  end.

(** ** Altering tables *)

(** [if let Some(existing) = iter_mut().find(..) { existing.1 = value } else { push }]. *)
Fixpoint set_property (key value : string) (properties : Properties) : Properties :=
  match properties with
  | [] => [(key, value)]
  | (k, v) :: properties =>
      if decide (k = key) then (k, value) :: properties
      else (k, v) :: set_property key value properties
  end.

Definition set_properties (new_props properties : Properties) : Properties :=
  foldl (λ properties '(key, value), set_property key value properties) properties new_props.

(** A loop that removes items one by one and stops at the first one missing: the
    items removed before stay removed. *)
Fixpoint remove_each {A} (name : A → string) (missing : string → CatalogError)
    (keys : list string) (if_exists : bool) (items : list A) : CatalogResult unit * list A :=
  match keys with
  | [] => (Ok tt, items)
  | key :: keys =>
      if negb (existsb (λ x, bool_decide (name x = key)) items) && negb if_exists
      then (Err (missing key), items)
      else remove_each name missing keys if_exists (filter (λ x, name x ≠ key) items)
  end.

Definition property_missing (table key : string) : CatalogError :=
  CeNotFound ObjTable ("property '" +:+ key +:+ "' not found on table '" +:+ table +:+ "'").
Definition column_missing (table column : string) : CatalogError :=
  CeNotFound ObjTable ("column '" +:+ column +:+ "' not found on table '" +:+ table +:+ "'").

(** The status of a column that [ADD COLUMNS] makes. *)
Definition add_column (col : CreateTableColumnOptions) : TableColumnStatus :=
  MkTableColumnStatus (cc_name col) (cc_data_type col) (cc_nullable col) (cc_comment col)
    (cc_default col) (cc_generated_always_as col) false false false.

Definition ti_with_columns (i : TableInfo) (c : list TableColumnStatus) : TableInfo :=
  MkTableInfo c (ti_comment i) (ti_constraints i) (ti_location i) (ti_format i)
    (ti_partition_by i) (ti_sort_by i) (ti_bucket_by i) (ti_properties i) (ti_is_external i).
Definition ti_with_properties (i : TableInfo) (p : Properties) : TableInfo :=
  MkTableInfo (ti_columns i) (ti_comment i) (ti_constraints i) (ti_location i) (ti_format i)
    (ti_partition_by i) (ti_sort_by i) (ti_bucket_by i) p (ti_is_external i).

(** The change of a table's information; on an error the information may have
    changed too. *)
Definition alter_info (table : string) (options : AlterTableOptions) (i : TableInfo)
    : CatalogResult unit * TableInfo :=
  match options with
  | SetTableProperties new_props =>
      (Ok tt, ti_with_properties i (set_properties new_props (ti_properties i)))
  | UnsetTableProperties keys if_exists =>
      let '(r, p) := remove_each fst (property_missing table) keys if_exists (ti_properties i) in
      (r, ti_with_properties i p)
  | AlterColumnType name data_type =>
      match alter_column_type (ti_columns i) name data_type with
      | Ok columns => (Ok tt, ti_with_columns i columns)
      | Err e => (Err (CeInvalidArgument ("failed to alter column type for '" +:+ join "." name +:+
                         "': " +:+ e)), i)
      end
  | AddColumns new_cols => (Ok tt, ti_with_columns i (ti_columns i ++ (add_column <$> new_cols)))
  | DropColumns names if_exists =>
      let '(r, c) := remove_each co_name (column_missing table) (join "." <$> names) if_exists
                       (ti_columns i) in
      (r, ti_with_columns i c)
  | RenameColumn old new =>
      match update_first (E:=CatalogError) (λ c, bool_decide (co_name c = join "." old))
              (λ c, Ok (co_with_name c (join "." new))) (ti_columns i) with
      | Some (Ok columns) => (Ok tt, ti_with_columns i columns)
      | Some (Err e) => (Err e, i)
      | None => (Err (column_missing table (join "." old)), i)
      end
  | RenameTable _ =>
      (Err (CeNotSupported "RENAME TABLE is not supported in memory catalog via ALTER TABLE; use CREATE TABLE AS SELECT instead"), i)
  end.

Definition memory_alter_table (database : Namespace) (table : string)
    (options : AlterTableOptions) : CatalogM MemoryCatalogProvider unit := λ self,
  match mc_databases self !! database with
  | None => (Err (database_not_found database), self)
  | Some db =>
      match md_tables db !! table with
      | None => (Err (CeNotFound ObjTable table), self)
      | Some status =>
          match tst_kind status with
          | KindTable i =>
              let '(r, i') := alter_info table options i in
              (r, mc_set self database (md_with_tables db
                    (<[table := MkTableStatus (tst_catalog status) (tst_database status)
                                  (tst_name status) (KindTable i')]> (md_tables db))))
          | _ => (Err (CeNotSupported "ALTER TABLE is not supported for views"), self)
          end
      end
  end.

(** ** Views *)

Definition create_view_column (x : CreateViewColumnOptions) : TableColumnStatus :=
  MkTableColumnStatus (cvc_name x) (cvc_data_type x) (cvc_nullable x) (cvc_comment x) None None
    false false false.

Definition new_view (name : string) (database : Namespace) (view : string)
    (o : CreateViewOptions) : TableStatus :=
  MkTableStatus (Some name) (namespace_parts database) view
    (KindView (cv_definition o) (create_view_column <$> cv_columns o) (cv_comment o)
       (cv_properties o)).

Definition memory_create_view (database : Namespace) (view : string)
    (options : CreateViewOptions) : CatalogM MemoryCatalogProvider TableStatus := λ self,
  match mc_databases self !! database with
  | None => (Err (database_not_found database), self)
  | Some db =>
      let created views :=
        let status := new_view (mc_name self) database view options in
        (Ok status, mc_set self database (md_with_views db (<[view := status]> views))) in
      match md_views db !! view with
      | Some status =>
          if cv_if_not_exists options then (Ok status, self)
          else if cv_replace options then created (delete view (md_views db))
          else (Err (CeAlreadyExists ObjView view), self)
      | None => created (md_views db)
      end
  end.

Definition memory_get_view (database : Namespace) (view : string)
    : CatalogM MemoryCatalogProvider TableStatus := λ self,
  match (db ← mc_databases self !! database; md_views db !! view) with
  | Some status => (Ok status, self)
  | None => (Err (CeNotFound ObjView view), self)
  end.

Definition memory_list_views (database : Namespace)
    : CatalogM MemoryCatalogProvider (list TableStatus) := λ self,
  match mc_databases self !! database with
  | Some db => (Ok (map_values (md_views db)), self)
  | None => (Err (database_not_found database), self)
  end.

Definition memory_drop_view (database : Namespace) (view : string) (options : DropViewOptions)
    : CatalogM MemoryCatalogProvider unit := λ self,
  match mc_databases self !! database with
  | Some db =>
      let self' := mc_set self database (md_with_views db (delete view (md_views db))) in
      if bool_decide (is_Some (md_views db !! view)) || dv_if_exists options then (Ok tt, self')
      else (Err (CeNotFound ObjView view), self')
  | None =>
      if dv_if_exists options then (Ok tt, self) else (Err (database_not_found database), self)
  end.

#[global] Instance memory_provider : CatalogProvider MemoryCatalogProvider := {|
  get_name := mc_name;
  create_database := memory_create_database;
  get_database := memory_get_database;
  list_databases := memory_list_databases;
  drop_database := memory_drop_database;
  create_table := memory_create_table;
  get_table := memory_get_table;
  list_tables := memory_list_tables;
  drop_table := memory_drop_table;
  alter_table := memory_alter_table;
  create_view := memory_create_view;
  get_view := memory_get_view;
  list_views := memory_list_views;
  drop_view := memory_drop_view
|}.
End memory.
