(* ===== verification/CatalogTypesTheorems.v ===== *)
(** * Guarantees of column alterations

    Changing the type at a path is a lens on the columns of a table; the
    alterations that remove several items are not atomic.  [spec_alter] says of
    every alteration what it leaves, without the functions that carry it out. *)

From Stdlib Require Import Ascii String.
From S2P Require Import Prelude Collections CatalogNames CatalogTypes CatalogProvider.

Section types.
Context `{CE : CatalogEngine}.

(** ** The type at a path *)

Definition find_field (name : string) (fields : list Field) : option Field :=
  List.find (λ f, bool_decide (field_name f = name)) fields.

Fixpoint type_at (path : list string) (t : DataType) : option DataType :=
  match path with
  | [] => Some t
  | name :: path =>
      match t with
      | DtStruct fields => f ← find_field name fields; type_at path (field_data_type f)
      | DtList f | DtLargeList f =>
          if decide (name = "element") then type_at path (field_data_type f) else None
      | DtMap f _ =>
          match field_data_type f with
          | DtStruct entries => e ← find_field name entries; type_at path (field_data_type e)
          | _ => None
          end
      | DtOther _ => None
      end
  end.

Definition column_type_at (columns : list TableColumnStatus) (path : list string)
    : option DataType :=
  match path with
  | [] => None
  | name :: path =>
      c ← List.find (λ c, bool_decide (co_name c = name)) columns; type_at path (co_data_type c)
  end.

(** ** Fields *)

Lemma alter_fields_cons change name f fields r :
  alter_fields change name (f :: fields) = Ok r ↔
  ∃ f' fields', r = f' :: fields' ∧ alter_fields change name fields = Ok fields' ∧
    if decide (field_name f = name)
    then ∃ t, change (field_data_type f) = Ok t ∧ f' = field_with_type f t
    else f' = f.
Proof.
  unfold alter_fields. rewrite fmap_cons. simpl. case_decide as Hn.
  - destruct (change (field_data_type f)) as [t|e]; simpl.
    + destruct (collect_results _) as [l|e]; simpl; [|naive_solver].
      split; [intros [= <-]; eauto 10|]. intros (? & ? & -> & [= ->] & ? & [= ->] & ->). done.
    + naive_solver.
  - destruct (collect_results _) as [l|e]; simpl; naive_solver.
Qed.

Lemma alter_fields_find change name fields fields' :
  alter_fields change name fields = Ok fields' → has_field name fields = true →
  ∃ f t, find_field name fields = Some f ∧ change (field_data_type f) = Ok t ∧
    find_field name fields' = Some (field_with_type f t).
Proof.
  revert fields'. induction fields as [|f fields IH]; intros fields' Ha Hf; [done|].
  apply alter_fields_cons in Ha as (f' & l & -> & Hl & Hf'). simpl in *.
  unfold find_field. simpl. destruct (decide (field_name f = name)) as [Hn|Hn].
  - destruct Hf' as (t & Ht & ->). rewrite bool_decide_true by done.
    rewrite bool_decide_true by done. eauto.
  - subst f'. rewrite bool_decide_false in Hf |- * by done. by apply IH.
Qed.

Lemma alter_fields_has change name fields fields' :
  alter_fields change name fields = Ok fields' → has_field name fields' = has_field name fields.
Proof.
  revert fields'. induction fields as [|f fields IH]; intros fields' Ha.
  { by injection Ha as <-. }
  apply alter_fields_cons in Ha as (f' & l & -> & Hl & Hf'). simpl. rewrite (IH l Hl). f_equal.
  destruct (decide _) as [Hn|Hn]; [|by subst]. by destruct Hf' as (t & _ & ->).
Qed.

(** Two changes in a row are the second. *)
Lemma alter_fields_again change change2 name fields fields' :
  (∀ t t', change t = Ok t' → change2 t' = change2 t) →
  alter_fields change name fields = Ok fields' →
  alter_fields change2 name fields' = alter_fields change2 name fields.
Proof.
  intros Hc. revert fields'. induction fields as [|f fields IH]; intros fields' Ha.
  { by injection Ha as <-. }
  apply alter_fields_cons in Ha as (f' & l & -> & Hl & Hf').
  unfold alter_fields in *. rewrite !fmap_cons. simpl. rewrite (IH l Hl).
  destruct (decide (field_name f = name)) as [Hn|Hn]; [|subst f'; by rewrite decide_False].
  destruct Hf' as (t & Ht & ->). rewrite decide_True by done. simpl. rewrite (Hc _ _ Ht).
  by destruct (change2 (field_data_type f)).
Qed.

(** ** Nested types *)

Lemma result_bind_ok {E A B} (r : Result E A) (f : A → Result E B) b :
  r ≫= f = Ok b → ∃ a, r = Ok a ∧ f a = Ok b.
Proof. destruct r; [eauto|done]. Qed.

Lemma alter_nested_get path t d t' :
  alter_nested_data_type path t d = Ok t' → type_at path t' = Some d ∧ is_Some (type_at path t).
Proof.
  revert t t'. induction path as [|name path IH]; intros t t'; [intros [= ->]; simpl; eauto|]. simpl.
  destruct t as [fields|f|f|f sorted|?]; [| | | |done].
  - intros (fields' & Ha & H)%result_bind_ok. destruct (has_field name fields) eqn:Hf; [|done].
    injection H as <-. destruct (alter_fields_find _ _ _ _ Ha Hf) as (f & t & H1 & H2 & H3).
    rewrite H1, H3. simpl. by apply IH.
  - case_decide as Hn; [|done]. intros (t & Ht & [= <-])%result_bind_ok. simpl. by apply IH.
  - case_decide as Hn; [|done]. intros (t & Ht & [= <-])%result_bind_ok. simpl. by apply IH.
  - destruct (field_data_type f) as [entries| | | |]; try done.
    intros (fields' & Ha & H)%result_bind_ok. destruct (has_field name entries) eqn:Hf; [|done].
    injection H as <-. destruct (alter_fields_find _ _ _ _ Ha Hf) as (e & t & H1 & H2 & H3).
    simpl. rewrite H1, H3. simpl. by apply IH.
Qed.

Lemma alter_nested_again path t d t' d2 :
  alter_nested_data_type path t d = Ok t' →
  alter_nested_data_type path t' d2 = alter_nested_data_type path t d2.
Proof.
  revert t t'. induction path as [|name path IH]; intros t t'; [done|]. simpl.
  destruct t as [fields|f|f|f sorted|?]; [| | | |done].
  - intros (fields' & Ha & H)%result_bind_ok. destruct (has_field name fields) eqn:Hf; [|done].
    injection H as <-. rewrite (alter_fields_has _ _ _ _ Ha), Hf.
    erewrite (alter_fields_again _ _ _ _ _ _ Ha); done.
  - case_decide as Hn; [|done]. intros (t & Ht & [= <-])%result_bind_ok. simpl.
    by rewrite (IH _ _ Ht).
  - case_decide as Hn; [|done]. intros (t & Ht & [= <-])%result_bind_ok. simpl.
    by rewrite (IH _ _ Ht).
  - destruct (field_data_type f) as [entries| | | |] eqn:Hfd; try done.
    intros (fields' & Ha & H)%result_bind_ok. destruct (has_field name entries) eqn:Hf; [|done].
    injection H as <-. simpl. rewrite (alter_fields_has _ _ _ _ Ha), Hf.
    erewrite (alter_fields_again _ _ _ _ _ _ Ha); done.
  Unshelve. all: eauto.
Qed.

(** ** Columns *)

Lemma update_first_split {A E} (p : A → bool) (f : A → Result E A) (l l' : list A) :
  update_first p f l = Some (Ok l') →
  ∃ pre x x' post, l = pre ++ x :: post ∧ l' = pre ++ x' :: post ∧
    Forall (λ y, p y = false) pre ∧ p x = true ∧ f x = Ok x'.
Proof.
  revert l'. induction l as [|x l IH]; intros l'; simpl; [done|]. destruct (p x) eqn:Hp.
  - intros [= (x' & Hx & [= <-])%result_bind_ok]. by exists [], x, x', l.
  - destruct (update_first p f l) as [[l0|e]|] eqn:Hu; simpl; try done. intros [= <-].
    destruct (IH l0 eq_refl) as (pre & y & y' & post & -> & -> & Hpre & Hy & Hf).
    exists (x :: pre), y, y', post. split_and!; try done. by constructor.
Qed.

Lemma update_first_app {A E} (p : A → bool) (f : A → Result E A) (pre post : list A) x :
  Forall (λ y, p y = false) pre → p x = true →
  update_first p f (pre ++ x :: post) = Some (x' ← f x; Ok (pre ++ x' :: post)).
Proof.
  intros Hpre Hx. induction Hpre as [|y pre Hy Hpre IH]; simpl; [by rewrite Hx|].
  rewrite Hy, IH. simpl. by destruct (f x).
Qed.

Lemma find_app {A} (p : A → bool) (pre post : list A) x :
  Forall (λ y, p y = false) pre → p x = true → List.find p (pre ++ x :: post) = Some x.
Proof. intros Hpre Hx. induction Hpre as [|y pre Hy Hpre IH]; simpl; [by rewrite Hx|by rewrite Hy]. Qed.

(** The change of one column. *)
Definition alter_column (nested_path : list string) (data_type : DataType)
    (c : TableColumnStatus) : Result string TableColumnStatus :=
  t ← alter_nested_data_type nested_path (co_data_type c) data_type; Ok (co_with_type c t).

Lemma alter_column_type_split columns name path d columns' :
  alter_column_type columns (name :: path) d = Ok columns' →
  ∃ pre c t post, columns = pre ++ c :: post ∧ columns' = pre ++ co_with_type c t :: post ∧
    Forall (λ y, bool_decide (co_name y = name) = false) pre ∧ co_name c = name ∧
    alter_nested_data_type path (co_data_type c) d = Ok t.
Proof.
  unfold alter_column_type. case_match eqn:Hu; [|done]. intros ->.
  apply update_first_split in Hu as (pre & c & c' & post & -> & -> & Hpre & Hc & Hf).
  apply bool_decide_eq_true in Hc.
  assert (∃ t, c' = co_with_type c t ∧ alter_nested_data_type path (co_data_type c) d = Ok t)
    as (t & -> & Ht).
  { destruct path as [|x path]; [injection Hf as <-; by exists d|].
    apply result_bind_ok in Hf as (t & Ht & [= <-]). eauto. }
  by exists pre, c, t, post.
Qed.

Lemma alter_column_type_at pre c post name path d :
  Forall (λ y, bool_decide (co_name y = name) = false) pre → co_name c = name →
  alter_column_type (pre ++ c :: post) (name :: path) d =
    (t ← alter_nested_data_type path (co_data_type c) d; Ok (pre ++ co_with_type c t :: post)).
Proof.
  intros Hpre Hc. unfold alter_column_type.
  rewrite update_first_app; [|done|by apply bool_decide_eq_true].
  destruct path as [|x path]; [done|]. by destruct (alter_nested_data_type _ _ _).
Qed.

(** Changing the type of a column, or of a nested field, is a lens: it
    succeeds only on a path that leads somewhere, afterwards the path leads to
    the new type, a second change replaces the first, and nothing but the type
    of that one column is touched. *)
Theorem alter_column_type_lens columns path d columns' :
  alter_column_type columns path d = Ok columns' →
  is_Some (column_type_at columns path) ∧ column_type_at columns' path = Some d ∧
  (∀ d2, alter_column_type columns' path d2 = alter_column_type columns path d2) ∧
  ∃ pre c t post, columns = pre ++ c :: post ∧ columns' = pre ++ co_with_type c t :: post ∧
    head path = Some (co_name c).
Proof.
  destruct path as [|name path]; [done|].
  intros (pre & c & t & post & -> & -> & Hpre & Hc & Ht)%alter_column_type_split.
  destruct (alter_nested_get _ _ _ _ Ht) as [H1 H2].
  assert (∀ d2, alter_column_type (pre ++ co_with_type c t :: post) (name :: path) d2 =
    alter_column_type (pre ++ c :: post) (name :: path) d2) as H3.
  { intros d2. rewrite !alter_column_type_at by done.
    cbn [co_with_type co_data_type]. by rewrite (alter_nested_again _ _ _ _ _ Ht). }
  unfold column_type_at.
  rewrite !find_app by (done || by apply bool_decide_eq_true). split_and!; [done|done|done|].
  - exists pre, c, t, post. by rewrite Hc.
Qed.

(** ** Removing items one by one *)

Lemma filter_not_cons {A} (name : A → string) key keys (items : list A) :
  filter (λ x, name x ∉ key :: keys) items =
  filter (λ x, name x ∉ keys) (filter (λ x, name x ≠ key) items).
Proof.
  rewrite list_filter_filter. apply list_filter_iff. intros x. rewrite not_elem_of_cons. tauto.
Qed.

Lemma remove_each_filter {A} (name : A → string) missing keys if_exists (items : list A) r items' :
  remove_each name missing keys if_exists items = (r, items') →
  (r = Ok tt ∧ items' = filter (λ x, name x ∉ keys) items) ∨
  (if_exists = false ∧ ∃ pre key post, keys = pre ++ key :: post ∧ r = Err (missing key) ∧
     (key ∈ pre ∨ key ∉ name <$> items) ∧ items' = filter (λ x, name x ∉ pre) items).
Proof.
  revert items. induction keys as [|key keys IH]; intros items; simpl.
  - intros [= <- <-]. left. split; [done|]. symmetry. apply filter_all. set_solver.
  - destruct (negb _ && negb if_exists) eqn:Hn.
    + intros [= <- <-]. right. apply andb_true_iff in Hn as [Hm Hi].
      apply negb_true_iff in Hm, Hi. split; [done|]. exists [], key, keys. split_and!; try done.
      * right. intros (x & -> & Hx)%list_elem_of_fmap.
        rewrite existsb_false in Hm. specialize (Hm x Hx). by apply bool_decide_eq_false in Hm.
      * symmetry. apply filter_all. set_solver.
    + intros [[-> ->]|(Hi & pre & k & post & -> & -> & Hk & ->)]%IH.
      * left. split; [done|]. by rewrite filter_not_cons.
      * right. split; [done|]. exists (key :: pre), k, post. split_and!; try done.
        -- destruct (decide (k = key)) as [->|Hne]; [left; set_solver|].
           destruct Hk as [Hk|Hk]; [left; set_solver|right].
           contradict Hk. apply list_elem_of_fmap in Hk as (x & -> & Hx).
           apply list_elem_of_fmap. exists x. split; [done|]. by apply list_elem_of_filter.
        -- by rewrite filter_not_cons.
Qed.

(** Dropping columns and unsetting properties stop at the first name that is
    missing, and the names before it are gone although the statement fails: a
    failed alteration is not undone.  It fails only without [IF EXISTS], on a
    name that the table does not have or that is listed twice; without a
    failure exactly the named items are removed. *)
Theorem failed_removal_applied table names keys if_exists i :
  (∀ r i', alter_info table (DropColumns names if_exists) i = (r, i') →
     (r = Ok tt ∧ i' = ti_with_columns i
        (filter (λ c, co_name c ∉ join "." <$> names) (ti_columns i))) ∨
     (if_exists = false ∧ ∃ pre key post, join "." <$> names = pre ++ key :: post ∧
        r = Err (column_missing table key) ∧ (key ∈ pre ∨ key ∉ co_name <$> ti_columns i) ∧
        i' = ti_with_columns i (filter (λ c, co_name c ∉ pre) (ti_columns i)))) ∧
  (∀ r i', alter_info table (UnsetTableProperties keys if_exists) i = (r, i') →
     (r = Ok tt ∧ i' = ti_with_properties i
        (filter (λ p, p.1 ∉ keys) (ti_properties i))) ∨
     (if_exists = false ∧ ∃ pre key post, keys = pre ++ key :: post ∧
        r = Err (property_missing table key) ∧ (key ∈ pre ∨ key ∉ (ti_properties i).*1) ∧
        i' = ti_with_properties i (filter (λ p, p.1 ∉ pre) (ti_properties i)))).
Proof.
  split; intros r i'; simpl; destruct (remove_each _ _ _ _ _) as [r0 l] eqn:Hr;
    intros [= <- <-]; apply remove_each_filter in Hr;
    destruct Hr as [[-> ->]|(Hi & pre & key & post & Hk & -> & Hm & ->)]; [by left| |by left|];
    right; (split; [done|]); by exists pre, key, post.
Qed.

(** ** What an alteration does *)

(** The value of a property. *)
Definition property (p : Properties) (key : string) : option string :=
  snd <$> List.find (λ x, bool_decide (x.1 = key)) p.

(** The properties get the last values that are given for them; those that the
    table has keep their places. *)
Definition spec_set_properties (new p p' : Properties) : Prop :=
  (∀ key, property p' key = match property (reverse new) key with
                            | Some v => Some v | None => property p key end) ∧
  p.*1 `prefix_of` p'.*1 ∧ (NoDup p.*1 → NoDup p'.*1).

(** Items are removed by name: all of them, or those before the first name that
    is missing or repeated. *)
Definition spec_remove {A} (name : A → string) (missing : string → CatalogError)
    (keys : list string) (if_exists : bool) (items : list A) (r : CatalogResult unit)
    (items' : list A) : Prop :=
  (r = Ok tt ∧ (if_exists = true ∨ NoDup keys ∧ keys ⊆ name <$> items) ∧
     items' = filter (λ x, name x ∉ keys) items) ∨
  (if_exists = false ∧ ∃ pre key post, keys = pre ++ key :: post ∧ NoDup pre ∧
     pre ⊆ name <$> items ∧ (key ∈ pre ∨ key ∉ name <$> items) ∧ r = Err (missing key) ∧
     items' = filter (λ x, name x ∉ pre) items).

(** A column that is made from options. *)
Record made_column (x : CreateTableColumnOptions) (partition bucket : Prop)
    (c : TableColumnStatus) : Prop := {
  mc_column_name : co_name c = cc_name x;
  mc_column_type : co_data_type c = cc_data_type x;
  mc_column_nullable : co_nullable c = cc_nullable x;
  mc_column_comment : co_comment c = cc_comment x;
  mc_column_default : co_default c = cc_default x;
  mc_column_generated : co_generated_always_as c = cc_generated_always_as x;
  mc_column_partition : co_is_partition c = true ↔ partition;
  mc_column_bucket : co_is_bucket c = true ↔ bucket;
  mc_column_cluster : co_is_cluster c = false
}.

(** Two paths that part at some name. *)
Inductive diverge : list string → list string → Prop :=
| DivergeHere a b p q : a ≠ b → diverge (a :: p) (b :: q)
| DivergeLater a p q : diverge p q → diverge (a :: p) (a :: q).

(** No two fields of a struct on the way have the same name. *)
Fixpoint distinct_along (path : list string) (t : DataType) : Prop :=
  match path with
  | [] => True
  | name :: path =>
      let along fields := NoDup (field_name <$> fields) ∧
        ∀ f, find_field name fields = Some f → distinct_along path (field_data_type f) in
      match t with
      | DtStruct fields => along fields
      | DtList f | DtLargeList f => distinct_along path (field_data_type f)
      | DtMap f _ => match field_data_type f with DtStruct entries => along entries | _ => True end
      | DtOther _ => True
      end
  end.
Definition column_distinct_along (columns : list TableColumnStatus) (path : list string) : Prop :=
  match path with
  | [] => True
  | name :: path => ∀ c, List.find (λ c, bool_decide (co_name c = name)) columns = Some c →
      distinct_along path (co_data_type c)
  end.

(** The type at a path is changed, those at paths that part from it are not, and
    of the columns it is the first of the name; the change is refused only where
    the path leads nowhere or is ambiguous. *)
Definition spec_alter_type (path : list string) (d : DataType) (columns : list TableColumnStatus)
    (r : CatalogResult unit) (columns' : list TableColumnStatus) : Prop :=
  match r with
  | Ok _ => is_Some (column_type_at columns path) ∧ column_type_at columns' path = Some d ∧
      (∀ q, diverge path q → column_type_at columns' q = column_type_at columns q) ∧
      ∃ pre c t post, columns = pre ++ c :: post ∧ columns' = pre ++ co_with_type c t :: post ∧
        head path = Some (co_name c) ∧ co_name c ∉ co_name <$> pre
  | Err e => columns' = columns ∧ (∃ message, e = CeInvalidArgument message) ∧
      ¬ (is_Some (column_type_at columns path) ∧ column_distinct_along columns path)
  end.

Definition spec_rename_column (table old new : string) (columns : list TableColumnStatus)
    (r : CatalogResult unit) (columns' : list TableColumnStatus) : Prop :=
  (∃ pre c post, columns = pre ++ c :: post ∧ co_name c = old ∧ old ∉ co_name <$> pre ∧
     columns' = pre ++ co_with_name c new :: post ∧ r = Ok tt) ∨
  (old ∉ co_name <$> columns ∧ columns' = columns ∧ r = Err (column_missing table old)).

Definition spec_alter (table : string) (o : AlterTableOptions) (i : TableInfo)
    (r : CatalogResult unit) (i' : TableInfo) : Prop :=
  match o with
  | SetTableProperties new => r = Ok tt ∧ ∃ p, i' = ti_with_properties i p ∧
      spec_set_properties new (ti_properties i) p
  | UnsetTableProperties keys if_exists => ∃ p, i' = ti_with_properties i p ∧
      spec_remove fst (property_missing table) keys if_exists (ti_properties i) r p
  | AlterColumnType path d => ∃ c, i' = ti_with_columns i c ∧
      spec_alter_type path d (ti_columns i) r c
  | AddColumns new => r = Ok tt ∧ ∃ added, i' = ti_with_columns i (ti_columns i ++ added) ∧
      Forall2 (λ x, made_column x False False) new added
  | DropColumns names if_exists => ∃ c, i' = ti_with_columns i c ∧
      spec_remove co_name (column_missing table) (join "." <$> names) if_exists (ti_columns i) r c
  | RenameColumn old new => ∃ c, i' = ti_with_columns i c ∧
      spec_rename_column table (join "." old) (join "." new) (ti_columns i) r c
  | RenameTable _ => i' = i ∧ ∃ message, r = Err (CeNotSupported message)
  end.

(** ** Alterations do what they should *)

Lemma property_app p q key :
  property (p ++ q) key = match property p key with Some v => Some v | None => property q key end.
Proof.
  unfold property. induction p as [|[k v] p IH]; [done|]. simpl. by case_bool_decide.
Qed.
Lemma set_property_get key value p key' :
  property (set_property key value p) key' =
  if decide (key = key') then Some value else property p key'.
Proof.
  unfold property. induction p as [|[k v] p IH]; simpl.
  - case_bool_decide; case_decide; naive_solver.
  - destruct (decide (k = key)) as [->|Hne]; simpl.
    + case_bool_decide; case_decide; naive_solver.
    + case_bool_decide; [|exact IH].
      by destruct (decide (key = key')) as [->|].
Qed.
Lemma set_property_keys key value p :
  (set_property key value p).*1 = p.*1 ++ (if bool_decide (key ∈ p.*1) then [] else [key]).
Proof.
  induction p as [|[k v] p IH]; [done|]. cbn [set_property].
  destruct (decide (k = key)) as [->|Hne]; rewrite !fmap_cons; cbn [fst].
  - rewrite bool_decide_true by left. by rewrite app_nil_r.
  - rewrite IH. cbn [app]. do 2 f_equal.
    rewrite (bool_decide_ext (key ∈ k :: p.*1) (key ∈ p.*1)); [done|].
    rewrite elem_of_cons. naive_solver.
Qed.
Lemma set_property_spec key value p :
  p.*1 `prefix_of` (set_property key value p).*1 ∧
  (NoDup p.*1 → NoDup (set_property key value p).*1).
Proof.
  rewrite set_property_keys. split; [by eexists|]. intros Hp. apply NoDup_app. split_and!; [done| |].
  - intros k Hk. case_bool_decide as Hin; [by intros ?%elem_of_nil|].
    intros ->%list_elem_of_singleton. done.
  - case_bool_decide; [constructor|apply NoDup_singleton].
Qed.

Lemma set_properties_spec new p : spec_set_properties new p (set_properties new p).
Proof.
  revert p. induction new as [|[key value] new IH]; intros p; [done|]. cbn.
  destruct (IH (set_property key value p)) as (H1 & H2 & H3).
  destruct (set_property_spec key value p) as [H4 H5]. split_and!; [|by trans (set_property key value p).*1|auto].
  intros k. rewrite H1, reverse_cons, property_app, set_property_get.
  destruct (property (reverse new) k); [done|]. unfold property. simpl.
  case_bool_decide; case_decide; naive_solver.
Qed.

Lemma remove_each_spec {A} (name : A → string) missing keys if_exists (items : list A) :
  spec_remove name missing keys if_exists items
    (remove_each name missing keys if_exists items).1
    (remove_each name missing keys if_exists items).2.
Proof.
  revert items. induction keys as [|key keys IH]; intros items; cbn [remove_each].
  { left. split; [done|]. split; [right; split; [constructor|set_solver]|].
    symmetry. apply filter_all. set_solver. }
  destruct (negb _ && negb if_exists) eqn:Hn.
  - apply andb_true_iff in Hn as [Hm Hi]. apply negb_true_iff in Hm, Hi. right. split; [done|].
    exists [], key, keys. split_and!; [done|constructor|set_solver| |done|].
    + right. intros (x & -> & Hx)%list_elem_of_fmap.
      rewrite existsb_false in Hm. specialize (Hm x Hx). by apply bool_decide_eq_false in Hm.
    + symmetry. apply filter_all. set_solver.
  - assert (if_exists = false → key ∈ name <$> items) as Hkey.
    { intros ->. rewrite andb_true_r in Hn. apply negb_false_iff, existsb_exists in Hn as (x & Hx & E).
      apply bool_decide_eq_true in E as <-. apply list_elem_of_fmap_2. by apply list_elem_of_In. }
    assert (∀ k, k ∈ name <$> filter (λ x, name x ≠ key) items ↔ k ∈ name <$> items ∧ k ≠ key) as Hf.
    { intros k. rewrite !list_elem_of_fmap. setoid_rewrite list_elem_of_filter. naive_solver. }
    destruct (IH (filter (λ x, name x ≠ key) items)) as
      [(-> & Hok & ->)|(Hi & pre & k & post & -> & Hnd & Hpre & Hk & -> & ->)].
    + left. split; [done|]. split; [|by rewrite filter_not_cons].
      destruct if_exists; [by left|right]. destruct Hok as [?|[Hnd Hsub]]; [done|].
      specialize (Hkey eq_refl). split.
      * apply NoDup_cons. split; [|done]. intros [_ ?]%Hsub%Hf. done.
      * intros k [->|Hk]%elem_of_cons; [done|]. by apply Hsub, Hf in Hk as [? _].
    + right. split; [done|]. specialize (Hkey Hi). exists (key :: pre), k, post. split_and!; try done.
      * apply NoDup_cons. split; [|done]. intros [_ ?]%Hpre%Hf. done.
      * intros k' [->|Hk']%elem_of_cons; [done|]. by apply Hpre, Hf in Hk' as [? _].
      * rewrite Hf in Hk. rewrite elem_of_cons. destruct (decide (k = key)); naive_solver.
      * by rewrite filter_not_cons.
Qed.

(** Types at other paths. *)
Lemma alter_fields_other change name fields fields' other :
  alter_fields change name fields = Ok fields' → other ≠ name →
  find_field other fields' = find_field other fields.
Proof.
  intros Ha Hne. revert fields' Ha. induction fields as [|f fields IH]; intros fields' Ha.
  { by injection Ha as <-. }
  apply alter_fields_cons in Ha as (f' & l & -> & Hl & Hf'). unfold find_field in *. simpl.
  rewrite (IH l Hl). destruct (decide (field_name f = name)) as [Hn|Hn]; [|by subst f'].
  destruct Hf' as (t & _ & ->). simpl. by rewrite !bool_decide_false by congruence.
Qed.

Lemma alter_fields_frame change name fields fields' path q :
  alter_fields change name fields = Ok fields' → has_field name fields = true →
  (∀ t t', change t = Ok t' → diverge path q → type_at q t' = type_at q t) →
  ∀ other, diverge (name :: path) (other :: q) →
  (f ← find_field other fields'; type_at q (field_data_type f)) =
  (f ← find_field other fields; type_at q (field_data_type f)).
Proof.
  intros Ha Hf Hc other Hd. inv Hd as [? ? ? ? Hne|? ? ? Hd'].
  - by rewrite (alter_fields_other _ _ _ _ other Ha).
  - destruct (alter_fields_find _ _ _ _ Ha Hf) as (f & t & -> & Ht & ->). simpl. by apply Hc.
Qed.

Lemma alter_nested_frame path t d t' q :
  alter_nested_data_type path t d = Ok t' → diverge path q → type_at q t' = type_at q t.
Proof.
  revert t t' q. induction path as [|name path IH]; intros t t' q Ht Hd; [inv Hd|].
  destruct q as [|other q]; [inv Hd|]. simpl in Ht |- *.
  assert (∀ f t1, other = "element" → name = "element" →
    alter_nested_data_type path (field_data_type f) d = Ok t1 →
    type_at q t1 = type_at q (field_data_type f)) as Hel.
  { intros f t1 -> -> Hf. inv Hd; try done. by apply (IH (field_data_type f)). }
  destruct t as [fields|f|f|f sorted|?]; [| | | |done].
  - apply result_bind_ok in Ht as (fields' & Ha & H). destruct (has_field name fields) eqn:Hf; [|done].
    injection H as <-. eapply alter_fields_frame; eauto.
  - case_decide as Hn; [|done]. apply result_bind_ok in Ht as (t & Ht & [= <-]).
    case_decide; [|done]. simpl. by apply Hel.
  - case_decide as Hn; [|done]. apply result_bind_ok in Ht as (t & Ht & [= <-]).
    case_decide; [|done]. simpl. by apply Hel.
  - destruct (field_data_type f) as [entries| | | |]; try done.
    apply result_bind_ok in Ht as (fields' & Ha & H). destruct (has_field name entries) eqn:Hf; [|done].
    injection H as <-. simpl. eapply alter_fields_frame; eauto.
Qed.

(** The change is possible where the path leads somewhere without ambiguity. *)
Lemma find_field_None name fields :
  name ∉ field_name <$> fields → find_field name fields = None.
Proof.
  unfold find_field. induction fields as [|f fields IH]; [done|]. rewrite fmap_cons, not_elem_of_cons.
  intros [Hne Hin]. simpl. rewrite bool_decide_false by congruence. by apply IH.
Qed.
Lemma alter_fields_ok change name fields :
  NoDup (field_name <$> fields) →
  (∀ f, find_field name fields = Some f → ∃ t, change (field_data_type f) = Ok t) →
  ∃ fields', alter_fields change name fields = Ok fields'.
Proof.
  induction fields as [|f fields IH]; [by exists []|]. rewrite fmap_cons, NoDup_cons.
  intros [Hin Hnd] Hc. unfold find_field in Hc. simpl in Hc.
  destruct (decide (field_name f = name)) as [Hn|Hn].
  - rewrite bool_decide_true in Hc by done. destruct (Hc f eq_refl) as [t Ht].
    destruct (IH Hnd) as [l Hl]; [intros g Hg; rewrite find_field_None in Hg; congruence|].
    exists (field_with_type f t :: l). apply alter_fields_cons.
    exists (field_with_type f t), l. rewrite decide_True by done. eauto.
  - rewrite bool_decide_false in Hc by done. destruct (IH Hnd Hc) as [l Hl].
    exists (f :: l). apply alter_fields_cons. exists f, l. by rewrite decide_False.
Qed.
Lemma find_field_has name fields f : find_field name fields = Some f → has_field name fields = true.
Proof.
  intros [Hf Hn]%find_some. apply existsb_exists. eauto.
Qed.

Lemma alter_nested_ok path t d :
  is_Some (type_at path t) → distinct_along path t →
  ∃ t', alter_nested_data_type path t d = Ok t'.
Proof.
  revert t. induction path as [|name path IH]; intros t Ht Hd; [by exists d|]. simpl in *.
  destruct t as [fields|f|f|f sorted|?]; [| | | |by destruct Ht].
  - destruct Ht as [x (f & Hf & Hx)%bind_Some], Hd as [Hnd Hd].
    destruct (alter_fields_ok (λ t, alter_nested_data_type path t d) name fields Hnd) as [l ->].
    { intros g Hg. simplify_eq. eauto. }
    rewrite (find_field_has _ _ _ Hf). eauto.
  - case_decide; [|by destruct Ht]. destruct (IH _ Ht Hd) as [t' ->]. eauto.
  - case_decide; [|by destruct Ht]. destruct (IH _ Ht Hd) as [t' ->]. eauto.
  - destruct (field_data_type f) as [entries| | | |]; try by destruct Ht.
    destruct Ht as [x (e & Hf & Hx)%bind_Some], Hd as [Hnd Hd].
    destruct (alter_fields_ok (λ t, alter_nested_data_type path t d) name entries Hnd) as [l ->].
    { intros g Hg. simplify_eq. eauto. }
    rewrite (find_field_has _ _ _ Hf). eauto.
Qed.

(** Columns. *)
Lemma names_of_prefix (pre : list TableColumnStatus) name :
  Forall (λ y, bool_decide (co_name y = name) = false) pre ↔ name ∉ co_name <$> pre.
Proof.
  rewrite Forall_forall, list_elem_of_fmap. setoid_rewrite bool_decide_eq_false. naive_solver.
Qed.
Lemma find_column_split (columns : list TableColumnStatus) name :
  match List.find (λ c, bool_decide (co_name c = name)) columns with
  | Some c => ∃ pre post, columns = pre ++ c :: post ∧ co_name c = name ∧ name ∉ co_name <$> pre
  | None => name ∉ co_name <$> columns
  end.
Proof.
  induction columns as [|c columns IH]; [by intros ?%elem_of_nil|]. cbn [List.find].
  case_bool_decide as Hn; [exists [], columns; by split_and!; [..|intros ?%elem_of_nil]|].
  destruct (List.find _ columns) as [x|].
  - destruct IH as (pre & post & -> & Hx & Hpre). exists (c :: pre), post. split_and!; [done|done|].
    rewrite fmap_cons, not_elem_of_cons. naive_solver.
  - rewrite fmap_cons, not_elem_of_cons. naive_solver.
Qed.

Lemma alter_column_type_ok columns path d columns' :
  alter_column_type columns path d = Ok columns' → spec_alter_type path d columns (Ok tt) columns'.
Proof.
  destruct path as [|name path]; [done|].
  intros (pre & c & t & post & -> & -> & Hpre & Hc & Ht)%alter_column_type_split.
  destruct (alter_nested_get _ _ _ _ Ht) as [H1 H2]. unfold spec_alter_type, column_type_at.
  rewrite !find_app by (done || by apply bool_decide_eq_true). split_and!; [done|done| |].
  - intros [|other q] Hd; [done|]. destruct (decide (other = name)) as [->|Hne].
    + inv Hd; try done. rewrite !find_app by (done || by apply bool_decide_eq_true).
      simpl. by apply (alter_nested_frame _ _ _ _ _ Ht).
    + assert (∀ y, List.find (λ c, bool_decide (co_name c = other)) (pre ++ co_with_type c y :: post) =
        List.find (λ c, bool_decide (co_name c = other)) (pre ++ c :: post)) as E.
      { intros y. clear -Hc Hne. induction pre as [|x pre IH]; simpl.
        - by rewrite !bool_decide_false by congruence.
        - by rewrite IH. }
      by rewrite E.
  - exists pre, c, t, post. rewrite Hc. split_and!; [done..|]. by apply names_of_prefix.
Qed.
Lemma alter_column_type_refused columns path d e message :
  alter_column_type columns path d = Err e →
  spec_alter_type path d columns (Err (CeInvalidArgument message)) columns.
Proof.
  intros He. split_and!; [done|eauto|]. intros [Hs Hd]. destruct path as [|name path]; [by destruct Hs|].
  simpl in Hs, Hd. pose proof (find_column_split columns name) as Hf.
  destruct (List.find _ columns) as [c|]; [|by destruct Hs].
  destruct Hf as (pre & post & -> & Hc & Hpre%names_of_prefix). simpl in Hs.
  rewrite alter_column_type_at in He by done.
  destruct (alter_nested_ok path (co_data_type c) d Hs (Hd c eq_refl)) as [t' Ht].
  by rewrite Ht in He.
Qed.

Lemma rename_column_spec table old new columns :
  spec_rename_column table old new columns
    (match update_first (E:=CatalogError) (λ c, bool_decide (co_name c = old))
             (λ c, Ok (co_with_name c new)) columns with
     | Some (Ok _) => Ok tt | Some (Err e) => Err e | None => Err (column_missing table old) end)
    (match update_first (E:=CatalogError) (λ c, bool_decide (co_name c = old))
             (λ c, Ok (co_with_name c new)) columns with
     | Some (Ok l) => l | _ => columns end).
Proof.
  pose proof (find_column_split columns old) as Hf.
  destruct (List.find _ columns) as [c|].
  - destruct Hf as (pre & post & -> & Hc & Hpre). left.
    rewrite update_first_app; [|by apply names_of_prefix|by apply bool_decide_eq_true]. simpl.
    by exists pre, c, post.
  - right. assert (update_first (E:=CatalogError) (λ c, bool_decide (co_name c = old))
      (λ c, Ok (co_with_name c new)) columns = None) as ->; [|done].
    induction columns as [|c columns IH]; [done|]. rewrite fmap_cons, not_elem_of_cons in Hf.
    simpl. rewrite bool_decide_false by naive_solver. rewrite IH; naive_solver.
Qed.

Lemma ti_eta_columns (i : TableInfo) : ti_with_columns i (ti_columns i) = i.
Proof. by destruct i. Qed.

(** Every alteration. *)
Lemma alter_info_spec table o i :
  spec_alter table o i (alter_info table o i).1 (alter_info table o i).2.
Proof.
  destruct o as [new|keys if_exists|path d|new|names if_exists|old new|new_name]; simpl.
  - split; [done|]. eexists. split; [done|]. apply set_properties_spec.
  - pose proof (remove_each_spec fst (property_missing table) keys if_exists (ti_properties i)) as H.
    destruct (remove_each _ _ _ _ _) as [r p]. eexists. split; [done|]. exact H.
  - destruct (alter_column_type (ti_columns i) path d) as [c|e] eqn:E; simpl.
    + eexists. split; [done|]. by apply alter_column_type_ok.
    + exists (ti_columns i). split; [by rewrite ti_eta_columns|]. by eapply alter_column_type_refused.
  - split; [done|]. eexists. split; [done|]. apply Forall2_fmap_r, Forall_Forall2_diag.
    apply Forall_true. intros x. by split.
  - pose proof (remove_each_spec co_name (column_missing table) (join "." <$> names) if_exists
      (ti_columns i)) as H.
    destruct (remove_each _ _ _ _ _) as [r p]. eexists. split; [done|]. exact H.
  - pose proof (rename_column_spec table (join "." old) (join "." new) (ti_columns i)) as H.
    destruct (update_first _ _ _) as [[c|e]|]; simpl; eexists; (split; [|exact H]);
      by rewrite ?ti_eta_columns.
  - split; [done|]. eauto.
Qed.
End types.
