(* ===== verification/CatalogCache.v ===== *)
(** * The caching catalog provider

    [zelox-catalog/src/provider/cache.rs]: a provider that keeps the listings of
    another one.  The clones of a cache share its entries, so that one state
    stands for every session that uses the same caches over the same catalog.
    A cache may forget an entry at any time: when it is full or the entry is
    too old. *)

From Stdlib Require Import Ascii String.
From S2P Require Import Prelude Collections CatalogNames CatalogTypes CatalogProvider.

(** ** Caches *)

(** A cache of [moka], with the limits it was built with. *)
Record Cache (K V : Type) `{Countable K} := MkCache {
  cache_capacity : option N;
  cache_ttl : option N;
  cache_entries : gmap K V
}.
Arguments MkCache {K V _ _}.
Arguments cache_capacity {K V _ _}.
Arguments cache_ttl {K V _ _}.
Arguments cache_entries {K V _ _}.

Section caches.
Context {K V : Type} `{Countable K}.
Implicit Types (c : Cache K V).

Definition with_entries c (e : gmap K V) : Cache K V :=
  MkCache (cache_capacity c) (cache_ttl c) e.
Definition cache_get c (k : K) : option V := cache_entries c !! k.
Definition cache_insert c (k : K) (v : V) : Cache K V := with_entries c (<[k := v]> (cache_entries c)).
Definition cache_invalidate c (k : K) : Cache K V := with_entries c (delete k (cache_entries c)).
Definition cache_invalidate_all c : Cache K V := with_entries c ∅.

(** Some entries are forgotten. *)
Definition cache_evicts (c c' : option (Cache K V)) : Prop :=
  match c, c' with
  | Some c, Some c' => cache_entries c' ⊆ cache_entries c
  | None, None => True
  | _, _ => False
  end.

(** [Cache::builder()] with a capacity and a time to live that are positive. *)
Definition positive_limit (n : option N) : option N :=
  n ≫= λ n, if decide (0 < n)%N then Some n else None.
Definition build_cache (size ttl : option N) : Cache K V :=
  MkCache (positive_limit size) (positive_limit ttl) ∅.
End caches.

Inductive CacheType := CacheTypeNone | CacheTypeGlobal | CacheTypeSession.

Record CatalogCacheConfig := MkCatalogCacheConfig {
  cfg_database_cache_type : CacheType;
  cfg_database_cache_size : option N;
  cfg_database_cache_ttl_secs : option N;
  cfg_table_cache_type : CacheType;
  cfg_table_cache_size : option N;
  cfg_table_cache_ttl_secs : option N;
  cfg_view_cache_type : CacheType;
  cfg_view_cache_size : option N;
  cfg_view_cache_ttl_secs : option N
}.

Section caching.
Context `{CE : CatalogEngine} {S : Type} `{CP : !CatalogProvider S}.

Notation DatabaseCache := (Cache (option Namespace) (list DatabaseStatus)).
Notation TableCache := (Cache Namespace (list TableStatus)).

Record CatalogCacheBundle := MkCatalogCacheBundle {
  bd_database_cache : option DatabaseCache;
  bd_table_cache : option TableCache;
  bd_view_cache : option TableCache
}.

(** [CatalogCacheBundle::new]: only global caches. *)
Definition global_cache {K V} `{Countable K} (t : CacheType) (size ttl : option N)
    : option (Cache K V) :=
  match t with CacheTypeGlobal => Some (build_cache size ttl) | _ => None end.

Definition bundle_new (c : CatalogCacheConfig) : CatalogCacheBundle :=
  MkCatalogCacheBundle
    (global_cache (cfg_database_cache_type c) (cfg_database_cache_size c)
       (cfg_database_cache_ttl_secs c))
    (global_cache (cfg_table_cache_type c) (cfg_table_cache_size c) (cfg_table_cache_ttl_secs c))
    (global_cache (cfg_view_cache_type c) (cfg_view_cache_size c) (cfg_view_cache_ttl_secs c)).

Record CachingCatalogProvider := MkCachingCatalogProvider {
  cp_inner : S;
  cp_database_cache : option DatabaseCache;
  cp_table_cache : option TableCache;
  cp_view_cache : option TableCache
}.

(** The cache of a type: none, the one of the global bundle, or a new one. *)
Definition choose_cache {K V} `{Countable K} (t : CacheType) (size ttl : option N)
    (global : option (Cache K V)) : option (Cache K V) :=
  match t with
  | CacheTypeNone => None
  | CacheTypeGlobal => global
  | CacheTypeSession => Some (build_cache size ttl)
  end.

Definition caching_new (inner : S) (c : CatalogCacheConfig)
    (global_bundle : option CatalogCacheBundle) : CachingCatalogProvider :=
  MkCachingCatalogProvider inner
    (choose_cache (cfg_database_cache_type c) (cfg_database_cache_size c)
       (cfg_database_cache_ttl_secs c) (global_bundle ≫= bd_database_cache))
    (choose_cache (cfg_table_cache_type c) (cfg_table_cache_size c)
       (cfg_table_cache_ttl_secs c) (global_bundle ≫= bd_table_cache))
    (choose_cache (cfg_view_cache_type c) (cfg_view_cache_size c)
       (cfg_view_cache_ttl_secs c) (global_bundle ≫= bd_view_cache)).

Definition get_cache_bundle (p : CachingCatalogProvider) : CatalogCacheBundle :=
  MkCatalogCacheBundle (cp_database_cache p) (cp_table_cache p) (cp_view_cache p).

Implicit Types (self : CachingCatalogProvider).

Definition cp_with_inner self (s : S) : CachingCatalogProvider :=
  MkCachingCatalogProvider s (cp_database_cache self) (cp_table_cache self) (cp_view_cache self).
Definition cp_with_databases self (c : option DatabaseCache) : CachingCatalogProvider :=
  MkCachingCatalogProvider (cp_inner self) c (cp_table_cache self) (cp_view_cache self).
Definition cp_with_tables self (c : option TableCache) : CachingCatalogProvider :=
  MkCachingCatalogProvider (cp_inner self) (cp_database_cache self) c (cp_view_cache self).
Definition cp_with_views self (c : option TableCache) : CachingCatalogProvider :=
  MkCachingCatalogProvider (cp_inner self) (cp_database_cache self) (cp_table_cache self) c.

(** [c.invalidate_all()] and [c.invalidate(database)] where there is a cache. *)
Definition forget_databases self : CachingCatalogProvider :=
  cp_with_databases self (cache_invalidate_all <$> cp_database_cache self).
Definition forget_tables (database : Namespace) self : CachingCatalogProvider :=
  cp_with_tables self ((λ c, cache_invalidate c database) <$> cp_table_cache self).
Definition forget_views (database : Namespace) self : CachingCatalogProvider :=
  cp_with_views self ((λ c, cache_invalidate c database) <$> cp_view_cache self).

(** [let x = self.inner.call(..).await?; forget; Ok(x)]. *)
Definition write_through {A} (call : CatalogM S A)
    (forget : CachingCatalogProvider → CachingCatalogProvider)
    : CatalogM CachingCatalogProvider A := λ self,
  let '(r, inner) := call (cp_inner self) in
  let self := cp_with_inner self inner in
  match r with
  | Ok x => (Ok x, forget self)
  | Err e => (Err e, self)
  end.

(** A call that is only passed on. *)
Definition pass_through {A} (call : CatalogM S A) : CatalogM CachingCatalogProvider A := λ self,
  let '(r, inner) := call (cp_inner self) in (r, cp_with_inner self inner).

(** A listing, from the cache when there is an entry. *)
Definition read_through {K A} `{Countable K} (cache : CachingCatalogProvider → option (Cache K A))
    (set : CachingCatalogProvider → option (Cache K A) → CachingCatalogProvider)
    (key : K) (call : CatalogM S A) : CatalogM CachingCatalogProvider A := λ self,
  match cache self with
  | None => pass_through call self
  | Some c =>
      match cache_get c key with
      | Some v => (Ok v, self)
      | None =>
          let '(r, inner) := call (cp_inner self) in
          let self := cp_with_inner self inner in
          match r with
          | Ok v => (Ok v, set self (Some (cache_insert c key v)))
          | Err e => (Err e, self)
          end
      end
  end.

(** ** The operations *)

Definition caching_create_database database options :=
  write_through (create_database database options) forget_databases.
Definition caching_get_database database := pass_through (get_database database).
Definition caching_list_databases (prefix : option Namespace) :=
  read_through cp_database_cache cp_with_databases prefix (list_databases prefix).
Definition caching_drop_database database options :=
  write_through (drop_database database options)
    (λ self, forget_views database (forget_tables database (forget_databases self))).
Definition caching_create_table database table options :=
  write_through (create_table database table options) (forget_tables database).
Definition caching_get_table database table := pass_through (get_table database table).
Definition caching_list_tables (database : Namespace) :=
  read_through cp_table_cache cp_with_tables database (list_tables database).
Definition caching_drop_table database table options :=
  write_through (drop_table database table options) (forget_tables database).
Definition caching_alter_table database table options :=
  write_through (alter_table database table options) (forget_tables database).
Definition caching_create_view database view options :=
  write_through (create_view database view options) (forget_views database).
Definition caching_get_view database view := pass_through (get_view database view).
Definition caching_list_views (database : Namespace) :=
  read_through cp_view_cache cp_with_views database (list_views database).
Definition caching_drop_view database view options :=
  write_through (drop_view database view options) (forget_views database).

#[global] Instance caching_provider : CatalogProvider CachingCatalogProvider := {|
  get_name := λ self, get_name (cp_inner self);
  create_database := caching_create_database;
  get_database := caching_get_database;
  list_databases := caching_list_databases;
  drop_database := caching_drop_database;
  create_table := caching_create_table;
  get_table := caching_get_table;
  list_tables := caching_list_tables;
  drop_table := caching_drop_table;
  alter_table := caching_alter_table;
  create_view := caching_create_view;
  get_view := caching_get_view;
  list_views := caching_list_views;
  drop_view := caching_drop_view
|}.

(** [list_tables] on a miss waits twice, for the listing and for the cache: other
    calls may run in between. *)
Definition list_tables_fetch (database : Namespace)
    : CatalogM CachingCatalogProvider (list TableStatus) := pass_through (list_tables database).
Definition list_tables_fill (database : Namespace) (v : list TableStatus) self
    : CachingCatalogProvider :=
  cp_with_tables self ((λ c, cache_insert c database v) <$> cp_table_cache self).

(** Entries are forgotten at any time. *)
Definition cache_forgets self self' : Prop :=
  cp_inner self' = cp_inner self ∧
  cache_evicts (cp_database_cache self) (cp_database_cache self') ∧
  cache_evicts (cp_table_cache self) (cp_table_cache self') ∧
  cache_evicts (cp_view_cache self) (cp_view_cache self').
End caching.
Arguments CachingCatalogProvider {_} S.
