(* ===== verification/CatalogCacheTheorems.v ===== *)
(** * Guarantees of the caching provider

    What a provider must promise for its listings to be cached, that the
    in-memory provider promises it, and what the caching provider promises in
    turn. *)

From Stdlib Require Import Ascii String.
From S2P Require Import Prelude Collections CatalogNames CatalogTypes CatalogProvider CatalogCache.

(** ** Calls *)

Inductive CatalogCall :=
| CallCreateDatabase (n : Namespace) (o : CreateDatabaseOptions)
| CallGetDatabase (n : Namespace)
| CallListDatabases (prefix : option Namespace)
| CallDropDatabase (n : Namespace) (o : DropDatabaseOptions)
| CallCreateTable (n : Namespace) (t : string) (o : CreateTableOptions)
| CallGetTable (n : Namespace) (t : string)
| CallListTables (n : Namespace)
| CallDropTable (n : Namespace) (t : string) (o : DropTableOptions)
| CallAlterTable (n : Namespace) (t : string) (o : AlterTableOptions)
| CallCreateView (n : Namespace) (t : string) (o : CreateViewOptions)
| CallGetView (n : Namespace) (t : string)
| CallListViews (n : Namespace)
| CallDropView (n : Namespace) (t : string) (o : DropViewOptions).

(** A listing. *)
Inductive Listing :=
| ListingDatabases (prefix : option Namespace)
| ListingTables (n : Namespace)
| ListingViews (n : Namespace).
#[global] Instance listing_eq_dec : EqDecision Listing.
Proof. solve_decision. Defined.

Definition listing_call (l : Listing) : CatalogCall :=
  match l with
  | ListingDatabases p => CallListDatabases p
  | ListingTables n => CallListTables n
  | ListingViews n => CallListViews n
  end.

(** The listings a call may change. *)
Definition touches (c : CatalogCall) (l : Listing) : bool :=
  match c, l with
  | CallCreateDatabase _ _, ListingDatabases _ => true
  | CallDropDatabase _ _, ListingDatabases _ => true
  | CallDropDatabase n _, ListingTables m => bool_decide (n = m)
  | CallDropDatabase n _, ListingViews m => bool_decide (n = m)
  | CallCreateTable n _ _, ListingTables m => bool_decide (n = m)
  | CallDropTable n _ _, ListingTables m => bool_decide (n = m)
  | CallAlterTable n _ _, ListingTables m => bool_decide (n = m)
  | CallCreateView n _ _, ListingViews m => bool_decide (n = m)
  | CallDropView n _ _, ListingViews m => bool_decide (n = m)
  | _, _ => false
  end.

Section calls.
Context `{CE : CatalogEngine}.

Inductive CatalogReply :=
| RpDatabase (r : CatalogResult DatabaseStatus)
| RpDatabases (r : CatalogResult (list DatabaseStatus))
| RpTable (r : CatalogResult TableStatus)
| RpTables (r : CatalogResult (list TableStatus))
| RpUnit (r : CatalogResult unit).

Definition reply_ok (r : CatalogReply) : bool :=
  match r with
  | RpDatabase r => is_ok r | RpDatabases r => is_ok r | RpTable r => is_ok r
  | RpTables r => is_ok r | RpUnit r => is_ok r
  end.

Definition reply_of {S A : Type} (f : CatalogResult A → CatalogReply) (r : CatalogResult A * S)
    : CatalogReply * S := (f r.1, r.2).

Definition call {S : Type} `{CP : !CatalogProvider S} (c : CatalogCall) (s : S) : CatalogReply * S :=
  match c with
  | CallCreateDatabase n o => reply_of RpDatabase (create_database n o s)
  | CallGetDatabase n => reply_of RpDatabase (get_database n s)
  | CallListDatabases p => reply_of RpDatabases (list_databases p s)
  | CallDropDatabase n o => reply_of RpUnit (drop_database n o s)
  | CallCreateTable n t o => reply_of RpTable (create_table n t o s)
  | CallGetTable n t => reply_of RpTable (get_table n t s)
  | CallListTables n => reply_of RpTables (list_tables n s)
  | CallDropTable n t o => reply_of RpUnit (drop_table n t o s)
  | CallAlterTable n t o => reply_of RpUnit (alter_table n t o s)
  | CallCreateView n t o => reply_of RpTable (create_view n t o s)
  | CallGetView n t => reply_of RpTable (get_view n t s)
  | CallListViews n => reply_of RpTables (list_views n s)
  | CallDropView n t o => reply_of RpUnit (drop_view n t o s)
  end.

(** ** What a provider promises *)

(** The reply of a listing. *)
Definition listing {S : Type} `{CP : !CatalogProvider S} (l : Listing) (s : S) : CatalogReply :=
  (call (listing_call l) s).1.

(** A listing that succeeded still gives the same. *)
Definition listing_kept {S : Type} `{CP : !CatalogProvider S} (l : Listing) (s s' : S) : Prop :=
  reply_ok (listing l s) = true → listing l s' = listing l s.

(** A call that fails leaves the listings as they were. *)
Definition clean_call {S : Type} `{CP : !CatalogProvider S} (c : CatalogCall) (s : S) : Prop :=
  reply_ok (call c s).1 = false → ∀ l, listing_kept l s (call c s).2.

Class ListingLaws {S : Type} (CP : CatalogProvider S) := {
  listing_pure l s : (call (listing_call l) s).2 = s;
  call_keeps c s l : reply_ok (call c s).1 = true → touches c l = false →
    listing_kept l s (call c s).2
}.
End calls.

(** ** The in-memory provider *)
Section memory.
Context `{CE : CatalogEngine} `{HO : HashOrder}.
Implicit Types (s : MemoryCatalogProvider).

(** Listing the databases depends on their statuses only, and listing the tables
    of a database on these tables. *)
Definition same_databases s s' : Prop :=
  md_status <$> mc_databases s' = md_status <$> mc_databases s.
Definition same_tables (n : Namespace) s s' : Prop :=
  ∀ db, mc_databases s !! n = Some db →
    md_tables <$> mc_databases s' !! n = Some (md_tables db).
Definition same_views (n : Namespace) s s' : Prop :=
  ∀ db, mc_databases s !! n = Some db →
    md_views <$> mc_databases s' !! n = Some (md_views db).

Lemma hash_items_fmap {V W} (f : V → W) (m : gmap Namespace V) :
  hash_items (f <$> m) = prod_map id f <$> hash_items m.
Proof.
  unfold hash_items. rewrite dom_fmap_L. induction (hash_order _) as [|k l IH]; [done|]. simpl.
  rewrite lookup_fmap. destruct (m !! k); simpl; [|apply IH]. f_equal. apply IH.
Qed.

Lemma memory_databases_listed p s :
  listing (ListingDatabases p) s =
    RpDatabases (Ok (snd <$> filter (λ x, database_listed p x.1 = true)
                       (hash_items (md_status <$> mc_databases s)))).
Proof.
  unfold listing. simpl. do 2 f_equal. rewrite hash_items_fmap.
  induction (hash_items _) as [|[n db] l IH]; [done|]. rewrite fmap_cons, !filter_cons.
  cbn [fst prod_map id]. case_decide; [|exact IH]. rewrite !fmap_cons, IH. done.
Qed.

Lemma same_databases_kept p s s' :
  same_databases s s' → listing_kept (ListingDatabases p) s s'.
Proof. intros H _. by rewrite !memory_databases_listed, H. Qed.

Lemma same_tables_kept n s s' : same_tables n s s' → listing_kept (ListingTables n) s s'.
Proof.
  intros H. unfold listing_kept, listing. simpl. unfold memory_list_tables.
  destruct (mc_databases s !! n) as [db|] eqn:Hdb; simpl; [|done]. intros _.
  specialize (H db Hdb). destruct (mc_databases s' !! n) as [db'|]; [|done].
  simpl in *. by injection H as ->.
Qed.

Lemma same_views_kept n s s' : same_views n s s' → listing_kept (ListingViews n) s s'.
Proof.
  intros H. unfold listing_kept, listing. simpl. unfold memory_list_views.
  destruct (mc_databases s !! n) as [db|] eqn:Hdb; simpl; [|done]. intros _.
  specialize (H db Hdb). destruct (mc_databases s' !! n) as [db'|]; [|done].
  simpl in *. by injection H as ->.
Qed.

(** Storing a database with the same status, tables or views. *)
Lemma mc_set_databases s n db db' :
  mc_databases s !! n = Some db → md_status db' = md_status db → same_databases s (mc_set s n db').
Proof.
  intros Hdb Hs. unfold same_databases. simpl. rewrite fmap_insert, Hs, <-fmap_insert.
  by rewrite insert_id.
Qed.
Lemma mc_set_tables s n m db db' :
  mc_databases s !! n = Some db → (n = m → md_tables db' = md_tables db) →
  same_tables m s (mc_set s n db').
Proof.
  intros Hdb Hs db0 H0. simpl. destruct (decide (n = m)) as [->|Hne].
  - rewrite lookup_insert_eq. simplify_eq. simpl. by rewrite Hs.
  - by rewrite lookup_insert_ne, H0.
Qed.
Lemma mc_set_views s n m db db' :
  mc_databases s !! n = Some db → (n = m → md_views db' = md_views db) →
  same_views m s (mc_set s n db').
Proof.
  intros Hdb Hs db0 H0. simpl. destruct (decide (n = m)) as [->|Hne].
  - rewrite lookup_insert_eq. simplify_eq. simpl. by rewrite Hs.
  - by rewrite lookup_insert_ne, H0.
Qed.

Create HintDb listing.
#[local] Hint Resolve same_databases_kept same_tables_kept same_views_kept mc_set_databases
  mc_set_tables mc_set_views : listing.
#[local] Hint Extern 0 (listing_kept _ ?s ?s) => (intros _; reflexivity) : listing.
#[local] Hint Extern 0 (md_status _ = md_status _) => reflexivity : listing.

(** A database is stored with other tables or other views. *)
Lemma set_tables_kept s n db t l :
  mc_databases s !! n = Some db → l ≠ ListingTables n →
  listing_kept l s (mc_set s n (md_with_tables db t)).
Proof.
  intros Hdb Hl. destruct l as [p|m|m]; [eauto with listing| |eauto with listing].
  apply same_tables_kept. eapply mc_set_tables; [done|]. by intros ->.
Qed.
Lemma set_views_kept s n db v l :
  mc_databases s !! n = Some db → l ≠ ListingViews n →
  listing_kept l s (mc_set s n (md_with_views db v)).
Proof.
  intros Hdb Hl. destruct l as [p|m|m]; [eauto with listing|eauto with listing|].
  apply same_views_kept. eapply mc_set_views; [done|]. by intros ->.
Qed.

Lemma memory_listing_pure l s : (call (listing_call l) s).2 = s.
Proof. destruct l; simpl; unfold memory_list_tables, memory_list_views; by repeat case_match. Qed.

(** A call changes at most the listings it touches, whether it fails or not. *)
Lemma memory_call_keeps c s l : touches c l = false → listing_kept l s (call c s).2.
Proof.
  intros Ht. destruct c; simpl;
    try (unfold memory_get_database, memory_get_table, memory_get_view, memory_list_tables,
           memory_list_views; repeat case_match; by eauto with listing).
  - (* create_database *)
    unfold memory_create_database. destruct (mc_databases s !! n) as [db|] eqn:Hdb.
    + by destruct (cd_if_not_exists o); eauto with listing.
    + destruct l as [p|m|m]; [done|apply same_tables_kept|apply same_views_kept];
        intros db Hm; simpl; (rewrite lookup_insert_ne by congruence); by rewrite Hm.
  - (* drop_database *)
    unfold memory_drop_database. destruct (mc_databases s !! n) as [db|] eqn:Hdb.
    + destruct l as [p|m|m]; [done|apply same_tables_kept|apply same_views_kept];
        apply bool_decide_eq_false in Ht; intros db' Hm; simpl;
        (rewrite lookup_delete_ne by done); by rewrite Hm.
    + by destruct (dd_if_exists o); eauto with listing.
  - (* create_table *)
    unfold memory_create_table. destruct (_ && _); [by eauto with listing|].
    destruct (mc_databases s !! n) as [db|] eqn:Hdb; [|by eauto with listing].
    assert (l ≠ ListingTables n) by (intros ->; simpl in Ht; by rewrite bool_decide_true in Ht).
    repeat case_match; simpl; auto using set_tables_kept with listing.
  - (* drop_table *)
    unfold memory_drop_table. destruct (mc_databases s !! n) as [db|] eqn:Hdb.
    + assert (l ≠ ListingTables n) by (intros ->; simpl in Ht; by rewrite bool_decide_true in Ht).
      case_match; by apply set_tables_kept.
    + by destruct (dt_if_exists o); eauto with listing.
  - (* alter_table *)
    unfold memory_alter_table. destruct (mc_databases s !! n) as [db|] eqn:Hdb; [|by eauto with listing].
    assert (l ≠ ListingTables n) by (intros ->; simpl in Ht; by rewrite bool_decide_true in Ht).
    repeat case_match; simpl; auto using set_tables_kept with listing.
  - (* create_view *)
    unfold memory_create_view. destruct (mc_databases s !! n) as [db|] eqn:Hdb; [|by eauto with listing].
    assert (l ≠ ListingViews n) by (intros ->; simpl in Ht; by rewrite bool_decide_true in Ht).
    repeat case_match; simpl; auto using set_views_kept with listing.
  - (* drop_view *)
    unfold memory_drop_view. destruct (mc_databases s !! n) as [db|] eqn:Hdb.
    + assert (l ≠ ListingViews n) by (intros ->; simpl in Ht; by rewrite bool_decide_true in Ht).
      case_match; by apply set_views_kept.
    + by destruct (dv_if_exists o); eauto with listing.
Qed.

#[global] Instance memory_listing_laws : ListingLaws memory_provider.
Proof.
  split; [apply memory_listing_pure|]. intros c s l _ Ht. by apply memory_call_keeps.
Qed.

Definition is_alter (c : CatalogCall) : bool :=
  match c with CallAlterTable _ _ _ => true | _ => false end.

(** A call other than [alter_table] that fails changes nothing. *)
Lemma memory_failure_same c s :
  is_alter c = false → reply_ok (call c s).1 = false → (call c s).2 = s.
Proof.
  intros Ha. destruct c; try discriminate Ha; simpl;
    unfold memory_create_database, memory_get_database, memory_drop_database, memory_create_table,
      memory_get_table, memory_list_tables, memory_drop_table, memory_create_view,
      memory_get_view, memory_list_views, memory_drop_view;
    repeat case_match; simpl; try done; intros _; apply orb_false_iff in H0 as [Hn _];
    apply bool_decide_eq_false in Hn; rewrite <-eq_None_not_Some in Hn;
    rewrite (delete_id _ _ Hn); unfold mc_set; destruct s, m; simpl in *; by rewrite insert_id.
Qed.
End memory.

(** ** The caching provider *)
Section caching.
Context `{CE : CatalogEngine} {S : Type} {CP : CatalogProvider S} `{CL : !ListingLaws CP}.
Notation Caching := (CachingCatalogProvider S).
Implicit Types (p : Caching) (s : S).

(** The reply a cache holds for a listing. *)
Definition cached p (l : Listing) : option CatalogReply :=
  match l with
  | ListingDatabases k => c ← cp_database_cache p; v ← cache_get c k; Some (RpDatabases (Ok v))
  | ListingTables n => c ← cp_table_cache p; v ← cache_get c n; Some (RpTables (Ok v))
  | ListingViews n => c ← cp_view_cache p; v ← cache_get c n; Some (RpTables (Ok v))
  end.

(** Whatever a cache holds is what the inner provider lists. *)
Definition coherent p : Prop :=
  ∀ l r, cached p l = Some r → listing l (cp_inner p) = r.

Lemma cached_ok p l r : cached p l = Some r → reply_ok r = true.
Proof.
  destruct l; simpl; intros (c & _ & (v & _ & [= <-])%bind_Some)%bind_Some; done.
Qed.

(** An entry that is left after entries were forgotten was there before. *)
Definition cached_le p p' : Prop := ∀ l r, cached p' l = Some r → cached p l = Some r.

Lemma evicted_get {K V} `{Countable K} (c c' : option (Cache K V)) k v x x' :
  cache_evicts c c' → c' = Some x' → cache_get x' k = Some v →
  c = Some x → cache_get x k = Some v.
Proof.
  intros He -> Hv ->. simpl in He. unfold cache_get in *. by eapply lookup_weaken.
Qed.

Lemma cache_forgets_le p p' : cache_forgets p p' → cached_le p p'.
Proof.
  intros (_ & Hd & Ht & Hv) l r. destruct l; simpl;
    intros (c & Hc & (v & Hg & [= <-])%bind_Some)%bind_Some.
  - destruct (cp_database_cache p) as [c0|] eqn:H0; [|by rewrite Hc in Hd].
    simpl. erewrite (evicted_get _ _ _ _ c0 c Hd Hc Hg); done.
  - destruct (cp_table_cache p) as [c0|] eqn:H0; [|by rewrite Hc in Ht].
    simpl. erewrite (evicted_get _ _ _ _ c0 c Ht Hc Hg); done.
  - destruct (cp_view_cache p) as [c0|] eqn:H0; [|by rewrite Hc in Hv].
    simpl. erewrite (evicted_get _ _ _ _ c0 c Hv Hc Hg); done.
Qed.

(** Forgetting the listings a call touches. *)
Lemma forget_databases_cached p l r :
  cached (forget_databases p) l = Some r →
  cached p l = Some r ∧ ∀ k, l ≠ ListingDatabases k.
Proof.
  destruct l as [k|n|n]; simpl; [|by split..].
  by destruct (cp_database_cache p); simpl; rewrite ?lookup_empty.
Qed.
Lemma forget_tables_cached p n l r :
  cached (forget_tables n p) l = Some r → cached p l = Some r ∧ l ≠ ListingTables n.
Proof.
  destruct l as [k|m|m]; simpl; [by split| |by split].
  destruct (cp_table_cache p) as [c|]; simpl; [|done]. unfold cache_get, cache_invalidate. simpl.
  destruct (decide (n = m)) as [->|Hne]; [by rewrite lookup_delete_eq|].
  rewrite lookup_delete_ne by done. split; [done|congruence].
Qed.
Lemma forget_views_cached p n l r :
  cached (forget_views n p) l = Some r → cached p l = Some r ∧ l ≠ ListingViews n.
Proof.
  destruct l as [k|m|m]; simpl; [by split|by split|].
  destruct (cp_view_cache p) as [c|]; simpl; [|done]. unfold cache_get, cache_invalidate. simpl.
  destruct (decide (n = m)) as [->|Hne]; [by rewrite lookup_delete_eq|].
  rewrite lookup_delete_ne by done. split; [done|congruence].
Qed.

Definition is_listing (c : CatalogCall) : bool :=
  match c with CallListDatabases _ | CallListTables _ | CallListViews _ => true | _ => false end.

(** What a call that lists nothing does. *)
Definition caching_effect (c : CatalogCall) p (r : CatalogReply * Caching) : Prop :=
  r.1 = (call c (cp_inner p)).1 ∧ cp_inner r.2 = (call c (cp_inner p)).2 ∧
  ∀ l x, cached r.2 l = Some x →
    cached p l = Some x ∧ (reply_ok r.1 = true → touches c l = false).

Lemma write_through_effect {A} c f (inner : CatalogM S A) forget p :
  call c (cp_inner p) = reply_of f (inner (cp_inner p)) →
  (∀ r, reply_ok (f r) = is_ok r) →
  (∀ p, cp_inner (forget p) = cp_inner p) →
  (∀ p l x, cached (forget p) l = Some x → cached p l = Some x ∧ touches c l = false) →
  caching_effect c p (reply_of f (write_through inner forget p)).
Proof.
  intros Hc Hf Hi Hforget. unfold caching_effect. rewrite Hc. unfold write_through, reply_of.
  destruct (inner (cp_inner p)) as [[x|e] s]; simpl; split_and!; rewrite ?Hi; try done.
  - intros l x' [H1 H2]%Hforget. done.
  - intros l x' H1. split; [done|by rewrite Hf].
Qed.

Lemma pass_through_effect {A} c f (inner : CatalogM S A) p :
  call c (cp_inner p) = reply_of f (inner (cp_inner p)) → (∀ l, touches c l = false) →
  caching_effect c p (reply_of f (pass_through inner p)).
Proof.
  intros Hc Ht. unfold caching_effect. rewrite Hc. unfold pass_through, reply_of.
  destruct (inner (cp_inner p)) as [r s]; simpl. by split_and!.
Qed.

Lemma caching_call_effect c p : is_listing c = false → caching_effect c p (call c p).
Proof.
  intros Hl. destruct c; try discriminate Hl; simpl;
    first [by apply pass_through_effect|apply write_through_effect; [done|done|done|]];
    intros p0 l x Hx;
    repeat match goal with
    | H : cached (forget_databases _) _ = Some _ |- _ =>
        apply forget_databases_cached in H as [H ?]
    | H : cached (forget_tables _ _) _ = Some _ |- _ => apply forget_tables_cached in H as [H ?]
    | H : cached (forget_views _ _) _ = Some _ |- _ => apply forget_views_cached in H as [H ?]
    end;
    (split; [done|]); destruct l; simpl; try done;
    try match goal with H : ∀ k, ListingDatabases _ ≠ _ |- _ => by destruct (H _ eq_refl) end;
    apply bool_decide_eq_false; congruence.
Qed.

(** A listing is read from the cache, or from the inner provider and kept. *)
Definition listing_effect (l : Listing) p (r : CatalogReply * Caching) : Prop :=
  match cached p l with
  | Some x => r = (x, p)
  | None =>
      r.1 = listing l (cp_inner p) ∧ cp_inner r.2 = cp_inner p ∧
      ∀ l' x, cached r.2 l' = Some x →
        cached p l' = Some x ∨ (l' = l ∧ x = listing l (cp_inner p))
  end.

Lemma cached_with_inner p s l : cached (cp_with_inner p s) l = cached p l.
Proof. by destruct l. Qed.

Lemma read_through_effect {K A} `{Countable K} (cache : Caching → option (Cache K A)) set
    (mk : K → Listing) f key (inner : CatalogM S A) p :
  (∀ s, call (listing_call (mk key)) s = reply_of f (inner s)) →
  (∀ p k, cached p (mk k) = c ← cache p; v ← cache_get c k; Some (f (Ok v))) →
  (∀ p c, cache (set p c) = c) → (∀ p c, cp_inner (set p c) = cp_inner p) →
  (∀ p c l, (∃ k, l = mk k) ∨ cached (set p c) l = cached p l) →
  listing_effect (mk key) p (reply_of f (read_through cache set key inner p)).
Proof.
  intros Hcall Hcached Hset Hin Hframe.
  pose proof (listing_pure (mk key) (cp_inner p)) as Hpure. unfold listing_effect, listing.
  rewrite Hcall in *. rewrite Hcached. unfold read_through, reply_of, pass_through in *.
  destruct (cache p) as [c|] eqn:Hc; simpl in *; [destruct (cache_get c key) eqn:Hg; simpl; [done|]|];
    destruct (inner (cp_inner p)) as [r s]; simpl in *; subst s; [destruct r as [v|e]|];
    simpl; rewrite ?Hin; (split; [done|]); (split; [done|]); intros l x;
    try (rewrite cached_with_inner; by left).
  destruct (Hframe (cp_with_inner p (cp_inner p)) (Some (cache_insert c key v)) l) as [[k ->]| ->];
    [|rewrite cached_with_inner; by left].
  rewrite !Hcached, Hset, Hc. simpl. unfold cache_get, cache_insert. simpl.
  destruct (decide (key = k)) as [->|Hne].
  - rewrite lookup_insert_eq. simpl. intros [= <-]. by right.
  - rewrite lookup_insert_ne by done. by left.
Qed.

Lemma caching_listing_effect l p : listing_effect l p (call (listing_call l) p).
Proof.
  destruct l as [k|n|n];
    [apply (read_through_effect _ _ ListingDatabases)|apply (read_through_effect _ _ ListingTables)
    |apply (read_through_effect _ _ ListingViews)]; try done;
    intros q c [k'|m|m]; eauto.
Qed.

(** ** Transparency *)

Lemma listing_or_not c : (∃ l, c = listing_call l) ∨ is_listing c = false.
Proof.
  destruct c as [| |k| | | |n| | | | |n|]; try (by right); left;
    [by exists (ListingDatabases k)|by exists (ListingTables n)|by exists (ListingViews n)].
Qed.

Lemma caching_step c p :
  coherent p → clean_call c (cp_inner p) →
  (call c p).1 = (call c (cp_inner p)).1 ∧ cp_inner (call c p).2 = (call c (cp_inner p)).2 ∧
  coherent (call c p).2.
Proof.
  intros Hco Hclean. destruct (listing_or_not c) as [[l ->]|Hl].
  - pose proof (caching_listing_effect l p) as He. unfold listing_effect in He.
    rewrite (listing_pure l (cp_inner p)). destruct (cached p l) as [x|] eqn:Hx.
    + rewrite He. simpl. split_and!; [|done|done]. symmetry. by apply Hco.
    + destruct He as (H1 & H2 & H3). split_and!; [done|done|].
      intros l' x' [Hc|[-> ->]]%H3; rewrite H2; [by apply Hco|done].
  - destruct (caching_call_effect c p Hl) as (H1 & H2 & H3). split_and!; [done|done|].
    intros l x [Hc Ht]%H3. rewrite H2. specialize (Hco l x Hc).
    assert (reply_ok (listing l (cp_inner p)) = true) as Hok
      by (rewrite Hco; by eapply cached_ok).
    rewrite <-Hco. destruct (reply_ok (call c (cp_inner p)).1) eqn:Hr.
    + rewrite H1 in Ht. by apply (call_keeps c (cp_inner p) l Hr (Ht Hr)).
    + by apply (Hclean Hr l).
Qed.

(** Calls on the caching provider with their replies, while entries are
    forgotten. *)
Inductive caching_run : Caching → list (CatalogCall * CatalogReply) → Caching → Prop :=
| CachingDone p : caching_run p [] p
| CachingForget p p' trace p'' :
    cache_forgets p p' → caching_run p' trace p'' → caching_run p trace p''
| CachingCall c p trace p' :
    caching_run (call c p).2 trace p' →
    caching_run p ((c, (call c p).1) :: trace) p'.

(** The same calls on a provider. *)
Fixpoint replies (s : S) (calls : list CatalogCall) : list (CatalogCall * CatalogReply) * S :=
  match calls with
  | [] => ([], s)
  | c :: calls =>
      let '(r, s) := call c s in
      let '(rs, s) := replies s calls in ((c, r) :: rs, s)
  end.

(** None of the calls on a provider fails after it has changed a listing. *)
Fixpoint clean_calls (s : S) (calls : list CatalogCall) : Prop :=
  match calls with
  | [] => True
  | c :: calls => clean_call c s ∧ clean_calls (call c s).2 calls
  end.

Lemma caching_new_coherent s config : coherent (caching_new s config None).
Proof.
  intros l r. destruct l; simpl;
    [destruct (cfg_database_cache_type config)|destruct (cfg_table_cache_type config)
    |destruct (cfg_view_cache_type config)]; simpl; try done; by rewrite lookup_empty.
Qed.

End caching.

(** ** Concurrent listings *)
Section concurrent.
Context `{CE : CatalogEngine} `{HO : HashOrder}.
Notation Caching := (CachingCatalogProvider MemoryCatalogProvider).

(** Without other calls in between the two halves are the listing. *)
Lemma list_tables_halves (p : Caching) n c v p' :
  cp_table_cache p = Some c → cache_get c n = None →
  list_tables_fetch n p = (Ok v, p') →
  caching_list_tables n p = (Ok v, list_tables_fill n v p').
Proof.
  intros Hc Hg. unfold list_tables_fetch, list_tables_fill, caching_list_tables, read_through,
    pass_through. rewrite Hc, Hg. destruct (list_tables n (cp_inner p)) as [r s].
  intros [= -> <-]. simpl. by rewrite Hc.
Qed.

(** A listing that is fetched while a table is created can overwrite the
    invalidation: when the session that creates a table invalidates the cache
    between the two halves of another session's listing, the old listing
    enters the cache afterwards, and every later listing is without the table
    although the table exists. *)
Theorem concurrent_listing_stale (p : Caching) n t o c db v p1 :
  cp_table_cache p = Some c → cache_get c n = None →
  mc_databases (cp_inner p) !! n = Some db → md_tables db !! t = None →
  ct_partition_by o = [] →
  list_tables_fetch n p = (Ok v, p1) →
  let p2 := (caching_create_table n t o p1).2 in
  let p3 := list_tables_fill n v p2 in
  let st := new_table (mc_name (cp_inner p)) n t o in
  (caching_create_table n t o p1).1 = Ok st ∧
  (caching_get_table n t p3).1 = Ok st ∧
  caching_list_tables n p3 = (Ok v, p3) ∧
  ∀ x, x ∈ v → ∃ t', t' ≠ t ∧ md_tables db !! t' = Some x.
Proof.
  intros Hc Hg Hdb Ht Ho Hf. unfold list_tables_fetch, pass_through in Hf. simpl in Hf.
  unfold memory_list_tables in Hf. rewrite Hdb in Hf. injection Hf as <- <-.
  unfold caching_create_table, write_through. simpl. unfold memory_create_table.
  rewrite Ho, andb_false_r, Hdb, Ht. simpl. split_and!; [done| | |].
  - unfold caching_get_table, pass_through. simpl. unfold memory_get_table. simpl.
    rewrite lookup_insert_eq. simpl. by rewrite lookup_insert_eq.
  - unfold caching_list_tables, read_through, list_tables_fill. simpl. rewrite Hc. simpl.
    unfold cache_get. simpl. by rewrite lookup_insert_eq.
  - intros x [t' Ht']%map_values_elem. exists t'. split; [congruence|done].
Qed.
End concurrent.
