(* ===== verification/CatalogTheorems.v ===== *)
(** * Guarantees of the in-memory catalog

    The statuses it stores are named after where they are stored, and it
    implements a catalog of three flat tables: databases by namespace, tables
    and views by namespace and name.  What the calls on the flat catalog reply
    and do is stated without the functions of the code. *)

From Stdlib Require Import Ascii String.
From S2P Require Import Prelude Collections CatalogNames CatalogTypes CatalogProvider CatalogTypesTheorems CatalogCache CatalogCacheTheorems.

Section theorems.
Context `{CE : CatalogEngine} `{HO : HashOrder}.
Implicit Types (s : MemoryCatalogProvider).

(** ** Stored statuses *)

Definition named (catalog : string) (n : Namespace) (t : string) (st : TableStatus) : Prop :=
  tst_catalog st = Some catalog ∧ tst_database st = namespace_parts n ∧ tst_name st = t.
Definition is_table (k : TableKind) : bool := match k with KindTable _ => true | _ => false end.
Definition is_view (k : TableKind) : bool := match k with KindView _ _ _ _ => true | _ => false end.

Record database_typed (catalog : string) (n : Namespace) (db : MemoryDatabase) : Prop := {
  dbt_catalog : ds_catalog (md_status db) = catalog;
  dbt_database : ds_database (md_status db) = namespace_parts n;
  dbt_tables : ∀ t st, md_tables db !! t = Some st →
    named catalog n t st ∧ is_table (tst_kind st) = true;
  dbt_views : ∀ t st, md_views db !! t = Some st →
    named catalog n t st ∧ is_view (tst_kind st) = true
}.

Definition memory_typed s : Prop :=
  ∀ n db, mc_databases s !! n = Some db → database_typed (mc_name s) n db.

Lemma memory_typed_set s n db :
  memory_typed s → database_typed (mc_name s) n db → memory_typed (mc_set s n db).
Proof.
  intros Hs Hdb n' db'. simpl. destruct (decide (n = n')) as [<-|Hne].
  - rewrite lookup_insert_eq. by intros [= <-].
  - rewrite lookup_insert_ne by done. apply Hs.
Qed.

Lemma typed_tables c n db t st :
  database_typed c n db → named c n t st → is_table (tst_kind st) = true →
  database_typed c n (md_with_tables db (<[t := st]> (md_tables db))).
Proof.
  intros [H1 H2 H3 H4] Hn Hk. split; try done. intros t' st'. simpl.
  destruct (decide (t = t')) as [<-|Hne]; [rewrite lookup_insert_eq; by intros [= <-]|].
  rewrite lookup_insert_ne by done. apply H3.
Qed.
Lemma typed_views c n db t st :
  database_typed c n db → named c n t st → is_view (tst_kind st) = true →
  database_typed c n (md_with_views db (<[t := st]> (md_views db))).
Proof.
  intros [H1 H2 H3 H4] Hn Hk. split; try done. intros t' st'. simpl.
  destruct (decide (t = t')) as [<-|Hne]; [rewrite lookup_insert_eq; by intros [= <-]|].
  rewrite lookup_insert_ne by done. apply H4.
Qed.
Lemma typed_delete_table c n db t :
  database_typed c n db → database_typed c n (md_with_tables db (delete t (md_tables db))).
Proof. intros [H1 H2 H3 H4]. split; try done. intros t' st'. simpl. intros [_ H]%lookup_delete_Some. by apply H3. Qed.
Lemma typed_delete_view c n db t :
  database_typed c n db → database_typed c n (md_with_views db (delete t (md_views db))).
Proof. intros [H1 H2 H3 H4]. split; try done. intros t' st'. simpl. intros [_ H]%lookup_delete_Some. by apply H4. Qed.

Create HintDb catalog.
#[local] Hint Resolve memory_typed_set typed_tables typed_views typed_delete_table
  typed_delete_view : catalog.
#[local] Hint Extern 0 (named _ _ _ _) => by split_and! : catalog.
#[local] Hint Extern 0 (_ = true) => reflexivity : catalog.

Lemma memory_typed_call c s : memory_typed s → memory_typed (call c s).2.
Proof.
  intros Hs. destruct c; simpl;
    unfold memory_create_database, memory_get_database, memory_drop_database, memory_create_table,
      memory_get_table, memory_list_tables, memory_drop_table, memory_alter_table,
      memory_create_view, memory_get_view, memory_list_views, memory_drop_view;
    try (by repeat case_match).
  - destruct (mc_databases s !! n) eqn:Hdb; [by case_match|]. by apply memory_typed_set.
  - destruct (mc_databases s !! n) eqn:Hdb; [|by case_match]. intros n' db'. simpl.
    intros [_ H]%lookup_delete_Some. by apply Hs.
  - destruct (_ && _); [done|]. destruct (mc_databases s !! n) as [db|] eqn:Hdb; [|done].
    specialize (Hs n db Hdb) as Hdt. destruct (md_tables db !! t) eqn:Ht.
    + destruct (ct_if_not_exists o); [done|]. destruct (ct_replace o); [|done]. simpl.
      rewrite insert_delete_eq. auto with catalog.
    + simpl. auto with catalog.
  - destruct (mc_databases s !! n) as [db|] eqn:Hdb; [|by case_match].
    specialize (Hs n db Hdb) as Hdt. case_match; simpl; auto with catalog.
  - destruct (mc_databases s !! n) as [db|] eqn:Hdb; [|done].
    specialize (Hs n db Hdb) as Hdt. destruct (md_tables db !! t) as [st|] eqn:Ht; [|done].
    destruct (dbt_tables _ _ _ Hdt t st Ht) as [Hn Hk]. destruct (tst_kind st) as [i| | |]; try done.
    destruct (alter_info t o i) as [r i']. simpl. auto with catalog.
  - destruct (mc_databases s !! n) as [db|] eqn:Hdb; [|done].
    specialize (Hs n db Hdb) as Hdt. destruct (md_views db !! t) eqn:Ht.
    + destruct (cv_if_not_exists o); [done|]. destruct (cv_replace o); [|done]. simpl.
      rewrite insert_delete_eq. auto with catalog.
    + simpl. auto with catalog.
  - destruct (mc_databases s !! n) as [db|] eqn:Hdb; [|by case_match].
    specialize (Hs n db Hdb) as Hdt. case_match; simpl; auto with catalog.
Qed.

Lemma memory_typed_new name n comment : memory_typed (memory_new name n comment).
Proof.
  intros n' db. simpl. intros [<- <-]%lookup_singleton_Some. split; try done;
    intros t st; simpl; by rewrite lookup_empty.
Qed.

(** The catalogs that calls lead to from a new one. *)
Inductive memory_reachable (name : string) : MemoryCatalogProvider → Prop :=
| MemoryNew n comment : memory_reachable name (memory_new name n comment)
| MemoryCall s c : memory_reachable name s → memory_reachable name (call c s).2.

Lemma call_name c s : mc_name (call c s).2 = mc_name s.
Proof.
  destruct c; simpl;
    unfold memory_create_database, memory_get_database, memory_drop_database, memory_create_table,
      memory_get_table, memory_list_tables, memory_drop_table, memory_alter_table,
      memory_create_view, memory_get_view, memory_list_views, memory_drop_view;
    by repeat case_match.
Qed.

Lemma reachable_typed name s : memory_reachable name s → memory_typed s ∧ mc_name s = name.
Proof.
  induction 1 as [n comment|s c _ [IH1 IH2]]; [by split; [apply memory_typed_new|]|].
  split; [by apply memory_typed_call|]. by rewrite call_name.
Qed.

(** The errors of an alteration. *)
Lemma remove_each_error {A} (name : A → string) missing keys if_exists (items : list A) e items' :
  remove_each name missing keys if_exists items = (Err e, items') → ∃ key, e = missing key.
Proof.
  revert items. induction keys as [|key keys IH]; intros items; simpl; [done|].
  destruct (_ && _); [intros [= <- _]; eauto|apply IH].
Qed.

Lemma update_first_pure {A E} (p : A → bool) (f : A → A) (l : list A) e :
  update_first (E:=E) p (λ x, Ok (f x)) l ≠ Some (Err e).
Proof.
  induction l as [|x l IH]; simpl; [done|]. destruct (p x); [done|].
  destruct (update_first _ _ l) as [[l'|e']|]; simpl; [done| |done]. intros [= ->]. by apply IH.
Qed.

Lemma alter_info_error t o i i' :
  alter_info t o i ≠ (Err (CeNotSupported "ALTER TABLE is not supported for views"), i').
Proof.
  destruct o; simpl; repeat case_match; try done; intros [= -> _];
    match goal with
    | H : remove_each _ _ _ _ _ = _ |- _ => by destruct (remove_each_error _ _ _ _ _ _ _ H)
    | H : update_first _ _ _ = Some (Err _) |- _ => by apply update_first_pure in H
    end.
Qed.

(** The namespaces directly in a namespace, or at the top. *)
Definition directly_in (prefix : option Namespace) (n : Namespace) : Prop :=
  ∃ x, namespace_parts n = from_option namespace_parts [] prefix ++ [x].

Lemma zip_all_eq_prefix l k : length l = length k + 1 → zip_all_eq l k = true ↔ ∃ x, l = k ++ [x].
Proof.
  revert k. induction l as [|a l IH]; intros [|b k]; simpl; intros Hl; try lia.
  - destruct l; [|simpl in Hl; lia]. split; [by exists a|done].
  - rewrite andb_true_iff, bool_decide_eq_true, IH by lia. naive_solver.
Qed.
Lemma database_listed_iff p n : database_listed p n = true ↔ directly_in p n.
Proof.
  unfold directly_in, namespace_parts. destruct p as [[h t]|], n as [h' t']; simpl.
  - unfold is_parent_of, is_child_of. simpl. rewrite !andb_true_iff, !bool_decide_eq_true. split.
    + intros [[-> Hl] [x ->]%zip_all_eq_prefix]; [|done]. by exists x.
    + intros [x [= -> ->]]. rewrite length_app. split; [done|].
      apply zip_all_eq_prefix; [by rewrite length_app|eauto].
  - rewrite bool_decide_eq_true. naive_solver.
Qed.

(** What a reply says of itself: the databases, tables and views in it are named
    after what was asked for. *)
Definition database_named (catalog : string) (n : Namespace) (d : DatabaseStatus) : Prop :=
  ds_catalog d = catalog ∧ ds_database d = namespace_parts n.
Definition table_named (catalog : string) (n : Namespace) (t : string) (st : TableStatus) : Prop :=
  named catalog n t st ∧ is_table (tst_kind st) = true.
Definition view_named (catalog : string) (n : Namespace) (t : string) (st : TableStatus) : Prop :=
  named catalog n t st ∧ is_view (tst_kind st) = true.
Definition reply_typed (catalog : string) (c : CatalogCall) (r : CatalogReply) : Prop :=
  match c, r with
  | CallCreateDatabase n _, RpDatabase (Ok d) => database_named catalog n d
  | CallGetDatabase n, RpDatabase (Ok d) => database_named catalog n d
  | CallListDatabases p, RpDatabases (Ok l) => ∀ d, d ∈ l →
      ∃ n, directly_in p n ∧ database_named catalog n d
  | CallCreateTable n t _, RpTable (Ok st) => table_named catalog n t st
  | CallGetTable n t, RpTable (Ok st) => table_named catalog n t st
  | CallListTables n, RpTables (Ok l) => ∀ st, st ∈ l → ∃ t, table_named catalog n t st
  | CallAlterTable _ _ _, RpUnit (Err e) =>
      e ≠ CeNotSupported "ALTER TABLE is not supported for views"
  | CallCreateView n t _, RpTable (Ok st) => view_named catalog n t st
  | CallGetView n t, RpTable (Ok st) => view_named catalog n t st
  | CallListViews n, RpTables (Ok l) => ∀ st, st ∈ l → ∃ t, view_named catalog n t st
  | _, _ => True
  end.

Section replies.
Context (s : MemoryCatalogProvider) (Hs : memory_typed s).

Lemma database_status_typed n db : mc_databases s !! n = Some db → database_named (mc_name s) n (md_status db).
Proof. intros Hdb. by destruct (Hs n db Hdb). Qed.
Lemma table_status_typed n db t st :
  mc_databases s !! n = Some db → md_tables db !! t = Some st → table_named (mc_name s) n t st.
Proof. intros Hdb Hst. by apply (dbt_tables _ _ _ (Hs n db Hdb)). Qed.
Lemma view_status_typed n db t st :
  mc_databases s !! n = Some db → md_views db !! t = Some st → view_named (mc_name s) n t st.
Proof. intros Hdb Hst. by apply (dbt_views _ _ _ (Hs n db Hdb)). Qed.

Lemma database_reply_typed c :
  match c with
  | CallCreateDatabase _ _ | CallGetDatabase _ | CallListDatabases _ =>
      reply_typed (mc_name s) c (call c s).1
  | _ => True
  end.
Proof.
  destruct c; try done; simpl.
  - unfold memory_create_database. destruct (mc_databases s !! n) eqn:Hdb; [|done].
    destruct (cd_if_not_exists o); [|done]. by apply database_status_typed.
  - unfold memory_get_database. destruct (mc_databases s !! n) eqn:Hdb; [|done].
    by apply database_status_typed.
  - intros d ([n db] & -> & [Hl Hdb%hash_items_elem]%list_elem_of_filter)%list_elem_of_fmap.
    exists n. split; [by apply database_listed_iff|]. by apply database_status_typed.
Qed.
Lemma table_reply_typed c :
  match c with
  | CallCreateTable _ _ _ | CallGetTable _ _ | CallListTables _ | CallAlterTable _ _ _ =>
      reply_typed (mc_name s) c (call c s).1
  | _ => True
  end.
Proof.
  destruct c; try done; simpl.
  - unfold memory_create_table. destruct (_ && _); [done|].
    destruct (mc_databases s !! n) as [db|] eqn:Hdb; [|done].
    destruct (md_tables db !! t) eqn:Ht; [|done].
    destruct (ct_if_not_exists o); [by eapply table_status_typed|]. by destruct (ct_replace o).
  - unfold memory_get_table. destruct (_ ≫= _) as [st|] eqn:Hb; [|done].
    apply bind_Some in Hb as (db & Hdb & Hst). by eapply table_status_typed.
  - unfold memory_list_tables. destruct (mc_databases s !! n) as [db|] eqn:Hdb; [|done].
    intros st [t Hst]%map_values_elem. eauto using table_status_typed.
  - unfold memory_alter_table. destruct (mc_databases s !! n) as [db|] eqn:Hdb; [|done].
    destruct (md_tables db !! t) as [st|] eqn:Hst; [|done].
    destruct (table_status_typed _ _ _ _ Hdb Hst) as [_ Hk].
    destruct (tst_kind st) as [i| | |]; try done.
    destruct (alter_info t o i) as [[|e] i'] eqn:Ha; [done|]. simpl. intros ->.
    by eapply alter_info_error.
Qed.
Lemma view_reply_typed c :
  match c with
  | CallCreateView _ _ _ | CallGetView _ _ | CallListViews _ =>
      reply_typed (mc_name s) c (call c s).1
  | _ => True
  end.
Proof.
  destruct c; try done; simpl.
  - unfold memory_create_view. destruct (mc_databases s !! n) as [db|] eqn:Hdb; [|done].
    destruct (md_views db !! t) eqn:Ht; [|done].
    destruct (cv_if_not_exists o); [by eapply view_status_typed|]. by destruct (cv_replace o).
  - unfold memory_get_view. destruct (_ ≫= _) as [st|] eqn:Hb; [|done].
    apply bind_Some in Hb as (db & Hdb & Hst). by eapply view_status_typed.
  - unfold memory_list_views. destruct (mc_databases s !! n) as [db|] eqn:Hdb; [|done].
    intros st [t Hst]%map_values_elem. eauto using view_status_typed.
Qed.
End replies.

End theorems.

(** ** A catalog of flat tables *)
Section refinement.
Context `{CE : CatalogEngine} `{HO : HashOrder}.
Implicit Types (s : MemoryCatalogProvider).

Notation Objects := (gmap (Namespace * string) TableStatus).

Record CatalogSpec := MkCatalogSpec {
  sp_name : string;
  sp_databases : gmap Namespace DatabaseStatus;
  sp_tables : Objects;
  sp_views : Objects
}.
Implicit Types (a : CatalogSpec).

(** The objects of a namespace, in any order, and the others. *)
Definition objects_in (n : Namespace) (o : Objects) (l : list TableStatus) : Prop :=
  l ≡ₚ (map_to_list (filter (λ x, x.1.1 = n) o)).*2.
Definition objects_outside (n : Namespace) (o : Objects) : Objects := filter (λ x, x.1.1 ≠ n) o.

Definition spec_exists a (n : Namespace) : bool := bool_decide (is_Some (sp_databases a !! n)).

(** Names that are the same but for the case of letters. *)
Definition same_name (x y : string) : Prop := to_ascii_lowercase x = to_ascii_lowercase y.

(** The status of a table, or of a view, that is made from options. *)
Record made_table (catalog : string) (n : Namespace) (t : string) (o : CreateTableOptions)
    (st : TableStatus) (i : TableInfo) : Prop := {
  mt_named : named catalog n t st;
  mt_kind : tst_kind st = KindTable i;
  mt_columns : Forall2 (λ x, made_column x
      (∃ f, f ∈ ct_partition_by o ∧ same_name (pf_column f) (cc_name x))
      (∃ b c, ct_bucket_by o = Some b ∧ c ∈ bb_columns b ∧ same_name c (cc_name x)))
    (ct_columns o) (ti_columns i);
  mt_comment : ti_comment i = ct_comment o;
  mt_constraints : ti_constraints i = ct_constraints o;
  mt_location : ti_location i = ct_location o;
  mt_format : ti_format i = ct_format o;
  mt_partition_by : ti_partition_by i = ct_partition_by o;
  mt_sort_by : ti_sort_by i = ct_sort_by o;
  mt_bucket_by : ti_bucket_by i = ct_bucket_by o;
  mt_properties : ti_properties i = ct_properties o;
  mt_is_external : ti_is_external i = ct_is_external o
}.
Record made_view_column (x : CreateViewColumnOptions) (c : TableColumnStatus) : Prop := {
  mv_column_name : co_name c = cvc_name x;
  mv_column_type : co_data_type c = cvc_data_type x;
  mv_column_nullable : co_nullable c = cvc_nullable x;
  mv_column_comment : co_comment c = cvc_comment x;
  mv_column_values : co_default c = None ∧ co_generated_always_as c = None;
  mv_column_layout : co_is_partition c = false ∧ co_is_bucket c = false ∧ co_is_cluster c = false
}.
Record made_view (catalog : string) (n : Namespace) (t : string) (o : CreateViewOptions)
    (st : TableStatus) : Prop := {
  mv_named : named catalog n t st;
  mv_kind : ∃ columns, Forall2 made_view_column (cv_columns o) columns ∧
    tst_kind st = KindView (cv_definition o) columns (cv_comment o) (cv_properties o)
}.

(** Tables that are not Iceberg tables are not partitioned by transforms. *)
Definition transform_refused (o : CreateTableOptions) : Prop :=
  ¬ same_name (ct_format o) "iceberg" ∧
  ∃ f, f ∈ ct_partition_by o ∧ is_Some (pf_transform f).

(** Creating an object under a key. *)
Definition spec_create (exists_ if_not_exists replace : bool) (kind : CatalogObject)
    (key : Namespace * string) (made : TableStatus → Prop) (o : Objects)
    (database_error : CatalogError) (r : CatalogResult TableStatus) (o' : Objects) : Prop :=
  let created := ∃ new, made new ∧ r = Ok new ∧ o' = <[key := new]> o in
  if exists_ then
    match o !! key with
    | Some st =>
        if if_not_exists then r = Ok st ∧ o' = o
        else if replace then created
        else r = Err (CeAlreadyExists kind key.2) ∧ o' = o
    | None => created
    end
  else r = Err database_error ∧ o' = o.

(** Dropping the object under a key. *)
Definition spec_drop (exists_ if_exists : bool) (kind : CatalogObject) (key : Namespace * string)
    (o : Objects) (database_error : CatalogError) (r : CatalogResult unit) (o' : Objects) : Prop :=
  o' = delete key o ∧
  r = if if_exists then Ok tt
      else if exists_ then
        match o !! key with Some _ => Ok tt | None => Err (CeNotFound kind key.2) end
      else Err database_error.

Definition spec_get (kind : CatalogObject) (key : Namespace * string) (o : Objects)
    : CatalogResult TableStatus :=
  match o !! key with Some st => Ok st | None => Err (CeNotFound kind key.2) end.

(** A call with its reply. *)
Definition spec_step (c : CatalogCall) a (r : CatalogReply) a' : Prop :=
  let tables_only o := a' = MkCatalogSpec (sp_name a) (sp_databases a) o (sp_views a) in
  let views_only o := a' = MkCatalogSpec (sp_name a) (sp_databases a) (sp_tables a) o in
  match c with
  | CallCreateDatabase n o =>
      match sp_databases a !! n with
      | Some st =>
          a' = a ∧ r = RpDatabase (if cd_if_not_exists o then Ok st
                         else Err (CeAlreadyExists ObjDatabase (quote_namespace_if_needed n)))
      | None => ∃ st,
          database_named (sp_name a) n st ∧ ds_comment st = cd_comment o ∧
          ds_location st = cd_location o ∧ ds_properties st = cd_properties o ∧
          a' = MkCatalogSpec (sp_name a) (<[n := st]> (sp_databases a)) (sp_tables a) (sp_views a) ∧
          r = RpDatabase (Ok st)
      end
  | CallGetDatabase n =>
      a' = a ∧ r = RpDatabase (match sp_databases a !! n with
                               | Some st => Ok st | None => Err (database_not_found n) end)
  | CallListDatabases p =>
      a' = a ∧ ∃ l, r = RpDatabases (Ok l.*2) ∧ NoDup l.*1 ∧
        ∀ n st, (n, st) ∈ l ↔ sp_databases a !! n = Some st ∧ directly_in p n
  | CallDropDatabase n o =>
      a' = MkCatalogSpec (sp_name a) (delete n (sp_databases a)) (objects_outside n (sp_tables a))
             (objects_outside n (sp_views a)) ∧
      r = RpUnit (if spec_exists a n || dd_if_exists o then Ok tt else Err (database_not_found n))
  | CallCreateTable n t o =>
      (transform_refused o ∧ a' = a ∧ r = RpTable (Err (CeNotSupported
         "partition transforms are not supported by memory catalog"))) ∨
      (¬ transform_refused o ∧ ∃ x tables, r = RpTable x ∧ tables_only tables ∧
        spec_create (spec_exists a n) (ct_if_not_exists o) (ct_replace o) ObjTable (n, t)
          (λ st, ∃ i, made_table (sp_name a) n t o st i) (sp_tables a) (database_not_found n)
          x tables)
  | CallGetTable n t => a' = a ∧ r = RpTable (spec_get ObjTable (n, t) (sp_tables a))
  | CallListTables n =>
      a' = a ∧ if spec_exists a n then ∃ l, r = RpTables (Ok l) ∧ objects_in n (sp_tables a) l
               else r = RpTables (Err (database_not_found n))
  | CallDropTable n t o => ∃ x tables, r = RpUnit x ∧ tables_only tables ∧
      spec_drop (spec_exists a n) (dt_if_exists o) ObjTable (n, t) (sp_tables a)
        (database_not_found n) x tables
  | CallAlterTable n t o =>
      if spec_exists a n then
        match sp_tables a !! (n, t) with
        | None => a' = a ∧ r = RpUnit (Err (CeNotFound ObjTable t))
        | Some st =>
            ∃ i x i', tst_kind st = KindTable i ∧ spec_alter t o i x i' ∧ r = RpUnit x ∧
              tables_only (<[(n, t) := MkTableStatus (tst_catalog st) (tst_database st) (tst_name st)
                               (KindTable i')]> (sp_tables a))
        end
      else a' = a ∧ r = RpUnit (Err (database_not_found n))
  | CallCreateView n t o => ∃ x views, r = RpTable x ∧ views_only views ∧
      spec_create (spec_exists a n) (cv_if_not_exists o) (cv_replace o) ObjView (n, t)
        (made_view (sp_name a) n t o) (sp_views a) (database_not_found n) x views
  | CallGetView n t => a' = a ∧ r = RpTable (spec_get ObjView (n, t) (sp_views a))
  | CallListViews n =>
      a' = a ∧ if spec_exists a n then ∃ l, r = RpTables (Ok l) ∧ objects_in n (sp_views a) l
               else r = RpTables (Err (database_not_found n))
  | CallDropView n t o => ∃ x views, r = RpUnit x ∧ views_only views ∧
      spec_drop (spec_exists a n) (dv_if_exists o) ObjView (n, t) (sp_views a)
        (database_not_found n) x views
  end.

(** ** The nested maps stand for the flat tables *)

Definition flat (f : MemoryDatabase → gmap string TableStatus) s (o : Objects) : Prop :=
  ∀ n t, o !! (n, t) = mc_databases s !! n ≫= λ db, f db !! t.

Record represents s a : Prop := {
  rep_name : sp_name a = mc_name s;
  rep_databases : sp_databases a = md_status <$> mc_databases s;
  rep_tables : flat md_tables s (sp_tables a);
  rep_views : flat md_views s (sp_views a)
}.

Lemma spec_exists_eq s a n :
  represents s a → spec_exists a n = bool_decide (is_Some (mc_databases s !! n)).
Proof.
  intros H. unfold spec_exists. rewrite (rep_databases _ _ H), lookup_fmap.
  apply bool_decide_ext. apply fmap_is_Some.
Qed.

Lemma flat_objects f s o n db :
  flat f s o → mc_databases s !! n = Some db → objects_in n o (map_values (f db)).
Proof.
  intros Hf Hdb. unfold objects_in, map_values. rewrite hash_items_perm.
  assert (map_to_list (filter (λ x, x.1.1 = n) o) ≡ₚ prod_map (pair n) id <$> map_to_list (f db)) as ->.
  { apply NoDup_Permutation.
    - apply NoDup_map_to_list.
    - apply (NoDup_fmap_2 _), NoDup_map_to_list.
    - intros [[n' t] st]. rewrite elem_of_map_to_list, map_lookup_filter_Some, list_elem_of_fmap.
      rewrite Hf. split.
      + intros [Hl Heq]. simpl in Heq. subst n'. rewrite Hdb in Hl. simpl in Hl. exists (t, st).
        by rewrite elem_of_map_to_list.
      + intros ([t' st'] & [= -> -> ->] & H%elem_of_map_to_list). by rewrite Hdb. }
  by rewrite <-list_fmap_compose.
Qed.

(** Changing the tables, or the views, of one database. *)
Definition changed_in (n : Namespace) (m : gmap string TableStatus) (o o' : Objects) : Prop :=
  (∀ t, o' !! (n, t) = m !! t) ∧ ∀ n' t, n' ≠ n → o' !! (n', t) = o !! (n', t).

Lemma changed_insert f s o n db t st :
  flat f s o → mc_databases s !! n = Some db →
  changed_in n (<[t := st]> (f db)) o (<[(n, t) := st]> o).
Proof.
  intros Hf Hdb. split.
  - intros t'. destruct (decide (t = t')) as [->|Hne]; [by rewrite !lookup_insert_eq|].
    rewrite !lookup_insert_ne by congruence. by rewrite Hf, Hdb.
  - intros n' t' Hne. by rewrite lookup_insert_ne by congruence.
Qed.
Lemma changed_delete f s o n db t :
  flat f s o → mc_databases s !! n = Some db →
  changed_in n (delete t (f db)) o (delete (n, t) o).
Proof.
  intros Hf Hdb. split.
  - intros t'. destruct (decide (t = t')) as [->|Hne]; [by rewrite !lookup_delete_eq|].
    rewrite !lookup_delete_ne by congruence. by rewrite Hf, Hdb.
  - intros n' t' Hne. by rewrite lookup_delete_ne by congruence.
Qed.

Lemma flat_changed f s o n db m o' :
  flat f s o → f db = m → changed_in n m o o' → flat f (mc_set s n db) o'.
Proof.
  intros Hf <- [H1 H2] n' t. simpl. destruct (decide (n = n')) as [<-|Hne].
  - by rewrite lookup_insert_eq.
  - rewrite lookup_insert_ne, H2 by done. apply Hf.
Qed.
Lemma flat_same f s o n db db' :
  flat f s o → mc_databases s !! n = Some db → f db' = f db → flat f (mc_set s n db') o.
Proof.
  intros Hf Hdb Heq n' t. simpl. destruct (decide (n = n')) as [<-|Hne].
  - by rewrite lookup_insert_eq, Hf, Hdb; simpl; rewrite Heq.
  - by rewrite lookup_insert_ne.
Qed.

Lemma represents_tables s a n db m o' :
  represents s a → mc_databases s !! n = Some db → changed_in n m (sp_tables a) o' →
  represents (mc_set s n (md_with_tables db m))
    (MkCatalogSpec (sp_name a) (sp_databases a) o' (sp_views a)).
Proof.
  intros [H1 H2 H3 H4] Hdb Hc. split; simpl.
  - done.
  - rewrite H2. symmetry. by eapply mc_set_databases.
  - by eapply flat_changed.
  - by eapply flat_same.
Qed.
Lemma represents_views s a n db m o' :
  represents s a → mc_databases s !! n = Some db → changed_in n m (sp_views a) o' →
  represents (mc_set s n (md_with_views db m))
    (MkCatalogSpec (sp_name a) (sp_databases a) (sp_tables a) o').
Proof.
  intros [H1 H2 H3 H4] Hdb Hc. split; simpl.
  - done.
  - rewrite H2. symmetry. by eapply mc_set_databases.
  - by eapply flat_same.
  - by eapply flat_changed.
Qed.

Lemma flat_delete f s o n :
  flat f s o →
  flat f (MkMemoryCatalogProvider (mc_name s) (delete n (mc_databases s))) (objects_outside n o).
Proof.
  intros Hf n' t. simpl. unfold objects_outside. destruct (decide (n = n')) as [<-|Hne].
  - rewrite lookup_delete_eq. simpl. apply map_lookup_filter_None. right. intros st _. simpl. tauto.
  - rewrite lookup_delete_ne, <-Hf by done.
    destruct (o !! (n', t)) eqn:Ho; [by apply map_lookup_filter_Some|].
    apply map_lookup_filter_None. by left.
Qed.

Lemma represents_eta a :
  MkCatalogSpec (sp_name a) (sp_databases a) (sp_tables a) (sp_views a) = a.
Proof. by destruct a. Qed.

(** The databases that are listed. *)
Definition listed_databases (p : option Namespace) (m : gmap Namespace MemoryDatabase)
    : list (Namespace * DatabaseStatus) :=
  prod_map id md_status <$> filter (λ x, database_listed p x.1 = true) (hash_items m).
Lemma listed_databases_spec p m :
  (λ x : Namespace * MemoryDatabase, md_status x.2) <$>
    filter (λ x, database_listed p x.1 = true) (hash_items m) = (listed_databases p m).*2 ∧
  NoDup (listed_databases p m).*1 ∧
  ∀ n st, (n, st) ∈ listed_databases p m ↔ (md_status <$> m) !! n = Some st ∧ directly_in p n.
Proof.
  unfold listed_databases. rewrite <-!list_fmap_compose. split_and!; [done| |].
  - eapply sublist_NoDup; [apply (hash_items_nodup m)|]. apply fmap_sublist, sublist_filter.
  - intros n st. rewrite lookup_fmap, fmap_Some, list_elem_of_fmap.
    setoid_rewrite list_elem_of_filter. setoid_rewrite <-database_listed_iff. split.
    + intros ([n' db] & [= -> ->] & Hl & Hdb%hash_items_elem). eauto.
    + intros [(db & Hdb & ->) Hl]. exists (n, db). by rewrite hash_items_elem.
Qed.

(** The statuses of new objects. *)
Lemma new_table_made catalog n t o :
  ∃ i, made_table catalog n t o (new_table catalog n t o) i.
Proof.
  eexists. split; try done. simpl. apply Forall2_fmap_r, Forall_Forall2_diag, Forall_true.
  intros x. split; try done; simpl.
  - rewrite existsb_exists. setoid_rewrite <-list_elem_of_In. unfold eq_ignore_ascii_case.
    by setoid_rewrite bool_decide_eq_true.
  - destruct (ct_bucket_by o) as [b|]; [|naive_solver].
    rewrite existsb_exists. setoid_rewrite <-list_elem_of_In. unfold eq_ignore_ascii_case.
    setoid_rewrite bool_decide_eq_true. unfold same_name. naive_solver.
Qed.
Lemma new_view_made catalog n t o : made_view catalog n t o (new_view catalog n t o).
Proof.
  split; [done|]. eexists. split; [|done].
  apply Forall2_fmap_r, Forall_Forall2_diag, Forall_true. by split.
Qed.
Lemma transform_refused_iff o :
  negb (eq_ignore_ascii_case (ct_format o) "iceberg") &&
    existsb (λ f, bool_decide (is_Some (pf_transform f))) (ct_partition_by o) = true ↔
  transform_refused o.
Proof.
  unfold transform_refused, same_name, eq_ignore_ascii_case.
  rewrite andb_true_iff, negb_true_iff, bool_decide_eq_false, existsb_exists.
  setoid_rewrite <-list_elem_of_In. by setoid_rewrite bool_decide_eq_true.
Qed.

(** What the theorem says of one call. *)
Definition refines_call (c : CatalogCall) s a : Prop :=
  ∃ a', spec_step c a (call c s).1 a' ∧ represents (call c s).2 a'.

Lemma flat_new f s o n db :
  flat f s o → mc_databases s !! n = None → f db = ∅ → flat f (mc_set s n db) o.
Proof.
  intros Hf Hn Hdb n' t. simpl. rewrite Hf. destruct (decide (n = n')) as [<-|Hne].
  - rewrite lookup_insert_eq, Hn. simpl. by rewrite Hdb, lookup_empty.
  - by rewrite lookup_insert_ne.
Qed.

Lemma refines_create_database n o s a : represents s a → refines_call (CallCreateDatabase n o) s a.
Proof.
  intros HR. pose proof HR as [H1 H2 H3 H4]. unfold refines_call. simpl.
  unfold memory_create_database. rewrite H2, lookup_fmap.
  destruct (mc_databases s !! n) as [db|] eqn:Hdb; simpl.
  - exists a. by destruct (cd_if_not_exists o).
  - eexists. split; [exists (MkDatabaseStatus (mc_name s) (namespace_parts n) (cd_comment o)
      (cd_location o) (cd_properties o)); by rewrite H1|]. split; simpl; try done.
    + by rewrite fmap_insert.
    + by apply flat_new.
    + by apply flat_new.
Qed.

Lemma memory_drop_database_eq n o s :
  memory_drop_database n o s =
    (if bool_decide (is_Some (mc_databases s !! n)) || dd_if_exists o
     then Ok tt else Err (database_not_found n),
     MkMemoryCatalogProvider (mc_name s) (delete n (mc_databases s))).
Proof.
  unfold memory_drop_database. destruct (mc_databases s !! n) eqn:Hdb; [done|]. simpl.
  rewrite delete_id by done. destruct s. by destruct (dd_if_exists o).
Qed.

Lemma refines_drop_database n o s a : represents s a → refines_call (CallDropDatabase n o) s a.
Proof.
  intros HR. pose proof HR as [H1 H2 H3 H4]. unfold refines_call. simpl.
  rewrite memory_drop_database_eq. eexists. split; [split; [done|]|].
  - by rewrite (spec_exists_eq s a n HR).
  - split; simpl; [done| |by apply flat_delete|by apply flat_delete]. by rewrite H2, fmap_delete.
Qed.

(** Storing the database a map has already. *)
Lemma mc_set_same s n db : mc_databases s !! n = Some db → mc_set s n db = s.
Proof. intros Hdb. unfold mc_set. rewrite insert_id by done. by destruct s. Qed.

Lemma refines_create_table n t o s a : represents s a → refines_call (CallCreateTable n t o) s a.
Proof.
  intros HR. pose proof HR as [H1 H2 H3 H4]. unfold refines_call. simpl. unfold memory_create_table.
  pose proof (transform_refused_iff o) as Hrefused. destruct (_ && _).
  { exists a. split; [|done]. left. by split; [apply Hrefused|]. }
  assert (¬ transform_refused o) as Hok by naive_solver. unfold spec_create.
  rewrite (spec_exists_eq s a n HR), H3, H1.
  destruct (mc_databases s !! n) as [db|] eqn:Hdb; simpl.
  2:{ exists a. split; [|done]. right. split; [done|].
      exists (Err (database_not_found n)), (sp_tables a). by rewrite <-H1, represents_eta. }
  pose proof (represents_tables s a n db _ _ HR Hdb
    (changed_insert md_tables s _ n db t (new_table (mc_name s) n t o) H3 Hdb)) as Hnew.
  rewrite H1 in Hnew. pose proof (new_table_made (mc_name s) n t o) as Hmade.
  destruct (md_tables db !! t) as [st|] eqn:Ht; simpl; [|by eauto 15].
  destruct (ct_if_not_exists o); [|destruct (ct_replace o)].
  - exists a. split; [|done]. right. split; [done|].
    exists (Ok st), (sp_tables a). by rewrite <-H1, represents_eta.
  - simpl. rewrite insert_delete_eq. eauto 15.
  - exists a. split; [|done]. right. split; [done|].
    eexists _, (sp_tables a). by rewrite <-H1, represents_eta.
Qed.

Lemma refines_create_view n t o s a : represents s a → refines_call (CallCreateView n t o) s a.
Proof.
  intros HR. pose proof HR as [H1 H2 H3 H4]. unfold refines_call. simpl. unfold memory_create_view.
  unfold spec_create. rewrite (spec_exists_eq s a n HR), H4, H1.
  destruct (mc_databases s !! n) as [db|] eqn:Hdb; simpl.
  2:{ exists a. split; [|done]. exists (Err (database_not_found n)), (sp_views a).
      by rewrite <-H1, represents_eta. }
  pose proof (represents_views s a n db _ _ HR Hdb
    (changed_insert md_views s _ n db t (new_view (mc_name s) n t o) H4 Hdb)) as Hnew.
  rewrite H1 in Hnew. pose proof (new_view_made (mc_name s) n t o) as Hmade.
  destruct (md_views db !! t) as [st|] eqn:Ht; simpl; [|by eauto 15].
  destruct (cv_if_not_exists o); [|destruct (cv_replace o)].
  - exists a. split; [|done]. exists (Ok st), (sp_views a). by rewrite <-H1, represents_eta.
  - simpl. rewrite insert_delete_eq. eauto 15.
  - exists a. split; [|done]. eexists _, (sp_views a). by rewrite <-H1, represents_eta.
Qed.

(** Dropping an object of a database that does not exist. *)
Lemma flat_delete_absent f s o n t :
  flat f s o → mc_databases s !! n = None → delete (n, t) o = o.
Proof. intros Hf Hn. apply delete_id. by rewrite Hf, Hn. Qed.

Lemma refines_drop_table n t o s a : represents s a → refines_call (CallDropTable n t o) s a.
Proof.
  intros HR. pose proof HR as [H1 H2 H3 H4]. unfold refines_call. simpl. unfold memory_drop_table.
  unfold spec_drop. rewrite (spec_exists_eq s a n HR), H3.
  destruct (mc_databases s !! n) as [db|] eqn:Hdb; simpl.
  - eexists. split.
    + eexists _, _. split_and!; [done|done|done|]. destruct (md_tables db !! t), (dt_if_exists o); done.
    + destruct (_ || _); by apply represents_tables, (changed_delete md_tables s).
  - exists a. split; [|by destruct (dt_if_exists o)]. eexists _, _. split_and!; [done| |done|].
    + by rewrite (flat_delete_absent md_tables s), represents_eta.
    + by destruct (dt_if_exists o).
Qed.

Lemma refines_drop_view n t o s a : represents s a → refines_call (CallDropView n t o) s a.
Proof.
  intros HR. pose proof HR as [H1 H2 H3 H4]. unfold refines_call. simpl. unfold memory_drop_view.
  unfold spec_drop. rewrite (spec_exists_eq s a n HR), H4.
  destruct (mc_databases s !! n) as [db|] eqn:Hdb; simpl.
  - eexists. split.
    + eexists _, _. split_and!; [done|done|done|]. destruct (md_views db !! t), (dv_if_exists o); done.
    + destruct (_ || _); by apply represents_views, (changed_delete md_views s).
  - exists a. split; [|by destruct (dv_if_exists o)]. eexists _, _. split_and!; [done| |done|].
    + by rewrite (flat_delete_absent md_views s), represents_eta.
    + by destruct (dv_if_exists o).
Qed.

Lemma refines_alter_table n t o s a :
  memory_typed s → represents s a → refines_call (CallAlterTable n t o) s a.
Proof.
  intros Hty HR. pose proof HR as [H1 H2 H3 H4]. unfold refines_call. simpl.
  unfold memory_alter_table. rewrite (spec_exists_eq s a n HR), H3.
  destruct (mc_databases s !! n) as [db|] eqn:Hdb; simpl; [|by exists a].
  destruct (md_tables db !! t) as [st|] eqn:Ht; simpl; [|by exists a].
  destruct (dbt_tables _ _ _ (Hty n db Hdb) _ _ Ht) as [_ Hk].
  destruct (tst_kind st) as [i| | |]; try done. pose proof (alter_info_spec t o i) as Ha.
  destruct (alter_info t o i) as [r i']. simpl in *. eexists. split.
  - exists i, r, i'. by split_and!.
  - simpl. apply represents_tables; [done|done|]. by apply (changed_insert md_tables s).
Qed.

Lemma refines_reads c s a :
  represents s a →
  match c with
  | CallGetDatabase _ | CallListDatabases _ | CallGetTable _ _ | CallListTables _
  | CallGetView _ _ | CallListViews _ => refines_call c s a
  | _ => True
  end.
Proof.
  intros HR. pose proof HR as [H1 H2 H3 H4]. unfold refines_call.
  destruct c as [|n|p| | |n t|n| | | |n t|n|]; try done; exists a; simpl;
    rewrite ?(spec_exists_eq s a n HR).
  - unfold memory_get_database. rewrite H2, lookup_fmap. by destruct (mc_databases s !! n).
  - split; [|done]. split; [done|]. unfold memory_list_databases.
    destruct (listed_databases_spec p (mc_databases s)) as (-> & Hnd & Hl).
    exists (listed_databases p (mc_databases s)). by rewrite H2.
  - unfold memory_get_table, spec_get. rewrite H3. by destruct (_ ≫= _).
  - unfold memory_list_tables. destruct (mc_databases s !! n) as [db|] eqn:Hdb; [|done].
    split; [|done]. split; [done|]. eexists. split; [done|]. by eapply flat_objects.
  - unfold memory_get_view, spec_get. rewrite H4. by destruct (_ ≫= _).
  - unfold memory_list_views. destruct (mc_databases s !! n) as [db|] eqn:Hdb; [|done].
    split; [|done]. split; [done|]. eexists. split; [done|]. by eapply flat_objects.
Qed.

(** C29. The in-memory catalog implements the catalog of flat tables: every call
    gets a reply that the flat catalog allows, listings in any order, and
    leaves the maps standing for the flat tables that the call leads to.  In
    particular a database takes its tables and views with it when it is
    dropped, no call changes an object of another database, databases are listed
    when they are directly in the prefix or at the top, and an alteration that
    fails at a name to remove has removed the names before it. *)
Theorem memory_catalog_refines name s a c :
  memory_reachable name s → represents s a →
  ∃ a', spec_step c a (call c s).1 a' ∧ represents (call c s).2 a'.
Proof.
  intros [Hty _]%reachable_typed HR. pose proof (refines_reads c s a HR) as Hread.
  destruct c; first [exact Hread|by apply refines_create_database|by apply refines_drop_database
    |by apply refines_create_table|by apply refines_drop_table|by apply refines_alter_table
    |by apply refines_create_view|by apply refines_drop_view].
Qed.
End refinement.
