(* ===== verification/CatalogManager.v ===== *)
(** * The catalog manager of a session

    [zelox-catalog/src/manager/*.rs], [zelox-catalog/src/temp_view.rs]: the
    catalogs registered in a session, the default catalog and database, the
    temporary views and the functions.  The operations run on a [World], which
    also holds the temporary views that all sessions share. *)

From Stdlib Require Import Ascii String.
From S2P Require Import Prelude Collections CatalogNames CatalogTypes CatalogProvider.

Section manager.
Context `{CE : CatalogEngine} `{HO : HashOrder} `{RE : RegexEngine}.
Context {S : Type} `{CP : !CatalogProvider S}.

(** ** Temporary views *)

Record TemporaryView := MkTemporaryView {
  tmp_plan : LogicalPlan;
  tmp_columns : list TableColumnStatus;
  tmp_comment : option string;
  tmp_properties : Properties
}.

(** [TemporaryViewManager]. *)
Notation Views := (gmap string TemporaryView).

Definition temporary_column (f : Field) (comment : option string) : TableColumnStatus :=
  MkTableColumnStatus (field_name f) (field_data_type f) (field_is_nullable f) comment None None
    false false false.

(** The comments of the columns of a new view. *)
Definition temporary_comments (fields : list Field) (columns : list (option string))
    : CatalogResult (list (option string)) :=
  match columns with
  | [] => Ok (replicate (length fields) None)
  | _ => if decide (length fields ≠ length columns)
         then Err (CeInvalidArgument "temporary view column count do not match input schema")
         else Ok columns
  end.

Definition temp_create_view (name : string) (o : CreateTemporaryViewOptions LogicalPlan)
    : CatalogM Views unit := λ views,
  let exists_ := bool_decide (is_Some (views !! name)) in
  if exists_ && tv_if_not_exists o then (Ok tt, views)
  else if exists_ && negb (tv_replace o) then
    (Err (CeAlreadyExists ObjTemporaryView name), views)
  else
    match temporary_comments (plan_fields (tv_input o)) (tv_columns o) with
    | Err e => (Err e, views)
    | Ok comments =>
        let columns := zip_with temporary_column (plan_fields (tv_input o)) comments in
        (Ok tt, <[name := MkTemporaryView (tv_input o) columns (tv_comment o) (tv_properties o)]>
                  views)
    end.

Definition temp_drop_view (name : string) (if_exists : bool) : CatalogM Views unit := λ views,
  if negb (bool_decide (is_Some (views !! name))) && negb if_exists
  then (Err (CeNotFound ObjTemporaryView name), views)
  else (Ok tt, delete name views).

Definition temp_get_view (name : string) : CatalogM Views TemporaryView := catalog_read (λ views,
  match views !! name with
  | Some view => Ok view
  | None => Err (CeNotFound ObjTemporaryView name)
  end).

Definition temp_list_views (pattern : option string)
    : CatalogM Views (list (string * TemporaryView)) := catalog_read (λ views,
  Ok (filter (λ x, match_pattern x.1 pattern = true) (hash_items views))).

(** ** Tracked objects *)

Record CatalogObjectTracker := MkCatalogObjectTracker {
  tr_next_function_id : N;
  tr_next_logical_plan_id : N;
  tr_functions : gmap N ScalarUDF;
  tr_logical_plans : gmap N LogicalPlan
}.
Definition tracker_new : CatalogObjectTracker := MkCatalogObjectTracker 0 0 ∅ ∅.

(** An identifier past [u64::MAX] panics. *)
Definition track_function (t : CatalogObjectTracker) (udf : ScalarUDF)
    : Run (N * CatalogObjectTracker) :=
  let id := tr_next_function_id t in
  match checked_add_u64 id 1 with
  | None => Panics
  | Some next =>
      Returns (id, MkCatalogObjectTracker next (tr_next_logical_plan_id t)
                     (<[id := udf]> (tr_functions t)) (tr_logical_plans t))
  end.
Definition get_tracked_function (t : CatalogObjectTracker) (id : N) : CatalogResult ScalarUDF :=
  match tr_functions t !! id with
  | Some udf => Ok udf
  | None => Err (CeNotFound ObjFunction (pretty id))
  end.
Definition track_logical_plan (t : CatalogObjectTracker) (plan : LogicalPlan)
    : Run (N * CatalogObjectTracker) :=
  let id := tr_next_logical_plan_id t in
  match checked_add_u64 id 1 with
  | None => Panics
  | Some next =>
      Returns (id, MkCatalogObjectTracker (tr_next_function_id t) next (tr_functions t)
                     (<[id := plan]> (tr_logical_plans t)))
  end.
Definition get_tracked_logical_plan (t : CatalogObjectTracker) (id : N)
    : CatalogResult LogicalPlan :=
  match tr_logical_plans t !! id with
  | Some plan => Ok plan
  | None => Err (CeNotFound ObjLogicalPlan (pretty id))
  end.

(** ** The manager *)

Record CatalogManager := MkCatalogManager {
  cm_catalogs : gmap string S;
  cm_functions : gmap string ScalarUDF;
  cm_default_catalog : string;
  cm_default_database : Namespace;
  cm_global_temporary_database : Namespace;
  cm_temporary_views : Views;
  cm_tracker : CatalogObjectTracker
}.

Record CatalogManagerOptions := MkCatalogManagerOptions {
  cmo_catalogs : gmap string S;
  cmo_default_catalog : string;
  cmo_default_database : list string;
  cmo_global_temporary_database : list string
}.

Definition manager_try_new (o : CatalogManagerOptions) : CatalogResult CatalogManager :=
  if bool_decide (is_Some (cmo_catalogs o !! cmo_default_catalog o)) then
    default_database ← namespace_try_from (cmo_default_database o);
    global_temporary_database ← namespace_try_from (cmo_global_temporary_database o);
    Ok (MkCatalogManager (cmo_catalogs o) ∅ (cmo_default_catalog o) default_database
          global_temporary_database ∅ tracker_new)
  else Err (CeNotFound ObjCatalog (cmo_default_catalog o)).

Implicit Types (m : CatalogManager).

Definition cm_with_catalogs m c : CatalogManager :=
  MkCatalogManager c (cm_functions m) (cm_default_catalog m) (cm_default_database m)
    (cm_global_temporary_database m) (cm_temporary_views m) (cm_tracker m).
Definition cm_with_functions m f : CatalogManager :=
  MkCatalogManager (cm_catalogs m) f (cm_default_catalog m) (cm_default_database m)
    (cm_global_temporary_database m) (cm_temporary_views m) (cm_tracker m).
Definition cm_with_default_catalog m c : CatalogManager :=
  MkCatalogManager (cm_catalogs m) (cm_functions m) c (cm_default_database m)
    (cm_global_temporary_database m) (cm_temporary_views m) (cm_tracker m).
Definition cm_with_default_database m d : CatalogManager :=
  MkCatalogManager (cm_catalogs m) (cm_functions m) (cm_default_catalog m) d
    (cm_global_temporary_database m) (cm_temporary_views m) (cm_tracker m).
Definition cm_with_temporary_views m v : CatalogManager :=
  MkCatalogManager (cm_catalogs m) (cm_functions m) (cm_default_catalog m)
    (cm_default_database m) (cm_global_temporary_database m) v (cm_tracker m).

(** *** References *)

Definition get_catalog m (catalog : string) : CatalogResult S :=
  match cm_catalogs m !! catalog with
  | Some provider => Ok provider
  | None => Err (CeNotFound ObjCatalog catalog)
  end.

Definition is_catalog m (name : string) : bool := bool_decide (is_Some (cm_catalogs m !! name)).

Definition resolve_database_reference m (reference : list string)
    : CatalogResult (string * Namespace) :=
  match reference with
  | [] => Err (CeInvalidArgument "empty database reference")
  | head :: tail =>
      if is_catalog m head then
        database ← namespace_try_from tail; Ok (head, database)
      else
        database ← namespace_try_from reference; Ok (cm_default_catalog m, database)
  end.

Definition resolve_optional_database_reference m (reference : list string)
    : CatalogResult (string * option Namespace) :=
  let in_default :=
    database ← namespace_try_from reference; Ok (cm_default_catalog m, Some database) in
  match reference with
  | [] => Ok (cm_default_catalog m, None)
  | [name] => if is_catalog m name then Ok (name, None) else in_default
  | _ => in_default
  end.

(** [[x @ .., last]]. *)
Definition resolve_object_reference m (reference : list string)
    : CatalogResult (string * Namespace * string) :=
  match reference with
  | [] => Err (CeInvalidArgument "empty object reference")
  | [name] => Ok (cm_default_catalog m, cm_default_database m, name)
  | _ =>
      match last reference with
      | Some table =>
          '(catalog, database) ← resolve_database_reference m (removelast reference);
          Ok (catalog, database, table)
      | None => Err (CeInvalidArgument "empty object reference")
      end
  end.

Definition is_global_temporary_view_database m (reference : list string) : bool :=
  match reference with
  | [] => false
  | _ => namespace_eq_slice (cm_global_temporary_database m) reference
  end.

(** ** The world *)

Record World := MkWorld {
  w_manager : CatalogManager;
  w_global_views : Views
}.
Definition w_with_manager (w : World) m : World := MkWorld m (w_global_views w).

Notation M := (CatalogM World).

Definition manager_read {A} (f : CatalogManager → CatalogResult A) : M A :=
  catalog_read (λ w, f (w_manager w)).

(** An operation on the temporary views of the session, or of all sessions. *)
Definition on_temporary_views {A} (op : CatalogM Views A) : M A := λ w,
  let '(r, v) := op (cm_temporary_views (w_manager w)) in
  (r, w_with_manager w (cm_with_temporary_views (w_manager w) v)).
Definition on_global_views {A} (op : CatalogM Views A) : M A := λ w,
  let '(r, v) := op (w_global_views w) in (r, MkWorld (w_manager w) v).

(** [state.get_catalog(&catalog)?] followed by a call on the provider. *)
Definition on_catalog {A} (catalog : string) (op : CatalogM S A) : M A := λ w,
  match cm_catalogs (w_manager w) !! catalog with
  | None => (Err (CeNotFound ObjCatalog catalog), w)
  | Some s =>
      let '(r, s') := op s in
      (r, w_with_manager w (cm_with_catalogs (w_manager w)
            (<[catalog := s']> (cm_catalogs (w_manager w)))))
  end.

(** [resolve_default_database], [resolve_database],
    [resolve_database_by_qualifier], [resolve_optional_database] and
    [resolve_object] with the call that follows. *)
Definition with_default_database {A} (op : Namespace → CatalogM S A) : M A :=
  m ← manager_read Ok; on_catalog (cm_default_catalog m) (op (cm_default_database m)).
Definition with_database {A} (database : list string) (op : Namespace → CatalogM S A) : M A :=
  '(catalog, database) ← manager_read (λ m, resolve_database_reference m database);
  on_catalog catalog (op database).
Definition with_database_by_qualifier {A} (qualifier : list string)
    (op : Namespace → CatalogM S A) : M A :=
  match qualifier with
  | [] => with_default_database op
  | _ => with_database qualifier op
  end.
Definition with_optional_database {A} (database : list string)
    (op : option Namespace → CatalogM S A) : M A :=
  '(catalog, database) ← manager_read (λ m, resolve_optional_database_reference m database);
  on_catalog catalog (op database).
Definition with_object {A} (object : list string) (op : Namespace → string → CatalogM S A) : M A :=
  '(catalog, database, name) ← manager_read (λ m, resolve_object_reference m object);
  on_catalog catalog (op database name).

(** ** Operations *)

(** *** Catalogs *)

Definition default_catalog : M string := manager_read (λ m, Ok (cm_default_catalog m)).

Definition set_default_catalog (catalog : string) : M unit := λ w,
  if is_catalog (w_manager w) catalog
  then (Ok tt, w_with_manager w (cm_with_default_catalog (w_manager w) catalog))
  else (Err (CeNotFound ObjCatalog catalog), w).

Definition list_catalogs (pattern : option string) : M (list string) := manager_read (λ m,
  Ok (filter (λ name, match_pattern name pattern = true) (hash_items (cm_catalogs m)).*1)).

(** *** Databases *)

Definition default_database : M Namespace := manager_read (λ m, Ok (cm_default_database m)).

Definition set_default_database (database : list string) : M unit :=
  database ← manager_read (λ _, namespace_try_from database);
  m ← manager_read Ok;
  _ ← on_catalog (cm_default_catalog m) (get_database database);
  catalog_modify (λ w, w_with_manager w (cm_with_default_database (w_manager w) database)).

Definition manager_get_database (database : list string) : M DatabaseStatus :=
  with_database database get_database.
Definition get_database_by_qualifier (qualifier : list string) : M DatabaseStatus :=
  with_database_by_qualifier qualifier get_database.
Definition manager_list_databases (qualifier : list string) (pattern : option string)
    : M (list DatabaseStatus) :=
  l ← with_optional_database qualifier list_databases;
  mret (filter (λ x, match_pattern (quote_names_if_needed (ds_database x)) pattern = true) l).
Definition manager_create_database (database : list string) (o : CreateDatabaseOptions)
    : M DatabaseStatus := with_database database (λ n, create_database n o).
Definition manager_drop_database (database : list string) (o : DropDatabaseOptions) : M unit :=
  with_database database (λ n, drop_database n o).

(** *** Views *)

Definition global_view_status (m : CatalogManager) (name : string) (v : TemporaryView)
    : TableStatus :=
  MkTableStatus None (namespace_parts (cm_global_temporary_database m)) name
    (KindGlobalTemporaryView (tmp_plan v) (tmp_columns v) (tmp_comment v) (tmp_properties v)).
Definition temporary_view_status (name : string) (v : TemporaryView) : TableStatus :=
  MkTableStatus None [] name
    (KindTemporaryView (tmp_plan v) (tmp_columns v) (tmp_comment v) (tmp_properties v)).

Definition list_global_temporary_views (pattern : option string) : M (list TableStatus) :=
  m ← manager_read Ok;
  l ← on_global_views (temp_list_views pattern);
  mret ((λ '(name, v), global_view_status m name v) <$> l).
Definition list_temporary_views (pattern : option string) : M (list TableStatus) :=
  l ← on_temporary_views (temp_list_views pattern);
  mret ((λ '(name, v), temporary_view_status name v) <$> l).

Definition filter_names (pattern : option string) (l : list TableStatus) : list TableStatus :=
  filter (λ x, match_pattern (tst_name x) pattern = true) l.

Definition manager_list_views (database : list string) (pattern : option string)
    : M (list TableStatus) :=
  l ← with_database_by_qualifier database list_views; mret (filter_names pattern l).

(** [NotSupported] is read as no views. *)
Definition or_no_views (m : M (list TableStatus)) : M (list TableStatus) := λ w,
  let '(r, w') := m w in
  match r with Err (CeNotSupported _) => (Ok [], w') | _ => (r, w') end.

Definition list_views_and_temporary_views (database : list string) (pattern : option string)
    : M (list TableStatus) :=
  m ← manager_read Ok;
  output ← (if is_global_temporary_view_database m database
            then list_global_temporary_views pattern
            else or_no_views (manager_list_views database pattern));
  temporary ← list_temporary_views pattern;
  mret (output ++ temporary).

Definition drop_global_temporary_view (view : string) (o : DropTemporaryViewOptions) : M unit :=
  on_global_views (temp_drop_view view (dtv_if_exists o)).
Definition drop_temporary_view (view : string) (o : DropTemporaryViewOptions) : M unit :=
  on_temporary_views (temp_drop_view view (dtv_if_exists o)).
Definition manager_drop_view (view : list string) (o : DropViewOptions) : M unit :=
  with_object view (λ n v, drop_view n v o).

Definition drop_maybe_temporary_view (view : list string) (o : DropViewOptions) : M unit :=
  let persistent := manager_drop_view view o in
  let global :=
    match last view with
    | Some name =>
        m ← manager_read Ok;
        if is_global_temporary_view_database m (removelast view)
        then on_not_found (on_global_views (temp_drop_view name false)) (λ _ _, persistent)
        else persistent
    | None => persistent
    end in
  match view with
  | [name] => on_not_found (on_temporary_views (temp_drop_view name false)) (λ _ _, global)
  | _ => global
  end.

Definition create_global_temporary_view (view : string)
    (o : CreateTemporaryViewOptions LogicalPlan) : M unit :=
  on_global_views (temp_create_view view o).
Definition create_temporary_view (view : string) (o : CreateTemporaryViewOptions LogicalPlan)
    : M unit := on_temporary_views (temp_create_view view o).
Definition get_global_temporary_view (name : string) : M TableStatus :=
  view ← on_global_views (temp_get_view name);
  m ← manager_read Ok;
  mret (global_view_status m name view).
Definition get_temporary_view (name : string) : M TableStatus :=
  view ← on_temporary_views (temp_get_view name); mret (temporary_view_status name view).
Definition manager_create_view (view : list string) (o : CreateViewOptions) : M TableStatus :=
  with_object view (λ n v, create_view n v o).
Definition manager_get_view (view : list string) : M TableStatus := with_object view get_view.

(** *** Tables *)

Definition manager_create_table (table : list string) (o : CreateTableOptions) : M TableStatus :=
  with_object table (λ n t, create_table n t o).
Definition manager_get_table (table : list string) : M TableStatus := with_object table get_table.
Definition manager_list_tables (database : list string) (pattern : option string)
    : M (list TableStatus) :=
  l ← with_database_by_qualifier database list_tables; mret (filter_names pattern l).
Definition manager_drop_table (table : list string) (o : DropTableOptions) : M unit :=
  with_object table (λ n t, drop_table n t o).
Definition manager_alter_table (table : list string) (o : AlterTableOptions) : M unit :=
  with_object table (λ n t, alter_table n t o).

(** [tokio::join!] runs both listings; the errors of the tables come first. *)
Definition list_tables_and_views (database : list string) (pattern : option string)
    : M (list TableStatus) :=
  m ← manager_read Ok;
  output ← (if is_global_temporary_view_database m database
            then list_global_temporary_views pattern
            else λ w,
              let '(tables, w) := manager_list_tables database pattern w in
              let '(views, w) := or_no_views (manager_list_views database pattern) w in
              (tables ≫= (λ tables, views ≫= (λ views, Ok (tables ++ views))), w));
  temporary ← list_temporary_views pattern;
  mret (output ++ temporary).

Definition get_table_or_view (reference : list string) : M TableStatus :=
  let view :=
    on_not_found (manager_get_view reference) (λ _ name,
      catalog_fail (CeNotFound ObjTable
        ("[TABLE_OR_VIEW_NOT_FOUND] Table or view not found: " +:+ name))) in
  let table := on_not_found (manager_get_table reference) (λ _ _, view) in
  let global :=
    match last reference with
    | Some name =>
        m ← manager_read Ok;
        if is_global_temporary_view_database m (removelast reference)
        then get_global_temporary_view name else table
    | None => table
    end in
  match reference with
  | [name] => on_not_found (get_temporary_view name) (λ _ _, global)
  | _ => global
  end.

(** *** Functions *)

Definition register_function (udf : ScalarUDF) : M unit := λ w,
  (Ok tt, w_with_manager w (cm_with_functions (w_manager w)
     (<[to_ascii_lowercase (udf_name udf) := udf]> (cm_functions (w_manager w))))).
Definition get_function (name : string) : M (option ScalarUDF) :=
  manager_read (λ m, Ok (cm_functions m !! to_ascii_lowercase name)).

(** [s.contains(p)]. *)
Definition str_contains (s p : string) : bool :=
  match String.index 0 p s with Some _ => true | None => false end.

Definition list_functions (pattern : option string) : M (list string) := manager_read (λ m,
  let names := sort_by String.leb (hash_items (cm_functions m)).*1 in
  Ok (match pattern with
      | None => names
      | Some p => filter (λ n, str_contains n (to_ascii_lowercase p) = true) names
      end)).

Definition deregister_function (function : list string) (if_exists : bool) : M unit := λ w,
  match function with
  | [name] =>
      let name := to_ascii_lowercase name in
      let functions := cm_functions (w_manager w) in
      let w' := w_with_manager w (cm_with_functions (w_manager w) (delete name functions)) in
      if negb (bool_decide (is_Some (functions !! name))) && negb if_exists
      then (Err (CeNotFound ObjFunction name), w') else (Ok tt, w')
  | _ => (Err (CeNotSupported "qualified function name"), w)
  end.
End manager.
Arguments TemporaryView {_}.
Arguments CatalogManager {_} S.
Arguments World {_} S.
