(* ===== verification/CatalogCommand.v ===== *)
(** * Catalog commands

    [zelox-catalog/src/command.rs]: what a session executes for a catalog
    statement.  Turning rows into a record batch, the plan service and the
    formats that keep metadata in storage are parameters. *)

From Stdlib Require Import Ascii String.
From S2P Require Import Prelude Collections CatalogNames CatalogTypes CatalogProvider CatalogManager.

(** No table function can be registered: the enumeration has no variant. *)
Inductive CatalogTableFunction := .

Inductive CatalogCommand :=
| CurrentCatalog
| SetCurrentCatalog (catalog : string)
| ListCatalogs (pattern : option string)
| CurrentDatabase
| SetCurrentDatabase (database : list string)
| CreateDatabase (database : list string) (options : CreateDatabaseOptions)
| DatabaseExists (database : list string)
| GetDatabase (database : list string)
| ListDatabases (qualifier : list string) (pattern : option string)
| DropDatabase (database : list string) (options : DropDatabaseOptions)
| CreateTable (table : list string) (options : CreateTableOptions)
| TableExists (table : list string)
| GetTable (table : list string)
| ShowTables (database : list string) (pattern : option string)
| ShowTableExtended (database : list string) (pattern : string)
| ListTables (database : list string) (pattern : option string)
| ListViews (database : list string) (pattern : option string)
| DropTable (table : list string) (options : DropTableOptions)
| AlterTable (table : list string) (if_exists : bool) (options : AlterTableOptions)
| ListColumns (table : list string)
| FunctionExists (function : list string)
| GetFunction (function : list string)
| ListFunctions (database : list string) (pattern : option string)
| DropFunction (function : list string) (if_exists is_temporary : bool)
| RegisterFunction (udf : N)
| RegisterTableFunction (name : string) (udtf : CatalogTableFunction)
| DropTemporaryView (view : string) (is_global : bool) (options : DropTemporaryViewOptions)
| DropView (view : list string) (options : DropViewOptions)
| CreateTemporaryView (view : string) (is_global : bool) (options : CreateTemporaryViewOptions N)
| CreateView (view : list string) (options : CreateViewOptions)
| DescribeTable (table : list string) (extended : bool)
| DescribeDatabase (database : list string) (extended : bool)
| IsCached (table : list string)
| CacheTable (table : list string)
| UncacheTable (table : list string) (if_exists : bool)
| ClearCache
| RefreshTable (table : list string)
| RefreshByPath (path : string).

(** A change of the metadata that a table format keeps in storage. *)
Inductive StorageChange :=
| ScProperties (changes : list (string * option string)) (if_exists : bool)
| ScColumnType (name : list string) (data_type : DataType)
| ScAddColumns (specs : list (string * DataType * bool * option string))
| ScDropColumns (names : list (list string)) (if_exists : bool)
| ScRenameColumn (old new : list string).

Definition is_lakehouse_format (format : string) : bool :=
  eq_ignore_ascii_case format "delta" || eq_ignore_ascii_case format "iceberg".

(** The call on the table format for an alteration. *)
Definition storage_change (options : AlterTableOptions) : option StorageChange :=
  match options with
  | SetTableProperties properties =>
      Some (ScProperties ((λ '(k, v), (k, Some v)) <$> properties) false)
  | UnsetTableProperties keys if_exists =>
      Some (ScProperties ((λ k, (k, None)) <$> keys) if_exists)
  | AlterColumnType name data_type => Some (ScColumnType name data_type)
  | AddColumns columns =>
      Some (ScAddColumns ((λ c, (cc_name c, cc_data_type c, cc_nullable c, cc_comment c)) <$> columns))
  | DropColumns names if_exists => Some (ScDropColumns names if_exists)
  | RenameColumn old new => Some (ScRenameColumn old new)
  | RenameTable _ => None
  end.

(** The registry of table formats and the storage behind them, and the
    formatting of data types. *)
Class TableFormats := {
  Storage : Type;
  registry_extension : Result string unit;
  registry_get : string → Result string unit;
  format_alter : string → string → StorageChange → Storage → Result string unit * Storage;
  data_type_to_simple_string : DataType → option string
}.

Section command.
Context `{CE : CatalogEngine} `{HO : HashOrder} `{RE : RegexEngine} `{TF : TableFormats}.
Context {S : Type} `{CP : !CatalogProvider S}.

(** The rows of a reply. *)
Inductive CatalogRows :=
| RowsEmpty
| RowsStrings (l : list string)
| RowsBools (l : list bool)
| RowsCatalogs (l : list string)
| RowsDatabases (l : list DatabaseStatus)
| RowsTables (l : list TableStatus)
| RowsColumns (l : list TableColumnStatus)
| RowsFunctions (l : list string)
| RowsShowTables (l : list (string * string * bool))
| RowsShowTableExtended (l : list (string * string * bool * string))
| RowsDescribeTable (l : list (string * string * option string))
| RowsDescribeDatabase (l : list (string * string)).

(** The state of a session and the storage. *)
Record CommandState := MkCommandState { cs_world : World S; cs_storage : Storage }.
Notation C := (CatalogM CommandState).

(** An operation of the manager. *)
Definition managed {A} (op : CatalogM (World S) A) : C A := λ s,
  let '(r, w) := op (cs_world s) in (r, MkCommandState w (cs_storage s)).

(** The change of the storage behind a table. *)
Definition alter_storage (format location : string) (change : StorageChange) : C unit := λ s,
  let '(r, st) := format_alter format location change (cs_storage s) in
  (match r with Ok _ => Ok tt | Err e => Err (CeExternal e) end, MkCommandState (cs_world s) st).

(** [ctx.extension::<TableFormatRegistry>()] and [registry.get(&format)]. *)
Definition find_format (format : string) : C unit :=
  catalog_read (λ _, match registry_extension with
    | Err e => Err (CeExternal ("missing TableFormatRegistry for storage-backed ALTER TABLE on " +:+
                      "format '" +:+ format +:+ "': " +:+ e))
    | Ok _ =>
        match registry_get format with
        | Ok _ => Ok tt
        | Err e => Err (CeExternal ("unknown table format '" +:+ format +:+
                          "' for storage-backed ALTER TABLE: " +:+ e))
        end
    end).

(** [match op { Ok(x) => .., Err(NotFound) => .. , Err(e) => return Err(e) }]. *)
Definition found {A} (op : C A) : C (option A) := λ s,
  let '(r, s') := op s in
  match r with
  | Ok x => (Ok (Some x), s')
  | Err (CeNotFound _ _) => (Ok None, s')
  | Err e => (Err e, s')
  end.

Definition ret_bool (b : bool) : CatalogRows := RowsBools [b].

(** [CatalogCommand::AlterTable]. *)
Definition execute_alter_table (table : list string) (if_exists : bool)
    (options : AlterTableOptions) : C CatalogRows := λ s,
  let '(r, s) := managed (get_table_or_view table) s in
  match r with
  | Err (CeNotFound o n) =>
      if if_exists then (Ok (ret_bool true), s) else (Err (CeNotFound o n), s)
  | Err e => (Err e, s)
  | Ok status =>
      let catalog_only : C CatalogRows :=
        _ ← managed (manager_alter_table table options); mret (ret_bool true) in
      match kind_location (tst_kind status), kind_format (tst_kind status) with
      | Some location, Some format =>
          if is_lakehouse_format format then
            (_ ← find_format format;
             _ ← match storage_change options with
                 | Some change => alter_storage format location change
                 | None => catalog_fail (CeNotSupported
                     "RENAME TABLE is not yet supported for storage-backed tables")
                 end;
             catalog_only) s
          else catalog_only s
      | _, _ => catalog_only s
      end
  end.

Definition simple_string (t : DataType) : string := default "invalid" (data_type_to_simple_string t).

(** [TableStatus::show_table_extended_information]. *)
Definition newline : string := String (Ascii.ascii_of_N 10) EmptyString.
Definition show_table_extended_information (t : TableStatus) : string :=
  join "" ((λ '(key, value), key +:+ ": " +:+ value +:+ newline) <$> describe_extended_metadata t)
  +:+ "Schema: root" +:+ newline +:+
  join "" ((λ c, " |-- " +:+ co_name c +:+ ": " +:+ simple_string (co_data_type c) +:+
                 " (nullable = " +:+ (if co_nullable c then "true" else "false") +:+ ")" +:+ newline)
             <$> kind_columns (tst_kind t)).

Definition describe_column (c : TableColumnStatus) : string * string * option string :=
  (co_name c, simple_string (co_data_type c), co_comment c).

(** The rows of [DESCRIBE TABLE]. *)
Definition describe_table_rows (t : TableStatus) (extended : bool)
    : list (string * string * option string) :=
  (describe_column <$> kind_columns (tst_kind t)) ++
  if extended then
    match kind_partition_columns (tst_kind t) with
    | [] => []
    | cols =>
        [("# Partition Information", "", None); ("# col_name", "data_type", Some "comment")] ++
        (describe_column <$> cols)
    end ++
    [("", "", None); ("# Detailed Table Information", "", None)] ++
    ((λ '(key, value), (key, value, None)) <$> describe_extended_metadata t)
  else [].

(** The rows of [DESCRIBE DATABASE]. *)
Definition describe_database_rows (d : DatabaseStatus) (extended : bool)
    : list (string * string) :=
  [("Namespace Name", quote_names_if_needed (ds_database d));
   ("Comment", default "" (ds_comment d)); ("Location", default "" (ds_location d))] ++
  if extended then
    [("Properties",
      match ds_properties d with
      | [] => ""
      | properties =>
          "(" +:+ join "," ((λ '(k, v), "(" +:+ k +:+ "," +:+ v +:+ ")") <$>
                              sort_by (λ a b, String.leb a.1 b.1) properties) +:+ ")"
      end)]
  else [].

(** [CatalogCommand::execute], up to the rows of its reply. *)
Definition execute (command : CatalogCommand) : C CatalogRows :=
  match command with
  | CurrentCatalog => v ← managed default_catalog; mret (RowsStrings [v])
  | SetCurrentCatalog catalog => _ ← managed (set_default_catalog catalog); mret RowsEmpty
  | ListCatalogs pattern => l ← managed (list_catalogs pattern); mret (RowsCatalogs l)
  | CurrentDatabase =>
      v ← managed default_database; mret (RowsStrings [quote_namespace_if_needed v])
  | SetCurrentDatabase database => _ ← managed (set_default_database database); mret RowsEmpty
  | CreateDatabase database options =>
      _ ← managed (manager_create_database database options); mret (ret_bool true)
  | DatabaseExists database =>
      r ← found (managed (manager_get_database database)); mret (ret_bool (bool_decide (is_Some r)))
  | GetDatabase database =>
      r ← found (managed (manager_get_database database)); mret (RowsDatabases (option_list r))
  | ListDatabases qualifier pattern =>
      r ← found (managed (manager_list_databases qualifier pattern));
      mret (RowsDatabases (default [] r))
  | DropDatabase database options =>
      _ ← managed (manager_drop_database database options); mret (ret_bool true)
  | CreateTable table options =>
      _ ← managed (manager_create_table table options); mret (ret_bool true)
  | TableExists table =>
      r ← found (managed (get_table_or_view table)); mret (ret_bool (bool_decide (is_Some r)))
  | GetTable table => t ← managed (get_table_or_view table); mret (RowsTables [t])
  | ShowTables database pattern =>
      l ← managed (list_tables_and_views database pattern);
      mret (RowsShowTables ((λ t, (quote_names_if_needed (tst_database t), tst_name t,
                                   kind_is_temporary (tst_kind t))) <$> l))
  | ShowTableExtended database pattern =>
      l ← managed (list_tables_and_views database (Some pattern));
      mret (RowsShowTableExtended ((λ t, (quote_names_if_needed (tst_database t), tst_name t,
              kind_is_temporary (tst_kind t), show_table_extended_information t)) <$> l))
  | ListTables database pattern =>
      l ← managed (list_tables_and_views database pattern); mret (RowsTables l)
  | ListViews database pattern =>
      l ← managed (list_views_and_temporary_views database pattern); mret (RowsTables l)
  | DropTable table options =>
      _ ← managed (manager_drop_table table options); mret (ret_bool true)
  | AlterTable table if_exists options => execute_alter_table table if_exists options
  | ListColumns table =>
      t ← managed (get_table_or_view table); mret (RowsColumns (kind_columns (tst_kind t)))
  | FunctionExists [name] =>
      r ← managed (get_function name); mret (ret_bool (bool_decide (is_Some r)))
  | FunctionExists _ =>
      catalog_fail (CeNotSupported "qualified function name for FunctionExists")
  | GetFunction [name] =>
      r ← managed (get_function name); mret (RowsFunctions (udf_name <$> option_list r))
  | GetFunction _ => catalog_fail (CeNotSupported "qualified function name for GetFunction")
  | ListFunctions _ pattern => l ← managed (list_functions pattern); mret (RowsFunctions l)
  | DropFunction function if_exists _ =>
      _ ← managed (deregister_function function if_exists); mret (ret_bool true)
  | RegisterFunction id =>
      udf ← managed (manager_read (λ m, get_tracked_function (cm_tracker m) id));
      _ ← managed (register_function udf); mret RowsEmpty
  | RegisterTableFunction _ udtf => match udtf with end
  | DropTemporaryView view is_global options =>
      _ ← managed (if is_global : bool then drop_global_temporary_view view options
                   else drop_temporary_view view options);
      mret (ret_bool true)
  | DropView view options =>
      _ ← managed (drop_maybe_temporary_view view options); mret (ret_bool true)
  | CreateTemporaryView view is_global options =>
      input ← managed (manager_read (λ m, get_tracked_logical_plan (cm_tracker m) (tv_input options)));
      let options := MkCreateTemporaryViewOptions input (tv_columns options)
                       (tv_if_not_exists options) (tv_replace options) (tv_comment options)
                       (tv_properties options) in
      _ ← managed (if is_global : bool then create_global_temporary_view view options
                   else create_temporary_view view options);
      mret (ret_bool true)
  | CreateView view options =>
      _ ← managed (manager_create_view view options); mret (ret_bool true)
  | DescribeTable table extended =>
      t ← managed (get_table_or_view table);
      mret (RowsDescribeTable (describe_table_rows t extended))
  | DescribeDatabase database extended =>
      d ← managed (manager_get_database database);
      mret (RowsDescribeDatabase (describe_database_rows d extended))
  | IsCached _ => mret (ret_bool false)
  | CacheTable _ | UncacheTable _ _ | ClearCache | RefreshTable _ | RefreshByPath _ =>
      mret RowsEmpty
  end.
End command.
Arguments CommandState {_ _} S.
