(* ===== verification/CatalogManagerTheorems.v ===== *)
(** * Guarantees of catalog commands

    What every command of a session keeps, and how the two layers of metadata
    are altered. *)

From Stdlib Require Import Ascii String.
From S2P Require Import Prelude Collections CatalogNames CatalogTypes CatalogProvider CatalogManager CatalogCommand.

Section theorems.
Context `{CE : CatalogEngine} `{HO : HashOrder} `{RE : RegexEngine} `{TF : TableFormats}.
Context {S : Type} `{CP : !CatalogProvider S}.
Implicit Types (m : CatalogManager S) (s : CommandState S).

(** ** The invariant of a session *)

(** The columns of a view are those of its plan. *)
Definition view_ok (v : TemporaryView) : Prop :=
  co_name <$> tmp_columns v = field_name <$> plan_fields (tmp_plan v) ∧
  co_data_type <$> tmp_columns v = field_data_type <$> plan_fields (tmp_plan v).

Definition views_ok (views : gmap string TemporaryView) : Prop := map_Forall (λ _, view_ok) views.

Record session_ok (catalogs : gset string) (w : World S) : Prop := {
  ses_catalogs : dom (cm_catalogs (w_manager w)) = catalogs;
  ses_default : cm_default_catalog (w_manager w) ∈ catalogs;
  ses_functions : map_Forall (λ k f, k = to_ascii_lowercase (udf_name f))
    (cm_functions (w_manager w));
  ses_temporary : views_ok (cm_temporary_views (w_manager w));
  ses_global : views_ok (w_global_views w)
}.

(** An operation that keeps an invariant. *)
Definition keeps {W A : Type} (I : W → Prop) (op : CatalogM W A) : Prop :=
  ∀ w, I w → I (op w).2.

Lemma keeps_bind {W A B : Type} (I : W → Prop) (op : CatalogM W A) (f : A → CatalogM W B) :
  keeps I op → (∀ x, keeps I (f x)) → keeps I (op ≫= f).
Proof.
  intros Hop Hf w Hw. unfold mbind, catalog_bind. specialize (Hop w Hw).
  destruct (op w) as [[x|e] w']; [by apply Hf|done].
Qed.
Lemma keeps_ret {W A : Type} (I : W → Prop) (x : A) : keeps I (mret x).
Proof. by intros w. Qed.
Lemma keeps_read {W A : Type} (I : W → Prop) (f : W → CatalogResult A) : keeps I (catalog_read f).
Proof. by intros w. Qed.
Lemma keeps_fail {W A : Type} (I : W → Prop) (e : CatalogError) :
  keeps I (catalog_fail (A:=A) e).
Proof. by intros w. Qed.
Lemma keeps_not_found {W A : Type} (I : W → Prop) (op : CatalogM W A) f :
  keeps I op → (∀ o n, keeps I (f o n)) → keeps I (on_not_found op f).
Proof.
  intros Hop Hf w Hw. unfold on_not_found. specialize (Hop w Hw).
  destruct (op w) as [[x|[]] w']; try done. by apply Hf.
Qed.

Create HintDb session.
#[local] Hint Resolve keeps_bind keeps_ret keeps_read keeps_fail keeps_not_found : session.

(** ** Views *)

Lemma temporary_columns_ok fields comments :
  length comments = length fields →
  co_name <$> zip_with temporary_column fields comments = field_name <$> fields ∧
  co_data_type <$> zip_with temporary_column fields comments = field_data_type <$> fields.
Proof.
  revert comments. induction fields as [|f fields IH]; intros [|c comments] Hl; try done.
  destruct (IH comments) as [H1 H2]; [by injection Hl|].
  split; simpl; by f_equal.
Qed.

Lemma temporary_comments_length fields columns l :
  temporary_comments fields columns = Ok l → length l = length fields.
Proof.
  unfold temporary_comments. destruct columns as [|c columns].
  - intros [= <-]. by rewrite length_replicate.
  - case_decide as Hd; [done|]. intros [= <-]. simpl in *. lia.
Qed.

Lemma temp_create_keeps name o : keeps views_ok (temp_create_view name o).
Proof.
  intros views Hv. unfold temp_create_view. destruct (_ && tv_if_not_exists o); [done|].
  destruct (_ && negb _); [done|].
  destruct (temporary_comments _ _) as [comments|e] eqn:Hc; [|done]. simpl.
  apply map_Forall_insert_2; [|done]. apply temporary_columns_ok. by eapply temporary_comments_length.
Qed.
Lemma temp_drop_keeps name if_exists : keeps views_ok (temp_drop_view name if_exists).
Proof.
  intros views Hv. unfold temp_drop_view. case_match; [done|]. by apply map_Forall_delete.
Qed.
Lemma temp_read_keeps {A} (f : _ → CatalogResult A) : keeps views_ok (catalog_read f).
Proof. by intros views. Qed.

Lemma on_temporary_keeps {A} cs (op : CatalogM _ A) :
  keeps views_ok op → keeps (session_ok cs) (on_temporary_views op).
Proof.
  intros Hop w [H1 H2 H3 H4 H5]. unfold on_temporary_views. specialize (Hop _ H4).
  destruct (op _) as [r v]. by split.
Qed.
Lemma on_global_keeps {A} cs (op : CatalogM _ A) :
  keeps views_ok op → keeps (session_ok cs) (on_global_views op).
Proof.
  intros Hop w [H1 H2 H3 H4 H5]. unfold on_global_views. specialize (Hop _ H5).
  destruct (op _) as [r v]. by split.
Qed.
#[local] Hint Resolve temp_create_keeps temp_drop_keeps temp_read_keeps on_temporary_keeps
  on_global_keeps : session.

(** ** Catalogs *)

Lemma on_catalog_keeps {A} cs name (op : CatalogM S A) : keeps (session_ok cs) (on_catalog name op).
Proof.
  intros w [H1 H2 H3 H4 H5]. unfold on_catalog.
  destruct (cm_catalogs (w_manager w) !! name) as [p|] eqn:Hp; [|by split].
  destruct (op p) as [r p']. split; simpl; try done. rewrite dom_insert_L, H1.
  apply subseteq_union_1_L. rewrite <-H1. apply singleton_subseteq_l, elem_of_dom. eauto.
Qed.

Lemma read_keeps {A} cs (f : CatalogManager S → CatalogResult A) :
  keeps (session_ok cs) (manager_read f).
Proof. by intros w. Qed.

Lemma set_default_catalog_keeps cs catalog : keeps (session_ok cs) (set_default_catalog catalog).
Proof.
  intros w [H1 H2 H3 H4 H5]. unfold set_default_catalog, is_catalog.
  case_bool_decide as Hc; [|by split]. split; simpl; try done. rewrite <-H1. by apply elem_of_dom.
Qed.

Lemma register_keeps cs udf : keeps (session_ok cs) (register_function udf).
Proof. intros w [H1 H2 H3 H4 H5]. split; simpl; try done. by apply map_Forall_insert_2. Qed.
Lemma deregister_keeps cs f b : keeps (session_ok cs) (deregister_function f b).
Proof.
  intros w [H1 H2 H3 H4 H5]. destruct f as [|name [|]]; [by split| |by split].
  unfold deregister_function. case_match; (split; simpl; try done); by apply map_Forall_delete.
Qed.
#[local] Hint Resolve on_catalog_keeps read_keeps set_default_catalog_keeps register_keeps
  deregister_keeps : session.

(** Discharges an operation put together from the ones above. *)
Ltac keeps :=
  cbv zeta; repeat first
    [ progress eauto with session
    | match goal with |- keeps _ (_ ≫= _) => apply keeps_bind; [|intros ?] end
    | match goal with |- keeps _ (on_not_found _ _) => apply keeps_not_found; [|intros ? ?] end
    | match goal with |- keeps _ (on_temporary_views _) => apply on_temporary_keeps end
    | match goal with |- keeps _ (let '(_, _) := ?x in _) => destruct x end
    | match goal with |- keeps _ (match ?x with _ => _ end) => destruct x end ].

Lemma with_database_keeps {A} cs d (op : Namespace → CatalogM S A) :
  keeps (session_ok cs) (with_database d op).
Proof. unfold with_database. keeps. Qed.
Lemma with_default_keeps {A} cs (op : Namespace → CatalogM S A) :
  keeps (session_ok cs) (with_default_database op).
Proof. unfold with_default_database. keeps. Qed.
Lemma with_optional_keeps {A} cs d (op : option Namespace → CatalogM S A) :
  keeps (session_ok cs) (with_optional_database d op).
Proof. unfold with_optional_database. keeps. Qed.
Lemma with_object_keeps {A} cs o (op : Namespace → string → CatalogM S A) :
  keeps (session_ok cs) (with_object o op).
Proof. unfold with_object. keeps. Qed.
#[local] Hint Resolve with_database_keeps with_default_keeps with_optional_keeps with_object_keeps
  : session.
Lemma with_qualifier_keeps {A} cs d (op : Namespace → CatalogM S A) :
  keeps (session_ok cs) (with_database_by_qualifier d op).
Proof. unfold with_database_by_qualifier. keeps. Qed.
#[local] Hint Resolve with_qualifier_keeps : session.

(** ** Commands *)

Definition command_ok (cs : gset string) s : Prop := session_ok cs (cs_world s).

Lemma managed_keeps {A} cs (op : CatalogM (World S) A) :
  keeps (session_ok cs) op → keeps (command_ok cs) (managed op).
Proof.
  intros Hop s Hs. unfold managed. specialize (Hop _ Hs). by destruct (op (cs_world s)).
Qed.
Lemma found_keeps {A} cs (op : CatalogM (CommandState S) A) :
  keeps (command_ok cs) op → keeps (command_ok cs) (found op).
Proof.
  intros Hop s Hs. unfold found. specialize (Hop _ Hs). by destruct (op s) as [[|[]] ?].
Qed.
Lemma alter_storage_keeps cs f l c : keeps (command_ok cs) (alter_storage f l c).
Proof. intros s Hs. unfold alter_storage. by destruct (format_alter _ _ _ _). Qed.
Lemma or_no_views_keeps cs op :
  keeps (session_ok cs) op → keeps (session_ok cs) (or_no_views op).
Proof.
  intros Hop w Hw. unfold or_no_views. specialize (Hop _ Hw). by destruct (op w) as [[|[]] ?].
Qed.
#[local] Hint Resolve managed_keeps found_keeps alter_storage_keeps or_no_views_keeps : session.

Lemma set_default_database_keeps cs d : keeps (session_ok cs) (set_default_database d).
Proof.
  unfold set_default_database. keeps. by intros w [H1 H2 H3 H4 H5].
Qed.
Lemma list_views_keeps cs d p : keeps (session_ok cs) (manager_list_views d p).
Proof. unfold manager_list_views. keeps. Qed.
Lemma list_tables_keeps cs d p : keeps (session_ok cs) (manager_list_tables d p).
Proof. unfold manager_list_tables. keeps. Qed.
Lemma list_temporary_keeps cs p : keeps (session_ok cs) (list_temporary_views p).
Proof. unfold list_temporary_views, temp_list_views. keeps. Qed.
Lemma list_global_keeps cs p : keeps (session_ok cs) (list_global_temporary_views p).
Proof. unfold list_global_temporary_views, temp_list_views. keeps. Qed.
#[local] Hint Resolve set_default_database_keeps list_views_keeps list_tables_keeps
  list_temporary_keeps list_global_keeps : session.

Lemma list_all_views_keeps cs d p : keeps (session_ok cs) (list_views_and_temporary_views d p).
Proof. unfold list_views_and_temporary_views. keeps. Qed.
Lemma list_both_keeps cs d p : keeps (session_ok cs) (λ w,
    let '(tables, w) := manager_list_tables d p w in
    let '(views, w) := or_no_views (manager_list_views d p) w in
    (tables ≫= (λ tables, views ≫= (λ views, Ok (tables ++ views))), w)).
Proof.
  intros w Hw. pose proof (list_tables_keeps cs d p w Hw) as H1.
  destruct (manager_list_tables d p w) as [tables w1]. simpl in H1.
  pose proof (or_no_views_keeps cs _ (list_views_keeps cs d p) w1 H1) as H2.
  by destruct (or_no_views _ w1).
Qed.
#[local] Hint Resolve list_both_keeps : session.
Lemma list_tables_and_views_keeps cs d p : keeps (session_ok cs) (list_tables_and_views d p).
Proof. unfold list_tables_and_views. keeps. Qed.
Lemma get_table_or_view_keeps cs r : keeps (session_ok cs) (get_table_or_view r).
Proof.
  unfold get_table_or_view, manager_get_table, manager_get_view, get_temporary_view,
    get_global_temporary_view, temp_get_view. keeps.
Qed.
Lemma drop_maybe_keeps cs v o : keeps (session_ok cs) (drop_maybe_temporary_view v o).
Proof. unfold drop_maybe_temporary_view, manager_drop_view. keeps. Qed.
#[local] Hint Resolve list_all_views_keeps list_tables_and_views_keeps get_table_or_view_keeps
  drop_maybe_keeps : session.

Lemma alter_command_keeps cs t b o : keeps (command_ok cs) (execute_alter_table t b o).
Proof.
  intros s Hs. unfold execute_alter_table, manager_alter_table.
  pose proof (managed_keeps cs _ (get_table_or_view_keeps cs t) s Hs) as Hs'.
  destruct (managed _ s) as [[status|[]] s']; simpl in Hs'; try done; [|by destruct b].
  assert (∀ A (op : CatalogM (CommandState S) A), keeps (command_ok cs) op →
    command_ok cs (op s').2) as Hkeep by (intros A op Hop; by apply Hop).
  repeat case_match; apply Hkeep; unfold find_format; keeps.
Qed.
#[local] Hint Resolve alter_command_keeps : session.

Lemma execute_keeps cs command : keeps (command_ok cs) (execute command).
Proof.
  destruct command; unfold execute, default_catalog, list_catalogs, default_database,
    manager_create_database, manager_get_database, manager_list_databases, manager_drop_database,
    manager_create_table, manager_drop_table, get_function, list_functions,
    drop_global_temporary_view, drop_temporary_view, create_global_temporary_view,
    create_temporary_view, manager_create_view; keeps; apply managed_keeps; keeps.
Qed.

(** Sequences of commands, whether they succeed or fail. *)
Definition run_commands (commands : list CatalogCommand) s : CommandState S :=
  foldl (λ s command, (execute command s).2) s commands.

(** Whatever commands a session executes, and whether they succeed or not,
    the registered catalogs stay the same and the default catalog stays one
    of them, so that unqualified names always find their catalog; functions
    stay registered under their own lower-case names, and the columns of
    every temporary view are those of its plan. *)
Theorem session_invariant cs commands s :
  session_ok cs (cs_world s) → session_ok cs (cs_world (run_commands commands s)).
Proof.
  revert s. induction commands as [|command commands IH]; intros s Hs; [done|]. simpl.
  by apply IH, (execute_keeps cs command).
Qed.

(** ** References *)

(** [SHOW DATABASES IN catalog.namespace] does not look in the catalog it
    names: where every other statement resolves a reference that starts with
    a registered catalog to that catalog and the rest of the reference, the
    listing takes the whole reference as a namespace of the default catalog,
    unless the reference is the name of a catalog alone. *)
Theorem list_databases_ignores_catalog m catalog part rest :
  is_catalog m catalog = true →
  resolve_database_reference m (catalog :: part :: rest) = Ok (catalog, MkNamespace part rest) ∧
  resolve_optional_database_reference m (catalog :: part :: rest) =
    Ok (cm_default_catalog m, Some (MkNamespace catalog (part :: rest))) ∧
  resolve_optional_database_reference m [catalog] = Ok (catalog, None) ∧
  resolve_object_reference m [catalog; part; "t"] = Ok (catalog, MkNamespace part [], "t").
Proof.
  intros Hc. unfold resolve_object_reference, resolve_database_reference,
    resolve_optional_database_reference. simpl. by rewrite Hc.
Qed.

(** ** Altering tables *)

(** The storage behind a table, when it keeps its own metadata. *)
Definition storage_of (status : TableStatus) : option (string * string) :=
  location ← kind_location (tst_kind status);
  format ← kind_format (tst_kind status);
  if is_lakehouse_format format then Some (location, format) else None.

Lemma execute_alter_found table if_exists o s status w1 :
  get_table_or_view table (cs_world s) = (Ok status, w1) →
  execute_alter_table table if_exists o s =
  match storage_of status with
  | Some (location, format) =>
      (_ ← find_format format;
       _ ← match storage_change o with
           | Some change => alter_storage format location change
           | None => catalog_fail (CeNotSupported
               "RENAME TABLE is not yet supported for storage-backed tables")
           end;
       _ ← managed (manager_alter_table table o); mret (ret_bool true))
        (MkCommandState w1 (cs_storage s))
  | None =>
      (_ ← managed (manager_alter_table table o); mret (ret_bool true))
        (MkCommandState w1 (cs_storage s))
  end.
Proof.
  intros Hg. unfold execute_alter_table, managed at 1. rewrite Hg. unfold storage_of.
  destruct (kind_location _); simpl; [|done]. destruct (kind_format _); simpl; [|done].
  by destruct (is_lakehouse_format _).
Qed.

(** [ALTER TABLE] changes the storage of a lakehouse table before the
    catalog: it succeeds only when the storage, if there is one, and the
    catalog have both accepted the change; when the format is unknown or the
    storage refuses, the catalog is left alone. *)
Theorem alter_table_layers table if_exists o s status w1 r s' :
  get_table_or_view table (cs_world s) = (Ok status, w1) →
  execute_alter_table table if_exists o s = (r, s') →
  match storage_of status with
  | None => cs_storage s' = cs_storage s
  | Some (location, format) =>
      (cs_storage s' = cs_storage s ∧ is_ok r = false ∧ cs_world s' = w1) ∨
      ∃ change x, storage_change o = Some change ∧
        format_alter format location change (cs_storage s) = (x, cs_storage s') ∧
        match x with Ok _ => True | Err e => r = Err (CeExternal e) ∧ cs_world s' = w1 end
  end ∧
  (is_ok r = true → manager_alter_table table o w1 = (Ok tt, cs_world s')).
Proof.
  intros Hg. rewrite (execute_alter_found _ _ _ _ _ _ Hg).
  assert (∀ st, let q := (_ ← managed (manager_alter_table table o); mret (ret_bool true))
      (MkCommandState w1 st) in
    cs_storage q.2 = st ∧ (is_ok q.1 = true → manager_alter_table table o w1 = (Ok tt, cs_world q.2)))
    as Hcat.
  { intros st. unfold mbind, catalog_bind, managed. simpl.
    by destruct (manager_alter_table table o w1) as [[[]|e] w']. }
  destruct (storage_of status) as [[location format]|].
  2:{ intros H. specialize (Hcat (cs_storage s)). cbv zeta in Hcat. rewrite H in Hcat. done. }
  unfold mbind at 1, catalog_bind at 1, find_format, catalog_read.
  destruct registry_extension as [u0|e0]; [|by intros [= <- <-]; split; [left|]].
  destruct (registry_get format) as [u|e]; [|by intros [= <- <-]; split; [left|]].
  destruct (storage_change o) as [change|].
  2:{ unfold mbind at 1, catalog_bind at 1, catalog_fail. intros [= <- <-]. by split; [left|]. }
  unfold mbind at 1, catalog_bind at 1, alter_storage. cbn [cs_storage cs_world].
  destruct (format_alter format location change (cs_storage s)) as [[u'|e] st] eqn:Hf.
  - intros H. specialize (Hcat st). cbv zeta in Hcat. rewrite H in Hcat. destruct Hcat as [<- Hc].
    split; [right|done]. by exists change, (Ok u').
  - intros [= <- <-]. split; [right|done]. by exists change, (Err e).
Qed.

(** A temporary view hides the storage of the table with the same name: with
    such a view, [ALTER TABLE] on the unqualified name alters the table in the
    catalog and does not touch the storage, whatever the format of the
    table. *)
Theorem shadowed_alter_skips_storage name view if_exists o s :
  cm_temporary_views (w_manager (cs_world s)) !! name = Some view →
  execute_alter_table [name] if_exists o s =
    (let '(r, w) := manager_alter_table [name] o (cs_world s) in
     (match r with Ok _ => Ok (ret_bool true) | Err e => Err e end,
      MkCommandState w (cs_storage s))).
Proof.
  intros Hv.
  assert (get_table_or_view [name] (cs_world s) =
    (Ok (temporary_view_status name view), cs_world s)) as Hg.
  { unfold get_table_or_view, on_not_found, get_temporary_view, mbind, catalog_bind,
      on_temporary_views, temp_get_view, catalog_read. rewrite Hv.
    destruct s as [[[] ?] ?]. done. }
  rewrite (execute_alter_found _ _ _ _ _ _ Hg). simpl. unfold mbind, catalog_bind, managed. simpl.
  by destruct (manager_alter_table [name] o (cs_world s)) as [[[]|e] w].
Qed.
End theorems.
