(* ===== verification/DeltaSpec.v ===== *)
(** * Actions of the Delta log

    [zelox-delta-lake/src/spec/]: the actions of a commit ([actions.rs]), the
    protocol with its table features ([protocol.rs]), the metadata of a table
    ([metadata.rs]), the rows of a checkpoint ([checkpoint.rs]), the version
    checksum ([checksum.rs]), the operations ([operation.rs]) and the errors
    ([error.rs]). *)

From Stdlib Require Import Ascii String.
From S2P Require Import Prelude Collections.

(** ** 64-bit integers *)
Definition i64_min : Z := -9223372036854775808.
Definition i64_max : Z := 9223372036854775807.
Definition is_i64 (z : Z) : bool := ((i64_min <=? z) && (z <=? i64_max))%Z.
Definition checked_i64 (z : Z) : option Z := if is_i64 z then Some z else None.
Definition saturate_i64 (z : Z) : Z := Z.max i64_min (Z.min z i64_max).

(** ** JSON values

    [serde_json::Value]; the numbers that are not integers are opaque. *)
Inductive Json :=
| JsonNull
| JsonBool (b : bool)
| JsonInteger (z : Z)
| JsonFloat (repr : string)
| JsonString (s : string)
| JsonArray (l : list Json)
| JsonObject (l : list (string * Json)).

Definition json_as_i64 (j : Json) : option Z :=
  match j with JsonInteger z => checked_i64 z | _ => None end.
Definition json_as_str (j : Json) : option string :=
  match j with JsonString s => Some s | _ => None end.

(** ** Protocol and metadata *)
Inductive TableFeature :=
| AppendOnly | Invariants | CheckConstraints | ChangeDataFeed | AllowColumnDefaults
| GeneratedColumns | IdentityColumns | ColumnMapping | DeletionVectors | RowTracking
| DomainMetadataFeature | V2Checkpoint | InCommitTimestamp | TimestampWithoutTimezone
| IcebergCompatV1 | IcebergCompatV2 | Clustering | VacuumProtocolCheck | VariantType
| TypeWideningPreview | TypeWidening | CatalogManaged | UnknownFeature.
#[global] Instance TableFeature_eq_dec : EqDecision TableFeature.
Proof. solve_decision. Defined.

(** [TableFeature::as_str]. *)
Definition feature_as_str (f : TableFeature) : string :=
  match f with
  | AppendOnly => "appendOnly"
  | Invariants => "invariants"
  | CheckConstraints => "checkConstraints"
  | ChangeDataFeed => "changeDataFeed"
  | AllowColumnDefaults => "allowColumnDefaults"
  | GeneratedColumns => "generatedColumns"
  | IdentityColumns => "identityColumns"
  | ColumnMapping => "columnMapping"
  | DeletionVectors => "deletionVectors"
  | RowTracking => "rowTracking"
  | DomainMetadataFeature => "domainMetadata"
  | V2Checkpoint => "v2Checkpoint"
  | InCommitTimestamp => "inCommitTimestamp"
  | TimestampWithoutTimezone => "timestampNtz"
  | IcebergCompatV1 => "icebergCompatV1"
  | IcebergCompatV2 => "icebergCompatV2"
  | Clustering => "clustering"
  | VacuumProtocolCheck => "vacuumProtocolCheck"
  | VariantType => "variantType"
  | TypeWideningPreview => "typeWidening-preview"
  | TypeWidening => "typeWidening"
  | CatalogManaged => "catalogManaged"
  | UnknownFeature => "unknown"
  end.
(** The names that [TableFeature::parse_str_name] accepts. *)
Definition feature_names : list (string * TableFeature) :=
  [("appendOnly", AppendOnly); ("invariants", Invariants);
   ("checkConstraints", CheckConstraints); ("changeDataFeed", ChangeDataFeed);
   ("allowColumnDefaults", AllowColumnDefaults); ("generatedColumns", GeneratedColumns);
   ("identityColumns", IdentityColumns); ("columnMapping", ColumnMapping);
   ("deletionVectors", DeletionVectors); ("rowTracking", RowTracking);
   ("domainMetadata", DomainMetadataFeature); ("v2Checkpoint", V2Checkpoint);
   ("inCommitTimestamp", InCommitTimestamp); ("timestampNtz", TimestampWithoutTimezone);
   ("icebergCompatV1", IcebergCompatV1); ("icebergCompatV2", IcebergCompatV2);
   ("clustering", Clustering); ("vacuumProtocolCheck", VacuumProtocolCheck);
   ("variantType", VariantType); ("typeWidening-preview", TypeWideningPreview);
   ("typeWidening", TypeWidening); ("catalogManaged", CatalogManaged)].

Record Protocol := MkProtocol {
  pr_min_reader_version : Z;
  pr_min_writer_version : Z;
  pr_reader_features : option (list TableFeature);
  pr_writer_features : option (list TableFeature)
}.
#[global] Instance Protocol_eq_dec : EqDecision Protocol.
Proof. solve_decision. Defined.

Definition non_empty {A} (l : option (list A)) : option (list A) :=
  match l with Some [] => None | l => l end.
Definition protocol_new (reader writer : Z) (rf wf : option (list TableFeature)) : Protocol :=
  MkProtocol reader writer (non_empty rf) (non_empty wf).

Definition has_reader_feature (p : Protocol) (f : TableFeature) : bool :=
  match pr_reader_features p with Some l => bool_decide (f ∈ l) | None => false end.
Definition has_writer_feature (p : Protocol) (f : TableFeature) : bool :=
  match pr_writer_features p with Some l => bool_decide (f ∈ l) | None => false end.
Definition supports_in_commit_timestamps (p : Protocol) : bool :=
  (7 <=? pr_min_writer_version p)%Z && has_writer_feature p InCommitTimestamp.

Record Format := MkFormat { fmt_provider : string; fmt_options : gmap string string }.
#[global] Instance Format_eq_dec : EqDecision Format.
Proof. solve_decision. Defined.

Record Metadata := MkMetadata {
  me_id : string;
  me_name : option string;
  me_description : option string;
  me_format : Format;
  me_schema_string : string;
  me_partition_columns : list string;
  me_created_time : option Z;
  me_configuration : gmap string string
}.
#[global] Instance Metadata_eq_dec : EqDecision Metadata.
Proof. solve_decision. Defined.

Definition me_with_configuration (m : Metadata) (c : gmap string string) : Metadata :=
  MkMetadata (me_id m) (me_name m) (me_description m) (me_format m) (me_schema_string m)
    (me_partition_columns m) (me_created_time m) c.
Definition add_config_key (m : Metadata) (key value : string) : Metadata :=
  me_with_configuration m (<[key := value]> (me_configuration m)).
Definition remove_config_key (m : Metadata) (key : string) : Metadata :=
  me_with_configuration m (delete key (me_configuration m)).

(** ** File actions *)
Inductive StorageType := UuidRelativePath | Inline | AbsolutePath.
Definition storage_type_str (t : StorageType) : string :=
  match t with UuidRelativePath => "u" | Inline => "i" | AbsolutePath => "p" end.

Record DeletionVectorDescriptor := MkDeletionVectorDescriptor {
  dv_storage_type : StorageType;
  dv_path_or_inline_dv : string;
  dv_offset : option Z;
  dv_size_in_bytes : Z;
  dv_cardinality : Z
}.

(** [DeletionVectorDescriptor::unique_id]. *)
Definition unique_id (d : DeletionVectorDescriptor) : string :=
  match dv_offset d with
  | None => storage_type_str (dv_storage_type d) +:+ dv_path_or_inline_dv d
  | Some offset =>
      storage_type_str (dv_storage_type d) +:+ dv_path_or_inline_dv d +:+ "@" +:+ pretty offset
  end.

Record Add := MkAdd {
  add_path : string;
  add_partition_values : gmap string (option string);
  add_size : Z;
  add_modification_time : Z;
  add_data_change : bool;
  add_stats : option string;
  add_tags : option (gmap string (option string));
  add_deletion_vector : option DeletionVectorDescriptor;
  add_base_row_id : option Z;
  add_default_row_commit_version : option Z;
  add_clustering_provider : option string;
  add_commit_version : option Z;
  add_commit_timestamp : option Z
}.

Record Remove := MkRemove {
  rm_path : string;
  rm_data_change : bool;
  rm_deletion_timestamp : option Z;
  rm_extended_file_metadata : option bool;
  rm_partition_values : option (gmap string (option string));
  rm_size : option Z;
  rm_stats : option string;
  rm_tags : option (gmap string (option string));
  rm_deletion_vector : option DeletionVectorDescriptor;
  rm_base_row_id : option Z;
  rm_default_row_commit_version : option Z
}.

Record RemoveOptions := MkRemoveOptions {
  ro_extended_file_metadata : option bool;
  ro_include_tags : bool
}.
Definition remove_options_default : RemoveOptions := MkRemoveOptions None true.

(** [Add::into_remove_with_options] and [Add::into_remove]. *)
Definition into_remove_with_options (a : Add) (deletion_timestamp : Z) (o : RemoveOptions)
    : Remove :=
  MkRemove (add_path a) true (Some deletion_timestamp) (ro_extended_file_metadata o)
    (Some (add_partition_values a)) (Some (add_size a)) None
    (if ro_include_tags o then add_tags a else None) (add_deletion_vector a)
    (add_base_row_id a) (add_default_row_commit_version a).
Definition into_remove (a : Add) (deletion_timestamp : Z) : Remove :=
  into_remove_with_options a deletion_timestamp remove_options_default.

Record AddCDCFile := MkAddCDCFile {
  cdc_path : string;
  cdc_partition_values : gmap string (option string);
  cdc_size : Z;
  cdc_data_change : bool;
  cdc_tags : option (gmap string (option string))
}.

Record Transaction := MkTransaction {
  tx_app_id : string;
  tx_version : Z;
  tx_last_updated : option Z
}.

Inductive IsolationLevel := Serializable | WriteSerializable | SnapshotIsolation.
#[global] Instance IsolationLevel_eq_dec : EqDecision IsolationLevel.
Proof. solve_decision. Defined.

Record CommitInfo := MkCommitInfo {
  ci_timestamp : option Z;
  ci_user_id : option string;
  ci_user_name : option string;
  ci_operation : option string;
  ci_operation_parameters : option (gmap string Json);
  ci_read_version : option Z;
  ci_isolation_level : option IsolationLevel;
  ci_is_blind_append : option bool;
  ci_engine_info : option string;
  ci_in_commit_timestamp : option Z;
  ci_info : gmap string Json;
  ci_user_metadata : option string
}.

Record DomainMetadata := MkDomainMetadata {
  dm_domain : string;
  dm_configuration : string;
  dm_removed : bool
}.
Record CheckpointMetadata := MkCheckpointMetadata {
  cm_version : Z;
  cm_tags : option (gmap string (option string))
}.
Record Sidecar := MkSidecar {
  sc_path : string;
  sc_size_in_bytes : Z;
  sc_modification_time : Z;
  sc_tags : option (gmap string (option string))
}.

(** ** Actions *)
Inductive Action :=
| AMetadata (m : Metadata)
| AProtocol (p : Protocol)
| AAdd (a : Add)
| ARemove (r : Remove)
| ACdc (c : AddCDCFile)
| ATxn (t : Transaction)
| ACommitInfo (c : CommitInfo)
| ADomainMetadata (d : DomainMetadata)
| ACheckpointMetadata (c : CheckpointMetadata)
| ASidecar (s : Sidecar).

(** The actions of a commit file; those of a checkpoint only are excluded. *)
Inductive CommitAction :=
| CMetadata (m : Metadata)
| CProtocol (p : Protocol)
| CAdd (a : Add)
| CRemove (r : Remove)
| CCdc (c : AddCDCFile)
| CTxn (t : Transaction)
| CCommitInfo (c : CommitInfo)
| CDomainMetadata (d : DomainMetadata).

Definition action_of_commit (a : CommitAction) : Action :=
  match a with
  | CMetadata m => AMetadata m
  | CProtocol p => AProtocol p
  | CAdd a => AAdd a
  | CRemove r => ARemove r
  | CCdc c => ACdc c
  | CTxn t => ATxn t
  | CCommitInfo c => ACommitInfo c
  | CDomainMetadata d => ADomainMetadata d
  end.

Record CheckpointActionRow := MkRow {
  row_add : option Add;
  row_remove : option Remove;
  row_metadata : option Metadata;
  row_protocol : option Protocol;
  row_txn : option Transaction;
  row_domain_metadata : option DomainMetadata;
  row_checkpoint_metadata : option CheckpointMetadata;
  row_sidecar : option Sidecar
}.

(** A row of a checkpoint file: the columns [add.stats] and [add.stats_parsed] are
    apart, because a file may be without either; a row of the struct column is a
    tree.  The statistics in [sr_row] are not in use. *)
Record StoredRow := MkStoredRow {
  sr_row : CheckpointActionRow;
  sr_stats : option (option string);
  sr_stats_parsed : option (option Json)
}.
Definition add_with_stats (stats : option string) (a : Add) : Add :=
  MkAdd (add_path a) (add_partition_values a) (add_size a) (add_modification_time a)
    (add_data_change a) stats (add_tags a) (add_deletion_vector a) (add_base_row_id a)
    (add_default_row_commit_version a) (add_clustering_provider a) (add_commit_version a)
    (add_commit_timestamp a).
Definition row_with_stats (stats : option string) (r : CheckpointActionRow) : CheckpointActionRow :=
  MkRow (add_with_stats stats <$> row_add r) (row_remove r) (row_metadata r) (row_protocol r)
    (row_txn r) (row_domain_metadata r) (row_checkpoint_metadata r) (row_sidecar r).
Definition row_stats (r : CheckpointActionRow) : option string := row_add r ≫= add_stats.

Record VersionChecksum := MkVersionChecksum {
  vc_txn_id : option string;
  vc_table_size_bytes : Z;
  vc_num_files : Z;
  vc_num_metadata : Z;
  vc_num_protocol : Z;
  vc_in_commit_timestamp_opt : option Z;
  vc_set_transactions : option (list Transaction);
  vc_domain_metadata : option (list DomainMetadata);
  vc_metadata : Metadata;
  vc_protocol : Protocol;
  vc_file_size_histogram : option Json;
  vc_all_files : option (list Add)
}.

(** ** Errors *)
Inductive CommitConflictError :=
| ConcurrentAppend
| ConcurrentDeleteRead
| ConcurrentDeleteDelete
| MetadataChanged
| ConcurrentDomainMetadata (domain : string)
| ConcurrentTransaction
| ProtocolChanged (msg : string)
| UnsupportedWriterVersion (version : Z)
| UnsupportedReaderVersion (version : Z)
| CorruptedState (source : string)
| PredicateError (source : string)
| NoMetadata.

Inductive TransactionError :=
| VersionAlreadyExists (version : Z)
| SerializeLogJson (json_err : string)
| TxObjectStore (source : string)
| CommitConflict (e : CommitConflictError)
| MaxCommitAttempts (n : Z)
| DeltaTableAppendOnly
| UnsupportedTableFeatures (l : list TableFeature)
| TableFeaturesRequired (f : TableFeature)
| LogStoreError (msg source : string).

(** The errors of the code itself; those of libraries are one constructor. *)
Inductive DeltaError :=
| DeMissingVersion
| DeInvalidTableLocation (location : string)
| DeFileNotFound (path : string)
| DeMissingColumn (name : string)
| DeSchema (msg : string)
| DeGeneric (msg : string)
| DeExternal (source : string)
| DeUnsupported (msg : string)
| DeInternalError (msg : string)
| DeMissingMetadata
| DeMissingProtocol
| DeMissingMetadataAndProtocol
| DeParseError (value ty : string)
| DeConfig (msg : string)
| DeTransaction (e : TransactionError).
Notation DeltaResult := (Result DeltaError).

Definition action_try_into_commit (a : Action) : DeltaResult CommitAction :=
  match a with
  | AMetadata m => Ok (CMetadata m)
  | AProtocol p => Ok (CProtocol p)
  | AAdd a => Ok (CAdd a)
  | ARemove r => Ok (CRemove r)
  | ACdc c => Ok (CCdc c)
  | ATxn t => Ok (CTxn t)
  | ACommitInfo c => Ok (CCommitInfo c)
  | ADomainMetadata d => Ok (CDomainMetadata d)
  | ACheckpointMetadata _ | ASidecar _ =>
      Err (DeGeneric ("checkpoint-only actions (CheckpointMetadata, Sidecar) are not allowed " +:+
                      "in commit files"))
  end.

Definition parse_str_name (value : string) : DeltaResult TableFeature :=
  match List.find (λ x, String.eqb value x.1) feature_names with
  | Some (_, f) => Ok f
  | None => Err (DeGeneric ("Unknown table feature: " +:+ value))
  end.

(** ** Operations *)
Inductive SaveMode := SmAppend | SmOverwrite | SmErrorIfExists | SmIgnore.
Record MergePredicate := MkMergePredicate {
  mp_action_type : string;
  mp_predicate : option string
}.
Inductive DeltaOperation :=
| OpCreate (mode : SaveMode) (location : string) (protocol : Protocol) (metadata : Metadata)
| OpWrite (mode : SaveMode) (partition_by : option (list string)) (predicate : option string)
| OpDelete (predicate : option string)
| OpMerge (predicate merge_predicate : option string)
    (matched not_matched not_matched_by_source : list MergePredicate)
| OpFileSystemCheck
| OpRestore (version datetime : option Z)
| OpSetTableProperties (properties : gmap string string)
| OpUnsetTableProperties (properties : list string)
| OpAlterColumn (column : Json)
| OpAddColumns (fields : list Json)
| OpDropColumns (fields : list string)
| OpRenameColumn (column new_name : string).

Definition operation_name (op : DeltaOperation) : string :=
  match op with
  | OpCreate SmOverwrite _ _ _ => "CREATE OR REPLACE TABLE"
  | OpCreate _ _ _ _ => "CREATE TABLE"
  | OpWrite _ _ _ => "WRITE"
  | OpDelete _ => "DELETE"
  | OpMerge _ _ _ _ _ => "MERGE"
  | OpFileSystemCheck => "FSCK"
  | OpRestore _ _ => "RESTORE"
  | OpSetTableProperties _ => "SET TBLPROPERTIES"
  | OpUnsetTableProperties _ => "UNSET TBLPROPERTIES"
  | OpAlterColumn _ => "CHANGE COLUMN"
  | OpAddColumns _ => "ADD COLUMNS"
  | OpDropColumns _ => "DROP COLUMNS"
  | OpRenameColumn _ _ => "RENAME COLUMN"
  end.

Definition changes_data (op : DeltaOperation) : bool :=
  match op with OpFileSystemCheck => false | _ => true end.
Definition read_predicate (op : DeltaOperation) : option string :=
  match op with
  | OpWrite _ _ predicate => predicate
  | OpDelete predicate => predicate
  | OpMerge predicate _ _ _ _ => predicate
  | _ => None
  end.
Definition read_whole_table (op : DeltaOperation) : bool :=
  match op with OpMerge None _ _ _ _ => true | _ => false end.
