(* ===== verification/DeltaProperties.v ===== *)
(** * Table properties of a Delta table

    [zelox-delta-lake/src/spec/properties.rs]: the typed properties read from the
    configuration of the metadata, their aliases and their validation. *)

From Stdlib Require Import Ascii String.
From S2P Require Import Prelude Collections CatalogNames DeltaSpec.

Inductive ColumnMappingMode := ModeNone | ModeName | ModeId.

(** What the model does not look into: the schema of a table ([spec/schema.rs])
    but for the names of its fields and the keys of their metadata, and its
    conversion to an Arrow schema; the list of columns of a property, the JSON of
    operation parameters; and of the rows of a checkpoint the schema of the
    statistics of given columns, Arrow's reader and writer of a line of JSON, and
    whether [serde_arrow], the parser of partition values and the Parquet writer
    accept a batch of them. *)
Class DeltaEngine := {
  Schema : Type;
  Schema_eq_dec :: EqDecision Schema;
  parse_schema_string : string → option Schema;
  arrow_schema : Schema → DeltaResult unit;
  contains_timestampntz : Schema → bool;
  contains_variant : Schema → bool;
  parse_column_name_list : string → option (list (list string));
  operation_parameters : DeltaOperation → option (gmap string Json);
  package_version : string;
  StructField : Type;
  schema_fields : Schema → list StructField;
  struct_field_name : StructField → string;
  struct_field_metadata : StructField → gset string;
  StatsSchema : Type;
  stats_schema : list StructField → ColumnMappingMode → gmap string string → DeltaResult StatsSchema;
  read_stats_json : StatsSchema → string → DeltaResult Json;
  write_stats_json : Json → string;
  parse_partition_values :
    list StructField → ColumnMappingMode → list CheckpointActionRow → DeltaResult unit;
  to_record_batch : list CheckpointActionRow → DeltaResult unit;
  write_record_batch : list StoredRow → DeltaResult unit
}.

(** [Metadata::parse_schema]. *)
Definition parse_schema `{DeltaEngine} (m : Metadata) : DeltaResult Schema :=
  match parse_schema_string (me_schema_string m) with
  | Some schema => Ok schema
  | None => Err (DeExternal "serde_json")
  end.

(** ** Parsing of values *)
Definition digit_value (c : ascii) : option Z :=
  let n := Z.of_N (N_of_ascii c) in
  if ((48 <=? n) && (n <=? 57))%Z then Some (n - 48)%Z else None.
Fixpoint parse_digits (acc : Z) (s : string) : option Z :=
  match s with
  | EmptyString => Some acc
  | String c s => d ← digit_value c; parse_digits (10 * acc + d) s
  end.

(** [str::parse::<i64>()]: an optional sign, at least one digit, in range. *)
Definition parse_i64 (s : string) : option Z :=
  match s with
  | EmptyString => None
  | String c rest =>
      let '(sign, digits) :=
        if Ascii.eqb c "-" then ((-1)%Z, rest) else if Ascii.eqb c "+" then (1%Z, rest)
        else (1%Z, s) in
      match digits with
      | EmptyString => None
      | _ => z ← parse_digits 0 digits; checked_i64 (sign * z)
      end
  end.

Definition parse_positive_int (s : string) : option N :=
  n ← parse_i64 s; if (n <=? 0)%Z then None else Some (Z.to_N n).
Definition parse_bool (s : string) : option bool :=
  if String.eqb s "true" then Some true else if String.eqb s "false" then Some false else None.
Definition parse_non_negative_i64 (s : string) : option Z :=
  value ← parse_i64 s; if (0 <=? value)%Z then Some value else None.

(** [str::split_whitespace]: every step consumes a byte. *)
Fixpoint split_words (fuel : nat) (word s : list ascii) : list string :=
  let flush := if bool_decide (word = []) then [] else [string_of_list_ascii (reverse word)] in
  match fuel, s with
  | O, _ | _, [] => flush
  | S fuel, c :: rest =>
      match strip_first (list_ascii_of_string <$> whitespace_encodings) s with
      | Some rest => flush ++ split_words fuel [] rest
      | None => split_words fuel (c :: word) rest
      end
  end.
Definition split_whitespace (s : string) : list string :=
  let s := list_ascii_of_string s in split_words (length s) [] s.

(** A [Duration] in nanoseconds.  The product of seconds is one of [u64], which
    wraps around in a release build. *)
Definition Duration := N.
Definition from_secs (n : N) : Duration := (n * 1000000000)%N.
Definition wrapping_mul_u64 (a b : N) : N := ((a * b) mod 18446744073709551616)%N.
Definition as_millis (d : Duration) : N := (d / 1000000)%N.

Definition interval_unit (number : N) (unit : string) : option Duration :=
  let named := λ l : list string, bool_decide (unit ∈ l) in
  if named ["nanosecond"; "nanoseconds"] then Some number
  else if named ["microsecond"; "microseconds"] then Some (number * 1000)%N
  else if named ["millisecond"; "milliseconds"] then Some (number * 1000000)%N
  else if named ["second"; "seconds"] then Some (from_secs number)
  else if named ["minute"; "minutes"] then Some (from_secs (wrapping_mul_u64 number 60))
  else if named ["hour"; "hours"] then Some (from_secs (wrapping_mul_u64 number 3600))
  else if named ["day"; "days"] then Some (from_secs (wrapping_mul_u64 number 86400))
  else if named ["week"; "weeks"] then Some (from_secs (wrapping_mul_u64 number 604800))
  else None.

Definition parse_interval (s : string) : option Duration :=
  match split_whitespace s with
  | w :: number :: unit :: _ =>
      if String.eqb w "interval" then
        number ← parse_i64 number;
        if (number <? 0)%Z then None else interval_unit (Z.to_N number) unit
      else None
  | _ => None
  end.

Definition isolation_level_from_str (s : string) : option IsolationLevel :=
  let s := to_ascii_lowercase s in
  if String.eqb s "serializable" then Some Serializable
  else if String.eqb s "writeserializable" || String.eqb s "write_serializable"
  then Some WriteSerializable
  else if String.eqb s "snapshotisolation" || String.eqb s "snapshot_isolation"
  then Some SnapshotIsolation
  else None.

Definition column_mapping_mode_try_from (s : string) : option ColumnMappingMode :=
  let s := to_ascii_lowercase s in
  if String.eqb s "none" then Some ModeNone else if String.eqb s "name" then Some ModeName
  else if String.eqb s "id" then Some ModeId else None.

Inductive DataSkippingNumIndexedCols := AllColumns | NumColumns (n : N).
Definition num_indexed_cols_try_from (s : string) : option DataSkippingNumIndexedCols :=
  num ← parse_i64 s;
  if (num =? -1)%Z then Some AllColumns
  else if (0 <=? num)%Z then Some (NumColumns (Z.to_N num)) else None.

(** ** The typed properties *)
Record TableProperties := MkTableProperties {
  tp_append_only : option bool;
  tp_checkpoint_interval : option N;
  tp_checkpoint_write_stats_as_json : option bool;
  tp_checkpoint_write_stats_as_struct : option bool;
  tp_write_checksum_file_enabled : option bool;
  tp_enable_in_commit_timestamps : option bool;
  tp_enable_type_widening : option bool;
  tp_in_commit_timestamp_enablement_version : option Z;
  tp_in_commit_timestamp_enablement_timestamp : option Z;
  tp_column_mapping_mode : option ColumnMappingMode;
  tp_data_skipping_num_indexed_cols : option DataSkippingNumIndexedCols;
  tp_data_skipping_stats_columns : option (list (list string));
  tp_deleted_file_retention_duration : option Duration;
  tp_isolation_level : option IsolationLevel;
  tp_log_retention_duration : option Duration;
  tp_enable_expired_log_cleanup : option bool;
  tp_log_compaction_interval : option N
}.
Definition table_properties_default : TableProperties :=
  MkTableProperties None None None None None None None None None None None None None None None
    None None.

Section properties.
Context `{DE : DeltaEngine}.
Implicit Types (p : TableProperties).

(** [try_parse_table_property]: [None] when the key is unknown or the value of a
    checked property is not well formed. *)
Definition try_parse_table_property p (key value : string) : option TableProperties :=
  match p with
  | MkTableProperties a b c d e f g h i j k l m n o q r =>
    let named := String.eqb key in
    if named "delta.appendOnly" then
      x ← parse_bool value; Some (MkTableProperties (Some x) b c d e f g h i j k l m n o q r)
    else if named "delta.checkpointInterval" then
      x ← parse_positive_int value; Some (MkTableProperties a (Some x) c d e f g h i j k l m n o q r)
    else if named "delta.checkpoint.writeStatsAsJson" then
      x ← parse_bool value; Some (MkTableProperties a b (Some x) d e f g h i j k l m n o q r)
    else if named "delta.checkpoint.writeStatsAsStruct" then
      x ← parse_bool value; Some (MkTableProperties a b c (Some x) e f g h i j k l m n o q r)
    else if named "delta.writeChecksumFile.enabled" then
      x ← parse_bool value; Some (MkTableProperties a b c d (Some x) f g h i j k l m n o q r)
    else if named "delta.enableInCommitTimestamps" then
      x ← parse_bool value; Some (MkTableProperties a b c d e (Some x) g h i j k l m n o q r)
    else if named "delta.enableTypeWidening" then
      x ← parse_bool value; Some (MkTableProperties a b c d e f (Some x) h i j k l m n o q r)
    else if named "delta.inCommitTimestampEnablementVersion" then
      x ← parse_non_negative_i64 value;
      Some (MkTableProperties a b c d e f g (Some x) i j k l m n o q r)
    else if named "delta.inCommitTimestampEnablementTimestamp" then
      x ← parse_i64 value; Some (MkTableProperties a b c d e f g h (Some x) j k l m n o q r)
    else if named "delta.columnMapping.mode" then
      Some (MkTableProperties a b c d e f g h i (column_mapping_mode_try_from value) k l m n o q r)
    else if named "delta.dataSkippingNumIndexedCols" then
      Some (MkTableProperties a b c d e f g h i j (num_indexed_cols_try_from value) l m n o q r)
    else if named "delta.dataSkippingStatsColumns" then
      Some (MkTableProperties a b c d e f g h i j k (parse_column_name_list value) m n o q r)
    else if named "delta.deletedFileRetentionDuration" then
      Some (MkTableProperties a b c d e f g h i j k l (parse_interval value) n o q r)
    else if named "delta.isolationLevel" then
      Some (MkTableProperties a b c d e f g h i j k l m (isolation_level_from_str value) o q r)
    else if named "delta.logRetentionDuration" then
      Some (MkTableProperties a b c d e f g h i j k l m n (parse_interval value) q r)
    else if named "delta.enableExpiredLogCleanup" then
      x ← parse_bool value; Some (MkTableProperties a b c d e f g h i j k l m n o (Some x) r)
    else if named "delta.logCompactionInterval" then
      x ← parse_positive_int value;
      Some (MkTableProperties a b c d e f g h i j k l m n o q (Some x))
    else None
  end.

(** The typed properties and, next to them, [unknown_properties]. *)
Definition table_properties_step (st : TableProperties * gmap string string)
    (item : string * string) : TableProperties * gmap string string :=
  match try_parse_table_property st.1 item.1 item.2 with
  | Some p => (p, st.2)
  | None => (st.1, <[item.1 := item.2]> st.2)
  end.
Definition table_properties_from (items : list (string * string))
    : TableProperties * gmap string string :=
  foldl table_properties_step (table_properties_default, ∅) items.

Context `{HO : HashOrder}.
(** [TableProperties::from(metadata.configuration().iter())]. *)
Definition table_properties (m : Metadata) : TableProperties :=
  (table_properties_from (hash_items (me_configuration m))).1.
End properties.

(** ** Defaults *)
Implicit Types (p : TableProperties).
Definition append_only p : bool := default false (tp_append_only p).
Definition log_retention_duration p : Duration :=
  default (from_secs 2592000) (tp_log_retention_duration p).
Definition enable_expired_log_cleanup p : bool := default true (tp_enable_expired_log_cleanup p).
Definition checkpoint_interval p : N := default 10%N (tp_checkpoint_interval p).
Definition write_checksum_file_enabled p : bool :=
  default true (tp_write_checksum_file_enabled p).
Definition enable_in_commit_timestamps p : bool :=
  default false (tp_enable_in_commit_timestamps p).
Definition enable_type_widening p : bool := default false (tp_enable_type_widening p).
Definition in_commit_timestamp_enablement p : option (Z * Z) :=
  v ← tp_in_commit_timestamp_enablement_version p;
  t ← tp_in_commit_timestamp_enablement_timestamp p; Some (v, t).
Definition deleted_file_retention_duration p : Duration :=
  default (from_secs 604800) (tp_deleted_file_retention_duration p).
Definition isolation_level p : IsolationLevel := default Serializable (tp_isolation_level p).

(** [Protocol::is_in_commit_timestamps_enabled]. *)
Definition is_in_commit_timestamps_enabled (pr : Protocol) p : bool :=
  supports_in_commit_timestamps pr && enable_in_commit_timestamps p.

(** ** Keys *)

(** The lower-case names of each property. *)
Definition property_aliases : list (list string * string) :=
  [(["delta.appendonly"; "append_only"; "appendonly"], "delta.appendOnly");
   (["delta.checkpointinterval"; "checkpoint_interval"; "checkpointinterval"],
    "delta.checkpointInterval");
   (["delta.checkpoint.writestatsasjson"; "checkpoint_write_stats_as_json";
     "checkpointwritestatsasjson"], "delta.checkpoint.writeStatsAsJson");
   (["delta.checkpoint.writestatsasstruct"; "checkpoint_write_stats_as_struct";
     "checkpointwritestatsasstruct"], "delta.checkpoint.writeStatsAsStruct");
   (["delta.writechecksumfile.enabled"; "write_checksum_file_enabled";
     "writechecksumfileenabled"], "delta.writeChecksumFile.enabled");
   (["delta.enableincommittimestamps"; "enable_in_commit_timestamps";
     "enableincommittimestamps"], "delta.enableInCommitTimestamps");
   (["delta.enabletypewidening"; "enable_type_widening"; "enabletypewidening"],
    "delta.enableTypeWidening");
   (["delta.incommittimestampenablementversion"; "in_commit_timestamp_enablement_version";
     "incommittimestampenablementversion"], "delta.inCommitTimestampEnablementVersion");
   (["delta.incommittimestampenablementtimestamp"; "in_commit_timestamp_enablement_timestamp";
     "incommittimestampenablementtimestamp"], "delta.inCommitTimestampEnablementTimestamp");
   (["delta.columnmapping.mode"; "column_mapping_mode"; "columnmappingmode"; "column_mapping"],
    "delta.columnMapping.mode");
   (["delta.dataskippingnumindexedcols"; "data_skipping_num_indexed_cols";
     "dataskippingnumindexedcols"], "delta.dataSkippingNumIndexedCols");
   (["delta.dataskippingstatscolumns"; "data_skipping_stats_columns";
     "dataskippingstatscolumns"], "delta.dataSkippingStatsColumns");
   (["delta.deletedfileretentionduration"; "deleted_file_retention_duration";
     "deletedfileretentionduration"], "delta.deletedFileRetentionDuration");
   (["delta.isolationlevel"; "isolation_level"; "isolationlevel"], "delta.isolationLevel");
   (["delta.logretentionduration"; "log_retention_duration"; "logretentionduration"],
    "delta.logRetentionDuration");
   (["delta.enableexpiredlogcleanup"; "enable_expired_log_cleanup"; "enableexpiredlogcleanup"],
    "delta.enableExpiredLogCleanup");
   (["delta.logcompactioninterval"; "log_compaction_interval"; "logcompactioninterval"],
    "delta.logCompactionInterval")].

Definition canonicalize_table_property_key (key : string) : option string :=
  snd <$> List.find (λ x, bool_decide (to_ascii_lowercase key ∈ x.1)) property_aliases.

(** The byte slice [key[..6]] is taken at a character boundary. *)
Definition route_table_property_key (key : string) : option string :=
  match canonicalize_table_property_key key with
  | Some canonical => Some canonical
  | None =>
      let prefix := String.substring 0 6 key in
      if (6 <=? String.length key) && eq_ignore_ascii_case prefix "delta." then
        if String.eqb prefix "delta." then Some key
        else Some ("delta." +:+ String.substring 6 (String.length key - 6) key)
      else None
  end.

Section validation.
Context `{DE : DeltaEngine}.

Definition check_value {A} (parsed : option A) (msg : string) : DeltaResult unit :=
  match parsed with Some _ => Ok tt | None => Err (DeGeneric msg) end.

Definition validate_table_property (key value : string) : DeltaResult unit :=
  let named := λ l : list string, bool_decide (key ∈ l) in
  if named ["delta.appendOnly"; "delta.checkpoint.writeStatsAsJson";
         "delta.checkpoint.writeStatsAsStruct"; "delta.writeChecksumFile.enabled";
         "delta.enableInCommitTimestamps"; "delta.enableTypeWidening";
         "delta.enableExpiredLogCleanup"]
  then check_value (parse_bool value) ("invalid boolean value for " +:+ key +:+ ": " +:+ value)
  else if named ["delta.checkpointInterval"; "delta.logCompactionInterval"]
  then check_value (parse_positive_int value)
         ("invalid value for " +:+ key +:+ ": expected positive integer")
  else if named ["delta.inCommitTimestampEnablementVersion"]
  then check_value (parse_non_negative_i64 value)
         ("invalid value for " +:+ key +:+ ": expected non-negative integer")
  else if named ["delta.inCommitTimestampEnablementTimestamp"]
  then check_value (parse_i64 value) ("invalid value for " +:+ key +:+ ": expected integer")
  else if named ["delta.columnMapping.mode"]
  then check_value (column_mapping_mode_try_from value)
         ("Invalid column mapping mode: " +:+ to_ascii_lowercase value)
  else if named ["delta.dataSkippingNumIndexedCols"]
  then match parse_i64 value with
       | None => Err (DeGeneric "couldn't parse DataSkippingNumIndexedCols to an integer")
       | Some _ => check_value (num_indexed_cols_try_from value)
                     "couldn't parse DataSkippingNumIndexedCols to positive integer"
       end
  else if named ["delta.dataSkippingStatsColumns"]
  then check_value (parse_column_name_list value) "invalid column name list"
  else if named ["delta.deletedFileRetentionDuration"; "delta.logRetentionDuration"]
  then check_value (parse_interval value)
         ("invalid value for " +:+ key +:+ ": expected Delta interval literal")
  else if named ["delta.isolationLevel"]
  then check_value (isolation_level_from_str value)
         ("Invalid string for IsolationLevel: " +:+ value)
  else Ok tt.

Fixpoint canonicalize_properties (acc : gmap string string) (items : list (string * string))
    : DeltaResult (gmap string string) :=
  match items with
  | [] => Ok acc
  | (key, value) :: items =>
      let key := default key (canonicalize_table_property_key key) in
      _ ← validate_table_property key value;
      canonicalize_properties (<[key := value]> acc) items
  end.
Definition canonicalize_and_validate_table_properties (items : list (string * string))
    : DeltaResult (gmap string string) := canonicalize_properties ∅ items.
End validation.
