(* ===== verification/DeltaLog.v ===== *)
(** * The Delta log: files, replay and checkpoints

    [zelox-delta-lake/src/kernel/checkpoints.rs] and [delta_log/replay.rs]: the
    state that a sequence of actions leads to, loading it from the files of a
    [_delta_log] directory, and writing checkpoints and log compactions.

    A file is its decoded content ([None] when it cannot be decoded) and its time
    of modification.  The files are kept by kind and by the versions in their
    names; a checkpoint also by the rest of its name. *)

From Stdlib Require Import Ascii String.
From S2P Require Import Prelude Collections CatalogNames DeltaSpec DeltaProperties.

(** ** Files *)
Record File (A : Type) := MkFile { file_content : option A; file_modified : Z }.
Arguments MkFile {A} _ _.
Arguments file_content {A} _.
Arguments file_modified {A} _.

(** A checkpoint is a Parquet file of rows or a JSON file of actions. *)
Inductive CheckpointContent :=
| CheckpointRows (rows : list StoredRow)
| CheckpointJson (actions : list Action).

Record LogStore := MkLogStore {
  ls_commits : gmap Z (File (list Action));
  ls_checksums : gmap Z (File VersionChecksum);
  ls_checkpoints : gmap (Z * string) (File CheckpointContent);
  ls_compactions : gmap (Z * Z) (File (list Action));
  ls_sidecars : gmap string (File (list StoredRow));
  ls_last_checkpoint : option Z
}.
Definition log_store_empty : LogStore := MkLogStore ∅ ∅ ∅ ∅ ∅ None.

Definition ls_with_commits (s : LogStore) (x : gmap Z (File (list Action))) : LogStore :=
  MkLogStore x (ls_checksums s) (ls_checkpoints s) (ls_compactions s) (ls_sidecars s)
    (ls_last_checkpoint s).
Definition ls_with_checksums (s : LogStore) (x : gmap Z (File VersionChecksum)) : LogStore :=
  MkLogStore (ls_commits s) x (ls_checkpoints s) (ls_compactions s) (ls_sidecars s)
    (ls_last_checkpoint s).
Definition ls_with_compactions (s : LogStore) (x : gmap (Z * Z) (File (list Action))) : LogStore :=
  MkLogStore (ls_commits s) (ls_checksums s) (ls_checkpoints s) x (ls_sidecars s)
    (ls_last_checkpoint s).

(** Versions are counted in [i64] with saturation. *)
Definition succ_i64 (v : Z) : Z := saturate_i64 (v + 1).
Definition pred_i64 (v : Z) : Z := saturate_i64 (v - 1).

(** [get_actions]; the position of the error is left out of the message. *)
Definition get_actions (version : Z) (f : File (list Action)) : DeltaResult (list Action) :=
  match file_content f with
  | Some l => Ok l
  | None => Err (DeGeneric ("Invalid JSON in log record, version=" +:+ pretty version))
  end.

(** [write_commit_entry]: the file must not be there. *)
Definition write_commit_entry (s : LogStore) (version : Z) (actions : list Action) (now : Z)
    : Result TransactionError unit * LogStore :=
  match ls_commits s !! version with
  | Some _ => (Err (VersionAlreadyExists version), s)
  | None => (Ok tt, ls_with_commits s (<[version := MkFile (Some actions) now]> (ls_commits s)))
  end.

(** ** The reconciled state *)
Notation LogicalFileKey := (string * option string)%type.
Definition logical_file_key (path : string) (dv : option DeletionVectorDescriptor)
    : LogicalFileKey := (path, unique_id <$> dv).
Definition add_key (a : Add) : LogicalFileKey :=
  logical_file_key (add_path a) (add_deletion_vector a).
Definition remove_key (r : Remove) : LogicalFileKey :=
  logical_file_key (rm_path r) (rm_deletion_vector r).

Record ReconciledCheckpointState := MkState {
  rs_protocol : option Protocol;
  rs_metadata : option Metadata;
  rs_txns : gmap string Transaction;
  rs_domain_metadata : gmap string DomainMetadata;
  rs_adds : gmap LogicalFileKey Add;
  rs_removes : gmap LogicalFileKey Remove;
  rs_sidecars : list Sidecar
}.
Definition state_default : ReconciledCheckpointState := MkState None None ∅ ∅ ∅ ∅ [].

Definition apply_protocol (p : Protocol) (s : ReconciledCheckpointState) :=
  MkState (Some p) (rs_metadata s) (rs_txns s) (rs_domain_metadata s) (rs_adds s) (rs_removes s)
    (rs_sidecars s).
Definition apply_metadata (m : Metadata) (s : ReconciledCheckpointState) :=
  MkState (rs_protocol s) (Some m) (rs_txns s) (rs_domain_metadata s) (rs_adds s) (rs_removes s)
    (rs_sidecars s).
Definition apply_txn (t : Transaction) (s : ReconciledCheckpointState) :=
  MkState (rs_protocol s) (rs_metadata s) (<[tx_app_id t := t]> (rs_txns s))
    (rs_domain_metadata s) (rs_adds s) (rs_removes s) (rs_sidecars s).
Definition merge_domain (d : DomainMetadata) (m : gmap string DomainMetadata)
    : gmap string DomainMetadata :=
  if dm_removed d then delete (dm_domain d) m else <[dm_domain d := d]> m.
Definition apply_domain_metadata (d : DomainMetadata) (s : ReconciledCheckpointState) :=
  MkState (rs_protocol s) (rs_metadata s) (rs_txns s) (merge_domain d (rs_domain_metadata s))
    (rs_adds s) (rs_removes s) (rs_sidecars s).
Definition apply_add (a : Add) (s : ReconciledCheckpointState) :=
  MkState (rs_protocol s) (rs_metadata s) (rs_txns s) (rs_domain_metadata s)
    (<[add_key a := a]> (rs_adds s)) (delete (add_key a) (rs_removes s)) (rs_sidecars s).
Definition apply_remove (r : Remove) (s : ReconciledCheckpointState) :=
  MkState (rs_protocol s) (rs_metadata s) (rs_txns s) (rs_domain_metadata s)
    (delete (remove_key r) (rs_adds s)) (<[remove_key r := r]> (rs_removes s)) (rs_sidecars s).
Definition push_sidecar (x : Sidecar) (s : ReconciledCheckpointState) :=
  MkState (rs_protocol s) (rs_metadata s) (rs_txns s) (rs_domain_metadata s) (rs_adds s)
    (rs_removes s) (rs_sidecars s ++ [x]).

(** [ReconciledCheckpointState::apply_action]. *)
Definition apply_action (s : ReconciledCheckpointState) (a : Action)
    : ReconciledCheckpointState :=
  match a with
  | AProtocol p => apply_protocol p s
  | AMetadata m => apply_metadata m s
  | ATxn t => apply_txn t s
  | ADomainMetadata d => apply_domain_metadata d s
  | AAdd a => apply_add a s
  | ARemove r => apply_remove r s
  | ACommitInfo _ | ACdc _ | ACheckpointMetadata _ | ASidecar _ => s
  end.

(** [if let Some(x) = .. { .. }]. *)
Definition when_some {A S} (f : A → S → S) (x : option A) (s : S) : S :=
  match x with Some x => f x s | None => s end.

(** [ReconciledCheckpointState::apply_checkpoint_row]. *)
Definition apply_checkpoint_row (s : ReconciledCheckpointState) (row : CheckpointActionRow)
    : ReconciledCheckpointState :=
  let s := when_some push_sidecar (row_sidecar row) s in
  let s := when_some apply_protocol (row_protocol row) s in
  let s := when_some apply_metadata (row_metadata row) s in
  let s := when_some apply_txn (row_txn row) s in
  let s := when_some apply_domain_metadata (row_domain_metadata row) s in
  let s := when_some apply_add (row_add row) s in
  when_some apply_remove (row_remove row) s.

(** ** Time stamps of commits ([delta_log/timestamps.rs]) *)
Section timestamps.
Context `{DE : DeltaEngine} `{HO : HashOrder}.

Definition in_commit_timestamp_from_actions (actions : list Action) : option Z :=
  head (omap (λ a, match a with ACommitInfo c => ci_in_commit_timestamp c | _ => None end) actions).

(** The last protocol and metadata of the actions, or the current ones. *)
Definition last_protocol (actions : list Action) : option Protocol :=
  last (omap (λ a, match a with AProtocol p => Some p | _ => None end) actions).
Definition last_metadata (actions : list Action) : option Metadata :=
  last (omap (λ a, match a with AMetadata m => Some m | _ => None end) actions).
Definition or_else {A} (x y : option A) : option A := match x with Some _ => x | None => y end.
Definition resolve_effective_protocol_and_metadata (current_protocol : option Protocol)
    (current_metadata : option Metadata) (actions : list Action) : option (Protocol * Metadata) :=
  protocol ← or_else (last_protocol actions) current_protocol;
  metadata ← or_else (last_metadata actions) current_metadata;
  Some (protocol, metadata).

Definition version_uses_in_commit_timestamps (version : Z) (protocol : Protocol)
    (metadata : Metadata) : bool :=
  let properties := table_properties metadata in
  if negb (is_in_commit_timestamps_enabled protocol properties) then false
  else match tp_in_commit_timestamp_enablement_version properties with
       | Some enablement_version => (enablement_version <=? version)%Z
       | None => true
       end.

Definition resolve_commit_timestamp_from_actions (version modified : Z)
    (current_protocol : option Protocol) (current_metadata : option Metadata)
    (actions : list Action) : DeltaResult Z :=
  let uses := match resolve_effective_protocol_and_metadata current_protocol current_metadata
                      actions with
              | Some (protocol, metadata) =>
                  version_uses_in_commit_timestamps version protocol metadata
              | None => false
              end in
  if uses then
    match in_commit_timestamp_from_actions actions with
    | Some t => Ok t
    | None => Err (DeGeneric ("commit " +:+ pretty version +:+ " is missing inCommitTimestamp " +:+
                              "and object metadata fallback is disallowed"))
    end
  else Ok modified.

(** ** Replay of commit files *)

(** One file: its time stamp is resolved before its actions are applied. *)
Definition replay_commit (st : ReconciledCheckpointState * gmap Z Z)
    (version : Z) (f : File (list Action)) : DeltaResult (ReconciledCheckpointState * gmap Z Z) :=
  actions ← get_actions version f;
  t ← resolve_commit_timestamp_from_actions version (file_modified f) (rs_protocol st.1)
        (rs_metadata st.1) actions;
  Ok (foldl apply_action st.1 actions, <[version := t]> st.2).

Definition missing_commit (expected found : Z) : DeltaError :=
  DeGeneric ("Missing commit file while building checkpoint: expected version " +:+
             pretty expected +:+ ", found " +:+ pretty found).
Definition missing_final (expected reached : Z) : DeltaError :=
  DeGeneric ("Missing commit file while building checkpoint: expected final version " +:+
             pretty expected +:+ ", replay reached " +:+ pretty reached).

Fixpoint replay_commits (st : ReconciledCheckpointState * gmap Z Z)
    (entries : list (Z * File (list Action))) (expected start_version end_version : Z)
    : DeltaResult (ReconciledCheckpointState * gmap Z Z * Z) :=
  match entries with
  | [] => Ok (st, expected)
  | (version, f) :: entries =>
      if ((version <? start_version) || (end_version <? version))%Z then
        replay_commits st entries expected start_version end_version
      else if negb (version =? expected)%Z then Err (missing_commit expected version)
      else
        st ← replay_commit st version f;
        replay_commits st entries (succ_i64 expected) start_version end_version
  end.

(** [replay_commit_actions]. *)
Definition replay_commit_actions (state : ReconciledCheckpointState)
    (entries : list (Z * File (list Action))) (start_version end_version : Z)
    : DeltaResult (ReconciledCheckpointState * gmap Z Z) :=
  if (end_version <? start_version)%Z then Ok (state, ∅)
  else
    r ← replay_commits (state, ∅) entries start_version start_version end_version;
    let '(st, expected) := r in
    if (pred_i64 expected =? end_version)%Z then Ok st
    else Err (missing_final end_version (pred_i64 expected)).

(** An entry of the replay sequence, and the sequence itself.  Each round of the
    loop increases the version, so that the number of versions is fuel enough
    ([replay_sequence_fuel] of DeltaSequenceTheorems). *)
Inductive ReplayEntry :=
| ReplayCommit (version : Z) (f : File (list Action))
| ReplayCompaction (start finish : Z) (f : File (list Action)).

Fixpoint drop_before (version : Z) (entries : list (Z * File (list Action)))
    : list (Z * File (list Action)) :=
  match entries with
  | (v, f) :: entries' => if (v <? version)%Z then drop_before version entries' else entries
  | [] => []
  end.

Fixpoint replay_sequence (compactions : gmap Z (Z * File (list Action))) (fuel : nat)
    (version end_version : Z) (commits : list (Z * File (list Action))) : list ReplayEntry :=
  match fuel with
  | O => []
  | S fuel =>
      if (end_version <? version)%Z then []
      else
        match compactions !! version with
        | Some (comp_end, f) =>
            let next := succ_i64 comp_end in
            ReplayCompaction version comp_end f ::
              replay_sequence compactions fuel next end_version (drop_before next commits)
        | None =>
            match commits with
            | (v, f) :: rest =>
                if (v =? version)%Z then
                  ReplayCommit v f ::
                    replay_sequence compactions fuel (succ_i64 version) end_version rest
                else replay_sequence compactions fuel (succ_i64 version) end_version commits
            | [] => []
            end
        end
  end.

Definition compaction_map (compactions : list (Z * Z * File (list Action)))
    : gmap Z (Z * File (list Action)) :=
  foldl (λ m '(s, e, f), <[s := (e, f)]> m) ∅ compactions.
Definition build_replay_sequence (commits : list (Z * File (list Action)))
    (compactions : list (Z * Z * File (list Action))) (start_version end_version : Z)
    : list ReplayEntry :=
  replay_sequence (compaction_map compactions) (Z.to_nat (end_version - start_version + 1)) start_version end_version
    commits.

(** The versions of a compaction, for the loop over [start..=end]. *)
Definition versions (start finish : Z) : list Z := seqZ start (finish - start + 1).

Definition replay_entry (st : ReconciledCheckpointState * gmap Z Z) (e : ReplayEntry)
    : DeltaResult (ReconciledCheckpointState * gmap Z Z) :=
  match e with
  | ReplayCommit version f => replay_commit st version f
  | ReplayCompaction start finish f =>
      actions ← get_actions finish f;
      Ok (foldl apply_action st.1 actions,
          foldl (λ m v, <[v := file_modified f]> m) st.2 (versions start finish))
  end.

Fixpoint replay_entries (st : ReconciledCheckpointState * gmap Z Z) (l : list ReplayEntry)
    : DeltaResult (ReconciledCheckpointState * gmap Z Z) :=
  match l with
  | [] => Ok st
  | e :: l => st ← replay_entry st e; replay_entries st l
  end.

(** [replay_commit_actions_with_compactions]. *)
Definition replay_commit_actions_with_compactions (state : ReconciledCheckpointState)
    (commits : list (Z * File (list Action))) (compactions : list (Z * Z * File (list Action)))
    (start_version end_version : Z) : DeltaResult (ReconciledCheckpointState * gmap Z Z) :=
  match compactions with
  | [] => replay_commit_actions state commits start_version end_version
  | _ => replay_entries (state, ∅)
           (build_replay_sequence commits compactions start_version end_version)
  end.
End timestamps.
