(* ===== verification/DeltaSegment.v ===== *)
(** * Which files of the Delta log are read

    [zelox-delta-lake/src/delta_log/segment.rs], [listing.rs] and [replay.rs]:
    listing the directory, choosing a checkpoint, commit and compaction files
    for a version, and loading the state of a table from them, as a whole or
    the header only. *)

From Stdlib Require Import Ascii String.
From S2P Require Import Prelude Collections CatalogNames DeltaSpec DeltaProperties DeltaLog.

(** ** Listing *)
Section listing.
Context `{HO : HashOrder}.
Implicit Types (s : LogStore).

(** The file of version [v] sorts after the prefix of an offset exactly when [v]
    is not smaller; the listing has no fixed order. *)
Definition list_commits s (offset : Z) : list (Z * File (list Action)) :=
  filter (λ x, (offset <=? x.1)%Z = true) (hash_items (ls_commits s)).
Definition list_checksums s (offset : Z) : list (Z * File VersionChecksum) :=
  filter (λ x, (offset <=? x.1)%Z = true) (hash_items (ls_checksums s)).
Definition list_checkpoints s (offset : Z) : list (Z * string * File CheckpointContent) :=
  filter (λ x, (offset <=? x.1.1)%Z = true) (hash_items (ls_checkpoints s)).
(** A name is that of a compaction only if it covers more than one version. *)
Definition list_compactions s (offset : Z) : list (Z * Z * File (list Action)) :=
  filter (λ x, ((offset <=? x.1.1) && (x.1.1 <? x.1.2))%Z = true) (hash_items (ls_compactions s)).

(** [latest_version_from_listing] and [LogStore::get_latest_version]. *)
Definition max_version (l : list Z) : option Z :=
  foldl (λ m v, Some (match m with Some c => Z.max c v | None => v end)) None l.
Definition latest_version_from_listing s : option Z :=
  let offset := match ls_last_checkpoint s with Some v => pred_i64 v | None => 0%Z end in
  max_version ((list_commits s offset).*1 ++ ((list_checkpoints s offset).*1).*1 ++
               ((list_compactions s offset).*1).*2).
Definition get_latest_version s (start_version : Z) : DeltaResult Z :=
  match latest_version_from_listing s with
  | Some version => if (Z.max start_version 0 <=? version)%Z then Ok version
                    else Err DeMissingVersion
  | None => Err DeMissingVersion
  end.

(** The files [latest_replayable_version] looks at are the same. *)
Definition latest_replayable_version s : DeltaResult Z :=
  match latest_version_from_listing s with Some v => Ok v | None => Err DeMissingVersion end.

(** The checkpoint of the latest version, the first by name. *)
Definition latest_checkpoint (candidates : list (Z * string * File CheckpointContent))
    : option (Z * File CheckpointContent) :=
  latest ← max_version (candidates.*1).*1;
  let files := filter (λ x, (x.1.1 =? latest)%Z = true) candidates in
  (λ x, (latest, x.2)) <$> head (sort_by (λ x y, String.leb x.1.2 y.1.2) files).

Definition upto {A} (key : A → Z) (max : Z) (l : list A) : list A :=
  filter (λ x, (key x <=? max)%Z = true) l.

Record LogFiles := MkLogFiles {
  lf_checksums : list (Z * File VersionChecksum);
  lf_checkpoint : option (Z * File CheckpointContent);
  lf_commits : list (Z * File (list Action));
  lf_compactions : list (Z * Z * File (list Action))
}.

(** [list_log_files]: checksums from the latest, the rest from the earliest. *)
Definition list_log_files s (offset max : Z) : LogFiles :=
  MkLogFiles
    (sort_by (λ x y, y.1 <=? x.1)%Z (upto fst max (list_checksums s offset)))
    (latest_checkpoint (upto (λ x, x.1.1) max (list_checkpoints s offset)))
    (sort_by_key fst (upto fst max (list_commits s offset)))
    (sort_by_key (λ x, x.1.1) (upto (λ x, x.1.2) max (list_compactions s offset))).
End listing.

(** ** Compactions *)
Notation Commits := (list (Z * File (list Action))).
Notation Compactions := (list (Z * Z * File (list Action))).

Definition filter_compactions_for_range (l : Compactions) (start_version end_version : Z)
    : Compactions :=
  filter (λ x, ((start_version <=? x.1.1) && (x.1.2 <=? end_version))%Z = true) l.

(** The greedy choice from the latest; [covered] is the lowest version covered. *)
Fixpoint select_compactions (covered : option Z) (l : Compactions) : Compactions :=
  match l with
  | [] => []
  | ((start, finish), f) :: l =>
      if match covered with Some boundary => (boundary <=? finish)%Z | None => false end
      then select_compactions covered l
      else ((start, finish), f) :: select_compactions (Some start) l
  end.
Definition is_covered (selected : Compactions) (version : Z) : bool :=
  existsb (λ x, (x.1.1 <=? version) && (version <=? x.1.2))%Z selected.
Definition resolve_compactions (commits : Commits) (compactions : Compactions)
    : Commits * Compactions :=
  match compactions with
  | [] => (commits, [])
  | _ =>
      let selected := select_compactions None (sort_by (λ x y, y.1.2 <=? x.1.2)%Z compactions) in
      (filter (λ x, is_covered selected x.1 = false) commits,
       sort_by_key (λ x, x.1.1) selected)
  end.

(** ** Contiguity *)
Definition gap_error (expected found : Z) : DeltaError :=
  DeGeneric ("Missing commit file: expected version " +:+ pretty expected +:+ ", found " +:+
             pretty found).
Definition end_error (expected reached : Z) : DeltaError :=
  DeGeneric ("Missing commit file: expected final version " +:+ pretty expected +:+
             ", replay reached " +:+ pretty reached).

Fixpoint contiguous_commits (commits : Commits) (expected start_version end_version : Z)
    : DeltaResult Z :=
  match commits with
  | [] => Ok expected
  | (v, _) :: commits =>
      if ((v <? start_version) || (end_version <? v))%Z
      then contiguous_commits commits expected start_version end_version
      else if negb (v =? expected)%Z then Err (gap_error expected v)
      else contiguous_commits commits (succ_i64 expected) start_version end_version
  end.
Definition validate_commit_contiguity (commits : Commits) (start_version end_version : Z)
    : DeltaResult unit :=
  if (end_version <? start_version)%Z then Ok tt
  else
    expected ← contiguous_commits commits start_version start_version end_version;
    if (pred_i64 expected =? end_version)%Z then Ok tt
    else Err (end_error end_version (pred_i64 expected)).

Fixpoint contiguous_intervals (intervals : list (Z * Z)) (expected : Z) : DeltaResult Z :=
  match intervals with
  | [] => Ok expected
  | (s, e) :: intervals =>
      if negb (s =? expected)%Z then
        Err (DeGeneric ("Missing commit file: expected version " +:+ pretty expected +:+
                        ", found gap at " +:+ pretty s))
      else contiguous_intervals intervals (succ_i64 e)
  end.
Definition validate_commit_contiguity_with_compactions (commits : Commits)
    (compactions : Compactions) (start_version end_version : Z) : DeltaResult unit :=
  if (end_version <? start_version)%Z then Ok tt
  else match compactions with
  | [] => validate_commit_contiguity commits start_version end_version
  | _ =>
      let single := omap (λ x : Z * File (list Action),
        if ((start_version <=? x.1) && (x.1 <=? end_version))%Z then Some (x.1, x.1) else None)
        commits in
      expected ← contiguous_intervals (sort_by_key fst (single ++ compactions.*1)) start_version;
      if (pred_i64 expected =? end_version)%Z then Ok tt
      else Err (end_error end_version (pred_i64 expected))
  end.

(** ** Reading checkpoints *)
Definition row_default : CheckpointActionRow := MkRow None None None None None None None None.
Definition checkpoint_row_from_action (a : Action) : DeltaResult CheckpointActionRow :=
  match a with
  | AAdd x => Ok (MkRow (Some x) None None None None None None None)
  | ARemove x => Ok (MkRow None (Some x) None None None None None None)
  | AMetadata x => Ok (MkRow None None (Some x) None None None None None)
  | AProtocol x => Ok (MkRow None None None (Some x) None None None None)
  | ATxn x => Ok (MkRow None None None None (Some x) None None None)
  | ADomainMetadata x => Ok (MkRow None None None None None (Some x) None None)
  | ACheckpointMetadata x => Ok (MkRow None None None None None None (Some x) None)
  | ASidecar x => Ok (MkRow None None None None None None None (Some x))
  | ACommitInfo _ | ACdc _ =>
      Err (DeGeneric "V2 checkpoint JSON must not contain commitInfo or cdc actions")
  end.

(** [sidecar_file_path]. *)
Fixpoint trim_slashes (s : string) : string :=
  match s with
  | String c rest => if Ascii.eqb c "/" then trim_slashes rest else s
  | EmptyString => s
  end.
Definition starts_with (p s : string) : bool := String.prefix p s.
Definition sidecar_file_path (sidecar_filename : string) : string :=
  let path := trim_slashes sidecar_filename in
  if starts_with "_delta_log/" path then path
  else if starts_with "_sidecars/" path then "_delta_log/" +:+ path
  else "_delta_log/_sidecars/" +:+ path.

Definition decode_error : DeltaError := DeExternal "decode".

Section reading.
Context `{DE : DeltaEngine}.

(** [decode_checkpoint_rows]: statistics that are not in the file as JSON are
    written from those in the struct, if they are there. *)
Definition normalized_stats (r : StoredRow) : option string :=
  match sr_stats r with
  | Some stats => stats
  | None =>
      match sr_stats_parsed r with
      | Some (Some parsed) => Some (write_stats_json parsed)
      | _ => None
      end
  end.
Definition decode_checkpoint_row (r : StoredRow) : CheckpointActionRow :=
  row_with_stats (normalized_stats r) (sr_row r).

Definition read_checkpoint_main_rows (f : File CheckpointContent)
    : DeltaResult (list CheckpointActionRow) :=
  match file_content f with
  | Some (CheckpointRows rows) => Ok (decode_checkpoint_row <$> rows)
  | Some (CheckpointJson actions) => collect_results (checkpoint_row_from_action <$> actions)
  | None => Err decode_error
  end.

Fixpoint read_sidecars (s : LogStore) (sidecars : list Sidecar)
    : DeltaResult (list CheckpointActionRow) :=
  match sidecars with
  | [] => Ok []
  | x :: sidecars =>
      match ls_sidecars s !! sidecar_file_path (sc_path x) with
      | None => Err (DeExternal "object not found")
      | Some f =>
          match file_content f with
          | None => Err decode_error
          | Some rows => rest ← read_sidecars s sidecars; Ok ((decode_checkpoint_row <$> rows) ++ rest)
          end
      end
  end.

(** [read_checkpoint_rows_from_checkpoint_file]. *)
Definition read_checkpoint_rows (s : LogStore) (f : File CheckpointContent)
    : DeltaResult (list CheckpointActionRow) :=
  rows ← read_checkpoint_main_rows f;
  sidecar_rows ← read_sidecars s (omap row_sidecar rows);
  Ok (rows ++ sidecar_rows).
End reading.

(** ** The whole state *)
Section load.
Context `{DE : DeltaEngine} `{HO : HashOrder}.
Implicit Types (s : LogStore).

Record Segment := MkSegment {
  sg_checkpoint : option (Z * File CheckpointContent);
  sg_commits : Commits;
  sg_compactions : Compactions;
  sg_target : Z
}.

Definition hint_offset s (version : Z) : Z :=
  match ls_last_checkpoint s with Some v => pred_i64 (Z.min v version) | None => 0%Z end.
Definition start_after (checkpoint : option (Z * File CheckpointContent)) : Z :=
  match checkpoint with Some (v, _) => succ_i64 v | None => 0%Z end.

(** The commit and compaction files of [start_version..=version]. *)
Definition segment_files (files : LogFiles) (start_version version : Z) : Commits * Compactions :=
  resolve_compactions
    (filter (λ x, ((start_version <=? x.1) && (x.1 <=? version))%Z = true) (lf_commits files))
    (filter_compactions_for_range (lf_compactions files) start_version version).

(** [LogSegmentResolver::resolve_for_full_state]. *)
Definition resolve_for_full_state s (version : Z) : DeltaResult Segment :=
  let files := list_log_files s (hint_offset s version) version in
  let start_version := start_after (lf_checkpoint files) in
  let '(commits, compactions) := segment_files files start_version version in
  _ ← validate_commit_contiguity_with_compactions commits compactions start_version version;
  Ok (MkSegment (lf_checkpoint files) commits compactions version).

(** The version from which the files are replayed on top of a checkpoint. *)
Definition start_commit_version (g : Segment) : Z :=
  match sg_commits g, sg_compactions g with
  | (v, _) :: _, _ => v
  | [], (s, _, _) :: _ => s
  | [], [] => succ_i64 (sg_target g)
  end.

Record ReplayedTableState := MkReplayedTableState {
  rt_version : Z;
  rt_protocol : Protocol;
  rt_metadata : Metadata;
  rt_txns : gmap string Transaction;
  rt_domain_metadata : list DomainMetadata;
  rt_adds : list Add;
  rt_removes : list Remove;
  rt_commit_timestamps : gmap Z Z
}.

(** [into_iter().collect::<BTreeMap<_, _>>().into_values()]: by key. *)
Definition key_le (x y : LogicalFileKey) : bool :=
  if String.eqb x.1 y.1 then
    match x.2, y.2 with
    | None, _ => true
    | Some _, None => false
    | Some a, Some b => String.leb a b
    end
  else String.leb x.1 y.1.
Definition btree_values {K V} `{Countable K} (le : K → K → bool) (m : gmap K V) : list V :=
  (sort_by (λ x y, le x.1 y.1) (hash_items m)).*2.

Definition replayed_state (version : Z) (st : ReconciledCheckpointState) (timestamps : gmap Z Z)
    : DeltaResult ReplayedTableState :=
  match rs_protocol st, rs_metadata st with
  | None, _ => Err (DeGeneric "Cannot load table state without protocol")
  | _, None => Err (DeGeneric "Cannot load table state without metadata")
  | Some protocol, Some metadata =>
      Ok (MkReplayedTableState version protocol metadata (rs_txns st)
            (btree_values String.leb (rs_domain_metadata st))
            (btree_values key_le (rs_adds st)) (btree_values key_le (rs_removes st)) timestamps)
  end.

(** The rest of [load_replayed_table_state], for a segment. *)
Definition replay_segment s (g : Segment)
    : DeltaResult (ReconciledCheckpointState * gmap Z Z) :=
  base ← (match sg_checkpoint g with
          | Some (_, f) =>
              rows ← read_checkpoint_rows s f;
              Ok (foldl apply_checkpoint_row state_default rows, start_commit_version g)
          | None => Ok (state_default, 0%Z)
          end : DeltaResult (ReconciledCheckpointState * Z));
  replay_commit_actions_with_compactions base.1 (sg_commits g) (sg_compactions g) base.2
    (sg_target g).

Definition load_replayed_table_state s (version : Z) : DeltaResult ReplayedTableState :=
  if (version <? 0)%Z then
    Err (DeGeneric ("Cannot load table state for negative version: " +:+ pretty version))
  else
    g ← resolve_for_full_state s version;
    r ← replay_segment s g;
    replayed_state (sg_target g) r.1 r.2.
End load.
