(* ===== verification/DeltaSnapshot.v ===== *)
(** * Loading the header of a table

    [delta_log/segment.rs] ([resolve_for_header]), [delta_log/replay.rs]
    ([load_replayed_table_header]) and the header states of
    [kernel/checkpoints.rs]: protocol, metadata, application transactions and
    domain metadata, from a version checksum, a snapshot that is at hand or a
    checkpoint, and the commits after it. *)

From Stdlib Require Import Ascii String.
From S2P Require Import Prelude Collections CatalogNames DeltaSpec DeltaProperties DeltaLog DeltaSegment.
(** ** The state *)
Record ReconciledHeaderState := MkHeaderState {
  hs_protocol : option Protocol;
  hs_metadata : option Metadata;
  hs_txns : gmap string Transaction;
  hs_domain_metadata : gmap string DomainMetadata
}.
Definition header_default : ReconciledHeaderState := MkHeaderState None None ∅ ∅.

Definition header_with_protocol (p : Protocol) (h : ReconciledHeaderState) :=
  MkHeaderState (Some p) (hs_metadata h) (hs_txns h) (hs_domain_metadata h).
Definition header_with_metadata (m : Metadata) (h : ReconciledHeaderState) :=
  MkHeaderState (hs_protocol h) (Some m) (hs_txns h) (hs_domain_metadata h).
Definition header_with_txn (t : Transaction) (h : ReconciledHeaderState) :=
  MkHeaderState (hs_protocol h) (hs_metadata h) (<[tx_app_id t := t]> (hs_txns h))
    (hs_domain_metadata h).
Definition header_with_domain (d : DomainMetadata) (h : ReconciledHeaderState) :=
  MkHeaderState (hs_protocol h) (hs_metadata h) (hs_txns h)
    (merge_domain d (hs_domain_metadata h)).

(** [ReconciledHeaderState::apply_action] and [apply_checkpoint_row]. *)
Definition apply_header_action (h : ReconciledHeaderState) (a : Action) : ReconciledHeaderState :=
  match a with
  | AProtocol p => header_with_protocol p h
  | AMetadata m => header_with_metadata m h
  | ATxn t => header_with_txn t h
  | ADomainMetadata d => header_with_domain d h
  | AAdd _ | ARemove _ | ACommitInfo _ | ACdc _ | ACheckpointMetadata _ | ASidecar _ => h
  end.
Definition apply_header_row (h : ReconciledHeaderState) (row : CheckpointActionRow)
    : ReconciledHeaderState :=
  let h := when_some header_with_protocol (row_protocol row) h in
  let h := when_some header_with_metadata (row_metadata row) h in
  let h := when_some header_with_txn (row_txn row) h in
  when_some header_with_domain (row_domain_metadata row) h.

Record ReplayedTableHeader := MkHeader {
  th_version : Z;
  th_protocol : Protocol;
  th_metadata : Metadata;
  th_txns : gmap string Transaction;
  th_domain_metadata : gmap string DomainMetadata;
  th_commit_timestamps : gmap Z Z
}.
Definition from_header (h : ReplayedTableHeader) : ReconciledHeaderState :=
  MkHeaderState (Some (th_protocol h)) (Some (th_metadata h)) (th_txns h) (th_domain_metadata h).

Section header.
Context `{DE : DeltaEngine} `{HO : HashOrder}.
Implicit Types (s : LogStore).

(** ** Replay *)
Definition replay_header_commit (st : ReconciledHeaderState * gmap Z Z) (version : Z)
    (f : File (list Action)) : DeltaResult (ReconciledHeaderState * gmap Z Z) :=
  actions ← get_actions version f;
  t ← resolve_commit_timestamp_from_actions version (file_modified f) (hs_protocol st.1)
        (hs_metadata st.1) actions;
  Ok (foldl apply_header_action st.1 actions, <[version := t]> st.2).

Definition missing_header_commit (expected found : Z) : DeltaError :=
  DeGeneric ("Missing commit file while replaying table header: expected version " +:+
             pretty expected +:+ ", found " +:+ pretty found).
Definition missing_header_final (expected reached : Z) : DeltaError :=
  DeGeneric ("Missing commit file while replaying table header: expected final version " +:+
             pretty expected +:+ ", replay reached " +:+ pretty reached).

Fixpoint replay_header_commits (st : ReconciledHeaderState * gmap Z Z) (entries : Commits)
    (expected start_version end_version : Z)
    : DeltaResult (ReconciledHeaderState * gmap Z Z * Z) :=
  match entries with
  | [] => Ok (st, expected)
  | (version, f) :: entries =>
      if ((version <? start_version) || (end_version <? version))%Z then
        replay_header_commits st entries expected start_version end_version
      else if negb (version =? expected)%Z then Err (missing_header_commit expected version)
      else
        st ← replay_header_commit st version f;
        replay_header_commits st entries (succ_i64 expected) start_version end_version
  end.

Definition replay_commit_header_actions (state : ReconciledHeaderState) (entries : Commits)
    (start_version end_version : Z) : DeltaResult (ReconciledHeaderState * gmap Z Z) :=
  if (end_version <? start_version)%Z then Ok (state, ∅)
  else
    r ← replay_header_commits (state, ∅) entries start_version start_version end_version;
    let '(st, expected) := r in
    if (pred_i64 expected =? end_version)%Z then Ok st
    else Err (missing_header_final end_version (pred_i64 expected)).

Definition replay_header_entry (st : ReconciledHeaderState * gmap Z Z) (e : ReplayEntry)
    : DeltaResult (ReconciledHeaderState * gmap Z Z) :=
  match e with
  | ReplayCommit version f => replay_header_commit st version f
  | ReplayCompaction start finish f =>
      actions ← get_actions finish f;
      Ok (foldl apply_header_action st.1 actions,
          foldl (λ m v, <[v := file_modified f]> m) st.2 (versions start finish))
  end.
Fixpoint replay_header_entries (st : ReconciledHeaderState * gmap Z Z) (l : list ReplayEntry)
    : DeltaResult (ReconciledHeaderState * gmap Z Z) :=
  match l with
  | [] => Ok st
  | e :: l => st ← replay_header_entry st e; replay_header_entries st l
  end.

Definition replay_commit_header_actions_with_compactions (state : ReconciledHeaderState)
    (commits : Commits) (compactions : Compactions) (start_version end_version : Z)
    : DeltaResult (ReconciledHeaderState * gmap Z Z) :=
  match compactions with
  | [] => replay_commit_header_actions state commits start_version end_version
  | _ => replay_header_entries (state, ∅)
           (build_replay_sequence commits compactions start_version end_version)
  end.

(** [read_checkpoint_header_from_checkpoint_file]: the main file only. *)
Definition read_checkpoint_header (f : File CheckpointContent)
    : DeltaResult ReconciledHeaderState :=
  rows ← read_checkpoint_main_rows f;
  Ok (foldl apply_header_row header_default rows).

(** ** Checksums *)
Definition validate_and_build_header (version : Z) (c : VersionChecksum)
    : option ReplayedTableHeader :=
  if (negb (vc_num_metadata c =? 1) || negb (vc_num_protocol c =? 1))%Z then None
  else
    Some (MkHeader version (vc_protocol c) (vc_metadata c)
      (insert_all tx_app_id ∅ (default [] (vc_set_transactions c)))
      (insert_all dm_domain ∅ (default [] (vc_domain_metadata c)))
      (if version_uses_in_commit_timestamps version (vc_protocol c) (vc_metadata c) then
         match vc_in_commit_timestamp_opt c with Some t => {[ version := t ]} | None => ∅ end
       else ∅)).

Definition read_checksum_header (version : Z) (f : File VersionChecksum)
    : option ReplayedTableHeader :=
  c ← file_content f; validate_and_build_header version c.
Definition try_read_checksum_header s (version : Z) : option ReplayedTableHeader :=
  f ← ls_checksums s !! version; read_checksum_header version f.

Definition CHECKSUM_LOOKBACK_WINDOW : Z := 100.

(** The newest readable checksum of [lower_bound..version]. *)
Definition older_checksum (lower_bound version : Z) (l : list (Z * File VersionChecksum))
    : option ReplayedTableHeader :=
  head (omap (λ x : Z * File VersionChecksum,
    if ((x.1 <? lower_bound) || (version <=? x.1))%Z then None else read_checksum_header x.1 x.2) l).

(** ** The segment *)
Inductive HeaderSegment :=
| ExactChecksum (header : ReplayedTableHeader)
| Incremental (base : ReplayedTableHeader) (segment : Segment)
| FullReplay.

(** [LogSegmentResolver::resolve_for_header]; a [FullReplay] segment is not looked
    into by the caller. *)
Definition resolve_for_header s (version : Z) (replay_hint : option ReplayedTableHeader)
    : DeltaResult HeaderSegment :=
  match try_read_checksum_header s version with
  | Some header => Ok (ExactChecksum header)
  | None =>
      let hint_floor := match replay_hint with Some h => succ_i64 (th_version h) | None => 0%Z end in
      let lower_bound := Z.max (saturate_i64 (version - CHECKSUM_LOOKBACK_WINDOW)) hint_floor in
      let files := list_log_files s (Z.min lower_bound (hint_offset s version)) version in
      match or_else (older_checksum lower_bound version (lf_checksums files)) replay_hint with
      | None => Ok FullReplay
      | Some base =>
          let use_checkpoint := match lf_checkpoint files with
                                | Some (v, _) => (th_version base <? v)%Z | None => false end in
          let checkpoint := if use_checkpoint then lf_checkpoint files else None in
          let start_version := match checkpoint with
                               | Some (v, _) => succ_i64 v
                               | None => succ_i64 (th_version base) end in
          let in_start (v : Z) := match checkpoint with
                                  | Some (c, _) => (c <? v)%Z
                                  | None => (start_version <=? v)%Z end in
          let '(commits, compactions) := resolve_compactions
            (filter (λ x, (in_start x.1 && (x.1 <=? version)%Z) = true) (lf_commits files))
            (filter_compactions_for_range (lf_compactions files) start_version version) in
          _ ← validate_commit_contiguity_with_compactions commits compactions start_version version;
          Ok (Incremental base (MkSegment checkpoint commits compactions version))
      end
  end.

(** The state from which an incremental segment is replayed. *)
Definition header_base (base : ReplayedTableHeader) (g : Segment)
    : DeltaResult (ReconciledHeaderState * Z * gmap Z Z) :=
  match sg_checkpoint g with
  | Some (_, f) => st ← read_checkpoint_header f; Ok (st, start_commit_version g, ∅)
  | None => Ok (from_header base, succ_i64 (th_version base), th_commit_timestamps base)
  end.

(** [load_replayed_table_header]. *)
Definition load_replayed_table_header s (version : Z) (replay_hint : option ReplayedTableHeader)
    : DeltaResult (option ReplayedTableHeader) :=
  if (version <? 0)%Z then
    Err (DeGeneric ("Cannot load table header for negative version: " +:+ pretty version))
  else
    segment ← resolve_for_header s version replay_hint;
    match segment with
    | ExactChecksum header => Ok (Some header)
    | FullReplay => Ok None
    | Incremental base g =>
        b ← header_base base g;
        let '(state, start, timestamps) := b in
        r ← (if (start <=? sg_target g)%Z then
               r ← replay_commit_header_actions_with_compactions state (sg_commits g)
                     (sg_compactions g) start (sg_target g);
               Ok (r.1, r.2 ∪ timestamps)
             else Ok (state, timestamps) : DeltaResult (ReconciledHeaderState * gmap Z Z));
        match hs_protocol r.1, hs_metadata r.1 with
        | None, _ => Err (DeGeneric "Cannot load table header without protocol")
        | _, None => Err (DeGeneric "Cannot load table header without metadata")
        | Some protocol, Some metadata =>
            Ok (Some (MkHeader (sg_target g) protocol metadata (hs_txns r.1)
                        (hs_domain_metadata r.1) r.2))
        end
    end.
End header.

(** ** Snapshots of a Delta table

    [zelox-delta-lake/src/kernel/snapshot/mod.rs] and the checker of protocol
    features of [kernel/transaction/protocol.rs].  A snapshot without files has
    only the header of the table. *)

(** ** Protocol features *)
Definition READER_V2 : list TableFeature := [ColumnMapping].
Definition WRITER_V2 : list TableFeature := [AppendOnly; Invariants].
Definition WRITER_V3 : list TableFeature := WRITER_V2 ++ [CheckConstraints].
Definition WRITER_V4 : list TableFeature := WRITER_V3 ++ [ChangeDataFeed; GeneratedColumns].
Definition WRITER_V5 : list TableFeature := WRITER_V4 ++ [ColumnMapping].
Definition WRITER_V6 : list TableFeature := WRITER_V5 ++ [IdentityColumns].

(** The checker [INSTANCE]. *)
Definition supported_reader_features : list TableFeature :=
  [TimestampWithoutTimezone; ColumnMapping; DeletionVectors; V2Checkpoint; TypeWideningPreview;
   TypeWidening; VariantType].
Definition supported_writer_features : list TableFeature :=
  [AppendOnly; InCommitTimestamp; TimestampWithoutTimezone; ColumnMapping; DeletionVectors;
   Invariants; GeneratedColumns; V2Checkpoint; TypeWideningPreview; TypeWidening; VariantType].

Definition required_reader_features (p : Protocol)
    : Result TransactionError (option (list TableFeature)) :=
  let v := pr_min_reader_version p in
  if bool_decide (v ∈ [0; 1]%Z) then Ok None
  else if (v =? 2)%Z then Ok (Some READER_V2)
  else if (v =? 3)%Z then Ok (Some (default [] (pr_reader_features p)))
  else Err (CommitConflict (UnsupportedReaderVersion v)).
Definition required_writer_features (p : Protocol)
    : Result TransactionError (option (list TableFeature)) :=
  let v := pr_min_writer_version p in
  if bool_decide (v ∈ [0; 1]%Z) then Ok None
  else if (v =? 2)%Z then Ok (Some WRITER_V2)
  else if (v =? 3)%Z then Ok (Some WRITER_V3)
  else if (v =? 4)%Z then Ok (Some WRITER_V4)
  else if (v =? 5)%Z then Ok (Some WRITER_V5)
  else if (v =? 6)%Z then Ok (Some WRITER_V6)
  else if (v =? 7)%Z then Ok (Some (default [] (pr_writer_features p)))
  else Err (CommitConflict (UnsupportedWriterVersion v)).

Section protocol.
Context `{DE : DeltaEngine} `{HO : HashOrder}.

(** [features.difference(&supported)], of a set. *)
Definition difference (features supported : list TableFeature) : list TableFeature :=
  hash_order (filter (λ f, f ∉ supported) (remove_dups features)).
Definition unsupported_reader_features (p : Protocol)
    : Result TransactionError (list TableFeature) :=
  f ← required_reader_features p;
  Ok (match f with Some f => difference f supported_reader_features | None => [] end).
Definition unsupported_writer_features (p : Protocol)
    : Result TransactionError (list TableFeature) :=
  f ← required_writer_features p;
  Ok (match f with Some f => difference f supported_writer_features | None => [] end).

Definition can_read_from_protocol (p : Protocol) : Result TransactionError unit :=
  diff ← unsupported_reader_features p;
  match diff with [] => Ok tt | _ => Err (UnsupportedTableFeatures diff) end.
Definition can_write_to_protocol (p : Protocol) : Result TransactionError unit :=
  _ ← can_read_from_protocol p;
  diff ← unsupported_writer_features p;
  match diff with [] => Ok tt | _ => Err (UnsupportedTableFeatures diff) end.

Definition check_can_write_timestamp_ntz_to_protocol (p : Protocol) (schema : Schema)
    : Result TransactionError unit :=
  let v := pr_min_writer_version p in
  let features := if ((0 <=? v) && (v <=? 6))%Z then None else pr_writer_features p in
  let allowed := match features with
                 | Some l => bool_decide (TimestampWithoutTimezone ∈ l) | None => false end in
  if negb allowed && contains_timestampntz schema
  then Err (TableFeaturesRequired TimestampWithoutTimezone) else Ok tt.

Definition protocol_has_writer_feature (p : Protocol) (f : TableFeature) : bool :=
  (7 <=? pr_min_writer_version p)%Z && has_writer_feature p f.
Definition protocol_has_reader_writer_feature (p : Protocol) (f : TableFeature) : bool :=
  (3 <=? pr_min_reader_version p)%Z && (7 <=? pr_min_writer_version p)%Z &&
  has_reader_feature p f && has_writer_feature p f.
Definition protocol_supports_legacy_change_data_feed (p : Protocol) : bool :=
  ((4 <=? pr_min_writer_version p) && (pr_min_writer_version p <=? 6))%Z.

Definition check_can_write_variant_to_protocol (p : Protocol) (schema : Schema)
    : Result TransactionError unit :=
  if contains_variant schema && negb (protocol_has_reader_writer_feature p VariantType)
  then Err (TableFeaturesRequired VariantType) else Ok tt.

(** ** Snapshots *)
Record DeltaSnapshot := MkSnapshot {
  sn_version : Z;
  sn_require_files : bool;
  sn_protocol : Protocol;
  sn_metadata : Metadata;
  sn_adds : list Add;
  sn_removes : list Remove;
  sn_app_txns : gmap string Transaction;
  sn_domain_metadata : gmap string DomainMetadata;
  sn_commit_timestamps : gmap Z Z
}.

(** [Metadata::parse_schema_arrow]. *)
Definition parse_schema_arrow (m : Metadata) : DeltaResult unit :=
  schema ← parse_schema m; arrow_schema schema.

Definition from_replayed_state (require_files : bool) (r : ReplayedTableState)
    : DeltaResult DeltaSnapshot :=
  _ ← parse_schema_arrow (rt_metadata r);
  Ok (MkSnapshot (rt_version r) require_files (rt_protocol r) (rt_metadata r) (rt_adds r)
        (rt_removes r) (rt_txns r) (insert_all dm_domain ∅ (rt_domain_metadata r))
        (rt_commit_timestamps r)).
Definition from_replayed_header (require_files : bool) (h : ReplayedTableHeader)
    : DeltaResult DeltaSnapshot :=
  _ ← parse_schema_arrow (th_metadata h);
  Ok (MkSnapshot (th_version h) require_files (th_protocol h) (th_metadata h) [] []
        (th_txns h) (th_domain_metadata h) (th_commit_timestamps h)).

(** [DeltaSnapshot::try_new]: the header alone if it can be had, otherwise the whole
    state. *)
Definition snapshot_try_new (s : LogStore) (require_files : bool) (version : option Z)
    (replay_hint : option ReplayedTableHeader) : DeltaResult DeltaSnapshot :=
  target ← (match version with
            | Some v => Ok v
            | None => match latest_replayable_version s with
                      | Ok v => Ok v
                      | Err DeMissingVersion =>
                          Err (DeInvalidTableLocation "No commit files found in _delta_log")
                      | Err e => Err e
                      end
            end : DeltaResult Z);
  let header := if require_files then None
                else match load_replayed_table_header s target replay_hint with
                     | Ok h => h | Err _ => None end in
  match header with
  | Some h => from_replayed_header require_files h
  | None => r ← load_replayed_table_state s target; from_replayed_state require_files r
  end.

Definition replay_hint (sn : DeltaSnapshot) : ReplayedTableHeader :=
  MkHeader (sn_version sn) (sn_protocol sn) (sn_metadata sn) (sn_app_txns sn)
    (sn_domain_metadata sn) (sn_commit_timestamps sn).

(** [DeltaSnapshot::update] to a version. *)
Definition snapshot_update (s : LogStore) (sn : DeltaSnapshot) (target : Z)
    : DeltaResult DeltaSnapshot :=
  if (target =? sn_version sn)%Z then Ok sn
  else if (target <? sn_version sn)%Z then Err (DeGeneric "Cannot downgrade snapshot")
  else snapshot_try_new s (sn_require_files sn) (Some target)
         (if sn_require_files sn then None else Some (replay_hint sn)).

(** Without a target, to the latest. *)
Definition snapshot_update_latest (s : LogStore) (sn : DeltaSnapshot) : DeltaResult DeltaSnapshot :=
  target ← get_latest_version s (sn_version sn); snapshot_update s sn target.

Definition sn_properties (sn : DeltaSnapshot) : TableProperties := table_properties (sn_metadata sn).
Definition in_commit_timestamps_enabled (sn : DeltaSnapshot) : bool :=
  is_in_commit_timestamps_enabled (sn_protocol sn) (sn_properties sn).

(** ** Version checksums of a snapshot *)
Definition protocol_features (p : Protocol) : list TableFeature :=
  default [] (pr_reader_features p) ++ default [] (pr_writer_features p).
Definition result_non_empty {E A} (r : Result E (list A)) : bool :=
  match r with Ok [] => false | _ => true end.
Definition has_unsupported_table_features (p : Protocol) : bool :=
  bool_decide (UnknownFeature ∈ protocol_features p) ||
  result_non_empty (unsupported_reader_features p) ||
  result_non_empty (unsupported_writer_features p).
Definition has_deletion_vectors (sn : DeltaSnapshot) : bool :=
  existsb (λ a, bool_decide (is_Some (add_deletion_vector a))) (sn_adds sn) ||
  existsb (λ r, bool_decide (is_Some (rm_deletion_vector r))) (sn_removes sn).

Fixpoint sum_files (l : list Add) (num_files size : Z) : DeltaResult (Z * Z) :=
  match l with
  | [] => Ok (num_files, size)
  | a :: l =>
      match checked_i64 (num_files + 1) with
      | None => Err (DeGeneric "Version checksum file count overflow")
      | Some n =>
          match checked_i64 (size + add_size a) with
          | None => Err (DeGeneric "Version checksum table size overflow")
          | Some z => sum_files l n z
          end
      end
  end.

(** [sort_by(app_id).then(version)] and [sort_by(domain)]; [then_some] if not empty. *)
Definition txn_le (x y : Transaction) : bool :=
  if String.eqb (tx_app_id x) (tx_app_id y) then (tx_version x <=? tx_version y)%Z
  else String.leb (tx_app_id x) (tx_app_id y).
Definition sorted_txns (l : list Transaction) : option (list Transaction) :=
  non_empty (Some (sort_by txn_le l)).
Definition sorted_domains (l : list DomainMetadata) : option (list DomainMetadata) :=
  non_empty (Some (sort_by (λ x y, String.leb (dm_domain x) (dm_domain y)) l)).

Definition build_version_checksum (sn : DeltaSnapshot) (txn_id : option string)
    (in_commit_timestamp : option Z) : DeltaResult (option VersionChecksum) :=
  if has_unsupported_table_features (sn_protocol sn) then Ok None
  else if has_deletion_vectors sn then Ok None
  else
    sums ← sum_files (sn_adds sn) 0 0;
    Ok (Some (MkVersionChecksum txn_id sums.2 sums.1 1 1 in_commit_timestamp
      (sorted_txns (map_values (sn_app_txns sn)))
      (sorted_domains (map_values (sn_domain_metadata sn)))
      (sn_metadata sn) (sn_protocol sn) None None)).
End protocol.
