(* ===== verification/DeltaCheckpoint.v ===== *)
(** * Writing checkpoints and compactions, and cleaning up

    [zelox-delta-lake/src/kernel/checkpoints.rs] ([CheckpointManager],
    [create_log_compaction_for]), [delta_log/cleanup.rs] and the time stamps of
    [delta_log/timestamps.rs] that the clean-up relies on. *)

From Stdlib Require Import Ascii String.
From S2P Require Import Prelude Collections CatalogNames DeltaSpec DeltaProperties DeltaLog DeltaSegment.

Section checkpoints.
Context `{DE : DeltaEngine} `{HO : HashOrder}.
Implicit Types (s : LogStore).

(** ** Retention *)
Definition retention_cutoff_timestamp (reference_timestamp : Z) (retention : Duration)
    (property_name : string) : DeltaResult Z :=
  match checked_i64 (Z.of_N (as_millis retention)) with
  | None => Err (DeGeneric (property_name +:+ " exceeds the supported millisecond range"))
  | Some millis =>
      match checked_i64 (reference_timestamp - millis) with
      | None => Err (DeGeneric ("Failed to compute retention cutoff for " +:+ property_name))
      | Some t => Ok t
      end
  end.

(** [x.map(|t| t > cutoff).unwrap_or(true)]. *)
Definition not_expired (cutoff : Z) (t : option Z) : bool :=
  match t with Some t => (cutoff <? t)%Z | None => true end.

Definition prune_expired_checkpoint_actions (st : ReconciledCheckpointState)
    (reference_timestamp : Z) : DeltaResult ReconciledCheckpointState :=
  match rs_metadata st with
  | None => Err (DeGeneric "Cannot prune checkpoint actions without metadata action")
  | Some metadata =>
      let properties := table_properties metadata in
      files ← retention_cutoff_timestamp reference_timestamp
                (deleted_file_retention_duration properties) "delta.deletedFileRetentionDuration";
      txns ← retention_cutoff_timestamp reference_timestamp
               (log_retention_duration properties) "delta.logRetentionDuration";
      Ok (MkState (rs_protocol st) (rs_metadata st)
            (filter (λ x, not_expired txns (tx_last_updated x.2) = true) (rs_txns st))
            (rs_domain_metadata st) (rs_adds st)
            (filter (λ x, not_expired files (rm_deletion_timestamp x.2) = true) (rs_removes st))
            (rs_sidecars st))
  end.

(** ** The rows of a checkpoint *)
Definition add_row (a : Add) : CheckpointActionRow := MkRow (Some a) None None None None None None None.
Definition remove_row (r : Remove) : CheckpointActionRow :=
  MkRow None (Some r) None None None None None None.
Definition metadata_row (m : Metadata) : CheckpointActionRow :=
  MkRow None None (Some m) None None None None None.
Definition protocol_row (p : Protocol) : CheckpointActionRow :=
  MkRow None None None (Some p) None None None None.
Definition txn_row (t : Transaction) : CheckpointActionRow :=
  MkRow None None None None (Some t) None None None.
Definition domain_row (d : DomainMetadata) : CheckpointActionRow :=
  MkRow None None None None None (Some d) None None.
Definition checkpoint_metadata_row (c : CheckpointMetadata) : CheckpointActionRow :=
  MkRow None None None None None None (Some c) None.
Definition sidecar_row (x : Sidecar) : CheckpointActionRow :=
  MkRow None None None None None None None (Some x).

(** [CheckpointBatchIter]: the batches one after the other. *)
Definition header_rows (protocol : Protocol) (metadata : Metadata)
    (st : ReconciledCheckpointState) : list CheckpointActionRow :=
  [protocol_row protocol; metadata_row metadata] ++
  (txn_row <$> btree_values String.leb (rs_txns st)) ++
  (domain_row <$> btree_values String.leb (rs_domain_metadata st)).
Definition checkpoint_rows (protocol : Protocol) (metadata : Metadata)
    (st : ReconciledCheckpointState) : list CheckpointActionRow :=
  header_rows protocol metadata st ++
  (remove_row <$> btree_values key_le (rs_removes st)) ++
  (add_row <$> btree_values key_le (rs_adds st)).
(** [SidecarBatchIter]. *)
Definition sidecar_rows (st : ReconciledCheckpointState) : list CheckpointActionRow :=
  (add_row <$> map_values (rs_adds st)) ++ (remove_row <$> map_values (rs_removes st)).

Definition protocol_and_metadata (st : ReconciledCheckpointState)
    : DeltaResult (Protocol * Metadata) :=
  match rs_protocol st, rs_metadata st with
  | None, _ => Err (DeGeneric "Cannot create checkpoint without protocol action")
  | _, None => Err (DeGeneric "Cannot create checkpoint without metadata action")
  | Some p, Some m => Ok (p, m)
  end.

(** ** What a checkpoint file holds ([kernel/checkpoint_augment.rs]) *)
Record AddAugmentationConfig := MkAugmentation {
  au_write_stats_as_struct : bool;
  au_write_stats_as_json : bool;
  au_stats_parsed_schema : option StatsSchema;
  au_partition_values_parsed_schema : option (list StructField);
  au_column_mapping_mode : ColumnMappingMode
}.
Definition effective_column_mapping_mode (table_schema : Schema) (explicit : ColumnMappingMode)
    : ColumnMappingMode :=
  match explicit with
  | ModeNone =>
      if existsb (λ f, bool_decide ("delta.columnMapping.physicalName" ∈ struct_field_metadata f) &&
                       bool_decide ("delta.columnMapping.id" ∈ struct_field_metadata f))
           (schema_fields table_schema)
      then ModeName else ModeNone
  | _ => explicit
  end.

(** [StructType::try_new]: [seen] are the names inserted so far. *)
Fixpoint check_field_names (seen : list string) (fields : list StructField) : DeltaResult unit :=
  match fields with
  | [] => Ok tt
  | f :: fields =>
      let name := struct_field_name f in
      if bool_decide (name ∈ seen) then Err (DeSchema ("Duplicate field name: " +:+ name))
      else check_field_names (name :: seen) fields
  end.
Definition struct_type_try_new (fields : list StructField) : DeltaResult (list StructField) :=
  _ ← check_field_names [] fields; Ok fields.

(** [AddAugmentationConfig::from_metadata]. *)
Definition stats_schema_of (metadata : Metadata) (table_schema : Schema) (mode : ColumnMappingMode)
    : DeltaResult StatsSchema :=
  fields ← struct_type_try_new
    (filter (λ f, struct_field_name f ∉ me_partition_columns metadata) (schema_fields table_schema));
  stats_schema fields mode (me_configuration metadata).
Definition partition_field (table_schema : Schema) (col : string) : DeltaResult StructField :=
  match List.find (λ f, bool_decide (struct_field_name f = col)) (schema_fields table_schema) with
  | Some f => Ok f
  | None => Err (DeMissingColumn col)
  end.
Definition partition_schema_of (metadata : Metadata) (table_schema : Schema)
    : DeltaResult (option (list StructField)) :=
  match me_partition_columns metadata with
  | [] => Ok None
  | partition_cols =>
      fields ← collect_results (partition_field table_schema <$> partition_cols);
      fields ← struct_type_try_new fields;
      Ok (Some fields)
  end.
Definition augmentation_from_metadata (metadata : Metadata) : DeltaResult AddAugmentationConfig :=
  let properties := table_properties metadata in
  let write_stats_as_struct := default true (tp_checkpoint_write_stats_as_struct properties) in
  let write_stats_as_json := default true (tp_checkpoint_write_stats_as_json properties) in
  let explicit := default ModeNone (tp_column_mapping_mode properties) in
  if write_stats_as_struct then
    table_schema ← parse_schema metadata;
    let mode := effective_column_mapping_mode table_schema explicit in
    stats ← stats_schema_of metadata table_schema mode;
    partition ← partition_schema_of metadata table_schema;
    Ok (MkAugmentation write_stats_as_struct write_stats_as_json (Some stats) partition mode)
  else Ok (MkAugmentation write_stats_as_struct write_stats_as_json None None explicit).
Definition is_noop (c : AddAugmentationConfig) : bool :=
  negb (au_write_stats_as_struct c) && au_write_stats_as_json c.

(** [parse_stats_json_array]: no statistics and empty ones are a null row. *)
Definition stats_line (stats : option string) : option string :=
  match stats with Some EmptyString => None | _ => stats end.
Fixpoint parse_stats_json_array (schema : StatsSchema) (json : list (option string))
    : DeltaResult (list (option Json)) :=
  match json with
  | [] => Ok []
  | value :: json =>
      parsed ← match stats_line value with
               | Some line => x ← read_stats_json schema line; Ok (Some x)
               | None => Ok None
               end;
      rest ← parse_stats_json_array schema json;
      Ok (parsed :: rest)
  end.

(** [augment_add], for a batch: the statistics as a struct are added, those as
    JSON removed. *)
Definition parsed_columns (c : AddAugmentationConfig) (rows : list CheckpointActionRow)
    : DeltaResult (list (option (option Json))) :=
  if au_write_stats_as_struct c then
    match au_stats_parsed_schema c with
    | None => Err (DeSchema
        "stats_parsed_schema must be present when writeStatsAsStruct is true")
    | Some schema => l ← parse_stats_json_array schema (row_stats <$> rows); Ok (List.map Some l)
    end
  else Ok (replicate (length rows) None).
Definition stored_row (as_json : bool) (row : CheckpointActionRow) (parsed : option (option Json))
    : StoredRow :=
  MkStoredRow (row_with_stats None row) (if as_json then Some (row_stats row) else None) parsed.
Definition augment_add (c : AddAugmentationConfig) (rows : list CheckpointActionRow)
    : DeltaResult (list StoredRow) :=
  if is_noop c then Ok ((λ row, stored_row true row None) <$> rows)
  else
    parsed ← parsed_columns c rows;
    _ ← match au_partition_values_parsed_schema c with
        | Some schema => parse_partition_values schema (au_column_mapping_mode c) rows
        | None => Ok tt
        end;
    Ok (zip_with (stored_row (au_write_stats_as_json c)) rows parsed).

Definition encode_checkpoint_rows (c : AddAugmentationConfig) (rows : list CheckpointActionRow)
    : DeltaResult (list StoredRow) :=
  _ ← to_record_batch rows;
  augment_add c rows.

(** [next_batch]: rows are collected until there are [size] of them; [rows] are
    those of the current batch. *)
Fixpoint batches_of {A} (size : N) (rows l : list A) : list (list A) :=
  match l with
  | [] => match rows with [] => [] | _ => [rows] end
  | x :: l =>
      if (N.of_nat (length rows) <? size)%N then batches_of size (rows ++ [x]) l
      else rows :: batches_of size [x] l
  end.
Definition checkpoint_write_batch_size : N := 16384.

(** The batches are encoded and written one after the other. *)
Fixpoint write_batches (c : AddAugmentationConfig) (batches : list (list CheckpointActionRow))
    : DeltaResult (list StoredRow) :=
  match batches with
  | [] => Ok []
  | rows :: batches =>
      batch ← encode_checkpoint_rows c rows;
      _ ← write_record_batch batch;
      rest ← write_batches c batches;
      Ok (batch ++ rest)
  end.

(** What a checkpoint takes from outside: the clock, the random names and the size
    of the sidecar file that was written. *)
Record CheckpointEnv := MkCheckpointEnv {
  ce_now : Z;
  ce_sidecar_uuid : string;
  ce_checkpoint_uuid : string;
  ce_sidecar_size : Z
}.

Definition put_checkpoint s (version : Z) (name : string) (rows : list StoredRow)
    (now : Z) : LogStore :=
  MkLogStore (ls_commits s) (ls_checksums s)
    (<[(version, name) := MkFile (Some (CheckpointRows rows)) now]> (ls_checkpoints s))
    (ls_compactions s) (ls_sidecars s) (Some version).
Definition put_sidecar s (path : string) (rows : list StoredRow) (now : Z) : LogStore :=
  MkLogStore (ls_commits s) (ls_checksums s) (ls_checkpoints s) (ls_compactions s)
    (<[path := MkFile (Some rows) now]> (ls_sidecars s)) (ls_last_checkpoint s).

Definition write_v1_checkpoint s (version : Z) (st : ReconciledCheckpointState)
    (env : CheckpointEnv) : DeltaResult unit * LogStore :=
  match protocol_and_metadata st with
  | Err e => (Err e, s)
  | Ok (protocol, metadata) =>
      match (augment ← augmentation_from_metadata metadata;
             write_batches augment
               (batches_of checkpoint_write_batch_size [] (checkpoint_rows protocol metadata st)))
      with
      | Err e => (Err e, s)
      | Ok rows => (Ok tt, put_checkpoint s version "parquet" rows (ce_now env))
      end
  end.

(** The sidecar is written, if there is something to put in it, before the main
    file, which is one batch. *)
Definition write_sidecar s (augment : AddAugmentationConfig) (st : ReconciledCheckpointState)
    (env : CheckpointEnv) : DeltaResult (LogStore * option Sidecar) :=
  let filename := ce_sidecar_uuid env +:+ ".parquet" in
  rows ← write_batches augment (batches_of checkpoint_write_batch_size [] (sidecar_rows st));
  Ok (match rows with
      | [] => (s, None)
      | _ => (put_sidecar s (sidecar_file_path filename) rows (ce_now env),
              Some (MkSidecar filename (ce_sidecar_size env) (ce_now env) None))
      end).
Definition main_rows (version : Z) (protocol : Protocol) (metadata : Metadata)
    (st : ReconciledCheckpointState) (sidecar : option Sidecar) : list CheckpointActionRow :=
  [checkpoint_metadata_row (MkCheckpointMetadata version None)] ++
  header_rows protocol metadata st ++ (sidecar_row <$> option_list sidecar).
Definition write_v2_checkpoint s (version : Z) (st : ReconciledCheckpointState)
    (env : CheckpointEnv) : DeltaResult unit * LogStore :=
  match protocol_and_metadata st with
  | Err e => (Err e, s)
  | Ok (protocol, metadata) =>
      match augmentation_from_metadata metadata with
      | Err e => (Err e, s)
      | Ok augment =>
          match write_sidecar s augment st env with
          | Err e => (Err e, s)
          | Ok (s, sidecar) =>
              match write_batches augment [main_rows version protocol metadata st sidecar] with
              | Err e => (Err e, s)
              | Ok rows =>
                  (Ok tt, put_checkpoint s version (ce_checkpoint_uuid env +:+ ".parquet") rows
                            (ce_now env))
              end
          end
      end
  end.

(** The state that a checkpoint of [version] records: the latest checkpoint, and
    the commits after it. *)
Definition checkpoint_state s (version : Z) (now : Z) : DeltaResult ReconciledCheckpointState :=
  let offset := match ls_last_checkpoint s with
                | Some v => pred_i64 (Z.min v version) | None => 0%Z end in
  let commits := sort_by_key fst (upto fst version (list_commits s offset)) in
  let checkpoints := sort_by_key (λ x, x.1.1) (upto (λ x, x.1.1) version (list_checkpoints s offset)) in
  base ← (match last checkpoints with
          | Some (cp_ver, _, f) =>
              rows ← read_checkpoint_rows s f;
              Ok (foldl apply_checkpoint_row state_default rows, succ_i64 cp_ver)
          | None => Ok (state_default, 0%Z)
          end : DeltaResult (ReconciledCheckpointState * Z));
  r ← replay_commit_actions base.1 commits base.2 version;
  prune_expired_checkpoint_actions r.1 now.

(** [CheckpointManager::create_checkpoint]. *)
Definition create_checkpoint s (version : Z) (env : CheckpointEnv) : DeltaResult unit * LogStore :=
  if (version <? 0)%Z then
    (Err (DeGeneric ("Cannot create checkpoint for negative version: " +:+ pretty version)), s)
  else
    match checkpoint_state s version (ce_now env) with
    | Err e => (Err e, s)
    | Ok st =>
        if match rs_protocol st with Some p => has_writer_feature p V2Checkpoint | None => false end
        then write_v2_checkpoint s version st env
        else write_v1_checkpoint s version st env
    end.

Definition should_create_checkpoint (version checkpoint_interval : Z) : bool :=
  negb (version =? 0)%Z && (Z.rem version checkpoint_interval =? 0)%Z.

(** ** Log compaction *)
Fixpoint compact_commits s (st : ReconciledCheckpointState) (l : list Z)
    : DeltaResult ReconciledCheckpointState :=
  match l with
  | [] => Ok st
  | version :: l =>
      match ls_commits s !! version with
      | None => Err (DeGeneric ("Missing commit file for version " +:+ pretty version +:+
                                " during log compaction"))
      | Some f =>
          actions ← get_actions version f;
          compact_commits s (foldl apply_action st actions) l
      end
  end.

(** The lines of the compacted file. *)
Definition compacted_actions (st : ReconciledCheckpointState) (min_retention : Z) : list Action :=
  (AProtocol <$> option_list (rs_protocol st)) ++
  (AMetadata <$> option_list (rs_metadata st)) ++
  (ATxn <$> sort_by (λ x y, String.leb (tx_app_id x) (tx_app_id y)) (map_values (rs_txns st))) ++
  (ADomainMetadata <$> filter (λ d, dm_removed d = false)
     (sort_by (λ x y, String.leb (dm_domain x) (dm_domain y))
        (map_values (rs_domain_metadata st)))) ++
  (ARemove <$> filter (λ r, match rm_deletion_timestamp r with
                            | Some t => (min_retention <=? t)%Z | None => true end = true)
     (sort_by (λ x y, String.leb (rm_path x) (rm_path y)) (map_values (rs_removes st)))) ++
  (AAdd <$> sort_by (λ x y, String.leb (add_path x) (add_path y)) (map_values (rs_adds st))).

(** [create_log_compaction_for]: an existing file is left alone. *)
Definition create_log_compaction_for s (start_version end_version min_retention now : Z)
    : DeltaResult unit * LogStore :=
  match compact_commits s state_default (versions start_version end_version) with
  | Err e => (Err e, s)
  | Ok st =>
      match ls_compactions s !! (start_version, end_version) with
      | Some _ => (Ok tt, s)
      | None => (Ok tt, ls_with_compactions s
                   (<[(start_version, end_version) :=
                      MkFile (Some (compacted_actions st min_retention)) now]> (ls_compactions s)))
      end
  end.

Definition should_create_compaction (version : Z) (compaction_interval : N) : bool :=
  (0 <? compaction_interval)%N && (0 <? version)%Z &&
  (Z.rem (version + 1) (Z.of_N compaction_interval) =? 0)%Z.

(** ** Time stamps of versions *)
Definition read_in_commit_timestamp_from_checksum s (version : Z) : DeltaResult (option Z) :=
  match ls_checksums s !! version with
  | None => Ok None
  | Some f => match file_content f with
              | Some c => Ok (vc_in_commit_timestamp_opt c)
              | None => Err decode_error
              end
  end.
Definition read_in_commit_timestamp_from_commit_json s (version : Z) : DeltaResult (option Z) :=
  match ls_commits s !! version with
  | None => Ok None
  | Some f => actions ← get_actions version f; Ok (in_commit_timestamp_from_actions actions)
  end.

Definition resolve_version_timestamp s (version : Z) (cached : option Z) (protocol : Protocol)
    (metadata : Metadata) : DeltaResult Z :=
  match cached with
  | Some t => Ok t
  | None =>
      if negb (version_uses_in_commit_timestamps version protocol metadata) then
        match ls_commits s !! version with
        | Some f => Ok (file_modified f)
        | None => Err (DeExternal "object not found")
        end
      else
        from_checksum ← read_in_commit_timestamp_from_checksum s version;
        match from_checksum with
        | Some t => Ok t
        | None =>
            from_commit ← read_in_commit_timestamp_from_commit_json s version;
            match from_commit with
            | Some t => Ok t
            | None => Err (DeGeneric ("commit " +:+ pretty version +:+
                " requires inCommitTimestamp, but neither the checksum nor the commit JSON " +:+
                "provided one"))
            end
        end
  end.

(** ** Clean-up of expired log files *)
Record RetentionCleanupBoundary := MkBoundary {
  rb_cutoff_commit_version : option Z;
  rb_checkpoint_versions : gset Z
}.

(** [Option<i64>::max]: [None] is smallest. *)
Definition observe_commit (cutoff latest : Z) (b : RetentionCleanupBoundary)
    (version timestamp : Z) : RetentionCleanupBoundary :=
  if ((version <=? latest) && (timestamp <=? cutoff))%Z then
    MkBoundary (Some (match rb_cutoff_commit_version b with
                      | Some c => Z.max c version | None => version end))
      (rb_checkpoint_versions b)
  else b.

(** [checkpoint_versions.range(..=cutoff).next_back()]. *)
Definition retention_checkpoint_version (b : RetentionCleanupBoundary) : option Z :=
  cutoff ← rb_cutoff_commit_version b;
  max_version (filter (λ v, (v <=? cutoff)%Z = true) (elements (rb_checkpoint_versions b))).

Fixpoint observe_commits s (cutoff latest : Z) (timestamps : gmap Z Z) (protocol : Protocol)
    (metadata : Metadata) (b : RetentionCleanupBoundary) (l : list Z)
    : DeltaResult RetentionCleanupBoundary :=
  match l with
  | [] => Ok b
  | version :: l =>
      t ← resolve_version_timestamp s version (timestamps !! version) protocol metadata;
      observe_commits s cutoff latest timestamps protocol metadata
        (observe_commit cutoff latest b version t) l
  end.

Definition find_retention_checkpoint_version s (latest cutoff : Z) (timestamps : gmap Z Z)
    (protocol : Protocol) (metadata : Metadata) : DeltaResult (option Z) :=
  let checkpoints := filter (λ v, (v <=? latest)%Z = true) (hash_items (ls_checkpoints s)).*1.*1 in
  let commits := sort_by_key id
    (filter (λ v, (v <=? latest)%Z = true) (hash_items (ls_commits s)).*1) in
  b ← observe_commits s cutoff latest timestamps protocol metadata
        (MkBoundary None (list_to_set checkpoints)) commits;
  Ok (retention_checkpoint_version b).

(** [is_uuid_checkpoint_filename], for the part of the name after [.checkpoint.]: a
    hyphenated UUID of 36 characters and the extension. *)
Definition is_hex (c : ascii) : bool :=
  let n := N_of_ascii c in
  ((48 <=? n) && (n <=? 57) || (65 <=? n) && (n <=? 70) || (97 <=? n) && (n <=? 102))%N.
Fixpoint uuid_chars (i : nat) (l : list ascii) : bool :=
  match l with
  | [] => Nat.eqb i 36
  | c :: l => (if bool_decide (i ∈ [8; 13; 18; 23]) then Ascii.eqb c "-" else is_hex c) &&
              uuid_chars (S i) l
  end.
Definition is_uuid (u : string) : bool := uuid_chars 0 (list_ascii_of_string u).
Definition uuid_like (name : string) : bool :=
  let u := String.substring 0 36 name in
  is_uuid u && bool_decide (name ∈ [u +:+ ".parquet"; u +:+ ".json"]).

(** [ensure_v2_compat_classic_checkpoint]: a copy under the classic name. *)
Definition ensure_v2_compat_classic_checkpoint s (version now : Z) : LogStore :=
  match ls_checkpoints s !! (version, "parquet") with
  | Some _ => s
  | None =>
      match head (filter (λ x, (x.1.1 =? version)%Z && uuid_like x.1.2 = true)
                    (hash_items (ls_checkpoints s))) with
      | None => s
      | Some (_, f) =>
          MkLogStore (ls_commits s) (ls_checksums s)
            (<[(version, "parquet") := MkFile (file_content f) now]> (ls_checkpoints s))
            (ls_compactions s) (ls_sidecars s) (ls_last_checkpoint s)
      end
  end.

(** [delete_logs_before_checkpoint_version], for the names that are recognised. *)
Definition delete_logs_before_checkpoint_version s (version : Z) : LogStore :=
  MkLogStore (filter (λ x, (x.1 <? version)%Z = false) (ls_commits s))
    (filter (λ x, (x.1 <? version)%Z = false) (ls_checksums s))
    (filter (λ x, (x.1.1 <? version)%Z = false) (ls_checkpoints s))
    (filter (λ x, ((x.1.1 <? x.1.2) && (x.1.2 <? version))%Z = false) (ls_compactions s))
    (ls_sidecars s) (ls_last_checkpoint s).

(** [cleanup_orphaned_sidecars]: a checkpoint that cannot be read counts for
    nothing, and sidecars younger than a day are kept. *)
Definition referenced_sidecars s : gset string :=
  list_to_set (x ← hash_items (ls_checkpoints s);
    if uuid_like x.1.2 then
      match read_checkpoint_main_rows x.2 with
      | Ok rows => sc_path <$> omap row_sidecar rows
      | Err _ => []
      end
    else []).
Definition file_name (path : string) : string := default "" (last (split_char "/" path)).
Definition cleanup_orphaned_sidecars s (now : Z) : LogStore :=
  MkLogStore (ls_commits s) (ls_checksums s) (ls_checkpoints s) (ls_compactions s)
    (filter (λ x, bool_decide (file_name x.1 ∈ referenced_sidecars s) ||
                  (now - 86400000 <? file_modified x.2)%Z = true) (ls_sidecars s))
    (ls_last_checkpoint s).

(** [cleanup_expired_delta_log_files]. *)
Definition cleanup_expired_delta_log_files s (latest cutoff now : Z) (timestamps : gmap Z Z)
    (protocol : Protocol) (metadata : Metadata) : DeltaResult unit * LogStore :=
  match find_retention_checkpoint_version s latest cutoff timestamps protocol metadata with
  | Err e => (Err e, s)
  | Ok None => (Ok tt, s)
  | Ok (Some version) =>
      let s := ensure_v2_compat_classic_checkpoint s version now in
      let s := delete_logs_before_checkpoint_version s version in
      (Ok tt, cleanup_orphaned_sidecars s now)
  end.
End checkpoints.
