(* ===== verification/DeltaTransaction.v ===== *)
(** * Committing to a Delta table

    [zelox-delta-lake/src/kernel/transaction/]: the data of a commit and the loop
    of attempts ([mod.rs]), the check against commits that came first
    ([conflict_checker.rs]) and what follows a commit: checksum, checkpoint,
    clean-up and compaction.

    Other writers work on the same directory; [Surroundings] says what they do
    between the steps of a commit, and what the clock shows.  The reads of one
    attempt see one state of the directory. *)

From Stdlib Require Import Ascii String.
From S2P Require Import Prelude Collections CatalogNames DeltaSpec DeltaProperties DeltaLog DeltaSegment DeltaSnapshot DeltaCheckpoint.

(** ** Selecting actions *)
Definition action_metadata (a : Action) : option Metadata :=
  match a with AMetadata m => Some m | _ => None end.
Definition action_protocol (a : Action) : option Protocol :=
  match a with AProtocol p => Some p | _ => None end.
Definition action_add (a : Action) : option Add := match a with AAdd x => Some x | _ => None end.
Definition action_remove (a : Action) : option Remove :=
  match a with ARemove x => Some x | _ => None end.
Definition action_txn (a : Action) : option Transaction :=
  match a with ATxn t => Some t | _ => None end.
Definition action_domain (a : Action) : option DomainMetadata :=
  match a with ADomainMetadata d => Some d | _ => None end.
Definition action_cdc (a : Action) : option AddCDCFile :=
  match a with ACdc c => Some c | _ => None end.
Definition action_commit_info (a : Action) : option CommitInfo :=
  match a with ACommitInfo c => Some c | _ => None end.

(** A commit is looked at as the actions that it will be. *)
Definition as_actions (l : list CommitAction) : list Action := action_of_commit <$> l.
Definition commit_info_of (l : list CommitAction) : option CommitInfo :=
  head (omap action_commit_info (as_actions l)).

Section transaction.
Context `{DE : DeltaEngine} `{HO : HashOrder}.
Implicit Types (s : LogStore).

(** ** Conflicts ([conflict_checker.rs]) *)

(** What the transaction did, and what has been committed in between. *)
Record TransactionInfo := MkTransactionInfo {
  ti_actions : list CommitAction;
  ti_read_snapshot : DeltaSnapshot;
  ti_read_whole_table : bool
}.
Record WinningCommitSummary := MkWinning {
  wc_actions : list Action;
  wc_commit_info : option CommitInfo
}.
Definition winning_new s (version : Z) : DeltaResult WinningCommitSummary :=
  match ls_commits s !! version with
  | None => Err DeMissingVersion
  | Some f =>
      actions ← get_actions version f;
      Ok (MkWinning actions (head (omap action_commit_info actions)))
  end.

Definition read_app_ids (t : TransactionInfo) : list string :=
  tx_app_id <$> omap action_txn (as_actions (ti_actions t)).
Definition metadata_changed (t : TransactionInfo) : bool :=
  bool_decide (omap action_metadata (as_actions (ti_actions t)) ≠ []).
Definition winning_blind_append (w : WinningCommitSummary) : bool :=
  match wc_commit_info w with Some i => default false (ci_is_blind_append i) | None => false end.
Definition added_files (w : WinningCommitSummary) : list Add := omap action_add (wc_actions w).
Definition removed_files (w : WinningCommitSummary) : list Remove :=
  omap action_remove (wc_actions w).
Definition blind_append_added_files (w : WinningCommitSummary) : list Add :=
  if winning_blind_append w then added_files w else [].
Definition changed_data_added_files (w : WinningCommitSummary) : list Add :=
  if winning_blind_append w then [] else added_files w.

(** [can_downgrade_to_snapshot_isolation]. *)
Definition data_changing (a : Action) : bool :=
  match a with AAdd x => add_data_change x | ARemove x => rm_data_change x | _ => false end.
Definition can_downgrade_to_snapshot_isolation (actions : list Action) (operation : DeltaOperation)
    (level : IsolationLevel) : bool :=
  let data_changed := existsb data_changing actions in
  let has_non_file_actions := existsb (λ a, negb (data_changing a)) actions in
  if has_non_file_actions then false
  else match level with
       | Serializable => negb data_changed
       | WriteSerializable => negb data_changed && negb (changes_data operation)
       | SnapshotIsolation => false
       end.

Definition checker_isolation_level (t : TransactionInfo) (w : WinningCommitSummary)
    (operation : DeltaOperation) : IsolationLevel :=
  let level := isolation_level (sn_properties (ti_read_snapshot t)) in
  if can_downgrade_to_snapshot_isolation (wc_actions w) operation level then SnapshotIsolation
  else level.

Definition protocol_changed : CommitConflictError := ProtocolChanged "protocol changed".
Definition check_protocol_compatibility (t : TransactionInfo) (w : WinningCommitSummary)
    : Result CommitConflictError unit :=
  let wins := omap action_protocol (wc_actions w) in
  let current := sn_protocol (ti_read_snapshot t) in
  match List.find (λ p, ((pr_min_reader_version current <? pr_min_reader_version p) ||
                         (pr_min_writer_version p <? pr_min_writer_version current))%Z) wins with
  | Some p => Err (ProtocolChanged ("required read/write " +:+ pretty (pr_min_reader_version p) +:+
      "/" +:+ pretty (pr_min_writer_version p) +:+ ", current read/write " +:+
      pretty (pr_min_reader_version current) +:+ "/" +:+ pretty (pr_min_writer_version current)))
  | None =>
      match wins with
      | [] => Ok tt
      | _ => match head (omap action_protocol (as_actions (ti_actions t))) with
             | Some p => if forallb (λ q, bool_decide (q = p)) wins then Ok tt
                         else Err protocol_changed
             | None => Err protocol_changed
             end
      end
  end.

Definition check_no_metadata_updates (t : TransactionInfo) (w : WinningCommitSummary)
    : Result CommitConflictError unit :=
  let wins := omap action_metadata (wc_actions w) in
  match wins with
  | [] => Ok tt
  | _ => match head (omap action_metadata (as_actions (ti_actions t))) with
         | Some m => if forallb (λ q, bool_decide (q = m)) wins then Ok tt else Err MetadataChanged
         | None => Err MetadataChanged
         end
  end.

(** A hash set's intersection; which element comes first is not fixed. *)
Definition common (l k : list string) : option string :=
  head (hash_order (filter (λ x, x ∈ k) (remove_dups l))).
Definition check_no_domain_metadata_conflicts (t : TransactionInfo) (w : WinningCommitSummary)
    : Result CommitConflictError unit :=
  match common (dm_domain <$> omap action_domain (as_actions (ti_actions t)))
               (dm_domain <$> omap action_domain (wc_actions w)) with
  | Some domain => Err (ConcurrentDomainMetadata domain)
  | None => Ok tt
  end.

Definition check_added_files (t : TransactionInfo) (w : WinningCommitSummary)
    (level : IsolationLevel) : Result CommitConflictError unit :=
  let added := match level with
    | SnapshotIsolation => []
    | WriteSerializable =>
        if negb (metadata_changed t) then changed_data_added_files w
        else changed_data_added_files w ++ blind_append_added_files w
    | Serializable => changed_data_added_files w ++ blind_append_added_files w
    end in
  match (if ti_read_whole_table t then added else []) with
  | [] => Ok tt
  | _ => Err ConcurrentAppend
  end.

Definition check_deleted_read_files (t : TransactionInfo) (w : WinningCommitSummary)
    : Result CommitConflictError unit :=
  let read := add_path <$> sn_adds (ti_read_snapshot t) in
  if existsb (λ r, bool_decide (rm_path r ∈ read)) (removed_files w) ||
     (negb (bool_decide (removed_files w = [])) && ti_read_whole_table t)
  then Err ConcurrentDeleteRead else Ok tt.

Definition check_deleted_deleted_files (t : TransactionInfo) (w : WinningCommitSummary)
    : Result CommitConflictError unit :=
  match common (rm_path <$> omap action_remove (as_actions (ti_actions t)))
               (rm_path <$> removed_files w) with
  | Some _ => Err ConcurrentDeleteDelete
  | None => Ok tt
  end.

Definition check_app_ids (t : TransactionInfo) (w : WinningCommitSummary)
    : Result CommitConflictError unit :=
  match common (tx_app_id <$> omap action_txn (wc_actions w)) (read_app_ids t) with
  | Some _ => Err ConcurrentTransaction
  | None => Ok tt
  end.

(** [ConflictChecker::check_conflicts]. *)
Definition check_conflicts (t : TransactionInfo) (w : WinningCommitSummary)
    (operation : DeltaOperation) : Result CommitConflictError unit :=
  _ ← check_protocol_compatibility t w;
  _ ← check_no_metadata_updates t w;
  _ ← check_no_domain_metadata_conflicts t w;
  _ ← check_added_files t w (checker_isolation_level t w operation);
  _ ← check_deleted_read_files t w;
  _ ← check_deleted_deleted_files t w;
  check_app_ids t w.

(** ** The data of a commit *)
Definition is_blind_append (actions : list CommitAction) (operation : DeltaOperation) : bool :=
  match operation with
  | OpWrite _ _ None =>
      forallb (λ a, match a with CAdd _ | CTxn _ | CCommitInfo _ => true | _ => false end) actions
  | _ => false
  end.

(** [DeltaOperation::get_commit_info]. *)
Definition get_commit_info (operation : DeltaOperation) : CommitInfo :=
  MkCommitInfo None None None (Some (operation_name operation)) (operation_parameters operation)
    None None None (Some ("zelox-delta-lake:" +:+ package_version)) None ∅ None.

(** The members of an object; another value counts for nothing. *)
Definition object_members (j : option Json) : gmap string Json :=
  match j with Some (JsonObject l) => list_to_map l | _ => ∅ end.
Definition json_object (m : gmap string Json) : Json :=
  JsonObject (sort_by (λ x y, String.leb x.1 y.1) (hash_items m)).

(** [CommitData::new]: one commit info comes first, the application transactions
    last. *)
Definition commit_info_with (i : CommitInfo) (blind : bool) (user_metadata : option string)
    (app_metadata operation_metrics : gmap string Json) : CommitInfo :=
  let info := delete "inCommitTimestamp" (ci_info i) in
  let ict := match ci_in_commit_timestamp i with
             | Some t => Some t
             | None => j ← ci_info i !! "inCommitTimestamp"; json_as_i64 j
             end in
  let app_metadata := match app_metadata !! "clientVersion" with
    | Some _ => app_metadata
    | None => <["clientVersion" := JsonString ("zelox-delta-lake." +:+ package_version)]> app_metadata
    end in
  let metrics := operation_metrics ∪ (object_members (app_metadata !! "operationMetrics") ∪
                                      object_members (info !! "operationMetrics")) in
  let merged := app_metadata ∪ info in
  let merged := if bool_decide (metrics = ∅) then merged
                else <["operationMetrics" := json_object metrics]> merged in
  MkCommitInfo (ci_timestamp i) (ci_user_id i) (ci_user_name i) (ci_operation i)
    (ci_operation_parameters i) (ci_read_version i) (ci_isolation_level i) (Some blind)
    (ci_engine_info i) ict merged
    (match user_metadata with Some _ => user_metadata | None => ci_user_metadata i end).

Definition is_commit_info (a : CommitAction) : bool :=
  match a with CCommitInfo _ => true | _ => false end.
Definition commit_data_new (actions : list CommitAction) (operation : DeltaOperation)
    (app_metadata operation_metrics : gmap string Json) (app_transactions : list Transaction)
    (user_metadata : option string) : list CommitAction :=
  let i := default (get_commit_info operation) (commit_info_of actions) in
  CCommitInfo (commit_info_with i (is_blind_append actions operation) user_metadata app_metadata
                 operation_metrics) ::
  filter (λ a, is_commit_info a = false) actions ++ (CTxn <$> app_transactions).

(** ** One attempt *)
Definition ci_stamp (i : CommitInfo) (timestamp ict : option Z) : CommitInfo :=
  MkCommitInfo timestamp (ci_user_id i) (ci_user_name i) (ci_operation i)
    (ci_operation_parameters i) (ci_read_version i) (ci_isolation_level i) (ci_is_blind_append i)
    (ci_engine_info i) ict (delete "inCommitTimestamp" (ci_info i)) (ci_user_metadata i).

(** The first metadata action of a list. *)
Fixpoint map_first_metadata (f : Metadata → Metadata) (l : list CommitAction) : list CommitAction :=
  match l with
  | [] => []
  | CMetadata m :: l => CMetadata (f m) :: l
  | a :: l => a :: map_first_metadata f l
  end.

(** [finalize_attempt_actions]; the commit info is at the front. *)
Definition stamp_commit_info (now : Z) (ict : option Z) (l : list CommitAction)
    : list CommitAction :=
  match l with
  | CCommitInfo i :: l => CCommitInfo (ci_stamp i (Some now) ict) :: l
  | l => l
  end.
Definition finalize_attempt_actions (base : list CommitAction) (sn : option DeltaSnapshot)
    (version : Z) (previous : option Z) (now : Z) : list CommitAction :=
  let old_enabled := match sn with Some sn => in_commit_timestamps_enabled sn | None => false end in
  let new_enabled :=
    match resolve_effective_protocol_and_metadata (sn_protocol <$> sn) (sn_metadata <$> sn)
            (as_actions base) with
    | Some (p, m) => is_in_commit_timestamps_enabled p (table_properties m)
    | None => false
    end in
  let min_timestamp := match previous with Some t => saturate_i64 (t + 1) | None => now end in
  let ict := if new_enabled then Some (Z.max now min_timestamp) else None in
  let actions := stamp_commit_info now ict base in
  match sn, ict with
  | Some _, Some t =>
      if negb old_enabled then
        map_first_metadata (λ m,
          add_config_key (add_config_key m "delta.inCommitTimestampEnablementVersion" (pretty version))
            "delta.inCommitTimestampEnablementTimestamp" (pretty t)) actions
      else actions
  | _, _ => actions
  end.

Definition table_property_enabled (m : Metadata) (key : string) : bool :=
  match me_configuration m !! key with
  | Some v => eq_ignore_ascii_case v "true"
  | None => false
  end.

Definition lift_tx {A} (r : Result TransactionError A) : DeltaResult A :=
  match r with Ok a => Ok a | Err e => Err (DeTransaction e) end.
(** [if !cond { return Err(..) }]. *)
Definition require_feature (cond : bool) (f : TableFeature) : DeltaResult unit :=
  if cond then Ok tt else Err (DeTransaction (TableFeaturesRequired f)).

Definition has_action {A} (select : Action → option A) (l : list Action) : bool :=
  negb (bool_decide (length (omap select l) = 0)).
Definition uses_deletion_vector (a : Action) : bool :=
  match a with
  | AAdd x => bool_decide (is_Some (add_deletion_vector x))
  | ARemove x => bool_decide (is_Some (rm_deletion_vector x))
  | _ => false
  end.

(** [validate_effective_commit_target]. *)
Definition validate_effective_commit_target (sn : option DeltaSnapshot)
    (actions : list CommitAction) : DeltaResult unit :=
  let l := as_actions actions in
  match resolve_effective_protocol_and_metadata (sn_protocol <$> sn) (sn_metadata <$> sn) l with
  | None => Err (DeGeneric "Cannot validate commit without effective protocol and metadata")
  | Some (p, m) =>
      let cdf := protocol_supports_legacy_change_data_feed p ||
                 protocol_has_writer_feature p ChangeDataFeed in
      let dv := protocol_has_reader_writer_feature p DeletionVectors in
      let domains := protocol_has_writer_feature p DomainMetadataFeature in
      let row_tracking := table_property_enabled m "delta.enableRowTracking" ||
                          table_property_enabled m "delta.rowTrackingSuspended" in
      _ ← lift_tx (can_write_to_protocol p);
      schema ← parse_schema m;
      _ ← lift_tx (check_can_write_timestamp_ntz_to_protocol p schema);
      _ ← lift_tx (check_can_write_variant_to_protocol p schema);
      _ ← require_feature (negb (has_action action_domain l) || domains) DomainMetadataFeature;
      _ ← require_feature (negb (has_action action_cdc l) || cdf) ChangeDataFeed;
      _ ← require_feature (negb (existsb uses_deletion_vector l) || dv) DeletionVectors;
      _ ← require_feature (negb (table_property_enabled m "delta.enableChangeDataFeed") || cdf)
            ChangeDataFeed;
      _ ← require_feature (negb (table_property_enabled m "delta.enableDeletionVectors") || dv)
            DeletionVectors;
      _ ← require_feature (negb row_tracking || protocol_has_writer_feature p RowTracking)
            RowTracking;
      require_feature (negb row_tracking || domains) DomainMetadataFeature
  end.

(** [ProtocolChecker::can_commit]. *)
Definition can_commit (sn : DeltaSnapshot) (actions : list Action) (operation : DeltaOperation)
    : Result TransactionError unit :=
  _ ← can_write_to_protocol (sn_protocol sn);
  let v := pr_min_writer_version (sn_protocol sn) in
  let enabled := append_only (sn_properties sn) in
  let append_only_enabled :=
    if (v <? 2)%Z then false else if (v <? 7)%Z then enabled
    else has_writer_feature (sn_protocol sn) AppendOnly && enabled in
  let exempt := match operation with OpRestore _ _ | OpFileSystemCheck => true | _ => false end in
  if append_only_enabled && negb exempt &&
     existsb (λ a, match a with ARemove r => rm_data_change r | _ => false end) actions
  then Err DeltaTableAppendOnly else Ok tt.

(** ** The loop of attempts *)
Record PreparedCommit := MkPreparedCommit {
  pc_actions : list CommitAction;
  pc_operation : DeltaOperation;
  pc_table_data : option DeltaSnapshot;
  pc_max_retries : nat
}.

Definition creation_intent (pc : PreparedCommit) : bool :=
  match pc_table_data pc with None => true | Some _ => false end.
Definition current_is_blind_append (pc : PreparedCommit) : bool :=
  default false (head (omap (λ a, match a with CCommitInfo i => ci_is_blind_append i | _ => None end)
                         (pc_actions pc))).
Definition effective_max_retries (pc : PreparedCommit) : nat :=
  if creation_intent pc || current_is_blind_append pc then pc_max_retries pc else 0.
Definition max_commit_attempts (pc : PreparedCommit) : DeltaError :=
  DeTransaction (MaxCommitAttempts (Z.of_nat (effective_max_retries pc))).

(** What an attempt leaves to the next. *)
Record AttemptState := MkAttemptState {
  at_actions : list CommitAction;
  at_snapshot : option DeltaSnapshot;
  at_stripped : bool
}.
Definition attempt_start (pc : PreparedCommit) : AttemptState :=
  MkAttemptState (pc_actions pc) (pc_table_data pc) false.

(** For a creation of a table that exists by now: it must be the same table, and
    the actions that create it are dropped. *)
Definition is_creation_action (a : CommitAction) : bool :=
  match a with CProtocol _ | CMetadata _ => true | _ => false end.
Definition set_blind_append (a : CommitAction) : CommitAction :=
  match a with
  | CCommitInfo i => CCommitInfo (MkCommitInfo (ci_timestamp i) (ci_user_id i) (ci_user_name i)
      (ci_operation i) (ci_operation_parameters i) (ci_read_version i) (ci_isolation_level i)
      (Some true) (ci_engine_info i) (ci_in_commit_timestamp i) (ci_info i) (ci_user_metadata i))
  | a => a
  end.
Definition schema_equal (m m' : Metadata) : bool :=
  match parse_schema m, parse_schema m' with
  | Ok x, Ok y => bool_decide (x = y)
  | _, _ => false
  end.
Definition metadata_compatible (txn current : Metadata) : bool :=
  schema_equal txn current &&
  bool_decide (me_partition_columns txn = me_partition_columns current) &&
  bool_decide (me_configuration txn = me_configuration current).

Definition join_creation (pc : PreparedCommit) (st : AttemptState) (sn : DeltaSnapshot)
    : DeltaResult AttemptState :=
  let protocol := head (omap action_protocol (as_actions (pc_actions pc))) in
  let metadata := head (omap action_metadata (as_actions (pc_actions pc))) in
  if negb (match protocol with Some p => bool_decide (p = sn_protocol sn) | None => true end)
  then Err (DeTransaction (CommitConflict protocol_changed))
  else if negb (match metadata with Some m => metadata_compatible m (sn_metadata sn)
                                  | None => true end)
  then Err (DeTransaction (CommitConflict MetadataChanged))
  else if negb (at_stripped st) && existsb is_creation_action (at_actions st)
  then Ok (MkAttemptState
             (set_blind_append <$> filter (λ a, is_creation_action a = false) (at_actions st))
             (at_snapshot st) true)
  else Ok st.

(** The check against each of the versions [l]. *)
Fixpoint check_winners s (t : TransactionInfo) (operation : DeltaOperation) (l : list Z)
    : DeltaResult unit :=
  match l with
  | [] => Ok tt
  | v :: l =>
      w ← winning_new s v;
      match check_conflicts t w operation with
      | Err e => Err (DeTransaction (CommitConflict e))
      | Ok _ => check_winners s t operation l
      end
  end.

(** The part of an attempt for a table that exists, with its latest version. *)
Definition catch_up s (pc : PreparedCommit) (st : AttemptState) (latest : Z)
    : DeltaResult AttemptState :=
  sn ← (match at_snapshot st with
        | Some sn => Ok sn
        | None => snapshot_try_new s true (Some latest) None
        end : DeltaResult DeltaSnapshot);
  st ← (if creation_intent pc then join_creation pc st sn else Ok st : DeltaResult AttemptState);
  if (sn_version sn <? latest)%Z then
    match effective_max_retries pc with
    | O => Err (max_commit_attempts pc)
    | S _ =>
        let t := MkTransactionInfo (at_actions st) sn (read_whole_table (pc_operation pc)) in
        _ ← check_winners s t (pc_operation pc) (versions (sn_version sn + 1) latest);
        sn ← snapshot_update s sn latest;
        Ok (MkAttemptState (at_actions st) (Some sn) (at_stripped st))
    end
  else Ok (MkAttemptState (at_actions st) (Some sn) (at_stripped st)).

Definition previous_effective_commit_timestamp s (sn : option DeltaSnapshot)
    : DeltaResult (option Z) :=
  match sn with
  | None => Ok None
  | Some sn =>
      t ← resolve_version_timestamp s (sn_version sn) (sn_commit_timestamps sn !! sn_version sn)
            (sn_protocol sn) (sn_metadata sn);
      Ok (Some t)
  end.

Definition prepare_attempt s (pc : PreparedCommit) (st : AttemptState) (now : Z)
    : DeltaResult (AttemptState * Z * list CommitAction) :=
  let snapshot_version := match at_snapshot st with Some sn => sn_version sn | None => (-1)%Z end in
  latest ← (match get_latest_version s snapshot_version with
            | Ok v => Ok (Some v)
            | Err DeMissingVersion => Ok None
            | Err e => Err e
            end : DeltaResult (option Z));
  st ← (match latest with Some v => catch_up s pc st v | None => Ok st end
        : DeltaResult AttemptState);
  let version := match latest with Some v => (v + 1)%Z | None => 0%Z end in
  previous ← previous_effective_commit_timestamp s (at_snapshot st);
  let actions := finalize_attempt_actions (at_actions st) (at_snapshot st) version previous now in
  _ ← validate_effective_commit_target (at_snapshot st) actions;
  Ok (st, version, actions).

Record Surroundings := MkSurroundings {
  su_others : nat → LogStore → LogStore;
  su_now : nat → Z
}.
Record PostCommit := MkPostCommit {
  po_version : Z;
  po_actions : list CommitAction;
  po_table_data : option DeltaSnapshot;
  po_num_retries : nat
}.

(** [attempts] attempts are left, [k] have been made; others may write before an
    attempt reads and before it writes. *)
Fixpoint commit_attempts (E : Surroundings) (pc : PreparedCommit) (attempts k : nat)
    (st : AttemptState) s : DeltaResult PostCommit * LogStore :=
  match attempts with
  | O => (Err (max_commit_attempts pc), s)
  | S attempts =>
      let s := su_others E (2 * k) s in
      match prepare_attempt s pc st (su_now E k) with
      | Err e => (Err e, s)
      | Ok (st, version, actions) =>
          let s := su_others E (2 * k + 1) s in
          match write_commit_entry s version (as_actions actions) (su_now E k) with
          | (Ok _, s) => (Ok (MkPostCommit version actions (at_snapshot st) k), s)
          | (Err (VersionAlreadyExists _), s) => commit_attempts E pc attempts (S k) st s
          | (Err e, s) => (Err (DeTransaction e), s)
          end
      end
  end.

(** [PreCommit] and [PreparedCommit], run. *)
Definition run_commit (E : Surroundings) (pc : PreparedCommit) s
    : DeltaResult PostCommit * LogStore :=
  match (match pc_table_data pc with
         | Some sn => can_commit sn (as_actions (pc_actions pc)) (pc_operation pc)
         | None => Ok tt end) with
  | Err e => (Err (DeTransaction e), s)
  | Ok _ => commit_attempts E pc (S (effective_max_retries pc)) 0 (attempt_start pc) s
  end.

(** ** After the commit *)

(** [version_checksum_txn_id] and [version_checksum_in_commit_timestamp]. *)
Definition checksum_txn_id (p : PostCommit) : option string :=
  i ← commit_info_of (po_actions p); j ← ci_info i !! "txnId"; json_as_str j.
Definition checksum_in_commit_timestamp (p : PostCommit) : option Z :=
  i ← commit_info_of (po_actions p); ci_in_commit_timestamp i.

Definition build_full_checksum_fallback s (p : PostCommit) : option VersionChecksum :=
  let fresh := snapshot_try_new s true (Some (po_version p)) None in
  let sn := match po_table_data p with
    | Some prev =>
        if sn_require_files prev then
          match snapshot_update s prev (po_version p) with Ok sn => Ok sn | Err _ => fresh end
        else fresh
    | None => fresh
    end in
  match sn with
  | Err _ => None
  | Ok sn => match build_version_checksum sn (checksum_txn_id p) (checksum_in_commit_timestamp p) with
             | Ok c => c | Err _ => None end
  end.

(** The change of the number and of the size of the files: [None] on overflow,
    [Some None] if the size of a removed file is not known. *)
Fixpoint files_delta (l : list CommitAction) (files size : Z) : option (option (Z * Z)) :=
  match l with
  | [] => Some (Some (files, size))
  | CAdd a :: l =>
      files ← checked_i64 (files + 1);
      size ← checked_i64 (size + add_size a);
      files_delta l files size
  | CRemove r :: l =>
      files ← checked_i64 (files - 1);
      match rm_size r with
      | Some z => size ← checked_i64 (size - z); files_delta l files size
      | None => Some None
      end
  | _ :: l => files_delta l files size
  end.

Definition build_incremental_checksum s (p : PostCommit) : option VersionChecksum :=
  let l := as_actions (po_actions p) in
  match resolve_effective_protocol_and_metadata (sn_protocol <$> po_table_data p)
          (sn_metadata <$> po_table_data p) l with
  | None => None
  | Some (protocol, metadata) =>
      if has_unsupported_table_features protocol || existsb uses_deletion_vector l then None
      else
        delta ← files_delta (po_actions p) 0 0;
        match delta with
        | None => build_full_checksum_fallback s p
        | Some (files, size) =>
            let txns := omap action_txn l in
            let domains := omap action_domain l in
            let checksum files size txns domains :=
              MkVersionChecksum (checksum_txn_id p) size files 1 1 (checksum_in_commit_timestamp p)
                (sorted_txns txns) (sorted_domains domains) metadata protocol None None in
            if (po_version p =? 0)%Z then
              Some (checksum files size txns (filter (λ d, dm_removed d = false) domains))
            else
              match f ← ls_checksums s !! (po_version p - 1)%Z; file_content f with
              | None => build_full_checksum_fallback s p
              | Some prev =>
                  num_files ← checked_i64 (vc_num_files prev + files);
                  table_size ← checked_i64 (vc_table_size_bytes prev + size);
                  let txn_map := insert_all tx_app_id
                    (insert_all tx_app_id ∅ (default [] (vc_set_transactions prev))) txns in
                  let domain_map := foldl (λ m d, merge_domain d m)
                    (insert_all dm_domain ∅ (default [] (vc_domain_metadata prev))) domains in
                  Some (checksum num_files table_size (map_values txn_map) (map_values domain_map))
              end
        end
  end.

Definition write_version_checksum_incremental s (p : PostCommit) (now : Z) : LogStore :=
  let enabled := match po_table_data p with
    | Some sn => write_checksum_file_enabled (sn_properties sn)
    | None => match head (omap action_metadata (as_actions (po_actions p))) with
              | Some m => write_checksum_file_enabled (table_properties m)
              | None => true
              end
    end in
  if negb enabled then s
  else match build_incremental_checksum s p with
       | None => s
       | Some c =>
           match ls_checksums s !! po_version p with
           | Some _ => s
           | None => ls_with_checksums s
                       (<[po_version p := MkFile (Some c) now]> (ls_checksums s))
           end
       end.

Definition DAY : Z := 86400000.
(** [i64::try_from(d.as_millis()).unwrap_or(i64::MAX)]. *)
Definition duration_millis (d : Duration) : Z := Z.min (Z.of_N (as_millis d)) i64_max.

Record PostCommitHook := MkPostCommitHook {
  ph_create_checkpoint : bool;
  ph_cleanup_expired_logs : option bool
}.

(** [PostCommit::into_future], without the handlers of the hooks: nothing of it can
    make the commit fail. *)
Definition post_commit s (p : PostCommit) (hook : PostCommitHook) (env : CheckpointEnv) : LogStore :=
  let now := ce_now env in
  let version := po_version p in
  let state := match snapshot_try_new s false (Some version) None with
               | Ok sn => Some sn | Err _ => None end in
  let cleanup := match ph_cleanup_expired_logs hook with
    | Some b => b
    | None => match state with
              | Some sn => enable_expired_log_cleanup (sn_properties sn) | None => false end
    end in
  let will_create_checkpoint := ph_create_checkpoint hook &&
    match state with
    | Some sn => should_create_checkpoint version (Z.of_N (checkpoint_interval (sn_properties sn)))
    | None => false
    end in
  let compaction := sn ← state; interval ← tp_log_compaction_interval (sn_properties sn);
    if should_create_compaction version interval then Some (sn, interval) else None in
  let s := write_version_checksum_incremental s p now in
  let '(created, s) := if will_create_checkpoint then
      match create_checkpoint s version env with (Ok _, s) => (true, s) | (Err _, s) => (false, s) end
    else (false, s) in
  let s := match state with
    | Some sn =>
        if cleanup && created then
          let retention := duration_millis (log_retention_duration (sn_properties sn)) in
          (cleanup_expired_delta_log_files s (sn_version sn) ((now - retention) / DAY * DAY) now
             (sn_commit_timestamps sn) (sn_protocol sn) (sn_metadata sn)).2
        else s
    | None => s
    end in
  match compaction with
  | Some (sn, interval) =>
      let retention := duration_millis (deleted_file_retention_duration (sn_properties sn)) in
      (create_log_compaction_for s (version + 1 - Z.of_N interval) version (now - retention) now).2
  | None => s
  end.
End transaction.
