(* ===== verification/DeltaLogFacts.v ===== *)
(** * The state of a Delta table, and replay of its log

    The state of a table is what the actions of all its commits lead to
    ([table_state]).  A checkpoint may forget entries that have expired and restate
    the statistics of files, and nothing else: [agrees] relates a state that was
    loaded to that state, for what the checkpoints may lose ([losses]). *)

From Stdlib Require Import Ascii String.
From stdpp Require Import sorting.
From S2P Require Import Prelude Collections CatalogNames DeltaSpec DeltaProperties DeltaLog DeltaSegment DeltaCheckpoint.
(** ** Maps that forget entries *)
Section pruned.
Context `{Countable K} {V : Type}.
Implicit Types (m : gmap K V) (P Q : V → Prop).

Definition pruned P m m' : Prop :=
  ∀ k, m !! k = m' !! k ∨ m !! k = None ∧ ∃ x, m' !! k = Some x ∧ P x.

Lemma pruned_refl P m : pruned P m m.
Proof. by left. Qed.
Lemma pruned_trans P m1 m2 m3 : pruned P m1 m2 → pruned P m2 m3 → pruned P m1 m3.
Proof.
  intros H1 H2 k. destruct (H1 k) as [E1|(E1 & x & Ex & Hx)].
  - rewrite E1. apply H2.
  - right. split; [done|]. destruct (H2 k) as [E2|[E2 _]]; [|congruence].
    exists x. split; [congruence|done].
Qed.
Lemma pruned_mono P Q m m' : (∀ x, P x → Q x) → pruned P m m' → pruned Q m m'.
Proof. intros HPQ Hp k. destruct (Hp k) as [E|(E & x & Ex & Hx)]; naive_solver. Qed.
Lemma pruned_insert P m m' k x : pruned P m m' → pruned P (<[k:=x]> m) (<[k:=x]> m').
Proof.
  intros Hp k'. destruct (decide (k = k')) as [<-|Hne].
  - left. by rewrite !lookup_insert_eq.
  - rewrite !lookup_insert_ne by done. apply Hp.
Qed.
Lemma pruned_delete P m m' k : pruned P m m' → pruned P (delete k m) (delete k m').
Proof.
  intros Hp k'. destruct (decide (k = k')) as [<-|Hne].
  - left. by rewrite !lookup_delete_eq.
  - rewrite !lookup_delete_ne by done. apply Hp.
Qed.
Lemma pruned_subseteq P m m' : pruned P m m' → m ⊆ m'.
Proof.
  intros Hp. apply map_subseteq_spec. intros k x Hk. destruct (Hp k) as [E|[E _]]; congruence.
Qed.
Lemma pruned_filter P (keep : V → bool) m :
  (∀ x, keep x = false → P x) → pruned P (filter (λ x, keep x.2 = true) m) m.
Proof.
  intros HP k. destruct (m !! k) as [x|] eqn:E.
  - destruct (keep x) eqn:Ex; [left|right].
    + rewrite map_lookup_filter_Some. done.
    + split; [|eauto]. rewrite map_lookup_filter_None. right. intros y Hy. simpl. congruence.
  - left. rewrite map_lookup_filter_None. by left.
Qed.
End pruned.
Create HintDb delta.
#[export] Hint Resolve pruned_refl pruned_insert pruned_delete : delta.

(** ** Files whose statistics were restated *)
Section restated.
Implicit Types (R : option string → option string → Prop) (a : Add) (m : gmap LogicalFileKey Add).

(** [a] is [a'] but for its statistics, which steps of [R] have led to. *)
Definition restated R a a' : Prop :=
  ∃ stats, rtc R (add_stats a') stats ∧ a = add_with_stats stats a'.
Definition restated_map R m m' : Prop := map_Forall2 (λ _, restated R) m m'.

Lemma restated_refl R a : restated R a a.
Proof. exists (add_stats a). split; [done|]. by destruct a. Qed.
Lemma restated_trans R a1 a2 a3 : restated R a1 a2 → restated R a2 a3 → restated R a1 a3.
Proof.
  intros (x & Hx & ->) (y & Hy & ->). exists x. split; [|done]. by trans y.
Qed.
Lemma restated_key R a a' : restated R a a' → add_key a = add_key a'.
Proof. by intros (x & _ & ->). Qed.
Lemma restated_map_refl R m : restated_map R m m.
Proof. intros k. destruct (m !! k); constructor. apply restated_refl. Qed.
Lemma restated_map_trans R m1 m2 m3 :
  restated_map R m1 m2 → restated_map R m2 m3 → restated_map R m1 m3.
Proof.
  intros H1 H2 k. specialize (H1 k). specialize (H2 k).
  destruct H1, (m3 !! k); inv H2; constructor; eauto using restated_trans.
Qed.
Lemma restated_map_mono R R' m m' :
  (∀ x y, R x y → R' x y) → restated_map R m m' → restated_map R' m m'.
Proof.
  intros HR Hm. apply (map_Forall2_impl _ _ _ _ Hm). intros _ a a' (x & Hx & ->).
  exists x. split; [|done]. by apply (rtc_subrel _ _ _ _ HR).
Qed.
Lemma restated_map_insert R m m' a :
  restated_map R m m' → restated_map R (<[add_key a:=a]> m) (<[add_key a:=a]> m').
Proof. apply map_Forall2_insert_2, restated_refl. Qed.
Lemma restated_map_delete R m m' k : restated_map R m m' → restated_map R (delete k m) (delete k m').
Proof. apply map_Forall2_delete. Qed.
Lemma restated_map_None R m m' k : restated_map R m m' → m !! k = None ↔ m' !! k = None.
Proof. intros Hm. destruct (Hm k); naive_solver. Qed.
Lemma restated_map_Some R m m' k a :
  restated_map R m m' → m !! k = Some a → ∃ a', m' !! k = Some a' ∧ restated R a a'.
Proof. intros Hm Ha. specialize (Hm k). rewrite Ha in Hm. inv Hm. eauto. Qed.
End restated.
#[export] Hint Resolve restated_map_refl restated_map_insert restated_map_delete : delta.

(** ** Agreement with the state of the log

    The transactions and tombstones that may be missing, and the statistics that
    may stand for others. *)
Record Losses := MkLosses {
  lo_txn : Transaction → Prop;
  lo_remove : Remove → Prop;
  lo_stats : option string → option string → Prop
}.
Record losses_le (L L' : Losses) : Prop := {
  ll_txn : ∀ x, lo_txn L x → lo_txn L' x;
  ll_remove : ∀ x, lo_remove L x → lo_remove L' x;
  ll_stats : ∀ x y, lo_stats L x y → lo_stats L' x y
}.

Record agrees (L : Losses) (st ref : ReconciledCheckpointState) : Prop := {
  ag_protocol : rs_protocol st = rs_protocol ref;
  ag_metadata : rs_metadata st = rs_metadata ref;
  ag_domains : rs_domain_metadata st = rs_domain_metadata ref;
  ag_adds : restated_map (lo_stats L) (rs_adds st) (rs_adds ref);
  ag_txns : pruned (lo_txn L) (rs_txns st) (rs_txns ref);
  ag_removes : pruned (lo_remove L) (rs_removes st) (rs_removes ref)
}.

Lemma agrees_refl L st : agrees L st st.
Proof. split; auto with delta. Qed.
Lemma agrees_trans L st1 st2 st3 :
  agrees L st1 st2 → agrees L st2 st3 → agrees L st1 st3.
Proof.
  intros [] []. split; [congruence..| | |]; eauto using pruned_trans, restated_map_trans.
Qed.
Lemma agrees_mono L L' st ref : losses_le L L' → agrees L st ref → agrees L' st ref.
Proof. intros [] []. split; eauto using pruned_mono, restated_map_mono. Qed.

Lemma apply_action_agrees L st ref a :
  agrees L st ref → agrees L (apply_action st a) (apply_action ref a).
Proof. intros []. destruct a; split; simpl; (congruence || auto with delta). Qed.
Lemma apply_actions_agrees L st ref l :
  agrees L st ref → agrees L (foldl apply_action st l) (foldl apply_action ref l).
Proof. revert st ref. induction l; simpl; auto using apply_action_agrees. Qed.

(** ** The state of a log *)
Definition table_state (log : list (list Action)) : ReconciledCheckpointState :=
  foldl apply_action state_default (concat log).
(** The state before the commit of version [v]. *)
Definition state_before (log : list (list Action)) (v : Z) : ReconciledCheckpointState :=
  table_state (take (Z.to_nat v) log).
Definition commit_at (log : list (list Action)) (v : Z) : option (list Action) :=
  if (v <? 0)%Z then None else log !! Z.to_nat v.

Lemma commit_at_bounds log v a :
  commit_at log v = Some a → (0 ≤ v < Z.of_nat (length log))%Z.
Proof. unfold commit_at. case_match; [done|]. intros ?%lookup_lt_Some. lia. Qed.
Lemma commit_at_is_Some log v :
  (0 ≤ v < Z.of_nat (length log))%Z → ∃ a, commit_at log v = Some a.
Proof.
  intros Hv. unfold commit_at. case_match; [lia|]. apply lookup_lt_is_Some. lia.
Qed.
Lemma commit_at_app log c v :
  (v < Z.of_nat (length log))%Z → commit_at (log ++ [c]) v = commit_at log v.
Proof.
  intros Hv. unfold commit_at. case_match; [done|]. rewrite lookup_app_l; [done|lia].
Qed.

Lemma state_before_succ log v a :
  commit_at log v = Some a → state_before log (v + 1) = foldl apply_action (state_before log v) a.
Proof.
  intros Ha. pose proof (commit_at_bounds _ _ _ Ha) as Hv. unfold commit_at in Ha.
  destruct (Z.ltb_spec v 0); [lia|]. unfold state_before, table_state.
  replace (Z.to_nat (v + 1)) with (S (Z.to_nat v)) by lia.
  rewrite (take_S_r _ _ _ Ha), concat_app, foldl_app. simpl. by rewrite app_nil_r.
Qed.
Lemma state_before_app log c v :
  (v ≤ Z.of_nat (length log))%Z → state_before (log ++ [c]) v = state_before log v.
Proof. intros Hv. unfold state_before. rewrite take_app_le; [done|lia]. Qed.

(** ** What the checkpoints of a log lose

    [hist] are the checkpoints that were written, with the versions and the times
    of each.  One of version [w] forgets the transactions and tombstones that
    have outlived the retention of the table of that version, and where that
    table has no statistics as JSON, it drops them or restates them from the
    struct. *)
Section losses.
Context `{DE : DeltaEngine} `{HO : HashOrder}.
Implicit Types (log : list (list Action)) (hist : list (Z * Z)).

Definition checkpointed log hist (v now : Z) (m : Metadata) : Prop :=
  ∃ w, (w, now) ∈ hist ∧ (w ≤ v)%Z ∧ rs_metadata (state_before log (w + 1)) = Some m.
Definition outlived (now : Z) (retention : Duration) (t : option Z) : Prop :=
  ∃ u, t = Some u ∧ (u + Z.of_N (as_millis retention) ≤ now)%Z.
Definition stats_as_json (m : Metadata) : bool :=
  default true (tp_checkpoint_write_stats_as_json (table_properties m)).
Definition stats_as_struct (m : Metadata) : bool :=
  default true (tp_checkpoint_write_stats_as_struct (table_properties m)).
Definition stats_schema_for (m : Metadata) (schema : StatsSchema) : Prop :=
  ∃ c, augmentation_from_metadata m = Ok c ∧ au_stats_parsed_schema c = Some schema.
Definition stats_step (m : Metadata) (x y : option string) : Prop :=
  stats_as_json m = false ∧
  if stats_as_struct m then
    match x with
    | None | Some EmptyString => y = None
    | Some line => ∃ schema parsed, stats_schema_for m schema ∧
        read_stats_json schema line = Ok parsed ∧ y = Some (write_stats_json parsed)
    end
  else y = None.

Definition losses log hist (v : Z) : Losses := MkLosses
  (λ x, ∃ now m, checkpointed log hist v now m ∧
     outlived now (log_retention_duration (table_properties m)) (tx_last_updated x))
  (λ x, ∃ now m, checkpointed log hist v now m ∧
     outlived now (deleted_file_retention_duration (table_properties m)) (rm_deletion_timestamp x))
  (λ x y, ∃ now m, checkpointed log hist v now m ∧ stats_step m x y).

Lemma checkpointed_le log hist hist' v v' now m :
  hist ⊆ hist' → (v ≤ v')%Z → checkpointed log hist v now m → checkpointed log hist' v' now m.
Proof. intros Hh Hv (w & Hw & Hle & Hm). exists w. split_and!; [by apply Hh|lia|done]. Qed.
Lemma losses_mono log hist hist' v v' :
  hist ⊆ hist' → (v ≤ v')%Z → losses_le (losses log hist v) (losses log hist' v').
Proof.
  intros Hh Hv. split; simpl; intros; destruct_and?; naive_solver eauto using checkpointed_le.
Qed.
(** Commits after [v] make no difference. *)
Lemma losses_app log c hist v :
  (v < Z.of_nat (length log))%Z → losses_le (losses log hist v) (losses (log ++ [c]) hist v).
Proof.
  intros Hv. assert (∀ now m, checkpointed log hist v now m → checkpointed (log ++ [c]) hist v now m).
  { intros now m (w & Hw & Hle & Hm). exists w. rewrite state_before_app by lia. done. }
  split; simpl; naive_solver.
Qed.
End losses.

(** ** Well-formed states *)
Record state_wf (st : ReconciledCheckpointState) : Prop := {
  sw_txns : map_Forall (λ k x, tx_app_id x = k) (rs_txns st);
  sw_domains : map_Forall (λ k x, dm_domain x = k ∧ dm_removed x = false) (rs_domain_metadata st);
  sw_adds : map_Forall (λ k x, add_key x = k) (rs_adds st);
  sw_removes : map_Forall (λ k x, remove_key x = k) (rs_removes st);
  sw_disjoint : ∀ k r, rs_removes st !! k = Some r → rs_adds st !! k = None
}.

Lemma apply_action_wf st a : state_wf st → state_wf (apply_action st a).
Proof.
  intros [Ht Hd Ha Hr Hk]. destruct a as [| |a|r| |t| |d| |]; split; simpl; try done.
  - by apply map_Forall_insert_2.
  - by apply map_Forall_delete.
  - intros k x [Hne Hx]%lookup_delete_Some. rewrite lookup_insert_ne by done. eauto.
  - by apply map_Forall_delete.
  - by apply map_Forall_insert_2.
  - intros k x [[<- <-]|[Hne Hx]]%lookup_insert_Some; [by rewrite lookup_delete_eq|].
    rewrite lookup_delete_ne by done. eauto.
  - by apply map_Forall_insert_2.
  - unfold merge_domain. destruct (dm_removed d) eqn:E;
      [by apply map_Forall_delete|by apply map_Forall_insert_2].
Qed.
Lemma apply_actions_wf st l : state_wf st → state_wf (foldl apply_action st l).
Proof. revert st. induction l; simpl; auto using apply_action_wf. Qed.
Lemma table_state_wf log : state_wf (table_state log).
Proof. apply apply_actions_wf. split; apply map_Forall_empty. Qed.

(** Forgetting entries keeps a state well-formed. *)
Lemma agrees_wf L st ref : agrees L st ref → state_wf ref → state_wf st.
Proof.
  intros [_ _ Hd Ha Ht%pruned_subseteq Hr%pruned_subseteq] []. split; rewrite ?Hd; try done.
  - intros k x Hx. eauto using lookup_weaken.
  - intros k x (y & Hy & Hxy)%(restated_map_Some _ _ _ _ _ Ha).
    rewrite (restated_key _ _ _ Hxy). eauto.
  - intros k x Hx. eauto using lookup_weaken.
  - intros k r Hk. rewrite (restated_map_None _ _ _ _ Ha). eauto using lookup_weaken.
Qed.

(** Once there, protocol and metadata stay. *)
Definition has_header (st : ReconciledCheckpointState) : Prop :=
  is_Some (rs_protocol st) ∧ is_Some (rs_metadata st).
Lemma apply_actions_header st l : has_header st → has_header (foldl apply_action st l).
Proof.
  revert st. induction l as [|a l IH]; [done|]. intros st [H1 H2]. simpl. apply IH.
  destruct a; split; simpl; eauto.
Qed.
Lemma state_before_header log v w :
  (v ≤ w)%Z → has_header (state_before log v) → has_header (state_before log w).
Proof.
  intros Hle Hv. unfold state_before in *. unfold table_state.
  replace (take (Z.to_nat w) log) with
    (take (Z.to_nat v) log ++ drop (Z.to_nat v) (take (Z.to_nat w) log)).
  2:{ rewrite <-(take_drop (Z.to_nat v) (take (Z.to_nat w) log)) at 2.
      rewrite take_take. do 2 f_equal; lia. }
  rewrite concat_app, foldl_app. by apply apply_actions_header.
Qed.

Lemma agrees_header L st ref : agrees L st ref → has_header ref → has_header st.
Proof. intros [] [H1 H2]. split; congruence. Qed.

(** ** Replay of the commits of a log

    Whatever files are replayed, success means the state of the log at the
    version asked for; with all the files there, replay succeeds. *)

Lemma succ_i64_id v : (0 ≤ v < i64_max)%Z → succ_i64 v = (v + 1)%Z.
Proof. unfold succ_i64, saturate_i64, i64_min, i64_max. lia. Qed.
Lemma pred_i64_id v : (0 ≤ v ≤ i64_max)%Z → pred_i64 v = (v - 1)%Z.
Proof. unfold pred_i64, saturate_i64, i64_min, i64_max. lia. Qed.

Section replay.
Context `{DE : DeltaEngine} `{HO : HashOrder}.
Context (log : list (list Action)) (Hlen : (Z.of_nat (length log) < i64_max)%Z).

(** The commit files of a list are those of the log. *)
Definition commit_file_ok (v : Z) (f : File (list Action)) : Prop :=
  ∃ a, commit_at log v = Some a ∧ file_content f = Some a.
Definition commit_files_ok (l : Commits) : Prop := ∀ v f, (v, f) ∈ l → commit_file_ok v f.

(** Every commit has the time stamp that its table asks for. *)
Definition timestamped : Prop :=
  ∀ v a modified, commit_at log v = Some a →
    ∃ t, resolve_commit_timestamp_from_actions v modified (rs_protocol (state_before log v))
           (rs_metadata (state_before log v)) a = Ok t.

Definition in_range (start finish : Z) (x : Z * File (list Action)) : bool :=
  ((start <=? x.1) && (x.1 <=? finish))%Z.

Lemma replay_commit_sound L st v f st' :
  commit_file_ok v f → agrees L st.1 (state_before log v) →
  replay_commit st v f = Ok st' → agrees L st'.1 (state_before log (v + 1)).
Proof.
  intros (a & Ha & Hf) Hag. unfold replay_commit, get_actions. rewrite Hf. simpl.
  destruct (resolve_commit_timestamp_from_actions _ _ _ _ _); [|done]. intros [= <-]. simpl.
  rewrite (state_before_succ _ _ _ Ha). by apply apply_actions_agrees.
Qed.

Lemma replay_commit_complete L st v f :
  timestamped → commit_file_ok v f → agrees L st.1 (state_before log v) →
  ∃ st', replay_commit st v f = Ok st'.
Proof.
  intros Hts (a & Ha & Hf) Hag. unfold replay_commit, get_actions. rewrite Hf. simpl.
  destruct (Hts v a (file_modified f) Ha) as [t Ht].
  rewrite (ag_protocol _ _ _ Hag), (ag_metadata _ _ _ Hag), Ht. simpl. eauto.
Qed.

Lemma replay_commits_sound L st l start finish expected st' expected' :
  commit_files_ok l → (0 ≤ expected ≤ Z.of_nat (length log))%Z →
  agrees L st.1 (state_before log expected) →
  replay_commits st l expected start finish = Ok (st', expected') →
  agrees L st'.1 (state_before log expected') ∧
  (expected ≤ expected' ≤ Z.of_nat (length log))%Z.
Proof.
  revert st expected. induction l as [|[v f] l IH]; intros st expected Hl Hex Hag; simpl.
  { intros [= -> ->]. split; [done|lia]. }
  assert (commit_files_ok l) as Hl' by (intros v' f' Hin; apply Hl; by right).
  destruct (_ || _); [by apply IH|]. destruct (v =? expected)%Z eqn:E; simpl; [|done].
  apply Z.eqb_eq in E as ->. assert (commit_file_ok expected f) as Hf by (apply Hl; left).
  destruct (replay_commit st expected f) as [st1|] eqn:E1; [|done].
  destruct Hf as (a & Ha & Hc). pose proof (commit_at_bounds _ _ _ Ha).
  rewrite succ_i64_id by lia. intros [Hag' Hle]%IH; [split; [done|lia]|done|lia|].
  eapply replay_commit_sound; [by exists a|done|done].
Qed.

Lemma replay_commit_actions_sound L st l start finish r :
  commit_files_ok l → (0 ≤ start ≤ finish + 1)%Z → (start ≤ Z.of_nat (length log))%Z →
  agrees L st (state_before log start) →
  replay_commit_actions st l start finish = Ok r →
  agrees L r.1 (state_before log (finish + 1)) ∧ (finish < Z.of_nat (length log))%Z.
Proof.
  intros Hl Hs Hlt Hag. unfold replay_commit_actions.
  destruct (Z.ltb_spec finish start) as [Hf|Hf].
  { intros [= <-]. simpl. replace (finish + 1)%Z with start by lia. split; [done|lia]. }
  destruct (replay_commits _ _ _ _ _) as [[r' e]|] eqn:E; [|done]. simpl.
  apply (replay_commits_sound L) in E as [Hag' Hle]; [|done|lia|done].
  destruct (Z.eqb_spec (pred_i64 e) finish) as [He|]; [|done]. intros [= <-].
  rewrite pred_i64_id in He by lia. replace (finish + 1)%Z with e by lia. split; [done|lia].
Qed.

(** Replay past a version has read its file. *)
Lemma replay_commits_first st l start finish expected st' expected' :
  replay_commits st l expected start finish = Ok (st', expected') →
  expected' = expected ∨ ∃ f, (expected, f) ∈ l.
Proof.
  revert st. induction l as [|[v f] l IH]; intros st; simpl; [naive_solver|].
  destruct (_ || _); [intros [->|[g Hg]]%IH; [by left|right; exists g; by right]|].
  destruct (Z.eqb_spec v expected) as [->|]; [|done]. intros _. right. exists f. left.
Qed.
Lemma replay_commit_actions_first st l start finish r :
  (0 ≤ start ≤ finish)%Z → (finish < i64_max)%Z →
  replay_commit_actions st l start finish = Ok r → ∃ f, (start, f) ∈ l.
Proof.
  clear log Hlen. intros Hs Hi. unfold replay_commit_actions.
  destruct (Z.ltb_spec finish start); [lia|].
  destruct (replay_commits _ _ _ _ _) as [[r' e]|] eqn:E; [|done]. simpl.
  apply replay_commits_first in E as [->|Hf]; [|done]. rewrite pred_i64_id by lia.
  destruct (Z.eqb_spec (start - 1) finish); [lia|done].
Qed.

(** ** Completeness *)
Lemma replay_commits_filter st l start finish expected :
  replay_commits st l expected start finish =
  replay_commits st (filter (λ x, in_range start finish x = true) l) expected start finish.
Proof.
  revert st expected. induction l as [|[v f] l IH]; intros st expected; [done|].
  cbn [replay_commits]. destruct ((v <? start) || (finish <? v))%Z eqn:E.
  - rewrite filter_cons_False; [apply IH|]. unfold in_range. simpl. lia.
  - rewrite filter_cons_True by (unfold in_range; simpl; lia). cbn [replay_commits]. rewrite E.
    destruct (negb _); [done|]. destruct (replay_commit st v f); [|done]. apply IH.
Qed.

Lemma replay_commits_complete L (F : Z → File (list Action)) st start finish expected n :
  timestamped → (∀ v, (expected ≤ v < expected + Z.of_nat n)%Z → commit_file_ok v (F v)) →
  (0 ≤ start ≤ expected)%Z → (expected + Z.of_nat n ≤ finish + 1)%Z →
  agrees L st.1 (state_before log expected) →
  ∃ st', replay_commits st ((λ v, (v, F v)) <$> seqZ expected (Z.of_nat n)) expected start finish =
         Ok (st', (expected + Z.of_nat n)%Z).
Proof.
  intros Hts. revert st expected. induction n as [|n IH]; intros st expected HF Hs Hn Hag.
  { exists st. simpl. do 2 f_equal. lia. }
  assert (commit_file_ok expected (F expected)) as Hf by (apply HF; lia).
  rewrite seqZ_cons by lia. replace (Z.pred (Z.of_nat (S n))) with (Z.of_nat n) by lia.
  rewrite fmap_cons. cbn [replay_commits].
  replace ((expected <? start) || (finish <? expected))%Z with false by lia.
  rewrite Z.eqb_refl. simpl.
  destruct (replay_commit_complete L st _ _ Hts Hf Hag) as [st1 E]. rewrite E. simpl.
  destruct Hf as (a & Ha & Hc). pose proof (commit_at_bounds _ _ _ Ha).
  rewrite succ_i64_id by lia.
  destruct (IH st1 (Z.succ expected)) as [st' E'].
  - intros v Hv. apply HF. lia.
  - lia.
  - lia.
  - replace (Z.succ expected) with (expected + 1)%Z by lia.
    eapply replay_commit_sound; [by exists a|done|done].
  - exists st'. replace (expected + 1)%Z with (Z.succ expected) by lia. rewrite E'.
    do 2 f_equal. lia.
Qed.

Lemma replay_commit_actions_complete L (F : Z → File (list Action)) st l start finish :
  timestamped → (∀ v, (start ≤ v ≤ finish)%Z → commit_file_ok v (F v)) →
  filter (λ x, in_range start finish x = true) l =
    (λ v, (v, F v)) <$> seqZ start (finish - start + 1) →
  (0 ≤ start ≤ finish + 1)%Z → agrees L st (state_before log start) →
  ∃ r, replay_commit_actions st l start finish = Ok r.
Proof.
  intros Hts HF Hl Hs Hag. unfold replay_commit_actions.
  destruct (Z.ltb_spec finish start) as [|Hf]; [eauto|].
  rewrite replay_commits_filter, Hl.
  destruct (HF finish) as (a & Ha & _); [lia|]. pose proof (commit_at_bounds _ _ _ Ha).
  destruct (replay_commits_complete L F (st, ∅) start finish start
    (Z.to_nat (finish - start + 1))) as [st' E]; [done| |lia|lia|done|].
  { intros v Hv. apply HF. lia. }
  rewrite Z2Nat.id in E by lia. rewrite E. simpl.
  rewrite pred_i64_id by lia. replace (start + (finish - start + 1) - 1)%Z with finish by lia.
  rewrite Z.eqb_refl. eauto.
Qed.

End replay.

(** ** Contiguity *)
Lemma contiguous_commits_complete (F : Z → File (list Action)) start finish expected n :
  (0 ≤ start ≤ expected)%Z → (expected + Z.of_nat n ≤ finish + 1)%Z → (finish < i64_max)%Z →
  contiguous_commits ((λ v, (v, F v)) <$> seqZ expected (Z.of_nat n)) expected start finish =
  Ok (expected + Z.of_nat n)%Z.
Proof.
  revert expected. induction n as [|n IH]; intros expected Hs Hn Hf.
  { simpl. f_equal. lia. }
  rewrite seqZ_cons by lia. replace (Z.pred (Z.of_nat (S n))) with (Z.of_nat n) by lia.
  rewrite fmap_cons. cbn [contiguous_commits].
  replace ((expected <? start) || (finish <? expected))%Z with false by lia.
  rewrite Z.eqb_refl. simpl. rewrite succ_i64_id by lia.
  replace (expected + 1)%Z with (Z.succ expected) by lia. rewrite IH by lia. f_equal. lia.
Qed.

Lemma validate_commit_contiguity_complete (F : Z → File (list Action)) start finish :
  (0 ≤ start ≤ finish + 1)%Z → (finish < i64_max)%Z →
  validate_commit_contiguity ((λ v, (v, F v)) <$> seqZ start (finish - start + 1)) start finish =
  Ok tt.
Proof.
  intros Hs Hf. unfold validate_commit_contiguity. destruct (Z.ltb_spec finish start); [done|].
  replace (finish - start + 1)%Z with (Z.of_nat (Z.to_nat (finish - start + 1))) by lia.
  rewrite contiguous_commits_complete by lia. simpl. rewrite pred_i64_id by lia.
  rewrite Z2Nat.id by lia. case_match; [done|]. exfalso. lia.
Qed.

(** Files of the range that pass start with its first version. *)
Lemma validate_commit_contiguity_head l start finish :
  Forall (λ x, in_range start finish x = true) l → (0 ≤ start ≤ finish + 1)%Z →
  (start ≤ i64_max)%Z →
  validate_commit_contiguity l start finish = Ok tt →
  match l with [] => start = (finish + 1)%Z | x :: _ => x.1 = start end.
Proof.
  intros Hl Hs Hi. unfold validate_commit_contiguity.
  destruct (Z.ltb_spec finish start).
  { intros _. destruct Hl as [|x l Hx]; [lia|]. unfold in_range in Hx. lia. }
  destruct Hl as [|[v f] l Hx Hl]; simpl.
  - destruct (Z.eqb_spec (pred_i64 start) finish) as [He|]; [|done].
    rewrite pred_i64_id in He by lia. lia.
  - unfold in_range in Hx. simpl in Hx.
    replace ((v <? start) || (finish <? v))%Z with false by lia.
    destruct (Z.eqb_spec v start); [done|]. by simpl.
Qed.
(** ** Listing *)
Lemma sorted_by_filter {A} (le : A → A → bool) (P : A → Prop) `{!∀ x, Decision (P x)} l :
  sorted_by le l → sorted_by le (filter P l).
Proof.
  induction 1 as [|x l Hl IH Hx]; [constructor|].
  destruct (decide (P x)); [rewrite filter_cons_True by done|by rewrite filter_cons_False].
  constructor; [done|]. rewrite Forall_forall in *. intros y [_ Hy]%list_elem_of_filter. auto.
Qed.
Lemma sorted_by_seqZ {A} (g : Z → A) start n :
  sorted_by (λ x y, x.1 <=? y.1)%Z ((λ v, (v, g v)) <$> seqZ start n).
Proof.
  destruct (Z_le_gt_dec 0 n) as [Hn|]; [|rewrite seqZ_nil by lia; constructor].
  replace n with (Z.of_nat (Z.to_nat n)) by lia. clear Hn. revert start.
  induction (Z.to_nat n) as [|k IH]; intros start; [constructor|].
  rewrite seqZ_cons by lia. replace (Z.pred (Z.of_nat (S k))) with (Z.of_nat k) by lia.
  rewrite fmap_cons. constructor; [apply IH|]. apply Forall_forall.
  intros [v x] (w & [= -> ->] & Hw%elem_of_seqZ)%list_elem_of_fmap. simpl. lia.
Qed.

Section listing.
Context `{HO : HashOrder}.

Lemma list_commits_elem s offset max v f :
  (v, f) ∈ sort_by_key fst (upto fst max (list_commits s offset)) ↔
  ls_commits s !! v = Some f ∧ (offset ≤ v ≤ max)%Z.
Proof.
  unfold sort_by_key, upto, list_commits.
  rewrite elem_of_sort_by, !list_elem_of_filter, hash_items_elem. simpl. naive_solver lia.
Qed.

(** All the commits of a range are listed, in the order of their versions. *)
Lemma list_commits_range s offset start finish :
  (offset ≤ start)%Z → (∀ v, (start ≤ v ≤ finish)%Z → is_Some (ls_commits s !! v)) →
  filter (λ x, in_range start finish x = true)
    (sort_by_key fst (upto fst finish (list_commits s offset))) =
  (λ v, (v, default (MkFile None 0%Z) (ls_commits s !! v))) <$> seqZ start (finish - start + 1).
Proof.
  intros Ho Hp. assert (NoDup (filter (λ x, in_range start finish x = true)
    (sort_by_key fst (upto fst finish (list_commits s offset)))).*1) as Hnd.
  { eapply sublist_NoDup; [|apply fmap_sublist, sublist_filter].
    unfold sort_by_key, upto, list_commits. rewrite sort_by_perm.
    eapply sublist_NoDup; [apply (hash_items_nodup (ls_commits s))|].
    apply fmap_sublist. etrans; apply sublist_filter. }
  apply (sorted_by_key_unique fst);
    [apply sorted_by_filter, sort_by_key_sorted|apply sorted_by_seqZ|exact Hnd|].
  apply NoDup_Permutation.
  - by eapply NoDup_fmap_1.
  - apply NoDup_fmap_2_strong; [|apply NoDup_seqZ]. by intros x y _ _ [= -> _].
  - intros [v f]. rewrite list_elem_of_filter, list_commits_elem, list_elem_of_fmap.
    unfold in_range. simpl. split.
    + intros [Hr [Hf _]]. exists v. rewrite Hf, elem_of_seqZ. split; [done|lia].
    + intros (w & [= -> ->] & Hw%elem_of_seqZ).
      destruct (Hp w) as [f Hf]; [lia|]. rewrite Hf. simpl. split; [lia|]. split; [done|lia].
Qed.
End listing.
