(* ===== verification/DeltaCheckpointFacts.v ===== *)
(** * Checkpoints hold the state they are written from

    Reading the rows of a checkpoint back, of a single file or with a sidecar,
    gives the state, with the statistics that the files kept; what pruning leaves
    agrees with the state. *)

From Stdlib Require Import Ascii String.
From S2P Require Import Prelude Collections CatalogNames DeltaSpec DeltaProperties DeltaLog DeltaSegment DeltaCheckpoint DeltaLogFacts.

Notation apply_rows := (foldl apply_checkpoint_row).

(** ** Rows of one kind *)
Section rows.
Implicit Types (st : ReconciledCheckpointState).

Lemma apply_txn_rows st l :
  apply_rows st (txn_row <$> l) =
  MkState (rs_protocol st) (rs_metadata st) (insert_all tx_app_id (rs_txns st) l)
    (rs_domain_metadata st) (rs_adds st) (rs_removes st) (rs_sidecars st).
Proof. revert st. induction l as [|x l IH]; intros []; [done|]. by rewrite fmap_cons; simpl; rewrite IH. Qed.

Lemma apply_domain_rows st l :
  (∀ d, d ∈ l → dm_removed d = false) →
  apply_rows st (domain_row <$> l) =
  MkState (rs_protocol st) (rs_metadata st) (rs_txns st)
    (insert_all dm_domain (rs_domain_metadata st) l) (rs_adds st) (rs_removes st) (rs_sidecars st).
Proof.
  revert st. induction l as [|x l IH]; intros [] Hl; [done|]. rewrite fmap_cons. simpl.
  rewrite IH by (intros; apply Hl; by right). simpl. unfold merge_domain.
  by rewrite (Hl x) by left.
Qed.

Lemma apply_add_rows st l :
  apply_rows st (add_row <$> l) =
  MkState (rs_protocol st) (rs_metadata st) (rs_txns st) (rs_domain_metadata st)
    (insert_all add_key (rs_adds st) l) (foldl (λ m x, delete (add_key x) m) (rs_removes st) l)
    (rs_sidecars st).
Proof. revert st. induction l as [|x l IH]; intros []; [done|]. by rewrite fmap_cons; simpl; rewrite IH. Qed.

Lemma apply_remove_rows st l :
  apply_rows st (remove_row <$> l) =
  MkState (rs_protocol st) (rs_metadata st) (rs_txns st) (rs_domain_metadata st)
    (foldl (λ m x, delete (remove_key x) m) (rs_adds st) l)
    (insert_all remove_key (rs_removes st) l) (rs_sidecars st).
Proof. revert st. induction l as [|x l IH]; intros []; [done|]. by rewrite fmap_cons; simpl; rewrite IH. Qed.

Lemma omap_fmap_none {A B C} (f : A → B) (g : B → option C) l :
  (∀ x, g (f x) = None) → omap g (f <$> l) = [].
Proof. intros Hf. induction l as [|x l IH]; [done|]. rewrite fmap_cons. csimpl. by rewrite Hf. Qed.
End rows.

(** ** The values of a map *)
Section values.
Context `{HO : HashOrder} `{Countable K} {V : Type}.
Implicit Types (m : gmap K V).

Lemma map_values_perm m : map_values m ≡ₚ (map_to_list m).*2.
Proof. unfold map_values. by rewrite hash_items_perm. Qed.
Lemma btree_values_perm le m : btree_values le m ≡ₚ (map_to_list m).*2.
Proof. unfold btree_values. by rewrite sort_by_perm, hash_items_perm. Qed.
Lemma elem_of_values (l : list V) m x :
  l ≡ₚ (map_to_list m).*2 → x ∈ l ↔ ∃ k, m !! k = Some x.
Proof.
  intros ->. rewrite list_elem_of_fmap. split.
  - intros ([k y] & -> & Hk%elem_of_map_to_list). eauto.
  - intros [k Hk]. exists (k, x). by rewrite elem_of_map_to_list.
Qed.
End values.

(** ** Rows in files *)
Section encoding.
Context `{DE : DeltaEngine} `{HO : HashOrder}.
Implicit Types (c : AddAugmentationConfig) (m : Metadata) (a : Add) (row : CheckpointActionRow).

(** What is read for the statistics [x] that were written. *)
Definition restate_stats c (x : option string) : option string :=
  if au_write_stats_as_json c then x
  else
    match au_stats_parsed_schema c, stats_line x with
    | Some schema, Some line =>
        match read_stats_json schema line with
        | Ok parsed => Some (write_stats_json parsed)
        | Err _ => None
        end
    | _, _ => None
    end.
Definition restate_add c a : Add := add_with_stats (restate_stats c (add_stats a)) a.
Definition restate_row c row : CheckpointActionRow :=
  row_with_stats (restate_stats c (row_stats row)) row.
Definition restates m c (x : option string) : Prop :=
  restate_stats c x = x ∨ stats_step m x (restate_stats c x).

Lemma restate_add_row c a : restate_row c (add_row a) = add_row (restate_add c a).
Proof. done. Qed.
Lemma restate_other_row c row : row_add row = None → restate_row c row = row.
Proof. destruct row. simpl. by intros ->. Qed.
Lemma restate_row_sidecar c row : row_sidecar (restate_row c row) = row_sidecar row.
Proof. done. Qed.

Lemma stats_line_step m x y :
  stats_as_json m = false → stats_as_struct m = true →
  match stats_line x with
  | Some line => ∃ schema parsed, stats_schema_for m schema ∧
      read_stats_json schema line = Ok parsed ∧ y = Some (write_stats_json parsed)
  | None => y = None
  end → stats_step m x y.
Proof. intros Hj Hs Hy. split; [done|]. rewrite Hs. by destruct x as [[|? ?]|]. Qed.

Lemma from_metadata_Ok m c :
  augmentation_from_metadata m = Ok c →
  au_write_stats_as_json c = stats_as_json m ∧ au_write_stats_as_struct c = stats_as_struct m ∧
  if stats_as_struct m then ∃ schema, au_stats_parsed_schema c = Some schema ∧
    stats_schema_for m schema
  else au_stats_parsed_schema c = None.
Proof.
  intros Hc. pose proof Hc as E. unfold augmentation_from_metadata in E.
  unfold stats_as_json, stats_as_struct.
  destruct (default true (tp_checkpoint_write_stats_as_struct _)); [|by injection E as <-].
  destruct (parse_schema m) as [table|]; [|done]. simpl in E.
  destruct (stats_schema_of m table _) as [schema|]; [|done]. simpl in E.
  destruct (partition_schema_of m table); [|done]. injection E as E.
  split_and!; [by rewrite <-E..|]. exists schema. split; [by rewrite <-E|].
  exists c. split; [done|by rewrite <-E].
Qed.

Lemma stats_schema_unique m schema schema' :
  stats_schema_for m schema → stats_schema_for m schema' → schema = schema'.
Proof. intros (c & Hc & Hs) (c' & Hc' & Hs'). congruence. Qed.

Lemma parse_stats_spec schema l parsed :
  parse_stats_json_array schema l = Ok parsed →
  Forall2 (λ x p, match stats_line x with
                  | Some line => ∃ y, read_stats_json schema line = Ok y ∧ p = Some y
                  | None => p = None
                  end) l parsed.
Proof.
  revert parsed. induction l as [|x l IH]; intros parsed; cbn [parse_stats_json_array].
  { intros [= <-]. constructor. }
  destruct (stats_line x) as [line|] eqn:E.
  - destruct (read_stats_json schema line) as [y|] eqn:Ey; [|done]. simpl.
    destruct (parse_stats_json_array schema l); [|done]. simpl. intros [= <-].
    constructor; [|by apply IH]. rewrite E. eauto.
  - simpl. destruct (parse_stats_json_array schema l); [|done]. simpl. intros [= <-].
    constructor; [|by apply IH]. by rewrite E.
Qed.

(** One row of a batch. *)
Lemma stored_row_json c row parsed :
  au_write_stats_as_json c = true →
  decode_checkpoint_row (stored_row true row parsed) = restate_row c row.
Proof.
  intros Hj. unfold restate_row, restate_stats. rewrite Hj. destruct row as [[]]; done.
Qed.
Lemma decode_stored_row m c row parsed :
  augmentation_from_metadata m = Ok c →
  (if stats_as_struct m then ∃ schema x, stats_schema_for m schema ∧ parsed = Some x ∧
     match stats_line (row_stats row) with
     | Some line => ∃ y, read_stats_json schema line = Ok y ∧ x = Some y
     | None => x = None
     end
   else parsed = None) →
  decode_checkpoint_row (stored_row (au_write_stats_as_json c) row parsed) = restate_row c row ∧
  restates m c (row_stats row).
Proof.
  intros (Hj & _ & Hc)%from_metadata_Ok Hp.
  destruct (au_write_stats_as_json c) eqn:Ej.
  { split; [by apply stored_row_json|]. left. unfold restate_stats. by rewrite Ej. }
  assert (decode_checkpoint_row (stored_row false row parsed) =
    row_with_stats (match parsed with Some (Some x) => Some (write_stats_json x) | _ => None end) row)
    as ->.
  { unfold decode_checkpoint_row, normalized_stats. destruct row as [[]]; done. }
  unfold restates, restate_row, restate_stats. rewrite Ej. symmetry in Hj.
  destruct (stats_as_struct m) eqn:Es.
  - destruct Hc as (schema & -> & Hs), Hp as (schema' & x & Hs' & -> & Hx).
    pose proof (stats_schema_unique _ _ _ Hs Hs') as <-.
    destruct (stats_line (row_stats row)) as [line|] eqn:El.
    + destruct Hx as (y & Hy & ->). rewrite Hy. split; [done|]. right.
      apply stats_line_step; [done..|]. rewrite El. eauto.
    + subst x. split; [done|]. right. apply stats_line_step; [done..|]. by rewrite El.
  - rewrite Hc. subst parsed. split; [done|]. right. split; [done|]. by rewrite Es.
Qed.

Lemma encode_decodes m c rows stored :
  augmentation_from_metadata m = Ok c → encode_checkpoint_rows c rows = Ok stored →
  decode_checkpoint_row <$> stored = restate_row c <$> rows ∧
  Forall (λ row, restates m c (row_stats row)) rows.
Proof.
  intros Hm. pose proof (from_metadata_Ok _ _ Hm) as (Hj & Hs & Hc).
  unfold encode_checkpoint_rows. destruct (to_record_batch rows); [|done]. simpl.
  unfold augment_add. destruct (is_noop c) eqn:En.
  { unfold is_noop in En. apply andb_true_iff in En as [_ En]. intros [= <-]. split.
    - rewrite <-list_fmap_compose. apply list_fmap_ext. intros ? row _. simpl.
      by apply stored_row_json.
    - apply Forall_forall. intros row _. left. unfold restate_stats. by rewrite En. }
  destruct (parsed_columns c rows) as [parsed|] eqn:Ep; [|done]. simpl.
  assert (Forall2 (λ row p, if stats_as_struct m then ∃ schema x, stats_schema_for m schema ∧
     p = Some x ∧ match stats_line (row_stats row) with
     | Some line => ∃ y, read_stats_json schema line = Ok y ∧ x = Some y
     | None => x = None
     end
   else p = None) rows parsed) as HF.
  { unfold parsed_columns in Ep. rewrite Hs in Ep. destruct (stats_as_struct m).
    - destruct Hc as (schema & Hsc & Hok). rewrite Hsc in Ep.
      destruct (parse_stats_json_array _ _) as [l|] eqn:El; [|done]. simpl in Ep. injection Ep as <-.
      apply parse_stats_spec in El. rewrite Forall2_fmap_l in El. apply Forall2_fmap_r.
      eapply Forall2_impl; [done|]. simpl. eauto.
    - injection Ep as <-. apply Forall2_replicate_r; [done|]. by apply Forall_true. }
  destruct (match au_partition_values_parsed_schema c with Some _ => _ | None => _ end); [|done].
  simpl. intros [= <-]. clear Ep En. induction HF as [|row p rows parsed Hp HF [IH1 IH2]]; [done|].
  destruct (decode_stored_row m c row p Hm Hp) as [E Hr]. split.
  - cbn. by rewrite E, IH1.
  - by constructor.
Qed.

Lemma write_batches_decodes m c batches stored :
  augmentation_from_metadata m = Ok c → write_batches c batches = Ok stored →
  decode_checkpoint_row <$> stored = restate_row c <$> concat batches ∧
  Forall (λ row, restates m c (row_stats row)) (concat batches).
Proof.
  intros Hm. revert stored. induction batches as [|rows batches IH]; intros stored; simpl.
  { by intros [= <-]. }
  destruct (encode_checkpoint_rows c rows) as [batch|] eqn:E; [|done]. simpl.
  destruct (write_record_batch batch); [|done]. simpl.
  destruct (write_batches c batches) as [rest|]; [|done]. simpl. intros [= <-].
  destruct (encode_decodes _ _ _ _ Hm E) as [E1 H1], (IH rest eq_refl) as [E2 H2].
  rewrite !fmap_app, E1, E2. split; [done|]. by apply Forall_app.
Qed.

Lemma batches_concat {A} size (rows l : list A) : concat (batches_of size rows l) = rows ++ l.
Proof.
  revert rows. induction l as [|x l IH]; intros rows; simpl.
  { destruct rows; simpl; by rewrite ?app_nil_r. }
  destruct (_ <? _)%N; simpl; rewrite IH; [by rewrite <-app_assoc|done].
Qed.

Lemma write_rows_decodes m c size rows stored :
  augmentation_from_metadata m = Ok c → write_batches c (batches_of size [] rows) = Ok stored →
  decode_checkpoint_row <$> stored = restate_row c <$> rows ∧
  Forall (λ row, restates m c (row_stats row)) rows.
Proof.
  intros Hm Hw. destruct (write_batches_decodes _ _ _ _ Hm Hw) as [Ed HF].
  by rewrite batches_concat in Ed, HF.
Qed.

Lemma restate_header_rows c p m st : restate_row c <$> header_rows p m st = header_rows p m st.
Proof.
  transitivity (id <$> header_rows p m st); [|apply list_fmap_id].
  apply list_fmap_ext. intros ? row Hrow%list_elem_of_lookup_2. apply restate_other_row.
  unfold header_rows in Hrow. rewrite !elem_of_app, !list_elem_of_fmap in Hrow. set_solver.
Qed.
Lemma restate_remove_rows c (l : list Remove) : restate_row c <$> (remove_row <$> l) = remove_row <$> l.
Proof. rewrite <-list_fmap_compose. by apply list_fmap_ext. Qed.
Lemma restate_add_rows c (l : list Add) :
  restate_row c <$> (add_row <$> l) = add_row <$> (restate_add c <$> l).
Proof. rewrite <-!list_fmap_compose. by apply list_fmap_ext. Qed.
End encoding.

(** ** Round trips *)
Section roundtrip.
Context `{HO : HashOrder}.
Implicit Types (st : ReconciledCheckpointState).

Lemma apply_header_rows p m st :
  state_wf st →
  apply_rows state_default (header_rows p m st) =
  MkState (Some p) (Some m) (rs_txns st) (rs_domain_metadata st) ∅ ∅ [].
Proof.
  intros [Ht Hd _ _ _]. unfold header_rows. rewrite !foldl_app. simpl.
  rewrite apply_txn_rows. simpl.
  rewrite (insert_all_values _ _ _ Ht) by apply btree_values_perm.
  rewrite apply_domain_rows.
  - simpl. rewrite (insert_all_values _ (rs_domain_metadata st)); [done| |apply btree_values_perm].
    intros k x Hx. by destruct (Hd k x Hx).
  - intros d [k Hk]%(elem_of_values _ _ _ (btree_values_perm _ _)). by destruct (Hd k d Hk).
Qed.

Lemma apply_removes_then_adds p m t d sc st (la : list Add) (lr : list Remove) :
  state_wf st → la ≡ₚ (map_to_list (rs_adds st)).*2 → lr ≡ₚ (map_to_list (rs_removes st)).*2 →
  apply_rows (MkState p m t d ∅ ∅ sc) ((remove_row <$> lr) ++ (add_row <$> la)) =
  MkState p m t d (rs_adds st) (rs_removes st) sc.
Proof.
  intros [_ _ Ha Hr Hk] Hla Hlr. rewrite foldl_app, apply_remove_rows, apply_add_rows. simpl.
  rewrite (insert_all_values _ _ _ Hr Hlr).
  rewrite delete_all_fresh by (intros; apply lookup_empty).
  rewrite (insert_all_values _ _ _ Ha Hla). rewrite delete_all_fresh; [done|].
  intros x [k Hx]%(elem_of_values _ _ _ Hla). rewrite (Ha _ _ Hx).
  destruct (rs_removes st !! k) eqn:E; [|done]. by rewrite (Hk _ _ E) in Hx.
Qed.

Lemma apply_adds_then_removes p m t d sc st (la : list Add) (lr : list Remove) :
  state_wf st → la ≡ₚ (map_to_list (rs_adds st)).*2 → lr ≡ₚ (map_to_list (rs_removes st)).*2 →
  apply_rows (MkState p m t d ∅ ∅ sc) ((add_row <$> la) ++ (remove_row <$> lr)) =
  MkState p m t d (rs_adds st) (rs_removes st) sc.
Proof.
  intros [_ _ Ha Hr Hk] Hla Hlr. rewrite foldl_app, apply_add_rows, apply_remove_rows. simpl.
  rewrite (insert_all_values _ _ _ Ha Hla).
  rewrite (delete_all_fresh _ ∅) by (intros; apply lookup_empty).
  rewrite (insert_all_values _ _ _ Hr Hlr). rewrite delete_all_fresh; [done|].
  intros x [k Hx]%(elem_of_values _ _ _ Hlr). rewrite (Hr _ _ Hx). eauto.
Qed.

Lemma header_rows_sidecars p m st : omap row_sidecar (header_rows p m st) = [].
Proof. unfold header_rows. by rewrite !omap_app, !omap_fmap_none. Qed.
End roundtrip.

(** ** Names *)
Lemma uuid_chars_spec i l :
  uuid_chars i l = true →
  i + length l = 36 ∧ Forall (λ c, c ≠ "/"%char ∧ c ≠ "_"%char) l.
Proof.
  revert i. induction l as [|c l IH]; intros i; cbn [uuid_chars].
  { intros Hi%Nat.eqb_eq. split; [simpl; lia|by apply Forall_nil]. }
  intros [Hc [Hl HF]%IH]%andb_true_iff. split; [simpl; lia|]. constructor; [|done].
  destruct (bool_decide _).
  - apply Ascii.eqb_eq in Hc as ->. done.
  - split; intros ->; vm_compute in Hc; done.
Qed.

Lemma split_char_fresh c s :
  Forall (λ x, x ≠ c) (list_ascii_of_string s) → split_char c s = [s].
Proof.
  induction s as [|x s IH]; [done|]. cbn [list_ascii_of_string].
  intros [Hx Hs]%Forall_cons. cbn [split_char]. rewrite (proj2 (Ascii.eqb_neq x c) Hx).
  by rewrite (IH Hs).
Qed.

Lemma list_ascii_app s t :
  list_ascii_of_string (s +:+ t) = list_ascii_of_string s ++ list_ascii_of_string t.
Proof. induction s as [|c s IH]; [done|]. cbn. by rewrite <-IH. Qed.
Lemma list_ascii_length s : length (list_ascii_of_string s) = String.length s.
Proof. induction s as [|c s IH]; [done|]. cbn. by rewrite IH. Qed.
Lemma substring_app s t : String.substring 0 (String.length s) (s +:+ t) = s.
Proof. induction s as [|c s IH]; [by destruct t|]. exact (f_equal (String c) IH). Qed.

(** A sidecar is found under its name, and a checkpoint is known by its name. *)
Lemma sidecar_file_path_name u :
  is_uuid u = true →
  let filename := u +:+ ".parquet" in
  sidecar_file_path filename = "_delta_log/_sidecars/" +:+ filename ∧
  file_name (sidecar_file_path filename) = filename.
Proof.
  intros Hu filename. apply uuid_chars_spec in Hu as [Hl HF]. rewrite list_ascii_length in Hl.
  assert (sidecar_file_path filename = "_delta_log/_sidecars/" +:+ filename) as E.
  { destruct u as [|c u]; [done|]. apply Forall_cons in HF as [[H1 H2] _].
    unfold sidecar_file_path, filename. change (String c u +:+ ?x) with (String c (u +:+ x)).
    cbn [trim_slashes]. rewrite (proj2 (Ascii.eqb_neq c "/") H1). unfold starts_with.
    cbn [String.prefix]. destruct (ascii_dec "_" c) as [<-|_]; done. }
  rewrite E. split; [done|].
  change (file_name ("_delta_log/_sidecars/" +:+ filename))
    with (default "" (last ("_delta_log" :: "_sidecars" :: split_char "/" filename))).
  rewrite split_char_fresh; [done|]. unfold filename. rewrite list_ascii_app.
  apply Forall_app. split; [|by repeat constructor].
  eapply Forall_impl; [done|]. naive_solver.
Qed.

Lemma uuid_like_name u : is_uuid u = true → uuid_like (u +:+ ".parquet") = true.
Proof.
  intros Hu. assert (String.length u = 36) as Hl.
  { unfold is_uuid in Hu. apply uuid_chars_spec in Hu as [Hl _]. by rewrite list_ascii_length in Hl. }
  unfold uuid_like. rewrite <-Hl, substring_app, Hu. simpl. apply bool_decide_eq_true. left.
Qed.

(** ** Pruning *)
Section pruning.
Context `{DE : DeltaEngine} `{HO : HashOrder}.
Implicit Types (st : ReconciledCheckpointState).

Lemma not_expired_false now d name cutoff t :
  retention_cutoff_timestamp now d name = Ok cutoff → not_expired cutoff t = false →
  outlived now d t.
Proof.
  unfold retention_cutoff_timestamp, checked_i64. intros Hc. destruct t as [u|]; simpl; [|done].
  intros ?%Z.ltb_ge. exists u. split; [done|]. repeat case_match; simplify_eq. lia.
Qed.

Lemma prune_agrees L st now st' m :
  rs_metadata st = Some m →
  (∀ x, outlived now (log_retention_duration (table_properties m)) (tx_last_updated x) →
        lo_txn L x) →
  (∀ x, outlived now (deleted_file_retention_duration (table_properties m))
          (rm_deletion_timestamp x) → lo_remove L x) →
  prune_expired_checkpoint_actions st now = Ok st' → agrees L st' st.
Proof.
  intros Hm Ht Hr. unfold prune_expired_checkpoint_actions. rewrite Hm.
  destruct (retention_cutoff_timestamp _ _ "delta.deletedFileRetentionDuration") eqn:E1; [|done].
  simpl. destruct (retention_cutoff_timestamp _ _ "delta.logRetentionDuration") eqn:E2; [|done].
  intros [= <-]. split; simpl; auto with delta.
  - apply (pruned_filter _ (λ x, not_expired _ (tx_last_updated x))). intros x Hx.
    eapply Ht, not_expired_false; done.
  - apply (pruned_filter _ (λ x, not_expired _ (rm_deletion_timestamp x))). intros x Hx.
    eapply Hr, not_expired_false; done.
Qed.
Lemma prune_metadata st now st' :
  prune_expired_checkpoint_actions st now = Ok st' →
  is_Some (rs_metadata st) ∧ rs_metadata st' = rs_metadata st.
Proof.
  unfold prune_expired_checkpoint_actions. destruct (rs_metadata st) eqn:E; [|done].
  repeat (destruct (retention_cutoff_timestamp _ _ _); simpl; try done). naive_solver.
Qed.
End pruning.

(** ** Writing and reading back *)
Section writing.
Context `{DE : DeltaEngine} `{HO : HashOrder}.
Implicit Types (s : LogStore) (st : ReconciledCheckpointState) (c : AddAugmentationConfig).

(** The state that the files of a checkpoint stand for. *)
Definition recorded (protocol : Protocol) (metadata : Metadata) c st (sidecars : list Sidecar) :=
  MkState (Some protocol) (Some metadata) (rs_txns st) (rs_domain_metadata st)
    (restate_add c <$> rs_adds st) (rs_removes st) sidecars.

Lemma restate_adds_agree L c m p st sc :
  rs_protocol st = Some p → rs_metadata st = Some m →
  (∀ x y, stats_step m x y → lo_stats L x y) →
  (∀ k a, rs_adds st !! k = Some a → restates m c (add_stats a)) →
  agrees L (recorded p m c st sc) st.
Proof.
  intros Hp Hm HL Ha. split; simpl; auto with delta. intros k. rewrite lookup_fmap.
  destruct (rs_adds st !! k) as [a|] eqn:E; simpl; constructor.
  exists (restate_stats c (add_stats a)). split; [|done].
  destruct (Ha k a E) as [->|Hs]; [done|]. apply rtc_once, HL, Hs.
Qed.

Lemma restated_adds_perm c st (l : list Add) :
  l ≡ₚ (map_to_list (rs_adds st)).*2 →
  restate_add c <$> l ≡ₚ (map_to_list (restate_add c <$> rs_adds st)).*2.
Proof.
  intros ->. rewrite map_to_list_fmap, <-!list_fmap_compose.
  by apply (Permutation_refl'), list_fmap_ext.
Qed.
Lemma restate_wf p m c st sc : state_wf st → state_wf (recorded p m c st sc).
Proof.
  intros [Ht Hd Ha Hr Hk]. split; simpl; try done.
  - intros k x. rewrite lookup_fmap, fmap_Some. intros (a & Hx & ->). exact (Ha k a Hx).
  - intros k r Hr'. by rewrite lookup_fmap, (Hk _ _ Hr').
Qed.

Lemma apply_checkpoint_rows p m c st :
  state_wf st →
  apply_rows state_default (restate_row c <$> checkpoint_rows p m st) = recorded p m c st [].
Proof.
  intros Hwf. unfold checkpoint_rows.
  rewrite !fmap_app, restate_header_rows, restate_remove_rows, restate_add_rows.
  rewrite foldl_app, apply_header_rows by done.
  apply (apply_removes_then_adds _ _ _ _ _ (recorded p m c st [])); [by apply restate_wf| |].
  - apply restated_adds_perm, btree_values_perm.
  - apply btree_values_perm.
Qed.

Lemma apply_main_rows version p m c st x :
  state_wf st →
  apply_rows state_default ((restate_row c <$> main_rows version p m st x) ++
    (restate_row c <$> sidecar_rows st)) = recorded p m c st (option_list x).
Proof.
  intros Hwf. unfold main_rows. rewrite !fmap_app, restate_header_rows, !foldl_app.
  change (apply_rows state_default (restate_row c <$> [checkpoint_metadata_row ?c])) with
    state_default.
  rewrite apply_header_rows by done.
  transitivity (apply_rows (MkState (Some p) (Some m) (rs_txns st) (rs_domain_metadata st) ∅ ∅
    (option_list x)) (restate_row c <$> sidecar_rows st)); [by destruct x|].
  unfold sidecar_rows. rewrite fmap_app, restate_add_rows, restate_remove_rows.
  apply (apply_adds_then_removes _ _ _ _ _ (recorded p m c st [])); [by apply restate_wf| |].
  - apply restated_adds_perm, map_values_perm.
  - apply map_values_perm.
Qed.

(** The statistics of the files of a checkpoint. *)
Lemma rows_restate m c st (rows : list CheckpointActionRow) (l : list Add) :
  Forall (λ row, restates m c (row_stats row)) rows → (add_row <$> l) ⊆ rows →
  l ≡ₚ (map_to_list (rs_adds st)).*2 →
  ∀ k a, rs_adds st !! k = Some a → restates m c (add_stats a).
Proof.
  intros HF Hl Hp k a Ha. rewrite Forall_forall in HF. apply (HF (add_row a)), Hl.
  apply list_elem_of_fmap_2, (elem_of_values _ _ _ Hp). eauto.
Qed.

Lemma protocol_and_metadata_Ok st p m :
  protocol_and_metadata st = Ok (p, m) → rs_protocol st = Some p ∧ rs_metadata st = Some m.
Proof. unfold protocol_and_metadata. repeat case_match; naive_solver. Qed.

Lemma omap_sidecar_restate c (rows : list CheckpointActionRow) :
  omap row_sidecar (restate_row c <$> rows) = omap row_sidecar rows.
Proof. induction rows as [|row rows IH]; [done|]. csimpl. by rewrite IH. Qed.
Lemma checkpoint_rows_sidecars p m st : omap row_sidecar (checkpoint_rows p m st) = [].
Proof.
  unfold checkpoint_rows. by rewrite !omap_app, header_rows_sidecars, !omap_fmap_none.
Qed.
Lemma main_rows_sidecars version p m st x :
  omap row_sidecar (main_rows version p m st x) = option_list x.
Proof. unfold main_rows. rewrite !omap_app, header_rows_sidecars. by destruct x. Qed.

Lemma read_rows s stored now :
  read_checkpoint_rows s (MkFile (Some (CheckpointRows stored)) now) =
  (sidecar_rows ← read_sidecars s (omap row_sidecar (decode_checkpoint_row <$> stored));
   Ok ((decode_checkpoint_row <$> stored) ++ sidecar_rows)).
Proof. done. Qed.
End writing.
