(* ===== verification/DeltaStoreSystem.v ===== *)
(** * Loading the state of a table from a good log directory

    [store_ok]: what the files of a directory have to do with the log of the
    table.  Loading from such a directory is sound for every version, and it
    succeeds from the version of the [_last_checkpoint] hint on. *)

From Stdlib Require Import Ascii String.
From S2P Require Import Prelude Collections CatalogNames DeltaSpec DeltaProperties DeltaLog DeltaSegment DeltaCheckpoint DeltaLogFacts DeltaCheckpointFacts.
(** ** Choosing a checkpoint *)
Lemma max_version_spec l :
  match max_version l with
  | None => l = []
  | Some m => m ∈ l ∧ ∀ v, v ∈ l → (v ≤ m)%Z
  end.
Proof.
  induction l as [|x l IH] using rev_ind; [done|].
  unfold max_version in *. rewrite foldl_app. simpl.
  destruct (foldl _ _ l) as [m|]; simpl in *.
  - destruct IH as [Hm Hle]. split.
    + destruct (Z.max_spec m x) as [[? ->]|[? ->]]; set_solver.
    + intros v [Hv|<-%list_elem_of_singleton]%elem_of_app; [specialize (Hle v Hv)|]; lia.
  - subst l. split; [by left|]. intros v ->%list_elem_of_singleton. lia.
Qed.

Lemma max_version_is_Some l v : v ∈ l → ∃ m, max_version l = Some m ∧ (v ≤ m)%Z.
Proof.
  intros Hv. pose proof (max_version_spec l) as Hs. destruct (max_version l) as [m|].
  - exists m. split; [done|]. by apply Hs.
  - subst l. by apply elem_of_nil in Hv.
Qed.

Lemma latest_checkpoint_elem cands v f :
  latest_checkpoint cands = Some (v, f) → ∃ name, (v, name, f) ∈ cands.
Proof.
  unfold latest_checkpoint. destruct (max_version _) as [m|]; [|done]. simpl.
  destruct (head _) as [[[w name] g]|] eqn:E; [|done]. intros [= <- <-].
  apply head_Some_elem_of in E. rewrite elem_of_sort_by, list_elem_of_filter in E. simpl in E.
  destruct E as [->%Z.eqb_eq E]. eauto.
Qed.

Lemma latest_checkpoint_is_Some cands v name f :
  (v, name, f) ∈ cands →
  ∃ w name' g, latest_checkpoint cands = Some (w, g) ∧ (w, name', g) ∈ cands ∧ (v ≤ w)%Z.
Proof.
  intros Hin. assert (v ∈ (cands.*1).*1) as Hv.
  { rewrite <-list_fmap_compose. apply list_elem_of_fmap. by exists (v, name, f). }
  destruct (max_version_is_Some _ _ Hv) as (m & Hm & Hle).
  pose proof (max_version_spec ((cands.*1).*1)) as Hs. rewrite Hm in Hs. destruct Hs as [Hs _].
  rewrite <-list_fmap_compose in Hs. apply list_elem_of_fmap in Hs as ([[w n] g] & -> & Hw).
  destruct (latest_checkpoint cands) as [[w' g']|] eqn:E.
  - destruct (latest_checkpoint_elem _ _ _ E) as [n' Hn']. exists w', n', g'.
    split_and!; [done..|]. unfold latest_checkpoint in E. rewrite Hm in E. simpl in E.
    destruct (head _); [|done]. simpl in E. simplify_eq. simpl in *. lia.
  - exfalso. unfold latest_checkpoint in E. rewrite Hm in E. simpl in E.
    destruct (head _) eqn:Eh; [done|]. apply head_None in Eh.
    assert ((w, n, g) ∈ @nil (Z * string * File CheckpointContent)) as Hn; [|by apply elem_of_nil in Hn].
    rewrite <-Eh, elem_of_sort_by, list_elem_of_filter. simpl. split; [lia|done].
Qed.

Section store.
Context `{DE : DeltaEngine} `{HO : HashOrder}.
Implicit Types (s : LogStore).

(** ** Good directories *)

(** A checkpoint file of version [v] reads as the state of the log there. *)
Definition checkpoint_ok (log : list (list Action)) (hist : list (Z * Z)) s (v : Z)
    (f : File CheckpointContent) : Prop :=
  ∃ rows, read_checkpoint_rows s f = Ok rows ∧
    agrees (losses log hist v) (foldl apply_checkpoint_row state_default rows) (state_before log (v + 1)).
(** Its sidecars are listed by a checkpoint of the same version that the
    collection of sidecars looks at. *)
Definition sidecars_listed s (v : Z) (f : File CheckpointContent) : Prop :=
  ∀ rows x, read_checkpoint_main_rows f = Ok rows → x ∈ omap row_sidecar rows →
    file_name (sidecar_file_path (sc_path x)) = sc_path x ∧
    ∃ name g, ls_checkpoints s !! (v, name) = Some g ∧ uuid_like name = true ∧
      file_content g = file_content f.
Definition checkpoint_at s (v : Z) : Prop := ∃ name f, ls_checkpoints s !! (v, name) = Some f.

(** [b] is the first version that can be loaded. *)
Record store_ok (log : list (list Action)) (hist : list (Z * Z)) (b : Z) s : Prop := {
  so_len : (Z.of_nat (length log) < i64_max)%Z;
  so_timestamped : timestamped log;
  so_header : log ≠ [] → has_header (state_before log 1);
  so_compactions : ls_compactions s = ∅;
  so_commits : ∀ v f, ls_commits s !! v = Some f → (b ≤ v)%Z ∧ commit_file_ok log v f;
  so_present : ∀ v, (b ≤ v < Z.of_nat (length log))%Z → is_Some (ls_commits s !! v);
  so_base : b = 0%Z ∨ (0 < b)%Z ∧ checkpoint_at s b;
  so_hint : ∀ h, ls_last_checkpoint s = Some h →
    (0 ≤ h < Z.of_nat (length log))%Z ∧ (checkpoint_at s h ∨ (h < b)%Z);
  so_checkpoints : ∀ v name f, ls_checkpoints s !! (v, name) = Some f →
    (b ≤ v < Z.of_nat (length log))%Z ∧ checkpoint_ok log hist s v f ∧ sidecars_listed s v f
}.

Lemma so_base_le log hist b s : store_ok log hist b s → (0 ≤ b ≤ Z.of_nat (length log))%Z.
Proof.
  intros Hok. destruct (so_base _ _ _ _ Hok) as [->|[Hb (name & f & Hf)]]; [lia|].
  destruct (so_checkpoints _ _ _ _ Hok _ _ _ Hf). lia.
Qed.

Lemma hash_items_empty `{Countable K} {V} : hash_items (∅ : gmap K V) = [].
Proof. apply Permutation_nil_r. by rewrite hash_items_perm, map_to_list_empty. Qed.

Lemma list_checkpoints_elem s offset max v name f :
  (v, name, f) ∈ upto (λ x, x.1.1) max (list_checkpoints s offset) ↔
  ls_checkpoints s !! (v, name) = Some f ∧ (offset ≤ v ≤ max)%Z.
Proof.
  unfold upto, list_checkpoints. rewrite !list_elem_of_filter, hash_items_elem. simpl.
  naive_solver lia.
Qed.

Section ok.
Context (log : list (list Action)) (hist : list (Z * Z)) (b : Z) (s : LogStore)
  (Hok : store_ok log hist b s).

(** ** Soundness *)
Lemma segment_files_ok offset v start :
  segment_files (list_log_files s offset v) start v =
  (filter (λ x, in_range start v x = true)
     (sort_by_key fst (upto fst v (list_commits s offset))), []).
Proof.
  unfold segment_files, list_log_files, list_compactions. cbn [lf_commits lf_compactions].
  rewrite (so_compactions _ _ _ _ Hok), hash_items_empty. done.
Qed.

Lemma commits_listed_ok offset v :
  commit_files_ok log (sort_by_key fst (upto fst v (list_commits s offset))).
Proof. intros w f [Hf _]%list_commits_elem. by eapply so_commits in Hf as [_ ?]. Qed.
Lemma commits_filtered_ok (l : Commits) P `{!∀ x, Decision (P x)} :
  commit_files_ok log l → commit_files_ok log (filter P l).
Proof. intros Hl v f [_ Hf]%list_elem_of_filter. by apply Hl. Qed.

(** The state from which commits are replayed, for either use. *)
Lemma checkpoint_found_sound v name f :
  ls_checkpoints s !! (v, name) = Some f →
  (b ≤ v < Z.of_nat (length log))%Z ∧ succ_i64 v = (v + 1)%Z ∧
  ∃ rows, read_checkpoint_rows s f = Ok rows ∧
    agrees (losses log hist v) (foldl apply_checkpoint_row state_default rows)
      (state_before log (v + 1)).
Proof.
  intros Hf. destruct (so_checkpoints _ _ _ _ Hok _ _ _ Hf) as (Hv & Hc & _).
  pose proof (so_len _ _ _ _ Hok). pose proof (so_base_le _ _ _ _ Hok).
  split; [done|]. split; [apply succ_i64_id; lia|done].
Qed.

Lemma state_before_start L : agrees L state_default (state_before log 0).
Proof. apply agrees_refl. Qed.

(** What the chosen checkpoint leads to: a base from which to replay. *)
Lemma base_sound offset v :
  let cp := latest_checkpoint (upto (λ x, x.1.1) v (list_checkpoints s offset)) in
  (0 ≤ v)%Z →
  (0 ≤ start_after cp ≤ v + 1)%Z ∧ (start_after cp ≤ Z.of_nat (length log))%Z ∧
  match cp with
  | Some (c, f) => start_after cp = (c + 1)%Z ∧ ∃ rows, read_checkpoint_rows s f = Ok rows ∧
      agrees (losses log hist v) (foldl apply_checkpoint_row state_default rows)
        (state_before log (c + 1))
  | None => True
  end.
Proof.
  intros cp Hv. destruct cp as [[c f]|] eqn:E; simpl; [|split_and!; lia || done].
  apply latest_checkpoint_elem in E as [name [Hf Hc]%list_checkpoints_elem].
  destruct (checkpoint_found_sound _ _ _ Hf) as (Hb & Hs & Hr).
  pose proof (so_base_le _ _ _ _ Hok). rewrite Hs. split_and!; [lia..|done|].
  destruct Hr as (rows & Hr & Hag). exists rows. split; [done|].
  eapply agrees_mono; [|exact Hag]. apply losses_mono; [done|lia].
Qed.

Lemma replay_segment_sound v g r :
  (0 ≤ v)%Z → resolve_for_full_state s v = Ok g → replay_segment s g = Ok r →
  sg_target g = v ∧ agrees (losses log hist v) r.1 (state_before log (v + 1)) ∧
  (v < Z.of_nat (length log))%Z.
Proof.
  intros Hv. unfold resolve_for_full_state. rewrite segment_files_ok. cbn [list_log_files lf_checkpoint].
  destruct (base_sound (hint_offset s v) v Hv) as (Hs1 & Hs2 & Hb).
  pose proof (so_len _ _ _ _ Hok) as Hlen.
  set (cp := latest_checkpoint _) in *. set (start := start_after cp) in *.
  set (commits := filter _ _). assert (commit_files_ok log commits) as Hc.
  { apply commits_filtered_ok, commits_listed_ok. }
  destruct (validate_commit_contiguity_with_compactions _ _ _ _) as [[]|] eqn:E; [|done].
  simpl. intros [= <-]. unfold replay_segment. cbn [sg_checkpoint sg_commits sg_compactions sg_target].
  assert (match commits with [] => start = (v + 1)%Z | x :: _ => x.1 = start end) as Hstart.
  { unfold validate_commit_contiguity_with_compactions in E.
    apply (validate_commit_contiguity_head commits start v); [|done|lia|].
    - apply Forall_forall. intros x [Hx _]%list_elem_of_filter. done.
    - unfold validate_commit_contiguity in *. by destruct (v <? start)%Z. }
  cbn [replay_commit_actions_with_compactions]. destruct cp as [[c f]|].
  - destruct Hb as (Hc1 & rows & -> & Hag). simpl. intros Hr. split; [done|].
    rewrite <-Hc1 in Hag. fold start in Hag.
    assert (start_commit_version (MkSegment (Some (c, f)) commits [] v) = start) as E1.
    { unfold start_commit_version. cbn [sg_commits sg_compactions sg_target].
      destruct commits as [|[w h] l]; [|done]. rewrite succ_i64_id; lia. }
    rewrite E1 in Hr. eapply replay_commit_actions_sound; eauto.
  - simpl. intros Hr. split; [done|].
    eapply replay_commit_actions_sound; eauto using state_before_start; lia.
Qed.

(** ** Completeness *)
Lemma base_complete offset v :
  (offset ≤ b ∨ ∃ h, checkpoint_at s h ∧ (offset ≤ h ≤ v)%Z)%Z → (b ≤ v)%Z →
  (0 ≤ v < Z.of_nat (length log))%Z →
  let cp := latest_checkpoint (upto (λ x, x.1.1) v (list_checkpoints s offset)) in
  (Z.max b offset ≤ start_after cp)%Z ∨ start_after cp = 0%Z ∧ (offset ≤ 0)%Z ∧ b = 0%Z.
Proof.
  intros Ho Hb Hv cp. assert ((∃ h name f, ls_checkpoints s !! (h, name) = Some f ∧
    (offset ≤ h ≤ v)%Z) ∨ (offset ≤ 0)%Z ∧ b = 0%Z) as [(h & name & f & Hf & Hh)|Hz].
  { destruct Ho as [Ho|(h & (name & f & Hf) & Hh)]; [|left; by exists h, name, f].
    destruct (so_base _ _ _ _ Hok) as [->|[Hp (name & f & Hf)]]; [by right|].
    left. exists b, name, f. split; [done|lia]. }
  - left. destruct (latest_checkpoint_is_Some _ _ _ _
      (proj2 (list_checkpoints_elem s offset v h name f) (conj Hf Hh))) as (w & n & g & E & Hin & Hle).
    unfold cp. rewrite E. simpl. apply list_checkpoints_elem in Hin as [Hg Hw].
    destruct (checkpoint_found_sound _ _ _ Hg) as (Hbw & -> & _). lia.
  - destruct cp as [[c g]|] eqn:E; [left|by right]. simpl.
    apply latest_checkpoint_elem in E as [name [Hf Hc]%list_checkpoints_elem].
    destruct (checkpoint_found_sound _ _ _ Hf) as (Hbw & -> & _). lia.
Qed.

Lemma hint_offset_ok v :
  (∀ h, ls_last_checkpoint s = Some h → (h ≤ v)%Z) → (b ≤ v)%Z →
  (hint_offset s v ≤ b ∨ ∃ h, checkpoint_at s h ∧ (hint_offset s v ≤ h ≤ v)%Z)%Z.
Proof.
  intros Hh Hb. unfold hint_offset. pose proof (so_base_le _ _ _ _ Hok).
  pose proof (so_len _ _ _ _ Hok).
  destruct (ls_last_checkpoint s) as [h|] eqn:E; [|left; lia].
  specialize (Hh h eq_refl). destruct (so_hint _ _ _ _ Hok h E) as [Hl [Hc|Hlt]].
  - right. exists h. split; [done|]. rewrite pred_i64_id; lia.
  - left. rewrite pred_i64_id; lia.
Qed.

(** The commits after a base are all there. *)
Lemma commits_after_base offset v start :
  (Z.max b offset ≤ start)%Z ∨ start = 0%Z ∧ (offset ≤ 0)%Z ∧ b = 0%Z →
  (v < Z.of_nat (length log))%Z →
  ∃ F, (∀ w, (start ≤ w ≤ v)%Z → commit_file_ok log w (F w)) ∧
    filter (λ x, in_range start v x = true)
      (sort_by_key fst (upto fst v (list_commits s offset))) =
    (λ w, (w, F w)) <$> seqZ start (v - start + 1).
Proof.
  intros Hs Hv. assert (∀ w, (start ≤ w ≤ v)%Z → is_Some (ls_commits s !! w)) as Hp.
  { intros w Hw. apply (so_present _ _ _ _ Hok). lia. }
  exists (λ w, default (MkFile None 0%Z) (ls_commits s !! w)). split.
  - intros w Hw. destruct (Hp w Hw) as [f Hf]. rewrite Hf. by eapply so_commits in Hf as [_ ?].
  - apply list_commits_range; [lia|done].
Qed.

Lemma replay_segment_complete v :
  (∀ h, ls_last_checkpoint s = Some h → (h ≤ v)%Z) → (b ≤ v < Z.of_nat (length log))%Z →
  ∃ g r, resolve_for_full_state s v = Ok g ∧ replay_segment s g = Ok r.
Proof.
  intros Hh Hv. pose proof (so_base_le _ _ _ _ Hok). pose proof (so_len _ _ _ _ Hok) as Hlen.
  unfold resolve_for_full_state. rewrite segment_files_ok. cbn [list_log_files lf_checkpoint].
  destruct (base_sound (hint_offset s v) v) as (Hs1 & Hs2 & Hb); [lia|].
  pose proof (base_complete (hint_offset s v) v) as Hc.
  specialize (Hc (hint_offset_ok v Hh ltac:(lia)) ltac:(lia) ltac:(lia)). simpl in Hc.
  set (cp := latest_checkpoint _) in *. set (start := start_after cp) in *.
  destruct (commits_after_base _ v start Hc ltac:(lia)) as (F & HF & ->).
  set (commits := (λ w, (w, F w)) <$> _).
  assert (validate_commit_contiguity_with_compactions commits [] start v = Ok tt) as ->.
  { unfold validate_commit_contiguity_with_compactions, commits.
    rewrite validate_commit_contiguity_complete by lia.
    by destruct (v <? start)%Z. }
  exists (MkSegment cp commits [] v). simpl. unfold replay_segment.
  cbn [sg_checkpoint sg_commits sg_compactions sg_target replay_commit_actions_with_compactions].
  assert (∀ L st, agrees L st (state_before log start) →
    ∃ r, replay_commit_actions st commits start v = Ok r) as Hr.
  { intros L st Hag. eapply replay_commit_actions_complete; [done|apply (so_timestamped _ _ _ _ Hok)|done| |lia|done].
    apply list_filter_all.
    unfold commits. intros x (w & -> & Hw%elem_of_seqZ)%list_elem_of_fmap. unfold in_range. simpl. lia. }
  destruct cp as [[c f]|].
  - destruct Hb as (Hc1 & rows & -> & Hag). simpl. rewrite <-Hc1 in Hag.
    destruct (Hr _ _ Hag) as [r Er]. exists r. split; [done|]. rewrite <-Er. f_equal.
    unfold start_commit_version. cbn [sg_commits sg_compactions sg_target]. unfold commits.
    destruct (Z.le_gt_cases start v).
    + rewrite seqZ_cons by lia. done.
    + rewrite seqZ_nil by lia. simpl. rewrite succ_i64_id; lia.
  - destruct (Hr _ _ (state_before_start (losses log hist v))) as [r Er]. exists r. done.
Qed.
End ok.
End store.

(** ** The life of a Delta log directory

    The directory changes by commits, checkpoints, version checksums and the
    clean-up of expired files, in any order; every one of them keeps it good
    ([store_ok]). *)

Section system.
Context `{DE : DeltaEngine} `{HO : HashOrder}.
Implicit Types (s : LogStore) (log : list (list Action)).

(** A commit that can follow [log]: it has a time stamp if the table asks for one,
    and the first commit says what the table is. *)
Record commit_fits log (actions : list Action) : Prop := {
  cf_len : (Z.of_nat (length log) + 1 < i64_max)%Z;
  cf_timestamp : ∀ modified, ∃ t,
    resolve_commit_timestamp_from_actions (Z.of_nat (length log)) modified
      (rs_protocol (table_state log)) (rs_metadata (table_state log)) actions = Ok t;
  cf_header : log = [] → has_header (foldl apply_action state_default actions)
}.
(** The names of a checkpoint are new. *)
Record env_fresh s (version : Z) (env : CheckpointEnv) : Prop := {
  ef_sidecar : is_uuid (ce_sidecar_uuid env) = true;
  ef_checkpoint : is_uuid (ce_checkpoint_uuid env) = true;
  ef_new_sidecar :
    ls_sidecars s !! sidecar_file_path (ce_sidecar_uuid env +:+ ".parquet") = None;
  ef_new_checkpoint :
    ls_checkpoints s !! (version, ce_checkpoint_uuid env +:+ ".parquet") = None
}.

(** The checkpoints that were written, after an attempt at one more. *)
Definition checkpoint_history (hist : list (Z * Z)) (version now : Z) (r : DeltaResult unit)
    : list (Z * Z) :=
  match r with Ok _ => (version, now) :: hist | Err _ => hist end.

(** The log, its checkpoints with their versions and times, and the directory. *)
Inductive log_reachable : list (list Action) → list (Z * Z) → LogStore → Prop :=
| LogNew : log_reachable [] [] log_store_empty
| LogCommit log hist s actions now :
    log_reachable log hist s → commit_fits log actions →
    log_reachable (log ++ [actions]) hist
      (write_commit_entry s (Z.of_nat (length log)) actions now).2
| LogCheckpoint log hist s version env :
    log_reachable log hist s → env_fresh s version env →
    log_reachable log
      (checkpoint_history hist version (ce_now env) (create_checkpoint s version env).1)
      (create_checkpoint s version env).2
| LogChecksums log hist s checksums :
    log_reachable log hist s → log_reachable log hist (ls_with_checksums s checksums)
| LogCleanup log hist s latest cutoff now timestamps protocol metadata :
    log_reachable log hist s →
    log_reachable log hist
      (cleanup_expired_delta_log_files s latest cutoff now timestamps protocol metadata).2.

(** ** Reading is determined by the sidecars *)
Lemma read_sidecars_weaken s s' l rows :
  (∀ x f, x ∈ l → ls_sidecars s !! sidecar_file_path (sc_path x) = Some f →
          ls_sidecars s' !! sidecar_file_path (sc_path x) = Some f) →
  read_sidecars s l = Ok rows → read_sidecars s' l = Ok rows.
Proof.
  revert rows. induction l as [|x l IH]; intros rows Hs; simpl; [done|].
  destruct (ls_sidecars s !! _) as [f|] eqn:E; [|done].
  rewrite (Hs x f) by (done || left). destruct (file_content f); [|done].
  destruct (read_sidecars s l) as [rest|] eqn:E'; [|done]. simpl. intros [= <-].
  rewrite (IH rest); [done| |done]. intros y g Hy. apply Hs. by right.
Qed.

Lemma checkpoint_ok_weaken log hist s s' v f :
  (∀ rows x g, read_checkpoint_main_rows f = Ok rows → x ∈ omap row_sidecar rows →
     ls_sidecars s !! sidecar_file_path (sc_path x) = Some g →
     ls_sidecars s' !! sidecar_file_path (sc_path x) = Some g) →
  checkpoint_ok log hist s v f → checkpoint_ok log hist s' v f.
Proof.
  intros Hs (rows & Hr & Hag). exists rows. split; [|done]. revert Hr.
  unfold read_checkpoint_rows. destruct (read_checkpoint_main_rows f) as [main|] eqn:E; [|done].
  simpl. destruct (read_sidecars s _) as [side|] eqn:E'; [|done]. simpl. intros [= <-].
  rewrite (read_sidecars_weaken s s' _ side); [done| |done]. eauto.
Qed.

Lemma checkpoint_ok_mono log hist hist' s v f :
  hist ⊆ hist' → checkpoint_ok log hist s v f → checkpoint_ok log hist' s v f.
Proof. intros Hle (rows & Hr & Hag). exists rows. eauto using agrees_mono, losses_mono, Z.le_refl. Qed.

(** ** Commits *)
Lemma store_ok_new : store_ok [] [] 0 log_store_empty.
Proof.
  split; simpl; try done.
  - intros v a m. unfold commit_at. case_match; [done|]. by rewrite lookup_nil.
  - intros v. lia.
  - by left.
Qed.

Lemma timestamped_app log actions :
  timestamped log → commit_fits log actions → timestamped (log ++ [actions]).
Proof.
  intros Ht Hf v a modified Ha. pose proof (commit_at_bounds _ _ _ Ha) as Hv.
  rewrite length_app in Hv. simpl in Hv. rewrite state_before_app by lia.
  destruct (decide (v = Z.of_nat (length log))) as [->|Hne].
  - destruct (cf_timestamp _ _ Hf modified) as [t Ht']. exists t.
    unfold commit_at in Ha. case_match; [lia|]. rewrite Nat2Z.id in Ha.
    rewrite list_lookup_middle in Ha by done. simplify_eq. unfold state_before.
    by rewrite Nat2Z.id, firstn_all.
  - rewrite commit_at_app in Ha by lia. by apply Ht.
Qed.

Lemma commit_store_ok log hist b s actions now :
  store_ok log hist b s → commit_fits log actions →
  store_ok (log ++ [actions]) hist b (write_commit_entry s (Z.of_nat (length log)) actions now).2.
Proof.
  intros Hok Hf. pose proof (so_base_le _ _ _ _ Hok) as Hb.
  unfold write_commit_entry. destruct (ls_commits s !! _) as [f|] eqn:E.
  { destruct (so_commits _ _ _ _ Hok _ _ E) as (_ & a & Ha%commit_at_bounds & _). lia. }
  assert (length (log ++ [actions]) = S (length log)) as El by (rewrite length_app; simpl; lia).
  destruct Hok as [H1 H2 H3 H4 H5 H6 H7 H8 H9]. simpl. split; rewrite ?El; simpl; try done.
  - pose proof (cf_len _ _ Hf). lia.
  - by apply timestamped_app.
  - intros _. destruct log as [|c log].
    + unfold state_before, table_state. simpl. rewrite app_nil_r. by apply (cf_header _ _ Hf).
    + rewrite state_before_app by (simpl; lia). by apply H3.
  - intros v f [[<- <-]|[Hne Hv]]%lookup_insert_Some.
    + split; [lia|]. exists actions. split; [|done]. unfold commit_at. case_match; [lia|].
      by rewrite Nat2Z.id, list_lookup_middle.
    + destruct (H5 _ _ Hv) as (Hbv & a & Ha & Hc). split; [done|]. exists a. split; [|done].
      pose proof (commit_at_bounds _ _ _ Ha). rewrite commit_at_app; [done|lia].
  - intros v Hv. destruct (decide (v = Z.of_nat (length log))) as [->|Hne].
    + rewrite lookup_insert_eq. eauto.
    + rewrite lookup_insert_ne by done. apply H6. lia.
  - intros h Hh. destruct (H8 h Hh) as [Hl Hc]. split; [lia|done].
  - intros v name f Hv. destruct (H9 _ _ _ Hv) as (Hl & (rows & Hr & Hag) & Hs).
    split_and!; [lia..| |done]. apply (checkpoint_ok_weaken _ _ s); [done|].
    exists rows. split; [exact Hr|]. rewrite state_before_app by lia.
    eapply agrees_mono; [apply losses_app; lia|done].
Qed.

(** ** Checkpoints *)

(** A checkpoint of [v] written at [now] is part of the history. *)
Lemma checkpointed_now log hist v now m :
  rs_metadata (state_before log (v + 1)) = Some m →
  checkpointed log ((v, now) :: hist) v now m.
Proof. intros Hm. exists v. split_and!; [left|lia|done]. Qed.
Lemma losses_cons log hist v now : losses_le (losses log hist v) (losses log ((v, now) :: hist) v).
Proof. apply losses_mono; [set_solver|lia]. Qed.

Lemma prune_sound log hist v st now st' :
  agrees (losses log hist v) st (state_before log (v + 1)) →
  prune_expired_checkpoint_actions st now = Ok st' →
  agrees (losses log ((v, now) :: hist) v) st' (state_before log (v + 1)).
Proof.
  intros Hag Hp. destruct (prune_metadata _ _ _ Hp) as [[m Hm] _].
  eapply agrees_trans; [|eapply agrees_mono; [apply losses_cons|done]].
  pose proof (ag_metadata _ _ _ Hag) as E. rewrite Hm in E. symmetry in E.
  eapply prune_agrees; [done|..|done]; simpl; eauto using checkpointed_now.
Qed.

Lemma checkpoint_state_sound log hist b s v now st :
  store_ok log hist b s → (0 ≤ v)%Z → checkpoint_state s v now = Ok st →
  agrees (losses log ((v, now) :: hist) v) st (state_before log (v + 1)) ∧
  (b ≤ v < Z.of_nat (length log))%Z.
Proof.
  intros Hok Hv. unfold checkpoint_state. fold (hint_offset s v).
  set (offset := hint_offset s v).
  set (commits := sort_by_key fst (upto fst v (list_commits s offset))).
  pose proof (so_len _ _ _ _ Hok) as Hlen.
  pose proof (commits_listed_ok _ _ _ _ Hok offset v) as Hc. fold commits in Hc.
  assert (∀ base start r, (0 ≤ start ≤ v + 1)%Z → (start ≤ Z.of_nat (length log))%Z →
    agrees (losses log hist v) base (state_before log start) →
    replay_commit_actions base commits start v = Ok r →
    prune_expired_checkpoint_actions r.1 now = Ok st →
    agrees (losses log ((v, now) :: hist) v) st (state_before log (v + 1)) ∧
    (v < Z.of_nat (length log))%Z) as Hfin.
  { intros base start r Hs Hl Hag Hr Hp.
    eapply replay_commit_actions_sound in Hr as [Hag' Hlt]; [|done..]. eauto using prune_sound. }
  destruct (last _) as [[[c name] f]|] eqn:El.
  - apply last_Some_elem_of in El. unfold sort_by_key in El.
    rewrite elem_of_sort_by, list_checkpoints_elem in El. destruct El as [Hf Hcv].
    destruct (checkpoint_found_sound _ _ _ _ Hok _ _ _ Hf) as (Hb & -> & rows & -> & Hag). simpl.
    pose proof (so_base_le _ _ _ _ Hok).
    destruct (replay_commit_actions _ _ _ _) as [r|] eqn:Er; [|done]. simpl.
    intros Hp. apply (agrees_mono _ (losses log hist v)) in Hag; [|apply losses_mono; [done|lia]].
    destruct (Hfin _ (c + 1)%Z r ltac:(lia) ltac:(lia) Hag Er Hp) as [? ?]. split; [done|lia].
  - simpl. destruct (replay_commit_actions _ _ _ _) as [r|] eqn:Er; [|done]. simpl.
    intros Hp. destruct (Hfin _ 0%Z r ltac:(lia) ltac:(lia) (state_before_start log _) Er Hp)
      as [? ?]. split; [done|]. split; [|done].
    apply replay_commit_actions_first in Er as [f [Hf _]%list_commits_elem]; [|lia|lia].
    apply (so_commits _ _ _ _ Hok) in Hf as [? _]. lia.
Qed.

Lemma store_ok_mono log hist hist' b s :
  hist ⊆ hist' → store_ok log hist b s → store_ok log hist' b s.
Proof.
  intros Hle [H1 H2 H3 H4 H5 H6 H7 H8 H9]. split; try done. intros v name f Hf.
  destruct (H9 v name f Hf) as (? & ? & ?). eauto using checkpoint_ok_mono.
Qed.

Lemma put_sidecar_store_ok log hist b s path rows now :
  store_ok log hist b s → ls_sidecars s !! path = None →
  store_ok log hist b (put_sidecar s path rows now).
Proof.
  intros [H1 H2 H3 H4 H5 H6 H7 H8 H9] Hfresh. split; try done. intros v name f Hf.
  destruct (H9 v name f Hf) as (? & ? & ?). split_and!; [lia..| |done].
  apply (checkpoint_ok_weaken _ _ s); [|done]. intros _ x g _ _ Hg. simpl.
  rewrite lookup_insert_ne by congruence. done.
Qed.

(** A new checkpoint may replace one that no other relies on. *)
Definition with_checkpoint s (v : Z) (name : string) (f : File CheckpointContent)
    (hint : option Z) : LogStore :=
  MkLogStore (ls_commits s) (ls_checksums s) (<[(v, name) := f]> (ls_checkpoints s))
    (ls_compactions s) (ls_sidecars s) hint.

Lemma with_checkpoint_at s v name f hint w :
  checkpoint_at s w → checkpoint_at (with_checkpoint s v name f hint) w.
Proof.
  intros (n & g & Hg). unfold checkpoint_at. simpl. exists n.
  destruct (decide ((v, name) = (w, n))) as [<-|]; [rewrite lookup_insert_eq; eauto|].
  rewrite lookup_insert_ne by done. eauto.
Qed.

Lemma with_checkpoint_store_ok log hist b s v name f hint :
  store_ok log hist b s → (b ≤ v < Z.of_nat (length log))%Z →
  hint = Some v ∨ hint = ls_last_checkpoint s →
  uuid_like name = false ∨ ls_checkpoints s !! (v, name) = None →
  checkpoint_ok log hist s v f → sidecars_listed (with_checkpoint s v name f hint) v f →
  store_ok log hist b (with_checkpoint s v name f hint).
Proof.
  intros Hok Hv Hhint Hname Hcp Hls. pose proof (so_base_le _ _ _ _ Hok) as Hb.
  pose proof (with_checkpoint_at s v name f hint) as Hat.
  destruct Hok as [H1 H2 H3 H4 H5 H6 H7 H8 H9]. split; try done.
  - naive_solver.
  - intros h Hh. cbn [with_checkpoint ls_last_checkpoint] in Hh. destruct Hhint as [->| ->].
    + simplify_eq. split; [lia|]. left. exists name, f. apply lookup_insert_eq.
    + destruct (H8 h Hh) as [? [?|?]]; auto.
  - intros w n g Hg. cbn [with_checkpoint ls_checkpoints] in Hg.
    apply lookup_insert_Some in Hg as [[[= <- <-] <-]|[Hne Hg]].
    + split_and!; [lia..| |done]. by apply (checkpoint_ok_weaken _ _ s).
    + destruct (H9 w n g Hg) as (? & ? & Hl). split_and!; [lia..| |].
      { by apply (checkpoint_ok_weaken _ _ s). }
      intros rs x Hr Hx. destruct (Hl rs x Hr Hx) as (? & n' & g' & Hg' & Hu & Hc).
      split; [done|]. exists n', g'. split; [|done]. cbn [with_checkpoint ls_checkpoints].
      rewrite lookup_insert_ne; [done|]. intros [= <- <-]. destruct Hname; congruence.
Qed.

(** What is read from the files agrees with the state that was written. *)
Lemma recorded_sound log hist v now st p m c sc :
  agrees (losses log ((v, now) :: hist) v) st (state_before log (v + 1)) →
  rs_protocol st = Some p → rs_metadata st = Some m →
  (∀ k a, rs_adds st !! k = Some a → restates m c (add_stats a)) →
  agrees (losses log ((v, now) :: hist) v) (recorded p m c st sc) (state_before log (v + 1)).
Proof.
  intros Hag Hp Hm Ha. eapply agrees_trans; [|done]. apply restate_adds_agree; try done.
  pose proof (ag_metadata _ _ _ Hag) as E. rewrite Hm in E.
  intros x y Hxy. simpl. eauto using checkpointed_now.
Qed.

Lemma write_v1_store_ok log hist b s v st env :
  store_ok log hist b s → (b ≤ v < Z.of_nat (length log))%Z →
  agrees (losses log ((v, ce_now env) :: hist) v) st (state_before log (v + 1)) →
  let r := write_v1_checkpoint s v st env in
  store_ok log (checkpoint_history hist v (ce_now env) r.1) b r.2.
Proof.
  intros Hok Hv Hag. unfold write_v1_checkpoint.
  destruct (protocol_and_metadata st) as [[p m]|] eqn:E; [|done].
  apply protocol_and_metadata_Ok in E as [Hp Hm].
  destruct (augmentation_from_metadata m) as [c|] eqn:Ec; [|done].
  cbn [mbind Result_bind].
  destruct (write_batches c _) as [stored|] eqn:Ew; [|done].
  destruct (write_rows_decodes _ _ _ _ _ Ec Ew) as [Ed HF].
  apply with_checkpoint_store_ok; [|done|by left|by left|..].
  - eapply store_ok_mono; [|done]. set_solver.
  - eexists. rewrite read_rows, Ed, omap_sidecar_restate, checkpoint_rows_sidecars.
    split; [done|]. rewrite app_nil_r, apply_checkpoint_rows
      by (eapply agrees_wf; [done|apply table_state_wf]).
    apply recorded_sound; [done..|]. apply (rows_restate _ _ _ _ (btree_values key_le (rs_adds st)) HF);
      [|apply btree_values_perm]. unfold checkpoint_rows. intros row Hrow.
    rewrite !elem_of_app. auto.
  - intros rows x [= <-]. rewrite Ed, omap_sidecar_restate, checkpoint_rows_sidecars.
    by intros ?%elem_of_nil.
Qed.

(** A sidecar that was written is read back. *)
Lemma write_sidecar_Ok s m c st env s' x :
  augmentation_from_metadata m = Ok c → write_sidecar s c st env = Ok (s', x) →
  read_sidecars s' (option_list x) = Ok (restate_row c <$> sidecar_rows st) ∧
  (∀ k a, rs_adds st !! k = Some a → restates m c (add_stats a)) ∧
  ls_checkpoints s' = ls_checkpoints s ∧
  (∀ y, x = Some y → sc_path y = ce_sidecar_uuid env +:+ ".parquet") ∧
  (s' = s ∨ ∃ rows, s' = put_sidecar s
     (sidecar_file_path (ce_sidecar_uuid env +:+ ".parquet")) rows (ce_now env)).
Proof.
  intros Hc. unfold write_sidecar. destruct (write_batches c _) as [stored|] eqn:Ew; [|done].
  destruct (write_rows_decodes _ _ _ _ _ Hc Ew) as [Ed HF]. assert (∀ k a, rs_adds st !! k = Some a → restates m c (add_stats a)) as Ha.
  { apply (rows_restate _ _ _ _ (map_values (rs_adds st)) HF); [|apply map_values_perm].
    unfold sidecar_rows. intros row Hrow. rewrite elem_of_app. auto. }
  rewrite <-Ed. simpl. destruct stored as [|row stored]; intros [= <- <-].
  { split_and!; [done..|by left]. }
  split_and!; [|done|done|by intros y [= <-]|right; eauto].
  change (option_list (Some ?x)) with [x]. cbn [read_sidecars sc_path]. unfold put_sidecar.
  cbn [ls_sidecars]. rewrite lookup_insert_eq. cbn [file_content mbind Result_bind].
  by rewrite app_nil_r.
Qed.

Lemma write_v2_store_ok log hist b s v st env :
  store_ok log hist b s → (b ≤ v < Z.of_nat (length log))%Z → env_fresh s v env →
  agrees (losses log ((v, ce_now env) :: hist) v) st (state_before log (v + 1)) →
  let r := write_v2_checkpoint s v st env in
  store_ok log (checkpoint_history hist v (ce_now env) r.1) b r.2.
Proof.
  intros Hok Hv Hfr Hag. unfold write_v2_checkpoint.
  destruct (protocol_and_metadata st) as [[p m]|] eqn:E; [|done].
  apply protocol_and_metadata_Ok in E as [Hp Hm].
  destruct (augmentation_from_metadata m) as [c|] eqn:Ec; [|done].
  destruct (write_sidecar s c st env) as [[s' x]|] eqn:Es; [|done].
  destruct (write_sidecar_Ok _ _ _ _ _ _ _ Ec Es) as (Hread & Hst & Hcps & Hpath & Hs').
  assert (store_ok log hist b s') as Hok'.
  { destruct Hs' as [->|[rows ->]]; [done|]. apply put_sidecar_store_ok; [done|apply Hfr]. }
  destruct (write_batches c [_]) as [stored|] eqn:Ew; [|done].
  destruct (write_batches_decodes _ _ _ _ Ec Ew) as [Ed _]. cbn [concat] in Ed. rewrite app_nil_r in Ed.
  apply with_checkpoint_store_ok; [|done|by left|right; rewrite Hcps; apply Hfr|..].
  - eapply store_ok_mono; [|done]. set_solver.
  - eexists. rewrite read_rows, Ed, omap_sidecar_restate, main_rows_sidecars, Hread.
    split; [done|]. rewrite apply_main_rows by (eapply agrees_wf; [done|apply table_state_wf]).
    by apply recorded_sound.
  - intros rows y [= <-]. rewrite Ed, omap_sidecar_restate, main_rows_sidecars.
    destruct x as [x|]; [|by intros ?%elem_of_nil]. intros ->%list_elem_of_singleton.
    rewrite (Hpath x eq_refl). split; [apply sidecar_file_path_name, Hfr|].
    eexists _, _. cbn [with_checkpoint ls_checkpoints]. rewrite lookup_insert_eq.
    split_and!; [done|apply uuid_like_name, Hfr|done].
Qed.

Lemma create_checkpoint_store_ok log hist b s v env :
  store_ok log hist b s → env_fresh s v env →
  let r := create_checkpoint s v env in
  store_ok log (checkpoint_history hist v (ce_now env) r.1) b r.2.
Proof.
  intros Hok Hfr. unfold create_checkpoint.
  destruct (Z.ltb_spec v 0); [done|]. destruct (checkpoint_state _ _ _) as [st|] eqn:E; [|done].
  apply (checkpoint_state_sound log hist b) in E as [Hag Hv]; [|done|lia].
  case_match; [by apply write_v2_store_ok|by apply write_v1_store_ok].
Qed.

(** ** Clean-up *)
Lemma observe_commits_checkpoints s cutoff latest ts p m b0 l b1 :
  observe_commits s cutoff latest ts p m b0 l = Ok b1 →
  rb_checkpoint_versions b1 = rb_checkpoint_versions b0.
Proof.
  revert b0. induction l as [|v l IH]; intros b0; simpl; [naive_solver|].
  destruct (resolve_version_timestamp _ _ _ _ _); [|done]. intros ->%IH.
  unfold observe_commit. by case_match.
Qed.

Lemma find_retention_checkpoint_at s latest cutoff ts p m c :
  find_retention_checkpoint_version s latest cutoff ts p m = Ok (Some c) → checkpoint_at s c.
Proof.
  unfold find_retention_checkpoint_version. destruct (observe_commits _ _ _ _ _ _ _ _) as [b1|] eqn:E;
    [|done]. apply observe_commits_checkpoints in E. simpl. unfold retention_checkpoint_version.
  destruct (rb_cutoff_commit_version b1) as [w|]; [|done]. simpl. intros [= Hm].
  pose proof (max_version_spec (filter (λ v, (v <=? w)%Z = true)
    (elements (rb_checkpoint_versions b1)))) as Hs.
  rewrite Hm in Hs. destruct Hs as [[_ Hc]%list_elem_of_filter _].
  rewrite E in Hc. simpl in Hc. apply elem_of_elements, elem_of_list_to_set in Hc.
  apply list_elem_of_filter in Hc as [_ Hc].
  rewrite <-list_fmap_compose in Hc. apply list_elem_of_fmap in Hc as ([[v name] f] & -> & Hf).
  exists name, f. by apply hash_items_elem.
Qed.

Lemma ensure_classic_store_ok log hist b s v now :
  store_ok log hist b s → store_ok log hist b (ensure_v2_compat_classic_checkpoint s v now).
Proof.
  intros Hok. unfold ensure_v2_compat_classic_checkpoint.
  destruct (ls_checkpoints s !! (v, "parquet")) eqn:Ec; [done|].
  destruct (head _) as [[[w name] f]|] eqn:E; [|done].
  apply head_Some_elem_of, list_elem_of_filter in E as [E Hin%hash_items_elem]. simpl in E.
  apply andb_true_iff in E as [->%Z.eqb_eq Hu].
  destruct (so_checkpoints _ _ _ _ Hok _ _ _ Hin) as (Hv & Hcp & Hls).
  apply with_checkpoint_store_ok; [done|done|by right|by left|..].
  - destruct Hcp as (rows & Hr & Hag). exists rows. split; [|done]. exact Hr.
  - intros rows x Hr Hx. destruct (Hls rows x Hr Hx) as (? & n & g & Hg & Hun & Hc).
    split; [done|]. exists n, g. split; [|done]. cbn [with_checkpoint ls_checkpoints].
    rewrite lookup_insert_ne; [done|]. intros [= <-]. congruence.
Qed.

Lemma delete_logs_store_ok log hist b s c :
  store_ok log hist b s → checkpoint_at s c →
  store_ok log hist c (delete_logs_before_checkpoint_version s c).
Proof.
  intros Hok Hc. pose proof Hc as (name & f & Hf).
  pose proof (so_base_le _ _ _ _ Hok) as Hb. destruct Hok as [H1 H2 H3 H4 H5 H6 H7 H8 H9].
  assert (∀ w, (c ≤ w)%Z → checkpoint_at s w →
    checkpoint_at (delete_logs_before_checkpoint_version s c) w) as Hat.
  { intros w Hw (n & g & Hg). exists n, g. apply map_lookup_filter_Some. split; [done|]. simpl. lia. }
  destruct (H9 _ _ _ Hf) as (Hcb & _ & _). split; try done.
  - cbn. rewrite H4. apply map_filter_empty.
  - intros v g [Hg Hv]%map_lookup_filter_Some. split; [simpl in Hv; lia|]. by apply H5.
  - intros v Hv. destruct (H6 v) as [g Hg]; [lia|]. exists g. apply map_lookup_filter_Some.
    split; [done|]. simpl. lia.
  - destruct (decide (c = 0%Z)) as [->|]; [by left|right]. split; [lia|]. by apply Hat.
  - intros h Hh. destruct (H8 h Hh) as [Hl Hor]. split; [done|].
    destruct (Z.le_gt_cases c h); [|right; lia]. left. apply Hat; [done|].
    destruct Hor as [?|?]; [done|lia].
  - intros v n g [Hg Hv]%map_lookup_filter_Some. simpl in Hv.
    destruct (H9 _ _ _ Hg) as (Hl & Hcp & Hls). split_and!; [lia..| |].
    + by apply (checkpoint_ok_weaken _ _ s).
    + intros rows x Hr Hx. destruct (Hls rows x Hr Hx) as (? & n' & g' & Hg' & ?).
      split; [done|]. exists n', g'. split; [|done]. apply map_lookup_filter_Some. done.
Qed.

Lemma read_main_rows_content f g :
  file_content f = file_content g → read_checkpoint_main_rows f = read_checkpoint_main_rows g.
Proof. unfold read_checkpoint_main_rows. by intros ->. Qed.

Lemma referenced_sidecars_elem s v name f rows x :
  ls_checkpoints s !! (v, name) = Some f → uuid_like name = true →
  read_checkpoint_main_rows f = Ok rows → x ∈ omap row_sidecar rows →
  sc_path x ∈ referenced_sidecars s.
Proof.
  intros Hf Hu Hr Hx. unfold referenced_sidecars. apply elem_of_list_to_set, list_elem_of_bind.
  exists (v, name, f). simpl. rewrite Hu, Hr. split; [by apply list_elem_of_fmap_2|].
  by apply hash_items_elem.
Qed.

Lemma cleanup_sidecars_store_ok log hist b s now :
  store_ok log hist b s → store_ok log hist b (cleanup_orphaned_sidecars s now).
Proof.
  intros [H1 H2 H3 H4 H5 H6 H7 H8 H9]. split; try done. intros v name f Hf.
  destruct (H9 _ _ _ Hf) as (Hl & Hcp & Hls). split_and!; [lia..| |done].
  apply (checkpoint_ok_weaken _ _ s); [|done]. intros rows x g Hr Hx Hg.
  destruct (Hls rows x Hr Hx) as (Hn & n & f' & Hf' & Hu & Hc).
  apply map_lookup_filter_Some. split; [done|]. cbn [fst snd]. rewrite Hn.
  rewrite bool_decide_eq_true_2; [done|].
  eapply referenced_sidecars_elem; [done|done| |done]. by rewrite (read_main_rows_content _ _ Hc).
Qed.

Lemma cleanup_store_ok log hist b s latest cutoff now ts p m :
  store_ok log hist b s →
  ∃ b', store_ok log hist b' (cleanup_expired_delta_log_files s latest cutoff now ts p m).2.
Proof.
  intros Hok. unfold cleanup_expired_delta_log_files.
  destruct (find_retention_checkpoint_version _ _ _ _ _ _) as [[c|]|] eqn:E; [|by exists b..].
  exists c. apply cleanup_sidecars_store_ok. eapply delete_logs_store_ok.
  - by apply ensure_classic_store_ok.
  - apply find_retention_checkpoint_at in E. unfold ensure_v2_compat_classic_checkpoint.
    case_match; [done|]. case_match; [|done]. destruct p0. by apply with_checkpoint_at.
Qed.

(** ** Every reachable directory is good *)
Lemma reachable_store_ok log hist s : log_reachable log hist s → ∃ b, store_ok log hist b s.
Proof.
  induction 1 as [|log hist s a now _ [b Hb] Hf|log hist s v env _ [b Hb] Hf
    |log hist s cs _ [b [H1 H2 H3 H4 H5 H6 H7 H8 H9]]|log hist s latest cutoff now ts p m _ [b Hb]].
  - exists 0%Z. apply store_ok_new.
  - exists b. by apply commit_store_ok.
  - exists b. by apply create_checkpoint_store_ok.
  - exists b. split; try done. intros v name f Hf. destruct (H9 _ _ _ Hf) as (? & ? & ?).
    split_and!; [lia..| |done]. by apply (checkpoint_ok_weaken _ _ s).
  - by eapply cleanup_store_ok.
Qed.
End system.
