(* ===== verification/DeltaTheorems.v ===== *)
(** * The Delta log: what loading a table gives

    Properties of the directories that commits, checkpoints, checksums and the
    clean-up lead to. *)

From Stdlib Require Import Ascii String.
From S2P Require Import Prelude Collections CatalogNames DeltaSpec DeltaProperties DeltaLog DeltaSegment DeltaCheckpoint DeltaLogFacts DeltaCheckpointFacts DeltaStoreSystem.

Section theorems.
Context `{DE : DeltaEngine} `{HO : HashOrder}.
Implicit Types (s : LogStore) (log : list (list Action)).

(** [r] shows the state [ref] of a log: the same header and domains, the same files
    but for the statistics that may stand for others, and all application
    transactions and tombstones but those that may be missing. *)
Record shows (L : Losses) (v : Z) (r : ReplayedTableState) (ref : ReconciledCheckpointState)
    : Prop := {
  sh_version : rt_version r = v;
  sh_protocol : rs_protocol ref = Some (rt_protocol r);
  sh_metadata : rs_metadata ref = Some (rt_metadata r);
  sh_domains : rt_domain_metadata r = btree_values String.leb (rs_domain_metadata ref);
  sh_adds : ∃ adds, restated_map (lo_stats L) adds (rs_adds ref) ∧
    rt_adds r = btree_values key_le adds;
  sh_txns : pruned (lo_txn L) (rt_txns r) (rs_txns ref);
  sh_removes : ∃ removes, pruned (lo_remove L) removes (rs_removes ref) ∧
    rt_removes r = btree_values key_le removes
}.

Lemma replayed_state_shows L v st ts r ref :
  agrees L st ref → replayed_state v st ts = Ok r → shows L v r ref.
Proof.
  intros []. unfold replayed_state. do 2 (case_match; [|done]). intros [= <-].
  split; simpl; try congruence; eauto.
Qed.

Lemma load_sound log hist s v r :
  log_reachable log hist s → load_replayed_table_state s v = Ok r →
  (0 ≤ v < Z.of_nat (length log))%Z ∧ shows (losses log hist v) v r (state_before log (v + 1)).
Proof.
  intros [b Hok]%reachable_store_ok. unfold load_replayed_table_state.
  destruct (Z.ltb_spec v 0); [done|].
  destruct (resolve_for_full_state s v) as [g|] eqn:Eg; [|done]. simpl.
  destruct (replay_segment s g) as [q|] eqn:Eq; [|done]. simpl.
  eapply replay_segment_sound in Eq as (-> & Hag & Hlt); [|done|done|done].
  intros Hr. split; [lia|]. by eapply replayed_state_shows.
Qed.

(** No table up to version [v] has turned statistics as JSON off. *)
Definition keeps_stats log (v : Z) : Prop :=
  ∀ w m, (w ≤ v)%Z → rs_metadata (state_before log (w + 1)) = Some m → stats_as_json m = true.
Lemma kept_stats log hist v adds adds' :
  keeps_stats log v → restated_map (lo_stats (losses log hist v)) adds adds' → adds = adds'.
Proof.
  intros Hk Hm. apply map_eq. intros k.
  destruct (Hm k) as [a a' (x & Hx & ->)|]; [|done]. f_equal.
  inv Hx as [|? y ? (now & m & (w & _ & Hw & Hmd) & Hj & _) _]; [by destruct a'|].
  by rewrite (Hk w m Hw Hmd) in Hj.
Qed.

(** C3. Loading is sound: whatever version is asked of a directory that commits,
    checkpoints with or without sidecars, checksums and clean-ups have led to,
    and whichever checkpoint and commit files serve the request, a state that is
    returned is the state of the log at that version.  Of its transactions and
    tombstones only those may be missing that had outlived, when a checkpoint of
    that version or of one before it was written, the retention of the table of
    the checkpoint; and the statistics of a file may only have been dropped or
    restated by such a checkpoint of a table that has turned them off as JSON, so
    that the files are those of the log where no table up to the version has. *)
Theorem load_table_state_sound log hist s v r :
  log_reachable log hist s → load_replayed_table_state s v = Ok r →
  (0 ≤ v < Z.of_nat (length log))%Z ∧ shows (losses log hist v) v r (state_before log (v + 1)) ∧
  (keeps_stats log v → rt_adds r = btree_values key_le (rs_adds (state_before log (v + 1)))).
Proof.
  intros Hr Hl. destruct (load_sound _ _ _ _ _ Hr Hl) as [Hv Hs]. split_and!; [lia..|done|].
  intros Hk. destruct (sh_adds _ _ _ _ Hs) as (adds & Hadds & ->).
  by rewrite (kept_stats _ _ _ _ _ Hk Hadds).
Qed.

(** A version can be served: the log starts with it or before it. *)
Definition has_start s (v : Z) : Prop :=
  is_Some (ls_commits s !! 0%Z) ∨ ∃ c, checkpoint_at s c ∧ (c ≤ v)%Z.

Lemma load_complete log hist b s v :
  store_ok log hist b s → (∀ h, ls_last_checkpoint s = Some h → (h ≤ v)%Z) →
  (b ≤ v < Z.of_nat (length log))%Z → ∃ r, load_replayed_table_state s v = Ok r.
Proof.
  intros Hok Hh Hv. pose proof (so_base_le _ _ _ _ Hok).
  destruct (replay_segment_complete _ _ _ _ Hok v Hh Hv) as (g & q & Eg & Eq).
  unfold load_replayed_table_state. destruct (Z.ltb_spec v 0); [lia|]. rewrite Eg. simpl.
  rewrite Eq. simpl.
  apply (replay_segment_sound _ _ _ _ Hok v) in Eq as (_ & Hag & _); [|lia|done].
  assert (has_header q.1) as [[p Hp] [m Hm]].
  { eapply agrees_header; [done|]. apply (state_before_header _ 1); [lia|].
    apply (so_header _ _ _ _ Hok). intros ->. simpl in Hv. lia. }
  unfold replayed_state. rewrite Hp, Hm. eauto.
Qed.

(** Loading does not fail for the versions from the hint on: the hint of the last
    checkpoint, the clean-up and the collection of sidecars leave every such
    version readable that the oldest files still reach. *)
Theorem load_table_state_complete log hist s v :
  log_reachable log hist s → (0 ≤ v < Z.of_nat (length log))%Z → has_start s v →
  (∀ h, ls_last_checkpoint s = Some h → (h ≤ v)%Z) →
  ∃ r, load_replayed_table_state s v = Ok r.
Proof.
  intros [b Hok]%reachable_store_ok Hv Hst Hh. eapply load_complete; [done|done|].
  split; [|lia]. destruct Hst as [[f Hf]|(c & (name & f & Hf) & Hc)].
  - apply (so_commits _ _ _ _ Hok) in Hf as [? _]. lia.
  - apply (so_checkpoints _ _ _ _ Hok) in Hf as [? _]. lia.
Qed.

Lemma latest_version_ok log hist b s :
  store_ok log hist b s → log ≠ [] →
  get_latest_version s 0 = Ok (Z.of_nat (length log) - 1)%Z.
Proof.
  intros Hok Hne. pose proof (so_base_le _ _ _ _ Hok). pose proof (so_len _ _ _ _ Hok).
  assert (0 < length log) by (destruct log; [done|simpl; lia]).
  unfold get_latest_version, latest_version_from_listing.
  set (offset := match ls_last_checkpoint s with Some v => pred_i64 v | None => 0%Z end).
  assert (offset < Z.of_nat (length log))%Z as Ho.
  { unfold offset. destruct (ls_last_checkpoint s) as [h|] eqn:E; [|lia].
    apply (so_hint _ _ _ _ Hok) in E as [? _]. rewrite pred_i64_id; lia. }
  set (l := _ ++ _). assert (Z.of_nat (length log) - 1 ∈ l)%Z as Hin.
  { apply elem_of_app. left. destruct (so_present _ _ _ _ Hok (Z.of_nat (length log) - 1)) as [f Hf].
    - destruct (so_base _ _ _ _ Hok) as [->|[_ (n & g & Hg)]]; [lia|].
      apply (so_checkpoints _ _ _ _ Hok) in Hg as [? _]. lia.
    - apply list_elem_of_fmap. exists (Z.of_nat (length log) - 1, f)%Z. split; [done|].
      apply list_elem_of_filter. split; [simpl; lia|]. by apply hash_items_elem. }
  destruct (max_version_is_Some _ _ Hin) as (m & Hm & Hle). rewrite Hm.
  pose proof (max_version_spec l) as Hs. rewrite Hm in Hs. destruct Hs as [Hml _].
  assert (m < Z.of_nat (length log))%Z as Hlt.
  { unfold l, list_compactions in Hml. rewrite (so_compactions _ _ _ _ Hok), hash_items_empty in Hml.
    rewrite !elem_of_app in Hml. destruct Hml as [Hml|[Hml|Hml%elem_of_nil]]; [..|done].
    - apply list_elem_of_fmap in Hml as ([w f] & -> & [_ Hf%hash_items_elem]%list_elem_of_filter).
      apply (so_commits _ _ _ _ Hok) in Hf as (_ & a & Ha%commit_at_bounds & _). simpl. lia.
    - rewrite <-list_fmap_compose in Hml.
      apply list_elem_of_fmap in Hml as ([[w n] f] & -> & [_ Hf%hash_items_elem]%list_elem_of_filter).
      apply (so_checkpoints _ _ _ _ Hok) in Hf as [? _]. simpl. lia. }
  replace m with (Z.of_nat (length log) - 1)%Z by lia.
  destruct (Z.leb_spec (Z.max 0 0) (Z.of_nat (length log) - 1)); [done|lia].
Qed.

Lemma latest_loads log hist s :
  log_reachable log hist s → log ≠ [] →
  ∃ r, load_replayed_table_state s (Z.of_nat (length log) - 1) = Ok r ∧
       shows (losses log hist (Z.of_nat (length log) - 1)) (Z.of_nat (length log) - 1) r
         (table_state log).
Proof.
  intros Hr Hne. destruct (reachable_store_ok _ _ _ Hr) as [b Hok].
  assert (0 < length log) by (destruct log; [done|simpl; lia]).
  destruct (load_complete _ _ _ _ (Z.of_nat (length log) - 1)%Z Hok) as [r Er].
  - intros h Hh. apply (so_hint _ _ _ _ Hok) in Hh as [? _]. lia.
  - split; [|lia]. destruct (so_base _ _ _ _ Hok) as [->|[_ (n & g & Hg)]]; [lia|].
    apply (so_checkpoints _ _ _ _ Hok) in Hg as [? _]. lia.
  - exists r. split; [done|]. destruct (load_sound _ _ _ _ _ Hr Er) as [_ Hs].
    replace (table_state log) with (state_before log (Z.of_nat (length log) - 1 + 1)); [done|].
    unfold state_before. rewrite firstn_all2; [done|lia].
Qed.

(** The latest version of a table is found and loads after any history of
    commits, checkpoints and clean-ups. *)
Theorem latest_version_loads log hist s :
  log_reachable log hist s → log ≠ [] →
  get_latest_version s 0 = Ok (Z.of_nat (length log) - 1)%Z ∧
  ∃ r, load_replayed_table_state s (Z.of_nat (length log) - 1) = Ok r ∧
       shows (losses log hist (Z.of_nat (length log) - 1)) (Z.of_nat (length log) - 1) r
         (table_state log).
Proof.
  intros Hr Hne. split; [|by apply latest_loads].
  destruct (reachable_store_ok _ _ _ Hr) as [b Hok]. by eapply latest_version_ok.
Qed.

(** Time travel behind the hint fails although every file it needs may be there: a
    version [v] of at least 2, earlier than the last checkpoint, is not loaded
    unless a checkpoint of [v - 1] or [v] exists, because the listing starts at
    [v - 1] whatever checkpoints and commits precede it. *)
Theorem time_travel_before_hint_fails log hist s v h :
  log_reachable log hist s → ls_last_checkpoint s = Some h → (2 ≤ v < h)%Z →
  is_Some (ls_commits s !! (v - 1)%Z) → is_Some (ls_commits s !! v) →
  (∀ c, checkpoint_at s c → c ≠ v ∧ c ≠ (v - 1)%Z) →
  load_replayed_table_state s v = Err (gap_error 0 (v - 1)).
Proof.
  intros [b Hok]%reachable_store_ok Hh Hv Hc1 Hc2 Hno.
  pose proof (so_len _ _ _ _ Hok). destruct (so_hint _ _ _ _ Hok h Hh) as [Hhl _].
  unfold load_replayed_table_state. destruct (Z.ltb_spec v 0); [lia|].
  unfold resolve_for_full_state. rewrite (segment_files_ok _ _ _ _ Hok).
  cbn [list_log_files lf_checkpoint].
  assert (hint_offset s v = (v - 1)%Z) as ->.
  { unfold hint_offset. rewrite Hh, pred_i64_id; lia. }
  destruct (latest_checkpoint _) as [[c f]|] eqn:E.
  { apply latest_checkpoint_elem in E as [name [Hf Hr]%list_checkpoints_elem].
    destruct (Hno c); [by exists name, f|lia]. }
  cbn [start_after].
  assert (filter (λ x, in_range 0 v x = true)
    (sort_by_key fst (upto fst v (list_commits s (v - 1)))) =
    filter (λ x, in_range (v - 1) v x = true)
    (sort_by_key fst (upto fst v (list_commits s (v - 1))))) as ->.
  { rewrite !list_filter_all; [done|..]; intros [w f] [_ Hw]%list_commits_elem;
      unfold in_range; simpl; lia. }
  rewrite list_commits_range.
  2:{ lia. } 2:{ intros w Hw. assert (w = (v - 1)%Z ∨ w = v) as [->| ->] by lia; done. }
  rewrite seqZ_cons by lia. rewrite fmap_cons.
  unfold validate_commit_contiguity_with_compactions, validate_commit_contiguity.
  destruct (Z.ltb_spec v 0); [lia|]. cbn [contiguous_commits].
  replace ((v - 1 <? 0) || (v <? v - 1))%Z with false by lia.
  destruct (Z.eqb_spec (v - 1) 0); [lia|]. done.
Qed.
End theorems.
