(* ===== verification/DeltaCommitTheorems.v ===== *)
(** * Attempts of a commit and the log

    What an attempt that is ready to write knows of the log, and what its actions
    are. *)

From Stdlib Require Import Ascii String.
From S2P Require Import Prelude Collections CatalogNames DeltaSpec DeltaProperties DeltaLog DeltaSegment DeltaSnapshot DeltaCheckpoint DeltaTransaction DeltaLogFacts DeltaCheckpointFacts DeltaStoreSystem DeltaTheorems.
Section commit.
Context `{DE : DeltaEngine} `{HO : HashOrder}.
Implicit Types (s : LogStore) (log : list (list Action)).

(** ** Snapshots that show the log *)
Record snapshot_ok log (sn : DeltaSnapshot) : Prop := {
  so_version : (0 ≤ sn_version sn < Z.of_nat (length log))%Z;
  so_files : sn_require_files sn = true;
  so_protocol : rs_protocol (state_before log (sn_version sn + 1)) = Some (sn_protocol sn);
  so_metadata : rs_metadata (state_before log (sn_version sn + 1)) = Some (sn_metadata sn)
}.

Lemma state_before_prefix log more v :
  (v ≤ Z.of_nat (length log))%Z → state_before (log ++ more) v = state_before log v.
Proof. intros Hv. unfold state_before. rewrite take_app_le; [done|lia]. Qed.
Lemma snapshot_ok_app log more sn : snapshot_ok log sn → snapshot_ok (log ++ more) sn.
Proof.
  intros []. split; rewrite ?state_before_prefix, ?length_app by lia; try done. lia.
Qed.
Lemma commit_at_prefix log more v a :
  commit_at log v = Some a → commit_at (log ++ more) v = Some a.
Proof.
  unfold commit_at. case_match; [done|]. intros Ha. by apply lookup_app_l_Some.
Qed.

Lemma snapshot_try_new_ok log hist s v sn :
  log_reachable log hist s → snapshot_try_new s true (Some v) None = Ok sn →
  snapshot_ok log sn ∧ sn_version sn = v.
Proof.
  intros Hr. unfold snapshot_try_new. simpl.
  destruct (load_replayed_table_state s v) as [r|] eqn:El; [|done]. simpl.
  unfold from_replayed_state. destruct (parse_schema_arrow _); [|done]. intros [= <-].
  destruct (load_sound _ _ _ _ _ Hr El) as [Hv []]. split; [split|]; simpl; try done; congruence.
Qed.

Lemma snapshot_update_ok log hist s sn v sn' :
  log_reachable log hist s → snapshot_ok log sn → snapshot_update s sn v = Ok sn' →
  snapshot_ok log sn' ∧ sn_version sn' = v.
Proof.
  intros Hr Hsn. unfold snapshot_update. destruct (Z.eqb_spec v (sn_version sn)) as [->|].
  { intros [= <-]. done. }
  destruct (_ <? _)%Z; [done|]. rewrite (so_files _ _ Hsn). by eapply snapshot_try_new_ok.
Qed.

(** ** The actions of an attempt *)
Definition starts_with_info (l : list CommitAction) : Prop := ∃ i l', l = CCommitInfo i :: l'.

Lemma stamp_effective cp cm now ict l :
  resolve_effective_protocol_and_metadata cp cm (as_actions (stamp_commit_info now ict l)) =
  resolve_effective_protocol_and_metadata cp cm (as_actions l).
Proof. by destruct l as [|[] l]. Qed.

Lemma in_commit_timestamp_front i l t :
  ci_in_commit_timestamp i = Some t →
  in_commit_timestamp_from_actions (as_actions (CCommitInfo i :: l)) = Some t.
Proof. intros Hi. unfold in_commit_timestamp_from_actions, as_actions. csimpl. by rewrite Hi. Qed.

Lemma map_first_metadata_front f i l :
  map_first_metadata f (CCommitInfo i :: l) = CCommitInfo i :: map_first_metadata f l.
Proof. done. Qed.

(** An attempt is stamped, or its table does not ask for it. *)
Lemma finalize_timestamp base sn version previous now version' modified :
  starts_with_info base →
  ∃ t, resolve_commit_timestamp_from_actions version' modified (sn_protocol <$> sn)
         (sn_metadata <$> sn) (as_actions (finalize_attempt_actions base sn version previous now)) =
       Ok t.
Proof.
  intros (i & l & ->). unfold finalize_attempt_actions.
  set (eff := resolve_effective_protocol_and_metadata _ _ (as_actions (CCommitInfo i :: l))).
  set (enabled := match eff with Some _ => _ | None => _ end).
  set (t := Z.max now _). destruct enabled eqn:En.
  - set (l1 := match sn with Some _ => _ | None => _ end).
    assert (∃ l2, l1 = CCommitInfo (ci_stamp i (Some now) (Some t)) :: l2) as [l2 ->].
    { unfold l1. destruct sn as [sn|]; [|by eexists]. case_match; by eexists. }
    unfold resolve_commit_timestamp_from_actions.
    rewrite (in_commit_timestamp_front _ _ t) by done. case_match; eauto.
  - set (l1 := match sn with Some _ => _ | None => _ end).
    assert (l1 = stamp_commit_info now None (CCommitInfo i :: l)) as -> by by destruct sn.
    unfold resolve_commit_timestamp_from_actions. rewrite stamp_effective. fold eff.
    unfold enabled in En. destruct eff as [[p m]|]; [|eauto].
    unfold version_uses_in_commit_timestamps. rewrite En. eauto.
Qed.

(** The effective protocol and metadata are those of the table after the commit. *)
Lemma protocol_after st l :
  rs_protocol (foldl apply_action st l) = or_else (last_protocol l) (rs_protocol st).
Proof.
  induction l as [|a l IH] using rev_ind; [done|]. unfold last_protocol in *.
  rewrite foldl_app, omap_app, last_app. destruct a; csimpl; rewrite ?IH; done.
Qed.
Lemma metadata_after st l :
  rs_metadata (foldl apply_action st l) = or_else (last_metadata l) (rs_metadata st).
Proof.
  induction l as [|a l IH] using rev_ind; [done|]. unfold last_metadata in *.
  rewrite foldl_app, omap_app, last_app. destruct a; csimpl; rewrite ?IH; done.
Qed.
Lemma effective_after st l p m :
  resolve_effective_protocol_and_metadata (rs_protocol st) (rs_metadata st) l = Some (p, m) →
  rs_protocol (foldl apply_action st l) = Some p ∧ rs_metadata (foldl apply_action st l) = Some m.
Proof.
  rewrite protocol_after, metadata_after. unfold resolve_effective_protocol_and_metadata.
  destruct (or_else (last_protocol l) _); [|done]. destruct (or_else (last_metadata l) _); [|done].
  naive_solver.
Qed.

Lemma validate_effective sn l :
  validate_effective_commit_target sn l = Ok tt →
  ∃ p m, resolve_effective_protocol_and_metadata (sn_protocol <$> sn) (sn_metadata <$> sn)
           (as_actions l) = Some (p, m).
Proof.
  unfold validate_effective_commit_target.
  destruct (resolve_effective_protocol_and_metadata _ _ _) as [[p m]|]; eauto. done.
Qed.

(** There is a version left for another commit. *)
Definition has_room log : Prop := (Z.of_nat (length log) + 1 < i64_max)%Z.
(** An attempt that follows the whole log can be appended to it. *)
Lemma attempt_fits log sn base version previous now :
  let l := as_actions (finalize_attempt_actions base sn version previous now) in
  has_room log → starts_with_info base →
  match sn with
  | Some sn => snapshot_ok log sn ∧ (sn_version sn + 1)%Z = Z.of_nat (length log)
  | None => log = []
  end →
  validate_effective_commit_target sn (finalize_attempt_actions base sn version previous now) = Ok tt →
  commit_fits log l.
Proof.
  intros l Hlen Hb Hsn (p & m & Heff)%validate_effective.
  assert (rs_protocol (table_state log) = sn_protocol <$> sn ∧
          rs_metadata (table_state log) = sn_metadata <$> sn) as [Hp Hm].
  { destruct sn as [sn|]; [|by subst log]. destruct Hsn as [Hsn Hv].
    assert (state_before log (sn_version sn + 1) = table_state log) as <-.
    { unfold state_before. rewrite firstn_all2; [done|lia]. }
    split; [apply (so_protocol _ _ Hsn)|apply (so_metadata _ _ Hsn)]. }
  split; [done|..].
  - intros modified. rewrite Hp, Hm. by apply finalize_timestamp.
  - intros ->. rewrite <-Hp, <-Hm in Heff. apply effective_after in Heff as [H1 H2].
    split; eauto.
Qed.

(** ** Attempts *)

(** Between the steps of a commit others do what changes the directory; they leave
    room for a commit, and the commits that they add are still there. *)
Definition others_ok (E : Surroundings) : Prop :=
  ∀ n log hist s, log_reachable log hist s → has_room log →
    ∃ more hist', log_reachable (log ++ more) hist' (su_others E n s) ∧
      has_room (log ++ more) ∧
      ∀ v, (Z.of_nat (length log) ≤ v < Z.of_nat (length (log ++ more)))%Z →
           is_Some (ls_commits (su_others E n s) !! v).

Definition snapshot_fits log (sn : option DeltaSnapshot) : Prop :=
  match sn with Some sn => snapshot_ok log sn | None => True end.
Lemma snapshot_fits_app log more sn : snapshot_fits log sn → snapshot_fits (log ++ more) sn.
Proof. destruct sn; [apply snapshot_ok_app|done]. Qed.

Lemma latest_version_start log hist s start :
  log_reachable log hist s → (start < Z.of_nat (length log))%Z ∨ log = [] →
  get_latest_version s start =
  match log with [] => Err DeMissingVersion | _ => Ok (Z.of_nat (length log) - 1)%Z end.
Proof.
  intros [b Hok]%reachable_store_ok Hs. destruct (decide (log = [])) as [->|Hne].
  - unfold get_latest_version, latest_version_from_listing.
    assert (ls_commits s = ∅) as Hc.
    { apply map_empty. intros v. destruct (ls_commits s !! v) eqn:E; [|done].
      apply (so_commits _ _ _ _ Hok) in E as (_ & a & Ha%commit_at_bounds & _). simpl in Ha. lia. }
    assert (ls_checkpoints s = ∅) as Hcp.
    { apply map_empty. intros [v n]. destruct (ls_checkpoints s !! (v, n)) eqn:E; [|done].
      apply (so_checkpoints _ _ _ _ Hok) in E as [? _]. simpl in *.
      pose proof (so_base_le _ _ _ _ Hok). simpl in *. lia. }
    unfold list_commits, list_checkpoints, list_compactions.
    rewrite Hc, Hcp, (so_compactions _ _ _ _ Hok), !hash_items_empty. done.
  - pose proof (latest_version_ok _ _ _ _ Hok Hne) as H. unfold get_latest_version in *.
    destruct (latest_version_from_listing s) as [v|]; [|done].
    destruct (_ <=? v)%Z eqn:E in H; [|done]. simplify_eq.
    destruct log as [|c log]; [done|]. destruct Hs as [Hs|Hs]; [|done].
    destruct (Z.leb_spec (Z.max start 0) (Z.of_nat (length (c :: log)) - 1)); [done|].
    simpl in *. lia.
Qed.

Lemma join_creation_ok pc st sn st' :
  join_creation pc st sn = Ok st' → starts_with_info (at_actions st) →
  starts_with_info (at_actions st') ∧ at_snapshot st' = at_snapshot st.
Proof.
  unfold join_creation. do 2 (destruct (negb _); [done|]).
  destruct (negb _ && _); intros [= <-]; [|done].
  intros (i & l & Hl). simpl. rewrite Hl, filter_cons_True by done. split; [|done].
  rewrite fmap_cons. simpl. by eexists _, _.
Qed.

Lemma catch_up_ok log hist s pc st st' :
  log_reachable log hist s → starts_with_info (at_actions st) →
  snapshot_fits log (at_snapshot st) →
  catch_up s pc st (Z.of_nat (length log) - 1) = Ok st' →
  starts_with_info (at_actions st') ∧
  ∃ sn, at_snapshot st' = Some sn ∧ snapshot_ok log sn ∧ (sn_version sn + 1)%Z = Z.of_nat (length log).
Proof.
  intros Hr Hinfo Hsn. unfold catch_up. set (latest := (Z.of_nat (length log) - 1)%Z).
  destruct (match at_snapshot st with Some _ => _ | None => _ end) as [sn|] eqn:Es; [|done]. simpl.
  assert (snapshot_ok log sn) as Hok.
  { destruct (at_snapshot st) as [sn0|]; [by simplify_eq|].
    by eapply snapshot_try_new_ok in Es as [? _]. }
  destruct (if creation_intent pc then _ else _) as [st1|] eqn:Ej; [|done]. simpl.
  assert (starts_with_info (at_actions st1)) as Hinfo1.
  { destruct (creation_intent pc); [by eapply join_creation_ok|by simplify_eq]. }
  pose proof (so_version _ _ Hok). destruct (Z.ltb_spec (sn_version sn) latest).
  - destruct (effective_max_retries pc); [done|].
    destruct (check_winners _ _ _ _); [|done]. simpl.
    destruct (snapshot_update s sn latest) as [sn'|] eqn:Eu; [|done]. simpl. intros [= <-].
    split; [done|]. exists sn'. split; [done|].
    eapply snapshot_update_ok in Eu as [? ->]; [|done|done]. split; [done|lia].
  - intros [= <-]. split; [done|]. exists sn. split_and!; [done|done|lia].
Qed.

(** What an attempt that is ready to write has established. *)
Lemma prepare_attempt_ok log hist s pc st now st' version actions :
  log_reachable log hist s → has_room log →
  starts_with_info (at_actions st) → snapshot_fits log (at_snapshot st) →
  prepare_attempt s pc st now = Ok (st', version, actions) →
  version = Z.of_nat (length log) ∧ commit_fits log (as_actions actions) ∧
  starts_with_info (at_actions st') ∧ snapshot_fits log (at_snapshot st').
Proof.
  intros Hr Hlen Hinfo Hsn. unfold prepare_attempt.
  rewrite (latest_version_start log hist).
  2:{ done. } 2:{ destruct (at_snapshot st) as [sn|]; [left; apply Hsn|].
    destruct log; [by right|left; simpl; lia]. }
  set (latest := match log with [] => None | _ => Some (Z.of_nat (length log) - 1)%Z end).
  assert ((match match log with [] => Err DeMissingVersion
      | _ => Ok (Z.of_nat (length log) - 1)%Z end with
    | Ok v => Ok (Some v) | Err DeMissingVersion => Ok None | Err e => Err e end
    : DeltaResult (option Z)) = Ok latest) as -> by by destruct log.
  simpl. destruct (match latest with Some v => catch_up s pc st v | None => Ok st end) as [st1|] eqn:Ec; [|done]. simpl.
  assert (starts_with_info (at_actions st1) ∧ match at_snapshot st1 with
    | Some sn => snapshot_ok log sn ∧ (sn_version sn + 1)%Z = Z.of_nat (length log)
    | None => log = [] end) as [Hinfo1 Hsn1].
  { unfold latest in Ec. destruct log as [|c log].
    - simplify_eq. split; [done|]. destruct (at_snapshot st1) as [sn|]; [|done].
      pose proof (so_version _ _ Hsn). simpl in *. lia.
    - eapply catch_up_ok in Ec as (? & sn & -> & ? & ?); done. }
  destruct (previous_effective_commit_timestamp _ _) as [previous|]; [|done]. simpl.
  destruct (validate_effective_commit_target _ _) as [[]|] eqn:Ev; [|done]. simpl.
  intros [= <- <- <-]. split_and!; [..|done|].
  - unfold latest. destruct log; [done|lia].
  - by eapply attempt_fits.
  - destruct (at_snapshot st1); [by destruct Hsn1|done].
Qed.

(** ** Conflicts *)

(** The commit [a] that came first leaves the transaction [l] as it was meant. *)
Record compatible (l : list CommitAction) (a : list Action) : Prop := {
  cm_protocol : ∀ p, p ∈ omap action_protocol a →
    head (omap action_protocol (as_actions l)) = Some p;
  cm_metadata : ∀ m, m ∈ omap action_metadata a →
    head (omap action_metadata (as_actions l)) = Some m;
  cm_domains : ∀ d d', d ∈ omap action_domain (as_actions l) → d' ∈ omap action_domain a →
    dm_domain d ≠ dm_domain d';
  cm_removes : ∀ r r', r ∈ omap action_remove (as_actions l) → r' ∈ omap action_remove a →
    rm_path r ≠ rm_path r';
  cm_app_ids : ∀ t t', t ∈ omap action_txn (as_actions l) → t' ∈ omap action_txn a →
    tx_app_id t ≠ tx_app_id t'
}.

Lemma common_None {A B} (f : A → string) (g : B → string) l k x y :
  common (f <$> l) (g <$> k) = None → x ∈ l → y ∈ k → f x ≠ g y.
Proof.
  unfold common. intros Hn%head_None Hx Hy E.
  assert (f x ∈ @nil string) as Hnil; [|by apply elem_of_nil in Hnil].
  rewrite <-Hn, elem_of_hash_order, list_elem_of_filter, elem_of_remove_dups. split.
  - rewrite E. by apply list_elem_of_fmap_2.
  - by apply list_elem_of_fmap_2.
Qed.

Lemma forallb_all {A} (P : A → Prop) `{!∀ x, Decision (P x)} l x :
  forallb (λ y, bool_decide (P y)) l = true → x ∈ l → P x.
Proof.
  intros Hl Hx. rewrite forallb_forall in Hl. apply list_elem_of_In, Hl in Hx.
  by apply bool_decide_eq_true in Hx.
Qed.

Lemma check_conflicts_compatible t w op :
  check_conflicts t w op = Ok tt → compatible (ti_actions t) (wc_actions w).
Proof.
  unfold check_conflicts.
  destruct (check_protocol_compatibility t w) as [[]|] eqn:E1; [|done]. simpl.
  destruct (check_no_metadata_updates t w) as [[]|] eqn:E2; [|done]. simpl.
  destruct (check_no_domain_metadata_conflicts t w) as [[]|] eqn:E3; [|done]. simpl.
  destruct (check_added_files t w _); [|done]. simpl.
  destruct (check_deleted_read_files t w); [|done]. simpl.
  destruct (check_deleted_deleted_files t w) as [[]|] eqn:E5; [|done]. simpl. intros E6. split.
  - intros p Hp. unfold check_protocol_compatibility in E1. destruct (List.find _ _); [done|].
    destruct (omap action_protocol (wc_actions w)) as [|q l] eqn:Eq; [by apply elem_of_nil in Hp|].
    destruct (head _) as [p'|]; [|done]. destruct (forallb _ _) eqn:Ef; [|done].
    by rewrite (forallb_all _ _ _ Ef Hp).
  - intros m Hm. unfold check_no_metadata_updates in E2.
    destruct (omap action_metadata (wc_actions w)) as [|q l] eqn:Eq; [by apply elem_of_nil in Hm|].
    destruct (head _) as [m'|]; [|done]. destruct (forallb _ _) eqn:Ef; [|done].
    by rewrite (forallb_all _ _ _ Ef Hm).
  - intros d d'. unfold check_no_domain_metadata_conflicts in E3.
    destruct (common _ _) eqn:Ec; [done|]. by apply common_None.
  - intros r r'. unfold check_deleted_deleted_files in E5.
    destruct (common _ _) eqn:Ec; [done|]. by apply common_None.
  - intros x y Hx Hy E. unfold check_app_ids in E6. destruct (common _ _) eqn:Ec; [done|].
    by destruct (common_None tx_app_id tx_app_id _ _ y x Ec Hy Hx).
Qed.

Lemma check_winners_compatible log hist s t op l v a :
  log_reachable log hist s → check_winners s t op l = Ok tt → v ∈ l →
  commit_at log v = Some a → compatible (ti_actions t) a.
Proof.
  intros [b Hok]%reachable_store_ok. induction l as [|w l IH]; [by intros _ ?%elem_of_nil|].
  cbn [check_winners]. unfold winning_new.
  destruct (ls_commits s !! w) as [f|] eqn:Ef; [|done].
  destruct (so_commits _ _ _ _ Hok _ _ Ef) as (_ & c & Hc & Hf).
  unfold get_actions. rewrite Hf. cbn [mbind Result_bind].
  destruct (check_conflicts _ _ _) as [[]|] eqn:Ek; [|done].
  intros Hl [<-|Hv]%elem_of_cons Ha; [|by apply IH].
  apply check_conflicts_compatible in Ek. simpl in Ek. by simplify_eq.
Qed.

(** ** A commit with a snapshot to start from *)

(** All commits from [base] to the snapshot of the attempt have been checked. *)
Definition checked (pc : PreparedCommit) (base : Z) log (upto : Z) : Prop :=
  ∀ v a, (base < v ≤ upto)%Z → commit_at log v = Some a →
    effective_max_retries pc ≠ 0 ∧ compatible (pc_actions pc) a.
Record attempt_ok (pc : PreparedCommit) (base : Z) log (st : AttemptState) : Prop := {
  ao_actions : at_actions st = pc_actions pc;
  ao_snapshot : ∃ sn, at_snapshot st = Some sn ∧ snapshot_ok log sn ∧
    checked pc base log (sn_version sn)
}.

Lemma attempt_ok_app pc base log more st :
  attempt_ok pc base log st → attempt_ok pc base (log ++ more) st.
Proof.
  intros [Ha (sn & Hs & Hok & Hc)]. split; [done|]. exists sn.
  split_and!; [done|by apply snapshot_ok_app|]. intros v a Hv Hat. apply (Hc v); [done|].
  pose proof (so_version _ _ Hok). destruct (commit_at_is_Some log v) as [a' Ha'].
  { pose proof (commit_at_bounds _ _ _ Hat). lia. }
  by rewrite (commit_at_prefix _ more _ _ Ha') in Hat; simplify_eq.
Qed.

Lemma catch_up_checked log hist s pc base st st' :
  log_reachable log hist s → creation_intent pc = false → attempt_ok pc base log st →
  catch_up s pc st (Z.of_nat (length log) - 1) = Ok st' →
  attempt_ok pc base log st' ∧ checked pc base log (Z.of_nat (length log) - 1).
Proof.
  intros Hr Hcr [Ha (sn & Hs & Hok & Hc)]. unfold catch_up. rewrite Hs, Hcr. simpl.
  set (latest := (Z.of_nat (length log) - 1)%Z). pose proof (so_version _ _ Hok).
  destruct (Z.ltb_spec (sn_version sn) latest) as [Hlt|Hge].
  - destruct (effective_max_retries pc) as [|n] eqn:Eu; [done|].
    destruct (check_winners _ _ _ _) as [[]|] eqn:Ew; [|done]. simpl.
    destruct (snapshot_update s sn latest) as [sn'|] eqn:Eu'; [|done]. simpl. intros [= <-].
    eapply snapshot_update_ok in Eu' as [Hok' Hv']; [|done|done].
    assert (checked pc base log latest) as Hck; [|rewrite <-Hv' in Hck at 1; split; [|by rewrite <-Hv']; split; [done|]; by exists sn'].
    intros v a Hv Hat.
    destruct (Z.le_gt_cases v (sn_version sn)); [apply (Hc v); [lia|done]|].
    split; [by rewrite Eu|]. rewrite <-Ha.
    eapply check_winners_compatible in Ew; [exact Ew|done| |exact Hat].
    unfold versions. apply elem_of_seqZ. lia.
  - intros [= <-]. replace latest with (sn_version sn) by lia.
    split; [|done]. split; [done|]. by exists sn.
Qed.

Lemma prepare_attempt_checked log hist s pc base st now st' version actions :
  log_reachable log hist s → creation_intent pc = false → attempt_ok pc base log st →
  prepare_attempt s pc st now = Ok (st', version, actions) →
  attempt_ok pc base log st' ∧ checked pc base log (Z.of_nat (length log) - 1).
Proof.
  intros Hr Hcr Hat. unfold prepare_attempt. rewrite (latest_version_start log hist).
  2:{ done. } 2:{ destruct Hat as [_ (sn & -> & Hok & _)]. left. apply (so_version _ _ Hok). }
  destruct log as [|c log].
  { destruct Hat as [_ (sn & _ & Hok & _)]. pose proof (so_version _ _ Hok). simpl in *. lia. }
  simpl. destruct (catch_up _ _ _ _) as [st1|] eqn:Ec; [|done]. simpl.
  destruct (previous_effective_commit_timestamp _ _) as [previous|]; [|done]. simpl.
  destruct (validate_effective_commit_target _ _) as [[]|] eqn:Ev; [|done]. simpl.
  intros [= <- <- <-]. by eapply catch_up_checked.
Qed.

(** ** All attempts *)
Section attempts.
Context (E : Surroundings) (HE : others_ok E) (pc : PreparedCommit).
(** What is kept from attempt to attempt, and what holds when an attempt writes. *)
Context (I Q : list (list Action) → AttemptState → Prop).
Context (I_app : ∀ log more st, I log st → I (log ++ more) st).
Context (I_prepare : ∀ log hist s st now st' version actions,
  log_reachable log hist s → has_room log → I log st →
  prepare_attempt s pc st now = Ok (st', version, actions) →
  I log st' ∧ Q log st' ∧ version = Z.of_nat (length log) ∧ commit_fits log (as_actions actions)).

Lemma commit_attempts_ok attempts k st s log hist p s' :
  log_reachable log hist s → has_room log → I log st →
  commit_attempts E pc attempts k st s = (Ok p, s') →
  ∃ between hist' st',
    log_reachable (log ++ between ++ [as_actions (po_actions p)]) hist' s' ∧
    po_version p = Z.of_nat (length (log ++ between)) ∧
    Q (log ++ between) st' ∧ po_table_data p = at_snapshot st' ∧
    k ≤ po_num_retries p < k + attempts.
Proof.
  revert k st s log hist. induction attempts as [|n IH]; intros k st s log hist Hr Hl HI; [done|].
  cbn [commit_attempts]. destruct (HE (2 * k) _ _ _ Hr Hl) as (m1 & c1 & Hr1 & Hl1 & _).
  destruct (prepare_attempt _ pc st _) as [[[st1 version] actions]|] eqn:Ep; [|done].
  apply (I_prepare _ _ _ _ _ _ _ _ Hr1 Hl1 (I_app _ _ _ HI)) in Ep as (HI1 & HQ1 & -> & Hfit).
  destruct (HE (2 * k + 1) _ _ _ Hr1 Hl1) as (m2 & c2 & Hr2 & Hl2 & Hp2).
  set (s2 := su_others E (2 * k + 1) _) in *.
  destruct (write_commit_entry s2 _ _ _) as [[[]|e] s3] eqn:Ew.
  - intros [= <- <-]. destruct m2 as [|a m2].
    + rewrite app_nil_r in Hr2, Hp2. exists m1, c2, st1. rewrite app_assoc.
      cbn [po_version po_actions po_table_data po_num_retries]. split_and!; try done; try lia.
      replace s3 with (write_commit_entry s2 (Z.of_nat (length (log ++ m1))) (as_actions actions)
        (su_now E k)).2 by by rewrite Ew.
      by apply LogCommit.
    + exfalso. destruct (Hp2 (Z.of_nat (length (log ++ m1)))) as [f Hf].
      { rewrite (length_app (log ++ m1)). simpl. lia. }
      unfold write_commit_entry in Ew. by rewrite Hf in Ew.
  - destruct e; try done. unfold write_commit_entry in Ew. case_match; [|done]. simplify_eq.
    intros Hc. destruct (IH _ _ _ _ _ Hr2 Hl2 (I_app _ _ _ HI1) Hc)
      as (between & c3 & st3 & Hr3 & Hv & HQ3 & Ht & Hk).
    rewrite <-!app_assoc in Hr3, Hv, HQ3. exists (m1 ++ m2 ++ between), c3, st3.
    rewrite <-!app_assoc. split_and!; try done; lia.
Qed.
End attempts.
End commit.

(** ** Commits to a Delta table: their place in the log

    Properties of the loop of attempts, of the check for conflicts and of what
    follows a commit, with other writers at work. *)

Section theorems.
Context `{DE : DeltaEngine} `{HO : HashOrder}.
Implicit Types (s : LogStore) (log : list (list Action)).

Lemma run_commit_attempts E pc s p s' :
  run_commit E pc s = (Ok p, s') →
  commit_attempts E pc (S (effective_max_retries pc)) 0 (attempt_start pc) s = (Ok p, s').
Proof. unfold run_commit. by destruct (match pc_table_data pc with Some _ => _ | None => _ end). Qed.

Lemma commit_appends E pc s log hist p s' :
  others_ok E → log_reachable log hist s → has_room log →
  starts_with_info (pc_actions pc) →
  snapshot_fits log (pc_table_data pc) → run_commit E pc s = (Ok p, s') →
  ∃ between hist',
    log_reachable (log ++ between ++ [as_actions (po_actions p)]) hist' s' ∧
    po_version p = Z.of_nat (length (log ++ between)) ∧
    po_num_retries p ≤ effective_max_retries pc.
Proof.
  intros HE Hr Hroom Hinfo Hsn Hc%run_commit_attempts.
  eapply (commit_attempts_ok E HE pc
    (λ log st, starts_with_info (at_actions st) ∧ snapshot_fits log (at_snapshot st)) (λ _ _, True))
    in Hc as (between & hist' & st' & Hr' & Hv & _ & _ & Hk); [|..|done|done|done].
  - exists between, hist'. split_and!; [done|done|lia].
  - intros log' more st [? ?]. split; [done|]. by apply snapshot_fits_app.
  - intros log' c' s0 st now st' v a Hr' Hl [? ?] Hp.
    eapply prepare_attempt_ok in Hp as (? & ? & ? & ?); done.
Qed.

(** C4. A commit is an atomic append: whatever other writers do between its steps, a
    commit that succeeds has put its actions right after the commits that are in
    the log by then, under the version that it reports, and the directory still
    holds the log; it took no more retries than allowed. *)
Theorem commit_appends_to_log E pc s log hist p s' :
  others_ok E → log_reachable log hist s → has_room log →
  starts_with_info (pc_actions pc) →
  snapshot_fits log (pc_table_data pc) → run_commit E pc s = (Ok p, s') →
  ∃ between hist',
    log_reachable (log ++ between ++ [as_actions (po_actions p)]) hist' s' ∧
    po_version p = Z.of_nat (length (log ++ between)) ∧
    po_num_retries p ≤ effective_max_retries pc.
Proof. apply commit_appends. Qed.

Lemma commit_attempts_checked E pc s log hist sn p s' :
  others_ok E → log_reachable log hist s → has_room log →
  starts_with_info (pc_actions pc) →
  pc_table_data pc = Some sn → snapshot_ok log sn → run_commit E pc s = (Ok p, s') →
  ∃ between hist',
    log_reachable (log ++ between ++ [as_actions (po_actions p)]) hist' s' ∧
    po_version p = Z.of_nat (length (log ++ between)) ∧
    checked pc (sn_version sn) (log ++ between) (po_version p - 1).
Proof.
  intros HE Hr Hroom Hinfo Hpc Hsn Hc%run_commit_attempts.
  assert (creation_intent pc = false) as Hcr by (unfold creation_intent; by rewrite Hpc).
  eapply (commit_attempts_ok E HE pc (λ log st, attempt_ok pc (sn_version sn) log st)
    (λ log _, checked pc (sn_version sn) log (Z.of_nat (length log) - 1)))
    in Hc as (between & hist' & st' & Hr' & Hv & HQ & Ht & _); [|..|done|done|].
  - exists between, hist'. rewrite Hv. done.
  - intros log' more st. apply attempt_ok_app.
  - intros log' c' s0 st now st' v a Hr' Hl Hat Hp.
    assert (starts_with_info (at_actions st) ∧ snapshot_fits log' (at_snapshot st)) as [? ?].
    { destruct Hat as [Ha (sn' & Hs' & Hok' & _)]. rewrite Ha, Hs'. done. }
    pose proof (prepare_attempt_ok _ _ _ _ _ _ _ _ _ Hr' Hl H H0 Hp) as (? & ? & _).
    eapply prepare_attempt_checked in Hp as [? ?]; done.
  - split; [done|]. exists sn. split_and!; [done|done|]. intros v a Hv. lia.
Qed.

Lemma header_unchanged log base n :
  (0 ≤ base)%Z → (base + Z.of_nat n < Z.of_nat (length log))%Z →
  (∀ v a, (base < v ≤ base + Z.of_nat n)%Z → commit_at log v = Some a →
     omap action_protocol a = [] ∧ omap action_metadata a = []) →
  rs_protocol (state_before log (base + 1 + Z.of_nat n)) =
    rs_protocol (state_before log (base + 1)) ∧
  rs_metadata (state_before log (base + 1 + Z.of_nat n)) =
    rs_metadata (state_before log (base + 1)).
Proof.
  intros Hb. induction n as [|n IH]; intros Hl Hno; [by rewrite Z.add_0_r|].
  destruct (commit_at_is_Some log (base + 1 + Z.of_nat n)) as [a Ha]; [lia|].
  replace (base + 1 + Z.of_nat (S n))%Z with (base + 1 + Z.of_nat n + 1)%Z by lia.
  rewrite (state_before_succ _ _ _ Ha), protocol_after, metadata_after.
  destruct (Hno (base + 1 + Z.of_nat n)%Z a) as [Hp Hm]; [lia|done|].
  unfold last_protocol, last_metadata, action_protocol, action_metadata in *. rewrite Hp, Hm.
  apply IH; [lia|]. intros v c Hv. apply Hno. lia.
Qed.

Lemma omap_nil {A B} (f : A → option B) l : (∀ x, x ∈ omap f l → False) → omap f l = [].
Proof. intros H. destruct (omap f l) as [|x k] eqn:E; [done|]. destruct (H x). left. Qed.

(** ** Commit data *)
Section data.
Context (acts : list CommitAction) (op : DeltaOperation) (am om : gmap string Json)
  (txns : list Transaction) (um : option string).
Notation data := (commit_data_new acts op am om txns um).

Lemma data_info : starts_with_info data.
Proof. by eexists _, _. Qed.
Lemma data_blind pc :
  pc_actions pc = data → current_is_blind_append pc = is_blind_append acts op.
Proof. unfold current_is_blind_append. by intros ->. Qed.

Lemma blind_data_no_header a :
  is_blind_append acts op = true → a ∈ as_actions data →
  action_protocol a = None ∧ action_metadata a = None.
Proof.
  intros Hb Ha. apply list_elem_of_fmap in Ha as (c & -> & Hc).
  apply elem_of_cons in Hc as [->|Hc]; [done|]. apply elem_of_app in Hc as [Hc|Hc].
  - apply list_elem_of_filter in Hc as [_ Hc]. unfold is_blind_append in Hb.
    destruct op as [| ? ? []| | | | | | | | | |]; try done.
    rewrite forallb_forall in Hb. apply list_elem_of_In, Hb in Hc. by destruct c.
  - apply list_elem_of_fmap in Hc as (t & -> & _). done.
Qed.
End data.

(** C5. A commit that succeeds finds the table that its transaction has read: protocol
    and metadata are those of the snapshot; whatever came in between has no
    application transaction, no domain and no removed file in common with it;
    and unless it is a blind append, nothing came in between at all. *)
Theorem commit_on_table_read E pc s log hist sn p s' acts am om txns um :
  others_ok E → log_reachable log hist s → has_room log →
  pc_table_data pc = Some sn → snapshot_ok log sn →
  pc_actions pc = commit_data_new acts (pc_operation pc) am om txns um →
  run_commit E pc s = (Ok p, s') →
  ∃ between hist', let log' := log ++ between in
    log_reachable (log' ++ [as_actions (po_actions p)]) hist' s' ∧
    po_version p = Z.of_nat (length log') ∧
    (is_blind_append acts (pc_operation pc) = false → po_version p = (sn_version sn + 1)%Z) ∧
    (∀ v a, (sn_version sn < v < po_version p)%Z → commit_at log' v = Some a →
       compatible (pc_actions pc) a) ∧
    rs_protocol (state_before log' (po_version p)) = Some (sn_protocol sn) ∧
    rs_metadata (state_before log' (po_version p)) = Some (sn_metadata sn).
Proof.
  intros HE Hr Hroom Hpc Hsn Hdata Hc.
  destruct (commit_attempts_checked E pc s log hist sn p s') as (between & hist' & Hr' & Hv & Hck);
    [done|done|done| |done|done|done|]. { rewrite Hdata. apply data_info. }
  exists between, hist'. rewrite app_assoc in Hr'. cbn zeta.
  pose proof (so_version _ _ (snapshot_ok_app _ between _ Hsn)) as Hlt.
  assert (is_blind_append acts (pc_operation pc) = false → po_version p = (sn_version sn + 1)%Z)
    as Hnb.
  { intros Hb. destruct (decide (po_version p = (sn_version sn + 1)%Z)) as [|Hne]; [done|exfalso].
    destruct (commit_at_is_Some (log ++ between) (sn_version sn + 1)) as [a Ha]; [lia|].
    destruct (Hck (sn_version sn + 1)%Z a ltac:(lia) Ha) as [He _]. apply He. unfold effective_max_retries, creation_intent.
    by rewrite Hpc, (data_blind _ _ _ _ _ _ _ Hdata), Hb. }
  assert (∀ v a, (sn_version sn < v < po_version p)%Z → commit_at (log ++ between) v = Some a →
    compatible (pc_actions pc) a) as Hcm.
  { intros v a Hv' Ha. apply (Hck v a); [lia|done]. }
  assert (∀ v a, (sn_version sn < v < po_version p)%Z → commit_at (log ++ between) v = Some a →
    omap action_protocol a = [] ∧ omap action_metadata a = []) as Hno.
  { intros v a Hv' Ha. destruct (is_blind_append acts (pc_operation pc)) eqn:Hb; [|specialize (Hnb eq_refl); lia].
    pose proof (Hcm v a Hv' Ha) as [Hcp Hcmd _ _ _].
    split; apply omap_nil; intros x Hx; [apply Hcp in Hx|apply Hcmd in Hx];
      apply head_Some_elem_of, list_elem_of_omap in Hx as (c & Hc' & Hx);
      rewrite Hdata in Hc'; destruct (blind_data_no_header _ _ _ _ _ _ _ Hb Hc'); congruence. }
  destruct (header_unchanged (log ++ between) (sn_version sn)
    (Z.to_nat (po_version p - 1 - sn_version sn))) as [Hp Hm]; [lia|lia|..].
  { intros v a Hv'. apply Hno. lia. }
  replace (sn_version sn + 1 + Z.of_nat (Z.to_nat (po_version p - 1 - sn_version sn)))%Z
    with (po_version p) in Hp, Hm by lia.
  pose proof (snapshot_ok_app _ between _ Hsn) as [_ _ Hsp Hsm].
  split_and!; congruence || done.
Qed.

(** ** The actions that are written *)
Lemma commit_attempts_actions E pc attempts k st s p s' :
  creation_intent pc = false → at_actions st = pc_actions pc → is_Some (at_snapshot st) →
  commit_attempts E pc attempts k st s = (Ok p, s') →
  ∃ sn version previous now,
    po_actions p = finalize_attempt_actions (pc_actions pc) sn version previous now.
Proof.
  intros Hcr. revert k st s. induction attempts as [|n IH]; intros k st s Ha [sn Hs]; [done|].
  cbn [commit_attempts]. destruct (prepare_attempt _ _ _ _) as [[[st1 v] l]|] eqn:Ep; [|done].
  assert (at_actions st1 = pc_actions pc ∧ is_Some (at_snapshot st1) ∧ ∃ sn version previous now,
    l = finalize_attempt_actions (pc_actions pc) sn version previous now) as (Ha1 & Hs1 & Hl).
  { revert Ep. unfold prepare_attempt.
    destruct (match get_latest_version _ _ with Ok v => _ | Err e => _ end) as [latest|]; [|done].
    cbn [mbind Result_bind].
    destruct (match latest with Some _ => _ | None => Ok st end) as [st2|] eqn:Ec; [|done].
    assert (at_actions st2 = pc_actions pc ∧ is_Some (at_snapshot st2)) as [Ha2 Hs2].
    { destruct latest as [w|]; [|simplify_eq; rewrite Hs; eauto]. revert Ec. unfold catch_up.
      rewrite Hs, Hcr. cbn [mbind Result_bind]. destruct (_ <? _)%Z; [|naive_solver].
      destruct (effective_max_retries pc); [done|]. destruct (check_winners _ _ _ _); [|done].
      cbn [mbind Result_bind]. destruct (snapshot_update _ _ _); [|done]. naive_solver. }
    cbn [mbind Result_bind]. destruct (previous_effective_commit_timestamp _ _); [|done].
    cbn [mbind Result_bind]. destruct (validate_effective_commit_target _ _); [|done].
    intros [= <- <- <-]. rewrite Ha2. naive_solver. }
  destruct (write_commit_entry _ _ _ _) as [[[]|[]] s3] eqn:Ew; try done.
  - intros [= <- <-]. exact Hl.
  - by apply IH.
Qed.

Lemma map_first_metadata_removes f l :
  omap action_remove (as_actions (map_first_metadata f l)) = omap action_remove (as_actions l).
Proof.
  induction l as [|a l IH]; [done|]. destruct a; try done; csimpl; unfold as_actions in *;
    rewrite ?fmap_cons; csimpl; by rewrite IH.
Qed.
Lemma finalize_removes base sn version previous now :
  omap action_remove (as_actions (finalize_attempt_actions base sn version previous now)) =
  omap action_remove (as_actions base).
Proof.
  assert (∀ ict, omap action_remove (as_actions (stamp_commit_info now ict base)) =
    omap action_remove (as_actions base)) as Hst by (intros; by destruct base as [|[] l]).
  unfold finalize_attempt_actions. cbn zeta. set (b := match resolve_effective_protocol_and_metadata
    _ _ _ with Some _ => _ | None => _ end). destruct sn as [sn|]; [|apply Hst].
  destruct b; [|apply Hst]. destruct (negb _); [rewrite map_first_metadata_removes|]; apply Hst.
Qed.

(** The table takes no removal of data. *)
Definition append_only_table (sn : DeltaSnapshot) : bool :=
  append_only (sn_properties sn) &&
  (if (pr_min_writer_version (sn_protocol sn) <? 7)%Z then (2 <=? pr_min_writer_version (sn_protocol sn))%Z
   else has_writer_feature (sn_protocol sn) AppendOnly).

(** C31. An append-only table loses no data: of the actions that a commit writes to it,
    other than a restore or a check of the file system, none removes data. *)
Theorem append_only_keeps_data E pc s sn p s' r :
  run_commit E pc s = (Ok p, s') → pc_table_data pc = Some sn → append_only_table sn = true →
  (∀ v d, pc_operation pc ≠ OpRestore v d) → pc_operation pc ≠ OpFileSystemCheck →
  r ∈ omap action_remove (as_actions (po_actions p)) → rm_data_change r = false.
Proof.
  intros Hc Hpc Hao Hop1 Hop2 Hr. pose proof Hc as Ha%run_commit_attempts.
  apply commit_attempts_actions in Ha as (sn' & v & previous & now & Ha);
    [|unfold creation_intent; by rewrite Hpc|done|simpl; rewrite Hpc; eauto].
  rewrite Ha, finalize_removes in Hr. revert Hc. unfold run_commit. rewrite Hpc.
  destruct (can_commit _ _ _) as [[]|] eqn:Ecan; [|done]. intros _. revert Ecan.
  unfold can_commit. destruct (can_write_to_protocol _); [|done]. cbn [mbind Result_bind].
  set (ao := if (_ <? 2)%Z then _ else _). set (ex := match pc_operation pc with OpRestore _ _ => _ | _ => _ end).
  assert (ao = true) as ->.
  { unfold append_only_table in Hao. apply andb_true_iff in Hao as [Hp Hv]. unfold ao. rewrite Hp.
    destruct (Z.ltb_spec (pr_min_writer_version (sn_protocol sn)) 2).
    - destruct (Z.ltb_spec (pr_min_writer_version (sn_protocol sn)) 7); lia.
    - destruct (_ <? 7)%Z; [done|by rewrite Hv]. }
  assert (ex = false) as -> by (unfold ex; destruct (pc_operation pc); naive_solver).
  destruct (existsb _ _) eqn:Ex; [done|]. intros _.
  apply list_elem_of_omap in Hr as (x & Hin & Hsel). destruct x; try done. simplify_eq/=.
  destruct (rm_data_change r) eqn:Ed; [|done]. exfalso.
  rewrite <-not_true_iff_false, existsb_exists in Ex. apply Ex.
  exists (ARemove r). split; [by apply list_elem_of_In|done].
Qed.

Lemma map_first_metadata_infos f l :
  omap action_commit_info (as_actions (map_first_metadata f l)) =
  omap action_commit_info (as_actions l).
Proof.
  induction l as [|a l IH]; [done|]. destruct a; try done; csimpl; unfold as_actions in *;
    rewrite ?fmap_cons; csimpl; by rewrite IH.
Qed.
Lemma finalize_front i l sn version previous now :
  ∃ ict l', finalize_attempt_actions (CCommitInfo i :: l) sn version previous now =
      CCommitInfo (ci_stamp i (Some now) ict) :: l' ∧
    omap action_commit_info (as_actions l') = omap action_commit_info (as_actions l) ∧
    ∀ t, ict = Some t →
      t = Z.max now (match previous with Some p => saturate_i64 (p + 1) | None => now end).
Proof.
  unfold finalize_attempt_actions. cbn zeta. set (b := match resolve_effective_protocol_and_metadata
    _ _ _ with Some _ => _ | None => _ end).
  destruct sn as [sn|]; destruct b; cbn [stamp_commit_info]; [destruct (negb _)|..];
    eexists _, _; (split; [reflexivity|]); (split; [|naive_solver]); try done.
  apply map_first_metadata_infos.
Qed.
Lemma in_commit_timestamp_none i l :
  ci_in_commit_timestamp i = None → omap action_commit_info (as_actions l) = [] →
  in_commit_timestamp_from_actions (as_actions (CCommitInfo i :: l)) = None.
Proof.
  intros Hi Hl. unfold in_commit_timestamp_from_actions. destruct (head _) as [t|] eqn:E; [|done].
  apply head_Some_elem_of, list_elem_of_omap in E as (a & Ha & Ht).
  apply elem_of_cons in Ha as [->|Ha]; [simpl in Ht; congruence|].
  destruct a as [| | | | | |c| | |]; try done.
  assert (c ∈ omap action_commit_info (as_actions l)) as Hc
    by (apply list_elem_of_omap; by exists (ACommitInfo c)).
  rewrite Hl in Hc. by apply elem_of_nil in Hc.
Qed.

(** Time stamps inside commits grow: the one that an attempt writes is later than
    that of the commit before it, and not earlier than the clock. *)
Theorem in_commit_timestamp_increases i l sn version previous now t :
  omap action_commit_info (as_actions l) = [] → (i64_min ≤ previous < i64_max)%Z →
  in_commit_timestamp_from_actions (as_actions
    (finalize_attempt_actions (CCommitInfo i :: l) sn version (Some previous) now)) = Some t →
  (previous < t ∧ now ≤ t)%Z.
Proof.
  intros Hl Hp. assert (saturate_i64 (previous + 1) = previous + 1)%Z as Hs
    by (unfold saturate_i64, i64_min, i64_max in *; lia).
  destruct (finalize_front i l sn version (Some previous) now) as (ict & l' & -> & Hl' & Hict).
  destruct ict as [u|].
  - rewrite (in_commit_timestamp_front _ _ u) by done. intros [= <-].
    specialize (Hict u eq_refl). simpl in Hict. rewrite Hs in Hict. lia.
  - rewrite in_commit_timestamp_none; [done|done|by rewrite Hl'].
Qed.

Lemma can_downgrade_nil actions op level :
  can_downgrade_to_snapshot_isolation actions op level = true → actions = [].
Proof.
  unfold can_downgrade_to_snapshot_isolation. destruct actions as [|a l]; [done|].
  destruct (data_changing a) eqn:E; cbn [existsb]; rewrite E; cbn [negb orb]; [|done].
  destruct (existsb _ l); [done|]. by destruct level.
Qed.

(** Snapshot isolation is never granted: the level of a check is the one that the
    table configures, against every winning commit that has an action. *)
Theorem isolation_never_downgraded t w op :
  wc_actions w ≠ [] →
  checker_isolation_level t w op = isolation_level (sn_properties (ti_read_snapshot t)).
Proof.
  intros Hw. unfold checker_isolation_level. destruct (can_downgrade_to_snapshot_isolation _ _ _) eqn:E;
    [|done]. by apply can_downgrade_nil in E.
Qed.

(** ** After the commit *)
Lemma write_checksum_reachable log hist s p now :
  log_reachable log hist s →
  log_reachable log hist (write_version_checksum_incremental s p now).
Proof.
  intros Hr. unfold write_version_checksum_incremental. destruct (negb _); [done|].
  destruct (build_incremental_checksum s p); [|done]. case_match; [done|]. by apply LogChecksums.
Qed.
Lemma write_checksum_fresh s p now version env :
  env_fresh s version env → env_fresh (write_version_checksum_incremental s p now) version env.
Proof.
  intros []. unfold write_version_checksum_incremental. destruct (negb _); [done|].
  destruct (build_incremental_checksum s p); [|done]. by case_match.
Qed.

(** The table asks for no log compaction. *)
Definition no_compaction s (version : Z) : Prop :=
  ∀ sn, snapshot_try_new s false (Some version) None = Ok sn →
    tp_log_compaction_interval (sn_properties sn) = None.

Lemma post_commit_reachable log hist s p hook env :
  log_reachable log hist s → env_fresh s (po_version p) env → no_compaction s (po_version p) →
  ∃ hist', log_reachable log hist' (post_commit s p hook env).
Proof.
  intros Hr Hfr Hno. unfold post_commit. cbn zeta.
  apply (write_checksum_reachable _ _ _ p (ce_now env)) in Hr.
  apply (write_checksum_fresh _ p (ce_now env)) in Hfr.
  set (s1 := write_version_checksum_incremental s p (ce_now env)) in *.
  destruct (snapshot_try_new s false _ None) as [sn|] eqn:Es.
  - cbn [mbind option_bind]. rewrite (Hno sn Es). cbn [mbind option_bind].
    set (will := ph_create_checkpoint hook && _).
    assert (∃ hist' created s2, (if will then match create_checkpoint s1 (po_version p) env with
        (Ok _, s) => (true, s) | (Err _, s) => (false, s) end else (false, s1)) = (created, s2) ∧
        log_reachable log hist' s2) as (hist' & created & s2 & -> & Hr2).
    { destruct will; [|by eexists _, _, _].
      pose proof (LogCheckpoint _ _ _ _ _ Hr Hfr) as Hr2.
      destruct (create_checkpoint _ _ _) as [[] s2]; by eexists _, _, _. }
    exists hist'. destruct (_ && created); [|done]. by apply LogCleanup.
  - cbn [mbind option_bind]. rewrite andb_false_r. by exists hist.
Qed.

End theorems.
