(* ===== verification/DeltaCompactionTheorems.v ===== *)
(** * Log compactions

    A compaction replaces the commits of a range by the actions that they leave.
    When it may be replayed in their place, and what goes wrong otherwise. *)

From Stdlib Require Import Ascii String.
From stdpp Require Import sorting.
From S2P Require Import Prelude Collections CatalogNames DeltaSpec DeltaProperties DeltaLog DeltaSegment DeltaCheckpoint DeltaLogFacts DeltaCheckpointFacts.
(** The state that a list of actions leads to from nothing. *)
Notation run := (foldl apply_action state_default).
Definition removes_no_domain (l : list Action) : Prop :=
  ∀ d, ADomainMetadata d ∈ l → dm_removed d = false.

(** ** Actions on top of a state

    What a list of actions does to a state is determined by the state that it
    leads to from nothing, if it removes no domain. *)
Lemma after_protocol st l :
  rs_protocol (foldl apply_action st l) = or_else (rs_protocol (run l)) (rs_protocol st).
Proof.
  induction l as [|a l IH] using rev_ind; [done|]. rewrite !foldl_app. by destruct a.
Qed.
Lemma after_metadata st l :
  rs_metadata (foldl apply_action st l) = or_else (rs_metadata (run l)) (rs_metadata st).
Proof.
  induction l as [|a l IH] using rev_ind; [done|]. rewrite !foldl_app. by destruct a.
Qed.
Lemma after_txns st l :
  rs_txns (foldl apply_action st l) = rs_txns (run l) ∪ rs_txns st.
Proof.
  induction l as [|a l IH] using rev_ind; [simpl; by rewrite (left_id_L ∅ (∪))|]. rewrite !foldl_app.
  destruct a; simpl; try done. rewrite IH. by rewrite insert_union_l.
Qed.
Lemma after_domains st l :
  removes_no_domain l →
  rs_domain_metadata (foldl apply_action st l) = rs_domain_metadata (run l) ∪ rs_domain_metadata st.
Proof.
  induction l as [|a l IH] using rev_ind; intros Hl; [simpl; by rewrite (left_id_L ∅ (∪))|].
  rewrite !foldl_app. assert (removes_no_domain l) as Hl'.
  { intros d Hd. apply Hl. set_solver. }
  destruct a as [| | | | | | |d| |]; simpl; auto. unfold merge_domain.
  rewrite (Hl d) by set_solver. by rewrite IH, insert_union_l.
Qed.

Lemma domain_kept st l k d :
  rs_domain_metadata (run l) !! k = Some d → rs_domain_metadata (foldl apply_action st l) !! k = Some d.
Proof.
  induction l as [|a l IH] using rev_ind; [simpl; by rewrite lookup_empty|].
  rewrite !foldl_app. destruct a as [| | | | | | |x| |]; simpl; try done. unfold merge_domain.
  destruct (dm_removed x), (decide (dm_domain x = k)) as [<-|Hne];
    rewrite ?lookup_delete_eq, ?lookup_insert_eq, ?lookup_delete_ne, ?lookup_insert_ne by done; done.
Qed.

(** The last action on a file decides. *)
Lemma after_adds st l k :
  rs_adds (foldl apply_action st l) !! k =
  match rs_adds (run l) !! k, rs_removes (run l) !! k with
  | Some a, _ => Some a
  | None, Some _ => None
  | None, None => rs_adds st !! k
  end.
Proof.
  induction l as [|a l IH] using rev_ind; [simpl; by rewrite !lookup_empty|]. rewrite !foldl_app.
  destruct a as [| |a|r| | | | | |]; simpl; try done.
  - destruct (decide (add_key a = k)) as [<-|Hne]; [by rewrite !lookup_insert_eq|].
    by rewrite !lookup_insert_ne, lookup_delete_ne.
  - destruct (decide (remove_key r = k)) as [<-|Hne].
    + by rewrite !lookup_delete_eq, lookup_insert_eq.
    + by rewrite !lookup_delete_ne, lookup_insert_ne.
Qed.
Lemma after_removes st l k :
  rs_removes (foldl apply_action st l) !! k =
  match rs_removes (run l) !! k, rs_adds (run l) !! k with
  | Some r, _ => Some r
  | None, Some _ => None
  | None, None => rs_removes st !! k
  end.
Proof.
  induction l as [|a l IH] using rev_ind; [simpl; by rewrite !lookup_empty|]. rewrite !foldl_app.
  destruct a as [| |a|r| | | | | |]; simpl; try done.
  - destruct (decide (add_key a = k)) as [<-|Hne].
    + by rewrite !lookup_delete_eq, lookup_insert_eq.
    + by rewrite !lookup_delete_ne, lookup_insert_ne.
  - destruct (decide (remove_key r = k)) as [<-|Hne]; [by rewrite !lookup_insert_eq|].
    by rewrite !lookup_insert_ne, lookup_delete_ne.
Qed.
Lemma after_sidecars st l : rs_sidecars (foldl apply_action st l) = rs_sidecars st.
Proof. revert st. induction l as [|a l IH]; [done|]. intros st. simpl. rewrite IH. by destruct a. Qed.

Lemma state_eq st st' :
  rs_protocol st = rs_protocol st' → rs_metadata st = rs_metadata st' →
  rs_txns st = rs_txns st' → rs_domain_metadata st = rs_domain_metadata st' →
  rs_adds st = rs_adds st' → rs_removes st = rs_removes st' → rs_sidecars st = rs_sidecars st' →
  st = st'.
Proof. destruct st, st'; simpl; intros; by subst. Qed.

Lemma same_effect st l l' :
  run l = run l' → removes_no_domain l → removes_no_domain l' →
  foldl apply_action st l = foldl apply_action st l'.
Proof.
  intros Hr Hl Hl'. apply state_eq.
  - by rewrite (after_protocol st l), (after_protocol st l'), Hr.
  - by rewrite (after_metadata st l), (after_metadata st l'), Hr.
  - by rewrite (after_txns st l), (after_txns st l'), Hr.
  - by rewrite (after_domains st l), (after_domains st l'), Hr.
  - apply map_eq. intros k. by rewrite (after_adds st l), (after_adds st l'), Hr.
  - apply map_eq. intros k. by rewrite (after_removes st l), (after_removes st l'), Hr.
  - by rewrite !after_sidecars.
Qed.

(** ** The actions of a compaction *)
Section compaction.
Context `{DE : DeltaEngine} `{HO : HashOrder}.

(** No tombstone is left out. *)
Definition keeps_removes (min_retention : Z) (st : ReconciledCheckpointState) : Prop :=
  ∀ k r t, rs_removes st !! k = Some r → rm_deletion_timestamp r = Some t → (min_retention ≤ t)%Z.

Lemma foldl_actions_rows {A} (f : A → Action) (g : A → CheckpointActionRow) st l :
  (∀ st x, apply_action st (f x) = apply_checkpoint_row st (g x)) →
  foldl apply_action st (f <$> l) = apply_rows st (g <$> l).
Proof.
  intros Hf. revert st. induction l as [|x l IH]; intros st; [done|].
  rewrite !fmap_cons. simpl. by rewrite Hf, IH.
Qed.

Lemma run_compacted st mr :
  state_wf st → rs_sidecars st = [] → keeps_removes mr st → run (compacted_actions st mr) = st.
Proof.
  intros Hwf Hsc Hkeep. pose proof Hwf as [Ht Hd Ha Hr Hk]. unfold compacted_actions.
  rewrite !list_filter_all.
  2:{ intros r [k Hr']%elem_of_sort_by%map_values_elem. destruct (rm_deletion_timestamp r) as [t|] eqn:E;
        [|done]. specialize (Hkeep k r t Hr' E). lia. }
  2:{ intros d [k Hd']%elem_of_sort_by%map_values_elem. by destruct (Hd k d Hd'). }
  rewrite !foldl_app.
  rewrite (foldl_actions_rows ATxn txn_row), (foldl_actions_rows ADomainMetadata domain_row),
    (foldl_actions_rows ARemove remove_row), (foldl_actions_rows AAdd add_row) by done.
  transitivity (apply_rows (MkState (rs_protocol st) (rs_metadata st) (rs_txns st)
    (rs_domain_metadata st) ∅ ∅ []) ((remove_row <$> sort_by (λ x y, String.leb (rm_path x) (rm_path y))
      (map_values (rs_removes st))) ++ (add_row <$> sort_by (λ x y, String.leb (add_path x) (add_path y))
      (map_values (rs_adds st))))).
  - rewrite foldl_app. do 2 f_equal.
    replace (foldl apply_action (foldl apply_action state_default (AProtocol <$> option_list (rs_protocol st)))
      (AMetadata <$> option_list (rs_metadata st))) with (MkState (rs_protocol st) (rs_metadata st) ∅ ∅ ∅ ∅ []).
    2:{ by destruct (rs_protocol st), (rs_metadata st). }
    rewrite apply_txn_rows. simpl. rewrite (insert_all_values _ _ _ Ht).
    2:{ by rewrite sort_by_perm, map_values_perm. }
    rewrite apply_domain_rows. 2:{ intros d [k Hd']%elem_of_sort_by%map_values_elem. by destruct (Hd k d Hd'). }
    simpl. rewrite (insert_all_values _ (rs_domain_metadata st)); [done| |].
    + intros k x Hx. by destruct (Hd k x Hx).
    + by rewrite sort_by_perm, map_values_perm.
  - rewrite apply_removes_then_adds with (st := st); [|done|by rewrite sort_by_perm, map_values_perm..].
    destruct st; simpl in *. by subst.
Qed.

Lemma compacted_removes_no_domain st mr : removes_no_domain (compacted_actions st mr).
Proof.
  intros d. unfold compacted_actions. rewrite !elem_of_app.
  intros [H|[H|[H|[H|[H|H]]]]]; apply list_elem_of_fmap in H as (x & Hx & Hin); try done.
  simplify_eq. by apply list_elem_of_filter in Hin as [? _].
Qed.

Lemma run_wf l : state_wf (run l).
Proof. apply apply_actions_wf. split; apply map_Forall_empty. Qed.

(** C28. A compaction can stand for its commits: replaying the actions that it holds
    gives, on top of any state, what replaying the commits themselves gives,
    provided that no commit of the range removes a domain and that no tombstone
    of the range is older than the retention time. *)
Theorem compaction_equivalent st l mr :
  removes_no_domain l → keeps_removes mr (run l) →
  foldl apply_action st (compacted_actions (run l) mr) = foldl apply_action st l.
Proof.
  intros Hl Hk. apply same_effect; [|apply compacted_removes_no_domain|done].
  apply run_compacted; [apply run_wf|by rewrite after_sidecars|done].
Qed.

Lemma elem_of_compacted_remove st mr r :
  ARemove r ∈ compacted_actions st mr → (∃ k, rs_removes st !! k = Some r) ∧
    match rm_deletion_timestamp r with Some t => (mr ≤ t)%Z | None => True end.
Proof.
  unfold compacted_actions. rewrite !elem_of_app.
  intros [H|[H|[H|[H|[H|H]]]]]; apply list_elem_of_fmap in H as (x & Hx & Hin); try done.
  simplify_eq. apply list_elem_of_filter in Hin as [Ht Hin].
  apply elem_of_sort_by, map_values_elem in Hin. split; [done|]. destruct (rm_deletion_timestamp x); lia.
Qed.
Lemma elem_of_compacted_add st mr a :
  AAdd a ∈ compacted_actions st mr → ∃ k, rs_adds st !! k = Some a.
Proof.
  unfold compacted_actions. rewrite !elem_of_app.
  intros [H|[H|[H|[H|[H|H]]]]]; apply list_elem_of_fmap in H as (x & Hx & Hin); try done.
  simplify_eq. by apply elem_of_sort_by, map_values_elem in Hin.
Qed.
Lemma elem_of_compacted_domain st mr d :
  ADomainMetadata d ∈ compacted_actions st mr → ∃ k, rs_domain_metadata st !! k = Some d.
Proof.
  unfold compacted_actions. rewrite !elem_of_app.
  intros [H|[H|[H|[H|[H|H]]]]]; apply list_elem_of_fmap in H as (x & Hx & Hin); try done.
  simplify_eq. apply list_elem_of_filter in Hin as [_ Hin]. by apply elem_of_sort_by, map_values_elem in Hin.
Qed.

(** Actions on other files and domains leave a file and a domain alone. *)
Lemma file_untouched st l k :
  (∀ a, AAdd a ∈ l → add_key a ≠ k) → (∀ r, ARemove r ∈ l → remove_key r ≠ k) →
  rs_adds (foldl apply_action st l) !! k = rs_adds st !! k.
Proof.
  revert st. induction l as [|x l IH]; intros st Ha Hr; [done|]. simpl.
  rewrite IH by (intros; (apply Ha || apply Hr); by right).
  destruct x; simpl; try done.
  - rewrite lookup_insert_ne; [done|]. apply Ha. left.
  - rewrite lookup_delete_ne; [done|]. apply Hr. left.
Qed.
Lemma domain_untouched st l k :
  (∀ d, ADomainMetadata d ∈ l → dm_domain d ≠ k) →
  rs_domain_metadata (foldl apply_action st l) !! k = rs_domain_metadata st !! k.
Proof.
  revert st. induction l as [|x l IH]; intros st Hd; [done|]. simpl.
  rewrite IH by (intros; apply Hd; by right). destruct x as [| | | | | | |d| |]; simpl; try done.
  unfold merge_domain. assert (dm_domain d ≠ k) by (apply Hd; left).
  case_match; [by rewrite lookup_delete_ne|by rewrite lookup_insert_ne].
Qed.

(** A compaction may bring back what its commits have removed: a file whose
    tombstone has expired by the time of the compaction, and every domain that
    they remove, are there again when the compaction is replayed instead of the
    commits. *)
Theorem compaction_revives st l mr :
  (∀ k a r t, rs_adds st !! k = Some a → rs_removes (run l) !! k = Some r →
     rm_deletion_timestamp r = Some t → (t < mr)%Z →
     rs_adds (foldl apply_action st (compacted_actions (run l) mr)) !! k = Some a ∧
     rs_adds (foldl apply_action st l) !! k = None) ∧
  (∀ k d, rs_domain_metadata st !! k = Some d →
     rs_domain_metadata (foldl apply_action st l) !! k = None →
     rs_domain_metadata (foldl apply_action st (compacted_actions (run l) mr)) !! k = Some d).
Proof.
  pose proof (run_wf l) as [_ Hd Ha Hr Hk]. split.
  - intros k a r t Hst Hrun Ht Hlt. split.
    + rewrite file_untouched; [done|..].
      * intros a' [k' Hk']%elem_of_compacted_add E. rewrite (Ha _ _ Hk') in E. subst k'.
        by rewrite (Hk _ _ Hrun) in Hk'.
      * intros r' [[k' Hk'] Hret]%elem_of_compacted_remove E. rewrite (Hr _ _ Hk') in E. subst k'.
        rewrite Hrun in Hk'. simplify_eq. rewrite Ht in Hret. lia.
    + by rewrite after_adds, (Hk _ _ Hrun), Hrun.
  - intros k d Hst Hl. assert (rs_domain_metadata (run l) !! k = None) as Hrun.
    { destruct (rs_domain_metadata (run l) !! k) as [x|] eqn:E; [|done].
      by rewrite (domain_kept st l k x) in Hl. }
    rewrite domain_untouched; [done|].
    intros d' [k' Hk']%elem_of_compacted_domain E. destruct (Hd _ _ Hk') as [E' _]. congruence.
Qed.

(** ** Compactions after a checkpoint *)
Lemma replay_sequence_no_compaction m fuel v fin commits :
  (∀ w, (v ≤ w)%Z → m !! w = None) → (fin < i64_max)%Z → (0 ≤ v)%Z →
  replay_sequence m fuel v fin commits = replay_sequence ∅ fuel v fin commits.
Proof.
  intros Hm Hf. revert v commits Hm. induction fuel as [|n IH]; intros v commits Hm Hv; [done|].
  cbn [replay_sequence]. rewrite (Hm v) by lia. rewrite lookup_empty.
  destruct (Z.ltb_spec fin v); [done|].
  assert (succ_i64 v = (v + 1)%Z) as Hs by (unfold succ_i64, saturate_i64, i64_min, i64_max in *; lia).
  rewrite Hs. destruct commits as [|[w f] rest]; [done|].
  case_match; [f_equal|]; apply IH; try lia; intros; apply Hm; lia.
Qed.

Lemma compactions_by_start comps v0 w :
  Forall (λ x : Z * Z * File (list Action), (x.1.1 < v0)%Z) comps → (v0 ≤ w)%Z →
  compaction_map comps !! w = None.
Proof.
  intros Hc Hw. unfold compaction_map. induction comps as [|[[a e] f] l IH] using rev_ind; [apply lookup_empty|].
  apply Forall_app in Hc as [Hl [Ha _]%Forall_cons]. rewrite foldl_app. simpl in *.
  rewrite lookup_insert_ne by lia. by apply IH.
Qed.

(** A compaction between a checkpoint and later commits is skipped: replay on top
    of a checkpoint starts with the first commit file that is left, so that the
    actions of the compactions before it have no effect whatever they are. *)
Theorem compaction_after_checkpoint_skipped s cp v0 f0 commits comps comps' target :
  comps ≠ [] → comps' ≠ [] → (0 ≤ v0)%Z → (target < i64_max)%Z →
  Forall (λ x : Z * Z * File (list Action), (x.1.1 < v0)%Z) comps →
  Forall (λ x : Z * Z * File (list Action), (x.1.1 < v0)%Z) comps' →
  replay_segment s (MkSegment (Some cp) ((v0, f0) :: commits) comps target) =
  replay_segment s (MkSegment (Some cp) ((v0, f0) :: commits) comps' target).
Proof.
  intros Hne Hne' Hv Ht Hc Hc'. unfold replay_segment. cbn [sg_checkpoint sg_commits sg_compactions sg_target].
  destruct cp as [c f]. destruct (read_checkpoint_rows s f) as [rows|]; [|done].
  cbn [mbind Result_bind fst snd]. unfold start_commit_version. cbn [sg_commits sg_compactions].
  unfold replay_commit_actions_with_compactions.
  destruct comps as [|x comps]; [done|]. destruct comps' as [|x' comps']; [done|].
  unfold build_replay_sequence.
  rewrite (replay_sequence_no_compaction (compaction_map (x :: comps))),
    (replay_sequence_no_compaction (compaction_map (x' :: comps'))); try done;
    intros w Hw; by eapply compactions_by_start.
Qed.
End compaction.

(** ** The sequence in which commits and compactions are replayed

    The loop of [build_replay_sequence] ends, and on the files that
    [resolve_for_full_state] has accepted it visits every version once, in
    order. *)

Notation CommitFile := (Z * File (list Action))%type.
Notation CompactionFile := (Z * Z * File (list Action))%type.

(** ** The loop ends *)

(** A compaction ends after it starts. *)
Definition forward (m : gmap Z CommitFile) : Prop := map_Forall (λ v x, (v < x.1)%Z) m.

Lemma succ_i64_le v e : (v ≤ e)%Z → (v < i64_max)%Z → (i64_min ≤ v)%Z → (v < succ_i64 e)%Z.
Proof. unfold succ_i64, saturate_i64, i64_min, i64_max. lia. Qed.
Lemma succ_i64_eq v : (i64_min ≤ v < i64_max)%Z → succ_i64 v = (v + 1)%Z.
Proof. unfold succ_i64, saturate_i64, i64_min, i64_max. lia. Qed.

(** As much fuel as there are versions is enough: more changes nothing. *)
Lemma replay_sequence_fuel m n n' v fin commits :
  forward m → (fin < i64_max)%Z → (i64_min ≤ v)%Z → Z.to_nat (fin - v + 1) ≤ n → n ≤ n' →
  replay_sequence m n' v fin commits = replay_sequence m n v fin commits.
Proof.
  intros Hm Hf. revert n' v commits. induction n as [|n IH]; intros n' v commits Hv Hn Hn'.
  { destruct n'; [done|]. simpl. destruct (Z.ltb_spec fin v); [done|]. lia. }
  destruct n' as [|n']; [lia|]. cbn [replay_sequence].
  destruct (Z.ltb_spec fin v); [done|].
  assert (v < succ_i64 v)%Z as Hs by (apply succ_i64_le; lia).
  destruct (m !! v) as [[e f]|] eqn:E.
  - assert (v < succ_i64 e)%Z by (apply succ_i64_le; [|lia..]; specialize (Hm _ _ E); simpl in Hm; lia).
    f_equal. apply IH; lia.
  - destruct commits as [|[w f] rest]; [done|]. case_match; [f_equal|]; apply IH; lia.
Qed.

(** ** What it visits *)
Definition entry_versions (e : ReplayEntry) : list Z :=
  match e with
  | ReplayCommit v _ => [v]
  | ReplayCompaction start finish _ => versions start finish
  end.

(** Intervals that follow one another without a gap, from [v] to [fin]. *)
Fixpoint chain (v fin : Z) (l : list (Z * Z)) : Prop :=
  match l with
  | [] => (fin < v)%Z
  | (s, e) :: l => s = v ∧ (s ≤ e ≤ fin)%Z ∧ chain (e + 1) fin l
  end.

Lemma chain_starts v fin l x : chain v fin l → x ∈ l → (v ≤ x.1)%Z.
Proof.
  revert v. induction l as [|[s e] l IH]; intros v Hl Hx; [by apply elem_of_nil in Hx|].
  destruct Hl as (-> & Hle & Hl). apply elem_of_cons in Hx as [->|Hx]; [done|].
  specialize (IH _ Hl Hx). lia.
Qed.

Lemma versions_split v e fin :
  (v ≤ e ≤ fin)%Z → versions v fin = versions v e ++ versions (e + 1) fin.
Proof.
  intros H. unfold versions.
  replace (fin - v + 1)%Z with ((e - v + 1) + (fin - (e + 1) + 1))%Z by lia.
  rewrite seqZ_app by lia. do 2 f_equal. lia.
Qed.

Lemma versions_one v : versions v v = [v].
Proof. unfold versions. by replace (v - v + 1)%Z with 1%Z by lia. Qed.

Lemma drop_before_id v (l : list CommitFile) : (∀ x, x ∈ l → (v ≤ x.1)%Z) → drop_before v l = l.
Proof.
  destruct l as [|[w f] l]; intros Hl; [done|]. simpl.
  assert (v ≤ w)%Z by (apply (Hl (w, f)); left). by destruct (Z.ltb_spec w v); [lia|].
Qed.

(** The files of the intervals: each interval is a compaction or a commit, and every
    file that is left has its interval. *)
Record files_of (m : gmap Z CommitFile) (commits : list CommitFile) (v : Z)
    (l : list (Z * Z)) : Prop := {
  fo_commits : ∀ w f, (w, f) ∈ commits → (w, w) ∈ l;
  fo_compactions : ∀ w e f, m !! w = Some (e, f) → (v ≤ w)%Z → (w, e) ∈ l;
  fo_interval : ∀ s e, (s, e) ∈ l →
    (∃ f, m !! s = Some (e, f)) ∨ (s = e ∧ ∃ f, (s, f) ∈ commits)
}.

Lemma replay_sequence_chain m fin l : forward m → (fin < i64_max)%Z →
  ∀ fuel v commits,
  chain v fin l → (i64_min ≤ v)%Z → Z.to_nat (fin - v + 1) ≤ fuel →
  StronglySorted (λ x y : CommitFile, (x.1 < y.1)%Z) commits →
  files_of m commits v l →
  concat (entry_versions <$> replay_sequence m fuel v fin commits) = versions v fin.
Proof.
  intros Hm Hf. induction l as [|[s e] l IH]; intros fuel v commits Hl Hv Hn Hs [Hc Hp Hi].
  { simpl in Hl. assert (versions v fin = []) as -> by (unfold versions; by rewrite seqZ_nil by lia).
    destruct fuel; [done|]. simpl. by destruct (Z.ltb_spec fin v); [|lia]. }
  destruct Hl as (-> & Hle & Hl). destruct fuel as [|fuel]; [lia|]. cbn [replay_sequence].
  destruct (Z.ltb_spec fin v); [lia|].
  assert (∀ x, x ∈ l → (e + 1 ≤ x.1)%Z) as Hlate by (intros x; by apply chain_starts with (fin := fin)).
  rewrite (versions_split v e fin) by done.
  destruct (m !! v) as [[e' f]|] eqn:E.
  - assert (e' = e) as ->.
    { specialize (Hp _ _ _ E (Z.le_refl v)). apply elem_of_cons in Hp as [[= ->]|Hp]; [done|].
      specialize (Hlate _ Hp). simpl in Hlate. lia. }
    assert (v < e)%Z by (by specialize (Hm _ _ E)).
    assert (∀ x, x ∈ commits → (x.1, x.1) ∈ l) as Hc'.
    { intros [w g] Hw. apply Hc in Hw. apply elem_of_cons in Hw as [[= -> ->]|]; [lia|done]. }
    rewrite succ_i64_eq by lia. rewrite fmap_cons. cbn [concat entry_versions]. f_equal.
    rewrite drop_before_id by (intros x Hx; by apply (Hlate (x.1, x.1)), Hc').
    apply IH; [done|lia|lia|done|]. split.
    + intros w g Hw. by apply (Hc' (w, g)).
    + intros w e' g Hw Hge. specialize (Hp _ _ _ Hw ltac:(lia)).
      apply elem_of_cons in Hp as [[= -> ->]|]; [lia|done].
    + intros s' e' Hs'. apply Hi. by right.
  - destruct (Hi v e ltac:(left)) as [[f Hf']|[<- [f Hcf]]]; [congruence|].
    destruct commits as [|[w g] rest]; [by apply elem_of_nil in Hcf|].
    apply StronglySorted_inv in Hs as [Hs Hw]. rewrite Forall_forall in Hw.
    assert (w = v) as ->.
    { apply elem_of_cons in Hcf as [[= ->]|Hcf]; [done|]. specialize (Hw _ Hcf). simpl in Hw.
      specialize (Hc w g ltac:(left)). apply elem_of_cons in Hc as [[= ->]|Hc]; [done|].
      specialize (Hlate _ Hc). simpl in Hlate. lia. }
    rewrite Z.eqb_refl, versions_one, succ_i64_eq by lia. rewrite fmap_cons.
    cbn [concat entry_versions app]. f_equal. apply IH; [done|lia|lia|done|]. split.
    + intros w g' Hin. specialize (Hw _ Hin). simpl in Hw. specialize (Hc w g' ltac:(by right)).
      apply elem_of_cons in Hc as [[= ->]|]; [lia|done].
    + intros w e' g' Hw' Hge. specialize (Hp _ _ _ Hw' ltac:(lia)).
      apply elem_of_cons in Hp as [[= -> ->]|]; [lia|done].
    + intros s' e' Hs'. destruct (Hi s' e' ltac:(by right)) as [?|[-> [f' Hf']]]; [by left|].
      right. split; [done|]. exists f'. apply elem_of_cons in Hf' as [[= -> ->]|]; [|done].
      specialize (Hlate _ Hs'). simpl in Hlate. lia.
Qed.

(** ** The files of a segment *)
Lemma chain_unique v fin l s e e' : chain v fin l → (s, e) ∈ l → (s, e') ∈ l → e = e'.
Proof.
  revert v. induction l as [|[a b] l IH]; intros v Hl H H'; [by apply elem_of_nil in H|].
  destruct Hl as (-> & Hle & Hl).
  assert (∀ x, x ∈ l → x.1 ≠ v) as Hne by (intros x Hx%(chain_starts _ _ _ _ Hl); lia).
  apply elem_of_cons in H as [H|H], H' as [H'|H'].
  - congruence.
  - injection H as -> ->. by apply Hne in H'.
  - injection H' as -> ->. by apply Hne in H.
  - eauto.
Qed.

Lemma contiguous_chain l v x fin :
  Forall (λ i : Z * Z, (i.1 ≤ i.2 ≤ fin)%Z) l → (0 ≤ fin < i64_max)%Z → (i64_min ≤ v)%Z →
  contiguous_intervals l v = Ok x → pred_i64 x = fin → chain v fin l.
Proof.
  intros Hl Hf. revert v. induction Hl as [|[s e] l Hle Hl IH]; intros v Hv; simpl.
  { intros [= ->]. unfold pred_i64, saturate_i64, i64_min, i64_max in *. lia. }
  destruct (Z.eqb_spec s v) as [->|]; simpl; [|done]. simpl in Hle.
  rewrite succ_i64_eq by (unfold i64_min in *; lia). intros Hc Hx.
  split_and!; [done|lia|lia|]. apply IH; [unfold i64_min in *; lia|done|done].
Qed.

Lemma compaction_map_lookup comps s e f :
  compaction_map comps !! s = Some (e, f) → (s, e, f) ∈ comps.
Proof.
  unfold compaction_map. induction comps as [|[[a b] g] l IH] using rev_ind; [simpl; by rewrite lookup_empty|].
  rewrite foldl_app. simpl. rewrite elem_of_app, list_elem_of_singleton.
  destruct (decide (a = s)) as [->|Hne].
  - rewrite lookup_insert_eq. intros [= -> ->]. by right.
  - rewrite lookup_insert_ne by done. intros H. left. by apply IH.
Qed.
Lemma compaction_map_is_some comps s e f :
  (s, e, f) ∈ comps → is_Some (compaction_map comps !! s).
Proof.
  unfold compaction_map. induction comps as [|[[a b] g] l IH] using rev_ind; [by intros ?%elem_of_nil|].
  rewrite elem_of_app, list_elem_of_singleton, foldl_app. simpl. intros [H|[= -> -> ->]].
  - destruct (decide (a = s)) as [->|]; [rewrite lookup_insert_eq; eauto|].
    rewrite lookup_insert_ne by done. by apply IH.
  - rewrite lookup_insert_eq. eauto.
Qed.

(** A listing is sorted without duplicates, and stays so when files are left out. *)
Lemma sorted_strict {A} (key : A → Z) l :
  NoDup (key <$> l) → StronglySorted (λ x y, (key x < key y)%Z) (sort_by_key key l).
Proof.
  intros Hnd. pose proof (sort_by_key_sorted key l) as Hs.
  assert (NoDup (key <$> sort_by_key key l)) as Hnd'.
  { unfold sort_by_key. by rewrite sort_by_perm. }
  revert Hs Hnd'. generalize (sort_by_key key l). clear. intros l.
  induction 1 as [|x l Hl IH Hx]; intros Hnd; [constructor|].
  rewrite fmap_cons, NoDup_cons in Hnd. destruct Hnd as [Hn Hnd]. constructor; [by apply IH|].
  rewrite Forall_forall in Hx |- *. intros y Hy. specialize (Hx y Hy). simpl in Hx.
  assert (key x ≠ key y); [|lia]. intros E. apply Hn. rewrite E. by apply list_elem_of_fmap_2.
Qed.
Lemma StronglySorted_filter {A} (R : relation A) (P : A → Prop) `{!∀ x, Decision (P x)} l :
  StronglySorted R l → StronglySorted R (filter P l).
Proof.
  induction 1 as [|x l Hl IH Hx]; [constructor|]. rewrite filter_cons. case_decide; [|done].
  constructor; [done|]. rewrite Forall_forall in Hx |- *.
  intros y [_ Hy]%list_elem_of_filter. by apply Hx.
Qed.

Lemma NoDup_key_filter {A} (key : A → Z) (P : A → Prop) `{!∀ x, Decision (P x)} l :
  NoDup (key <$> l) → NoDup (key <$> filter P l).
Proof.
  induction l as [|x l IH]; [done|]. rewrite fmap_cons, NoDup_cons, filter_cons. intros [Hx Hl].
  case_decide; [|by apply IH]. rewrite fmap_cons, NoDup_cons. split; [|by apply IH].
  intros (y & E & [_ Hy]%list_elem_of_filter)%list_elem_of_fmap. apply Hx. rewrite E.
  by apply list_elem_of_fmap_2.
Qed.

Lemma select_compactions_incl covered (l : list CompactionFile) x :
  x ∈ select_compactions covered l → x ∈ l.
Proof.
  revert covered. induction l as [|[[a b] g] l IH]; intros covered; [done|]. simpl.
  case_match; rewrite ?elem_of_cons; intros; [right; eauto|]. destruct_or!; [by left|right; eauto].
Qed.

Lemma elem_of_sort_by_key {A} (key : A → Z) (l : list A) x : x ∈ sort_by_key key l ↔ x ∈ l.
Proof. apply elem_of_sort_by. Qed.

Lemma segment_files_commits `{HO : HashOrder} s offset start fin c :
  c = (segment_files (list_log_files s offset fin) start fin).1 →
  StronglySorted (λ x y : CommitFile, (x.1 < y.1)%Z) c ∧ (∀ x, x ∈ c → (start ≤ x.1 ≤ fin)%Z).
Proof.
  intros ->. unfold segment_files, resolve_compactions, list_log_files. cbn [lf_commits].
  set (base := filter _ (sort_by_key fst _)).
  assert (StronglySorted (λ x y : CommitFile, (x.1 < y.1)%Z) base ∧
          (∀ x, x ∈ base → (start ≤ x.1 ≤ fin)%Z)) as [Hs Hr].
  { split.
    - apply StronglySorted_filter, sorted_strict. unfold upto, list_commits.
      do 2 apply NoDup_key_filter. apply hash_items_nodup.
    - intros x [Hx _]%list_elem_of_filter. lia. }
  case_match; [done|]. simpl. split; [by apply StronglySorted_filter|].
  intros x [_ Hx]%list_elem_of_filter. by apply Hr.
Qed.

Lemma segment_files_compactions `{HO : HashOrder} s offset start fin (x : CompactionFile) :
  x ∈ (segment_files (list_log_files s offset fin) start fin).2 → (start ≤ x.1.1 ∧ x.1.1 < x.1.2 ≤ fin)%Z.
Proof.
  unfold segment_files, resolve_compactions, list_log_files. cbn [lf_compactions].
  destruct (filter_compactions_for_range _ _ _) as [|c l] eqn:E; [by intros ?%elem_of_nil|].
  rewrite <-E. cbn [snd]. intros Hx%elem_of_sort_by_key%select_compactions_incl%elem_of_sort_by.
  unfold filter_compactions_for_range in Hx. apply list_elem_of_filter in Hx as [H1 Hx].
  apply elem_of_sort_by_key in Hx. unfold upto, list_compactions in Hx.
  apply list_elem_of_filter in Hx as [H2 [H3 _]%list_elem_of_filter]. lia.
Qed.

(** ** The replay covers every version once *)
Section covers.
Context `{DE : DeltaEngine} `{HO : HashOrder}.

Lemma resolved_chain s v start commits comps :
  (0 ≤ v < i64_max)%Z → (i64_min ≤ start)%Z → (start ≤ v)%Z →
  (commits, comps) = segment_files (list_log_files s (hint_offset s v) v) start v → comps ≠ [] →
  validate_commit_contiguity_with_compactions commits comps start v = Ok tt →
  ∃ l, chain start v l ∧ files_of (compaction_map comps) commits start l.
Proof.
  intros Hv Hstart Hle Hfiles Hne Hok.
  assert (∀ x, x ∈ commits → (start ≤ x.1 ≤ v)%Z) as Hc.
  { by apply (segment_files_commits s (hint_offset s v) start v); rewrite <-Hfiles. }
  assert (∀ x, x ∈ comps → (start ≤ x.1.1 ∧ x.1.1 < x.1.2 ≤ v)%Z) as Hm.
  { intros x Hx. apply (segment_files_compactions s (hint_offset s v)). by rewrite <-Hfiles. }
  unfold validate_commit_contiguity_with_compactions in Hok.
  destruct (Z.ltb_spec v start); [lia|]. destruct comps as [|c comps]; [done|].
  set (single := omap _ commits) in Hok. set (l := sort_by_key fst (single ++ (c :: comps).*1)) in Hok.
  assert (∀ a b, (a, b) ∈ l ↔ (∃ f, (a, b, f) ∈ c :: comps) ∨ (a = b ∧ ∃ f, (a, f) ∈ commits)) as Hl.
  { intros a b. unfold l. rewrite elem_of_sort_by_key, elem_of_app. unfold single.
    rewrite list_elem_of_omap, list_elem_of_fmap. split.
    - intros [([w f] & Hw & E)|([[a' b'] f] & E & Hin)]; simpl in *.
      + case_match; simplify_eq. eauto.
      + simplify_eq. eauto.
    - intros [[f Hf]|[-> [f Hf]]]; [right; by exists (a, b, f)|left]. exists (b, f). split; [done|].
      specialize (Hc _ Hf). simpl in *. case_match; [done|lia]. }
  destruct (contiguous_intervals l start) as [x|] eqn:Ex; [|done]. cbn [mbind Result_bind] in Hok.
  destruct (Z.eqb_spec (pred_i64 x) v) as [Hx|]; [|done].
  assert (chain start v l) as Hchain.
  { eapply contiguous_chain; [|done..]. apply Forall_forall. intros [a b] [[f Hf]|[-> [f Hf]]]%Hl.
    - specialize (Hm _ Hf). simpl in *. lia.
    - specialize (Hc _ Hf). simpl in *. lia. }
  exists l. split; [done|]. split.
  - intros w f Hw. apply Hl. right. eauto.
  - intros w e f Hw _. apply Hl. left. exists f. by apply compaction_map_lookup.
  - intros a b Hab. destruct (proj1 (Hl a b) Hab) as [[f Hf]|]; [|by right]. left.
    destruct (compaction_map_is_some _ _ _ _ Hf) as [[b' f'] Hb']. exists f'. rewrite Hb'.
    assert ((a, b') ∈ l) as Hab'. { apply Hl. left. exists f'. by apply compaction_map_lookup. }
    by rewrite (chain_unique _ _ _ _ _ _ Hchain Hab Hab').
Qed.

(** C20. The merge of commits and compactions ends and leaves nothing out: for the files
    that a load accepts, the loop is done after as many rounds as there are
    versions, and the entries that it produces cover every version after the
    checkpoint up to the one asked for, each once and in order. *)
Theorem replay_sequence_covers s v g :
  resolve_for_full_state s v = Ok g → (0 ≤ v < i64_max)%Z → sg_compactions g ≠ [] →
  let start := start_after (sg_checkpoint g) in
  (∀ fuel, Z.to_nat (v - start + 1) ≤ fuel →
     replay_sequence (compaction_map (sg_compactions g)) fuel start v (sg_commits g) =
     build_replay_sequence (sg_commits g) (sg_compactions g) start v) ∧
  concat (entry_versions <$> build_replay_sequence (sg_commits g) (sg_compactions g) start v) =
  versions start v.
Proof.
  unfold resolve_for_full_state. set (files := list_log_files _ _ _).
  set (st := start_after (lf_checkpoint files)).
  destruct (segment_files files st v) as [commits comps] eqn:E.
  destruct (validate_commit_contiguity_with_compactions _ _ _ _) as [[]|] eqn:Hok; [|done].
  cbn [mbind Result_bind]. intros [= <-] Hv Hne. cbn [sg_checkpoint sg_compactions sg_commits] in *.
  fold st. cbv zeta.
  assert (i64_min ≤ st)%Z as Hst.
  { unfold st, start_after, succ_i64, saturate_i64. case_match; [|done]. case_match. unfold i64_min, i64_max. lia. }
  assert (forward (compaction_map comps)) as Hfwd.
  { intros a [b f] H%compaction_map_lookup. simpl.
    pose proof (segment_files_compactions s (hint_offset s v) st v (a, b, f)) as Hr.
    fold files in Hr. rewrite E in Hr. specialize (Hr H). simpl in Hr. lia. }
  unfold build_replay_sequence. split.
  { intros fuel Hfuel. apply replay_sequence_fuel; [done|lia|done|done|exact Hfuel]. }
  destruct (Z.le_gt_cases st v) as [Hle|Hgt].
  - destruct (resolved_chain s v st commits comps) as (l & Hl & Hf); [done..|].
    apply (replay_sequence_chain _ _ l); [done|lia|done|done|done| |done].
    by apply (segment_files_commits s (hint_offset s v) st v); fold files; rewrite E.
  - unfold versions. assert (v - st + 1 ≤ 0)%Z as H by lia.
    by rewrite (seqZ_nil st) by done; rewrite Z2Nat.nonpos by done.
Qed.
End covers.
