(* ===== verification/FlowEvents.v ===== *)
(** * Streaming: flow events

    [zelox-common-datafusion/src/streaming/event]: the events of a streaming data
    flow (batches of data and markers), the schema of the record batches that carry
    them, and their encoding; and the classification of such batches in
    [zelox-physical-plan/src/streaming/barrier_align.rs] and [exchange.rs].

    Arrow's arrays and record batches, [chrono]'s times, the Protobuf encoding of
    the markers and the placeholder arrays of [array/placeholder.rs] are
    parameters.  An array of bytes or of booleans is its sequence of values. *)

From Stdlib Require Import String.
From S2P Require Import Prelude.
(** ** Errors *)
Inductive FlowError :=
| FePlan (msg : string)
| FeExecution (msg : string)
| FeInternal (msg : string)
| FeEngine (msg : string).
Notation FlowResult := (Result FlowError).

(** ** The messages of [marker.proto] *)
Record GenLatencyTracker := MkGenLatencyTracker {
  glt_source : string; glt_id : N; glt_timestamp_secs : Z; glt_timestamp_nanos : N }.
Record GenWatermark := MkGenWatermark {
  gw_source : string; gw_timestamp_secs : Z; gw_timestamp_nanos : N }.
Inductive GenKind :=
| GenKindLatencyTracker (m : GenLatencyTracker)
| GenKindWatermark (m : GenWatermark)
| GenKindCheckpoint (id : N)
| GenKindEndOfData
| GenKindIdle (source : string).
Record GenFlowMarker := MkGenFlowMarker { gm_kind : option GenKind }.

(** ** The libraries *)
Class FlowEngine := {
  DateTime : Type;
  dt_timestamp : DateTime → Z;
  dt_subsec_nanos : DateTime → N;
  dt_timestamp_micros : DateTime → Z;
  dt_from_timestamp : Z → N → option DateTime;
  dt_from_timestamp_micros : Z → option DateTime;
  Bytes : Type;
  encode_to_vec : GenFlowMarker → Bytes;
  gen_decode : Bytes → Result string GenFlowMarker;
  DataType : Type;
  DataType_eq_dec :: EqDecision DataType;
  DtBinary : DataType;
  DtBoolean : DataType;
  ArrayRef : Type;
  array_len : ArrayRef → nat;
  array_slice : ArrayRef → nat → nat → ArrayRef;
  array_take : ArrayRef → list nat → FlowResult ArrayRef;
  binary_array : list (option Bytes) → ArrayRef;
  as_binary : ArrayRef → option (list (option Bytes));
  boolean_array : list bool → ArrayRef;
  as_boolean : ArrayRef → option (list bool);
  array_fits : DataType → bool → ArrayRef → Prop;
  new_null_array : DataType → nat → ArrayRef;
  placeholder_array : DataType → nat → FlowResult ArrayRef
}.

(** What Arrow, [chrono] and [prost] document of them.  [array_fits] says that a
    column may stand for a field: the type is the field's, and there is a null only
    where the field is nullable. *)
Class FlowEngineLaws (E : FlowEngine) := {
  from_timestamp_of t : dt_from_timestamp (dt_timestamp t) (dt_subsec_nanos t) = Some t;
  micros_of_from m t : dt_from_timestamp_micros m = Some t → dt_timestamp_micros t = m;
  gen_decode_encode m : gen_decode (encode_to_vec m) = Ok m;
  as_binary_array l : as_binary (binary_array l) = Some l;
  as_boolean_array l : as_boolean (boolean_array l) = Some l;
  binary_array_len l : array_len (binary_array l) = length l;
  boolean_array_len l : array_len (boolean_array l) = length l;
  as_binary_len a l : as_binary a = Some l → array_len a = length l;
  as_boolean_len a l : as_boolean a = Some l → array_len a = length l;
  array_slice_len a off len : off + len ≤ array_len a → array_len (array_slice a off len) = len;
  array_slice_all a : array_slice a 0 (array_len a) = a;
  binary_array_fits l : array_fits DtBinary true (binary_array l);
  boolean_array_fits l : array_fits DtBoolean false (boolean_array l);
  null_array_fits d n : array_fits d true (new_null_array d n);
  null_array_len d n : array_len (new_null_array d n) = n;
  placeholder_array_fits d n a :
    placeholder_array d n = Ok a → array_fits d false a ∧ array_len a = n;
  array_fits_slice d b a off len : array_fits d b a → array_fits d b (array_slice a off len);
  fits_binary b a : array_fits DtBinary b a → is_Some (as_binary a);
  fits_boolean b a : array_fits DtBoolean b a → is_Some (as_boolean a);
  array_take_fits d b a l a' : array_take a l = Ok a' → array_fits d b a → array_fits d b a';
  array_take_len a l a' : array_take a l = Ok a' → array_len a' = length l;
  array_take_binary a l a' : array_take a l = Ok a' →
    as_binary a' = (λ v, omap (λ i, v !! i) l) <$> as_binary a
}.

(** ** Record batches *)
Section Events.
Context `{E : FlowEngine}.

Record Field := MkField { field_name : string; field_type : DataType; field_nullable : bool }.
Record RecordBatch := MkRecordBatch {
  batch_schema : list Field; batch_columns : list ArrayRef; batch_num_rows : nat }.

(** Arrow's check of the columns of a batch, which there must be. *)
Definition columns_match (schema : list Field) (columns : list ArrayRef) (n : nat) : Prop :=
  columns ≠ [] ∧
  Forall2 (λ f c, array_fits (field_type f) (field_nullable f) c ∧ array_len c = n) schema columns.

(** [RecordBatch::slice] *)
Definition batch_slice (b : RecordBatch) (off len : nat) : RecordBatch :=
  MkRecordBatch (batch_schema b) ((λ c, array_slice c off len) <$> batch_columns b) len.

(** A batch holds columns that fit its schema. *)
Definition batch_wf (b : RecordBatch) : Prop :=
  columns_match (batch_schema b) (batch_columns b) (batch_num_rows b).
End Events.

(** [RecordBatch::try_new] checks the columns. *)
Class BatchCheck `{E : FlowEngine} :=
  check_columns : list Field → list ArrayRef → Result string nat.
Class BatchCheckLaws `{E : FlowEngine} (C : BatchCheck) :=
  check_columns_ok schema columns n :
    check_columns schema columns = Ok n ↔ columns_match schema columns n.

Section Coding.
Context `{E : FlowEngine} `{C : !BatchCheck}.

Definition batch_try_new (schema : list Field) (columns : list ArrayRef) : FlowResult RecordBatch :=
  match check_columns schema columns with
  | Ok n => Ok (MkRecordBatch schema columns n)
  | Err e => Err (FeEngine e)
  end.

(** ** Markers ([marker.rs]) *)
Inductive FlowMarker :=
| LatencyTracker (source : string) (id : N) (timestamp : DateTime)
| Watermark (source : string) (timestamp : DateTime)
| Checkpoint (id : N)
| EndOfData
| Idle (source : string).

Definition marker_encode (m : FlowMarker) : Bytes :=
  let kind :=
    match m with
    | LatencyTracker source id t =>
        GenKindLatencyTracker (MkGenLatencyTracker source id (dt_timestamp t) (dt_subsec_nanos t))
    | Watermark source t =>
        GenKindWatermark (MkGenWatermark source (dt_timestamp t) (dt_subsec_nanos t))
    | Checkpoint id => GenKindCheckpoint id
    | EndOfData => GenKindEndOfData
    | Idle source => GenKindIdle source
    end in
  encode_to_vec (MkGenFlowMarker (Some kind)).

Definition marker_decode (bytes : Bytes) : FlowResult FlowMarker :=
  match gen_decode bytes with
  | Err e => Err (FePlan ("failed to decode marker: " +:+ e))
  | Ok message =>
      match gm_kind message with
      | Some (GenKindLatencyTracker m) =>
          match dt_from_timestamp (glt_timestamp_secs m) (glt_timestamp_nanos m) with
          | Some t => Ok (LatencyTracker (glt_source m) (glt_id m) t)
          | None => Err (FePlan "invalid latency tracker timestamp")
          end
      | Some (GenKindWatermark m) =>
          match dt_from_timestamp (gw_timestamp_secs m) (gw_timestamp_nanos m) with
          | Some t => Ok (Watermark (gw_source m) t)
          | None => Err (FePlan "invalid watermark timestamp")
          end
      | Some (GenKindCheckpoint id) => Ok (Checkpoint id)
      | Some GenKindEndOfData => Ok EndOfData
      | Some (GenKindIdle source) => Ok (Idle source)
      | None => Err (FePlan "missing marker kind")
      end
  end.

(** ** The schema of encoded events ([schema.rs]) *)
Definition MARKER_FIELD_NAME : string := "_marker".
Definition RETRACTED_FIELD_NAME : string := "_retracted".
Definition is_marker_field (f : Field) : bool :=
  bool_decide (field_name f = MARKER_FIELD_NAME) && bool_decide (field_type f = DtBinary) &&
  field_nullable f.
Definition is_retracted_field (f : Field) : bool :=
  bool_decide (field_name f = RETRACTED_FIELD_NAME) && bool_decide (field_type f = DtBoolean).
Definition is_flow_event_schema (schema : list Field) : bool :=
  match schema with
  | f :: rest => is_marker_field f && match rest with g :: _ => is_retracted_field g | [] => false end
  | [] => false
  end.
Definition to_flow_event_schema (schema : list Field) : list Field :=
  MkField MARKER_FIELD_NAME DtBinary true :: MkField RETRACTED_FIELD_NAME DtBoolean false :: schema.
Definition to_flow_event_projection (projection : list nat) : list nat :=
  0 :: 1 :: ((λ x, x + 2) <$> projection).
Definition to_flow_event_field_names (names : list string) : list string :=
  MARKER_FIELD_NAME :: RETRACTED_FIELD_NAME :: names.
Definition try_from_flow_event_schema (schema : list Field) : FlowResult (list Field) :=
  let missing_marker := Err (FePlan "missing marker field in the flow event schema") in
  let missing_retracted := Err (FePlan "missing retracted field in the flow event schema") in
  match schema with
  | [] => missing_marker
  | f :: rest =>
      if is_marker_field f then
        match rest with
        | [] => missing_retracted
        | g :: rest => if is_retracted_field g then Ok rest else missing_retracted
        end
      else missing_marker
  end.

(** ** Events ([mod.rs]) *)
Inductive FlowEvent :=
| FlowData (batch : RecordBatch) (retracted : list bool)
| FlowMark (marker : FlowMarker).
Definition append_only_data (batch : RecordBatch) : FlowEvent :=
  FlowData batch (replicate (batch_num_rows batch) false).

(** ** Encoding ([encoding.rs])

    The cached array of nulls only saves its allocation. *)
Definition placeholder_boolean_array (n : nat) : ArrayRef := boolean_array (replicate n false).
Definition placeholder_column (f : Field) : FlowResult ArrayRef :=
  if field_nullable f then Ok (new_null_array (field_type f) 1)
  else placeholder_array (field_type f) 1.
Definition encode_inner (schema : list Field) (event : FlowEvent) : FlowResult RecordBatch :=
  columns ←
    (match event with
     | FlowData batch retracted =>
         Ok (binary_array (replicate (batch_num_rows batch) None) :: boolean_array retracted
               :: batch_columns batch)
     | FlowMark marker =>
         rest ← collect_results (placeholder_column <$> schema);
         Ok (binary_array [Some (marker_encode marker)] :: placeholder_boolean_array 1 :: rest)
     end : FlowResult _);
  batch_try_new (to_flow_event_schema schema) columns.

Definition get_special_columns_and_data (schema : list Field) (batch : RecordBatch)
    : FlowResult (list (option Bytes) * list bool * RecordBatch) :=
  match batch_columns batch with
  | [] => Err (FeExecution "missing marker array")
  | marker :: columns =>
      match as_binary marker with
      | None => Err (FeExecution "invalid marker array type")
      | Some marker =>
          match columns with
          | [] => Err (FeExecution "missing retracted array")
          | retracted :: columns =>
              match as_boolean retracted with
              | None => Err (FeExecution "invalid retracted array type")
              | Some retracted =>
                  data ← batch_try_new schema columns;
                  Ok (marker, retracted, data)
              end
          end
      end
  end.

(** The data event of the rows from [start] up to [i]. *)
Definition flush_rows (data : RecordBatch) (retracted : list bool) (start : option nat) (i : nat)
    : list FlowEvent :=
  match start with
  | Some start =>
      [FlowData (batch_slice data start (i - start)) (take (i - start) (drop start retracted))]
  | None => []
  end.
(** The loop over the rows from row [i] on. *)
Fixpoint decode_rows (data : RecordBatch) (retracted : list bool) (i : nat) (start : option nat)
    (marker : list (option Bytes)) : FlowResult (list FlowEvent) :=
  match marker with
  | [] => Ok (flush_rows data retracted start i)
  | Some bytes :: marker =>
      m ← marker_decode bytes;
      events ← decode_rows data retracted (S i) None marker;
      Ok (flush_rows data retracted start i ++ FlowMark m :: events)
  | None :: marker =>
      decode_rows data retracted (S i) (Some (default i start)) marker
  end.
Definition null_count {A} (l : list (option A)) : nat :=
  foldr (λ x n, match x with None => S n | Some _ => n end) 0 l.
Definition decode (schema : list Field) (batch : RecordBatch) : FlowResult (list FlowEvent) :=
  parts ← get_special_columns_and_data schema batch;
  let '(marker, retracted, data) := parts in
  if (0 <? batch_num_rows batch)%nat && (null_count marker =? batch_num_rows batch)%nat then
    Ok [FlowData data retracted]
  else decode_rows data retracted 0 None marker.

(** ** Classification of encoded batches *)
Definition index_of (name : string) (schema : list Field) : option nat :=
  fst <$> list_find (λ f, field_name f = name) schema.
(** The column of markers, where the batch has one. *)
Definition marker_column (batch : RecordBatch) : option (list (option Bytes)) :=
  idx ← index_of MARKER_FIELD_NAME (batch_schema batch);
  batch_columns batch !! idx ≫= as_binary.
Fixpoint first_marker (l : list (option Bytes)) : option Bytes :=
  match l with
  | [] => None
  | Some bytes :: _ => Some bytes
  | None :: l => first_marker l
  end.

Inductive BatchKind :=
| KindData | KindCheckpoint (id : N) | KindOtherMarker | KindEndOfData.
Definition classify (batch : RecordBatch) : FlowResult BatchKind :=
  match marker_column batch ≫= first_marker with
  | None => Ok KindData
  | Some bytes =>
      m ← marker_decode bytes;
      Ok (match m with
          | Checkpoint id => KindCheckpoint id
          | EndOfData => KindEndOfData
          | _ => KindOtherMarker
          end)
  end.

Inductive Mk :=
| MkData | MkWatermark (micros : Z) | MkCheckpoint (id : N) | MkIdle | MkEndOfData | MkOther.
Definition classify_mk (batch : RecordBatch) : Mk :=
  match marker_column batch ≫= first_marker with
  | None => MkData
  | Some bytes =>
      match marker_decode bytes with
      | Ok (Watermark _ timestamp) => MkWatermark (dt_timestamp_micros timestamp)
      | Ok (Checkpoint id) => MkCheckpoint id
      | Ok (Idle _) => MkIdle
      | Ok EndOfData => MkEndOfData
      | _ => MkOther
      end
  end.

Definition is_marker_batch (batch : RecordBatch) : bool :=
  match marker_column batch with
  | Some m => (null_count m <? length m)%nat
  | None => false
  end.

(** ** Rewriting the marker of a batch ([exchange.rs]) *)
Definition with_marker (template : RecordBatch) (m : FlowMarker) (idx : nat)
    : FlowResult RecordBatch :=
  batch_try_new (batch_schema template)
    (<[idx := binary_array [Some (marker_encode m)]]> (batch_columns template)).
(** The position of the markers; the text of Arrow's error is left out. *)
Definition marker_index (template : RecordBatch) : FlowResult nat :=
  match index_of MARKER_FIELD_NAME (batch_schema template) with
  | Some idx => Ok idx
  | None => Err (FeEngine "")
  end.
Definition rewrite_checkpoint (template : RecordBatch) (id : N) : FlowResult RecordBatch :=
  idx ← marker_index template;
  with_marker template (Checkpoint id) idx.
Definition rewrite_watermark (template : RecordBatch) (micros : Z) : FlowResult RecordBatch :=
  idx ← marker_index template;
  ts ← (match dt_from_timestamp_micros micros with
        | Some ts => Ok ts
        | None => Err (FeExecution ("invalid watermark micros " +:+ pretty micros))
        end : FlowResult _);
  with_marker template (Watermark "merged" ts) idx.
End Coding.

(** ** Streaming: theorems on flow events

    Markers, schemas and events survive their encoding; an encoded batch decodes to
    the events its rows are split into at the markers; the classifications of a
    batch agree with the event it encodes. *)

Section Theorems.
Context `{E : FlowEngine} `{EL : !FlowEngineLaws E} `{C : !BatchCheck} `{CL : !BatchCheckLaws C}.

(** ** Markers, schemas and columns *)
Lemma drop_S_inv {A} (l : list A) i x rest : drop i l = x :: rest → l !! i = Some x ∧ rest = drop (S i) l.
Proof.
  intros H. assert (l !! i = Some x) as Hl by (rewrite <- (Nat.add_0_r i), <- lookup_drop; by rewrite H).
  split; [done|]. apply drop_S in Hl. congruence.
Qed.
Lemma marker_decode_encode m : marker_decode (marker_encode m) = Ok m.
Proof.
  unfold marker_decode, marker_encode. rewrite gen_decode_encode.
  destruct m; simpl; by rewrite ?from_timestamp_of.
Qed.

Lemma schema_decode_encode schema : try_from_flow_event_schema (to_flow_event_schema schema) = Ok schema.
Proof.
  unfold try_from_flow_event_schema, to_flow_event_schema, is_marker_field, is_retracted_field.
  simpl. by rewrite !bool_decide_eq_true_2 by done.
Qed.

Lemma batch_try_new_ok schema columns n :
  columns_match schema columns n → batch_try_new schema columns = Ok (MkRecordBatch schema columns n).
Proof. intros H%check_columns_ok. unfold batch_try_new. by rewrite H. Qed.
Lemma batch_try_new_wf schema columns b :
  batch_try_new schema columns = Ok b → batch_wf b ∧ batch_schema b = schema ∧ batch_columns b = columns.
Proof.
  unfold batch_try_new. destruct (check_columns _ _) as [n|] eqn:H; [|done].
  intros [= <-]. split; [|done]. by apply check_columns_ok.
Qed.

Lemma columns_match_flow schema columns markers retracted n :
  Forall2 (λ f c, array_fits (field_type f) (field_nullable f) c ∧ array_len c = n) schema columns →
  length markers = n → length retracted = n →
  columns_match (to_flow_event_schema schema)
    (binary_array markers :: boolean_array retracted :: columns) n.
Proof.
  intros HF Hm Hr. split; [done|]. repeat constructor; simpl; [..|done].
  - apply binary_array_fits.
  - by rewrite binary_array_len.
  - apply boolean_array_fits.
  - by rewrite boolean_array_len.
Qed.

Lemma null_count_nulls {A} n : null_count (replicate n (@None A)) = n.
Proof. induction n; simpl; by f_equal. Qed.
Lemma null_count_le {A} (l : list (option A)) : null_count l ≤ length l.
Proof. induction l as [|[a|] l IH]; simpl; lia. Qed.
Lemma null_count_all {A} (l : list (option A)) : null_count l = length l → l = replicate (length l) None.
Proof.
  induction l as [|[a|] l IH]; simpl; intros H; [done| |].
  - pose proof (null_count_le l). lia.
  - f_equal. apply IH. lia.
Qed.
Lemma first_marker_none (l : list (option Bytes)) : null_count l = length l → first_marker l = None.
Proof. intros ->%null_count_all. by induction (length l). Qed.

(** ** Events *)
Definition event_wf (schema : list Field) (e : FlowEvent) : Prop :=
  match e with
  | FlowData b retracted =>
      batch_wf b ∧ batch_schema b = schema ∧ length retracted = batch_num_rows b
  | FlowMark _ => schema ≠ [] ∧ is_ok (collect_results (placeholder_column <$> schema)) = true
  end.
(** A batch without rows is no event after decoding. *)
Definition decoded_events (e : FlowEvent) : list FlowEvent :=
  match e with
  | FlowData b _ => if (batch_num_rows b =? 0)%nat then [] else [e]
  | FlowMark _ => [e]
  end.
Definition event_kind (e : FlowEvent) : BatchKind :=
  match e with
  | FlowData _ _ => KindData
  | FlowMark (Checkpoint id) => KindCheckpoint id
  | FlowMark EndOfData => KindEndOfData
  | FlowMark _ => KindOtherMarker
  end.
Definition event_mk (e : FlowEvent) : Mk :=
  match e with
  | FlowData _ _ => MkData
  | FlowMark (Watermark _ t) => MkWatermark (dt_timestamp_micros t)
  | FlowMark (Checkpoint id) => MkCheckpoint id
  | FlowMark (Idle _) => MkIdle
  | FlowMark EndOfData => MkEndOfData
  | FlowMark (LatencyTracker _ _ _) => MkOther
  end.
Definition is_mark (e : FlowEvent) : bool := if e is FlowMark _ then true else false.

Lemma placeholders_fit schema columns :
  collect_results (placeholder_column <$> schema) = Ok columns →
  Forall2 (λ f c, array_fits (field_type f) (field_nullable f) c ∧ array_len c = 1) schema columns.
Proof.
  intros H%collect_results_Ok. revert columns H.
  induction schema as [|f schema IH]; intros [|c columns] H; simplify_eq/=; [done|].
  rename select (placeholder_column f = _) into Hc. rename select (_ <$> schema = _) into H. constructor; [|by apply IH].
  unfold placeholder_column in Hc. destruct (field_nullable f).
  - injection Hc as <-. split; [apply null_array_fits|apply null_array_len].
  - by apply placeholder_array_fits.
Qed.

(** The rows of the encoding of an event. *)
Definition encoded_rows (e : FlowEvent) : nat :=
  match e with FlowData b _ => batch_num_rows b | FlowMark _ => 1 end.
Definition encoded_markers (e : FlowEvent) : list (option Bytes) :=
  match e with
  | FlowData b _ => replicate (batch_num_rows b) None
  | FlowMark m => [Some (marker_encode m)]
  end.
Definition encoded_retracted (e : FlowEvent) : list bool :=
  match e with FlowData _ r => r | FlowMark _ => [false] end.
Lemma encode_columns schema e :
  event_wf schema e →
  ∃ columns, columns_match schema columns (encoded_rows e) ∧
    (∀ b r, e = FlowData b r → columns = batch_columns b) ∧
    encode_inner schema e =
      Ok (MkRecordBatch (to_flow_event_schema schema)
        (binary_array (encoded_markers e) :: boolean_array (encoded_retracted e) :: columns)
        (encoded_rows e)).
Proof.
  destruct e as [b r|m]; simpl.
  - intros (Hwf & <- & Hr). exists (batch_columns b). split; [done|]. split; [by intros ?? [= <- <-]|].
    unfold encode_inner. simpl. apply batch_try_new_ok, columns_match_flow; [apply Hwf| |done].
    by rewrite length_replicate.
  - intros [Hne Hok]. destruct (collect_results _) as [cs|] eqn:Hcs; [|done].
    exists cs. pose proof (placeholders_fit _ _ Hcs) as HF. split; [|split; [done|]].
    { split; [|done]. intros ->. by inversion HF. }
    unfold encode_inner. rewrite Hcs. simpl. by apply batch_try_new_ok, columns_match_flow.
Qed.

Lemma decode_rows_nulls data retracted i start n :
  decode_rows data retracted i (Some start) (replicate n None) =
  Ok (flush_rows data retracted (Some start) (i + n)).
Proof.
  revert i. induction n as [|n IH]; intros i; simpl; [by rewrite Nat.add_0_r|].
  by rewrite IH, Nat.add_succ_comm.
Qed.

(** C34. An event survives its encoding: for a batch that fits the schema of the
    stream, and for a marker on a schema with a column and with placeholders for its
    columns, the encoding succeeds and decodes to that event alone; a batch without
    rows decodes to no event. *)
Theorem event_roundtrip schema e :
  event_wf schema e →
  ∃ b, encode_inner schema e = Ok b ∧ decode schema b = Ok (decoded_events e).
Proof.
  intros Hwf. destruct (encode_columns schema e Hwf) as (columns & Hm & Hc & ->).
  eexists. split; [done|]. unfold decode, get_special_columns_and_data. simpl.
  rewrite as_binary_array, as_boolean_array. rewrite (batch_try_new_ok _ _ _ Hm). simpl.
  destruct e as [b r|m]; simpl.
  - destruct Hwf as (_ & Hs & Hr). rewrite (Hc _ _ eq_refl), null_count_nulls.
    destruct b as [sc cols n]. simpl in *. subst sc.
    destruct n as [|n]; [done|]. by rewrite Nat.eqb_refl.
  - by rewrite marker_decode_encode.
Qed.

(** The kind of batch that the merges see. *)
Lemma classify_encoded schema e b :
  event_wf schema e → encode_inner schema e = Ok b →
  classify b = Ok (event_kind e) ∧ classify_mk b = event_mk e ∧ is_marker_batch b = is_mark e.
Proof.
  intros Hwf Hb. destruct (encode_columns schema e Hwf) as (columns & Hm & Hc & Hb').
  rewrite Hb in Hb'. injection Hb' as ->. unfold classify, classify_mk, is_marker_batch, marker_column.
  simpl. rewrite as_binary_array. simpl.
  destruct e as [b r|m]; simpl.
  - rewrite first_marker_none by (by rewrite null_count_nulls, length_replicate).
    rewrite null_count_nulls, length_replicate. split_and!; [done..|]. apply Nat.ltb_irrefl.
  - rewrite marker_decode_encode. simpl. by destruct m.
Qed.

(** ** Batches of several events

    The events of a batch from row [i] on: a row with a marker is that marker's
    event, and each maximal run of rows without one is a data event. *)
Inductive segments (data : RecordBatch) (retracted : list bool) (markers : list (option Bytes))
    : nat → list FlowEvent → Prop :=
| SegEnd : segments data retracted markers (length markers) []
| SegMarker i bytes m events :
    markers !! i = Some (Some bytes) → marker_decode bytes = Ok m →
    segments data retracted markers (S i) events →
    segments data retracted markers i (FlowMark m :: events)
| SegData i len events :
    0 < len → (∀ k, i ≤ k < i + len → markers !! k = Some None) →
    markers !! (i + len) ≠ Some None →
    segments data retracted markers (i + len) events →
    segments data retracted markers i
      (FlowData (batch_slice data i len) (take len (drop i retracted)) :: events).

Lemma segments_flush data retracted markers i start events :
  match start with
  | Some s => s < i ∧ ∀ k, s ≤ k < i → markers !! k = Some None
  | None => True
  end →
  markers !! i ≠ Some None → segments data retracted markers i events →
  segments data retracted markers (default i start) (flush_rows data retracted start i ++ events).
Proof.
  destruct start as [s|]; simpl; [|done]. intros [Hs Hk] Hi Hseg. apply SegData; [lia|..].
  - intros k Hb. apply Hk. lia.
  - by replace (s + (i - s)) with i by lia.
  - by replace (s + (i - s)) with i by lia.
Qed.

Lemma decode_rows_segments data retracted markers i start events :
  i ≤ length markers →
  match start with
  | Some s => s < i ∧ ∀ k, s ≤ k < i → markers !! k = Some None
  | None => True
  end →
  decode_rows data retracted i start (drop i markers) = Ok events →
  segments data retracted markers (default i start) events.
Proof.
  remember (drop i markers) as rest eqn:Hrest. revert i start events Hrest.
  induction rest as [|[bytes|] rest IH]; intros i start events Hrest Hi Hstart; simpl.
  - intros [= <-]. rewrite <- (app_nil_r (flush_rows _ _ _ _)).
    assert (i = length markers) as ->.
    { apply (f_equal length) in Hrest. rewrite length_drop in Hrest. simpl in Hrest. lia. }
    apply segments_flush; [done| |constructor]. by rewrite lookup_ge_None_2.
  - destruct (marker_decode bytes) as [m|] eqn:Hm; [|done]. simpl.
    destruct (drop_S_inv _ _ _ _ (eq_sym Hrest)) as [Hl Hd].
    destruct (decode_rows _ _ _ _ _) as [evs|] eqn:Hevs; [|done]. intros [= <-].
    apply segments_flush; [done|by rewrite Hl|]. apply SegMarker with bytes; [done..|].
    apply (IH (S i) None); [done| |done|done]. apply lookup_lt_Some in Hl. lia.
  - destruct (drop_S_inv _ _ _ _ (eq_sym Hrest)) as [Hl Hd]. intros Hevs.
    apply lookup_lt_Some in Hl as Hlt.
    assert (Hnull : markers !! i = Some None) by done.
    replace (default i start) with (default (S i) (Some (default i start))) by done.
    apply (IH (S i) (Some (default i start))); [done|lia| |done].
    destruct start as [s|]; simpl.
    + destruct Hstart as [Hs Hk]. split; [lia|]. intros k Hb.
      destruct (decide (k = i)) as [->|]; [done|]. apply Hk. lia.
    + split; [lia|]. intros k Hb. by replace k with i by lia.
Qed.

Lemma decode_rows_ok data retracted i start markers :
  (∀ bytes, Some bytes ∈ markers → is_ok (marker_decode bytes) = true) →
  is_ok (decode_rows data retracted i start markers) = true.
Proof.
  revert i start. induction markers as [|[bytes|] markers IH]; intros i start H; simpl; [done| |].
  - specialize (H bytes ltac:(set_solver)) as Hb. destruct (marker_decode bytes); [|done]. simpl.
    specialize (IH (S i) None ltac:(set_solver)). by destruct (decode_rows _ _ _ _ _).
  - apply IH. set_solver.
Qed.

Lemma batch_slice_all b : batch_wf b → batch_slice b 0 (batch_num_rows b) = b.
Proof.
  destruct b as [schema columns n]. intros [_ H]. simpl in *. unfold batch_slice. simpl. f_equal.
  induction H as [|f c fs cs [_ <-] H IH]; [done|]. simpl. f_equal; [apply array_slice_all|done].
Qed.

(** The parts of a batch of a stream of events. *)
Lemma special_columns schema b :
  schema ≠ [] → batch_wf b → batch_schema b = to_flow_event_schema schema →
  ∃ markers retracted data,
    get_special_columns_and_data schema b = Ok (markers, retracted, data) ∧
    marker_column b = Some markers ∧ length markers = batch_num_rows b ∧
    length retracted = batch_num_rows b ∧ batch_wf data ∧ batch_num_rows data = batch_num_rows b.
Proof.
  intros Hne [_ HF] Hs. destruct b as [sc cols n]. simpl in *. subst sc.
  inversion HF as [|f cm fs cs [Hm Hml] HF1]; subst.
  inversion HF1 as [|g cr gs cs' [Hr Hrl] HF2]; subst. simpl in *.
  apply fits_binary in Hm as [markers Hm]. apply fits_boolean in Hr as [retracted Hr].
  assert (columns_match schema cs' (array_len cm)) as Hcm.
  { split; [|done]. intros ->. by inversion HF2. }
  exists markers, retracted, (MkRecordBatch schema cs' (array_len cm)).
  unfold get_special_columns_and_data, marker_column. simpl. rewrite Hm, Hr.
  rewrite (batch_try_new_ok _ _ _ Hcm). split_and!; try done.
  - symmetry. by apply as_binary_len.
  - rewrite <- Hrl. symmetry. by apply as_boolean_len.
Qed.

(** A batch of a stream of events decodes, when all of its markers do, to the
    events that its rows are split into at the markers; the case of a batch without
    markers, for which the rows are not visited, agrees. *)
Theorem decode_splits_at_markers schema b :
  schema ≠ [] → batch_wf b → batch_schema b = to_flow_event_schema schema →
  (∀ markers bytes, marker_column b = Some markers → Some bytes ∈ markers →
    is_ok (marker_decode bytes) = true) →
  ∃ markers retracted data events,
    get_special_columns_and_data schema b = Ok (markers, retracted, data) ∧
    decode schema b = Ok events ∧ segments data retracted markers 0 events.
Proof.
  intros Hne Hwf Hs Hok.
  destruct (special_columns schema b Hne Hwf Hs)
    as (markers & retracted & data & Hp & Hmc & Hml & Hrl & Hd & Hn).
  exists markers, retracted, data. unfold decode. rewrite Hp. simpl.
  destruct (_ && _) eqn:Hfast.
  - apply andb_prop in Hfast as [H0%Nat.ltb_lt Hnull%Nat.eqb_eq]. eexists. split_and!; [done..|].
    rewrite <- Hml in Hnull. apply null_count_all in Hnull. rewrite Hml in Hnull. subst markers.
    pose proof (SegData data retracted (replicate (batch_num_rows b) None) 0 (batch_num_rows b) [])
      as Hseg.
    rewrite <- Hn, batch_slice_all, drop_0, Hn, <- Hrl, firstn_all, Hrl in Hseg by done.
    apply Hseg; [lia|..].
    + intros k Hk. apply lookup_replicate_2. lia.
    + rewrite lookup_ge_None_2; [done|]. by rewrite length_replicate.
    + rewrite <- Hml at 2. constructor.
  - pose proof (decode_rows_ok data retracted 0 None markers) as Ht.
    destruct (decode_rows _ _ _ _ _) as [events|] eqn:Hev.
    + exists events. split_and!; [done..|]. apply (decode_rows_segments _ _ _ 0 None); [lia|done|].
      by rewrite drop_0.
    + ospecialize (Ht _); [|done]. by intros bytes; apply Hok.
Qed.
End Theorems.
