(* ===== verification/EpochCoordinator.v ===== *)
(** * Streaming: the epoch coordinator

    [zelox-common-datafusion/src/streaming/coordinator.rs]: the clock of the epochs
    of a streaming job.  It triggers epochs, collects the acknowledgements of the
    tasks, and declares an epoch complete when all tasks acknowledged it. *)

From Stdlib Require Import String.
From S2P Require Import Prelude FlowEvents.
Local Open Scope N_scope.

(** ** Data *)
Record EpochAck := MkEpochAck { ack_offsets : gmap string Z; ack_state_ptrs : gmap string string }.
Definition epoch_ack_default : EpochAck := MkEpochAck ∅ ∅.
Record GlobalCheckpoint := MkGlobalCheckpoint {
  gc_epoch : N; gc_offsets : gmap string Z; gc_state_ptrs : gmap string string }.
Record EpochState := MkEpochState { es_acked : gset N; es_merged : EpochAck }.
Record EpochCoordinator := MkEpochCoordinator {
  ec_expected : gset N;
  ec_in_flight : gmap N EpochState;
  ec_last_triggered : option N;
  ec_last_committed : option N;
  ec_max_in_flight : nat
}.

(** The sum of two [u64]s in the release profile, which does not check for overflow. *)
Definition wrapping_add_u64 (a b : N) : N := (a + b) mod (u64_max + 1).

(** [BTreeMap::extend]: the new entries win. *)
Definition extend {V} (m new : gmap string V) : gmap string V := new ∪ m.

(** ** Operations *)
Definition coordinator_new (expected_tasks : list N) (max_in_flight : nat)
    : FlowResult EpochCoordinator :=
  let expected : gset N := list_to_set expected_tasks in
  if bool_decide (expected = ∅) then
    Err (FePlan "EpochCoordinator requires at least one expected task")
  else if bool_decide (max_in_flight = 0%nat) then
    Err (FePlan "EpochCoordinator requires max_in_flight >= 1")
  else Ok (MkEpochCoordinator expected ∅ None None max_in_flight).

Definition in_flight_count (c : EpochCoordinator) : nat := size (ec_in_flight c).

Definition next_epoch (c : EpochCoordinator) : N :=
  match ec_last_triggered c, ec_last_committed c with
  | Some t, _ => wrapping_add_u64 t 1
  | None, Some c => wrapping_add_u64 c 1
  | None, None => 0
  end.
Definition trigger (c : EpochCoordinator) : FlowResult N * EpochCoordinator :=
  if bool_decide (ec_max_in_flight c ≤ in_flight_count c)%nat then
    (Err (FePlan ("EpochCoordinator: " +:+ pretty (N.of_nat (in_flight_count c)) +:+
       " epochs already in flight (max " +:+ pretty (N.of_nat (ec_max_in_flight c)) +:+ ")")), c)
  else
    let epoch := next_epoch c in
    (Ok epoch, MkEpochCoordinator (ec_expected c)
       (<[epoch := MkEpochState ∅ epoch_ack_default]> (ec_in_flight c))
       (Some epoch) (ec_last_committed c) (ec_max_in_flight c)).

Definition epoch_state_ack (s : EpochState) (task : N) (a : EpochAck) : EpochState :=
  if bool_decide (task ∈ es_acked s) then s
  else MkEpochState ({[task]} ∪ es_acked s)
    (MkEpochAck (extend (ack_offsets (es_merged s)) (ack_offsets a))
       (extend (ack_state_ptrs (es_merged s)) (ack_state_ptrs a))).

Definition with_in_flight (c : EpochCoordinator) (m : gmap N EpochState) : EpochCoordinator :=
  MkEpochCoordinator (ec_expected c) m (ec_last_triggered c) (ec_last_committed c)
    (ec_max_in_flight c).

Definition already_committed (c : EpochCoordinator) (epoch : N) : bool :=
  match ec_last_committed c with Some l => bool_decide (epoch ≤ l) | None => false end.

Definition coordinator_ack (c : EpochCoordinator) (epoch task : N) (a : EpochAck)
    : FlowResult (option GlobalCheckpoint) * EpochCoordinator :=
  if bool_decide (task ∉ ec_expected c) then
    (Err (FePlan ("EpochCoordinator: ack from unknown task " +:+ pretty task)), c)
  else if already_committed c epoch then (Ok None, c)
  else
    match ec_in_flight c !! epoch with
    | None => (Ok None, c)
    | Some s =>
        let s := epoch_state_ack s task a in
        if bool_decide (size (es_acked s) < size (ec_expected c))%nat then
          (Ok None, with_in_flight c (<[epoch := s]> (ec_in_flight c)))
        else
          let rest := filter (λ '(e, _), epoch < e) (delete epoch (ec_in_flight c)) in
          (Ok (Some (MkGlobalCheckpoint epoch (ack_offsets (es_merged s))
                       (ack_state_ptrs (es_merged s)))),
           MkEpochCoordinator (ec_expected c) rest (ec_last_triggered c) (Some epoch)
             (ec_max_in_flight c))
    end.

Definition abort (c : EpochCoordinator) (epoch : N) : EpochCoordinator :=
  with_in_flight c (delete epoch (ec_in_flight c)).

Definition recover (c : EpochCoordinator) (last_committed : N) : EpochCoordinator :=
  MkEpochCoordinator (ec_expected c) ∅ (Some last_committed) (Some last_committed)
    (ec_max_in_flight c).

(** ** Runs

    A sequence of calls, and what each of them returned. *)
Inductive CoordCall :=
| CallTrigger
| CallAck (epoch task : N) (a : EpochAck)
| CallAbort (epoch : N).
Inductive CoordEvent :=
| EvTriggered (epoch : N)
| EvAcked (epoch task : N) (a : EpochAck) (completed : option GlobalCheckpoint)
| EvAborted (epoch : N)
| EvFailed (e : FlowError).

Definition coord_call (c : EpochCoordinator) (call : CoordCall) : CoordEvent * EpochCoordinator :=
  match call with
  | CallTrigger =>
      match trigger c with (Ok e, c) => (EvTriggered e, c) | (Err e, c) => (EvFailed e, c) end
  | CallAck epoch task a =>
      match coordinator_ack c epoch task a with
      | (Ok r, c) => (EvAcked epoch task a r, c)
      | (Err e, c) => (EvFailed e, c)
      end
  | CallAbort epoch => (EvAborted epoch, abort c epoch)
  end.
Fixpoint coord_calls (c : EpochCoordinator) (calls : list CoordCall)
    : list CoordEvent * EpochCoordinator :=
  match calls with
  | [] => ([], c)
  | call :: calls =>
      let '(ev, c) := coord_call c call in
      let '(evs, c) := coord_calls c calls in
      (ev :: evs, c)
  end.

(** A coordinator that was just created, or recovered after a committed epoch. *)
Definition coordinator_start (c : EpochCoordinator) (committed : option N) : EpochCoordinator :=
  match committed with Some e => recover c e | None => c end.

(** ** What a completed epoch is made of

    The acknowledgements of an epoch, the first one of each task. *)
Definition first_ack (epoch : N) (acks : list (N * EpochAck)) (ev : CoordEvent)
    : list (N * EpochAck) :=
  match ev with
  | EvAcked e t a _ =>
      if bool_decide (e = epoch ∧ t ∉ acks.*1) then acks ++ [(t, a)] else acks
  | _ => acks
  end.
Definition first_acks (epoch : N) (evs : list CoordEvent) : list (N * EpochAck) :=
  foldl (first_ack epoch) [] evs.
Definition merge_acks (acks : list (N * EpochAck)) : EpochAck :=
  foldl (λ m '(_, a), MkEpochAck (extend (ack_offsets m) (ack_offsets a))
                        (extend (ack_state_ptrs m) (ack_state_ptrs a))) epoch_ack_default acks.

(** ** The invariant of runs *)
Definition above (e : N) (o : option N) : Prop := match o with Some l => l < e | None => True end.
Record coord_inv (c0 : EpochCoordinator) (start : N) (evs : list CoordEvent)
    (c : EpochCoordinator) : Prop := {
  ci_expected : ec_expected c = ec_expected c0 ∧ ec_max_in_flight c = ec_max_in_flight c0;
  ci_bound : (in_flight_count c ≤ ec_max_in_flight c)%nat;
  ci_clock : from_option (λ l, l < start + N.of_nat (length evs)) True (ec_last_triggered c) ∧
    (ec_last_triggered c = None → ec_last_committed c = None);
  ci_order : ∀ l, ec_last_committed c = Some l → from_option (λ t, l ≤ t) False (ec_last_triggered c);
  ci_triggered : ∀ j e, evs !! j = Some (EvTriggered e) →
    from_option (λ t, e ≤ t) False (ec_last_triggered c);
  ci_open : ∀ e s, ec_in_flight c !! e = Some s →
    above e (ec_last_committed c) ∧
    ∃ j, evs !! j = Some (EvTriggered e) ∧
      let acks := first_acks e (drop (S j) evs) in
      es_acked s = list_to_set acks.*1 ∧ es_merged s = merge_acks acks ∧
      es_acked s ⊂ ec_expected c0;
  ci_done : ∀ j e t a gc, evs !! j = Some (EvAcked e t a (Some gc)) →
    from_option (λ l, e ≤ l) False (ec_last_committed c);
  ci_start : ∀ l, ec_last_committed c0 = Some l →
    from_option (λ l', l ≤ l') False (ec_last_committed c);
  ci_live : ∀ j e, evs !! j = Some (EvTriggered e) → EvAborted e ∉ drop j evs →
    above e (ec_last_committed c) → is_Some (ec_in_flight c !! e);
  ci_unique : ∀ j k e, evs !! j = Some (EvTriggered e) → evs !! k = Some (EvTriggered e) → j = k
}.

(** ** Streaming: theorems on the epoch coordinator *)

(** ** One acknowledgement *)
Definition acks_state (acks : list (N * EpochAck)) : EpochState :=
  MkEpochState (list_to_set acks.*1) (merge_acks acks).

Lemma epoch_state_ack_acks e acks t a r :
  epoch_state_ack (acks_state acks) t a = acks_state (first_ack e acks (EvAcked e t a r)).
Proof.
  unfold epoch_state_ack. simpl. destruct (decide (t ∈ acks.*1)) as [Hin|Hin].
  - rewrite bool_decide_eq_true_2 by set_solver. by rewrite bool_decide_eq_false_2 by tauto.
  - rewrite bool_decide_eq_false_2 by set_solver. rewrite bool_decide_eq_true_2 by done.
    unfold acks_state, merge_acks. rewrite fmap_app, foldl_app. simpl. f_equal. set_solver.
Qed.

Inductive ack_outcome (c : EpochCoordinator) (e t : N) (a : EpochAck) :
    FlowResult (option GlobalCheckpoint) → EpochCoordinator → Prop :=
| AckUnknown msg : t ∉ ec_expected c → ack_outcome c e t a (Err (FePlan msg)) c
| AckStale : t ∈ ec_expected c → already_committed c e = true ∨ ec_in_flight c !! e = None →
    ack_outcome c e t a (Ok None) c
| AckPartial s : t ∈ ec_expected c → ec_in_flight c !! e = Some s →
    (size (es_acked (epoch_state_ack s t a)) < size (ec_expected c))%nat →
    ack_outcome c e t a (Ok None)
      (with_in_flight c (<[e := epoch_state_ack s t a]> (ec_in_flight c)))
| AckCompletes s : t ∈ ec_expected c → ec_in_flight c !! e = Some s →
    (size (ec_expected c) ≤ size (es_acked (epoch_state_ack s t a)))%nat →
    ack_outcome c e t a
      (Ok (Some (MkGlobalCheckpoint e (ack_offsets (es_merged (epoch_state_ack s t a)))
                   (ack_state_ptrs (es_merged (epoch_state_ack s t a))))))
      (MkEpochCoordinator (ec_expected c)
         (filter (λ '(e', _), e < e') (delete e (ec_in_flight c)))
         (ec_last_triggered c) (Some e) (ec_max_in_flight c)).
Lemma coordinator_ack_outcome c e t a :
  ack_outcome c e t a (coordinator_ack c e t a).1 (coordinator_ack c e t a).2.
Proof.
  unfold coordinator_ack. case_bool_decide as Ht; [by constructor|].
  destruct (already_committed c e) eqn:Ha; [constructor; [done|by left]|].
  destruct (ec_in_flight c !! e) as [s|] eqn:Hs; [|constructor; [done|by right]].
  case_bool_decide as Hn; [by constructor|]. simpl. apply AckCompletes; [done..|lia].
Qed.

Lemma first_acks_snoc e j evs ev :
  (j < length evs)%nat →
  first_acks e (drop (S j) (evs ++ [ev])) = first_ack e (first_acks e (drop (S j) evs)) ev.
Proof. intros Hj. unfold first_acks. by rewrite drop_app_le, foldl_app by lia. Qed.

Lemma first_ack_other e acks ev :
  (∀ t a r, ev ≠ EvAcked e t a r) → first_ack e acks ev = acks.
Proof.
  destruct ev as [|e' t a r| |]; simpl; [done| |done..]. intros H.
  rewrite bool_decide_eq_false_2; [done|]. intros [-> _]. by eapply H.
Qed.

(** What an invariant on the events up to [j] says when an event is added. *)
Lemma not_aborted_snoc e j evs ev :
  EvAborted e ∉ drop j (evs ++ [ev]) → EvAborted e ∉ drop j evs ∧ ((j ≤ length evs)%nat → ev ≠ EvAborted e).
Proof.
  intros H. split.
  - intros Hin. apply H. apply list_elem_of_lookup in Hin as [k Hk]. apply list_elem_of_lookup. exists k.
    rewrite lookup_drop in *. by apply lookup_app_l_Some.
  - intros Hj ->. apply H. rewrite drop_app_le by done. set_solver.
Qed.

Section Run.
Context (c0 : EpochCoordinator) (start : N).
Notation inv := (coord_inv c0 start).

Lemma inv_open_acks evs c e s :
  inv evs c → ec_in_flight c !! e = Some s →
  ∃ j, evs !! j = Some (EvTriggered e) ∧ s = acks_state (first_acks e (drop (S j) evs)).
Proof.
  intros Hi Hs. destruct (ci_open _ _ _ _ Hi e s Hs) as (_ & j & Hj & Ha & Hm & _).
  exists j. split; [done|]. destruct s. simpl in *. by subst.
Qed.

(** An event that leaves the coordinator as it was, and is no acknowledgement that
    counts. *)
Lemma inv_same evs c ev :
  inv evs c →
  (∀ e, ev ≠ EvTriggered e) → (∀ e t a gc, ev ≠ EvAcked e t a (Some gc)) →
  (∀ e t a r, ev = EvAcked e t a r → ec_in_flight c !! e = None) →
  inv (evs ++ [ev]) c.
Proof.
  intros [] Hnt Hnc Hna. split; try done.
  - destruct ci_clock0 as [H1 H2]. split; [|done]. rewrite length_app. simpl.
    destruct (ec_last_triggered c); simpl in *; [lia|done].
  - intros j e [[_ Hj]|[_ Hj]]%lookup_snoc_Some; [by eapply ci_triggered0|]. by destruct (Hnt e).
  - intros e s Hs. destruct (ci_open0 e s Hs) as (Ha & j & Hj & Hrest). split; [done|].
    exists j. rewrite lookup_app_l by (by eapply lookup_lt_Some). split; [done|].
    rewrite first_acks_snoc by (by eapply lookup_lt_Some).
    rewrite first_ack_other; [done|]. intros t a r ->. by rewrite (Hna _ _ _ _ eq_refl) in Hs.
  - intros j e t a gc [[_ Hj]|[_ Hj]]%lookup_snoc_Some; [by eapply ci_done0|]. by destruct (Hnc e t a gc).
  - intros j e [[Hlt Hj]|[_ Hj]]%lookup_snoc_Some; [|by destruct (Hnt e)].
    intros [Hna' _]%not_aborted_snoc. by eapply ci_live0.
  - intros j k e [[_ Hj]|[_ Hj]]%lookup_snoc_Some [[_ Hk]|[_ Hk]]%lookup_snoc_Some;
      try (by destruct (Hnt e)). by eapply ci_unique0.
Qed.

Lemma inv_trigger evs c :
  inv evs c → start + N.of_nat (length evs) ≤ u64_max → (in_flight_count c < ec_max_in_flight c)%nat →
  ec_expected c0 ≠ ∅ →
  inv (evs ++ [EvTriggered (next_epoch c)])
    (MkEpochCoordinator (ec_expected c)
       (<[next_epoch c := MkEpochState ∅ epoch_ack_default]> (ec_in_flight c))
       (Some (next_epoch c)) (ec_last_committed c) (ec_max_in_flight c)).
Proof.
  intros [] Hmax Hroom Hne.
  assert (∀ t, ec_last_triggered c = Some t → next_epoch c = t + 1) as Hnext.
  { intros t Ht. unfold next_epoch. rewrite Ht. destruct ci_clock0 as [Hc _]. rewrite Ht in Hc.
    simpl in Hc. unfold wrapping_add_u64. rewrite N.mod_small; lia. }
  assert (next_epoch c ≤ start + N.of_nat (length evs)) as Hlt.
  { destruct ci_clock0 as [Hc Hn]. destruct (ec_last_triggered c) as [t|] eqn:Ht.
    - rewrite (Hnext t eq_refl). simpl in Hc. lia.
    - unfold next_epoch. rewrite Ht, Hn by done. lia. }
  assert (above (next_epoch c) (ec_last_committed c)) as Habove.
  { destruct (ec_last_committed c) as [l|] eqn:Hl; [|done]. specialize (ci_order0 l eq_refl).
    destruct (ec_last_triggered c) as [t|] eqn:Ht; [|done]. simpl in *. rewrite (Hnext t eq_refl). lia. }
  remember (next_epoch c) as nx eqn:Hnx. clear Hnx. split; simpl; try done.
  - unfold in_flight_count in *. simpl. rewrite map_size_insert. destruct (ec_in_flight c !! nx); simpl; lia.
  - rewrite length_app. simpl. split; [lia|done].
  - intros l Hl. rewrite Hl in Habove. simpl in Habove. lia.
  - intros j e [[_ Hj]|[_ [= ->]]]%lookup_snoc_Some; [|lia].
    specialize (ci_triggered0 j e Hj). destruct (ec_last_triggered c) as [t|] eqn:Ht; [|done].
    simpl in *. rewrite (Hnext t eq_refl). lia.
  - intros e s [[<- <-]|[Hne' Hs]]%lookup_insert_Some; simpl.
    + split; [done|]. exists (length evs). split; [by apply list_lookup_middle|].
      rewrite drop_ge by (rewrite length_app; simpl; lia). simpl. split_and!; [done..|]. set_solver.
    + destruct (ci_open0 e s Hs) as (Ha & j & Hj & Hrest). split; [done|]. exists j.
      rewrite lookup_app_l by (by eapply lookup_lt_Some). split; [done|].
      by rewrite first_acks_snoc by (by eapply lookup_lt_Some).
  - intros j e t a gc [[_ Hj]|[_ Hj]]%lookup_snoc_Some; [by eapply ci_done0|done].
  - intros j e [[Hlt' Hj]|[_ [= ->]]]%lookup_snoc_Some; [|by rewrite lookup_insert_eq].
    intros [Hna _]%not_aborted_snoc Hab. destruct (decide (e = nx)) as [->|]; [by rewrite lookup_insert_eq|].
    rewrite lookup_insert_ne by done. by eapply ci_live0.
  - assert (∀ j e, evs !! j = Some (EvTriggered e) → e < nx) as Hold.
    { intros j e Hj. specialize (ci_triggered0 j e Hj).
      destruct (ec_last_triggered c) as [t|] eqn:Ht; [|done]. simpl in *. rewrite (Hnext t eq_refl). lia. }
    intros j k e [[_ Hj]|[-> Hj]]%lookup_snoc_Some [[_ Hk]|[-> Hk]]%lookup_snoc_Some;
      simplify_eq; [by eapply ci_unique0| | |done].
    + specialize (Hold _ _ Hj). lia.
    + specialize (Hold _ _ Hk). lia.
Qed.

Lemma inv_partial evs c e t a s :
  inv evs c → t ∈ ec_expected c → ec_in_flight c !! e = Some s →
  (size (es_acked (epoch_state_ack s t a)) < size (ec_expected c))%nat →
  inv (evs ++ [EvAcked e t a None])
    (with_in_flight c (<[e := epoch_state_ack s t a]> (ec_in_flight c))).
Proof.
  intros Hi Ht Hs Hn. destruct (inv_open_acks evs c e s Hi Hs) as (j0 & Hj0 & Hs0). destruct Hi.
  split; simpl; try done.
  - unfold in_flight_count in *. simpl. by rewrite map_size_insert, Hs.
  - destruct ci_clock0 as [H1 H2]. split; [|done]. rewrite length_app. simpl.
    destruct (ec_last_triggered c); simpl in *; [lia|done].
  - intros j e' [[_ Hj]|[_ Hj]]%lookup_snoc_Some; [by eapply ci_triggered0|done].
  - intros e' s' [[<- <-]|[Hne' Hs']]%lookup_insert_Some.
    + destruct (ci_open0 e s Hs) as (Ha & j & Hj & Hacked & Hmerged & Hsub). split; [done|].
      exists j. rewrite lookup_app_l by (by eapply lookup_lt_Some). split; [done|].
      rewrite first_acks_snoc by (by eapply lookup_lt_Some).
      assert (s = acks_state (first_acks e (drop (S j) evs))) as ->
        by (destruct s; simpl in *; by subst).
      rewrite (epoch_state_ack_acks e _ t a None) in *. simpl in *. split_and!; [done..|].
      destruct ci_expected0 as [He _]. rewrite He in *.
      assert (list_to_set (first_ack e (first_acks e (drop (S j) evs)) (EvAcked e t a None)).*1
        ⊆ ec_expected c0) as Hsub'.
      { simpl. case_bool_decide; [|set_solver]. rewrite fmap_app, list_to_set_app_L. simpl. set_solver. }
      split; [done|]. intros Hle%subseteq_size. simpl in *. lia.
    + destruct (ci_open0 e' s' Hs') as (Ha & j & Hj & Hrest). split; [done|]. exists j.
      rewrite lookup_app_l by (by eapply lookup_lt_Some). split; [done|].
      rewrite first_acks_snoc by (by eapply lookup_lt_Some).
      rewrite first_ack_other; [done|]. by intros ??? [= ->].
  - intros j e' t' a' gc [[_ Hj]|[_ Hj]]%lookup_snoc_Some; [by eapply ci_done0|done].
  - intros j e' [[Hlt Hj]|[_ Hj]]%lookup_snoc_Some; [|done].
    intros [Hna _]%not_aborted_snoc Hab. destruct (decide (e' = e)) as [->|]; [by rewrite lookup_insert_eq|].
    rewrite lookup_insert_ne by done. by eapply ci_live0.
  - intros j k e' [[_ Hj]|[_ Hj]]%lookup_snoc_Some [[_ Hk]|[_ Hk]]%lookup_snoc_Some; try done.
    by eapply ci_unique0.
Qed.

(** The epoch that a coordinator completes. *)
Lemma completed_epoch evs c e t a s :
  inv evs c → t ∈ ec_expected c → ec_in_flight c !! e = Some s →
  (size (ec_expected c) ≤ size (es_acked (epoch_state_ack s t a)))%nat →
  above e (ec_last_committed c) ∧
  ∃ j, evs !! j = Some (EvTriggered e) ∧
    ∀ r, let acks := first_acks e (drop (S j) (evs ++ [EvAcked e t a r])) in
      list_to_set acks.*1 = ec_expected c0 ∧ es_merged (epoch_state_ack s t a) = merge_acks acks.
Proof.
  intros Hi Ht Hs Hn. destruct (ci_open _ _ _ _ Hi e s Hs) as (Ha & j & Hj & Hacked & Hmerged & Hsub).
  split; [done|]. exists j. split; [done|]. intros r.
  rewrite first_acks_snoc by (by eapply lookup_lt_Some).
  assert (s = acks_state (first_acks e (drop (S j) evs))) as -> by (destruct s; simpl in *; by subst).
  rewrite (epoch_state_ack_acks e _ t a r) in *. split; [|done].
  destruct (ci_expected _ _ _ _ Hi) as [He _]. rewrite He in *.
  apply set_subseteq_size_eq; [|done]. simpl.
  case_bool_decide; [|simpl in *; set_solver]. rewrite fmap_app, list_to_set_app_L. simpl in *. set_solver.
Qed.

Lemma inv_completes evs c e t a s gc :
  inv evs c → t ∈ ec_expected c → ec_in_flight c !! e = Some s →
  (size (ec_expected c) ≤ size (es_acked (epoch_state_ack s t a)))%nat →
  inv (evs ++ [EvAcked e t a (Some gc)])
    (MkEpochCoordinator (ec_expected c)
       (filter (λ '(e', _), e < e') (delete e (ec_in_flight c)))
       (ec_last_triggered c) (Some e) (ec_max_in_flight c)).
Proof.
  intros Hi Ht Hs Hn. destruct (completed_epoch evs c e t a s Hi Ht Hs Hn) as (Ha & j0 & Hj0 & _).
  destruct Hi. pose proof (ci_triggered0 _ _ Hj0) as Hle.
  assert (∀ e' s', filter (λ '(e', _), e < e') (delete e (ec_in_flight c)) !! e' = Some s' →
    ec_in_flight c !! e' = Some s' ∧ e < e') as Hrest.
  { intros e' s' [Hl Hlt]%map_lookup_filter_Some. by apply lookup_delete_Some in Hl as [_ Hl]. }
  split; simpl; try done.
  - unfold in_flight_count in *. simpl.
    assert (filter (λ '(e', _), e < e') (delete e (ec_in_flight c)) ⊆ ec_in_flight c) as Hsub%map_subseteq_size.
    { apply map_subseteq_spec. intros e' s' He'. by apply Hrest. }
    lia.
  - destruct ci_clock0 as [H1 H2]. split.
    + rewrite length_app. simpl. destruct (ec_last_triggered c); simpl in *; [lia|done].
    + intros Hnone. rewrite Hnone in Hle. done.
  - intros l [= <-]. done.
  - intros j e' [[_ Hj]|[_ Hj]]%lookup_snoc_Some; [by eapply ci_triggered0|done].
  - intros e' s' [Hs' Hlt]%Hrest. destruct (ci_open0 e' s' Hs') as (Ha' & j & Hj & Hr).
    split; [done|]. exists j. rewrite lookup_app_l by (by eapply lookup_lt_Some). split; [done|].
    rewrite first_acks_snoc by (by eapply lookup_lt_Some).
    rewrite first_ack_other; [done|]. intros ??? [= ->]. lia.
  - intros j e' t' a' gc' [[_ Hj]|[_ [= -> _ _ _]]]%lookup_snoc_Some; [|lia].
    specialize (ci_done0 j e' t' a' gc' Hj). destruct (ec_last_committed c); simpl in *; [lia|done].
  - intros l Hl. specialize (ci_start0 l Hl). destruct (ec_last_committed c); simpl in *; [lia|done].
  - intros j e' [[Hlt Hj]|[_ Hj]]%lookup_snoc_Some; [|done].
    intros [Hna _]%not_aborted_snoc Hab. destruct (ci_live0 j e' Hj Hna) as [s' Hs'].
    { destruct (ec_last_committed c); simpl in *; [lia|done]. }
    exists s'. apply map_lookup_filter_Some_2; [|done]. rewrite lookup_delete_ne by lia. done.
  - intros j k e' [[_ Hj]|[_ Hj]]%lookup_snoc_Some [[_ Hk]|[_ Hk]]%lookup_snoc_Some; try done.
    by eapply ci_unique0.
Qed.

Lemma inv_abort evs c e : inv evs c → inv (evs ++ [EvAborted e]) (abort c e).
Proof.
  intros Hi%(inv_same _ _ (EvAborted e)); [|done..]. destruct Hi. split; simpl; try done.
  - unfold in_flight_count in *. simpl.
    pose proof (map_subseteq_size _ _ (delete_subseteq (ec_in_flight c) e)). lia.
  - intros e' s [_ Hs]%lookup_delete_Some. by apply ci_open0.
  - intros j e' Hj Hna Hab. rewrite lookup_delete_ne; [by eapply ci_live0|]. intros ->.
    apply not_aborted_snoc in Hna as [_ Hna]. apply lookup_lt_Some in Hj as Hlt.
    rewrite length_app in Hlt. simpl in Hlt. apply Hna; [lia|done].
Qed.

Lemma inv_step evs c call ev c' :
  inv evs c → start + N.of_nat (length evs) ≤ u64_max → ec_expected c0 ≠ ∅ →
  coord_call c call = (ev, c') → inv (evs ++ [ev]) c'.
Proof.
  intros Hi Hmax Hne. destruct call as [|e t a|e]; simpl.
  - unfold trigger. case_bool_decide as Hn; intros [= <- <-].
    + by apply inv_same.
    + apply inv_trigger; [done..|lia|done].
  - pose proof (coordinator_ack_outcome c e t a) as Ho.
    destruct (coordinator_ack c e t a) as [r c1]. simpl in Ho.
    destruct Ho as [msg Ht|Ht Hst|s Ht Hs Hn|s Ht Hs Hn]; intros [= <- <-].
    + by apply inv_same.
    + apply inv_same; [done..|]. intros ???? [= <- <- <- <-].
      destruct Hst as [Hst|Hst]; [|done]. apply eq_None_not_Some. intros [s Hs].
      destruct (ci_open _ _ _ _ Hi e s Hs) as [Ha _]. unfold already_committed in Hst.
      destruct (ec_last_committed c); [|done]. apply bool_decide_eq_true in Hst. simpl in Ha. lia.
    + by apply inv_partial.
    + by apply inv_completes with s.
  - intros [= <- <-]. by apply inv_abort.
Qed.

(** ** Runs *)
Lemma coord_calls_app c l1 l2 :
  coord_calls c (l1 ++ l2) =
  let '(evs1, c1) := coord_calls c l1 in
  let '(evs2, c2) := coord_calls c1 l2 in (evs1 ++ evs2, c2).
Proof.
  revert c. induction l1 as [|call l1 IH]; intros c; simpl; [by destruct (coord_calls c l2)|].
  destruct (coord_call c call) as [ev c1]. rewrite IH. destruct (coord_calls c1 l1) as [evs1 c2].
  by destruct (coord_calls c2 l2).
Qed.
Lemma coord_calls_length c calls : length (coord_calls c calls).1 = length calls.
Proof.
  revert c. induction calls as [|call calls IH]; intros c; simpl; [done|].
  destruct (coord_call c call) as [ev c1]. specialize (IH c1).
  destruct (coord_calls c1 calls). simpl in *. lia.
Qed.
Lemma inv_run c calls :
  inv [] c → start + N.of_nat (length calls) ≤ u64_max → ec_expected c0 ≠ ∅ →
  inv (coord_calls c calls).1 (coord_calls c calls).2.
Proof.
  intros Hi Hmax Hne. induction calls as [|call calls IH] using rev_ind; [done|].
  rewrite length_app in Hmax. simpl in Hmax. rewrite coord_calls_app.
  pose proof (coord_calls_length c calls) as Hlen. ospecialize (IH _); [lia|].
  destruct (coord_calls c calls) as [evs c1]. simpl in *.
  destruct (coord_call c1 call) as [ev c2] eqn:Hc. simpl.
  eapply inv_step; [done| |done|done]. lia.
Qed.

(** The state in which event [i] was returned. *)
Lemma coord_calls_split c calls i ev :
  (coord_calls c calls).1 !! i = Some ev →
  ∃ call, calls !! i = Some call ∧
    let '(evs, c1) := coord_calls c (take i calls) in
    evs = take i (coord_calls c calls).1 ∧ (coord_call c1 call).1 = ev.
Proof.
  intros Hev. assert (i < length calls)%nat as Hi.
  { apply lookup_lt_Some in Hev. by rewrite coord_calls_length in Hev. }
  destruct (lookup_lt_is_Some_2 calls i Hi) as [call Hcall]. exists call. split; [done|].
  pose proof (coord_calls_length c (take i calls)) as Hlen. rewrite length_take in Hlen.
  assert (coord_calls c calls = coord_calls c (take i calls ++ call :: drop (S i) calls)) as Heq
    by (by rewrite take_drop_middle).
  rewrite coord_calls_app in Heq. rewrite Heq in *. clear Heq.
  destruct (coord_calls c (take i calls)) as [evs c1]. simpl in *.
  destruct (coord_call c1 call) as [ev1 c2]. destruct (coord_calls c2 _) as [evs2 c3]. simpl in *.
  rewrite take_app_le, take_ge by lia. split; [done|].
  rewrite lookup_app_r in Hev by lia. replace (i - length evs)%nat with 0%nat in Hev by lia.
  by injection Hev.
Qed.
End Run.

(** ** Claims *)

Lemma coordinator_new_ok tasks n c :
  coordinator_new tasks n = Ok c →
  c = MkEpochCoordinator (list_to_set tasks) ∅ None None n ∧ (list_to_set tasks : gset N) ≠ ∅ ∧ n ≠ 0%nat.
Proof. unfold coordinator_new. repeat case_bool_decide; intros [= <-]. done. Qed.

Definition start_epoch (committed : option N) : N := match committed with Some e => e + 1 | None => 0 end.
Lemma start_inv tasks n c committed :
  coordinator_new tasks n = Ok c →
  coord_inv (coordinator_start c committed) (start_epoch committed) [] (coordinator_start c committed).
Proof.
  intros (-> & _)%coordinator_new_ok. destruct committed as [e|]; split; simpl; try done.
  - unfold in_flight_count. simpl. rewrite map_size_empty. lia.
  - split; [lia|done].
  - by intros l [= <-].
  - by intros l [= <-].
  - unfold in_flight_count. simpl. rewrite map_size_empty. lia.
Qed.

(** C7. A checkpoint that the coordinator declares complete is one of an epoch that it
    triggered before, every expected task acknowledged the epoch since, its contents
    are those of the first acknowledgement of each task, merged in their order, and
    its epoch is later than the epoch the coordinator recovered and than all epochs
    completed before. *)
Theorem completed_checkpoint tasks max c committed calls i e t a gc :
  coordinator_new tasks max = Ok c →
  start_epoch committed + N.of_nat (length calls) ≤ u64_max →
  let evs := (coord_calls (coordinator_start c committed) calls).1 in
  evs !! i = Some (EvAcked e t a (Some gc)) →
  (∃ j, (j < i)%nat ∧ evs !! j = Some (EvTriggered e) ∧
    let acks := first_acks e (drop (S j) (take (S i) evs)) in
    list_to_set acks.*1 =@{gset N} list_to_set tasks ∧
    gc = MkGlobalCheckpoint e (ack_offsets (merge_acks acks)) (ack_state_ptrs (merge_acks acks))) ∧
  above e committed ∧
  (∀ k e' t' a' gc', (k < i)%nat → evs !! k = Some (EvAcked e' t' a' (Some gc')) → e' < e).
Proof.
  intros Hc Hmax evs Hi. pose proof (start_inv _ _ _ committed Hc) as H0.
  apply coordinator_new_ok in Hc as (-> & Hne & Hn).
  destruct (coord_calls_split _ _ _ _ Hi) as (call & Hcall & Hs).
  pose proof (inv_run _ (start_epoch committed) _ (take i calls) H0) as Hinv.
  destruct (coord_calls _ (take i calls)) as [evs1 c1] eqn:Hrun. destruct Hs as [Hevs1 Hev].
  ospecialize (Hinv _ _).
  { rewrite length_take. lia. }
  { by destruct committed. }
  simpl in Hinv. assert (length evs1 = i) as Hlen.
  { apply lookup_lt_Some in Hi. rewrite Hevs1, length_take. unfold evs in *. lia. }
  destruct call as [|e0 t0 a0|e0]; simpl in Hev;
    [by destruct (trigger c1) as [[]]| |done].
  pose proof (coordinator_ack_outcome c1 e0 t0 a0) as Ho.
  destruct (coordinator_ack c1 e0 t0 a0) as [r c2]. simpl in *.
  destruct Ho as [msg Ht|Ht Hst|s Ht Hs Hsz|s Ht Hs Hsz]; simplify_eq/=.
  destruct (completed_epoch _ _ _ _ _ _ a _ Hinv Ht Hs Hsz) as (Hab & j & Hj & Hacks).
  assert (take (S i) evs = take i evs ++ [EvAcked e t a _]) as Htake by by apply take_S_r.
  unfold evs in *. split; [|split].
  - apply lookup_take_Some in Hj as [Hj Hji]. exists j. split; [done|]. split; [done|]. simpl.
    rewrite Htake. edestruct Hacks as [Hset Hm]. rewrite <- Hm, Hset. split; [|done].
    by destruct committed.
  - destruct committed as [l|]; [|done]. simpl.
    pose proof (ci_start _ _ _ _ Hinv l eq_refl) as Hl.
    destruct (ec_last_committed c1); simpl in *; [lia|done].
  - intros k e' t' a' gc' Hk Hk'.
    pose proof (ci_done _ _ _ _ Hinv k e' t' a' gc') as Hd. ospecialize (Hd _).
    { by rewrite lookup_take_lt. }
    destruct (ec_last_committed c1); simpl in *; [lia|done].
Qed.

(** An epoch that was triggered, was not aborted, and is later than the last
    committed epoch completes with the acknowledgement of the last task that it
    waits for, whatever happens to other epochs meanwhile. *)
Theorem epoch_completes tasks max c committed calls j e t a :
  coordinator_new tasks max = Ok c →
  start_epoch committed + N.of_nat (length calls) ≤ u64_max →
  let '(evs, c') := coord_calls (coordinator_start c committed) calls in
  evs !! j = Some (EvTriggered e) → EvAborted e ∉ drop j evs → above e (ec_last_committed c') →
  t ∈ tasks → (∀ t', t' ∈ tasks → t' = t ∨ t' ∈ (first_acks e (drop (S j) evs)).*1) →
  ∃ gc, coordinator_ack c' e t a =
    (Ok (Some gc), (coordinator_ack c' e t a).2) ∧ gc_epoch gc = e ∧
    ec_last_committed (coordinator_ack c' e t a).2 = Some e.
Proof.
  intros Hc Hmax. pose proof (start_inv _ _ _ committed Hc) as H0.
  apply coordinator_new_ok in Hc as (-> & Hne & Hn).
  pose proof (inv_run _ (start_epoch committed) _ calls H0 Hmax) as Hinv.
  destruct (coord_calls _ calls) as [evs c'] eqn:Hrun. simpl in Hinv.
  ospecialize (Hinv _); [by destruct committed|]. intros Hj Hna Hab Ht Hall.
  assert (ec_expected c' = list_to_set tasks) as Hexp.
  { destruct (ci_expected _ _ _ _ Hinv) as [-> _]. by destruct committed. }
  destruct (ci_live _ _ _ _ Hinv j e Hj Hna Hab) as [s Hs].
  destruct (inv_open_acks _ _ _ _ _ _ Hinv Hs) as (j' & Hj' & Hs').
  rewrite (ci_unique _ _ _ _ Hinv j' j e Hj' Hj) in Hs'.
  pose proof (coordinator_ack_outcome c' e t a) as Ho.
  destruct (coordinator_ack c' e t a) as [r c2]. simpl in *.
  destruct Ho as [msg Ht'|Ht' Hst|s1 Ht' Hs1 Hsz|s1 Ht' Hs1 Hsz].
  - set_solver.
  - destruct Hst as [Hst|Hst]; [|congruence]. unfold already_committed in Hst.
    destruct (ec_last_committed c'); [|done]. apply bool_decide_eq_true in Hst. simpl in Hab. lia.
  - exfalso. rewrite Hs in Hs1. injection Hs1 as <-. rewrite Hs', (epoch_state_ack_acks e _ t a None) in Hsz.
    apply Nat.lt_nge in Hsz. apply Hsz, subseteq_size. rewrite Hexp. intros t' Ht''%elem_of_list_to_set.
    simpl. apply elem_of_list_to_set. case_bool_decide as Hd.
    + rewrite fmap_app. destruct (Hall t' Ht'') as [->|]; set_solver.
    + destruct (Hall t' Ht'') as [->|]; [|done]. apply dec_stable. intros Hnin. by apply Hd.
  - eexists. split; [done|]. done.
Qed.
