(* ===== verification/FlowAlign.v ===== *)
(** * Streaming: barrier alignment

    [zelox-physical-plan/src/streaming/barrier_align.rs]: the merge of several streams
    of flow events into one.  An input that delivered a checkpoint is not read until
    all inputs did; then one checkpoint is passed on.

    An input is the finite list of the items its stream delivers before it closes; a
    run on longer streams that has not read further is a run on these.  The inputs
    are read in any order: a step takes the input that is read as an argument.  The
    output keeps, with each batch, the input it came from. *)

From S2P Require Import Prelude FlowEvents.
Section Align.
Context `{E : FlowEngine}.

Notation BatchResult := (FlowResult RecordBatch).

(** ** The state of [align_flow_event_streams] *)
Record AlignState := MkAlignState {
  as_reached : list (option N);
  as_ended : list bool;
  as_checkpoint_batch : list (option RecordBatch);
  as_end_batch : option RecordBatch
}.
Definition align_init (n : nat) : AlignState :=
  MkAlignState (replicate n None) (replicate n false) (replicate n None) None.

Inductive AlignOut :=
| OutData (i : nat) (b : RecordBatch)
| OutBarrier (i : nat) (b : RecordBatch)
| OutOther (b : RecordBatch)
| OutEnd (b : RecordBatch)
| OutErr (e : FlowError).

Definition is_ended (st : AlignState) (i : nat) : bool := default true (as_ended st !! i).
Definition is_reached (st : AlignState) (i : nat) : bool :=
  match as_reached st !! i with Some (Some _) => true | _ => false end.
Definition active (st : AlignState) : list nat :=
  filter (λ i, is_ended st i = false) (seq 0 (length (as_ended st))).
Definition pollable (st : AlignState) : list nat :=
  filter (λ i, is_ended st i = false ∧ is_reached st i = false) (seq 0 (length (as_ended st))).

(** The inputs [l] are not blocked any more. *)
Definition unblock (st : AlignState) (l : list nat) : AlignState :=
  MkAlignState (foldl (λ r i, <[i := None]> r) (as_reached st) l) (as_ended st)
    (foldl (λ r i, <[i := None]> r) (as_checkpoint_batch st) l) (as_end_batch st).

(** The part of an iteration before the inputs are polled. *)
Inductive AlignTop :=
| TopSeal (out : list AlignOut) (st : AlignState)
| TopFinish (out : list AlignOut)
| TopPoll (l : list nat).
Definition align_top (st : AlignState) : AlignTop :=
  match active st with
  | [] => TopFinish (match as_end_batch st with Some b => [OutEnd b] | None => [] end)
  | i :: _ =>
      if forallb (is_reached st) (active st) then
        TopSeal (match as_checkpoint_batch st !! i with Some (Some b) => [OutBarrier i b] | _ => [] end)
          (unblock st (active st))
      else TopPoll (pollable st)
  end.

(** The rest of an iteration, which got [item] from input [i]. *)
Definition align_receive (st : AlignState) (i : nat) (item : option BatchResult)
    : list AlignOut * option AlignState :=
  match item with
  | None =>
      ([], Some (MkAlignState (as_reached st) (<[i := true]> (as_ended st)) (as_checkpoint_batch st)
        (as_end_batch st)))
  | Some (Ok batch) =>
      match classify batch with
      | Ok KindData => ([OutData i batch], Some st)
      | Ok (KindCheckpoint e) =>
          ([], Some (MkAlignState (<[i := Some e]> (as_reached st)) (as_ended st)
            (<[i := Some batch]> (as_checkpoint_batch st)) (as_end_batch st)))
      | Ok KindOtherMarker => (if (i =? 0)%nat then [OutOther batch] else [], Some st)
      | Ok KindEndOfData =>
          ([], Some (MkAlignState (as_reached st) (<[i := true]> (as_ended st))
            (as_checkpoint_batch st)
            (match as_end_batch st with None => Some batch | Some b => Some b end)))
      | Err e => ([OutErr e], None)
      end
  | Some (Err e) => ([OutErr e], None)
  end.

(** ** Runs *)
Record AlignConfig := MkAlignConfig {
  al_state : option AlignState;
  al_inputs : list (list BatchResult);
  al_output : list AlignOut
}.
Definition align_start (streams : list (list BatchResult)) : AlignConfig :=
  MkAlignConfig (Some (align_init (length streams))) streams [].

(** An iteration of the loop, in which input [i] is the one that is read. *)
Definition align_next (c : AlignConfig) (i : nat) : option AlignConfig :=
  match al_state c with
  | None => None
  | Some st =>
      match align_top st with
      | TopSeal out st => Some (MkAlignConfig (Some st) (al_inputs c) (al_output c ++ out))
      | TopFinish out => Some (MkAlignConfig None (al_inputs c) (al_output c ++ out))
      | TopPoll l =>
          if bool_decide (i ∈ l) then
            let input := default [] (al_inputs c !! i) in
            let '(out, st) := align_receive st i (head input) in
            Some (MkAlignConfig st (<[i := tail input]> (al_inputs c)) (al_output c ++ out))
          else None
      end
  end.
Definition align_step (c c' : AlignConfig) : Prop := ∃ i, align_next c i = Some c'.

(** ** What is promised

    The data of a stream before its checkpoint number [k], counted from 0; all of its
    data when it has no such checkpoint. *)
Fixpoint data_before (k : nat) (s : list BatchResult) : list RecordBatch :=
  match s with
  | Ok b :: s =>
      match classify b with
      | Ok KindData => b :: data_before k s
      | Ok (KindCheckpoint _) => match k with 0 => [] | S k => data_before k s end
      | Ok KindOtherMarker => data_before k s
      | Ok KindEndOfData | Err _ => []
      end
  | _ => []
  end.
(** The checkpoints of a stream. *)
Fixpoint checkpoints (s : list BatchResult) : list RecordBatch :=
  match s with
  | Ok b :: s =>
      match classify b with
      | Ok (KindCheckpoint _) => b :: checkpoints s
      | Ok KindData | Ok KindOtherMarker => checkpoints s
      | Ok KindEndOfData | Err _ => []
      end
  | _ => []
  end.
(** The data of input [i] in the output before the barrier number [k]. *)
Fixpoint out_before (k i : nat) (out : list AlignOut) : list RecordBatch :=
  match out with
  | OutData j b :: out => if (j =? i)%nat then b :: out_before k i out else out_before k i out
  | OutBarrier _ _ :: out => match k with 0 => [] | S k => out_before k i out end
  | _ :: out => out_before k i out
  | [] => []
  end.
Fixpoint barriers (out : list AlignOut) : list (nat * RecordBatch) :=
  match out with
  | OutBarrier i b :: out => (i, b) :: barriers out
  | _ :: out => barriers out
  | [] => []
  end.
(** A stream that has no error before its end. *)
Fixpoint stream_ok (s : list BatchResult) : Prop :=
  match s with
  | [] => True
  | Ok b :: s =>
      match classify b with Ok KindEndOfData => True | Ok _ => stream_ok s | Err _ => False end
  | Err _ :: _ => False
  end.
End Align.

(** ** Streaming: theorems on barrier alignment

    The output is cut at its barriers as every input is at its checkpoints, each
    barrier is a checkpoint of an input, and a run ends after a bounded number of
    steps with all data delivered. *)

Section Theorems.
Context `{E : FlowEngine}.
Notation BatchResult := (FlowResult RecordBatch).

(** ** Streams and outputs *)

(** The part of a stream that was read without meeting its end. *)
Definition open_item (x : BatchResult) : Prop :=
  match x with
  | Ok b => match classify b with Ok KindEndOfData | Err _ => False | Ok _ => True end
  | Err _ => False
  end.
Notation open := (Forall open_item).

Lemma checkpoints_app s1 s2 : open s1 → checkpoints (s1 ++ s2) = checkpoints s1 ++ checkpoints s2.
Proof.
  induction 1 as [|[b|e] s1 Hx Hs IH]; simpl in *; [done| |done].
  destruct (classify b) as [[]|]; simpl in *; try done. by rewrite IH.
Qed.
Lemma data_before_app k s1 s2 :
  open s1 →
  data_before k (s1 ++ s2) =
  if (k <? length (checkpoints s1))%nat then data_before k s1
  else data_before k s1 ++ data_before (k - length (checkpoints s1)) s2.
Proof.
  intros Hs. revert k. induction Hs as [|[b|e] s1 Hx Hs IH]; intros k; simpl in *; [|..|done].
  { by rewrite Nat.sub_0_r. }
  destruct (classify b) as [[]|]; simpl in *; try done.
  - rewrite IH. by destruct (_ <? _)%nat.
  - destruct k as [|k]; [done|]. by rewrite IH.
Qed.

Lemma barriers_app o1 o2 : barriers (o1 ++ o2) = barriers o1 ++ barriers o2.
Proof. induction o1 as [|[] o1 IH]; simpl; by rewrite ?IH. Qed.
Lemma out_before_app k i o1 o2 :
  out_before k i (o1 ++ o2) =
  if (k <? length (barriers o1))%nat then out_before k i o1
  else out_before k i o1 ++ out_before (k - length (barriers o1)) i o2.
Proof.
  revert k. induction o1 as [|[] o1 IH]; intros k; simpl; try done.
  - by rewrite Nat.sub_0_r.
  - destruct (_ =? _)%nat; rewrite IH; by destruct (k <? _)%nat.
  - destruct k as [|k]; [done|]. by rewrite IH.
Qed.
(** Output without data of an input. *)
Lemma out_before_nil k i o1 o2 :
  (∀ k, out_before k i o2 = []) → out_before k i (o1 ++ o2) = out_before k i o1.
Proof. intros H. rewrite out_before_app, H, app_nil_r. by destruct (_ <? _)%nat. Qed.

(** ** The invariant *)
Definition input_inv (s rest : list BatchResult) (ended reached : bool) (cb : option RecordBatch)
    (nb : nat) (ob : nat → list RecordBatch) : Prop :=
  ∃ read, s = read ++ rest ∧ (∀ k, ob k = data_before k read) ∧
    if ended then ∀ k, data_before k s = data_before k read
    else open read ∧ length (checkpoints read) = nb + (if reached then 1 else 0) ∧
      (reached = true → ∃ b, cb = Some b ∧ checkpoints read !! nb = Some b).

Definition barriers_from (streams : list (list BatchResult)) (out : list AlignOut) : Prop :=
  ∀ k i b, barriers out !! k = Some (i, b) →
    ∃ s, streams !! i = Some s ∧ checkpoints s !! k = Some b.

Record align_inv (streams : list (list BatchResult)) (st : AlignState)
    (inputs : list (list BatchResult)) (out : list AlignOut) : Prop := {
  ai_lengths : length (as_reached st) = length streams ∧ length (as_ended st) = length streams ∧
    length (as_checkpoint_batch st) = length streams ∧ length inputs = length streams;
  ai_inputs : ∀ i s rest, streams !! i = Some s → inputs !! i = Some rest →
    input_inv s rest (is_ended st i) (is_reached st i) (default None (as_checkpoint_batch st !! i))
      (length (barriers out)) (λ k, out_before k i out);
  ai_barriers : barriers_from streams out
}.

(** What holds of the output alone. *)
Definition cut_at_barriers (streams : list (list BatchResult)) (out : list AlignOut) : Prop :=
  ∀ i s k, streams !! i = Some s →
    out_before k i out `prefix_of` data_before k s ∧
    (k < length (barriers out) → out_before k i out = data_before k s).

Definition config_inv (streams : list (list BatchResult)) (c : AlignConfig) : Prop :=
  (Forall stream_ok streams → ∀ e, OutErr e ∉ al_output c) ∧
  match al_state c with
  | Some st => align_inv streams st (al_inputs c) (al_output c)
  | None =>
      cut_at_barriers streams (al_output c) ∧ barriers_from streams (al_output c) ∧
      ((∀ e, OutErr e ∉ al_output c) →
       ∀ i s k, streams !! i = Some s → out_before k i (al_output c) = data_before k s)
  end.

Lemma input_inv_cut s rest ended reached cb nb ob k :
  input_inv s rest ended reached cb nb ob →
  ob k `prefix_of` data_before k s ∧ (k < nb ∨ ended = true → ob k = data_before k s).
Proof.
  intros (read & -> & Hob & H). rewrite Hob. destruct ended; [by rewrite H|].
  destruct H as (Hopen & Hlen & _). rewrite data_before_app by done.
  destruct (_ <? _)%nat eqn:Hk; [done|]. split; [by apply prefix_app_r|].
  apply Nat.ltb_ge in Hk. intros [H|[=]]. destruct reached; lia.
Qed.

Lemma align_inv_lookup streams st inputs out i s :
  align_inv streams st inputs out → streams !! i = Some s → is_Some (inputs !! i).
Proof.
  intros Hi Hs. apply lookup_lt_is_Some. apply lookup_lt_Some in Hs.
  destruct (ai_lengths _ _ _ _ Hi) as (_ & _ & _ & ->). done.
Qed.
Lemma align_inv_cut streams st inputs out :
  align_inv streams st inputs out → cut_at_barriers streams out.
Proof.
  intros Hi i s k Hs. destruct (align_inv_lookup _ _ _ _ _ _ Hi Hs) as [rest Hr].
  destruct (input_inv_cut _ _ _ _ _ _ _ k (ai_inputs _ _ _ _ Hi i s rest Hs Hr)) as [H1 H2].
  split; [done|]. intros Hk. apply H2. by left.
Qed.

(** ** One step *)
Lemma elem_of_active st i : i ∈ active st ↔ is_ended st i = false.
Proof.
  unfold active. rewrite list_elem_of_filter, elem_of_seq. split; [tauto|].
  intros H. split; [done|]. unfold is_ended in H.
  destruct (as_ended st !! i) as [x|] eqn:Hx; [|done]. apply lookup_lt_Some in Hx. lia.
Qed.
Lemma elem_of_pollable st i : i ∈ pollable st ↔ is_ended st i = false ∧ is_reached st i = false.
Proof.
  unfold pollable. rewrite list_elem_of_filter, elem_of_seq. split; [tauto|].
  intros H. split; [done|]. destruct H as [H _]. apply elem_of_active in H.
  unfold active in H. rewrite list_elem_of_filter, elem_of_seq in H. tauto.
Qed.

(** Reading from input [i] changes only what concerns [i]. *)
Lemma inv_update streams st inputs out i st' rest' o :
  align_inv streams st inputs out →
  length (as_reached st') = length (as_reached st) → length (as_ended st') = length (as_ended st) →
  length (as_checkpoint_batch st') = length (as_checkpoint_batch st) →
  barriers o = [] →
  (∀ j, j ≠ i → is_ended st' j = is_ended st j ∧ is_reached st' j = is_reached st j ∧
    as_checkpoint_batch st' !! j = as_checkpoint_batch st !! j ∧ ∀ k, out_before k j o = []) →
  (∀ s, streams !! i = Some s →
    input_inv s rest' (is_ended st' i) (is_reached st' i)
      (default None (as_checkpoint_batch st' !! i)) (length (barriers out))
      (λ k, out_before k i (out ++ o))) →
  align_inv streams st' (<[i := rest']> inputs) (out ++ o).
Proof.
  intros Hi Hl1 Hl2 Hl3 Ho Hother Hthis. destruct Hi.
  assert (barriers (out ++ o) = barriers out) as Hb by by rewrite barriers_app, Ho, app_nil_r.
  split.
  - rewrite Hl1, Hl2, Hl3, length_insert. done.
  - intros j s rest Hs Hr. rewrite Hb. destruct (decide (j = i)) as [->|Hne].
    + apply list_lookup_insert_Some in Hr as [(_ & -> & _)|[Hne _]]; [|done]. by apply Hthis.
    + rewrite list_lookup_insert_ne in Hr by done. destruct (Hother j Hne) as (-> & -> & -> & Hn).
      destruct (ai_inputs0 j s rest Hs Hr) as (read & Hread & Hob & Hrest). exists read.
      split; [done|]. split; [|done]. intros k. by rewrite out_before_nil.
  - unfold barriers_from. by rewrite Hb.
Qed.

(** Input [i] delivers an item that does not end it. *)
Lemma input_inv_read s x rest cb out i o (reached' : bool) cb' :
  input_inv s (x :: rest) false false cb (length (barriers out)) (λ k, out_before k i out) →
  open_item x → (∀ k, out_before k i o = data_before k [x]) →
  length (checkpoints [x]) = (if reached' then 1 else 0) →
  (reached' = true → ∃ b, cb' = Some b ∧ checkpoints [x] = [b]) →
  input_inv s rest false reached' cb' (length (barriers out)) (λ k, out_before k i (out ++ o)).
Proof.
  intros (read & -> & Hob & Hopen & Hlen & _) Hx Ho Hck Hcb. rewrite Nat.add_0_r in Hlen.
  exists (read ++ [x]). rewrite <- app_assoc. split; [done|]. split.
  - intros k. by rewrite out_before_app, data_before_app, Hlen, Ho, Hob by done.
  - rewrite checkpoints_app by done. split; [|split].
    + apply Forall_app. split; [done|]. by constructor.
    + rewrite length_app, Hlen, Hck. done.
    + intros (b & -> & ->)%Hcb. exists b. split; [done|]. rewrite <- Hlen. by apply list_lookup_middle.
Qed.
(** Input [i] ends. *)
Lemma input_inv_end s (rest rest' : list BatchResult) reached cb reached' cb' out i :
  input_inv s rest false reached cb (length (barriers out)) (λ k, out_before k i out) →
  rest = [] ∧ rest' = [] ∨ (∃ b, rest = Ok b :: rest' ∧ classify b = Ok KindEndOfData) →
  input_inv s rest' true reached' cb' (length (barriers out)) (λ k, out_before k i (out ++ [])).
Proof.
  intros (read & -> & Hob & Hopen & _) [[-> ->]|(b & -> & Hb)].
  - exists read. rewrite !app_nil_r. done.
  - exists (read ++ [Ok b]). rewrite <- app_assoc, app_nil_r. split; [done|]. split; intros k.
    + rewrite Hob, data_before_app by done. simpl. rewrite Hb, app_nil_r. by destruct (_ <? _)%nat.
    + rewrite !data_before_app by done. simpl. by rewrite Hb.
Qed.

Lemma is_ended_set st i j : i < length (as_ended st) →
  default true (<[i := true]> (as_ended st) !! j) = if decide (j = i) then true else is_ended st j.
Proof.
  intros Hi. destruct (decide (j = i)) as [->|Hne].
  - by rewrite list_lookup_insert_eq.
  - by rewrite list_lookup_insert_ne.
Qed.

Lemma stream_ok_item read x rest :
  open read → stream_ok (read ++ x :: rest) → open_item x ∨ ∃ b, x = Ok b ∧ classify b = Ok KindEndOfData.
Proof.
  intros Hopen. induction Hopen as [|[b|] read Hy Hopen IH]; simpl; [|..|done].
  - destruct x as [b|]; [|done]. simpl. destruct (classify b) as [[]|] eqn:Hb; intros Hok;
      try (by left). right. eauto.
  - simpl in Hy. destruct (classify b) as [[]|]; done.
Qed.

Lemma inv_receive streams st inputs out i rest :
  align_inv streams st inputs out → i ∈ pollable st → inputs !! i = Some rest →
  let '(o, st') := align_receive st i (head rest) in
  match st' with
  | Some st' => align_inv streams st' (<[i := tail rest]> inputs) (out ++ o) ∧ ∀ e, OutErr e ∉ o
  | None => ∃ e, o = [OutErr e] ∧ ¬ Forall stream_ok streams
  end.
Proof.
  intros Hi [Hend Hreach]%elem_of_pollable Hr.
  destruct (ai_lengths _ _ _ _ Hi) as (L1 & L2 & L3 & L4).
  assert (i < length streams) as Hlt by (apply lookup_lt_Some in Hr; lia).
  destruct (lookup_lt_is_Some_2 streams i Hlt) as [s Hs].
  pose proof (ai_inputs _ _ _ _ Hi i s rest Hs Hr) as Hin. rewrite Hend, Hreach in Hin.
  assert (∀ x rest', rest = x :: rest' → ¬ open_item x →
    (∀ b, x = Ok b → classify b ≠ Ok KindEndOfData) → ¬ Forall stream_ok streams) as Herr.
  { intros x rest' -> Hx Hne HF. eapply Forall_lookup_1 in HF; [|done].
    destruct Hin as (read & -> & _ & Hopen & _).
    apply stream_ok_item in HF as [?|(b & Hb & Hc)]; [done| |done]. by eapply Hne. }
  destruct rest as [|[b|e] rest']; simpl.
  - split; [|set_solver]. apply inv_update with st; try done; simpl; [by rewrite length_insert| |].
    + intros j Hne. unfold is_ended at 1. simpl. rewrite is_ended_set by lia. by rewrite decide_False.
    + intros s' Hs'. simplify_eq. unfold is_ended at 1. simpl. rewrite is_ended_set, decide_True by (done || lia).
      eapply input_inv_end; [done|by left].
  - destruct (classify b) as [[| | |]|e] eqn:Hb; simpl.
    + split; [|set_solver]. apply inv_update with st; try done; simpl.
      * intros j Hne. split_and!; [done..|]. intros k. by destruct (Nat.eqb_spec i j).
      * intros s' Hs'. simplify_eq. rewrite Hend, Hreach.
        eapply input_inv_read; [done|..]; simpl; rewrite ?Hb; try done.
        intros k. by rewrite Nat.eqb_refl.
    + split; [|set_solver]. apply inv_update with st; try done; simpl; [by rewrite length_insert..| |].
      * intros j Hne. unfold is_reached. simpl. rewrite !list_lookup_insert_ne by done. done.
      * intros s' Hs'. simplify_eq. unfold is_ended. simpl. unfold is_ended in Hend. rewrite Hend.
        unfold is_reached. simpl. rewrite !list_lookup_insert_eq by lia.
        eapply input_inv_read; [done|..]; simpl; rewrite ?Hb; try done; [by intros []|]. eauto.
    + split; [|destruct (_ =? _)%nat; set_solver]. apply inv_update with st; try done.
      * by destruct (_ =? _)%nat.
      * intros j Hne. split_and!; [done..|]. intros k. by destruct (_ =? _)%nat.
      * intros s' Hs'. simplify_eq. rewrite Hend, Hreach.
        eapply input_inv_read; [done|..]; simpl; rewrite ?Hb; try done.
        intros k. by destruct (i =? 0)%nat.
    + split; [|set_solver]. apply inv_update with st; try done; simpl; [by rewrite length_insert| |].
      * intros j Hne. unfold is_ended at 1. simpl. rewrite is_ended_set by lia. by rewrite decide_False.
      * intros s' Hs'. simplify_eq. unfold is_ended at 1. simpl.
        rewrite is_ended_set, decide_True by (done || lia). eapply input_inv_end; [done|right; eauto].
    + exists e. split; [done|]. apply (Herr (Ok b) rest'); [done|simpl; rewrite Hb; tauto|].
      intros ? [= <-]. by rewrite Hb.
  - exists e. split; [done|]. apply (Herr (Err e) rest'); [done|simpl; tauto|done].
Qed.

Lemma foldl_unset {A} (l : list nat) (r : list (option A)) j :
  foldl (λ r i, <[i := None]> r) r l !! j =
  if decide (j ∈ l) then (λ _, None) <$> r !! j else r !! j.
Proof.
  revert r. induction l as [|i l IH]; intros r; cbn [foldl]; [by rewrite decide_False by set_solver|].
  rewrite IH. destruct (decide (i = j)) as [->|Hne].
  - rewrite (decide_True (P := j ∈ j :: l)) by set_solver. destruct (r !! j) eqn:Hj; simpl.
    + apply lookup_lt_Some in Hj. rewrite list_lookup_insert_eq by done. by destruct (decide (j ∈ l)).
    + rewrite lookup_ge_None_2; [by destruct (decide (j ∈ l))|].
      rewrite length_insert. by apply lookup_ge_None.
  - rewrite list_lookup_insert_ne by done.
    destruct (decide (j ∈ l)); [by rewrite decide_True by set_solver|by rewrite decide_False by set_solver].
Qed.
Lemma foldl_unset_length {A} (l : list nat) (r : list (option A)) :
  length (foldl (λ r i, <[i := None]> r) r l) = length r.
Proof. revert r. induction l as [|i l IH]; intros r; simpl; [done|]. by rewrite IH, length_insert. Qed.

Lemma inv_seal streams st inputs out i l :
  align_inv streams st inputs out → active st = i :: l → forallb (is_reached st) (i :: l) = true →
  ∃ b, as_checkpoint_batch st !! i = Some (Some b) ∧
    align_inv streams (unblock st (i :: l)) inputs (out ++ [OutBarrier i b]).
Proof.
  intros Hi Hact Hall. rewrite forallb_Forall in Hall.
  destruct (ai_lengths _ _ _ _ Hi) as (L1 & L2 & L3 & L4).
  assert (∀ j, is_ended st j = false → is_reached st j = true) as Hreach.
  { intros j Hj%elem_of_active. apply Hall. rewrite <- Hact. done. }
  assert (is_ended st i = false) as Hend by (apply elem_of_active; rewrite Hact; set_solver).
  assert (i < length streams) as Hlt.
  { unfold is_ended in Hend. destruct (as_ended st !! i) eqn:He; [|done].
    apply lookup_lt_Some in He. lia. }
  destruct (lookup_lt_is_Some_2 streams i Hlt) as [s Hs].
  destruct (align_inv_lookup _ _ _ _ _ _ Hi Hs) as [rest Hr].
  destruct (ai_inputs _ _ _ _ Hi i s rest Hs Hr) as (read & Hread & Hob & Hin).
  rewrite Hend, (Hreach i Hend) in Hin. destruct Hin as (Hopen & Hlen & Hcb).
  destruct (Hcb eq_refl) as (b & Hb & Hck). exists b. split.
  { destruct (as_checkpoint_batch st !! i); simpl in Hb; congruence. }
  rewrite <- Hact. split.
  - simpl. by rewrite !foldl_unset_length.
  - intros j sj rj Hsj Hrj. rewrite barriers_app. simpl.
    rewrite length_app. simpl.
    destruct (ai_inputs _ _ _ _ Hi j sj rj Hsj Hrj) as (readj & Hreadj & Hobj & Hinj).
    exists readj. split; [done|]. split; [intros k; rewrite out_before_nil; [done|by intros []]|].
    change (is_ended (unblock st (active st)) j) with (is_ended st j).
    destruct (is_ended st j) eqn:Hej; [done|]. rewrite (Hreach j Hej) in Hinj.
    unfold is_reached. simpl. rewrite foldl_unset, decide_True by by apply elem_of_active.
    destruct Hinj as (Hoj & Hlj & _). split; [done|].
    destruct (as_reached st !! j) as [[]|]; simpl; split; (lia || done).
  - intros k i' b'. rewrite barriers_app. simpl.
    intros [[_ Hk]|[-> [= <- <-]]]%lookup_snoc_Some; [by eapply ai_barriers|].
    exists s. split; [done|]. rewrite Hread, checkpoints_app by done. by apply lookup_app_l_Some.
Qed.

(** Output that has neither data nor barriers. *)
Lemma silent_output streams out o :
  barriers o = [] → (∀ k i, out_before k i o = []) →
  (cut_at_barriers streams out → cut_at_barriers streams (out ++ o)) ∧
  (barriers_from streams out → barriers_from streams (out ++ o)) ∧
  ∀ k i, out_before k i (out ++ o) = out_before k i out.
Proof.
  intros Hb Ho. assert (∀ k i, out_before k i (out ++ o) = out_before k i out) as Heq.
  { intros k i. by apply out_before_nil. }
  unfold cut_at_barriers, barriers_from. rewrite barriers_app, Hb, app_nil_r.
  split; [|done]. intros Hc i s k Hs. rewrite Heq. by apply Hc.
Qed.

Lemma inv_finish streams st inputs out :
  align_inv streams st inputs out → active st = [] →
  ∀ i s k, streams !! i = Some s → out_before k i out = data_before k s.
Proof.
  intros Hi Hact i s k Hs. destruct (align_inv_lookup _ _ _ _ _ _ Hi Hs) as [rest Hr].
  destruct (input_inv_cut _ _ _ _ _ _ _ k (ai_inputs _ _ _ _ Hi i s rest Hs Hr)) as [_ H2].
  apply H2. right. apply not_false_iff_true. intros He%elem_of_active. rewrite Hact in He.
  by apply elem_of_nil in He.
Qed.

Lemma config_step streams c c' : config_inv streams c → align_step c c' → config_inv streams c'.
Proof.
  intros [Herr Hinv] [i Hstep]. unfold align_next in Hstep.
  destruct (al_state c) as [st|]; [|done]. unfold align_top in Hstep.
  destruct (active st) as [|j l] eqn:Hact; rewrite ?Hact in Hstep.
  - injection Hstep as <-.
    pose proof (silent_output streams (al_output c)
      (match as_end_batch st with Some b => [OutEnd b] | None => [] end)) as Hsil.
    destruct Hsil as (H1 & H2 & H3); [by destruct (as_end_batch st)..|].
    split; simpl.
    { intros Hok e [He|He]%elem_of_app; [by apply (Herr Hok e)|]. destruct (as_end_batch st); set_solver. }
    split_and!; [by apply H1, (align_inv_cut _ _ _ _ Hinv)|by apply H2, (ai_barriers _ _ _ _ Hinv)|].
    intros _ i0 s k Hs. rewrite H3. by apply (inv_finish _ _ _ _ Hinv Hact).
  - destruct (forallb (is_reached st) (j :: l)) eqn:Hall.
    + injection Hstep as <-. destruct (inv_seal _ _ _ _ _ _ Hinv Hact Hall) as (b & Hb & Hi).
      rewrite Hb. split; [|done]. intros Hok e [He|He]%elem_of_app; [by apply (Herr Hok e)|set_solver].
    + case_bool_decide as Hp; [|done].
      assert (∃ rest, al_inputs c !! i = Some rest) as [rest Hr].
      { apply elem_of_pollable in Hp as Hp'. destruct Hp' as [Hp' _]. unfold is_ended in Hp'.
        destruct (as_ended st !! i) eqn:He; [|done]. apply lookup_lt_Some in He.
        destruct (ai_lengths _ _ _ _ Hinv) as (L1 & L2 & L3 & L4). apply lookup_lt_is_Some. lia. }
      rewrite Hr in Hstep. simpl in Hstep. pose proof (inv_receive _ _ _ _ _ _ Hinv Hp Hr) as Hrec.
      destruct (align_receive st i (head rest)) as [o st']. injection Hstep as <-. unfold config_inv. simpl.
      destruct st' as [st'|].
      * destruct Hrec as [Hi Ho]. split; [|done].
        intros Hok e [He|He]%elem_of_app; [by apply (Herr Hok e)|by apply (Ho e)].
      * destruct Hrec as (e & -> & Hnok). split; [done|].
        destruct (silent_output streams (al_output c) [OutErr e]) as (H1 & H2 & H3); [done..|].
        split_and!; [by apply H1, (align_inv_cut _ _ _ _ Hinv)|by apply H2, (ai_barriers _ _ _ _ Hinv)|].
        intros Hno. destruct (Hno e). set_solver.
Qed.

Lemma config_start streams : config_inv streams (align_start streams).
Proof.
  split; simpl; [set_solver|]. split; simpl.
  - by rewrite !length_replicate.
  - intros i s rest Hs Hr. simplify_eq. apply lookup_lt_Some in Hs.
    unfold is_ended, is_reached. simpl. rewrite !lookup_replicate_2 by done. simpl.
    exists []. split_and!; done.
  - done.
Qed.
Lemma config_run streams c : rtc align_step (align_start streams) c → config_inv streams c.
Proof.
  intros Hrun. pose proof (config_start streams) as Hi. induction Hrun as [|x y z Hs _ IH]; [done|].
  apply IH. by eapply config_step.
Qed.

(** ** Termination

    Each item of an input is read at most once, and an input is unblocked at most
    once per checkpoint that it delivered. *)
Definition input_weight (st : AlignState) (inputs : list (list BatchResult)) (i : nat) : nat :=
  if is_ended st i then 0
  else 2 * length (default [] (inputs !! i)) + (if is_reached st i then 3 else 2).
Definition align_measure (c : AlignConfig) : nat :=
  match al_state c with
  | None => 0
  | Some st => 1 + sum_list_with (input_weight st (al_inputs c)) (seq 0 (length (as_ended st)))
  end.

Lemma sum_list_with_lt {A} (f g : A → nat) (l : list A) x :
  (∀ y, y ∈ l → f y ≤ g y) → x ∈ l → f x < g x → sum_list_with f l < sum_list_with g l.
Proof.
  intros Hle Hx Hlt.
  assert (∀ l, (∀ y, y ∈ l → f y ≤ g y) → sum_list_with f l ≤ sum_list_with g l) as Hsum.
  { clear. intros l. induction l as [|y l IH]; intros H; simpl; [done|].
    specialize (H y ltac:(set_solver)) as Hy. specialize (IH ltac:(set_solver)). lia. }
  apply list_elem_of_split in Hx as (l1 & l2 & ->).
  rewrite !sum_list_with_app. simpl.
  pose proof (Hsum l1 ltac:(set_solver)). pose proof (Hsum l2 ltac:(set_solver)). lia.
Qed.

Lemma receive_lengths st i item o st' :
  align_receive st i item = (o, Some st') → length (as_ended st') = length (as_ended st).
Proof.
  unfold align_receive. destruct item as [[b|]|]; [|done|].
  - destruct (classify b) as [[]|]; intros [= <- <-]; simpl; by rewrite ?length_insert.
  - intros [= <- <-]. simpl. by rewrite length_insert.
Qed.
Lemma receive_weight st inputs i rest o st' j :
  i ∈ pollable st → inputs !! i = Some rest → length (as_reached st) = length (as_ended st) →
  align_receive st i (head rest) = (o, Some st') →
  input_weight st' (<[i := tail rest]> inputs) j ≤ input_weight st inputs j ∧
  (j = i → input_weight st' (<[i := tail rest]> inputs) j < input_weight st inputs j).
Proof.
  intros [He Hr]%elem_of_pollable Hrest Hlen Hrec.
  assert (i < length (as_ended st)) as Hi.
  { unfold is_ended in He. destruct (as_ended st !! i) eqn:Hx; [|done]. by apply lookup_lt_Some in Hx. }
  apply lookup_lt_Some in Hrest as Hii. unfold input_weight.
  destruct (decide (j = i)) as [->|Hne].
  - rewrite list_lookup_insert_eq, Hrest, He, Hr by done. cbn [default from_option id].
    assert (∀ a b, a < b → a ≤ b ∧ (i = i → a < b)) as Hlt by (clear; lia). apply Hlt. clear Hlt.
    destruct rest as [|[b|e] rest]; simpl in *.
    + injection Hrec as <- <-. unfold is_ended. simpl. rewrite is_ended_set, decide_True by done. simpl. lia.
    + destruct (classify b) as [[]|]; simplify_eq/=; rewrite ?He, ?Hr; try lia.
      * unfold is_ended in *. simpl. rewrite He. match goal with |- context [if ?b then 3 else 2] => destruct b end; lia.
      * unfold is_ended. simpl. rewrite is_ended_set, decide_True by done. simpl. lia.
    + done.
  - rewrite list_lookup_insert_ne by done. split; [|done].
    assert (is_ended st' j = is_ended st j ∧ is_reached st' j = is_reached st j) as [-> ->]; [|done].
    unfold align_receive in Hrec. destruct (head rest) as [[b|]|]; [|done|].
    + destruct (classify b) as [[]|]; simplify_eq/=; unfold is_ended, is_reached; simpl;
        rewrite ?list_lookup_insert_ne by done; done.
    + simplify_eq/=. unfold is_ended, is_reached. simpl. by rewrite list_lookup_insert_ne by done.
Qed.

Lemma step_measure streams c c' :
  config_inv streams c → align_step c c' → align_measure c' < align_measure c.
Proof.
  intros [_ Hinv] [i Hstep]. unfold align_next in Hstep. unfold align_measure at 2.
  destruct (al_state c) as [st|]; [|done]. unfold align_top in Hstep.
  destruct (ai_lengths _ _ _ _ Hinv) as (L1 & L2 & L3 & L4).
  destruct (active st) as [|j l] eqn:Hact; rewrite ?Hact in Hstep.
  - injection Hstep as <-. unfold align_measure. simpl. lia.
  - assert (is_ended st j = false) as Hj by (apply elem_of_active; rewrite Hact; set_solver).
    assert (∀ i, is_ended st i = false → i ∈ seq 0 (length (as_ended st))) as Hin.
    { intros i' Hi'. apply elem_of_active in Hi'. unfold active in Hi'.
      rewrite list_elem_of_filter in Hi'. tauto. }
    destruct (forallb (is_reached st) (j :: l)) eqn:Hall.
    + injection Hstep as <-. unfold align_measure. simpl. apply -> Nat.succ_lt_mono.
      rewrite forallb_Forall in Hall. rewrite <- Hact in Hall.
      rewrite <- Hact. fold (unblock st (active st)).
      assert (∀ i, input_weight (unblock st (active st)) (al_inputs c) i ≤ input_weight st (al_inputs c) i ∧
        (is_ended st i = false → input_weight (unblock st (active st)) (al_inputs c) i
           < input_weight st (al_inputs c) i)) as Hw.
      { intros i'. unfold input_weight.
        change (is_ended (unblock st (active st)) i') with (is_ended st i').
        destruct (is_ended st i') eqn:He; [by split|].
        assert (is_reached (unblock st (active st)) i' = false) as ->.
        { unfold is_reached. simpl. rewrite foldl_unset, decide_True by by apply elem_of_active.
          by destruct (as_reached st !! i'). }
        rewrite Hall by by apply elem_of_active. lia. }
      apply sum_list_with_lt with j; [intros; apply Hw|by apply Hin|by apply Hw].
    + case_bool_decide as Hp; [|done].
      assert (∃ rest, al_inputs c !! i = Some rest) as [rest Hr].
      { apply elem_of_pollable in Hp as Hp'. destruct Hp' as [Hp' _]. apply Hin, elem_of_seq in Hp'.
        apply lookup_lt_is_Some. lia. }
      rewrite Hr in Hstep. simpl in Hstep.
      destruct (align_receive st i (head rest)) as [o st'] eqn:Hrec. injection Hstep as <-.
      unfold align_measure. simpl. destruct st' as [st'|]; [|lia].
      rewrite (receive_lengths _ _ _ _ _ Hrec). apply -> Nat.succ_lt_mono.
      assert (length (as_reached st) = length (as_ended st)) as Hl by lia.
      apply sum_list_with_lt with i.
      * intros y _. by eapply receive_weight.
      * apply Hin. by apply elem_of_pollable in Hp as [? _].
      * by eapply receive_weight.
Qed.

Lemma step_progress streams c st :
  config_inv streams c → al_state c = Some st → ∃ c', align_step c c'.
Proof.
  intros [_ Hinv] Hst. unfold align_step, align_next. rewrite Hst. unfold align_top.
  destruct (active st) as [|j l] eqn:Hact; [by eexists; exists 0|].
  destruct (forallb (is_reached st) (j :: l)) eqn:Hall; [by eexists; exists 0|].
  assert (∃ i, i ∈ pollable st) as [i Hi].
  { apply not_true_iff_false in Hall. rewrite forallb_Forall in Hall. rewrite <- Hact in Hall.
    assert (¬ Forall (λ i, is_reached st i = true) (active st)) as Hex%not_Forall_Exists
      by (intros HF; apply Hall; by apply Forall_forall); [|solve_decision].
    apply Exists_exists in Hex as (i & Hi & Hn). exists i. apply elem_of_pollable.
    apply elem_of_active in Hi. apply not_true_iff_false in Hn. done. }
  destruct (align_receive st i (head (default [] (al_inputs c !! i)))) as [o st'] eqn:Hrec.
  eexists. exists i. rewrite bool_decide_eq_true_2 by done. by rewrite Hrec.
Qed.

Lemma sum_list_with_seq {A} (f : nat → nat) (g : A → nat) (l : list A) :
  (∀ i x, l !! i = Some x → f i = g x) → sum_list_with f (seq 0 (length l)) = sum_list_with g l.
Proof.
  revert f. induction l as [|x l IH]; intros f H; simpl; [done|]. rewrite (H 0 x eq_refl). f_equal.
  rewrite <- (IH (λ i, f (S i))) by (intros i y Hy; by apply (H (S i))).
  rewrite <- fmap_S_seq. clear. induction (seq 0 (length l)) as [|i k IH]; [done|].
  rewrite fmap_cons. simpl. by rewrite IH.
Qed.

(** ** Claims *)

(** C6. The alignment is a consistent cut: at any point of any run, and for every
    input, the data of the input that was passed on before the barrier number [k] is
    exactly the data that precedes its checkpoint number [k] (all of its data, when it
    has no such checkpoint); before the next barrier it is a part of that from its
    start.  Each barrier is the checkpoint with its number of one of the inputs. *)
Theorem alignment_consistent_cut streams c :
  rtc align_step (align_start streams) c →
  (∀ i s k, streams !! i = Some s →
    out_before k i (al_output c) `prefix_of` data_before k s ∧
    (k < length (barriers (al_output c)) → out_before k i (al_output c) = data_before k s)) ∧
  (∀ k i b, barriers (al_output c) !! k = Some (i, b) →
    ∃ s, streams !! i = Some s ∧ checkpoints s !! k = Some b).
Proof.
  intros [_ H]%config_run. destruct (al_state c) as [st|].
  - split; [exact (align_inv_cut _ _ _ _ H)|exact (ai_barriers _ _ _ _ H)].
  - destruct H as (H1 & H2 & _). done.
Qed.

(** C37. The alignment ends: a run has at most two steps for each item and for each
    input and one more, however the inputs are scheduled, and one that cannot go on has
    returned; when no input delivers an error or a marker that cannot be decoded, it
    has passed on all data of all inputs up to their ends. *)
Theorem alignment_terminates streams :
  (∀ n c, nsteps align_step n (align_start streams) c →
    n ≤ 1 + sum_list_with (λ s, 2 * length s + 2) streams) ∧
  (∀ c, rtc align_step (align_start streams) c → nf align_step c →
    al_state c = None ∧
    (Forall stream_ok streams →
     ∀ i s k, streams !! i = Some s → out_before k i (al_output c) = data_before k s)).
Proof.
  split.
  - assert (align_measure (align_start streams) =
      1 + sum_list_with (λ s, 2 * length s + 2) streams) as <-.
    { unfold align_measure. simpl. rewrite length_replicate. f_equal. apply sum_list_with_seq.
      intros i s Hs. apply lookup_lt_Some in Hs as Hi. unfold input_weight, is_ended, is_reached. simpl.
      rewrite !lookup_replicate_2, Hs by done. simpl. lia. }
    intros n c Hn. pose proof (config_start streams) as Hi. induction Hn as [|n x y z Hs _ IH]; [lia|].
    pose proof (step_measure _ _ _ Hi Hs). apply config_step with (c' := y) in Hi; [|done].
    specialize (IH Hi). lia.
  - intros c Hrun Hnf. pose proof (config_run _ _ Hrun) as Hi.
    destruct (al_state c) as [st|] eqn:Hst.
    + destruct Hnf. by eapply step_progress.
    + split; [done|]. intros Hok i s k Hs. destruct Hi as [Herr Hi]. rewrite Hst in Hi.
      destruct Hi as (_ & _ & Hall). by apply Hall; [apply Herr|].
Qed.
End Theorems.
