(* ===== verification/KeyGroups.v ===== *)
(** * Streaming: key groups

    [zelox-physical-plan/src/streaming/state_io.rs]: the groups that the keys of a
    stateful operator fall into, and the instance of the operator that owns a group.
    The exchange routes rows by it, and a rescaled operator finds its state by it. *)

From S2P Require Import Prelude.
Local Open Scope N_scope.

(** [usize] has 64 bits; arithmetic wraps in the release profile. *)
Definition wrap_u16 (x : N) : N := x mod 65536.
Definition wrap_u64 (x : N) : N := x mod 18446744073709551616.

Definition DEFAULT_KEY_GROUPS : N := 128.

Definition key_group (key_hash g : N) : N := if g =? 0 then 0 else wrap_u16 (key_hash mod g).

Definition instance_key_group_range (i m g : N) : N * N :=
  if m =? 0 then (0, g)
  else
    let lo := wrap_u64 (i * g) / m in
    let hi := wrap_u64 (wrap_u64 (i + 1) * g) / m in
    (wrap_u16 lo, wrap_u16 hi).

Definition div_ceil_u64 (a b : N) : N :=
  let q := a / b in if a mod b =? 0 then q else q + 1.
Definition key_group_owner (kg m g : N) : N :=
  if (m =? 0) || (g =? 0) then 0
  else
    let owner := div_ceil_u64 (wrap_u64 ((kg + 1) * m)) g in
    N.min (saturating_sub_usize owner 1) (m - 1).

(** [zelox_key_groups], from the hashes of the rows. *)
Definition zelox_key_groups (hashes : list N) (g : N) : list N := (λ h, key_group h g) <$> hashes.

Lemma key_group_lt h g : 0 < g → g < 65536 → key_group h g < g.
Proof.
  intros H0 Hg. unfold key_group, wrap_u16. destruct (N.eqb_spec g 0); [lia|].
  pose proof (N.mod_lt h g n). rewrite N.mod_small; lia.
Qed.

Lemma div_ceil_u64_spec a b q : 0 < b → 0 < a → div_ceil_u64 a b = q + 1 ↔ q * b < a ∧ a <= (q + 1) * b.
Proof.
  intros Hb Ha. unfold div_ceil_u64. pose proof (N.div_mod a b ltac:(lia)) as Hd.
  pose proof (N.mod_lt a b ltac:(lia)) as Hm. remember (a / b) as d eqn:Ed. remember (a mod b) as r eqn:Er.
  clear Ed Er. destruct (N.eqb_spec r 0) as [->|Hr]; split.
  - intros ->. split; nia.
  - intros [H1 H2]. assert (q < d) by nia. assert (d <= q + 1) by nia. lia.
  - intros Hq. assert (d = q) as -> by lia. split; nia.
  - intros [H1 H2]. assert (q <= d) by nia. assert (d < q + 1) by nia. lia.
Qed.

Lemma div_ceil_u64_pos a b : 0 < b → 0 < a → ∃ q, div_ceil_u64 a b = q + 1.
Proof.
  intros Hb Ha. exists (div_ceil_u64 a b - 1). unfold div_ceil_u64.
  pose proof (N.div_mod a b ltac:(lia)) as Hd. remember (a / b) as d eqn:Ed. remember (a mod b) as r eqn:Er.
  clear Ed Er. destruct (N.eqb_spec r 0) as [->|]; [|lia]. assert (d ≠ 0) by (intros ->; lia). lia.
Qed.

(** The instance that owns a group is the one whose range it is in. *)
Lemma owner_range kg m g i :
  0 < m → kg < g → g < 65536 → m * g < 18446744073709551616 → i < m →
  key_group_owner kg m g = i ↔
  (instance_key_group_range i m g).1 <= kg ∧ kg < (instance_key_group_range i m g).2.
Proof.
  intros Hm Hkg Hg Hmax Hi. unfold key_group_owner, instance_key_group_range.
  destruct (N.eqb_spec m 0); [lia|]. destruct (N.eqb_spec g 0); [lia|]. simpl.
  assert ((kg + 1) * m <= m * g ∧ i * g <= m * g ∧ (i + 1) * g <= m * g) as (B1 & B2 & B3) by nia.
  unfold wrap_u64. rewrite (N.mod_small (i + 1)) by nia. rewrite !N.mod_small by lia.
  assert ((i + 1) * g / m <= g) as Hhi by (apply N.Div0.div_le_upper_bound; nia).
  assert (i * g / m <= (i + 1) * g / m) as Hle by (apply N.Div0.div_le_mono; nia).
  unfold wrap_u16. rewrite !N.mod_small by lia. unfold saturating_sub_usize.
  destruct (div_ceil_u64_pos ((kg + 1) * m) g) as [q Hq]; [lia|nia|].
  rewrite Hq. apply div_ceil_u64_spec in Hq as [Q1 Q2]; [|lia|nia].
  assert (q < m) as Hqm by nia. replace (q + 1 - 1) with q by lia. rewrite N.min_l by lia.
  assert (i * g / m <= kg ↔ i * g < (kg + 1) * m) as ->.
  { split.
    - intros H. pose proof (N.mul_succ_div_gt (i * g) m ltac:(lia)). nia.
    - intros H. assert (i * g / m < kg + 1); [|lia]. apply N.Div0.div_lt_upper_bound. lia. }
  assert (kg < (i + 1) * g / m ↔ (kg + 1) * m <= (i + 1) * g) as ->.
  { rewrite <- N.le_succ_l, <- N.add_1_r. split.
    - intros H. pose proof (N.Div0.mul_div_le ((i + 1) * g) m) as Hd.
      apply (N.mul_le_mono_l _ _ m) in H. lia.
    - intros H. apply N.div_le_lower_bound; [lia|]. lia. }
  split.
  - intros ->. split; lia.
  - intros [H1 H2]. assert (i < q + 1) by (apply (N.mul_lt_mono_pos_r g); lia).
    assert (q < i + 1) by (apply (N.mul_lt_mono_pos_r g); lia). lia.
Qed.

(** C27. Every key group has exactly one owner: among [m] instances, it is in the range
    of the instance that [key_group_owner] computes and in no other, whatever the
    relation between the numbers of instances and of groups. *)
Theorem key_group_owned_once kg m g :
  0 < m → kg < g → g < 65536 → m * g < 18446744073709551616 →
  key_group_owner kg m g < m ∧
  ∀ i, i < m →
    (instance_key_group_range i m g).1 <= kg ∧ kg < (instance_key_group_range i m g).2 ↔
    i = key_group_owner kg m g.
Proof.
  intros Hm Hkg Hg Hmax. split.
  - unfold key_group_owner. destruct (N.eqb_spec m 0); [lia|]. destruct (N.eqb_spec g 0); [lia|]. simpl. lia.
  - intros i Hi. rewrite <- owner_range by done. split; congruence.
Qed.
