(* ===== verification/FlowExchange.v ===== *)
(** * Streaming: the keyed exchange

    [zelox-physical-plan/src/streaming/exchange.rs]: the distribution of a stream of
    flow events over the instances of the next operator, and the coalescer that
    merges small batches before they are sent to another host.

    The hashes of the rows of a batch, for the expressions of the exchange, and
    Arrow's [BatchCoalescer] are parameters.  A receiver may be gone: [alive] tells
    whether the receiver of a channel is there at the time of each send. *)

From S2P Require Import Prelude FlowEvents FlowAlign KeyGroups.
(** The evaluation of the key expressions and [create_hashes]. *)
Class KeyHasher `{E : FlowEngine} := row_hashes : RecordBatch → FlowResult (list N).

Section Distribute.
Context `{E : FlowEngine} `{C : !BatchCheck} `{H : !KeyHasher}.
Notation BatchResult := (FlowResult RecordBatch).

(** ** Routing *)

(** [idx_by_owner]: the rows of each owner, from the key groups of the rows. *)
Definition idx_by_owner (n : nat) (g : N) (kgs : list N) : list (list nat) :=
  foldl (λ acc '(row, kg), alter (λ l, l ++ [row]) (N.to_nat (key_group_owner kg (N.of_nat n) g)) acc)
    (replicate n []) (imap pair kgs).

(** The rows [idx] of a batch. *)
Definition take_rows (batch : RecordBatch) (idx : list nat) : FlowResult RecordBatch :=
  cols ← collect_results ((λ c, array_take c idx) <$> batch_columns batch);
  batch_try_new (batch_schema batch) cols.

(** ** Sending *)
Record DistState := MkDistState { ds_sends : nat; ds_sent : list (list BatchResult) }.
Context (alive : nat → nat → bool).

Definition dist_send (st : DistState) (i : nat) (x : BatchResult) : bool * DistState :=
  if alive (ds_sends st) i then
    (true, MkDistState (S (ds_sends st)) (alter (λ l, l ++ [x]) i (ds_sent st)))
  else (false, MkDistState (S (ds_sends st)) (ds_sent st)).
(** An error goes to the first output, and the distribution ends. *)
Definition dist_fail (st : DistState) (e : FlowError) : bool * DistState :=
  (false, (dist_send st 0 (Err e)).2).

Fixpoint dist_broadcast (st : DistState) (batch : RecordBatch) (l : list nat) : bool * DistState :=
  match l with
  | [] => (true, st)
  | i :: l =>
      let '(ok, st) := dist_send st i (Ok batch) in
      if ok then dist_broadcast st batch l else (false, st)
  end.
Fixpoint dist_owners (st : DistState) (batch : RecordBatch) (l : list (nat * list nat))
    : bool * DistState :=
  match l with
  | [] => (true, st)
  | (_, []) :: l => dist_owners st batch l
  | (owner, idx) :: l =>
      match take_rows batch idx with
      | Err e => dist_fail st e
      | Ok b =>
          let '(ok, st) := dist_send st owner (Ok b) in
          if ok then dist_owners st batch l else (false, st)
      end
  end.
Definition dist_item (n : nat) (st : DistState) (item : BatchResult) : bool * DistState :=
  match item with
  | Ok batch =>
      if is_marker_batch batch then dist_broadcast st batch (seq 0 n)
      else
        match row_hashes batch with
        | Err e => dist_fail st e
        | Ok hashes =>
            let kgs := zelox_key_groups hashes DEFAULT_KEY_GROUPS in
            dist_owners st batch (imap pair (idx_by_owner n DEFAULT_KEY_GROUPS kgs))
        end
  | Err e => dist_fail st e
  end.
Fixpoint distribute (n : nat) (st : DistState) (input : list BatchResult) : DistState :=
  match input with
  | [] => st
  | item :: input =>
      let '(continue, st) := dist_item n st item in
      if continue then distribute n st input else st
  end.
Definition distribute_start (n : nat) : DistState := MkDistState 0 (replicate n []).
End Distribute.

(** ** The coalescer *)

(** [BatchCoalescer]; [co_drain] is the loop over [next_completed_batch]. *)
Class Coalescer `{E : FlowEngine} := {
  CoState : Type;
  co_new : list Field → nat → CoState;
  co_push : CoState → RecordBatch → FlowResult CoState;
  co_is_empty : CoState → bool;
  co_finish : CoState → FlowResult CoState;
  co_drain : CoState → list RecordBatch * CoState
}.

Section Coalesce.
Context `{E : FlowEngine} `{C : !Coalescer}.
Notation BatchResult := (FlowResult RecordBatch).

(** What the loop sees: an item of the input or a tick of the timer. *)
Inductive CoEvent := CoItem (x : BatchResult) | CoTick.

(** [flush!]: the output, and the new state unless the stream ended with an error. *)
Definition co_flush (c : option CoState) : list BatchResult * option (option CoState) :=
  match c with
  | None => ([], Some None)
  | Some c =>
      match (if co_is_empty c then Ok c else co_finish c) with
      | Err e => ([Err e], None)
      | Ok c => let '(l, c) := co_drain c in (Ok <$> l, Some (Some c))
      end
  end.
Definition co_step (target : nat) (c : option CoState) (ev : CoEvent)
    : list BatchResult * option (option CoState) :=
  match ev with
  | CoTick => co_flush c
  | CoItem (Ok batch) =>
      if is_marker_batch batch then
        let '(out, c) := co_flush c in
        match c with Some c => (out ++ [Ok batch], Some c) | None => (out, None) end
      else
        let c := match c with Some c => c | None => co_new (batch_schema batch) target end in
        match co_push c batch with
        | Err e => ([Err e], None)
        | Ok c => let '(l, c) := co_drain c in (Ok <$> l, Some (Some c))
        end
  | CoItem (Err e) => ([Err e], None)
  end.
(** The stream ends with its input: the last part is flushed. *)
Fixpoint coalesce_flow_events (target : nat) (c : option CoState) (evs : list CoEvent)
    : list BatchResult :=
  match evs with
  | [] => (co_flush c).1
  | ev :: evs =>
      let '(out, c) := co_step target c ev in
      out ++ match c with Some c => coalesce_flow_events target c evs | None => [] end
  end.
End Coalesce.

(** ** Streaming: theorems on the keyed exchange *)

Section Distribute.
Context `{E : FlowEngine} `{EL : !FlowEngineLaws E} `{C : !BatchCheck} `{CL : !BatchCheckLaws C}
  `{H : !KeyHasher}.
Notation BatchResult := (FlowResult RecordBatch).

(** ** The rows of an owner *)
Definition row_owner (n : nat) (g kg : N) : nat := N.to_nat (key_group_owner kg (N.of_nat n) g).
Definition rows_of (n : nat) (g : N) (kgs : list N) (o : nat) : list nat :=
  fst <$> filter (λ '(_, kg), row_owner n g kg = o) (imap pair kgs).

Lemma foldl_push {A} (own : A → nat) (l : list (nat * A)) (acc : list (list nat)) o rows :
  acc !! o = Some rows →
  foldl (λ acc '(r, x), alter (λ l, l ++ [r]) (own x) acc) acc l !! o =
  Some (rows ++ (fst <$> filter (λ '(_, x), own x = o) l)).
Proof.
  revert acc rows. induction l as [|[r x] l IH]; intros acc rows Ho; cbn [foldl].
  { by rewrite app_nil_r. }
  destruct (decide (own x = o)) as [Hx|Hx].
  - rewrite filter_cons_True by done. rewrite (IH _ (rows ++ [r])).
    + by rewrite <- app_assoc.
    + subst o. by rewrite list_lookup_alter_eq, Ho.
  - rewrite filter_cons_False by done. apply IH. by rewrite list_lookup_alter_ne.
Qed.
Lemma idx_by_owner_lookup n g kgs o :
  o < n → idx_by_owner n g kgs !! o = Some (rows_of n g kgs o).
Proof.
  intros Ho. unfold idx_by_owner. apply (foldl_push (row_owner n g) _ _ o []).
  by apply lookup_replicate_2.
Qed.
Lemma idx_by_owner_length n g kgs : length (idx_by_owner n g kgs) = n.
Proof.
  unfold idx_by_owner. rewrite <- (length_replicate n (@nil nat)) at 2.
  generalize (replicate n (@nil nat)). induction (imap pair kgs) as [|[r x] l IH]; intros acc; [done|].
  cbn [foldl]. rewrite IH. apply length_alter.
Qed.
Lemma elem_of_rows_of n g kgs o r :
  r ∈ rows_of n g kgs o ↔ ∃ kg, kgs !! r = Some kg ∧ row_owner n g kg = o.
Proof.
  unfold rows_of. rewrite list_elem_of_fmap. split.
  - intros ([r' kg] & -> & [Ho Hin]%list_elem_of_filter). exists kg. split; [|done].
    by apply elem_of_imap_pair.
  - intros (kg & Hr & Ho). exists (r, kg). split; [done|]. apply list_elem_of_filter. split; [done|].
    by apply elem_of_imap_pair.
Qed.

(** ** What each output gets *)
Definition batch_rows_of (n : nat) (b : RecordBatch) (o : nat) : list nat :=
  match row_hashes b with
  | Ok hashes => rows_of n DEFAULT_KEY_GROUPS (zelox_key_groups hashes DEFAULT_KEY_GROUPS) o
  | Err _ => []
  end.
Definition route_batch (n o : nat) (b : RecordBatch) : list RecordBatch :=
  match batch_rows_of n b o with
  | [] => []
  | rows => match take_rows b rows with Ok b => [b] | Err _ => [] end
  end.
Definition route_item (n o : nat) (x : BatchResult) : list BatchResult :=
  match x with
  | Ok b => if is_marker_batch b then [Ok b] else Ok <$> route_batch n o b
  | Err e => []
  end.
(** An item that can be distributed. *)
Definition item_ok (n : nat) (x : BatchResult) : Prop :=
  match x with
  | Ok b =>
      is_marker_batch b = true ∨
      is_ok (row_hashes b) = true ∧ ∀ o, o < n → is_ok (take_rows b (batch_rows_of n b o)) = true
  | Err _ => False
  end.

(** ** Sending to receivers that are there *)
Section Alive.
Context (alive : nat → nat → bool) (Halive : ∀ t i, alive t i = true).

Lemma dist_send_alive st i x :
  dist_send alive st i x = (true, MkDistState (S (ds_sends st)) (alter (λ l, l ++ [x]) i (ds_sent st))).
Proof. unfold dist_send. by rewrite Halive. Qed.

Definition sent_more (st st' : DistState) (f : nat → list BatchResult) : Prop :=
  ∀ o l, ds_sent st !! o = Some l → ds_sent st' !! o = Some (l ++ f o).

Lemma broadcast_alive st b l :
  NoDup l →
  ∃ st', dist_broadcast alive st b l = (true, st') ∧
    sent_more st st' (λ o, if decide (o ∈ l) then [Ok b] else []).
Proof.
  revert st. induction l as [|i l IH]; intros st Hnd; cbn [dist_broadcast].
  { exists st. split; [done|]. intros o k Ho. rewrite decide_False by set_solver. by rewrite app_nil_r. }
  inversion_clear Hnd as [|? ? Hi Hnd']. rewrite dist_send_alive.
  edestruct IH as (st' & -> & Hst'); [done|]. exists st'. split; [done|]. intros o k Ho.
  destruct (decide (o = i)) as [->|Hne].
  - rewrite decide_True by set_solver. erewrite (Hst' i (k ++ [Ok b])).
    + rewrite decide_False by done. by rewrite app_nil_r.
    + simpl. by rewrite list_lookup_alter_eq, Ho.
  - rewrite (Hst' o k) by (simpl; by rewrite list_lookup_alter_ne).
    destruct (decide (o ∈ l)); [by rewrite decide_True by set_solver|by rewrite decide_False by set_solver].
Qed.

Lemma owners_alive st b (f : nat → list nat) l :
  NoDup l → (∀ o, o ∈ l → is_ok (take_rows b (f o)) = true) →
  ∃ st', dist_owners alive st b ((λ o, (o, f o)) <$> l) = (true, st') ∧
    sent_more st st' (λ o, if decide (o ∈ l) then
      match f o with [] => [] | rows => match take_rows b rows with Ok b => [Ok b] | Err _ => [] end end
      else []).
Proof.
  revert st. induction l as [|i l IH]; intros st Hnd Hok.
  { exists st. split; [done|]. intros o k Ho. rewrite decide_False by set_solver. by rewrite app_nil_r. }
  inversion_clear Hnd as [|? ? Hi Hnd']. rewrite fmap_cons. cbn [dist_owners].
  assert (∀ o, o ∈ l → is_ok (take_rows b (f o)) = true) as Hok' by set_solver.
  destruct (f i) as [|r rows] eqn:Hf.
  - destruct (IH st Hnd' Hok') as (st' & -> & Hst'). exists st'. split; [done|]. intros o k Ho.
    rewrite (Hst' o k Ho). destruct (decide (o = i)) as [->|Hne].
    + rewrite decide_False, decide_True by set_solver. by rewrite Hf.
    + destruct (decide (o ∈ l)); [by rewrite decide_True by set_solver|by rewrite decide_False by set_solver].
  - specialize (Hok i ltac:(set_solver)) as Hoki. rewrite Hf in Hoki.
    destruct (take_rows b (r :: rows)) as [b'|] eqn:Hb; [|done]. rewrite dist_send_alive.
    edestruct IH as (st' & -> & Hst'); [done..|]. exists st'. split; [done|]. intros o k Ho.
    destruct (decide (o = i)) as [->|Hne].
    + rewrite decide_True by set_solver. rewrite Hf, Hb. erewrite (Hst' i (k ++ [Ok b'])).
      * rewrite decide_False by done. by rewrite app_nil_r.
      * simpl. by rewrite list_lookup_alter_eq, Ho.
    + rewrite (Hst' o k) by (simpl; by rewrite list_lookup_alter_ne).
      destruct (decide (o ∈ l)); [by rewrite decide_True by set_solver|by rewrite decide_False by set_solver].
Qed.

Lemma dist_send_length st i x : length (ds_sent (dist_send alive st i x).2) = length (ds_sent st).
Proof. rewrite dist_send_alive. simpl. apply length_alter. Qed.
Lemma broadcast_length st b l : length (ds_sent (dist_broadcast alive st b l).2) = length (ds_sent st).
Proof.
  revert st. induction l as [|i l IH]; intros st; cbn [dist_broadcast]; [done|].
  rewrite dist_send_alive. rewrite IH. simpl. apply length_alter.
Qed.
Lemma owners_length st b l : length (ds_sent (dist_owners alive st b l).2) = length (ds_sent st).
Proof.
  revert st. induction l as [|[i [|r idx]] l IH]; intros st; cbn [dist_owners]; [done..|].
  destruct (take_rows b (r :: idx)); [|apply dist_send_length].
  rewrite dist_send_alive. rewrite IH. simpl. apply length_alter.
Qed.

Lemma item_alive n st x :
  item_ok n x → length (ds_sent st) = n →
  ∃ st', dist_item alive n st x = (true, st') ∧ length (ds_sent st') = n ∧
    sent_more st st' (λ o, route_item n o x).
Proof.
  intros Hok Hlen. destruct x as [b|e]; [|done]. unfold dist_item, route_item. simpl in Hok.
  assert (∀ o l, ds_sent st !! o = Some l → o ∈ seq 0 n) as Hin.
  { intros o l Ho%lookup_lt_Some. apply elem_of_seq. lia. }
  destruct (is_marker_batch b) eqn:Hm.
  - pose proof (broadcast_length st b (seq 0 n)) as Hbl.
    destruct (broadcast_alive st b (seq 0 n) (NoDup_seq 0 n)) as (st' & Hst' & Hmore).
    rewrite Hst' in *. simpl in Hbl. exists st'. split_and!; [done|lia|]. intros o l Ho.
    rewrite (Hmore o l Ho). rewrite decide_True; [done|]. by eapply Hin.
  - destruct Hok as [Hok|[Hh Hok]]; [done|]. unfold route_batch. unfold batch_rows_of in *.
    destruct (row_hashes b) as [hashes|]; [|done].
    set (kgs := zelox_key_groups hashes DEFAULT_KEY_GROUPS) in *.
    assert (imap pair (idx_by_owner n DEFAULT_KEY_GROUPS kgs) =
      (λ o, (o, rows_of n DEFAULT_KEY_GROUPS kgs o)) <$> seq 0 n) as ->.
    { apply list_eq. intros o. rewrite list_lookup_imap, list_lookup_fmap.
      destruct (decide (o < n)) as [Ho|Ho].
      - by rewrite idx_by_owner_lookup, lookup_seq_lt.
      - rewrite !lookup_ge_None_2; [done|rewrite length_seq; lia|rewrite idx_by_owner_length; lia]. }
    pose proof (owners_length st b ((λ o, (o, rows_of n DEFAULT_KEY_GROUPS kgs o)) <$> seq 0 n)) as Hol.
    destruct (owners_alive st b (rows_of n DEFAULT_KEY_GROUPS kgs) (seq 0 n) (NoDup_seq 0 n))
      as (st' & Hst' & Hmore).
    { intros o Ho. apply Hok. apply elem_of_seq in Ho. lia. }
    rewrite Hst' in *. simpl in Hol. exists st'. split_and!; [done|lia|]. intros o l Ho.
    rewrite (Hmore o l Ho), decide_True by (by eapply Hin).
    destruct (rows_of _ _ _ _) as [|r rows]; [done|]. by destruct (take_rows b (r :: rows)).
Qed.

Lemma distribute_alive n st s :
  Forall (item_ok n) s → length (ds_sent st) = n →
  sent_more st (distribute alive n st s) (λ o, s ≫= route_item n o).
Proof.
  intros Hs. revert st. induction Hs as [|x s Hx Hs IH]; intros st Hlen; cbn [distribute].
  { intros o l Ho. by rewrite app_nil_r. }
  destruct (item_alive n st x Hx Hlen) as (st' & -> & Hlen' & Hmore). intros o l Ho.
  rewrite (IH st' Hlen' o (l ++ route_item n o x)) by by apply Hmore.
  by rewrite bind_cons, <- app_assoc.
Qed.
End Alive.

(** ** The outputs as streams of events *)
Lemma is_marker_first b : is_marker_batch b = true ↔ is_Some (marker_column b ≫= first_marker).
Proof.
  unfold is_marker_batch. destruct (marker_column b) as [l|]; simpl; [|by split; [|intros []]].
  rewrite Nat.ltb_lt. induction l as [|[x|] l IH]; simpl.
  - split; [lia|by intros []].
  - split; [by eexists|]. pose proof (null_count_le l). lia.
  - rewrite <- IH. lia.
Qed.
Lemma classify_data b : is_marker_batch b = false → classify b = Ok KindData.
Proof.
  intros Hb. unfold classify. destruct (marker_column b ≫= first_marker) eqn:Hm; [|done].
  assert (is_marker_batch b = true); [|congruence]. apply is_marker_first. by rewrite Hm.
Qed.
Lemma classify_marker b : is_marker_batch b = true → classify b ≠ Ok KindData.
Proof.
  intros [bytes Hb]%is_marker_first. unfold classify. rewrite Hb.
  by destruct (marker_decode bytes) as [[]|].
Qed.

Lemma take_rows_data b idx b' :
  is_marker_batch b = false → take_rows b idx = Ok b' → is_marker_batch b' = false.
Proof.
  intros Hb Ht. apply not_true_is_false. intros Hb'. apply not_true_iff_false in Hb. apply Hb.
  rewrite is_marker_first in *. unfold take_rows in Ht.
  destruct (collect_results _) as [cols|] eqn:Hc; [|done]. simpl in Ht.
  apply batch_try_new_wf in Ht as (_ & Hs & Hcols). unfold marker_column in *. rewrite Hs, Hcols in Hb'.
  destruct (index_of _ _) as [i|]; [|done]. simpl in *.
  apply collect_results_Ok in Hc. apply (f_equal (.!! i)) in Hc. rewrite !list_lookup_fmap in Hc.
  destruct (batch_columns b !! i) as [a|]; simpl in *; [|by destruct (cols !! i)].
  destruct (cols !! i) as [a'|]; simpl in *; [|done]. injection Hc as Hc.
  rewrite (array_take_binary _ _ _ Hc) in Hb'. destruct (as_binary a) as [v|]; simpl in *; [|done].
  clear -Hb'. destruct (first_marker v) eqn:Hf; [done|]. exfalso.
  assert (∀ x, x ∈ v → x = None) as Hv.
  { clear -Hf. induction v as [|[y|] v IH]; simpl in *; [set_solver|done|].
    intros x [->|Hx]%elem_of_cons; [done|]. by apply IH. }
  induction idx as [|j idx IH]; simpl in *; [by destruct Hb'|].
  destruct (v !! j) as [x|] eqn:Hx; [|by apply IH].
  rewrite (Hv x) in Hb' by (by eapply list_elem_of_lookup_2). by apply IH.
Qed.

Lemma route_batch_data n o b b' :
  is_marker_batch b = false → b' ∈ route_batch n o b → is_marker_batch b' = false.
Proof.
  intros Hb. unfold route_batch. destruct (batch_rows_of n b o) as [|r rows]; [set_solver|].
  destruct (take_rows b (r :: rows)) as [b1|] eqn:Ht; [|set_solver].
  intros ->%list_elem_of_singleton. by eapply take_rows_data.
Qed.
Lemma data_batches_before k bs s :
  (∀ b, b ∈ bs → is_marker_batch b = false) →
  data_before k ((Ok <$> bs) ++ s) = bs ++ data_before k s ∧
  checkpoints ((Ok <$> bs) ++ s) = checkpoints s.
Proof.
  induction bs as [|b bs IH]; intros Hbs; [done|]. rewrite fmap_cons. simpl.
  rewrite (classify_data b) by set_solver. destruct IH as [-> ->]; [set_solver|done].
Qed.

Lemma routed_events n o s k :
  Forall (item_ok n) s →
  checkpoints (s ≫= route_item n o) = checkpoints s ∧
  data_before k (s ≫= route_item n o) = data_before k s ≫= route_batch n o.
Proof.
  intros Hs. revert k. induction Hs as [|[b|e] s Hx Hs IH]; intros k; [done| |done].
  rewrite bind_cons. simpl. destruct (is_marker_batch b) eqn:Hm.
  - pose proof (classify_marker b Hm) as Hc. simpl.
    destruct (classify b) as [[| | |]|]; try done.
    destruct (IH 0) as [-> _]. split; [done|]. destruct k as [|k]; [done|]. apply IH.
  - destruct (data_batches_before k (route_batch n o b) (s ≫= route_item n o)) as [-> ->].
    { intros b' Hb'. by eapply route_batch_data. }
    rewrite (classify_data b Hm), bind_cons. by destruct (IH k) as [-> ->].
Qed.

(** C23. The exchange routes a stream of events by key: as long as the receivers are
    there and no item fails, each output gets all checkpoints, and between them exactly
    the rows, in their order, whose key group it owns; a row goes to the output that
    [key_group_owner] names for the group of its hash and to no other. *)
Theorem exchange_routes alive n s o :
  (∀ t i, alive t i = true) → Forall (item_ok n) s → o < n →
  (∃ out, ds_sent (distribute alive n (distribute_start n) s) !! o = Some out ∧
    checkpoints out = checkpoints s ∧
    ∀ k, data_before k out = data_before k s ≫= route_batch n o) ∧
  (∀ b hashes r, row_hashes b = Ok hashes →
    r ∈ batch_rows_of n b o ↔
    ∃ h, hashes !! r = Some h ∧
      key_group_owner (key_group h DEFAULT_KEY_GROUPS) (N.of_nat n) DEFAULT_KEY_GROUPS = N.of_nat o).
Proof.
  intros Ha Hs Ho. split.
  - exists (s ≫= route_item n o). split; [|split].
    + rewrite (distribute_alive alive Ha n (distribute_start n) s Hs) with (l := []); [done|..].
      * simpl. by rewrite length_replicate.
      * by apply lookup_replicate_2.
    + apply (routed_events n o s 0 Hs).
    + intros k. by apply routed_events.
  - intros b hashes r Hh. unfold batch_rows_of. rewrite Hh, elem_of_rows_of. unfold zelox_key_groups.
    setoid_rewrite list_lookup_fmap_Some. unfold row_owner. split.
    + intros (kg & (h & -> & Hr) & Hk). exists h. split; [done|]. by rewrite <- Hk, N2Nat.id.
    + intros (h & Hr & Hk). exists (key_group h DEFAULT_KEY_GROUPS). split; [eauto|]. by rewrite Hk, Nat2N.id.
Qed.
End Distribute.

(** ** The coalescer *)

(** The rows of batches, and what Arrow documents of its coalescer: it keeps the rows
    that it is given, in their order, until it passes them on. *)
Class CoalescerLaws `{E : FlowEngine} (C : Coalescer) (Row : Type) := {
  batch_rows : RecordBatch → list Row;
  row_marked : Row → bool;
  co_rows : CoState → list Row;
  marker_rows b : is_marker_batch b = existsb row_marked (batch_rows b);
  co_new_rows schema target : co_rows (co_new schema target) = [];
  co_push_rows c b c' : co_push c b = Ok c' → co_rows c' = co_rows c ++ batch_rows b;
  co_drain_rows c l c' : co_drain c = (l, c') → (l ≫= batch_rows) ++ co_rows c' = co_rows c;
  co_empty_rows c : co_is_empty c = true → co_rows c = [];
  co_finish_rows c c' : co_finish c = Ok c' → co_rows c' = co_rows c ∧ co_rows (co_drain c').2 = []
}.

Section Coalesce.
Context `{E : FlowEngine} `{C : !Coalescer} {Row : Type} `{CL : !CoalescerLaws C Row}.
Notation BatchResult := (FlowResult RecordBatch).

(** A stream as its rows and markers. *)
Inductive Atom := AtomRow (r : Row) | AtomMarker (b : RecordBatch).
Definition atoms_of (x : BatchResult) : list Atom :=
  match x with
  | Ok b => if is_marker_batch b then [AtomMarker b] else AtomRow <$> batch_rows b
  | Err _ => []
  end.
Definition event_atoms (ev : CoEvent) : list Atom :=
  match ev with CoItem x => atoms_of x | CoTick => [] end.
Definition held (c : option CoState) : list Row := match c with Some c => co_rows c | None => [] end.
Definition unmarked (l : list Row) : Prop := Forall (λ r, row_marked r = false) l.

Lemma existsb_unmarked l : unmarked l → existsb row_marked l = false.
Proof. induction 1 as [|r l Hr Hl IH]; simpl; [done|]. by rewrite Hr, IH. Qed.
Lemma unmarked_existsb l : existsb row_marked l = false → unmarked l.
Proof.
  induction l as [|r l IH]; simpl; [constructor|]. intros [Hr Hl]%orb_false_iff. constructor; [done|by apply IH].
Qed.
Lemma drained_atoms l : unmarked (l ≫= batch_rows) → (Ok <$> l) ≫= atoms_of = AtomRow <$> (l ≫= batch_rows).
Proof.
  induction l as [|b l IH]; [done|]. rewrite fmap_cons, !bind_cons. intros [Hb Hl]%Forall_app.
  rewrite fmap_app, IH by done. simpl. by rewrite marker_rows, existsb_unmarked.
Qed.

Lemma drain_atoms c l c' :
  co_drain c = (l, c') → unmarked (co_rows c) →
  ((Ok <$> l) ≫= atoms_of) ++ (AtomRow <$> co_rows c') = AtomRow <$> co_rows c ∧ unmarked (co_rows c').
Proof.
  intros Hd Hu. rewrite <- (co_drain_rows _ _ _ Hd) in *. apply Forall_app in Hu as [H1 H2].
  by rewrite drained_atoms, fmap_app.
Qed.
Lemma flush_atoms c out c' :
  co_flush c = (out, Some c') → unmarked (held c) →
  out ≫= atoms_of = AtomRow <$> held c ∧ held c' = [].
Proof.
  destruct c as [c|]; simpl; [|by intros [= <- <-]]. intros Hf Hu.
  assert (∃ c1, (if co_is_empty c then Ok c else co_finish c) = Ok c1 ∧ co_rows c1 = co_rows c ∧
    co_rows (co_drain c1).2 = []) as (c1 & Hc1 & Hr & Hn).
  { destruct (co_is_empty c) eqn:He.
    - exists c. split; [done|]. split; [done|]. apply co_empty_rows in He.
      destruct (co_drain c) as [l c'1] eqn:Hd. apply co_drain_rows in Hd. rewrite He in Hd.
      by apply app_eq_nil in Hd as [_ Hd].
    - destruct (co_finish c) as [c1|] eqn:Hfin; [|done]. exists c1. split; [done|].
      by apply co_finish_rows. }
  rewrite Hc1 in Hf. destruct (co_drain c1) as [l c2] eqn:Hd. injection Hf as <- <-. simpl in *.
  rewrite <- Hr in *. destruct (drain_atoms _ _ _ Hd Hu) as [H1 _]. rewrite Hn, app_nil_r in H1. done.
Qed.

Lemma step_atoms target c ev out c' :
  co_step target c ev = (out, Some c') → unmarked (held c) →
  (out ≫= atoms_of) ++ (AtomRow <$> held c') = (AtomRow <$> held c) ++ event_atoms ev ∧
  unmarked (held c').
Proof.
  intros Hs Hu. destruct ev as [[b|e]|]; simpl in *; [|done|].
  - destruct (is_marker_batch b) eqn:Hm.
    + destruct (co_flush c) as [o [c1|]] eqn:Hf; [|done]. injection Hs as <- <-.
      destruct (flush_atoms _ _ _ Hf Hu) as [H1 H2]. rewrite H2, bind_app, H1, app_nil_r.
      simpl. rewrite Hm. split; [done|constructor].
    + destruct (co_push _ b) as [c1|] eqn:Hp; [|done]. destruct (co_drain c1) as [l c2] eqn:Hd.
      injection Hs as <- <-. apply co_push_rows in Hp.
      assert (co_rows c1 = held c ++ batch_rows b) as Hr.
      { rewrite Hp. destruct c; simpl; [done|]. by rewrite co_new_rows. }
      rewrite marker_rows in Hm. apply unmarked_existsb in Hm.
      destruct (drain_atoms _ _ _ Hd) as [H1 H2]; [rewrite Hr; by apply Forall_app|].
      simpl. rewrite H1, Hr, fmap_app. done.
  - destruct (flush_atoms _ _ _ Hs Hu) as [H1 H2]. rewrite H1, H2, !app_nil_r. split; [done|constructor].
Qed.

(** The coalescer keeps the stream: unless it ends with an error, its output has
    the rows and the markers of its input in the same order, so that no row passes a
    marker and none is lost, whenever its timer ticks. *)
Theorem coalesce_keeps_events target evs :
  (∀ e, Err e ∉ coalesce_flow_events target None evs) →
  coalesce_flow_events target None evs ≫= atoms_of = evs ≫= event_atoms.
Proof.
  enough (∀ c, unmarked (held c) → (∀ e, Err e ∉ coalesce_flow_events target c evs) →
    coalesce_flow_events target c evs ≫= atoms_of = (AtomRow <$> held c) ++ (evs ≫= event_atoms)) as Hg.
  { intros Hno. rewrite (Hg None); [done|constructor|done]. }
  induction evs as [|ev evs IH]; intros c Hu Hno; cbn [coalesce_flow_events] in *.
  - rewrite app_nil_r. destruct (co_flush c) as [out c'] eqn:Hf. simpl in *.
    destruct c' as [c'|]; [by apply (flush_atoms _ _ _ Hf)|]. exfalso.
    destruct c as [c|]; [|done]. simpl in Hf. destruct (if co_is_empty c then _ else _) as [c1|e].
    + by destruct (co_drain c1).
    + injection Hf as <-. apply (Hno e). set_solver.
  - destruct (co_step target c ev) as [out [c'|]] eqn:Hs.
    + destruct (step_atoms _ _ _ _ _ Hs Hu) as [H1 H2].
      rewrite bind_app, IH, bind_cons, !app_assoc by set_solver. by rewrite H1.
    + exfalso. rewrite app_nil_r in Hno.
      assert (∃ e, Err e ∈ out) as [e He]; [|by apply (Hno e)].
      assert (∀ c o, co_flush c = (o, None) → ∃ e, Err e ∈ o) as Hfl.
      { clear. intros c o Hf. destruct c as [c|]; [|done]. simpl in Hf.
        destruct (if co_is_empty c then _ else _) as [c1|e]; [by destruct (co_drain c1)|].
        injection Hf as <-. exists e. set_solver. }
      destruct ev as [[b|e]|]; simpl in Hs.
      * destruct (is_marker_batch b).
        -- destruct (co_flush c) as [o [c1|]] eqn:Hf; [done|]. injection Hs as <-. by eapply Hfl.
        -- destruct (co_push _ b) as [c1|e]; [by destruct (co_drain c1)|]. injection Hs as <-. exists e. set_solver.
      * injection Hs as <-. exists e. set_solver.
      * by eapply Hfl.
Qed.
End Coalesce.
