(* ===== verification/FlowMerge.v ===== *)
(** * Streaming: the merge of the sub-channels of an exchange

    [merge_output_subchannels] of [zelox-physical-plan/src/streaming/exchange.rs]: an
    output of the exchange merges what it gets from each of its inputs.  Data is
    passed on at once; of the watermarks the minimum over the inputs, and of the
    checkpoints one when all inputs delivered it.

    As in [FlowAlign], an input is the list of the items it delivers, and a step is
    given the input that is read, or a tick of the idle timer.  The output keeps the
    input that data came from and the values of the markers. *)

From S2P Require Import Prelude FlowEvents EpochCoordinator.

Section Merge.
Context `{E : FlowEngine} `{C : !BatchCheck}.
Notation BatchResult := (FlowResult RecordBatch).

Record MergeState := MkMergeState {
  ms_wm : list (option Z);
  ms_ended : list bool;
  ms_ckpt : list (option N);
  ms_last_ckpt : option N;
  ms_ckpt_template : option RecordBatch;
  ms_idle : list bool;
  ms_last_wm : option Z;
  ms_end_batch : option RecordBatch;
  ms_wm_template : option RecordBatch
}.
Definition merge_init (n : nat) : MergeState :=
  MkMergeState (replicate n None) (replicate n false) (replicate n None) None None
    (replicate n false) None None None.

Inductive MergeOut :=
| MData (j : nat) (b : RecordBatch)
| MWatermark (w : Z) (b : RecordBatch)
| MBarrier (e : N) (b : RecordBatch)
| MOther (b : RecordBatch)
| MEnd (b : RecordBatch)
| MErr (e : FlowError).

Definition m_ended (st : MergeState) (k : nat) : bool := default true (ms_ended st !! k).
Definition m_wm (st : MergeState) (k : nat) : option Z := default None (ms_wm st !! k).
Definition m_ckpt (st : MergeState) (k : nat) : option N := default None (ms_ckpt st !! k).
Definition m_idle (st : MergeState) (k : nat) : bool := default false (ms_idle st !! k).
Definition m_pollable (st : MergeState) : list nat :=
  filter (λ j, m_ended st j = false) (seq 0 (length (ms_ended st))).

(** ** The minimum of the watermarks *)
Record MinAcc := MkMinAcc {
  mi_min_active : option Z; mi_pending : bool; mi_has_active : bool; mi_max_idle : option Z }.
Definition map_or_min (o : option Z) (v : Z) : option Z :=
  Some (match o with Some c => Z.min c v | None => v end).
Definition map_or_max (o : option Z) (v : Z) : option Z :=
  Some (match o with Some c => Z.max c v | None => v end).
Definition min_step (idle_on : bool) (st : MergeState) (a : MinAcc) (k : nat) : MinAcc :=
  if m_ended st k then a
  else if idle_on && m_idle st k then
    MkMinAcc (mi_min_active a) (mi_pending a) (mi_has_active a)
      (match m_wm st k with Some v => map_or_max (mi_max_idle a) v | None => mi_max_idle a end)
  else
    match m_wm st k with
    | Some v => MkMinAcc (map_or_min (mi_min_active a) v) (mi_pending a) true (mi_max_idle a)
    | None => MkMinAcc (mi_min_active a) true true (mi_max_idle a)
    end.
Definition merged_watermark (idle_on : bool) (st : MergeState) : option Z :=
  let a := foldl (min_step idle_on st) (MkMinAcc None false false None)
             (seq 0 (length (ms_ended st))) in
  if mi_has_active a then (if mi_pending a then None else mi_min_active a) else mi_max_idle a.

(** ** The checkpoint that all inputs delivered *)
Definition ckpt_step (st : MergeState) (a : option N * bool * bool) (k : nat)
    : option N * bool * bool :=
  let '(min_ck, hold, any) := a in
  if m_ended st k then a
  else
    match m_ckpt st k with
    | Some v => (Some (match min_ck with Some c => N.min c v | None => v end), hold, true)
    | None => (min_ck, true, true)
    end.
Definition aligned_ckpt (st : MergeState) : option N :=
  let '(min_ck, hold, any) :=
    foldl (ckpt_step st) (None, false, false) (seq 0 (length (ms_ended st))) in
  if any && negb hold then min_ck else None.

(** ** The part of an iteration that re-evaluates both *)
Definition with_last_wm (st : MergeState) (w : Z) : MergeState :=
  MkMergeState (ms_wm st) (ms_ended st) (ms_ckpt st) (ms_last_ckpt st) (ms_ckpt_template st)
    (ms_idle st) (Some w) (ms_end_batch st) (ms_wm_template st).
Definition emit_watermark (idle_on : bool) (st : MergeState) : list MergeOut * option MergeState :=
  match merged_watermark idle_on st with
  | None => ([], Some st)
  | Some mw =>
      if (match ms_last_wm st with Some l => (l <? mw)%Z | None => true end) then
        let st := with_last_wm st mw in
        match ms_wm_template st with
        | None => ([], Some st)
        | Some tmpl =>
            match rewrite_watermark tmpl mw with
            | Ok b => ([MWatermark mw b], Some st)
            | Err e => ([MErr e], None)
            end
        end
      else ([], Some st)
  end.

(** One barrier for each epoch of [l]; [false] when the stream ended with an error. *)
Fixpoint emit_barriers (tmpl : RecordBatch) (l : list N) : list MergeOut * bool :=
  match l with
  | [] => ([], true)
  | e :: l =>
      match rewrite_checkpoint tmpl e with
      | Err err => ([MErr err], false)
      | Ok b => let '(out, ok) := emit_barriers tmpl l in (MBarrier e b :: out, ok)
      end
  end.
Definition epochs_between (last : option N) (a : N) : list N :=
  let start := match last with Some l => wrapping_add_u64 l 1 | None => a end in
  (λ k, start + N.of_nat k)%N <$> seq 0 (N.to_nat (a + 1 - start)).
Definition with_last_ckpt (st : MergeState) (a : N) : MergeState :=
  MkMergeState (ms_wm st) (ms_ended st) (ms_ckpt st) (Some a) (ms_ckpt_template st)
    (ms_idle st) (ms_last_wm st) (ms_end_batch st) (ms_wm_template st).
Definition emit_checkpoints (st : MergeState) : list MergeOut * option MergeState :=
  match aligned_ckpt st with
  | None => ([], Some st)
  | Some a =>
      let '(out, ok) :=
        match ms_ckpt_template st with
        | None => ([], true)
        | Some tmpl => emit_barriers tmpl (epochs_between (ms_last_ckpt st) a)
        end in
      (out, if ok : bool then Some (with_last_ckpt st a) else None)
  end.
Definition merge_recompute (idle_on : bool) (st : MergeState) : list MergeOut * option MergeState :=
  let '(out1, st1) := emit_watermark idle_on st in
  match st1 with
  | None => (out1, None)
  | Some st1 => let '(out2, st2) := emit_checkpoints st1 in (out1 ++ out2, st2)
  end.

(** ** An item of input [j]: the output, the state, and whether to re-evaluate *)
Definition set_idle (st : MergeState) (j : nat) (x : bool) : MergeState :=
  MkMergeState (ms_wm st) (ms_ended st) (ms_ckpt st) (ms_last_ckpt st) (ms_ckpt_template st)
    (<[j := x]> (ms_idle st)) (ms_last_wm st) (ms_end_batch st) (ms_wm_template st).
Definition set_ended (st : MergeState) (j : nat) (b : option RecordBatch) : MergeState :=
  MkMergeState (ms_wm st) (<[j := true]> (ms_ended st)) (ms_ckpt st) (ms_last_ckpt st)
    (ms_ckpt_template st) (ms_idle st) (ms_last_wm st)
    (match ms_end_batch st with Some e => Some e | None => b end) (ms_wm_template st).
Definition set_wm (st : MergeState) (j : nat) (ts : Z) (b : RecordBatch) : MergeState :=
  MkMergeState (<[j := map_or_max (m_wm st j) ts]> (ms_wm st)) (ms_ended st) (ms_ckpt st)
    (ms_last_ckpt st) (ms_ckpt_template st) (ms_idle st) (ms_last_wm st) (ms_end_batch st) (Some b).
Definition set_ckpt (st : MergeState) (j : nat) (e : N) (b : RecordBatch) : MergeState :=
  MkMergeState (ms_wm st) (ms_ended st)
    (<[j := Some (match m_ckpt st j with Some c => N.max c e | None => e end)]> (ms_ckpt st))
    (ms_last_ckpt st) (Some b) (ms_idle st) (ms_last_wm st) (ms_end_batch st) (ms_wm_template st).
Definition merge_item (st : MergeState) (j : nat) (item : option BatchResult)
    : list MergeOut * option (MergeState * bool) :=
  match item with
  | None => ([], Some (set_ended st j None, true))
  | Some (Err e) => ([MErr e], None)
  | Some (Ok batch) =>
      match classify_mk batch with
      | MkData => ([MData j batch], Some (set_idle st j false, false))
      | MkWatermark ts => ([], Some (set_wm (set_idle st j false) j ts batch, true))
      | MkCheckpoint e => ([], Some (set_ckpt (set_idle st j false) j e batch, true))
      | MkIdle => ([], Some (set_idle st j true, true))
      | MkEndOfData => ([], Some (set_ended st j (Some batch), true))
      | MkOther => (if (j =? 0)%nat then [MOther batch] else [], Some (st, false))
      end
  end.
Definition merge_receive (idle_on : bool) (st : MergeState) (j : nat) (item : option BatchResult)
    : list MergeOut * option MergeState :=
  match merge_item st j item with
  | (out, None) => (out, None)
  | (out, Some (st, false)) => (out, Some st)
  | (out, Some (st, true)) => let '(out2, st) := merge_recompute idle_on st in (out ++ out2, st)
  end.

(** ** Runs *)
Record MergeConfig := MkMergeConfig {
  mc_state : option MergeState; mc_inputs : list (list BatchResult); mc_output : list MergeOut }.
Definition merge_start (streams : list (list BatchResult)) : MergeConfig :=
  MkMergeConfig (Some (merge_init (length streams))) streams [].

Inductive MergeChoice := ChooseInput (j : nat) | ChooseTick.
Definition merge_next (idle_on : bool) (c : MergeConfig) (ch : MergeChoice) : option MergeConfig :=
  match mc_state c with
  | None => None
  | Some st =>
      match m_pollable st with
      | [] =>
          Some (MkMergeConfig None (mc_inputs c)
            (mc_output c ++ match ms_end_batch st with Some b => [MEnd b] | None => [] end))
      | _ =>
          match ch with
          | ChooseTick =>
              if idle_on then
                let '(out, st) := merge_recompute idle_on st in
                Some (MkMergeConfig st (mc_inputs c) (mc_output c ++ out))
              else None
          | ChooseInput j =>
              if bool_decide (j ∈ m_pollable st) then
                let input := default [] (mc_inputs c !! j) in
                let '(out, st) := merge_receive idle_on st j (head input) in
                Some (MkMergeConfig st (<[j := tail input]> (mc_inputs c)) (mc_output c ++ out))
              else None
          end
      end
  end.
Definition merge_step (idle_on : bool) (c c' : MergeConfig) : Prop :=
  ∃ ch, merge_next idle_on c ch = Some c'.

(** ** What is promised *)

(** The data that an input delivers before its end. *)
Fixpoint stream_data (s : list BatchResult) : list RecordBatch :=
  match s with
  | Ok b :: s =>
      match classify_mk b with
      | MkData => b :: stream_data s
      | MkEndOfData => []
      | _ => stream_data s
      end
  | _ => []
  end.
(** The data that an input delivers before a checkpoint of epoch [e] or later. *)
Fixpoint data_until (e : N) (s : list BatchResult) : list RecordBatch :=
  match s with
  | Ok b :: s =>
      match classify_mk b with
      | MkData => b :: data_until e s
      | MkCheckpoint e' => if (e <=? e')%N then [] else data_until e s
      | MkEndOfData => []
      | _ => data_until e s
      end
  | _ => []
  end.
Definition out_data (j : nat) (out : list MergeOut) : list RecordBatch :=
  omap (λ o, match o with MData j' b => if (j' =? j)%nat then Some b else None | _ => None end) out.
Definition out_watermarks (out : list MergeOut) : list Z :=
  omap (λ o, match o with MWatermark w _ => Some w | _ => None end) out.
Definition out_barriers (out : list MergeOut) : list N :=
  omap (λ o, match o with MBarrier e _ => Some e | _ => None end) out.

(** [on_time w b]: no row of [b] is older than the watermark [w].  After each of its
    watermarks, a stream has only data that is not older. *)
Definition stream_on_time (on_time : Z → RecordBatch → Prop) (s : list BatchResult) : Prop :=
  ∀ s1 m s2 w b, s = s1 ++ Ok m :: s2 → classify_mk m = MkWatermark w →
    Ok b ∈ s2 → classify_mk b = MkData → on_time w b.
Definition output_on_time (on_time : Z → RecordBatch → Prop) (out : list MergeOut) : Prop :=
  ∀ o1 w m o2 j b, out = o1 ++ MWatermark w m :: o2 → MData j b ∈ o2 → on_time w b.
End Merge.
