(* ===== verification/FlowMergeTheorems.v ===== *)
(** * Streaming: theorems on the merge of sub-channels

    The merged watermarks are safe and increase, the merged barriers come after the
    data they close over, and all data is delivered; but a barrier may also come after
    data that follows it in an input. *)

From Stdlib Require Import Sorted.
From S2P Require Import Prelude Collections FlowEvents EpochCoordinator FlowAlign FlowMerge.

Section Theorems.
Context `{E : FlowEngine} `{EL : !FlowEngineLaws E} `{C : !BatchCheck} `{CL : !BatchCheckLaws C}.
Notation BatchResult := (FlowResult RecordBatch).

(** ** Streams *)
Definition merge_open (x : BatchResult) : Prop :=
  match x with Ok b => classify_mk b ≠ MkEndOfData | Err _ => False end.
Notation opened := (Forall merge_open).

Lemma stream_data_app s1 s2 : opened s1 → stream_data (s1 ++ s2) = stream_data s1 ++ stream_data s2.
Proof.
  induction 1 as [|[b|e] s1 Hx Hs IH]; simpl in *; [done| |done].
  destruct (classify_mk b); simpl; by rewrite ?IH.
Qed.
Lemma data_until_app e s1 s2 :
  opened s1 →
  data_until e (s1 ++ s2) = data_until e s1 ++ data_until e s2 ∨
  data_until e (s1 ++ s2) = data_until e s1.
Proof.
  induction 1 as [|[b|err] s1 Hx Hs IH]; simpl in *; [by left| |done].
  destruct (classify_mk b) as [|w|e'| | |]; simpl; try done.
  - destruct IH as [->| ->]; auto.
  - destruct (e <=? e')%N; [by right|done].
Qed.
Lemma data_until_past e s1 s2 b v :
  opened s1 → Ok b ∈ s1 → classify_mk b = MkCheckpoint v → (e ≤ v)%N →
  data_until e (s1 ++ s2) = data_until e s1.
Proof.
  intros Hs Hb Hc Hv. induction Hs as [|[x|err] s1 Hx Hs IH]; [set_solver| |done].
  simpl in *. apply elem_of_cons in Hb as [[= <-]|Hb].
  - rewrite Hc. by rewrite (proj2 (N.leb_le e v)).
  - destruct (classify_mk x) as [|w|e'| | |]; simpl; rewrite ?IH by done; try done.
Qed.
Lemma data_until_prefix e s : data_until e s `prefix_of` stream_data s.
Proof.
  induction s as [|[b|err] s IH]; simpl; [done| |done].
  destruct (classify_mk b) as [|w|e'| | |]; try done.
  - by apply prefix_cons.
  - destruct (e <=? e')%N; [apply prefix_nil|done].
Qed.

Lemma out_data_app j o1 o2 : out_data j (o1 ++ o2) = out_data j o1 ++ out_data j o2.
Proof. apply omap_app. Qed.
Lemma out_watermarks_app o1 o2 : out_watermarks (o1 ++ o2) = out_watermarks o1 ++ out_watermarks o2.
Proof. apply omap_app. Qed.
Lemma out_barriers_app o1 o2 : out_barriers (o1 ++ o2) = out_barriers o1 ++ out_barriers o2.
Proof. apply omap_app. Qed.

(** ** The two minima *)
Lemma m_pollable_seq st k : m_ended st k = false → k ∈ seq 0 (length (ms_ended st)).
Proof.
  unfold m_ended. intros H. destruct (ms_ended st !! k) eqn:Hk; [|done].
  apply lookup_lt_Some in Hk. apply elem_of_seq. lia.
Qed.

Lemma min_fold_spec idle_on st l :
  (∀ k, m_ended st k = false → idle_on && m_idle st k = false) →
  let a := foldl (min_step idle_on st) (MkMinAcc None false false None) l in
  mi_max_idle a = None ∧
  (mi_pending a = false → ∀ k, k ∈ l → m_ended st k = false →
    ∃ v m, m_wm st k = Some v ∧ mi_min_active a = Some m ∧ (m ≤ v)%Z).
Proof.
  intros Hidle. induction l as [|k l IH] using rev_ind; [split; [done|set_solver]|].
  rewrite foldl_app. cbn [foldl]. simpl in IH. destruct IH as [I1 I2].
  remember (foldl (min_step idle_on st) _ l) as a eqn:Ha. clear Ha.
  unfold min_step. destruct (m_ended st k) eqn:Hk.
  - split; [done|]. intros H2 k' [Hk'|Hk']%elem_of_app Hn; [by apply I2|].
    apply list_elem_of_singleton in Hk' as ->. congruence.
  - rewrite (Hidle k Hk). destruct (m_wm st k) as [v|] eqn:Hv; [|by split].
    split; [done|]. simpl. intros H2 k' [Hk'|Hk']%elem_of_app Hn.
    + destruct (I2 H2 k' Hk' Hn) as (v' & m & Hv' & -> & Hm). exists v'. eexists.
      split_and!; [done..|]. lia.
    + apply list_elem_of_singleton in Hk' as ->. exists v. eexists. split_and!; [done..|].
      destruct (mi_min_active a); lia.
Qed.
Lemma merged_watermark_spec idle_on st mw k :
  (∀ k, m_ended st k = false → idle_on && m_idle st k = false) →
  merged_watermark idle_on st = Some mw → m_ended st k = false →
  ∃ v, m_wm st k = Some v ∧ (mw ≤ v)%Z.
Proof.
  intros Hidle Hm Hk. unfold merged_watermark in Hm.
  destruct (min_fold_spec idle_on st (seq 0 (length (ms_ended st))) Hidle) as [H1 H2].
  destruct (mi_has_active _); [|congruence]. destruct (mi_pending _) eqn:Hp; [done|].
  destruct (H2 eq_refl k (m_pollable_seq _ _ Hk) Hk) as (v & m & Hv & Hmin & Hle).
  exists v. split; [done|]. rewrite Hmin in Hm. injection Hm as ->. done.
Qed.

Lemma ckpt_fold_spec st l :
  let '(min_ck, hold, any) := foldl (ckpt_step st) (None, false, false) l in
  (hold = false → ∀ k, k ∈ l → m_ended st k = false →
    ∃ v m, m_ckpt st k = Some v ∧ min_ck = Some m ∧ (m ≤ v)%N) ∧
  (∀ m, min_ck = Some m → ∃ k, m_ended st k = false ∧ m_ckpt st k = Some m).
Proof.
  induction l as [|k l IH] using rev_ind; [split; [set_solver|done]|].
  rewrite foldl_app. cbn [foldl].
  destruct (foldl (ckpt_step st) (None, false, false) l) as [[min_ck hold] any]. destruct IH as [I1 I2].
  unfold ckpt_step. destruct (m_ended st k) eqn:Hk.
  - split; [|done]. intros Hh k' [Hk'|Hk']%elem_of_app Hn; [by apply I1|].
    apply list_elem_of_singleton in Hk' as ->. congruence.
  - destruct (m_ckpt st k) as [v|] eqn:Hv; [|by split]. split.
    + intros Hh k' [Hk'|Hk']%elem_of_app Hn.
      * destruct (I1 Hh k' Hk' Hn) as (v' & m & Hv' & -> & Hm). exists v'. eexists.
        split_and!; [done..|]. lia.
      * apply list_elem_of_singleton in Hk' as ->. exists v. eexists. split_and!; [done..|].
        destruct min_ck; lia.
    + intros m [= <-]. destruct min_ck as [c|]; [|by exists k].
      destruct (N.min_spec c v) as [[_ ->]|[_ ->]]; [by apply I2|by exists k].
Qed.
Lemma aligned_ckpt_spec st a :
  aligned_ckpt st = Some a →
  (∀ k, m_ended st k = false → ∃ v, m_ckpt st k = Some v ∧ (a ≤ v)%N) ∧
  ∃ k, m_ended st k = false ∧ m_ckpt st k = Some a.
Proof.
  unfold aligned_ckpt. pose proof (ckpt_fold_spec st (seq 0 (length (ms_ended st)))) as Hs.
  destruct (foldl _ _ _) as [[min_ck hold] any]. destruct Hs as [H1 H2].
  destruct (any && negb hold) eqn:Hh; [|done]. apply andb_prop in Hh as [_ Hh%negb_true_iff].
  intros ->. split; [|by apply H2]. intros k Hk.
  destruct (H1 Hh k (m_pollable_seq _ _ Hk) Hk) as (v & m & Hv & [= ->] & Hle). eauto.
Qed.

(** ** The invariant *)
Section Inv.
Context (streams : list (list BatchResult)) (idle_on : bool) (on_time : Z → RecordBatch → Prop).

(** No input is left out of the minimum for being idle. *)
Definition no_idle : Prop :=
  idle_on = false ∨ ∀ s b, s ∈ streams → Ok b ∈ s → classify_mk b ≠ MkIdle.

Definition merge_input_inv (st : MergeState) (j : nat) (s rest : list BatchResult) (od : list RecordBatch)
    : Prop :=
  ∃ read, s = read ++ rest ∧ od = stream_data read ∧
    if m_ended st j then stream_data s = stream_data read
    else opened read ∧
      (∀ b w, Ok b ∈ read → classify_mk b = MkWatermark w → ∃ v, m_wm st j = Some v ∧ (w ≤ v)%Z) ∧
      (∀ v, m_wm st j = Some v → ∃ b, Ok b ∈ read ∧ classify_mk b = MkWatermark v) ∧
      (∀ v, m_ckpt st j = Some v → ∃ b, Ok b ∈ read ∧ classify_mk b = MkCheckpoint v).

Record merge_inv (st : MergeState) (inputs : list (list BatchResult)) (out : list MergeOut) : Prop := {
  mv_lengths : length (ms_wm st) = length streams ∧ length (ms_ended st) = length streams ∧
    length (ms_ckpt st) = length streams ∧ length (ms_idle st) = length streams ∧
    length inputs = length streams;
  mv_inputs : ∀ j s rest, streams !! j = Some s → inputs !! j = Some rest →
    merge_input_inv st j s rest (out_data j out);
  mv_idle : no_idle → ∀ k, idle_on && m_idle st k = false;
  mv_wm : no_idle → ∀ w k, w ∈ out_watermarks out → m_ended st k = false →
    ∃ v, m_wm st k = Some v ∧ (w ≤ v)%Z;
  mv_last_wm : ∀ w, w ∈ out_watermarks out → ∃ l, ms_last_wm st = Some l ∧ (w ≤ l)%Z;
  mv_last_ckpt : ms_last_ckpt st = last (out_barriers out);
  mv_ckpt : ∀ l k, ms_last_ckpt st = Some l → m_ended st k = false →
    ∃ v, m_ckpt st k = Some v ∧ (l ≤ v)%N;
  mv_template : ∀ k v, m_ckpt st k = Some v → is_Some (ms_ckpt_template st)
}.

(** What holds of the output alone. *)
Definition consecutive (l : list N) : Prop :=
  ∀ k e e', l !! k = Some e → l !! (S k) = Some e' → e' = (e + 1)%N.
Record merge_out_ok (out : list MergeOut) : Prop := {
  mo_on_time : no_idle → output_on_time on_time out;
  mo_sorted : StronglySorted Z.lt (out_watermarks out);
  mo_consecutive : consecutive (out_barriers out);
  mo_barriers : ∀ o1 e b o2 j s, out = o1 ++ MBarrier e b :: o2 → streams !! j = Some s →
    data_until e s `prefix_of` out_data j o1;
  mo_data : ∀ j s, streams !! j = Some s → out_data j out `prefix_of` stream_data s
}.
Definition merge_config_inv (c : MergeConfig) : Prop :=
  merge_out_ok (mc_output c) ∧
  match mc_state c with
  | Some st => merge_inv st (mc_inputs c) (mc_output c)
  | None =>
      (∀ e, MErr e ∉ mc_output c) →
      ∀ j s, streams !! j = Some s → out_data j (mc_output c) = stream_data s
  end.

(** *** Extending the output *)
Lemma split_snoc {A} (out : list A) x o1 y o2 :
  out ++ [x] = o1 ++ y :: o2 → (o2 = [] ∧ out = o1 ∧ x = y) ∨ ∃ o2', o2 = o2' ++ [x] ∧ out = o1 ++ y :: o2'.
Proof.
  intros H. destruct o2 as [|z o2 _] using rev_ind.
  - apply app_inj_tail in H as [-> ->]. by left.
  - right. exists o2. rewrite app_comm_cons, app_assoc in H. apply app_inj_tail in H as [-> ->]. done.
Qed.
Lemma out_ok_snoc out x :
  merge_out_ok out →
  (no_idle → ∀ j b w, x = MData j b → w ∈ out_watermarks out → on_time w b) →
  (∀ w b, x = MWatermark w b → ∀ w', w' ∈ out_watermarks out → (w' < w)%Z) →
  (∀ e b, x = MBarrier e b → from_option (λ l, e = (l + 1)%N) True (last (out_barriers out)) ∧
    ∀ j s, streams !! j = Some s → data_until e s `prefix_of` out_data j out) →
  (∀ j s, streams !! j = Some s → out_data j (out ++ [x]) `prefix_of` stream_data s) →
  merge_out_ok (out ++ [x]).
Proof.
  intros [] Hdata Hwm Hbar Hall. split; [..|done].
  - intros Hn o1 w m o2 j b [(-> & -> & ->)|(o2' & -> & ->)]%split_snoc; [set_solver|].
    intros [Hin|Hin]%elem_of_app; [by eapply mo_on_time0|].
    apply list_elem_of_singleton in Hin as <-. apply (Hdata Hn j b w eq_refl).
    rewrite out_watermarks_app. apply elem_of_app. right. simpl. set_solver.
  - rewrite out_watermarks_app. destruct x as [|w b| | | |]; simpl; rewrite ?app_nil_r; try done.
    apply sorted_snoc; [done|]. intros w' Hw'. by eapply Hwm.
  - rewrite out_barriers_app. destruct x as [| |e b| | |]; simpl; rewrite ?app_nil_r; try done.
    intros k e1 e2 H1 H2. destruct (Hbar e b eq_refl) as [Hlast _].
    apply lookup_snoc_Some in H2 as [[Hlt H2]|[Hk ->]].
    + rewrite lookup_app_l in H1 by lia. by eapply mo_consecutive0.
    + rewrite lookup_app_l in H1 by lia. rewrite last_lookup, <- Hk in Hlast. simpl in Hlast.
      rewrite H1 in Hlast. done.
  - intros o1 e b o2 j s [(-> & -> & ->)|(o2' & -> & ->)]%split_snoc; [|by eapply mo_barriers0].
    by apply (Hbar e b eq_refl).
Qed.

(** *** Output that is no data *)
Definition no_data (x : MergeOut) : Prop := match x with MData _ _ => False | _ => True end.
Lemma out_data_no_data j out x : no_data x → out_data j (out ++ [x]) = out_data j out.
Proof. intros Hx. rewrite out_data_app. destruct x; simpl; by rewrite ?app_nil_r. Qed.

Lemma out_ok_plain out x :
  merge_out_ok out → no_data x → out_watermarks [x] = [] → out_barriers [x] = [] →
  merge_out_ok (out ++ [x]).
Proof.
  intros Ho Hx Hw Hb. apply out_ok_snoc; [done|..].
  - by intros _ j b w ->.
  - by intros w b ->.
  - by intros e b ->.
  - intros j s Hs. rewrite out_data_no_data by done. by apply (mo_data _ Ho).
Qed.

(** The state changes in the last emitted values only. *)
Lemma inv_output st st' inputs out out' :
  merge_inv st inputs out →
  ms_wm st' = ms_wm st → ms_ended st' = ms_ended st → ms_ckpt st' = ms_ckpt st →
  ms_idle st' = ms_idle st → ms_ckpt_template st' = ms_ckpt_template st →
  (∀ j, out_data j out' = out_data j out) →
  (no_idle → ∀ w k, w ∈ out_watermarks out' → m_ended st k = false →
    ∃ v, m_wm st k = Some v ∧ (w ≤ v)%Z) →
  (∀ w, w ∈ out_watermarks out' → ∃ l, ms_last_wm st' = Some l ∧ (w ≤ l)%Z) →
  ms_last_ckpt st' = last (out_barriers out') →
  (∀ l k, ms_last_ckpt st' = Some l → m_ended st k = false → ∃ v, m_ckpt st k = Some v ∧ (l ≤ v)%N) →
  merge_inv st' inputs out'.
Proof.
  intros Hi E1 E2 E3 E4 E5 Hd Hw Hl Hb Hc.
  assert (∀ k, m_ended st' k = m_ended st k ∧ m_wm st' k = m_wm st k ∧ m_ckpt st' k = m_ckpt st k ∧
    m_idle st' k = m_idle st k) as Hm.
  { intros k. unfold m_ended, m_wm, m_ckpt, m_idle. by rewrite E1, E2, E3, E4. }
  destruct Hi. split.
  - by rewrite E1, E2, E3, E4.
  - intros j s rest Hs Hr. rewrite Hd. unfold merge_input_inv. destruct (Hm j) as (-> & -> & -> & _).
    by apply mv_inputs0.
  - intros Hn k. destruct (Hm k) as (_ & _ & _ & ->). by apply mv_idle0.
  - intros Hn w k. destruct (Hm k) as (-> & -> & _). by apply Hw.
  - done.
  - done.
  - intros l k. destruct (Hm k) as (-> & _ & -> & _). by apply Hc.
  - intros k v. destruct (Hm k) as (_ & _ & -> & _). rewrite E5. by apply mv_template0.
Qed.

Lemma emit_watermark_inv st inputs out o st' :
  merge_inv st inputs out → merge_out_ok out → emit_watermark idle_on st = (o, st') →
  merge_out_ok (out ++ o) ∧ (match st' with Some st' => merge_inv st' inputs (out ++ o) | None => ∃ e, MErr e ∈ o end).
Proof.
  intros Hi Ho. unfold emit_watermark. destruct (merged_watermark idle_on st) as [mw|] eqn:Hmw.
  2:{ intros [= <- <-]. by rewrite app_nil_r. }
  destruct (match ms_last_wm st with Some l => (l <? mw)%Z | None => true end) eqn:Hlt.
  2:{ intros [= <- <-]. by rewrite app_nil_r. }
  assert (∀ w, w ∈ out_watermarks out → (w < mw)%Z) as Hold.
  { intros w Hw. destruct (mv_last_wm _ _ _ Hi w Hw) as (l & Hl & Hle). rewrite Hl in Hlt.
    apply Z.ltb_lt in Hlt. lia. }
  assert (∀ out', (∀ j, out_data j out' = out_data j out) → out_barriers out' = out_barriers out →
    (∀ w, w ∈ out_watermarks out' → w ∈ out_watermarks out ∨ w = mw) →
    merge_inv (with_last_wm st mw) inputs out') as Hinv.
  { intros out' Hd Hb Hw. apply inv_output with st out; try done.
    - intros Hn w k [Hin| ->]%Hw Hk; [by apply (mv_wm _ _ _ Hi Hn w k)|].
      apply (merged_watermark_spec idle_on st mw k); [|done|done].
      intros k' _. by apply (mv_idle _ _ _ Hi Hn).
    - intros w [Hin| ->]%Hw; exists mw; (split; [done|]); [|lia]. specialize (Hold w Hin). lia.
    - rewrite Hb. apply (mv_last_ckpt _ _ _ Hi).
    - apply (mv_ckpt _ _ _ Hi). }
  change (ms_wm_template (with_last_wm st mw)) with (ms_wm_template st).
  destruct (ms_wm_template st) as [tmpl|].
  2:{ intros [= <- <-]. rewrite app_nil_r. split; [done|]. apply Hinv; auto. }
  destruct (rewrite_watermark tmpl mw) as [b|e]; intros [= <- <-].
  - split.
    + apply out_ok_snoc; try done.
      * intros w b' [= <- <-]. done.
      * intros j s Hs. rewrite out_data_no_data by done. by apply (mo_data _ Ho).
    + apply Hinv.
      * intros j. by apply out_data_no_data.
      * by rewrite out_barriers_app, app_nil_r.
      * intros w. rewrite out_watermarks_app, elem_of_app. simpl. rewrite list_elem_of_singleton. tauto.
  - split; [by apply out_ok_plain|]. exists e. set_solver.
Qed.

(** *** Barriers *)
Fixpoint chain (p : option N) (l : list N) : Prop :=
  match l with
  | [] => True
  | e :: l => from_option (λ x, e = (x + 1)%N) True p ∧ chain (Some e) l
  end.
Lemma emit_barriers_ok tmpl l out o ok :
  merge_out_ok out → chain (last (out_barriers out)) l →
  (∀ e j s, e ∈ l → streams !! j = Some s → data_until e s `prefix_of` out_data j out) →
  emit_barriers tmpl l = (o, ok) →
  merge_out_ok (out ++ o) ∧ (∀ j, out_data j (out ++ o) = out_data j out) ∧
  out_watermarks (out ++ o) = out_watermarks out ∧
  (if ok : bool then out_barriers (out ++ o) = out_barriers out ++ l else ∃ e, MErr e ∈ o).
Proof.
  revert out o. induction l as [|e l IH]; intros out o Ho Hch Hready; simpl.
  { intros [= <- <-]. by rewrite !app_nil_r. }
  destruct (rewrite_checkpoint tmpl e) as [b|err].
  2:{ intros [= <- <-]. split; [by apply out_ok_plain|]. split; [intros j; by apply out_data_no_data|].
      split; [by rewrite out_watermarks_app, app_nil_r|]. exists err. set_solver. }
  destruct (emit_barriers tmpl l) as [o' ok'] eqn:Hem. intros [= <- <-].
  destruct Hch as [Hhead Hch]. assert (merge_out_ok (out ++ [MBarrier e b])) as Ho'.
  { apply out_ok_snoc; try done.
    - intros e' b' [= <- <-]. split; [done|]. intros j s. apply Hready. set_solver.
    - intros j s Hs. rewrite out_data_no_data by done. by apply (mo_data _ Ho). }
  destruct (IH (out ++ [MBarrier e b]) o' Ho') as (J1 & J2 & J3 & J4); [..|done|].
  - rewrite out_barriers_app. simpl. by rewrite last_snoc.
  - intros e' j s He' Hs. rewrite out_data_no_data by done. apply Hready; [set_solver|done].
  - rewrite <- app_assoc in J1, J2, J3, J4. simpl in *. split; [done|]. split.
    { intros j. rewrite J2. by apply out_data_no_data. }
    split; [rewrite J3, out_watermarks_app; by rewrite app_nil_r|].
    destruct ok'; [|destruct J4 as [err J4]; exists err; set_solver].
    rewrite J4, out_barriers_app, <- app_assoc. done.
Qed.

Definition ids_bounded : Prop :=
  ∀ s b v, s ∈ streams → Ok b ∈ s → classify_mk b = MkCheckpoint v → (v < u64_max)%N.

Lemma chain_between last a :
  (∀ l, last = Some l → (l ≤ a)%N ∧ (a < u64_max)%N) →
  chain last (epochs_between last a) ∧
  (∀ e, e ∈ epochs_between last a → (e ≤ a)%N) ∧
  (∀ l0, from_option (λ l, list.last l0 = Some l) (l0 = []) last →
    list.last (l0 ++ epochs_between last a) = Some a).
Proof.
  intros Hl. unfold epochs_between.
  assert (∀ n p x, (p = None ∨ p = Some (x - 1)%N ∧ (0 < x)%N) →
    chain p ((λ k, x + N.of_nat k)%N <$> seq 0 n)) as Hchain.
  { intros n. induction n as [|n IH]; intros p x Hp; simpl; [done|]. split.
    - destruct Hp as [->|[-> Hx]]; simpl; [done|lia].
    - rewrite <- fmap_S_seq, <- list_fmap_compose.
      rewrite (list_fmap_ext _ (λ k, (x + 1) + N.of_nat k)%N) by (intros; simpl; lia).
      apply IH. right. split; [f_equal|]; lia. }
  destruct last as [l|].
  - destruct (Hl l eq_refl) as [H1 H2]. unfold wrapping_add_u64.
    rewrite N.mod_small by lia. split; [apply Hchain; right; split; [f_equal|]; lia|]. split.
    + intros e (k & -> & Hk%elem_of_seq)%list_elem_of_fmap. lia.
    + intros l0 Hl0. simpl in Hl0. destruct (N.to_nat (a + 1 - (l + 1))) as [|n] eqn:Hn.
      * simpl. rewrite app_nil_r, Hl0. f_equal. lia.
      * rewrite seq_S, fmap_app, app_assoc. simpl. rewrite last_snoc. f_equal. lia.
  - split; [apply Hchain; by left|]. replace (a + 1 - a)%N with 1%N by lia. simpl.
    rewrite N.add_0_r. split; [set_solver|]. intros l0 ->. done.
Qed.

Lemma barrier_ready st inputs out a e j s :
  merge_inv st inputs out → aligned_ckpt st = Some a → (e ≤ a)%N → streams !! j = Some s →
  data_until e s `prefix_of` out_data j out.
Proof.
  intros Hi [Hall _]%aligned_ckpt_spec He Hs.
  destruct (mv_lengths _ _ _ Hi) as (_ & _ & _ & _ & L5).
  destruct (lookup_lt_is_Some_2 inputs j) as [rest Hr]; [rewrite L5; by eapply lookup_lt_Some|].
  destruct (mv_inputs _ _ _ Hi j s rest Hs Hr) as (read & -> & -> & Hrest).
  destruct (m_ended st j) eqn:Hj; [rewrite <- Hrest; apply data_until_prefix|].
  destruct Hrest as (Hop & _ & _ & Hck). destruct (Hall j Hj) as (v & Hv & Hle).
  destruct (Hck v Hv) as (b & Hb & Hcb). rewrite (data_until_past e read rest b v) by (done || lia).
  apply data_until_prefix.
Qed.

Lemma emit_checkpoints_inv st inputs out o st' :
  ids_bounded → merge_inv st inputs out → merge_out_ok out → emit_checkpoints st = (o, st') →
  merge_out_ok (out ++ o) ∧ (match st' with Some st' => merge_inv st' inputs (out ++ o) | None => ∃ e, MErr e ∈ o end).
Proof.
  intros Hids Hi Ho. unfold emit_checkpoints. destruct (aligned_ckpt st) as [a|] eqn:Ha.
  2:{ intros [= <- <-]. by rewrite app_nil_r. }
  destruct (aligned_ckpt_spec st a Ha) as (Hall & k & Hk & Hka).
  destruct (mv_template _ _ _ Hi k a Hka) as [tmpl ->].
  destruct (emit_barriers tmpl _) as [o' ok] eqn:Hem. intros [= <- <-].
  assert (a < u64_max)%N as Hmax.
  { destruct (mv_lengths _ _ _ Hi) as (_ & L2 & _ & _ & L5).
    assert (k < length streams) as Hlt.
    { apply m_pollable_seq, elem_of_seq in Hk. lia. }
    destruct (lookup_lt_is_Some_2 streams k Hlt) as [s Hs].
    destruct (lookup_lt_is_Some_2 inputs k) as [rest Hr]; [lia|].
    destruct (mv_inputs _ _ _ Hi k s rest Hs Hr) as (read & -> & _ & Hrest). rewrite Hk in Hrest.
    destruct Hrest as (_ & _ & _ & Hck). destruct (Hck a Hka) as (b & Hb & Hc).
    apply (Hids (read ++ rest) b a); [by eapply list_elem_of_lookup_2|set_solver|done]. }
  destruct (chain_between (ms_last_ckpt st) a) as (Hch & Hle & Hlast).
  { intros l Hl. destruct (mv_ckpt _ _ _ Hi l k Hl Hk) as (v & Hv & Hlv).
    rewrite Hka in Hv. injection Hv as <-. done. }
  pose proof (mv_last_ckpt _ _ _ Hi) as Hlc.
  destruct (emit_barriers_ok tmpl (epochs_between (ms_last_ckpt st) a) out o' ok Ho)
    as (J1 & J2 & J3 & J4); [by rewrite <- Hlc| |done|].
  { intros e j s He Hs. by apply (barrier_ready st inputs out a e j s Hi Ha); [apply Hle|]. }
  split; [done|]. destruct ok; [|done]. apply inv_output with st out; try done.
  - intros Hn w k'. rewrite J3. by apply (mv_wm _ _ _ Hi).
  - intros w. rewrite J3. by apply (mv_last_wm _ _ _ Hi).
  - simpl. rewrite J4. symmetry. apply Hlast. destruct (ms_last_ckpt st); simpl; [done|].
    by apply last_None.
  - simpl. intros l k' [= <-] Hk'. by apply Hall.
Qed.

Lemma recompute_inv st inputs out o st' :
  ids_bounded → merge_inv st inputs out → merge_out_ok out → merge_recompute idle_on st = (o, st') →
  merge_out_ok (out ++ o) ∧ (match st' with Some st' => merge_inv st' inputs (out ++ o) | None => ∃ e, MErr e ∈ o end).
Proof.
  intros Hids Hi Ho. unfold merge_recompute. destruct (emit_watermark idle_on st) as [o1 st1] eqn:H1.
  destruct (emit_watermark_inv _ _ _ _ _ Hi Ho H1) as [Ho1 Hi1]. destruct st1 as [st1|].
  2:{ intros [= <- <-]. done. }
  destruct (emit_checkpoints st1) as [o2 st2] eqn:H2. intros [= <- <-].
  destruct (emit_checkpoints_inv _ _ _ _ _ Hids Hi1 Ho1 H2) as [Ho2 Hi2]. rewrite app_assoc.
  split; [done|]. destruct st2; [done|]. destruct Hi2 as [e He]. exists e. set_solver.
Qed.

(** *** Reading an item *)
Definition grows {A} (le : A → A → Prop) (o o' : option A) : Prop :=
  ∀ v, o = Some v → ∃ v', o' = Some v' ∧ le v v'.
Record item_change (st st' : MergeState) (j : nat) : Prop := {
  ic_lengths : length (ms_wm st') = length (ms_wm st) ∧ length (ms_ended st') = length (ms_ended st) ∧
    length (ms_ckpt st') = length (ms_ckpt st) ∧ length (ms_idle st') = length (ms_idle st);
  ic_other : ∀ k, k ≠ j → m_ended st' k = m_ended st k ∧ m_wm st' k = m_wm st k ∧
    m_ckpt st' k = m_ckpt st k ∧ m_idle st' k = m_idle st k;
  ic_wm : grows Z.le (m_wm st j) (m_wm st' j);
  ic_ckpt : grows N.le (m_ckpt st j) (m_ckpt st' j);
  ic_last : ms_last_wm st' = ms_last_wm st ∧ ms_last_ckpt st' = ms_last_ckpt st;
  ic_template : (∀ v, m_ckpt st' j = Some v → m_ckpt st j = Some v ∨ is_Some (ms_ckpt_template st')) ∧
    (is_Some (ms_ckpt_template st) → is_Some (ms_ckpt_template st'))
}.

Lemma inv_item st st' inputs out j rest' o :
  merge_inv st inputs out → item_change st st' j → m_ended st j = false →
  (∀ k, k ≠ j → out_data k o = []) → out_watermarks o = [] → out_barriers o = [] →
  (no_idle → idle_on && m_idle st' j = false) →
  (∀ s, streams !! j = Some s → merge_input_inv st' j s rest' (out_data j (out ++ o))) →
  merge_inv st' (<[j := rest']> inputs) (out ++ o).
Proof.
  intros Hi Hc Hend Hd Hw Hb Hidle Hthis. destruct Hi, Hc.
  assert (out_watermarks (out ++ o) = out_watermarks out) as Ew by by rewrite out_watermarks_app, Hw, app_nil_r.
  assert (out_barriers (out ++ o) = out_barriers out) as Eb by by rewrite out_barriers_app, Hb, app_nil_r.
  destruct ic_last0 as [El1 El2]. destruct ic_template0 as [Et1 Et2]. split.
  - rewrite length_insert. destruct ic_lengths0 as (-> & -> & -> & ->). done.
  - intros k s rest Hs Hr. destruct (decide (k = j)) as [->|Hne].
    + apply list_lookup_insert_Some in Hr as [(_ & <- & _)|[? _]]; [by apply Hthis|done].
    + rewrite list_lookup_insert_ne in Hr by done. unfold merge_input_inv.
      destruct (ic_other0 k Hne) as (-> & -> & -> & _).
      rewrite out_data_app, Hd, app_nil_r by done. by apply mv_inputs0.
  - intros Hn k. destruct (decide (k = j)) as [->|Hne]; [by apply Hidle|].
    destruct (ic_other0 k Hne) as (_ & _ & _ & ->). by apply mv_idle0.
  - intros Hn w k Hin Hk. rewrite Ew in Hin. destruct (decide (k = j)) as [->|Hne].
    + destruct (mv_wm0 Hn w j Hin Hend) as (v & Hv & Hle).
      destruct (ic_wm0 v Hv) as (v' & Hv' & Hle'). exists v'. split; [done|lia].
    + destruct (ic_other0 k Hne) as (He & -> & _). rewrite He in Hk. by apply (mv_wm0 Hn).
  - intros w. rewrite Ew, El1. apply mv_last_wm0.
  - by rewrite Eb, El2.
  - intros l k. rewrite El2. intros Hl Hk. destruct (decide (k = j)) as [->|Hne].
    + destruct (mv_ckpt0 l j Hl Hend) as (v & Hv & Hle).
      destruct (ic_ckpt0 v Hv) as (v' & Hv' & Hle'). exists v'. split; [done|lia].
    + destruct (ic_other0 k Hne) as (He & _ & -> & _). rewrite He in Hk. by apply mv_ckpt0.
  - intros k v Hv. destruct (decide (k = j)) as [->|Hne].
    + destruct (Et1 v Hv) as [Hv'|]; [|done]. by eapply Et2, mv_template0.
    + destruct (ic_other0 k Hne) as (_ & _ & He & _). rewrite He in Hv. by eapply Et2, mv_template0.
Qed.

(** The input that was read, when the item does not end it. *)
Lemma input_read st st' j s b rest' od :
  merge_input_inv st j s (Ok b :: rest') od → m_ended st j = false → m_ended st' j = false →
  classify_mk b ≠ MkEndOfData →
  match classify_mk b with
  | MkWatermark w => m_wm st' j = map_or_max (m_wm st j) w
  | _ => m_wm st' j = m_wm st j
  end →
  match classify_mk b with
  | MkCheckpoint e => m_ckpt st' j = Some (match m_ckpt st j with Some c => N.max c e | None => e end)
  | _ => m_ckpt st' j = m_ckpt st j
  end →
  merge_input_inv st' j s rest' (od ++ stream_data [Ok b]).
Proof.
  intros (read & -> & -> & Hin) He He' Hb Hw Hc. rewrite He in Hin. destruct Hin as (Hop & H1 & H2 & H3).
  exists (read ++ [Ok b]). rewrite <- app_assoc. split; [done|].
  rewrite stream_data_app by done. split; [done|]. rewrite He'.
  assert (∀ b', Ok b' ∈ read ++ [Ok b] ↔ Ok b' ∈ read ∨ b' = b) as Hin.
  { intros b'. rewrite elem_of_app, list_elem_of_singleton. split; intros [?|?]; auto; left + right; congruence. }
  split_and!.
  - apply Forall_app. split; [done|]. by constructor.
  - intros b' w [Hr| ->]%Hin Hcl.
    + destruct (H1 b' w Hr Hcl) as (v & Hv & Hle). destruct (classify_mk b) as [|w'| | | |]; rewrite Hw, ?Hv; eauto.
      eexists. split; [done|]. simpl. lia.
    + rewrite Hcl in Hw. rewrite Hw. eexists. split; [done|]. destruct (m_wm st j); lia.
  - intros v Hv. assert (∀ b', Ok b' ∈ read → Ok b' ∈ read ++ [Ok b]) as Hl by set_solver.
    destruct (classify_mk b) as [|w'| | | |] eqn:Hcl; rewrite Hw in Hv;
      try (destruct (H2 v Hv) as (b' & Hb' & ?); eauto; fail).
    injection Hv as <-. destruct (m_wm st j) as [c|] eqn:Hm; [|exists b; split; [apply Hin; by right|done]].
    destruct (Z.max_spec c w') as [[_ ->]|[_ ->]]; [exists b; split; [apply Hin; by right|done]|].
    destruct (H2 c eq_refl) as (b' & Hb' & ?). eauto.
  - intros v Hv. assert (∀ b', Ok b' ∈ read → Ok b' ∈ read ++ [Ok b]) as Hl by set_solver.
    destruct (classify_mk b) as [| |e'| | |] eqn:Hcl; rewrite Hc in Hv;
      try (destruct (H3 v Hv) as (b' & Hb' & ?); eauto; fail).
    injection Hv as <-. destruct (m_ckpt st j) as [c|] eqn:Hm; [|exists b; split; [apply Hin; by right|done]].
    destruct (N.max_spec c e') as [[_ ->]|[_ ->]]; [exists b; split; [apply Hin; by right|done]|].
    destruct (H3 c eq_refl) as (b' & Hb' & ?). eauto.
Qed.
Lemma input_ended st st' j s rest rest' od :
  merge_input_inv st j s rest od → m_ended st j = false → m_ended st' j = true →
  rest = [] ∧ rest' = [] ∨ (∃ b, rest = Ok b :: rest' ∧ classify_mk b = MkEndOfData) →
  merge_input_inv st' j s rest' od.
Proof.
  intros (read & -> & -> & Hin) He He' Hr. rewrite He in Hin. destruct Hin as (Hop & _).
  destruct Hr as [[-> ->]|(b & -> & Hb)].
  - exists read. split; [done|]. split; [done|]. by rewrite He', app_nil_r.
  - exists (read ++ [Ok b]). rewrite <- app_assoc. split; [done|]. rewrite He'.
    rewrite !stream_data_app by done. simpl. rewrite Hb, app_nil_r. done.
Qed.

Lemma inv_data_prefix st inputs out j s :
  merge_inv st inputs out → streams !! j = Some s → out_data j out `prefix_of` stream_data s.
Proof.
  intros Hi Hs. destruct (mv_lengths _ _ _ Hi) as (_ & _ & _ & _ & L5).
  destruct (lookup_lt_is_Some_2 inputs j) as [rest Hr]; [rewrite L5; by eapply lookup_lt_Some|].
  destruct (mv_inputs _ _ _ Hi j s rest Hs Hr) as (read & -> & -> & Hrest).
  destruct (m_ended st j); [by rewrite Hrest|]. destruct Hrest as [Hop _].
  rewrite stream_data_app by done. by apply prefix_app_r.
Qed.

(** Lookups after the updates of an item. *)
Lemma lookup_set {A} (d : A) (l : list A) j x k :
  j < length l → default d (<[j := x]> l !! k) = if decide (k = j) then x else default d (l !! k).
Proof.
  intros Hj. destruct (decide (k = j)) as [->|Hne].
  - by rewrite list_lookup_insert_eq.
  - by rewrite list_lookup_insert_ne.
Qed.
Lemma grows_refl {A} (le : A → A → Prop) `{!Reflexive le} o : grows le o o.
Proof. intros v Hv. by exists v. Qed.
Ltac by_change :=
  split; unfold m_ended, m_wm, m_ckpt, m_idle; simpl; rewrite ?length_insert;
  [done|intros k Hk; rewrite ?lookup_set, ?decide_False by (done || lia); done|..];
  rewrite ?lookup_set, ?decide_True by (done || lia);
  try (apply grows_refl; intros ?; lia); try done.
Section Changes.
Context (st : MergeState) (j n : nat).
Context (Hn : length (ms_wm st) = n ∧ length (ms_ended st) = n ∧ length (ms_ckpt st) = n ∧
  length (ms_idle st) = n) (Hj : j < n).
Lemma change_refl : item_change st st j.
Proof. by_change. split; [by left|done]. Qed.
Lemma change_idle x : item_change st (set_idle st j x) j.
Proof. destruct Hn as (L1 & L2 & L3 & L4). by_change. split; [by left|done]. Qed.
Lemma change_ended b : item_change st (set_ended st j b) j.
Proof. destruct Hn as (L1 & L2 & L3 & L4). by_change. split; [by left|done]. Qed.
Lemma change_wm ts b : item_change st (set_wm (set_idle st j false) j ts b) j.
Proof.
  destruct Hn as (L1 & L2 & L3 & L4). by_change; [|split; [by left|done]].
  intros v Hv. unfold map_or_max, m_wm. simpl. rewrite Hv. eexists. split; [done|lia].
Qed.
Lemma change_ckpt e b : item_change st (set_ckpt (set_idle st j false) j e b) j.
Proof.
  destruct Hn as (L1 & L2 & L3 & L4). by_change; [|split; [by right|done]].
  intros v Hv. unfold m_ckpt. simpl. rewrite Hv. eexists. split; [done|lia].
Qed.
End Changes.

Lemma data_on_time st inputs out j b rest' s w :
  (∀ w w' b, (w' ≤ w)%Z → on_time w b → on_time w' b) → stream_on_time on_time s →
  merge_inv st inputs out → no_idle → m_ended st j = false → streams !! j = Some s →
  inputs !! j = Some (Ok b :: rest') → classify_mk b = MkData → w ∈ out_watermarks out → on_time w b.
Proof.
  intros Hmono Hst Hi Hn He Hs Hr Hb Hw.
  destruct (mv_wm _ _ _ Hi Hn w j Hw He) as (v & Hv & Hle).
  destruct (mv_inputs _ _ _ Hi j s _ Hs Hr) as (read & -> & _ & Hin). rewrite He in Hin.
  destruct Hin as (_ & _ & H2 & _). destruct (H2 v Hv) as (m & Hm & Hcm).
  apply list_elem_of_split in Hm as (r1 & r2 & ->). apply (Hmono v); [done|].
  apply (Hst r1 m (r2 ++ Ok b :: rest') v b); [by rewrite <- app_assoc|done|set_solver|done].
Qed.

Lemma item_inv st inputs out j rest o r :
  (∀ w w' b, (w' ≤ w)%Z → on_time w b → on_time w' b) → Forall (stream_on_time on_time) streams →
  merge_inv st inputs out → merge_out_ok out → m_ended st j = false → inputs !! j = Some rest →
  merge_item st j (head rest) = (o, r) →
  merge_out_ok (out ++ o) ∧
  match r with
  | Some (st', _) => merge_inv st' (<[j := tail rest]> inputs) (out ++ o)
  | None => ∃ e, MErr e ∈ o
  end.
Proof.
  intros Hmono Hst Hi Ho He Hr.
  destruct (mv_lengths _ _ _ Hi) as (L1 & L2 & L3 & L4 & L5).
  assert (j < length streams) as Hlt by (rewrite <- L5; by eapply lookup_lt_Some).
  destruct (lookup_lt_is_Some_2 streams j Hlt) as [s Hs].
  pose proof (mv_inputs _ _ _ Hi j s rest Hs Hr) as Hin.
  assert (∀ st' : MergeState, m_ended st' j = true → item_change st st' j →
    rest = [] ∨ (∃ b rest', rest = Ok b :: rest' ∧ classify_mk b = MkEndOfData) →
    (no_idle → idle_on && m_idle st' j = false) →
    merge_inv st' (<[j := tail rest]> inputs) (out ++ [])) as Hended.
  { intros st' He' Hc Hrest Hid. apply inv_item with st; try done. intros s' Hs'. simplify_eq.
    rewrite app_nil_r. eapply input_ended; [done..|].
    destruct Hrest as [->|(b & rest' & -> & Hb)]; [by left|right; eauto]. }
  assert (length (ms_wm st) = length streams ∧ length (ms_ended st) = length streams ∧
    length (ms_ckpt st) = length streams ∧ length (ms_idle st) = length streams) as Hn by done.
  assert (∀ b0, m_ended (set_ended st j b0) j = true ∧ m_idle (set_ended st j b0) j = m_idle st j) as Hse.
  { intros b0. unfold m_ended. simpl. by rewrite lookup_set, decide_True by (done || lia). }
  assert (∀ x, m_idle (set_idle st j x) j = x) as Hsi.
  { intros x. unfold m_idle. simpl. by rewrite lookup_set, decide_True by (done || lia). }
  assert (idle_on && false = false) as Hfalse by by destruct idle_on.
  destruct rest as [|[b|e] rest']; simpl.
  - intros [= <- <-]. rewrite (app_nil_r out) at 1. split; [done|].
    apply Hended; [apply Hse|by apply (change_ended _ _ _ Hn)|by left|].
    intros Hni. destruct (Hse None) as [_ ->]. by apply (mv_idle _ _ _ Hi).
  - destruct (classify_mk b) as [|w|e| | |] eqn:Hb.
    + (* data *)
      intros [= <- <-].
      assert (out_data j (out ++ [MData j b]) = out_data j out ++ [b]) as Hod.
      { rewrite out_data_app. simpl. by rewrite Nat.eqb_refl. }
      assert (merge_inv (set_idle st j false) (<[j := rest']> inputs) (out ++ [MData j b])) as Hi'.
      { apply inv_item with st; try done; [by apply (change_idle _ _ _ Hn)|..].
        - intros k Hk. simpl. destruct (Nat.eqb_spec j k); [done|]. done.
        - intros _. by rewrite Hsi.
        - intros s' Hs'. simplify_eq. rewrite Hod.
          pose proof (input_read st (set_idle st j false) j s b rest' _ Hin He) as Hread.
          simpl in Hread. rewrite Hb in Hread. by apply Hread. }
      split; [|done]. apply out_ok_snoc; try done.
      * intros Hni j' b' w' [= <- <-] Hw'. apply (data_on_time st inputs out j b rest' s w'); try done.
        by apply (Forall_lookup_1 _ _ _ _ Hst Hs).
      * intros k s' Hs'. by eapply inv_data_prefix.
    + intros [= <- <-]. rewrite (app_nil_r out) at 1. split; [done|].
      apply inv_item with st; try done; [by apply (change_wm _ _ _ Hn)| |].
      * intros _. unfold m_idle. simpl. by rewrite lookup_set, decide_True by (done || lia).
      * intros s' Hs'. simplify_eq. rewrite app_nil_r.
        pose proof (input_read st (set_wm (set_idle st j false) j w b) j s b rest' _ Hin He) as Hread.
        simpl in Hread. rewrite Hb, app_nil_r in Hread. apply Hread; try done.
        unfold m_wm. simpl. by rewrite lookup_set, decide_True by (done || lia).
    + intros [= <- <-]. rewrite (app_nil_r out) at 1. split; [done|].
      apply inv_item with st; try done; [by apply (change_ckpt _ _ _ Hn)| |].
      * intros _. unfold m_idle. simpl. by rewrite lookup_set, decide_True by (done || lia).
      * intros s' Hs'. simplify_eq. rewrite app_nil_r.
        pose proof (input_read st (set_ckpt (set_idle st j false) j e b) j s b rest' _ Hin He) as Hread.
        simpl in Hread. rewrite Hb, app_nil_r in Hread. apply Hread; try done.
        unfold m_ckpt. simpl. by rewrite lookup_set, decide_True by (done || lia).
    + intros [= <- <-]. rewrite (app_nil_r out) at 1. split; [done|].
      apply inv_item with st; try done; [by apply (change_idle _ _ _ Hn)| |].
      * intros [->|Hni]; [done|]. exfalso. apply (Hni s b); [by eapply list_elem_of_lookup_2| |done].
        destruct Hin as (read & -> & _). set_solver.
      * intros s' Hs'. simplify_eq. rewrite app_nil_r.
        pose proof (input_read st (set_idle st j true) j s b rest' _ Hin He) as Hread.
        simpl in Hread. rewrite Hb, app_nil_r in Hread. by apply Hread.
    + intros [= <- <-]. rewrite (app_nil_r out) at 1. split; [done|].
      apply Hended; [apply Hse|by apply (change_ended _ _ _ Hn)|by right; eauto|].
      intros Hni. destruct (Hse (Some b)) as [_ ->]. by apply (mv_idle _ _ _ Hi).
    + intros [= <- <-].
      assert (∀ k o, o = (if (j =? 0)%nat then [MOther b] else []) → out_data k o = [] ∧ out_watermarks o = [] ∧
        out_barriers o = []) as Hsil by by intros k o ->; destruct (j =? 0)%nat.
      split.
      * destruct (j =? 0)%nat; [by apply out_ok_plain|by rewrite app_nil_r].
      * apply inv_item with st; try done.
        -- by apply (change_refl _ _ (length streams)).
        -- intros k _. by apply (Hsil k).
        -- by apply (Hsil 0).
        -- by apply (Hsil 0).
        -- intros Hni. by apply (mv_idle _ _ _ Hi).
        -- intros s' Hs'. simplify_eq. rewrite out_data_app. destruct (Hsil j _ eq_refl) as (-> & _).
           pose proof (input_read st st j s b rest' _ Hin He) as Hread.
           simpl in Hread. rewrite Hb in Hread. by apply Hread.
  - intros [= <- <-]. split; [by apply out_ok_plain|]. exists e. set_solver.
Qed.

(** *** Runs *)
Section Run.
Context (Hmono : ∀ w w' b, (w' ≤ w)%Z → on_time w b → on_time w' b)
  (Hst : Forall (stream_on_time on_time) streams) (Hids : ids_bounded).

Lemma merge_receive_inv st inputs out j rest o st' :
  merge_inv st inputs out → merge_out_ok out → m_ended st j = false → inputs !! j = Some rest →
  merge_receive idle_on st j (head rest) = (o, st') →
  merge_out_ok (out ++ o) ∧
  match st' with
  | Some st' => merge_inv st' (<[j := tail rest]> inputs) (out ++ o)
  | None => ∃ e, MErr e ∈ o
  end.
Proof.
  intros Hi Ho He Hr. unfold merge_receive.
  destruct (merge_item st j (head rest)) as [o1 [[st1 rec]|]] eqn:Hit;
    destruct (item_inv _ _ _ _ _ _ _ Hmono Hst Hi Ho He Hr Hit) as [Ho1 Hi1]; [|by intros [= <- <-]].
  destruct rec; [|by intros [= <- <-]].
  destruct (merge_recompute idle_on st1) as [o2 st2] eqn:Hrec. intros [= <- <-].
  destruct (recompute_inv _ _ _ _ _ Hids Hi1 Ho1 Hrec) as [Ho2 Hi2]. rewrite app_assoc.
  split; [done|]. destruct st2; [done|]. destruct Hi2 as [e Hin]. exists e. set_solver.
Qed.

Lemma m_pollable_elem st j : j ∈ m_pollable st ↔ m_ended st j = false.
Proof.
  unfold m_pollable. rewrite list_elem_of_filter. split; [tauto|]. intros H. split; [done|].
  by apply m_pollable_seq.
Qed.

Lemma merge_config_step c c' : merge_config_inv c → merge_step idle_on c c' → merge_config_inv c'.
Proof.
  intros [Ho Hi] [ch Hstep]. unfold merge_next in Hstep. destruct (mc_state c) as [st|]; [|done].
  destruct (m_pollable st) as [|p l] eqn:Hp.
  - injection Hstep as <-. unfold merge_config_inv. simpl.
    assert (∀ j s, streams !! j = Some s → out_data j (mc_output c) = stream_data s) as Hall.
    { intros j s Hs. destruct (mv_lengths _ _ _ Hi) as (_ & _ & _ & _ & L5).
      destruct (lookup_lt_is_Some_2 (mc_inputs c) j) as [rest Hr]; [rewrite L5; by eapply lookup_lt_Some|].
      destruct (mv_inputs _ _ _ Hi j s rest Hs Hr) as (read & -> & -> & Hrest).
      destruct (m_ended st j) eqn:He; [done|]. apply m_pollable_elem in He. rewrite Hp in He. set_solver. }
    destruct (ms_end_batch st) as [b|]; [|by rewrite app_nil_r].
    split; [by apply out_ok_plain|]. intros _ j s Hs. rewrite out_data_no_data by done. by apply Hall.
  - destruct ch as [j|].
    + case_bool_decide as Hj; [|done]. rewrite <- Hp in Hj. apply m_pollable_elem in Hj.
      destruct (lookup_lt_is_Some_2 (mc_inputs c) j) as [rest Hr].
      { destruct (mv_lengths _ _ _ Hi) as (_ & L2 & _ & _ & L5).
        apply m_pollable_seq, elem_of_seq in Hj. lia. }
      rewrite Hr in Hstep. simpl in Hstep.
      destruct (merge_receive idle_on st j (head rest)) as [o st'] eqn:Hrec. injection Hstep as <-.
      destruct (merge_receive_inv _ _ _ _ _ _ _ Hi Ho Hj Hr Hrec) as [Ho' Hi']. split; simpl; [done|].
      destruct st' as [st'|]; [done|]. intros Hno. destruct Hi' as [e He]. destruct (Hno e). set_solver.
    + destruct idle_on eqn:Hid; [|done]. rewrite <- Hid in Hstep.
      destruct (merge_recompute idle_on st) as [o st'] eqn:Hrec. injection Hstep as <-. destruct (recompute_inv _ _ _ _ _ Hids Hi Ho Hrec) as [Ho' Hi'].
      split; simpl; [done|]. destruct st' as [st'|]; [done|].
      intros Hno. destruct Hi' as [e He]. destruct (Hno e). set_solver.
Qed.

Lemma merge_config_start : merge_config_inv (merge_start streams).
Proof.
  split; simpl.
  - split.
    + intros _ o1 w m o2 j b H. by destruct o1.
    + constructor.
    + by intros k e e'.
    + intros o1 e b o2 j s H. by destruct o1.
    + intros j s Hs. apply prefix_nil.
  - unfold merge_init. split; simpl; rewrite ?length_replicate; try done.
    + intros j s rest Hs Hr. simplify_eq. exists []. split; [done|]. split; [done|].
      apply lookup_lt_Some in Hs. unfold m_ended, m_wm, m_ckpt. simpl.
      rewrite !lookup_replicate_2 by done. simpl. split_and!; try done. set_solver.
    + intros _ k. unfold m_idle. simpl. destruct (replicate _ _ !! k) as [x|] eqn:Hx.
      * apply lookup_replicate in Hx as [-> _]. by destruct idle_on.
      * by destruct idle_on.
    + intros _ w k. set_solver.
    + intros w. set_solver.
    + intros k v. unfold m_ckpt. simpl. destruct (replicate _ _ !! k) as [x|] eqn:Hx; [|done].
      by apply lookup_replicate in Hx as [-> _].
Qed.
Lemma merge_config_run c : rtc (merge_step idle_on) (merge_start streams) c → merge_config_inv c.
Proof.
  intros Hrun. pose proof merge_config_start as Hi. induction Hrun as [|x y z Hs _ IH]; [done|].
  apply IH. by eapply merge_config_step.
Qed.
End Run.
End Inv.

(** ** Termination without the idle timer *)
Definition merge_weight (st : MergeState) (inputs : list (list BatchResult)) (j : nat) : nat :=
  if m_ended st j then 0 else S (length (default [] (inputs !! j))).
Definition merge_measure (c : MergeConfig) : nat :=
  match mc_state c with
  | None => 0
  | Some st => 1 + sum_list_with (merge_weight st (mc_inputs c)) (seq 0 (length (ms_ended st)))
  end.

Lemma recompute_ended idle_on st o st' :
  merge_recompute idle_on st = (o, Some st') → ms_ended st' = ms_ended st.
Proof.
  unfold merge_recompute. destruct (emit_watermark idle_on st) as [o1 [st1|]] eqn:H1; [|done].
  assert (ms_ended st1 = ms_ended st) as <-.
  { unfold emit_watermark in H1. destruct (merged_watermark idle_on st) as [mw|]; [|by injection H1 as <- <-].
    destruct (match ms_last_wm st with Some l => _ | None => _ end); [|by injection H1 as <- <-].
    destruct (ms_wm_template (with_last_wm st mw)); [|by injection H1 as <- <-].
    destruct (rewrite_watermark _ _); by simplify_eq. }
  unfold emit_checkpoints. destruct (aligned_ckpt st1) as [a|]; [|by intros [= _ <-]].
  destruct (match ms_ckpt_template st1 with Some _ => _ | None => _ end) as [o2 []]; by intros [= _ <-].
Qed.
Lemma receive_ended st j rest o st' :
  j < length (ms_ended st) → merge_receive false st j (head rest) = (o, Some st') →
  length (ms_ended st') = length (ms_ended st) ∧
  (∀ k, k ≠ j → m_ended st' k = m_ended st k) ∧ (rest = [] → m_ended st' j = true).
Proof.
  intros Hj. unfold merge_receive.
  assert (∀ o1 st1 rec, merge_item st j (head rest) = (o1, Some (st1, rec)) →
    length (ms_ended st1) = length (ms_ended st) ∧
    (∀ k, k ≠ j → m_ended st1 k = m_ended st k) ∧ (rest = [] → m_ended st1 j = true)) as Hit.
  { intros o1 st1 rec. unfold merge_item. destruct rest as [|[b|e] rest]; simpl; [|..|done].
    - intros [= <- <- <-]. unfold m_ended. simpl. rewrite length_insert. split; [done|]. split.
      + intros k Hk. by rewrite list_lookup_insert_ne.
      + intros _. by rewrite list_lookup_insert_eq.
    - destruct (classify_mk b); intros [= <- <- <-]; try (by split_and!).
      unfold m_ended. simpl. rewrite length_insert. split; [done|]. split; [|done].
      intros k Hk. by rewrite list_lookup_insert_ne. }
  destruct (merge_item st j (head rest)) as [o1 [[st1 []]|]]; [|by intros [= <- <-]; eapply Hit|done].
  destruct (merge_recompute false st1) as [o2 st2] eqn:Hrec. intros [= <- ->].
  destruct (Hit _ _ _ eq_refl) as (H1 & H2 & H3). unfold m_ended in *.
  by rewrite (recompute_ended _ _ _ _ Hrec).
Qed.

Lemma merge_step_measure streams c c' :
  merge_config_inv streams false (λ _ _, True) c → merge_step false c c' → merge_measure c' < merge_measure c.
Proof.
  intros [_ Hi] [ch Hstep]. unfold merge_next in Hstep. unfold merge_measure at 2.
  destruct (mc_state c) as [st|]; [|done].
  destruct (m_pollable st) as [|p l] eqn:Hp; [injection Hstep as <-; unfold merge_measure; simpl; lia|].
  destruct ch as [j|]; [|done]. case_bool_decide as Hj; [|done]. rewrite <- Hp in Hj.
  apply m_pollable_elem in Hj. pose proof (m_pollable_seq _ _ Hj) as Hseq.
  assert (j < length (ms_ended st)) as Hlt by (apply elem_of_seq in Hseq; lia).
  destruct (lookup_lt_is_Some_2 (mc_inputs c) j) as [rest Hr].
  { destruct (mv_lengths _ _ _ _ _ Hi) as (_ & L2 & _ & _ & L5). lia. }
  rewrite Hr in Hstep. simpl in Hstep.
  destruct (merge_receive false st j (head rest)) as [o st'] eqn:Hrec. injection Hstep as <-.
  unfold merge_measure. simpl. destruct st' as [st'|]; [|lia].
  destruct (receive_ended _ _ _ _ _ Hlt Hrec) as (-> & Hother & Hend). apply -> Nat.succ_lt_mono.
  apply lookup_lt_Some in Hr as Hjl. apply sum_list_with_lt with j; [|done|].
  - intros k _. destruct (decide (k = j)) as [->|Hne].
    + unfold merge_weight. rewrite Hj, Hr, list_lookup_insert_eq by done. simpl.
      destruct (m_ended st' j); [lia|]. destruct rest; simpl; lia.
    + unfold merge_weight. rewrite Hother by done. by rewrite list_lookup_insert_ne.
  - unfold merge_weight. rewrite Hj, Hr, list_lookup_insert_eq by done. simpl.
    destruct (m_ended st' j) eqn:He'; [lia|]. destruct rest; simpl; [|lia]. specialize (Hend eq_refl). congruence.
Qed.

Lemma merge_progress c st : mc_state c = Some st → ∃ c', merge_step false c c'.
Proof.
  intros Hst. unfold merge_step, merge_next. rewrite Hst.
  destruct (m_pollable st) as [|p l] eqn:Hp; [by eexists; exists ChooseTick|].
  destruct (merge_receive false st p (head (default [] (mc_inputs c !! p)))) as [o st'] eqn:Hrec.
  eexists. exists (ChooseInput p). rewrite bool_decide_eq_true_2; [by rewrite Hrec|]. apply list_elem_of_here.
Qed.

(** ** Claims *)

(** C21. The merged watermarks are safe: when no input is left out for being idle, and
    no input delivers data older than a watermark it delivered before, then no data
    after a merged watermark is older than it; the merged watermarks increase. *)
Theorem merged_watermarks_safe streams idle_on on_time c :
  (∀ w w' b, (w' ≤ w)%Z → on_time w b → on_time w' b) →
  Forall (stream_on_time on_time) streams → no_idle streams idle_on → ids_bounded streams →
  rtc (merge_step idle_on) (merge_start streams) c →
  output_on_time on_time (mc_output c) ∧ StronglySorted Z.lt (out_watermarks (mc_output c)).
Proof.
  intros Hm Hs Hn Hids Hrun. destruct (merge_config_run _ _ _ Hm Hs Hids c Hrun) as [[] _]. auto.
Qed.

(** The merged barriers close over the epochs: they are those of consecutive
    epochs, and before the barrier of an epoch all data was passed on that precedes, in
    any input, its checkpoint of that epoch. *)
Theorem merged_barriers_complete streams idle_on c :
  ids_bounded streams → rtc (merge_step idle_on) (merge_start streams) c →
  consecutive (out_barriers (mc_output c)) ∧
  ∀ o1 e b o2 j s, mc_output c = o1 ++ MBarrier e b :: o2 → streams !! j = Some s →
    data_until e s `prefix_of` out_data j o1.
Proof.
  intros Hids Hrun.
  destruct (merge_config_run streams idle_on (λ _ _, True)) with (c := c) as [[] _]; try done.
  by apply Forall_true.
Qed.

(** Without the idle timer the merge ends after at most one step for each item and
    each input and one more; when it ended without an error, all data that an input
    delivered before its end was passed on, in its order. *)
Theorem merge_delivers streams :
  ids_bounded streams →
  (∀ n c, nsteps (merge_step false) n (merge_start streams) c →
    n ≤ 1 + sum_list_with (λ s, S (length s)) streams) ∧
  (∀ c, rtc (merge_step false) (merge_start streams) c → nf (merge_step false) c →
    mc_state c = None ∧
    ((∀ e, MErr e ∉ mc_output c) →
     ∀ j s, streams !! j = Some s → out_data j (mc_output c) = stream_data s)).
Proof.
  intros Hids. assert (Forall (stream_on_time (λ _ _, True)) streams) as Hst by by apply Forall_true.
  assert (∀ c, rtc (merge_step false) (merge_start streams) c →
    merge_config_inv streams false (λ _ _, True) c) as Hrun by (intros c; by apply merge_config_run).
  split.
  - assert (merge_measure (merge_start streams) = 1 + sum_list_with (λ s, S (length s)) streams) as <-.
    { unfold merge_measure. simpl. rewrite length_replicate. f_equal. apply sum_list_with_seq.
      intros i s Hs. apply lookup_lt_Some in Hs as Hi. unfold merge_weight, m_ended. simpl.
      by rewrite lookup_replicate_2, Hs by done. }
    intros n c Hn. pose proof (Hrun _ (rtc_refl _ _)) as Hi. clear Hrun.
    induction Hn as [|n x y z Hs _ IH]; [lia|].
    pose proof (merge_step_measure _ _ _ Hi Hs).
    apply (merge_config_step _ _ _ (λ _ _ _ _ _, I) Hst Hids _ y) in Hi; [|done]. specialize (IH Hi). lia.
  - intros c Hr Hnf. destruct (mc_state c) as [st|] eqn:Hs.
    + destruct Hnf. by eapply merge_progress.
    + split; [done|]. destruct (Hrun c Hr) as [_ Hi]. by rewrite Hs in Hi.
Qed.

(** A merged barrier is no consistent cut: an input that delivered its checkpoint is
    read on, so that data that follows the checkpoint in its input is passed on before
    the barrier. *)
Theorem barrier_overtaken ckpt data e b :
  classify_mk ckpt = MkCheckpoint e → classify_mk data = MkData → rewrite_checkpoint ckpt e = Ok b →
  let streams := [[Ok ckpt; Ok data]; [Ok ckpt]] in
  data_until e [Ok ckpt; Ok data] = [] ∧
  ∃ c, rtc (merge_step false) (merge_start streams) c ∧
    mc_output c = [MData 0 data; MBarrier e b].
Proof.
  intros Hc Hd Hb streams. split; [simpl; rewrite Hc; by rewrite N.leb_refl|].
  assert (∀ st j inputs out, m_pollable st = [0; 1] → (j = 0 ∨ j = 1) →
    merge_next false (MkMergeConfig (Some st) inputs out) (ChooseInput j) =
    let '(o, st') := merge_receive false st j (head (default [] (inputs !! j))) in
    Some (MkMergeConfig st' (<[j := tail (default [] (inputs !! j))]> inputs) (out ++ o))) as Hnext.
  { intros st j inputs out Hp Hj. unfold merge_next. simpl. rewrite Hp.
    rewrite bool_decide_eq_true_2; [done|]. set_solver. }
  eexists. change (merge_start streams) with (MkMergeConfig (Some (merge_init 2)) streams []). split.
  - eapply rtc_l; [exists (ChooseInput 0); rewrite Hnext by auto; simpl; unfold merge_receive; simpl; rewrite Hc; simpl; reflexivity|].
    simpl. eapply rtc_l; [exists (ChooseInput 0); rewrite Hnext by auto; simpl; unfold merge_receive; simpl; rewrite Hd; simpl; reflexivity|].
    simpl. eapply rtc_l; [|apply rtc_refl].
    exists (ChooseInput 1). rewrite Hnext by auto. simpl. unfold merge_receive. simpl. rewrite Hc. simpl.
    unfold merge_recompute. simpl. unfold emit_checkpoints, aligned_ckpt. simpl. unfold epochs_between. simpl.
    rewrite N.min_id. replace (e + 1 - e)%N with 1%N by lia. simpl.
    rewrite N.add_0_r, Hb. reflexivity.
  - reflexivity.
Qed.
End Theorems.
