(* ===== verification/FlowState.v ===== *)
(** * Streaming: the state of operators

    [zelox-common-datafusion/src/streaming/checkpoint.rs] and
    [zelox-physical-plan/src/streaming/state_io.rs]: the checkpoint store, and the
    blobs, spilled chunks and manifests in which stateful operators keep their state
    for recovery and for a change of their parallelism.

    The store maps paths, relative to the location of the checkpoint, to bytes.  Any
    access may fail: [StoreIo] says which do.  Arrow's IPC format, its filter kernel and
    the hash of the repartitioning are parameters. *)

From Stdlib Require Import Ascii String.
From S2P Require Import Prelude Collections CatalogNames DeltaCheckpointFacts FlowEvents KeyGroups.
Local Open Scope N_scope.

(** ** The checkpoint store *)
Notation Blob := (list N).
Notation Store := (gmap (list string) (list N)).
(** The message of the error with which an access to a path fails. *)
Record StoreIo := MkStoreIo {
  io_get : string → option string; io_put : string → option string; io_delete : string → option string }.
Definition io_fine : StoreIo := MkStoreIo (λ _, None) (λ _, None) (λ _, None).

Definition child (rel : string) : list string := filter (λ s, s ≠ "") (split_char "/" rel).
Definition ck_get (io : StoreIo) (s : Store) (rel : string) : FlowResult (option Blob) :=
  match io_get io rel with
  | Some e => Err (FePlan ("checkpoint get " +:+ rel +:+ ": " +:+ e))
  | None => Ok (s !! child rel)
  end.
Definition ck_put (io : StoreIo) (s : Store) (rel : string) (data : Blob) : FlowResult unit * Store :=
  match io_put io rel with
  | Some e => (Err (FePlan ("checkpoint put " +:+ rel +:+ ": " +:+ e)), s)
  | None => (Ok tt, <[child rel := data]> s)
  end.
Definition ck_delete (io : StoreIo) (s : Store) (rel : string) : FlowResult unit * Store :=
  match io_delete io rel with
  | Some e => (Err (FePlan ("checkpoint delete " +:+ rel +:+ ": " +:+ e)), s)
  | None => (Ok tt, delete (child rel) s)
  end.
Definition promote (io : StoreIo) (s : Store) (staged_rel committed_rel : string)
    : FlowResult unit * Store :=
  match ck_get io s staged_rel with
  | Err e => (Err e, s)
  | Ok None => (Ok tt, s)
  | Ok (Some data) =>
      match ck_put io s committed_rel data with
      | (Err e, s) => (Err e, s)
      | (Ok _, s) => (Ok tt, (ck_delete io s staged_rel).2)
      end
  end.

(** ** Keys *)
Definition staged_key (operator_id : string) : string := "state/" +:+ operator_id +:+ "/staged".
Definition committed_key (operator_id : string) : string := "state/" +:+ operator_id +:+ "/committed".
Definition epoch_key (operator_id : string) (epoch : N) : string :=
  "state/" +:+ operator_id +:+ "/epoch-" +:+ pretty epoch.
Definition spill_key (operator_id : string) (index : N) : string :=
  "state/" +:+ operator_id +:+ "/spill-" +:+ pretty index.
Definition manifest_key (operator_id : string) (epoch : N) : string :=
  "state/" +:+ operator_id +:+ "/epoch-" +:+ pretty epoch +:+ "/manifest".
Definition residual_key (operator_id : string) (epoch : N) : string :=
  "state/" +:+ operator_id +:+ "/epoch-" +:+ pretty epoch +:+ "/residual".
Definition parallelism_key (op_base : string) (epoch : N) : string :=
  "state/" +:+ op_base +:+ "/epoch-" +:+ pretty epoch +:+ "/parallelism".

(** ** Integers as bytes: [to_le_bytes] and [from_le_bytes] *)
Fixpoint le_bytes (w : nat) (v : N) : Blob :=
  match w with O => [] | S w => v mod 256 :: le_bytes w (v / 256) end.
Definition from_le (b : Blob) : N := foldr (λ x v, x + 256 * v) 0 b.
Definition to_u64 (v : Z) : N := Z.to_N (v mod 18446744073709551616).
Definition of_u64 (v : N) : Z :=
  if (Z.of_N v <? 9223372036854775808)%Z then Z.of_N v else (Z.of_N v - 18446744073709551616)%Z.
Definition u32 (n : nat) : Blob := le_bytes 4 (N.of_nat n mod 4294967296).
(** [bytes.get(off..off + w)], and the bytes after it. *)
Definition read_bytes (w : nat) (b : Blob) : option (Blob * Blob) :=
  if (w <=? length b)%nat then Some (take w b, drop w b) else None.
(** [n] values of [w] bytes: those that are there, and the rest when all of them are. *)
Fixpoint read_values {A} (w : nat) (f : Blob → A) (n : nat) (b : Blob) : list A * option Blob :=
  match n with
  | O => ([], Some b)
  | S n =>
      match read_bytes w b with
      | None => ([], None)
      | Some (x, b) => let '(l, r) := read_values w f n b in (f x :: l, r)
      end
  end.

(** ** Manifests *)
Definition encode_manifest_kg (meta : list Z) (chunks : list N) (kg_ranges : list (N * N)) : Blob :=
  u32 (length meta) ++ (meta ≫= λ v, le_bytes 8 (to_u64 v)) ++
  u32 (length chunks) ++ (chunks ≫= le_bytes 8) ++
  u32 (length kg_ranges) ++ (kg_ranges ≫= λ '(lo, hi), le_bytes 2 lo ++ le_bytes 2 hi).
Definition encode_manifest (meta : list Z) (chunks : list N) : Blob := encode_manifest_kg meta chunks [].

Definition decode_pair (b : Blob) : N * N := (from_le (take 2 b), from_le (drop 2 b)).
Definition decode_manifest (bytes : Blob) : list Z * list N * list (N * N) :=
  match read_bytes 4 bytes with
  | None => ([], [], [])
  | Some (n, b) =>
      match read_values 8 (λ x, of_u64 (from_le x)) (N.to_nat (from_le n)) b with
      | (meta, None) => (meta, [], [])
      | (meta, Some b) =>
          match read_bytes 4 b with
          | None => (meta, [], [])
          | Some (n, b) =>
              match read_values 8 from_le (N.to_nat (from_le n)) b with
              | (chunks, None) => (meta, chunks, [])
              | (chunks, Some b) =>
                  match read_bytes 4 b with
                  | None => (meta, chunks, [])
                  | Some (n, b) =>
                      (meta, chunks, (read_values 4 decode_pair (N.to_nat (from_le n)) b).1)
                  end
              end
          end
      end
  end.

(** ** The libraries *)
Class StateCodec `{E : FlowEngine} := {
  ipc_write : list Field → list RecordBatch → option Blob;
  ipc_read : Blob → list RecordBatch;
  filter_record_batch : RecordBatch → list bool → option RecordBatch;
  as_int32 : ArrayRef → option (list (option Z));
  create_hashes : list ArrayRef → nat → FlowResult (list N)
}.

Section State.
Context `{E : FlowEngine} `{SC : !StateCodec}.

(** ** State blobs *)
Definition encode_state (schema : list Field) (batches : list RecordBatch) (meta : list Z)
    : option Blob :=
  ipc ← ipc_write schema batches;
  Some (u32 (length meta) ++ (meta ≫= λ v, le_bytes 8 (to_u64 v)) ++ ipc).
Definition decode_state (bytes : Blob) : list RecordBatch * list Z :=
  match read_bytes 4 bytes with
  | None => ([], [])
  | Some (n, b) =>
      match read_values 8 (λ x, of_u64 (from_le x)) (N.to_nat (from_le n)) b with
      | (meta, None) => ([], meta)
      | (meta, Some ipc) => (ipc_read ipc, meta)
      end
  end.

Definition put_state (io : StoreIo) (s : Store) (key : string) (schema : list Field)
    (batches : list RecordBatch) (meta : list Z) : Store :=
  match encode_state schema batches meta with
  | Some blob => (ck_put io s key blob).2
  | None => s
  end.
Definition get_state (io : StoreIo) (s : Store) (key : string) : list RecordBatch * list Z :=
  match ck_get io s key with
  | Ok (Some bytes) => decode_state bytes
  | _ => ([], [])
  end.

Definition stage_state (io : StoreIo) (s : Store) (operator_id : string) (schema : list Field)
    (batches : list RecordBatch) (meta : list Z) : Store :=
  put_state io s (staged_key operator_id) schema batches meta.
Definition restore_state (io : StoreIo) (s : Store) (operator_id : string)
    : list RecordBatch * list Z :=
  get_state io s (committed_key operator_id).
Definition stage_epoch_state (io : StoreIo) (s : Store) (operator_id : string) (epoch : N)
    (schema : list Field) (batches : list RecordBatch) (meta : list Z) : Store :=
  put_state io s (epoch_key operator_id epoch) schema batches meta.
Definition restore_epoch_state (io : StoreIo) (s : Store) (operator_id : string) (epoch : N)
    : list RecordBatch * list Z :=
  get_state io s (epoch_key operator_id epoch).
Definition gc_epoch_state (io : StoreIo) (s : Store) (operator_id : string) (epoch : N) : Store :=
  (ck_delete io s (epoch_key operator_id epoch)).2.

(** ** Spilled chunks *)
Definition write_spill (io : StoreIo) (s : Store) (operator_id : string) (index : N)
    (schema : list Field) (batches : list RecordBatch) : bool * Store :=
  match encode_state schema batches [] with
  | Some blob =>
      let '(r, s) := ck_put io s (spill_key operator_id index) blob in (is_ok r, s)
  | None => (false, s)
  end.
Definition read_spill (io : StoreIo) (s : Store) (operator_id : string) (index : N)
    : list RecordBatch :=
  (get_state io s (spill_key operator_id index)).1.
Definition delete_spill (io : StoreIo) (s : Store) (operator_id : string) (index : N) : Store :=
  (ck_delete io s (spill_key operator_id index)).2.

(** ** Incremental checkpoints *)
Definition stage_epoch_incremental_kg (io : StoreIo) (s : Store) (operator_id : string) (epoch : N)
    (schema : list Field) (residual : list RecordBatch) (chunks : list N) (meta : list Z)
    (kg_ranges : list (N * N)) : Store :=
  let s := put_state io s (residual_key operator_id epoch) schema residual [] in
  (ck_put io s (manifest_key operator_id epoch) (encode_manifest_kg meta chunks kg_ranges)).2.
Definition stage_epoch_incremental (io : StoreIo) (s : Store) (operator_id : string) (epoch : N)
    (schema : list Field) (residual : list RecordBatch) (chunks : list N) (meta : list Z) : Store :=
  let s := put_state io s (residual_key operator_id epoch) schema residual [] in
  (ck_put io s (manifest_key operator_id epoch) (encode_manifest meta chunks)).2.

Definition get_manifest (io : StoreIo) (s : Store) (operator_id : string) (epoch : N)
    : option (list Z * list N * list (N * N)) :=
  match ck_get io s (manifest_key operator_id epoch) with
  | Ok (Some bytes) => Some (decode_manifest bytes)
  | _ => None
  end.
Definition restore_epoch_incremental (io : StoreIo) (s : Store) (operator_id : string) (epoch : N)
    : list RecordBatch * list Z :=
  match get_manifest io s operator_id epoch with
  | None => ([], [])
  | Some (meta, chunks, _) =>
      ((get_state io s (residual_key operator_id epoch)).1 ++
       (chunks ≫= read_spill io s operator_id), meta)
  end.

Definition gc_epoch_incremental (io : StoreIo) (s : Store) (operator_id : string) (epoch : N)
    : Store :=
  let s := (ck_delete io s (manifest_key operator_id epoch)).2 in
  (ck_delete io s (residual_key operator_id epoch)).2.
Definition referenced_chunks (io : StoreIo) (s : Store) (operator_id : string)
    (retained_epochs : list N) : list N :=
  retained_epochs ≫= λ e,
    match get_manifest io s operator_id e with Some (_, chunks, _) => chunks | None => [] end.
Definition gc_unreferenced_chunks (io : StoreIo) (s : Store) (operator_id : string)
    (retained_epochs candidates : list N) : Store :=
  let referenced := referenced_chunks io s operator_id retained_epochs in
  foldl (λ s c, if bool_decide (c ∈ referenced) then s else delete_spill io s operator_id c)
    s candidates.

(** ** Change of the parallelism *)
(** A chunk without a recorded range may hold any key. *)
Definition overlaps (range : option (N * N)) (lo hi : N) : bool :=
  match range with Some (clo, chi) => (clo <? hi) && (lo <? chi) | None => true end.
Definition chunks_for_range (chunks : list N) (kg_ranges : list (N * N)) (lo hi : N) : list N :=
  snd <$> filter (λ '(k, _), overlaps (kg_ranges !! k) lo hi = true) (imap pair chunks).

Definition in_range (lo hi : N) (v : Z) : bool := (Z.of_N lo <=? v)%Z && (v <? Z.of_N hi)%Z.
Definition filter_to_key_group_range (batch : RecordBatch) (kg_col : nat) (lo hi : N)
    : Run (option RecordBatch) :=
  col ← vec_index (batch_columns batch) kg_col;
  match as_int32 col with
  | None => Returns None
  | Some values =>
      Returns (filter_record_batch batch
        ((λ v, match v with Some v => in_range lo hi v | None => false end) <$> values))
  end.
Definition filter_to_key_group_range_recompute (batch : RecordBatch) (key_cols : list nat)
    (g lo hi : N) : Run (option RecordBatch) :=
  arrays ← run_map (vec_index (batch_columns batch)) key_cols;
  match create_hashes arrays (batch_num_rows batch) with
  | Err _ => Returns None
  | Ok hashes =>
      Returns (filter_record_batch batch
        ((λ kg, in_range lo hi (Z.of_N kg)) <$> zelox_key_groups hashes g))
  end.

(** The batches that [f] keeps rows of. *)
Fixpoint push_filtered (f : RecordBatch → Run (option RecordBatch)) (batches : list RecordBatch)
    : Run (list RecordBatch) :=
  match batches with
  | [] => Returns []
  | b :: batches =>
      o ← f b;
      rest ← push_filtered f batches;
      Returns (match o with
               | Some b => if (0 <? batch_num_rows b)%nat then b :: rest else rest
               | None => rest
               end)
  end.

Definition restore_keyed_range (io : StoreIo) (s : Store) (old_ops : list string) (epoch lo hi : N)
    (kg_col : nat) : Run (list RecordBatch) :=
  for_each (λ out op,
    match get_manifest io s op epoch with
    | None => Returns out
    | Some (_, chunks, kg_ranges) =>
        let f b := filter_to_key_group_range b kg_col lo hi in
        l1 ← push_filtered f (get_state io s (residual_key op epoch)).1;
        l2 ← push_filtered f (chunks_for_range chunks kg_ranges lo hi ≫= read_spill io s op);
        Returns (out ++ l1 ++ l2)
    end) [] old_ops.

Definition stage_parallelism (io : StoreIo) (s : Store) (op_base : string) (epoch m : N) : Store :=
  (ck_put io s (parallelism_key op_base epoch) (le_bytes 4 (m mod 4294967296))).2.
Definition restore_parallelism (io : StoreIo) (s : Store) (op_base : string) (epoch : N) : option N :=
  match ck_get io s (parallelism_key op_base epoch) with
  | Ok (Some bytes) => '(b, _) ← read_bytes 4 bytes; Some (from_le b)
  | _ => None
  end.
Definition old_parallelism (io : StoreIo) (s : Store) (op_base : string) (epoch new_m : N) : N :=
  N.max (default new_m (restore_parallelism io s op_base epoch)) 1.
(** [format!("{op_base}-{i}")] for each old instance. *)
Definition old_operators (op_base : string) (old_m : N) : list string :=
  (λ i, op_base +:+ "-" +:+ pretty (N.of_nat i)) <$> seq 0 (N.to_nat old_m).

Definition restore_keyed_range_auto (io : StoreIo) (s : Store) (op_base : string)
    (epoch new_instance new_m g : N) (kg_col : nat) : Run (list RecordBatch) :=
  let old_m := old_parallelism io s op_base epoch new_m in
  let '(lo, hi) := instance_key_group_range new_instance new_m g in
  restore_keyed_range io s (old_operators op_base old_m) epoch lo hi kg_col.

(** The watermark and the ends of emitted windows in the metadata of the instances. *)
Definition i64_min : Z := -9223372036854775808.
Definition merge_meta (acc : option Z * gset Z) (meta : list Z) : option Z * gset Z :=
  match meta with
  | [] => acc
  | wm :: ends =>
      (if bool_decide (wm = i64_min) then acc.1
       else Some (match acc.1 with Some m => Z.min m wm | None => wm end),
       acc.2 ∪ list_to_set ends)
  end.
Definition restore_keyed_range_recompute_auto (io : StoreIo) (s : Store) (op_base : string)
    (epoch new_instance new_m g : N) (key_cols : list nat)
    : Run (list RecordBatch * list Z) :=
  let old_m := old_parallelism io s op_base epoch new_m in
  let '(lo, hi) := instance_key_group_range new_instance new_m g in
  r ← for_each (λ '(out, acc) op,
        let '(batches, meta) := restore_epoch_incremental io s op epoch in
        l ← push_filtered (λ b, filter_to_key_group_range_recompute b key_cols g lo hi) batches;
        Returns (out ++ l, merge_meta acc meta))
      ([], (None, ∅)) (old_operators op_base old_m);
  let '(out, (min_wm, ends)) := r in
  Returns (out, default i64_min min_wm :: sort_by_key (λ e, e) (elements ends)).
End State.

(** ** Streaming: theorems on the state of operators

    Manifests survive their encoding; a checkpoint can be restored as long as nothing
    writes over it, and the collection of chunks does not; a change of the parallelism
    gives each row of the state to its owner. *)

(** ** Bytes *)
Lemma le_bytes_length w v : length (le_bytes w v) = w.
Proof. revert v. induction w as [|w IH]; intros v; simpl; [done|]. by rewrite IH. Qed.
Lemma from_le_bytes w v : v < 256 ^ N.of_nat w → from_le (le_bytes w v) = v.
Proof.
  revert v. induction w as [|w IH]; intros v Hv; simpl.
  - simpl in Hv. change (256 ^ 0) with 1 in Hv. lia.
  - unfold from_le in *. simpl. rewrite IH.
    + pose proof (N.div_mod v 256 ltac:(done)). lia.
    + rewrite Nat2N.inj_succ, N.pow_succ_r' in Hv. apply N.Div0.div_lt_upper_bound. done.
Qed.
Lemma of_to_u64 v : (-9223372036854775808 ≤ v < 9223372036854775808)%Z → of_u64 (to_u64 v) = v.
Proof.
  intros [H1 H2]. unfold of_u64, to_u64.
  pose proof (Z.mod_pos_bound v 18446744073709551616 ltac:(lia)) as Hb.
  rewrite Z2N.id by lia. destruct (Z.ltb_spec v 0).
  - assert (v mod 18446744073709551616 = v + 18446744073709551616)%Z as ->.
    { symmetry. apply Z.mod_unique with (-1)%Z; lia. }
    destruct (Z.ltb_spec (v + 18446744073709551616) 9223372036854775808); lia.
  - rewrite Z.mod_small by lia. destruct (Z.ltb_spec v 9223372036854775808); lia.
Qed.
Lemma to_u64_lt v : to_u64 v < 256 ^ N.of_nat 8.
Proof.
  unfold to_u64. pose proof (Z.mod_pos_bound v 18446744073709551616 ltac:(lia)).
  change (256 ^ N.of_nat 8) with 18446744073709551616. lia.
Qed.

Lemma read_bytes_app b1 b2 w : length b1 = w → read_bytes w (b1 ++ b2) = Some (b1, b2).
Proof.
  intros <-. unfold read_bytes. rewrite (proj2 (Nat.leb_le _ _)) by (rewrite length_app; lia).
  by rewrite take_app_length, drop_app_length.
Qed.
Lemma read_u32 n b : N.of_nat n < 4294967296 →
  ∃ x, read_bytes 4 (u32 n ++ b) = Some (x, b) ∧ N.to_nat (from_le x) = n.
Proof.
  intros Hn. exists (u32 n). split; [by apply read_bytes_app, le_bytes_length|].
  unfold u32. rewrite N.mod_small, from_le_bytes by done. lia.
Qed.
Lemma read_values_app {A B} w (enc : B → Blob) (f : Blob → A) (l : list B) rest :
  (∀ x, x ∈ l → length (enc x) = w) →
  read_values w f (length l) ((l ≫= enc) ++ rest) = ((λ x, f (enc x)) <$> l, Some rest).
Proof.
  induction l as [|x l IH]; intros Hl; [done|]. rewrite bind_cons, <- app_assoc. simpl.
  rewrite read_bytes_app by (apply Hl; set_solver). by rewrite IH by set_solver.
Qed.

(** Values that fit their encoding. *)
Definition manifest_fits (meta : list Z) (chunks : list N) (kg_ranges : list (N * N)) : Prop :=
  N.of_nat (length meta) < 4294967296 ∧ N.of_nat (length chunks) < 4294967296 ∧
  N.of_nat (length kg_ranges) < 4294967296 ∧
  Forall (λ v, -9223372036854775808 ≤ v < 9223372036854775808)%Z meta ∧
  Forall (λ c, c ≤ u64_max) chunks ∧ Forall (λ '(lo, hi), lo < 65536 ∧ hi < 65536) kg_ranges.

Lemma manifest_roundtrip meta chunks kg_ranges :
  manifest_fits meta chunks kg_ranges →
  decode_manifest (encode_manifest_kg meta chunks kg_ranges) = (meta, chunks, kg_ranges).
Proof.
  intros (H1 & H2 & H3 & Hm & Hc & Hk). unfold decode_manifest, encode_manifest_kg.
  edestruct (read_u32 (length meta)) as (x1 & -> & ->); [done|].
  rewrite read_values_app by (intros; apply le_bytes_length).
  edestruct (read_u32 (length chunks)) as (x2 & -> & ->); [done|].
  rewrite read_values_app by (intros; apply le_bytes_length).
  edestruct (read_u32 (length kg_ranges)) as (x3 & -> & ->); [done|].
  rewrite <- (app_nil_r (kg_ranges ≫= _)), read_values_app.
  2:{ intros [lo hi] _. by rewrite length_app, !le_bytes_length. }
  cbn [fst]. f_equal; [f_equal|].
  - rewrite <- (list_fmap_id meta) at 2. apply list_fmap_ext_elem. intros v Hv.
    cbv beta. rewrite from_le_bytes by apply to_u64_lt. apply of_to_u64. by eapply Forall_forall in Hm.
  - rewrite <- (list_fmap_id chunks) at 2. apply list_fmap_ext_elem. intros c Hin.
    apply from_le_bytes. apply (Forall_forall _ _) with (x := c) in Hc; [|done]. cbv beta in Hc.
    change (c < u64_max + 1). lia.
  - rewrite <- (list_fmap_id kg_ranges) at 2. apply list_fmap_ext_elem. intros [lo hi] Hin.
    eapply Forall_forall in Hk; [|done]. simpl in Hk. cbv beta. unfold decode_pair.
    rewrite take_app_length', drop_app_length' by (by rewrite le_bytes_length).
    change 65536 with (256 ^ N.of_nat 2) in Hk. by rewrite !from_le_bytes by apply Hk.
Qed.

(** ** Keys *)

(** A name that is one segment of a path. *)
Definition segment (s : string) : Prop :=
  s ≠ "" ∧ Forall (λ x, x ≠ "/"%char) (list_ascii_of_string s).

Lemma split_char_app c s t :
  Forall (λ x, x ≠ c) (list_ascii_of_string s) → split_char c (s +:+ String c t) = s :: split_char c t.
Proof.
  induction s as [|x s IH]; cbn [list_ascii_of_string]; intros Hs.
  - change ("" +:+ String c t) with (String c t). cbn [split_char]. by rewrite Ascii.eqb_refl.
  - apply Forall_cons in Hs as [Hx Hs].
    change (String x s +:+ String c t) with (String x (s +:+ String c t)). cbn [split_char].
    rewrite (proj2 (Ascii.eqb_neq x c) Hx), (IH Hs). done.
Qed.
Lemma child_cons s t : segment s → child (s +:+ String "/" t) = s :: child t.
Proof.
  intros [Hne Hs]. unfold child. rewrite split_char_app by done. by rewrite filter_cons_True.
Qed.
Lemma child_one s : segment s → child s = [s].
Proof. intros [Hne Hs]. unfold child. rewrite split_char_fresh by done. by rewrite filter_cons_True. Qed.
Lemma pretty_no_slash (n : N) : Forall (λ x, x ≠ "/"%char) (list_ascii_of_string (pretty n)).
Proof.
  unfold pretty, pretty_N. destruct (decide (n = 0)); [by constructor|].
  assert (∀ s, Forall (λ x, x ≠ "/"%char) (list_ascii_of_string s) →
    Forall (λ x, x ≠ "/"%char) (list_ascii_of_string (pretty_N_go n s))) as H; [|by apply H].
  clear. induction (N.lt_wf_0 n) as [n _ IH]; intros s Hs.
  assert (n = 0 ∨ 0 < n) as [->|Hn] by lia; [done|]. rewrite pretty_N_go_step by done.
  apply IH; [by apply N.div_lt|]. constructor; [|done].
  unfold pretty_N_char. by repeat case_match.
Qed.
Lemma segment_pretty pre (n : N) : pre ≠ "" → segment pre → segment (pre +:+ pretty n).
Proof.
  intros Hne [_ Hp]. split.
  - by destruct pre.
  - rewrite list_ascii_app. apply Forall_app. split; [done|apply pretty_no_slash].
Qed.

(** The paths of an operator whose identifier is one segment. *)
Section Paths.
Context (op : string) (Hop : segment op).
Lemma state_path t : child ("state/" +:+ op +:+ String "/" t) = "state" :: op :: child t.
Proof.
  change ("state/" +:+ op +:+ String "/" t) with ("state" +:+ String "/" (op +:+ String "/" t)).
  rewrite child_cons by (split; [done|repeat constructor; done]). by rewrite child_cons.
Qed.
Lemma epoch_segment e : segment ("epoch-" +:+ pretty (e : N)).
Proof. apply segment_pretty; [done|]. split; [done|repeat constructor; done]. Qed.
Lemma spill_segment i : segment ("spill-" +:+ pretty (i : N)).
Proof. apply segment_pretty; [done|]. split; [done|repeat constructor; done]. Qed.
Lemma manifest_path e : child (manifest_key op e) = ["state"; op; "epoch-" +:+ pretty e; "manifest"].
Proof.
  unfold manifest_key. change ("/epoch-" +:+ ?x) with (String "/" ("epoch-" +:+ x)).
  rewrite state_path, <- string_app_assoc. change (?x +:+ "/manifest") with (x +:+ String "/" "manifest").
  by rewrite child_cons by apply epoch_segment.
Qed.
Lemma residual_path e : child (residual_key op e) = ["state"; op; "epoch-" +:+ pretty e; "residual"].
Proof.
  unfold residual_key. change ("/epoch-" +:+ ?x) with (String "/" ("epoch-" +:+ x)).
  rewrite state_path, <- string_app_assoc. change (?x +:+ "/residual") with (x +:+ String "/" "residual").
  by rewrite child_cons by apply epoch_segment.
Qed.
Lemma parallelism_path e :
  child (parallelism_key op e) = ["state"; op; "epoch-" +:+ pretty e; "parallelism"].
Proof.
  unfold parallelism_key. change ("/epoch-" +:+ ?x) with (String "/" ("epoch-" +:+ x)).
  rewrite state_path, <- string_app_assoc.
  change (?x +:+ "/parallelism") with (x +:+ String "/" "parallelism").
  by rewrite child_cons by apply epoch_segment.
Qed.
Lemma spill_path i : child (spill_key op i) = ["state"; op; "spill-" +:+ pretty i].
Proof.
  unfold spill_key. change ("/spill-" +:+ ?x) with (String "/" ("spill-" +:+ x)).
  rewrite state_path. by rewrite child_one by apply spill_segment.
Qed.
Lemma epoch_path e : child (epoch_key op e) = ["state"; op; "epoch-" +:+ pretty e].
Proof.
  unfold epoch_key. change ("/epoch-" +:+ ?x) with (String "/" ("epoch-" +:+ x)).
  rewrite state_path. by rewrite child_one by apply epoch_segment.
Qed.
End Paths.

(** The paths of an operator tell their kinds, operators and numbers apart. *)
Lemma segment_inj pre (i j : N) : pre +:+ pretty i = pre +:+ pretty j → i = j.
Proof. intros H%(inj (String.app pre)). by apply (inj pretty) in H. Qed.

Section Restore.
Context `{E : FlowEngine} `{SC : !StateCodec}.

(** ** What a restore reads *)
Definition reads_same (s s' : Store) (op : string) (e : N) (chunks : list N) : Prop :=
  s' !! child (manifest_key op e) = s !! child (manifest_key op e) ∧
  s' !! child (residual_key op e) = s !! child (residual_key op e) ∧
  ∀ c, c ∈ chunks → s' !! child (spill_key op c) = s !! child (spill_key op c).
Lemma get_state_same s s' key : s' !! child key = s !! child key → get_state io_fine s' key = get_state io_fine s key.
Proof. intros H. unfold get_state, ck_get. simpl. by rewrite H. Qed.
Lemma restore_same s s' op e meta chunks kg :
  get_manifest io_fine s op e = Some (meta, chunks, kg) → reads_same s s' op e chunks →
  get_manifest io_fine s' op e = Some (meta, chunks, kg) ∧
  restore_epoch_incremental io_fine s' op e = restore_epoch_incremental io_fine s op e.
Proof.
  intros Hm (H1 & H2 & H3).
  assert (get_manifest io_fine s' op e = get_manifest io_fine s op e) as Heq.
  { unfold get_manifest, ck_get. simpl. by rewrite H1. }
  split; [by rewrite Heq|]. unfold restore_epoch_incremental. rewrite Heq, Hm.
  rewrite (get_state_same _ _ _ H2). do 2 f_equal. apply list_bind_ext_elem. intros c Hc.
  unfold read_spill. by rewrite (get_state_same _ _ _ (H3 c Hc)).
Qed.

(** ** Accesses that do not touch a checkpoint *)
Inductive StateOp :=
| OpSpill (op : string) (i : N) (schema : list Field) (batches : list RecordBatch)
| OpDeleteSpill (op : string) (i : N)
| OpStage (op : string) (e : N) (schema : list Field) (residual : list RecordBatch)
    (chunks : list N) (meta : list Z) (kg_ranges : list (N * N))
| OpGcEpoch (op : string) (e : N)
| OpGcChunks (op : string) (retained candidates : list N)
| OpStageEpochState (op : string) (e : N) (schema : list Field) (batches : list RecordBatch)
    (meta : list Z)
| OpStageParallelism (base : string) (e m : N).
Definition run_state_op (s : Store) (x : StoreIo * StateOp) : Store :=
  let '(io, o) := x in
  match o with
  | OpSpill op i schema batches => (write_spill io s op i schema batches).2
  | OpDeleteSpill op i => delete_spill io s op i
  | OpStage op e schema residual chunks meta kg_ranges =>
      stage_epoch_incremental_kg io s op e schema residual chunks meta kg_ranges
  | OpGcEpoch op e => gc_epoch_incremental io s op e
  | OpGcChunks op retained candidates => gc_unreferenced_chunks io s op retained candidates
  | OpStageEpochState op e schema batches meta => stage_epoch_state io s op e schema batches meta
  | OpStageParallelism base e m => stage_parallelism io s base e m
  end.
(** The access leaves the checkpoint [e] of [op] alone: it writes or deletes other
    chunks and epochs, or it collects chunks, keeps [e] and can read its manifest. *)
Definition harmless (op : string) (e : N) (chunks : list N) (x : StoreIo * StateOp) : Prop :=
  let '(io, o) := x in
  match o with
  | OpSpill op' i _ _ | OpDeleteSpill op' i => segment op' ∧ (op' = op → i ∉ chunks)
  | OpStage op' e' _ _ _ _ _ | OpGcEpoch op' e' => segment op' ∧ (op' = op → e' ≠ e)
  | OpGcChunks op' retained _ =>
      segment op' ∧ (op' = op → e ∈ retained ∧ io_get io (manifest_key op e) = None)
  | OpStageEpochState op' _ _ _ _ | OpStageParallelism op' _ _ => segment op'
  end.

Lemma put_other io s rel data k : k ≠ child rel → (ck_put io s rel data).2 !! k = s !! k.
Proof. intros H. unfold ck_put. destruct (io_put io rel); [done|]. simpl. by rewrite lookup_insert_ne. Qed.
Lemma delete_other io s rel k : k ≠ child rel → (ck_delete io s rel).2 !! k = s !! k.
Proof. intros H. unfold ck_delete. destruct (io_delete io rel); [done|]. simpl. by rewrite lookup_delete_ne. Qed.
Lemma put_state_other io s key schema batches meta k :
  k ≠ child key → put_state io s key schema batches meta !! k = s !! k.
Proof. intros H. unfold put_state. destruct (encode_state _ _ _); [by apply put_other|done]. Qed.

(** The keys of the checkpoint [e] of [op]. *)
Definition touches (op : string) (e : N) (chunks : list N) (k : list string) : Prop :=
  k = child (manifest_key op e) ∨ k = child (residual_key op e) ∨
  ∃ c, c ∈ chunks ∧ k = child (spill_key op c).

Lemma spill_untouched op e chunks op' i k :
  segment op → segment op' → (op' = op → i ∉ chunks) → touches op e chunks k → k ≠ child (spill_key op' i).
Proof.
  intros Ho Ho' Hi [->|[->|(c & Hc & ->)]]; rewrite ?manifest_path, ?residual_path, ?spill_path by done; [done..|].
  intros [= <- Heq%segment_inj]. subst c. by apply Hi.
Qed.
Lemma epoch_untouched op e chunks op' e' k :
  segment op → segment op' → (op' = op → e' ≠ e) → touches op e chunks k →
  k ≠ child (manifest_key op' e') ∧ k ≠ child (residual_key op' e').
Proof.
  intros Ho Ho' Hi [->|[->|(c & Hc & ->)]]; rewrite ?manifest_path, ?residual_path, ?spill_path by done.
  - split; [|done]. intros [= <- Heq%segment_inj]. by apply Hi.
  - split; [done|]. intros [= <- Heq%segment_inj]. by apply Hi.
  - done.
Qed.

Lemma gc_chunks_lookup io s op retained candidates k :
  (∀ c, c ∈ candidates → c ∉ referenced_chunks io s op retained → k ≠ child (spill_key op c)) →
  gc_unreferenced_chunks io s op retained candidates !! k = s !! k.
Proof.
  unfold gc_unreferenced_chunks. generalize (referenced_chunks io s op retained). intros referenced.
  revert s. induction candidates as [|c candidates IH]; intros s H; simpl; [done|].
  rewrite IH by set_solver. case_bool_decide as Hc; [done|]. unfold delete_spill.
  apply delete_other. apply H; set_solver.
Qed.

Lemma harmless_lookup op e meta chunks kg s x k :
  segment op → get_manifest io_fine s op e = Some (meta, chunks, kg) → harmless op e chunks x →
  touches op e chunks k → run_state_op s x !! k = s !! k.
Proof.
  intros Ho Hm Hx Hk. destruct x as [io []]; simpl in Hx; destruct_and?; simpl.
  - unfold write_spill. destruct (encode_state _ _ _) as [blob|]; [|done].
    pose proof (put_other io s (spill_key op0 i) blob k) as Hp.
    destruct (ck_put io s (spill_key op0 i) blob). simpl in *. apply Hp. by apply (spill_untouched op e chunks).
  - apply delete_other. by apply (spill_untouched op e chunks).
  - unfold stage_epoch_incremental_kg.
    destruct (epoch_untouched op e chunks op0 e0 k) as [H1 H2]; [done..|].
    by rewrite put_other, put_state_other.
  - unfold gc_epoch_incremental. destruct (epoch_untouched op e chunks op0 e0 k) as [H1 H2]; [done..|].
    by rewrite !delete_other.
  - apply gc_chunks_lookup. intros c Hc Hn. apply (spill_untouched op e chunks); [done..| |done]. intros -> Hin.
    apply Hn. unfold referenced_chunks. apply list_elem_of_bind. exists e.
    destruct H0 as [Hr Hio]; [done|]. split; [|done]. unfold get_manifest, ck_get in *. rewrite Hio.
    simpl in Hm. destruct (s !! child (manifest_key op e)); [|done]. injection Hm as ->. done.
  - unfold stage_epoch_state. apply put_state_other. rewrite epoch_path by done.
    destruct Hk as [->|[->|(c & Hc & ->)]]; rewrite ?manifest_path, ?residual_path, ?spill_path by done; done.
  - unfold stage_parallelism. apply put_other. rewrite parallelism_path by done.
    destruct Hk as [->|[->|(c & Hc & ->)]]; rewrite ?manifest_path, ?residual_path, ?spill_path by done; done.
Qed.
Lemma harmless_restore op e meta chunks kg s xs :
  segment op → get_manifest io_fine s op e = Some (meta, chunks, kg) → Forall (harmless op e chunks) xs →
  get_manifest io_fine (foldl run_state_op s xs) op e = Some (meta, chunks, kg) ∧
  restore_epoch_incremental io_fine (foldl run_state_op s xs) op e =
  restore_epoch_incremental io_fine s op e.
Proof.
  intros Ho Hm Hxs. revert s Hm. induction Hxs as [|x xs Hx Hxs IH]; intros s Hm; simpl; [done|].
  destruct (restore_same s (run_state_op s x) op e meta chunks kg Hm) as [Hm' Hr].
  { split_and!.
    - eapply harmless_lookup; [done..|]. by left.
    - eapply harmless_lookup; [done..|]. by right; left.
    - intros c Hc. eapply harmless_lookup; [done..|]. right. right. eauto. }
  destruct (IH _ Hm') as [-> ->]. done.
Qed.
End Restore.

(** ** What Arrow documents

    Reading what was written; the rows of a batch, the hash of the key of each, and the
    rows that a mask selects. *)
Class StateCodecLaws `{E : FlowEngine} (SC : StateCodec) (Row : Type) := {
  state_rows : RecordBatch → list Row;
  row_hash : list nat → Row → N;
  ipc_read_write schema batches blob : ipc_write schema batches = Some blob → ipc_read blob = batches;
  state_rows_count b : length (state_rows b) = batch_num_rows b;
  create_hashes_rows b key_cols arrays hashes :
    run_map (vec_index (batch_columns b)) key_cols = Returns arrays →
    create_hashes arrays (batch_num_rows b) = Ok hashes → hashes = row_hash key_cols <$> state_rows b;
  filter_batch_rows b mask b' :
    filter_record_batch b mask = Some b' →
    state_rows b' = fst <$> filter (λ x, x.2 = true) (zip (state_rows b) mask)
}.

Section Claims.
Context `{E : FlowEngine} `{SC : !StateCodec} {Row : Type} `{SL : !StateCodecLaws SC Row}.

Lemma state_roundtrip schema batches meta blob :
  encode_state schema batches meta = Some blob → N.of_nat (length meta) < 4294967296 →
  Forall (λ v, -9223372036854775808 ≤ v < 9223372036854775808)%Z meta →
  decode_state blob = (batches, meta).
Proof.
  unfold encode_state, decode_state. intros He Hl Hm.
  destruct (ipc_write schema batches) as [ipc|] eqn:Hi; [|done]. apply (inj Some) in He as <-.
  edestruct (read_u32 (length meta)) as (x & -> & ->); [done|].
  rewrite read_values_app by (intros; apply le_bytes_length). f_equal; [by eapply ipc_read_write|].
  rewrite <- (list_fmap_id meta) at 2. apply list_fmap_ext_elem. intros v Hv. cbv beta.
  rewrite from_le_bytes by apply to_u64_lt. apply of_to_u64. by eapply Forall_forall in Hm.
Qed.

Lemma stage_restores io s0 op e schema residual chunks meta kg_ranges :
  segment op → manifest_fits meta chunks kg_ranges → is_Some (ipc_write schema residual) →
  io_put io (residual_key op e) = None → io_put io (manifest_key op e) = None →
  let s1 := stage_epoch_incremental_kg io s0 op e schema residual chunks meta kg_ranges in
  get_manifest io_fine s1 op e = Some (meta, chunks, kg_ranges) ∧
  restore_epoch_incremental io_fine s1 op e =
  (residual ++ (chunks ≫= read_spill io_fine s0 op), meta).
Proof.
  intros Ho Hfit [blob Hblob] Hio1 Hio2 s1.
  assert (∃ rblob, encode_state schema residual [] = Some rblob) as [rblob Hr]
    by (unfold encode_state; rewrite Hblob; by eexists).
  assert (s1 = <[child (manifest_key op e) := encode_manifest_kg meta chunks kg_ranges]>
    (<[child (residual_key op e) := rblob]> s0)) as Hs1.
  { unfold s1, stage_epoch_incremental_kg, put_state. rewrite Hr. unfold ck_put. by rewrite Hio1, Hio2. }
  assert (get_manifest io_fine s1 op e = Some (meta, chunks, kg_ranges)) as Hm.
  { unfold get_manifest, ck_get. simpl. rewrite Hs1, lookup_insert_eq. by rewrite manifest_roundtrip. }
  split; [done|]. unfold restore_epoch_incremental. rewrite Hm. f_equal. f_equal.
  - unfold get_state, ck_get. simpl. rewrite Hs1, lookup_insert_ne, lookup_insert_eq.
    + by rewrite (state_roundtrip schema residual []).
    + by rewrite manifest_path, residual_path.
  - apply list_bind_ext_elem. intros c Hc. unfold read_spill. f_equal. apply get_state_same.
    rewrite Hs1, !lookup_insert_ne; [done|..]; rewrite ?manifest_path, ?residual_path, ?spill_path by done; done.
Qed.

(** C22. A staged checkpoint survives: whatever happens to other operators, other epochs
    and other chunks, and also when the chunks that no retained epoch references are
    collected, the epoch restores to the residual it was staged with, the contents its
    chunks had, and its metadata. *)
Theorem checkpoint_survives io s0 op e schema residual chunks meta kg_ranges xs :
  segment op → manifest_fits meta chunks kg_ranges → is_Some (ipc_write schema residual) →
  io_put io (residual_key op e) = None → io_put io (manifest_key op e) = None →
  Forall (harmless op e chunks) xs →
  let s := foldl run_state_op
    (stage_epoch_incremental_kg io s0 op e schema residual chunks meta kg_ranges) xs in
  restore_epoch_incremental io_fine s op e =
  (residual ++ (chunks ≫= read_spill io_fine s0 op), meta).
Proof.
  intros Ho Hfit Hblob Hio1 Hio2 Hxs s.
  destruct (stage_restores io s0 op e schema residual chunks meta kg_ranges) as [Hm <-]; [done..|].
  by apply (harmless_restore op e meta chunks kg_ranges _ xs Ho Hm).
Qed.

(** Collecting chunks takes a manifest that cannot be read for one that references
    nothing: when the read of a retained manifest fails, chunks that it references are
    deleted, and a later restore of that epoch returns without them. *)
Theorem gc_read_failure_loses_chunk io s op e meta c kg_ranges err :
  segment op → get_manifest io_fine s op e = Some (meta, [c], kg_ranges) →
  io_get io (manifest_key op e) = Some err → io_delete io (spill_key op c) = None →
  restore_epoch_incremental io_fine (gc_unreferenced_chunks io s op [e] [c]) op e =
  ((get_state io_fine s (residual_key op e)).1, meta).
Proof.
  intros Ho Hm Hio Hd.
  assert (gc_unreferenced_chunks io s op [e] [c] = delete (child (spill_key op c)) s) as ->.
  { unfold gc_unreferenced_chunks, referenced_chunks, get_manifest, ck_get. simpl. rewrite Hio. simpl.
    unfold delete_spill, ck_delete. by rewrite Hd. }
  assert (get_manifest io_fine (delete (child (spill_key op c)) s) op e = Some (meta, [c], kg_ranges)) as Hm'.
  { unfold get_manifest, ck_get in *. simpl in *. rewrite lookup_delete_ne; [done|].
    by rewrite manifest_path, spill_path. }
  unfold restore_epoch_incremental. rewrite Hm'. f_equal. simpl. unfold read_spill.
  assert (get_state io_fine (delete (child (spill_key op c)) s) (spill_key op c) = ([], [])) as ->.
  { unfold get_state, ck_get. simpl. by rewrite lookup_delete_eq. }
  simpl. rewrite app_nil_r. f_equal. apply get_state_same. rewrite lookup_delete_ne; [done|].
  by rewrite residual_path, spill_path.
Qed.

(** ** Change of the parallelism *)

(** The key columns of a batch can be hashed and its rows be filtered. *)
Definition batch_keyed (key_cols : list nat) (b : RecordBatch) : Prop :=
  (∃ arrays hashes, run_map (vec_index (batch_columns b)) key_cols = Returns arrays ∧
    create_hashes arrays (batch_num_rows b) = Ok hashes) ∧
  ∀ mask, length mask = batch_num_rows b → is_Some (filter_record_batch b mask).

Definition row_group (key_cols : list nat) (g : N) (r : Row) : N := key_group (row_hash key_cols r) g.
Definition owned_rows (key_cols : list nat) (g lo hi : N) (rows : list Row) : list Row :=
  filter (λ r, lo <= row_group key_cols g r ∧ row_group key_cols g r < hi) rows.

Lemma in_range_spec lo hi kg : in_range lo hi (Z.of_N kg) = true ↔ lo <= kg ∧ kg < hi.
Proof.
  unfold in_range. rewrite andb_true_iff, Z.leb_le, Z.ltb_lt. lia.
Qed.
Lemma filter_recompute_rows b key_cols g lo hi :
  batch_keyed key_cols b →
  ∃ b', filter_to_key_group_range_recompute b key_cols g lo hi = Returns (Some b') ∧
    state_rows b' = owned_rows key_cols g lo hi (state_rows b).
Proof.
  intros [(arrays & hashes & Ha & Hh) Hf]. unfold filter_to_key_group_range_recompute.
  rewrite Ha. simpl. rewrite Hh. pose proof (create_hashes_rows _ _ _ _ Ha Hh) as ->.
  set (mask := (λ kg, in_range lo hi (Z.of_N kg)) <$> zelox_key_groups (row_hash key_cols <$> state_rows b) g).
  destruct (Hf mask) as [b' Hb'].
  { unfold mask, zelox_key_groups. by rewrite !length_fmap, state_rows_count. }
  rewrite Hb'. exists b'. split; [done|]. rewrite (filter_batch_rows _ _ _ Hb').
  unfold mask, zelox_key_groups, owned_rows, row_group. clear. induction (state_rows b) as [|r rows IH]; [done|].
  rewrite !fmap_cons. simpl.
  destruct (decide (lo <= key_group (row_hash key_cols r) g ∧ key_group (row_hash key_cols r) g < hi)) as [Hd|Hd].
  - rewrite !filter_cons_True by (done || by apply in_range_spec). rewrite fmap_cons. by rewrite IH.
  - rewrite !filter_cons_False; [done|done|]. simpl. by rewrite in_range_spec.
Qed.
Lemma push_filtered_rows key_cols g lo hi batches :
  Forall (batch_keyed key_cols) batches →
  ∃ out, push_filtered (λ b, filter_to_key_group_range_recompute b key_cols g lo hi) batches = Returns out ∧
    out ≫= state_rows = owned_rows key_cols g lo hi (batches ≫= state_rows).
Proof.
  induction 1 as [|b batches Hb Hbs IH]; [by exists []|]. cbn [push_filtered].
  destruct (filter_recompute_rows b key_cols g lo hi Hb) as (b' & -> & Hrows).
  destruct IH as (out & -> & Hout). eexists. split; [done|].
  unfold owned_rows in *. rewrite ?bind_cons, filter_app, <- Hrows, <- Hout.
  destruct (Nat.ltb_spec 0 (batch_num_rows b')) as [Hn|Hn]; [by rewrite bind_cons|].
  assert (state_rows b' = []) as ->; [|done]. apply length_zero_iff_nil. rewrite state_rows_count. lia.
Qed.

(** The state of an operator at an epoch, over its instances. *)
Definition state_of (s : Store) (op_base : string) (epoch old_m : N) : list Row :=
  old_operators op_base old_m ≫= λ op,
    (restore_epoch_incremental io_fine s op epoch).1 ≫= state_rows.

(** C16. A change of the parallelism gives each row to its owner: the state that
    instance [i] of [new_m] restores consists of exactly those rows, in their order, of
    the old instances' state whose key group it owns, so that each row is restored by
    one instance and the exchange sends its key to that instance. *)
Theorem rescale_restores_owned s op_base epoch i new_m g key_cols :
  0 < new_m → i < new_m → 0 < g → g < 65536 → new_m * g < 18446744073709551616 →
  let old_m := old_parallelism io_fine s op_base epoch new_m in
  Forall (λ op, Forall (batch_keyed key_cols) (restore_epoch_incremental io_fine s op epoch).1)
    (old_operators op_base old_m) →
  ∃ out meta,
    restore_keyed_range_recompute_auto io_fine s op_base epoch i new_m g key_cols = Returns (out, meta) ∧
    out ≫= state_rows =
    filter (λ r, key_group_owner (row_group key_cols g r) new_m g = i) (state_of s op_base epoch old_m).
Proof.
  intros Hm Hi Hg0 Hg Hmax old_m Hkeyed. unfold restore_keyed_range_recompute_auto, state_of.
  fold old_m. destruct (instance_key_group_range i new_m g) as [lo hi] eqn:Hrange.
  assert (∀ rows, owned_rows key_cols g lo hi rows =
    filter (λ r, key_group_owner (row_group key_cols g r) new_m g = i) rows) as Hown.
  { intros rows. unfold owned_rows. apply list_filter_iff. intros r.
    pose proof (owner_range (row_group key_cols g r) new_m g i Hm) as Hor. rewrite Hrange in Hor.
    simpl in Hor. symmetry. apply Hor; [|done..]. by apply key_group_lt. }
  assert (∀ ops acc out, Forall (λ op, Forall (batch_keyed key_cols)
      (restore_epoch_incremental io_fine s op epoch).1) ops →
    ∃ out' acc', for_each (λ '(out, acc) op,
        let '(batches, meta) := restore_epoch_incremental io_fine s op epoch in
        l ← push_filtered (λ b, filter_to_key_group_range_recompute b key_cols g lo hi) batches;
        Returns (out ++ l, merge_meta acc meta)) (out, acc) ops = Returns (out', acc') ∧
      out' ≫= state_rows = (out ≫= state_rows) ++ owned_rows key_cols g lo hi
        (ops ≫= λ op, (restore_epoch_incremental io_fine s op epoch).1 ≫= state_rows)) as Hloop.
  { intros ops. induction ops as [|op ops IH]; intros acc out Hops; simpl.
    { exists out, acc. split; [done|]. by rewrite app_nil_r. }
    apply Forall_cons in Hops as [Hop Hops].
    destruct (restore_epoch_incremental io_fine s op epoch) as [batches meta]. simpl in *.
    destruct (push_filtered_rows key_cols g lo hi batches Hop) as (l & -> & Hl). simpl.
    destruct (IH (merge_meta acc meta) (out ++ l) Hops) as (out' & acc' & Hrun & Hout).
    exists out', acc'. split; [done|]. rewrite Hout, bind_app, <- app_assoc, Hl.
    unfold owned_rows. by rewrite filter_app. }
  destruct (Hloop (old_operators op_base old_m) (None, ∅) [] Hkeyed) as (out & [wm ends] & Hrun & Hout).
  rewrite Hrun. simpl. eexists _, _. split; [done|]. rewrite Hout. simpl. apply Hown.
Qed.
End Claims.
