(* ===== verification/FlowOps.v ===== *)
(** * Streaming: limits, collection, deduplication and watermarks

    [zelox-physical-plan/src/streaming]: [source_adapter.rs], [limit.rs],
    [collector.rs], [dedup.rs] and [watermark.rs].  An operator is a function from the
    items its decoded input yields to the items it yields.

    What the operators read of Arrow's arrays, scalars and row encoding is a parameter.
    The clock is part of the input of the watermark operator: a poll carries the
    instants that were read, in nanoseconds. *)

From Stdlib Require Import Ascii String Sorted.
From S2P Require Import Prelude Collections FlowEvents FlowState.

(** ** The libraries *)
Inductive TimestampScalar :=
| TsSecond (v : option Z) | TsMillisecond (v : option Z) | TsMicrosecond (v : option Z)
| TsNanosecond (v : option Z).
Class FlowColumns (E : FlowEngine) := {
  as_timestamp_micros : ArrayRef → option (list (option Z));
  int32_values : ArrayRef → option (list (option Z));
  int64_values : ArrayRef → option (list (option Z));
  ScalarValue : Type;
  ScalarValue_eq_dec :: EqDecision ScalarValue;
  ScalarValue_countable :: Countable ScalarValue;
  scalar_try_from_array : ArrayRef → nat → FlowResult ScalarValue;
  as_timestamp : ScalarValue → option TimestampScalar;
  filter_batch : RecordBatch → list bool → FlowResult RecordBatch;
  OwnedRow : Type;
  OwnedRow_eq_dec :: EqDecision OwnedRow;
  OwnedRow_countable :: Countable OwnedRow;
  RowConverter : Type;
  row_converter_new : list ArrayRef → FlowResult RowConverter;
  convert_columns : RowConverter → list ArrayRef → FlowResult (list OwnedRow);
  concat_batches : list Field → list RecordBatch → FlowResult RecordBatch;
  batch_new_empty : list Field → RecordBatch
}.

Definition wrap_i64 (z : Z) : Z := ((z + 2 ^ 63) mod 2 ^ 64 - 2 ^ 63)%Z.
Definition i64_max : Z := 9223372036854775807.
Definition i64_saturate (z : Z) : Z := (Z.max i64_min (Z.min z i64_max))%Z.

Section Operators.
Context `{E : FlowEngine} `{FC : !FlowColumns E}.
Notation Item := (FlowResult FlowEvent).

(** [batch.column(i)] *)
Definition column (b : RecordBatch) (i : nat) : Run ArrayRef := vec_index (batch_columns b) i.

(** ** The source adapter ([source_adapter.rs]) *)
Definition source_adapter (input : list (FlowResult RecordBatch)) : list Item :=
  ((λ x, b ← x; Ok (append_only_data b)) <$> input) ++ [Ok (FlowMark EndOfData)].

(** ** Limits ([limit.rs]) *)
Record StreamLimitState := MkStreamLimitState { sl_skip : nat; sl_fetch : option nat }.
Definition skip_batch_if_needed (st : StreamLimitState) (batch : RecordBatch) (retracted : list bool)
    : option (RecordBatch * list bool) * StreamLimitState :=
  let skip := sl_skip st in
  if (skip =? 0)%nat then (Some (batch, retracted), st)
  else
    let length := batch_num_rows batch in
    if (length <=? skip)%nat then (None, MkStreamLimitState (skip - length) (sl_fetch st))
    else (Some (batch_slice batch skip (length - skip), take (length - skip) (drop skip retracted)),
          MkStreamLimitState 0 (sl_fetch st)).
Definition fetch_batch (st : StreamLimitState) (batch : RecordBatch) (retracted : list bool)
    : option (RecordBatch * list bool) * StreamLimitState :=
  match sl_fetch st with
  | None => (Some (batch, retracted), st)
  | Some fetch =>
      if (batch_num_rows batch <=? fetch)%nat
      then (Some (batch, retracted), MkStreamLimitState (sl_skip st) (Some (fetch - batch_num_rows batch)))
      else if (0 <? fetch)%nat
      then (Some (batch_slice batch 0 fetch, take fetch retracted), MkStreamLimitState (sl_skip st) (Some 0))
      else (None, st)
  end.
(** An item is yielded, left out, or ends the stream. *)
Definition limit_step (st : StreamLimitState) (event : Item) : option (option Item * StreamLimitState) :=
  match event with
  | Ok (FlowMark m) => Some (Some (Ok (FlowMark m)), st)
  | Ok (FlowData batch retracted) =>
      match skip_batch_if_needed st batch retracted with
      | (Some (batch, retracted), st) =>
          match fetch_batch st batch retracted with
          | (Some (batch, retracted), st) => Some (Some (Ok (FlowData batch retracted)), st)
          | (None, _) => None
          end
      | (None, st) => Some (None, st)
      end
  | Err e => Some (Some (Err e), st)
  end.
Fixpoint limit_run (st : StreamLimitState) (input : list Item) : list Item :=
  match input with
  | [] => []
  | x :: input =>
      match limit_step st x with
      | None => []
      | Some (y, st) => option_list y ++ limit_run st input
      end
  end.

(** [count] is the number of partitions of the input. *)
Definition single_partition (name : string) (partition count : nat) : FlowResult unit :=
  if negb (partition =? 0)%nat then Err (FeInternal ("invalid partition for " +:+ name))
  else if negb (count =? 1)%nat then Err (FeInternal (name +:+ " requires a single input partition"))
  else Ok tt.
Definition limit_execute (skip : nat) (fetch : option nat) (partition count : nat) (input : list Item)
    : FlowResult (list Item) :=
  _ ← single_partition "StreamLimitExec" partition count;
  Ok (limit_run (MkStreamLimitState skip fetch) input).

(** ** Collection ([collector.rs]) *)
Record Collector := MkCollector {
  cl_table : gmap OwnedRow (Z * RecordBatch);
  cl_order : list OwnedRow;
  cl_converter : option RowConverter
}.
Definition collector_new : Collector := MkCollector ∅ [] None.
(** The entry of a row that is not in the table yet. *)
Definition collect_row (c : Collector) (batch : RecordBatch) (i : nat) (key : OwnedRow) (retract : bool)
    : Collector :=
  let delta := if retract then (-1)%Z else 1%Z in
  match cl_table c !! key with
  | Some (n, row) =>
      MkCollector (<[key := (wrap_i64 (n + delta), row)]> (cl_table c)) (cl_order c) (cl_converter c)
  | None =>
      MkCollector (<[key := (delta, batch_slice batch i 1)]> (cl_table c)) (cl_order c ++ [key])
        (cl_converter c)
  end.
Definition collect_data (c : Collector) (batch : RecordBatch) (retracted : list bool)
    : Run (FlowResult Collector) :=
  if (batch_num_rows batch =? 0)%nat then Returns (Ok c)
  else
    match (match cl_converter c with
           | Some conv => Ok conv
           | None => row_converter_new (batch_columns batch)
           end : FlowResult RowConverter) with
    | Err e => Returns (Err e)
    | Ok conv =>
        match convert_columns conv (batch_columns batch) with
        | Err e => Returns (Err e)
        | Ok rows =>
            c ← for_each (λ c i,
              key ← vec_index rows i;
              retract ← vec_index retracted i;
              Returns (collect_row c batch i key retract))
              (MkCollector (cl_table c) (cl_order c) (Some conv)) (seq 0 (batch_num_rows batch));
            Returns (Ok c)
        end
    end.
Fixpoint collect_all (c : Collector) (input : list Item) : Run (FlowResult Collector) :=
  match input with
  | [] => Returns (Ok c)
  | Ok (FlowMark _) :: input => collect_all c input
  | Ok (FlowData batch retracted) :: input =>
      r ← collect_data c batch retracted;
      match r with Ok c => collect_all c input | Err e => Returns (Err e) end
  | Err e :: _ => Returns (Err e)
  end.
Definition survivors (c : Collector) : list RecordBatch :=
  cl_order c ≫= λ key,
    match cl_table c !! key with
    | Some (count, row) => replicate (Z.to_nat (Z.max count 0)) row
    | None => []
    end.
Definition collect_result (schema : list Field) (input : list Item) : Run (FlowResult RecordBatch) :=
  r ← collect_all collector_new input;
  Returns (c ← r;
    match survivors c with
    | [] => Ok (batch_new_empty schema)
    | l => concat_batches schema l
    end).
Definition collector_execute (schema : list Field) (partition count : nat) (input : list Item)
    : Run (FlowResult (list (FlowResult RecordBatch))) :=
  match single_partition "StreamCollectorExec" partition count with
  | Err e => Returns (Err e)
  | Ok _ => b ← collect_result schema input; Returns (Ok [b])
  end.

(** ** Deduplication ([dedup.rs]) *)
Notation Key := (list ScalarValue).
Definition event_time_micros (array : ArrayRef) (row : nat) : FlowResult (option Z) :=
  s ← scalar_try_from_array array row;
  Ok (match as_timestamp s with
      | Some (TsMicrosecond v) => v
      | Some (TsMillisecond v) => (λ x, i64_saturate (x * 1000)) <$> v
      | Some (TsNanosecond v) => (λ x, Z.quot x 1000) <$> v
      | Some (TsSecond v) => (λ x, i64_saturate (x * 1000000)) <$> v
      | None => None
      end)%Z.
Record Dedup := MkDedup { dd_seen : gmap Key Z; dd_watermark : option Z }.
Definition dedup_new : Dedup := MkDedup ∅ None.
(** A row whose event time and key are known. *)
Definition keep_row (seen : gmap Key Z) (event_time : option Z) (key : Key) : bool * gmap Key Z :=
  let et_store := default i64_min event_time in
  match seen !! key with
  | Some slot => (false, <[key := Z.max slot et_store]> seen)
  | None => (true, <[key := et_store]> seen)
  end.
Definition is_late (watermark event_time : option Z) : bool :=
  match event_time, watermark with Some et, Some wm => (et <? wm)%Z | _, _ => false end.
Fixpoint row_key (batch : RecordBatch) (key_indices : list nat) (row : nat) : Run (FlowResult Key) :=
  match key_indices with
  | [] => Returns (Ok [])
  | i :: key_indices =>
      col ← column batch i;
      match scalar_try_from_array col row with
      | Err e => Returns (Err e)
      | Ok v => r ← row_key batch key_indices row; Returns (k ← r; Ok (v :: k))
      end
  end.
Definition row_event_time (batch : RecordBatch) (event_time_idx : option nat) (row : nat)
    : Run (FlowResult (option Z)) :=
  match event_time_idx with
  | Some idx => col ← column batch idx; Returns (event_time_micros col row)
  | None => Returns (Ok None)
  end.
(** The loop over the rows; an error leaves the keys seen up to it. *)
Fixpoint filter_rows (batch : RecordBatch) (key_indices : list nat) (event_time_idx : option nat)
    (watermark : option Z) (seen : gmap Key Z) (keep : list bool) (rows : list nat)
    : Run (FlowResult (list bool) * gmap Key Z) :=
  match rows with
  | [] => Returns (Ok keep, seen)
  | row :: rows =>
      et ← row_event_time batch event_time_idx row;
      match et with
      | Err e => Returns (Err e, seen)
      | Ok event_time =>
          if is_late watermark event_time
          then filter_rows batch key_indices event_time_idx watermark seen (keep ++ [false]) rows
          else
            k ← row_key batch key_indices row;
            match k with
            | Err e => Returns (Err e, seen)
            | Ok key =>
                let '(b, seen) := keep_row seen event_time key in
                filter_rows batch key_indices event_time_idx watermark seen (keep ++ [b]) rows
            end
      end
  end.
Definition filter_new_rows (batch : RecordBatch) (key_indices : list nat) (event_time_idx : option nat)
    (watermark : option Z) (seen : gmap Key Z) : Run (FlowResult RecordBatch * gmap Key Z) :=
  r ← filter_rows batch key_indices event_time_idx watermark seen [] (seq 0 (batch_num_rows batch));
  let '(keep, seen) := r in
  Returns (k ← keep; filter_batch batch k, seen).
Definition dedup_step (key_indices : list nat) (event_time_idx : option nat) (st : Dedup) (event : Item)
    : Run (option Item * Dedup) :=
  match event with
  | Err e => Returns (Some (Err e), st)
  | Ok (FlowData batch _) =>
      r ← filter_new_rows batch key_indices event_time_idx (dd_watermark st) (dd_seen st);
      let '(filtered, seen) := r in
      let st := MkDedup seen (dd_watermark st) in
      Returns (match filtered with
               | Err e => Some (Err e)
               | Ok b => if (batch_num_rows b =? 0)%nat then None else Some (Ok (append_only_data b))
               end, st)
  | Ok (FlowMark (Watermark source timestamp)) =>
      Returns (Some event,
        match event_time_idx with
        | Some _ =>
            let wm := dt_timestamp_micros timestamp in
            let wm := match dd_watermark st with Some c => Z.max c wm | None => wm end in
            MkDedup (filter (λ x, wm <= x.2)%Z (dd_seen st)) (Some wm)
        | None => st
        end)
  | Ok _ => Returns (Some event, st)
  end.
Fixpoint dedup_run (key_indices : list nat) (event_time_idx : option nat) (st : Dedup) (input : list Item)
    : Run (list Item * Dedup) :=
  match input with
  | [] => Returns ([], st)
  | x :: input =>
      r ← dedup_step key_indices event_time_idx st x;
      let '(y, st) := r in
      r ← dedup_run key_indices event_time_idx st input;
      let '(out, st) := r in
      Returns (option_list y ++ out, st)
  end.

Record StreamDeduplicateExec := MkStreamDeduplicateExec {
  sd_key_cols : list string;
  sd_event_time_col : option string;
  sd_data_schema : list Field
}.
(** [name.rsplit('.').next()]: what follows the last dot. *)
Fixpoint unqualified (last s : string) : string :=
  match s with
  | EmptyString => last
  | String c s => unqualified (if decide (c = "."%char) then s else last) s
  end.
Definition resolve_column (schema : list Field) (name : string) : option nat :=
  match index_of name schema with
  | Some i => Some i
  | None => index_of (unqualified name name) schema
  end.
Fixpoint resolve_keys (schema : list Field) (names : list string) : FlowResult (list nat) :=
  match names with
  | [] => Ok []
  | name :: names =>
      match resolve_column schema name with
      | None => Err (FePlan ("dedup key '" +:+ name +:+ "' not found in schema"))
      | Some i => l ← resolve_keys schema names; Ok (i :: l)
      end
  end.
Definition resolve_event_time (schema : list Field) (col : option string) : FlowResult (option nat) :=
  match col with
  | None => Ok None
  | Some name =>
      match resolve_column schema name with
      | None => Err (FePlan ("dedup event-time column '" +:+ name +:+ "' not found in schema"))
      | Some i => Ok (Some i)
      end
  end.
Definition dedup_execute (x : StreamDeduplicateExec) (partition : nat) (input : list Item)
    : FlowResult (Run (list Item)) :=
  if negb (partition =? 0)%nat then Err (FeInternal "StreamDeduplicateExec: invalid partition")
  else
    key_indices ← resolve_keys (sd_data_schema x) (sd_key_cols x);
    event_time_idx ← resolve_event_time (sd_data_schema x) (sd_event_time_col x);
    Ok (r ← dedup_run key_indices event_time_idx dedup_new input; Returns (fst r)).

(** ** Watermarks ([watermark.rs]) *)
Record WatermarkExec := MkWatermarkExec {
  wx_event_time_col : string;
  wx_delay_micros : Z;
  wx_data_schema : list Field;
  wx_partition_col : option string;
  wx_watermark_interval : Z
}.
Definition idle_timeout : Z := 2000 * 1000000.
Definition duration_since (now earlier : Z) : Z := Z.max 0 (now - earlier).
Definition event_time_idx (x : WatermarkExec) : option nat := index_of (wx_event_time_col x) (wx_data_schema x).
Definition part_idx (x : WatermarkExec) : option nat :=
  c ← wx_partition_col x; index_of c (wx_data_schema x).

(** Each partition's latest event time and the instant it was last seen. *)
Notation PerPartState := (gmap Z (Z * Z)).
Definition list_max_z (l : list Z) : option Z :=
  foldl (λ acc x, Some (match acc with Some m => Z.max m x | None => x end)) None l.
Definition list_min_z (l : list Z) : option Z :=
  foldl (λ acc x, Some (match acc with Some m => Z.min m x | None => x end)) None l.
Definition partition_of (parts : ArrayRef) (i : nat) : option Z :=
  match int32_values parts ≫= (.!! i), int64_values parts ≫= (.!! i) with
  | Some (Some p), _ => Some p
  | _, Some (Some p) => Some p
  | _, _ => None
  end.
Definition update_partition (now : Z) (p e : Z) (per_part : PerPartState) : PerPartState :=
  <[p := (match per_part !! p with Some (m, _) => Z.max m e | None => e end, now)]> per_part.
Definition update_per_partition (batch : RecordBatch) (et_idx part_idx : nat) (per_part : PerPartState)
    (now : Z) : Run PerPartState :=
  et ← column batch et_idx;
  match as_timestamp_micros et with
  | None => Returns per_part
  | Some et =>
      parts ← column batch part_idx;
      Returns (foldl (λ per_part i,
        match et !! i with
        | Some (Some e) =>
            match partition_of parts i with
            | Some p => update_partition now p e per_part
            | None => per_part
            end
        | _ => per_part
        end) per_part (seq 0 (batch_num_rows batch)))
  end.
Definition active_partition_watermark (per_part : PerPartState) (start now : Z) : option Z :=
  if bool_decide (per_part = ∅) then None
  else if (duration_since now start <? idle_timeout)%Z then None
  else list_min_z (fst <$> filter (λ x, duration_since now x.2 < idle_timeout)%Z (snd <$> map_to_list per_part)).

Record WmState := MkWmState {
  ws_max_ts : option Z;
  ws_per_part : PerPartState;
  ws_last_wm : option Z;
  ws_start : Z;
  ws_last_emit : option Z
}.
Definition wm_init (start : Z) : WmState := MkWmState None ∅ None start None.
(** The watermark of a candidate, when it is above the last one; [emit] is the instant that
    is noted. *)
Definition advance (x : WatermarkExec) (emit : option Z) (st : WmState) (candidate : option Z)
    : list Item * WmState :=
  match candidate with
  | None => ([], st)
  | Some m =>
      let wm := wrap_i64 (m - wx_delay_micros x) in
      if match ws_last_wm st with Some l => (l <? wm)%Z | None => true end then
        (match dt_from_timestamp_micros wm with
         | Some ts => [Ok (FlowMark (Watermark "watermark" ts))]
         | None => []
         end,
         MkWmState (ws_max_ts st) (ws_per_part st) (Some wm) (ws_start st)
           (match emit with Some now => Some now | None => ws_last_emit st end))
      else ([], st)
  end.

Inductive WmPoll :=
| PollTick (now : Z)
| PollItem (seen now : Z) (item : Item).
(** The candidate of a batch of data, and the state with its event times. *)
Definition wm_data (x : WatermarkExec) (st : WmState) (seen : Z) (batch : RecordBatch)
    : Run (option Z * WmState) :=
  match event_time_idx x, part_idx x with
  | Some et_i, Some p_i =>
      per_part ← update_per_partition batch et_i p_i (ws_per_part st) seen;
      Returns (active_partition_watermark per_part (ws_start st) seen,
        MkWmState (ws_max_ts st) per_part (ws_last_wm st) (ws_start st) (ws_last_emit st))
  | Some et_i, None =>
      col ← column batch et_i;
      let max_ts :=
        match as_timestamp_micros col ≫= λ l, list_max_z (omap id l) with
        | Some m => Some (match ws_max_ts st with Some c => Z.max c m | None => m end)
        | None => ws_max_ts st
        end in
      Returns (max_ts, MkWmState max_ts (ws_per_part st) (ws_last_wm st) (ws_start st) (ws_last_emit st))
  | None, _ => Returns (None, st)
  end.
Definition is_status_transition (e : FlowEvent) : bool :=
  match e with FlowMark (Idle _) | FlowMark EndOfData => true | _ => false end.
Definition wm_step (x : WatermarkExec) (st : WmState) (poll : WmPoll) : Run (list Item * WmState) :=
  match poll with
  | PollTick now =>
      match part_idx x with
      | None => Returns ([], st)
      | Some _ =>
          Returns (advance x None st (active_partition_watermark (ws_per_part st) (ws_start st) now))
      end
  | PollItem seen now item =>
      match item with
      | Err e => Returns ([Err e], st)
      | Ok (FlowData batch retracted) =>
          r ← wm_data x st seen batch;
          let '(candidate, st) := r in
          let due :=
            match ws_last_emit st with
            | Some le => (wx_watermark_interval x <=? duration_since now le)%Z
            | None => true
            end in
          let '(marks, st) := if due then advance x (Some now) st candidate else ([], st) in
          Returns (Ok (FlowData batch retracted) :: marks, st)
      | Ok other =>
          let '(marks, st) :=
            if is_status_transition other then
              advance x (Some now) st
                (match part_idx x with
                 | Some _ => list_max_z (fst <$> (snd <$> map_to_list (ws_per_part st)))
                 | None => ws_max_ts st
                 end)
            else ([], st) in
          Returns (marks ++ [Ok other], st)
      end
  end.
Fixpoint wm_run (x : WatermarkExec) (st : WmState) (polls : list WmPoll) : Run (list Item * WmState) :=
  match polls with
  | [] => Returns ([], st)
  | p :: polls =>
      r ← wm_step x st p;
      let '(out, st) := r in
      r ← wm_run x st polls;
      let '(out', st) := r in
      Returns (out ++ out', st)
  end.
End Operators.

(** ** What a limit yields *)
Section LimitTheorems.
Context `{E : FlowEngine}.
Notation Item := (FlowResult FlowEvent).
Context {R : Type} (row_at : RecordBatch → nat → R).
Context (row_at_slice : ∀ b off len i, i < len → off + len ≤ batch_num_rows b →
  row_at (batch_slice b off len) i = row_at b (off + i)).

(** The rows of an item, with their retractions. *)
Definition item_rows (x : Item) : list (R * option bool) :=
  match x with
  | Ok (FlowData b r) => (λ i, (row_at b i, r !! i)) <$> seq 0 (batch_num_rows b)
  | _ => []
  end.
#[local] Arguments item_rows : simpl never.
Definition items_rows (l : list Item) : list (R * option bool) := l ≫= item_rows.
Definition not_data (x : Item) : bool := match x with Ok (FlowData _ _) => false | _ => true end.
Definition limit_rows (st : StreamLimitState) (l : list (R * option bool)) : list (R * option bool) :=
  let l := drop (sl_skip st) l in
  match sl_fetch st with Some n => take n l | None => l end.

Lemma item_rows_length b r : length (item_rows (Ok (FlowData b r))) = batch_num_rows b.
Proof. unfold item_rows. by rewrite length_fmap, length_seq. Qed.
Lemma item_rows_slice b r off len :
  off + len ≤ batch_num_rows b →
  item_rows (Ok (FlowData (batch_slice b off len) (take len (drop off r)))) =
  take len (drop off (item_rows (Ok (FlowData b r)))).
Proof.
  intros Hle. apply list_eq. intros i. unfold item_rows. cbn [batch_num_rows batch_slice].
  rewrite list_lookup_fmap. destruct (decide (i < len)) as [Hi|Hi].
  - rewrite lookup_seq_lt by done. rewrite lookup_take_lt, lookup_drop, list_lookup_fmap by done.
    rewrite lookup_seq_lt by lia. cbn [fmap option_fmap option_map].
    rewrite lookup_take_lt, lookup_drop by done. cbn. f_equal. f_equal. by apply row_at_slice.
  - rewrite lookup_seq_ge by lia. by rewrite lookup_take_ge by lia.
Qed.

(** Without rows to skip. *)
Lemma fetch_rows fetch b r rest :
  match fetch_batch (MkStreamLimitState 0 fetch) b r with
  | (Some (b', r'), st') =>
      limit_rows (MkStreamLimitState 0 fetch) (item_rows (Ok (FlowData b r)) ++ rest) =
      item_rows (Ok (FlowData b' r')) ++ limit_rows st' rest
  | (None, _) =>
      limit_rows (MkStreamLimitState 0 fetch) (item_rows (Ok (FlowData b r)) ++ rest) = [] ∧ is_Some fetch
  end.
Proof.
  pose proof (item_rows_length b r) as Hlen.
  unfold fetch_batch, limit_rows. destruct fetch as [n|]; cbn [sl_skip sl_fetch]; [|done].
  destruct (Nat.leb_spec (batch_num_rows b) n) as [Hle|Hgt]; cbn [sl_skip sl_fetch].
  - rewrite !drop_0. by rewrite take_app_ge, Hlen by lia.
  - destruct (Nat.ltb_spec 0 n) as [Hpos|Hz]; cbn [sl_skip sl_fetch].
    + pose proof (item_rows_slice b r 0 n ltac:(lia)) as Hsl. rewrite !drop_0 in Hsl. rewrite Hsl, !drop_0.
      rewrite take_app_le by lia. by rewrite take_0, app_nil_r.
    + assert (n = 0) as -> by lia. by rewrite take_0.
Qed.
Lemma limit_rows_app st b r rest :
  match limit_step st (Ok (FlowData b r)) with
  | Some (y, st') =>
      limit_rows st (item_rows (Ok (FlowData b r)) ++ rest) =
      items_rows (option_list y) ++ limit_rows st' rest ∧ (∀ z, y = Some z → not_data z = false)
  | None => limit_rows st (item_rows (Ok (FlowData b r)) ++ rest) = [] ∧ is_Some (sl_fetch st)
  end.
Proof.
  destruct st as [skip fetch]. unfold limit_step, skip_batch_if_needed. cbn [sl_skip sl_fetch].
  pose proof (item_rows_length b r) as Hlen.
  destruct (Nat.eqb_spec skip 0) as [->|Hs]; [|destruct (Nat.leb_spec (batch_num_rows b) skip) as [Hle|Hgt]].
  - pose proof (fetch_rows fetch b r rest) as Hfetch.
    destruct (fetch_batch _ b r) as [[[b' r']|] st']; [|done].
    split; [cbn; by rewrite app_nil_r|by intros z [= <-]].
  - cbn. split; [|done]. unfold limit_rows. cbn [sl_skip sl_fetch]. rewrite drop_app_ge by lia.
    by rewrite Hlen.
  - set (b1 := batch_slice b skip (batch_num_rows b - skip)).
    set (r1 := take (batch_num_rows b - skip) (drop skip r)).
    assert (limit_rows (MkStreamLimitState skip fetch) (item_rows (Ok (FlowData b r)) ++ rest) =
      limit_rows (MkStreamLimitState 0 fetch) (item_rows (Ok (FlowData b1 r1)) ++ rest)) as ->.
    { unfold b1, r1. rewrite item_rows_slice by lia. rewrite take_ge by (rewrite length_drop, Hlen; lia).
      unfold limit_rows. cbn [sl_skip sl_fetch]. by rewrite drop_0, drop_app_le by lia. }
    pose proof (fetch_rows fetch b1 r1 rest) as Hfetch.
    destruct (fetch_batch _ b1 r1) as [[[b' r']|] st']; [|done].
    split; [cbn; by rewrite app_nil_r|by intros z [= <-]].
Qed.

(** A limit yields the rows of its input after the skipped ones, up to the number it
    fetches, in order and with their retractions; it passes markers and errors on in order, all
    of them when it fetches everything. *)
Theorem limit_takes_rows skip fetch input :
  let out := limit_run (MkStreamLimitState skip fetch) input in
  items_rows out = limit_rows (MkStreamLimitState skip fetch) (items_rows input) ∧
  filter (λ x, not_data x = true) out `prefix_of` filter (λ x, not_data x = true) input ∧
  (fetch = None → filter (λ x, not_data x = true) out = filter (λ x, not_data x = true) input).
Proof.
  intros out. unfold out. clear out.
  enough (∀ st, items_rows (limit_run st input) = limit_rows st (items_rows input) ∧
    filter (λ x, not_data x = true) (limit_run st input) `prefix_of` filter (λ x, not_data x = true) input ∧
    (sl_fetch st = None →
      filter (λ x, not_data x = true) (limit_run st input) = filter (λ x, not_data x = true) input)) as H.
  { apply H. }
  induction input as [|x input IH]; intros st.
  { split_and!; [|done|done]. unfold limit_rows. cbn. rewrite drop_nil. destruct (sl_fetch st); [|done].
    by rewrite take_nil. }
  cbn [limit_run]. change (items_rows (x :: input)) with (item_rows x ++ items_rows input).
  destruct x as [[b r|m]|e].
  - pose proof (limit_rows_app st b r (items_rows input)) as Happ.
    assert (∀ y st', limit_step st (Ok (FlowData b r)) = Some (y, st') → sl_fetch st = None → sl_fetch st' = None)
      as Hnone.
    { intros y st'. unfold limit_step, skip_batch_if_needed, fetch_batch.
      repeat case_match; naive_solver. }
    destruct (limit_step st (Ok (FlowData b r))) as [[y st']|].
    + destruct (IH st') as (IH1 & IH2 & IH3). destruct Happ as [-> Hy].
      rewrite <-IH1. unfold items_rows. rewrite bind_app.
      assert (filter (λ x, not_data x = true) (option_list y) = []) as Hfil.
      { destruct y as [z|]; [|done]. cbn. specialize (Hy z eq_refl). rewrite decide_False by congruence. done. }
      rewrite filter_app, Hfil. cbn [app]. split_and!; [done| |].
      * by rewrite filter_cons_False by done.
      * intros Hf. rewrite filter_cons_False by done. eauto.
    + destruct Happ as [-> [n Hn]]. split_and!; [done|apply prefix_nil|congruence].
  - cbn [limit_step]. match goal with |- context [option_list (Some ?x) ++ ?l] => change (option_list (Some x) ++ l) with (x :: l) end.
    destruct (IH st) as (IH1 & IH2 & IH3).
    rewrite !filter_cons_True by done.
    split_and!; [exact IH1|by apply prefix_cons|]. intros Hf. f_equal. by apply IH3.
  - cbn [limit_step]. match goal with |- context [option_list (Some ?x) ++ ?l] => change (option_list (Some x) ++ l) with (x :: l) end.
    destruct (IH st) as (IH1 & IH2 & IH3).
    rewrite !filter_cons_True by done.
    split_and!; [exact IH1|by apply prefix_cons|]. intros Hf. f_equal. by apply IH3.
Qed.
End LimitTheorems.

(** ** What a collection holds *)
Section CollectTheorems.
Context `{E : FlowEngine} `{FC : !FlowColumns E}.
Notation Item := (FlowResult FlowEvent).
Context (conv : RowConverter) (rows : RecordBatch → list OwnedRow).

(** A change: the row, whether it is retracted, and a batch of it alone. *)
Notation Change := (OwnedRow * bool * RecordBatch)%type.
Definition item_changes (x : Item) : list Change :=
  match x with
  | Ok (FlowData b r) =>
      if (batch_num_rows b =? 0)%nat then []
      else imap (λ i '(k, ret), (k, ret, batch_slice b i 1)) (zip (rows b) r)
  | _ => []
  end.
Definition changes (l : list Item) : list Change := l ≫= item_changes.
(** The rows of a batch are read by the one converter of the schema. *)
Definition readable (x : Item) : Prop :=
  match x with
  | Ok (FlowData b r) => batch_num_rows b ≠ 0 →
      row_converter_new (batch_columns b) = Ok conv ∧ convert_columns conv (batch_columns b) = Ok (rows b) ∧
      length (rows b) = batch_num_rows b ∧ length r = batch_num_rows b
  | Ok (FlowMark _) => True
  | Err _ => False
  end.

(** Insertions less retractions. *)
Fixpoint net (k : OwnedRow) (l : list Change) : Z :=
  match l with
  | [] => 0
  | (k', ret, _) :: l => (if decide (k' = k) then if (ret : bool) then -1 else 1 else 0) + net k l
  end.
(** The rows in the order they first appear, each with its first batch. *)
Definition first_seen (l : list Change) : list (OwnedRow * RecordBatch) :=
  foldl (λ acc '(k, _, row), if decide (k ∈ acc.*1) then acc else acc ++ [(k, row)]) [] l.

Definition collect_change (c : Collector) (x : Change) : Collector :=
  let '(k, ret, row) := x in
  let delta := if (ret : bool) then (-1)%Z else 1%Z in
  match cl_table c !! k with
  | Some (n, row) => MkCollector (<[k := (wrap_i64 (n + delta), row)]> (cl_table c)) (cl_order c) (cl_converter c)
  | None => MkCollector (<[k := (delta, row)]> (cl_table c)) (cl_order c ++ [k]) (cl_converter c)
  end.

Lemma net_app k l l' : net k (l ++ l') = (net k l + net k l')%Z.
Proof. induction l as [|[[k' ret] row] l IH]; cbn; [done|]. rewrite IH. lia. Qed.
Lemma net_bound k l : (- Z.of_nat (length l) <= net k l <= Z.of_nat (length l))%Z.
Proof. induction l as [|[[k' ret] row] l IH]; cbn [net length]; [lia|]. repeat case_match; lia. Qed.
Lemma wrap_i64_small z : (- 2 ^ 63 <= z < 2 ^ 63)%Z → wrap_i64 z = z.
Proof. intros H. unfold wrap_i64. rewrite Z.mod_small by lia. lia. Qed.

(** The table after a list of changes. *)
Record collected (l : list Change) (c : Collector) : Prop := {
  cd_order : cl_order c = (first_seen l).*1;
  cd_nodup : NoDup (first_seen l).*1;
  cd_some : ∀ k row, (k, row) ∈ first_seen l → cl_table c !! k = Some (net k l, row);
  cd_none : ∀ k, k ∉ (first_seen l).*1 → cl_table c !! k = None ∧ net k l = 0%Z
}.
Lemma first_seen_snoc l k ret row :
  first_seen (l ++ [(k, ret, row)]) =
  if decide (k ∈ (first_seen l).*1) then first_seen l else first_seen l ++ [(k, row)].
Proof. unfold first_seen at 1. by rewrite foldl_app. Qed.
Lemma collected_step l x c :
  (Z.of_nat (length l) < 2 ^ 63 - 1)%Z → collected l c → collected (l ++ [x]) (collect_change c x).
Proof.
  intros Hlen [Ho Hnd Hs Hn]. destruct x as [[k ret] row].
  set (delta := if ret then (-1)%Z else 1%Z).
  assert (∀ k', net k' (l ++ [(k, ret, row)]) = (net k' l + if decide (k = k') then delta else 0)%Z) as Hnet.
  { intros k'. rewrite net_app. cbn. unfold delta. lia. }
  pose proof (net_bound k l) as Hb. unfold collect_change. fold delta.
  destruct (decide (k ∈ (first_seen l).*1)) as [Hin|Hout].
  - pose proof Hin as ([k1 row1] & Hk1 & Hin1)%list_elem_of_fmap. cbn in Hk1. subst k1.
    rewrite (Hs _ _ Hin1). split; rewrite first_seen_snoc, (decide_True _ _ Hin); cbn; [done|done| |].
    + intros k' row' Hin'. rewrite Hnet. destruct (decide (k = k')) as [<-|Hne].
      * assert (row' = row1) as -> by (pose proof (Hs _ _ Hin'); pose proof (Hs _ _ Hin1); congruence).
        rewrite lookup_insert_eq, wrap_i64_small; [done|]. unfold delta. destruct ret; lia.
      * rewrite lookup_insert_ne by done. rewrite Z.add_0_r. by apply Hs.
    + intros k' Hk'. assert (k ≠ k') as Hne by (by intros ->). rewrite Hnet, decide_False by done.
      rewrite lookup_insert_ne by done. destruct (Hn k' Hk'). split; [done|lia].
  - destruct (Hn k Hout) as [Hnone H0]. rewrite Hnone.
    split; rewrite first_seen_snoc, (decide_False _ _ Hout); cbn; rewrite ?fmap_app.
    + by rewrite Ho.
    + apply NoDup_app. split_and!; [done| |apply NoDup_singleton].
      intros k' Hk' ->%list_elem_of_singleton. done.
    + intros k' row' [Hin'|Hin']%elem_of_app.
      * assert (k ≠ k') as Hne by (intros ->; apply Hout, list_elem_of_fmap; by exists (k', row')).
        rewrite lookup_insert_ne by done. rewrite Hnet, decide_False by done. rewrite Z.add_0_r. by apply Hs.
      * apply list_elem_of_singleton in Hin' as [= -> ->].
        rewrite lookup_insert_eq, Hnet, decide_True by done. by rewrite H0.
    + intros k' Hk'. rewrite elem_of_app in Hk'.
      assert (k ≠ k') as Hne by (intros ->; apply Hk'; right; set_solver).
      rewrite lookup_insert_ne by done. rewrite Hnet, decide_False by done.
      destruct (Hn k') as [? ?]; [tauto|]. split; [done|lia].
Qed.
Lemma collected_foldl l l' c :
  (Z.of_nat (length (l ++ l')) < 2 ^ 63)%Z → collected l c → collected (l ++ l') (foldl collect_change c l').
Proof.
  revert l c. induction l' as [|x l' IH]; intros l c Hlen Hc; [by rewrite app_nil_r|].
  cbn [foldl]. replace (l ++ x :: l') with ((l ++ [x]) ++ l') by (by rewrite <-app_assoc).
  rewrite length_app in Hlen. cbn in Hlen. apply IH; [rewrite !length_app; cbn; lia|].
  apply collected_step; [lia|done].
Qed.
Lemma collected_survivors l c :
  collected l c → survivors c = first_seen l ≫= λ '(k, row), replicate (Z.to_nat (net k l)) row.
Proof.
  intros [Ho Hnd Hs _]. unfold survivors. rewrite Ho.
  assert (∀ fs, (∀ x, x ∈ fs → x ∈ first_seen l) → (fs.*1 ≫= λ key,
    match cl_table c !! key with
    | Some (count, row) => replicate (Z.to_nat (Z.max count 0)) row
    | None => []
    end) = fs ≫= λ '(k, row), replicate (Z.to_nat (net k l)) row) as H; [|by apply H].
  induction fs as [|[k row] fs IH]; intros Hfs; [done|]. cbn. rewrite (Hs k row) by (apply Hfs; set_solver).
  rewrite IH by set_solver. f_equal. f_equal. lia.
Qed.

(** A run over the input applies its changes. *)
Lemma collect_loop b r n j c :
  j + n = batch_num_rows b → length (rows b) = batch_num_rows b → length r = batch_num_rows b →
  for_each (λ c i, key ← vec_index (rows b) i; retract ← vec_index r i;
    Returns (collect_row c b i key retract)) c (seq j n) =
  Returns (foldl collect_change c
    (imap (λ i '(k, ret), (k, ret, batch_slice b (j + i) 1)) (zip (drop j (rows b)) (drop j r)))).
Proof.
  intros Hj Hk Hr. revert j c Hj. induction n as [|n IH]; intros j c Hj.
  { by rewrite drop_ge by lia. }
  destruct (lookup_lt_is_Some_2 (rows b) j) as [k Hkj]; [lia|].
  destruct (lookup_lt_is_Some_2 r j) as [ret Hrj]; [lia|].
  rewrite (drop_S _ _ _ Hkj), (drop_S _ _ _ Hrj). cbn [seq for_each zip zip_with imap foldl].
  rewrite (proj2 (vec_index_returns _ _ _) Hkj), (proj2 (vec_index_returns _ _ _) Hrj). cbn [mbind Run_bind].
  rewrite IH by lia. rewrite Nat.add_0_r. f_equal.
  replace (collect_row c b j k ret) with (collect_change c (k, ret, batch_slice b j 1)).
  - f_equal. apply imap_ext. intros i [k' ret'] _. cbn. by rewrite Nat.add_succ_r.
  - unfold collect_change, collect_row. by destruct (cl_table c !! k) as [[? ?]|].
Qed.
Definition with_conv (c : Collector) (o : option RowConverter) : Collector :=
  MkCollector (cl_table c) (cl_order c) o.
Lemma collected_conv l c o : collected l c → collected l (with_conv c o).
Proof. intros []. by split. Qed.
Lemma converter_foldl l c : cl_converter (foldl collect_change c l) = cl_converter c.
Proof.
  revert c. induction l as [|[[k ret] row] l IH]; intros c; [done|]. cbn [foldl]. rewrite IH.
  unfold collect_change. by destruct (cl_table c !! k) as [[? ?]|].
Qed.

Lemma collect_all_ok input l c :
  Forall readable input → collected l c → (cl_converter c = None ∨ cl_converter c = Some conv) →
  (Z.of_nat (length (l ++ changes input)) < 2 ^ 63)%Z →
  ∃ c', collect_all c input = Returns (Ok c') ∧ collected (l ++ changes input) c'.
Proof.
  intros Hread. revert l c. induction Hread as [|x input Hx _ IH]; intros l c Hc Hconv Hlen.
  { exists c. by rewrite app_nil_r. }
  change (changes (x :: input)) with (item_changes x ++ changes input) in *.
  destruct x as [[b r|m]|e]; [|by apply IH|done]. cbn [collect_all].
  rewrite app_assoc in *. unfold collect_data. cbn [item_changes readable] in *.
  destruct (Nat.eqb_spec (batch_num_rows b) 0) as [H0|H0].
  { rewrite app_nil_r in *. by apply IH. }
  destruct (Hx H0) as (Hnew & Hcc & Hk & Hr).
  assert (match cl_converter c with Some conv => Ok conv | None => row_converter_new (batch_columns b) end = Ok conv)
    as -> by (by destruct Hconv as [-> | ->]).
  rewrite Hcc, collect_loop by done. rewrite !drop_0. cbn [mbind Run_bind Nat.add].
  apply IH; [|right; apply converter_foldl|done].
  apply collected_foldl; [rewrite length_app in Hlen; lia|]. by apply collected_conv.
Qed.

(** C26. The collector turns a changelog into the table it describes: every row is in the
    output as many times as it was inserted and not retracted, in the order in which rows first
    appear. *)
Theorem collector_nets_changes input :
  Forall readable input → (Z.of_nat (length (changes input)) < 2 ^ 63)%Z →
  ∃ c, collect_all collector_new input = Returns (Ok c) ∧
    survivors c = first_seen (changes input) ≫= λ '(k, row), replicate (Z.to_nat (net k (changes input))) row.
Proof.
  intros Hread Hlen. destruct (collect_all_ok input [] collector_new) as (c & Hc & Hcol); [done| |by left|done|].
  - split; [done|constructor|set_solver|]. intros k _. split; [apply lookup_empty|done].
  - exists c. split; [done|]. by apply collected_survivors.
Qed.
End CollectTheorems.

(** ** What deduplication yields *)
Section DedupTheorems.
Context `{E : FlowEngine} `{FC : !FlowColumns E}.
Notation Item := (FlowResult FlowEvent).
Notation Key := (list ScalarValue).
Context (key_indices : list nat) (event_time_idx : option nat).
(** The event time and the key of every row. *)
Context (view : RecordBatch → list (option Z * Key)).

Fixpoint kept {A} (keep : list bool) (l : list A) : list A :=
  match keep, l with
  | b :: keep, x :: l => if (b : bool) then x :: kept keep l else kept keep l
  | _, _ => []
  end.
Definition dedup_readable (x : Item) : Prop :=
  match x with
  | Ok (FlowData b _) =>
      length (view b) = batch_num_rows b ∧
      (∀ i et k, view b !! i = Some (et, k) →
        row_event_time b event_time_idx i = Returns (Ok et) ∧ row_key b key_indices i = Returns (Ok k)) ∧
      ∀ keep, length keep = batch_num_rows b → ∃ b', filter_batch b keep = Ok b' ∧
        view b' = kept keep (view b) ∧ batch_num_rows b' = length (view b')
  | _ => True
  end.

(** The rows of a batch, without the columns they are read from. *)
Fixpoint dedup_rows (wm : option Z) (seen : gmap Key Z) (l : list (option Z * Key)) : list bool * gmap Key Z :=
  match l with
  | [] => ([], seen)
  | (et, k) :: l =>
      let '(b, seen) := if is_late wm et then (false, seen) else keep_row seen et k in
      let '(keep, seen) := dedup_rows wm seen l in
      (b :: keep, seen)
  end.
Lemma filter_rows_ok b wm n j seen keep :
  (∀ i et k, view b !! i = Some (et, k) →
    row_event_time b event_time_idx i = Returns (Ok et) ∧ row_key b key_indices i = Returns (Ok k)) →
  j + n = length (view b) →
  filter_rows b key_indices event_time_idx wm seen keep (seq j n) =
  Returns (Ok (keep ++ (dedup_rows wm seen (drop j (view b))).1), (dedup_rows wm seen (drop j (view b))).2).
Proof.
  intros Hv. revert j seen keep. induction n as [|n IH]; intros j seen keep Hj.
  { rewrite drop_ge by lia. cbn. by rewrite app_nil_r. }
  destruct (lookup_lt_is_Some_2 (view b) j) as [[et k] Hx]; [lia|].
  rewrite (drop_S _ _ _ Hx). cbn [seq filter_rows dedup_rows]. destruct (Hv j et k Hx) as [-> ->].
  cbn [mbind Run_bind]. destruct (is_late wm et).
  - rewrite IH by lia. destruct (dedup_rows wm seen (drop (S j) (view b))). cbn. by rewrite <-app_assoc.
  - destruct (keep_row seen et k) as [bk seen']. rewrite IH by lia.
    destruct (dedup_rows wm seen' (drop (S j) (view b))). cbn. by rewrite <-app_assoc.
Qed.
Lemma dedup_rows_length wm seen l : length (dedup_rows wm seen l).1 = length l.
Proof.
  revert seen. induction l as [|[et k] l IH]; intros seen; [done|]. cbn.
  destruct (if is_late wm et then _ else _) as [b seen']. specialize (IH seen').
  destruct (dedup_rows wm seen' l). cbn in *. by rewrite IH.
Qed.

(** An entry for a row that was let through. *)
Definition covers (wm : option Z) (et : option Z) (e : Z) : Prop :=
  ∀ x, et = Some x → (x <= e)%Z ∧ ∀ w, wm = Some w → (w <= e)%Z.
Lemma covers_mono wm et e e' : covers wm et e → (e <= e')%Z → covers wm et e'.
Proof. intros H Hle x Hx. destruct (H x Hx) as [H1 H2]. split; [lia|]. intros w Hw. specialize (H2 w Hw). lia. Qed.

Lemma keep_row_spec seen et k bk seen' wm :
  keep_row seen et k = (bk, seen') → is_late wm et = false →
  (∀ k' e, seen !! k' = Some e → ∃ e', seen' !! k' = Some e' ∧ (e <= e')%Z) ∧
  (∀ k', seen' !! k' = None ↔ seen !! k' = None ∧ k' ≠ k) ∧
  (bk = true ↔ seen !! k = None) ∧
  (bk = true → ∃ e, seen' !! k = Some e ∧ covers wm et e).
Proof.
  intros Hk Hlate. unfold keep_row in Hk.
  assert (∀ k' (v : Z), (<[k := v]> seen !! k' : option Z) = None ↔ seen !! k' = None ∧ k' ≠ k) as Hn.
  { intros k' v. rewrite lookup_insert_None. naive_solver. }
  destruct (seen !! k) as [slot|] eqn:Hs; simplify_eq; split_and!; try done; try apply Hn.
  - intros k' e Hk'. destruct (decide (k' = k)) as [->|Hne].
    + rewrite lookup_insert_eq. simplify_eq. eexists. split; [done|]. lia.
    + rewrite lookup_insert_ne by done. eauto with lia.
  - intros k' e Hk'. assert (k' ≠ k) by congruence. rewrite lookup_insert_ne by done. eauto with lia.
  - intros _. rewrite lookup_insert_eq. eexists. split; [done|]. intros x ->. cbn. split; [lia|].
    intros w ->. cbn in Hlate. apply Z.ltb_ge in Hlate. lia.
Qed.

Lemma dedup_rows_spec wm seen l keep seen' :
  dedup_rows wm seen l = (keep, seen') →
  (∀ k e, seen !! k = Some e → ∃ e', seen' !! k = Some e' ∧ (e <= e')%Z) ∧
  (∀ et k, (et, k) ∈ kept keep l → seen !! k = None ∧ ∃ e, seen' !! k = Some e ∧ covers wm et e) ∧
  NoDup (kept keep l).*2 ∧
  (∀ et k, (et, k) ∈ l → is_late wm et = true ∨ is_Some (seen' !! k)) ∧
  (∀ k, is_Some (seen' !! k) → is_Some (seen !! k) ∨ k ∈ (kept keep l).*2).
Proof.
  revert seen keep. induction l as [|[et k] l IH]; intros seen keep; cbn [dedup_rows].
  { intros [= <- <-]. split_and!; [eauto with lia|set_solver|constructor|set_solver|auto]. }
  destruct (is_late wm et) eqn:Hlate.
  - destruct (dedup_rows wm seen l) as [keep1 seen1] eqn:Hd. intros [= <- <-].
    destruct (IH _ _ Hd) as (H1 & H2 & H3 & H4 & H5). cbn [kept]. split_and!; [done..| |done].
    intros et' k' [[= -> ->]|Hin]%elem_of_cons; eauto.
  - destruct (keep_row seen et k) as [bk seen0] eqn:Hk.
    destruct (dedup_rows wm seen0 l) as [keep1 seen1] eqn:Hd. intros [= <- <-].
    destruct (IH _ _ Hd) as (H1 & H2 & H3 & H4 & H5).
    destruct (keep_row_spec _ _ _ _ _ wm Hk Hlate) as (K1 & K2 & K3 & K4).
    assert (∀ k', is_Some (seen0 !! k') ↔ is_Some (seen !! k') ∨ k' = k) as K2'.
    { intros k'. specialize (K2 k'). rewrite <-!not_eq_None_Some.
      destruct (decide (k' = k)); destruct (decide (seen !! k' = None)); tauto. }
    assert (∀ et' k', (et', k') ∈ kept keep1 l → k' ≠ k ∧ seen !! k' = None) as Hfresh.
    { intros et' k' Hin. destruct (H2 _ _ Hin) as [Hnone _]. apply K2 in Hnone. tauto. }
    split_and!.
    + intros k' e Hk'. destruct (K1 k' e Hk') as (e1 & He1 & Hle1). destruct (H1 k' e1 He1) as (e2 & ? & ?).
      exists e2. split; [done|lia].
    + intros et' k' Hin. destruct bk; cbn [kept] in Hin.
      * apply elem_of_cons in Hin as [[= -> ->]|Hin].
        -- split; [by apply K3|]. destruct (K4 eq_refl) as (e & He & Hc).
           destruct (H1 k e He) as (e2 & He2 & Hle). exists e2. split; [done|]. by eapply covers_mono.
        -- split; [by eapply Hfresh|]. by apply H2.
      * split; [by eapply Hfresh|]. by apply H2.
    + destruct bk; cbn [kept]; [|done]. rewrite fmap_cons. constructor; [|done].
      intros ([et' k'] & Heq & Hin)%list_elem_of_fmap. cbn in Heq. subst. by destruct (Hfresh _ _ Hin).
    + intros et' k' [[= -> ->]|Hin]%elem_of_cons; [|eauto]. right.
      assert (is_Some (seen0 !! k)) as [e He] by (apply K2'; by right).
      destruct (H1 k e He) as (e' & He' & _). eauto.
    + intros k' Hk'. destruct (H5 k' Hk') as [Hs|Hin].
      * apply K2' in Hs as [Hs| ->]; [by left|]. destruct (seen !! k) eqn:Hsk; [left; eauto|].
        right. assert (bk = true) as -> by (by apply K3). cbn [kept]. rewrite fmap_cons. by left.
      * right. destruct bk; cbn [kept]; [rewrite fmap_cons; by right|done].
Qed.

Lemma snoc_split {A} (out o1 o2 : list A) z d :
  out ++ [z] = o1 ++ d :: o2 → (o2 = [] ∧ d = z ∧ o1 = out) ∨ ∃ o2', o2 = o2' ++ [z] ∧ out = o1 ++ d :: o2'.
Proof.
  destruct o2 as [|y o2 _] using rev_ind.
  - intros H. apply app_inj_tail in H as [-> ->]. by left.
  - intros H. right. exists o2. replace (o1 ++ d :: o2 ++ [y]) with ((o1 ++ d :: o2) ++ [y]) in H
      by (by rewrite <-app_assoc). by apply app_inj_tail in H as [-> ->].
Qed.

(** A watermark that lets a row with the key of [et] through again. *)
Definition released (et : option Z) (l : list Item) : Prop :=
  event_time_idx ≠ None ∧
  ∃ source t, Ok (FlowMark (Watermark source t)) ∈ l ∧ ∀ x, et = Some x → (x < dt_timestamp_micros t)%Z.
Lemma released_app et l z : released et l → released et (l ++ [z]).
Proof. intros (He & s & t & Hin & Hx). split; [done|]. exists s, t. set_solver. Qed.

(** A row that comes after a watermark above its event time. *)
Definition overdue (et : option Z) (l : list Item) : Prop :=
  event_time_idx ≠ None ∧
  ∃ source t x, Ok (FlowMark (Watermark source t)) ∈ l ∧ et = Some x ∧ (x < dt_timestamp_micros t)%Z.

Record dedup_inv (input out : list Item) (st : Dedup) : Prop := {
  di_entry : ∀ o1 b r o2 et k, out = o1 ++ Ok (FlowData b r) :: o2 → (et, k) ∈ view b →
    (∃ e, dd_seen st !! k = Some e ∧ covers (dd_watermark st) et e) ∨ released et o2;
  di_once : ∀ o1 b1 r1 o2 b2 r2 o3 et1 et2 k,
    out = o1 ++ Ok (FlowData b1 r1) :: o2 ++ Ok (FlowData b2 r2) :: o3 →
    (et1, k) ∈ view b1 → (et2, k) ∈ view b2 → released et1 o2;
  di_nodup : ∀ b r, Ok (FlowData b r) ∈ out → NoDup (view b).*2;
  di_seen : ∀ k, is_Some (dd_seen st !! k) → ∃ b r et, Ok (FlowData b r) ∈ out ∧ (et, k) ∈ view b;
  di_wm : ∀ w, dd_watermark st = Some w → event_time_idx ≠ None ∧
    ∃ source t, Ok (FlowMark (Watermark source t)) ∈ input ∧ dt_timestamp_micros t = w;
  di_all : ∀ i1 b r i2 et k, input = i1 ++ Ok (FlowData b r) :: i2 → (et, k) ∈ view b →
    (∃ b' r' et', Ok (FlowData b' r') ∈ out ∧ (et', k) ∈ view b') ∨ overdue et i1
}.
Lemma dedup_inv_new : dedup_inv [] [] dedup_new.
Proof.
  split; [by intros []|by intros []|set_solver| |done|by intros []]. intros k. cbn. rewrite lookup_empty. by intros [].
Qed.

(** An item that carries no data; [st'] may have dropped entries. *)
Lemma dedup_inv_pass input out st st' x :
  dedup_inv input out st → (∀ b r, x ≠ Ok (FlowData b r)) →
  (∀ k e, dd_seen st' !! k = Some e → dd_seen st !! k = Some e) →
  (dd_watermark st' = dd_watermark st ∨ event_time_idx ≠ None ∧
    ∃ source t, x = Ok (FlowMark (Watermark source t)) ∧
      (dd_watermark st' = dd_watermark st ∨ dd_watermark st' = Some (dt_timestamp_micros t))) →
  (∀ k e et, dd_seen st !! k = Some e → covers (dd_watermark st) et e →
    (dd_seen st' !! k = Some e ∧ covers (dd_watermark st') et e) ∨ released et [x]) →
  dedup_inv (input ++ [x]) (out ++ [x]) st'.
Proof.
  intros [H1 H2 H3 H4 H5 H6] Hx Hsub Hwm Hentry. split.
  - intros o1 b r o2 et k [(_ & Heq & _)|(o2' & -> & ->)]%snoc_split Hin; [by destruct (Hx b r)|].
    destruct (H1 _ _ _ _ _ _ eq_refl Hin) as [(e & He & Hc)|Hr]; [|right; by apply released_app].
    destruct (Hentry k e et He Hc) as [[? ?]|(Hei & s & t & Ht & Hm)]; [left; eauto|].
    right. split; [done|]. exists s, t. set_solver.
  - intros o1 b1 r1 o2 b2 r2 o3 et1 et2 k Heq. rewrite app_comm_cons, app_assoc in Heq.
    apply snoc_split in Heq as [(_ & Heq & _)|(o3' & -> & Heq)]; [by destruct (Hx b2 r2)|].
    apply (H2 o1 b1 r1 o2 b2 r2 o3'). by rewrite Heq, <-app_assoc.
  - intros b r [Hin|Hin]%elem_of_app; [eauto|]. apply list_elem_of_singleton in Hin. by destruct (Hx b r).
  - intros k [e He]. destruct (H4 k) as (b & r & et & ? & ?); [eauto|]. exists b, r, et. set_solver.
  - intros w Hw. assert (dd_watermark st = Some w → event_time_idx ≠ None ∧
      ∃ source t, Ok (FlowMark (Watermark source t)) ∈ input ++ [x] ∧ dt_timestamp_micros t = w) as Hold.
    { intros (Hi & s & t & Hin & Ht)%H5. split; [done|]. exists s, t. set_solver. }
    destruct Hwm as [Hwm|(Hi & s & t & -> & [Hwm|Hwm])]; rewrite Hwm in Hw; [by apply Hold..|].
    split; [done|]. exists s, t. split; [set_solver|congruence].
  - intros i1 b r i2 et k [(_ & Heq & _)|(i2' & -> & ->)]%snoc_split Hv; [by destruct (Hx b r)|].
    destruct (H6 _ _ _ _ _ _ eq_refl Hv) as [(b' & r' & et' & ? & ?)|?]; [left|by right].
    exists b', r', et'. set_solver.
Qed.
(** A batch: the rows that are kept are yielded when there are any. *)
Lemma dedup_inv_data input out st b r b' keep seen :
  dedup_inv input out st → dedup_rows (dd_watermark st) (dd_seen st) (view b) = (keep, seen) →
  view b' = kept keep (view b) →
  let y := if (length (view b') =? 0)%nat then [] else [Ok (append_only_data b')] in
  dedup_inv (input ++ [Ok (FlowData b r)]) (out ++ y) (MkDedup seen (dd_watermark st)).
Proof.
  intros [H1 H2 H3 H4 H5 H6] Hd Hv y.
  destruct (dedup_rows_spec _ _ _ _ _ Hd) as (D1 & D2 & D3 & D4 & D5). rewrite <-Hv in D2, D3, D5.
  assert (y = [] ∧ view b' = [] ∨ y = [Ok (append_only_data b')]) as Hy.
  { unfold y. destruct (Nat.eqb_spec (length (view b')) 0) as [H0|]; [left|by right].
    by apply nil_length_inv in H0. }
  assert (∀ o1 b1 r1 o2 et k, out = o1 ++ Ok (FlowData b1 r1) :: o2 → (et, k) ∈ view b1 →
    (∃ e, seen !! k = Some e ∧ covers (dd_watermark st) et e) ∨ released et o2) as Hold.
  { intros o1 b1 r1 o2 et k Ho Hin. destruct (H1 _ _ _ _ _ _ Ho Hin) as [(e & He & Hc)|?]; [left|by right].
    destruct (D1 k e He) as (e' & He' & Hle). exists e'. split; [done|]. by eapply covers_mono. }
  assert (∀ k, k ∈ (view b').*2 → ∃ bb rr et, Ok (FlowData bb rr) ∈ out ++ y ∧ (et, k) ∈ view bb) as Hnew.
  { intros k ([et k'] & -> & Hin)%list_elem_of_fmap. destruct Hy as [[_ Hnil]| ->]; [rewrite Hnil in Hin; set_solver|].
    exists b', (replicate (batch_num_rows b') false), et. set_solver. }
  assert (∀ k, is_Some (seen !! k) → ∃ bb rr et, Ok (FlowData bb rr) ∈ out ++ y ∧ (et, k) ∈ view bb) as Hseen.
  { intros k [Hk|Hk]%D5; [|by apply Hnew]. destruct (H4 k Hk) as (bb & rr & et & ? & ?).
    exists bb, rr, et. set_solver. }
  split; cbn [dd_seen dd_watermark].
  - intros o1 b1 r1 o2 et k Ho Hin. destruct Hy as [[-> _]| ->]; [rewrite app_nil_r in Ho; by eapply Hold|].
    apply snoc_split in Ho as [(-> & [= -> _] & _)|(o2' & -> & Ho)]; [left; by apply D2|].
    destruct (Hold _ _ _ _ _ _ Ho Hin) as [?|?]; [by left|right; by apply released_app].
  - intros o1 b1 r1 o2 b2 r2 o3 et1 et2 k Ho Hin1 Hin2.
    destruct Hy as [[-> _]| ->]; [rewrite app_nil_r in Ho; by eapply H2|].
    rewrite app_comm_cons, app_assoc in Ho.
    apply snoc_split in Ho as [(-> & [= -> _] & Ho)|(o3' & -> & Ho)].
    + destruct (D2 _ _ Hin2) as [Hnone _]. destruct (H1 o1 b1 r1 o2 et1 k) as [(e & He & _)|?]; [done..|congruence|done].
    + rewrite <-app_assoc in Ho. by eapply H2.
  - intros bb rr [Hin|Hin]%elem_of_app; [eauto|]. destruct Hy as [[-> _]| ->]; [set_solver|].
    apply list_elem_of_singleton in Hin as [= -> _]. done.
  - apply Hseen.
  - intros w (Hi & s & t & Hin & Ht)%H5. split; [done|]. exists s, t. set_solver.
  - intros i1 bb rr i2 et k [(-> & [= -> ->] & ->)|(i2' & -> & Hi)]%snoc_split Hk.
    + destruct (D4 et k Hk) as [Hl|Hs]; [right|left; by apply Hseen].
      destruct et as [x|]; [|done]. cbn in Hl. destruct (dd_watermark st) as [w|] eqn:Hw; [|done].
      destruct (H5 w eq_refl) as (Hi & s & t & Hin & <-). split; [done|]. exists s, t, x.
      split_and!; [done..|by apply Z.ltb_lt].
    + destruct (H6 _ _ _ _ _ _ Hi Hk) as [(b1 & r1 & et1 & ? & ?)|?]; [left|by right].
      exists b1, r1, et1. set_solver.
Qed.

Lemma dedup_inv_same input out st x :
  dedup_inv input out st → (∀ b r, x ≠ Ok (FlowData b r)) → dedup_inv (input ++ [x]) (out ++ [x]) st.
Proof. intros H Hx. apply (dedup_inv_pass _ _ st); auto. Qed.
Lemma dedup_inv_watermark input out st source t idx :
  event_time_idx = Some idx → dedup_inv input out st →
  let wm := match dd_watermark st with
            | Some c => Z.max c (dt_timestamp_micros t)
            | None => dt_timestamp_micros t
            end in
  dedup_inv (input ++ [Ok (FlowMark (Watermark source t))]) (out ++ [Ok (FlowMark (Watermark source t))])
    (MkDedup (filter (λ x, wm <= x.2)%Z (dd_seen st)) (Some wm)).
Proof.
  intros Hidx H wm. apply (dedup_inv_pass _ _ st); [done|done|..]; cbn [dd_seen dd_watermark].
  - intros k e [He _]%map_lookup_filter_Some. done.
  - right. split; [by rewrite Hidx|]. exists source, t. split; [done|]. unfold wm.
    destruct (dd_watermark st) as [w|]; [|by right].
    destruct (Z.max_spec w (dt_timestamp_micros t)) as [[_ ->]|[_ ->]]; auto.
  - intros k e et He Hc. destruct (decide (wm <= e)%Z) as [Hle|Hgt].
    + left. split; [by apply map_lookup_filter_Some|]. intros x Hx. destruct (Hc x Hx) as [Hxe _].
      split; [done|]. by intros w [= <-].
    + right. split; [by rewrite Hidx|]. exists source, t. split; [set_solver|]. intros x Hx.
      destruct (Hc x Hx) as [Hxe Hw]. unfold wm in Hgt. destruct (dd_watermark st) as [w|]; [|lia].
      specialize (Hw w eq_refl). lia.
Qed.
Lemma dedup_step_ok st x input out :
  dedup_readable x → dedup_inv input out st →
  ∃ y st', dedup_step key_indices event_time_idx st x = Returns (y, st') ∧
    dedup_inv (input ++ [x]) (out ++ option_list y) st'.
Proof.
  intros Hx Hi. destruct x as [[b r|m]|e]; cbn [dedup_step].
  - destruct Hx as (Hlen & Hv & Hfilter). unfold filter_new_rows.
    rewrite (filter_rows_ok b (dd_watermark st) (batch_num_rows b) 0) by (done || lia).
    rewrite drop_0. pose proof (dedup_rows_length (dd_watermark st) (dd_seen st) (view b)) as Hkl.
    destruct (dedup_rows (dd_watermark st) (dd_seen st) (view b)) as [keep seen] eqn:Hd. cbn in Hkl.
    destruct (Hfilter keep) as (b' & Hb' & Hvb & Hn); [congruence|].
    cbn. rewrite Hb', Hn. eexists _, _. split; [done|].
    pose proof (dedup_inv_data _ _ _ b r b' keep seen Hi Hd Hvb) as Hdata. cbn zeta in Hdata.
    by destruct (length (view b') =? 0)%nat.
  - destruct m as [s i t|s t|i| |s]; try (eexists _, _; split; [done|by apply dedup_inv_same]).
    destruct event_time_idx as [idx|] eqn:Hidx.
    + eexists _, _. split; [done|]. by eapply dedup_inv_watermark.
    + eexists _, _. split; [done|]. by apply dedup_inv_same.
  - eexists _, _. split; [done|]. by apply dedup_inv_same.
Qed.
Lemma dedup_run_ok input2 : ∀ st input out,
  Forall dedup_readable input2 → dedup_inv input out st →
  ∃ out2 st', dedup_run key_indices event_time_idx st input2 = Returns (out2, st') ∧
    dedup_inv (input ++ input2) (out ++ out2) st'.
Proof.
  induction input2 as [|x input2 IH]; intros st input out Hr Hi.
  { eexists _, _. split; [done|]. by rewrite !app_nil_r. }
  apply Forall_cons in Hr as [Hx Hr]. destruct (dedup_step_ok _ _ _ _ Hx Hi) as (y & st1 & Hs & Hi1).
  destruct (IH _ _ _ Hr Hi1) as (out2 & st' & Hrun & Hi2). cbn [dedup_run]. rewrite Hs. cbn [mbind Run_bind].
  rewrite Hrun. eexists _, _. split; [done|]. by rewrite <-!app_assoc in Hi2.
Qed.

(** C25. Deduplication lets a key through again only after a watermark above the event time
    of the row it let through (and never without an event-time column); it yields no key twice in
    a batch, and loses none: every row's key is in the output unless a watermark above
    its event time comes before it. *)
Theorem dedup_once_per_watermark input :
  Forall dedup_readable input →
  ∃ out st, dedup_run key_indices event_time_idx dedup_new input = Returns (out, st) ∧
    (∀ o1 b1 r1 o2 b2 r2 o3 et1 et2 k,
      out = o1 ++ Ok (FlowData b1 r1) :: o2 ++ Ok (FlowData b2 r2) :: o3 →
      (et1, k) ∈ view b1 → (et2, k) ∈ view b2 → released et1 o2) ∧
    (∀ b r, Ok (FlowData b r) ∈ out → NoDup (view b).*2) ∧
    (∀ i1 b r i2 et k, input = i1 ++ Ok (FlowData b r) :: i2 → (et, k) ∈ view b →
      (∃ b' r' et', Ok (FlowData b' r') ∈ out ∧ (et', k) ∈ view b') ∨ overdue et i1).
Proof.
  intros Hr. destruct (dedup_run_ok input dedup_new [] [] Hr dedup_inv_new) as (out & st & Hrun & [_ H2 H3 _ _ H6]).
  exists out, st. done.
Qed.
End DedupTheorems.

(** ** What the watermark operator yields *)
Section WatermarkTheorems.
Context `{E : FlowEngine} `{FC : !FlowColumns E}.
Notation Item := (FlowResult FlowEvent).
Context (x : WatermarkExec).

(** The event times of an item. *)
Definition batch_times (b : RecordBatch) : list Z :=
  match event_time_idx x with
  | Some i =>
      match batch_columns b !! i ≫= as_timestamp_micros with Some l => omap id l | None => [] end
  | None => []
  end.
Definition item_times (y : Item) : list Z := match y with Ok (FlowData b _) => batch_times b | _ => [] end.
Definition poll_item (p : WmPoll) : option Item := match p with PollItem _ _ y => Some y | PollTick _ => None end.
Definition conforms (p : WmPoll) : Prop :=
  match p with
  | PollItem _ _ (Ok (FlowData b _)) => length (batch_columns b) = length (wx_data_schema x)
  | _ => True
  end.

(** The output is the input with watermarks put in, each after [k] items. *)
Inductive woven : nat → list Item → list Item → list (Z * nat) → Prop :=
| woven_nil k : woven k [] [] []
| woven_pass k y items out ws : woven (S k) items out ws → woven k (y :: items) (y :: out) ws
| woven_mark k w t items out ws :
    dt_from_timestamp_micros w = Some t → woven k items out ws →
    woven k items (Ok (FlowMark (Watermark "watermark" t)) :: out) ((w, k) :: ws).
Lemma woven_app k i1 o1 w1 i2 o2 w2 :
  woven k i1 o1 w1 → woven (k + length i1) i2 o2 w2 → woven k (i1 ++ i2) (o1 ++ o2) (w1 ++ w2).
Proof.
  induction 1 as [k|k y i o w _ IH|k w t i o ws Ht _ IH]; cbn; intros H2.
  - by rewrite Nat.add_0_r in H2.
  - constructor. apply IH. by rewrite Nat.add_succ_r in H2.
  - constructor; auto.
Qed.

Lemma index_of_lt c schema i : index_of c schema = Some i → i < length schema.
Proof.
  unfold index_of. intros ([j f] & Hf & ->)%fmap_Some. apply list_find_Some in Hf as (Hl & _). by apply lookup_lt_Some in Hl.
Qed.
Lemma list_pick_elem (f : Z → Z → Z) l m :
  (∀ a b, f a b = a ∨ f a b = b) →
  foldl (λ acc x, Some (match acc with Some m => f m x | None => x end)) None l = Some m → m ∈ l.
Proof.
  intros Hf. assert (∀ acc, foldl (λ acc x, Some (match acc with Some m => f m x | None => x end)) acc l = Some m →
    acc = Some m ∨ m ∈ l) as H; [|intros Hl; by destruct (H None Hl)].
  induction l as [|y l IH]; intros acc; cbn; [by left|]. intros [Hy|Hy]%IH; [|right; by right].
  destruct acc as [a|]; injection Hy as <-; [|right; by left].
  destruct (Hf a y) as [-> | ->]; [by left|right; by left].
Qed.
Lemma list_max_elem l m : list_max_z l = Some m → m ∈ l.
Proof. apply list_pick_elem. intros; lia. Qed.
Lemma list_min_elem l m : list_min_z l = Some m → m ∈ l.
Proof. apply list_pick_elem. intros; lia. Qed.

(** The state after the items [done]: its times are times of rows, the watermarks [ws] ascend,
    and each is behind a row before it. *)
Record wm_inv (done : list Item) (ws : list (Z * nat)) (st : WmState) : Prop := {
  wi_max : ∀ m, ws_max_ts st = Some m → m ∈ (done ≫= item_times);
  wi_parts : ∀ p m t, ws_per_part st !! p = Some (m, t) → m ∈ (done ≫= item_times);
  wi_sorted : StronglySorted Z.lt ws.*1;
  wi_last : ∀ w, w ∈ ws.*1 → ∃ l, ws_last_wm st = Some l ∧ (w <= l)%Z;
  wi_origin : ∀ w k, (w, k) ∈ ws →
    k ≤ length done ∧ ∃ m, m ∈ (take k done ≫= item_times) ∧ w = wrap_i64 (m - wx_delay_micros x)
}.
Lemma advance_ok done ws st emit c marks st' :
  wm_inv done ws st → (∀ m, c = Some m → m ∈ (done ≫= item_times)) → advance x emit st c = (marks, st') →
  ∃ ws1, woven (length done) [] marks ws1 ∧ wm_inv done (ws ++ ws1) st'.
Proof.
  intros [H1 H2 H3 H4 H5] Hc. unfold advance. destruct c as [m|].
  2:{ intros [= <- <-]. exists []. rewrite app_nil_r. by split; [constructor|]. }
  set (w := wrap_i64 (m - wx_delay_micros x)).
  destruct (match ws_last_wm st with Some l => (l <? w)%Z | None => true end) eqn:Hgt.
  2:{ intros [= <- <-]. exists []. rewrite app_nil_r. by split; [constructor|]. }
  assert (∀ v, v ∈ ws.*1 → (v < w)%Z) as Hlt.
  { intros v Hv. destruct (H4 v Hv) as (l & Hl & Hle). rewrite Hl in Hgt. apply Z.ltb_lt in Hgt. lia. }
  intros [= <- <-].
  exists (match dt_from_timestamp_micros w with Some _ => [(w, length done)] | None => [] end). split.
  { destruct (dt_from_timestamp_micros w) eqn:Ht; [|constructor]. constructor; [done|constructor]. }
  split; cbn; [done|done|..].
  - destruct (dt_from_timestamp_micros w); [|by rewrite app_nil_r]. rewrite fmap_app. by apply sorted_snoc.
  - intros v Hv. exists w. split; [done|]. rewrite fmap_app in Hv. apply elem_of_app in Hv as [Hv|Hv].
    + specialize (Hlt v Hv). lia.
    + destruct (dt_from_timestamp_micros w); [|set_solver]. cbn in Hv. set_solver by lia.
  - intros v k [Hin|Hin]%elem_of_app; [by apply H5|].
    destruct (dt_from_timestamp_micros w); [|set_solver]. apply list_elem_of_singleton in Hin as [= -> ->].
    split; [done|]. exists m. split; [|done]. rewrite take_ge by done. by apply Hc.
Qed.
Lemma wm_inv_item done ws st y : wm_inv done ws st → wm_inv (done ++ [y]) ws st.
Proof.
  intros [H1 H2 H3 H4 H5]. split; [..|done|done|].
  - intros m Hm. rewrite bind_app. apply elem_of_app. left. auto.
  - intros p m t Hm. rewrite bind_app. apply elem_of_app. left. eauto.
  - intros w k Hin. destruct (H5 w k Hin) as (Hk & m & Hm & Hw). rewrite length_app. split; [cbn; lia|].
    exists m. split; [|done]. by rewrite take_app_le.
Qed.

Lemma update_per_partition_ok done ws st b r et_i p_i now :
  event_time_idx x = Some et_i → part_idx x = Some p_i → length (batch_columns b) = length (wx_data_schema x) →
  wm_inv done ws st →
  ∃ pp, update_per_partition b et_i p_i (ws_per_part st) now = Returns pp ∧
    ∀ p m t, pp !! p = Some (m, t) → m ∈ ((done ++ [Ok (FlowData b r)]) ≫= item_times).
Proof.
  intros Het Hpi Hlen Hi. unfold update_per_partition, column, vec_index.
  destruct (lookup_lt_is_Some_2 (batch_columns b) et_i) as [ec Hec]; [rewrite Hlen; eapply index_of_lt, Het|].
  destruct (lookup_lt_is_Some_2 (batch_columns b) p_i) as [pc Hpc].
  { rewrite Hlen. unfold part_idx in Hpi. destruct (wx_partition_col x) as [c|]; [|done]. eapply index_of_lt, Hpi. }
  rewrite Hec, Hpc. cbn [mbind Run_bind].
  assert (∀ p m t, ws_per_part st !! p = Some (m, t) → m ∈ ((done ++ [Ok (FlowData b r)]) ≫= item_times)) as Hold.
  { intros p m t Hp. rewrite bind_app. apply elem_of_app. left. by eapply wi_parts. }
  destruct (as_timestamp_micros ec) as [l|] eqn:Hl; [|by eexists].
  eexists. split; [done|]. revert Hold. generalize (ws_per_part st) as pp. intros pp Hpp.
  apply (foldl_inv _ (λ pp : gmap Z (Z * Z), ∀ p m t, pp !! p = Some (m, t) → _)); [done|].
  intros pp1 i _ H1. destruct (l !! i) as [[e|]|] eqn:Hli; [|done..].
  destruct (partition_of pc i) as [q|]; [|done].
  assert (e ∈ ((done ++ [Ok (FlowData b r)]) ≫= item_times)) as He.
  { rewrite bind_app. apply elem_of_app. right. cbn. rewrite app_nil_r. unfold batch_times. rewrite Het, Hec. cbn.
    rewrite Hl. apply list_elem_of_omap. exists (Some e). split; [by eapply list_elem_of_lookup_2|done]. }
  intros p m t. unfold update_partition. rewrite lookup_insert_Some. intros [[<- [= <- <-]]|[_ Hp]]; [|eauto].
  destruct (pp1 !! q) as [[m1 t1]|] eqn:Hq; [|done].
  destruct (Z.max_spec m1 e) as [[_ ->]|[_ ->]]; [done|]. by eapply H1.
Qed.
Lemma active_elem pp start now m :
  active_partition_watermark pp start now = Some m → ∃ p t, pp !! p = Some (m, t).
Proof.
  unfold active_partition_watermark. case_bool_decide; [done|]. case_match; [done|].
  intros ([m1 t1] & -> & [_ Hin]%list_elem_of_filter)%list_min_elem%list_elem_of_fmap.
  apply list_elem_of_fmap in Hin as ([p [m2 t2]] & [= -> ->] & Hin). apply elem_of_map_to_list in Hin. by exists p, t2.
Qed.
Lemma wm_data_ok done ws st seen b r :
  length (batch_columns b) = length (wx_data_schema x) → wm_inv done ws st →
  ∃ c st', wm_data x st seen b = Returns (c, st') ∧ wm_inv (done ++ [Ok (FlowData b r)]) ws st' ∧
    ∀ m, c = Some m → m ∈ ((done ++ [Ok (FlowData b r)]) ≫= item_times).
Proof.
  intros Hlen Hi. pose proof (wm_inv_item _ _ _ (Ok (FlowData b r)) Hi) as [H1 H2 H3 H4 H5].
  unfold wm_data. destruct (event_time_idx x) as [et_i|] eqn:Het; [destruct (part_idx x) as [p_i|] eqn:Hpi|].
  - destruct (update_per_partition_ok done ws st b r et_i p_i seen) as (pp & -> & Hpp); [done..|].
    cbn [mbind Run_bind]. eexists _, _. split; [done|]. split; [by split|].
    intros m (p & t & Hp)%active_elem. eauto.
  - unfold column, vec_index.
    destruct (lookup_lt_is_Some_2 (batch_columns b) et_i) as [ec Hec]; [rewrite Hlen; eapply index_of_lt, Het|].
    rewrite Hec. cbn [mbind Run_bind]. set (mx := match _ with Some m => Some _ | None => ws_max_ts st end).
    assert (∀ m, mx = Some m → m ∈ ((done ++ [Ok (FlowData b r)]) ≫= item_times)) as Hmx.
    { intros m. unfold mx. destruct (as_timestamp_micros ec) as [l|] eqn:Hl; cbn; [|apply H1].
      destruct (list_max_z (omap id l)) as [m1|] eqn:Hm1; [|apply H1]. apply list_max_elem in Hm1.
      assert (m1 ∈ ((done ++ [Ok (FlowData b r)]) ≫= item_times)) as Hin.
      { rewrite bind_app. apply elem_of_app. right. cbn. rewrite app_nil_r. unfold batch_times.
        rewrite Het, Hec. cbn. by rewrite Hl. }
      intros [= <-]. destruct (ws_max_ts st) as [c|]; [|done].
      destruct (Z.max_spec c m1) as [[_ ->]|[_ ->]]; [done|]. by apply H1. }
    eexists _, _. split; [done|]. split; [by split|done].
  - eexists _, _. split; [done|]. split; [by split|done].
Qed.

Lemma flush_elem done ws st m :
  wm_inv done ws st →
  match part_idx x with
  | Some _ => list_max_z (fst <$> (snd <$> map_to_list (ws_per_part st)))
  | None => ws_max_ts st
  end = Some m → m ∈ (done ≫= item_times).
Proof.
  intros Hi. destruct (part_idx x); [|by apply Hi].
  intros ([m1 t1] & -> & Hin)%list_max_elem%list_elem_of_fmap.
  apply list_elem_of_fmap in Hin as ([p [m2 t2]] & [= -> ->] & Hin). apply elem_of_map_to_list in Hin.
  by eapply wi_parts.
Qed.
Definition poll_items (polls : list WmPoll) : list Item := omap poll_item polls.

Lemma wm_step_ok done ws st p :
  conforms p → wm_inv done ws st →
  ∃ out st' ws1, wm_step x st p = Returns (out, st') ∧ woven (length done) (poll_items [p]) out ws1 ∧
    wm_inv (done ++ poll_items [p]) (ws ++ ws1) st'.
Proof.
  intros Hp Hi. destruct p as [now|seen now [[b r|mk]|e]]; cbn [wm_step].
  - destruct (part_idx x) as [p_i|].
    2:{ eexists _, _, []. split; [done|]. rewrite !app_nil_r. split; [constructor|done]. }
    destruct (advance x None st _) as [marks st'] eqn:Ha.
    eapply advance_ok in Ha as (ws1 & Hw & Hi'); [|done|].
    + eexists _, _, ws1. split; [done|]. rewrite app_nil_r. done.
    + intros m (p & t & Hpt)%active_elem. by eapply wi_parts.
  - destruct (wm_data_ok done ws st seen b r Hp Hi) as (c & st1 & -> & Hi1 & Hc). cbn [mbind Run_bind].
    set (due := match ws_last_emit st1 with Some le => _ | None => true end).
    destruct (if due then advance x (Some now) st1 c else ([], st1)) as [marks st'] eqn:Ha.
    assert (∃ ws1, woven (length (done ++ [Ok (FlowData b r)])) [] marks ws1 ∧
      wm_inv (done ++ [Ok (FlowData b r)]) (ws ++ ws1) st') as (ws1 & Hw & Hi').
    { destruct due; [by eapply advance_ok|]. injection Ha as <- <-. exists [].
      rewrite app_nil_r. split; [constructor|done]. }
    eexists _, _, ws1. split; [done|]. split; [|done]. constructor.
    by rewrite length_app, Nat.add_1_r in Hw.
  - assert (∀ (b : bool) c marks st', (if b then advance x (Some now) st c else ([], st)) = (marks, st') →
      (∀ m, c = Some m → m ∈ (done ≫= item_times)) →
      ∃ ws1, woven (length done) [Ok (FlowMark mk)] (marks ++ [Ok (FlowMark mk)]) ws1 ∧
        wm_inv (done ++ [Ok (FlowMark mk)]) (ws ++ ws1) st') as H.
    { intros b c marks st' Ha Hc.
      assert (∃ ws1, woven (length done) [] marks ws1 ∧ wm_inv done (ws ++ ws1) st') as (ws1 & Hw & Hi').
      { destruct b; [by eapply advance_ok|]. injection Ha as <- <-. exists [].
        rewrite app_nil_r. split; [constructor|done]. }
      exists ws1. split; [|by apply wm_inv_item].
      rewrite <-(app_nil_r ws1). apply (woven_app _ [] marks ws1 [Ok (FlowMark mk)]); [done|].
      constructor. constructor. }
    destruct (if is_status_transition (FlowMark mk) then _ else _) as [marks st'] eqn:Ha.
    destruct (H _ _ _ _ Ha) as (ws1 & Hw & Hi'); [intros m; by eapply flush_elem|].
    by eexists _, _, ws1.
  - eexists _, _, []. split; [done|]. rewrite app_nil_r. split; [repeat constructor|]. by apply wm_inv_item.
Qed.
Lemma wm_run_ok polls : ∀ done ws st,
  Forall conforms polls → wm_inv done ws st →
  ∃ out st' ws1, wm_run x st polls = Returns (out, st') ∧ woven (length done) (poll_items polls) out ws1 ∧
    wm_inv (done ++ poll_items polls) (ws ++ ws1) st'.
Proof.
  induction polls as [|p polls IH]; intros done ws st Hp Hi.
  { eexists _, _, []. split; [done|]. rewrite !app_nil_r. split; [constructor|done]. }
  apply Forall_cons in Hp as [Hp Hps]. destruct (wm_step_ok done ws st p Hp Hi) as (o1 & st1 & ws1 & Hs & Hw1 & Hi1).
  destruct (IH _ _ _ Hps Hi1) as (o2 & st2 & ws2 & Hr & Hw2 & Hi2).
  cbn [wm_run]. rewrite Hs. cbn [mbind Run_bind]. rewrite Hr. cbn [mbind Run_bind].
  eexists _, _, (ws1 ++ ws2). split; [done|].
  assert (poll_items (p :: polls) = poll_items [p] ++ poll_items polls) as ->.
  { unfold poll_items. cbn. by destruct (poll_item p). }
  rewrite <-!app_assoc in Hi2. rewrite length_app in Hw2.
  split; [by apply woven_app|done].
Qed.

(** No row is more than the delay older than a row of an earlier batch. *)
Definition bounded_disorder (items : list Item) : Prop :=
  ∀ i j y z m m', i < j → items !! i = Some y → items !! j = Some z → m ∈ item_times y → m' ∈ item_times z →
    (m - wx_delay_micros x <= m')%Z.
Definition delay_in_range (items : list Item) : Prop :=
  ∀ m, m ∈ (items ≫= item_times) → (- 2 ^ 63 <= m - wx_delay_micros x < 2 ^ 63)%Z.

(** C24. The watermark operator passes its input on unchanged and in order, and puts
    watermarks in that strictly increase; where no row is more than the delay older than an
    earlier batch, no row that follows a watermark is older than it. *)
Theorem watermarks_increase_and_hold start polls :
  Forall conforms polls →
  ∃ out st ws, wm_run x (wm_init start) polls = Returns (out, st) ∧
    woven 0 (poll_items polls) out ws ∧ StronglySorted Z.lt ws.*1 ∧
    (bounded_disorder (poll_items polls) → delay_in_range (poll_items polls) →
     ∀ w k j y m, (w, k) ∈ ws → k ≤ j → poll_items polls !! j = Some y → m ∈ item_times y → (w <= m)%Z).
Proof.
  intros Hp. destruct (wm_run_ok polls [] [] (wm_init start) Hp) as (out & st & ws & Hr & Hw & Hi).
  { split; cbn; [done|intros p m t; by rewrite lookup_empty|constructor|set_solver|set_solver]. }
  exists out, st, ws. destruct Hi as [_ _ Hs _ Ho]. split_and!; [done..|].
  intros Hdis Hrange w k j y m Hwk Hkj Hj Hm. destruct (Ho w k Hwk) as (Hk & m0 & Hm0 & ->).
  cbn [app] in *. apply list_elem_of_bind in Hm0 as (z & Hz & Hm0).
  assert (m0 ∈ (poll_items polls ≫= item_times)) as Hin.
  { apply list_elem_of_bind. exists z. split; [done|]. eapply subseteq_take, Hm0. }
  unfold wrap_i64. rewrite Z.mod_small by (specialize (Hrange m0 Hin); lia).
  apply elem_of_take in Hm0 as (i & Hi & Hik). specialize (Hdis i j z y m0 m ltac:(lia) Hi Hj Hz Hm). lia.
Qed.
End WatermarkTheorems.
