(* ===== verification/StreamJoin.v ===== *)
(** * Streaming: the join of two streams

    [zelox-physical-plan/src/streaming/stream_join.rs]: an inner join of two streams on
    equal keys, with an optional residual filter that bounds the distance of the event times.
    Both sides are buffered; a batch that arrives on one side is joined with the
    buffer of the other.  A buffer over its budget is spilled to the checkpoint store,
    watermarks drop rows that can no longer match, and the end of the data writes a snapshot.

    [HashJoinExec], the evaluation of the filter and the size of a batch are DataFusion's and
    Arrow's, a parameter.  Whether there is a checkpoint store, the budget, and the kind of
    snapshot come from the configuration and the environment of the process; every poll
    carries the outcome of its accesses to the store, the side that was ready and its item. *)

From Stdlib Require Import Ascii String Sorted.
From S2P Require Import Prelude Collections FlowEvents KeyGroups FlowState FlowOps.

(** ** The libraries *)
Class JoinLibrary (E : FlowEngine) := {
  PhysicalExpr : Type;
  JoinType : Type;
  evaluate : PhysicalExpr → RecordBatch → FlowResult ArrayRef;
  as_mask : ArrayRef → option (list (option bool));
  hash_join_schema : list (PhysicalExpr * PhysicalExpr) → JoinType → list Field → list Field →
    FlowResult (list Field);
  hash_join : list (PhysicalExpr * PhysicalExpr) → JoinType → list Field * list RecordBatch →
    list Field * list RecordBatch → FlowResult (list (FlowResult RecordBatch));
  get_array_memory_size : RecordBatch → N
}.

Inductive Side := SideLeft | SideRight.
#[export] Instance Side_eq_dec : EqDecision Side.
Proof. solve_decision. Defined.

Section Join.
Context `{E : FlowEngine} `{C : !BatchCheck} `{SC : !StateCodec} `{FC : !FlowColumns E} `{JL : !JoinLibrary E}.
Notation Item := (FlowResult FlowEvent).
Notation On := (list (PhysicalExpr * PhysicalExpr)).

Record StreamJoinExec := MkStreamJoinExec {
  sj_on : On;
  sj_join_type : JoinType;
  sj_left_schema : list Field;
  sj_right_schema : list Field;
  sj_output_schema : list Field;
  sj_filter : option PhysicalExpr;
  sj_interval_bounds : option (Z * Z);
  sj_left_ts_idx : option nat;
  sj_right_ts_idx : option nat
}.
Definition stream_join_try_new (on : On) (join_type : JoinType) (left_schema right_schema : list Field)
    (filter : option PhysicalExpr) (interval_bounds : option (Z * Z)) (left_ts_idx right_ts_idx : option nat)
    : FlowResult StreamJoinExec :=
  output_schema ← hash_join_schema on join_type left_schema right_schema;
  Ok (MkStreamJoinExec on join_type left_schema right_schema output_schema filter interval_bounds
        left_ts_idx right_ts_idx).

(** The checkpoint store, if any, the budget and the kind of snapshot. *)
Record JoinEnv := MkJoinEnv { jv_ck : bool; jv_budget : N; jv_inc : bool }.

(** ** Rows and batches *)
Definition apply_filter (batch : RecordBatch) (filter : PhysicalExpr) : FlowResult RecordBatch :=
  array ← evaluate filter batch;
  match as_mask array with
  | None => Err (FeInternal "stream join filter did not evaluate to a boolean")
  | Some mask => filter_batch batch (default false <$> mask)
  end.
Definition evict_batch (b : RecordBatch) (ts_idx : nat) (threshold : Z) : Run (list RecordBatch) :=
  col ← column b ts_idx;
  Returns (match as_timestamp_micros col with
           | None => [b]
           | Some ts =>
               match filter_batch b ((λ t, match t with None => true | Some v => threshold <=? v end)%Z <$> ts) with
               | Ok f => if (0 <? batch_num_rows f)%nat then [f] else []
               | Err _ => [b]
               end
           end).
Fixpoint evict_older_than (batches : list RecordBatch) (ts_idx : nat) (threshold : Z) : Run (list RecordBatch) :=
  match batches with
  | [] => Returns []
  | b :: batches =>
      l ← evict_batch b ts_idx threshold;
      out ← evict_older_than batches ts_idx threshold;
      Returns (l ++ out)
  end.
Definition data_event (batch : RecordBatch) : FlowEvent :=
  FlowData batch (replicate (batch_num_rows batch) false).

(** ** The buffered sides *)
Record SideBuf := MkSideBuf { sb_buf : list RecordBatch; sb_spilled : list N; sb_bytes : N; sb_next : N }.
Definition side_new : SideBuf := MkSideBuf [] [] 0 0.
Record JoinAccum := MkJoinAccum {
  ja_left : SideBuf;
  ja_right : SideBuf;
  ja_lwm : option Z;
  ja_rwm : option Z;
  ja_last_wm : option Z;
  ja_restored : bool
}.
Definition join_accum_new : JoinAccum := MkJoinAccum side_new side_new None None None false.
Definition JOIN_LEFT_OP : string := "join-0-left".
Definition JOIN_RIGHT_OP : string := "join-0-right".
Definition JOIN_SNAPSHOT_EPOCH : N := 1.

Definition side_op (side : Side) : string :=
  match side with SideLeft => JOIN_LEFT_OP | SideRight => JOIN_RIGHT_OP end.
Definition side_schema (x : StreamJoinExec) (side : Side) : list Field :=
  match side with SideLeft => sj_left_schema x | SideRight => sj_right_schema x end.
Definition side_of (acc : JoinAccum) (side : Side) : SideBuf :=
  match side with SideLeft => ja_left acc | SideRight => ja_right acc end.
Definition other_side (side : Side) : Side := match side with SideLeft => SideRight | SideRight => SideLeft end.
Definition with_side (acc : JoinAccum) (side : Side) (b : SideBuf) : JoinAccum :=
  match side with
  | SideLeft => MkJoinAccum b (ja_right acc) (ja_lwm acc) (ja_rwm acc) (ja_last_wm acc) (ja_restored acc)
  | SideRight => MkJoinAccum (ja_left acc) b (ja_lwm acc) (ja_rwm acc) (ja_last_wm acc) (ja_restored acc)
  end.

Definition spill_side_over_budget (io : StoreIo) (v : JoinEnv) (op : string) (schema : list Field)
    (s : Store) (b : SideBuf) : Store * SideBuf :=
  if (jv_budget v <? sb_bytes b)%N && negb (bool_decide (length (sb_buf b) = 0)) then
    if jv_ck v then
      let idx := sb_next b in
      let '(ok, s) := write_spill io s op idx schema (sb_buf b) in
      if (ok : bool) then (s, MkSideBuf [] (sb_spilled b ++ [idx]) 0 (wrap_u64 (idx + 1))) else (s, b)
    else (s, b)
  else (s, b).
Definition gather_side (io : StoreIo) (v : JoinEnv) (s : Store) (op : string) (b : SideBuf) : list RecordBatch :=
  sb_buf b ++ (if jv_ck v then sb_spilled b ≫= read_spill io s op else []).
(** [SpillSourceExec]: the batches in memory, then those of every chunk. *)
Definition spill_source (io : StoreIo) (v : JoinEnv) (s : Store) (op : string) (pending : list RecordBatch)
    (spilled : list N) : list RecordBatch :=
  pending ++ (spilled ≫= λ idx, if jv_ck v then read_spill io s op idx else []).
Definition push_side (b : SideBuf) (batch : RecordBatch) : SideBuf :=
  MkSideBuf (sb_buf b ++ [batch]) (sb_spilled b) (sb_bytes b + get_array_memory_size batch) (sb_next b).
Definition evict_respill_side (io : StoreIo) (v : JoinEnv) (op : string) (schema : list Field)
    (ts_idx : nat) (threshold : Z) (s : Store) (b : SideBuf) : Run (Store * SideBuf) :=
  let full := gather_side io v s op b in
  let s := if jv_ck v then foldl (λ s idx, delete_spill io s op idx) s (sb_spilled b) else s in
  kept ← evict_older_than full ts_idx threshold;
  Returns (foldl (λ '(s, b) batch, spill_side_over_budget io v op schema s (push_side b batch))
    (s, MkSideBuf [] [] 0 (sb_next b)) kept).

(** ** Joining a batch *)
Definition reorder_right_left_to_left_right (batch : RecordBatch) (left_cols right_cols : nat)
    (output_schema : list Field) : Run (FlowResult RecordBatch) :=
  l ← run_map (λ i, column batch (right_cols + i)) (seq 0 left_cols);
  r ← run_map (column batch) (seq 0 right_cols);
  Returns (batch_try_new output_schema (l ++ r)).
Fixpoint reorder_all (out : list RecordBatch) (left_cols right_cols : nat) (output_schema : list Field)
    : Run (FlowResult (list RecordBatch)) :=
  match out with
  | [] => Returns (Ok [])
  | b :: out =>
      r ← reorder_right_left_to_left_right b left_cols right_cols output_schema;
      match r with
      | Err e => Returns (Err e)
      | Ok b => r ← reorder_all out left_cols right_cols output_schema; Returns (l ← r; Ok (b :: l))
      end
  end.
Definition run_hash_join (on : On) (join_type : JoinType) (build probe : list Field * list RecordBatch)
    : FlowResult (list RecordBatch) :=
  out ← hash_join on join_type build probe;
  out ← collect_results out;
  Ok (filter (λ b, 0 < batch_num_rows b) out).
Definition join_incoming_against_buffer (io : StoreIo) (v : JoinEnv) (x : StreamJoinExec) (s : Store)
    (incoming : RecordBatch) (incoming_side : Side) (other : SideBuf) : Run (FlowResult (list RecordBatch)) :=
  match incoming_side with
  | SideLeft =>
      let probe := spill_source io v s JOIN_RIGHT_OP (sb_buf other) (sb_spilled other) in
      Returns (run_hash_join (sj_on x) (sj_join_type x) (sj_left_schema x, [incoming]) (sj_right_schema x, probe))
  | SideRight =>
      let probe := spill_source io v s JOIN_LEFT_OP (sb_buf other) (sb_spilled other) in
      let swapped := (λ '(l, r), (r, l)) <$> sj_on x in
      match run_hash_join swapped (sj_join_type x) (sj_right_schema x, [incoming]) (sj_left_schema x, probe) with
      | Err e => Returns (Err e)
      | Ok out =>
          reorder_all out (length (sj_left_schema x)) (length (sj_right_schema x)) (sj_output_schema x)
      end
  end.
(** The events of the matches, up to the first error of the filter. *)
Fixpoint emit_matches (filter : option PhysicalExpr) (out : list RecordBatch) : list FlowEvent * option FlowError :=
  match out with
  | [] => ([], None)
  | b :: out =>
      match (match filter with Some f => apply_filter b f | None => Ok b end) with
      | Err e => ([], Some e)
      | Ok b =>
          let '(l, e) := emit_matches filter out in
          ((if (0 <? batch_num_rows b)%nat then [data_event b] else []) ++ l, e)
      end
  end.

(** ** The operator *)
Definition join_data (io : StoreIo) (v : JoinEnv) (x : StreamJoinExec) (side : Side) (batch : RecordBatch)
    (s : Store) (acc : JoinAccum) : Run (list Item * (Store * JoinAccum)) :=
  if (batch_num_rows batch =? 0)%nat then Returns ([], (s, acc))
  else
    r ← join_incoming_against_buffer io v x s batch side (side_of acc (other_side side));
    match r with
    | Err e => Returns ([Err e], (s, acc))
    | Ok out =>
        match emit_matches (sj_filter x) out with
        | (l, Some e) => Returns (Err e :: (Ok <$> l), (s, acc))
        | (l, None) =>
            let '(s, b) := spill_side_over_budget io v (side_op side) (side_schema x side) s
              (push_side (side_of acc side) batch) in
            Returns (Ok <$> l, (s, with_side acc side b))
        end
    end.
Definition max_wm (wm : option Z) (ts : Z) : option Z := Some (match wm with Some c => Z.max c ts | None => ts end).
Definition note_watermark (acc : JoinAccum) (side : Side) (ts : Z) : JoinAccum :=
  match side with
  | SideLeft =>
      MkJoinAccum (ja_left acc) (ja_right acc) (max_wm (ja_lwm acc) ts) (ja_rwm acc) (ja_last_wm acc) (ja_restored acc)
  | SideRight =>
      MkJoinAccum (ja_left acc) (ja_right acc) (ja_lwm acc) (max_wm (ja_rwm acc) ts) (ja_last_wm acc) (ja_restored acc)
  end.
(** The operator's watermark is the smaller of the two. *)
Definition forward_watermark (acc : JoinAccum) : list Item * JoinAccum :=
  match ja_lwm acc, ja_rwm acc with
  | Some l, Some r =>
      let m := Z.min l r in
      if match ja_last_wm acc with Some prev => (prev <? m)%Z | None => true end then
        (match dt_from_timestamp_micros m with
         | Some t => [Ok (FlowMark (Watermark "stream-join" t))]
         | None => []
         end,
         MkJoinAccum (ja_left acc) (ja_right acc) (ja_lwm acc) (ja_rwm acc) (Some m) (ja_restored acc))
      else ([], acc)
  | _, _ => ([], acc)
  end.
Definition evict_side (io : StoreIo) (v : JoinEnv) (x : StreamJoinExec) (side : Side) (ts_idx : option nat)
    (threshold : option Z) (s : Store) (acc : JoinAccum) : Run (Store * JoinAccum) :=
  match threshold, ts_idx with
  | Some threshold, Some idx =>
      r ← evict_respill_side io v (side_op side) (side_schema x side) idx threshold s (side_of acc side);
      Returns (r.1, with_side acc side r.2)
  | _, _ => Returns (s, acc)
  end.
Definition join_evict (io : StoreIo) (v : JoinEnv) (x : StreamJoinExec) (s : Store) (acc : JoinAccum)
    : Run (Store * JoinAccum) :=
  match sj_interval_bounds x with
  | None => Returns (s, acc)
  | Some (lower, upper) =>
      st ← evict_side io v x SideLeft (sj_left_ts_idx x) ((λ rw, wrap_i64 (rw - upper)) <$> ja_rwm acc) s acc;
      evict_side io v x SideRight (sj_right_ts_idx x) ((λ lw, wrap_i64 (lw + lower)) <$> ja_lwm acc) st.1 st.2
  end.
Definition join_meta (acc : JoinAccum) : list Z :=
  [default i64_min (ja_lwm acc); default i64_min (ja_rwm acc); default i64_min (ja_last_wm acc)].
Definition join_snapshot (io : StoreIo) (v : JoinEnv) (x : StreamJoinExec) (s : Store) (acc : JoinAccum) : Store :=
  if jv_ck v then
    if jv_inc v then
      let s := stage_epoch_incremental io s JOIN_LEFT_OP JOIN_SNAPSHOT_EPOCH (sj_left_schema x)
        (sb_buf (ja_left acc)) (sb_spilled (ja_left acc)) (join_meta acc) in
      stage_epoch_incremental io s JOIN_RIGHT_OP JOIN_SNAPSHOT_EPOCH (sj_right_schema x)
        (sb_buf (ja_right acc)) (sb_spilled (ja_right acc)) []
    else
      let lfull := gather_side io v s JOIN_LEFT_OP (ja_left acc) in
      let rfull := gather_side io v s JOIN_RIGHT_OP (ja_right acc) in
      let s := stage_state io s JOIN_LEFT_OP (sj_left_schema x) lfull (join_meta acc) in
      stage_state io s JOIN_RIGHT_OP (sj_right_schema x) rfull []
  else s.
Definition meta_wm (z : Z) : option Z := if decide (z = i64_min) then None else Some z.
Definition restored_side (batches : list RecordBatch) (b : SideBuf) : SideBuf :=
  MkSideBuf batches (sb_spilled b) (foldr N.add 0%N (get_array_memory_size <$> batches)) (sb_next b).
(** The restore on the first poll. *)
Definition join_restore (io : StoreIo) (v : JoinEnv) (s : Store) (acc : JoinAccum) : JoinAccum :=
  if ja_restored acc then acc
  else if jv_ck v then
    let '(lb, meta) :=
      if jv_inc v then restore_epoch_incremental io s JOIN_LEFT_OP JOIN_SNAPSHOT_EPOCH
      else restore_state io s JOIN_LEFT_OP in
    let '(rb, _) :=
      if jv_inc v then restore_epoch_incremental io s JOIN_RIGHT_OP JOIN_SNAPSHOT_EPOCH
      else restore_state io s JOIN_RIGHT_OP in
    let '(lwm, rwm, last_wm) :=
      match meta with
      | [l; r; last] => (meta_wm l, meta_wm r, meta_wm last)
      | _ => (ja_lwm acc, ja_rwm acc, ja_last_wm acc)
      end in
    MkJoinAccum (restored_side lb (ja_left acc)) (restored_side rb (ja_right acc)) lwm rwm last_wm true
  else MkJoinAccum (ja_left acc) (ja_right acc) (ja_lwm acc) (ja_rwm acc) (ja_last_wm acc) true.

Definition join_step (v : JoinEnv) (x : StreamJoinExec) (st : Store * JoinAccum)
    (poll : StoreIo * (Side * Item)) : Run (list Item * (Store * JoinAccum)) :=
  let '(io, (side, item)) := poll in
  let '(s, acc) := st in
  match item with
  | Err e => Returns ([Err e], (s, acc))
  | Ok (FlowData batch _) => join_data io v x side batch s acc
  | Ok (FlowMark (Watermark _ timestamp)) =>
      let acc := note_watermark acc side (dt_timestamp_micros timestamp) in
      let '(l, acc) := forward_watermark acc in
      st ← join_evict io v x s acc;
      Returns (l, st)
  | Ok (FlowMark EndOfData) => Returns ([Ok (FlowMark EndOfData)], (join_snapshot io v x s acc, acc))
  | Ok other => Returns ([Ok other], (s, acc))
  end.
Fixpoint join_steps (v : JoinEnv) (x : StreamJoinExec) (st : Store * JoinAccum)
    (polls : list (StoreIo * (Side * Item))) : Run (list Item * (Store * JoinAccum)) :=
  match polls with
  | [] => Returns ([], st)
  | p :: polls =>
      r ← join_step v x st p;
      let '(out, st) := r in
      r ← join_steps v x st polls;
      let '(out', st) := r in
      Returns (out ++ out', st)
  end.
Definition join_execute (v : JoinEnv) (x : StreamJoinExec) (partition : nat) (io : StoreIo) (s : Store)
    (polls : list (StoreIo * (Side * Item))) : FlowResult (Run (list Item * (Store * JoinAccum))) :=
  if negb (partition =? 0)%nat then Err (FeInternal "StreamJoinExec: invalid partition")
  else Ok (join_steps v x (s, join_restore io v s join_accum_new) polls).

(** The commit of what an operator has staged, once the output is durable
    ([commit_source_offsets] of [zelox-spark-connect/src/streaming.rs]). *)
Definition commit_staged (io : StoreIo) (ops : list string) (s : Store) : Store :=
  foldl (λ s op, (promote io s (staged_key op) (committed_key op)).2) s ops.
End Join.

(** ** The pairs of two lists of rows *)
Section Pairs.
Context {Cell : Type} (good : list Cell → list Cell → bool).
Notation Row := (list Cell).

Definition pairs (L R : list Row) : list Row := L ≫= λ l, (l ++.) <$> filter (λ r, good l r = true) R.

Lemma pairs_app_l L1 L2 R : pairs (L1 ++ L2) R = pairs L1 R ++ pairs L2 R.
Proof. apply bind_app. Qed.
Lemma pairs_cons_r L r R : pairs L (r :: R) ≡ₚ ((λ l, l ++ r) <$> filter (λ l, good l r = true) L) ++ pairs L R.
Proof.
  induction L as [|l L IH]; [done|]. unfold pairs in *. rewrite !bind_cons, IH, !filter_cons.
  destruct (decide (good l r = true)); cbn; [constructor|]; by rewrite Permutation_app_swap_app.
Qed.
Lemma pairs_nil_r L : pairs L [] = [].
Proof. by induction L. Qed.
Lemma pairs_app_r L R1 R2 : pairs L (R1 ++ R2) ≡ₚ pairs L R1 ++ pairs L R2.
Proof.
  induction R1 as [|r R1 IH]; cbn [app]; [by rewrite pairs_nil_r|].
  by rewrite !pairs_cons_r, IH, <-app_assoc.
Qed.
#[export] Instance pairs_perm : Proper ((≡ₚ) ==> (≡ₚ) ==> (≡ₚ)) pairs.
Proof.
  intros L L' HL R R' HR. unfold pairs. rewrite HL. clear HL.
  induction L' as [|l L' IH]; [done|]. rewrite !bind_cons. apply Permutation_app; [|done]. by rewrite HR.
Qed.
Lemma pairs_none L R : (∀ l r, l ∈ L → r ∈ R → good l r = false) → pairs L R = [].
Proof.
  intros H. unfold pairs. induction L as [|l L IH]; [done|]. rewrite bind_cons, IH by set_solver.
  rewrite filter_none; [done|]. intros r Hr. rewrite H by set_solver. done.
Qed.
Lemma pairs_swap L R :
  (R ≫= λ r, (λ l, l ++ r) <$> filter (λ l, good l r = true) L) ≡ₚ pairs L R.
Proof.
  induction R as [|r R IH]; [by rewrite pairs_nil_r|]. by rewrite bind_cons, IH, pairs_cons_r.
Qed.
End Pairs.

(** ** What a side holds *)
Section Sides.
Context `{E : FlowEngine} `{C : !BatchCheck} `{SC : !StateCodec} `{FC : !FlowColumns E} `{JL : !JoinLibrary E}.
Context {SRow : Type} `{SL : !StateCodecLaws SC SRow}.
Context (v : JoinEnv) (op : string) (schema : list Field) (Hop : segment op).

Definition reads_fine (io : StoreIo) : Prop := ∀ rel, io_get io rel = None.
Lemma read_spill_fine io s i : reads_fine io → read_spill io s op i = read_spill io_fine s op i.
Proof. intros H. unfold read_spill, get_state, ck_get. by rewrite H. Qed.
Lemma gather_fine io s b : reads_fine io → gather_side io v s op b = gather_side io_fine v s op b.
Proof.
  intros H. unfold gather_side. destruct (jv_ck v); [|done]. f_equal. apply list_bind_ext_elem.
  intros i _. by apply read_spill_fine.
Qed.
Lemma spill_source_gather io s b : spill_source io v s op (sb_buf b) (sb_spilled b) = gather_side io v s op b.
Proof.
  unfold spill_source, gather_side. destruct (jv_ck v); [done|]. f_equal. by induction (sb_spilled b).
Qed.

Lemma spill_key_ne i j : i ≠ j → child (spill_key op i) ≠ child (spill_key op j).
Proof. intros Hne. rewrite !spill_path by done. intros [= H]. by apply segment_inj in H. Qed.
(** Accesses that leave everything but the chunks of [op] alone. *)
Definition chunks_only (s s' : Store) : Prop := ∀ k, (∀ i, k ≠ child (spill_key op i)) → s' !! k = s !! k.
Lemma chunks_only_refl s : chunks_only s s.
Proof. by intros k. Qed.
Lemma chunks_only_trans s1 s2 s3 : chunks_only s1 s2 → chunks_only s2 s3 → chunks_only s1 s3.
Proof. intros H1 H2 k Hk. by rewrite H2, H1. Qed.

Lemma write_spill_spec io s i batches :
  match write_spill io s op i schema batches with
  | (true, s') => read_spill io_fine s' op i = batches ∧ chunks_only s s' ∧
      ∀ j, j ≠ i → read_spill io_fine s' op j = read_spill io_fine s op j
  | (false, s') => s' = s
  end.
Proof.
  unfold write_spill. destruct (encode_state schema batches []) as [blob|] eqn:He; [|done].
  unfold ck_put. destruct (io_put io (spill_key op i)); [done|]. cbn. split_and!.
  - unfold read_spill, get_state, ck_get. cbn. rewrite lookup_insert_eq.
    by rewrite (state_roundtrip schema batches []).
  - intros k Hk. by rewrite lookup_insert_ne.
  - intros j Hj. unfold read_spill. f_equal. apply get_state_same. rewrite lookup_insert_ne; [done|].
    by apply spill_key_ne.
Qed.

(** The chunks of a side have numbers below the next one, and there are at most [n]. *)
Record side_inv (n : nat) (b : SideBuf) : Prop := {
  si_chunks : ∀ i, i ∈ sb_spilled b → (i < sb_next b)%N;
  si_count : length (sb_spilled b) ≤ n;
  si_ck : jv_ck v = false → sb_spilled b = []
}.

Lemma spill_side_spec io n s b s' b' :
  spill_side_over_budget io v op schema s b = (s', b') → side_inv n b → (sb_next b < u64_max)%N →
  gather_side io_fine v s' op b' ≡ₚ gather_side io_fine v s op b ∧ side_inv (S n) b' ∧ chunks_only s s' ∧
  (sb_next b' <= sb_next b + 1)%N.
Proof.
  intros Hs [H1 H2 H3] Hnext.
  assert (s' = s → b' = b → gather_side io_fine v s' op b' ≡ₚ gather_side io_fine v s op b ∧ side_inv (S n) b' ∧
    chunks_only s s' ∧ (sb_next b' <= sb_next b + 1)%N) as Hsame.
  { intros -> ->. split_and!; [done| |done|lia]. split; [done|lia|done]. }
  unfold spill_side_over_budget in Hs. destruct (_ && _); [|by simplify_eq; apply Hsame].
  destruct (jv_ck v) eqn:Hck; [|by simplify_eq; apply Hsame].
  pose proof (write_spill_spec io s (sb_next b) (sb_buf b)) as Hw.
  destruct (write_spill io s op (sb_next b) schema (sb_buf b)) as [[] s1]; simplify_eq; [|by apply Hsame].
  destruct Hw as (Hr & Hc & Ho). unfold gather_side. rewrite Hck. cbn [sb_buf sb_spilled sb_next app].
  assert (wrap_u64 (sb_next b + 1) = sb_next b + 1)%N as ->.
  { unfold wrap_u64. apply N.mod_small. unfold u64_max in *. lia. }
  split_and!; [|split; cbn|done|lia].
  - assert (sb_spilled b ≫= read_spill io_fine s' op = sb_spilled b ≫= read_spill io_fine s op) as Hsp.
    { apply list_bind_ext_elem. intros i Hi. apply Ho. specialize (H1 i Hi). lia. }
    rewrite bind_app, Hsp. cbn. by rewrite Hr, app_nil_r, Permutation_app_comm.
  - intros i [Hi|Hi]%elem_of_app; [specialize (H1 i Hi); lia|]. apply list_elem_of_singleton in Hi as ->. lia.
  - rewrite length_app. cbn. lia.
  - congruence.
Qed.

Lemma gather_push s b batch :
  gather_side io_fine v s op (push_side b batch) ≡ₚ gather_side io_fine v s op b ++ [batch].
Proof. unfold gather_side. cbn. rewrite <-!app_assoc. by rewrite (Permutation_app_comm [batch]). Qed.
Lemma respill_spec io n l : ∀ s b s' b',
  foldl (λ '(s, b) batch, spill_side_over_budget io v op schema s (push_side b batch)) (s, b) l = (s', b') →
  side_inv n b → (sb_next b + N.of_nat (length l) <= u64_max)%N →
  gather_side io_fine v s' op b' ≡ₚ gather_side io_fine v s op b ++ l ∧ side_inv (n + length l) b' ∧
  chunks_only s s' ∧ (sb_next b' <= sb_next b + N.of_nat (length l))%N.
Proof.
  revert n. induction l as [|batch l IH]; intros n s b s' b'; cbn [foldl length].
  { intros [= <- <-] Hi _. rewrite app_nil_r, Nat.add_0_r. split_and!; [done..|lia]. }
  intros Hf Hi Hn. destruct (spill_side_over_budget io v op schema s (push_side b batch)) as [s1 b1] eqn:Hs.
  apply (spill_side_spec io n) in Hs as (H1 & H2 & H3 & H4); [|by destruct Hi|cbn; lia].
  cbn [push_side sb_next] in H4. destruct (IH _ _ _ _ _ Hf H2) as (H5 & H6 & H7 & H8); [lia|].
  rewrite Nat.add_succ_r. split_and!; [|done|by eapply chunks_only_trans|lia].
  by rewrite H5, H1, gather_push, <-app_assoc.
Qed.
Lemma delete_chunks_only io s l : chunks_only s (foldl (λ s idx, delete_spill io s op idx) s l).
Proof.
  revert s. induction l as [|i l IH]; intros s; [done|]. cbn. eapply chunks_only_trans; [|apply IH].
  intros k Hk. by apply delete_other.
Qed.
End Sides.

Lemma gather_frame `{E : FlowEngine} `{SC : !StateCodec} v op op' s s' b :
  segment op → segment op' → op ≠ op' → chunks_only op s s' →
  gather_side io_fine v s' op' b = gather_side io_fine v s op' b.
Proof.
  intros H1 H2 Hne Hc. unfold gather_side. destruct (jv_ck v); [|done]. f_equal.
  apply list_bind_ext_elem. intros i _. unfold read_spill. f_equal. apply get_state_same. apply Hc.
  intros j. rewrite !spill_path by done. congruence.
Qed.

(** ** Rows

    A row is the list of the cells of its columns.  [key_match] says that the keys of a left and
    a right row are equal, [accepts] that a joined row passes the filter. *)
Class JoinRows (E : FlowEngine) := {
  Cell : Type;
  cell : ArrayRef → nat → Cell;
  cell_time : Cell → option Z;
  key_match : list Cell → list Cell → bool;
  accepts : list Cell → bool
}.
Section Rows.
Context `{E : FlowEngine} `{JR : !JoinRows E}.
Notation Row := (list Cell).
Definition rows (b : RecordBatch) : list Row :=
  (λ i, (λ c, cell c i) <$> batch_columns b) <$> seq 0 (batch_num_rows b).
Definition fits (schema : list Field) (b : RecordBatch) : Prop :=
  columns_match schema (batch_columns b) (batch_num_rows b).
Lemma rows_length b : length (rows b) = batch_num_rows b.
Proof. unfold rows. by rewrite length_fmap, length_seq. Qed.
End Rows.

(** The schemas of the two inputs and of their join. *)
Definition join_schema `{E : FlowEngine} `{JL : !JoinLibrary E} (x : StreamJoinExec) (schema : list Field) : Prop :=
  (∃ side, schema = side_schema x side) ∨ schema = sj_left_schema x ++ sj_right_schema x.
(** What Arrow and DataFusion document of the operations that the join [x] uses. *)
Class JoinLaws `{E : FlowEngine} `{SC : !StateCodec} `{FC : !FlowColumns E} `{JL : !JoinLibrary E}
    `{JR : !JoinRows E} (x : StreamJoinExec) : Prop := {
  jl_ipc side l : Forall (fits (side_schema x side)) l → is_Some (ipc_write (side_schema x side) l);
  jl_filter schema b mask : join_schema x schema → fits schema b → length mask = batch_num_rows b →
    ∃ b', filter_batch b mask = Ok b' ∧ rows b' = kept mask (rows b) ∧ fits schema b';
  jl_times c l : as_timestamp_micros c = Some l → l = (λ i, cell_time (cell c i)) <$> seq 0 (array_len c);
  jl_evaluate f b : sj_filter x = Some f → fits (sj_left_schema x ++ sj_right_schema x) b →
    ∃ array mask, evaluate f b = Ok array ∧ as_mask array = Some mask ∧ default false <$> mask = accepts <$> rows b;
  jl_join_left bs ps : Forall (fits (sj_left_schema x)) bs → Forall (fits (sj_right_schema x)) ps →
    ∃ out, hash_join (sj_on x) (sj_join_type x) (sj_left_schema x, bs) (sj_right_schema x, ps) = Ok (Ok <$> out) ∧
      Forall (fits (sj_left_schema x ++ sj_right_schema x)) out ∧
      out ≫= rows ≡ₚ (bs ≫= rows) ≫= λ l, (l ++.) <$> filter (λ r, key_match l r = true) (ps ≫= rows);
  jl_join_right bs ps : Forall (fits (sj_right_schema x)) bs → Forall (fits (sj_left_schema x)) ps →
    ∃ out, hash_join ((λ '(l, r), (r, l)) <$> sj_on x) (sj_join_type x) (sj_right_schema x, bs) (sj_left_schema x, ps) =
        Ok (Ok <$> out) ∧
      Forall (fits (sj_right_schema x ++ sj_left_schema x)) out ∧
      out ≫= rows ≡ₚ (bs ≫= rows) ≫= λ r, (r ++.) <$> filter (λ l, key_match l r = true) (ps ≫= rows)
}.

(** ** Lists *)
Lemma elem_of_kept {A} (keep : list bool) (l : list A) y :
  y ∈ kept keep l → ∃ i, keep !! i = Some true ∧ l !! i = Some y.
Proof.
  revert l. induction keep as [|b keep IH]; intros [|z l]; cbn; try (intros []%not_elem_of_nil).
  destruct b; [intros [->|Hin]%elem_of_cons; [by exists 0|]|intros Hin];
    destruct (IH l Hin) as (i & ? & ?); by exists (S i).
Qed.
Lemma kept_split {A} (keep : list bool) (l : list A) :
  length keep = length l → l ≡ₚ kept keep l ++ kept (negb <$> keep) l.
Proof.
  revert l. induction keep as [|b keep IH]; intros [|z l]; cbn; try done. intros [= Hl].
  destruct b; cbn; [|rewrite <-Permutation_middle]; by rewrite <-IH.
Qed.
Lemma kept_filter {A} (f : A → bool) l : kept (f <$> l) l = filter (λ y, f y = true) l.
Proof.
  induction l as [|z l IH]; [done|]. cbn. destruct (f z) eqn:Hf.
  - by rewrite decide_True, IH.
  - by rewrite decide_False, IH by congruence.
Qed.
Lemma fmap_list_bind {A B D} (f : A → list B) (g : B → D) l : g <$> (l ≫= f) = l ≫= λ y, g <$> f y.
Proof. induction l as [|y l IH]; [done|]. by rewrite !bind_cons, fmap_app, IH. Qed.
Lemma run_map_columns {A} (l : list A) k n :
  k + n ≤ length l → run_map (λ i, vec_index l (k + i)) (seq 0 n) = Returns (take n (drop k l)).
Proof.
  intros Hl. assert (∀ j, j + n ≤ length (drop k l) →
    run_map (λ i, vec_index l (k + i)) (seq j n) = Returns (take n (drop j (drop k l)))) as H.
  2:{ rewrite H by (rewrite length_drop; lia). by rewrite drop_0. }
  rewrite length_drop. clear Hl. induction n as [|n IH]; intros j Hj; [done|].
  destruct (lookup_lt_is_Some_2 l (k + j)) as [a Ha]; [lia|].
  cbn [seq run_map]. rewrite (proj2 (vec_index_returns _ _ _) Ha). cbn [mbind Run_bind].
  rewrite IH by lia. rewrite (drop_S (drop k l) a j); [done|]. by rewrite lookup_drop.
Qed.

Section Batches.
Context `{E : FlowEngine} `{C : !BatchCheck} `{CL : !BatchCheckLaws C} `{SC : !StateCodec} `{FC : !FlowColumns E}.
Context `{JL : !JoinLibrary E} `{JR : !JoinRows E} (x : StreamJoinExec) `{JW : !JoinLaws x}.
Notation Item := (FlowResult FlowEvent).
Notation Row := (list Cell).
Notation LS := (sj_left_schema x).
Notation RS := (sj_right_schema x).

Definition row_time (idx : nat) (r : Row) : option Z := r !! idx ≫= cell_time.

Lemma fits_length schema b : fits schema b → length (batch_columns b) = length schema.
Proof. intros [_ H]. symmetry. by eapply Forall2_length. Qed.
Lemma fits_column schema b i c : fits schema b → batch_columns b !! i = Some c → array_len c = batch_num_rows b.
Proof. intros [_ H] Hc. destruct (Forall2_lookup_r _ _ _ _ _ H Hc) as (f & _ & _ & ?). done. Qed.
Lemma rows_lookup b i r : rows b !! i = Some r ↔ i < batch_num_rows b ∧ r = (λ c, cell c i) <$> batch_columns b.
Proof.
  unfold rows. rewrite list_lookup_fmap. split.
  - intros (j & [-> Hj]%lookup_seq & ->)%fmap_Some. cbn. split; [lia|done].
  - intros [Hi ->]. by rewrite lookup_seq_lt.
Qed.

Lemma evict_batch_spec schema b idx threshold :
  join_schema x schema → fits schema b → idx < length schema →
  ∃ l, evict_batch b idx threshold = Returns l ∧ Forall (fits schema) l ∧ length l ≤ 1 ∧
    ∃ old, rows b ≡ₚ (l ≫= rows) ++ old ∧ ∀ r, r ∈ old → ∃ t, row_time idx r = Some t ∧ (t < threshold)%Z.
Proof.
  intros Hsch Hb Hidx. destruct (lookup_lt_is_Some_2 (batch_columns b) idx) as [c Hc].
  { by rewrite (fits_length schema). }
  unfold evict_batch, column. rewrite (proj2 (vec_index_returns _ _ _) Hc). cbn [mbind Run_bind].
  eexists. split; [done|]. destruct (as_timestamp_micros c) as [ts|] eqn:Hts.
  2:{ split_and!; [by apply Forall_singleton|done|]. exists []. cbn. rewrite !app_nil_r. by split; [|set_solver]. }
  apply jl_times in Hts. rewrite (fits_column schema b idx c Hb Hc) in Hts.
  set (mask := (λ t, match t with None => true | Some v => (threshold <=? v)%Z end) <$> ts).
  assert (length mask = batch_num_rows b) as Hm by (unfold mask; subst ts; by rewrite !length_fmap, length_seq).
  destruct (jl_filter schema b mask Hsch Hb Hm) as (b' & -> & Hr & Hf).
  assert ((if (0 <? batch_num_rows b')%nat then [b'] else []) ≫= rows = rows b') as Hrows.
  { destruct (Nat.ltb_spec 0 (batch_num_rows b')); cbn; [by rewrite app_nil_r|].
    symmetry. apply nil_length_inv. rewrite rows_length. lia. }
  split_and!.
  - destruct (_ <? _)%nat; [|constructor]. by apply Forall_singleton.
  - by destruct (_ <? _)%nat; cbn; lia.
  - exists (kept (negb <$> mask) (rows b)). rewrite Hrows, Hr. split.
    + apply kept_split. by rewrite rows_length.
    + intros r (i & Hi & [Hlt ->]%rows_lookup)%elem_of_kept.
      apply list_lookup_fmap_Some in Hi as (mi & Hmi & Hneg). unfold mask in Hneg.
      apply list_lookup_fmap_Some in Hneg as (t & -> & Ht). rewrite Hts in Ht.
      apply list_lookup_fmap_Some in Ht as (j & -> & [Hj _]%lookup_seq). cbn in Hj. subst j.
      unfold row_time. rewrite list_lookup_fmap, Hc. cbn.
      destruct (cell_time (cell c i)) as [t|]; [|done]. exists t. split; [done|].
      symmetry in Hmi. apply negb_true_iff, Z.leb_gt in Hmi. lia.
Qed.
Lemma evict_older_than_spec schema batches idx threshold :
  join_schema x schema → Forall (fits schema) batches → idx < length schema →
  ∃ l, evict_older_than batches idx threshold = Returns l ∧ Forall (fits schema) l ∧ length l ≤ length batches ∧
    ∃ old, batches ≫= rows ≡ₚ (l ≫= rows) ++ old ∧ ∀ r, r ∈ old → ∃ t, row_time idx r = Some t ∧ (t < threshold)%Z.
Proof.
  intros Hsch Hb Hidx. induction Hb as [|b batches Hb _ IH].
  { exists []. split_and!; [done|constructor|done|]. by exists []; split; [|set_solver]. }
  destruct (evict_batch_spec schema b idx threshold Hsch Hb Hidx) as (l1 & H1 & H2 & H3 & old1 & H4 & H5).
  destruct IH as (l2 & H6 & H7 & H8 & old2 & H9 & H10).
  exists (l1 ++ l2). cbn [evict_older_than]. rewrite H1. cbn [mbind Run_bind]. rewrite H6. split_and!.
  - done.
  - by apply Forall_app.
  - rewrite length_app. cbn. lia.
  - exists (old1 ++ old2). split; [|set_solver]. rewrite bind_cons, bind_app, H4, H9.
    rewrite <-!app_assoc. f_equiv. by rewrite Permutation_app_swap_app.
Qed.

(** *** Matches *)
Definition good (l r : Row) : bool :=
  key_match l r && match sj_filter x with Some _ => accepts (l ++ r) | None => true end.
Definition item_cells (y : Item) : list Row := match y with Ok (FlowData b _) => rows b | _ => [] end.
Definition out_rows (out : list Item) : list Row := out ≫= item_cells.

Lemma nonempty_rows (out : list RecordBatch) : filter (λ b, 0 < batch_num_rows b) out ≫= rows = out ≫= rows.
Proof.
  induction out as [|b out IH]; [done|]. rewrite filter_cons, bind_cons, <-IH.
  destruct (decide (0 < batch_num_rows b)) as [H|H]; [done|].
  rewrite (nil_length_inv (rows b)); [done|]. rewrite rows_length. lia.
Qed.
Lemma run_hash_join_ok on build probe out schema :
  hash_join on (sj_join_type x) build probe = Ok (Ok <$> out) → Forall (fits schema) out →
  ∃ out', run_hash_join on (sj_join_type x) build probe = Ok out' ∧ Forall (fits schema) out' ∧
    out' ≫= rows = out ≫= rows.
Proof.
  intros Hj Hf. unfold run_hash_join. rewrite Hj. cbn [mbind Result_bind].
  rewrite (proj2 (collect_results_Ok _ _) eq_refl). eexists. split; [done|]. split.
  - apply Forall_forall. intros b [_ Hb]%list_elem_of_filter. by eapply Forall_forall in Hf.
  - apply nonempty_rows.
Qed.

Lemma emit_matches_spec out :
  Forall (fits (LS ++ RS)) out →
  ∃ l, emit_matches (sj_filter x) out = (l, None) ∧
    out_rows (Ok <$> l) =
    filter (λ r, match sj_filter x with Some _ => accepts r | None => true end = true) (out ≫= rows).
Proof.
  induction 1 as [|b out Hb _ (l & H1 & H2)]; [by exists []|].
  cbn [emit_matches]. rewrite H1, bind_cons, filter_app, <-H2.
  assert (∃ b', match sj_filter x with Some f => apply_filter b f | None => Ok b end = Ok b' ∧
    rows b' = filter (λ r, match sj_filter x with Some _ => accepts r | None => true end = true) (rows b))
    as (b' & -> & <-).
  { destruct (sj_filter x) as [f|] eqn:Hf; [|exists b; split; [done|by rewrite filter_all]].
    destruct (jl_evaluate f b Hf Hb) as (array & mask & He & Hmask & Hacc). unfold apply_filter.
    rewrite He. cbn [mbind Result_bind]. rewrite Hmask, Hacc.
    destruct (jl_filter _ b (accepts <$> rows b) (or_intror eq_refl) Hb) as (b' & -> & Hr & _);
      [by rewrite length_fmap, rows_length|].
    exists b'. split; [done|]. by rewrite Hr, kept_filter. }
  eexists. split; [done|]. unfold out_rows. rewrite fmap_app, bind_app. f_equal.
  destruct (Nat.ltb_spec 0 (batch_num_rows b')); cbn; [by rewrite app_nil_r|].
  symmetry. apply nil_length_inv. rewrite rows_length. lia.
Qed.

Hypothesis output_schema : sj_output_schema x = LS ++ RS.

Definition swap_row (r : Row) : Row := drop (length RS) r ++ take (length RS) r.
Lemma reorder_spec b :
  fits (RS ++ LS) b →
  ∃ b', reorder_right_left_to_left_right b (length LS) (length RS) (sj_output_schema x) = Returns (Ok b') ∧
    fits (LS ++ RS) b' ∧ rows b' = swap_row <$> rows b.
Proof.
  intros Hb. pose proof (fits_length _ _ Hb) as Hlen. rewrite length_app in Hlen.
  unfold reorder_right_left_to_left_right, column.
  rewrite (run_map_columns (batch_columns b) (length RS) (length LS)) by lia. cbn [mbind Run_bind].
  pose proof (run_map_columns (batch_columns b) 0 (length RS) ltac:(lia)) as Hr. cbn [Nat.add] in Hr.
  rewrite Hr. cbn [mbind Run_bind].
  rewrite drop_0, (take_ge (drop _ _)) by (rewrite length_drop; lia).
  assert (columns_match (LS ++ RS)
    (drop (length RS) (batch_columns b) ++ take (length RS) (batch_columns b)) (batch_num_rows b)) as Hm.
  { destruct Hb as [Hne Hf]. split.
    - intros [Hd Ht]%app_eq_nil. apply Hne. by rewrite <-(take_drop (length RS) (batch_columns b)), Hd, Ht.
    - apply Forall2_app_inv_l in Hf as (c1 & c2 & H1 & H2 & ->). pose proof (Forall2_length _ _ _ H1) as Hl1.
      rewrite drop_app_length', take_app_length' by done. by apply Forall2_app. }
  rewrite output_schema, (batch_try_new_ok _ _ _ Hm). eexists. split; [done|]. split; [done|].
  unfold rows. cbn [batch_columns batch_num_rows]. rewrite <-list_fmap_compose. apply list_fmap_ext.
  intros _ i _. unfold swap_row. cbn. by rewrite fmap_app, fmap_drop, fmap_take.
Qed.
Lemma reorder_all_spec out :
  Forall (fits (RS ++ LS)) out →
  ∃ out', reorder_all out (length LS) (length RS) (sj_output_schema x) = Returns (Ok out') ∧
    Forall (fits (LS ++ RS)) out' ∧ out' ≫= rows = swap_row <$> (out ≫= rows).
Proof.
  induction 1 as [|b out Hb _ (out' & H1 & H2 & H3)]; [by exists []; split_and!|].
  destruct (reorder_spec b Hb) as (b' & H4 & H5 & H6). exists (b' :: out'). cbn [reorder_all].
  rewrite H4. cbn [mbind Run_bind]. rewrite H1. split_and!; [done|by constructor|].
  by rewrite !bind_cons, fmap_app, H3, H6.
Qed.


Lemma filter_pairs L R :
  filter (λ r, match sj_filter x with Some _ => accepts r | None => true end = true) (pairs key_match L R) =
  pairs good L R.
Proof.
  unfold pairs. induction L as [|l L IH]; [done|]. rewrite !bind_cons, filter_app, IH. f_equal. clear IH.
  unfold good. induction R as [|r R IH]; [done|]. rewrite !filter_cons. destruct (key_match l r); cbn [andb].
  - rewrite decide_True by done. cbn [fmap list_fmap]. rewrite filter_cons.
    destruct (match sj_filter x with Some _ => _ | None => _ end) eqn:Hf.
    + rewrite !decide_True by done. cbn. by rewrite IH.
    + by rewrite !decide_False, IH by congruence.
  - by rewrite !decide_False, IH by congruence.
Qed.

Lemma swap_pairs batch g :
  fits RS batch →
  swap_row <$> (rows batch ≫= λ r, (r ++.) <$> filter (λ l, key_match l r = true) g) =
  rows batch ≫= λ r, (λ l, l ++ r) <$> filter (λ l, key_match l r = true) g.
Proof.
  intros Hb. rewrite fmap_list_bind. apply list_bind_ext_elem.
  intros r [i [_ ->]%rows_lookup]%list_elem_of_lookup. rewrite <-list_fmap_compose. apply list_fmap_ext.
  intros _ l' _. unfold swap_row. cbn.
  rewrite drop_app_length', take_app_length'; [done|by rewrite length_fmap, (fits_length RS)..].
Qed.

(** The rows of a side in the order left, right. *)
Definition side_pairs (f : Row → Row → bool) (side : Side) (new old : list Row) : list Row :=
  match side with SideLeft => pairs f new old | SideRight => pairs f old new end.
Lemma join_incoming_spec io v s batch side other :
  reads_fine io → fits (side_schema x side) batch →
  let G := gather_side io_fine v s (side_op (other_side side)) other in
  Forall (fits (side_schema x (other_side side))) G →
  ∃ out, join_incoming_against_buffer io v x s batch side other = Returns (Ok out) ∧
    Forall (fits (LS ++ RS)) out ∧ out ≫= rows ≡ₚ side_pairs key_match side (rows batch) (G ≫= rows).
Proof.
  intros Hio Hb G HG. unfold join_incoming_against_buffer. destruct side; cbn [side_schema side_op other_side] in *.
  - rewrite spill_source_gather, gather_fine by done. fold G.
    destruct (jl_join_left [batch] G) as (out & Hj & Hf & Hr); [by apply Forall_singleton|done|].
    destruct (run_hash_join_ok _ _ _ _ _ Hj Hf) as (out' & -> & Hf' & Hr').
    exists out'. split_and!; [done..|]. rewrite Hr', Hr. cbn. by rewrite app_nil_r.
  - rewrite spill_source_gather, gather_fine by done. fold G.
    destruct (jl_join_right [batch] G) as (out & Hj & Hf & Hr); [by apply Forall_singleton|done|].
    destruct (run_hash_join_ok _ _ _ _ _ Hj Hf) as (out' & -> & Hf' & Hr').
    destruct (reorder_all_spec out' Hf') as (out2 & -> & Hf2 & Hr2).
    exists out2. split_and!; [done..|]. rewrite Hr2, Hr', Hr. unfold side_pairs.
    rewrite <-pairs_swap. change ([batch] ≫= rows) with (rows batch ++ []). rewrite app_nil_r.
    by rewrite swap_pairs.
Qed.
End Batches.

(** ** Runs *)
Section Runs.
Context `{E : FlowEngine} `{EL : !FlowEngineLaws E} `{C : !BatchCheck} `{CL : !BatchCheckLaws C}.
Context `{SC : !StateCodec} {SRow : Type} `{SL : !StateCodecLaws SC SRow} `{FC : !FlowColumns E}.
Context `{JL : !JoinLibrary E} `{JR : !JoinRows E} (x : StreamJoinExec) `{JW : !JoinLaws x} (v : JoinEnv).
Notation Item := (FlowResult FlowEvent).
Notation Row := (list Cell).
Notation Poll := (StoreIo * (Side * Item))%type.
Notation State := (Store * JoinAccum)%type.
Notation good := (good x).

Definition ts_idx (side : Side) : option nat :=
  match side with SideLeft => sj_left_ts_idx x | SideRight => sj_right_ts_idx x end.
Definition side_time (side : Side) (r : Row) : option Z := ts_idx side ≫= λ i, row_time i r.
(** The rows and the watermarks that arrive on a side. *)
Definition side_rows (side : Side) (polls : list Poll) : list Row :=
  polls ≫= λ p, if decide (p.2.1 = side) then item_cells p.2.2 else [].
Definition item_mark (y : Item) : option Z :=
  match y with Ok (FlowMark (Watermark _ t)) => Some (dt_timestamp_micros t) | _ => None end.
Definition side_marks (side : Side) (polls : list Poll) : list Z :=
  omap (λ p, if decide (p.2.1 = side) then item_mark p.2.2 else None) polls.

(** The configuration: the output has the columns of the left and of the right, and the filter
    implies the bounds on the distance of the event times. *)
Record configured : Prop := {
  cf_output : sj_output_schema x = sj_left_schema x ++ sj_right_schema x;
  cf_idx side i : ts_idx side = Some i → i < length (side_schema x side);
  cf_interval lower upper l r : sj_interval_bounds x = Some (lower, upper) → good l r = true →
    ∃ tl tr, side_time SideLeft l = Some tl ∧ side_time SideRight r = Some tr ∧ (lower <= tr - tl <= upper)%Z
}.
Definition threshold (side : Side) (lower upper w : Z) : Z :=
  match side with SideLeft => w - upper | SideRight => w + lower end.
Definition in_i64 (z : Z) : Prop := (- 2 ^ 63 <= z < 2 ^ 63)%Z.
Definition mark_ok (w : Z) : Prop :=
  in_i64 w ∧ w ≠ i64_min ∧
  ∀ side lower upper, sj_interval_bounds x = Some (lower, upper) → in_i64 (threshold side lower upper w).
(** A poll: the store can be read, a batch fits the schema of its side. *)
Definition poll_ok (p : Poll) : Prop :=
  reads_fine p.1 ∧
  match p.2.2 with
  | Ok (FlowData b _) => fits (side_schema x p.2.1) b
  | y => ∀ w, item_mark y = Some w → mark_ok w
  end.
(** No row is older than a watermark that came before it on its side. *)
Definition timely (polls : list Poll) : Prop :=
  ∀ p1 io side b r p2 w row t, polls = p1 ++ (io, (side, Ok (FlowData b r))) :: p2 →
    w ∈ side_marks side p1 → row ∈ rows b → side_time side row = Some t → (w <= t)%Z.

Definition wm_of (acc : JoinAccum) (side : Side) : option Z :=
  match side with SideLeft => ja_lwm acc | SideRight => ja_rwm acc end.
Definition gathered (st : State) (side : Side) : list RecordBatch :=
  gather_side io_fine v st.1 (side_op side) (side_of st.2 side).
(** A row that no later row of the other side can match. *)
Definition expired (acc : JoinAccum) (side : Side) (r : Row) : Prop :=
  ∃ lower upper w t, sj_interval_bounds x = Some (lower, upper) ∧ wm_of acc (other_side side) = Some w ∧
    side_time side r = Some t ∧ (t < threshold side lower upper w)%Z.
(** At most [n] batches are buffered on a side, and its chunks have numbers up to [m]. *)
Record join_inv (hist : list Poll) (n m : nat) (st : State) : Prop := {
  ji_rows side : ∃ old, side_rows side hist ≡ₚ (gathered st side ≫= rows) ++ old ∧
    ∀ r, r ∈ old → expired st.2 side r;
  ji_fits side : Forall (fits (side_schema x side)) (gathered st side);
  ji_wm side w : wm_of st.2 side = Some w → w ∈ side_marks side hist ∧ mark_ok w;
  ji_side side : side_inv v n (side_of st.2 side);
  ji_count side : length (gathered st side) ≤ n;
  ji_next side : (sb_next (side_of st.2 side) <= N.of_nat m)%N;
  ji_last w : ja_last_wm st.2 = Some w → in_i64 w ∧ w ≠ i64_min
}.

Lemma side_rows_app side l1 l2 : side_rows side (l1 ++ l2) = side_rows side l1 ++ side_rows side l2.
Proof. apply bind_app. Qed.
Lemma side_marks_app side l1 l2 : side_marks side (l1 ++ l2) = side_marks side l1 ++ side_marks side l2.
Proof. apply omap_app. Qed.
Lemma side_op_segment side : segment (side_op side).
Proof. destruct side; (split; [done|]; repeat constructor; done). Qed.
Lemma side_op_ne side side' : side ≠ side' → side_op side ≠ side_op side'.
Proof. by destruct side, side'. Qed.
Lemma side_of_with acc side b : side_of (with_side acc side b) side = b.
Proof. by destruct side. Qed.
Lemma side_of_with_ne acc side side' b : side ≠ side' → side_of (with_side acc side b) side' = side_of acc side'.
Proof. by destruct side, side'. Qed.
Lemma wm_of_with acc side side' b : wm_of (with_side acc side b) side' = wm_of acc side'.
Proof. by destruct side, side'. Qed.

Definition all_pairs (polls : list Poll) : list Row := pairs good (side_rows SideLeft polls) (side_rows SideRight polls).
Lemma all_pairs_data polls io side b r :
  all_pairs (polls ++ [(io, (side, Ok (FlowData b r)))]) ≡ₚ
  side_pairs good side (rows b) (side_rows (other_side side) polls) ++ all_pairs polls.
Proof.
  unfold all_pairs. rewrite !side_rows_app. destruct side; cbn; rewrite !app_nil_r.
  - rewrite pairs_app_l. apply Permutation_app_comm.
  - rewrite pairs_app_r. apply Permutation_app_comm.
Qed.
Lemma all_pairs_other polls (p : Poll) : item_cells p.2.2 = [] → all_pairs (polls ++ [p]) = all_pairs polls.
Proof.
  intros Hp. unfold all_pairs. rewrite !side_rows_app. unfold side_rows at 2 4. cbn.
  rewrite Hp. destruct (decide _), (decide _); cbn; by rewrite !app_nil_r.
Qed.
Lemma side_pairs_app f side new l1 l2 :
  side_pairs (E := E) f side new (l1 ++ l2) ≡ₚ side_pairs f side new l1 ++ side_pairs f side new l2.
Proof. destruct side; cbn; [apply pairs_app_r|by rewrite pairs_app_l]. Qed.
Lemma side_pairs_perm f side new l1 l2 :
  l1 ≡ₚ l2 → side_pairs (E := E) f side new l1 ≡ₚ side_pairs f side new l2.
Proof. intros H. destruct side; cbn; by rewrite H. Qed.

(** A row that arrives on time matches no expired row. *)
Lemma expired_unmatched hist n m st io side b r old :
  configured → join_inv hist n m st → timely (hist ++ [(io, (side, Ok (FlowData b r)))]) →
  (∀ row, row ∈ old → expired st.2 (other_side side) row) → side_pairs good side (rows b) old = [].
Proof.
  intros Hcf Hi Ht Hold.
  assert (∀ new row, new ∈ rows b → row ∈ old →
    match side with SideLeft => good new row | SideRight => good row new end = false) as H.
  { intros new row Hnew Hrow. apply not_true_iff_false. intros Hg.
    destruct (Hold row Hrow) as (lower & upper & w & t & Hb & Hw & Htime & Hlt).
    assert (∀ tn, side_time side new = Some tn → (w <= tn)%Z) as Hon.
    { intros tn Hn. eapply (Ht hist io side b r [] w new tn); try done.
      assert (other_side (other_side side) = side) as Hoo by (by destruct side). rewrite Hoo in Hw.
      by apply (ji_wm _ _ _ _ Hi) in Hw as [? _]. }
    destruct side; destruct (cf_interval Hcf lower upper _ _ Hb Hg) as (tl & tr & Hl & Hr & Hlo & Hup);
      cbn in *; simplify_eq; [specialize (Hon tl Hl)|specialize (Hon tr Hr)]; lia. }
  destruct side; cbn; apply pairs_none; intros l' r' Hl Hr; apply H; done.
Qed.

(** Another buffer on a side. *)
Lemma join_inv_side hist hist' n m n' m' side s acc s' b' :
  join_inv hist n m (s, acc) → chunks_only (side_op side) s s' → n ≤ n' → m ≤ m' →
  (∀ sd w, w ∈ side_marks sd hist → w ∈ side_marks sd hist') →
  (∀ sd, sd ≠ side → side_rows sd hist' = side_rows sd hist) →
  let G := gather_side io_fine v s' (side_op side) b' in
  (∃ old, side_rows side hist' ≡ₚ (G ≫= rows) ++ old ∧ ∀ r, r ∈ old → expired acc side r) →
  Forall (fits (side_schema x side)) G → length G ≤ n' → side_inv v n' b' → (sb_next b' <= N.of_nat m')%N →
  join_inv hist' n' m' (s', with_side acc side b').
Proof.
  intros [H1 H2 H3 H4 H5 H6 H7] Hc Hn Hm Hmarks Hother G Hrows HG Hlen Hb Hnext.
  assert (∀ sd, sd ≠ side → gathered (s', with_side acc side b') sd = gathered (s, acc) sd) as Hg.
  { intros sd Hsd. unfold gathered. cbn. rewrite side_of_with_ne by done.
    eapply gather_frame; [apply side_op_segment..|by apply side_op_ne|done]. }
  assert (gathered (s', with_side acc side b') side = G) as Hgs by (unfold gathered; cbn; by rewrite side_of_with).
  assert (∀ sd r, expired acc sd r → expired (with_side acc side b') sd r) as Hexp.
  { intros sd r (lower & upper & w & t & ?). exists lower, upper, w, t. by rewrite wm_of_with. }
  split; cbn [fst snd].
  - intros sd. destruct (decide (sd = side)) as [->|Hsd]; [rewrite Hgs; naive_solver|].
    destruct (H1 sd) as (old & Hp & Ho). exists old. rewrite Hg, Hother by done. naive_solver.
  - intros sd. destruct (decide (sd = side)) as [->|Hsd]; [by rewrite Hgs|rewrite Hg by done; apply H2].
  - intros sd w. rewrite wm_of_with. intros Hw. destruct (H3 sd w Hw). naive_solver.
  - intros sd. destruct (decide (sd = side)) as [->|Hsd]; [by rewrite side_of_with|].
    rewrite side_of_with_ne by done. destruct (H4 sd). cbn in *. split; [done|lia|done].
  - intros sd. destruct (decide (sd = side)) as [->|Hsd]; [by rewrite Hgs|rewrite Hg by done].
    specialize (H5 sd). lia.
  - intros sd. destruct (decide (sd = side)) as [->|Hsd]; [by rewrite side_of_with|].
    rewrite side_of_with_ne by done. specialize (H6 sd). cbn in H6. lia.
  - by destruct side.
Qed.
(** The same state, seen later. *)
Lemma join_inv_same hist hist' n m n' m' st :
  join_inv hist n m st → n ≤ n' → m ≤ m' → (∀ sd w, w ∈ side_marks sd hist → w ∈ side_marks sd hist') →
  (∀ sd, side_rows sd hist' = side_rows sd hist) → join_inv hist' n' m' st.
Proof.
  intros [H1 H2 H3 H4 H5 H6 H7] Hn Hm Hmarks Hrows. split; [|done|..|done].
  - intros sd. rewrite Hrows. apply H1.
  - intros sd w Hw. destruct (H3 sd w Hw). naive_solver.
  - intros sd. destruct (H4 sd). split; [done|lia|done].
  - intros sd. specialize (H5 sd). lia.
  - intros sd. specialize (H6 sd). lia.
Qed.

Definition out_marks (out : list Item) : list Z := omap item_mark out.
Definition marks_step (acc : JoinAccum) (out : list Item) (acc' : JoinAccum) : Prop :=
  (out_marks out = [] ∧ ja_last_wm acc' = ja_last_wm acc) ∨
  ∃ w, ja_last_wm acc' = Some w ∧ (∀ l, ja_last_wm acc = Some l → (l < w)%Z) ∧
    (out_marks out = [] ∨ out_marks out = [w]).
Lemma emit_matches_marks f out l e : emit_matches f out = (l, e) → out_marks (Ok <$> l) = [].
Proof.
  revert l e. induction out as [|b out IH]; intros l e; cbn [emit_matches]; [by intros [= <- _]|].
  destruct (match f with Some f => apply_filter b f | None => Ok b end) as [b'|]; [|by intros [= <- _]].
  destruct (emit_matches f out) as [l1 e1]. intros [= <- _]. unfold out_marks.
  rewrite fmap_app, omap_app. unfold out_marks in IH. rewrite (IH l1 e1 eq_refl), app_nil_r.
  by destruct (_ <? _)%nat.
Qed.

(** A step: what its items hold, the errors and the watermarks among them. *)
Definition step_ok (hist : list Poll) (n m : nat) (st : State) (p : Poll) (out : list Item) (st' : State) : Prop :=
  join_inv (hist ++ [p]) (S n) (m + 2 * S n) st' ∧ out_rows out ++ all_pairs hist ≡ₚ all_pairs (hist ++ [p]) ∧
  (∀ e, Err e ∈ out → p.2.2 = Err e) ∧ marks_step st.2 out st'.2.
Lemma step_ok_same hist n m (p : Poll) out s acc s' :
  join_inv hist n m (s', acc) → item_cells p.2.2 = [] → out_rows out = [] →
  (∀ e, Err e ∈ out → p.2.2 = Err e) → out_marks out = [] → step_ok hist n m (s, acc) p out (s', acc).
Proof.
  intros Hi Hp Hout He Hm. split_and!; [| |done|by left].
  - eapply join_inv_same; [done|lia..| |].
    + intros sd w Hw. rewrite side_marks_app. set_solver.
    + intros sd. rewrite side_rows_app. unfold side_rows at 2. cbn. rewrite Hp.
      destruct (decide _); cbn; by rewrite app_nil_r.
  - by rewrite Hout, all_pairs_other.
Qed.

Lemma join_data_ok hist n m io side b r s acc :
  configured → join_inv hist n m (s, acc) → poll_ok (io, (side, Ok (FlowData b r))) →
  timely (hist ++ [(io, (side, Ok (FlowData b r)))]) → (N.of_nat m < u64_max)%N →
  ∃ out st', join_data io v x side b s acc = Returns (out, st') ∧
    step_ok hist n m (s, acc) (io, (side, Ok (FlowData b r))) out st'.
Proof.
  intros Hcf Hi [Hio Hb] Ht Hm. cbn in Hio, Hb. unfold join_data.
  destruct (Nat.eqb_spec (batch_num_rows b) 0) as [H0|_].
  { eexists _, _. split; [done|]. apply step_ok_same; [done| |done|set_solver|].
    - apply nil_length_inv. cbn. by rewrite rows_length.
    - done. }
  destruct (join_incoming_spec x (cf_output Hcf) io v s b side (side_of acc (other_side side)) Hio Hb)
    as (l & -> & Hf & Hl); [apply (ji_fits _ _ _ _ Hi)|].
  cbn [mbind Run_bind]. destruct (emit_matches_spec x l Hf) as (evs & Hemit & Hevs).
  pose proof (emit_matches_marks _ _ _ _ Hemit) as Hmarks. rewrite Hemit.
  destruct (spill_side_over_budget io v (side_op side) (side_schema x side) s (push_side (side_of acc side) b))
    as [s' b'] eqn:Hs.
  pose proof (ji_next _ _ _ _ Hi side) as Hnext. cbn in Hnext.
  apply (spill_side_spec v _ _ (side_op_segment side) io n) in Hs as (Hg & Hsi & Hc & Hn);
    [|by destruct (ji_side _ _ _ _ Hi side)|cbn; lia].
  rewrite gather_push in Hg. cbn in Hn.
  eexists _, _. split; [done|]. split_and!.
  - eapply (join_inv_side hist _ n m); [done..|lia|lia| | | | | |done|lia].
    + intros sd w Hw. rewrite side_marks_app. set_solver.
    + intros sd Hsd. rewrite side_rows_app. unfold side_rows at 2. cbn. rewrite decide_False by done.
      by rewrite app_nil_r.
    + destruct (ji_rows _ _ _ _ Hi side) as (old & Hp & Ho). exists old. split; [|done].
      rewrite side_rows_app, Hp, Hg, bind_app. unfold side_rows, gathered. cbn. rewrite decide_True by done.
      rewrite !app_nil_r, <-!app_assoc. f_equiv. apply Permutation_app_comm.
    + rewrite Hg. apply Forall_app. split; [apply (ji_fits _ _ _ _ Hi)|by apply Forall_singleton].
    + rewrite Hg, length_app. pose proof (ji_count _ _ _ _ Hi side) as Hlen. unfold gathered in Hlen. cbn in *. lia.
  - rewrite all_pairs_data. f_equiv. rewrite Hevs, Hl.
    destruct (ji_rows _ _ _ _ Hi (other_side side)) as (old & Hp & Ho).
    rewrite (side_pairs_perm _ _ _ _ _ Hp), side_pairs_app.
    rewrite (expired_unmatched hist n m (s, acc) io side b r old) by done. rewrite app_nil_r.
    destruct side; cbn [side_pairs]; by rewrite filter_pairs.
  - intros e (ev & [=] & _)%list_elem_of_fmap.
  - left. split; [done|]. by destruct side.
Qed.

(** *** Watermarks *)
Lemma threshold_mono side lower upper w w' : (w <= w')%Z → (threshold side lower upper w <= threshold side lower upper w')%Z.
Proof. destruct side; cbn; lia. Qed.
Lemma note_watermark_wm acc side w sd :
  wm_of (note_watermark acc side w) sd = if decide (sd = side) then max_wm (wm_of acc sd) w else wm_of acc sd.
Proof. by destruct side, sd. Qed.
Lemma note_watermark_ok hist n m side (p : Poll) w s acc :
  join_inv hist n m (s, acc) → p.2.1 = side → item_mark p.2.2 = Some w → item_cells p.2.2 = [] → mark_ok w →
  join_inv (hist ++ [p]) n m (s, note_watermark acc side w).
Proof.
  intros [H1 H2 H3 H4 H5 H6 H7] Hp Hw Hnone Hok.
  assert (∀ sd, side_of (note_watermark acc side w) sd = side_of acc sd) as Hs by (by intros []; destruct side).
  assert (∀ sd, gathered (s, note_watermark acc side w) sd = gathered (s, acc) sd) as Hg.
  { intros sd. unfold gathered. cbn. by rewrite Hs. }
  split; cbn [fst snd].
  - intros sd. destruct (H1 sd) as (old & Hperm & Hold). exists old. rewrite Hg, side_rows_app, Hperm. split.
    { unfold side_rows. cbn. rewrite Hnone. destruct (decide _); cbn; by rewrite app_nil_r. }
    intros r Hr. destruct (Hold r Hr) as (lower & upper & w0 & t & Hb & Hw0 & Ht & Hlt). cbn in Hw0.
    exists lower, upper. rewrite note_watermark_wm, Hw0. destruct (decide _); cbn; [|by eexists _, _].
    exists (Z.max w0 w), t. split_and!; [done..|].
    pose proof (threshold_mono sd lower upper w0 (Z.max w0 w)). lia.
  - intros sd. rewrite Hg. apply H2.
  - intros sd w'. rewrite note_watermark_wm, side_marks_app. destruct (decide (sd = side)) as [->|Hne].
    + assert (side_marks side [p] = [w]) as ->.
      { unfold side_marks. cbn. rewrite decide_True, Hw by done. done. }
      unfold max_wm. intros [= <-]. destruct (wm_of acc side) as [c|] eqn:Hc; [|set_solver].
      destruct (H3 side c Hc). destruct (Z.max_spec c w) as [[_ ->]|[_ ->]]; set_solver.
    + intros Hw'. destruct (H3 sd w' Hw'). set_solver.
  - intros sd. rewrite Hs. apply H4.
  - intros sd. rewrite Hg. apply H5.
  - intros sd. rewrite Hs. apply H6.
  - by destruct side.
Qed.
Lemma join_inv_ext hist n m s acc acc' :
  (∀ sd, side_of acc' sd = side_of acc sd) → (∀ sd, wm_of acc' sd = wm_of acc sd) →
  (∀ w, ja_last_wm acc' = Some w → in_i64 w ∧ w ≠ i64_min) →
  join_inv hist n m (s, acc) → join_inv hist n m (s, acc').
Proof.
  intros Hs Hw Hl [H1 H2 H3 H4 H5 H6 _]. unfold gathered, expired in *. cbn [fst snd] in *.
  split; unfold gathered, expired; cbn [fst snd]; [intros sd; setoid_rewrite Hs || idtac;
    setoid_rewrite Hw || idtac; by auto..|done].
Qed.
Lemma forward_watermark_ok hist n m s acc :
  join_inv hist n m (s, acc) → join_inv hist n m (s, (forward_watermark acc).2).
Proof.
  intros Hi. apply (join_inv_ext _ _ _ _ acc); [intros []; unfold forward_watermark; by repeat case_match..| |done].
  intros w. unfold forward_watermark. pose proof (ji_last _ _ _ _ Hi) as Hl. cbn in Hl.
  destruct (ja_lwm acc) as [lw|] eqn:H1; [|by apply Hl]. destruct (ja_rwm acc) as [rw|] eqn:H2; [|by apply Hl].
  destruct (ji_wm _ _ _ _ Hi SideLeft lw H1) as [_ (? & ? & _)].
  destruct (ji_wm _ _ _ _ Hi SideRight rw H2) as [_ (? & ? & _)].
  case_match; cbn; [|by apply Hl]. intros [= <-]. by destruct (Z.min_spec lw rw) as [[_ ->]|[_ ->]].
Qed.
Lemma forward_watermark_marks acc l acc' :
  forward_watermark acc = (l, acc') → marks_step acc l acc' ∧ out_rows l = [] ∧ ∀ e, Err e ∉ l.
Proof.
  unfold forward_watermark, marks_step.
  assert (([], acc) = (l, acc') → (out_marks l = [] ∧ ja_last_wm acc' = ja_last_wm acc ∨
    ∃ w, ja_last_wm acc' = Some w ∧ (∀ l, ja_last_wm acc = Some l → (l < w)%Z) ∧
      (out_marks l = [] ∨ out_marks l = [w])) ∧ out_rows l = [] ∧ ∀ e, Err e ∉ l) as Hnone.
  { intros [= <- <-]. split_and!; [by left|done|set_solver]. }
  destruct (ja_lwm acc) as [lw|], (ja_rwm acc) as [rw|]; try done.
  destruct (match ja_last_wm acc with Some prev => _ | None => true end) eqn:Hlast; [|done].
  intros [= <- <-]. cbn [ja_last_wm]. split_and!.
  - right. exists (lw `min` rw)%Z. split_and!; [done| |].
    + intros p Hp. rewrite Hp in Hlast. by apply Z.ltb_lt.
    + destruct (dt_from_timestamp_micros _) as [t|] eqn:Ht; [right|by left]. unfold out_marks. cbn.
      by rewrite (micros_of_from _ _ Ht).
  - by destruct (dt_from_timestamp_micros _).
  - destruct (dt_from_timestamp_micros _); set_solver.
Qed.

Lemma evict_side_ok hist n m io side lower upper s acc :
  configured → join_inv hist n m (s, acc) → reads_fine io → (N.of_nat (m + n) <= u64_max)%N →
  sj_interval_bounds x = Some (lower, upper) →
  ∃ st', evict_side io v x side (ts_idx side)
      ((λ w, wrap_i64 (threshold side lower upper w)) <$> wm_of acc (other_side side)) s acc = Returns st' ∧
    join_inv hist n (m + n) st' ∧ (∀ sd, wm_of st'.2 sd = wm_of acc sd) ∧ ja_last_wm st'.2 = ja_last_wm acc.
Proof.
  intros Hcf Hi Hio Hmn Hbounds. unfold evict_side.
  assert (join_inv hist n (m + n) (s, acc)) as Hsame by (eapply join_inv_same; [done|lia|lia|done|done]).
  destruct (wm_of acc (other_side side)) as [w|] eqn:Hw; cbn [fmap option_fmap option_map]; [|by eexists].
  destruct (ts_idx side) as [idx|] eqn:Hidx; [|by eexists].
  pose proof (ji_next _ _ _ _ Hi side) as Hnext. cbn in Hnext.
  pose proof (ji_count _ _ _ _ Hi side) as Hcount. unfold gathered in Hcount. cbn in Hcount.
  destruct (ji_wm _ _ _ _ Hi _ _ Hw) as [_ (_ & _ & Hrange)].
  specialize (Hrange side lower upper Hbounds). rewrite wrap_i64_small by done.
  unfold evict_respill_side. rewrite gather_fine by done.
  destruct (evict_older_than_spec x (side_schema x side) _ idx (threshold side lower upper w)
    (or_introl (ex_intro _ side eq_refl)) (ji_fits _ _ _ _ Hi side) (cf_idx Hcf _ _ Hidx)) as (l & Hl & Hfl & Hlen & gone & Hgone & Hold).
  unfold gathered in Hl. cbn [fst snd] in Hl. rewrite Hl. cbn [mbind Run_bind].
  set (s1 := if jv_ck v then _ else s).
  assert (chunks_only (side_op side) s s1) as Hc1 by (unfold s1; destruct (jv_ck v); [apply delete_chunks_only|done]).
  destruct (foldl _ (s1, _) l) as [s' b'] eqn:Hf.
  unfold gathered in Hlen. cbn [fst snd] in Hlen.
  apply (respill_spec v _ _ (side_op_segment side) io 0) in Hf as (Hg & Hsi & Hc & Hn);
    [|split; cbn; [set_solver|lia|done]|cbn; lia].
  assert (gather_side io_fine v s1 (side_op side) (MkSideBuf [] [] 0 (sb_next (side_of acc side))) = []) as Hnil.
  { unfold gather_side. cbn. by destruct (jv_ck v). }
  rewrite Hnil in Hg. cbn [app] in Hg. cbn [sb_next] in Hn.
  eexists. split; [done|]. split; [|by destruct side]. cbn [fst snd].
  eapply (join_inv_side hist hist n m); [done|by eapply chunks_only_trans|lia|lia|done|done| |by rewrite Hg|rewrite Hg; lia| |lia].
  - destruct (ji_rows _ _ _ _ Hi side) as (old & Hp & Ho). exists (gone ++ old). split.
    { rewrite Hp, Hgone, Hg. by rewrite <-app_assoc. }
    intros r [Hr|Hr]%elem_of_app; [|by apply Ho]. destruct (Hold r Hr) as (t & Ht & Hlt).
    exists lower, upper, w, t. split_and!; [done..| |done]. unfold side_time. by rewrite Hidx.
  - destruct Hsi as [Hi1 Hi2 Hi3]. split; [done|lia|done].
Qed.
Lemma join_evict_ok hist n m io s acc :
  configured → join_inv hist n m (s, acc) → reads_fine io → (N.of_nat (m + n + n) <= u64_max)%N →
  ∃ st', join_evict io v x s acc = Returns st' ∧ join_inv hist n (m + n + n) st' ∧
    ja_last_wm st'.2 = ja_last_wm acc.
Proof.
  intros Hcf Hi Hio Hm. unfold join_evict. destruct (sj_interval_bounds x) as [[lower upper]|] eqn:Hb.
  2:{ eexists. split; [done|]. split; [|done]. eapply join_inv_same; [done|lia|lia|done|done]. }
  destruct (evict_side_ok hist n m io SideLeft lower upper s acc) as ([s1 acc1] & Hs1 & Hi1 & Hw1 & Hl1);
    [done..|lia|done|]. cbn [ts_idx other_side wm_of threshold] in Hs1. rewrite Hs1. cbn [mbind Run_bind fst snd].
  destruct (evict_side_ok hist n (m + n) io SideRight lower upper s1 acc1) as (st2 & Hs2 & Hi2 & _ & Hl2);
    [done..|]. cbn [ts_idx other_side threshold] in Hs2. cbn [fst snd] in *. rewrite (Hw1 SideLeft) in Hs2.
  cbn [wm_of] in Hs2. exists st2. split_and!; [done..|congruence].
Qed.

(** *** Steps *)
Lemma staged_path op : segment op → child (staged_key op) = ["state"; op; "staged"].
Proof.
  intros Hop. unfold staged_key. change ("/staged") with (String "/" "staged"). by rewrite state_path.
Qed.
Lemma committed_path op : segment op → child (committed_key op) = ["state"; op; "committed"].
Proof.
  intros Hop. unfold committed_key. change ("/committed") with (String "/" "committed"). by rewrite state_path.
Qed.
Definition keeps_chunks (s s' : Store) : Prop :=
  ∀ side i, s' !! child (spill_key (side_op side) i) = s !! child (spill_key (side_op side) i).
Lemma gathered_keeps s s' acc side : keeps_chunks s s' → gathered (s', acc) side = gathered (s, acc) side.
Proof.
  intros Hk. unfold gathered, gather_side. cbn. destruct (jv_ck v); [|done]. f_equal.
  apply list_bind_ext_elem. intros i _. unfold read_spill. f_equal. apply get_state_same, Hk.
Qed.
Lemma join_inv_store hist n m s s' acc :
  keeps_chunks s s' → join_inv hist n m (s, acc) → join_inv hist n m (s', acc).
Proof.
  intros Hk [H1 H2 H3 H4 H5 H6 H7].
  split; try intros sd; rewrite ?(gathered_keeps s s') by done;
    [apply H1|apply H2|apply H3|apply H4|apply H5|apply H6|apply H7].
Qed.
Lemma join_snapshot_keeps io s acc : keeps_chunks s (join_snapshot io v x s acc).
Proof.
  intros side i. unfold join_snapshot. destruct (jv_ck v); [|done].
  pose proof (side_op_segment side). pose proof (side_op_segment SideLeft). pose proof (side_op_segment SideRight).
  destruct (jv_inc v); unfold stage_epoch_incremental, stage_state;
    repeat first [rewrite put_other|rewrite put_state_other|done];
    rewrite spill_path, ?manifest_path, ?residual_path, ?staged_path by done; by intros [=].
Qed.

Lemma join_step_ok hist n m st p :
  configured → join_inv hist n m st → poll_ok p → timely (hist ++ [p]) → (N.of_nat (m + 2 * S n) < u64_max)%N →
  ∃ out st', join_step v x st p = Returns (out, st') ∧ step_ok hist n m st p out st'.
Proof.
  intros Hcf Hi Hp Ht Hm. destruct st as [s acc], p as [io [side y]]. unfold join_step.
  assert (∀ y s', keeps_chunks s s' → item_cells y = [] → item_mark y = None →
    step_ok hist n m (s, acc) (io, (side, y)) [y] (s', acc)) as Hpass.
  { intros y' s' Hk Hc Hn. apply step_ok_same; [by eapply join_inv_store|done| | |].
    - unfold out_rows. cbn. by rewrite Hc.
    - intros e ->%list_elem_of_singleton. done.
    - unfold out_marks. cbn. by rewrite Hn. }
  destruct y as [[b r|mk]|e].
  - by apply (join_data_ok hist n m); try done; lia.
  - destruct mk as [src id t|src t|id| |src].
    + eexists _, _. split; [done|]. apply Hpass; [by intros|done..].
    + set (w := dt_timestamp_micros t).
      pose proof (note_watermark_ok hist n m side (io, (side, Ok (FlowMark (Watermark src t)))) w s acc Hi eq_refl
        eq_refl eq_refl ltac:(by apply Hp)) as Hi1.
      pose proof (forward_watermark_ok _ _ _ _ _ Hi1) as Hi2.
      destruct (forward_watermark (note_watermark acc side w)) as [l acc2] eqn:Hfw. cbn in Hi2.
      destruct (join_evict_ok _ _ _ io s acc2 Hcf Hi2) as (st' & He & Hi3 & Hlast); [apply Hp|lia|].
      rewrite He. cbn [mbind Run_bind]. eexists _, _. split; [done|].
      destruct (forward_watermark_marks _ _ _ Hfw) as (Hmk & Hrows & Herr).
      split_and!; [eapply join_inv_same; [exact Hi3|lia|lia|done|done]| | |].
      * by rewrite Hrows, all_pairs_other.
      * intros e Hin. by destruct (Herr e).
      * unfold marks_step in *. cbn [snd]. rewrite Hlast. by destruct side.
    + eexists _, _. split; [done|]. apply Hpass; [by intros|done..].
    + eexists _, _. split; [done|]. apply Hpass; [apply join_snapshot_keeps|done..].
    + eexists _, _. split; [done|]. apply Hpass; [by intros|done..].
  - eexists _, _. split; [done|]. apply Hpass; [by intros|done..].
Qed.

Definition after (last : option Z) (l : list Z) : Prop :=
  StronglySorted Z.lt l ∧ ∀ p w, last = Some p → w ∈ l → (p < w)%Z.
Lemma after_step acc out acc' l :
  marks_step acc out acc' → after (ja_last_wm acc') l → after (ja_last_wm acc) (out_marks out ++ l).
Proof.
  intros [[-> Hl]|(w & Hw & Hlt & Hout)] [Hs Ha]; [by rewrite Hl in Ha|].
  assert (∀ p w', ja_last_wm acc = Some p → w' ∈ l → (p < w')%Z) as Hle.
  { intros p w' Hp Hin. specialize (Hlt p Hp). specialize (Ha w w' Hw Hin). lia. }
  destruct Hout as [-> | ->]; [done|]. split; cbn [app].
  - constructor; [done|]. apply Forall_forall. intros w' Hw'. by eapply Ha.
  - intros p w' Hp [->|Hin]%elem_of_cons; eauto.
Qed.

Lemma timely_prefix l1 l2 : timely (l1 ++ l2) → timely l1.
Proof.
  intros H p1 io side b r p2 w row t -> Hw Hrow Ht. eapply (H p1 io side b r (p2 ++ l2)); try done.
  by rewrite <-app_assoc.
Qed.

Lemma join_steps_ok polls : ∀ hist n m k st,
  configured → join_inv hist n m st → Forall poll_ok polls → timely (hist ++ polls) →
  n + length polls ≤ k → (N.of_nat (m + 2 * length polls * S k) < u64_max)%N →
  ∃ out st', join_steps v x st polls = Returns (out, st') ∧
    join_inv (hist ++ polls) (n + length polls) (m + 2 * length polls * S k) st' ∧
    out_rows out ++ all_pairs hist ≡ₚ all_pairs (hist ++ polls) ∧
    (∀ e, Err e ∈ out → ∃ p, p ∈ polls ∧ p.2.2 = Err e) ∧
    ∀ l, after (ja_last_wm st'.2) l → after (ja_last_wm st.2) (out_marks out ++ l).
Proof.
  induction polls as [|p polls IH]; intros hist n m k st Hcf Hi Hp Ht Hk Hm; cbn [length] in *.
  { eexists _, _. split; [done|]. rewrite app_nil_r, !Nat.add_0_r. split_and!; [done..|set_solver|done]. }
  apply Forall_cons in Hp as [Hp Hps].
  assert (hist ++ p :: polls = (hist ++ [p]) ++ polls) as Heq by (by rewrite <-app_assoc). rewrite Heq in *.
  destruct (join_step_ok hist n m st p Hcf Hi Hp (timely_prefix _ _ Ht)) as (out & st1 & Hs & Hi1 & Hr1 & He1 & Hm1).
  { lia. }
  assert (join_inv (hist ++ [p]) (S n) (m + 2 * S k) st1) as Hi1'.
  { eapply join_inv_same; [done|lia|lia|done|done]. }
  destruct (IH _ _ _ k st1 Hcf Hi1' Hps Ht) as (out2 & st2 & Hss & Hi2 & Hr2 & He2 & Hm2); [lia|lia|].
  cbn [join_steps]. rewrite Hs. cbn [mbind Run_bind]. rewrite Hss. cbn [mbind Run_bind].
  eexists _, _. split; [done|]. split_and!.
  - eapply join_inv_same; [exact Hi2|lia|lia|done|done].
  - unfold out_rows in *. rewrite bind_app, <-Hr2, <-Hr1. rewrite !app_assoc. f_equiv. apply Permutation_app_comm.
  - intros e [He|He]%elem_of_app; [exists p|destruct (He2 e He) as (q & ? & ?); exists q]; set_solver.
  - intros l Hl. unfold out_marks. rewrite omap_app, <-app_assoc. eapply after_step; [done|]. by apply Hm2.
Qed.

Lemma join_steps_app l1 l2 st out1 st1 out2 st2 :
  join_steps v x st l1 = Returns (out1, st1) → join_steps v x st1 l2 = Returns (out2, st2) →
  join_steps v x st (l1 ++ l2) = Returns (out1 ++ out2, st2).
Proof.
  revert st out1. induction l1 as [|p l1 IH]; intros st out1 H1 H2; cbn [join_steps app] in *; [by simplify_eq|].
  destruct (join_step v x st p) as [[o st0]| |]; cbn [mbind Run_bind] in *; try done.
  destruct (join_steps v x st0 l1) as [[o1 st0']| |] eqn:H; cbn [mbind Run_bind] in *; simplify_eq.
  rewrite (IH _ _ H H2). cbn. by rewrite app_assoc.
Qed.

(** *** A first run *)
Definition join_fresh : JoinAccum := MkJoinAccum side_new side_new None None None true.
Lemma restore_empty io : join_restore io v ∅ join_accum_new = join_fresh.
Proof.
  unfold join_restore. cbn. destruct (jv_ck v), (jv_inc v); try done;
    unfold restore_epoch_incremental, restore_state, get_manifest, get_state, ck_get;
    repeat match goal with |- context [io_get io ?k] => destruct (io_get io k) end; by rewrite ?lookup_empty.
Qed.
Lemma join_inv_fresh : join_inv [] 0 0 (∅, join_fresh).
Proof.
  assert (∀ sd, gathered (∅, join_fresh) sd = []) as Hg.
  { intros []; unfold gathered, gather_side; cbn; by destruct (jv_ck v). }
  split; cbn.
  - intros sd. exists []. rewrite Hg. split; [done|set_solver].
  - intros sd. by rewrite Hg.
  - by intros [].
  - intros []; (split; cbn; [set_solver|lia|done]).
  - intros sd. rewrite Hg. done.
  - by intros [].
  - done.
Qed.

(** *** A restart *)
(** What the runner leaves in the store for the next run. *)
Definition next_store (s : Store) : Store :=
  if jv_inc v then s else commit_staged io_fine [JOIN_LEFT_OP; JOIN_RIGHT_OP] s.
Definition side_meta (acc : JoinAccum) (side : Side) : list Z :=
  match side with SideLeft => join_meta acc | SideRight => [] end.
Definition restored_from (s : Store) (side : Side) : list RecordBatch * list Z :=
  if jv_inc v then restore_epoch_incremental io_fine s (side_op side) JOIN_SNAPSHOT_EPOCH
  else restore_state io_fine s (side_op side).

Lemma meta_in_range hist n m s acc side :
  join_inv hist n m (s, acc) →
  Forall (λ z, -9223372036854775808 <= z < 9223372036854775808)%Z (side_meta acc side) ∧
  length (side_meta acc side) ≤ 3.
Proof.
  intros Hi. destruct side; cbn; [|by split; [constructor|lia]]. split; [|lia]. unfold join_meta.
  assert (∀ o : option Z, (∀ w, o = Some w → in_i64 w) →
    (-9223372036854775808 <= default i64_min o < 9223372036854775808)%Z) as H.
  { intros [w|] Ho; cbn; [|unfold i64_min; lia]. specialize (Ho w eq_refl). unfold in_i64 in Ho. lia. }
  repeat apply Forall_cons_2; [..|apply Forall_nil_2]; apply H; intros w Hw.
  - by destruct (ji_wm _ _ _ _ Hi SideLeft w Hw) as [_ [? _]].
  - by destruct (ji_wm _ _ _ _ Hi SideRight w Hw) as [_ [? _]].
  - by destruct (ji_last _ _ _ _ Hi w Hw).
Qed.

Lemma incremental_restores s acc side :
  (∀ sd, manifest_fits (side_meta acc sd) (sb_spilled (side_of acc sd)) []) →
  (∀ sd, is_Some (ipc_write (side_schema x sd) (sb_buf (side_of acc sd)))) →
  let s1 := stage_epoch_incremental io_fine s JOIN_LEFT_OP JOIN_SNAPSHOT_EPOCH (sj_left_schema x)
    (sb_buf (ja_left acc)) (sb_spilled (ja_left acc)) (join_meta acc) in
  let s2 := stage_epoch_incremental io_fine s1 JOIN_RIGHT_OP JOIN_SNAPSHOT_EPOCH (sj_right_schema x)
    (sb_buf (ja_right acc)) (sb_spilled (ja_right acc)) [] in
  restore_epoch_incremental io_fine s2 (side_op side) JOIN_SNAPSHOT_EPOCH =
  (sb_buf (side_of acc side) ++ (sb_spilled (side_of acc side) ≫= read_spill io_fine s (side_op side)),
   side_meta acc side).
Proof.
  intros Hfit Hipc s1 s2.
  pose proof (side_op_segment SideLeft) as HL. pose proof (side_op_segment SideRight) as HR. cbn in HL, HR.
  destruct (stage_restores io_fine s JOIN_LEFT_OP JOIN_SNAPSHOT_EPOCH (sj_left_schema x) (sb_buf (ja_left acc))
    (sb_spilled (ja_left acc)) (join_meta acc) [] HL (Hfit SideLeft) (Hipc SideLeft) eq_refl eq_refl) as [Hm1 Hr1].
  change (stage_epoch_incremental_kg _ _ JOIN_LEFT_OP _ _ _ _ _ _) with s1 in Hm1, Hr1.
  destruct side; cbn [side_op side_of side_meta].
  - rewrite <-Hr1.
    apply (harmless_restore JOIN_LEFT_OP JOIN_SNAPSHOT_EPOCH _ _ _ s1
      [(io_fine, OpStage JOIN_RIGHT_OP JOIN_SNAPSHOT_EPOCH (sj_right_schema x) (sb_buf (ja_right acc))
        (sb_spilled (ja_right acc)) [] [])] HL Hm1).
    constructor; [|constructor]. by split.
  - destruct (stage_restores io_fine s1 JOIN_RIGHT_OP JOIN_SNAPSHOT_EPOCH (sj_right_schema x) (sb_buf (ja_right acc))
      (sb_spilled (ja_right acc)) [] [] HR (Hfit SideRight) (Hipc SideRight) eq_refl eq_refl) as [_ Hr2].
    change (stage_epoch_incremental_kg _ _ JOIN_RIGHT_OP _ _ _ _ _ _) with s2 in Hr2. rewrite Hr2.
    f_equal. f_equal. apply list_bind_ext_elem. intros i _. unfold read_spill. f_equal. apply get_state_same.
    unfold s1, stage_epoch_incremental. rewrite put_other, put_state_other; [done|..];
      rewrite spill_path, ?manifest_path, ?residual_path by done; by intros [=].
Qed.
Lemma full_restores s lb rb meta side :
  is_Some (ipc_write (sj_left_schema x) lb) → is_Some (ipc_write (sj_right_schema x) rb) →
  Forall (λ z, -9223372036854775808 <= z < 9223372036854775808)%Z meta → length meta ≤ 3 →
  let s1 := stage_state io_fine s JOIN_LEFT_OP (sj_left_schema x) lb meta in
  let s2 := stage_state io_fine s1 JOIN_RIGHT_OP (sj_right_schema x) rb [] in
  restore_state io_fine (commit_staged io_fine [JOIN_LEFT_OP; JOIN_RIGHT_OP] s2) (side_op side) =
  match side with SideLeft => (lb, meta) | SideRight => (rb, []) end.
Proof.
  intros [lblob Hl] [rblob Hr] Hrange Hlen s1 s2.
  pose proof (side_op_segment SideLeft) as HL. pose proof (side_op_segment SideRight) as HR. cbn in HL, HR.
  assert (∃ bl, encode_state (sj_left_schema x) lb meta = Some bl) as [bl Hbl]
    by (unfold encode_state; rewrite Hl; by eexists).
  assert (∃ br, encode_state (sj_right_schema x) rb [] = Some br) as [br Hbr]
    by (unfold encode_state; rewrite Hr; by eexists).
  assert (s2 = <[child (staged_key JOIN_RIGHT_OP) := br]> (<[child (staged_key JOIN_LEFT_OP) := bl]> s)) as ->.
  { unfold s2, s1, stage_state, put_state. by rewrite Hbl, Hbr. }
  unfold commit_staged. cbn [foldl]. unfold promote, ck_get, ck_put, ck_delete. cbn [io_get io_put io_delete io_fine].
  rewrite !staged_path, !committed_path by done.
  rewrite lookup_insert_ne, lookup_insert_eq by done. cbn [snd].
  rewrite lookup_delete_ne, lookup_insert_ne, lookup_insert_eq by done. cbn [snd].
  unfold restore_state, get_state, ck_get. cbn [io_get io_fine].
  destruct side; cbn [side_op]; rewrite committed_path by done.
  - rewrite lookup_delete_ne, lookup_insert_ne, lookup_delete_ne, lookup_insert_eq by done.
    apply (state_roundtrip _ _ _ _ Hbl); [lia|done].
  - rewrite lookup_delete_ne, lookup_insert_eq by done. by apply (state_roundtrip _ _ _ _ Hbr).
Qed.
Lemma snapshot_restores hist n m s acc side :
  join_inv hist n m (s, acc) → jv_ck v = true → (N.of_nat n < 4294967296)%N → (N.of_nat m <= u64_max)%N →
  restored_from (next_store (join_snapshot io_fine v x s acc)) side =
  (gathered (s, acc) side, side_meta acc side).
Proof.
  intros Hi Hck Hn Hm.
  assert (∀ sd, is_Some (ipc_write (side_schema x sd) (sb_buf (side_of acc sd)))) as Hipc.
  { intros sd. apply jl_ipc. pose proof (ji_fits _ _ _ _ Hi sd) as Hf. by apply Forall_app in Hf as [? _]. }
  unfold next_store, restored_from, join_snapshot. rewrite Hck.
  destruct (jv_inc v).
  - rewrite incremental_restores; [|intros sd|done].
    + unfold gathered, gather_side. by rewrite Hck.
    + destruct (meta_in_range _ _ _ _ _ sd Hi) as [Hr Hl]. destruct (ji_side _ _ _ _ Hi sd) as [Hs Hc _].
      pose proof (ji_next _ _ _ _ Hi sd) as Hx. cbn in *. split_and!; [lia|lia|done|done| |constructor].
      apply Forall_forall. intros i Hin. specialize (Hs i Hin). lia.
  - destruct (meta_in_range _ _ _ _ _ SideLeft Hi) as [Hr Hl].
    rewrite full_restores; [by destruct side|apply (jl_ipc SideLeft)|apply (jl_ipc SideRight)|done|done].
    + apply (ji_fits _ _ _ _ Hi SideLeft).
    + apply (ji_fits _ _ _ _ Hi SideRight).
Qed.
Lemma meta_wm_default (o : option Z) : (∀ w, o = Some w → w ≠ i64_min) → meta_wm (default i64_min o) = o.
Proof.
  intros H. unfold meta_wm. destruct o as [w|]; cbn; [|by rewrite decide_True].
  rewrite decide_False; [done|]. by apply H.
Qed.
Lemma restart_ok hist n m s acc :
  join_inv hist n m (s, acc) → jv_ck v = true → (N.of_nat n < 4294967296)%N → (N.of_nat m <= u64_max)%N →
  let s2 := next_store (join_snapshot io_fine v x s acc) in
  let acc2 := join_restore io_fine v s2 join_accum_new in
  join_inv hist n 0 (s2, acc2) ∧ ja_last_wm acc2 = ja_last_wm acc.
Proof.
  intros Hi Hck Hn Hm s2 acc2.
  assert (acc2 = MkJoinAccum (restored_side (gathered (s, acc) SideLeft) side_new)
    (restored_side (gathered (s, acc) SideRight) side_new) (ja_lwm acc) (ja_rwm acc) (ja_last_wm acc) true) as ->.
  { pose proof (snapshot_restores hist n m s acc SideLeft Hi Hck Hn Hm) as HL.
    pose proof (snapshot_restores hist n m s acc SideRight Hi Hck Hn Hm) as HR. fold s2 in HL, HR.
    unfold restored_from in HL, HR. unfold acc2, join_restore. cbn [ja_restored join_accum_new]. rewrite Hck.
    cbn [side_op] in HL, HR. rewrite HL, HR. cbn [side_meta]. unfold join_meta.
    rewrite !meta_wm_default; [done|..]; intros w Hw.
    - by destruct (ji_last _ _ _ _ Hi w Hw).
    - by destruct (ji_wm _ _ _ _ Hi SideRight w Hw) as [_ (_ & ? & _)].
    - by destruct (ji_wm _ _ _ _ Hi SideLeft w Hw) as [_ (_ & ? & _)]. }
  split; [|done]. set (acc3 := MkJoinAccum _ _ _ _ _ _).
  assert (∀ sd, gathered (s2, acc3) sd = gathered (s, acc) sd) as Hg.
  { intros []; unfold gathered at 1, gather_side; cbn; destruct (jv_ck v); by rewrite app_nil_r. }
  destruct Hi as [H1 H2 H3 H4 H5 H6 H7]. split; cbn [fst snd].
  - intros sd. rewrite Hg. destruct (H1 sd) as (old & Hp & Ho). exists old. split; [done|].
    intros r Hr. destruct (Ho r Hr) as (lower & upper & w & t & Hb & Hw & Ht & Hlt). exists lower, upper, w, t.
    split_and!; [done| |done..]. by destruct sd.
  - intros sd. rewrite Hg. apply H2.
  - intros sd w Hw. apply H3. by destruct sd.
  - intros []; (split; cbn; [set_solver|lia|done]).
  - intros sd. rewrite Hg. apply H5.
  - by intros [].
  - apply H7.
Qed.

(** ** Claims *)

(** C13. The join of two streams is the join of their rows: over a run from an empty store,
    whatever spills fail or succeed, the rows of the output are, each once, the pairs of a left
    and a right row with equal keys that pass the filter, when no row is older than a watermark
    of its side and the filter implies the bounds by which rows are dropped; only errors of the
    inputs are passed on, and the watermarks of the output increase. *)
Theorem join_pairs_once io polls :
  configured → Forall poll_ok polls → timely polls →
  (N.of_nat (2 * length polls * S (length polls)) < u64_max)%N →
  ∃ out st, join_execute v x 0 io ∅ polls = Ok (Returns (out, st)) ∧
    out_rows out ≡ₚ pairs good (side_rows SideLeft polls) (side_rows SideRight polls) ∧
    (∀ e, Err e ∈ out → ∃ p, p ∈ polls ∧ p.2.2 = Err e) ∧ StronglySorted Z.lt (out_marks out).
Proof.
  intros Hcf Hp Ht Hn.
  destruct (join_steps_ok polls [] 0 0 (length polls) (∅, join_fresh) Hcf join_inv_fresh Hp Ht) as
    (out & st & Hr & _ & Hrows & Herr & Hm); [lia|lia|].
  exists out, st. unfold join_execute. rewrite restore_empty. cbn [negb Nat.eqb]. rewrite Hr. split; [done|].
  rewrite app_nil_r in Hrows. split_and!; [done..|].
  destruct (Hm []) as [Hs _]; [by split; [constructor|set_solver]|]. by rewrite app_nil_r in Hs.
Qed.

End Runs.
