(* ===== verification/WindowSpill.v ===== *)
(** * Streaming: the spilled state of the window operator

    [zelox-physical-plan/src/streaming/window_accum.rs], the part of [AccumState] that
    deals with spilled state under incremental checkpoints ([ZELOX_INC_CKPT]): spilling,
    the rebuilding of the state of the open windows after a merge, the handling of a
    checkpoint, and the restore at the start.

    The aggregation of rows, and with it which rows are pending, is a parameter, as is
    whether the pending rows exceed the budget. *)

From Stdlib Require Import String.
From S2P Require Import Prelude Collections FlowEvents KeyGroups FlowState.
Local Open Scope N_scope.

Section Window.
Context `{E : FlowEngine} `{SC : !StateCodec}.

Record SpillState := MkSpillState {
  wa_pending_rows : list RecordBatch;
  wa_spilled : list N;
  wa_next_spill : N;
  wa_epoch_chunks : list (N * list N);
  wa_gc_candidates : list N
}.
Definition accum_new : SpillState := MkSpillState [] [] 0 [] [].

(** The restore of the committed epoch on the first poll. *)
Definition accum_restore (io : StoreIo) (s : Store) (op : string) (epoch : N) (acc : SpillState)
    : SpillState :=
  let '(batches, _) := restore_epoch_incremental io s op epoch in
  MkSpillState batches (wa_spilled acc) (wa_next_spill acc) (wa_epoch_chunks acc)
    (wa_gc_candidates acc).

(** Rows of the input were aggregated into the pending rows. *)
Definition accum_rows (rows : list RecordBatch) (acc : SpillState) : SpillState :=
  MkSpillState rows (wa_spilled acc) (wa_next_spill acc) (wa_epoch_chunks acc) (wa_gc_candidates acc).

(** Spilling, when the pending rows are [over] the budget. *)
Definition accum_spill (io : StoreIo) (op : string) (schema : list Field) (over : bool)
    (s : Store) (acc : SpillState) : Store * SpillState :=
  if over && negb (bool_decide (length (wa_pending_rows acc) = 0%nat)) then
    let idx := wa_next_spill acc in
    let '(ok, s) := write_spill io s op idx schema (wa_pending_rows acc) in
    if ok : bool then
      (s, MkSpillState [] (wa_spilled acc ++ [idx]) (wrap_u64 (idx + 1)) (wa_epoch_chunks acc)
            (wa_gc_candidates acc))
    else (s, acc)
  else (s, acc).

(** A batch of the input was reduced to [partials]: they are added to the pending rows
    and their sizes to the pending bytes; over the budget the pending rows are compacted,
    if that is enabled, and still over it they are spilled. *)
Section Batch.
Context (io : StoreIo) (op : string) (schema : list Field) (state_budget_bytes : N)
  (array_memory_size : RecordBatch → N) (compact : option (list RecordBatch → list RecordBatch)).

Definition batch_bytes (l : list RecordBatch) : N :=
  foldr (λ b n, array_memory_size b + n) 0 l.
Definition accum_compact (x : list RecordBatch * N) : list RecordBatch * N :=
  match compact with
  | Some compact_partials =>
      if (state_budget_bytes <? x.2) && bool_decide (1 < length x.1)%nat then
        let compacted := compact_partials x.1 in (compacted, batch_bytes compacted)
      else x
  | None => x
  end.
Definition batch_pending (acc : SpillState) (pending_bytes : N) (partials : list RecordBatch)
    : list RecordBatch * N :=
  accum_compact (wa_pending_rows acc ++ partials, pending_bytes + batch_bytes partials).
Definition accum_batch (x : Store * SpillState * N) (partials : list RecordBatch)
    : Store * SpillState * N :=
  let '(s, acc, pending_bytes) := x in
  let '(rows, bytes) := batch_pending acc pending_bytes partials in
  let '(s, acc') := accum_spill io op schema (state_budget_bytes <? bytes) s (accum_rows rows acc) in
  (s, acc', if bool_decide (length (wa_spilled acc') = length (wa_spilled acc)) then bytes else 0).
End Batch.

(** [gather_partials] *)
Definition gather_partials (io : StoreIo) (s : Store) (op : string) (acc : SpillState)
    : list RecordBatch :=
  wa_pending_rows acc ++ (wa_spilled acc ≫= read_spill io s op).

(** [rebuild_retained_state]; [retain] keeps the rows of open windows.  [absorb!] adds a
    chunk to the new pending rows and spills them when they are [over] the budget. *)
Definition absorb (io : StoreIo) (op : string) (schema : list Field)
    (retain : list RecordBatch → list RecordBatch) (over : list RecordBatch → bool)
    (x : Store * SpillState) (chunk : list RecordBatch) : Store * SpillState :=
  let '(s, acc) := x in
  let acc := accum_rows (wa_pending_rows acc ++ retain chunk) acc in
  accum_spill io op schema (over (wa_pending_rows acc)) s acc.
Definition rebuild_retained_state (io : StoreIo) (op : string) (schema : list Field)
    (retain : list RecordBatch → list RecordBatch) (over : list RecordBatch → bool)
    (s : Store) (acc : SpillState) : Store * SpillState :=
  let old_pending := wa_pending_rows acc in
  let old_spilled := wa_spilled acc in
  let acc := MkSpillState [] [] (wa_next_spill acc) (wa_epoch_chunks acc) (wa_gc_candidates acc) in
  let x := foldl (λ x b, absorb io op schema retain over x [b]) (s, acc) old_pending in
  let x := foldl (λ x idx, absorb io op schema retain over x (read_spill io x.1 op idx)) x old_spilled in
  (x.1, MkSpillState (wa_pending_rows x.2) (wa_spilled x.2) (wa_next_spill x.2)
          (wa_epoch_chunks x.2) (wa_gc_candidates x.2 ++ old_spilled)).

(** The checkpoint [id]; [committed] is the committed epoch in the store. *)
Definition accum_checkpoint (io : StoreIo) (op : string) (schema : list Field) (n : N) (meta : list Z)
    (committed : option N) (id : N) (s : Store) (acc : SpillState) : Store * SpillState :=
  let s := stage_epoch_incremental io s op id schema (wa_pending_rows acc) (wa_spilled acc) meta in
  let s := stage_parallelism io s "window" id n in
  let epoch_chunks :=
    filter (λ '(e, _), id < wrap_u64 (e + 2)) (wa_epoch_chunks acc ++ [(id, wa_spilled acc)]) in
  let committed_e := default 0 committed in
  let s := if (2 <=? id) && (id - 2 <? committed_e) then gc_epoch_incremental io s op (id - 2) else s in
  let referenced := wa_spilled acc ++ (epoch_chunks ≫= snd) in
  let still := filter (λ c, c ∈ referenced) (wa_gc_candidates acc) in
  let dropped := filter (λ c, c ∉ referenced) (wa_gc_candidates acc) in
  (foldl (λ s c, delete_spill io s op c) s dropped,
   MkSpillState (wa_pending_rows acc) (wa_spilled acc) (wa_next_spill acc) epoch_chunks still).
End Window.

(** ** Streaming: theorems on the spilled state of the window operator

    Within a run, the retained epochs restore to the state that they were taken of; a
    restart and a committed epoch that lags break this. *)

Section Theorems.
Context `{E : FlowEngine} `{SC : !StateCodec} {Row : Type} `{SL : !StateCodecLaws SC Row}.
Context (op : string) (schema : list Field) (Hop : segment op).

(** ** Runs

    The store, the operator, the snapshots that were taken, and the last checkpoint.
    The accesses to the store succeed, and the numbers of chunks stay in [u64]. *)
Record WinState := MkWinState {
  ws_store : Store; ws_acc : SpillState;
  ws_snaps : list (N * (list RecordBatch * list Z)); ws_last : option N }.
Definition win_start (s : Store) : WinState := MkWinState s accum_new [] None.
Inductive win_step : WinState → WinState → Prop :=
| WinRows s acc snaps last rows :
    win_step (MkWinState s acc snaps last) (MkWinState s (accum_rows rows acc) snaps last)
| WinSpill s acc snaps last over s' acc' :
    wa_next_spill acc < u64_max → accum_spill io_fine op schema over s acc = (s', acc') →
    win_step (MkWinState s acc snaps last) (MkWinState s' acc' snaps last)
| WinRebuild s acc snaps last retain over s' acc' :
    wa_next_spill acc + N.of_nat (length (wa_pending_rows acc) + length (wa_spilled acc)) ≤ u64_max →
    rebuild_retained_state io_fine op schema retain over s acc = (s', acc') →
    win_step (MkWinState s acc snaps last) (MkWinState s' acc' snaps last)
| WinCheckpoint s acc snaps last n meta committed id s' acc' :
    (∀ l, last = Some l → l < id) → id + 2 ≤ u64_max → manifest_fits meta (wa_spilled acc) [] →
    is_Some (ipc_write schema (wa_pending_rows acc)) →
    accum_checkpoint io_fine op schema n meta committed id s acc = (s', acc') →
    win_step (MkWinState s acc snaps last)
      (MkWinState s' acc' ((id, (gather_partials io_fine s op acc, meta)) :: snaps) (Some id)).

(** ** The invariant *)
Record win_inv (s : Store) (acc : SpillState) (snaps : list (N * (list RecordBatch * list Z)))
    (last : option N) : Prop := {
  wi_spilled : ∀ c, c ∈ wa_spilled acc → c < wa_next_spill acc;
  wi_epochs : ∀ e cs, (e, cs) ∈ wa_epoch_chunks acc →
    (∃ l, last = Some l ∧ e ≤ l) ∧ (∀ c, c ∈ cs → c < wa_next_spill acc) ∧
    ∃ meta snap, (e, snap) ∈ snaps ∧ get_manifest io_fine s op e = Some (meta, cs, []) ∧
      restore_epoch_incremental io_fine s op e = snap
}.

Lemma win_inv_store s xs acc snaps last :
  win_inv s acc snaps last →
  (∀ e cs, (e, cs) ∈ wa_epoch_chunks acc → Forall (harmless op e cs) xs) →
  win_inv (foldl run_state_op s xs) acc snaps last.
Proof.
  intros [] Hh. split; [done|]. intros e cs Hin. destruct (wi_epochs0 e cs Hin) as (Hl & Hc & meta & snap & Hs & Hm & Hr).
  split; [done|]. split; [done|].
  destruct (harmless_restore op e meta cs [] s xs Hop Hm (Hh e cs Hin)) as [Hm' Hr'].
  exists meta, snap. split_and!; [done..|]. by rewrite Hr'.
Qed.

Lemma spill_inv s acc snaps last over s' acc' :
  win_inv s acc snaps last → wa_next_spill acc < u64_max →
  accum_spill io_fine op schema over s acc = (s', acc') →
  win_inv s' acc' snaps last ∧ wa_next_spill acc ≤ wa_next_spill acc' ∧
  wa_next_spill acc' ≤ wa_next_spill acc + 1.
Proof.
  intros Hi Hn. unfold accum_spill. destruct (over && _); [|intros [= <- <-]; split; [done|lia]].
  pose proof (win_inv_store s [(io_fine, OpSpill op (wa_next_spill acc) schema (wa_pending_rows acc))]
    acc snaps last Hi) as Hs. simpl in Hs.
  destruct (write_spill io_fine s op (wa_next_spill acc) schema (wa_pending_rows acc)) as [ok s1]. simpl in Hs.
  ospecialize (Hs _).
  { intros e cs Hin. constructor; [|done]. split; [done|]. intros _ Hc.
    destruct (wi_epochs _ _ _ _ Hi e cs Hin) as (_ & Hlt & _). specialize (Hlt _ Hc). lia. }
  destruct ok; intros [= <- <-]; [|split; [done|lia]]. simpl.
  assert (wrap_u64 (wa_next_spill acc + 1) = wa_next_spill acc + 1) as ->.
  { unfold wrap_u64. apply N.mod_small. unfold u64_max in Hn. lia. }
  split; [|lia]. destruct Hs. split; simpl.
  - intros c [Hc|Hc]%elem_of_app; [specialize (wi_spilled0 c Hc); lia|].
    apply list_elem_of_singleton in Hc as ->. lia.
  - intros e cs Hin. destruct (wi_epochs0 e cs Hin) as (H1 & H2 & H3). split_and!; [done| |done].
    intros c Hc. specialize (H2 c Hc). lia.
Qed.

Lemma rows_inv s acc snaps last rows : win_inv s acc snaps last → win_inv s (accum_rows rows acc) snaps last.
Proof. by intros []; split. Qed.

Lemma absorb_inv retain over s acc snaps last chunk :
  win_inv s acc snaps last → wa_next_spill acc < u64_max →
  let x := absorb io_fine op schema retain over (s, acc) chunk in
  win_inv x.1 x.2 snaps last ∧ wa_next_spill acc ≤ wa_next_spill x.2 ∧
  wa_next_spill x.2 ≤ wa_next_spill acc + 1.
Proof.
  intros Hi Hn. unfold absorb.
  apply (rows_inv _ _ _ _ (wa_pending_rows acc ++ retain chunk)) in Hi.
  destruct (accum_spill _ _ _ _ _ _) as [s' acc'] eqn:Hs.
  by apply (spill_inv _ _ _ _ _ _ _ Hi) in Hs.
Qed.
Lemma absorb_all_inv {A} (f : Store * SpillState → A → list RecordBatch) retain over (l : list A) x snaps last :
  win_inv x.1 x.2 snaps last → wa_next_spill x.2 + N.of_nat (length l) ≤ u64_max →
  let y := foldl (λ x a, absorb io_fine op schema retain over x (f x a)) x l in
  win_inv y.1 y.2 snaps last ∧ wa_next_spill x.2 ≤ wa_next_spill y.2 ∧
  wa_next_spill y.2 ≤ wa_next_spill x.2 + N.of_nat (length l).
Proof.
  revert x. induction l as [|a l IH]; intros x Hi Hn; cbn [foldl]; [simpl; split; [done|lia]|].
  simpl in Hn. destruct x as [s acc].
  destruct (absorb_inv retain over s acc snaps last (f (s, acc) a) Hi) as (H1 & H2 & H3); [simpl in *; lia|].
  destruct (IH _ H1) as (H4 & H5 & H6); [simpl in *; lia|]. split; [done|]. simpl in *. lia.
Qed.
Lemma rebuild_inv s acc snaps last retain over s' acc' :
  win_inv s acc snaps last →
  wa_next_spill acc + N.of_nat (length (wa_pending_rows acc) + length (wa_spilled acc)) ≤ u64_max →
  rebuild_retained_state io_fine op schema retain over s acc = (s', acc') →
  win_inv s' acc' snaps last.
Proof.
  intros Hi Hn. unfold rebuild_retained_state.
  set (acc0 := MkSpillState [] [] (wa_next_spill acc) (wa_epoch_chunks acc) (wa_gc_candidates acc)).
  assert (win_inv s acc0 snaps last) as H0 by (destruct Hi; split; [set_solver|done]).
  destruct (absorb_all_inv (λ _ b, [b]) retain over (wa_pending_rows acc) (s, acc0) snaps last H0)
    as (H1 & H2 & H3); [simpl; lia|]. simpl in H2, H3.
  set (x1 := foldl _ (s, acc0) (wa_pending_rows acc)) in *.
  destruct (absorb_all_inv (λ x idx, read_spill io_fine x.1 op idx) retain over (wa_spilled acc) x1 snaps last H1)
    as (H4 & H5 & H6); [lia|]. set (x2 := foldl _ x1 (wa_spilled acc)) in *.
  intros [= <- <-]. destruct H4. by split.
Qed.

(** The accesses of a checkpoint to the store. *)
Definition checkpoint_ops (n : N) (meta : list Z) (committed : option N) (id : N) (acc : SpillState)
    : list (StoreIo * StateOp) :=
  let epoch_chunks :=
    filter (λ '(e, _), id < wrap_u64 (e + 2)) (wa_epoch_chunks acc ++ [(id, wa_spilled acc)]) in
  let referenced := wa_spilled acc ++ (epoch_chunks ≫= snd) in
  [(io_fine, OpStageParallelism "window" id n)] ++
  (if (2 <=? id) && (id - 2 <? default 0 committed) then [(io_fine, OpGcEpoch op (id - 2))] else []) ++
  ((λ c, (io_fine, OpDeleteSpill op c)) <$> filter (λ c, c ∉ referenced) (wa_gc_candidates acc)).
Lemma checkpoint_store n meta committed id s acc :
  (accum_checkpoint io_fine op schema n meta committed id s acc).1 =
  foldl run_state_op
    (stage_epoch_incremental_kg io_fine s op id schema (wa_pending_rows acc) (wa_spilled acc) meta [])
    (checkpoint_ops n meta committed id acc).
Proof.
  unfold accum_checkpoint, checkpoint_ops. cbn [fst]. rewrite !foldl_app, foldl_fmap.
  destruct (_ && _); done.
Qed.

Lemma checkpoint_inv s acc snaps last n meta committed id s' acc' :
  win_inv s acc snaps last → (∀ l, last = Some l → l < id) → id + 2 ≤ u64_max →
  manifest_fits meta (wa_spilled acc) [] → is_Some (ipc_write schema (wa_pending_rows acc)) →
  accum_checkpoint io_fine op schema n meta committed id s acc = (s', acc') →
  win_inv s' acc' ((id, (gather_partials io_fine s op acc, meta)) :: snaps) (Some id).
Proof.
  intros Hi Hlast Hid Hfit Hipc Hck.
  pose proof (checkpoint_store n meta committed id s acc) as Hst. rewrite Hck in Hst. cbn [fst] in Hst.
  set (kept := filter (λ '(e, _), id < wrap_u64 (e + 2)) (wa_epoch_chunks acc ++ [(id, wa_spilled acc)])) in *.
  assert (acc' = MkSpillState (wa_pending_rows acc) (wa_spilled acc) (wa_next_spill acc) kept
    (filter (λ c, c ∈ wa_spilled acc ++ (kept ≫= snd)) (wa_gc_candidates acc))) as ->
    by by injection Hck.
  clear Hck. subst s'.
  set (s1 := stage_epoch_incremental_kg io_fine s op id schema (wa_pending_rows acc) (wa_spilled acc) meta []).
  destruct (stage_restores io_fine s op id schema (wa_pending_rows acc) (wa_spilled acc) meta [])
    as [Hm1 Hr1]; [done..|]. fold s1 in Hm1, Hr1.
  apply (win_inv_store s1).
  - split; simpl; [apply (wi_spilled _ _ _ _ Hi)|]. intros e cs [Hk [Hin|Hin]%elem_of_app]%list_elem_of_filter.
    + destruct (wi_epochs _ _ _ _ Hi e cs Hin) as ((l & Hl & Hle) & Hc & meta' & snap & Hs & Hm & Hr).
      specialize (Hlast l Hl). split; [exists id; split; [done|lia]|]. split; [done|]. exists meta', snap.
      destruct (harmless_restore op e meta' cs [] s
        [(io_fine, OpStage op id schema (wa_pending_rows acc) (wa_spilled acc) meta [])] Hop Hm) as [Hm' Hr'].
      { constructor; [|done]. split; [done|]. lia. }
      split_and!; [set_solver|done|]. etrans; [exact Hr'|done].
    + apply list_elem_of_singleton in Hin as [= -> ->]. split; [by exists id|].
      split; [apply (wi_spilled _ _ _ _ Hi)|]. exists meta, (gather_partials io_fine s op acc, meta).
      split_and!; [set_solver|done|done].
  - simpl. intros e cs Hin. pose proof Hin as [Hk _]%list_elem_of_filter.
    assert (wrap_u64 (e + 2) ≤ e + 2) as Hwrap by (unfold wrap_u64; apply N.Div0.mod_le).
    unfold checkpoint_ops. fold kept. apply Forall_app. split; [constructor; [|done]|apply Forall_app; split].
    + split; [done|]. repeat constructor; done.
    + destruct (_ && _) eqn:Hg; [|done]. constructor; [|done]. split; [done|].
      apply andb_prop in Hg as [Hg%N.leb_le _]. lia.
    + apply Forall_forall. intros x (c & -> & [Hc _]%list_elem_of_filter)%list_elem_of_fmap.
      split; [done|]. intros _ Hcs. apply Hc. apply elem_of_app. right. apply list_elem_of_bind.
      exists (e, cs). done.
Qed.

Lemma win_run s w :
  rtc win_step (win_start s) w → win_inv (ws_store w) (ws_acc w) (ws_snaps w) (ws_last w).
Proof.
  intros Hrun.
  assert (win_inv (ws_store (win_start s)) (ws_acc (win_start s)) [] None) as Hi by (split; simpl; set_solver).
  change (@nil (N * (list RecordBatch * list Z))) with (ws_snaps (win_start s)) in Hi.
  change (@None N) with (ws_last (win_start s)) in Hi.
  induction Hrun as [|x y z Hs _ IH]; [done|]. apply IH. clear IH. destruct Hs; simpl in *.
  - by apply rows_inv.
  - by eapply spill_inv.
  - by eapply rebuild_inv.
  - by eapply checkpoint_inv.
Qed.

(** ** Claims *)

(** C15. Within a run, the state that the window operator had at its last two
    checkpoints can be restored, also while it spills, rebuilds its state, and collects
    chunks: each epoch that it retains restores to the rows that were pending or
    spilled, and to the metadata, when its checkpoint came. *)
Theorem retained_epochs_restore s w e cs :
  rtc win_step (win_start s) w → (e, cs) ∈ wa_epoch_chunks (ws_acc w) →
  ∃ snap, (e, snap) ∈ ws_snaps w ∧ restore_epoch_incremental io_fine (ws_store w) op e = snap.
Proof.
  intros Hi%win_run Hin. destruct (wi_epochs _ _ _ _ Hi e cs Hin) as (_ & _ & meta & snap & H1 & _ & H2).
  eauto.
Qed.

(** ** Restarts *)
Section Restart.
Context (budget : N) (size : RecordBatch → N) (compact : option (list RecordBatch → list RecordBatch)).
Notation batch := (accum_batch io_fine op schema budget size compact).
Implicit Types (s : Store) (acc : SpillState).

(** A batch spills the pending rows as the next chunk, or leaves the store alone. *)
Lemma accum_batch_cases s acc bytes partials s' acc' bytes' :
  batch (s, acc, bytes) partials = (s', acc', bytes') →
  let rows := (batch_pending budget size compact acc bytes partials).1 in
  (wa_spilled acc' = wa_spilled acc ∧ s' = s ∧ wa_next_spill acc' = wa_next_spill acc ∧
   wa_pending_rows acc' = rows) ∨
  (wa_spilled acc' = wa_spilled acc ++ [wa_next_spill acc] ∧
   ∃ blob, encode_state schema rows [] = Some blob ∧
     s' = <[child (spill_key op (wa_next_spill acc)) := blob]> s).
Proof.
  unfold accum_batch. destruct (batch_pending _ _ _ acc bytes partials) as [rows b]. simpl.
  unfold accum_spill. simpl. destruct (_ && _); [|intros [= <- <- _]; by left].
  unfold write_spill. destruct (encode_state schema rows []) as [blob|] eqn:He; simpl.
  - intros [= <- <- _]. right. split; [done|]. by exists blob.
  - intros [= <- <- _]. by left.
Qed.

(** Until the first spill the store and the number of the next chunk are as before. *)
Lemma before_first_spill s acc bytes batches s1 acc1 bytes1 :
  foldl batch (s, acc, bytes) batches = (s1, acc1, bytes1) → wa_spilled acc1 = [] →
  s1 = s ∧ wa_next_spill acc1 = wa_next_spill acc ∧
  (compact = None → wa_pending_rows acc1 = wa_pending_rows acc ++ concat batches).
Proof.
  revert s1 acc1 bytes1. induction batches as [|partials batches IH] using rev_ind; intros s1 acc1 bytes1.
  { intros [= <- <- <-] _. by rewrite app_nil_r. }
  rewrite foldl_app. simpl. destruct (foldl _ _ batches) as [[s0 acc0] bytes0] eqn:E0.
  intros [(Hs & -> & Hn & Hp)|(Hs & _)]%accum_batch_cases Hnil; rewrite Hs in Hnil.
  - destruct (IH _ _ _ eq_refl Hnil) as (-> & Hn' & Hp'). split_and!; [done|congruence|].
    intros Hc. rewrite Hp. unfold batch_pending, accum_compact. rewrite Hc. simpl.
    rewrite (Hp' Hc), concat_app. simpl. by rewrite app_nil_r, app_assoc.
  - by apply app_nil in Hnil as [_ ?].
Qed.

(** A chunk that is written over. *)
Lemma restore_overwritten s epoch meta chunks kg_ranges i rows blob :
  get_manifest io_fine s op epoch = Some (meta, chunks, kg_ranges) →
  encode_state schema rows [] = Some blob →
  restore_epoch_incremental io_fine (<[child (spill_key op i) := blob]> s) op epoch =
  ((get_state io_fine s (residual_key op epoch)).1 ++
   (chunks ≫= λ c, if decide (c = i) then rows else read_spill io_fine s op c), meta).
Proof.
  intros Hm Hb. unfold restore_epoch_incremental, get_manifest, ck_get in *. simpl in *.
  rewrite lookup_insert_ne by (by rewrite manifest_path, spill_path).
  destruct (s !! child (manifest_key op epoch)); [|done]. injection Hm as ->. f_equal. f_equal.
  - f_equal. apply get_state_same. rewrite lookup_insert_ne; [done|].
    by rewrite residual_path, spill_path.
  - apply list_bind_ext; [|done]. intros c. unfold read_spill. case_decide as Hc.
    + subst c. unfold get_state, ck_get. simpl. rewrite lookup_insert_eq.
      by rewrite (state_roundtrip schema rows []).
    + f_equal. apply get_state_same. rewrite lookup_insert_ne; [done|].
      rewrite !spill_path by done. intros [= Hi]. by apply (segment_inj EmptyString) in Hi.
Qed.

End Restart.

(** A committed epoch that lags loses its chunks: a checkpoint deletes a chunk that
    the state dropped and that no epoch of the last two references, also when the
    committed epoch, whose manifest is kept, still does; a restore of the committed
    epoch then lacks the chunk. *)
Theorem lagging_epoch_loses_chunk s acc n meta committed id c meta_c kg_ranges :
  get_manifest io_fine s op committed = Some (meta_c, [c], kg_ranges) →
  committed + 2 ≤ id → id + 2 ≤ u64_max → wa_gc_candidates acc = [c] → c ∉ wa_spilled acc →
  (∀ e cs, (e, cs) ∈ wa_epoch_chunks acc → id < wrap_u64 (e + 2) → c ∉ cs) →
  restore_epoch_incremental io_fine
    (accum_checkpoint io_fine op schema n meta (Some committed) id s acc).1 op committed =
  ((get_state io_fine s (residual_key op committed)).1, meta_c).
Proof.
  intros Hm Hid Hmax Hgc Hsp Hep. rewrite checkpoint_store. unfold checkpoint_ops. rewrite Hgc.
  rewrite (proj2 (N.ltb_ge (id - 2) _)) by (simpl; lia). rewrite andb_false_r.
  rewrite filter_cons_True, filter_nil.
  2:{ intros [Hin|Hin]%elem_of_app; [done|]. apply list_elem_of_bind in Hin as ([e cs] & Hc & Hin).
      apply list_elem_of_filter in Hin as [Hk [Hin|Hin]%elem_of_app]; [by eapply Hep|].
      apply list_elem_of_singleton in Hin as [= -> ->]. done. }
  set (s1 := stage_epoch_incremental_kg io_fine s op id schema (wa_pending_rows acc) (wa_spilled acc) meta []).
  simpl. set (s2 := stage_parallelism io_fine s1 "window" id n).
  assert (∀ k, touches op committed [c] k → s2 !! k = s !! k) as Hsame.
  { intros k Hk. assert (s2 !! k = s1 !! k) as ->.
    - unfold s2, stage_parallelism. apply put_other.
      rewrite parallelism_path by (split; [done|repeat constructor; done]).
      destruct Hk as [->|[->|(c' & _ & ->)]]; rewrite ?manifest_path, ?residual_path, ?spill_path by done; done.
    - eapply (harmless_lookup op committed meta_c [c] kg_ranges s
        (io_fine, OpStage op id schema (wa_pending_rows acc) (wa_spilled acc) meta [])); [done..| |done].
      split; [done|]. lia. }
  unfold delete_spill, ck_delete, restore_epoch_incremental, get_manifest, ck_get in *. simpl in *.
  rewrite lookup_delete_ne by (by rewrite manifest_path, spill_path).
  rewrite (Hsame (child (manifest_key op committed))) by by left.
  destruct (s !! child (manifest_key op committed)); [|done]. injection Hm as ->. simpl. rewrite app_nil_r.
  f_equal. rewrite <- (app_nil_r (get_state io_fine s _).1). f_equal.
  - f_equal. apply get_state_same. rewrite lookup_delete_ne by (by rewrite residual_path, spill_path).
    apply Hsame. by right; left.
  - unfold read_spill, get_state, ck_get. simpl. by rewrite lookup_delete_eq.
Qed.
End Theorems.
