(* ===== verification/JoinGraph.v ===== *)
(** * Join reordering: the query graph

    [zelox-physical-optimizer/src/join_reorder]: [join_set.rs], [dp_plan.rs],
    [cost_model.rs] and [graph.rs].  A set of relations is a word of 64 bits; the query
    graph keeps its join conditions in a trie of subsets of relations, in which the
    neighbours of a set and the conditions between two sets are looked up.

    An [f64] is a number of IEEE 754 in double precision, with one NaN, which
    [total_cmp] puts last.  Execution plans, join types and expressions other than
    conjunctions are parameters. *)

From Stdlib Require Import String SpecFloat.
From S2P Require Import Prelude Collections.

(** ** [f64] *)
Notation f64 := spec_float.
Definition f64_add : f64 → f64 → f64 := SFadd 53 1024.
Definition f64_mul : f64 → f64 → f64 := SFmul 53 1024.
Definition f64_div : f64 → f64 → f64 := SFdiv 53 1024.
Definition f64_lt : f64 → f64 → bool := SFltb.
Definition f64_le : f64 → f64 → bool := SFleb.
Definition f64_eq : f64 → f64 → bool := SFeqb.
(** [n as f64]; a literal is a quotient of integers. *)
Definition f64_of (n : N) : f64 := binary_normalize 53 1024 (Z.of_N n) 0 false.
Definition f64_ratio (a b : N) : f64 := f64_div (f64_of a) (f64_of b).
Definition f64_infinity : f64 := S754_infinity false.
Definition f64_is_nan (x : f64) : bool := match x with S754_nan => true | _ => false end.
Definition f64_is_finite (x : f64) : bool :=
  match x with S754_zero _ | S754_finite _ _ _ => true | _ => false end.
Definition f64_max (x y : f64) : f64 :=
  if f64_is_nan x then y else if f64_is_nan y then x else if f64_lt x y then y else x.
Definition f64_min (x y : f64) : f64 :=
  if f64_is_nan x then y else if f64_is_nan y then x else if f64_lt y x then y else x.
Definition f64_total_cmp (x y : f64) : comparison :=
  match x, y with
  | S754_nan, S754_nan => Eq
  | S754_nan, _ => Gt
  | _, S754_nan => Lt
  | S754_zero true, S754_zero false => Lt
  | S754_zero false, S754_zero true => Gt
  | _, _ => default Eq (SFcompare x y)
  end.

(** ** Sets of relations ([join_set.rs]) *)
Definition MAX_RELATIONS : nat := 64.
Notation JoinSet := N.
Inductive JoinError := JeInternal (msg : string).
Notation JoinResult := (Result JoinError).

Definition index_error (i : nat) : JoinError :=
  JeInternal ("Relation index " +:+ pretty (N.of_nat i) +:+ " must be less than " +:+
    pretty (N.of_nat MAX_RELATIONS)).
Definition js_new : JoinSet := 0%N.
Definition bit (i : nat) : N := N.shiftl 1 (N.of_nat i).
Definition js_new_singleton (i : nat) : JoinResult JoinSet :=
  if (MAX_RELATIONS <=? i)%nat then Err (index_error i) else Ok (bit i).
Definition js_is_superset (s t : JoinSet) : bool := (N.land s t =? t)%N.
Definition js_is_subset (s t : JoinSet) : bool := (N.land s t =? s)%N.
Definition js_is_disjoint (s t : JoinSet) : bool := (N.land s t =? 0)%N.
Definition js_union (s t : JoinSet) : JoinSet := N.lor s t.
Definition js_intersection (s t : JoinSet) : JoinSet := N.land s t.
Definition js_difference (s t : JoinSet) : JoinSet := N.ldiff s t.
Definition js_symmetric_difference (s t : JoinSet) : JoinSet := N.lxor s t.
Fixpoint pos_count_ones (p : positive) : nat :=
  match p with xI p => S (pos_count_ones p) | xO p => pos_count_ones p | xH => 1 end.
Definition js_cardinality (s : JoinSet) : nat :=
  match s with N0 => 0 | Npos p => pos_count_ones p end.
Definition js_is_empty (s : JoinSet) : bool := (s =? 0)%N.

(** The iterator: the lowest relation, and the rest. *)
Fixpoint pos_trailing_zeros (p : positive) : nat :=
  match p with xO p => S (pos_trailing_zeros p) | _ => 0 end.
Definition js_next (bits : N) : option (nat * N) :=
  match bits with
  | N0 => None
  | Npos p => Some (pos_trailing_zeros p, N.land bits (bits - 1))
  end.
Fixpoint js_take (fuel : nat) (bits : N) : list nat :=
  match fuel with
  | O => []
  | S fuel => match js_next bits with None => [] | Some (i, bits) => i :: js_take fuel bits end
  end.
(** A word has at most 64 relations. *)
Definition js_iter (s : JoinSet) : list nat := js_take 64 s.
Definition js_from_iter (l : list nat) : JoinResult JoinSet :=
  foldl (λ r i,
    bits ← r;
    if (MAX_RELATIONS <=? i)%nat then Err (index_error i) else Ok (N.lor bits (bit i)))
    (Ok 0%N) l.

Infix "∪ⱼ" := js_union (at level 50, left associativity).
Infix "∖ⱼ" := js_difference (at level 50, left associativity).

(** ** Plans and their cost ([dp_plan.rs], [cost_model.rs]) *)
Inductive PlanType :=
| PlanLeaf (relation_id : nat)
| PlanJoin (left_set right_set : JoinSet) (edge_indices : list nat).
Record DPPlan := MkDPPlan {
  dp_join_set : JoinSet; dp_cost : f64; dp_cardinality : f64; dp_plan_type : PlanType }.
Definition new_leaf (relation_id : nat) (cardinality : f64) : JoinResult DPPlan :=
  s ← js_new_singleton relation_id;
  Ok (MkDPPlan s (f64_of 0) cardinality (PlanLeaf relation_id)).
Definition new_join (left_set right_set : JoinSet) (edge_indices : list nat) (cost cardinality : f64)
    : DPPlan :=
  MkDPPlan (left_set ∪ⱼ right_set) cost cardinality (PlanJoin left_set right_set edge_indices).
Definition compute_cost (left_plan right_plan : DPPlan) (new_cardinality : f64) : f64 :=
  f64_add (f64_add (dp_cost left_plan) (dp_cost right_plan)) new_cardinality.

(** ** The query graph ([graph.rs]) *)
Class JoinEngine := { ExecutionPlan : Type; JoinType : Type; OtherExpr : Type }.

(** A column of a relation; its name has no part in its identity. *)
Record StableColumn := MkStableColumn { sc_relation_id : nat; sc_column_index : nat }.
#[global] Instance StableColumn_eq_dec : EqDecision StableColumn.
Proof. solve_decision. Defined.
#[global] Instance StableColumn_countable : Countable StableColumn.
Proof.
  refine (inj_countable' (λ c, (sc_relation_id c, sc_column_index c))
    (λ x, MkStableColumn x.1 x.2) _). by intros [].
Defined.

Inductive NullEquality := NullEqualsNothing | NullEqualsNull.
Inductive Precision := PExact (n : N) | PInexact (n : N) | PAbsent.
Record ColumnStatistics := MkColumnStatistics { cs_distinct_count : Precision }.

Section Graph.
Context `{JE : JoinEngine} `{HO : HashOrder}.

(** A conjunction, or anything else. *)
Inductive PhysicalExpr :=
| ExprAnd (l r : PhysicalExpr)
| ExprOther (e : OtherExpr).

Record RelationNode := MkRelationNode {
  rn_plan : ExecutionPlan;
  rn_relation_id : nat;
  rn_initial_cardinality : f64;
  rn_base_cardinality : f64;
  rn_column_statistics : list ColumnStatistics
}.
Record JoinEdge := MkJoinEdge {
  je_join_set : JoinSet;
  je_filter : PhysicalExpr;
  je_join_type : JoinType;
  je_null_equality : NullEquality;
  je_equi_pairs : list (StableColumn * StableColumn)
}.
Record NeighborInfo := MkNeighborInfo { ni_neighbor : JoinSet; ni_edge_indices : list nat }.
(** A node of the trie, with its children by relation. *)
Inductive QueryEdge := MkQueryEdge (neighbors : list NeighborInfo) (children : list (nat * QueryEdge)).
Definition qe_neighbors (t : QueryEdge) : list NeighborInfo := let '(MkQueryEdge n _) := t in n.
Definition qe_children (t : QueryEdge) : list (nat * QueryEdge) := let '(MkQueryEdge _ c) := t in c.
Definition qe_default : QueryEdge := MkQueryEdge [] [].
Record QueryGraph := MkQueryGraph {
  qg_relations : list RelationNode;
  qg_edges : list JoinEdge;
  qg_root_edge : QueryEdge;
  qg_neighbor_cache : gmap JoinSet (list nat)
}.
Definition graph_new : QueryGraph := MkQueryGraph [] [] qe_default ∅.
Definition relation_count (g : QueryGraph) : nat := length (qg_relations g).
Definition get_relation (g : QueryGraph) (i : nat) : option RelationNode := qg_relations g !! i.

Definition add_relation (g : QueryGraph) (r : RelationNode) : QueryGraph :=
  MkQueryGraph (qg_relations g ++ [r]) (qg_edges g) (qg_root_edge g) (qg_neighbor_cache g).

(** *** The trie *)
Fixpoint child_get (r : nat) (l : list (nat * QueryEdge)) : option QueryEdge :=
  match l with
  | [] => None
  | (r', t) :: l => if (r' =? r)%nat then Some t else child_get r l
  end.
Fixpoint child_set (r : nat) (t : QueryEdge) (l : list (nat * QueryEdge)) : list (nat * QueryEdge) :=
  match l with
  | [] => [(r, t)]
  | (r', t') :: l => if (r' =? r)%nat then (r', t) :: l else (r', t') :: child_set r t l
  end.
Fixpoint add_neighbor (neighbor : JoinSet) (edge_index : nat) (l : list NeighborInfo)
    : list NeighborInfo :=
  match l with
  | [] => [MkNeighborInfo neighbor [edge_index]]
  | n :: l =>
      if (ni_neighbor n =? neighbor)%N then MkNeighborInfo (ni_neighbor n) (ni_edge_indices n ++ [edge_index]) :: l
      else n :: add_neighbor neighbor edge_index l
  end.
Fixpoint trie_add (path : list nat) (neighbor : JoinSet) (edge_index : nat) (t : QueryEdge) : QueryEdge :=
  match path with
  | [] => MkQueryEdge (add_neighbor neighbor edge_index (qe_neighbors t)) (qe_children t)
  | r :: path =>
      let c := default qe_default (child_get r (qe_children t)) in
      MkQueryEdge (qe_neighbors t) (child_set r (trie_add path neighbor edge_index c) (qe_children t))
  end.
Fixpoint trie_find (path : list nat) (t : QueryEdge) : option QueryEdge :=
  match path with
  | [] => Some t
  | r :: path => c ← child_get r (qe_children t); trie_find path c
  end.

Definition with_root (g : QueryGraph) (t : QueryEdge) : QueryGraph :=
  MkQueryGraph (qg_relations g) (qg_edges g) t (qg_neighbor_cache g).
Definition create_trie_path_and_add_neighbor (g : QueryGraph) (subset : list nat) (neighbor : JoinSet)
    (edge_index : nat) : QueryGraph :=
  with_root g (trie_add (sort_by Nat.leb subset) neighbor edge_index (qg_root_edge g)).

(** The lists of positions that extend [indices] by [need] increasing positions from
    [start] on, below [len]; the recursions of the graph visit them in this order. *)
Fixpoint combinations (len need start : nat) (indices : list nat) : list (list nat) :=
  match need with
  | O => [indices]
  | S need => seq start (len - start) ≫= λ i, combinations len need (S i) (indices ++ [i])
  end.
Definition pick (relations : list nat) (indices : list nat) : list nat :=
  omap (λ i, relations !! i) indices.

(** The last call of [generate_combinations_recursive]. *)
Definition add_combination (relations : list nat) (edge_index : nat) (g : QueryGraph) (indices : list nat)
    : JoinResult QueryGraph :=
  let subset := pick relations indices in
  let remaining := snd <$> filter (λ x, x.1 ∉ indices) (imap pair relations) in
  match remaining with
  | [] => Ok g
  | _ =>
      neighbor_set ← js_from_iter remaining;
      Ok (create_trie_path_and_add_neighbor g subset neighbor_set edge_index)
  end.
Definition generate_combinations_recursive (g : QueryGraph) (relations : list nat) (indices : list nat)
    (start subset_size edge_index : nat) : JoinResult QueryGraph :=
  foldl (λ r c, g ← r; add_combination relations edge_index g c) (Ok g)
    (combinations (length relations) (subset_size - length indices) start indices).
Definition generate_subsets_and_update_trie (g : QueryGraph) (relations : list nat)
    (subset_size must_include edge_index : nat) : JoinResult QueryGraph :=
  if (subset_size =? 1)%nat then
    match relations !! must_include with
    | None => Ok g
    | Some rel =>
        let remaining := filter (λ r, r ≠ rel) relations in
        match remaining with
        | [] => Ok g
        | _ =>
            neighbor_set ← js_from_iter remaining;
            Ok (create_trie_path_and_add_neighbor g [rel] neighbor_set edge_index)
        end
    end
  else generate_combinations_recursive g relations [must_include] (S must_include) subset_size edge_index.
Definition update_trie_for_edge (g : QueryGraph) (edge_index : nat) : JoinResult QueryGraph :=
  match qg_edges g !! edge_index with
  | None => Ok g
  | Some edge =>
      let relations := js_iter (je_join_set edge) in
      foldl (λ r i,
        foldl (λ r subset_size,
          g ← r; generate_subsets_and_update_trie g relations subset_size i edge_index)
          r (seq 1 (length relations)))
        (Ok g) (seq 0 (length relations))
  end.
Definition add_edge (g : QueryGraph) (edge : JoinEdge) : JoinResult QueryGraph :=
  let edge_index := length (qg_edges g) in
  let g := MkQueryGraph (qg_relations g) (qg_edges g ++ [edge]) (qg_root_edge g) ∅ in
  match update_trie_for_edge g edge_index with
  | Ok g => Ok g
  | Err (JeInternal e) => Err (JeInternal ("Failed to update trie for edge: " +:+ e))
  end.

(** *** Neighbours *)
Definition find_neighbors_in_trie (g : QueryGraph) (subset : list nat) (neighbors : gset nat) : gset nat :=
  match trie_find (sort_by Nat.leb subset) (qg_root_edge g) with
  | None => neighbors
  | Some t => neighbors ∪ list_to_set (qe_neighbors t ≫= λ n, js_iter (ni_neighbor n))
  end.
(** The subsets of [subset_size] of the relations, in the order they are visited. *)
Definition subsets_of_size (relations : list nat) (subset_size : nat) : list (list nat) :=
  if (subset_size =? 1)%nat then (λ r, [r]) <$> relations
  else pick relations <$> combinations (length relations) subset_size 0 [].
Definition find_neighbors_for_subsets (g : QueryGraph) (relations : list nat) (subset_size : nat)
    (neighbors : gset nat) : gset nat :=
  foldl (λ acc s, find_neighbors_in_trie g s acc) neighbors (subsets_of_size relations subset_size).
Definition compute_neighbors (g : QueryGraph) (nodes : JoinSet) : list nat :=
  let relations := js_iter nodes in
  let neighbors := foldl (λ acc k, find_neighbors_for_subsets g relations k acc) ∅
                     (seq 1 (length relations)) in
  sort_by Nat.leb (hash_order (elements neighbors)).
Definition get_neighbors (g : QueryGraph) (nodes : JoinSet) : list nat * QueryGraph :=
  match qg_neighbor_cache g !! nodes with
  | Some cached => (cached, g)
  | None =>
      let result := compute_neighbors g nodes in
      (result, MkQueryGraph (qg_relations g) (qg_edges g) (qg_root_edge g)
                 (<[nodes := result]> (qg_neighbor_cache g)))
  end.

(** *** Edges between two sets *)
Definition find_connecting_edges_in_trie (g : QueryGraph) (subset : list nat) (target : JoinSet)
    (edge_indices : gset nat) : gset nat :=
  match trie_find (sort_by Nat.leb subset) (qg_root_edge g) with
  | None => edge_indices
  | Some t =>
      foldl (λ acc n, if js_is_disjoint (ni_neighbor n) target then acc
                      else acc ∪ list_to_set (ni_edge_indices n)) edge_indices (qe_neighbors t)
  end.
Definition find_connecting_edges_for_subsets (g : QueryGraph) (relations : list nat) (subset_size : nat)
    (target : JoinSet) (edge_indices : gset nat) : gset nat :=
  foldl (λ acc s, find_connecting_edges_in_trie g s target acc) edge_indices
    (subsets_of_size relations subset_size).
(** An edge between [left] and [right] that needs no other relation. *)
Definition edge_connects (g : QueryGraph) (l r : JoinSet) (idx : nat) : bool :=
  match qg_edges g !! idx with
  | None => false
  | Some e =>
      js_is_subset (je_join_set e) (l ∪ⱼ r) && negb (js_is_disjoint (je_join_set e) l) &&
      negb (js_is_disjoint (je_join_set e) r)
  end.
Definition get_connecting_edge_indices (g : QueryGraph) (l r : JoinSet) : list nat :=
  if js_is_disjoint l r then
    let left_relations := js_iter l in
    let edge_indices := foldl (λ acc k, find_connecting_edges_for_subsets g left_relations k r acc) ∅
                          (seq 1 (length left_relations)) in
    filter (λ idx, edge_connects g l r idx = true) (hash_order (elements edge_indices))
  else [].
End Graph.
