(* ===== verification/JoinSets.v ===== *)
(** * Join reordering: sets of relations and the trie

    The words of [join_set.rs] as sets of relations, and the trie of [graph.rs] as the
    set of its entries: what [get_neighbors] and [get_connecting_edge_indices] find
    there, against the plain list of join conditions. *)

From Stdlib Require Import String SpecFloat Sorted.
From S2P Require Import Prelude Collections JoinGraph.

(** ** Words as sets *)
Definition js_mem (i : nat) (s : JoinSet) : Prop := N.testbit s (N.of_nat i) = true.
Infix "∈ⱼ" := js_mem (at level 70).
Notation "i ∉ⱼ s" := (¬ js_mem i s) (at level 70).
Definition js_wf (s : JoinSet) : Prop := (s < 2 ^ 64)%N.

#[global] Instance js_mem_dec i s : Decision (i ∈ⱼ s).
Proof. unfold js_mem. apply _. Defined.

Lemma js_eq s t : (∀ i, i ∈ⱼ s ↔ i ∈ⱼ t) → s = t.
Proof.
  intros H. apply N.bits_inj. intros n. specialize (H (N.to_nat n)). unfold js_mem in H.
  rewrite N2Nat.id in H. destruct (N.testbit s n), (N.testbit t n); naive_solver.
Qed.

Lemma js_mem_union i s t : i ∈ⱼ s ∪ⱼ t ↔ i ∈ⱼ s ∨ i ∈ⱼ t.
Proof. unfold js_mem, js_union. rewrite N.lor_spec, orb_true_iff. done. Qed.
Lemma js_mem_difference i s t : i ∈ⱼ s ∖ⱼ t ↔ i ∈ⱼ s ∧ i ∉ⱼ t.
Proof.
  unfold js_mem, js_difference. rewrite N.ldiff_spec, andb_true_iff, negb_true_iff.
  destruct (N.testbit t _); naive_solver.
Qed.
Lemma js_mem_land i s t : i ∈ⱼ N.land s t ↔ i ∈ⱼ s ∧ i ∈ⱼ t.
Proof. unfold js_mem. by rewrite N.land_spec, andb_true_iff. Qed.
Lemma js_mem_bit i j : i ∈ⱼ bit j ↔ i = j.
Proof.
  unfold js_mem, bit. rewrite N.shiftl_1_l, N.pow2_bits_eqb, N.eqb_eq. lia.
Qed.
Lemma js_mem_empty i : i ∉ⱼ 0%N.
Proof. unfold js_mem. by rewrite N.bits_0. Qed.
Lemma js_empty s : s = 0%N ↔ ∀ i, i ∉ⱼ s.
Proof.
  split; [intros -> i; apply js_mem_empty|]. intros H. apply js_eq. intros i.
  split; intros Hi; [by destruct (H i)|by destruct (js_mem_empty i)].
Qed.
Lemma js_nonempty s : s ≠ 0%N ↔ ∃ i, i ∈ⱼ s.
Proof.
  split; [|intros [i Hi] ->; by apply (js_mem_empty i)].
  intros H. exists (N.to_nat (N.log2 s)). unfold js_mem. rewrite N2Nat.id. by apply N.bit_log2.
Qed.

Lemma js_subset_spec s t : js_is_subset s t = true ↔ ∀ i, i ∈ⱼ s → i ∈ⱼ t.
Proof.
  unfold js_is_subset. rewrite N.eqb_eq. split.
  - intros H i Hi. rewrite <-H in Hi. by apply js_mem_land in Hi as [].
  - intros H. apply js_eq. intros i. rewrite js_mem_land. naive_solver.
Qed.
Lemma js_disjoint_spec s t : js_is_disjoint s t = true ↔ ∀ i, i ∈ⱼ s → i ∉ⱼ t.
Proof.
  unfold js_is_disjoint. rewrite N.eqb_eq, js_empty. setoid_rewrite js_mem_land. naive_solver.
Qed.
Lemma js_not_disjoint_spec s t : js_is_disjoint s t = false ↔ ∃ i, i ∈ⱼ s ∧ i ∈ⱼ t.
Proof.
  unfold js_is_disjoint. rewrite N.eqb_neq, js_nonempty. by setoid_rewrite js_mem_land.
Qed.

Lemma js_wf_spec s : js_wf s ↔ ∀ i, i ∈ⱼ s → (i < 64)%nat.
Proof.
  split.
  - intros H i Hi. unfold js_mem, js_wf in *. apply Nat.nle_gt. intros Hge.
    rewrite (N.bits_above_log2 s) in Hi; [done|].
    destruct (decide (s = 0%N)) as [->|Hs]; [by rewrite N.bits_0 in Hi|].
    apply N.log2_lt_pow2 in H; [lia|]. lia.
  - intros H. unfold js_wf. destruct (decide (s = 0%N)) as [->|Hs]; [lia|].
    apply N.log2_lt_pow2; [lia|].
    specialize (H (N.to_nat (N.log2 s))). unfold js_mem in H. rewrite N2Nat.id in H.
    specialize (H (N.bit_log2 s Hs)). lia.
Qed.
Lemma js_wf_lt s i : js_wf s → i ∈ⱼ s → (i < 64)%nat.
Proof. intros H. by apply js_wf_spec. Qed.
Lemma js_wf_union s t : js_wf s → js_wf t → js_wf (s ∪ⱼ t).
Proof. rewrite !js_wf_spec. setoid_rewrite js_mem_union. naive_solver. Qed.
Lemma js_wf_difference s t : js_wf s → js_wf (s ∖ⱼ t).
Proof. rewrite !js_wf_spec. setoid_rewrite js_mem_difference. naive_solver. Qed.
Lemma js_wf_bit i : (i < 64)%nat → js_wf (bit i).
Proof. rewrite js_wf_spec. setoid_rewrite js_mem_bit. by intros ? ? ->. Qed.

Lemma js_new_singleton_ok i : (i < 64)%nat → js_new_singleton i = Ok (bit i).
Proof. intros H. unfold js_new_singleton, MAX_RELATIONS. by rewrite (proj2 (Nat.leb_gt _ _) H). Qed.

(** *** The iterator *)
Lemma pos_trailing_zeros_spec p :
  pos_trailing_zeros p ∈ⱼ Npos p ∧ ∀ j, j ∈ⱼ Npos p → (pos_trailing_zeros p <= j)%nat.
Proof.
  unfold js_mem. induction p as [p [IH1 IH2]|p [IH1 IH2]|]; cbn [pos_trailing_zeros].
  - split; [done|lia].
  - split.
    + rewrite Nat2N.inj_succ. change (Npos p~0) with (N.double (Npos p)).
      by rewrite N.double_bits_succ.
    + intros [|j] Hj; [done|]. apply le_n_S, IH2. revert Hj. rewrite Nat2N.inj_succ.
      change (Npos p~0) with (N.double (Npos p)). by rewrite N.double_bits_succ.
  - split; [done|lia].
Qed.

Lemma pos_land_pred p :
  (∀ j, N.testbit (N.land (Npos p) (Npos p - 1)) (N.of_nat j) =
        N.testbit (Npos p) (N.of_nat j) && negb (j =? pos_trailing_zeros p)%nat) ∧
  S (js_cardinality (N.land (Npos p) (Npos p - 1))) = pos_count_ones p.
Proof.
  induction p as [p _|p [IH1 IH2]|].
  - assert (N.land (Npos p~1) (Npos p~1 - 1) = N.double (Npos p)) as ->.
    { transitivity (N.double (N.land (Npos p) (Npos p))); [done|]. by rewrite N.land_diag. }
    split; [|done]. intros [|j]; [done|]. rewrite Nat2N.inj_succ, N.double_bits_succ.
    change (Npos p~1) with (N.succ_double (Npos p)). rewrite N.testbit_succ_r_div2 by lia.
    rewrite N.div2_succ_double. simpl. by rewrite andb_true_r.
  - assert (N.land (Npos p~0) (Npos p~0 - 1) = N.double (N.land (Npos p) (Npos p - 1))) as ->.
    { replace (Npos p~0 - 1)%N with (N.succ_double (Npos p - 1)).
      2:{ rewrite N.succ_double_spec. lia. }
      by destruct (Npos p - 1)%N. }
    split.
    + intros [|j]; [by rewrite N.testbit_even_0|]. rewrite Nat2N.inj_succ, N.double_bits_succ, IH1.
      change (Npos p~0) with (N.double (Npos p)). by rewrite N.double_bits_succ.
    + cbn [pos_count_ones]. rewrite <-IH2. f_equal. by destruct (N.land (Npos p) (Npos p - 1)).
  - split; [|done]. intros j. simpl. by destruct j.
Qed.

Lemma js_cardinality_le s : js_wf s → (js_cardinality s <= 64)%nat.
Proof.
  intros H. destruct s as [|p]; [simpl; lia|]. unfold js_wf in H. cbn [js_cardinality].
  assert (pos_count_ones p <= Pos.size_nat p)%nat by (induction p; simpl in *; lia).
  enough (Pos.size_nat p <= Pos.size_nat (2 ^ 64 - 1))%nat as Hle by (simpl in Hle; lia).
  destruct (decide (p = (2 ^ 64 - 1)%positive)) as [->|Hne]; [lia|].
  apply Pos.size_nat_monotone. lia.
Qed.

Lemma js_take_spec fuel s :
  (js_cardinality s <= fuel)%nat →
  (∀ i, i ∈ js_take fuel s ↔ i ∈ⱼ s) ∧ StronglySorted lt (js_take fuel s) ∧
  length (js_take fuel s) = js_cardinality s.
Proof.
  revert s. induction fuel as [|fuel IH]; intros [|p] Hc; cbn [js_take js_next].
  - split_and!; [|constructor|done]. intros i. pose proof (js_mem_empty i). set_solver.
  - cbn [js_cardinality] in Hc. pose proof (pos_land_pred p) as [_ ?]. lia.
  - split_and!; [|constructor|done]. intros i. pose proof (js_mem_empty i). set_solver.
  - pose proof (pos_land_pred p) as [Hbits Hcard]. cbn [js_cardinality] in Hc.
    pose proof (pos_trailing_zeros_spec p) as [Hin Hmin].
    destruct (IH (N.land (Npos p) (Npos p - 1))) as (Hm & Hs & Hl); [lia|].
    assert (∀ j, j ∈ⱼ N.land (Npos p) (Npos p - 1) ↔ j ∈ⱼ Npos p ∧ j ≠ pos_trailing_zeros p) as Hr.
    { intros j. unfold js_mem. rewrite Hbits, andb_true_iff, negb_true_iff, Nat.eqb_neq. done. }
    split_and!.
    + intros i. rewrite elem_of_cons, Hm, Hr. destruct (decide (i = pos_trailing_zeros p)); naive_solver.
    + constructor; [done|]. apply Forall_forall. intros j Hj. apply Hm, Hr in Hj as [Hj Hne].
      specialize (Hmin j Hj). lia.
    + cbn [length js_cardinality]. lia.
Qed.

Lemma elem_of_js_iter s i : js_wf s → i ∈ js_iter s ↔ i ∈ⱼ s.
Proof. intros H. apply js_take_spec. by apply js_cardinality_le. Qed.
Lemma js_iter_sorted s : js_wf s → StronglySorted lt (js_iter s).
Proof. intros H. apply js_take_spec. by apply js_cardinality_le. Qed.
Lemma length_js_iter s : js_wf s → length (js_iter s) = js_cardinality s.
Proof. intros H. apply js_take_spec. by apply js_cardinality_le. Qed.
Lemma sorted_lt_nodup (l : list nat) : StronglySorted lt l → NoDup l.
Proof.
  induction 1 as [|x l ? IH Hx]; constructor; [|done]. intros Hin.
  rewrite Forall_forall in Hx. specialize (Hx x Hin). lia.
Qed.
Lemma js_iter_nodup s : js_wf s → NoDup (js_iter s).
Proof. intros H. by apply sorted_lt_nodup, js_iter_sorted. Qed.

Lemma js_cardinality_subset s t :
  js_wf t → (∀ i, i ∈ⱼ s → i ∈ⱼ t) → (js_cardinality s <= js_cardinality t)%nat.
Proof.
  intros Ht H. assert (js_wf s) as Hs by (apply js_wf_spec; eauto using js_wf_lt).
  rewrite <-!length_js_iter by done. apply submseteq_length, NoDup_submseteq.
  - by apply js_iter_nodup.
  - intros i. rewrite !elem_of_js_iter by done. apply H.
Qed.
Lemma js_cardinality_subset_lt s t j :
  js_wf t → (∀ i, i ∈ⱼ s → i ∈ⱼ t) → j ∈ⱼ t → j ∉ⱼ s → (js_cardinality s < js_cardinality t)%nat.
Proof.
  intros Ht H Hj Hnj. assert (js_wf s) as Hs by (apply js_wf_spec; eauto using js_wf_lt).
  rewrite <-!length_js_iter by done.
  apply Nat.lt_le_trans with (length (j :: js_iter s)); [simpl; lia|].
  apply submseteq_length, NoDup_submseteq.
  - constructor; [by rewrite elem_of_js_iter|by apply js_iter_nodup].
  - intros i. rewrite elem_of_cons, !elem_of_js_iter by done. naive_solver.
Qed.
Lemma js_cardinality_zero s : js_wf s → js_cardinality s = 0%nat ↔ s = 0%N.
Proof.
  intros H. split; [|by intros ->]. rewrite <-length_js_iter by done. intros Hl.
  apply nil_length_inv in Hl. apply js_empty. intros i. rewrite <-elem_of_js_iter, Hl by done. set_solver.
Qed.
Lemma js_iter_bit i : (i < 64)%nat → js_iter (bit i) = [i].
Proof.
  intros H. pose proof (js_iter_sorted (bit i) (js_wf_bit i H)) as Hs.
  pose proof (elem_of_js_iter (bit i)) as He. setoid_rewrite js_mem_bit in He.
  destruct (js_iter (bit i)) as [|x [|y l]].
  - specialize (He i (js_wf_bit i H)). set_solver.
  - specialize (He x (js_wf_bit i H)). set_solver.
  - pose proof (He x (js_wf_bit i H)). pose proof (He y (js_wf_bit i H)).
    inversion Hs as [|? ? ? Hf]; subst. inversion Hf; subst. set_solver by lia.
Qed.

Lemma js_from_iter_ok l :
  (∀ i, i ∈ l → (i < 64)%nat) →
  ∃ s, js_from_iter l = Ok s ∧ js_wf s ∧ ∀ i, i ∈ⱼ s ↔ i ∈ l.
Proof.
  intros Hl. unfold js_from_iter.
  assert (∀ acc, js_wf acc → ∃ s,
    foldl (λ r i, bits ← r;
      if (MAX_RELATIONS <=? i)%nat then Err (index_error i) else Ok (N.lor bits (bit i))) (Ok acc) l = Ok s ∧
    js_wf s ∧ ∀ i, i ∈ⱼ s ↔ i ∈ⱼ acc ∨ i ∈ l) as H.
  { induction l as [|x l IH]; intros acc Hacc.
    - exists acc. split_and!; [done..|]. set_solver.
    - assert (x < 64)%nat as Hx by set_solver. cbn [foldl].
      assert ((MAX_RELATIONS <=? x)%nat = false) as -> by (by apply Nat.leb_gt). cbn [mbind].
      destruct (IH ltac:(set_solver) (N.lor acc (bit x))) as (s & Hs & Hwf & Hm).
      { by apply (js_wf_union acc (bit x)), js_wf_bit. }
      exists s. split_and!; [done..|]. intros i. rewrite Hm.
      pose proof (js_mem_union i acc (bit x)) as Hu. rewrite js_mem_bit in Hu.
      unfold js_union in Hu. rewrite Hu. set_solver. }
  destruct (H 0%N) as (s & Hs & Hwf & Hm); [by compute|].
  exists s. split_and!; [done..|]. intros i. rewrite Hm. pose proof (js_mem_empty i). naive_solver.
Qed.

(** ** Folds *)
Lemma foldl_reach {A B} (f : A → B → A) (I M : A → Prop) x0 l a :
  x0 ∈ l → I a → (∀ a x, x ∈ l → I a → I (f a x)) → (∀ a, I a → M (f a x0)) →
  (∀ a x, x ∈ l → I a → M a → M (f a x)) → M (foldl f a l).
Proof.
  intros Hx0. revert a. induction l as [|x l IH]; intros a HI Hstep Hr Hk; [set_solver|]. cbn.
  apply elem_of_cons in Hx0 as [->|Hin].
  2:{ apply IH; [done| |set_solver..]. apply Hstep; [set_solver|done]. }
  - apply (foldl_inv f (λ a, I a ∧ M a)).
    + split; [apply Hstep; [set_solver|done]|by apply Hr].
    + intros b y Hy [??]. split; [apply Hstep|apply Hk]; set_solver.
Qed.
Lemma elem_of_foldl_union {A} (f : gset nat → A → gset nat) (P : A → nat → Prop) l acc i :
  (∀ acc x, x ∈ l → i ∈ f acc x ↔ i ∈ acc ∨ P x i) →
  i ∈ foldl f acc l ↔ i ∈ acc ∨ ∃ x, x ∈ l ∧ P x i.
Proof.
  revert acc. induction l as [|x l IH]; intros acc Hf; cbn; [set_solver|].
  rewrite IH by set_solver. rewrite Hf by set_solver. set_solver.
Qed.

(** ** The trie as a set of entries *)
Definition trie_entry (t : QueryEdge) (path : list nat) (m : JoinSet) (idx : nat) : Prop :=
  ∃ t' ni, trie_find path t = Some t' ∧ ni ∈ qe_neighbors t' ∧ ni_neighbor ni = m ∧
    idx ∈ ni_edge_indices ni.

Lemma child_get_set r r' t l :
  child_get r (child_set r' t l) = if decide (r = r') then Some t else child_get r l.
Proof.
  induction l as [|[k u] l IH]; simpl.
  - case_decide as E; [by rewrite E, Nat.eqb_refl|]. by rewrite (proj2 (Nat.eqb_neq _ _)).
  - destruct (Nat.eqb_spec k r') as [->|Hk]; simpl.
    + case_decide as E; [by rewrite E, Nat.eqb_refl|]. by rewrite (proj2 (Nat.eqb_neq r' r)).
    + rewrite IH. destruct (Nat.eqb_spec k r) as [->|]; [|done]. by rewrite decide_False.
Qed.

Lemma add_neighbor_spec m idx l n j :
  (∃ ni, ni ∈ add_neighbor m idx l ∧ ni_neighbor ni = n ∧ j ∈ ni_edge_indices ni) ↔
  (∃ ni, ni ∈ l ∧ ni_neighbor ni = n ∧ j ∈ ni_edge_indices ni) ∨ (n = m ∧ j = idx).
Proof.
  induction l as [|x l IH]; simpl.
  - split; [intros (ni & [->|Hni]%elem_of_cons & <- & Hj); set_solver|].
    intros [(ni & Hni & _)|[-> ->]]; [set_solver|]. eexists. split; [by left|]. set_solver.
  - destruct (N.eqb_spec (ni_neighbor x) m) as [<-|Hne].
    + split.
      * intros (ni & [->|Hni]%elem_of_cons & <- & Hj); [|left; exists ni; set_solver].
        simpl in Hj. apply elem_of_app in Hj as [Hj|Hj].
        { left. exists x. set_solver. } { right. set_solver. }
      * intros [(ni & [->|Hni]%elem_of_cons & <- & Hj)|[-> ->]].
        { eexists. split; [by left|]. simpl. set_solver. }
        { exists ni. set_solver. }
        { eexists. split; [by left|]. simpl. set_solver. }
    + split.
      * intros (ni & [->|Hni]%elem_of_cons & Hn & Hj); [left; exists x; set_solver|].
        destruct (proj1 IH ltac:(eauto)) as [(ni' & ? & ? & ?)|]; [left; exists ni'; set_solver|by right].
      * intros [(ni & [->|Hni]%elem_of_cons & Hn & Hj)|Hr].
        { exists x. set_solver. }
        { destruct (proj2 IH) as (ni' & ? & ? & ?); [eauto|]. exists ni'. set_solver. }
        { destruct (proj2 IH) as (ni' & ? & ? & ?); [eauto|]. exists ni'. set_solver. }
Qed.

Lemma trie_entry_nil t m j :
  trie_entry t [] m j ↔ ∃ ni, ni ∈ qe_neighbors t ∧ ni_neighbor ni = m ∧ j ∈ ni_edge_indices ni.
Proof. unfold trie_entry. simpl. split; [intros (? & ? & [= <-] & ?)|]; naive_solver. Qed.
Lemma trie_entry_cons t r q m j :
  trie_entry t (r :: q) m j ↔ ∃ c, child_get r (qe_children t) = Some c ∧ trie_entry c q m j.
Proof.
  unfold trie_entry. cbn [trie_find]. destruct (child_get r (qe_children t)); simpl; naive_solver.
Qed.
Lemma trie_entry_default q m j : ¬ trie_entry qe_default q m j.
Proof. destruct q; [rewrite trie_entry_nil|rewrite trie_entry_cons]; set_solver. Qed.

(** Adding an entry adds this entry. *)
Lemma trie_add_spec p n i t q m j :
  trie_entry (trie_add p n i t) q m j ↔ trie_entry t q m j ∨ (q = p ∧ m = n ∧ j = i).
Proof.
  revert t q. induction p as [|r p IH]; intros t q; simpl.
  - destruct q as [|r q].
    + rewrite !trie_entry_nil. simpl. rewrite add_neighbor_spec. naive_solver.
    + rewrite !trie_entry_cons. simpl. naive_solver.
  - destruct q as [|r' q].
    + rewrite !trie_entry_nil. simpl. naive_solver.
    + rewrite !trie_entry_cons. cbn [qe_children]. setoid_rewrite child_get_set.
      case_decide as E; [subst r'|naive_solver].
      split.
      * intros (c & [= <-] & Hc). apply IH in Hc as [Hc|(-> & -> & ->)]; [|by right].
        destruct (child_get r (qe_children t)) as [c'|]; [eauto|].
        by apply trie_entry_default in Hc.
      * intros H. eexists. split; [done|]. apply IH.
        destruct H as [(c & -> & Hc)|([= ->] & -> & ->)]; [by left|by right].
Qed.

(** Every neighbour in the trie has a condition. *)
Definition trie_full (t : QueryEdge) : Prop :=
  ∀ q t' ni, trie_find q t = Some t' → ni ∈ qe_neighbors t' → ∃ j, j ∈ ni_edge_indices ni.
Lemma add_neighbor_full m idx l ni :
  (∀ ni, ni ∈ l → ∃ j, j ∈ ni_edge_indices ni) → ni ∈ add_neighbor m idx l →
  ∃ j, j ∈ ni_edge_indices ni.
Proof.
  induction l as [|x l IH]; intros Hl; simpl.
  - intros [->|H]%elem_of_cons; [|set_solver]. exists idx. set_solver.
  - destruct (ni_neighbor x =? m)%N.
    + intros [->|H]%elem_of_cons; [exists idx; set_solver|apply Hl; set_solver].
    + intros [->|H]%elem_of_cons; [apply Hl; set_solver|apply IH; set_solver].
Qed.
Lemma trie_full_default : trie_full qe_default.
Proof. intros [|r q] t' ni; simpl; [intros [= <-]; set_solver|done]. Qed.
Lemma trie_add_full p n i t : trie_full t → trie_full (trie_add p n i t).
Proof.
  revert t. induction p as [|r p IH]; intros t Ht [|r' q] t' ni; simpl.
  - intros [= <-]. apply add_neighbor_full. intros ni'. by apply (Ht [] t).
  - apply (Ht (r' :: q)).
  - intros [= <-]. by apply (Ht [] t).
  - rewrite child_get_set. case_decide as E; [|apply (Ht (r' :: q))]. cbn. apply IH.
    destruct (child_get r (qe_children t)) as [c|] eqn:Hc; [|apply trie_full_default].
    intros q' t'' ni' Hf. apply (Ht (r :: q')). simpl. by rewrite Hc.
Qed.

(** ** The trie of a query graph *)
Lemma elem_of_combinations len need start acc c :
  c ∈ combinations len need start acc → ∃ d, c = acc ++ d ∧ ∀ x, x ∈ d → (x < len)%nat.
Proof.
  revert start acc. induction need as [|need IH]; intros start acc; cbn.
  - intros [->|Hc]%elem_of_cons; [|set_solver]. exists []. rewrite app_nil_r. set_solver.
  - rewrite list_elem_of_bind. intros (i & Hc & Hi). apply elem_of_seq in Hi.
    destruct (IH _ _ Hc) as (d & -> & Hd). exists (i :: d). rewrite <-app_assoc. split; [done|].
    intros x [->|Hx]%elem_of_cons; [lia|by apply Hd].
Qed.
Lemma elem_of_pick relations c x : x ∈ pick relations c ↔ ∃ i, i ∈ c ∧ relations !! i = Some x.
Proof. unfold pick. rewrite list_elem_of_omap. done. Qed.

Section Trie.
Context `{JE : JoinEngine} `{HO : HashOrder}.

(** What the trie holds for a condition over [relations]: paths to proper subsets. *)
Definition split_entry (relations : list nat) (q : list nat) (m : JoinSet) : Prop :=
  (∃ p, p ∈ q) ∧ (∀ x, x ∈ q → x ∈ relations) ∧ ∀ x, x ∈ⱼ m ↔ x ∈ relations ∧ x ∉ q.
Definition trie_grows (relations : list nat) (idx : nat) (t t' : QueryEdge) : Prop :=
  (∀ q m j, trie_entry t q m j → trie_entry t' q m j) ∧
  (∀ q m j, trie_entry t' q m j → trie_entry t q m j ∨ (j = idx ∧ split_entry relations q m)) ∧
  (trie_full t → trie_full t').

Lemma trie_grows_refl relations idx t : trie_grows relations idx t t.
Proof. split_and!; naive_solver. Qed.
Lemma trie_grows_trans relations idx t1 t2 t3 :
  trie_grows relations idx t1 t2 → trie_grows relations idx t2 t3 → trie_grows relations idx t1 t3.
Proof.
  intros (H1 & H2 & H2') (H3 & H4 & H4'). split_and!; [eauto| |auto]. intros q m j [Hq|Hq]%H4; auto.
Qed.
Lemma trie_grows_add relations idx t q m :
  split_entry relations q m → trie_grows relations idx t (trie_add q m idx t).
Proof.
  intros Hs. split_and!; [intros q' m' j; rewrite trie_add_spec..|by apply trie_add_full]; [by left|].
  intros [H|(-> & -> & ->)]; auto.
Qed.

(** A graph with a larger trie. *)
Definition graph_grows (relations : list nat) (idx : nat) (g g' : QueryGraph) : Prop :=
  ∃ t, g' = with_root g t ∧ trie_grows relations idx (qg_root_edge g) t.
Lemma graph_grows_refl relations idx g : graph_grows relations idx g g.
Proof. exists (qg_root_edge g). split; [by destruct g|apply trie_grows_refl]. Qed.
Lemma graph_grows_trans relations idx g1 g2 g3 :
  graph_grows relations idx g1 g2 → graph_grows relations idx g2 g3 → graph_grows relations idx g1 g3.
Proof.
  intros (t & -> & Ht) (u & -> & Hu). exists u. split; [done|]. eapply trie_grows_trans; [done|].
  by apply Hu.
Qed.

Lemma split_entry_sort relations q m :
  split_entry relations q m → split_entry relations (sort_by Nat.leb q) m.
Proof. unfold split_entry. by setoid_rewrite elem_of_sort_by. Qed.

Section Edge.
Context (relations : list nat) (idx : nat).
Context (Hnd : NoDup relations) (H64 : ∀ x, x ∈ relations → (x < 64)%nat).

Lemma add_entry_grows g subset remaining :
  (∃ p, p ∈ subset) → (∀ x, x ∈ subset → x ∈ relations) →
  (∀ x, x ∈ remaining ↔ x ∈ relations ∧ x ∉ subset) →
  ∃ m, js_from_iter remaining = Ok m ∧ split_entry relations (sort_by Nat.leb subset) m ∧
    graph_grows relations idx g (create_trie_path_and_add_neighbor g subset m idx).
Proof.
  intros Hp Hsub Hrem. destruct (js_from_iter_ok remaining) as (m & Hm & _ & Hmem).
  { intros x Hx. apply H64. by apply Hrem in Hx as []. }
  assert (split_entry relations (sort_by Nat.leb subset) m) as Hs.
  { apply split_entry_sort. split_and!; [done..|]. intros x. by rewrite Hmem, Hrem. }
  exists m. split_and!; [done..|]. eexists. split; [done|]. by apply trie_grows_add.
Qed.

Lemma add_combination_ok g c :
  (∃ i, i ∈ c) → (∀ i, i ∈ c → (i < length relations)%nat) →
  ∃ g', add_combination relations idx g c = Ok g' ∧ graph_grows relations idx g g'.
Proof.
  intros [i0 Hi0] Hc. unfold add_combination.
  destruct (add_entry_grows g (pick relations c)
    (snd <$> filter (λ x, x.1 ∉ c) (imap pair relations))) as (m & Hm & _ & Hg).
  - destruct (lookup_lt_is_Some_2 relations i0) as [x Hx]; [auto|]. exists x. apply elem_of_pick. eauto.
  - intros x (i & _ & Hx)%elem_of_pick. by eapply list_elem_of_lookup_2.
  - intros x. rewrite list_elem_of_fmap, elem_of_pick. split.
    + intros ([i y] & -> & Hi). apply list_elem_of_filter in Hi as [Hi Hy].
      apply elem_of_lookup_imap in Hy as (i' & y' & [= -> ->] & Hy). simpl in *.
      split; [by eapply list_elem_of_lookup_2|]. intros (k & Hk & Hy').
      by rewrite (NoDup_lookup _ _ _ _ Hnd Hy Hy') in Hi.
    + intros [Hx Hn]. apply list_elem_of_lookup in Hx as [i Hi]. exists (i, x). split; [done|].
      apply list_elem_of_filter. split; [simpl; naive_solver|].
      apply elem_of_lookup_imap. eauto.
  - destruct (snd <$> _); [eauto using graph_grows_refl|]. rewrite Hm. cbn. eauto.
Qed.

(** Results of a fold stay good, and grow. *)
Definition grown (g : QueryGraph) (r : JoinResult QueryGraph) : Prop :=
  ∃ g', r = Ok g' ∧ graph_grows relations idx g g'.
Lemma grown_bind g r (f : QueryGraph → JoinResult QueryGraph) :
  grown g r → (∀ g', ∃ g'', f g' = Ok g'' ∧ graph_grows relations idx g' g'') → grown g (r ≫= f).
Proof.
  intros (g' & -> & Hg) Hf. destruct (Hf g') as (g'' & Hr & Hg'). exists g''. cbn.
  eauto using graph_grows_trans.
Qed.

Lemma generate_subsets_ok g k i :
  (i < length relations)%nat →
  ∃ g', generate_subsets_and_update_trie g relations k i idx = Ok g' ∧ graph_grows relations idx g g' ∧
    (k = 1%nat → ∀ p r, relations !! i = Some p → r ∈ relations → r ≠ p →
      ∃ m, trie_entry (qg_root_edge g') [p] m idx).
Proof.
  intros Hi. unfold generate_subsets_and_update_trie. destruct (Nat.eqb_spec k 1) as [->|Hk].
  - destruct (lookup_lt_is_Some_2 relations i Hi) as [p Hp]. rewrite Hp.
    destruct (add_entry_grows g [p] (filter (λ r, r ≠ p) relations)) as (m & Hm & Hs & Hg).
    + exists p. set_solver.
    + intros x ->%list_elem_of_singleton. by eapply list_elem_of_lookup_2.
    + intros x. rewrite list_elem_of_filter. set_solver.
    + destruct (filter _ relations) eqn:E.
      * exists g. split_and!; [done|apply graph_grows_refl|]. intros _ p' r [= <-] Hr Hne.
        assert (r ∈ filter (λ r, r ≠ p) relations) as Hf by (by apply list_elem_of_filter).
        rewrite E in Hf. set_solver.
      * rewrite <-E, Hm in *. cbn. eexists. split_and!; [done..|]. intros _ p' r [= <-] _ _.
        exists m. apply (trie_add_spec [p]). by right.
  - unfold generate_combinations_recursive.
    assert (grown g (foldl (λ r c, g ← r; add_combination relations idx g c) (Ok g)
      (combinations (length relations) (k - length [i]) (S i) [i]))) as (g' & Hr & Hg).
    { apply foldl_inv; [exists g; eauto using graph_grows_refl|]. intros r c Hc Hr.
      apply grown_bind; [done|]. intros g'. apply elem_of_combinations in Hc as (d & -> & Hd).
      apply add_combination_ok; [exists i; set_solver|].
      intros j [->|Hj]%elem_of_cons; [done|by apply Hd]. }
    exists g'. split_and!; [done..|]. by intros ->.
Qed.

Lemma update_trie_ok g e :
  qg_edges g !! idx = Some e → js_iter (je_join_set e) = relations →
  ∃ g', update_trie_for_edge g idx = Ok g' ∧ graph_grows relations idx g g' ∧
    ∀ p r, p ∈ relations → r ∈ relations → r ≠ p → ∃ m, trie_entry (qg_root_edge g') [p] m idx.
Proof.
  intros He Hrel. unfold update_trie_for_edge. rewrite He, Hrel.
  set (inner r i := foldl (λ r k, g ← r; generate_subsets_and_update_trie g relations k i idx) r
    (seq 1 (length relations))).
  set (has p (r : JoinResult QueryGraph) := ∃ g', r = Ok g' ∧ ∃ m, trie_entry (qg_root_edge g') [p] m idx).
  assert (∀ r i k, (i < length relations)%nat → grown g r →
    grown g (g ← r; generate_subsets_and_update_trie g relations k i idx)) as Hstep.
  { intros r i k Hi Hr. apply grown_bind; [done|]. intros g'.
    destruct (generate_subsets_ok g' k i Hi) as (g'' & ? & ? & _). eauto. }
  assert (∀ p r i k, (i < length relations)%nat → has p r →
    has p (g ← r; generate_subsets_and_update_trie g relations k i idx)) as Hkeep.
  { intros p r i k Hi (g' & -> & m & Hm). cbn.
    destruct (generate_subsets_ok g' k i Hi) as (g'' & -> & (t & -> & Ht & _) & _).
    eexists. split; [reflexivity|]. exists m. by apply Ht. }
  assert (∀ r i, i ∈ seq 0 (length relations) → grown g r → grown g (inner r i)) as Hinner.
  { intros r i Hi Hr. apply elem_of_seq in Hi. apply foldl_inv; [done|].
    intros r' k _ Hr'. apply Hstep; [lia|done]. }
  destruct (foldl_inv inner (grown g) (seq 0 (length relations)) (Ok g)) as (g' & Hr & Hg);
    [exists g; eauto using graph_grows_refl|done|].
  exists g'. split_and!; [done..|]. intros p r Hp Hrr Hne.
  apply list_elem_of_lookup in Hp as [i Hp]. pose proof (lookup_lt_Some _ _ _ Hp) as Hi.
  enough (has p (foldl inner (Ok g) (seq 0 (length relations)))) as (g2 & Hr2 & Hm).
  { rewrite Hr in Hr2. by injection Hr2 as <-. }
  apply (foldl_reach inner (grown g) _ i); [by apply elem_of_seq; lia| |done|..].
  - exists g. eauto using graph_grows_refl.
  - intros r0 Hr0. apply (foldl_reach _ (grown g) _ 1%nat); [apply elem_of_seq; lia|done|..].
    + intros r1 k _. by apply Hstep.
    + intros r1 (g1 & -> & _).
      destruct (generate_subsets_ok g1 1 i Hi) as (g2 & Heq & _ & Hent). exists g2.
      split; [exact Heq|]. eauto.
    + intros r1 k _ _. by apply Hkeep.
  - intros r0 i' Hi' _ Hd. apply elem_of_seq in Hi'. apply foldl_inv; [done|].
    intros r1 k _ Hr1. apply Hkeep; [lia|done].
Qed.
End Edge.

(** *** Graphs built by [add_relation] and [add_edge] *)
Record graph_wf (g : QueryGraph) : Prop := {
  gw_sets : ∀ j e, qg_edges g !! j = Some e → js_wf (je_join_set e);
  gw_sound : ∀ q m j, trie_entry (qg_root_edge g) q m j →
    ∃ e, qg_edges g !! j = Some e ∧ split_entry (js_iter (je_join_set e)) q m;
  gw_complete : ∀ j e p r, qg_edges g !! j = Some e → p ∈ⱼ je_join_set e → r ∈ⱼ je_join_set e →
    r ≠ p → ∃ m, trie_entry (qg_root_edge g) [p] m j;
  gw_full : trie_full (qg_root_edge g);
  gw_cache : ∀ s l, qg_neighbor_cache g !! s = Some l → l = compute_neighbors g s
}.
Inductive built : QueryGraph → Prop :=
| built_new : built graph_new
| built_relation g r : built g → built (add_relation g r)
| built_edge g e g' : built g → js_wf (je_join_set e) → add_edge g e = Ok g' → built g'
| built_neighbors g s : built g → built (get_neighbors g s).2.

Lemma graph_new_wf : graph_wf graph_new.
Proof.
  split; cbn; intros.
  - by rewrite lookup_nil in *.
  - by apply trie_entry_default in H.
  - by rewrite lookup_nil in *.
  - apply trie_full_default.
  - by rewrite lookup_empty in *.
Qed.
Lemma add_relation_wf g r : graph_wf g → graph_wf (add_relation g r).
Proof. intros [H1 H2 H3 H3' H4]. by split. Qed.
Lemma get_neighbors_wf g s : graph_wf g → graph_wf (get_neighbors g s).2.
Proof.
  intros [H1 H2 H3 H3' H4]. unfold get_neighbors. destruct (qg_neighbor_cache g !! s) eqn:E; [by split|].
  split; cbn; [done..|]. intros s' l [[<- <-]|[_ Hl]]%lookup_insert_Some; [done|]. by apply H4.
Qed.

(** Adding a condition cannot fail. *)
Lemma add_edge_ok g e :
  graph_wf g → js_wf (je_join_set e) →
  ∃ g', add_edge g e = Ok g' ∧ graph_wf g' ∧ qg_edges g' = qg_edges g ++ [e] ∧
    qg_relations g' = qg_relations g.
Proof.
  intros [H1 H2 H3 H3' H4] He. unfold add_edge. set (idx := length (qg_edges g)).
  set (g1 := MkQueryGraph (qg_relations g) (qg_edges g ++ [e]) (qg_root_edge g) ∅).
  assert (qg_edges g1 !! idx = Some e) as Hidx.
  { cbn. unfold idx. by rewrite lookup_app_r, Nat.sub_diag. }
  assert (∀ j e', qg_edges g !! j = Some e' → qg_edges g1 !! j = Some e') as Hold.
  { intros j e' Hj. cbn. by apply lookup_app_l_Some. }
  destruct (update_trie_ok (js_iter (je_join_set e)) idx) with (g := g1) (e := e)
    as (g' & Hr & (t & -> & Ht) & Hent); [by apply js_iter_nodup| |done..|].
  { intros x Hx. apply (js_wf_lt (je_join_set e)); [done|]. by apply elem_of_js_iter. }
  rewrite Hr. eexists. split_and!; [done| |done..]. split; cbn.
  - intros j e' [Hj|[_ Hj]]%lookup_app_Some; [by eapply H1|].
    apply list_lookup_singleton_Some in Hj as [_ ->]. done.
  - intros q m j [Hq|[-> Hq]]%Ht; [|eauto]. destruct (H2 _ _ _ Hq) as (e' & He' & Hs). eauto.
  - intros j e' p r Hj Hp Hrr Hne. apply lookup_app_Some in Hj as [Hj|[Hge Hj]].
    + destruct (H3 _ _ _ _ Hj Hp Hrr Hne) as [m Hm]. exists m. by apply Ht.
    + apply list_lookup_singleton_Some in Hj as [Hj ->].
      replace j with idx by (unfold idx; lia).
      apply (Hent p r); [by apply elem_of_js_iter..|done].
  - by apply Ht.
  - intros s l Hl. by rewrite lookup_empty in Hl.
Qed.
Lemma built_wf g : built g → graph_wf g.
Proof.
  induction 1 as [|g r _ IH|g e g' _ IH He Hadd|g s _ IH].
  - apply graph_new_wf.
  - by apply add_relation_wf.
  - destruct (add_edge_ok g e IH He) as (g'' & Hok & Hwf & _). congruence.
  - by apply get_neighbors_wf.
Qed.

(** *** Look-ups *)
Definition trie_paths (relations : list nat) : list (list nat) :=
  seq 1 (length relations) ≫= subsets_of_size relations.
Lemma subsets_of_size_sound relations k s :
  (1 <= k)%nat → s ∈ subsets_of_size relations k → ∀ x, x ∈ s → x ∈ relations.
Proof.
  intros Hk. unfold subsets_of_size. destruct (k =? 1)%nat.
  - intros (r & -> & Hr)%list_elem_of_fmap x. set_solver.
  - intros (c & -> & Hc)%list_elem_of_fmap x (i & _ & Hx)%elem_of_pick.
    by eapply list_elem_of_lookup_2.
Qed.

Lemma elem_of_foldl_subsets (f : gset nat → list nat → gset nat) (P : list nat → nat → Prop) relations i :
  (∀ acc s, i ∈ f acc s ↔ i ∈ acc ∨ P s i) →
  i ∈ foldl (λ acc k, foldl f acc (subsets_of_size relations k)) ∅ (seq 1 (length relations)) ↔
  ∃ s, s ∈ trie_paths relations ∧ P s i.
Proof.
  intros Hf.
  rewrite (elem_of_foldl_union _ (λ k i, ∃ s, s ∈ subsets_of_size relations k ∧ P s i)).
  - unfold trie_paths. setoid_rewrite list_elem_of_bind. set_solver.
  - intros acc k _. apply elem_of_foldl_union. intros. apply Hf.
Qed.
Lemma trie_paths_sound relations s x : s ∈ trie_paths relations → x ∈ s → x ∈ relations.
Proof.
  intros (k & Hs & Hk)%list_elem_of_bind. apply elem_of_seq in Hk.
  by apply (subsets_of_size_sound relations k); [lia|].
Qed.
Lemma trie_paths_singleton relations p : p ∈ relations → [p] ∈ trie_paths relations.
Proof.
  intros Hp. apply list_elem_of_bind. exists 1%nat. split.
  - unfold subsets_of_size. apply list_elem_of_fmap. eauto.
  - apply elem_of_seq. destruct relations; [set_solver|simpl; lia].
Qed.

Lemma find_neighbors_spec g s acc r :
  r ∈ find_neighbors_in_trie g s acc ↔
  r ∈ acc ∨ ∃ t ni, trie_find (sort_by Nat.leb s) (qg_root_edge g) = Some t ∧ ni ∈ qe_neighbors t ∧
    r ∈ js_iter (ni_neighbor ni).
Proof.
  unfold find_neighbors_in_trie. destruct (trie_find _ _) as [t|]; [|naive_solver].
  rewrite elem_of_union, elem_of_list_to_set, list_elem_of_bind. naive_solver.
Qed.
Lemma find_connecting_spec g s target acc j :
  j ∈ find_connecting_edges_in_trie g s target acc ↔
  j ∈ acc ∨ ∃ m, trie_entry (qg_root_edge g) (sort_by Nat.leb s) m j ∧ js_is_disjoint m target = false.
Proof.
  unfold find_connecting_edges_in_trie, trie_entry. destruct (trie_find _ _) as [t|].
  - rewrite (elem_of_foldl_union _ (λ n j, js_is_disjoint (ni_neighbor n) target = false ∧ j ∈ ni_edge_indices n)).
    + naive_solver.
    + intros acc' n _. destruct (js_is_disjoint (ni_neighbor n) target); [naive_solver|].
      rewrite elem_of_union, elem_of_list_to_set. naive_solver.
  - naive_solver.
Qed.

(** The trie finds the relations that share a condition with a relation of the set. *)
Definition adjacent (g : QueryGraph) (p r : nat) : Prop :=
  p ≠ r ∧ ∃ j e, qg_edges g !! j = Some e ∧ p ∈ⱼ je_join_set e ∧ r ∈ⱼ je_join_set e.

Lemma elem_of_compute_neighbors g s r :
  graph_wf g → js_wf s → r ∈ compute_neighbors g s ↔ ∃ p, p ∈ⱼ s ∧ adjacent g p r.
Proof.
  intros Hg Hs. unfold compute_neighbors, find_neighbors_for_subsets.
  rewrite elem_of_sort_by, elem_of_hash_order, elem_of_elements.
  rewrite (elem_of_foldl_subsets _ (λ s r, ∃ t ni, trie_find (sort_by Nat.leb s) (qg_root_edge g) = Some t ∧
    ni ∈ qe_neighbors t ∧ r ∈ js_iter (ni_neighbor ni)) _ _ (λ acc s, find_neighbors_spec g s acc r)).
  split.
  - intros (q & Hq & t & ni & Ht & Hni & Hr). destruct (gw_full g Hg _ _ _ Ht Hni) as [j Hj].
    destruct (gw_sound g Hg (sort_by Nat.leb q) (ni_neighbor ni) j) as (e & He & [p Hp] & Hsub & Hm).
    { by exists t, ni. }
    pose proof (gw_sets g Hg _ _ He) as Hwf. exists p. split.
    + apply elem_of_js_iter, (trie_paths_sound _ q); [done..|]. by apply elem_of_sort_by in Hp.
    + assert (js_wf (ni_neighbor ni)) as Hn.
      { apply js_wf_spec. intros x Hx. apply Hm in Hx as [Hx _]. apply elem_of_js_iter in Hx; [|done].
        by eapply js_wf_lt. }
      apply elem_of_js_iter, Hm in Hr as [Hr Hnr]; [|done].
      split; [by intros ->|]. exists j, e. split_and!; [done| |]; apply elem_of_js_iter; auto.
  - intros (p & Hp & Hne & j & e & He & Hpe & Hre). exists [p].
    split; [by apply trie_paths_singleton, elem_of_js_iter|].
    destruct (gw_complete g Hg j e p r) as [m Hm]; [done..|].
    pose proof (gw_sound g Hg _ _ _ Hm) as (e' & He' & Hsp). simplify_eq.
    destruct Hm as (t & ni & Ht & Hni & <- & Hj). exists t, ni. split_and!; [done..|].
    pose proof (gw_sets g Hg _ _ He) as Hwf. destruct Hsp as (_ & _ & Hm).
    assert (∀ x, x ∈ⱼ ni_neighbor ni → (x < 64)%nat) as Hn.
    { intros x Hx. apply Hm in Hx as [Hx _]. apply elem_of_js_iter in Hx; [|done]. by eapply js_wf_lt. }
    apply elem_of_js_iter; [by apply js_wf_spec|]. apply Hm. rewrite elem_of_js_iter by done. set_solver.
Qed.
Lemma compute_neighbors_sorted g s : StronglySorted lt (compute_neighbors g s).
Proof.
  unfold compute_neighbors. set (l := hash_order _).
  assert (NoDup (sort_by Nat.leb l)) as Hnd.
  { unfold l. rewrite sort_by_perm, hash_order_perm. apply NoDup_elements. }
  assert (sorted_by Nat.leb (sort_by Nat.leb l)) as Hs.
  { apply sort_by_sorted; intros; rewrite ?Nat.leb_le, ?Nat.leb_gt in *; lia. }
  induction Hs as [|x k Hk IH Hx]; [constructor|]. apply NoDup_cons in Hnd as [Hnx Hnd].
  constructor; [auto|]. apply Forall_forall. intros y Hy. rewrite Forall_forall in Hx.
  specialize (Hx y Hy). apply Nat.leb_le in Hx. assert (x ≠ y) by (by intros ->). lia.
Qed.
Lemma get_neighbors_fst g s : graph_wf g → (get_neighbors g s).1 = compute_neighbors g s.
Proof.
  intros Hg. unfold get_neighbors. destruct (qg_neighbor_cache g !! s) eqn:E; [|done].
  by apply (gw_cache g Hg).
Qed.

Lemma edge_connects_spec g l r j :
  edge_connects g l r j = true ↔
  ∃ e, qg_edges g !! j = Some e ∧ (∀ x, x ∈ⱼ je_join_set e → x ∈ⱼ l ∨ x ∈ⱼ r) ∧
    (∃ p, p ∈ⱼ je_join_set e ∧ p ∈ⱼ l) ∧ ∃ q, q ∈ⱼ je_join_set e ∧ q ∈ⱼ r.
Proof.
  unfold edge_connects. destruct (qg_edges g !! j) as [e|]; [|naive_solver].
  rewrite !andb_true_iff, !negb_true_iff, js_subset_spec, !js_not_disjoint_spec.
  setoid_rewrite js_mem_union. naive_solver.
Qed.
Lemma elem_of_connecting g l r j :
  graph_wf g → js_wf l →
  j ∈ get_connecting_edge_indices g l r ↔ js_is_disjoint l r = true ∧ edge_connects g l r j = true.
Proof.
  intros Hg Hl. unfold get_connecting_edge_indices, find_connecting_edges_for_subsets.
  destruct (js_is_disjoint l r) eqn:Hd; [|set_solver].
  rewrite list_elem_of_filter, elem_of_hash_order, elem_of_elements.
  split; [naive_solver|]. intros [_ Hc]. split; [done|].
  rewrite (elem_of_foldl_subsets _ (λ s j, ∃ m, trie_entry (qg_root_edge g) (sort_by Nat.leb s) m j ∧
    js_is_disjoint m r = false) _ _ (λ acc s, find_connecting_spec g s r acc j)).
  apply edge_connects_spec in Hc as (e & He & _ & (p & Hpe & Hp) & q & Hqe & Hq).
  rewrite js_disjoint_spec in Hd.
  assert (q ≠ p) as Hne by (intros ->; by apply (Hd p)).
  exists [p]. split; [by apply trie_paths_singleton, elem_of_js_iter|].
  destruct (gw_complete g Hg j e p q) as [m Hm]; [done..|]. exists m. split; [done|].
  destruct (gw_sound g Hg _ _ _ Hm) as (e' & He' & _ & _ & Hmem). simplify_eq.
  apply js_not_disjoint_spec. exists q. split; [|done]. apply Hmem.
  rewrite elem_of_js_iter by (by eapply gw_sets). set_solver.
Qed.
Lemma connecting_nodup g l r : NoDup (get_connecting_edge_indices g l r).
Proof.
  unfold get_connecting_edge_indices. destruct (js_is_disjoint l r); [|constructor].
  apply NoDup_filter. rewrite hash_order_perm. apply NoDup_elements.
Qed.
End Trie.
