(* ===== verification/JoinEnumerator.v ===== *)
(** * Join reordering: estimation and enumeration

    [zelox-physical-optimizer/src/join_reorder]: [cardinality_estimator.rs] and
    [enumerator.rs].  The enumerator fills a table from sets of relations to the best
    plan found for the set, by the enumeration of connected subgraphs and their
    complements, and falls back to a greedy left-deep plan.

    Arithmetic on words and shifts wraps, as in the release profile.  A run that fails
    leaves no state, since the caller drops the enumerator. *)

From Stdlib Require Import String SpecFloat.
From S2P Require Import Prelude Collections JoinGraph.

Section Estimator.
Context `{JE : JoinEngine} `{HO : HashOrder}.

(** ** Cardinality estimation ([cardinality_estimator.rs]) *)
Definition HEURISTIC_FILTER_SELECTIVITY : f64 := f64_ratio 1 10.
Definition HEURISTIC_THETA_JOIN_SELECTIVITY : f64 := f64_of 1.

Record EquivalenceSet := MkEquivalenceSet { eq_columns : gset StableColumn; eq_t_dom_count : f64 }.
Definition equivalence_set_new : EquivalenceSet := MkEquivalenceSet ∅ (f64_of 0).
Definition eq_add_column (s : EquivalenceSet) (c : StableColumn) : EquivalenceSet :=
  MkEquivalenceSet ({[c]} ∪ eq_columns s) (eq_t_dom_count s).
Definition set_t_dom_count (s : EquivalenceSet) (count : f64) : EquivalenceSet :=
  MkEquivalenceSet (eq_columns s) count.
Definition equivalence_contains (s : EquivalenceSet) (c : StableColumn) : bool :=
  bool_decide (c ∈ eq_columns s).

Record CardinalityEstimator := MkCardinalityEstimator {
  ce_graph : QueryGraph;
  ce_cardinality_cache : gmap JoinSet f64;
  ce_equivalence_sets : list EquivalenceSet;
  ce_column_to_equiv_set : gmap StableColumn nat;
  ce_initial_distinct_counts : gmap StableColumn f64
}.

Definition populate_initial_distinct_counts (g : QueryGraph) : gmap StableColumn f64 :=
  foldl (λ m r,
    foldl (λ m '(column_index, stats),
      match cs_distinct_count stats with
      | PExact c | PInexact c => <[MkStableColumn (rn_relation_id r) column_index := f64_of c]> m
      | PAbsent => m
      end) m (imap pair (rn_column_statistics r)))
    ∅ (qg_relations g).

(** The last set that holds the column. *)
Definition find_set (sets : list EquivalenceSet) (c : StableColumn) : option nat :=
  foldl (λ r '(i, s), if equivalence_contains s c then Some i else r) None (imap pair sets).
Definition merge_columns_into_sets (sets : list EquivalenceSet) (col1 col2 : StableColumn)
    : list EquivalenceSet :=
  match find_set sets col1, find_set sets col2 with
  | Some i1, Some i2 =>
      if (i1 =? i2)%nat then sets
      else
        let smaller := Nat.min i1 i2 in
        let larger := Nat.max i1 i2 in
        match sets !! larger with
        | None => sets
        | Some merged =>
            alter (λ s, foldl eq_add_column s (hash_order (elements (eq_columns merged)))) smaller
              (delete larger sets)
        end
  | Some i, None => alter (λ s, eq_add_column s col2) i sets
  | None, Some i => alter (λ s, eq_add_column s col1) i sets
  | None, None => sets ++ [eq_add_column (eq_add_column equivalence_set_new col1) col2]
  end.

Definition estimate_tdom_for_set (g : QueryGraph) (counts : gmap StableColumn f64) (s : EquivalenceSet)
    : EquivalenceSet :=
  let '(max_known, min_base, known) :=
    foldl (λ '(max_known, min_base, known) c,
      let '(max_known, known) :=
        match counts !! c with Some d => (f64_max max_known d, true) | None => (max_known, known) end in
      let min_base :=
        match get_relation g (sc_relation_id c) with
        | Some r => f64_min min_base (rn_base_cardinality r)
        | None => min_base
        end in
      (max_known, min_base, known))
      (f64_of 0, f64_infinity, false) (hash_order (elements (eq_columns s))) in
  let tdom :=
    if known then f64_max max_known (f64_of 1)
    else if f64_is_finite min_base then f64_max min_base (f64_of 1)
    else f64_of 1 in
  let tdom := if f64_is_finite min_base then f64_max (f64_min tdom min_base) (f64_of 1) else tdom in
  set_t_dom_count s tdom.
Definition init_equivalence_sets (g : QueryGraph) (counts : gmap StableColumn f64)
    : list EquivalenceSet * gmap StableColumn nat :=
  let sets := foldl (λ sets e,
    foldl (λ sets '(l, r), merge_columns_into_sets sets l r) sets (je_equi_pairs e)) [] (qg_edges g) in
  let sets := estimate_tdom_for_set g counts <$> sets in
  let lookup := foldl (λ m '(idx, s),
    foldl (λ m c, <[c := idx]> m) m (hash_order (elements (eq_columns s)))) ∅ (imap pair sets) in
  (sets, lookup).
Definition estimator_new (g : QueryGraph) : CardinalityEstimator :=
  let counts := populate_initial_distinct_counts g in
  let '(sets, lookup) := init_equivalence_sets g counts in
  MkCardinalityEstimator g ∅ sets lookup counts.

Definition get_edges_contained_in_set (ce : CardinalityEstimator) (s : JoinSet) : list JoinEdge :=
  filter (λ e, js_is_subset (je_join_set e) s = true) (qg_edges (ce_graph ce)).
Definition get_tdom_for_edge (ce : CardinalityEstimator) (e : JoinEdge) : f64 :=
  match je_equi_pairs e with
  | [] => f64_of 1
  | pairs =>
      let used : gset nat := foldl (λ used '(l, r),
        let used := match ce_column_to_equiv_set ce !! l with Some i => {[i]} ∪ used | None => used end in
        match ce_column_to_equiv_set ce !! r with Some i => {[i]} ∪ used | None => used end) ∅ pairs in
      let min_base := f64_max (foldl f64_min f64_infinity
        (map (λ id, match get_relation (ce_graph ce) id with
                    | Some r => rn_base_cardinality r
                    | None => f64_of 1
                    end) (js_iter (je_join_set e)))) (f64_of 1) in
      if bool_decide (used = ∅) then min_base
      else
        let product := foldl (λ p i,
          f64_mul p (f64_max (match ce_equivalence_sets ce !! i with
                              | Some s => eq_t_dom_count s
                              | None => f64_of 1
                              end) (f64_of 1))) (f64_of 1) (hash_order (elements used)) in
        f64_max (f64_min product min_base) (f64_of 1)
  end.
Definition estimate_multi_relation_cardinality (ce : CardinalityEstimator) (s : JoinSet) : f64 :=
  let numerator := foldl f64_mul (f64_of 1)
    ((λ id, match get_relation (ce_graph ce) id with
            | Some r => rn_initial_cardinality r
            | None => f64_of 1
            end) <$> js_iter s) in
  let denominator := foldl (λ d e,
    let tdom := get_tdom_for_edge ce e in if f64_lt (f64_of 1) tdom then f64_mul d tdom else d)
    (f64_of 1) (get_edges_contained_in_set ce s) in
  f64_div numerator denominator.
Definition with_cache (ce : CardinalityEstimator) (m : gmap JoinSet f64) : CardinalityEstimator :=
  MkCardinalityEstimator (ce_graph ce) m (ce_equivalence_sets ce) (ce_column_to_equiv_set ce)
    (ce_initial_distinct_counts ce).
Definition estimate_cardinality (ce : CardinalityEstimator) (s : JoinSet)
    : JoinResult (f64 * CardinalityEstimator) :=
  match ce_cardinality_cache ce !! s with
  | Some card => Ok (card, ce)
  | None =>
      card ←
        (if (js_cardinality s =? 1)%nat then
           match js_iter s with
           | [] => Err (JeInternal "Single relation join_set should have one element")
           | id :: _ =>
               Ok (match get_relation (ce_graph ce) id with
                   | Some r => rn_initial_cardinality r
                   | None => f64_of 1
                   end)
           end
         else Ok (estimate_multi_relation_cardinality ce s) : JoinResult f64);
      Ok (card, with_cache ce (<[s := card]> (ce_cardinality_cache ce)))
  end.

Fixpoint count_conditions (e : PhysicalExpr) : nat :=
  match e with ExprAnd l r => count_conditions l + count_conditions r | ExprOther _ => 1 end.
Definition has_non_equi_filter (e : JoinEdge) : bool :=
  (length (je_equi_pairs e) <? count_conditions (je_filter e))%nat.
(** The factor of one edge. *)
Definition edge_selectivity (ce : CardinalityEstimator) (selectivity : f64) (e : JoinEdge) : f64 :=
  let equi := negb (bool_decide (length (je_equi_pairs e) = 0%nat)) in
  let selectivity :=
    if equi then
      let tdom := get_tdom_for_edge ce e in
      if f64_lt (f64_of 1) tdom then f64_mul selectivity (f64_div (f64_of 1) tdom)
      else f64_mul selectivity HEURISTIC_FILTER_SELECTIVITY
    else f64_mul selectivity HEURISTIC_THETA_JOIN_SELECTIVITY in
  if has_non_equi_filter e && equi then f64_mul selectivity (f64_ratio 8 10) else selectivity.
Definition estimate_join_cardinality (ce : CardinalityEstimator) (left_card right_card : f64)
    (connecting_edge_indices : list nat) : Run f64 :=
  selectivity ← for_each (λ s index,
    e ← vec_index (qg_edges (ce_graph ce)) index; Returns (edge_selectivity ce s e))
    (f64_of 1) connecting_edge_indices;
  Returns (f64_mul (f64_mul left_card right_card) selectivity).
End Estimator.

(** ** The enumerator ([enumerator.rs]) *)
Definition EMIT_THRESHOLD : N := 10000.
Definition RELATION_THRESHOLD : nat := 10.
Definition FACT_ANCHOR_MIN_RELATIONS : nat := 5.
Definition FACT_ANCHOR_RELATIVE_THRESHOLD : f64 := f64_ratio 25 100.
Definition FACT_ANCHOR_MIN_SHARE : f64 := f64_ratio 55 100.
Definition FACT_ANCHOR_PENALTY_MULTIPLIER : f64 := f64_of 8.

(** [1u64 << i]: the amount of the shift wraps. *)
Definition shl1 (i : nat) : N := N.shiftl 1 (N.of_nat i mod 64).

Section Enumerator.
Context `{JE : JoinEngine} `{HO : HashOrder}.

Record PlanEnumerator := MkPlanEnumerator {
  pe_query_graph : QueryGraph;
  pe_dp_table : gmap JoinSet DPPlan;
  pe_cardinality_estimator : CardinalityEstimator;
  pe_emit_count : N;
  pe_anchor_relations : JoinSet;
  pe_enable_fact_anchor_heuristic : bool
}.

Definition usable_base (r : RelationNode) : f64 :=
  if f64_is_finite (rn_base_cardinality r) && f64_lt (f64_of 0) (rn_base_cardinality r)
  then rn_base_cardinality r else f64_of 0.
(** [max_by]: the last of the greatest. *)
Definition max_by {A} (cmp : A → A → comparison) (l : list A) : option A :=
  match l with
  | [] => None
  | x :: l => Some (foldl (λ best y, match cmp best y with Gt => best | _ => y end) x l)
  end.
Definition derive_anchor_relations (g : QueryGraph) : JoinSet * bool :=
  if (relation_count g =? 0)%nat then (js_new, false)
  else
    let max_base := foldl f64_max (f64_of 0) (usable_base <$> qg_relations g) in
    if f64_le max_base (f64_of 0) then (js_new, false)
    else
      let threshold := f64_mul max_base FACT_ANCHOR_RELATIVE_THRESHOLD in
      let '(bits, anchor_total, total, count) :=
        foldl (λ '(bits, anchor_total, total, count) r,
          let base := usable_base r in
          let total := f64_add total base in
          if f64_le threshold base
          then (N.lor bits (shl1 (rn_relation_id r)), f64_add anchor_total base, total, S count)
          else (bits, anchor_total, total, count))
          (0%N, f64_of 0, f64_of 0, 0%nat) (qg_relations g) in
      let '(bits, anchor_total, count) :=
        if (bits =? 0)%N then
          match max_by (λ l r, f64_total_cmp (rn_base_cardinality l) (rn_base_cardinality r))
                  (qg_relations g) with
          | Some r => (N.lor bits (shl1 (rn_relation_id r)), f64_max (rn_base_cardinality r) (f64_of 0), 1%nat)
          | None => (bits, anchor_total, count)
          end
        else (bits, anchor_total, count) in
      let anchor_share := if f64_lt (f64_of 0) total then f64_div anchor_total total else f64_of 0 in
      let max_allowed := Nat.max (relation_count g / 2) 1 in
      (bits, (FACT_ANCHOR_MIN_RELATIONS <=? relation_count g)%nat && (0 <? count)%nat &&
             (count <=? max_allowed)%nat && f64_le FACT_ANCHOR_MIN_SHARE anchor_share).

Definition enumerator_new (g : QueryGraph) : PlanEnumerator :=
  let '(anchors, enabled) := derive_anchor_relations g in
  MkPlanEnumerator g ∅ (estimator_new g) 0 anchors enabled.

Definition relation_has_distinct_stat (pe : PlanEnumerator) (relation_id column_index : nat) : bool :=
  match get_relation (pe_query_graph pe) relation_id with
  | Some r =>
      match rn_column_statistics r !! column_index with
      | Some stats => match cs_distinct_count stats with PAbsent => false | _ => true end
      | None => false
      end
  | None => false
  end.
Definition edge_is_low_confidence (pe : PlanEnumerator) (edge_index : nat) : bool :=
  match qg_edges (pe_query_graph pe) !! edge_index with
  | None => false
  | Some e =>
      existsb (λ '(l, r),
        negb (relation_has_distinct_stat pe (sc_relation_id l) (sc_column_index l)) &&
        negb (relation_has_distinct_stat pe (sc_relation_id r) (sc_column_index r))) (je_equi_pairs e)
  end.
Definition should_apply_fact_anchor_penalty (pe : PlanEnumerator) (parent : JoinSet)
    (edge_indices : list nat) : bool :=
  pe_enable_fact_anchor_heuristic pe && js_is_disjoint parent (pe_anchor_relations pe) &&
  existsb (edge_is_low_confidence pe) edge_indices.

(** *** Runs of the enumerator: a result and the new state, an error, or a panic *)
Definition Enum (A : Type) : Type := PlanEnumerator → Run (JoinResult (A * PlanEnumerator)).
#[global] Instance Enum_ret : MRet Enum := λ A a pe, Returns (Ok (a, pe)).
#[global] Instance Enum_bind : MBind Enum := λ A B k m pe,
  match m pe with
  | Returns (Ok (a, pe)) => k a pe
  | Returns (Err e) => Returns (Err e)
  | Panics => Panics
  | OutOfFuel => OutOfFuel
  end.
Definition lift {A} (r : JoinResult A) : Enum A := λ pe,
  Returns (match r with Ok a => Ok (a, pe) | Err e => Err e end).
Definition run {A} (m : PlanEnumerator → Run A) : Enum A := λ pe,
  match m pe with Returns a => Returns (Ok (a, pe)) | Panics => Panics | OutOfFuel => OutOfFuel end.
Definition gets {A} (f : PlanEnumerator → A) : Enum A := λ pe, Returns (Ok (f pe, pe)).
Definition set_graph (g : QueryGraph) : Enum unit := λ pe,
  Returns (Ok (tt, MkPlanEnumerator g (pe_dp_table pe) (pe_cardinality_estimator pe)
    (pe_emit_count pe) (pe_anchor_relations pe) (pe_enable_fact_anchor_heuristic pe))).
Definition insert_plan (s : JoinSet) (p : DPPlan) : Enum unit := λ pe,
  Returns (Ok (tt, MkPlanEnumerator (pe_query_graph pe) (<[s := p]> (pe_dp_table pe))
    (pe_cardinality_estimator pe) (pe_emit_count pe) (pe_anchor_relations pe)
    (pe_enable_fact_anchor_heuristic pe))).
Definition set_estimator (ce : CardinalityEstimator) : Enum unit := λ pe,
  Returns (Ok (tt, MkPlanEnumerator (pe_query_graph pe) (pe_dp_table pe) ce (pe_emit_count pe)
    (pe_anchor_relations pe) (pe_enable_fact_anchor_heuristic pe))).
Definition count_emit : Enum N := λ pe,
  let n := (pe_emit_count pe + 1)%N in
  Returns (Ok (n, MkPlanEnumerator (pe_query_graph pe) (pe_dp_table pe) (pe_cardinality_estimator pe) n
    (pe_anchor_relations pe) (pe_enable_fact_anchor_heuristic pe))).
Definition out_of_fuel {A} : Enum A := λ _, OutOfFuel.

(** A loop that returns [false] as soon as its body does. *)
Fixpoint for_while {A} (f : A → Enum bool) (l : list A) : Enum bool :=
  match l with
  | [] => mret true
  | x :: l => b ← f x; if (b : bool) then for_while f l else mret false
  end.
Fixpoint for_unit {A} (f : A → Enum unit) (l : list A) : Enum unit :=
  match l with
  | [] => mret tt
  | x :: l => _ ← f x; for_unit f l
  end.

(** *** Leaves *)
Definition leaf_plan (relation_id : nat) (s : JoinSet) : Enum unit :=
  ce ← gets pe_cardinality_estimator;
  x ← lift (estimate_cardinality ce s);
  let '(cardinality, ce) := x in
  _ ← set_estimator ce;
  plan ← lift (new_leaf relation_id cardinality);
  insert_plan s plan.
Definition init_leaf_plans : Enum unit :=
  relations ← gets (λ pe, qg_relations (pe_query_graph pe));
  for_unit (λ r, s ← lift (js_new_singleton (rn_relation_id r)); leaf_plan (rn_relation_id r) s) relations.
Definition ensure_leaf_plans : Enum unit :=
  relations ← gets (λ pe, qg_relations (pe_query_graph pe));
  for_unit (λ r,
    s ← lift (js_new_singleton (rn_relation_id r));
    present ← gets (λ pe, bool_decide (is_Some (pe_dp_table pe !! s)));
    if (present : bool) then mret tt else leaf_plan (rn_relation_id r) s) relations.

(** *** Neighbours *)
Definition neighbors (nodes forbidden : JoinSet) : Enum (list nat) :=
  x ← gets (λ pe, get_neighbors (pe_query_graph pe) nodes);
  let '(all_neighbors, g) := x in
  _ ← set_graph g;
  mret (filter (λ rel, N.land forbidden (shl1 rel) = 0%N) all_neighbors).
Definition relation_initial_cardinality (g : QueryGraph) (relation_id : nat) : f64 :=
  match list_find (λ r, rn_relation_id r = relation_id) (qg_relations g) with
  | Some (_, r) => rn_initial_cardinality r
  | None => f64_infinity
  end.
Definition neighbor_le (score : nat → nat * f64) (l r : nat) : bool :=
  let '(le, lc) := score l in
  let '(re, rc) := score r in
  match Nat.compare re le with
  | Lt => true
  | Gt => false
  | Eq => match f64_total_cmp lc rc with Lt => true | Gt => false | Eq => (l <=? r)%nat end
  end.
Definition sort_neighbors_by_heuristic (g : QueryGraph) (anchor_set : JoinSet) (l : list nat)
    : JoinResult (list nat) :=
  scores ← collect_results ((λ nbr,
    s ← js_new_singleton nbr;
    Ok (nbr, (length (get_connecting_edge_indices g anchor_set s), relation_initial_cardinality g nbr)))
    <$> l);
  let scores : gmap nat (nat * f64) := list_to_map scores in
  Ok (sort_by (neighbor_le (λ n, default (0%nat, f64_infinity) (scores !! n))) l).
Definition prune_neighbors (g : QueryGraph) (anchor_set : JoinSet) (l : list nat) : JoinResult (list nat) :=
  if (relation_count g <? RELATION_THRESHOLD)%nat then Ok l
  else
    l ← sort_neighbors_by_heuristic g anchor_set l;
    Ok (take (js_cardinality anchor_set) l).

(** The non-empty subsets of a list, by the masks from 1 on. *)
Definition last_mask (n : nat) : N := ((if (n <? 64)%nat then bit n else 0) + u64_max) mod (u64_max + 1).
Definition generate_all_nonempty_subsets (elems : list nat) : list (list nat) :=
  match elems with
  | [] => []
  | _ =>
      (λ k, let mask := N.of_nat (S k) in
         snd <$> filter (λ x, N.land mask (bit x.1) ≠ 0%N) (imap pair elems))
      <$> seq 0 (N.to_nat (last_mask (length elems)))
  end.

(** *** Emitting a pair *)
Definition emit_csg_cmp (l r : JoinSet) (edge_indices : list nat) : Enum f64 :=
  let parent := l ∪ⱼ r in
  left_plan ← gets (λ pe, pe_dp_table pe !! l);
  right_plan ← gets (λ pe, pe_dp_table pe !! r);
  match left_plan, right_plan with
  | Some left_plan, Some right_plan =>
      new_cardinality ← run (λ pe, estimate_join_cardinality (pe_cardinality_estimator pe)
        (dp_cardinality left_plan) (dp_cardinality right_plan) edge_indices);
      penalty ← gets (λ pe, should_apply_fact_anchor_penalty pe parent edge_indices);
      let new_cost := compute_cost left_plan right_plan new_cardinality in
      let new_cost :=
        if (penalty : bool) then f64_add new_cost (f64_mul new_cardinality FACT_ANCHOR_PENALTY_MULTIPLIER)
        else new_cost in
      let new_plan := new_join l r edge_indices new_cost new_cardinality in
      existing ← gets (λ pe, pe_dp_table pe !! parent);
      let should_update :=
        match existing with Some e => f64_lt (dp_cost new_plan) (dp_cost e) | None => true end in
      _ ← (if should_update then insert_plan parent new_plan else mret tt);
      mret new_cost
  | _, _ => mret f64_infinity
  end.
Definition try_emit_csg_cmp (l r : JoinSet) (edge_indices : list nat) : Enum bool :=
  n ← count_emit;
  if (EMIT_THRESHOLD <=? n)%N then mret false
  else _ ← emit_csg_cmp l r edge_indices; mret true.

(** *** Enumeration

    The sets that are extended grow at every call, so that 65 calls are enough. *)
Definition union_subset (nodes : JoinSet) (subset : list nat) : JoinResult JoinSet :=
  s ← js_from_iter subset; Ok (nodes ∪ⱼ s).
Definition connecting (l r : JoinSet) : Enum (list nat) :=
  gets (λ pe, get_connecting_edge_indices (pe_query_graph pe) l r).
Definition emit_if_connected (l r : JoinSet) : Enum bool :=
  edge_indices ← connecting l r;
  match edge_indices with [] => mret true | _ => try_emit_csg_cmp l r edge_indices end.
Definition has_plan (s : JoinSet) : Enum bool :=
  gets (λ pe, bool_decide (is_Some (pe_dp_table pe !! s))).

Fixpoint enumerate_cmp_rec (fuel : nat) (l r forbidden : JoinSet) : Enum bool :=
  match fuel with
  | O => out_of_fuel
  | S fuel =>
      ids ← neighbors r forbidden;
      match ids with
      | [] => mret true
      | _ =>
          g ← gets pe_query_graph;
          ids ← lift (prune_neighbors g r ids);
          ok ← for_while (λ subset,
            combined ← lift (union_subset r subset);
            present ← has_plan combined;
            if (js_cardinality r <? js_cardinality combined)%nat && (present : bool)
            then emit_if_connected l combined
            else mret true) (generate_all_nonempty_subsets ids);
          if (ok : bool) then
            union_sets ← lift (collect_results (union_subset r <$> generate_all_nonempty_subsets ids));
            neighbors_set ← lift (js_from_iter ids);
            for_while (λ s, enumerate_cmp_rec fuel l s (forbidden ∪ⱼ neighbors_set)) union_sets
          else mret false
      end
  end.

(** One neighbour of [nodes] in [emit_csg]; the later ones are no longer forbidden. *)
Fixpoint emit_neighbors (fuel : nat) (nodes enriched : JoinSet) (l : list nat) : Enum bool :=
  match l with
  | [] => mret true
  | nbr :: l =>
      nbr_set ← lift (js_new_singleton nbr);
      ok ← emit_if_connected nodes nbr_set;
      if (ok : bool) then
        ok ← enumerate_cmp_rec fuel nodes nbr_set enriched;
        if (ok : bool) then emit_neighbors fuel nodes (enriched ∖ⱼ nbr_set) l else mret false
      else mret false
  end.
Definition min_relation (nodes : JoinSet) : nat := default 0%nat (head (js_iter nodes)).
Definition emit_csg (fuel : nat) (nodes : JoinSet) : Enum bool :=
  n ← gets (λ pe, relation_count (pe_query_graph pe));
  if (js_cardinality nodes =? n)%nat then mret true
  else
    below ← lift (js_from_iter (seq 0 (min_relation nodes)));
    let forbidden := nodes ∪ⱼ below in
    l ← neighbors nodes forbidden;
    match l with
    | [] => mret true
    | _ =>
        neighbors_set ← lift (js_from_iter l);
        emit_neighbors fuel nodes (forbidden ∪ⱼ neighbors_set) (rev l)
    end.

Fixpoint enumerate_csg_rec (fuel : nat) (nodes forbidden : JoinSet) : Enum bool :=
  match fuel with
  | O => out_of_fuel
  | S fuel =>
      l ← neighbors nodes forbidden;
      match l with
      | [] => mret true
      | _ =>
          g ← gets pe_query_graph;
          l ← lift (prune_neighbors g nodes l);
          ok ← for_while (λ subset,
            new_set ← lift (union_subset nodes subset);
            present ← has_plan new_set;
            if (present : bool) && (js_cardinality nodes <? js_cardinality new_set)%nat
            then emit_csg 65 new_set
            else mret true) (generate_all_nonempty_subsets l);
          if (ok : bool) then
            union_sets ← lift (collect_results (union_subset nodes <$> generate_all_nonempty_subsets l));
            neighbors_set ← lift (js_from_iter l);
            for_while (λ s, enumerate_csg_rec fuel s (forbidden ∪ⱼ neighbors_set)) union_sets
          else mret false
      end
  end.

Definition process_node_as_start (idx : nat) : Enum bool :=
  nodes ← lift (js_new_singleton idx);
  ok ← emit_csg 65 nodes;
  if (ok : bool) then
    below ← lift (js_from_iter (seq 0 idx));
    enumerate_csg_rec 65 nodes (below ∪ⱼ nodes)
  else mret false.
Definition join_reorder_by_dphyp : Enum bool :=
  n ← gets (λ pe, relation_count (pe_query_graph pe));
  for_while process_node_as_start (rev (seq 0 n)).

(** *** The greedy plan *)
Definition create_all_relations_set (g : QueryGraph) : JoinSet :=
  ((shl1 (relation_count g) + u64_max) mod (u64_max + 1))%N.

Record Best := MkBest {
  bs_next_rel : option nat; bs_edges : list nat; bs_cardinality : f64; bs_cost : f64 }.
Definition best_start : Best := MkBest None [] f64_infinity f64_infinity.
Definition better (b : Best) (rel : nat) (edges : list nat) (cardinality cost : f64) : Best :=
  if f64_lt cardinality (bs_cardinality b) ||
     (f64_eq cardinality (bs_cardinality b) && f64_lt cost (bs_cost b))
  then MkBest (Some rel) edges cardinality cost else b.
Definition leaf_missing (rel : nat) : JoinError :=
  JeInternal ("Leaf plan for relation " +:+ pretty (N.of_nat rel) +:+ " not found in DP table").
Definition leaf_of (rel : nat) : Enum (JoinSet * DPPlan) :=
  next_set ← lift (js_new_singleton rel);
  p ← gets (λ pe, pe_dp_table pe !! next_set);
  match p with Some p => mret (next_set, p) | None => lift (Err (leaf_missing rel)) end.
Definition connected_candidate (current_set : JoinSet) (current_plan : DPPlan) (b : Best) (rel : nat)
    : Enum Best :=
  x ← leaf_of rel;
  let '(next_set, next_plan) := x in
  edges ← connecting current_set next_set;
  match edges with
  | [] => mret b
  | _ =>
      cardinality ← run (λ pe, estimate_join_cardinality (pe_cardinality_estimator pe)
        (dp_cardinality current_plan) (dp_cardinality next_plan) edges);
      mret (better b rel edges cardinality (compute_cost current_plan next_plan cardinality))
  end.
Definition cross_candidate (current_plan : DPPlan) (b : Best) (rel : nat) : Enum Best :=
  x ← leaf_of rel;
  let '(_, next_plan) := x in
  let cardinality := f64_mul (dp_cardinality current_plan) (dp_cardinality next_plan) in
  let cost := f64_add (compute_cost current_plan next_plan cardinality) (f64_of 1000000) in
  mret (better b rel [] cardinality cost).
Fixpoint fold_enum {A B} (f : B → A → Enum B) (b : B) (l : list A) : Enum B :=
  match l with [] => mret b | x :: l => b ← f b x; fold_enum f b l end.

(** The loop takes a relation from [remaining] at every iteration. *)
Fixpoint greedy_loop (fuel : nat) (current_set : JoinSet) (current_plan : DPPlan) (remaining : JoinSet)
    : Enum DPPlan :=
  if (remaining =? 0)%N then mret current_plan
  else
    match fuel with
    | O => out_of_fuel
    | S fuel =>
        b ← fold_enum (connected_candidate current_set current_plan) best_start (js_iter remaining);
        b ← (match bs_next_rel b with
             | Some _ => mret b
             | None => fold_enum (cross_candidate current_plan) b (js_iter remaining)
             end : Enum Best);
        match bs_next_rel b with
        | None => lift (Err (JeInternal "Failed to select next relation in greedy algorithm"))
        | Some next_rel =>
            next_set ← lift (js_new_singleton next_rel);
            let next_join_set := current_set ∪ⱼ next_set in
            let new_plan := new_join current_set next_set (bs_edges b) (bs_cost b) (bs_cardinality b) in
            _ ← insert_plan next_join_set new_plan;
            greedy_loop fuel next_join_set new_plan (remaining ∖ⱼ next_set)
        end
    end.

Definition empty_graph : JoinError := JeInternal "Cannot solve empty query graph".
Definition greedy_start (g : QueryGraph) : JoinResult nat :=
  match max_by (λ l r, f64_total_cmp (rn_initial_cardinality l) (rn_initial_cardinality r)) (qg_relations g) with
  | Some r => Ok (rn_relation_id r)
  | None => Err (JeInternal "Failed to determine greedy start relation")
  end.
Definition solve_greedy : Enum DPPlan :=
  g ← gets pe_query_graph;
  if (relation_count g =? 0)%nat then lift (Err empty_graph)
  else
    _ ← ensure_leaf_plans;
    let all_relations_set := create_all_relations_set g in
    full ← gets (λ pe, pe_dp_table pe !! all_relations_set);
    match full with
    | Some plan => mret plan
    | None =>
        if (relation_count g =? 1)%nat then
          relation_id ← lift (match head (qg_relations g) with
            | Some r => Ok (rn_relation_id r)
            | None => Err (JeInternal "Expected one relation but query graph is empty")
            end);
          s ← lift (js_new_singleton relation_id);
          p ← gets (λ pe, pe_dp_table pe !! s);
          match p with
          | Some p => mret p
          | None => lift (Err (JeInternal "Single relation not found"))
          end
        else
          start_relation ← lift (greedy_start g);
          current_set ← lift (js_new_singleton start_relation);
          p ← gets (λ pe, pe_dp_table pe !! current_set);
          match p with
          | None => lift (Err (JeInternal "Start relation plan not found in DP table"))
          | Some p => greedy_loop 64 current_set p (all_relations_set ∖ⱼ current_set)
          end
    end.

Definition solve : Enum (option DPPlan) :=
  n ← gets (λ pe, relation_count (pe_query_graph pe));
  if (n =? 0)%nat then lift (Err empty_graph)
  else
    _ ← init_leaf_plans;
    completed ← join_reorder_by_dphyp;
    full ← gets (λ pe, pe_dp_table pe !! create_all_relations_set (pe_query_graph pe));
    match full with
    | Some result => mret (Some result)
    | None =>
        if (completed : bool) then p ← solve_greedy; mret (Some p)
        else mret None
    end.

(** The use of both in [try_optimize_region]. *)
Definition best_plan : Enum DPPlan :=
  p ← solve;
  match p with Some p => mret p | None => solve_greedy end.
End Enumerator.
