(* ===== verification/JoinPlans.v ===== *)
(** * Join reordering: the plans of the table

    What the enumerator of [enumerator.rs] leaves in its table: every plan joins the
    plans of two disjoint sets, on the conditions between them, and the enumeration of a
    connected graph reaches the set of all relations.  *)

From Stdlib Require Import String SpecFloat Sorted.
From S2P Require Import Prelude Collections JoinGraph JoinSets JoinEnumerator.

Section Logic.
Context `{JE : JoinEngine} `{HO : HashOrder}.

(** ** Runs of the enumerator: no panic, no lack of fuel, errors in [E] *)
Definition espec {A} (E : JoinError → Prop) (m : Enum A) (pe : PlanEnumerator)
    (Q : A → PlanEnumerator → Prop) : Prop :=
  match m pe with
  | Returns (Ok (a, pe')) => Q a pe'
  | Returns (Err e) => E e
  | _ => False
  end.

Lemma espec_bind {A B} E (m : Enum A) (k : A → Enum B) pe Q :
  espec E m pe (λ a pe', espec E (k a) pe' Q) → espec E (m ≫= k) pe Q.
Proof.
  unfold espec, mbind, Enum_bind. destruct (m pe) as [[[a pe']|e]| |]; naive_solver.
Qed.
Lemma espec_mono {A} (E E' : JoinError → Prop) (m : Enum A) pe (Q Q' : A → PlanEnumerator → Prop) :
  espec E m pe Q → (∀ e, E e → E' e) → (∀ a pe', Q a pe' → Q' a pe') → espec E' m pe Q'.
Proof. unfold espec. destruct (m pe) as [[[a pe']|e]| |]; naive_solver. Qed.
Lemma espec_ret {A} E (a : A) pe (Q : A → PlanEnumerator → Prop) : Q a pe → espec E (mret a) pe Q.
Proof. done. Qed.
Lemma espec_gets {A} E (f : PlanEnumerator → A) pe (Q : A → PlanEnumerator → Prop) :
  Q (f pe) pe → espec E (gets f) pe Q.
Proof. done. Qed.
Lemma espec_lift {A} E (r : JoinResult A) a pe (Q : A → PlanEnumerator → Prop) :
  r = Ok a → Q a pe → espec E (lift r) pe Q.
Proof. by intros ->. Qed.
Lemma espec_run {A} E (m : PlanEnumerator → Run A) pe (Q : A → PlanEnumerator → Prop) :
  (∃ a, m pe = Returns a ∧ Q a pe) → espec E (run m) pe Q.
Proof. intros (a & Hm & Ha). unfold espec, run. by rewrite Hm. Qed.
End Logic.

(** ** Graphs the enumerator is run on *)
Section Ok.
Context `{JE : JoinEngine} `{HO : HashOrder}.

Record graph_ok (g : QueryGraph) : Prop := {
  go_wf : graph_wf g;
  go_count : (relation_count g <= 63)%nat;
  go_ids : ∀ i r, qg_relations g !! i = Some r → rn_relation_id r = i;
  go_edges : ∀ j e x, qg_edges g !! j = Some e → x ∈ⱼ je_join_set e → (x < relation_count g)%nat
}.

Variable g : QueryGraph.
Variable Hg : graph_ok g.
Notation n := (relation_count g).

(** Sets of relations of the graph. *)
Definition within (s : JoinSet) : Prop := ∀ i, i ∈ⱼ s → (i < n)%nat.
Lemma within_wf s : within s → js_wf s.
Proof. intros H. apply js_wf_spec. intros i Hi. pose proof (go_count g Hg). specialize (H i Hi). lia. Qed.
Lemma within_union s t : within s → within t → within (s ∪ⱼ t).
Proof. intros Hs Ht i [Hi|Hi]%js_mem_union; auto. Qed.
Lemma within_bit i : (i < n)%nat → within (bit i).
Proof. by intros Hi j ->%js_mem_bit. Qed.

(** *** Plans of the table; [K] says which conditions a join may use *)
Definition conditions : Type := JoinSet → JoinSet → list nat → Prop.
Definition plan_ok (K : conditions) (T : gmap JoinSet DPPlan) (s : JoinSet) (p : DPPlan) : Prop :=
  dp_join_set p = s ∧
  match dp_plan_type p with
  | PlanLeaf r => (r < n)%nat ∧ s = bit r
  | PlanJoin l r es =>
      within l ∧ within r ∧ l ≠ 0%N ∧ r ≠ 0%N ∧ js_is_disjoint l r = true ∧ s = l ∪ⱼ r ∧
      is_Some (T !! l) ∧ is_Some (T !! r) ∧ K l r es
  end.
Definition table_ok (K : conditions) (T : gmap JoinSet DPPlan) : Prop :=
  ∀ s p, T !! s = Some p → plan_ok K T s p.

Lemma plan_ok_mono K K' T T' s p :
  plan_ok K T s p → (∀ l r es, K l r es → K' l r es) → (∀ s, is_Some (T !! s) → is_Some (T' !! s)) →
  plan_ok K' T' s p.
Proof.
  unfold plan_ok. destruct (dp_plan_type p); [naive_solver|].
  intros (? & ? & ? & ? & ? & ? & ? & ? & ? & ?) HK HT. split_and!; auto.
Qed.
Lemma table_ok_insert K T s p :
  table_ok K T → plan_ok K (<[s := p]> T) s p → table_ok K (<[s := p]> T).
Proof.
  intros HT Hp s' p' [[<- <-]|[Hne Hs]]%lookup_insert_Some; [done|].
  apply (plan_ok_mono K K T); [by apply HT|done|].
  intros s'' Hs''. destruct (decide (s = s'')) as [->|]; [rewrite lookup_insert_eq; eauto|].
  by rewrite lookup_insert_ne.
Qed.
Lemma plan_ok_within K T s p : plan_ok K T s p → within s ∧ s ≠ 0%N.
Proof.
  unfold plan_ok. destruct (dp_plan_type p) as [r|l r es].
  - intros (_ & Hr & ->). split; [by apply within_bit|]. apply js_nonempty. exists r. by apply js_mem_bit.
  - intros (_ & Hl & Hr & Hnl & _ & _ & -> & _). split; [by apply within_union|].
    apply js_nonempty in Hnl as [i Hi]. apply js_nonempty. exists i. apply js_mem_union. by left.
Qed.

(** *** The state of the enumerator *)
Record einv (K : conditions) (pe : PlanEnumerator) : Prop := {
  ei_relations : qg_relations (pe_query_graph pe) = qg_relations g;
  ei_edges : qg_edges (pe_query_graph pe) = qg_edges g;
  ei_root : qg_root_edge (pe_query_graph pe) = qg_root_edge g;
  ei_wf : graph_wf (pe_query_graph pe);
  ei_estimator : qg_edges (ce_graph (pe_cardinality_estimator pe)) = qg_edges g;
  ei_table : table_ok K (pe_dp_table pe)
}.
Definition grows (pe pe' : PlanEnumerator) : Prop :=
  (∀ s, is_Some (pe_dp_table pe !! s) → is_Some (pe_dp_table pe' !! s)) ∧
  (pe_emit_count pe <= pe_emit_count pe')%N.
#[local] Instance grows_preorder : PreOrder grows.
Proof. split; [by split|]. intros x y z [H1 H2] [H3 H4]. split; [auto|lia]. Qed.

(** A loop that was left reached the threshold; one that was not has done its work. *)
Definition eran (K : conditions) (pe : PlanEnumerator) (C : PlanEnumerator → Prop) (b : bool)
    (pe' : PlanEnumerator) : Prop :=
  einv K pe' ∧ grows pe pe' ∧ (b = false → (EMIT_THRESHOLD <= pe_emit_count pe')%N) ∧ (b = true → C pe').

Lemma eran_true K pe (C : PlanEnumerator → Prop) : einv K pe → C pe → eran K pe C true pe.
Proof. intros H HC. split_and!; [done|reflexivity|done|done]. Qed.
Lemma espec_seq K E (m k : Enum bool) pe (C C' : PlanEnumerator → Prop) :
  espec E m pe (eran K pe C) →
  (∀ pe', einv K pe' → grows pe pe' → C pe' → espec E k pe' (eran K pe' C')) →
  espec E (ok ← m; if (ok : bool) then k else mret false) pe (eran K pe C').
Proof.
  intros Hm Hk. apply espec_bind. eapply espec_mono; [apply Hm|done|].
  intros [] pe' (Hi & Hgr & Hf & Ht).
  - eapply espec_mono; [apply Hk; auto|done|]. intros b pe2 (? & ? & ? & ?).
    split_and!; [done|by etrans|done|done].
  - apply espec_ret. split_and!; [done|done|done|done].
Qed.
Lemma espec_after K E (m : Enum bool) pe pe1 C :
  grows pe pe1 → espec E m pe1 (eran K pe1 C) → espec E m pe1 (eran K pe C).
Proof.
  intros Hgr Hm. eapply espec_mono; [exact Hm|done|]. intros b pe2 (? & ? & ? & ?).
  split_and!; [done|by etrans|done|done].
Qed.
Lemma espec_for_while {A} K E (f : A → Enum bool) l pe (D : nat → PlanEnumerator → Prop) :
  einv K pe → D 0%nat pe →
  (∀ k x pe1, l !! k = Some x → einv K pe1 → grows pe pe1 → D k pe1 →
     espec E (f x) pe1 (eran K pe1 (D (S k)))) →
  espec E (for_while f l) pe (eran K pe (D (length l))).
Proof.
  revert pe D. induction l as [|x l IH]; intros pe D Hi HD Hstep; [by apply espec_ret, eran_true|].
  cbn [for_while]. eapply (espec_seq K); [apply (Hstep 0%nat); [done..|reflexivity|done]|].
  intros pe' Hi' Hgr HD'. apply (IH pe' (λ k, D (S k))); [done..|].
  intros k y pe1 Hk Hi1 Hgr1 HD1. apply (Hstep (S k)); [done..|by etrans|done].
Qed.

(** *** Neighbours *)
Lemma einv_connecting K pe l r :
  einv K pe → get_connecting_edge_indices (pe_query_graph pe) l r = get_connecting_edge_indices g l r.
Proof.
  intros [Hr He Ht _ _ _]. destruct (pe_query_graph pe), g. cbn in *. by subst.
Qed.
Lemma einv_count K pe : einv K pe → relation_count (pe_query_graph pe) = n.
Proof. intros H. unfold relation_count. by rewrite (ei_relations _ _ H). Qed.
Lemma adjacent_within p r : adjacent g p r → (p < n)%nat ∧ (r < n)%nat.
Proof. intros (_ & j & e & He & Hp & Hr). split; by eapply (go_edges g Hg). Qed.

Lemma shl1_bit i : (i < 64)%nat → shl1 i = bit i.
Proof. intros H. unfold shl1, bit. by rewrite N.mod_small by lia. Qed.
Lemma land_bit s i : N.land s (bit i) = 0%N ↔ i ∉ⱼ s.
Proof. rewrite js_empty. setoid_rewrite js_mem_land. setoid_rewrite js_mem_bit. naive_solver. Qed.

Lemma compute_neighbors_nodup g' s : NoDup (compute_neighbors g' s).
Proof.
  unfold compute_neighbors. rewrite sort_by_perm, hash_order_perm. apply NoDup_elements.
Qed.
Definition neighbors_of (nodes forbidden : JoinSet) (l : list nat) : Prop :=
  NoDup l ∧ ∀ r, r ∈ l ↔ (∃ p, p ∈ⱼ nodes ∧ adjacent g p r) ∧ r ∉ⱼ forbidden.
Lemma neighbors_of_lt nodes forbidden l r : neighbors_of nodes forbidden l → r ∈ l → (r < n)%nat.
Proof. intros [_ H] [(p & _ & Hadj) _]%H. by apply adjacent_within in Hadj as []. Qed.

Definition same_plans (pe pe' : PlanEnumerator) : Prop :=
  pe_dp_table pe' = pe_dp_table pe ∧ pe_emit_count pe' = pe_emit_count pe.
Lemma same_plans_grows pe pe' : same_plans pe pe' → grows pe pe'.
Proof. intros [HT He]. split; [by rewrite HT|by rewrite He]. Qed.

Lemma espec_neighbors K E nodes forbidden pe :
  einv K pe → within nodes →
  espec E (neighbors nodes forbidden) pe (λ l pe',
    einv K pe' ∧ same_plans pe pe' ∧ neighbors_of nodes forbidden l).
Proof.
  intros Hi Hn. unfold neighbors. apply espec_bind, espec_gets.
  pose proof (get_neighbors_fst (pe_query_graph pe) nodes (ei_wf _ _ Hi)) as Hfst.
  pose proof (get_neighbors_wf (pe_query_graph pe) nodes (ei_wf _ _ Hi)) as Hsnd.
  assert (∀ g', (get_neighbors (pe_query_graph pe) nodes).2 = g' →
    qg_relations g' = qg_relations g ∧ qg_edges g' = qg_edges g ∧ qg_root_edge g' = qg_root_edge g) as Hcore.
  { intros g' <-. destruct Hi. unfold get_neighbors. destruct (_ !! nodes); done. }
  destruct (get_neighbors (pe_query_graph pe) nodes) as [l g']. cbn in Hfst, Hsnd. subst l.
  destruct (Hcore g' eq_refl) as (Hr & He & Ht).
  apply espec_bind. cbn. split_and!.
  - destruct Hi. by split.
  - done.
  - split; [apply NoDup_filter, compute_neighbors_nodup|]. intros r. rewrite list_elem_of_filter.
    rewrite elem_of_compute_neighbors by (eauto using within_wf, ei_wf).
    assert (∀ p, adjacent (pe_query_graph pe) p r ↔ adjacent g p r) as Hadj.
    { intros p. unfold adjacent. by rewrite (ei_edges _ _ Hi). }
    setoid_rewrite Hadj. split; intros [H1 H2].
    + split; [done|]. destruct H2 as (p & _ & H2). apply adjacent_within in H2 as [_ H2].
      pose proof (go_count g Hg). apply land_bit. by rewrite <-shl1_bit by lia.
    + split; [|done]. destruct H1 as (p & _ & H1). apply adjacent_within in H1 as [_ H1].
      pose proof (go_count g Hg). rewrite shl1_bit by lia. by apply land_bit.
Qed.

Lemma sort_by_heuristic_ok g' anchor l :
  (∀ i, i ∈ l → (i < 64)%nat) →
  ∃ l', sort_neighbors_by_heuristic g' anchor l = Ok l' ∧ l' ≡ₚ l.
Proof.
  intros Hl. unfold sort_neighbors_by_heuristic.
  rewrite (collect_results_fmap _ (λ nbr, (nbr, (length (get_connecting_edge_indices g' anchor (bit nbr)),
    relation_initial_cardinality g' nbr)))).
  - eexists. split; [done|]. apply sort_by_perm.
  - intros x Hx. by rewrite js_new_singleton_ok by auto.
Qed.
Lemma prune_neighbors_ok g' anchor l :
  (∀ i, i ∈ l → (i < 64)%nat) → NoDup l → l ≠ [] → anchor ≠ 0%N → js_wf anchor →
  ∃ l', prune_neighbors g' anchor l = Ok l' ∧ NoDup l' ∧ l' ≠ [] ∧ (∀ i, i ∈ l' → i ∈ l) ∧
    ((relation_count g' < 10)%nat → l' = l).
Proof.
  intros H64 Hnd Hne Ha Hwf. unfold prune_neighbors.
  destruct (Nat.ltb_spec (relation_count g') RELATION_THRESHOLD) as [Hlt|Hge].
  { exists l. split_and!; auto. }
  destruct (sort_by_heuristic_ok g' anchor l H64) as (l' & Hok & Hp). rewrite Hok.
  eexists. split; [done|]. split_and!.
  - apply (sublist_NoDup _ l'); [|apply sublist_take]. by rewrite Hp.
  - assert (js_cardinality anchor ≠ 0%nat) as Hc by (by rewrite js_cardinality_zero).
    destruct (js_cardinality anchor); [done|]. destruct l'; [|done].
    by apply Permutation_nil_l in Hp.
  - intros i (k & Hk & _)%elem_of_take. rewrite <-Hp. by eapply list_elem_of_lookup_2.
  - unfold RELATION_THRESHOLD in Hge. lia.
Qed.

(** *** Subsets by masks *)
Definition mask_subset (elems : list nat) (mask : N) : list nat :=
  snd <$> filter (λ x, N.land mask (bit x.1) ≠ 0%N) (imap pair elems).
Lemma elem_of_mask_subset elems mask x :
  x ∈ mask_subset elems mask ↔ ∃ i, elems !! i = Some x ∧ i ∈ⱼ mask.
Proof.
  unfold mask_subset. rewrite list_elem_of_fmap. split.
  - intros ([i y] & -> & [Hm Hi]%list_elem_of_filter). cbn in *.
    apply elem_of_lookup_imap in Hi as (j & z & [= -> ->] & Hj). exists j. split; [done|].
    rewrite land_bit in Hm. by apply dec_stable.
  - intros (i & Hi & Hm). exists (i, x). split; [done|]. apply list_elem_of_filter. split.
    + rewrite land_bit. naive_solver.
    + apply elem_of_lookup_imap. eauto.
Qed.
Lemma js_lt_pow2 m k : (∀ i, i ∈ⱼ m → (i < k)%nat) → (m < 2 ^ N.of_nat k)%N.
Proof.
  intros H. destruct (decide (m = 0%N)) as [->|Hm]; [apply N.neq_0_lt_0, N.pow_nonzero; lia|].
  apply N.log2_lt_pow2; [lia|]. specialize (H (N.to_nat (N.log2 m))). unfold js_mem in H.
  rewrite N2Nat.id in H. specialize (H (N.bit_log2 m Hm)). lia.
Qed.
Lemma js_mem_lt_pow2 m k i : (m < 2 ^ N.of_nat k)%N → i ∈ⱼ m → (i < k)%nat.
Proof.
  intros Hm Hi. apply Nat.nle_gt. intros Hge. unfold js_mem in Hi.
  destruct (decide (m = 0%N)) as [->|Hm0]; [by rewrite N.bits_0 in Hi|].
  rewrite N.bits_above_log2 in Hi; [done|]. apply N.log2_lt_pow2 in Hm; lia.
Qed.

Lemma last_mask_spec k : (k < 64)%nat → last_mask k = (2 ^ N.of_nat k - 1)%N.
Proof.
  intros Hk. unfold last_mask. rewrite (proj2 (Nat.ltb_lt k 64) Hk). unfold bit. rewrite N.shiftl_1_l.
  assert (2 ^ N.of_nat k <= 2 ^ 63)%N by (apply N.pow_le_mono_r; lia).
  assert (2 ^ N.of_nat k ≠ 0)%N by (apply N.pow_nonzero; lia).
  replace (2 ^ N.of_nat k + u64_max)%N with (2 ^ N.of_nat k - 1 + 1 * (u64_max + 1))%N
    by (unfold u64_max; lia).
  rewrite N.Div0.mod_add. apply N.mod_small. unfold u64_max. lia.
Qed.
Lemma subsets_lookup elems k sub :
  generate_all_nonempty_subsets elems !! k = Some sub → sub = mask_subset elems (N.of_nat (S k)).
Proof.
  unfold generate_all_nonempty_subsets. destruct elems as [|x elems]; [done|].
  intros (k' & -> & [-> _]%lookup_seq)%list_lookup_fmap_Some. done.
Qed.
Lemma subsets_length elems :
  (length elems < 64)%nat →
  length (generate_all_nonempty_subsets elems) = N.to_nat (2 ^ N.of_nat (length elems) - 1).
Proof.
  intros Hl. unfold generate_all_nonempty_subsets. destruct elems as [|x elems]; [done|].
  by rewrite length_fmap, length_seq, last_mask_spec.
Qed.
Lemma subsets_elem elems k sub x :
  generate_all_nonempty_subsets elems !! k = Some sub → x ∈ sub → x ∈ elems.
Proof.
  intros ->%subsets_lookup (i & Hi & _)%elem_of_mask_subset. by eapply list_elem_of_lookup_2.
Qed.

(** Any choice of elements is made by one of the masks. *)
Lemma mask_of elems (s : JoinSet) :
  (length elems < 64)%nat → (∃ x, x ∈ elems ∧ x ∈ⱼ s) →
  ∃ k sub, generate_all_nonempty_subsets elems !! k = Some sub ∧ ∀ x, x ∈ sub ↔ x ∈ elems ∧ x ∈ⱼ s.
Proof.
  intros Hl (x0 & Hx0 & Hs0).
  set (chosen i := match elems !! i with Some x => bool_decide (x ∈ⱼ s) | None => false end).
  destruct (js_from_iter_ok (filter (λ i, chosen i = true) (seq 0 (length elems)))) as (m & _ & Hwf & Hm).
  { intros i [_ Hi%elem_of_seq]%list_elem_of_filter. lia. }
  setoid_rewrite list_elem_of_filter in Hm. setoid_rewrite elem_of_seq in Hm.
  assert (m < 2 ^ N.of_nat (length elems))%N as Hlt by (apply js_lt_pow2; naive_solver lia).
  assert (∀ x, x ∈ mask_subset elems m ↔ x ∈ elems ∧ x ∈ⱼ s) as Hsub.
  { intros x. rewrite elem_of_mask_subset. split.
    - intros (i & Hi & [Hc _]%Hm). unfold chosen in Hc. rewrite Hi in Hc. apply bool_decide_eq_true in Hc.
      split; [by eapply list_elem_of_lookup_2|done].
    - intros [[i Hi]%list_elem_of_lookup Hx]. exists i. split; [done|]. apply Hm. unfold chosen.
      rewrite Hi. split; [by apply bool_decide_eq_true|]. apply lookup_lt_Some in Hi. lia. }
  assert (m ≠ 0%N) as Hm0.
  { apply js_nonempty. assert (x0 ∈ mask_subset elems m) as H by (by apply Hsub).
    apply elem_of_mask_subset in H as (i & _ & Hi). by exists i. }
  destruct (lookup_lt_is_Some_2 (generate_all_nonempty_subsets elems) (N.to_nat (m - 1))) as [sub Hk].
  { rewrite subsets_length by done. lia. }
  exists (N.to_nat (m - 1)), sub. split; [done|]. apply subsets_lookup in Hk as ->.
  by replace (N.of_nat (S (N.to_nat (m - 1)))) with m by lia.
Qed.
(** A mask without one of its bits comes earlier. *)
Lemma mask_remove k i :
  i ∈ⱼ N.of_nat (S k) →
  (N.of_nat (S k) = bit i ∨ ∃ k', (k' < k)%nat ∧ N.of_nat (S k') = N.of_nat (S k) ∖ⱼ bit i).
Proof.
  intros Hm. set (m := N.of_nat (S k)) in *.
  assert (m = m ∖ⱼ bit i + bit i)%N as Hadd.
  { assert (N.land (m ∖ⱼ bit i) (bit i) = 0)%N as Hd.
    { rewrite land_bit, js_mem_difference, js_mem_bit. naive_solver. }
    rewrite N.add_nocarry_lxor by done. rewrite N.lxor_lor by done.
    apply js_eq. intros j. pose proof (js_mem_union j (m ∖ⱼ bit i) (bit i)) as Hu. unfold js_union in Hu.
    rewrite Hu, js_mem_difference, js_mem_bit. destruct (decide (j = i)); naive_solver. }
  destruct (decide (m ∖ⱼ bit i = 0%N)) as [H0|H0]; [left; lia|]. right.
  assert (bit i ≠ 0%N) as Hb by (apply js_nonempty; exists i; by apply js_mem_bit).
  exists (N.to_nat (m ∖ⱼ bit i - 1)). split; lia.
Qed.
Lemma mask_subset_remove (elems : list nat) m i x y :
  NoDup elems → elems !! i = Some x →
  y ∈ mask_subset elems (m ∖ⱼ bit i) ↔ y ∈ mask_subset elems m ∧ y ≠ x.
Proof.
  intros Hnd Hi. rewrite !elem_of_mask_subset. setoid_rewrite js_mem_difference.
  setoid_rewrite js_mem_bit. split.
  - intros (j & Hj & Hm & Hne). split; [eauto|]. intros ->. apply Hne. by eapply NoDup_lookup.
  - intros [(j & Hj & Hm) Hne]. exists j. split_and!; [done..|]. intros ->. naive_solver.
Qed.

(** *** Emitting a pair *)
Definition dp_conditions : conditions := λ l r es,
  es = get_connecting_edge_indices g l r ∧ es ≠ [].

Lemma estimate_join_returns ce lc rc es :
  (∀ j, j ∈ es → is_Some (qg_edges (ce_graph ce) !! j)) →
  ∃ card, estimate_join_cardinality ce lc rc es = Returns card.
Proof.
  intros Hes. unfold estimate_join_cardinality.
  assert (∀ s0, ∃ s, for_each (λ s index, e ← vec_index (qg_edges (ce_graph ce)) index;
    Returns (edge_selectivity ce s e)) s0 es = Returns s) as H.
  { induction es as [|j es IH]; intros s0; [by eexists|]. cbn [for_each].
    destruct (Hes j ltac:(set_solver)) as [e He%vec_index_returns]. rewrite He. cbn [mbind Run_bind].
    apply IH. set_solver. }
  destruct (H (f64_of 1)) as [s ->]. by eexists.
Qed.
Lemma connecting_some l r j :
  within l → j ∈ get_connecting_edge_indices g l r →
  js_is_disjoint l r = true ∧ l ≠ 0%N ∧ r ≠ 0%N ∧ is_Some (qg_edges g !! j).
Proof.
  intros Hl Hj. apply elem_of_connecting in Hj as [Hd Hc]; [|apply Hg|by apply within_wf].
  apply edge_connects_spec in Hc as (e & He & _ & (p & _ & Hp) & q & _ & Hq).
  split_and!; [done|apply js_nonempty; eauto..|eauto].
Qed.
Lemma connecting_known K pe l r :
  einv K pe → within l → ∀ j, j ∈ get_connecting_edge_indices g l r →
  is_Some (qg_edges (ce_graph (pe_cardinality_estimator pe)) !! j).
Proof. intros Hi Hl j Hj. rewrite (ei_estimator _ _ Hi). by apply connecting_some in Hj as (_ & _ & _ & ?). Qed.

Lemma insert_plan_inv K pe s p pe' :
  einv K pe → plan_ok K (<[s := p]> (pe_dp_table pe)) s p →
  insert_plan s p pe = Returns (Ok (tt, pe')) →
  einv K pe' ∧ grows pe pe' ∧ pe_dp_table pe' = <[s := p]> (pe_dp_table pe) ∧
    pe_emit_count pe' = pe_emit_count pe.
Proof.
  intros [] Hp [= <-]. split_and!; [|split|done|done].
  - split; cbn; [done..|]. by apply table_ok_insert.
  - cbn. intros s' Hs'. destruct (decide (s = s')) as [->|]; [rewrite lookup_insert_eq; eauto|].
    by rewrite lookup_insert_ne.
  - cbn. lia.
Qed.
Lemma join_plan_ok (K : conditions) T l r es cost card p0 :
  within l → within r → l ≠ 0%N → r ≠ 0%N → js_is_disjoint l r = true →
  is_Some (T !! l) → is_Some (T !! r) → K l r es → p0 = new_join l r es cost card →
  plan_ok K (<[l ∪ⱼ r := p0]> T) (l ∪ⱼ r) p0.
Proof.
  intros Hl Hr Hnl Hnr Hd HTl HTr HK ->. split; [done|]. cbn.
  assert (∀ s, is_Some (T !! s) → is_Some (<[l ∪ⱼ r := new_join l r es cost card]> T !! s)) as Hmono.
  { intros s Hs. destruct (decide (l ∪ⱼ r = s)) as [<-|]; [rewrite lookup_insert_eq; eauto|].
    by rewrite lookup_insert_ne. }
  split_and!; auto.
Qed.

Lemma espec_emit E l r es pe :
  einv dp_conditions pe → within l → within r → es = get_connecting_edge_indices g l r → es ≠ [] →
  espec E (emit_csg_cmp l r es) pe (λ _ pe',
    einv dp_conditions pe' ∧ grows pe pe' ∧
    (is_Some (pe_dp_table pe !! l) → is_Some (pe_dp_table pe !! r) → is_Some (pe_dp_table pe' !! (l ∪ⱼ r)))).
Proof.
  intros Hi Hl Hr Hes Hne. unfold emit_csg_cmp. do 2 apply espec_bind, espec_gets.
  destruct (pe_dp_table pe !! l) as [lp|] eqn:El; [|apply espec_ret; split_and!; [done|reflexivity|by intros []]].
  destruct (pe_dp_table pe !! r) as [rp|] eqn:Er; [|apply espec_ret; split_and!; [done|reflexivity|by intros ? []]].
  destruct (estimate_join_returns (pe_cardinality_estimator pe) (dp_cardinality lp) (dp_cardinality rp) es)
    as [card Hcard]; [subst es; by apply (connecting_known dp_conditions)|].
  apply espec_bind, espec_run. exists card. split; [done|]. apply espec_bind, espec_gets.
  set (cost := if should_apply_fact_anchor_penalty pe (l ∪ⱼ r) es then _ else _).
  clearbody cost. apply espec_bind, espec_gets. apply espec_bind.
  match goal with |- context [if ?b then insert_plan _ _ else _] => destruct b eqn:Hup end.
  - destruct (insert_plan (l ∪ⱼ r) (new_join l r es cost card) pe) as [[[[] pe']|]| |] eqn:Hins;
      try discriminate.
    assert (∃ j, j ∈ es) as [j Hj] by (destruct es; [done|eexists; by left]).
    destruct (connecting_some l r j) as (Hd & Hnl & Hnr & _); [done|by subst es|].
    destruct (insert_plan_inv dp_conditions pe (l ∪ⱼ r) (new_join l r es cost card) pe' Hi) with (2 := Hins) as (Hi' & Hgr & HT & _).
    { eapply join_plan_ok; eauto. by split. }
    unfold espec at 1. rewrite Hins. apply espec_ret. split_and!; [done..|]. intros _ _.
    rewrite HT, lookup_insert_eq. eauto.
  - apply espec_ret, espec_ret. split_and!; [done|reflexivity|]. intros _ _.
    destruct (pe_dp_table pe !! (l ∪ⱼ r)); [eauto|done].
Qed.

Notation no_error := (λ _ : JoinError, False).
Notation dp_inv := (einv dp_conditions).
Notation dp_ran := (eran dp_conditions).
Definition planned (pe : PlanEnumerator) (s : JoinSet) : Prop := is_Some (pe_dp_table pe !! s).
Lemma planned_grows pe pe' s : grows pe pe' → planned pe s → planned pe' s.
Proof. intros [H _]. apply H. Qed.

Lemma espec_emit_if_connected l r pe :
  dp_inv pe → within l → within r →
  espec no_error (emit_if_connected l r) pe (dp_ran pe (λ pe',
    planned pe l → planned pe r → get_connecting_edge_indices g l r ≠ [] → planned pe' (l ∪ⱼ r))).
Proof.
  intros Hi Hl Hr. unfold emit_if_connected, connecting. apply espec_bind, espec_gets.
  rewrite (einv_connecting _ pe) by done.
  destruct (get_connecting_edge_indices g l r) as [|j es] eqn:Hes.
  { apply espec_ret, eran_true; [done|naive_solver]. }
  rewrite <-Hes. unfold try_emit_csg_cmp. apply espec_bind. cbn.
  set (pe1 := MkPlanEnumerator _ _ _ _ _ _).
  assert (dp_inv pe1) as Hi1 by (destruct Hi; by split).
  assert (grows pe pe1) as Hgr by (split; cbn; [done|lia]).
  destruct (N.leb_spec EMIT_THRESHOLD (pe_emit_count pe + 1)) as [Hle|Hlt].
  - apply espec_ret. split_and!; [done|done|by intros _|done].
  - apply espec_bind. eapply espec_mono; [apply (espec_emit no_error); [done..|by rewrite Hes]|done|].
    intros _ pe' (Hi' & Hgr' & Hp). apply espec_ret.
    split_and!; [done|by etrans|done|]. intros _ H1 H2 _. by apply Hp.
Qed.

(** *** Sets that are extended *)
Definition union_of (nodes : JoinSet) (sub : list nat) : JoinSet :=
  match union_subset nodes sub with Ok s => s | Err _ => nodes end.
Lemma union_subset_ok nodes sub :
  (∀ i, i ∈ sub → (i < 64)%nat) →
  union_subset nodes sub = Ok (union_of nodes sub) ∧
  ∀ i, i ∈ⱼ union_of nodes sub ↔ i ∈ⱼ nodes ∨ i ∈ sub.
Proof.
  intros H. destruct (js_from_iter_ok sub H) as (s & Hs & _ & Hm). unfold union_of, union_subset.
  rewrite Hs. split; [done|]. intros i. cbn. by rewrite js_mem_union, Hm.
Qed.

(** One level of the recursions: the neighbours that are not forbidden, pruned. *)
Record extension (nodes forbidden : JoinSet) (all l : list nat) (nset : JoinSet) : Prop := {
  ex_all : neighbors_of nodes forbidden all;
  ex_nodup : NoDup l;
  ex_sub : ∀ i, i ∈ l → i ∈ all;
  ex_full : (n < 10)%nat → l = all;
  ex_set : js_from_iter l = Ok nset;
  ex_mem : ∀ i, i ∈ⱼ nset ↔ i ∈ l;
  ex_progress : (js_cardinality forbidden < js_cardinality (forbidden ∪ⱼ nset))%nat;
  ex_wf : js_wf (forbidden ∪ⱼ nset)
}.
Lemma extension_lt nodes forbidden all l nset i : extension nodes forbidden all l nset → i ∈ l → (i < n)%nat.
Proof. intros Hx Hi. eapply neighbors_of_lt; [apply Hx|]. by eapply ex_sub. Qed.
Lemma extension_length nodes forbidden all l nset :
  extension nodes forbidden all l nset → (length l < 64)%nat.
Proof.
  intros Hx. pose proof (go_count g Hg). enough (length l <= length (seq 0 n))%nat as Hle.
  { rewrite length_seq in Hle. lia. }
  apply submseteq_length, NoDup_submseteq; [apply Hx|]. intros i Hi. apply elem_of_seq.
  pose proof (extension_lt _ _ _ _ _ _ Hx Hi). lia.
Qed.
Lemma extension_subset nodes forbidden all l nset k sub :
  extension nodes forbidden all l nset → within nodes → generate_all_nonempty_subsets l !! k = Some sub →
  union_subset nodes sub = Ok (union_of nodes sub) ∧ within (union_of nodes sub) ∧
  ∀ i, i ∈ⱼ union_of nodes sub ↔ i ∈ⱼ nodes ∨ i ∈ sub.
Proof.
  intros Hx Hn Hk. pose proof (go_count g Hg).
  assert (∀ i, i ∈ sub → (i < n)%nat) as Hlt.
  { intros i Hi. eapply extension_lt; [done|]. by eapply subsets_elem. }
  destruct (union_subset_ok nodes sub) as [Hu Hm]; [intros i Hi; specialize (Hlt i Hi); lia|].
  split_and!; [done| |done]. intros i [Hi|Hi]%Hm; auto.
Qed.
Lemma extension_collect nodes forbidden all l nset :
  extension nodes forbidden all l nset → within nodes →
  collect_results (union_subset nodes <$> generate_all_nonempty_subsets l) =
  Ok (union_of nodes <$> generate_all_nonempty_subsets l).
Proof.
  intros Hx Hn. apply collect_results_fmap. intros sub [k Hk]%list_elem_of_lookup.
  by eapply extension_subset.
Qed.
Lemma extension_prune g' nodes forbidden all :
  relation_count g' = n → neighbors_of nodes forbidden all → all ≠ [] → within nodes → nodes ≠ 0%N →
  js_wf forbidden →
  ∃ l nset, prune_neighbors g' nodes all = Ok l ∧ l ≠ [] ∧ extension nodes forbidden all l nset.
Proof.
  intros Hc Hall Hne Hn Hn0 Hf. pose proof (go_count g Hg).
  destruct (prune_neighbors_ok g' nodes all) as (l & Hok & Hnd & Hl0 & Hsub & Hfull);
    [|apply Hall|done|done|by apply within_wf|].
  { intros i Hi. pose proof (neighbors_of_lt _ _ _ _ Hall Hi). lia. }
  assert (∀ i, i ∈ l → (i < 64)%nat) as H64.
  { intros i Hi%Hsub. pose proof (neighbors_of_lt _ _ _ _ Hall Hi). lia. }
  destruct (js_from_iter_ok l H64) as (nset & Hset & Hwf & Hm).
  exists l, nset. split_and!; [done..|]. split; [done..|by rewrite <-Hc|done|done| |by apply js_wf_union].
  destruct l as [|i l]; [done|]. apply (js_cardinality_subset_lt _ _ i); [by apply js_wf_union|..].
  - intros j Hj. apply js_mem_union. by left.
  - apply js_mem_union. right. apply Hm. set_solver.
  - assert (i ∈ all) as Hi by (apply Hsub; set_solver). by apply Hall in Hi as [_ ?].
Qed.

Lemma espec_enumerate_cmp fuel l r forbidden pe :
  dp_inv pe → within l → within r → r ≠ 0%N → js_wf forbidden → (64 < fuel + js_cardinality forbidden)%nat →
  espec no_error (enumerate_cmp_rec fuel l r forbidden) pe (dp_ran pe (λ _, True)).
Proof.
  revert r forbidden pe. induction fuel as [|fuel IH]; intros r forbidden pe Hi Hl Hr Hr0 Hf Hfuel.
  { pose proof (js_cardinality_le forbidden Hf). lia. }
  cbn [enumerate_cmp_rec]. apply espec_bind. eapply espec_mono; [by apply (espec_neighbors dp_conditions no_error)|done|].
  intros all pe1 (Hi1 & Hsame & Hall). apply same_plans_grows in Hsame.
  apply (espec_after _ _ _ pe pe1); [done|].
  destruct all as [|i0 all']; [by apply espec_ret, eran_true|]. set (all := i0 :: all') in *.
  apply espec_bind, espec_gets. apply espec_bind.
  destruct (extension_prune (pe_query_graph pe1) r forbidden all) as (ids & nset & Hok & _ & Hx);
    [by eapply einv_count|done..|].
  eapply espec_lift; [exact Hok|].
  apply (espec_seq _ _ _ _ _ (λ _, True)).
  - apply (espec_for_while _ _ _ _ _ (λ _ _, True)); [done..|]. intros k sub pe2 Hk Hi2 _ _.
    destruct (extension_subset _ _ _ _ _ _ _ Hx Hr Hk) as (Hu & Hw & _).
    apply espec_bind. eapply espec_lift; [exact Hu|]. apply espec_bind, espec_gets.
    case_match; [|by apply espec_ret, eran_true].
    eapply espec_mono; [by apply espec_emit_if_connected|done|].
    intros b pe3 (? & ? & ? & ?). by split_and!.
  - intros pe2 Hi2 _ _. apply espec_bind. eapply espec_lift; [by eapply extension_collect|].
    apply espec_bind. eapply espec_lift; [apply Hx|].
    apply (espec_for_while _ _ _ _ _ (λ _ _, True)); [done..|]. intros k s pe3 Hk Hi3 _ _.
    apply list_lookup_fmap_Some in Hk as (sub & -> & Hk).
    destruct (extension_subset _ _ _ _ _ _ _ Hx Hr Hk) as (_ & Hw & Hm).
    apply IH; [done..| |apply Hx|].
    + apply js_nonempty. apply js_nonempty in Hr0 as [i Hri]. exists i. apply Hm. by left.
    + pose proof (ex_progress _ _ _ _ _ Hx). lia.
Qed.

(** *** The pairs of a set and one of its neighbours *)
Lemma elem_of_rev (l : list nat) x : x ∈ rev l ↔ x ∈ l.
Proof. by rewrite !list_elem_of_In, <-in_rev. Qed.
Definition leaves_planned (pe : PlanEnumerator) : Prop := ∀ i, (i < n)%nat → planned pe (bit i).
Lemma leaves_grows pe pe' : grows pe pe' → leaves_planned pe → leaves_planned pe'.
Proof. intros Hgr H i Hi. by apply (planned_grows pe), H. Qed.

Lemma min_relation_spec s m :
  js_wf s → m ∈ⱼ s → (∀ i, i ∈ⱼ s → (m <= i)%nat) → min_relation s = m.
Proof.
  intros Hwf Hm Hmin. unfold min_relation. pose proof (js_iter_sorted s Hwf) as Hs.
  pose proof (λ i, elem_of_js_iter s i Hwf) as He. destruct (js_iter s) as [|x l]; cbn.
  - apply He in Hm. set_solver.
  - inversion Hs as [|? ? _ Hf]; subst. assert (x ∈ⱼ s) as Hx by (apply He; set_solver).
    specialize (Hmin x Hx). apply He in Hm. apply elem_of_cons in Hm as [->|Hm]; [done|].
    rewrite Forall_forall in Hf. specialize (Hf m Hm). lia.
Qed.
Lemma min_relation_elem s : js_wf s → s ≠ 0%N → min_relation s ∈ⱼ s ∧ ∀ i, i ∈ⱼ s → (min_relation s <= i)%nat.
Proof.
  intros Hwf Hs0. unfold min_relation. pose proof (js_iter_sorted s Hwf) as Hs.
  pose proof (λ i, elem_of_js_iter s i Hwf) as He. apply js_nonempty in Hs0 as [i0 Hi0].
  destruct (js_iter s) as [|x l]; cbn; [apply He in Hi0; set_solver|].
  inversion Hs as [|? ? _ Hf]; subst. split; [apply He; set_solver|].
  intros i [->|Hi]%He%elem_of_cons; [done|]. rewrite Forall_forall in Hf. specialize (Hf i Hi). lia.
Qed.
Lemma within_full s : within s → js_cardinality s = n → ∀ v, (v < n)%nat → v ∈ⱼ s.
Proof.
  intros Hs Hc v Hv. apply dec_stable. intros Hns. pose proof (within_wf s Hs) as Hwf.
  enough (length (v :: js_iter s) <= length (seq 0 n))%nat as Hle.
  { rewrite length_seq in Hle. cbn [length] in Hle. rewrite length_js_iter in Hle by done. lia. }
  apply submseteq_length, NoDup_submseteq.
  - constructor; [by rewrite elem_of_js_iter|by apply js_iter_nodup].
  - intros i [->|Hi]%elem_of_cons; apply elem_of_seq; [lia|].
    apply elem_of_js_iter in Hi; [|done]. specialize (Hs i Hi). lia.
Qed.

(** Every neighbour above the lowest relation has been joined to the set. *)
Definition emitted (pe : PlanEnumerator) (s : JoinSet) : Prop :=
  ∀ v, (v < n)%nat → v ∉ⱼ s → (min_relation s < v)%nat → (∃ p, p ∈ⱼ s ∧ adjacent g p v) →
    planned pe (s ∪ⱼ bit v).
Lemma emitted_grows pe pe' s : grows pe pe' → emitted pe s → emitted pe' s.
Proof. intros Hgr H v ????. by apply (planned_grows pe), H. Qed.

(** Conditions between two relations each. *)
Definition binary : Prop :=
  ∀ j e, qg_edges g !! j = Some e → ∃ p q, p ≠ q ∧ je_join_set e = bit p ∪ⱼ bit q.
Lemma adjacent_connecting s p v :
  binary → within s → p ∈ⱼ s → v ∉ⱼ s → adjacent g p v → get_connecting_edge_indices g s (bit v) ≠ [].
Proof.
  intros Hb Hs Hp Hv (Hne & j & e & He & Hpe & Hve).
  enough (j ∈ get_connecting_edge_indices g s (bit v)) as Hj by (intros Heq; rewrite Heq in Hj; set_solver).
  apply elem_of_connecting; [apply Hg|by apply within_wf|]. split.
  - apply js_disjoint_spec. intros i Hi ->%js_mem_bit. done.
  - apply edge_connects_spec. exists e. split_and!; [done| |by exists p|by exists v; rewrite js_mem_bit].
    destruct (Hb j e He) as (a & b & _ & Hset). rewrite Hset in *.
    intros x Hx. rewrite js_mem_union, !js_mem_bit in *. destruct (decide (x = v)); [by right|]. left.
    naive_solver lia.
Qed.

Lemma espec_emit_neighbors fuel nodes enriched l pe :
  dp_inv pe → within nodes → js_wf enriched → (65 <= fuel)%nat → (∀ v, v ∈ l → (v < n)%nat) →
  espec no_error (emit_neighbors fuel nodes enriched l) pe (dp_ran pe (λ pe', ∀ v, v ∈ l →
    planned pe nodes → planned pe (bit v) → get_connecting_edge_indices g nodes (bit v) ≠ [] →
    planned pe' (nodes ∪ⱼ bit v))).
Proof.
  revert enriched pe. induction l as [|v l IH]; intros enriched pe Hi Hn Hwf Hfuel Hl.
  { apply espec_ret, eran_true; [done|]. set_solver. }
  cbn [emit_neighbors]. pose proof (go_count g Hg). assert (v < n)%nat as Hv by (apply Hl; set_solver).
  apply espec_bind. eapply espec_lift; [apply js_new_singleton_ok; lia|].
  eapply (espec_seq dp_conditions no_error); [apply espec_emit_if_connected; [done..|by apply within_bit]|].
  intros pe1 Hi1 Hgr1 Hp1. cbn beta in Hp1.
  apply (espec_seq _ _ _ _ _ (λ _, True)).
  { apply espec_enumerate_cmp; [done..|by apply within_bit| |done|lia].
    apply js_nonempty. exists v. by apply js_mem_bit. }
  intros pe2 Hi2 Hgr2 _. eapply espec_mono; [apply IH|done|]; [done..|by apply js_wf_difference|done|set_solver|].
  intros b pe3 (Hi3 & Hgr3 & Hf & Ht). split_and!; [done..|].
  intros Hb w [->|Hw]%elem_of_cons Hpn Hpw Hc.
  - apply (planned_grows pe1); [by etrans|]. auto.
  - apply Ht; [done..| | |done]; (eapply planned_grows; [|done]; by etrans).
Qed.

Lemma espec_emit_csg fuel nodes pe :
  dp_inv pe → within nodes → nodes ≠ 0%N → (65 <= fuel)%nat →
  espec no_error (emit_csg fuel nodes) pe (dp_ran pe (λ pe',
    binary → planned pe nodes → leaves_planned pe → emitted pe' nodes)).
Proof.
  intros Hi Hn Hn0 Hfuel. unfold emit_csg. apply espec_bind, espec_gets.
  pose proof (within_wf nodes Hn) as Hwf. pose proof (go_count g Hg).
  rewrite (einv_count _ pe) by done. destruct (Nat.eqb_spec (js_cardinality nodes) n) as [Hc|Hc].
  { apply espec_ret, eran_true; [done|]. intros _ _ _ v Hv Hnv. by destruct (Hnv (within_full nodes Hn Hc v Hv)). }
  destruct (min_relation_elem nodes Hwf Hn0) as [Hm1 Hm2].
  destruct (js_from_iter_ok (seq 0 (min_relation nodes))) as (below & Hb & Hbwf & Hbm).
  { intros i Hx%elem_of_seq. specialize (Hn _ Hm1). lia. }
  apply espec_bind. eapply espec_lift; [exact Hb|]. apply espec_bind.
  eapply espec_mono; [by apply (espec_neighbors dp_conditions no_error)|done|].
  intros l pe1 (Hi1 & Hsame & Hl). destruct Hsame as [HT He].
  apply (espec_after _ _ _ pe pe1); [by apply same_plans_grows|].
  assert (∀ v, (v < n)%nat → v ∉ⱼ nodes → (min_relation nodes < v)%nat →
    (∃ p, p ∈ⱼ nodes ∧ adjacent g p v) → v ∈ l) as Hin.
  { intros v Hv Hnv Hlt Hadj. apply Hl. split; [done|]. intros [Hx|Hx]%js_mem_union; [done|].
    apply Hbm, elem_of_seq in Hx. lia. }
  destruct l as [|v0 l'].
  { apply espec_ret, eran_true; [done|]. intros _ _ _ v Hv Hnv Hlt Hadj.
    specialize (Hin v Hv Hnv Hlt Hadj). set_solver. }
  set (l := v0 :: l') in *. destruct (js_from_iter_ok l) as (nset & Hset & Hnwf & _).
  { intros i Hil. pose proof (neighbors_of_lt _ _ _ _ Hl Hil). lia. }
  apply espec_bind. eapply espec_lift; [exact Hset|].
  eapply espec_mono; [apply espec_emit_neighbors|done|];
    [done..|by repeat apply js_wf_union|done| |].
  { intros v Hv. apply (neighbors_of_lt _ _ _ _ Hl). by apply elem_of_rev. }
  intros b pe2 (Hi2 & Hgr2 & Hf & Ht). split_and!; [done..|].
  intros Hbt Hbin Hpl Hlv v Hv Hnv Hlt Hadj. specialize (Hin v Hv Hnv Hlt Hadj).
  apply Ht; [done|by apply elem_of_rev|by unfold planned; rewrite HT| |].
  - unfold planned. rewrite HT. by apply Hlv.
  - destruct Hadj as (p & Hp & Hadj). by apply (adjacent_connecting nodes p v).
Qed.

(** *** Connected sets *)
Definition step_in (s : JoinSet) (x y : nat) : Prop := adjacent g x y ∧ y ∈ⱼ s.
Definition connected (s : JoinSet) : Prop := ∀ a b, a ∈ⱼ s → b ∈ⱼ s → rtc (step_in s) a b.
Lemma connected_exit s nodes a b :
  rtc (step_in s) a b → a ∈ⱼ nodes → b ∉ⱼ nodes →
  ∃ p r, p ∈ⱼ nodes ∧ r ∉ⱼ nodes ∧ r ∈ⱼ s ∧ adjacent g p r.
Proof.
  induction 1 as [x|x y z [Hadj Hy] _ IH]; intros Hx Hz; [done|].
  destruct (decide (y ∈ⱼ nodes)) as [Hin|Hout]; [by apply IH|]. by exists x, y.
Qed.

(** The sets above [nodes] that take nothing else from [forbidden]. *)
Definition above (nodes forbidden s : JoinSet) : Prop :=
  within s ∧ connected s ∧ (∀ i, i ∈ⱼ nodes → i ∈ⱼ s) ∧ ∀ i, i ∈ⱼ s → i ∈ⱼ forbidden → i ∈ⱼ nodes.
(** What a call may rely on. *)
Record ready (pe : PlanEnumerator) (nodes forbidden : JoinSet) : Prop := {
  rd_small : (n < 10)%nat;
  rd_binary : binary;
  rd_leaves : leaves_planned pe;
  rd_planned : planned pe nodes;
  rd_emitted : emitted pe nodes;
  rd_nodes : ∀ i, i ∈ⱼ nodes → i ∈ⱼ forbidden;
  rd_below : ∀ i, (i < min_relation nodes)%nat → i ∈ⱼ forbidden
}.
Lemma ready_grows pe pe' nodes forbidden : grows pe pe' → ready pe nodes forbidden → ready pe' nodes forbidden.
Proof.
  intros Hgr []. split; eauto using leaves_grows, planned_grows, emitted_grows.
Qed.

Section Extension.
Context (nodes forbidden nset : JoinSet) (all l : list nat).
Context (Hx : extension nodes forbidden all l nset) (Hn : within nodes) (Hn0 : nodes ≠ 0%N).

Lemma extension_min pe k sub :
  ready pe nodes forbidden → generate_all_nonempty_subsets l !! k = Some sub →
  min_relation (union_of nodes sub) = min_relation nodes.
Proof.
  intros Hr Hk. destruct (extension_subset _ _ _ _ _ _ _ Hx Hn Hk) as (_ & Hw & Hm).
  destruct (min_relation_elem nodes (within_wf _ Hn) Hn0) as [Hm1 Hm2].
  apply min_relation_spec; [by apply within_wf|apply Hm; by left|].
  intros i [Hi|Hi]%Hm; [auto|]. apply Nat.nlt_ge. intros Hlt.
  apply (rd_below _ _ _ Hr) in Hlt. pose proof (subsets_elem _ _ _ _ Hk Hi) as Hil.
  apply (ex_sub _ _ _ _ _ Hx) in Hil. by apply (ex_all _ _ _ _ _ Hx) in Hil as [_ ?].
Qed.
Lemma extension_above k sub i :
  generate_all_nonempty_subsets l !! k = Some sub → i ∈ sub →
  (i < n)%nat ∧ i ∉ⱼ forbidden ∧ ∃ p, p ∈ⱼ nodes ∧ adjacent g p i.
Proof.
  intros Hk Hi. pose proof (subsets_elem _ _ _ _ Hk Hi) as Hil.
  pose proof (extension_lt _ _ _ _ _ _ Hx Hil).
  apply (ex_sub _ _ _ _ _ Hx) in Hil. apply (ex_all _ _ _ _ _ Hx) in Hil as [? ?]. done.
Qed.

(** A subset has a plan once the subsets of smaller masks have been emitted. *)
Lemma extension_planned pe k sub :
  ready pe nodes forbidden → generate_all_nonempty_subsets l !! k = Some sub →
  (∀ k' sub', (k' < k)%nat → generate_all_nonempty_subsets l !! k' = Some sub' →
    planned pe (union_of nodes sub') ∧ emitted pe (union_of nodes sub')) →
  planned pe (union_of nodes sub) ∧ (js_cardinality nodes < js_cardinality (union_of nodes sub))%nat.
Proof.
  intros Hr Hk Hprev. destruct (extension_subset _ _ _ _ _ _ _ Hx Hn Hk) as (_ & Hw & Hm).
  pose proof (subsets_lookup _ _ _ Hk) as Hsub. pose proof (extension_length _ _ _ _ _ Hx) as Hlen.
  pose proof (lookup_lt_Some _ _ _ Hk) as Hkl. rewrite subsets_length in Hkl by done.
  assert (N.of_nat (S k) ≠ 0%N) as [i Hi]%js_nonempty by lia.
  assert (i < length l)%nat as Hil by (apply (js_mem_lt_pow2 (N.of_nat (S k))); [lia|done]).
  destruct (lookup_lt_is_Some_2 l i Hil) as [x Hxi].
  assert (x ∈ sub) as Hxs by (rewrite Hsub; apply elem_of_mask_subset; eauto).
  destruct (extension_above k sub x Hk Hxs) as (Hxn & Hxf & p & Hp & Hadj).
  assert (x ∉ⱼ nodes) as Hxnodes by (intros H; by apply Hxf, (rd_nodes _ _ _ Hr)).
  destruct (min_relation_elem nodes (within_wf _ Hn) Hn0) as [Hm1 Hm2].
  assert (min_relation nodes < x)%nat as Hmx.
  { apply Nat.nle_gt. intros [Heq|Hlt]%Nat.lt_eq_cases; [by apply Hxf, (rd_below _ _ _ Hr)|by subst]. }
  split.
  2:{ apply (js_cardinality_subset_lt _ _ x); [by apply within_wf| |apply Hm; by right|done].
      intros j Hj. apply Hm. by left. }
  destruct (mask_remove k i Hi) as [Hone|(k' & Hk' & Hrem)].
  - replace (union_of nodes sub) with (nodes ∪ⱼ bit x).
    { apply (rd_emitted _ _ _ Hr); eauto. }
    apply js_eq. intros j. rewrite Hm, js_mem_union, js_mem_bit, Hsub, Hone, elem_of_mask_subset.
    setoid_rewrite js_mem_bit. naive_solver.
  - destruct (lookup_lt_is_Some_2 (generate_all_nonempty_subsets l) k') as [sub' Hsk'].
    { rewrite subsets_length by done. lia. }
    destruct (Hprev k' sub' Hk' Hsk') as [_ He]. pose proof (subsets_lookup _ _ _ Hsk') as Hsub'.
    destruct (extension_subset _ _ _ _ _ _ _ Hx Hn Hsk') as (_ & Hw' & Hm').
    assert (∀ y, y ∈ sub' ↔ y ∈ sub ∧ y ≠ x) as Hdiff.
    { intros y. rewrite Hsub', Hrem, Hsub. apply mask_subset_remove; [apply Hx|done]. }
    replace (union_of nodes sub) with (union_of nodes sub' ∪ⱼ bit x).
    2:{ apply js_eq. intros j. rewrite js_mem_union, js_mem_bit, Hm, Hm', Hdiff.
        destruct (decide (j = x)); naive_solver. }
    apply He; [done|rewrite Hm', Hdiff; naive_solver| |].
    + by rewrite (extension_min pe k').
    + exists p. rewrite Hm'. auto.
Qed.
End Extension.

Lemma above_step nodes forbidden all l nset s :
  extension nodes forbidden all l nset → (n < 10)%nat → within nodes → nodes ≠ 0%N →
  above nodes forbidden s → s ≠ nodes →
  ∃ k sub, generate_all_nonempty_subsets l !! k = Some sub ∧
    above (union_of nodes sub) (forbidden ∪ⱼ nset) s.
Proof.
  intros Hx H10 Hn Hn0 (Hw & Hc & Hsub & Hfor) Hne.
  assert (∃ b, b ∈ⱼ s ∧ b ∉ⱼ nodes) as (b & Hb & Hnb).
  { destruct (decide (s ∖ⱼ nodes = 0%N)) as [H0|H0].
    - destruct Hne. apply js_eq. intros i. split; [|auto]. intros Hi. apply dec_stable. intros Hni.
      apply js_empty with (i := i) in H0. apply H0, js_mem_difference. done.
    - apply js_nonempty in H0 as [i Hi]. apply js_mem_difference in Hi. by exists i. }
  apply js_nonempty in Hn0 as [a Ha].
  destruct (connected_exit s nodes a b) as (p & r & Hp & Hr & Hrs & Hadj); [by apply Hc; auto|done..|].
  assert (r ∈ l) as Hrl.
  { rewrite (ex_full _ _ _ _ _ Hx H10). apply (ex_all _ _ _ _ _ Hx). split; [by exists p|]. auto. }
  destruct (mask_of l s) as (k & sub & Hk & Hm); [by eapply extension_length|by exists r|].
  exists k, sub. split; [done|]. destruct (extension_subset _ _ _ _ _ _ _ Hx Hn Hk) as (_ & _ & Hu).
  split_and!; [done|done| |].
  - intros i [Hi|Hi]%Hu; [auto|]. by apply Hm in Hi as [].
  - intros i Hi [Hf|Hf]%js_mem_union; apply Hu; [left; auto|]. right. apply Hm.
    split; [|done]. by apply (ex_mem _ _ _ _ _ Hx).
Qed.
Lemma ready_extension pe nodes forbidden all l nset k sub :
  extension nodes forbidden all l nset → within nodes → nodes ≠ 0%N → ready pe nodes forbidden →
  generate_all_nonempty_subsets l !! k = Some sub →
  planned pe (union_of nodes sub) ∧ emitted pe (union_of nodes sub) →
  ready pe (union_of nodes sub) (forbidden ∪ⱼ nset).
Proof.
  intros Hx Hn Hn0 Hr Hk [Hp He]. destruct (extension_subset _ _ _ _ _ _ _ Hx Hn Hk) as (_ & _ & Hm).
  pose proof (extension_min _ _ _ _ _ Hx Hn Hn0 pe k sub Hr Hk) as Hmin.
  destruct Hr. split; [done..| |].
  - intros i [Hi|Hi]%Hm; apply js_mem_union; [auto|]. right. apply (ex_mem _ _ _ _ _ Hx).
    by eapply subsets_elem.
  - intros i. rewrite Hmin. intros Hi. apply js_mem_union. auto.
Qed.

Lemma union_of_nonempty nodes forbidden all l nset k sub :
  extension nodes forbidden all l nset → within nodes → nodes ≠ 0%N →
  generate_all_nonempty_subsets l !! k = Some sub → union_of nodes sub ≠ 0%N.
Proof.
  intros Hx Hn Hn0 Hk. destruct (extension_subset _ _ _ _ _ _ _ Hx Hn Hk) as (_ & _ & Hm).
  apply js_nonempty in Hn0 as [i Hi]. apply js_nonempty. exists i. apply Hm. by left.
Qed.

(** The two loops of a call: emit every subset, then extend every subset. *)
Definition emitted_before (nodes : JoinSet) (l : list nat) (k : nat) (pe : PlanEnumerator) : Prop :=
  ∀ k' sub', (k' < k)%nat → generate_all_nonempty_subsets l !! k' = Some sub' →
    planned pe (union_of nodes sub') ∧ emitted pe (union_of nodes sub').
Definition reached_before (nodes forbidden : JoinSet) (l : list nat) (k : nat) (pe : PlanEnumerator) : Prop :=
  ∀ k' sub', (k' < k)%nat → generate_all_nonempty_subsets l !! k' = Some sub' →
    ∀ s, above (union_of nodes sub') forbidden s → planned pe s.
Lemma emitted_before_step nodes l k sub pe pe' :
  emitted_before nodes l k pe → generate_all_nonempty_subsets l !! k = Some sub → grows pe pe' →
  planned pe' (union_of nodes sub) → emitted pe' (union_of nodes sub) → emitted_before nodes l (S k) pe'.
Proof.
  intros HD Hk Hgr Hp He k' sub' Hlt Hk'. apply Nat.lt_succ_r, Nat.lt_eq_cases in Hlt as [Hlt| ->].
  - destruct (HD k' sub' Hlt Hk'). eauto using planned_grows, emitted_grows.
  - by simplify_eq.
Qed.
Lemma reached_before_step nodes forbidden l k sub pe pe' :
  reached_before nodes forbidden l k pe → generate_all_nonempty_subsets l !! k = Some sub → grows pe pe' →
  (∀ s, above (union_of nodes sub) forbidden s → planned pe' s) →
  reached_before nodes forbidden l (S k) pe'.
Proof.
  intros HD Hk Hgr Hp k' sub' Hlt Hk' s Hs. apply Nat.lt_succ_r, Nat.lt_eq_cases in Hlt as [Hlt| ->].
  - eapply planned_grows; [done|]. by eapply HD.
  - simplify_eq. auto.
Qed.

Section Loops.
Context (nodes forbidden nset : JoinSet) (all l : list nat).
Context (Hx : extension nodes forbidden all l nset) (Hn : within nodes) (Hn0 : nodes ≠ 0%N).
Notation subsets := (generate_all_nonempty_subsets l).

Lemma espec_csg_emits pe :
  dp_inv pe →
  espec no_error
    (for_while (λ subset,
      new_set ← lift (union_subset nodes subset);
      present ← has_plan new_set;
      if (present : bool) && (js_cardinality nodes <? js_cardinality new_set)%nat
      then emit_csg 65 new_set
      else mret true) subsets)
    pe (dp_ran pe (λ pe', ready pe nodes forbidden → emitted_before nodes l (length subsets) pe')).
Proof.
  intros Hi. apply (espec_for_while dp_conditions no_error _ _ _
    (λ k pe', ready pe nodes forbidden → emitted_before nodes l k pe')); [done|intros _ ??; lia|].
  intros k sub pe2 Hk Hi2 Hgr2 HD. destruct (extension_subset _ _ _ _ _ _ _ Hx Hn Hk) as (Hu & Hw & _).
  apply espec_bind. eapply espec_lift; [exact Hu|]. apply espec_bind, espec_gets.
  assert (ready pe nodes forbidden → planned pe2 (union_of nodes sub) ∧
    (js_cardinality nodes < js_cardinality (union_of nodes sub))%nat) as Hpl.
  { intros Hr. apply (extension_planned _ _ _ _ _ Hx Hn Hn0 pe2 k);
      [by apply (ready_grows pe)|done|by apply HD]. }
  case_match eqn:Hif.
  - eapply espec_mono; [apply espec_emit_csg; [done..| |lia]|done|]; [by eapply union_of_nonempty|].
    intros b pe3 (Hi3 & Hgr3 & Hfl & Ht). split_and!; [done..|]. intros Hb Hr.
    destruct (Hpl Hr) as [Hp _]. eapply emitted_before_step; [by apply HD|done..|by eapply planned_grows|].
    apply Ht; [done|apply Hr|done|]. by apply (leaves_grows pe), Hr.
  - apply espec_ret, eran_true; [done|]. intros Hr. exfalso. destruct (Hpl Hr) as [Hp Hc].
    apply andb_false_iff in Hif as [Hif|Hif].
    + by apply bool_decide_eq_false in Hif.
    + apply Nat.ltb_ge in Hif. lia.
Qed.

Lemma espec_csg_extends (rec : JoinSet → Enum bool) pe :
  (∀ s pe, dp_inv pe → within s → s ≠ 0%N → espec no_error (rec s) pe (dp_ran pe (λ pe',
    ready pe s (forbidden ∪ⱼ nset) → ∀ t, above s (forbidden ∪ⱼ nset) t → planned pe' t))) →
  dp_inv pe →
  espec no_error (for_while rec (union_of nodes <$> subsets)) pe (dp_ran pe (λ pe',
    ready pe nodes forbidden → emitted_before nodes l (length subsets) pe →
    reached_before nodes (forbidden ∪ⱼ nset) l (length subsets) pe')).
Proof.
  intros Hrec Hi.
  pose proof (espec_for_while dp_conditions no_error rec (union_of nodes <$> subsets) pe
    (λ k pe', ready pe nodes forbidden → emitted_before nodes l (length subsets) pe →
      reached_before nodes (forbidden ∪ⱼ nset) l k pe')) as Hloop.
  rewrite length_fmap in Hloop. apply Hloop; clear Hloop; [done|intros _ _ ??; lia|].
  intros k s pe2 Hk Hi2 Hgr2 HD. apply list_lookup_fmap_Some in Hk as (sub & -> & Hk).
  destruct (extension_subset _ _ _ _ _ _ _ Hx Hn Hk) as (_ & Hw & _).
  eapply espec_mono; [apply Hrec; [done..|by eapply union_of_nonempty]|done|].
  intros b pe3 (Hi3 & Hgr3 & Hfl & Ht). split_and!; [done..|]. intros Hb Hr Hem.
  eapply reached_before_step; [by apply HD|done..|]. apply (Ht Hb).
  apply (ready_extension _ _ _ _ _ _ k _ Hx); [done..|by apply (ready_grows pe)|done|].
  destruct (Hem k sub) as [Hp He]; [by apply lookup_lt_Some in Hk|done|].
  split; [by eapply planned_grows|by eapply emitted_grows].
Qed.
End Loops.

Lemma above_no_neighbors nodes forbidden s :
  neighbors_of nodes forbidden [] → nodes ≠ 0%N → above nodes forbidden s → s = nodes.
Proof.
  intros Hall [a Ha]%js_nonempty (Hw & Hc & Hsub & Hfor). apply js_eq. intros b. split; [|auto].
  intros Hb. apply dec_stable. intros Hnb.
  destruct (connected_exit s nodes a b) as (p & r & Hp & Hrn & Hrs & Hadj); [by apply Hc; auto|done..|].
  enough (r ∈ @nil nat) by set_solver. apply Hall. split; [by exists p|]. auto.
Qed.

Lemma espec_enumerate_csg fuel nodes forbidden pe :
  dp_inv pe → within nodes → nodes ≠ 0%N → js_wf forbidden → (64 < fuel + js_cardinality forbidden)%nat →
  espec no_error (enumerate_csg_rec fuel nodes forbidden) pe (dp_ran pe (λ pe',
    ready pe nodes forbidden → ∀ s, above nodes forbidden s → planned pe' s)).
Proof.
  revert nodes forbidden pe. induction fuel as [|fuel IH]; intros nodes forbidden pe Hi Hn Hn0 Hf Hfuel.
  { pose proof (js_cardinality_le forbidden Hf). lia. }
  cbn [enumerate_csg_rec]. apply espec_bind.
  eapply espec_mono; [by apply (espec_neighbors dp_conditions no_error)|done|].
  intros all pe1 (Hi1 & Hsame & Hall). apply same_plans_grows in Hsame.
  apply (espec_after _ _ _ pe pe1); [done|].
  destruct (decide (all = [])) as [->|Hne].
  { apply espec_ret, eran_true; [done|]. intros Hr s ->%above_no_neighbors; [|done..].
    by apply (planned_grows pe), Hr. }
  destruct (extension_prune (pe_query_graph pe1) nodes forbidden all) as (l & nset & Hok & _ & Hx);
    [by eapply einv_count|done..|].
  destruct all as [|i0 all']; [done|]. set (all := i0 :: all') in *.
  apply espec_bind, espec_gets. apply espec_bind. eapply espec_lift; [exact Hok|].
  eapply (espec_seq dp_conditions no_error); [by eapply espec_csg_emits|].
  intros pe2 Hi2 Hgr2 HD. apply espec_bind. eapply espec_lift; [by eapply extension_collect|].
  apply espec_bind. eapply espec_lift; [apply Hx|].
  eapply espec_mono; [eapply (espec_csg_extends _ _ _ _ _ Hx Hn Hn0)|done|]; [|done|].
  { intros s pe3 Hi3 Hw Hs0. apply IH; [done..|apply Hx|]. pose proof (ex_progress _ _ _ _ _ Hx). lia. }
  intros b pe3 (Hi3 & Hgr3 & Hfl & Ht). split_and!; [done..|]. intros Hb Hr s Hs.
  apply (ready_grows pe pe1 _ _ Hsame) in Hr.
  destruct (decide (s = nodes)) as [->|Hsn]; [apply (planned_grows pe1); [by etrans|]; apply Hr|].
  destruct (above_step _ _ _ _ _ _ Hx (rd_small _ _ _ Hr) Hn Hn0 Hs Hsn) as (k & sub & Hk & Hab).
  apply (Ht Hb (ready_grows _ _ _ _ Hgr2 Hr) (HD Hr) k sub); [|done|done]. by apply lookup_lt_Some in Hk.
Qed.

(** *** Starting from every relation *)
Lemma bit_nonempty i : bit i ≠ 0%N.
Proof. apply js_nonempty. exists i. by apply js_mem_bit. Qed.
Lemma espec_process_node idx pe :
  dp_inv pe → (idx < n)%nat →
  espec no_error (process_node_as_start idx) pe (dp_ran pe (λ pe',
    (n < 10)%nat → binary → leaves_planned pe →
    ∀ s, within s → connected s → idx ∈ⱼ s → (∀ i, i ∈ⱼ s → (idx <= i)%nat) → planned pe' s)).
Proof.
  intros Hi Hidx. unfold process_node_as_start. pose proof (go_count g Hg).
  apply espec_bind. eapply espec_lift; [apply js_new_singleton_ok; lia|].
  eapply (espec_seq dp_conditions no_error);
    [apply espec_emit_csg; [done|by apply within_bit|apply bit_nonempty|lia]|].
  intros pe1 Hi1 Hgr1 He. destruct (js_from_iter_ok (seq 0 idx)) as (below & Hb & Hbwf & Hbm).
  { intros i Hx%elem_of_seq. lia. }
  apply espec_bind. eapply espec_lift; [exact Hb|].
  eapply espec_mono; [apply espec_enumerate_csg|done|];
    [done|by apply within_bit|apply bit_nonempty|apply js_wf_union; [done|apply js_wf_bit; lia]|lia|].
  intros b pe2 (Hi2 & Hgr2 & Hfl & Ht). split_and!; [done..|]. intros Hbt H10 Hbin Hlv s Hs Hc Hin Hmin.
  assert (min_relation (bit idx) = idx) as Hmr.
  { apply min_relation_spec; [apply js_wf_bit; lia|by apply js_mem_bit|]. by intros i ->%js_mem_bit. }
  apply (Ht Hbt).
  - split; [done|done|by apply (leaves_grows pe)| | | |].
    + by apply (planned_grows pe), Hlv.
    + apply He; [done| |done]. by apply Hlv.
    + intros i Hx. apply js_mem_union. by right.
    + rewrite Hmr. intros i Hx. apply js_mem_union. left. apply Hbm, elem_of_seq. lia.
  - split_and!; [done|done|by intros i ->%js_mem_bit|].
    intros i Hx [Hy|Hy]%js_mem_union; [|done]. apply Hbm, elem_of_seq in Hy. specialize (Hmin i Hx). lia.
Qed.

Lemma espec_dphyp pe :
  dp_inv pe →
  espec no_error join_reorder_by_dphyp pe (dp_ran pe (λ pe',
    (n < 10)%nat → binary → leaves_planned pe →
    ∀ s, within s → connected s → s ≠ 0%N → planned pe' s)).
Proof.
  intros Hi. unfold join_reorder_by_dphyp. apply espec_bind, espec_gets. rewrite (einv_count _ pe) by done.
  eapply espec_mono; [apply (espec_for_while dp_conditions no_error _ _ _ (λ k pe',
    (n < 10)%nat → binary → leaves_planned pe → ∀ k' idx, (k' < k)%nat → rev (seq 0 n) !! k' = Some idx →
      ∀ s, within s → connected s → idx ∈ⱼ s → (∀ i, i ∈ⱼ s → (idx <= i)%nat) → planned pe' s))
    |done|]; [done|intros ? ? ? ? ? ?; lia| |].
  - intros k idx pe1 Hk Hi1 Hgr1 HD. assert (idx < n)%nat as Hidx.
    { apply list_elem_of_lookup_2 in Hk. rewrite elem_of_rev, elem_of_seq in Hk. lia. }
    eapply espec_mono; [by apply espec_process_node|done|].
    intros b pe2 (Hi2 & Hgr2 & Hfl & Ht). split_and!; [done..|].
    intros Hb H10 Hbin Hlv k' idx' Hlt Hk' s Hs Hc Hin Hmin.
    apply Nat.lt_succ_r, Nat.lt_eq_cases in Hlt as [Hlt| ->].
    + eapply planned_grows; [done|]. by eapply HD.
    + rewrite Hk in Hk'. injection Hk' as <-. apply (Ht Hb); try done. by apply (leaves_grows pe).
  - intros b pe1 (Hi1 & Hgr1 & Hfl & Ht). split_and!; [done..|]. intros Hb H10 Hbin Hlv s Hs Hc Hs0.
    destruct (min_relation_elem s (within_wf s Hs) Hs0) as [Hm1 Hm2].
    assert (min_relation s ∈ rev (seq 0 n)) as [k Hk]%list_elem_of_lookup.
    { apply elem_of_rev, elem_of_seq. specialize (Hs _ Hm1). lia. }
    apply (Ht Hb H10 Hbin Hlv k (min_relation s)); [by apply lookup_lt_Some in Hk|done..].
Qed.

(** *** Leaves *)
Lemma espec_for_unit {A} E (f : A → Enum unit) l pe (D : nat → PlanEnumerator → Prop) :
  D 0%nat pe →
  (∀ k x pe1, l !! k = Some x → D k pe1 → espec E (f x) pe1 (λ _, D (S k))) →
  espec E (for_unit f l) pe (λ _, D (length l)).
Proof.
  revert pe D. induction l as [|x l IH]; intros pe D HD Hstep; [done|].
  cbn [for_unit]. apply espec_bind. eapply espec_mono; [by apply (Hstep 0%nat)|done|].
  intros a pe' HD'. apply (IH pe' (λ k, D (S k))); [exact HD'|]. intros k y pe1 Hk. by apply (Hstep (S k)).
Qed.
Lemma js_cardinality_bit i : (i < 64)%nat → js_cardinality (bit i) = 1%nat.
Proof. intros H. by rewrite <-length_js_iter, js_iter_bit by (by try apply js_wf_bit). Qed.

Lemma espec_leaf_plan K E id pe :
  einv K pe → (id < n)%nat →
  espec E (leaf_plan id (bit id)) pe (λ _ pe',
    einv K pe' ∧ grows pe pe' ∧ planned pe' (bit id) ∧ pe_emit_count pe' = pe_emit_count pe).
Proof.
  intros Hi Hid. pose proof (go_count g Hg). unfold leaf_plan. apply espec_bind, espec_gets.
  assert (∃ card ce', estimate_cardinality (pe_cardinality_estimator pe) (bit id) = Ok (card, ce') ∧
    qg_edges (ce_graph ce') = qg_edges g) as (card & ce' & Hest & Hce).
  { unfold estimate_cardinality. destruct (_ !! _); [eexists _, _; split; [done|apply Hi]|].
    rewrite js_cardinality_bit, js_iter_bit by lia. cbn. eexists _, _. split; [done|]. apply Hi. }
  apply espec_bind. eapply espec_lift; [exact Hest|]. apply espec_bind. cbn [set_estimator espec].
  set (pe1 := MkPlanEnumerator _ _ ce' _ _ _).
  assert (einv K pe1) as Hi1 by (destruct Hi; by split).
  apply espec_bind. eapply espec_lift.
  { unfold new_leaf. rewrite js_new_singleton_ok by lia. done. }
  set (p := MkDPPlan _ _ _ _).
  assert (plan_ok K (<[bit id := p]> (pe_dp_table pe1)) (bit id) p) as Hp by (by split).
  destruct (insert_plan_inv K pe1 (bit id) p _ Hi1 Hp eq_refl) as (Hi' & Hgr & HT & He).
  split_and!; [done|by destruct Hgr; split| |done]. unfold planned. rewrite HT, lookup_insert_eq. eauto.
Qed.

(** The state after the leaves of the first [k] relations. *)
Definition leaves_up_to (K : conditions) (pe : PlanEnumerator) (k : nat) (pe' : PlanEnumerator) : Prop :=
  einv K pe' ∧ grows pe pe' ∧ ∀ i, (i < k)%nat → planned pe' (bit i).
Lemma leaves_up_to_step K pe k pe1 pe2 :
  leaves_up_to K pe k pe1 → einv K pe2 → grows pe1 pe2 → planned pe2 (bit k) → leaves_up_to K pe (S k) pe2.
Proof.
  intros (_ & Hgr & Hl) Hi2 Hgr2 Hp. split_and!; [done|by etrans|]. intros i Hlt.
  apply Nat.lt_succ_r, Nat.lt_eq_cases in Hlt as [Hlt| ->]; [|done]. eapply planned_grows; [done|auto].
Qed.
Lemma espec_init_leaves K E pe :
  einv K pe → espec E init_leaf_plans pe (λ _ pe', einv K pe' ∧ grows pe pe' ∧ leaves_planned pe').
Proof.
  intros Hi. unfold init_leaf_plans. apply espec_bind, espec_gets. rewrite (ei_relations _ _ Hi).
  apply (espec_for_unit E _ _ _ (leaves_up_to K pe)); [split_and!; [done|reflexivity|lia]|].
  intros k r pe1 Hk HD. rewrite (go_ids g Hg k r Hk).
  assert (k < n)%nat as Hkn by (by apply lookup_lt_Some in Hk). pose proof (go_count g Hg).
  apply espec_bind. eapply espec_lift; [apply js_new_singleton_ok; lia|].
  eapply espec_mono; [apply (espec_leaf_plan K E); [apply HD|done]|done|].
  intros _ pe2 (Hi2 & Hgr2 & Hp & _). by eapply leaves_up_to_step.
Qed.
Lemma espec_ensure_leaves K E pe :
  einv K pe → espec E ensure_leaf_plans pe (λ _ pe', einv K pe' ∧ grows pe pe' ∧ leaves_planned pe').
Proof.
  intros Hi. unfold ensure_leaf_plans. apply espec_bind, espec_gets. rewrite (ei_relations _ _ Hi).
  apply (espec_for_unit E _ _ _ (leaves_up_to K pe)); [split_and!; [done|reflexivity|lia]|].
  intros k r pe1 Hk HD. rewrite (go_ids g Hg k r Hk).
  assert (k < n)%nat as Hkn by (by apply lookup_lt_Some in Hk). pose proof (go_count g Hg).
  apply espec_bind. eapply espec_lift; [apply js_new_singleton_ok; lia|].
  apply espec_bind, espec_gets. case_bool_decide as Hp.
  - apply espec_ret. eapply leaves_up_to_step; [done|apply HD|reflexivity|done].
  - eapply espec_mono; [apply (espec_leaf_plan K E); [apply HD|done]|done|].
    intros _ pe2 (Hi2 & Hgr2 & Hp2 & _). by eapply leaves_up_to_step.
Qed.

Lemma all_relations_spec i : i ∈ⱼ create_all_relations_set g ↔ (i < n)%nat.
Proof.
  pose proof (go_count g Hg). unfold create_all_relations_set.
  assert (shl1 n = 2 ^ N.of_nat n)%N as ->.
  { rewrite shl1_bit by lia. unfold bit. by rewrite N.shiftl_1_l. }
  pose proof (last_mask_spec n ltac:(lia)) as Hl. unfold last_mask in Hl.
  rewrite (proj2 (Nat.ltb_lt n 64)) in Hl by lia. unfold bit in Hl. rewrite N.shiftl_1_l in Hl.
  rewrite Hl. unfold js_mem. rewrite N.sub_1_r, <-N.ones_equiv, N.ones_spec_iff. lia.
Qed.
Lemma all_relations_within : within (create_all_relations_set g).
Proof. intros i. apply all_relations_spec. Qed.
Lemma einv_all K pe : einv K pe → create_all_relations_set (pe_query_graph pe) = create_all_relations_set g.
Proof. intros Hi. unfold create_all_relations_set. by rewrite (einv_count _ _ Hi). Qed.

(** *** The greedy plan: conditions are all used, or none *)
Definition any_conditions : conditions := λ l r es, es = get_connecting_edge_indices g l r ∨ es = [].
Definition greedy_failed (e : JoinError) : Prop :=
  e = JeInternal "Failed to select next relation in greedy algorithm".
Lemma dp_any pe : dp_inv pe → einv any_conditions pe.
Proof.
  intros []. split; try done. intros s p Hp. eapply plan_ok_mono; [by apply ei_table0| |done].
  intros l r es [-> _]. by left.
Qed.

Definition best_ok (current remaining : JoinSet) (b : Best) : Prop :=
  match bs_next_rel b with
  | None => True
  | Some rel => rel ∈ⱼ remaining ∧ any_conditions current (bit rel) (bs_edges b)
  end.
Lemma best_ok_better current remaining b rel es card cost :
  best_ok current remaining b → rel ∈ⱼ remaining → any_conditions current (bit rel) es →
  best_ok current remaining (better b rel es card cost).
Proof. intros Hb Hr He. unfold better. by case_match. Qed.
Lemma espec_leaf_of E rel pe :
  (rel < n)%nat → leaves_planned pe → espec E (leaf_of rel) pe (λ x pe', pe' = pe ∧ x.1 = bit rel).
Proof.
  intros Hr Hl. unfold leaf_of. pose proof (go_count g Hg). apply espec_bind.
  eapply espec_lift; [apply js_new_singleton_ok; lia|]. apply espec_bind, espec_gets.
  destruct (Hl rel Hr) as [p Hp]. rewrite Hp. done.
Qed.
Lemma espec_fold {A B} E (f : B → A → Enum B) (I : B → Prop) l b pe :
  I b → (∀ b x, x ∈ l → I b → espec E (f b x) pe (λ b' pe', pe' = pe ∧ I b')) →
  espec E (fold_enum f b l) pe (λ b' pe', pe' = pe ∧ I b').
Proof.
  revert b. induction l as [|x l IH]; intros b Hb Hf; [done|]. cbn [fold_enum]. apply espec_bind.
  eapply espec_mono; [apply Hf; [set_solver|done]|done|]. intros b' pe' [-> Hb']. apply IH; set_solver.
Qed.

Section Greedy.
Context (current remaining : JoinSet) (plan : DPPlan) (pe : PlanEnumerator).
Context (Hi : einv any_conditions pe) (Hl : leaves_planned pe) (Hcur : within current).
Context (Hrem : within remaining).

Lemma espec_connected_candidate b rel :
  rel ∈ⱼ remaining → best_ok current remaining b →
  espec greedy_failed (connected_candidate current plan b rel) pe (λ b' pe',
    pe' = pe ∧ best_ok current remaining b').
Proof.
  intros Hr Hb. unfold connected_candidate. apply espec_bind.
  eapply espec_mono; [apply (espec_leaf_of greedy_failed); auto|done|]. intros [s p] pe' [-> Hs]. cbn in Hs. subst s.
  apply espec_bind, espec_gets. rewrite (einv_connecting _ pe) by done.
  destruct (get_connecting_edge_indices g current (bit rel)) as [|j es] eqn:Hes; [done|].
  destruct (estimate_join_returns (pe_cardinality_estimator pe) (dp_cardinality plan) (dp_cardinality p) (j :: es))
    as [card Hcard]; [rewrite <-Hes; by apply (connecting_known any_conditions)|].
  apply espec_bind, espec_run. exists card. split; [done|]. apply espec_ret. split; [done|].
  apply best_ok_better; [done..|]. by left.
Qed.
Lemma espec_cross_candidate b rel :
  rel ∈ⱼ remaining → best_ok current remaining b →
  espec greedy_failed (cross_candidate plan b rel) pe (λ b' pe', pe' = pe ∧ best_ok current remaining b').
Proof.
  intros Hr Hb. unfold cross_candidate. apply espec_bind.
  eapply espec_mono; [apply (espec_leaf_of greedy_failed); auto|done|]. intros [s p] pe' [-> Hs].
  apply espec_ret. split; [done|]. apply best_ok_better; [done..|]. by right.
Qed.
End Greedy.

(** A state with the plan for all relations. *)
Definition solved (K : conditions) (p : DPPlan) (pe : PlanEnumerator) : Prop :=
  einv K pe ∧ pe_dp_table pe !! create_all_relations_set g = Some p.

Lemma espec_choose current remaining plan pe :
  einv any_conditions pe → leaves_planned pe → within current → within remaining →
  espec greedy_failed
    (b ← fold_enum (connected_candidate current plan) best_start (js_iter remaining);
     (match bs_next_rel b with
      | Some _ => mret b
      | None => fold_enum (cross_candidate plan) b (js_iter remaining)
      end : Enum Best)) pe (λ b pe', pe' = pe ∧ best_ok current remaining b).
Proof.
  intros Hi Hl Hcur Hrem. apply espec_bind.
  eapply espec_mono; [apply (espec_fold greedy_failed _ (best_ok current remaining)); [done|]|done|].
  { intros b rel Hr%elem_of_js_iter; [|by apply within_wf]. by apply espec_connected_candidate. }
  intros b pe' [-> Hb]. destruct (bs_next_rel b) eqn:E; [by apply espec_ret|].
  apply (espec_fold greedy_failed _ (best_ok current remaining)); [done|].
  intros b' rel Hr%elem_of_js_iter; [|by apply within_wf]. by apply espec_cross_candidate.
Qed.
Lemma espec_bind_assoc {A B C} E (m : Enum A) (k : A → Enum B) (h : B → Enum C) pe Q :
  espec E ((a ← m; k a) ≫= h) pe Q → espec E (a ← m; b ← k a; h b) pe Q.
Proof. unfold espec, mbind, Enum_bind. by destruct (m pe) as [[[a pe']|e]| |]. Qed.

Lemma espec_greedy_loop fuel current plan remaining pe :
  einv any_conditions pe → leaves_planned pe → within current → current ≠ 0%N →
  pe_dp_table pe !! current = Some plan → (∀ i, i ∈ⱼ remaining ↔ (i < n)%nat ∧ i ∉ⱼ current) →
  (js_cardinality remaining <= fuel)%nat →
  espec greedy_failed (greedy_loop fuel current plan remaining) pe (solved any_conditions).
Proof.
  revert current plan remaining pe.
  induction fuel as [|fuel IH]; intros current plan remaining pe Hi Hl Hcur Hc0 Hp Hrem Hfuel;
    (assert (within remaining) as Hrw by (intros i; naive_solver));
    cbn [greedy_loop]; destruct (N.eqb_spec remaining 0) as [H0|H0].
  1,3: apply espec_ret; split; [done|]; rewrite <-Hp; f_equal; apply js_eq; intros i;
    rewrite all_relations_spec; (split; [|by apply Hcur]); intros Hin; apply dec_stable; intros Hni;
    apply (js_mem_empty i); rewrite <-H0; by apply Hrem.
  { exfalso. apply H0, js_cardinality_zero; [by apply within_wf|lia]. }
  apply espec_bind_assoc, espec_bind.
  eapply espec_mono; [by apply espec_choose|done|]. intros b pe' [-> Hb].
  unfold best_ok in Hb. destruct (bs_next_rel b) as [rel|] eqn:Hrel; [|done].
  destruct Hb as [Hr He]. pose proof (Hrw _ Hr) as Hrn. pose proof (go_count g Hg).
  apply espec_bind. eapply espec_lift; [apply js_new_singleton_ok; lia|]. apply espec_bind.
  set (p := new_join _ _ _ _ _).
  apply Hrem in Hr as [_ Hrc].
  assert (plan_ok any_conditions (<[current ∪ⱼ bit rel := p]> (pe_dp_table pe)) (current ∪ⱼ bit rel) p) as Hpok.
  { eapply join_plan_ok; [done|by apply within_bit|done|apply bit_nonempty| |eauto|by apply Hl|exact He|done].
    apply js_disjoint_spec. by intros i Hi' ->%js_mem_bit. }
  destruct (insert_plan_inv any_conditions pe _ p _ Hi Hpok eq_refl) as (Hi' & Hgr & HT & _).
  cbn [espec insert_plan]. apply IH; [done|by eapply leaves_grows| | | | |].
  - apply within_union; [done|by apply within_bit].
  - apply js_nonempty. exists rel. apply js_mem_union. right. by apply js_mem_bit.
  - rewrite HT. by rewrite lookup_insert_eq.
  - intros i. rewrite js_mem_difference, js_mem_union, Hrem, js_mem_bit. naive_solver.
  - enough (js_cardinality (remaining ∖ⱼ bit rel) < js_cardinality remaining)%nat by lia.
    apply (js_cardinality_subset_lt _ _ rel); [by apply within_wf|..].
    + intros i Hx%js_mem_difference. apply Hx.
    + by apply Hrem.
    + rewrite js_mem_difference, js_mem_bit. naive_solver.
Qed.

Lemma foldl_pick {A} (f : A → A → A) x l :
  (∀ a b, f a b = a ∨ f a b = b) → foldl f x l ∈ x :: l.
Proof.
  intros Hf. revert x. induction l as [|y l IH]; intros x; [set_solver|]. cbn.
  destruct (Hf x y) as [-> | ->]; [|set_solver]. specialize (IH x). set_solver.
Qed.
Lemma max_by_elem {A} (cmp : A → A → comparison) l : l ≠ [] → ∃ x, max_by cmp l = Some x ∧ x ∈ l.
Proof.
  destruct l as [|x l]; [done|]. intros _. eexists. split; [done|].
  apply foldl_pick. intros a b. destruct (cmp a b); auto.
Qed.

Lemma espec_solve_greedy pe :
  einv any_conditions pe → (0 < n)%nat →
  espec greedy_failed solve_greedy pe (solved any_conditions).
Proof.
  intros Hi Hn. pose proof (go_count g Hg). unfold solve_greedy. apply espec_bind, espec_gets.
  rewrite (einv_count _ _ Hi), (einv_all _ _ Hi), (ei_relations _ _ Hi).
  destruct (Nat.eqb_spec n 0) as [|_]; [lia|]. apply espec_bind.
  eapply espec_mono; [by apply (espec_ensure_leaves any_conditions greedy_failed)|done|].
  intros _ pe1 (Hi1 & _ & Hl). apply espec_bind, espec_gets.
  destruct (pe_dp_table pe1 !! create_all_relations_set g) as [p|] eqn:Hfull; [by apply espec_ret|].
  destruct (Nat.eqb_spec n 1) as [H1|H1].
  { destruct (Hl 0%nat Hn) as [p Hp]. replace (bit 0) with (create_all_relations_set g) in Hp; [congruence|].
    apply js_eq. intros i. rewrite all_relations_spec, js_mem_bit. lia. }
  unfold greedy_start. rewrite (ei_relations _ _ Hi).
  destruct (max_by_elem (λ l r, f64_total_cmp (rn_initial_cardinality l) (rn_initial_cardinality r))
    (qg_relations g)) as (r & -> & Hr).
  { intros Heq. unfold relation_count in Hn. rewrite Heq in Hn. cbn in Hn. lia. }
  apply list_elem_of_lookup in Hr as [i Hr]. rewrite (go_ids g Hg i r Hr).
  apply lookup_lt_Some in Hr. change (i < n)%nat in Hr.
  apply espec_bind. eapply espec_lift; [done|]. apply espec_bind.
  eapply espec_lift; [apply js_new_singleton_ok; lia|]. apply espec_bind, espec_gets.
  destruct (Hl i Hr) as [p Hp]. rewrite Hp.
  apply espec_greedy_loop; [done|done|by apply within_bit|apply bit_nonempty|done| |].
  - intros j. by rewrite js_mem_difference, all_relations_spec.
  - apply js_cardinality_le, js_wf_difference, within_wf, all_relations_within.
Qed.

Lemma enumerator_new_inv : dp_inv (enumerator_new g).
Proof.
  unfold enumerator_new, estimator_new. destruct (derive_anchor_relations g).
  destruct (init_equivalence_sets g _). split; cbn; try done. apply Hg.
Qed.

(** A graph the enumeration covers: few relations, connected by conditions between two. *)
Record connected_graph : Prop := {
  cg_count : (0 < n < 10)%nat;
  cg_binary : binary;
  cg_connected : connected (create_all_relations_set g)
}.
Definition solve_post (o : option DPPlan) (pe : PlanEnumerator) : Prop :=
  match o with
  | Some p => solved any_conditions p pe ∧ (connected_graph → solved dp_conditions p pe)
  | None => dp_inv pe ∧ (EMIT_THRESHOLD <= pe_emit_count pe)%N
  end.

Definition solve_error (e : JoinError) : Prop := greedy_failed e ∧ ¬ connected_graph.
Lemma espec_solve pe : dp_inv pe → (0 < n)%nat → espec solve_error solve pe solve_post.
Proof.
  intros Hi Hn. unfold solve. apply espec_bind, espec_gets. rewrite (einv_count _ _ Hi).
  destruct (Nat.eqb_spec n 0) as [|_]; [lia|]. apply espec_bind.
  eapply espec_mono; [by apply (espec_init_leaves dp_conditions solve_error)|done|].
  intros _ pe1 (Hi1 & _ & Hl). apply espec_bind.
  eapply espec_mono; [by apply espec_dphyp|done|]. intros completed pe2 (Hi2 & Hgr & Hf & Ht).
  apply espec_bind, espec_gets. rewrite (einv_all _ _ Hi2).
  destruct (pe_dp_table pe2 !! create_all_relations_set g) as [p|] eqn:Hfull.
  { apply espec_ret. split; [split; [by apply dp_any|done]|]. by intros _. }
  destruct completed; [|apply espec_ret; split; [done|by apply Hf]].
  assert (¬ connected_graph) as Hcg.
  { intros Hcg.
    destruct (Ht eq_refl ltac:(apply Hcg) ltac:(apply Hcg) Hl (create_all_relations_set g)) as [p' Hp'].
    - apply all_relations_within.
    - apply Hcg.
    - apply js_nonempty. exists 0%nat. by apply all_relations_spec.
    - congruence. }
  apply espec_bind. eapply espec_mono; [apply espec_solve_greedy; [by apply dp_any|done]|by split|].
  intros p pe3 Hs. apply espec_ret. by split.
Qed.
Lemma espec_best_plan pe :
  dp_inv pe → (0 < n)%nat → espec greedy_failed best_plan pe (solved any_conditions).
Proof.
  intros Hi Hn. unfold best_plan. apply espec_bind.
  eapply espec_mono; [by apply espec_solve|by intros e []|]. intros [p|] pe1 Hp.
  - apply espec_ret, Hp.
  - apply espec_solve_greedy; [|done]. apply dp_any, Hp.
Qed.

(** ** The join tree of a plan

    The joins of a plan are read from the table, where the plans of its two sides are. *)
Inductive JoinTree :=
| TreeLeaf (relation : nat)
| TreeJoin (left right : JoinTree) (edges : list nat).
Fixpoint plan_tree (fuel : nat) (T : gmap JoinSet DPPlan) (p : DPPlan) : option JoinTree :=
  match fuel with
  | O => None
  | S fuel =>
      match dp_plan_type p with
      | PlanLeaf r => Some (TreeLeaf r)
      | PlanJoin l r es =>
          lp ← T !! l; rp ← T !! r; lt ← plan_tree fuel T lp; rt ← plan_tree fuel T rp;
          Some (TreeJoin lt rt es)
      end
  end.
Fixpoint tree_leaves (t : JoinTree) : list nat :=
  match t with TreeLeaf r => [r] | TreeJoin l r _ => tree_leaves l ++ tree_leaves r end.
Fixpoint tree_edges (t : JoinTree) : list nat :=
  match t with TreeLeaf _ => [] | TreeJoin l r es => es ++ tree_edges l ++ tree_edges r end.
(** Every join uses a condition. *)
Fixpoint tree_no_cross (t : JoinTree) : Prop :=
  match t with TreeLeaf _ => True | TreeJoin l r es => es ≠ [] ∧ tree_no_cross l ∧ tree_no_cross r end.

Inductive tree_of (K : conditions) : JoinSet → JoinTree → Prop :=
| tree_of_leaf r : (r < n)%nat → tree_of K (bit r) (TreeLeaf r)
| tree_of_join sl sr l r es :
    within sl → within sr → js_is_disjoint sl sr = true → tree_of K sl l → tree_of K sr r → K sl sr es →
    tree_of K (sl ∪ⱼ sr) (TreeJoin l r es).

Lemma union_card_lt l r :
  within l → within r → l ≠ 0%N → r ≠ 0%N → js_is_disjoint l r = true →
  (js_cardinality l < js_cardinality (l ∪ⱼ r))%nat ∧ (js_cardinality r < js_cardinality (l ∪ⱼ r))%nat.
Proof.
  intros Hl Hr [i Hi]%js_nonempty [j Hj]%js_nonempty Hd. rewrite js_disjoint_spec in Hd.
  assert (js_wf (l ∪ⱼ r)) by (by apply within_wf, within_union).
  split; [apply (js_cardinality_subset_lt _ _ j)|apply (js_cardinality_subset_lt _ _ i)]; try done;
    rewrite ?js_mem_union; auto; try (intros k; rewrite js_mem_union; auto); naive_solver.
Qed.
Lemma plan_tree_of K T fuel s p :
  table_ok K T → T !! s = Some p → (js_cardinality s <= fuel)%nat →
  ∃ t, plan_tree fuel T p = Some t ∧ tree_of K s t.
Proof.
  intros HT. revert s p. induction fuel as [|fuel IH]; intros s p Hp Hc.
  - destruct (plan_ok_within _ _ _ _ (HT s p Hp)) as [Hw Hs0]. destruct Hs0.
    apply js_cardinality_zero; [by apply within_wf|lia].
  - pose proof (HT s p Hp) as [_ Hpt]. cbn [plan_tree]. destruct (dp_plan_type p) as [r|l r es].
    + destruct Hpt as [Hr ->]. eexists. split; [done|by constructor].
    + destruct Hpt as (Hl & Hr & Hl0 & Hr0 & Hd & -> & [lp Hlp] & [rp Hrp] & HK).
      destruct (union_card_lt l r Hl Hr Hl0 Hr0 Hd).
      destruct (IH l lp Hlp ltac:(lia)) as (lt & Hlt & Hlo).
      destruct (IH r rp Hrp ltac:(lia)) as (rt & Hrt & Hro).
      rewrite Hlp, Hrp. cbn. rewrite Hlt. cbn. rewrite Hrt. cbn. eexists. split; [done|by constructor].
Qed.

Lemma tree_leaves_perm K s t : tree_of K s t → js_wf s → tree_leaves t ≡ₚ js_iter s.
Proof.
  intros Ht _. enough (NoDup (tree_leaves t) ∧ (∀ i, i ∈ tree_leaves t ↔ i ∈ⱼ s) ∧ js_wf s) as (Hnd & Hm & Hwf).
  { apply NoDup_Permutation; [done|by apply js_iter_nodup|]. intros i. by rewrite Hm, elem_of_js_iter. }
  pose proof (go_count g Hg).
  induction Ht as [r Hr|sl sr l r es Hwl Hwr Hd _ (IHl1 & IHl2 & IHl3) _ (IHr1 & IHr2 & IHr3) _]; cbn.
  - split_and!; [apply NoDup_singleton| |apply js_wf_bit; lia]. intros i. rewrite js_mem_bit. set_solver.
  - rewrite js_disjoint_spec in Hd. split_and!; [|intros i; by rewrite elem_of_app, IHl2, IHr2, js_mem_union|
      by apply js_wf_union]. apply NoDup_app. split_and!; [done| |done].
    intros i Hi Hj. rewrite IHl2 in Hi. rewrite IHr2 in Hj. by apply (Hd i).
Qed.

(** The conditions of a tree: each once, all within the relations of the tree. *)
Lemma any_conditions_elem l r es j :
  any_conditions l r es → j ∈ es → j ∈ get_connecting_edge_indices g l r.
Proof. intros [-> | ->]; set_solver. Qed.
Lemma dp_any_conditions l r es : dp_conditions l r es → any_conditions l r es.
Proof. intros [-> _]. by left. Qed.
Lemma tree_of_any s t : tree_of dp_conditions s t → tree_of any_conditions s t.
Proof. induction 1; constructor; auto using dp_any_conditions. Qed.
Lemma connecting_edge l r j :
  within l → j ∈ get_connecting_edge_indices g l r →
  ∃ e, qg_edges g !! j = Some e ∧ (∀ x, x ∈ⱼ je_join_set e → x ∈ⱼ l ∪ⱼ r) ∧
    (∃ x, x ∈ⱼ je_join_set e ∧ x ∈ⱼ l) ∧ ∃ x, x ∈ⱼ je_join_set e ∧ x ∈ⱼ r.
Proof.
  intros Hl [_ Hc]%elem_of_connecting; [|apply Hg|by apply within_wf].
  apply edge_connects_spec in Hc as (e & He & Hsub & Hp & Hq). exists e. split_and!; [done| |done|done].
  intros x Hx. apply js_mem_union. auto.
Qed.
Lemma tree_edges_within s t j :
  tree_of any_conditions s t → j ∈ tree_edges t →
  ∃ e, qg_edges g !! j = Some e ∧ (∃ x, x ∈ⱼ je_join_set e) ∧ ∀ x, x ∈ⱼ je_join_set e → x ∈ⱼ s.
Proof.
  induction 1 as [r Hr|sl sr l r es Hwl Hwr Hd Hl IHl Hr IHr HK]; cbn; [set_solver|].
  rewrite !elem_of_app. intros [Hj|[Hj|Hj]].
  - apply (any_conditions_elem _ _ _ _ HK), connecting_edge in Hj as (e & He & Hsub & (x & Hx & _) & _); [|done].
    eauto.
  - destruct (IHl Hj) as (e & He & Hne & Hsub). exists e. split_and!; [done..|]. intros x Hx.
    apply js_mem_union. auto.
  - destruct (IHr Hj) as (e & He & Hne & Hsub). exists e. split_and!; [done..|]. intros x Hx.
    apply js_mem_union. auto.
Qed.
Lemma tree_edges_nodup s t : tree_of any_conditions s t → NoDup (tree_edges t).
Proof.
  induction 1 as [r Hr|sl sr l r es Hwl Hwr Hd Hl IHl Hr IHr HK]; cbn; [constructor|].
  rewrite js_disjoint_spec in Hd.
  assert (∀ j, j ∈ es → ∃ e x y, qg_edges g !! j = Some e ∧ x ∈ⱼ je_join_set e ∧ x ∈ⱼ sl ∧
    y ∈ⱼ je_join_set e ∧ y ∈ⱼ sr) as Hes.
  { intros j Hj. apply (any_conditions_elem _ _ _ _ HK), connecting_edge in Hj as (e & He & _ & (x & ? & ?) & y & ? & ?);
      [|done]. exists e, x, y. done. }
  apply NoDup_app. split_and!.
  - destruct HK as [-> | ->]; [apply connecting_nodup|constructor].
  - intros j Hj. destruct (Hes j Hj) as (e & x & y & He & Hxe & Hx & Hye & Hy). rewrite elem_of_app. intros [Hin|Hin].
    + destruct (tree_edges_within _ _ _ Hl Hin) as (e' & He' & _ & Hsub). simplify_eq. apply (Hd y); auto.
    + destruct (tree_edges_within _ _ _ Hr Hin) as (e' & He' & _ & Hsub). simplify_eq. apply (Hd x); auto.
  - apply NoDup_app. split_and!; [done| |done]. intros j Hj Hj'.
    destruct (tree_edges_within _ _ _ Hl Hj) as (e & He & [x Hx] & Hsub).
    destruct (tree_edges_within _ _ _ Hr Hj') as (e' & He' & _ & Hsub'). simplify_eq. apply (Hd x); auto.
Qed.
(** With the conditions of the enumeration, all of them. *)
Lemma tree_edges_complete s t j e a b :
  tree_of dp_conditions s t → qg_edges g !! j = Some e → a ≠ b → a ∈ⱼ je_join_set e → b ∈ⱼ je_join_set e →
  (∀ x, x ∈ⱼ je_join_set e → x ∈ⱼ s) → j ∈ tree_edges t.
Proof.
  intros Ht He Hab Ha Hb. induction Ht as [r Hr|sl sr l r es Hwl Hwr Hd Hl IHl Hr IHr HK]; cbn; intros Hsub.
  { apply Hsub in Ha, Hb. rewrite js_mem_bit in Ha, Hb. congruence. }
  rewrite !elem_of_app. setoid_rewrite js_mem_union in Hsub.
  destruct (js_is_disjoint (je_join_set e) sl) eqn:El.
  { right. right. apply IHr. intros x Hx. rewrite js_disjoint_spec in El. specialize (El x Hx). naive_solver. }
  destruct (js_is_disjoint (je_join_set e) sr) eqn:Er.
  { right. left. apply IHl. intros x Hx. rewrite js_disjoint_spec in Er. specialize (Er x Hx). naive_solver. }
  left. destruct HK as [-> _]. apply elem_of_connecting; [apply Hg|by apply within_wf|]. split; [done|].
  apply js_not_disjoint_spec in El, Er. apply edge_connects_spec. exists e. done.
Qed.
Lemma tree_of_no_cross s t : tree_of dp_conditions s t → tree_no_cross t.
Proof. induction 1 as [|sl sr l r es Hwl Hwr Hd Hl IHl Hr IHr HK]; cbn; [done|]. split_and!; auto. apply HK. Qed.

Lemma solved_tree K p pe :
  solved K p pe →
  ∃ t, plan_tree 64 (pe_dp_table pe) p = Some t ∧ tree_of K (create_all_relations_set g) t ∧
    tree_leaves t ≡ₚ seq 0 n.
Proof.
  intros [Hi Hp]. pose proof (within_wf _ all_relations_within) as Hwf.
  destruct (plan_tree_of K (pe_dp_table pe) 64 (create_all_relations_set g) p) as (t & Ht & Hto);
    [apply Hi|done|by apply js_cardinality_le|].
  exists t. split_and!; [done..|]. rewrite (tree_leaves_perm _ _ _ Hto Hwf).
  apply NoDup_Permutation; [by apply js_iter_nodup|apply NoDup_seq|].
  intros i. rewrite elem_of_js_iter by done. rewrite all_relations_spec, elem_of_seq. lia.
Qed.
Lemma solved_edges p pe t :
  connected_graph → solved dp_conditions p pe → tree_of dp_conditions (create_all_relations_set g) t →
  tree_edges t ≡ₚ seq 0 (length (qg_edges g)).
Proof.
  intros Hcg _ Ht. apply NoDup_Permutation; [by eapply tree_edges_nodup, tree_of_any|apply NoDup_seq|].
  intros j. rewrite elem_of_seq. split.
  - intros (e & He & _)%(tree_edges_within _ _ _ (tree_of_any _ _ Ht)). apply lookup_lt_Some in He. lia.
  - intros Hj. destruct (lookup_lt_is_Some_2 (qg_edges g) j) as [e He]; [lia|].
    destruct (cg_binary Hcg j e He) as (a & b & Hab & Hset).
    apply (tree_edges_complete _ _ _ e a b Ht He Hab); [rewrite Hset, js_mem_union, !js_mem_bit; auto..|].
    intros x Hx. apply all_relations_spec. by eapply (go_edges g Hg).
Qed.
End Ok.

(** ** Classes of join columns ([cardinality_estimator.rs]) *)
Section Classes.
Context `{HO : HashOrder}.

Definition same_set (sets : list EquivalenceSet) (a b : StableColumn) : Prop :=
  ∃ i s, sets !! i = Some s ∧ a ∈ eq_columns s ∧ b ∈ eq_columns s.
Definition partition (sets : list EquivalenceSet) : Prop :=
  ∀ i j s t c, sets !! i = Some s → sets !! j = Some t → c ∈ eq_columns s → c ∈ eq_columns t → i = j.

Lemma find_set_spec sets c :
  match find_set sets c with
  | Some i => ∃ s, sets !! i = Some s ∧ c ∈ eq_columns s
  | None => ∀ i s, sets !! i = Some s → c ∉ eq_columns s
  end.
Proof.
  unfold find_set. induction sets as [|s sets IH] using rev_ind; [done|].
  rewrite imap_app, foldl_app. cbn. unfold equivalence_contains at 1. case_bool_decide as Hc.
  - exists s. rewrite Nat.add_0_r. split; [|done]. by rewrite lookup_app_r, Nat.sub_diag.
  - destruct (foldl _ None _) as [i|].
    + destruct IH as (t & Ht & Hct). exists t. split; [by apply lookup_app_l_Some|done].
    + intros i t [Ht|[_ Ht]]%lookup_app_Some; [by eapply IH|].
      by apply list_lookup_singleton_Some in Ht as [_ <-].
Qed.
Lemma eq_add_columns_spec s l c : c ∈ eq_columns (foldl eq_add_column s l) ↔ c ∈ eq_columns s ∨ c ∈ l.
Proof. revert s. induction l as [|x l IH]; intros s; cbn; [set_solver|]. rewrite IH. cbn. set_solver. Qed.

(** Sets after a change of one of them. *)
Lemma partition_alter sets i s f (extra : StableColumn → Prop) :
  partition sets → sets !! i = Some s → (∀ c, c ∈ eq_columns (f s) ↔ c ∈ eq_columns s ∨ extra c) →
  (∀ c j t, extra c → sets !! j = Some t → c ∈ eq_columns t → j = i) →
  partition (alter f i sets) ∧
  ∀ a b, same_set (alter f i sets) a b ↔
    same_set sets a b ∨ ((a ∈ eq_columns s ∨ extra a) ∧ (b ∈ eq_columns s ∨ extra b)).
Proof.
  intros Hp Hs Hf Hx.
  assert (∀ j t, alter f i sets !! j = Some t ↔ (j = i ∧ t = f s) ∨ (j ≠ i ∧ sets !! j = Some t)) as Hl.
  { intros j t. destruct (decide (j = i)) as [->|Hne].
    - rewrite list_lookup_alter_eq, Hs. naive_solver.
    - rewrite list_lookup_alter_ne by done. naive_solver. }
  split.
  - intros j k t u c. rewrite !Hl. intros [[-> ->]|[Hj Ht]] [[-> ->]|[Hk Hu]]; rewrite ?Hf; [done|..].
    + intros [Hc|Hc] Hcu; [by eapply Hp|by symmetry; eapply Hx].
    + intros Hct [Hc|Hc]; [by eapply Hp|by eapply Hx].
    + by eapply Hp.
  - intros a b. split.
    + intros (j & t & Ht & Ha & Hb). apply Hl in Ht as [[-> ->]|[Hne Ht]].
      * right. by rewrite <-!Hf.
      * left. by exists j, t.
    + intros [(j & t & Ht & Ha & Hb)|[Ha Hb]].
      * destruct (decide (j = i)) as [->|Hne].
        { simplify_eq. exists i, (f s). split_and!; [by apply Hl; left|apply Hf; by left..]. }
        { exists j, t. split_and!; [by apply Hl; right|done..]. }
      * exists i, (f s). split_and!; [by apply Hl; left|by apply Hf..].
Qed.
Lemma partition_delete sets k m :
  partition sets → sets !! k = Some m →
  partition (delete k sets) ∧
  (∀ j t c, delete k sets !! j = Some t → c ∈ eq_columns t → c ∉ eq_columns m) ∧
  ∀ a b, same_set sets a b ↔ same_set (delete k sets) a b ∨ (a ∈ eq_columns m ∧ b ∈ eq_columns m).
Proof.
  intros Hp Hm. set (old j := if decide (j < k)%nat then j else S j).
  assert (∀ j, delete k sets !! j = sets !! old j) as Hl.
  { intros j. unfold old. case_decide; [by apply list_lookup_delete_lt|apply list_lookup_delete_ge; lia]. }
  assert (∀ j, old j ≠ k) as Hne by (intros j; unfold old; case_decide; lia).
  assert (∀ i j, old i = old j → i = j) as Hinj by (intros i j; unfold old; repeat case_decide; lia).
  split_and!.
  - intros i j s t c. rewrite !Hl. intros ????. by eapply Hinj, Hp.
  - intros j t c. rewrite Hl. intros Ht Hc Hcm. by apply (Hne j), (Hp _ _ t m c).
  - intros a b. split.
    + intros (i & s & Hs & Ha & Hb). destruct (decide (i = k)) as [->|Hik]; [right; by simplify_eq|].
      left. exists (if decide (i < k)%nat then i else pred i), s. split_and!; [|done..].
      rewrite Hl, <-Hs. f_equal. unfold old. repeat case_decide; lia.
    + intros [(i & s & Hs & Ha & Hb)|[Ha Hb]]; [|by exists k, m]. rewrite Hl in Hs. by exists (old i), s.
Qed.

Definition touches (sets : list EquivalenceSet) (col1 col2 a : StableColumn) : Prop :=
  a = col1 ∨ a = col2 ∨ same_set sets a col1 ∨ same_set sets a col2.
Lemma same_set_of sets i s c a :
  partition sets → sets !! i = Some s → c ∈ eq_columns s → same_set sets a c ↔ a ∈ eq_columns s.
Proof.
  intros Hp Hs Hc. split; [|by exists i, s]. intros (j & t & Ht & Ha & Hct).
  assert (j = i) as -> by (by eapply Hp). by simplify_eq.
Qed.
Lemma same_set_none sets c a :
  (∀ i s, sets !! i = Some s → c ∉ eq_columns s) → ¬ same_set sets a c.
Proof. intros H (i & s & Hs & _ & Hc). by eapply H. Qed.

Lemma merge_two_sets sets i1 i2 s1 s2 :
  partition sets → i1 ≠ i2 → sets !! i1 = Some s1 → sets !! i2 = Some s2 →
  ∃ lg, sets !! Nat.max i1 i2 = Some lg ∧
    let sets' := alter (λ s, foldl eq_add_column s (hash_order (elements (eq_columns lg)))) (Nat.min i1 i2)
      (delete (Nat.max i1 i2) sets) in
    partition sets' ∧
    ∀ a b, same_set sets' a b ↔ same_set sets a b ∨
      ((a ∈ eq_columns s1 ∨ a ∈ eq_columns s2) ∧ (b ∈ eq_columns s1 ∨ b ∈ eq_columns s2)).
Proof.
  intros Hp Hne Hs1 Hs2.
  assert (∃ sm lg, sets !! Nat.min i1 i2 = Some sm ∧ sets !! Nat.max i1 i2 = Some lg ∧
    ∀ c, c ∈ eq_columns sm ∨ c ∈ eq_columns lg ↔ c ∈ eq_columns s1 ∨ c ∈ eq_columns s2)
    as (sm & lg & Hsm & Hlg & Hu).
  { destruct (Nat.lt_ge_cases i1 i2).
    - exists s1, s2. rewrite Nat.min_l, Nat.max_r by lia. done.
    - exists s2, s1. rewrite Nat.min_r, Nat.max_l by lia. split_and!; [done..|]. tauto. }
  exists lg. split; [done|]. intros sets'.
  destruct (partition_delete sets (Nat.max i1 i2) lg Hp Hlg) as (Hpd & Hdis & Hsame).
  destruct (partition_alter (delete (Nat.max i1 i2) sets) (Nat.min i1 i2) sm
    (λ s, foldl eq_add_column s (hash_order (elements (eq_columns lg)))) (λ c, c ∈ eq_columns lg))
    as [Hpa Hsa]; [done|rewrite list_lookup_delete_lt by lia; done| | |].
  { intros c. rewrite eq_add_columns_spec, elem_of_hash_order, elem_of_elements. done. }
  { intros c j t Hc Ht Hct. by destruct (Hdis j t c Ht Hct). }
  split; [done|]. intros a b. unfold sets'. rewrite Hsa, Hsame, !Hu. pose proof (Hu a). pose proof (Hu b). tauto.
Qed.
Lemma merge_fresh sets col1 col2 :
  partition sets → (∀ i s, sets !! i = Some s → col1 ∉ eq_columns s) →
  (∀ i s, sets !! i = Some s → col2 ∉ eq_columns s) →
  let sets' := sets ++ [eq_add_column (eq_add_column equivalence_set_new col1) col2] in
  partition sets' ∧
  ∀ a b, same_set sets' a b ↔ same_set sets a b ∨ ((a = col1 ∨ a = col2) ∧ (b = col1 ∨ b = col2)).
Proof.
  intros Hp H1 H2. set (ns := eq_add_column (eq_add_column equivalence_set_new col1) col2). intros sets'.
  assert (∀ c, c ∈ eq_columns ns ↔ c = col1 ∨ c = col2) as Hns by (intros c; cbn; set_solver).
  assert (∀ c, c ∈ eq_columns ns → ∀ i s, sets !! i = Some s → c ∉ eq_columns s) as Hfresh.
  { intros c [-> | ->]%Hns; eauto. }
  split.
  - intros i j s t c [Hi|[Hi Hi']]%lookup_app_Some [Hj|[Hj Hj']]%lookup_app_Some Hcs Hct.
    + by eapply Hp.
    + apply list_lookup_singleton_Some in Hj' as [_ <-]. by destruct (Hfresh c Hct i s Hi).
    + apply list_lookup_singleton_Some in Hi' as [_ <-]. by destruct (Hfresh c Hcs j t Hj).
    + apply list_lookup_singleton_Some in Hi' as [Hi' _], Hj' as [Hj' _]. lia.
  - intros a b. split.
    + intros (i & s & [Hs|[_ Hs]]%lookup_app_Some & Ha & Hb); [left; by exists i, s|].
      apply list_lookup_singleton_Some in Hs as [_ <-]. right. by rewrite <-!Hns.
    + intros [(i & s & Hs & Ha & Hb)|[Ha Hb]].
      * exists i, s. split_and!; [by apply lookup_app_l_Some|done..].
      * exists (length sets), ns. unfold sets'. rewrite lookup_app_r, Nat.sub_diag, !Hns by done. done.
Qed.

(** Merging two columns joins the sets of the two, and no others. *)
Lemma merge_columns_spec sets col1 col2 :
  partition sets →
  partition (merge_columns_into_sets sets col1 col2) ∧
  ∀ a b, same_set (merge_columns_into_sets sets col1 col2) a b ↔
    same_set sets a b ∨ (touches sets col1 col2 a ∧ touches sets col1 col2 b).
Proof.
  intros Hp. unfold merge_columns_into_sets, touches.
  pose proof (find_set_spec sets col1) as H1. pose proof (find_set_spec sets col2) as H2.
  destruct (find_set sets col1) as [i1|], (find_set sets col2) as [i2|].
  - destruct H1 as (s1 & Hs1 & Hc1), H2 as (s2 & Hs2 & Hc2).
    pose proof (λ a, same_set_of sets i1 s1 col1 a Hp Hs1 Hc1) as E1.
    pose proof (λ a, same_set_of sets i2 s2 col2 a Hp Hs2 Hc2) as E2.
    assert (∀ c, (c = col1 ∨ c = col2 ∨ same_set sets c col1 ∨ same_set sets c col2) ↔
      (c ∈ eq_columns s1 ∨ c ∈ eq_columns s2)) as Hmem.
    { intros c. rewrite E1, E2. split; [intros [->|[->|?]]; auto|auto]. }
    setoid_rewrite Hmem. destruct (Nat.eqb_spec i1 i2) as [->|Hne].
    + assert (s2 = s1) as -> by congruence. split; [done|]. intros a b. split; [by left|].
      intros [Hs|[Ha Hb]]; [done|]. exists i2, s1. tauto.
    + destruct (merge_two_sets sets i1 i2 s1 s2 Hp Hne Hs1 Hs2) as (lg & -> & Hm). done.
  - destruct H1 as (s1 & Hs1 & Hc1). pose proof (λ a, same_set_of sets i1 s1 col1 a Hp Hs1 Hc1) as E1.
    destruct (partition_alter sets i1 s1 (λ s, eq_add_column s col2) (λ c, c = col2)) as [Hpa Hsa];
      [done|done|cbn; set_solver|intros c j t -> Ht Hct; by destruct (H2 j t Ht)|].
    split; [done|]. intros a b. rewrite Hsa, !E1. pose proof (same_set_none sets col2 a H2).
    pose proof (same_set_none sets col2 b H2). assert (∀ c, c = col1 → c ∈ eq_columns s1) as Hc by (by intros ? ->).
    pose proof (Hc a). pose proof (Hc b). tauto.
  - destruct H2 as (s2 & Hs2 & Hc2). pose proof (λ a, same_set_of sets i2 s2 col2 a Hp Hs2 Hc2) as E2.
    destruct (partition_alter sets i2 s2 (λ s, eq_add_column s col1) (λ c, c = col1)) as [Hpa Hsa];
      [done|done|cbn; set_solver|intros c j t -> Ht Hct; by destruct (H1 j t Ht)|].
    split; [done|]. intros a b. rewrite Hsa, !E2. pose proof (same_set_none sets col1 a H1).
    pose proof (same_set_none sets col1 b H1). assert (∀ c, c = col2 → c ∈ eq_columns s2) as Hc by (by intros ? ->).
    pose proof (Hc a). pose proof (Hc b). tauto.
  - destruct (merge_fresh sets col1 col2 Hp H1 H2) as [Hpm Hsm]. split; [done|]. intros a b. rewrite Hsm.
    pose proof (same_set_none sets col1 a H1). pose proof (same_set_none sets col1 b H1).
    pose proof (same_set_none sets col2 a H2). pose proof (same_set_none sets col2 b H2). tauto.
Qed.

(** Columns that the equalities of the conditions chain together. *)
Definition linked (pairs : list (StableColumn * StableColumn)) : relation StableColumn :=
  rtsc (λ a b, (a, b) ∈ pairs).
Definition mentioned (pairs : list (StableColumn * StableColumn)) (a : StableColumn) : Prop :=
  ∃ p, p ∈ pairs ∧ (a = p.1 ∨ a = p.2).

Lemma linked_mentioned pairs a b : linked pairs a b → a ≠ b → mentioned pairs a ∧ mentioned pairs b.
Proof.
  assert (∀ a b, linked pairs a b → a ≠ b → mentioned pairs a) as H.
  { intros c d Hl Hne. destruct Hl as [|x y z Hxy _]; [done|].
    destruct Hxy as [H|H]; eexists; (split; [exact H|]); auto. }
  intros Hl Hne. split; [by eapply H|]. apply (H b a); [|done]. by apply symmetry.
Qed.
Lemma linked_app pairs c1 c2 a b :
  linked (pairs ++ [(c1, c2)]) a b ↔
  linked pairs a b ∨ ((linked pairs a c1 ∨ linked pairs a c2) ∧ (linked pairs b c1 ∨ linked pairs b c2)).
Proof.
  unfold linked. set (R := λ a b, (a, b) ∈ pairs). set (R' := λ a b, (a, b) ∈ pairs ++ [(c1, c2)]).
  assert (∀ x y, rtsc R x y → rtsc R' x y) as Hmono.
  { intros x y. apply rtc_subrel. intros u v [H|H]; [left|right]; unfold R, R' in *; set_solver. }
  assert (rtsc R' c1 c2) as H12 by (apply rtc_once; left; unfold R'; set_solver).
  assert (∀ x y, rtsc R' x y → rtsc R' y x) as Hsym by (intros; by symmetry).
  split.
  - induction 1 as [x|x y z Hxy _ IH]; [by left|].
    assert (rtsc R x y ∨ ((x = c1 ∨ x = c2) ∧ (y = c1 ∨ y = c2))) as [Hr|[Hx Hy]].
    { destruct Hxy as [H|H]; unfold R' in H; apply elem_of_app in H as [H|H];
        try (left; apply rtc_once; (by left) || (by right)); right; set_solver. }
    + destruct IH as [IH|[[IH|IH] Hz]]; [left; by etrans|right; split; [left; by etrans|done]|
        right; split; [right; by etrans|done]].
    + right. split; [destruct Hx as [-> | ->]; auto|].
      * left. reflexivity.
      * right. reflexivity.
      * destruct IH as [IH|[_ Hz]]; [|done]. destruct Hy as [-> | ->]; [left|right]; by symmetry.
  - intros [H|[[Ha|Ha] [Hb|Hb]]]; [by apply Hmono|..]; apply Hmono in Ha, Hb.
    + etrans; [exact Ha|by symmetry].
    + etrans; [exact Ha|]. etrans; [exact H12|by symmetry].
    + etrans; [exact Ha|]. etrans; [symmetry; exact H12|by symmetry].
    + etrans; [exact Ha|by symmetry].
Qed.

(** The sets of a list of equalities are its classes. *)
Lemma merge_all_spec pairs :
  let sets := foldl (λ sets '(l, r), merge_columns_into_sets sets l r) [] pairs in
  partition sets ∧ ∀ a b, same_set sets a b ↔ mentioned pairs a ∧ mentioned pairs b ∧ linked pairs a b.
Proof.
  induction pairs as [|[c1 c2] pairs [Hp Hs]] using rev_ind; intros sets; unfold sets; clear sets.
  { split; [done|]. intros a b. split; [by intros (i & s & Hi & _)|].
    intros [(p & Hp & _) _]. set_solver. }
  rewrite foldl_app. cbn [foldl]. set (sets := foldl _ [] pairs) in *.
  destruct (merge_columns_spec sets c1 c2 Hp) as [Hp' Hs']. split; [done|]. intros a b.
  rewrite Hs', Hs, linked_app. unfold touches. rewrite !Hs.
  assert (∀ c, mentioned (pairs ++ [(c1, c2)]) c ↔ mentioned pairs c ∨ c = c1 ∨ c = c2) as Hm.
  { intros c. unfold mentioned. split.
    - intros (p & [Hin| ->%list_elem_of_singleton]%elem_of_app & Hc); [left; eauto|by right].
    - intros [(p & Hin & Hc)|Hc]; [exists p; set_solver|exists (c1, c2); set_solver]. }
  rewrite !Hm.
  assert (∀ c, (c = c1 ∨ c = c2 ∨ (mentioned pairs c ∧ mentioned pairs c1 ∧ linked pairs c c1) ∨
      (mentioned pairs c ∧ mentioned pairs c2 ∧ linked pairs c c2)) ↔
    (mentioned pairs c ∨ c = c1 ∨ c = c2) ∧ (linked pairs c c1 ∨ linked pairs c c2)) as Ht.
  { intros c. pose proof (linked_mentioned pairs c c1). pose proof (linked_mentioned pairs c c2).
    assert (linked pairs c1 c1 ∧ linked pairs c2 c2) by (split; reflexivity).
    destruct (decide (c = c1)) as [->|]; [tauto|]. destruct (decide (c = c2)) as [->|]; tauto. }
  rewrite !Ht. pose proof (linked_mentioned pairs a b).
  destruct (decide (a = b)) as [->|]; [|tauto].
  assert (linked pairs c1 c1 ∧ linked pairs c2 c2 ∧ linked pairs b b) by (split_and!; reflexivity).
  split; [tauto|]. intros ([Hb| [-> | ->]] & _ & _); tauto.
Qed.

(** The classes the estimator starts from. *)
Lemma columns_of_tdom `{JE : JoinEngine} (g : QueryGraph) counts s :
  eq_columns (estimate_tdom_for_set g counts s) = eq_columns s.
Proof. unfold estimate_tdom_for_set. by destruct (foldl _ _ _) as [[? ?] ?]. Qed.
Lemma partition_columns sets sets' :
  eq_columns <$> sets = eq_columns <$> sets' → partition sets → partition sets'.
Proof.
  intros Heq Hp i j s t c Hi Hj Hs Ht.
  assert (∀ k u, sets' !! k = Some u → ∃ v, sets !! k = Some v ∧ eq_columns v = eq_columns u) as Hback.
  { intros k u Hk. assert ((eq_columns <$> sets) !! k = Some (eq_columns u)) as H.
    { by rewrite Heq, list_lookup_fmap, Hk. }
    apply list_lookup_fmap_Some in H as (v & ? & ?). eauto. }
  destruct (Hback i s Hi) as (s' & Hi' & Es), (Hback j t Hj) as (t' & Hj' & Et).
  apply (Hp i j s' t' c); [done..|by rewrite Es|by rewrite Et].
Qed.
Lemma class_lookup sets c i :
  partition sets →
  foldl (λ m '(idx, s), foldl (λ m c, <[c := idx]> m) m (hash_order (elements (eq_columns s))))
    (∅ : gmap StableColumn nat) (imap pair sets) !! c = Some i ↔ ∃ s, sets !! i = Some s ∧ c ∈ eq_columns s.
Proof.
  assert (∀ (l : list StableColumn) (idx : nat) (m : gmap StableColumn nat),
    foldl (λ m c, <[c := idx]> m) m l !! c = if decide (c ∈ l) then Some idx else m !! c) as Hin.
  { induction l as [|x l IH]; intros idx m; [done|]. cbn. rewrite IH.
    destruct (decide (c ∈ l)) as [Hc|Hc]; [by rewrite decide_True by set_solver|].
    destruct (decide (c = x)) as [->|Hne]; [by rewrite lookup_insert_eq, decide_True by set_solver|].
    rewrite lookup_insert_ne by done. by rewrite decide_False by set_solver. }
  induction sets as [|s sets IH] using rev_ind; intros Hp.
  { split; [done|by intros (? & ? & _)]. }
  rewrite imap_app, foldl_app. cbn [imap foldl]. cbn. rewrite Nat.add_0_r, Hin.
  assert ((sets ++ [s]) !! length sets = Some s) as Hlast by (by rewrite lookup_app_r, Nat.sub_diag).
  destruct (decide _) as [Hc|Hc]; rewrite elem_of_hash_order, elem_of_elements in Hc.
  - split.
    + intros [= <-]. by exists s.
    + intros (t & Ht & Hct). f_equal. by eapply (Hp _ _ s t c).
  - rewrite IH.
    + split; intros (t & Ht & Hct); exists t; (split; [|done]).
      * by apply lookup_app_l_Some.
      * apply lookup_app_Some in Ht as [Ht|[_ Ht]]; [done|].
        by apply list_lookup_singleton_Some in Ht as [_ <-].
    + intros j k t u d Ht Hu. apply Hp; by apply lookup_app_l_Some.
Qed.
End Classes.

(** ** What the reordering promises *)
Section Promises.
Context `{JE : JoinEngine} `{HO : HashOrder}.

(** A region as the builder makes it: relations numbered in order, conditions over them. *)
Record region (g : QueryGraph) : Prop := {
  rg_built : built g;
  rg_count : (0 < relation_count g <= 63)%nat;
  rg_ids : ∀ i r, qg_relations g !! i = Some r → rn_relation_id r = i;
  rg_edges : ∀ j e x, qg_edges g !! j = Some e → x ∈ⱼ je_join_set e → (x < relation_count g)%nat
}.
Lemma region_ok g : region g → graph_ok g.
Proof. intros [Hb [_ Hc] Hi He]. split; [by apply built_wf|done..]. Qed.

(** C12. The trie of a query graph answers as the list of its conditions: the neighbours of
    a set are the relations that share a condition with one of its relations, in ascending
    order and once each, whether or not the answer is cached; the conditions between two sets
    are those that lie within the two and meet both, each once, and none when the sets
    overlap. *)
Theorem join_trie_equivalence g :
  built g →
  (∀ s r, js_wf s → r ∈ (get_neighbors g s).1 ↔ ∃ p, p ∈ⱼ s ∧ adjacent g p r) ∧
  (∀ s, js_wf s → StronglySorted lt (get_neighbors g s).1) ∧
  (∀ l r j, js_wf l → j ∈ get_connecting_edge_indices g l r ↔
    js_is_disjoint l r = true ∧ edge_connects g l r j = true) ∧
  (∀ l r, NoDup (get_connecting_edge_indices g l r)).
Proof.
  intros Hg%built_wf. split_and!.
  - intros s r Hs. rewrite get_neighbors_fst by done. by apply elem_of_compute_neighbors.
  - intros s Hs. rewrite get_neighbors_fst by done. apply compute_neighbors_sorted.
  - intros l r j Hl. by apply elem_of_connecting.
  - apply connecting_nodup.
Qed.

(** C33. The classes of join columns the estimator starts from: two columns share a class
    exactly when the equalities of the conditions chain them together. *)
Theorem join_columns_classes g counts :
  let pairs := qg_edges g ≫= je_equi_pairs in
  let lookup := (init_equivalence_sets g counts).2 in
  ∀ a b, (∃ i, lookup !! a = Some i ∧ lookup !! b = Some i) ↔
    mentioned pairs a ∧ mentioned pairs b ∧ linked pairs a b.
Proof.
  intros pairs lookup a b. destruct (merge_all_spec pairs) as [Hp Hs]. rewrite <-Hs.
  set (sets := foldl (λ sets '(l, r), merge_columns_into_sets sets l r) [] pairs) in *.
  assert (foldl (λ sets e, foldl (λ sets '(l, r), merge_columns_into_sets sets l r) sets (je_equi_pairs e))
    [] (qg_edges g) = sets) as Hflat.
  { unfold sets, pairs. clear. generalize (@nil EquivalenceSet) as acc.
    induction (qg_edges g) as [|e es IH]; intros acc; [done|]. cbn [foldl].
    change ((e :: es) ≫= je_equi_pairs) with (je_equi_pairs e ++ (es ≫= je_equi_pairs)).
    by rewrite foldl_app, IH. }
  unfold lookup, init_equivalence_sets. rewrite Hflat. cbn [snd].
  set (sets' := estimate_tdom_for_set g counts <$> sets).
  assert (eq_columns <$> sets = eq_columns <$> sets') as Heq.
  { unfold sets'. rewrite <-list_fmap_compose. apply list_fmap_ext. intros i s _. cbn.
    by rewrite columns_of_tdom. }
  setoid_rewrite (class_lookup sets' _ _ (partition_columns _ _ Heq Hp)). split.
  - intros (i & (s & Hs' & Ha) & t & Ht & Hb). simplify_eq.
    unfold sets' in Hs'. apply list_lookup_fmap_Some in Hs' as (u & -> & Hu).
    rewrite columns_of_tdom in *. by exists i, u.
  - intros (i & s & Hi & Ha & Hb). exists i.
    assert (sets' !! i = Some (estimate_tdom_for_set g counts s)) as Hi' by
      (unfold sets'; by rewrite list_lookup_fmap, Hi).
    split; eexists; (split; [exact Hi'|]); by rewrite columns_of_tdom.
Qed.

(** C10. The plan chosen for a region: the run neither panics nor fails to end, and its only
    error is the greedy algorithm's; the plan unfolds through the table to a join tree in
    which every relation of the region is a leaf exactly once and no condition is applied
    twice. *)
Theorem best_plan_orders_relations g :
  region g →
  match best_plan (enumerator_new g) with
  | Returns (Ok (p, pe)) =>
      ∃ t, plan_tree 64 (pe_dp_table pe) p = Some t ∧ tree_leaves t ≡ₚ seq 0 (relation_count g) ∧
        NoDup (tree_edges t) ∧ tree_of g (any_conditions g) (create_all_relations_set g) t
  | Returns (Err e) => e = JeInternal "Failed to select next relation in greedy algorithm"
  | _ => False
  end.
Proof.
  intros Hr. pose proof (region_ok g Hr) as Hg.
  pose proof (espec_best_plan g Hg (enumerator_new g) (enumerator_new_inv g Hg) ltac:(apply Hr)) as H.
  unfold espec in H. destruct (best_plan (enumerator_new g)) as [[[p pe]|e]| |]; [|done..].
  destruct (solved_tree g Hg _ _ _ H) as (t & Ht & Hto & Hl). exists t.
  split_and!; [done..|by eapply tree_edges_nodup|done].
Qed.

(** C11. A region of fewer than ten relations, connected by conditions between two relations
    each: unless the enumeration reaches its threshold, the plan it finds has no cross join
    and applies every condition exactly once; no error is possible. *)
Theorem connected_region_without_cross_joins g :
  region g → connected_graph g →
  match solve (enumerator_new g) with
  | Returns (Ok (Some p, pe)) =>
      ∃ t, plan_tree 64 (pe_dp_table pe) p = Some t ∧ tree_leaves t ≡ₚ seq 0 (relation_count g) ∧
        tree_no_cross t ∧ tree_edges t ≡ₚ seq 0 (length (qg_edges g))
  | Returns (Ok (None, pe)) => (EMIT_THRESHOLD <= pe_emit_count pe)%N
  | _ => False
  end.
Proof.
  intros Hr Hcg. pose proof (region_ok g Hr) as Hg.
  pose proof (espec_solve g Hg (enumerator_new g) (enumerator_new_inv g Hg) ltac:(apply Hr)) as H.
  unfold espec in H. destruct (solve (enumerator_new g)) as [[[[p|] pe]|e]| |]; try done.
  - destruct H as [_ H]. specialize (H Hcg). destruct (solved_tree g Hg _ _ _ H) as (t & Ht & Hto & Hl).
    exists t. split_and!; [done..|by eapply tree_of_no_cross|by eapply solved_edges].
  - apply H.
  - by destruct H.
Qed.
End Promises.

(** ** A region of three relations, in a chain *)
Section Chain.
#[local] Instance chain_engine : JoinEngine := {| ExecutionPlan := unit; JoinType := unit; OtherExpr := unit |}.
#[local] Instance chain_order : HashOrder := {| hash_order := λ _ l, l; hash_order_perm := λ _ l, Permutation_refl l |}.

Definition chain_relation (i : nat) (rows : N) : RelationNode :=
  MkRelationNode tt i (f64_of rows) (f64_of rows) [].
Definition chain_edge (a b : nat) : JoinEdge :=
  MkJoinEdge (bit a ∪ⱼ bit b) (ExprOther tt) tt NullEqualsNothing
    [(MkStableColumn a 0, MkStableColumn b 0)].
Definition chain_result : JoinResult QueryGraph :=
  let g := foldl add_relation graph_new
    [chain_relation 0 10; chain_relation 1 1000; chain_relation 2 100] in
  g ← add_edge g (chain_edge 0 1); add_edge g (chain_edge 1 2).
Definition chain : QueryGraph :=
  match chain_result with Ok g => g | Err _ => graph_new end.

Lemma chain_edges : qg_edges chain = [chain_edge 0 1; chain_edge 1 2].
Proof. reflexivity. Qed.
Lemma chain_built : built chain.
Proof.
  set (g0 := foldl add_relation graph_new [chain_relation 0 10; chain_relation 1 1000; chain_relation 2 100]).
  destruct (add_edge g0 (chain_edge 0 1)) as [g1|] eqn:E1; [|done].
  assert (add_edge g1 (chain_edge 1 2) = Ok chain) as E2.
  { unfold chain, chain_result. fold g0. rewrite E1. vm_compute in E1. by injection E1 as <-. }
  apply (built_edge g1 (chain_edge 1 2)); [|done|done].
  apply (built_edge g0 (chain_edge 0 1)); [|done|done]. repeat constructor.
Qed.
Lemma chain_cases j e :
  qg_edges chain !! j = Some e → e = chain_edge 0 1 ∨ e = chain_edge 1 2.
Proof.
  rewrite chain_edges. destruct j as [|[|j]]; cbn; naive_solver.
Qed.
Lemma chain_mem a b x : x ∈ⱼ je_join_set (chain_edge a b) ↔ x = a ∨ x = b.
Proof. cbn. by rewrite js_mem_union, !js_mem_bit. Qed.
Lemma chain_region : region chain.
Proof.
  split.
  - apply chain_built.
  - vm_compute. lia.
  - intros [|[|[|i]]] r; cbn; naive_solver.
  - intros j e x [-> | ->]%chain_cases [-> | ->]%chain_mem; vm_compute; lia.
Qed.
Lemma chain_connected : connected_graph chain.
Proof.
  assert (adjacent chain 0 1 ∧ adjacent chain 1 2) as [H01 H12].
  { split; (split; [done|]).
    - exists 0%nat, (chain_edge 0 1). by rewrite chain_edges, !chain_mem; auto.
    - exists 1%nat, (chain_edge 1 2). by rewrite chain_edges, !chain_mem; auto. }
  assert (∀ a b, adjacent chain a b → adjacent chain b a) as Hsym.
  { intros a b (Hne & j & e & ? & ? & ?). split; [done|]. by exists j, e. }
  pose proof (region_ok chain chain_region) as Hg.
  split.
  - vm_compute. lia.
  - intros j e [-> | ->]%chain_cases; [by exists 0%nat, 1%nat|by exists 1%nat, 2%nat].
  - assert (∀ i, i ∈ⱼ create_all_relations_set chain ↔ (i < 3)%nat) as Hm by (intros; by apply all_relations_spec).
    assert (∀ a, (a < 3)%nat → rtc (step_in chain (create_all_relations_set chain)) a 1%nat ∧
      rtc (step_in chain (create_all_relations_set chain)) 1%nat a) as Hc.
    { intros a Ha. destruct (decide (a = 1%nat)) as [->|]; [done|].
      assert (a = 0 ∨ a = 2)%nat as [-> | ->] by lia; split; apply rtc_once; split; auto; apply Hm; lia. }
    intros a b Ha%Hm Hb%Hm. destruct (Hc a Ha), (Hc b Hb). by etrans.
Qed.

Lemma join_trie_equivalence_witness :
  (get_neighbors chain (bit 1)).1 = [0%nat; 2%nat] ∧ 1%nat ∈ get_connecting_edge_indices chain (bit 1) (bit 2).
Proof.
  destruct (join_trie_equivalence chain chain_built) as (_ & _ & Hc & _). split; [by vm_compute|].
  apply Hc; [by vm_compute|]. split; by vm_compute.
Defined.
Lemma best_plan_orders_relations_witness :
  match best_plan (enumerator_new chain) with
  | Returns (Ok (p, pe)) => ∃ t, plan_tree 64 (pe_dp_table pe) p = Some t ∧ tree_leaves t ≡ₚ [0%nat; 1%nat; 2%nat]
  | _ => True
  end.
Proof.
  pose proof (best_plan_orders_relations chain chain_region) as H.
  destruct (best_plan (enumerator_new chain)) as [[[p pe]|]| |]; [|done..].
  destruct H as (t & Ht & Hl & _). by exists t.
Defined.
Lemma connected_region_without_cross_joins_witness :
  match solve (enumerator_new chain) with
  | Returns (Ok (Some p, pe)) => ∃ t, plan_tree 64 (pe_dp_table pe) p = Some t ∧ tree_edges t ≡ₚ [0%nat; 1%nat]
  | _ => True
  end.
Proof.
  pose proof (connected_region_without_cross_joins chain chain_region chain_connected) as H.
  destruct (solve (enumerator_new chain)) as [[[[p|] pe]|]| |]; [|done..].
  destruct H as (t & Ht & _ & _ & He). by exists t.
Defined.

(** The run on the chain, computed. *)
Example chain_plan :
  match best_plan (enumerator_new chain) with
  | Returns (Ok (p, pe)) => (plan_tree 64 (pe_dp_table pe) p, pe_emit_count pe)
  | _ => (None, 0%N)
  end = (Some (TreeJoin (TreeJoin (TreeLeaf 0) (TreeLeaf 1) [0%nat]) (TreeLeaf 2) [1%nat]), 4%N).
Proof. vm_compute. done. Qed.
End Chain.
