(* ===== verification/Samples.v ===== *)
(** * A small concrete engine

    An instance of every parameter of the development: plans are a schema
    number and a partition count, hash containers iterate in insertion order.
    The witnesses of the theorems are stated on it. *)

From S2P Require Import Prelude Ids JobGraph Topology JobState JobScheduler SchedulerSystem Streams Actor StreamManager WorkerPool Driver.

Definition sample_df : DataFusion := {|
  Plan := nat * nat;
  Schema := nat;
  PhysicalExpr := string;
  TaskContext := unit;
  schema_eq_dec := Nat.eq_dec;
  plan_schema := fst;
  partition_count := snd;
  encode_plan := λ p, Ok (replicate (snd p) Byte.x01);
  encode_expr := λ e, Ok (replicate (String.length e) Byte.x02);
  expr_display := id;
  RecordBatch := list nat;
  num_rows := @length nat
|}.

Definition sample_hash : HashOrder := {|
  hash_order := λ A l, l;
  hash_order_perm := λ A l, Permutation_refl l
|}.

Definition sample_causes : ForeignCauses := λ e, CauseUnknown (foreign_display e).

(** Two stages: a shuffle of two partitions into three, on schema 7. *)
Definition sample_stage (inputs : list StageInput) (schema parts channels : nat)
    (mode : OutputMode) (placement : TaskPlacement) : Stage (H := sample_df) :=
  MkStage (H := sample_df) inputs (schema, parts) "" mode
    (DistRoundRobin (H := sample_df) channels) placement.

Definition sample_graph : JobGraph (H := sample_df) :=
  MkJobGraph (H := sample_df)
    [ sample_stage [] 3 2 3 Pipelined PlaceWorker;
      sample_stage [MkStageInput 0 Shuffle] 7 3 1 Pipelined PlaceWorker ] 7.

(** The planner of the samples builds one pipelined stage and its consumer. *)
Definition sample_planner : Planner (DF := sample_df) :=
  λ p, Ok (MkJobGraph (H := sample_df)
    [ sample_stage [] 3 2 (snd p) Pipelined PlaceWorker;
      sample_stage [MkStageInput 0 Shuffle] (fst p) (snd p) 1 Pipelined PlaceWorker ]
    (fst p)).

(** One stage of three partitions, scheduled slice by slice. *)
Definition sample_single : JobGraph (H := sample_df) :=
  MkJobGraph (H := sample_df) [ sample_stage [] 7 3 1 Pipelined PlaceWorker ] 7.

#[global] Instance sample_planner_laws : PlannerLaws (DF := sample_df) sample_planner.
Proof.
  intros plan g [= <-]. intros s stage input Hs Hin.
  destruct s as [|[|s]]; simplify_eq/=; [set_solver|].
  apply list_elem_of_singleton in Hin as ->. simpl. lia.
Qed.

(** A disk that never fails, and clocks that advance by one at every reading. *)
Definition sample_disk : DiskIo (DF := sample_df) :=
  {| create_dir_all := λ _, Ok tt; file_create := λ _, Ok tt;
     ipc_writer_try_new := λ _ _, Ok tt;
     path_join := λ a b, a +:+ "/" +:+ b; path_debug := id |}.

Definition sample_clock : Clock := {| instant_at := Z.of_nat; utc_at := Z.of_nat |}.

#[global] Instance sample_clock_laws : ClockLaws sample_clock.
Proof. intros i j Hij. simpl. lia. Qed.

Definition sample_executor : PlanExecutor (DF := sample_df) := λ _ _ _, Ok tt.

Definition sample_options : JobSchedulerOptions := MkJobSchedulerOptions 60 2.

(** ** Runs that return *)

Definition returns {A} (m : Run A) : bool := match m with Returns _ => true | _ => false end.

Definition returned {A} (m : Run A) (d : A) : A := match m with Returns a => a | _ => d end.

Lemma returned_eq {A} (m : Run A) d : returns m = true → m = Returns (returned m d).
Proof. by destruct m. Qed.

(** Closes a goal that evaluates to an equation of identical values. *)
Ltac by_run := vm_compute; reflexivity.
