(* ===== verification/SchedulerWitnesses.v ===== *)
(** * Witnesses: the job scheduler

    Concrete runs of the scheduler of the sample engine, on which the hypotheses
    of the theorems about it hold. *)

From S2P Require Import Prelude Ids JobGraph Topology TopologyFacts JobState JobScheduler AttemptsFacts RegionFacts RefreshFacts SchedulerSystem SchedulerTheorems TaskAssigner TaskAssignerFacts AssignerTheorems Streams TaskCodec Wiring Samples.
#[local] Existing Instances sample_df sample_hash sample_causes sample_planner.

(** ** Scripts *)

Inductive SchedulerOp :=
| DoAccept (now : Z) (plan : nat * nat)
| DoUpdate (now : Z) (key : TaskKey) (state : TaskState) (cause : option CommonErrorCause)
| DoRefresh (now : Z) (job_id : N)
| DoCleanUp (now : Z) (job_id : N).

Definition scheduler_op (self : JobScheduler) (op : SchedulerOp) : Run (list JobAction * JobScheduler) :=
  match op with
  | DoAccept now plan =>
      '(_, self', _) ← accept_job self now plan tt; Returns ([], self')
  | DoUpdate now key state cause => Returns ([], update_task self now key state None cause)
  | DoRefresh now job_id =>
      '(self', actions) ← refresh_job self now job_id; Returns (actions, self')
  | DoCleanUp now job_id =>
      let '(self', actions) := clean_up_job self now job_id in Returns (actions, self')
  end.

Lemma scheduler_op_step self op actions self' :
  scheduler_op self op = Returns (actions, self') → sched_step self actions self'.
Proof.
  destruct op as [now plan|now key state cause|now job_id|now job_id]; simpl.
  - destruct (accept_job self now plan tt) as [[[r s] sp]| |] eqn:H; intros; simplify_eq/=.
    by eapply StepAccept.
  - intros [= <- <-]. apply StepUpdate.
  - destruct (refresh_job self now job_id) as [[s a]| |] eqn:H; intros; simplify_eq/=.
    by eapply StepRefresh.
  - destruct (clean_up_job self now job_id) as [s a] eqn:H. intros [= <- <-]. by eapply StepCleanUp.
Qed.

Fixpoint scheduler_run (tr : list JobAction) (self : JobScheduler) (ops : list SchedulerOp)
    : Run (list JobAction * JobScheduler) :=
  match ops with
  | [] => Returns (tr, self)
  | op :: ops =>
      '(actions, self') ← scheduler_op self op;
      scheduler_run (tr ++ actions) self' ops
  end.

Lemma scheduler_run_trace options tr self ops tr' self' :
  sched_trace options tr self → scheduler_run tr self ops = Returns (tr', self') →
  sched_trace options tr' self'.
Proof.
  revert tr self. induction ops as [|op ops IH]; intros tr self Htr; simpl; [by intros [= <- <-]|].
  destruct (scheduler_op self op) as [[actions s]| |] eqn:Hop; simpl; [|done..].
  apply IH. eapply TraceStep; [done|]. by eapply scheduler_op_step.
Qed.

Definition sample_run (ops : list SchedulerOp) : list JobAction * JobScheduler :=
  returned (scheduler_run [] (job_scheduler_new sample_options) ops)
    ([], job_scheduler_new sample_options).

Lemma sample_run_trace ops :
  returns (scheduler_run [] (job_scheduler_new sample_options) ops) = true →
  sched_trace sample_options (sample_run ops).1 (sample_run ops).2.
Proof.
  intros H%(returned_eq _ ([], job_scheduler_new sample_options)).
  eapply (scheduler_run_trace _ _ _ ops); [constructor|].
  unfold sample_run. destruct (scheduler_run _ _ ops); [|done..]. simpl in *. by destruct a.
Qed.

(** A job of two partitions shuffled into three: it is accepted and scheduled, the
    tasks run, and the producers finish. *)
Definition sample_key (s p a : nat) : TaskKey := MkTaskKey 1 s p a.

Definition script_scheduled : list SchedulerOp := [DoAccept 10 (7, 3); DoRefresh 11 1].
Definition script_running : list SchedulerOp :=
  script_scheduled ++
  ((λ k, DoUpdate 12 k TaskRunning None) <$>
     [sample_key 0 0 0; sample_key 0 1 0; sample_key 1 0 0; sample_key 1 1 0; sample_key 1 2 0])
  ++ [DoRefresh 13 1].
Definition script_failed : list SchedulerOp :=
  script_running ++ [DoUpdate 14 (sample_key 0 1 0) TaskFailed (Some (CauseIo "disk full"))].
Definition script_succeeded : list SchedulerOp :=
  script_running ++
  ((λ k, DoUpdate 14 k TaskSucceeded None) <$>
     [sample_key 0 0 0; sample_key 0 1 0; sample_key 1 0 0; sample_key 1 1 0; sample_key 1 2 0]).

Definition sample_descriptor (ops : list SchedulerOp) : JobDescriptor :=
  match im_get 1%N (js_jobs (sample_run ops).2) with
  | Some job => job
  | None => MkJobDescriptor sample_graph (MkJobTopology [] []) [] [] JobDraining 0 None
  end.

Lemma sample_descriptor_wf ops :
  returns (scheduler_run [] (job_scheduler_new sample_options) ops) = true →
  bool_decide (is_Some (jd_created_at <$> im_get 1%N (js_jobs (sample_run ops).2))) = true →
  wf_job (sample_descriptor ops).
Proof.
  intros Hrun Hj%bool_decide_eq_true. unfold sample_descriptor.
  destruct (im_get _ _) as [job|] eqn:Hg; [|by destruct Hj].
  destruct (sched_trace_inv _ _ _ (sample_run_trace _ Hrun)) as [Hinv _].
  by destruct (si_jobs _ Hinv _ _ Hg).
Qed.

Ltac by_script := apply sample_run_trace; by_run.
Ltac by_descriptor := apply sample_descriptor_wf; by_run.

(** ** Reachable schedulers *)

Lemma scheduler_invariant_witness :
  wf_job (sample_descriptor (script_failed ++ [DoRefresh 15 1])) ∧
  ∀ l, attempts_of (jd_stages (sample_descriptor (script_failed ++ [DoRefresh 15 1]))) 0 1 = Some l →
    length l ≤ 2.
Proof.
  destruct (scheduler_invariant sample_options
    (sample_run (script_failed ++ [DoRefresh 15 1])).1
    (sample_run (script_failed ++ [DoRefresh 15 1])).2 1
    (sample_descriptor (script_failed ++ [DoRefresh 15 1]))) as [H1 H2].
  - by_script.
  - by_run.
  - split; [done|]. apply H2.
Defined.

Lemma scheduler_total_witness :
  returns (refresh_job (sample_run script_failed).2 15 1) = true.
Proof.
  destruct (scheduler_total sample_options (sample_run script_failed).1
    (sample_run script_failed).2 15 1 (7, 3) tt) as [Ht _].
  - by_script.
  - by destruct (refresh_job _ _ _).
Defined.

Lemma output_streams_once_witness :
  NoDup (extend_keys (sample_run script_succeeded).1) ∧
  length (extend_keys (sample_run script_succeeded).1) = 3.
Proof.
  split; [|by_run].
  apply (output_streams_once sample_options _ (sample_run script_succeeded).2). by_script.
Defined.

Lemma attempts_never_regress_witness :
  ∃ a', find_attempt (update_task (sample_run script_failed).2 20 (sample_key 0 1 0)
          TaskRunning None None) (sample_key 0 1 0) = Some a' ∧ ta_state a' = TaskFailed.
Proof.
  destruct (attempts_never_regress sample_options (sample_run script_failed).1
    (sample_run script_failed).2 []
    (update_task (sample_run script_failed).2 20 (sample_key 0 1 0) TaskRunning None None)
    (sample_key 0 1 0)
    (MkTaskAttempt TaskFailed [] (Some (CauseIo "disk full")) false 11 (Some 14%Z)))
    as (a' & Ha' & _ & Hs & _).
  - by_script.
  - apply StepUpdate.
  - by_run.
  - exists a'. split; [done|]. by apply Hs.
Defined.

(** ** Refreshing a job *)

Lemma refresh_outcome_witness :
  refresh_job_descriptor sample_options 15 1 (sample_descriptor script_succeeded) ⇓ λ '(job', _),
    wf_job job' ∧
    (jd_state job' = JobDraining ↔ ∀ t, t ∈ all_tasks (jd_graph (sample_descriptor script_succeeded)) →
       task_last is_succeeded (jd_stages job') t = true).
Proof.
  eapply total_mono; [apply (refresh_outcome sample_options 15 1 (sample_descriptor script_succeeded)
    (MkJobOutputManager 1) tt); [by_descriptor|by_run]|].
  intros [job' actions] (Hwf & _ & _ & Hd & _). done.
Defined.

Lemma scheduled_region_ready_witness :
  refresh_job_descriptor sample_options 15 1 (sample_descriptor script_failed) ⇓ λ '(_, actions),
    ∀ tr, ActScheduleTaskRegion tr ∈ actions → ∃ r region,
      jt_regions (jd_topology (sample_descriptor script_failed)) !! r = Some region.
Proof.
  eapply total_mono; [apply (scheduled_region_ready sample_options 15 1
    (sample_descriptor script_failed) (MkJobOutputManager 1) tt); [by_descriptor|by_run]|].
  intros [job' actions] H tr Htr. destruct (H tr Htr) as (r & region & Hr & _). eauto.
Defined.

Lemma refresh_progress_witness :
  refresh_job_descriptor sample_options 15 1 (sample_descriptor script_failed) ⇓ λ '(job', _),
    jd_state job' = JobRunning (MkJobOutputManager 1) tt →
    ∃ t, task_last is_live (jd_stages job') t = true.
Proof.
  eapply total_mono; [apply (refresh_progress sample_options 15 1
    (sample_descriptor script_failed) (MkJobOutputManager 1) tt); [by_descriptor|by_run|]|].
  - intros [|[|s]] stage; vm_compute; intros; by simplify_eq.
  - intros [job' actions] H Hj. destruct (H Hj) as (t & _ & Ht). eauto.
Defined.

Lemma cascade_cancels_witness :
  refresh_job_descriptor sample_options 15 1 (sample_descriptor script_failed) ⇓ λ '(job', actions),
    ActCancelTask (sample_key 1 2 0) ∈ actions.
Proof.
  eapply total_mono; [apply (cascade_cancels sample_options 15 1
    (sample_descriptor script_failed) (MkJobOutputManager 1) tt (sample_key 1 2 0));
    [by_descriptor|by_run]|].
  intros [job' actions] [Hc _]. apply Hc. split; [done|].
  exists (MkTaskRegionTopology [MkTaskTopology 0 0; MkTaskTopology 0 1; MkTaskTopology 1 0;
    MkTaskTopology 1 1; MkTaskTopology 1 2] []), (MkTaskTopology 0 1).
  eexists _, _. split_and!; [| | |by_run..].
  - apply (list_elem_of_lookup_2 _ 0). by_run.
  - apply (list_elem_of_lookup_2 _ 4). by_run.
  - apply (list_elem_of_lookup_2 _ 1). by_run.
Defined.

Lemma stage_released_after_consumers_witness :
  refresh_job_descriptor sample_options 15 1 (sample_descriptor script_succeeded) ⇓ λ '(job', actions),
    ActCleanUpJob 1 (Some 0) ∈ actions ∧ sd_state <$> jd_stages job' !! 0 = Some StageInactive.
Proof.
  eapply total_mono; [apply (stage_released_after_consumers sample_options 15 1
    (sample_descriptor script_succeeded) (MkJobOutputManager 1) tt 0); [by_descriptor|by_run]|].
  intros [job' actions] [Hc Hs].
  assert (ActCleanUpJob 1 (Some 0) ∈ actions) as Ha; [|by split; [|apply Hs]].
  apply Hc. split_and!; [by_run|by vm_compute|].
  assert (consumers_of (sample_descriptor script_succeeded) 0 = [1]) as -> by by_run.
  assert (parts (jd_graph (sample_descriptor script_succeeded)) 1 = 3) as Hp by by_run.
  intros c p ->%list_elem_of_singleton. rewrite Hp. intros Hlt.
  destruct p as [|[|[|p]]]; [by_run..|lia].
Defined.

(** ** Failure causes, topologies, regions *)

Definition sample_failures : list StageDescriptor :=
  let fail cause := MkTaskAttempt TaskFailed [] (Some cause) false 1 (Some 2%Z) in
  [MkStageDescriptor [MkTaskDescriptor [fail (CauseIo "a"); fail (CauseIo "b")];
                      MkTaskDescriptor [fail (CauseInternal "c")]] StageActive 0 None;
   MkStageDescriptor [MkTaskDescriptor [fail (CauseIo "d"); fail (CauseIo "e")]] StageActive 0 None].

Lemma failure_cause_deterministic_witness :
  infer_job_failure_cause sample_failures = CauseIo "b".
Proof.
  apply (failure_cause_deterministic sample_hash sample_failures 0 0 [CauseIo "a"; CauseIo "b"]).
  - apply (list_elem_of_lookup_2 _ 0). by_run.
  - assert (job_causes sample_failures =
      [(0, 0, [CauseIo "a"; CauseIo "b"]); (0, 1, [CauseInternal "c"]);
       (1, 0, [CauseIo "d"; CauseIo "e"])]) as -> by by_run.
    intros s' p' causes'. rewrite !elem_of_cons, elem_of_nil. intros [H|[H|[H|[]]]];
      injection H as -> -> ->; simpl; lia.
  - by_run.
Defined.

Lemma sample_graph_wf : wf_graph sample_graph.
Proof. apply (bool_decide_unpack _). vm_compute. done. Qed.

Lemma topology_correct_witness :
  job_topology_try_new sample_graph ⇓ λ r, is_ok r = true ∧
    ∀ tp, r = Ok tp → NoDup (region_task_list (jt_regions tp)).
Proof.
  eapply total_mono; [apply (topology_correct sample_graph), sample_graph_wf|].
  intros r [Hok Htp]. split; [|intros tp Hr; by destruct (Htp tp Hr)].
  apply Hok. split.
  - intros [|[|s]] stage Hs Hf; simplify_eq/=; [|done].
    exfalso. apply (Hf (1, MkStageInput 0 Shuffle)); [|done]. apply (list_elem_of_lookup_2 _ 0). done.
  - intros s input He Hfw. assert (job_edges sample_graph = [(1, MkStageInput 0 Shuffle)]) as Hj by done.
    rewrite Hj in He. apply list_elem_of_singleton in He. by simplify_eq.
Defined.

Definition sample_region : TaskRegionTopology :=
  MkTaskRegionTopology [MkTaskTopology 0 0; MkTaskTopology 0 1; MkTaskTopology 1 0;
    MkTaskTopology 1 1; MkTaskTopology 1 2] [].

Lemma build_task_region_correct_witness :
  build_task_region 1 sample_graph (jd_stages (sample_descriptor script_scheduled)) sample_region ⇓
    λ tr, ∀ pl set, (pl, set) ∈ region_tasks tr → NoDup (tk_stage <$> set_tasks set).
Proof.
  eapply total_mono; [apply (build_task_region_correct 1 sample_graph
    (jd_stages (sample_descriptor script_scheduled)) sample_region)|].
  - apply (bool_decide_unpack _). by_run.
  - intros t Ht. split.
    + revert t Ht. apply Forall_forall, (bool_decide_unpack _). by_run.
    + do 5 (apply elem_of_cons in Ht as [->|Ht]; [by eexists; split; [by_run|]|]).
      by apply elem_of_nil in Ht.
  - intros tr [_ H] pl set Hs. by destruct (H pl set Hs).
Defined.

Lemma clean_up_job_effect_witness :
  let '(self', actions) := clean_up_job (sample_run script_running).2 20 1 in
  last actions = Some (ActCleanUpJob 1 None) ∧ ∃ job',
    im_get 1%N (js_jobs self') = Some job' ∧ jd_state job' = JobCanceled.
Proof.
  pose proof (clean_up_job_effect (sample_run script_running).2 20 1
    (sample_descriptor script_running) ltac:(by_run)) as H.
  destruct (clean_up_job _ _ _) as [self' actions].
  destruct H as [(job' & Hj & Hs & _) [Hl _]]. split; [done|]. exists job'. by split.
Defined.

Lemma shuffle_wiring_witness :
  ∃ x, get_task_input (λ _, Some (AssignWorker 4 0)) (sample_descriptor script_scheduled)
         (sample_key 1 0 0) (MkStageInput 0 Shuffle) = Ok x ∧
    length (input_locations x 1) = 3 ∧ length (mjoin (input_locations x 1)) = 6.
Proof.
  destruct (shuffle_wiring (sample_key 1 0 0) (sample_descriptor script_scheduled)
    (MkStageInput 0 Shuffle) (sample_stage [] 3 2 3 Pipelined PlaceWorker)
    (λ _, Some (AssignWorker 4 0)) (λ _, 0) (λ _, 4%N)
    (λ _, MkTaskOutput (OutRoundRobin 3) (OutLocal 1)))
    as (x & H1 & H2 & _ & H3 & _).
  - by_run.
  - done.
  - done.
  - intros [|[|p]] Hp; [split_and!; [by_run|by eexists|by_run]..|]. cbn in Hp. lia.
  - exists x. split_and!; [done|exact H3|]. by rewrite H2.
Defined.

(** ** Witnesses: the task assigner

    Two workers of two slots and a region of three task sets: the hypotheses of the
    theorems about the assigner hold at the states of this run. *)

Definition assigner_options : TaskAssignerOptions := MkTaskAssignerOptions 2 4.

Definition region_entry (s p : nat) : TaskSetEntry := MkTaskSetEntry (MkTaskKey 1 s p 0) OutputLocal.

Definition assigner_region : TaskRegion := MkTaskRegion
  [(PlaceWorker, MkTaskSet [region_entry 0 0; region_entry 1 0]);
   (PlaceWorker, MkTaskSet [region_entry 0 1; region_entry 1 1]);
   (PlaceDriver, MkTaskSet [region_entry 2 0]);
   (PlaceWorker, MkTaskSet [region_entry 1 2])].

Definition assigner_ready : TaskAssigner :=
  enqueue_tasks (activate_worker (activate_worker (task_assigner_new assigner_options) 1) 2)
    assigner_region.

Definition assigner_assigned : list TaskSetAssignment * TaskAssigner :=
  returned (assign_tasks EvenSpread assigner_ready) ([], assigner_ready).

Definition assigner_loaded : TaskAssigner := track_streams assigner_assigned.2 assigner_assigned.1.

Lemma assigner_ready_reachable : assigner_reachable EvenSpread assigner_options assigner_ready.
Proof.
  eapply ReachStep; [|apply AsEnqueue].
  - eapply ReachStep; [|apply AsActivate]. eapply ReachStep; [|apply AsActivate]. constructor.
  - split; [apply (bool_decide_unpack _); by_run|]. intros key _. done.
Qed.

Lemma assigner_loaded_reachable : assigner_reachable EvenSpread assigner_options assigner_loaded.
Proof.
  eapply ReachStep; [apply assigner_ready_reachable|]. apply AsAssign. by_run.
Qed.

Lemma assigner_invariant_witness :
  get_assignment assigner_loaded (MkTaskKey 1 1 0 0) = Some (AssignWorker 1 1).
Proof.
  destruct (assigner_invariant EvenSpread assigner_options assigner_loaded
    assigner_loaded_reachable) as [H _].
  apply (H 1%N 1 (MkTaskSlot [MkTaskKey 1 0 0 0; MkTaskKey 1 1 0 0])); [by_run|].
  apply (list_elem_of_lookup_2 _ 1). by_run.
Defined.

Lemma assign_tasks_correct_witness :
  assign_tasks EvenSpread assigner_ready ⇓ λ '(l, self'),
    NoDup (assigned_slots l) ∧ as_task_queue self' = [] ∧ length l = 4.
Proof.
  pose proof (assign_tasks_correct EvenSpread assigner_options assigner_ready
    assigner_ready_reachable) as H.
  apply (total_intro _ assigner_assigned); [by_run|].
  assert (assign_tasks EvenSpread assigner_ready = Returns assigner_assigned) as He by by_run.
  rewrite He in H. destruct assigner_assigned as [l self'] eqn:Ha.
  destruct H as [_ H]. destruct (H eq_refl) as (_ & Hnd & _). split; [done|].
  assert (as_task_queue assigner_assigned.2 = [] ∧ length assigner_assigned.1 = 4) as [Hq Hl] by (split; by_run).
  by rewrite Ha in Hq, Hl.
Defined.

Lemma request_workers_bounded_witness :
  request_workers (enqueue_tasks (task_assigner_new assigner_options) assigner_region) ⇓
    λ '(n, _), (n * 2 < 3 - 0 + 2)%N.
Proof.
  destruct (request_workers_bounded
    (enqueue_tasks (task_assigner_new assigner_options) assigner_region)) as [_ H].
  eapply total_mono; [apply H; vm_compute; done|].
  by intros [n self'] (_ & _ & H3 & _).
Defined.

Lemma unassign_task_exact_witness :
  ∃ s', worker_slot (as_workers (unassign_task assigner_loaded (MkTaskKey 1 1 0 0)).2) 1 1 = Some s' ∧
    MkTaskKey 1 1 0 0 ∉ slot_tasks s'.
Proof.
  pose proof (unassign_task_exact EvenSpread assigner_options assigner_loaded (MkTaskKey 1 1 0 0)
    assigner_loaded_reachable) as H.
  assert (worker_slot (as_workers (unassign_task assigner_loaded (MkTaskKey 1 1 0 0)).2) 1 1 =
    Some (MkTaskSlot [MkTaskKey 1 0 0 0])) as Hs by by_run.
  destruct (unassign_task _ _) as [r self']. destruct H as (H & _).
  eexists. split; [exact Hs|]. by apply (H 1%N 1).
Defined.

Lemma untrack_local_streams_exact_witness :
  StreamWorker 2 ∈ (untrack_local_streams assigner_loaded 1 None).1.
Proof.
  pose proof (untrack_local_streams_exact EvenSpread assigner_options assigner_loaded 1 None
    assigner_loaded_reachable) as H.
  destruct (untrack_local_streams _ _ _) as [owners self']. destruct H as (_ & H & _). simpl.
  apply H. exists (MkTaskKey 1 0 1 0). split; [|by vm_compute; eauto].
  apply (list_elem_of_lookup_2 _ 0). by_run.
Defined.

Lemma even_spread_loads_witness :
  assign_sets EvenSpread [(1%N, [0; 1]); (2%N, [0; 1])] [] (region_tasks assigner_region) ⇓
    λ '(r, _), ∀ l, r = Some l → load l 1 ≤ load l 2 + 1.
Proof.
  eapply total_mono; [apply (even_spread_loads [(1%N, [0; 1]); (2%N, [0; 1])] 2)|].
  - apply (bool_decide_unpack _). by_run.
  - intros x Hx. apply elem_of_cons in Hx as [->|Hx%list_elem_of_singleton]; [done|by subst].
  - intros [r slots] H l Hr. apply (H l); [done|..]; apply (bool_decide_unpack _); by_run.
Defined.
