(* ===== verification/StreamWitnesses.v ===== *)
(** * Witnesses: streams and the stream manager

    A memory stream of two replicas and a stream manager with a reader that came
    before the writer. *)

From S2P Require Import Prelude Ids JobGraph Streams StreamTheorems Actor StreamManager StreamManagerTheorems Samples.

#[local] Existing Instances sample_df sample_causes sample_disk.

(** ** Memory streams *)

Definition batch_a : Item := Ok [1; 2; 3].
Definition batch_b : Item := Ok [4].

Definition stream_created : StreamSystem :=
  match memory_stream_new [] 1 2 [] with
  | Returns (m, chs) =>
      match memory_publish m with Ok (s, _) => (chs, s, []) | Err _ => ([], MkReplicaSender [] [], []) end
  | _ => ([], MkReplicaSender [] [], [])
  end.

Definition stream_write (st : StreamSystem) (x : Item) : StreamSystem :=
  let '(chs, s, written) := st in
  match write_all chs s x with
  | Returns (chs', s', _) => (chs', s', written ++ [x])
  | _ => st
  end.

Definition stream_recv (st : StreamSystem) (c : nat) : StreamSystem :=
  let '(chs, s, written) := st in
  match channel_recv chs c with Some (_, chs') => (chs', s, written) | None => st end.

(** Both batches are written, the second into the backlog; one reader takes the
    first. *)
Definition stream_written : StreamSystem :=
  stream_recv (stream_write (stream_write stream_created batch_a) batch_b) 1.

Lemma stream_created_starts : stream_starts [] 1 2 [] [0; 1] stream_created.
Proof. eexists _, _, _. split_and!; by_run. Qed.

Lemma stream_written_reachable : stream_reachable 1 [0; 1] stream_created stream_written.
Proof.
  eapply StreamNext; [eapply StreamNext; [eapply StreamNext; [apply StreamStart|]|]|].
  - eapply (StWrite 1 [0; 1] _ _ _ batch_a). by_run.
  - eapply (StWrite 1 [0; 1] _ _ _ batch_b). by_run.
  - eapply (StRecv 1 [0; 1] _ _ _ 1). by_run.
Qed.

Lemma no_senders_fresh (c : nat) : c ∈ (@nil nat) → fresh_channel [] c.
Proof. intros Hc. by apply elem_of_nil in Hc. Qed.

Lemma memory_stream_delivery_witness :
  ∃ ch, stream_written.1.1 !! 1 = Some ch ∧ ch_received ch `prefix_of` [batch_a; batch_b] ∧
    length (ch_buffer ch) ≤ ch_capacity ch.
Proof.
  destruct (memory_stream_delivery [] 1 2 [] [0; 1] stream_created 1 stream_written.1.1
    stream_written.1.2 [batch_a; batch_b] 1 1) as (ch & H1 & H2 & H3 & _).
  - lia.
  - constructor.
  - apply no_senders_fresh.
  - apply stream_created_starts.
  - exact stream_written_reachable.
  - done.
  - eauto.
Defined.

Lemma memory_write_total_witness :
  write_all stream_written.1.1 stream_written.1.2 batch_a ⇓ λ '(_, _, active),
    sink_state active = SinkOk.
Proof.
  eapply total_mono; [apply (memory_write_total [] 1 2 [] [0; 1] stream_created 1
    stream_written.1.1 stream_written.1.2 [batch_a; batch_b])|].
  - lia.
  - constructor.
  - apply no_senders_fresh.
  - apply stream_created_starts.
  - exact stream_written_reachable.
  - intros [[chs s] active] [H _]. rewrite H. by_run.
Defined.

Lemma memory_backlog_drains_witness :
  close_iteration stream_written.1.1 stream_written.1.2 1 ⇓
    iteration_ok [0; 1] (λ _, [batch_a; batch_b]) stream_written.1.1 stream_written.1.2 1 1 (λ ov, ov = []).
Proof.
  destruct (memory_backlog_drains [] 1 2 [] [0; 1] stream_created 1
    stream_written.1.1 stream_written.1.2 [batch_a; batch_b] 1 1) as [_ Hc].
  - lia.
  - constructor.
  - apply no_senders_fresh.
  - apply stream_created_starts.
  - exact stream_written_reachable.
  - done.
  - eapply total_mono; [exact Hc|]. by intros r [H _].
Defined.

(** ** The stream manager *)

Definition manager_options : StreamManagerOptions := MkStreamManagerOptions 1 30 "/tmp/spill".

Definition stream_key (p : nat) : TaskStreamKey := MkTaskStreamKey 1 0 p 0 0.

(** A reader asks for the stream of partition 0, which nobody has created. *)
Definition manager_waiting : StreamManager :=
  (returned (fetch_local_stream (stream_manager_new manager_options) (MkActorContext 0 []) (stream_key 0))
    (Err (InternalError ""), stream_manager_new manager_options, MkActorContext 0 [])).1.2.

Lemma manager_waiting_reachable : manager_reachable manager_options manager_waiting.
Proof.
  eapply ManagerNext; [apply ManagerStart|].
  eapply (MgFetch _ (MkActorContext 0 []) (stream_key 0)). by_run.
Qed.

Lemma fetch_local_stream_outcome_witness :
  fetch_local_stream manager_waiting (MkActorContext 0 []) (stream_key 0) ⇓ λ '(_, self', _),
    ∀ k1 k2 c, waits_for self' k1 c → waits_for self' k2 c → k1 = k2.
Proof.
  eapply total_mono; [apply (fetch_local_stream_outcome manager_options manager_waiting
    (MkActorContext 0 []) (stream_key 0))|].
  - simpl. lia.
  - exact manager_waiting_reachable.
  - by intros [[r self'] ctx'] [_ H].
Defined.

Lemma pending_stream_failed_witness :
  ∃ ch, sm_channels (fail_local_stream_if_pending manager_waiting (stream_key 0)) !! 0 = Some ch ∧
    ch_received ch = [] ∧
    ch_buffer ch = [Err (stream_error_of_cause
      (CauseExecution "local stream is not created within the expected time"))].
Proof.
  destruct (pending_stream_failed manager_options manager_waiting (stream_key 0) [0])
    as (_ & _ & H & _).
  - simpl. lia.
  - exact manager_waiting_reachable.
  - by_run.
  - apply H; [by apply list_elem_of_singleton|by_run].
Defined.

Lemma waiting_readers_served_witness :
  create_local_stream manager_waiting (stream_key 0) (StorageMemory 2) 3 ⇓ λ '(r, self'),
    is_ok r = true ∧ ∃ m, sm_local_streams self' !! stream_key 0 = Some (LssCreated (LsMemory m)) ∧
      length (ms_receivers m) = 1.
Proof.
  eapply total_mono; [apply (waiting_readers_served manager_options manager_waiting (stream_key 0) [0]
    2 (3 : Schema (DataFusion := sample_df)))|].
  - simpl. lia.
  - exact manager_waiting_reachable.
  - by_run.
  - intros [r self'] (s & receivers & -> & -> & Hl & _). split; [done|].
    exists (MkMemoryStream None receivers). by rewrite lookup_insert_eq.
Defined.
