(* ===== verification/DriverWitnesses.v ===== *)
(** * Witnesses: the worker pool, the driver and the job output

    Concrete runs of the pool and of the whole driver of the sample engine. *)

From S2P Require Import Prelude Ids JobGraph Topology JobState JobScheduler AttemptsFacts SchedulerSystem TaskAssigner TaskAssignerFacts Streams Actor StreamManager WorkerPool WorkerPoolTheorems DriverInterfaces JobOutput Driver DriverFacts DriverTheorems Samples.

#[local] Existing Instances sample_df sample_hash sample_causes sample_planner sample_disk
  sample_clock sample_executor.

(** ** The worker pool *)

Definition pool_options : WorkerPoolOptions :=
  MkWorkerPoolOptions false "driver" 9000 60 5 30 20 4 30 "/tmp/spill" (RetryFixed 3 1).

Definition pool_started : WorkerPool * ActorContext :=
  start_worker (worker_pool_new pool_options) (MkActorContext 0 []).

Definition pool_registered : WorkerPool * ActorContext :=
  let r := register_worker pool_started.1 pool_started.2 1 "worker-1" 7000 in (r.1.2, r.2).

Lemma pool_started_reachable : rtc pool_step (pool_start pool_options) pool_started.
Proof. apply rtc_once. apply (PoolStart (worker_pool_new pool_options) (MkActorContext 0 [])). Qed.

Lemma pool_registered_step : rtc pool_step pool_started pool_registered.
Proof. apply rtc_once. apply (PoolRegister pool_started.1 pool_started.2 1 "worker-1" 7000). Qed.

Lemma pool_registered_reachable : rtc pool_step (pool_start pool_options) pool_registered.
Proof. etrans; [apply pool_started_reachable|apply pool_registered_step]. Qed.

Lemma worker_pool_invariant_witness :
  NoDup (im_keys (wp_workers pool_registered.1)) ∧ is_Some (im_get 1%N (wp_workers pool_registered.1)).
Proof.
  destruct (worker_pool_invariant pool_options pool_registered.1 pool_registered.2
    pool_registered_reachable) as [H _].
  split; [done|]. vm_compute. eauto.
Defined.

Lemma worker_lifecycle_witness :
  ∃ d d', im_get 1%N (wp_workers pool_started.1) = Some d ∧
    im_get 1%N (wp_workers pool_registered.1) = Some d' ∧ worker_evolves d d'.
Proof.
  destruct (worker_lifecycle pool_options pool_started.1 pool_started.2 pool_registered.1
    pool_registered.2 pool_started_reachable pool_registered_step) as [H _].
  destruct (im_get 1%N (wp_workers pool_started.1)) as [d|] eqn:Hd; [|by vm_compute in Hd].
  destruct (H 1%N d Hd) as (d' & Hd' & Hev). exists d, d'. by split_and!.
Defined.

Definition sample_definition : TaskDefinition :=
  MkTaskDefinition [] [] (MkTaskOutput (OutRoundRobin 1) (OutLocal 1)).

Lemma run_task_dispatch_witness :
  ∃ peers, EffSpawn (SpRunTask 1 (MkTaskKey 1 0 0 0) sample_definition peers) ∈
    ctx_effects (run_task pool_registered.1 pool_registered.2 1 (MkTaskKey 1 0 0 0) sample_definition).2.
Proof.
  pose proof (run_task_dispatch pool_options pool_registered.1 pool_registered.2 1
    (MkTaskKey 1 0 0 0) sample_definition pool_registered_reachable) as H.
  destruct (run_task _ _ _ _ _) as [p' ctx'].
  destruct (im_get 1%N (wp_workers pool_registered.1)) as [d|] eqn:Hd; [|by vm_compute in Hd].
  assert (wd_state <$> im_get 1%N (wp_workers pool_registered.1) =
    Some (WorkerRunning "worker-1" 7000 1 2 None)) as Hs by by_run.
  rewrite Hd in Hs. injection Hs as Hs. rewrite Hs in H. destruct H as [H _].
  eexists. simpl. rewrite H. apply elem_of_app. right. apply elem_of_cons. right.
  by apply list_elem_of_singleton.
Defined.

(** ** The driver *)

Definition driver_options : DriverOptions :=
  MkDriverOptions false "0.0.0.0" 0 "driver" 9000 1 4 4 60 5 30 20 60 4 30 "/tmp/spill" 2
    (RetryFixed 3 1).

Lemma driver_options_ok : options_ok driver_options.
Proof. split; simpl; lia. Qed.

Notation DriverState := (DriverActor * ActorContext)%type.

Fixpoint driver_run (st : DriverState) (events : list DriverEvent) : Run DriverState :=
  match events with
  | [] => Returns st
  | event :: events =>
      '(action, d, ctx) ← receive EvenSpread st.1 st.2 event;
      match action with
      | ActorContinue => driver_run (d, ctx) events
      | ActorStop => Panics
      end
  end.

Lemma driver_run_steps st events st' :
  driver_run st events = Returns st' → rtc (driver_step EvenSpread) st st'.
Proof.
  revert st. induction events as [|event events IH]; intros [d ctx]; simpl; [by intros [= <-]|].
  destruct (receive _ _ _ _) as [[[action d'] ctx']| |] eqn:Hr; simpl; [|done..].
  destruct action; [|done]. intros Hrun. eapply rtc_l; [|by apply IH].
  by eapply DriverReceive.
Qed.

Definition driver_after (events : list DriverEvent) : DriverState :=
  returned (driver_run (driver_initial driver_options) events) (driver_initial driver_options).

Lemma driver_after_reachable events :
  returns (driver_run (driver_initial driver_options) events) = true →
  driver_reachable EvenSpread driver_options ((driver_after events).1, (driver_after events).2).
Proof. rewrite <-surjective_pairing. intros H. eapply driver_run_steps, returned_eq, H. Qed.

(** The server comes up, the initial worker registers, a job is executed, and its
    tasks start. *)
Definition events_ready : list DriverEvent :=
  [EvServerReady 9000 1; EvRegisterWorker 1 "worker-1" 7000 2].
Definition events_job : list DriverEvent := events_ready ++ [EvExecuteJob ((7, 3) : nat * nat) tt 3].
Definition events_running : list DriverEvent :=
  events_job ++ [EvUpdateTask (MkTaskKey 1 0 0 0) StatusRunning None None (Some 5%N)].

Ltac by_events := apply driver_after_reachable; by_run.

Lemma driver_total_witness :
  returns (receive EvenSpread (driver_after events_job).1 (driver_after events_job).2
    (EvProbeLostWorker 1 100)) = true.
Proof.
  pose proof (driver_total EvenSpread driver_options (driver_after events_job).1
    (driver_after events_job).2 (EvProbeLostWorker 1 100) driver_options_ok
    ltac:(by_events)) as H.
  by destruct (receive _ _ _ _).
Defined.

Lemma driver_coherent_witness :
  EffSendWithDelay (EvProbePendingTask (MkTaskKey 1 1 2 0)) 60 ∈
    ctx_effects (driver_after events_running).2.
Proof.
  destruct (driver_coherent EvenSpread driver_options (driver_after events_running).1
    (driver_after events_running).2 driver_options_ok ltac:(by_events)) as (_ & _ & _ & H).
  apply (H (MkTaskKey 1 1 2 0)). vm_compute. eauto.
Defined.

(** Two jobs are accepted while the first worker starts, so that three more workers
    are requested; the second job is cleaned up, the first worker registers, and two
    of the requested workers never start. *)
Definition events_stranded : list DriverEvent :=
  [EvServerReady 9000 1; EvExecuteJob ((7, 3) : nat * nat) tt 3;
   EvExecuteJob ((7, 3) : nat * nat) tt 4; EvCleanUpJob 2; EvRegisterWorker 1 "worker-1" 7000 2;
   EvProbePendingWorker 2; EvProbePendingWorker 3].

(** The driver can reach a state in which no requested worker is awaited and the
    vacant slots would hold the whole queue, but the queue has not been assigned: the
    probe of a worker that never started scales up without running tasks. *)
Theorem probe_pending_worker_strands_queue :
  let a := da_task_assigner (driver_after events_stranded).1 in
  returns (driver_run (driver_initial driver_options) events_stranded) = true ∧
  as_requested_worker_count a = 0%N ∧ enqueued_slots a = 3%N ∧ vacant_slots a = 4%N.
Proof. vm_compute. done. Qed.

Lemma run_tasks_launches_witness :
  run_tasks EvenSpread ((driver_after events_stranded).1, (driver_after events_stranded).2) ⇓ λ st',
    ∃ l a, assign_tasks EvenSpread (da_task_assigner (driver_after events_stranded).1) = Returns (l, a) ∧
      launches (assignment_keys l) (driver_after events_stranded).2 st'.2.
Proof.
  eapply total_mono; [apply (run_tasks_launches EvenSpread driver_options
    (driver_after events_stranded).1 (driver_after events_stranded).2 driver_options_ok
    ltac:(by_events))|].
  intros st' (l & a & Hl & Hla & _). eauto.
Defined.

Lemma status_update_recorded_witness :
  receive EvenSpread (driver_after events_running).1 (driver_after events_running).2
    (EvUpdateTask (MkTaskKey 1 0 0 0) StatusSucceeded None None (Some 6%N)) ⇓ λ r,
    ∃ a', find_attempt (da_job_scheduler (outcome_state r).1) (MkTaskKey 1 0 0 0) = Some a' ∧
      ta_state a' = TaskSucceeded.
Proof.
  eapply total_mono; [eapply (status_update_recorded EvenSpread driver_options
    (driver_after events_running).1 (driver_after events_running).2 (MkTaskKey 1 0 0 0)
    StatusSucceeded None None (Some 6%N))|].
  - exact driver_options_ok.
  - by_events.
  - by_run.
  - by_run.
  - intros r (a' & Ha' & _ & Hs). exists a'. split; [done|]. by apply Hs.
Defined.

Lemma lost_worker_cleared_witness :
  receive EvenSpread (driver_after events_running).1 (driver_after events_running).2
    (EvProbeLostWorker 1 50) ⇓ λ r,
    EffSpawn (SpStopWorker 1) ∈ ctx_effects (outcome_state r).2 ∧
    ∃ a, find_attempt (da_job_scheduler (outcome_state r).1) (MkTaskKey 1 0 0 0) = Some a ∧
      is_terminal (ta_state a) = true.
Proof.
  pose proof (lost_worker_cleared EvenSpread driver_options (driver_after events_running).1
    (driver_after events_running).2 1 50 2 driver_options_ok ltac:(by_events) ltac:(by_run)) as H.
  rewrite bool_decide_true in H by lia.
  eapply total_mono; [exact H|]. intros r (H1 & _ & _ & H4). split; [done|].
  apply H4. apply (bool_decide_unpack _). by_run.
Defined.

Lemma idle_worker_stopped_witness :
  ctx_effects (handle_probe_idle_worker (driver_after events_ready).1 (driver_after events_ready).2
    1 50).2 = ctx_effects (driver_after events_ready).2 ++ [EffSpawn (SpStopWorker 1)].
Proof.
  pose proof (idle_worker_stopped EvenSpread driver_options (driver_after events_ready).1
    (driver_after events_ready).2 1 50 1 driver_options_ok ltac:(by_events) ltac:(by_run)) as H.
  assert (is_worker_idle (da_task_assigner (driver_after events_ready).1) 1 = true) as Hi by by_run.
  cbv zeta in H. rewrite bool_decide_true in H by lia. rewrite Hi in H.
  exact (proj1 (proj2 H)).
Defined.

(** ** The job output *)

(** An attempt of a task has produced three rows when the stream of its retry
    arrives. *)
Definition output_key (attempt : nat) : TaskStreamKey := MkTaskStreamKey 1 1 0 attempt 0.

Definition output_rows : Item := Ok ([1; 2; 3] : RecordBatch (DataFusion := sample_df)).

Definition produced_stream (attempt rows : nat) : TaskStreamWrapper :=
  MkTaskStreamWrapper (output_key attempt) (Some (SourceChannel attempt)) rows.

Lemma output_produced :
  output_trace [(Some (output_key 0), output_rows)] (OutActive [produced_stream 0 3]).
Proof.
  apply (OutputNext [] job_output_stream_new
    (PollReady (Some (OutputStream (output_key 0) (SourceChannel 0))))
    (PollReady (Some (Some (output_key 0), output_rows)))); [constructor|].
  apply (PollActiveItem _ _ [produced_stream 0 0] (output_key 0, output_rows)); [done|].
  by apply (SelectItem [] (produced_stream 0 0) [] (SourceChannel 0) (output_rows)).
Qed.

Lemma output_single_attempt_witness :
  streams_ok [produced_stream 0 3] ∧
  ∃ out, output_poll (OutActive [produced_stream 0 3])
      (PollReady (Some (OutputStream (output_key 1) (SourceChannel 1)))) out OutFailed ∧
    ∃ e, out = PollReady (Some (None, Err e)).
Proof.
  set (e := StreamUnknown ("cannot add stream for " +:+ task_stream_key_display (output_key 1)
    +:+ ": a different attempt has already produced job output")).
  assert (output_poll (OutActive [produced_stream 0 3])
    (PollReady (Some (OutputStream (output_key 1) (SourceChannel 1))))
    (PollReady (Some (None, Err e))) OutFailed) as Hp by by apply PollFails.
  destruct (output_single_attempt _ (OutActive [produced_stream 0 3]) (output_key 1)
    (SourceChannel 1) (PollReady (Some (None, Err e))) OutFailed output_produced) as [H0 H].
  split; [exact H0|]. eexists. split; [exact Hp|].
  destruct (H Hp [produced_stream 0 3] (produced_stream 0 3)) as (He & _);
    [done|by apply list_elem_of_singleton|done|simpl; lia|done].
Defined.

(** A job output can deliver the rows of two attempts of one task channel: when the
    stream of the first attempt has ended before the stream of the retry arrives, it is
    not merged any more, so that no conflict is found. *)
Theorem output_duplicates :
  output_trace [(Some (output_key 0), output_rows); (Some (output_key 1), output_rows)]
    (OutActive [produced_stream 1 3]).
Proof.
  apply (OutputNext [(Some (output_key 0), output_rows)] (OutActive [])
    (PollReady (Some (OutputStream (output_key 1) (SourceChannel 1))))
    (PollReady (Some (Some (output_key 1), output_rows)))).
  - apply (OutputNext [(Some (output_key 0), output_rows)] (OutActive [produced_stream 0 3])
      PollPending PollPending); [apply output_produced|].
    apply (PollActiveWait _ _ [produced_stream 0 3] (PollReady None)); [done| |by right].
    apply (SelectEnded [] _ []). constructor.
  - apply (PollActiveItem _ _ [produced_stream 1 0] (output_key 1, output_rows)); [done|].
    by apply (SelectItem [] (produced_stream 1 0) [] (SourceChannel 1) (output_rows)).
Qed.
