(* ===== verification/WorkerWitnesses.v ===== *)
(** * Witnesses: the worker, its requests and the cluster

    Concrete runs of a worker of the sample engine, of the requests it exchanges
    with the driver, and of a driver with two workers. *)

From S2P Require Import Prelude Ids JobGraph Topology JobState JobScheduler SchedulerSystem TaskAssigner Streams Actor TaskCodec StreamManager Worker WorkerTheorems Rpc WorkerPool WorkerPoolTheorems Driver DriverFacts DriverTheorems Cluster Samples DriverWitnesses.

#[local] Existing Instances sample_df sample_hash sample_causes sample_planner sample_disk
  sample_clock sample_executor.

(** ** A 64-bit target and a wire format *)

Definition sample_target : Target := 64%N.

#[global] Instance sample_target_laws : TargetLaws sample_target.
Proof. unfold TargetLaws, usize_bits, sample_target. done. Qed.
#[local] Existing Instance sample_target.

Lemma sample_definition_fits : fits (G:=gen.TaskDefinition) sample_definition.
Proof. split; [by constructor|]. split; by_run. Qed.

Lemma task_definition_roundtrip_witness :
  definition_try_from (definition_to_gen sample_definition) = Ok sample_definition ∧
  is_ok (definition_try_from (gen.MkTaskDefinition [] [] None)) = false.
Proof.
  destruct (task_definition_roundtrip sample_definition (gen.MkTaskDefinition [] [] None)
    sample_definition_fits) as (H1 & _ & H3 & _).
  split; [exact H1|]. destruct (is_ok _); [|done]. by destruct (proj1 H3 eq_refl).
Defined.

(** Messages as positive numbers, and these as bits. *)
#[local] Instance byte_eq : EqDecision Byte.byte := Byte.byte_eq_dec.
#[local] Instance byte_countable : Countable Byte.byte.
Proof.
  refine (inj_countable (A:=N) Byte.to_N Byte.of_N _). intros b. apply Byte.of_to_N.
Defined.

#[local] Ltac by_fields f g :=
  refine (inj_countable' f g _); by intros [].

#[local] Instance driver_key_eq : EqDecision gen.TaskInputDriverKey. Proof. solve_decision. Defined.
#[local] Instance driver_key_countable : Countable gen.TaskInputDriverKey.
Proof.
  by_fields (λ x, (gen.dk_partition x, gen.dk_attempt x, gen.dk_channel x))
    (λ '(a, b, c), gen.MkTaskInputDriverKey a b c).
Defined.
#[local] Instance driver_keys_eq : EqDecision gen.TaskInputDriverKeyList. Proof. solve_decision. Defined.
#[local] Instance driver_keys_countable : Countable gen.TaskInputDriverKeyList.
Proof. by_fields gen.dkl_keys gen.MkTaskInputDriverKeyList. Defined.
#[local] Instance driver_loc_eq : EqDecision gen.TaskInputDriverLocator. Proof. solve_decision. Defined.
#[local] Instance driver_loc_countable : Countable gen.TaskInputDriverLocator.
Proof.
  by_fields (λ x, (gen.dl_stage x, gen.dl_keys x)) (λ '(a, b), gen.MkTaskInputDriverLocator a b).
Defined.
#[local] Instance worker_key_eq : EqDecision gen.TaskInputWorkerKey. Proof. solve_decision. Defined.
#[local] Instance worker_key_countable : Countable gen.TaskInputWorkerKey.
Proof.
  by_fields (λ x, (gen.wk_worker_id x, gen.wk_partition x, gen.wk_attempt x, gen.wk_channel x))
    (λ '(w, a, b, c), gen.MkTaskInputWorkerKey w a b c).
Defined.
#[local] Instance worker_keys_eq : EqDecision gen.TaskInputWorkerKeyList. Proof. solve_decision. Defined.
#[local] Instance worker_keys_countable : Countable gen.TaskInputWorkerKeyList.
Proof. by_fields gen.wkl_keys gen.MkTaskInputWorkerKeyList. Defined.
#[local] Instance worker_loc_eq : EqDecision gen.TaskInputWorkerLocator. Proof. solve_decision. Defined.
#[local] Instance worker_loc_countable : Countable gen.TaskInputWorkerLocator.
Proof.
  by_fields (λ x, (gen.wlo_stage x, gen.wlo_keys x)) (λ '(a, b), gen.MkTaskInputWorkerLocator a b).
Defined.
#[local] Instance remote_key_eq : EqDecision gen.TaskInputRemoteKey. Proof. solve_decision. Defined.
#[local] Instance remote_key_countable : Countable gen.TaskInputRemoteKey.
Proof.
  by_fields (λ x, (gen.rk_partition x, gen.rk_attempt x, gen.rk_channel x))
    (λ '(a, b, c), gen.MkTaskInputRemoteKey a b c).
Defined.
#[local] Instance remote_keys_eq : EqDecision gen.TaskInputRemoteKeyList. Proof. solve_decision. Defined.
#[local] Instance remote_keys_countable : Countable gen.TaskInputRemoteKeyList.
Proof. by_fields gen.rkl_keys gen.MkTaskInputRemoteKeyList. Defined.
#[local] Instance remote_loc_eq : EqDecision gen.TaskInputRemoteLocator. Proof. solve_decision. Defined.
#[local] Instance remote_loc_countable : Countable gen.TaskInputRemoteLocator.
Proof.
  by_fields (λ x, (gen.rl_uri x, gen.rl_stage x, gen.rl_keys x))
    (λ '(u, a, b), gen.MkTaskInputRemoteLocator u a b).
Defined.
#[local] Instance input_kind_eq : EqDecision gen.task_input_locator_Kind. Proof. solve_decision. Defined.
#[local] Instance input_kind_countable : Countable gen.task_input_locator_Kind.
Proof.
  by_fields
    (λ x, match x with
          | gen.KindDriver y => inl y | gen.KindWorker y => inr (inl y)
          | gen.KindRemote y => inr (inr y)
          end)
    (λ x, match x with
          | inl y => gen.KindDriver y | inr (inl y) => gen.KindWorker y
          | inr (inr y) => gen.KindRemote y
          end).
Defined.
#[local] Instance input_locator_eq : EqDecision gen.TaskInputLocator. Proof. solve_decision. Defined.
#[local] Instance input_locator_countable : Countable gen.TaskInputLocator.
Proof. by_fields gen.il_kind gen.MkTaskInputLocator. Defined.
#[local] Instance input_eq : EqDecision gen.TaskInput. Proof. solve_decision. Defined.
#[local] Instance input_countable : Countable gen.TaskInput.
Proof. by_fields gen.in_locator gen.MkTaskInput. Defined.
#[local] Instance hash_eq : EqDecision gen.TaskOutputHashDistribution. Proof. solve_decision. Defined.
#[local] Instance hash_countable : Countable gen.TaskOutputHashDistribution.
Proof.
  by_fields (λ x, (gen.hd_keys x, gen.hd_channels x))
    (λ '(a, b), gen.MkTaskOutputHashDistribution a b).
Defined.
#[local] Instance robin_eq : EqDecision gen.TaskOutputRoundRobinDistribution. Proof. solve_decision. Defined.
#[local] Instance robin_countable : Countable gen.TaskOutputRoundRobinDistribution.
Proof. by_fields gen.rr_channels gen.MkTaskOutputRoundRobinDistribution. Defined.
#[local] Instance dist_kind_eq : EqDecision gen.task_output_distribution_Kind. Proof. solve_decision. Defined.
#[local] Instance dist_kind_countable : Countable gen.task_output_distribution_Kind.
Proof.
  by_fields
    (λ x, match x with gen.KindHash y => inl y | gen.KindRoundRobin y => inr y end)
    (λ x, match x with inl y => gen.KindHash y | inr y => gen.KindRoundRobin y end).
Defined.
#[local] Instance dist_eq : EqDecision gen.TaskOutputDistribution. Proof. solve_decision. Defined.
#[local] Instance dist_countable : Countable gen.TaskOutputDistribution.
Proof. by_fields gen.od_kind gen.MkTaskOutputDistribution. Defined.
#[local] Instance out_local_eq : EqDecision gen.TaskOutputLocalLocator. Proof. solve_decision. Defined.
#[local] Instance out_local_countable : Countable gen.TaskOutputLocalLocator.
Proof. by_fields gen.ll_replicas gen.MkTaskOutputLocalLocator. Defined.
#[local] Instance out_remote_eq : EqDecision gen.TaskOutputRemoteLocator. Proof. solve_decision. Defined.
#[local] Instance out_remote_countable : Countable gen.TaskOutputRemoteLocator.
Proof. by_fields gen.orl_uri gen.MkTaskOutputRemoteLocator. Defined.
#[local] Instance out_kind_eq : EqDecision gen.task_output_locator_Kind. Proof. solve_decision. Defined.
#[local] Instance out_kind_countable : Countable gen.task_output_locator_Kind.
Proof.
  by_fields
    (λ x, match x with gen.KindLocal y => inl y | gen.KindOutRemote y => inr y end)
    (λ x, match x with inl y => gen.KindLocal y | inr y => gen.KindOutRemote y end).
Defined.
#[local] Instance out_locator_eq : EqDecision gen.TaskOutputLocator. Proof. solve_decision. Defined.
#[local] Instance out_locator_countable : Countable gen.TaskOutputLocator.
Proof. by_fields gen.ol_kind gen.MkTaskOutputLocator. Defined.
#[local] Instance output_eq : EqDecision gen.TaskOutput. Proof. solve_decision. Defined.
#[local] Instance output_countable : Countable gen.TaskOutput.
Proof.
  by_fields (λ x, (gen.out_distribution x, gen.out_locator x)) (λ '(a, b), gen.MkTaskOutput a b).
Defined.
#[local] Instance definition_eq : EqDecision gen.TaskDefinition. Proof. solve_decision. Defined.
#[local] Instance definition_countable : Countable gen.TaskDefinition.
Proof.
  by_fields (λ x, (gen.def_plan x, gen.def_inputs x, gen.def_output x))
    (λ '(a, b, c), gen.MkTaskDefinition a b c).
Defined.
#[local] Instance ticket_eq : EqDecision TaskStreamTicket. Proof. solve_decision. Defined.
#[local] Instance ticket_countable : Countable TaskStreamTicket.
Proof.
  by_fields (λ x, (tt_job_id x, tt_stage x, tt_partition x, tt_attempt x, tt_channel x))
    (λ '(a, b, c, d, e), MkTaskStreamTicket a b c d e).
Defined.

Fixpoint positive_bits (p : positive) : list Byte.byte :=
  match p with
  | xH => []
  | xO p => Byte.x00 :: positive_bits p
  | xI p => Byte.x01 :: positive_bits p
  end.
Fixpoint bits_positive (l : list Byte.byte) : positive :=
  match l with
  | [] => xH
  | Byte.x00 :: l => xO (bits_positive l)
  | _ :: l => xI (bits_positive l)
  end.
Lemma bits_back p : bits_positive (positive_bits p) = p.
Proof. induction p; simpl; by rewrite ?IHp. Qed.

Definition bits_decode `{Countable A} (l : list Byte.byte) : Result ForeignError A :=
  match decode (bits_positive l) with
  | Some a => Ok a
  | None => Err (MkForeignError "failed to decode")
  end.
Lemma bits_decode_encode `{Countable A} (a : A) : bits_decode (positive_bits (encode a)) = Ok a.
Proof. unfold bits_decode. by rewrite bits_back, decode_encode. Qed.

Definition sample_wire : WireFormat := {|
  encode_definition := λ g, positive_bits (encode g);
  decode_definition := bits_decode;
  encode_ticket := λ t, positive_bits (encode t);
  decode_ticket := bits_decode;
  cause_to_json := λ c, match c with
                        | CauseUnknown m => Ok m
                        | _ => Err (MkForeignError "unsupported")
                        end;
  cause_from_json := λ s, Ok (CauseUnknown s)
|}.
#[global] Instance sample_wire_laws : WireFormatLaws sample_wire.
Proof.
  split; [apply bits_decode_encode|apply bits_decode_encode|].
  intros [] s [= <-]; done.
Qed.
#[local] Existing Instance sample_wire.

Definition sample_key : TaskKey := MkTaskKey 1 0 0 0.

Lemma worker_requests_arrive_witness :
  server_run_task (client_run_task sample_key sample_definition
    [MkWorkerLocation 2 "worker-2" 7001]) =
    Ok (WvRunTask sample_key sample_definition [MkWorkerLocation 2 "worker-2" 7001]).
Proof.
  apply (worker_requests_arrive sample_key sample_definition [MkWorkerLocation 2 "worker-2" 7001]
    1 (Some 0) (MkTaskStreamKey 1 0 0 0 0)).
  - split_and!; by_run.
  - apply sample_definition_fits.
  - constructor; [by_run|constructor].
  - by_run.
  - split_and!; by_run.
Defined.

Lemma driver_requests_arrive_witness :
  server_report_task_status (MkReportTaskStatusRequest 1 0 0 0 2 None (Some "boom") 42) =
    Ok (EvUpdateTask sample_key StatusFailed None (Some (CauseUnknown "boom")) (Some 42%N)) ∧
  is_ok (server_report_task_status (MkReportTaskStatusRequest 1 0 0 0 4 None None 42)) = false.
Proof.
  destruct driver_requests_arrive as (_ & _ & H3 & _ & H5). split.
  - apply (H3 sample_key StatusFailed None (Some (CauseUnknown "boom")) 42%N).
    + split_and!; by_run.
    + by_run.
  - destruct (is_ok _) eqn:Ho; [|done]. apply H5 in Ho. simpl in Ho. lia.
Defined.

(** ** A worker that runs a task *)

Definition sample_worker_executor : WorkerExecutor := λ _ _, Ok tt.
#[local] Existing Instance sample_worker_executor.

Definition worker_options (id port : N) : WorkerOptions :=
  MkWorkerOptions id false "driver" 9000 "127.0.0.1" port 5 4 30 "/tmp/spill" (RetryFixed 3 1).

Fixpoint worker_run (w : WorkerActor) (ctx : WorkerContext) (events : list WorkerEvent)
    : Run (WorkerActor * WorkerContext) :=
  match events with
  | [] => Returns (w, ctx)
  | event :: events =>
      '(action, w, ctx) ← worker_receive w ctx event;
      match action with
      | ActorContinue => worker_run w ctx events
      | ActorStop => Panics
      end
  end.

Lemma worker_run_reachable o w ctx hist events w' ctx' :
  worker_reachable o w ctx hist → worker_run w ctx events = Returns (w', ctx') →
  worker_reachable o w' ctx' (hist ++ events).
Proof.
  revert w ctx hist. induction events as [|event events IH]; intros w ctx hist Hr; simpl.
  { intros [= <- <-]. by rewrite app_nil_r. }
  destruct (worker_receive _ _ _) as [[[[] w1] ctx1]| |] eqn:He; simpl; [|done..].
  intros Hrun. rewrite (cons_middle event hist events), app_assoc.
  eapply IH; [|exact Hrun]. by eapply WorkerReceive.
Qed.

Definition worker_after (o : WorkerOptions) (events : list WorkerEvent)
    : WorkerActor * WorkerContext :=
  returned (worker_run (worker_start (worker_new o)) [] events) (worker_new o, []).

Lemma worker_after_reachable o events :
  returns (worker_run (worker_start (worker_new o)) [] events) = true →
  worker_reachable o (worker_after o events).1 (worker_after o events).2 events.
Proof.
  intros H. apply (worker_run_reachable o _ _ [] events _ _ (WorkerInitial o)).
  rewrite <-surjective_pairing. by apply returned_eq.
Qed.

(** The reports of a task monitor whose stream ends. *)
Definition events_monitored : list WorkerEvent :=
  [WvServerReady 7000 1; WvRunTask sample_key sample_definition [];
   WvReportTaskStatus sample_key StatusRunning None None;
   WvReportTaskStatus sample_key StatusSucceeded None None].

Lemma worker_total_witness :
  worker_receive (worker_after (worker_options 1 7000) events_monitored).1
    (worker_after (worker_options 1 7000) events_monitored).2 WvShutdown ⇓ λ r, r.1.1 = ActorStop.
Proof.
  eapply total_mono; [eapply (worker_total (worker_options 1 7000)
    (worker_after (worker_options 1 7000) events_monitored).1
    (worker_after (worker_options 1 7000) events_monitored).2 events_monitored WvShutdown)|].
  - simpl. lia.
  - apply worker_after_reachable. by_run.
  - intros [[action w] ctx] [_ H]. by apply H.
Defined.

Definition driver_succeeded : DriverActor * ActorContext :=
  driver_after (events_job ++ [EvUpdateTask sample_key StatusSucceeded None None (Some 43%N)]).

Lemma late_report_ignored_witness :
  receive EvenSpread driver_succeeded.1 driver_succeeded.2
    (EvUpdateTask sample_key StatusRunning None None (Some 42%N)) =
  Returns (ActorContinue, driver_succeeded.1, driver_succeeded.2).
Proof.
  apply (late_report_ignored EvenSpread driver_options (driver_after events_job).1
    (driver_after events_job).2 (worker_options 1 7000)
    (worker_after (worker_options 1 7000) events_monitored).1
    (worker_after (worker_options 1 7000) events_monitored).2 events_monitored 0 1
    (sample_key, StatusRunning, None, None) (sample_key, StatusSucceeded, None, None) 42 43
    driver_succeeded.1 driver_succeeded.2 driver_succeeded.1 driver_succeeded.2).
  - exact driver_options_ok.
  - by_events.
  - apply worker_after_reachable. by_run.
  - by_run.
  - by_run.
  - lia.
  - done.
  - by_run.
  - apply rtc_refl.
Defined.

(** ** Two workers *)

Definition cl_start (c : Cluster) : Cluster :=
  MkCluster (start_worker (cl_pool c) (cl_ctx c)).1 (start_worker (cl_pool c) (cl_ctx c)).2
    (cl_workers c).
Definition cl_join (o : WorkerOptions) (c : Cluster) : Cluster :=
  MkCluster (cl_pool c) (cl_ctx c)
    (<[wo_worker_id o := (worker_start (worker_new o), [])]> (cl_workers c)).
Definition cl_ready (o : WorkerOptions) (c : Cluster) : Cluster :=
  MkCluster (cl_pool c) (cl_ctx c)
    (<[wo_worker_id o := worker_after o [WvServerReady 0 1]]> (cl_workers c)).
Definition cl_register (o : WorkerOptions) (c : Cluster) : Cluster :=
  let r := register_worker (cl_pool c) (cl_ctx c) (wo_worker_id o) (wo_worker_external_host o)
             (wo_worker_external_port o) in
  MkCluster r.1.2 r.2 (cl_workers c).

Lemma cl_started c : cluster_step c (cl_start c).
Proof. apply ClPool. rewrite <-surjective_pairing. constructor. Qed.

Lemma cl_joined o c :
  cl_workers c !! wo_worker_id o = None → (0 < wo_worker_external_port o)%N →
  rtc cluster_step c (cl_register o (cl_ready o (cl_join o c))).
Proof.
  intros Hn Hp. eapply rtc_l; [by apply (ClWorkerStart c o)|]. eapply rtc_l.
  { apply (ClWorkerReceive (cl_join o c) (wo_worker_id o) (worker_start (worker_new o)) []
      (WvServerReady 0 1) (worker_after o [WvServerReady 0 1]).1
      (worker_after o [WvServerReady 0 1]).2); [apply lookup_insert_eq|done|done]. }
  apply rtc_once.
  apply (ClRegister (cl_ready o (cl_join o c)) (wo_worker_id o) (wo_worker_external_host o)
    (wo_worker_external_port o) (worker_after o [WvServerReady 0 1]).1
    (worker_after o [WvServerReady 0 1]).2).
  - apply lookup_insert_eq.
  - simpl. rewrite decide_True by done. by apply list_elem_of_singleton.
Qed.

Definition sample_cluster : Cluster :=
  cl_register (worker_options 2 7001) (cl_ready (worker_options 2 7001)
    (cl_join (worker_options 2 7001)
      (cl_register (worker_options 1 7000) (cl_ready (worker_options 1 7000)
        (cl_join (worker_options 1 7000) (cl_start (cl_start (cluster_start pool_options)))))))).

Lemma sample_cluster_reachable : rtc cluster_step (cluster_start pool_options) sample_cluster.
Proof.
  eapply rtc_l; [apply (cl_started (cluster_start pool_options))|].
  eapply rtc_l; [apply (cl_started (cl_start (cluster_start pool_options)))|].
  etrans; [apply (cl_joined (worker_options 1 7000)); by_run|].
  apply (cl_joined (worker_options 2 7001)); by_run.
Qed.

Definition sample_run : WorkerPool * ActorContext :=
  run_task (cl_pool sample_cluster) (cl_ctx sample_cluster) 1 sample_key sample_definition.

(** The effects of sending the task. *)
Definition sample_sent : list Effect :=
  drop (length (ctx_effects (cl_ctx sample_cluster))) (ctx_effects sample_run.2).

Definition sample_peers : list WorkerLocation :=
  [MkWorkerLocation 1 "127.0.0.1" 7000; MkWorkerLocation 2 "127.0.0.1" 7001].

Definition sample_received : WorkerActor * WorkerContext :=
  worker_after (worker_options 1 7000)
    [WvServerReady 0 1; WvRunTask sample_key sample_definition sample_peers].

Lemma peers_reachable_witness :
  (peer_get_client_set (wa_peer_tracker sample_received.1) 2).1 =
    Ok (MkClientOptions false "127.0.0.1" 7001).
Proof.
  apply (peers_reachable pool_options sample_cluster 1 sample_key sample_definition sample_run.1
    sample_run.2 sample_sent sample_peers
    (MkCluster sample_run.1 sample_run.2 (cl_workers sample_cluster))
    (worker_after (worker_options 1 7000) [WvServerReady 0 1]).1
    (worker_after (worker_options 1 7000) [WvServerReady 0 1]).2
    sample_received.1 sample_received.2 (MkWorkerLocation 2 "127.0.0.1" 7001)).
  - apply sample_cluster_reachable.
  - by rewrite <-surjective_pairing.
  - by_run.
  - assert (sample_sent = [EffSendWithDelay (EvProbeIdleWorker 1 6) 60;
      EffSpawn (SpRunTask 1 sample_key sample_definition sample_peers)]) as -> by by_run.
    set_solver.
  - apply rtc_refl.
  - by_run.
  - by_run.
  - assert (list_running_workers (cl_pool sample_cluster) = sample_peers) as -> by by_run.
    unfold sample_peers. set_solver.
  - done.
Defined.
