(* ===== verification/CatalogWitnesses.v ===== *)
(** * Witnesses: the catalogs

    A memory catalog with a database [default], cached and used by a session. *)

From Stdlib Require Import Ascii String.
From S2P Require Import Prelude Collections CatalogNames CatalogTypes CatalogProvider CatalogTypesTheorems CatalogCache CatalogCacheTheorems CatalogTheorems CatalogManager CatalogCommand CatalogManagerTheorems Samples.

Definition sample_catalog_engine : CatalogEngine := {|
  LogicalPlan := list Field;
  plan_fields := id;
  ScalarUDF := string;
  udf_name := id;
  data_type_display := λ _, "type";
  plan_error_display := λ m, "Error during planning: " +:+ m
|}.
#[local] Existing Instances sample_catalog_engine sample_hash.

Definition sample_regex : RegexEngine := λ _ _, Some true.
#[local] Existing Instance sample_regex.

(** ** The catalog *)

Definition ns_default : Namespace := MkNamespace "default" [].
Definition catalog_empty : MemoryCatalogProvider := memory_new "spark" ns_default None.

Definition int_column (name : string) : CreateTableColumnOptions :=
  MkCreateTableColumnOptions name (DtOther "int") true None None None.
Definition delta_table : CreateTableOptions :=
  MkCreateTableOptions [int_column "a"; int_column "b"] None [] (Some "/t") false "delta" [] [] None
    false false [("k", "v")].

Definition create_t : CatalogCall := CallCreateTable ns_default "t" delta_table.
Definition catalog_with_t : MemoryCatalogProvider := (call create_t catalog_empty).2.

Lemma catalog_with_t_reachable : memory_reachable "spark" catalog_with_t.
Proof. apply (MemoryCall "spark" catalog_empty create_t). apply MemoryNew. Qed.


Definition spec_empty : CatalogSpec :=
  MkCatalogSpec "spark" {[ ns_default := MkDatabaseStatus "spark" ["default"] None None [] ]} ∅ ∅.

Lemma catalog_empty_represents : represents catalog_empty spec_empty.
Proof.
  split; [done|simpl; by rewrite map_fmap_singleton| |]; intros n t; simpl; rewrite lookup_empty;
    (destruct (decide (ns_default = n)) as [<-|Hne];
     [by rewrite lookup_singleton_eq|by rewrite lookup_singleton_ne]).
Qed.

Lemma memory_catalog_refines_witness :
  ∃ a, spec_step create_t spec_empty
      (RpTable (Ok (new_table "spark" ns_default "t" delta_table))) a ∧
    represents catalog_with_t a.
Proof.
  exact (memory_catalog_refines "spark" catalog_empty spec_empty create_t
    (MemoryNew "spark" ns_default None) catalog_empty_represents).
Defined.

(** ** Caching *)

Definition cache_config : CatalogCacheConfig :=
  MkCatalogCacheConfig CacheTypeSession (Some 10%N) None CacheTypeSession (Some 0%N) (Some 60%N)
    CacheTypeNone None None.
Definition caching_empty : CachingCatalogProvider MemoryCatalogProvider :=
  caching_new catalog_empty cache_config None.

(** Listing before and after creating a table. *)
Definition cached_calls : list CatalogCall :=
  [CallListTables ns_default; CallListTables ns_default; create_t; CallListTables ns_default].

Fixpoint cached_replies (p : CachingCatalogProvider MemoryCatalogProvider) (calls : list CatalogCall)
    : list (CatalogCall * CatalogReply) * CachingCatalogProvider MemoryCatalogProvider :=
  match calls with
  | [] => ([], p)
  | c :: calls => let '(rs, p') := cached_replies (call c p).2 calls in ((c, (call c p).1) :: rs, p')
  end.

Lemma cached_replies_run p calls : caching_run p (cached_replies p calls).1 (cached_replies p calls).2.
Proof.
  revert p. induction calls as [|c calls IH]; intros p; simpl; [constructor|].
  specialize (IH (call c p).2). destruct (cached_replies (call c p).2 calls) as [rs p'].
  by apply CachingCall.
Qed.
Lemma cached_calls_clean (s : MemoryCatalogProvider) calls :
  Forall (λ c, is_alter c = false) calls → clean_calls s calls.
Proof.
  intros Hc. revert s. induction Hc as [|c calls Ha _ IH]; intros s; simpl; [done|].
  split; [|done]. intros Hr l. by rewrite memory_failure_same.
Qed.


(** A statement that drops a column and then fails leaves the cached listing with
    the column that the table has no longer. *)
Definition drop_a_and_c : CatalogCall := CallAlterTable ns_default "t" (DropColumns [["a"]; ["c"]] false).
Definition columns_listed (r : CatalogReply) : list (list string) :=
  match r with
  | RpTables (Ok l) => (λ st, co_name <$> kind_columns (tst_kind st)) <$> l
  | RpTable (Ok st) => [co_name <$> kind_columns (tst_kind st)]
  | _ => []
  end.
Example failed_drop_listed :
  columns_listed ∘ snd <$> (cached_replies caching_empty
    [create_t; CallListTables ns_default; drop_a_and_c; CallGetTable ns_default "t";
     CallListTables ns_default]).1 = [[["a"; "b"]]; [["a"; "b"]]; []; [["b"]]; [["a"; "b"]]].
Proof. by_run. Qed.

Lemma concurrent_listing_stale_witness :
  ∃ p3 : CachingCatalogProvider MemoryCatalogProvider, caching_list_tables ns_default p3 = (Ok [], p3) ∧
    (caching_get_table ns_default "t" p3).1 = Ok (new_table "spark" ns_default "t" delta_table).
Proof.
  destruct (concurrent_listing_stale caching_empty ns_default "t" delta_table
    (build_cache (Some 0%N) (Some 60%N))
    (MkMemoryDatabase (MkDatabaseStatus "spark" ["default"] None None []) ∅ ∅)
    [] caching_empty) as (_ & H2 & H3 & _); [done..|].
  eexists. split; [exact H3|exact H2].
Defined.

(** ** Altering *)

Definition nested_columns : list TableColumnStatus :=
  [add_column (MkCreateTableColumnOptions "s"
     (DtStruct [MkField "x" (DtOther "int") true []; MkField "y" (DtOther "int") true []])
     true None None None)].

Lemma alter_column_type_lens_witness :
  ∃ columns', alter_column_type nested_columns ["s"; "y"] (DtOther "long") = Ok columns' ∧
    column_type_at columns' ["s"; "y"] = Some (DtOther "long") ∧
    column_type_at columns' ["s"; "x"] = Some (DtOther "int").
Proof.
  destruct (alter_column_type nested_columns ["s"; "y"] (DtOther "long")) as [columns'|e] eqn:Ha;
    [|by vm_compute in Ha].
  exists columns'. split; [done|].
  destruct (alter_column_type_lens nested_columns ["s"; "y"] (DtOther "long") columns' Ha)
    as (_ & H & _). split; [exact H|]. vm_compute in Ha. injection Ha as <-. by_run.
Defined.

Definition sample_info : TableInfo :=
  MkTableInfo (add_column <$> [int_column "a"; int_column "b"]) None [] None "delta" [] [] None [] true.

Lemma failed_removal_applied_witness :
  alter_info "t" (DropColumns [["a"]; ["missing"]] false) sample_info =
    (Err (column_missing "t" "missing"), ti_with_columns sample_info [add_column (int_column "b")]).
Proof.
  destruct (failed_removal_applied "t" [["a"]; ["missing"]] [] false sample_info) as [H _].
  assert (alter_info "t" (DropColumns [["a"]; ["missing"]] false) sample_info =
    (Err (column_missing "t" "missing"), ti_with_columns sample_info [add_column (int_column "b")]))
    as Ha by by_run.
  by destruct (H _ _ Ha) as [[? _]|_].
Defined.

(** ** A session *)

(** Formats that accept every change, and a storage that counts them. *)
Definition sample_formats : TableFormats := {|
  Storage := nat;
  registry_extension := Ok tt;
  registry_get := λ _, Ok tt;
  format_alter := λ _ _ _ st, (Ok tt, Datatypes.S st);
  data_type_to_simple_string := λ t, match t with DtOther n => Some n | _ => None end
|}.
#[local] Existing Instance sample_formats.

Definition sample_manager : CatalogManager MemoryCatalogProvider :=
  MkCatalogManager {[ "spark" := catalog_with_t ]} ∅ "spark" ns_default
    (MkNamespace "global_temp" []) ∅ tracker_new.
Definition sample_session : CommandState MemoryCatalogProvider :=
  MkCommandState (MkWorld sample_manager ∅) 0.

Lemma sample_session_ok : session_ok {["spark"]} (cs_world sample_session).
Proof.
  split; simpl; [by rewrite dom_singleton_L|set_solver|apply map_Forall_empty
    |apply map_Forall_empty|apply map_Forall_empty].
Qed.

Lemma session_invariant_witness :
  session_ok {["spark"]} (cs_world (run_commands
    [SetCurrentCatalog "other"; DropTable ["t"] (MkDropTableOptions false false)] sample_session)).
Proof. exact (session_invariant {["spark"]} _ sample_session sample_session_ok). Defined.

Lemma list_databases_ignores_catalog_witness :
  resolve_optional_database_reference sample_manager ["spark"; "db"] =
    Ok ("spark", Some (MkNamespace "spark" ["db"])).
Proof. apply (list_databases_ignores_catalog sample_manager "spark" "db" []). by_run. Defined.

Definition add_c : AlterTableOptions := AddColumns [int_column "c"].

Lemma alter_table_layers_witness :
  cs_storage (execute_alter_table ["t"] false add_c sample_session).2 = 1.
Proof.
  destruct (get_table_or_view ["t"] (cs_world sample_session)) as [[status|e] w1] eqn:Hg;
    [|by vm_compute in Hg].
  destruct (execute_alter_table ["t"] false add_c sample_session) as [r s'] eqn:He.
  destruct (alter_table_layers ["t"] false add_c sample_session status w1 r s' Hg He) as [H _].
  assert (is_ok (execute_alter_table ["t"] false add_c sample_session).1 = true) as Hok by by_run.
  assert (storage_of <$> (let '(x, _) := get_table_or_view ["t"] (cs_world sample_session) in
    match x with Ok st => Some st | Err _ => None end) = Some (Some ("/t", "delta"))) as Hst by by_run.
  rewrite He in Hok. rewrite Hg in Hst. simpl in Hst, Hok. injection Hst as Hst. rewrite Hst in H.
  destruct H as [(_ & Hr & _)|(change & x & Hc & Hf & _)]; [by rewrite Hr in Hok|].
  simpl. by injection Hf as _ <-.
Defined.

(** The session with a temporary view of the same name. *)
Definition sample_view : TemporaryView (CE := sample_catalog_engine) :=
  MkTemporaryView (CE := sample_catalog_engine) [] [] None [].
Definition shadowed_session : CommandState MemoryCatalogProvider :=
  MkCommandState (MkWorld (cm_with_temporary_views sample_manager
    {[ "t" := sample_view ]}) ∅) 0.

Lemma shadowed_alter_skips_storage_witness :
  (execute_alter_table ["t"] false add_c shadowed_session).1 = Ok (ret_bool true) ∧
  cs_storage (execute_alter_table ["t"] false add_c shadowed_session).2 = 0.
Proof.
  rewrite (shadowed_alter_skips_storage "t" sample_view false
    add_c shadowed_session eq_refl).
  split; by_run.
Defined.
