(* ===== verification/DeltaWitnesses.v ===== *)
(** * Witnesses: a Delta table

    A table of four commits, with a checkpoint of its last version, on an engine
    whose schemas are their JSON text. *)

From Stdlib Require Import Ascii String.
From S2P Require Import Prelude Collections CatalogNames DeltaSpec DeltaProperties DeltaLog DeltaSegment DeltaSnapshot DeltaCheckpoint DeltaTransaction DeltaLogFacts DeltaCheckpointFacts DeltaStoreSystem DeltaTheorems DeltaCommitTheorems DeltaCompactionTheorems Samples.

Definition sample_delta : DeltaEngine := {|
  DeltaProperties.Schema := string;
  parse_schema_string := Some;
  arrow_schema := λ _, Ok tt;
  contains_timestampntz := λ _, false;
  contains_variant := λ _, false;
  parse_column_name_list := λ _, None;
  operation_parameters := λ _, None;
  package_version := "0";
  StructField := string;
  schema_fields := λ schema, [schema];
  struct_field_name := id;
  struct_field_metadata := λ _, ∅;
  StatsSchema := unit;
  stats_schema := λ _ _ _, Ok tt;
  read_stats_json := λ _ line, Ok (JsonString line);
  write_stats_json := λ j, match j with JsonString line => line | _ => EmptyString end;
  parse_partition_values := λ _ _ _, Ok tt;
  to_record_batch := λ _, Ok tt;
  write_record_batch := λ _, Ok tt
|}.
#[local] Existing Instances sample_delta sample_hash.

(** ** The table *)
Definition sample_protocol : Protocol := MkProtocol 1 2 None None.
Definition sample_metadata : Metadata :=
  MkMetadata "t" None None (MkFormat "parquet" ∅) "schema" [] None ∅.
Definition file (path : string) : Add :=
  MkAdd path ∅ 10 0 true None None None None None None None None.
Definition removal (path : string) (t : Z) : Remove :=
  MkRemove path true (Some t) None None (Some 10%Z) None None None None None.

Definition sample_log : list (list Action) :=
  [[AProtocol sample_protocol; AMetadata sample_metadata; AAdd (file "a")];
   [AAdd (file "b"); ATxn (MkTransaction "app" 1 None)]; [ARemove (removal "a" 5)]; [AAdd (file "c")]].

(** A commit that fits a log is appended by [LogCommit]. *)
Ltac by_fits :=
  split; [done|intros modified; eexists; vm_compute; reflexivity|
          intros Hnil; first [discriminate Hnil|split; vm_compute; eauto]].

Definition append_commits (n : nat) : LogStore :=
  foldl (λ s i, (write_commit_entry s (Z.of_nat i) (sample_log !!! i) (Z.of_nat i)).2)
    log_store_empty (seq 0 n).
Lemma commits_reachable : log_reachable sample_log [] (append_commits 4).
Proof.
  apply (LogCommit (take 3 sample_log) [] (append_commits 3) _ 3); [|by_fits].
  apply (LogCommit (take 2 sample_log) [] (append_commits 2) _ 2); [|by_fits].
  apply (LogCommit (take 1 sample_log) [] (append_commits 1) _ 1); [|by_fits].
  apply (LogCommit [] [] log_store_empty _ 0); [|by_fits]. apply LogNew.
Qed.

Definition sample_env (sidecar checkpoint : string) : CheckpointEnv :=
  MkCheckpointEnv 100 sidecar checkpoint 1.
Definition uuid_a : string := "00000000-0000-4000-8000-00000000000a".
Definition uuid_b : string := "00000000-0000-4000-8000-00000000000b".
Definition with_checkpoint_3 : LogStore :=
  (create_checkpoint (append_commits 4) 3 (sample_env uuid_a uuid_b)).2.
Definition sample_history : list (Z * Z) := [(3, 100)]%Z.
Lemma checkpoint_reachable : log_reachable sample_log sample_history with_checkpoint_3.
Proof.
  apply (LogCheckpoint sample_log [] (append_commits 4) 3 (sample_env uuid_a uuid_b)
    commits_reachable).
  by split; vm_compute.
Qed.

(** ** Loading *)
Definition loaded (s : LogStore) (v : Z) : ReplayedTableState :=
  match load_replayed_table_state s v with
  | Ok r => r
  | Err _ => MkReplayedTableState 0 sample_protocol sample_metadata ∅ [] [] [] ∅
  end.

Lemma load_table_state_sound_witness :
  load_replayed_table_state with_checkpoint_3 3 = Ok (loaded with_checkpoint_3 3) ∧
  rt_adds (loaded with_checkpoint_3 3) = [file "b"; file "c"] ∧
  shows (losses sample_log sample_history 3) 3 (loaded with_checkpoint_3 3)
    (state_before sample_log 4).
Proof.
  assert (load_replayed_table_state with_checkpoint_3 3 = Ok (loaded with_checkpoint_3 3)) as E
    by by vm_compute.
  split; [exact E|]. split; [by vm_compute|].
  exact (proj1 (proj2 (load_table_state_sound sample_log sample_history with_checkpoint_3 3 _
    checkpoint_reachable E))).
Defined.

Lemma load_table_state_complete_witness :
  ∃ r, load_replayed_table_state with_checkpoint_3 3 = Ok r.
Proof.
  apply (load_table_state_complete sample_log sample_history with_checkpoint_3 3 checkpoint_reachable).
  - done.
  - left. vm_compute. eauto.
  - intros h Hh. vm_compute in Hh. injection Hh as <-. done.
Defined.

Lemma latest_version_loads_witness :
  get_latest_version with_checkpoint_3 0 = Ok 3%Z ∧
  ∃ r, load_replayed_table_state with_checkpoint_3 3 = Ok r ∧
    shows (losses sample_log sample_history 3) 3 r (table_state sample_log).
Proof. exact (latest_version_loads sample_log sample_history with_checkpoint_3 checkpoint_reachable ltac:(done)). Defined.

(** A table without statistics in its checkpoints, neither as JSON nor as a struct. *)
Definition plain_metadata : Metadata :=
  add_config_key (add_config_key sample_metadata "delta.checkpoint.writeStatsAsJson" "false")
    "delta.checkpoint.writeStatsAsStruct" "false".
Definition counted_file : Add := add_with_stats (Some "{numRecords: 3}") (file "a").
Definition plain_store : LogStore :=
  (write_commit_entry log_store_empty 0
     [AProtocol sample_protocol; AMetadata plain_metadata; AAdd counted_file] 0).2.
Example statistics_dropped :
  rt_adds (loaded plain_store 0) = [counted_file] ∧
  rt_adds (loaded (create_checkpoint plain_store 0 (sample_env uuid_a uuid_b)).2 0) = [file "a"].
Proof. by vm_compute. Qed.

(** Version 2 cannot be loaded although all commits are there, and could be before
    the checkpoint was written. *)
Lemma time_travel_before_hint_fails_witness :
  load_replayed_table_state with_checkpoint_3 2 = Err (gap_error 0 1) ∧
  (∀ v, v ∈ [0; 1; 2; 3]%Z → is_Some (ls_commits with_checkpoint_3 !! v)) ∧
  rt_adds (loaded (append_commits 4) 2) = [file "b"].
Proof.
  split; [|split].
  - apply (time_travel_before_hint_fails sample_log sample_history with_checkpoint_3 2 3
      checkpoint_reachable).
    + by vm_compute.
    + done.
    + vm_compute. eauto.
    + vm_compute. eauto.
    + intros c (name & f & Hf). assert (c = 3%Z) as ->; [|clear; lia].
      assert (∃ f0, ls_checkpoints with_checkpoint_3 = {[ (3%Z, "parquet") := f0 ]}) as [f0 E]
        by (eexists; vm_compute; reflexivity).
      rewrite E in Hf. apply lookup_singleton_Some in Hf as [Hf _].
      clear E. congruence.
  - intros v Hv. repeat (apply elem_of_cons in Hv as [->|Hv]; [vm_compute; eauto|]).
    by apply elem_of_nil in Hv.
  - by vm_compute.
Defined.

(** ** Commits *)

(** No other writer is at work. *)
Definition alone : Surroundings := MkSurroundings (λ _ s, s) (λ _, 200%Z).
Lemma alone_ok : others_ok alone.
Proof.
  intros n log hist s Hr Hl. exists [], hist. rewrite app_nil_r. split_and!; [done|done|lia].
Qed.

Definition sample_snapshot : DeltaSnapshot :=
  MkSnapshot 3 true sample_protocol sample_metadata [file "b"; file "c"] [] ∅ ∅ ∅.
Lemma sample_snapshot_ok : snapshot_ok sample_log sample_snapshot.
Proof. by split; [vm_compute|..]. Qed.

(** A blind append of one file, and the removal of another. *)
Definition op_append : DeltaOperation := OpWrite SmAppend None None.
Definition append_commit : PreparedCommit :=
  MkPreparedCommit (commit_data_new [CAdd (file "d")] op_append ∅ ∅ [MkTransaction "job" 7 None] None)
    op_append (Some sample_snapshot) 15.
Definition delete_commit : PreparedCommit :=
  MkPreparedCommit (commit_data_new [CRemove (removal "b" 150)] (OpDelete None) ∅ ∅ [] None)
    (OpDelete None) (Some sample_snapshot) 15.

Definition post_of (r : DeltaResult PostCommit * LogStore) : PostCommit :=
  match r.1 with Ok p => p | Err _ => MkPostCommit 0 [] None 0 end.

Lemma commit_appends_to_log_witness :
  let r := run_commit alone append_commit with_checkpoint_3 in
  ∃ between hist',
    log_reachable (sample_log ++ between ++ [as_actions (po_actions (post_of r))]) hist' r.2 ∧
    po_version (post_of r) = Z.of_nat (length (sample_log ++ between)) ∧
    po_num_retries (post_of r) ≤ effective_max_retries append_commit.
Proof.
  apply (commit_appends_to_log alone append_commit with_checkpoint_3 sample_log
    sample_history);
    [exact alone_ok|exact checkpoint_reachable|done|by eexists _, _|exact sample_snapshot_ok|].
  vm_compute. reflexivity.
Defined.

Lemma commit_on_table_read_witness :
  let r := run_commit alone delete_commit with_checkpoint_3 in
  ∃ between hist', let log' := sample_log ++ between in
    log_reachable (log' ++ [as_actions (po_actions (post_of r))]) hist' r.2 ∧
    po_version (post_of r) = Z.of_nat (length log') ∧
    (is_blind_append [CRemove (removal "b" 150)] (OpDelete None) = false →
       po_version (post_of r) = (sn_version sample_snapshot + 1)%Z) ∧
    (∀ v a, (sn_version sample_snapshot < v < po_version (post_of r))%Z →
       commit_at log' v = Some a → compatible (pc_actions delete_commit) a) ∧
    rs_protocol (state_before log' (po_version (post_of r))) = Some sample_protocol ∧
    rs_metadata (state_before log' (po_version (post_of r))) = Some sample_metadata.
Proof.
  apply (commit_on_table_read alone delete_commit with_checkpoint_3 sample_log
    sample_history sample_snapshot
    _ _ [CRemove (removal "b" 150)] ∅ ∅ [] None);
    [exact alone_ok|exact checkpoint_reachable|done|done|exact sample_snapshot_ok|done|].
  vm_compute. reflexivity.
Defined.

(** Another writer commits version 4 just before the append writes it: the append
    is checked against that commit and becomes version 5. *)
Definition rival : Surroundings :=
  MkSurroundings (λ n s, if decide (n = 1) then
    (write_commit_entry s 4 [AAdd (file "x")] 190).2 else s) (λ _, 200%Z).
Example lost_race_retried :
  po_version (post_of (run_commit rival append_commit with_checkpoint_3)) = 5%Z ∧
  po_num_retries (post_of (run_commit rival append_commit with_checkpoint_3)) = 1 ∧
  (run_commit rival delete_commit with_checkpoint_3).1 = Err (DeTransaction (MaxCommitAttempts 0)).
Proof. by vm_compute. Qed.

(** A hook that writes a checkpoint of every version and cleans up. *)
Definition sample_hook : PostCommitHook := MkPostCommitHook true (Some true).
Definition uuid_c : string := "00000000-0000-4000-8000-00000000000c".
Definition uuid_d : string := "00000000-0000-4000-8000-00000000000d".

Definition appended : DeltaResult PostCommit * LogStore :=
  run_commit alone append_commit with_checkpoint_3.

(** ** Append-only tables *)
Definition append_only_metadata : Metadata :=
  add_config_key sample_metadata "delta.appendOnly" "true".
Definition append_only_snapshot : DeltaSnapshot :=
  MkSnapshot 3 true sample_protocol append_only_metadata [file "b"] [] ∅ ∅ ∅.
(** A removal that only rewrites is accepted, one that removes data is not. *)
Definition rewrite_removal : Remove :=
  MkRemove "b" false (Some 150%Z) None None None None None None None None.
Definition rewrite_commit : PreparedCommit :=
  MkPreparedCommit (commit_data_new [CRemove rewrite_removal; CAdd (file "b2")]
    (OpDelete None) ∅ ∅ [] None) (OpDelete None) (Some append_only_snapshot) 15.

Lemma append_only_keeps_data_witness :
  let r := run_commit alone rewrite_commit with_checkpoint_3 in
  rewrite_removal ∈ omap action_remove (as_actions (po_actions (post_of r))) ∧
  rm_data_change rewrite_removal = false ∧
  (run_commit alone (MkPreparedCommit (pc_actions delete_commit) (OpDelete None)
     (Some append_only_snapshot) 15) with_checkpoint_3).1 = Err (DeTransaction DeltaTableAppendOnly).
Proof.
  assert (rewrite_removal ∈ omap action_remove (as_actions (po_actions (post_of
    (run_commit alone rewrite_commit with_checkpoint_3))))) as Hin.
  { vm_compute. left. }
  split; [exact Hin|]. split; [|by vm_compute].
  apply (append_only_keeps_data alone rewrite_commit with_checkpoint_3 append_only_snapshot
    (post_of (run_commit alone rewrite_commit with_checkpoint_3))
    (run_commit alone rewrite_commit with_checkpoint_3).2); [..|exact Hin]; try done;
    by vm_compute.
Defined.

(** ** Time stamps *)
Definition ict_protocol : Protocol := MkProtocol 1 7 None (Some [InCommitTimestamp]).
Definition ict_snapshot : DeltaSnapshot :=
  MkSnapshot 3 true ict_protocol
    (add_config_key sample_metadata "delta.enableInCommitTimestamps" "true") [] [] ∅ ∅ ∅.

(** The clock is behind the previous commit. *)
Lemma in_commit_timestamp_increases_witness :
  in_commit_timestamp_from_actions (as_actions (finalize_attempt_actions
    (CCommitInfo (get_commit_info op_append) :: [CAdd (file "d")]) (Some ict_snapshot) 4
    (Some 500%Z) 200)) = Some 501%Z ∧ (500 < 501 ∧ 200 ≤ 501)%Z.
Proof.
  assert (in_commit_timestamp_from_actions (as_actions (finalize_attempt_actions
    (CCommitInfo (get_commit_info op_append) :: [CAdd (file "d")]) (Some ict_snapshot) 4
    (Some 500%Z) 200)) = Some 501%Z) as E by by vm_compute.
  split; [exact E|].
  apply (in_commit_timestamp_increases (get_commit_info op_append) [CAdd (file "d")]
    (Some ict_snapshot) 4 500 200 501).
  - vm_compute. reflexivity.
  - unfold i64_min, i64_max. lia.
  - exact E.
Defined.

(** ** Compactions *)
Definition range_actions : list Action := [AAdd (file "b"); ARemove (removal "a" 5)].
Definition before_range : ReconciledCheckpointState := table_state (take 1 sample_log).

Lemma compaction_equivalent_witness :
  foldl apply_action before_range (compacted_actions (run range_actions) 0) =
  foldl apply_action before_range range_actions.
Proof.
  apply (compaction_equivalent before_range range_actions 0).
  - intros d Hd. repeat (apply elem_of_cons in Hd as [Hd|Hd]; [done|]). by apply elem_of_nil in Hd.
  - intros k r t Hr Ht.
    assert (rs_removes (run range_actions) = {[ ("a", None) := removal "a" 5 ]}) as E
      by by vm_compute.
    rewrite E in Hr. apply lookup_singleton_Some in Hr as [_ <-]. by injection Ht as <-.
Defined.

(** A file that was removed at time 5 is back in a compaction with retention from 10. *)
Lemma compaction_revives_witness :
  rs_adds (foldl apply_action before_range (compacted_actions (run range_actions) 10))
    !! ("a", None) = Some (file "a") ∧
  rs_adds (foldl apply_action before_range range_actions) !! ("a", None) = None.
Proof.
  apply (proj1 (compaction_revives before_range range_actions 10) ("a", None) (file "a")
    (removal "a" 5) 5%Z); by vm_compute.
Defined.

(** With a checkpoint of version 0, a compaction of versions 1 to 2 and the commit of
    version 3, loading version 3 passes and does not see what versions 1 and 2 did. *)
Definition with_compaction : LogStore :=
  (create_log_compaction_for
     (create_checkpoint (append_commits 4) 0 (sample_env uuid_a uuid_b)).2 1 2 0 100).2.
Definition cp0 : File CheckpointContent :=
  default (MkFile None 0%Z) (ls_checkpoints with_compaction !! (0%Z, "parquet")).
Definition commit3 : File (list Action) :=
  default (MkFile None 0%Z) (ls_commits with_compaction !! 3%Z).
Definition compaction12 : File (list Action) :=
  default (MkFile None 0%Z) (ls_compactions with_compaction !! (1, 2)%Z).
Definition segment_with (f : File (list Action)) : Segment :=
  MkSegment (Some (0%Z, cp0)) [(3%Z, commit3)] [((1, 2)%Z, f)] 3.

Lemma compaction_after_checkpoint_skipped_witness :
  resolve_for_full_state with_compaction 3 = Ok (segment_with compaction12) ∧
  replay_segment with_compaction (segment_with compaction12) =
    replay_segment with_compaction (segment_with (MkFile (Some []) 0)) ∧
  rt_adds (loaded with_compaction 3) = [file "a"; file "c"] ∧
  rt_adds (loaded (append_commits 4) 3) = [file "b"; file "c"].
Proof.
  split; [by vm_compute|]. split; [|by vm_compute].
  apply (compaction_after_checkpoint_skipped with_compaction (0%Z, cp0) 3 commit3 []); try done;
    by apply Forall_singleton.
Defined.

(** The sequence itself, from the version after the checkpoint, leaves nothing out. *)
Lemma replay_sequence_covers_witness :
  build_replay_sequence [(3%Z, commit3)] [((1, 2)%Z, compaction12)] 1 3 =
    [ReplayCompaction 1 2 compaction12; ReplayCommit 3 commit3] ∧
  concat (entry_versions <$>
    build_replay_sequence [(3%Z, commit3)] [((1, 2)%Z, compaction12)] 1 3) = [1; 2; 3]%Z.
Proof.
  split; [by vm_compute|].
  apply (replay_sequence_covers with_compaction 3 (segment_with compaction12)); [by vm_compute|done..].
Defined.
