(* ===== verification/FlowWitnesses.v ===== *)
(** * Witnesses: streaming events, merges and exchanges

    An engine whose times are numbers, whose bytes are messages, and whose arrays are
    lists; it meets what is required of Arrow, [chrono] and [prost]. *)

From Stdlib Require Import String Sorted.
From S2P Require Import Prelude Collections FlowEvents EpochCoordinator FlowAlign KeyGroups FlowExchange FlowMerge FlowMergeTheorems FlowState FlowOps StreamJoin WindowSpill.
(** ** The engine *)
Inductive SampleType := TyBinary | TyBoolean | TyInt.
#[local] Instance SampleType_eq : EqDecision SampleType.
Proof. solve_decision. Defined.
Inductive SampleArray :=
| ArBinary (l : list (option GenFlowMarker)) | ArBoolean (l : list bool) | ArInt (l : list Z).
Definition sample_type (a : SampleArray) : SampleType :=
  match a with ArBinary _ => TyBinary | ArBoolean _ => TyBoolean | ArInt _ => TyInt end.
Definition sample_len (a : SampleArray) : nat :=
  match a with ArBinary l => length l | ArBoolean l => length l | ArInt l => length l end.
Definition sample_fill (d : SampleType) (n : nat) : SampleArray :=
  match d with
  | TyBinary => ArBinary (replicate n None)
  | TyBoolean => ArBoolean (replicate n false)
  | TyInt => ArInt (replicate n 0%Z)
  end.
Definition sample_slice (a : SampleArray) (off len : nat) : SampleArray :=
  match a with
  | ArBinary l => ArBinary (take len (drop off l))
  | ArBoolean l => ArBoolean (take len (drop off l))
  | ArInt l => ArInt (take len (drop off l))
  end.
Definition sample_take (a : SampleArray) (idx : list nat) : FlowResult SampleArray :=
  if forallb (λ i, i <? sample_len a)%nat idx then
    Ok (match a with
        | ArBinary l => ArBinary (omap (λ i, l !! i) idx)
        | ArBoolean l => ArBoolean (omap (λ i, l !! i) idx)
        | ArInt l => ArInt (omap (λ i, l !! i) idx)
        end)
  else Err (FeEngine "index out of bounds").

Definition sample_flow : FlowEngine := {|
  DateTime := Z; dt_timestamp := λ t, t; dt_subsec_nanos := λ _, 0%N; dt_timestamp_micros := λ t, t;
  dt_from_timestamp := λ s _, Some s; dt_from_timestamp_micros := Some;
  Bytes := GenFlowMarker; encode_to_vec := λ m, m; gen_decode := Ok;
  DataType := SampleType; DataType_eq_dec := SampleType_eq; DtBinary := TyBinary; DtBoolean := TyBoolean;
  ArrayRef := SampleArray; array_len := sample_len; array_slice := sample_slice;
  array_take := sample_take; binary_array := ArBinary;
  as_binary := λ a, match a with ArBinary l => Some l | _ => None end;
  boolean_array := ArBoolean;
  as_boolean := λ a, match a with ArBoolean l => Some l | _ => None end;
  array_fits := λ d _ a, sample_type a = d;
  new_null_array := sample_fill; placeholder_array := λ d n, Ok (sample_fill d n)
|}.
#[local] Existing Instance sample_flow.

Lemma omap_lookup_length {A} (l : list A) idx :
  forallb (λ i, i <? length l)%nat idx = true → length (omap (λ i, l !! i) idx) = length idx.
Proof.
  induction idx as [|i idx IH]; [done|]. intros [Hi%Nat.ltb_lt Hidx]%andb_prop.
  destruct (lookup_lt_is_Some_2 l i Hi) as [x Hx]. cbn. rewrite Hx. cbn. f_equal. by apply IH.
Qed.
#[local] Instance sample_flow_laws : FlowEngineLaws sample_flow.
Proof.
  split; simpl; try done.
  - by intros m t [= ->].
  - by intros [] ? [= ->].
  - by intros [] ? [= ->].
  - intros [] off len H; simpl in *; rewrite length_take, length_drop; lia.
  - intros []; simpl; f_equal; apply firstn_all.
  - by intros [].
  - intros [] n; simpl; by rewrite length_replicate.
  - intros [] n a [= <-]; simpl; by rewrite length_replicate.
  - by intros d b [] off len.
  - by intros b []; eauto.
  - by intros b []; eauto.
  - intros d b a l a'. unfold sample_take. destruct (forallb _ l); [|done]. by destruct a; intros [= <-].
  - intros a l a'. unfold sample_take. destruct (forallb _ l) eqn:Hl; [|done].
    destruct a; intros [= <-]; simpl in *; by apply omap_lookup_length.
  - intros a l a'. unfold sample_take. destruct (forallb _ l); [|done]. by destruct a; intros [= <-].
Qed.

(** Arrow's check of columns. *)
Fixpoint columns_fit (schema : list Field) (columns : list SampleArray) (n : nat) : bool :=
  match schema, columns with
  | [], [] => true
  | f :: schema, c :: columns =>
      bool_decide (sample_type c = field_type f) && (sample_len c =? n)%nat && columns_fit schema columns n
  | _, _ => false
  end.
#[local] Instance sample_check : BatchCheck := λ schema columns,
  match columns with
  | [] => Err "must either specify a row count or at least one column"
  | c :: _ => if columns_fit schema columns (sample_len c) then Ok (sample_len c) else Err "columns do not fit"
  end.
Lemma columns_fit_spec schema columns n :
  columns_fit schema columns n = true ↔
  Forall2 (λ f c, sample_type c = field_type f ∧ sample_len c = n) schema columns.
Proof.
  revert columns. induction schema as [|f schema IH]; intros [|c columns]; simpl; split; try done.
  - intros H. by inversion H.
  - intros H. by inversion H.
  - intros [[H1%bool_decide_eq_true H2%Nat.eqb_eq]%andb_prop H3]%andb_prop. constructor; [done|]. by apply IH.
  - intros H. inversion_clear H as [|? ? ? ? [H1 H2] H3]. rewrite bool_decide_eq_true_2 by done.
    rewrite (proj2 (Nat.eqb_eq _ _) H2). by apply IH.
Qed.
#[local] Instance sample_check_laws : BatchCheckLaws sample_check.
Proof.
  intros schema columns n. unfold check_columns, sample_check, columns_match. simpl.
  destruct columns as [|c columns]; [by split; [|intros []]|].
  destruct (columns_fit schema (c :: columns) (sample_len c)) eqn:Hf.
  - apply columns_fit_spec in Hf. split.
    + intros [= <-]. done.
    + intros [_ H]. inversion H as [|? ? ? ? [_ Hn]]. simpl in *. by rewrite Hn.
  - split; [done|]. intros [_ H]. assert (sample_len c = n) as Hn by (by inversion H as [|? ? ? ? [_ Hn]]).
    subst n. apply columns_fit_spec in H. congruence.
Qed.

(** ** Batches *)
Definition sample_time (t : Z) : @DateTime sample_flow := t.
Definition sample_schema : list Field := [MkField "v" TyInt false].
Definition sample_values (l : list Z) : RecordBatch := MkRecordBatch sample_schema [ArInt l] (length l).
Definition sample_event (l : list Z) : FlowEvent := append_only_data (sample_values l).
(** The encodings of data and of markers. *)
Definition sample_data (l : list Z) : RecordBatch :=
  MkRecordBatch (to_flow_event_schema sample_schema)
    [ArBinary (replicate (length l) None); ArBoolean (replicate (length l) false); ArInt l] (length l).
Definition sample_mark (m : FlowMarker) : RecordBatch :=
  MkRecordBatch (to_flow_event_schema sample_schema)
    [ArBinary [Some (marker_encode m)]; ArBoolean [false]; ArInt [0%Z]] 1.

(** Witness of [event_roundtrip]. *)
Lemma event_roundtrip_witness :
  (∃ b, encode_inner sample_schema (sample_event [7; 8]%Z) = Ok b ∧
    decode sample_schema b = Ok [sample_event [7; 8]%Z]) ∧
  ∃ b, encode_inner sample_schema (FlowMark (Watermark "s" (sample_time 5))) = Ok b ∧
    decode sample_schema b = Ok [FlowMark (Watermark "s" (sample_time 5))].
Proof.
  split.
  - apply (event_roundtrip (E := sample_flow) sample_schema (sample_event [7; 8]%Z)).
    split; [|by vm_compute]. split; [done|]. by repeat constructor.
  - apply (event_roundtrip (E := sample_flow) sample_schema (FlowMark (Watermark "s" (sample_time 5)))). by vm_compute.
Defined.

(** Witness of [alignment_consistent_cut]: while one input waits at its checkpoint, the
    other is read up to its own. *)
Definition sample_streams : list (list (FlowResult RecordBatch)) :=
  [[Ok (sample_mark (Checkpoint 1)); Ok (sample_data [1%Z])];
   [Ok (sample_data [2%Z]); Ok (sample_mark (Checkpoint 1))]].
Definition run {A B} (next : A → B → option A) (c : A) (l : list B) : option A :=
  foldl (λ c x, c ≫= λ c, next c x) (Some c) l.
Lemma run_rtc {A B} (next : A → B → option A) c l c' :
  run next c l = Some c' → rtc (λ c c', ∃ x, next c x = Some c') c c'.
Proof.
  unfold run. revert c. induction l as [|x l IH]; intros c H; cbn in *; [by simplify_eq|].
  destruct (next c x) as [c1|] eqn:Hx.
  - eapply rtc_l; [by exists x|]. by apply IH.
  - exfalso. clear -H. by induction l.
Qed.
Definition sample_aligned : AlignConfig :=
  default (align_start []) (run align_next (align_start sample_streams) [0; 1; 1; 0; 0]).
Lemma alignment_consistent_cut_witness :
  barriers (al_output sample_aligned) = [(0, sample_mark (Checkpoint 1))] ∧
  out_before 0 1 (al_output sample_aligned) = data_before 0 [Ok (sample_data [2%Z]); Ok (sample_mark (Checkpoint 1))].
Proof.
  split; [by vm_compute|].
  apply (alignment_consistent_cut (E := sample_flow) sample_streams sample_aligned); [|done|vm_compute; lia].
  apply (run_rtc align_next _ [0; 1; 1; 0; 0]). by vm_compute.
Defined.

(** Witness of [key_group_owned_once]: 128 groups and 3 instances. *)
Lemma key_group_owned_once_witness :
  (key_group_owner 42 3 128 < 3)%N ∧
  ((instance_key_group_range 1 3 128).1 <= 42 ∧ 42 < (instance_key_group_range 1 3 128).2)%N.
Proof.
  destruct (key_group_owned_once 42 3 128) as [H1 H2]; [lia..|]. split; [done|].
  apply H2; [lia|]. by vm_compute.
Defined.

(** ** The exchange

    The hash of a row is its value. *)
#[local] Instance sample_hasher : KeyHasher := λ b,
  match batch_columns b !! 2 with
  | Some (ArInt l) => Ok (Z.to_N <$> l)
  | _ => Err (FeExecution "no key")
  end.
Lemma exchange_routes_witness :
  ∃ out, ds_sent (distribute (λ _ _, true) 2 (distribute_start 2)
    [Ok (sample_data [1; 100; 2]%Z); Ok (sample_mark (Checkpoint 1)); Ok (sample_data [127]%Z)]) !! 1 = Some out ∧
  checkpoints out = [sample_mark (Checkpoint 1)] ∧ data_before 0 out = [sample_data [100%Z]].
Proof.
  destruct (exchange_routes (E := sample_flow) (λ _ _, true) 2
    [Ok (sample_data [1; 100; 2]%Z); Ok (sample_mark (Checkpoint 1)); Ok (sample_data [127]%Z)] 1)
    as [(out & H1 & H2 & H3) _]; [done| |lia|].
  - apply Forall_cons; split; [right|apply Forall_cons; split; [by left|apply Forall_singleton; right]];
      (split; [by vm_compute|]; intros [|[|o]] Ho; [by vm_compute..|lia]).
  - exists out. split; [done|]. split; [by rewrite H2|]. rewrite H3. by vm_compute.
Defined.

(** A coalescer that keeps the batches that it got. *)
#[local] Instance sample_coalescer : Coalescer := {|
  CoState := list RecordBatch * list RecordBatch;
  co_new := λ _ _, ([], []);
  co_push := λ c b, Ok (c.1, c.2 ++ [b]);
  co_is_empty := λ c, bool_decide (length c.1 = 0 ∧ length c.2 = 0);
  co_finish := λ c, Ok (c.1 ++ c.2, []);
  co_drain := λ c, (c.1, ([], c.2))
|}.
Lemma existsb_is_some {A} (l : list (option A)) :
  existsb (λ x, match x with Some _ => true | None => false end) l = (null_count l <? length l)%nat.
Proof.
  induction l as [|[x|] l IH]; simpl; [done| |exact IH].
  symmetry. apply Nat.ltb_lt. pose proof (null_count_le l). lia.
Qed.
Definition sample_co_rows (c : @CoState _ sample_coalescer) : list (option (@Bytes sample_flow)) :=
  (c.1 ++ c.2) ≫= λ b, default [] (marker_column b).
#[local] Instance sample_coalescer_laws : CoalescerLaws sample_coalescer (option (@Bytes sample_flow)).
Proof.
  refine {| batch_rows := λ b, default [] (marker_column b);
            row_marked := λ r, match r with Some _ => true | None => false end;
            co_rows := sample_co_rows |}.
  - intros b. rewrite existsb_is_some. unfold is_marker_batch. by destruct (marker_column b).
  - done.
  - intros [l1 l2] b c' [= <-]. unfold sample_co_rows. simpl. by rewrite app_assoc, (bind_app _ (l1 ++ l2)), bind_cons, app_nil_r.
  - intros [l1 l2] l c' [= <- <-]. unfold sample_co_rows. simpl. by rewrite bind_app.
  - by intros [[] []].
  - intros [l1 l2] c' [= <-]. unfold sample_co_rows. simpl. by rewrite app_nil_r.
Defined.
Lemma coalesce_keeps_events_witness :
  coalesce_flow_events 8 None
    [CoItem (Ok (sample_data [1]%Z)); CoItem (Ok (sample_data [2]%Z)); CoTick; CoItem (Ok (sample_mark (Checkpoint 1)))]
    ≫= atoms_of =
  [AtomRow None; AtomRow None; AtomMarker (sample_mark (Checkpoint 1))].
Proof.
  rewrite (coalesce_keeps_events (E := sample_flow) 8); [by vm_compute|].
  intros e [i Hi]%list_elem_of_lookup. by destruct i as [|[|[|i]]].
Defined.

(** ** Merges *)
Definition sample_inputs : list (list (FlowResult RecordBatch)) :=
  [[Ok (sample_data [1%Z]); Ok (sample_mark (Watermark "a" (sample_time 5))); Ok (sample_data [6%Z])];
   [Ok (sample_mark (Watermark "b" (sample_time 3))); Ok (sample_data [4%Z])]].
Definition sample_choices : list MergeChoice := ChooseInput <$> [0; 0; 1; 0; 1; 0; 1; 0].
Definition sample_merged : MergeConfig :=
  default (merge_start []) (run (merge_next false) (merge_start sample_inputs) sample_choices).
(** All values of a batch are at least the watermark. *)
Definition sample_on_time (w : Z) (b : RecordBatch) : Prop :=
  match batch_columns b !! 2 with Some (ArInt l) => Forall (Z.le w) l | _ => True end.
Lemma sample_merge_run : rtc (merge_step false) (merge_start sample_inputs) sample_merged.
Proof. apply (run_rtc (merge_next false) _ sample_choices). by vm_compute. Qed.
Lemma sample_ids_bounded : ids_bounded sample_inputs.
Proof.
  assert (forallb (forallb (λ x, match x with
      | Ok b => match classify_mk b with MkCheckpoint _ => false | _ => true end
      | Err _ => true end)) sample_inputs = true) as H by by vm_compute.
  intros s b v Hs Hb Hv. rewrite forallb_forall in H. apply list_elem_of_In in Hs, Hb. apply H in Hs.
  rewrite forallb_forall in Hs. apply Hs in Hb. by rewrite Hv in Hb.
Qed.

(** Witness of [merged_watermarks_safe]: the merged watermark is that of the second
    input. *)
Lemma stream_on_time_split on_time (m : FlowResult RecordBatch) s :
  stream_on_time on_time s →
  (∀ b w, m = Ok b → classify_mk b = MkWatermark w → ∀ d, Ok d ∈ s → classify_mk d = MkData → on_time w d) →
  stream_on_time on_time (m :: s).
Proof.
  intros Hs Hm [|x s1] b s2 w d Heq Hb Hd Hc; simplify_eq/=; [by eapply Hm|by eapply Hs].
Qed.
Lemma sample_inputs_on_time : Forall (stream_on_time sample_on_time) sample_inputs.
Proof.
  assert (∀ w l, classify_mk (sample_data l) = MkWatermark w → False) as Hd.
  { intros w l. unfold classify_mk. cbn. by induction (length l). }
  repeat (apply Forall_cons; split || apply Forall_singleton); repeat apply stream_on_time_split;
    try (by intros b w [= <-] ?%Hd); try (by intros [|? ?] ?); try done.
  - intros b w [= <-] Hw d Hin _. vm_compute in Hw. injection Hw as <-.
    apply list_elem_of_singleton in Hin as [= ->]. by repeat constructor.
  - intros b w [= <-] Hw d Hin _. vm_compute in Hw. injection Hw as <-.
    apply list_elem_of_singleton in Hin as [= ->]. by repeat constructor.
Qed.
Lemma merged_watermarks_safe_witness :
  out_watermarks (mc_output sample_merged) = [3]%Z ∧
  output_on_time sample_on_time (mc_output sample_merged).
Proof.
  split; [by vm_compute|].
  apply (merged_watermarks_safe (E := sample_flow) sample_inputs false sample_on_time sample_merged).
  - intros w w' b Hw. unfold sample_on_time. destruct (batch_columns b !! 2) as [[]|]; try done.
    intros H. apply (Forall_impl _ _ _ H). intros x Hx. lia.
  - apply sample_inputs_on_time.
  - by left.
  - apply sample_ids_bounded.
  - apply sample_merge_run.
Defined.

(** Witness of [merge_delivers]. *)
Lemma merge_delivers_witness :
  out_data 0 (mc_output sample_merged) = [sample_data [1%Z]; sample_data [6%Z]].
Proof.
  destruct (merge_delivers (E := sample_flow) sample_inputs) as [_ H]; [apply sample_ids_bounded|].
  destruct (H sample_merged) as [_ Hd].
  - apply sample_merge_run.
  - intros [c [ch Hch]]. by destruct ch.
  - rewrite (Hd) with (s := [Ok (sample_data [1%Z]); Ok (sample_mark (Watermark "a" (sample_time 5))); Ok (sample_data [6%Z])]);
      [done| |done].
    intros e [i Hi]%list_elem_of_lookup. by do 6 (destruct i as [|i]; [done|]).
Defined.

(** Witness of [barrier_overtaken]. *)
Lemma barrier_overtaken_witness :
  ∃ c, rtc (merge_step false) (merge_start
      [[Ok (sample_mark (Checkpoint 1)); Ok (sample_data [7%Z])]; [Ok (sample_mark (Checkpoint 1))]]) c ∧
    mc_output c = [MData 0 (sample_data [7%Z]); MBarrier 1 (sample_mark (Checkpoint 1))].
Proof.
  by apply (barrier_overtaken (E := sample_flow) (sample_mark (Checkpoint 1)) (sample_data [7%Z]) 1
    (sample_mark (Checkpoint 1))).
Defined.

(** ** The epoch coordinator: two tasks acknowledge two epochs *)
Definition sample_ack (s : string) (offset : Z) : EpochAck := MkEpochAck {[s := offset]} ∅.
Definition sample_calls : list CoordCall :=
  [CallTrigger; CallTrigger; CallAck 0 1 (sample_ack "a" 10); CallAck 0 1 (sample_ack "a" 99);
   CallAck 0 2 (sample_ack "b" 20)].
Definition sample_coordinator : EpochCoordinator :=
  MkEpochCoordinator (list_to_set [1; 2]%N) ∅ None None 2.

(** Witness of [completed_checkpoint]. *)
Lemma completed_checkpoint_witness :
  ∃ gc, (coord_calls sample_coordinator sample_calls).1 !! 4 = Some (EvAcked 0 2 (sample_ack "b" 20) (Some gc)) ∧
  list_to_set (first_acks 0 (drop 1 (take 5 (coord_calls sample_coordinator sample_calls).1))).*1
    =@{gset N} list_to_set [1; 2]%N.
Proof.
  eexists. split; [by vm_compute|].
  edestruct (completed_checkpoint [1; 2]%N 2 sample_coordinator None sample_calls 4 0 2 (sample_ack "b" 20))
    as [(j & Hj & Htr & Hset & _) _].
  - by vm_compute.
  - by vm_compute.
  - by vm_compute.
  - do 4 (destruct j as [|j]; [first [exact Hset|by vm_compute in Htr]|]). lia.
Defined.

(** Witness of [epoch_completes]. *)
Lemma epoch_completes_witness :
  ∃ gc, (coordinator_ack (coord_calls sample_coordinator (take 4 sample_calls)).2 0 2 (sample_ack "b" 20)).1 =
    Ok (Some gc) ∧ gc_epoch gc = 0%N.
Proof.
  destruct (epoch_completes [1; 2]%N 2 sample_coordinator None (take 4 sample_calls) 0 0 2 (sample_ack "b" 20))
    as (gc & H1 & H2 & _).
  - by vm_compute.
  - by vm_compute.
  - by vm_compute.
  - intros [i Hi]%list_elem_of_lookup. by do 5 (destruct i as [|i]; [by vm_compute in Hi|]).
  - by vm_compute.
  - set_solver.
  - intros t' [->|[->|[]%not_elem_of_nil]%elem_of_cons]%elem_of_cons; [right|by left].
    vm_compute. constructor.
  - exists gc. split; [|done]. exact (f_equal fst H1).
Defined.

(** ** Batches of numbers *)
Definition as_ints (a : SampleArray) : option (list Z) := match a with ArInt l => Some l | _ => None end.
(** The rows of a batch of numbers, and those at some positions. *)
Definition ints (a : SampleArray) : list Z := default [] (as_ints a).
Definition row_at (columns : list SampleArray) (i : nat) : list Z := (λ c, default 0%Z (ints c !! i)) <$> columns.
Definition positions (mask : list bool) (n : nat) : list nat :=
  fst <$> filter (λ x, x.2 = true) (zip (seq 0 n) mask).
Definition sample_filter (b : RecordBatch) (mask : list bool) : option RecordBatch :=
  let l := positions mask (batch_num_rows b) in
  Some (MkRecordBatch (batch_schema b)
    ((λ c : SampleArray, ArInt ((λ i, default 0%Z (ints c !! i)) <$> l)) <$> batch_columns b) (length l)).
Lemma row_at_filter columns l j :
  (j < length l)%nat →
  row_at ((λ c, ArInt ((λ i, default 0%Z (ints c !! i)) <$> l)) <$> columns) j = row_at columns (default 0%nat (l !! j)).
Proof.
  intros Hj. unfold row_at. rewrite <- list_fmap_compose. apply list_fmap_ext. intros _ c _. cbn.
  rewrite list_lookup_fmap. by destruct (lookup_lt_is_Some_2 l j Hj) as [i ->].
Qed.
Lemma fmap_seq_lookup {A} (f : nat → A) (l : list nat) : (λ j, f (default 0%nat (l !! j))) <$> seq 0 (length l) = f <$> l.
Proof.
  apply list_eq. intros i. rewrite !list_lookup_fmap. destruct (decide (i < length l)%nat) as [Hi|Hi].
  - rewrite lookup_seq_lt by done. cbn. by destruct (lookup_lt_is_Some_2 l i Hi) as [x ->].
  - rewrite lookup_seq_ge, lookup_ge_None_2 by lia. done.
Qed.
Lemma filter_zip_fmap {A B} (f : A → B) l (mask : list bool) :
  fst <$> filter (λ x, x.2 = true) (zip (f <$> l) mask) = f <$> (fst <$> filter (λ x, x.2 = true) (zip l mask)).
Proof.
  revert mask. induction l as [|x l IH]; intros [|[] mask]; [done..| |]; cbn [fmap list_fmap zip zip_with].
  - rewrite !filter_cons_True by done. cbn. f_equal. apply IH.
  - rewrite !filter_cons_False by done. apply IH.
Qed.
Lemma zip_kept {A} (l : list A) (mask : list bool) : fst <$> filter (λ x, x.2 = true) (zip l mask) = kept mask l.
Proof.
  revert mask. induction l as [|y l IH]; intros [|b mask]; [done..|]. cbn [zip zip_with kept].
  destruct b; [rewrite filter_cons_True by done; cbn; f_equal|rewrite filter_cons_False by done]; apply IH.
Qed.
Lemma sample_filter_rows b mask b' :
  sample_filter b mask = Some b' →
  row_at (batch_columns b') <$> seq 0 (batch_num_rows b') = kept mask (row_at (batch_columns b) <$> seq 0 (batch_num_rows b)).
Proof.
  intros [= <-]. cbn [batch_columns batch_num_rows]. rewrite <-zip_kept, filter_zip_fmap.
  change (fst <$> filter _ (zip (seq 0 _) mask)) with (positions mask (batch_num_rows b)).
  rewrite <-(fmap_seq_lookup _ (positions mask _)). apply list_fmap_ext. intros i j [-> Hj]%lookup_seq.
  by apply row_at_filter.
Qed.

(** ** Limits, collections, deduplication and watermarks

    A number is a key, a row of one column and an event time; a negative one is an event
    time that is absent. *)
Definition sample_ints (a : SampleArray) : option (list (option Z)) :=
  match a with ArInt l => Some (Some <$> l) | _ => None end.
Definition sample_rows (columns : list SampleArray) : FlowResult (list Z) :=
  match columns with [ArInt l] => Ok l | _ => Err (FeEngine "no rows") end.
#[local] Instance sample_columns : FlowColumns sample_flow := {|
  as_timestamp_micros := sample_ints; int32_values := λ _, None; int64_values := sample_ints;
  ScalarValue := Z;
  scalar_try_from_array := λ a i,
    match a with
    | ArInt l => match l !! i with Some z => Ok z | None => Err (FeEngine "out of bounds") end
    | _ => Err (FeEngine "not a scalar")
    end;
  as_timestamp := λ z, Some (TsMicrosecond (if (z <? 0)%Z then None else Some z));
  filter_batch := λ b keep, match sample_filter b keep with Some b' => Ok b' | None => Err (FeEngine "filter") end;
  OwnedRow := Z; RowConverter := unit; row_converter_new := λ _, Ok tt;
  convert_columns := λ _ columns, sample_rows columns;
  concat_batches := λ schema l,
    Ok (MkRecordBatch schema [ArInt (l ≫= λ b, default [] (match batch_columns b with [ArInt l] => Some l | _ => None end))]
      (sum_list (batch_num_rows <$> l)));
  batch_new_empty := λ schema, MkRecordBatch schema [] 0
|}.
Definition sample_view (b : RecordBatch) : list Z :=
  match batch_columns b with [ArInt l] => l | _ => [] end.

(** Witness of [limit_takes_rows]: the first row is skipped, and two are fetched. *)
Definition sample_row_at (b : RecordBatch) (i : nat) : option Z :=
  match batch_columns b with [ArInt l] => l !! i | _ => None end.
Lemma sample_row_at_slice b (off len i : nat) :
  (i < len → off + len ≤ batch_num_rows b → sample_row_at (batch_slice b off len) i = sample_row_at b (off + i))%nat.
Proof.
  intros Hi _. unfold sample_row_at, batch_slice. cbn [batch_columns].
  destruct (batch_columns b) as [|[|?|l] [|]]; cbn; try done.
  rewrite lookup_take_lt by done. by rewrite lookup_drop.
Qed.
Lemma limit_takes_rows_witness :
  items_rows sample_row_at (limit_run (MkStreamLimitState 1 (Some 2))
    [Ok (sample_event [1; 2]%Z); Ok (FlowMark EndOfData); Ok (sample_event [3; 4]%Z)]) =
  [(Some 2%Z, Some false); (Some 3%Z, Some false)].
Proof.
  destruct (limit_takes_rows (E := sample_flow) sample_row_at sample_row_at_slice 1 (Some 2)
    [Ok (sample_event [1; 2]%Z); Ok (FlowMark EndOfData); Ok (sample_event [3; 4]%Z)]) as [H _].
  rewrite H. by vm_compute.
Defined.

(** Witness of [collector_nets_changes]: 7 is inserted twice and retracted once. *)
Lemma collector_nets_changes_witness :
  ∃ c, collect_all collector_new
    [Ok (sample_event [7; 8; 7]%Z); Ok (FlowMark EndOfData); Ok (FlowData (sample_values [7; 8]%Z) [true; true])] =
    Returns (Ok c) ∧
  survivors c = [sample_values [7%Z]].
Proof.
  destruct (collector_nets_changes (E := sample_flow) (FC := sample_columns) tt sample_view
    [Ok (sample_event [7; 8; 7]%Z); Ok (FlowMark EndOfData); Ok (FlowData (sample_values [7; 8]%Z) [true; true])])
    as (c & Hc & Hs).
  - by repeat constructor.
  - by vm_compute.
  - exists c. split; [done|]. rewrite Hs. by vm_compute.
Defined.

(** Witness of [dedup_once_per_watermark]. *)
Definition sample_keys (b : RecordBatch) : list (option Z * list Z) :=
  (λ z, (if (z <? 0)%Z then None else Some z, [z])) <$> sample_view b.
Lemma kept_fmap {A B} (f : A → B) keep l : f <$> kept keep l = kept keep (f <$> l).
Proof. revert l. induction keep as [|[] keep IH]; intros [|x l]; cbn; try done; by rewrite IH. Qed.
Lemma sample_dedup_readable l r :
  dedup_readable [0] (Some 0) sample_keys (Ok (FlowData (sample_values l) r)).
Proof.
  unfold dedup_readable, sample_keys. cbn [sample_view sample_values batch_columns]. split_and!.
  - by rewrite length_fmap.
  - intros i et k (z & [= -> ->] & Hz)%list_lookup_fmap_Some. cbn. by rewrite Hz.
  - intros keep _. eexists. split; [done|]. cbn. unfold positions. rewrite zip_kept, !kept_fmap. split.
    + f_equal. f_equal. apply list_eq. intros i. rewrite list_lookup_fmap. destruct (l !! i) as [z|] eqn:Hz.
      * rewrite lookup_seq_lt by (by eapply lookup_lt_Some). cbn. by rewrite Hz.
      * rewrite lookup_seq_ge; [done|]. by apply lookup_ge_None_1.
    + by rewrite <-!kept_fmap, !length_fmap.
Qed.
Definition sample_dups : list (FlowResult FlowEvent) :=
  [Ok (sample_event [5; 9; 5]%Z); Ok (FlowMark (Watermark "s" (sample_time 6))); Ok (sample_event [9; 5; 11]%Z)].
Lemma dedup_once_per_watermark_witness :
  ∃ out st, dedup_run [0] (Some 0) dedup_new sample_dups = Returns (out, st) ∧
    (∀ b r, Ok (FlowData b r) ∈ out → NoDup (sample_keys b).*2).
Proof.
  destruct (dedup_once_per_watermark (E := sample_flow) (FC := sample_columns) [0] (Some 0) sample_keys sample_dups)
    as (out & st & Hrun & _ & H & _).
  - repeat apply Forall_cons_2; try apply Forall_nil_2; (apply sample_dedup_readable || done).
  - by exists out, st.
Defined.
(** A row without an event time is forgotten at the next watermark, and comes through a
    second time. *)
Example dedup_absent_event_time :
  (r ← dedup_run [0] (Some 0) dedup_new
    [Ok (sample_event [-1]%Z); Ok (sample_event [-1]%Z); Ok (FlowMark (Watermark "s" (sample_time 0)));
     Ok (sample_event [-1]%Z)]; Returns (fst r)) =
  Returns [Ok (sample_event [-1]%Z); Ok (FlowMark (Watermark "s" (sample_time 0))); Ok (sample_event [-1]%Z)].
Proof. by vm_compute. Qed.

(** Witness of [watermarks_increase_and_hold]: without partitions, with a delay of 2 and
    an interval of 10. *)
Definition sample_exec : WatermarkExec := MkWatermarkExec "v" 2 sample_schema None 10.
Definition sample_polls : list WmPoll :=
  [PollItem 0 0 (Ok (sample_event [5; 7]%Z)); PollItem 1 1 (Ok (sample_event [6; 9]%Z));
   PollItem 20 20 (Ok (sample_event [8]%Z)); PollItem 21 21 (Ok (FlowMark EndOfData))].
Lemma watermarks_increase_and_hold_witness :
  wm_run sample_exec (wm_init 0) sample_polls = Returns
    ([Ok (sample_event [5; 7]%Z); Ok (FlowMark (Watermark "watermark" (sample_time 5)));
      Ok (sample_event [6; 9]%Z); Ok (sample_event [8]%Z); Ok (FlowMark (Watermark "watermark" (sample_time 7)));
      Ok (FlowMark EndOfData)], MkWmState (Some 9%Z) ∅ (Some 7%Z) 0 (Some 20%Z)) ∧
  ∃ out st ws, wm_run sample_exec (wm_init 0) sample_polls = Returns (out, st) ∧
    woven 0 (poll_items sample_polls) out ws ∧ StronglySorted Z.lt ws.*1.
Proof.
  split; [by vm_compute|].
  destruct (watermarks_increase_and_hold (E := sample_flow) (FC := sample_columns) sample_exec 0 sample_polls)
    as (out & st & ws & Hr & Hw & Hs & _).
  - by repeat constructor.
  - by exists out, st, ws.
Defined.

(** ** Witnesses: the state of streaming operators

    The engine of [FlowWitnesses], with a format for batches of numbers. *)

Local Open Scope N_scope.
#[local] Existing Instance sample_flow.
#[local] Existing Instance SampleType_eq.

(** ** The format *)
#[local] Instance SampleType_countable : Countable SampleType.
Proof.
  refine (inj_countable' (λ t, match t with TyBinary => 0%nat | TyBoolean => 1%nat | TyInt => 2%nat end)
    (λ n, match n with 0%nat => TyBinary | 1%nat => TyBoolean | _ => TyInt end) _).
  by intros [].
Defined.
Definition field_tuple (f : Field) : string * SampleType * bool := (field_name f, field_type f, field_nullable f).
Definition tuple_field (x : string * SampleType * bool) : Field := MkField x.1.1 x.1.2 x.2.
Notation BatchTuple := (list (string * SampleType * bool) * list (list Z) * nat)%type.
Definition batch_tuple (b : RecordBatch) : option BatchTuple :=
  cols ← mapM as_ints (batch_columns b);
  Some (field_tuple <$> batch_schema b, cols, batch_num_rows b).
Definition tuple_batch (x : BatchTuple) : RecordBatch :=
  MkRecordBatch (tuple_field <$> x.1.1) (ArInt <$> x.1.2) x.2.
Lemma tuple_batch_tuple b x : batch_tuple b = Some x → tuple_batch x = b.
Proof.
  unfold batch_tuple, tuple_batch. destruct b as [schema columns n]. simpl.
  destruct (mapM as_ints columns) as [cols|] eqn:Hc; [|done]. intros [= <-]. simpl. f_equal.
  - rewrite <- list_fmap_compose. rewrite <- (list_fmap_id schema) at 2. apply list_fmap_ext. by intros _ [] _.
  - apply mapM_Some in Hc. clear -Hc. induction Hc as [|a l columns cols Ha _ IH]; [done|].
    destruct a; simplify_eq/=. by f_equal.
Qed.

Definition sample_write (batches : list RecordBatch) : option Blob :=
  match mapM batch_tuple batches with
  | Some l => Some [Npos (countable.encode (l : list BatchTuple))]
  | None => None
  end.
Definition sample_read (b : Blob) : list RecordBatch :=
  match b with
  | [Npos p] => tuple_batch <$> default [] (countable.decode p : option (list BatchTuple))
  | _ => []
  end.
Definition sample_int32 (a : SampleArray) : option (list (option Z)) :=
  match as_ints a with Some l => Some (Some <$> l) | None => None end.
Definition sample_hashes (arrays : list SampleArray) (n : nat) : FlowResult (list N) :=
  match arrays with
  | ArInt l :: _ => if (length l =? n)%nat then Ok (Z.to_N <$> l) else Err (FeExecution "length")
  | _ => Err (FeExecution "no key")
  end.
#[local] Instance sample_codec : StateCodec := {|
  ipc_write := λ _, sample_write; ipc_read := sample_read; filter_record_batch := sample_filter;
  as_int32 := sample_int32; create_hashes := sample_hashes
|}.


#[local] Instance sample_codec_laws : StateCodecLaws sample_codec (list Z).
Proof.
  refine {| state_rows := λ b, row_at (batch_columns b) <$> seq 0 (batch_num_rows b);
            row_hash := λ key_cols r, Z.to_N (default 0%Z (head key_cols ≫= λ k, r !! k)) |}.
  - intros schema batches blob. cbn. unfold sample_write. destruct (mapM batch_tuple batches) as [l|] eqn:Hl; [|done].
    intros H. injection H as <-. unfold sample_read. rewrite countable.decode_encode. cbn. apply mapM_Some in Hl. clear -Hl.
    induction Hl as [|b x batches l Hb _ IH]; [done|]. cbn. f_equal; [by apply tuple_batch_tuple|apply IH].
  - intros b. by rewrite length_fmap, length_seq.
  - intros b key_cols arrays hashes Ha Hh. destruct key_cols as [|k key_cols]; [by simplify_eq/=|].
    cbn [run_map] in Ha. destruct (vec_index (batch_columns b) k) as [a| |] eqn:Hv; [|done..].
    assert ((batch_columns b : list SampleArray) !! k = Some a) as Hk.
    { unfold vec_index in Hv. destruct (_ !! k) as [a'|] eqn:Hk in Hv; [|done]. injection Hv as ->. exact Hk. }
    cbn in Ha. destruct (run_map _ key_cols); [|done..]. injection Ha as <-. cbn in Hh.
    destruct a as [| |l]; try done. destruct (Nat.eqb_spec (length l) (batch_num_rows b)) as [Hn|]; [|done].
    injection Hh as <-. rewrite <- list_fmap_compose, <- Hn. apply list_eq. intros i.
    rewrite !list_lookup_fmap. destruct (l !! i) as [x|] eqn:Hx.
    + rewrite lookup_seq_lt by by eapply lookup_lt_Some. cbn. unfold row_at. rewrite list_lookup_fmap.
      change (@ArrayRef sample_flow) with SampleArray in Hk. rewrite Hk. cbn. by rewrite Hx.
    + rewrite lookup_seq_ge; [done|]. by apply lookup_ge_None_1.
  - intros b mask b' Hb. rewrite zip_kept. by apply sample_filter_rows.
Defined.

(** ** Checkpoints *)
Lemma sample_segment : segment "op".
Proof. split; [done|]. by repeat constructor. Qed.
Definition spilled_store : Store := (write_spill io_fine ∅ "op" 0 sample_schema [sample_values [5%Z]]).2.
Definition sample_ops : list (StoreIo * StateOp) :=
  [(io_fine, OpSpill "op" 1 sample_schema [sample_values [8%Z]]); (io_fine, OpGcChunks "op" [3] [0; 1]);
   (io_fine, OpGcEpoch "op" 2)].
Lemma checkpoint_survives_witness :
  restore_epoch_incremental io_fine (foldl run_state_op
    (stage_epoch_incremental_kg io_fine spilled_store "op" 3 sample_schema [sample_values [1%Z]] [0] [9%Z] [])
    sample_ops) "op" 3 =
  ([sample_values [1%Z]; sample_values [5%Z]], [9%Z]).
Proof.
  rewrite (checkpoint_survives (Row := list Z) io_fine spilled_store "op" 3 sample_schema [sample_values [1%Z]] [0]
    [9%Z] [] sample_ops).
  - by vm_compute.
  - apply sample_segment.
  - split_and!; [done..| | |constructor]; by repeat constructor.
  - by eexists.
  - done.
  - done.
  - repeat (apply Forall_cons; split); try apply Forall_nil; split; try apply sample_segment; intros _.
    + apply (bool_decide_unpack _). by vm_compute.
    + split; [by left|done].
    + done.
Defined.

(** ** A change from two instances to three *)
Definition rescale_store : Store :=
  let s := stage_epoch_incremental io_fine ∅ "w-0" 4 sample_schema [sample_values [1; 40; 60]%Z] [] [7; 20]%Z in
  let s := stage_epoch_incremental io_fine s "w-1" 4 sample_schema [sample_values [70; 100; 45]%Z] [] [5; 30]%Z in
  stage_parallelism io_fine s "w" 4 2.
Lemma sample_keyed l : batch_keyed [0%nat] (sample_values l).
Proof.
  split; [|by eexists]. exists [ArInt l], (Z.to_N <$> l). split; [done|]. cbn. by rewrite Nat.eqb_refl.
Qed.
Lemma rescale_restores_owned_witness :
  ∃ out meta,
    restore_keyed_range_recompute_auto io_fine rescale_store "w" 4 1 3 128 [0%nat] = Returns (out, meta) ∧
    out ≫= state_rows = [[60]; [70]; [45]]%Z.
Proof.
  destruct (rescale_restores_owned (Row := list Z) rescale_store "w" 4 1 3 128 [0%nat]) as (out & meta & H1 & H2);
    [lia..| |].
  - assert (old_operators "w" (old_parallelism io_fine rescale_store "w" 4 3) = ["w-0"; "w-1"]) as -> by by vm_compute.
    assert ((restore_epoch_incremental io_fine rescale_store "w-0" 4).1 = [sample_values [1; 40; 60]%Z] ∧
      (restore_epoch_incremental io_fine rescale_store "w-1" 4).1 = [sample_values [70; 100; 45]%Z]) as [E1 E2]
      by by vm_compute.
    apply Forall_cons; split; [rewrite E1|apply Forall_singleton; rewrite E2]; apply Forall_singleton, sample_keyed.
  - exists out, meta. split; [done|]. rewrite H2. by vm_compute.
Defined.

(** ** The window operator *)
Definition spilled_acc : SpillState := MkSpillState [] [0] 1 [] [].
Definition sample_checkpoint : Store * SpillState :=
  accum_checkpoint io_fine "op" sample_schema 1 [6%Z] None 1 spilled_store spilled_acc.
Definition sample_window : WinState :=
  MkWinState sample_checkpoint.1 sample_checkpoint.2
    [(1, (gather_partials io_fine spilled_store "op" spilled_acc, [6%Z]))] (Some 1).
Lemma retained_epochs_restore_witness :
  ∃ snap, (1, snap) ∈ ws_snaps sample_window ∧ restore_epoch_incremental io_fine (ws_store sample_window) "op" 1 = snap.
Proof.
  apply (retained_epochs_restore (Row := list Z) "op" sample_schema sample_segment ∅ sample_window 1 [0]).
  - eapply rtc_l; [apply (WinRows _ _ _ _ _ _ [sample_values [5%Z]])|].
    eapply rtc_l; [by apply (WinSpill _ _ _ _ _ _ true spilled_store spilled_acc)|].
    apply rtc_once, (WinCheckpoint "op" sample_schema spilled_store spilled_acc [] None 1 [6%Z] None 1
      sample_checkpoint.1 sample_checkpoint.2).
    + done.
    + by vm_compute.
    + split_and!; [done..| | |constructor]; by repeat constructor.
    + by eexists.
    + apply surjective_pairing.
  - by left.
Defined.

(** Witness of [restart_overwrites_chunk]: the epoch 3 has a residual and a chunk; of the
    batches after the restart the second takes the pending rows over the budget. *)
Definition restart_store : Store :=
  stage_epoch_incremental io_fine spilled_store "op" 3 sample_schema [sample_values [1%Z]] [0] [9%Z].
Notation restart_batch := (accum_batch io_fine "op" sample_schema 1 (λ _, 1) None).
Definition restarted : Store * SpillState * N :=
  foldl restart_batch (restart_store, accum_restore io_fine restart_store "op" 3 accum_new, 0)
    [[sample_values [7%Z]]].

(** Witness of [lagging_epoch_loses_chunk]: the epoch 3 is committed, and the
    checkpoints are at epoch 7. *)
Lemma lagging_epoch_loses_chunk_witness :
  restore_epoch_incremental io_fine restart_store "op" 3 = ([sample_values [1%Z]; sample_values [5%Z]], [9%Z]) ∧
  restore_epoch_incremental io_fine
    (accum_checkpoint io_fine "op" sample_schema 1 [] (Some 3) 7 restart_store
      (MkSpillState [] [] 1 [] [0])).1 "op" 3 = ([sample_values [1%Z]], [9%Z]).
Proof.
  split; [by vm_compute|].
  rewrite (lagging_epoch_loses_chunk "op" sample_schema sample_segment restart_store
    (MkSpillState [] [] 1 [] [0]) 1 [] 3 7 0 [9%Z] []).
  - by vm_compute.
  - by vm_compute.
  - lia.
  - by vm_compute.
  - done.
  - set_solver.
  - set_solver.
Defined.

(** ** The join of two streams

    Two numbers match when they are both even or both odd; a pair passes when the numbers, which
    are also the event times, are at most 2 apart.  Every batch is spilled. *)
Definition pair_matches (a b : Z) : bool := Bool.eqb (Z.even a) (Z.even b).
#[local] Instance sample_join_rows : JoinRows sample_flow := {|
  Cell := Z; cell := λ a i, default 0%Z (ints a !! i); cell_time := Some;
  key_match := λ l r, match l, r with [a], [b] => pair_matches a b | _, _ => false end;
  accepts := λ row, match row with [a; b] => (Z.abs (b - a) <=? 2)%Z | _ => false end
|}.
Definition sample_pairs (bs ps : list RecordBatch) : list (Z * Z) :=
  (bs ≫= sample_view) ≫= λ b, (λ p, (b, p)) <$> filter (λ p, pair_matches b p = true) (ps ≫= sample_view).
#[local] Instance sample_join_library : JoinLibrary sample_flow := {|
  PhysicalExpr := unit; JoinType := unit;
  evaluate := λ _ b, Ok (ArBoolean (accepts <$> rows b));
  as_mask := λ a, match a with ArBoolean l => Some (Some <$> l) | _ => None end;
  hash_join_schema := λ _ _ l r, Ok (l ++ r);
  hash_join := λ _ _ build probe,
    let l := sample_pairs build.2 probe.2 in
    Ok [Ok (MkRecordBatch (build.1 ++ probe.1) [ArInt l.*1; ArInt l.*2] (length l))];
  get_array_memory_size := λ b, N.of_nat (batch_num_rows b)
|}.
Definition sample_join : StreamJoinExec :=
  MkStreamJoinExec [(tt, tt)] tt sample_schema sample_schema (sample_schema ++ sample_schema) (Some tt)
    (Some (-2, 2)%Z) (Some 0%nat) (Some 0%nat).

Definition sample_row (z : Z) : list (@Cell sample_flow _) := [z].
Lemma sample_fits b :
  fits sample_schema b → ∃ l, batch_columns b = [ArInt l] ∧ batch_num_rows b = length l ∧ rows b = sample_row <$> l.
Proof.
  intros [_ H]. unfold sample_schema in H.
  apply Forall2_cons_inv_l in H as (c & cs & [Hc Hn] & H & Hcols). apply Forall2_nil_inv_l in H as ->.
  destruct c as [| |l]; try done. exists l. split_and!; [done..|].
  unfold rows. rewrite Hcols, <-Hn. cbn. apply list_eq. intros i. rewrite !list_lookup_fmap.
  destruct (l !! i) as [z|] eqn:Hz.
  - rewrite lookup_seq_lt by (by eapply lookup_lt_Some). cbn. by rewrite Hz.
  - rewrite lookup_seq_ge; [done|]. by apply lookup_ge_None_1.
Qed.
Lemma sample_view_rows l : Forall (fits sample_schema) l → l ≫= rows = sample_row <$> (l ≫= sample_view).
Proof.
  induction 1 as [|b l Hb _ IH]; [done|]. rewrite !bind_cons, fmap_app, IH. f_equal.
  destruct (sample_fits b Hb) as (v & Hc & _ & ->). unfold sample_view. by rewrite Hc.
Qed.
Lemma pair_rows (l : list (Z * Z)) schema :
  rows (MkRecordBatch schema [ArInt l.*1; ArInt l.*2] (length l)) = (λ x, [x.1; x.2]) <$> l.
Proof.
  unfold rows. cbn. apply list_eq. intros i. rewrite !list_lookup_fmap. destruct (l !! i) as [z|] eqn:Hz.
  - rewrite lookup_seq_lt by (by eapply lookup_lt_Some). cbn. by rewrite !list_lookup_fmap, Hz.
  - rewrite lookup_seq_ge; [done|]. by apply lookup_ge_None_1.
Qed.
Lemma sample_join_out bs ps (f : list (@Cell sample_flow _) → list (@Cell sample_flow _) → bool) :
  (∀ a b : Z, f [a] [b] = pair_matches a b) → Forall (fits sample_schema) bs → Forall (fits sample_schema) ps →
  let l := sample_pairs bs ps in
  let b := MkRecordBatch (sample_schema ++ sample_schema) [ArInt l.*1; ArInt l.*2] (length l) in
  fits (sample_schema ++ sample_schema) b ∧
  rows b = (bs ≫= rows) ≫= λ l, (λ r, l ++ r) <$> filter (λ r, f l r = true) (ps ≫= rows).
Proof.
  intros Hf Hb Hp l b. split.
  - split; [done|]. unfold b. cbn [batch_columns batch_num_rows].
    unfold sample_schema. cbn [app].
    constructor; [|constructor; [|constructor]]; (split; [done|]; cbn; by rewrite length_fmap).
  - unfold b. rewrite pair_rows, (sample_view_rows bs), (sample_view_rows ps) by done.
    unfold l, sample_pairs. generalize (bs ≫= sample_view) as B, (ps ≫= sample_view) as P. clear -Hf. intros B P.
    rewrite list_fmap_bind. induction B as [|z B IH]; [done|]. rewrite !bind_cons, fmap_app, IH. f_equal.
    clear IH. induction P as [|y P IH]; [done|]. cbn [fmap list_fmap]. rewrite !filter_cons. cbn.
    change (f (sample_row z) (sample_row y)) with (f [z] [y]). rewrite Hf.
    destruct (pair_matches z y); [rewrite !decide_True by done; cbn; f_equal|rewrite !decide_False by done]; exact IH.
Qed.
Lemma sample_filter_fits schema b mask b' :
  Forall (λ f, field_type f = TyInt) schema → fits schema b → sample_filter b mask = Some b' → fits schema b'.
Proof.
  intros Hs [Hne H] [= <-]. split; cbn [batch_columns batch_num_rows].
  - by destruct (batch_columns b).
  - rewrite Forall2_fmap_r. clear Hne. induction H as [|f c schema cols [_ _] _ IH]; [constructor|].
    apply Forall_cons in Hs as [Hf Hs]. constructor; [|by apply IH]. split; [by symmetry|]. cbn. by rewrite length_fmap.
Qed.
#[local] Instance sample_join_laws : JoinLaws sample_join.
Proof.
  split.
  - intros side l Hl. assert (Forall (fits sample_schema) l) as Hl' by (by destruct side). clear Hl.
    cbn. unfold sample_write. assert (is_Some (mapM batch_tuple l)) as [t ->]; [|by eexists].
    apply mapM_is_Some. eapply Forall_impl; [exact Hl'|]. intros b (v & Hc & _)%sample_fits.
    destruct b as [schema cols n]. cbn in Hc. subst cols. by eexists.
  - intros schema b mask Hs Hb Hm. eexists. split; [done|]. split; [by apply sample_filter_rows|].
    eapply sample_filter_fits; [|done|done]. destruct Hs as [[[] ->]| ->]; by repeat constructor.
  - intros c l. cbn. destruct c as [| |z]; try done. intros [= <-]. cbn. apply list_eq. intros i.
    rewrite !list_lookup_fmap. destruct (z !! i) as [y|] eqn:Hy.
    + rewrite lookup_seq_lt by (by eapply lookup_lt_Some). cbn. by rewrite Hy.
    + rewrite lookup_seq_ge; [done|]. by apply lookup_ge_None_1.
  - intros f b _ _. eexists _, _. split; [done|]. split; [done|]. rewrite <-list_fmap_compose. apply list_fmap_id.
  - intros bs ps Hb Hp. destruct (sample_join_out bs ps key_match (λ _ _, eq_refl) Hb Hp) as [H1 H2].
    eexists [_]. split; [done|]. split; [by apply Forall_singleton|].
    rewrite bind_cons, app_nil_r. apply Permutation_refl'. exact H2.
  - intros bs ps Hb Hp. destruct (sample_join_out bs ps (λ r l, key_match l r)) as [H1 H2]; [|done..|].
    { intros a b. cbn. unfold pair_matches. by destruct (Z.even a), (Z.even b). }
    eexists [_]. split; [done|]. split; [by apply Forall_singleton|].
    rewrite bind_cons, app_nil_r. apply Permutation_refl'. exact H2.
Qed.
Lemma sample_configured : configured sample_join.
Proof.
  split; [done|by intros [] i [= <-]; vm_compute; lia|].
  intros lower upper l r [= <- <-]. unfold good. cbn.
  destruct l as [|a [|]]; [done| |done]. destruct r as [|b [|]]; [done| |done].
  intros [_ H%Z.leb_le]%andb_prop. exists a, b. cbn. split_and!; [done..|lia|lia].
Qed.

Definition spill_env (inc : bool) : JoinEnv := MkJoinEnv true 0 inc.
Definition left_data (l : list Z) : StoreIo * (Side * FlowResult FlowEvent) := (io_fine, (SideLeft, Ok (sample_event l))).
Definition right_data (l : list Z) : StoreIo * (Side * FlowResult FlowEvent) := (io_fine, (SideRight, Ok (sample_event l))).
Definition mark_at (side : Side) (t : Z) : StoreIo * (Side * FlowResult FlowEvent) :=
  (io_fine, (side, Ok (FlowMark (Watermark "s" (sample_time t))))).
(** 1 is dropped at the second watermark. *)
Definition sample_joins1 : list (StoreIo * (Side * FlowResult FlowEvent)) :=
  [left_data [1; 4]%Z; right_data [3; 6; 9]%Z; mark_at SideLeft 2; mark_at SideRight 5].
Definition sample_joins2 : list (StoreIo * (Side * FlowResult FlowEvent)) :=
  [left_data [7; 8]%Z; right_data [6]%Z].
Lemma sample_poll_ok side l : poll_ok sample_join (io_fine, (side, Ok (sample_event l))).
Proof.
  split; [done|]. cbn. assert (side_schema sample_join side = sample_schema) as -> by (by destruct side).
  split; [done|]. by repeat constructor.
Qed.
Lemma sample_mark_ok side t : (0 <= t < 100)%Z → poll_ok sample_join (mark_at side t).
Proof.
  intros Ht. split; [done|]. intros w [= <-]. unfold mark_ok, in_i64, i64_min. cbn. unfold sample_time.
  split_and!; [lia|lia|lia|]. intros sd lower upper [= <- <-]. destruct sd; cbn; lia.
Qed.
Lemma sample_polls_ok : Forall (poll_ok sample_join) (sample_joins1 ++ sample_joins2).
Proof.
  repeat apply Forall_cons_2; try apply Forall_nil_2; first [apply sample_poll_ok|apply sample_mark_ok; lia].
Qed.
Lemma sample_timely : timely sample_join (sample_joins1 ++ sample_joins2).
Proof.
  intros p1 io side b r p2 w row t Heq Hw Hrow Ht. unfold sample_joins1, sample_joins2 in Heq. cbn [app] in Heq.
  assert (side_marks side p1 = [] ∨ (∀ w, w ∈ side_marks side p1 → w <= 5)%Z ∧ rows b = sample_row <$> [7; 8]%Z ∨
    (∀ w, w ∈ side_marks side p1 → w <= 5)%Z ∧ rows b = sample_row <$> [6]%Z) as [Hm|[[Hm Hr]|[Hm Hr]]].
  { destruct p1 as [|q1 [|q2 [|q3 [|q4 [|q5 [|q6 p1]]]]]]; unfold left_data, right_data, mark_at in Heq;
      simplify_eq/=; [by left|by left|right; left|right; right|].
    - split; [|done]. intros w' [->|[]%not_elem_of_nil]%elem_of_cons. by vm_compute.
    - split; [|done]. intros w' [->|[]%not_elem_of_nil]%elem_of_cons. by vm_compute.
    - by destruct p1. }
  - rewrite Hm in Hw. set_solver.
  - specialize (Hm w Hw). rewrite Hr in Hrow. apply list_elem_of_fmap in Hrow as (z & -> & Hz).
    assert (t = z) as -> by (by destruct side; injection Ht).
    repeat (apply elem_of_cons in Hz as [->|Hz]; [lia|]). set_solver.
  - specialize (Hm w Hw). rewrite Hr in Hrow. apply list_elem_of_fmap in Hrow as (z & -> & Hz).
    assert (t = z) as -> by (by destruct side; injection Ht).
    repeat (apply elem_of_cons in Hz as [->|Hz]; [lia|]). set_solver.
Qed.
(** Witness of [join_pairs_once]. *)
Lemma join_pairs_once_witness :
  ∃ out st, join_execute (spill_env true) sample_join 0 io_fine ∅ (sample_joins1 ++ sample_joins2) = Ok (Returns (out, st)) ∧
    out_rows out ≡ₚ [[1; 3]; [4; 6]; [4; 6]; [7; 9]; [8; 6]; [8; 6]]%Z.
Proof.
  destruct (join_pairs_once (E := sample_flow) (SRow := list Z) sample_join (spill_env true) io_fine
    (sample_joins1 ++ sample_joins2)) as (out & st & Hr & Hrows & _).
  - apply sample_configured.
  - apply sample_polls_ok.
  - apply sample_timely.
  - by vm_compute.
  - exists out, st. split; [done|]. rewrite Hrows. apply Permutation_refl'. by vm_compute.
Defined.


(** The run of these polls: the chunk of 1 and 4 is dropped, and 4 is spilled again. *)
Example sample_join_run :
  match join_execute (spill_env true) sample_join 0 io_fine ∅ (sample_joins1 ++ sample_joins2) with
  | Ok (Returns (out, (s, acc))) =>
      (out_rows out, out_marks out, sb_spilled (ja_left acc), sb_spilled (ja_right acc)) =
      ([[1; 3]; [4; 6]; [7; 9]; [8; 6]; [4; 6]; [8; 6]]%Z, [2%Z], [1; 2], [2; 3])
  | _ => False
  end.
Proof. by vm_compute. Qed.
